(* ===== verification/_CoqProject ===== *)
-Q . S2P
Prelude.v
Utils.v
Timing.v
QueueModels.v
BlockInfo.v
AddressMap.v
Replacement.v
CacheModel.v
ShmemMsg.v
Directory.v
Nuca.v
DirCntlr.v
Memory.v
Epoch.v
UndoBuffer.v
Picl.v
Log.v
StateResult.v
TlbAtd.v
Prefetchers.v
CacheLines.v
CacheCntlr.v
MemoryManager.v
Hierarchy.v
Inclusion.v
Accesses.v
Parts.v
Multilevel.v
Persistence.v
Machine.v
CoreAccess.v
CoreSystem.v
Locks.v
BarrierSync.v
Threads.v
SyncServer.v
Futex.v
WaitingThreads.v
Scheduler.v
Network.v
Mesh.v
Delivery.v
MeshLatency.v
Sift.v
SiftTrace.v
SiftSession.v
SiftExamples.v
CircularQueue.v
