(* ===== verification/Prelude.v ===== *)
(** * A verification library for PiCL

    PiCL is a checkpointing memory system in the Sniper simulator
    ([src/sniper/common/]).  Execution is cut into epochs.  The first write of an
    epoch to a line of the last-level cache hands an undo entry (the tag of the line and
    the epochs during which its old contents were valid; the contents themselves are not in
    the entries of this code) to an on-chip buffer of the core; the buffer
    is emptied into a log in non-volatile memory when an epoch is old enough, when it
    overflows, and when the application exits.  Above the last level is a hierarchy of
    private and shared caches, below it a directory that keeps the caches coherent and
    memory controllers; cores access the hierarchy, a barrier keeps their clocks together,
    a scheduler gives them threads, and networks carry the messages.  This library models
    these parts as executable functions and proves what they promise to each other.

    ** Files

    Paths are relative to [src/sniper/common/], [MS] is [core/memory_subsystem],
    [DIR] is [MS/pr_l1_pr_l2_dram_directory_msi] and [PAR] is
    [MS/parametric_dram_directory_msi].

    Foundations:
    - [Prelude] (this file): results and failures, machine integers, arrays, the
      precondition calculus [wp], tactics.
    - [StateResult]: the monad of the components that change a state, and its weakest
      precondition [wps].
    - [Utils]: [misc/utils.cc], [misc/rng.h]; [CircularQueue]: [misc/circular_queue.h].
    - [Timing]: [misc/subsecond_time.h], [DIR/shmem_perf.*] and
      [performance_model/shmem_perf_model.*].
    - [QueueModels]: [performance_model/queue_model_*.*] and [contention_model.*], with
      [misc/moving_average.h] and [misc/modulo_num.*]; the class [QueueModel] is the
      interface of [queue_model.h], each model an instance.

    Caches:
    - [BlockInfo]: [MS/cache/cache_block_info.*], [cache_state.h],
      [pr_l2_cache_block_info.*], [MS/mem_component.h].
    - [AddressMap]: [MS/cache/cache_base.*] (sets, tags, hashes) and
      [MS/address_home_lookup.*] (home nodes).
    - [Replacement]: the eight [MS/cache/cache_set_*.cc].  [Policy] is the interface
      of [CacheSet]'s virtual functions, [PolicyLaws] what a set relies on: LRU, NMRU,
      PLRU, round robin and SRRIP are shown to satisfy it.
    - [CacheModel]: [MS/cache/cache_set.*] and [cache.*], generic in the policy;
      [CacheLines]: the same seen as a map from block numbers to blocks.
    - [Nuca]: [PAR/nuca_cache.*], with any queue model.
    - [TlbAtd], [Prefetchers]: [PAR/tlb.*], [PAR/cache_atd.*], [PAR/*prefetcher.*].

    PiCL:
    - [Epoch]: [system/epoch_manager.*], [system/hooks_manager.*], and the
      instruction-count hook of [core/core.cc].
    - [UndoBuffer]: [MS/cache/onchip_undo_buffer.*] and [PAR/onchip_undo_buffer_cntlr.*].
    - [Picl]: the system of these parts around a last-level cache, for any number of cores
      and caches that share one epoch manager; [Picl.run] executes a sequence of events.
    - [Log]: the interface [log_inv] between the log and the hierarchy of caches.

    Directory and memory:
    - [ShmemMsg]: [DIR/shmem_msg.*], [DIR/shmem_req.*],
      [MS/cache/req_queue_list_template.h], with the life time of data buffers.
    - [Directory]: [MS/directory_schemes/*] and [DIR/dram_directory_cache.*]; entries
      are in a store and are reached by pointers.
    - [DirCntlr]: all of [DIR/dram_directory_cntlr.*], and [sendMsg], [broadcastMsg]
      and [handleMsgFromNetwork] of [PAR/memory_manager.cc]; [DirCntlr.deliver] hands
      it a sequence of packets.
    - [Memory]: the DRAM and NVM controllers [DIR/dram_cntlr.*] and [DIR/nvm_cntlr.*] behind
      the interface of [MS/dram/dram_cntlr_interface.*], the cache [MS/dram/dram_cache.*] and
      the constant and read/write models [performance_model/{dram,nvm}_perf_model_*.*].

    The hierarchy of caches:
    - [CacheCntlr]: all of [PAR/cache_cntlr.*], with the locks left to [Locks]; a controller is
      a number, the state holds what changes of each controller and each cache.
    - [Hierarchy], [Inclusion], [Accesses], [Parts]: what a tree of controllers is, what
      updates of a subtree, messages of the directory, accesses and prefetches do to it, and
      what the parts plugged into it promise.
    - [Multilevel]: the step relation of cores and directory on a hierarchy and its invariants;
      [Persistence]: PiCL in that hierarchy.
    - [MemoryManager]: the constructors of [PAR/memory_manager.cc] that build the machine from
      its configuration; [Machine]: what they build is a hierarchy as above.
    - [CoreAccess]: memory accesses of [core/core.cc]; [CoreSystem]: cores on the hierarchy.
    - [Locks]: [misc/setlock.*] and the locking protocol of cores and the network thread.

    Cores, threads and networks:
    - [BarrierSync]: [system/barrier_sync_{server,client}.*].
    - [Threads]: [system/thread_manager.*], [core/thread.*]; [SyncServer]:
      [system/sync_server.*]; [Futex]: [system/syscall_server.*]; [WaitingThreads]: these
      together, as a step relation.
    - [Scheduler]: [scheduler/scheduler_{dynamic,pinned_base,pinned,roaming}.*], in mutual
      recursion with the thread manager.
    - [Network]: [network/network.*], the four [network/network_model_*.*] and the queues of
      [transport/smtransport.*]; [Mesh]: ways through a mesh; [Delivery]: the class
      [NetworkLaws] and the delivery of packets; [MeshLatency]: times and places.

    Traces (paths relative to [src/sniper/sift/]):
    - [Sift]: the records, writer and reader of [sift_format.h], [sift_writer.*] and
      [sift_reader.*]; [SiftTrace]: a trace that is written and read; [SiftSession]: a program
      and a simulator at the two ends of a pair of pipes; [SiftExamples]: both at work.

    Names are those of the code: [OnChipUndoBufferCntlr.flush] models
    [OnChipUndoBufferCntlr::flush], a record [t] in a module holds the members of the
    class of that name, and the model returns the new object where the code changes
    it in place.  A property is introduced by its claim number.

    ** What is shown

    - Persistence ([Picl], [UndoBuffer], [Persistence]): in every run no undo entry is lost, an
      entry whose epoch is declared persisted is in the log (as long as no buffer
      overflows and the application has not exited), exit empties all buffers into the log, a
      line is logged once per epoch, an insertion always succeeds and flushes the oldest
      epochs first; in the full hierarchy a line of the last-level cache marked with an epoch
      has its entry in a buffer or the log.  Further lemmas describe runs in which the
      declared epoch promises too much or a write escapes the log.
    - Caches ([CacheModel], [Replacement], [AddressMap]): a set is a bounded finite
      map from tags to blocks and a cache one from block addresses, whatever lawful
      policy it uses; LRU is the list of ways by last use; searches for a victim end;
      addresses are split without loss.
    - Hierarchy ([Multilevel], [Machine], [CoreSystem]): in every reachable state each cache
      includes those above it, demands of the directory are answered unless the code asserts
      that there is none, accesses end; the
      constructors build a machine to which this applies, and accesses of cores, which are
      those of a flat memory when they are cut into lines, are steps of it.
    - Coherence ([DirCntlr], [Directory], [ShmemMsg]): for all sequences of packets,
      the directory answers every request exactly once or still queues it, and
      each entry is uncached, shared, or owned by its only sharer; its recursion ends;
      requests of a line are served in order; sharers are a finite set.
    - Memory ([Memory], [QueueModels]): reads return what was written last, log messages
      arrive as writes, a queue model never lets two requests use a resource at once.
    - Locks ([Locks]): cores and network threads exclude each other, and do not deadlock unless
      a cache below the first level writes through.
    - Clocks ([BarrierSync]): running cores are never more than a barrier period apart, and a
      barrier at which all have arrived is left; in detailed mode, with periodic hooks that
      migrate threads and do nothing else to the barrier.
    - Threads ([SyncServer], [Futex], [WaitingThreads], [Scheduler]): a thread that sleeps is in
      one queue or waits for a core; mutexes are queues of threads; futexes wake up in order;
      scheduler and thread manager agree which thread is where, and their recursion ends.
    - Networks ([Delivery], [MeshLatency]): every packet arrives once, in order, on each of
      the models, the broadcast tree of the mesh excepted; without contention its latency is
      that of its way; memory controllers get nodes of their own on the border.
    - Traces ([SiftTrace], [SiftSession]): a trace of calls that the format can say is read as it
      was written, and calls through the pipes cannot be told from direct ones, memory accesses
      of the simulator in the calls that serve them included.
    - Infrastructure ([Epoch], [Timing], [CircularQueue]): hooks are called in order, latency is
      attributed completely, a ring of slots is a bounded list.

    ** Conventions and bounds

    A definition that can fail returns [result]: see [failure] below.  Machine
    integers are [Z], with [u8], [u32], [u64] and [s32] where the code may wrap.  What the
    code leaves uninitialised is an argument whose name starts with [uninit].
    Recursion that is not structural takes fuel: [insertUndoEntry] gets [acs_gap + 1]
    flushes (enough: [insertUndoEntry_total]), [processNextReqFromL2Cache] is shown not
    to need more than one unit per packet ([directory_terminates]), round robin one
    per way ([round_robin_terminates]), SRRIP one round per counter value
    ([srrip_victim_distant]), [countBits] 64 rounds ([countBits_popcount]); controllers of
    caches take one unit per level below them ([access_terminates]), the barrier one per round,
    [reschedule] two more than there are cores ([scheduler_threads_agree]), [netSend] the
    diameter of the mesh ([network_delivers]), [Read] one per byte of the trace
    ([sift_roundtrip]).  Searches that have no bound in the code either
    return [Diverges] or run out of fuel: round robin when no way may be evicted, the random
    policy, whose model follows the first [RandomPolicy.CALLS] draws, and the search of the
    pinned scheduler for a free core.

    ** Interfaces

    [Policy]/[PolicyLaws] and [PolicyFactory] (replacement), [QueueModel]/[QueueLaws],
    [Prefetcher]/[PrefetcherLaws], the memory controllers ([TotalDram], [TotalPerf]),
    [log_inv] (log and hierarchy), [MemorySystem] (what a core accesses), [Environment] (what
    the barrier knows of cores, threads and hooks), [InitialAffinity] (a scheduler's policy),
    [NetworkModel]/[NetworkLaws].  Messages for the cache controllers go to functions given to
    [DirCntlr.deliver], as do those for the memory controller, whose handler is
    [Memory.handleMsgForDram].

    ** Not modelled

    The directory and the hierarchy of caches are two systems whose messages to each other are
    any sequence: the hierarchy is shown for all messages a directory may send, the directory
    for all packets of caches.  Statistics that nothing reads, log output, hardware-failure
    stalls, fault injectors, configuration files, compressed traces, the opening of files and pipes, the traffic matrix of networks, system calls
    that are forwarded to the host, and what is computed in floating point are left out: they
    are input and output, or the real numbers they compute are not those of the machine.
*)
From stdpp Require Export base option list gmap strings numbers fin_maps.
From Stdlib Require Export ZArith Lia.

Declare Scope picl_scope.
Delimit Scope picl_scope with picl.
#[global] Open Scope Z_scope.
#[global] Open Scope picl_scope.

(** ** Failures and results

    The simulator is C++: an operation either returns, or stops the process
    in an [assert]/[LOG_ASSERT_ERROR] ([AssertFail]) or a [LOG_PRINT_ERROR]
    ([LogError]), or has no defined behaviour: an array index out of range,
    a null pointer or freed memory dereferenced, a division by zero; [Diverges] is a loop
    that found no way out and no change of state.  [NoFuel] is the only
    failure that is not the program's: a definition by recursion on a fuel
    argument ran out of it. *)
Inductive failure :=
  | AssertFail
  | LogError
  | OutOfRange
  | NullPointer
  | UseAfterFree
  | DivByZero
  | Diverges
  | NoFuel.

#[global] Instance failure_eq_dec : EqDecision failure.
Proof. solve_decision. Defined.

Inductive result (A : Type) :=
  | Ok (a : A)
  | Err (e : failure).
Arguments Ok {A} _.
Arguments Err {A} _.

#[global] Instance result_eq_dec `{EqDecision A} : EqDecision (result A).
Proof. solve_decision. Defined.

Definition rbind {A B} (m : result A) (f : A → result B) : result B :=
  match m with
  | Ok a => f a
  | Err e => Err e
  end.

Definition is_ok {A} (m : result A) : bool :=
  match m with Ok _ => true | Err _ => false end.

(** [check b e] is the guard of an assertion: it fails with [e] unless [b]. *)
Definition check (b : bool) (e : failure) : result unit :=
  if b then Ok () else Err e.

(** An array or vector read, undefined out of range. *)
Definition arr_get {A} (l : list A) (i : nat) : result A :=
  match l !! i with
  | Some a => Ok a
  | None => Err OutOfRange
  end.

(** An array or vector write, undefined out of range. *)
Definition arr_set {A} (l : list A) (i : nat) (a : A) : result (list A) :=
  match l !! i with
  | Some _ => Ok (<[i := a]> l)
  | None => Err OutOfRange
  end.

(** Unsigned [/] and [%]. *)
Definition udiv (a b : Z) : result Z := if b =? 0 then Err DivByZero else Ok (a `div` b).
Definition umod (a b : Z) : result Z := if b =? 0 then Err DivByZero else Ok (a `mod` b).

Notation "'let!' p ':=' m 'in' k" := (rbind m (λ p, k))
  (at level 10, p pattern, m at level 100, k at level 200,
   format "'[v' 'let!'  p  ':='  m  'in' '/' k ']'") : picl_scope.

(** ** Machine integers

    An unsigned integer of the program is a [Z]; every place where the code
    can leave the range of the type writes the wrap-around of that width. *)
Definition u8 (x : Z) : Z := x `mod` 2 ^ 8.
Definition u32 (x : Z) : Z := x `mod` 2 ^ 32.
Definition u64 (x : Z) : Z := x `mod` 2 ^ 64.
(** Conversion of a value to [SInt32] (two's complement). *)
Definition s32 (x : Z) : Z := (x + 2 ^ 31) `mod` 2 ^ 32 - 2 ^ 31.

Definition UINT32_MAX : Z := 2 ^ 32 - 1.
Definition UINT64_MAX : Z := 2 ^ 64 - 1.
(** [INVALID_ADDRESS], and the tag [~0] of an invalid block. *)
Definition INVALID_ADDRESS : Z := 2 ^ 64 - 1.
Definition INVALID_CORE_ID : Z := -1.

Definition in_u8 (x : Z) : Prop := 0 ≤ x < 2 ^ 8.
Definition in_u32 (x : Z) : Prop := 0 ≤ x < 2 ^ 32.
Definition in_u64 (x : Z) : Prop := 0 ≤ x < 2 ^ 64.

#[global] Arguments Z.modulo : simpl never.
#[global] Arguments Z.div : simpl never.

Create HintDb picl.
Create HintDb picl_rw.
Create HintDb calm.

Lemma u8_small x : in_u8 x → u8 x = x.
Proof. intros H; apply Z.mod_small, H. Qed.
Lemma u32_small x : in_u32 x → u32 x = x.
Proof. intros H; apply Z.mod_small, H. Qed.
Lemma u64_small x : in_u64 x → u64 x = x.
Proof. intros H; apply Z.mod_small, H. Qed.
Lemma s32_small x : - 2 ^ 31 ≤ x < 2 ^ 31 → s32 x = x.
Proof. intros H. unfold s32. rewrite Z.mod_small; lia. Qed.
Lemma u8_range x : in_u8 (u8 x).
Proof. apply Z.mod_pos_bound; lia. Qed.
Lemma u32_range x : in_u32 (u32 x).
Proof. apply Z.mod_pos_bound; lia. Qed.
Lemma u64_range x : in_u64 (u64 x).
Proof. apply Z.mod_pos_bound; lia. Qed.
#[export] Hint Resolve u8_range u32_range u64_range : picl.

(** Unfolds the ranges, so that [lia] sees the numbers. *)
Ltac ranges := unfold in_u8, in_u32, in_u64, INVALID_ADDRESS, UINT32_MAX, UINT64_MAX in *.
Ltac rlia := ranges; lia.

(** Proves closed facts on numbers by evaluation. *)
Ltac by_compute := vm_compute; intuition (reflexivity || congruence).

(** ** Inversion of results *)

Lemma rbind_ok {A B} (m : result A) (f : A → result B) b :
  rbind m f = Ok b ↔ ∃ a, m = Ok a ∧ f a = Ok b.
Proof. destruct m; naive_solver. Qed.

Lemma check_ok b e u : check b e = Ok u ↔ b = true.
Proof. destruct u, b; naive_solver. Qed.

Lemma arr_get_ok {A} (l : list A) i a : arr_get l i = Ok a ↔ l !! i = Some a.
Proof. unfold arr_get; destruct (l !! i); naive_solver. Qed.

Lemma arr_set_ok {A} (l l' : list A) i a :
  arr_set l i a = Ok l' ↔ (i < length l)%nat ∧ l' = <[i := a]> l.
Proof.
  unfold arr_set; destruct (l !! i) eqn:E.
  - apply lookup_lt_Some in E. naive_solver.
  - apply lookup_ge_None in E. split; [done | intros [? _]; lia].
Qed.

Lemma umod_ok a b r : umod a b = Ok r ↔ b ≠ 0 ∧ r = a `mod` b.
Proof. unfold umod. destruct (Z.eqb_spec b 0); naive_solver. Qed.

Lemma udiv_ok a b r : udiv a b = Ok r ↔ b ≠ 0 ∧ r = a `div` b.
Proof. unfold udiv. destruct (Z.eqb_spec b 0); naive_solver. Qed.

(** Opens the binds, checks and array accesses of hypotheses [_ = Ok _]. *)
Ltac inv_ok :=
  repeat match goal with
  | H : rbind _ _ = Ok _ |- _ => apply rbind_ok in H as (? & ? & H)
  | H : check _ _ = Ok _ |- _ => apply check_ok in H
  | H : arr_get _ _ = Ok _ |- _ => apply arr_get_ok in H
  | H : arr_set _ _ _ = Ok _ |- _ => apply arr_set_ok in H as [? H]
  | H : umod _ _ = Ok _ |- _ => apply umod_ok in H as [? H]
  | H : udiv _ _ = Ok _ |- _ => apply udiv_ok in H as [? H]
  | H : Ok _ = Ok _ |- _ => injection H as H
  | H : Err _ = Ok _ |- _ => discriminate H
  | H : (_, _) = (_, _) |- _ => injection H as ? ?
  | H : (let (_, _) := ?x in _) = Ok _ |- _ => is_var x; destruct x
  | H : (let (_, _) := ?x in _) = Ok _ |- _ => destruct x eqn:?
  end; try subst.

(** ** Step relations and reachability *)

Section star.
Context {A : Type} (R : A → A → Prop).

Inductive star : A → A → Prop :=
  | star_refl a : star a a
  | star_step a b c : star a b → R b c → star a c.

(** An invariant of the steps holds in every reachable state. *)
Lemma star_invariant (P : A → Prop) a b :
  (∀ x y, P x → R x y → P y) → P a → star a b → P b.
Proof. intros Hstep Ha Hs. induction Hs; eauto. Qed.

Lemma star_one a b : R a b → star a b.
Proof. intros H. eapply star_step; [apply star_refl | exact H]. Qed.
End star.
#[export] Hint Constructors star : picl.

(** ** Generic lemmas *)

Lemma list_insert_Forall {A} (P : A → Prop) (l : list A) i a :
  Forall P l → P a → Forall P (<[i := a]> l).
Proof. intros Hl Ha. by apply Forall_insert. Qed.

Lemma filter_negb_perm {A} (f : A → bool) (l : list A) :
  List.filter f l ++ List.filter (λ x, negb (f x)) l ≡ₚ l.
Proof.
  induction l as [|a l IH]; [done|]. cbn.
  destruct (f a); cbn; [by rewrite IH|].
  rewrite <- IH at 3. symmetry. apply Permutation_middle.
Qed.

Lemma In_filter {A} (f : A → bool) (l : list A) a :
  a ∈ List.filter f l ↔ a ∈ l ∧ f a = true.
Proof. rewrite !list_elem_of_In. apply List.filter_In. Qed.

(** ** Weakest preconditions

    [wp B m Q]: if [m] returns, its result satisfies [Q]; and when [B] holds, [m] does not
    run out of fuel.  With [B] false it is partial correctness for any fuel. *)
Definition wp {A} (B : Prop) (m : result A) (Q : A → Prop) : Prop :=
  match m with
  | Ok a => Q a
  | Err e => B → e ≠ NoFuel
  end.

Section wp.
Context {A : Type} (B : Prop).
Implicit Types (m : result A) (Q : A → Prop).

Lemma wp_ok a Q : Q a → wp B (Ok a) Q.
Proof. done. Qed.
Lemma wp_err e Q : e ≠ NoFuel → wp B (Err e : result A) Q.
Proof. intros He _. exact He. Qed.
Lemma wp_mono m Q R : wp B m Q → (∀ a, Q a → R a) → wp B m R.
Proof. destruct m; cbn; eauto. Qed.
Lemma wp_bind {A'} m (f : A → result A') (R : A' → Prop) :
  wp B m (λ a, wp B (f a) R) → wp B (rbind m f) R.
Proof. by destruct m. Qed.
Lemma wp_elim m Q a : wp B m Q → m = Ok a → Q a.
Proof. intros H ->. exact H. Qed.
(** A computation that never runs out of fuel may be followed by a case analysis. *)
Lemma wp_intro m Q : (B → m ≠ Err NoFuel) → (∀ a, m = Ok a → Q a) → wp B m Q.
Proof. destruct m; cbn; [eauto|]. intros Hm _ HB ->. by apply Hm. Qed.
End wp.

Lemma wp_check B b e (Q : unit → Prop) : e ≠ NoFuel → (b = true → Q tt) → wp B (check b e) Q.
Proof. destruct b; cbn; eauto. Qed.
Lemma arr_get_fuel {A} (l : list A) i : arr_get l i ≠ Err NoFuel.
Proof. unfold arr_get. by destruct (l !! i). Qed.
Lemma arr_set_fuel {A} (l : list A) i a : arr_set l i a ≠ Err NoFuel.
Proof. unfold arr_set. by destruct (l !! i). Qed.
Lemma umod_fuel a b : umod a b ≠ Err NoFuel.
Proof. unfold umod. by case_match. Qed.
Lemma udiv_fuel a b : udiv a b ≠ Err NoFuel.
Proof. unfold udiv. by case_match. Qed.
Lemma rbind_fuel {A B} (m : result A) (f : A → result B) :
  m ≠ Err NoFuel → (∀ a, m = Ok a → f a ≠ Err NoFuel) → rbind m f ≠ Err NoFuel.
Proof. destruct m; cbn; [eauto|]. intros Hm _ [= ->]. done. Qed.
Lemma check_fuel b e : e ≠ NoFuel → check b e ≠ Err NoFuel.
Proof. destruct b; cbn; congruence. Qed.
#[export] Hint Resolve arr_get_fuel arr_set_fuel umod_fuel udiv_fuel : picl.

(** Code without recursion on fuel does not run out of it. *)
Ltac no_fuel :=
  repeat first
    [ discriminate
    | solve [auto with picl]
    | apply check_fuel; discriminate
    | apply rbind_fuel; [|intros ? ?]
    | case_match ].
