(* ===== verification/Utils.v ===== *)
(** Arithmetic helpers of [misc/utils.cc] and the pseudo random generator of
    [misc/rng.h], with the mathematical functions they compute. *)
From S2P Require Import Prelude.

(** ** [misc/utils.cc] *)

Definition isPower2 (n : Z) : bool := Z.land n (u32 (n - 1)) =? 0.

Definition floorLog2 (n : Z) : Z :=
  let p := 0 in
  if n =? 0 then -1
  else
    let '(p, n) := if negb (Z.land n 0xffff0000 =? 0) then (p + 16, Z.shiftr n 16) else (p, n) in
    let '(p, n) := if negb (Z.land n 0x0000ff00 =? 0) then (p + 8, Z.shiftr n 8) else (p, n) in
    let '(p, n) := if negb (Z.land n 0x000000f0 =? 0) then (p + 4, Z.shiftr n 4) else (p, n) in
    let '(p, n) := if negb (Z.land n 0x0000000c =? 0) then (p + 2, Z.shiftr n 2) else (p, n) in
    if negb (Z.land n 0x00000002 =? 0) then p + 1 else p.

Definition ceilLog2 (n : Z) : Z := floorLog2 (u32 (n - 1)) + 1.

(** [for (result = 1; n &= n - 1; ++result);] *)
Fixpoint countBits_loop (fuel : nat) (n result : Z) : option Z :=
  match fuel with
  | O => None
  | S fuel =>
      let n := Z.land n (u64 (n - 1)) in
      if n =? 0 then Some result else countBits_loop fuel n (u64 (result + 1))
  end.

Definition countBits (fuel : nat) (n : Z) : option Z :=
  if n =? 0 then Some 0 else countBits_loop fuel n 1.

(** ** [misc/rng.h] *)

Definition RNG_A : Z := 0x5DEECE66D.
Definition RNG_C : Z := 0xB.
Definition RNG_M : Z := Z.shiftl 1 48 - 1.

(** Returns the result and the new value of [state]. *)
Definition rng_next (state : Z) : Z * Z :=
  let state := Z.land (u64 (u64 (RNG_A * state) + RNG_C)) RNG_M in
  (Z.shiftr state 16, state).

Definition rng_seed (seed : Z) : Z := u64 (u64 (Z.shiftl seed 16) + 0x330E).

(** ** Lemmas *)

Lemma testbit_hi n k : 0 ≤ n → n < 2 ^ k → ∀ m, k ≤ m → Z.testbit n m = false.
Proof.
  intros H0 H m Hm. destruct (decide (n = 0)) as [->|]; [by rewrite Z.bits_0|].
  apply Z.bits_above_log2; [done|]. apply Z.log2_lt_pow2; [lia|].
  eapply Z.lt_le_trans; [exact H|]. apply Z.pow_le_mono_r; [lia|].
  assert (0 ≤ k) by (destruct (Z.neg_nonneg_cases k); [rewrite Z.pow_neg_r in H by lia|]; lia).
  lia.
Qed.

(** A number below [2^(a+b)] with no bit set in [a .. a+b-1] is below [2^a]. *)
Lemma land_mask_zero n a b :
  0 ≤ a → 0 ≤ b → 0 ≤ n < 2 ^ (a + b) →
  Z.land n (Z.shiftl (Z.ones b) a) = 0 → n < 2 ^ a.
Proof.
  intros Ha Hb [H0 Hn] Hz.
  destruct (Z.lt_ge_cases n (2 ^ a)) as [|Hge]; [done|exfalso].
  assert (0 < 2 ^ a) by (apply Z.pow_pos_nonneg; lia).
  pose proof (Z.bit_log2 n ltac:(lia)) as Hbit.
  assert (a ≤ Z.log2 n) by (apply Z.log2_le_pow2; lia).
  assert (Z.log2 n < a + b) by (apply Z.log2_lt_pow2; lia).
  assert (Z.testbit (Z.land n (Z.shiftl (Z.ones b) a)) (Z.log2 n) = true) as Ht.
  { rewrite Z.land_spec, Hbit, Z.shiftl_spec by lia.
    rewrite Z.testbit_ones_nonneg by lia. apply andb_true_intro.
    split; [done|]. lia. }
  by rewrite Hz, Z.bits_0 in Ht.
Qed.

Lemma land_mask_nonzero n a b :
  0 ≤ a → 0 ≤ b → 0 ≤ n → Z.land n (Z.shiftl (Z.ones b) a) ≠ 0 → 2 ^ a ≤ n.
Proof.
  intros Ha Hb H0 Hz. destruct (Z.lt_ge_cases n (2 ^ a)) as [Hlt|]; [exfalso|lia].
  apply Hz, Z.bits_inj'. intros m Hm. rewrite Z.land_spec, Z.bits_0.
  destruct (Z.lt_ge_cases m a).
  - rewrite Z.shiftl_spec by lia. rewrite (Z.testbit_neg_r _ (m - a)) by lia.
    apply andb_false_r.
  - by rewrite (testbit_hi n a) by lia.
Qed.

(** One halving step of [floorLog2]. *)
Lemma log2_step n a p :
  0 ≤ a → 0 < n < 2 ^ (a + a) →
  ∀ p' n', (if negb (Z.land n (Z.shiftl (Z.ones a) a) =? 0)
            then (p + a, Z.shiftr n a) else (p, n)) = (p', n') →
  0 < n' < 2 ^ a ∧ p' + Z.log2 n' = p + Z.log2 n.
Proof.
  intros Ha Hn p' n' E. destruct (Z.eqb_spec (Z.land n (Z.shiftl (Z.ones a) a)) 0) as [Hz|Hz];
    cbn in E; injection E as <- <-.
  - pose proof (land_mask_zero n a a Ha Ha ltac:(lia) Hz). lia.
  - pose proof (land_mask_nonzero n a a Ha Ha ltac:(lia) Hz) as Hle.
    rewrite Z.log2_shiftr by lia. rewrite Z.shiftr_div_pow2 by lia.
    assert (0 < 2 ^ a) by (apply Z.pow_pos_nonneg; lia).
    assert (a ≤ Z.log2 n) by (apply Z.log2_le_pow2; lia).
    assert (1 ≤ n `div` 2 ^ a) by (apply Z.div_le_lower_bound; lia).
    assert (n `div` 2 ^ a < 2 ^ a) by (apply Z.div_lt_upper_bound; rewrite <-?Z.pow_add_r; lia).
    lia.
Qed.

Lemma floorLog2_log2 n : 0 < n < 2 ^ 32 → floorLog2 n = Z.log2 n.
Proof.
  intros Hn. unfold floorLog2. destruct (Z.eqb_spec n 0); [lia|].
  change 0xffff0000 with (Z.shiftl (Z.ones 16) 16).
  change 0x0000ff00 with (Z.shiftl (Z.ones 8) 8).
  change 0x000000f0 with (Z.shiftl (Z.ones 4) 4).
  change 0x0000000c with (Z.shiftl (Z.ones 2) 2).
  change 0x00000002 with (Z.shiftl (Z.ones 1) 1).
  destruct (if negb (Z.land n _ =? 0) then _ else _) as [p1 n1] eqn:E1.
  apply (log2_step n 16) in E1 as [? ?]; [|lia..].
  destruct (if negb (Z.land n1 _ =? 0) then _ else _) as [p2 n2] eqn:E2.
  apply (log2_step n1 8) in E2 as [? ?]; [|lia..].
  destruct (if negb (Z.land n2 _ =? 0) then _ else _) as [p3 n3] eqn:E3.
  apply (log2_step n2 4) in E3 as [? ?]; [|lia..].
  destruct (if negb (Z.land n3 _ =? 0) then _ else _) as [p4 n4] eqn:E4.
  apply (log2_step n3 2) in E4 as [? ?]; [|lia..].
  assert (n4 = 1 ∨ n4 = 2 ∨ n4 = 3) as [->|[->| ->]] by lia.
  all: match goal with |- context [Z.land ?x ?y] => let v := eval compute in (Z.land x y) in change (Z.land x y) with v end.
  all: match goal with H : context [Z.log2 (Zpos ?x)] |- _ => let v := eval compute in (Z.log2 (Zpos x)) in change (Z.log2 (Zpos x)) with v in H end.
  all: cbn [Z.eqb negb]; lia.
Qed.

Lemma floorLog2_range n : in_u32 n → -1 ≤ floorLog2 n < 32.
Proof.
  intros Hn. destruct (decide (n = 0)) as [->|]; [by cbn|].
  rewrite floorLog2_log2 by rlia. split; [pose proof (Z.log2_nonneg n); lia|].
  apply Z.log2_lt_pow2; rlia.
Qed.

Lemma land_le_r a b : 0 ≤ b → Z.land a b ≤ b.
Proof.
  intros Hb. pose proof (Z.sub_land_same_l b a) as H.
  assert (0 ≤ Z.land b (Z.lnot a)) by (apply Z.land_nonneg; lia).
  rewrite Z.land_comm. lia.
Qed.

Lemma lxor_range a b k :
  0 ≤ k → 0 ≤ a < 2 ^ k → 0 ≤ b < 2 ^ k → 0 ≤ Z.lxor a b < 2 ^ k.
Proof.
  intros Hk Ha Hb. assert (0 ≤ Z.lxor a b) by (apply Z.lxor_nonneg; lia).
  split; [done|]. destruct (decide (Z.lxor a b = 0)) as [->|]; [apply Z.pow_pos_nonneg; lia|].
  apply Z.log2_lt_pow2; [lia|].
  pose proof (Z.log2_lxor a b ltac:(lia) ltac:(lia)).
  destruct (Z.testbit (Z.lxor a b) (Z.log2 (Z.lxor a b))) eqn:E;
    [|rewrite Z.bit_log2 in E by lia; done].
  destruct (Z.lt_ge_cases (Z.log2 (Z.lxor a b)) k) as [|Hge]; [done|exfalso].
  by rewrite Z.lxor_spec, !(testbit_hi _ k) in E by lia.
Qed.

(** ** [countBits] counts the set bits *)

(** Number of bits set in a number. *)
Fixpoint pos_popcount (p : positive) : nat :=
  match p with
  | xH => 1
  | xO p => pos_popcount p
  | xI p => S (pos_popcount p)
  end.
Definition popcount (n : Z) : nat :=
  match n with Zpos p => pos_popcount p | _ => O end.

Lemma popcount_double n : popcount (2 * n) = popcount n.
Proof. by destruct n. Qed.

Lemma land_pred_odd n : Z.land (2 * n + 1) (2 * n) = 2 * n.
Proof.
  apply Z.bits_inj'. intros m Hm. rewrite Z.land_spec.
  destruct (decide (m = 0)) as [->|].
  - by rewrite Z.testbit_even_0, andb_false_r.
  - replace m with (Z.succ (m - 1)) by lia.
    rewrite Z.testbit_odd_succ, Z.testbit_even_succ by lia. apply andb_diag.
Qed.

Lemma land_pred_even n : Z.land (2 * n) (2 * n - 1) = 2 * Z.land n (n - 1).
Proof.
  replace (2 * n - 1) with (2 * (n - 1) + 1) by lia.
  apply Z.bits_inj'. intros m Hm. rewrite Z.land_spec.
  destruct (decide (m = 0)) as [->|].
  - by rewrite !Z.testbit_even_0.
  - replace m with (Z.succ (m - 1)) by lia.
    by rewrite Z.testbit_odd_succ, !Z.testbit_even_succ, Z.land_spec by lia.
Qed.

(** [n & (n-1)] clears exactly one bit. *)
Lemma popcount_land_pred n : 0 < n → popcount n = S (popcount (Z.land n (n - 1))).
Proof.
  destruct n as [|p|]; [done| |done]. intros _. induction p as [p IH|p IH|].
  - change (Z.pos p~1) with (2 * Z.pos p + 1). replace (2 * Z.pos p + 1 - 1) with (2 * Z.pos p) by lia.
    rewrite land_pred_odd, popcount_double. done.
  - change (Z.pos p~0) with (2 * Z.pos p). by rewrite land_pred_even, !popcount_double.
  - done.
Qed.

Lemma popcount_zero n : 0 ≤ n → popcount n = O → n = 0.
Proof.
  destruct n as [|p|]; [done| |lia]. cbn. intros _ H. exfalso.
  induction p; cbn in H; lia.
Qed.

Lemma popcount_le n k : 0 ≤ n → n < 2 ^ Z.of_nat k → (popcount n ≤ k)%nat.
Proof.
  revert n. induction k as [|k IH]; intros n H0 Hn; [by assert (n = 0) as -> by (cbn in Hn; lia)|].
  rewrite Nat2Z.inj_succ, Z.pow_succ_r in Hn by lia.
  pose proof (Z.div2_odd n) as E.
  assert (popcount n ≤ S (popcount (Z.div2 n)))%nat by (destruct n as [|[]|]; cbn; lia).
  assert (0 ≤ Z.div2 n) by (apply Z.div2_nonneg; lia).
  specialize (IH (Z.div2 n)). destruct (Z.odd n); cbn [Z.b2z] in E; lia.
Qed.

Lemma countBits_loop_popcount fuel n r :
  0 < n < 2 ^ 64 → 0 ≤ r → r + Z.of_nat (popcount n) ≤ 2 ^ 32 → (popcount n ≤ fuel)%nat →
  countBits_loop fuel n r = Some (r + Z.of_nat (popcount n) - 1).
Proof.
  revert n r. induction fuel as [|fuel IH]; intros n r Hn Hr Hs Hf;
    pose proof (popcount_land_pred n ltac:(lia)) as Hp; [lia|].
  cbn [countBits_loop]. rewrite (u64_small (n - 1)) by rlia.
  assert (0 ≤ Z.land n (n - 1)) by (apply Z.land_nonneg; lia).
  pose proof (land_le_r n (n - 1) ltac:(lia)).
  destruct (Z.eqb_spec (Z.land n (n - 1)) 0) as [Hz|Hz].
  - rewrite Hp, Hz. cbn. f_equal. lia.
  - rewrite u64_small by rlia. rewrite IH by lia. f_equal. lia.
Qed.

Lemma isPower2_log2 n : 0 < n → n < 2 ^ 32 → isPower2 n = true ↔ n = 2 ^ Z.log2 n.
Proof.
  intros H0 Hn. unfold isPower2. rewrite u32_small by rlia. rewrite Z.eqb_eq. split.
  - intros Hz. apply Z.le_antisymm; [|apply Z.log2_spec; lia].
    destruct (Z.lt_ge_cases (2 ^ Z.log2 n) n) as [Hlt|]; [exfalso|done].
    assert (Z.log2 (n - 1) = Z.log2 n) as E.
    { apply Z.log2_unique; pose proof (Z.log2_spec n H0) as [? ?];
      [apply Z.log2_nonneg|split; lia]. }
    assert (Z.testbit (Z.land n (n - 1)) (Z.log2 n) = true) as Ht.
    { rewrite Z.land_spec, Z.bit_log2 by lia. rewrite <- E, Z.bit_log2; [done|].
      pose proof (Z.pow_pos_nonneg 2 (Z.log2 n) ltac:(lia) (Z.log2_nonneg n)). lia. }
    by rewrite Hz, Z.bits_0 in Ht.
  - intros E. pose proof (Z.log2_nonneg n). rewrite E.
    replace (2 ^ Z.log2 n - 1) with (Z.ones (Z.log2 n)) by (rewrite Z.ones_equiv; lia).
    rewrite Z.land_ones by done. apply Z_mod_same_full.
Qed.

(** ** Properties *)

(** [floorLog2] computes the logarithm its comment announces: for every
    nonzero 32-bit [n] the result is the exponent [p] with [2^p <= n < 2^(p+1)],
    for zero it is -1. *)
Theorem floorLog2_spec n : in_u32 n →
  (n = 0 ∧ floorLog2 n = -1) ∨
  (0 ≤ floorLog2 n < 32 ∧ 2 ^ floorLog2 n ≤ n < 2 ^ (floorLog2 n + 1)).
Proof.
  intros Hn. destruct (decide (n = 0)) as [->|]; [by left|right].
  pose proof (floorLog2_range n Hn). rewrite floorLog2_log2 in * by rlia.
  pose proof (Z.log2_nonneg n). split; [lia|]. apply Z.log2_spec. rlia.
Qed.

Lemma floorLog2_spec_witness :
  in_u32 65537 ∧
  ((65537 = 0 ∧ floorLog2 65537 = -1) ∨
   (0 ≤ floorLog2 65537 < 32 ∧ 2 ^ floorLog2 65537 ≤ 65537 < 2 ^ (floorLog2 65537 + 1))).
Proof. split; [rlia|]. apply (floorLog2_spec 65537). rlia. Defined.

(** The loop of [countBits] ends for every 64-bit number after at most 64
    rounds, and returns the number of bits set in it. *)
Theorem countBits_popcount n :
  in_u64 n → countBits 64 n = Some (Z.of_nat (popcount n)).
Proof.
  intros Hn. unfold countBits. destruct (Z.eqb_spec n 0) as [->|]; [done|].
  pose proof (popcount_le n 64 ltac:(rlia) ltac:(cbn; rlia)).
  rewrite countBits_loop_popcount by rlia. f_equal. lia.
Qed.

Lemma countBits_popcount_witness : in_u64 0xF0F0 ∧ countBits 64 0xF0F0 = Some 8.
Proof. split; [rlia|]. apply (countBits_popcount 0xF0F0). rlia. Defined.
