(* ===== verification/Timing.v ===== *)
(** Simulated time and its attribution: [misc/subsecond_time.h],
    [shmem_perf.{h,cc}] (where the latency of a memory access was spent) and
    [performance_model/shmem_perf_model.{h,cc}] (the clocks of a core). *)
From S2P Require Import Prelude.

(** ** [SubsecondTime]: femtoseconds in a [uint64_t] *)
Module SubsecondTime.
Definition FS_1 : Z := 1.
Definition PS_1 : Z := FS_1 * 1000.
Definition NS_1 : Z := PS_1 * 1000.
Definition US_1 : Z := NS_1 * 1000.
Definition MS_1 : Z := US_1 * 1000.
Definition SEC_1 : Z := MS_1 * 1000.
Definition Zero : Z := 0.
Definition MaxTime : Z := 2 ^ 64 - 1.
Definition add (a b : Z) : Z := u64 (a + b).
Definition sub (a b : Z) : Z := u64 (a - b).
Definition mul (a b : Z) : Z := u64 (a * b).
Definition div (a b : Z) : result Z := udiv a b.
End SubsecondTime.

(** [ComponentLatency]: a number of cycles of a component's period. *)
Module ComponentLatency.
Record t := mk {
  m_period : Z;                (* the SubsecondTime of *m_period *)
  m_fixed_cycle_latency : Z;   (* uint64_t *)
}.
Definition getLatency (l : t) : Z := SubsecondTime.mul (m_period l) (m_fixed_cycle_latency l).
End ComponentLatency.

(** [ComponentBandwidth]; the constructor's conversion from a [float] of bits per
    nanosecond is left to the configuration. *)
Module ComponentBandwidth.
Record t := mk { m_bw_in_bits_per_us : Z (* uint64_t *) }.
Definition getLatency (b : t) (bits_transmitted : Z) : result Z :=
  SubsecondTime.div (SubsecondTime.mul bits_transmitted SubsecondTime.US_1) (m_bw_in_bits_per_us b).
Definition getRoundedLatency (b : t) (bits_transmitted : Z) : result Z :=
  let us := SubsecondTime.US_1 in
  let! half := SubsecondTime.div us 2 in
  SubsecondTime.div (SubsecondTime.add (SubsecondTime.mul bits_transmitted us) half) (m_bw_in_bits_per_us b).
End ComponentBandwidth.

(** [ComponentBandwidthPerCycle]: bits per cycle of a component's period. *)
Module ComponentBandwidthPerCycle.
Record t := mk { m_period : Z; m_bw_in_bits_per_cycle : Z (* uint64_t *) }.
Definition getPeriod (b : t) : Z := m_period b.
Definition getRoundedLatency (b : t) (bits_transmitted : Z) : result Z :=
  let period := m_period b in
  let! half := SubsecondTime.div period 2 in
  SubsecondTime.div (SubsecondTime.add (SubsecondTime.mul bits_transmitted period) half) (m_bw_in_bits_per_cycle b).
End ComponentBandwidthPerCycle.

(** ** [shmem_perf.{h,cc}] *)
Module ShmemPerf.
Inductive shmem_times_type_t :=
  | NOC_BASE | NOC_QUEUE | TD_ACCESS | INV_IMBALANCE
  | REMOTE_CACHE_INV | REMOTE_CACHE_FWD | REMOTE_CACHE_WB | PENDING_HIT
  | NUCA_TAGS | NUCA_QUEUE | NUCA_BUS | NUCA_DATA
  | DRAM_CACHE | DRAM_CACHE_TAGS | DRAM_CACHE_QUEUE | DRAM_CACHE_BUS | DRAM_CACHE_DATA
  | DRAM | DRAM_QUEUE | DRAM_BUS | DRAM_DEVICE | UNKNOWN.

Definition all_times : list shmem_times_type_t :=
  [NOC_BASE; NOC_QUEUE; TD_ACCESS; INV_IMBALANCE; REMOTE_CACHE_INV; REMOTE_CACHE_FWD;
   REMOTE_CACHE_WB; PENDING_HIT; NUCA_TAGS; NUCA_QUEUE; NUCA_BUS; NUCA_DATA; DRAM_CACHE;
   DRAM_CACHE_TAGS; DRAM_CACHE_QUEUE; DRAM_CACHE_BUS; DRAM_CACHE_DATA; DRAM; DRAM_QUEUE;
   DRAM_BUS; DRAM_DEVICE; UNKNOWN].
Definition NUM_SHMEM_TIMES : nat := length all_times.

#[global] Instance times_eq_dec : EqDecision shmem_times_type_t.
Proof. solve_decision. Defined.

Record t := mk {
  m_core_id : Z;
  m_time_begin : Z;
  m_time_last : Z;
  m_times : shmem_times_type_t → Z;     (* a vector with one element per reason *)
}.

Definition new : t :=
  {| m_core_id := INVALID_CORE_ID; m_time_begin := SubsecondTime.Zero;
     m_time_last := SubsecondTime.Zero; m_times := λ _, SubsecondTime.Zero |}.

Definition disable (p : t) : t :=
  {| m_core_id := m_core_id p; m_time_begin := m_time_begin p;
     m_time_last := SubsecondTime.MaxTime; m_times := m_times p |}.

Definition reset (p : t) (time core_id : Z) : t :=
  {| m_core_id := core_id; m_time_begin := time; m_time_last := time;
     m_times := λ _, SubsecondTime.Zero |}.

Definition add_time (f : shmem_times_type_t → Z) (reason : shmem_times_type_t) (d : Z) :
    shmem_times_type_t → Z :=
  λ r, if decide (r = reason) then SubsecondTime.add (f r) d else f r.

Definition updateTime (p : t) (time : Z) (reason : shmem_times_type_t) : t :=
  if m_time_last p <? time then
    {| m_core_id := m_core_id p; m_time_begin := m_time_begin p; m_time_last := time;
       m_times := add_time (m_times p) reason (SubsecondTime.sub time (m_time_last p)) |}
  else p.

(** [packet.time] and [packet.queue_delay] of a network packet. *)
Definition updatePacket (p : t) (time queue_delay : Z) : t :=
  if m_time_last p <? time then
    updateTime
      {| m_core_id := m_core_id p; m_time_begin := m_time_begin p;
         m_time_last := SubsecondTime.add (m_time_last p) queue_delay;
         m_times := add_time (m_times p) NOC_QUEUE queue_delay |} time NOC_BASE
  else p.

Definition add (p perf : t) : t :=
  {| m_core_id := m_core_id p; m_time_begin := m_time_begin p; m_time_last := m_time_last p;
     m_times := λ r, SubsecondTime.add (m_times p r) (m_times perf r) |}.
End ShmemPerf.

(** ** [shmem_perf_model.{h,cc}] *)
Module ShmemPerfModel.
Inductive Thread_t := USER_THREAD | SIM_THREAD.

Record t := mk {
  m_elapsed_user : Z;          (* m_elapsed_time[_USER_THREAD] *)
  m_elapsed_sim : Z;           (* m_elapsed_time[_SIM_THREAD] *)
  m_enabled : bool;
  m_num_memory_accesses : Z;
  m_total_memory_access_latency : Z;
}.

Definition new : t :=
  {| m_elapsed_user := SubsecondTime.Zero; m_elapsed_sim := SubsecondTime.Zero;
     m_enabled := false; m_num_memory_accesses := 0;
     m_total_memory_access_latency := SubsecondTime.Zero |}.

Definition getElapsedTime (m : t) (th : Thread_t) : Z :=
  match th with USER_THREAD => m_elapsed_user m | SIM_THREAD => m_elapsed_sim m end.

Definition setElapsedTime (m : t) (th : Thread_t) (time : Z) : t :=
  match th with
  | USER_THREAD => {| m_elapsed_user := time; m_elapsed_sim := m_elapsed_sim m;
                      m_enabled := m_enabled m; m_num_memory_accesses := m_num_memory_accesses m;
                      m_total_memory_access_latency := m_total_memory_access_latency m |}
  | SIM_THREAD => {| m_elapsed_user := m_elapsed_user m; m_elapsed_sim := time;
                     m_enabled := m_enabled m; m_num_memory_accesses := m_num_memory_accesses m;
                     m_total_memory_access_latency := m_total_memory_access_latency m |}
  end.

Definition updateElapsedTime (m : t) (time : Z) (th : Thread_t) : t :=
  if getElapsedTime m th <? time then setElapsedTime m th time else m.

Definition incrElapsedTime (m : t) (time : Z) (th : Thread_t) : result t :=
  let i_elapsed_time := getElapsedTime m th in
  let t_elapsed_time := SubsecondTime.add i_elapsed_time time in
  let! _ := check (i_elapsed_time <=? t_elapsed_time) AssertFail in
  Ok (setElapsedTime m th t_elapsed_time).

Definition incrTotalMemoryAccessLatency (m : t) (shmem_time : Z) : t :=
  if m_enabled m then
    {| m_elapsed_user := m_elapsed_user m; m_elapsed_sim := m_elapsed_sim m; m_enabled := true;
       m_num_memory_accesses := u64 (m_num_memory_accesses m + 1);
       m_total_memory_access_latency :=
         SubsecondTime.add (m_total_memory_access_latency m) shmem_time |}
  else m.
End ShmemPerfModel.

(** * Lemmas *)

Fixpoint sum_over (f : ShmemPerf.shmem_times_type_t → Z) (l : list ShmemPerf.shmem_times_type_t) : Z :=
  match l with
  | [] => 0
  | r :: l => f r + sum_over f l
  end.
Definition sum_times (f : ShmemPerf.shmem_times_type_t → Z) : Z := sum_over f ShmemPerf.all_times.

(** The time accounted for is the time that passed, modulo the width of the counters. *)
Definition accounted (p : ShmemPerf.t) : Prop :=
  u64 (sum_times (ShmemPerf.m_times p)) = u64 (ShmemPerf.m_time_last p - ShmemPerf.m_time_begin p).

Lemma u64_add_l a b : u64 (u64 a + b) = u64 (a + b).
Proof. apply Zplus_mod_idemp_l. Qed.
Lemma u64_add_r a b : u64 (a + u64 b) = u64 (a + b).
Proof. apply Zplus_mod_idemp_r. Qed.
Lemma u64_congr_add a a' b b' : u64 a = u64 a' → u64 b = u64 b' → u64 (a + b) = u64 (a' + b').
Proof. intros Ha Hb. by rewrite <- (u64_add_l a), <- u64_add_r, Ha, Hb, u64_add_r, u64_add_l. Qed.

Lemma sum_over_notin f r d l : r ∉ l → sum_over (ShmemPerf.add_time f r d) l = sum_over f l.
Proof.
  induction l as [|r' l IH]; [done|]. intros [Hne Hnin]%not_elem_of_cons. cbn. rewrite IH by done.
  unfold ShmemPerf.add_time. by rewrite decide_False.
Qed.

Lemma sum_over_in f r d l :
  NoDup l → r ∈ l → u64 (sum_over (ShmemPerf.add_time f r d) l) = u64 (sum_over f l + d).
Proof.
  induction l as [|r' l IH]; [by intros ? ?%elem_of_nil|]. intros [Hnin Hnd]%NoDup_cons [<-|Hin]%elem_of_cons; cbn.
  - rewrite sum_over_notin by done. unfold ShmemPerf.add_time. rewrite decide_True by done.
    unfold SubsecondTime.add. rewrite u64_add_l. f_equal. lia.
  - unfold ShmemPerf.add_time at 1. rewrite decide_False by (intros ->; done).
    rewrite <- Z.add_assoc. apply u64_congr_add; [done|]. by apply IH.
Qed.

Lemma all_times_NoDup : NoDup ShmemPerf.all_times.
Proof. apply (bool_decide_unpack _). vm_compute. done. Qed.
Lemma all_times_in r : r ∈ ShmemPerf.all_times.
Proof. destruct r; unfold ShmemPerf.all_times; repeat (constructor || set_solver). Qed.

Lemma sum_add_time f r d : u64 (sum_times (ShmemPerf.add_time f r d)) = u64 (sum_times f + d).
Proof. apply sum_over_in; [apply all_times_NoDup | apply all_times_in]. Qed.

Lemma reset_accounted p time core : accounted (ShmemPerf.reset p time core).
Proof. unfold accounted. cbn [ShmemPerf.reset ShmemPerf.m_times ShmemPerf.m_time_last ShmemPerf.m_time_begin]. f_equal. unfold sum_times. cbn. unfold SubsecondTime.Zero. lia. Qed.

Lemma updateTime_accounted p time r : accounted p → accounted (ShmemPerf.updateTime p time r).
Proof.
  unfold accounted, ShmemPerf.updateTime. intros Hp. case_match; [|done]. cbn -[sum_times].
  rewrite sum_add_time. unfold SubsecondTime.sub. rewrite u64_add_r.
  rewrite <- (u64_add_l (sum_times _)), Hp, u64_add_l. f_equal. lia.
Qed.

Lemma updatePacket_accounted p time d : accounted p → accounted (ShmemPerf.updatePacket p time d).
Proof.
  unfold ShmemPerf.updatePacket. intros Hp. case_match; [|done]. apply updateTime_accounted.
  unfold accounted in *. cbn -[sum_times]. rewrite sum_add_time.
  unfold SubsecondTime.add. rewrite <- (u64_add_l (sum_times _)), Hp, u64_add_l.
  replace (u64 (ShmemPerf.m_time_last p + d) - ShmemPerf.m_time_begin p)
    with (u64 (ShmemPerf.m_time_last p + d) + - ShmemPerf.m_time_begin p) by lia.
  rewrite u64_add_l. f_equal. lia.
Qed.

(** The updates of a [ShmemPerf] during an access. *)
Inductive perf_update :=
  | UpdateTime (time : Z) (reason : ShmemPerf.shmem_times_type_t)
  | UpdatePacket (time queue_delay : Z).

Definition apply_update (p : ShmemPerf.t) (u : perf_update) : ShmemPerf.t :=
  match u with
  | UpdateTime time reason => ShmemPerf.updateTime p time reason
  | UpdatePacket time queue_delay => ShmemPerf.updatePacket p time queue_delay
  end.

(** * Properties *)

(** Latency is attributed completely and once: after a reset, whatever times and
    packets are reported in whatever order, stale ones included, the components sum up to
    the time from the reset to the last time seen. *)
Theorem shmem_perf_accounts p time core us :
  let p' := fold_left apply_update us (ShmemPerf.reset p time core) in
  u64 (sum_times (ShmemPerf.m_times p')) = u64 (ShmemPerf.m_time_last p' - time).
Proof.
  cbv zeta. assert (H : ∀ q, accounted q → ShmemPerf.m_time_begin q = time →
    accounted (fold_left apply_update us q) ∧ ShmemPerf.m_time_begin (fold_left apply_update us q) = time).
  { induction us as [|u us IH]; intros q Hq Hb; cbn; [done|]. apply IH; destruct u; cbn;
      eauto using updateTime_accounted, updatePacket_accounted;
      unfold ShmemPerf.updatePacket, ShmemPerf.updateTime; repeat case_match; done. }
  destruct (H _ (reset_accounted p time core) eq_refl) as [Ha Hb]. unfold accounted in Ha. by rewrite Hb in Ha.
Qed.
