(* ===== verification/QueueModels.v ===== *)
(** Queue models, which turn the times at which requests arrive at a shared resource into
    waiting times: [performance_model/queue_model.h] (the interface),
    [queue_model_basic.*], [queue_model_history_list.*], [queue_model_contention.*] with
    [contention_model.*], and the moving averages they use ([misc/moving_average.h],
    [misc/modulo_num.*]).

    Left out: [queue_model_windowed_mg1.*] and [MovingGeometricMean], which compute in
    floating point, and the versions of the contention model's functions that take cycles. *)
From Stdlib Require Import Sorted.
From S2P Require Import Prelude Timing.

(** [queue_model.h]: the virtual function of a queue model. *)
Class QueueModel (Q : Type) :=
  computeQueueDelay : Q → Z (* pkt_time *) → Z (* processing_time *) → Z (* requester *) → result (Z * Q).

(** ** [modulo_num.{h,cc}] *)
Module ModuloNum.
Record t := mk { m_value : Z; m_max_value : Z (* UInt32 *) }.

Definition setValue (n : t) (value : Z) : t := mk value (m_max_value n).
Definition add (a b : t) : result t :=
  let! _ := check (m_max_value a =? m_max_value b) AssertFail in
  let! v := umod (u32 (m_value a + m_value b)) (m_max_value a) in
  Ok (setValue a v).
Definition sub (a b : t) : result t :=
  let! _ := check (m_max_value a =? m_max_value b) AssertFail in
  Ok (setValue a (if m_value b <=? m_value a then m_value a - m_value b
                  else u32 (m_max_value a - m_value b + m_value a))).
(** [operator+(UInt32)]. *)
Definition add_int (a : t) (value : Z) : result t :=
  let! v := umod value (m_max_value a) in add a (setValue a v).
Definition eqb (a b : t) : bool := (m_value a =? m_value b) && (m_max_value a =? m_max_value b).
End ModuloNum.

(** ** [moving_average.h], over [SubsecondTime] *)

(** The virtual functions of [MovingAverage]. *)
Class MovingAverage (M : Type) := {
  update : M → Z → result M;
  compute : M → result Z;
}.

Module Window.
Record t := mk {
  m_num_list : list Z;
  m_max_window_size : Z;         (* UInt32 *)
  m_curr_window_front : ModuloNum.t;
  m_curr_window_back : ModuloNum.t;
}.

Definition new (max_window_size : Z) : t :=
  let n := u32 (max_window_size + 1) in
  mk (replicate (Z.to_nat n) SubsecondTime.Zero) max_window_size (ModuloNum.mk 0 n) (ModuloNum.mk 0 n).

Definition get (w : t) (n : ModuloNum.t) : result Z := arr_get (m_num_list w) (Z.to_nat (ModuloNum.m_value n)).

Definition addToWindow (w : t) (next_num : Z) : result t :=
  let! l := arr_set (m_num_list w) (Z.to_nat (ModuloNum.m_value (m_curr_window_back w))) next_num in
  let! back := ModuloNum.add_int (m_curr_window_back w) 1 in
  let! front := if ModuloNum.eqb back (m_curr_window_front w) then ModuloNum.add_int (m_curr_window_front w) 1
                else Ok (m_curr_window_front w) in
  Ok (mk l (m_max_window_size w) front back).

(** [(m_curr_window_back - m_curr_window_front).getValue()]. *)
Definition curr_window_size (w : t) : result Z :=
  let! d := ModuloNum.sub (m_curr_window_back w) (m_curr_window_front w) in Ok (ModuloNum.m_value d).
End Window.

Module MovingArithmeticMean.
Record t := mk { window : Window.t; sum : Z }.
Definition new (max_window_size : Z) : t := mk (Window.new max_window_size) SubsecondTime.Zero.

Definition update (m : t) (next_num : Z) : result t :=
  let w := window m in
  let! n := Window.curr_window_size w in
  let! s := if n =? Window.m_max_window_size w then
              let! first := Window.get w (Window.m_curr_window_front w) in Ok (SubsecondTime.sub (sum m) first)
            else Ok (sum m) in
  let! w := Window.addToWindow w next_num in
  Ok (mk w (SubsecondTime.add s next_num)).

Definition compute (m : t) : result Z :=
  let! n := Window.curr_window_size (window m) in SubsecondTime.div (sum m) n.

#[global] Instance average : MovingAverage t := { update := update; compute := compute }.
End MovingArithmeticMean.

Module MovingMedian.
Record t := mk { window : Window.t }.
Definition new (max_window_size : Z) : t := mk (Window.new max_window_size).

Definition update (m : t) (next_num : Z) : result t :=
  let! w := Window.addToWindow (window m) next_num in Ok (mk w).

(** The element in the middle of the window, in the order of arrival. *)
Definition compute (m : t) : result Z :=
  let w := window m in
  let! n := Window.curr_window_size w in
  let! i := ModuloNum.add_int (Window.m_curr_window_front w) (n `div` 2) in
  Window.get w i.

#[global] Instance average : MovingAverage t := { update := update; compute := compute }.
End MovingMedian.

(** ** [queue_model_basic.{h,cc}] *)
Module QueueModelBasic.
Record t (M : Type) := mk { m_queue_time : Z; m_moving_average : option M }.
Arguments mk {M} _ _.
Arguments m_queue_time {M} _.
Arguments m_moving_average {M} _.

Section ops.
Context {M : Type} `{MovingAverage M}.

(** [average] is the moving average, if it is enabled. *)
Definition new (average : option M) : t M := mk SubsecondTime.Zero average.

Definition computeQueueDelay (q : t M) (pkt_time processing_time requester : Z) : result (Z * t M) :=
  let! (ref_time, average) :=
    match m_moving_average q with
    | Some m => let! m := update m pkt_time in
                let! r := compute m in Ok (r, Some m)
    | None => Ok (pkt_time, None)
    end in
  let queue_delay :=
    if ref_time <? m_queue_time q then SubsecondTime.sub (m_queue_time q) ref_time else SubsecondTime.Zero in
  Ok (queue_delay, mk (SubsecondTime.add (Z.max (m_queue_time q) ref_time) processing_time) average).

#[global] Instance model : QueueModel (t M) := computeQueueDelay.
End ops.
End QueueModelBasic.

(** ** [queue_model_history_list.{h,cc}] *)
Module QueueModelHistoryList.
Record t := mk {
  m_min_processing_time : Z;
  m_max_free_interval_list_size : Z;          (* UInt32 *)
  m_free_interval_list : list (Z * Z);
  m_utilized_time : Z;
  m_total_queue_delay : Z;
  m_average_delay : MovingArithmeticMean.t;
  m_analytical_model_enabled : bool;
  m_total_requests : Z;
  m_total_requests_using_analytical_model : Z;
}.

Definition max_simulation_time : Z := 2 ^ 63.

Definition new (min_processing_time max_list_size : Z) (analytical_model_enabled : bool) : t :=
  {| m_min_processing_time := min_processing_time; m_max_free_interval_list_size := max_list_size;
     m_free_interval_list := [(SubsecondTime.Zero, max_simulation_time)];
     m_utilized_time := SubsecondTime.Zero; m_total_queue_delay := SubsecondTime.Zero;
     m_average_delay := MovingArithmeticMean.new max_list_size;
     m_analytical_model_enabled := analytical_model_enabled;
     m_total_requests := 0; m_total_requests_using_analytical_model := 0 |}.

(** A free interval that is kept if it is long enough. *)
Definition keep (min first second : Z) : list (Z * Z) :=
  if min <=? SubsecondTime.sub second first then [(first, second)] else [].

(** The loop of [computeUsingHistoryList]: the delay, and the list after the request. *)
Fixpoint search (min pkt_time processing_time : Z) (l : list (Z * Z)) : option (Z * list (Z * Z)) :=
  match l with
  | [] => None
  | (first, second) :: l =>
      let pkt_end := SubsecondTime.add pkt_time processing_time in
      if (first <=? pkt_time) && (pkt_end <=? second) then
        Some (SubsecondTime.Zero, keep min first pkt_time ++ keep min pkt_end second ++ l)
      else if pkt_time <? first then
        Some (SubsecondTime.sub first pkt_time, keep min (SubsecondTime.add first processing_time) second ++ l)
      else
        match search min pkt_time processing_time l with
        | Some (d, l) => Some (d, (first, second) :: l)
        | None => None
        end
  end.

Definition set_list (q : t) (l : list (Z * Z)) : t :=
  {| m_min_processing_time := m_min_processing_time q;
     m_max_free_interval_list_size := m_max_free_interval_list_size q; m_free_interval_list := l;
     m_utilized_time := m_utilized_time q; m_total_queue_delay := m_total_queue_delay q;
     m_average_delay := m_average_delay q; m_analytical_model_enabled := m_analytical_model_enabled q;
     m_total_requests := m_total_requests q;
     m_total_requests_using_analytical_model := m_total_requests_using_analytical_model q |}.
Definition set_average (q : t) (m : MovingArithmeticMean.t) (analytical : Z) : t :=
  {| m_min_processing_time := m_min_processing_time q;
     m_max_free_interval_list_size := m_max_free_interval_list_size q;
     m_free_interval_list := m_free_interval_list q;
     m_utilized_time := m_utilized_time q; m_total_queue_delay := m_total_queue_delay q;
     m_average_delay := m; m_analytical_model_enabled := m_analytical_model_enabled q;
     m_total_requests := m_total_requests q; m_total_requests_using_analytical_model := analytical |}.
Definition count_request (q : t) (processing_time queue_delay : Z) : t :=
  {| m_min_processing_time := m_min_processing_time q;
     m_max_free_interval_list_size := m_max_free_interval_list_size q;
     m_free_interval_list := m_free_interval_list q;
     m_utilized_time := SubsecondTime.add (m_utilized_time q) processing_time;
     m_total_queue_delay := SubsecondTime.add (m_total_queue_delay q) queue_delay;
     m_average_delay := m_average_delay q; m_analytical_model_enabled := m_analytical_model_enabled q;
     m_total_requests := u64 (m_total_requests q + 1);
     m_total_requests_using_analytical_model := m_total_requests_using_analytical_model q |}.

Definition computeUsingHistoryList (q : t) (pkt_time processing_time : Z) : result (Z * t) :=
  let! _ := check (Z.of_nat (length (m_free_interval_list q)) <=? m_max_free_interval_list_size q) AssertFail in
  match search (m_min_processing_time q) pkt_time processing_time (m_free_interval_list q) with
  | None => Err AssertFail
  | Some (queue_delay, l) =>
      let! _ := check (negb (queue_delay =? SubsecondTime.MaxTime)) AssertFail in
      Ok (queue_delay, set_list q (if m_max_free_interval_list_size q <? Z.of_nat (length l) then tl l else l))
  end.

(** Whether a request is too old for the list. *)
Definition is_old (q : t) (pkt_time processing_time : Z) : bool :=
  m_analytical_model_enabled q &&
  match m_free_interval_list q with
  | [] => false
  | (first, _) :: _ => SubsecondTime.add pkt_time processing_time <=? first
  end.

Definition computeQueueDelay (q : t) (pkt_time processing_time requester : Z) : result (Z * t) :=
  let! _ := check (1 <=? length (m_free_interval_list q))%nat AssertFail in
  let! (queue_delay, q) :=
    if is_old q pkt_time processing_time then
      let! d := MovingArithmeticMean.compute (m_average_delay q) in
      Ok (d, set_average q (m_average_delay q) (u64 (m_total_requests_using_analytical_model q + 1)))
    else
      let! (d, q) := computeUsingHistoryList q pkt_time processing_time in
      let! m := MovingArithmeticMean.update (m_average_delay q) d in
      Ok (d, set_average q m (m_total_requests_using_analytical_model q)) in
  Ok (queue_delay, count_request q processing_time queue_delay).

#[global] Instance model : QueueModel t := computeQueueDelay.
End QueueModelHistoryList.

(** ** [contention_model.{h,cc}] *)
Module ContentionModel.
Record t := mk {
  m_time : list (Z * Z);          (* one (time, tag) for each of the m_num_outstanding units *)
  m_t_last : Z;
  m_n_requests : Z;
  m_n_barriers : Z;
  m_n_outoforder : Z;
  m_n_simultaneous : Z;
  m_n_hasfreefail : Z;
  m_total_delay : Z;
  m_total_barrier_delay : Z;
}.

Definition new (num_outstanding : nat) : t :=
  {| m_time := replicate num_outstanding (SubsecondTime.Zero, 0); m_t_last := SubsecondTime.Zero;
     m_n_requests := 0; m_n_barriers := 0; m_n_outoforder := 0; m_n_simultaneous := 0;
     m_n_hasfreefail := 0; m_total_delay := SubsecondTime.Zero; m_total_barrier_delay := SubsecondTime.Zero |}.

Definition getNumUsed (c : t) (t_start : Z) : nat := length (List.filter (λ u, t_start <? fst u) (m_time c)).

Definition getTagCompletionTime (c : t) (tag : Z) : Z :=
  match List.find (λ u, snd u =? tag) (m_time c) with
  | Some u => fst u
  | None => SubsecondTime.MaxTime
  end.

Definition hasTag (c : t) (tag : Z) : bool := existsb (λ u, snd u =? tag) (m_time c).

Definition hasFreeSlot (c : t) (t_start tag : Z) : bool * t :=
  if existsb (λ u, (fst u <=? t_start) || (snd u =? tag)) (m_time c) then (true, c)
  else (false,
    {| m_time := m_time c; m_t_last := m_t_last c; m_n_requests := m_n_requests c;
       m_n_barriers := m_n_barriers c; m_n_outoforder := m_n_outoforder c;
       m_n_simultaneous := m_n_simultaneous c; m_n_hasfreefail := u64 (m_n_hasfreefail c + 1);
       m_total_delay := m_total_delay c; m_total_barrier_delay := m_total_barrier_delay c |}).

Definition getBarrierCompletionTime (c : t) (t_start t_delay tag : Z) : Z * t :=
  match m_time c with
  | [] => (SubsecondTime.add t_start t_delay, c)
  | _ =>
      let max_time := fold_left (λ m u, if m <? fst u then fst u else m) (m_time c) t_start in
      let t_end := SubsecondTime.add max_time t_delay in
      (t_end,
       {| m_time := map (λ _, (t_end, tag)) (m_time c); m_t_last := m_t_last c;
          m_n_requests := m_n_requests c; m_n_barriers := u64 (m_n_barriers c + 1);
          m_n_outoforder := m_n_outoforder c; m_n_simultaneous := m_n_simultaneous c;
          m_n_hasfreefail := m_n_hasfreefail c; m_total_delay := m_total_delay c;
          m_total_barrier_delay := SubsecondTime.add (m_total_barrier_delay c) (SubsecondTime.sub max_time t_start) |})
  end.

(** The search for a unit, from unit [i] on: the first that is free at [t_start], or else
    the first of those that become free earliest. [unit] is the best so far, free at [best]. *)
Fixpoint find_unit (t_start : Z) (i unit : nat) (best : Z) (l : list (Z * Z)) : nat :=
  match l with
  | [] => unit
  | u :: l =>
      if fst u <=? t_start then i
      else if fst u <? best then find_unit t_start (S i) i (fst u) l
      else find_unit t_start (S i) unit best l
  end.

(** The unit that serves a request, and the time at which it is free. *)
Definition first_unit (c : t) (t_start : Z) : result (nat * Z) :=
  let! u := arr_get (m_time c) 0 in
  let unit := find_unit t_start 0 0 (fst u) (m_time c) in
  let! u := arr_get (m_time c) unit in
  Ok (unit, fst u).

Definition getCompletionTime (c : t) (t_start t_delay tag : Z) : result (Z * t) :=
  match m_time c with
  | [] => Ok (SubsecondTime.add t_start t_delay, c)
  | _ =>
      let count (c : t) : t :=
        {| m_time := m_time c; m_t_last := m_t_last c; m_n_requests := u64 (m_n_requests c + 1);
           m_n_barriers := m_n_barriers c; m_n_outoforder := m_n_outoforder c;
           m_n_simultaneous := m_n_simultaneous c; m_n_hasfreefail := m_n_hasfreefail c;
           m_total_delay := m_total_delay c; m_total_barrier_delay := m_total_barrier_delay c |} in
      if t_start =? SubsecondTime.Zero then Ok (t_delay, count c)
      else if t_start <? m_t_last c then
        Ok (SubsecondTime.add t_start t_delay,
            count {| m_time := m_time c; m_t_last := m_t_last c; m_n_requests := m_n_requests c;
                     m_n_barriers := m_n_barriers c; m_n_outoforder := u64 (m_n_outoforder c + 1);
                     m_n_simultaneous := m_n_simultaneous c; m_n_hasfreefail := m_n_hasfreefail c;
                     m_total_delay := m_total_delay c; m_total_barrier_delay := m_total_barrier_delay c |})
      else
        let! (unit, free) := first_unit c t_start in
        let t_begin := if t_start <? free then free else t_start in
        let t_end := SubsecondTime.add t_begin t_delay in
        let! l := arr_set (m_time c) unit (t_end, tag) in
        Ok (t_end,
            count {| m_time := l; m_t_last := t_start; m_n_requests := m_n_requests c;
                     m_n_barriers := m_n_barriers c; m_n_outoforder := m_n_outoforder c;
                     m_n_simultaneous := if t_start =? m_t_last c then u64 (m_n_simultaneous c + 1)
                                         else m_n_simultaneous c;
                     m_n_hasfreefail := m_n_hasfreefail c;
                     m_total_delay := SubsecondTime.add (m_total_delay c) (SubsecondTime.sub t_begin t_start);
                     m_total_barrier_delay := m_total_barrier_delay c |})
  end.

Definition getStartTime (c : t) (t_start : Z) : result Z :=
  match m_time c with
  | [] => Ok t_start
  | _ =>
      if t_start <? m_t_last c then Ok t_start
      else let! (_, free) := first_unit c t_start in Ok (if t_start <? free then free else t_start)
  end.
End ContentionModel.

(** ** [queue_model_contention.{h,cc}] *)
Module QueueModelContention.
Record t := mk { m_contention : ContentionModel.t }.

Definition new (num_outstanding : nat) : t := mk (ContentionModel.new num_outstanding).

Definition computeQueueDelay (q : t) (pkt_time processing_time requester : Z) : result (Z * t) :=
  let! (t_complete, c) := ContentionModel.getCompletionTime (m_contention q) pkt_time processing_time 0 in
  Ok (SubsecondTime.sub (SubsecondTime.sub t_complete pkt_time) processing_time, mk c).

#[global] Instance model : QueueModel t := computeQueueDelay.
End QueueModelContention.

(** * Lemmas *)

(** Requests in sequence through a queue model: their delays. *)
Fixpoint run_delays {Q} `{QueueModel Q} (q : Q) (reqs : list (Z * Z)) : result (list Z * Q) :=
  match reqs with
  | [] => Ok ([], q)
  | (pkt_time, processing_time) :: reqs =>
      let! (d, q) := computeQueueDelay q pkt_time processing_time INVALID_CORE_ID in
      let! (ds, q) := run_delays q reqs in
      Ok (d :: ds, q)
  end.

(** The delays of a single server that is free at [free] and serves in order of arrival. *)
Fixpoint fifo_delays (free : Z) (reqs : list (Z * Z)) : list Z :=
  match reqs with
  | [] => []
  | (pkt_time, processing_time) :: reqs =>
      Z.max free pkt_time - pkt_time :: fifo_delays (Z.max free pkt_time + processing_time) reqs
  end.

Fixpoint total_time (reqs : list (Z * Z)) : Z :=
  match reqs with [] => 0 | r :: reqs => snd r + total_time reqs end.

(** Arrivals are positive and not after [last], and the server cannot be busy past the end of time. *)
Definition in_bounds (last : Z) (reqs : list (Z * Z)) : Prop :=
  Forall (λ r, 0 < fst r ≤ last ∧ 0 ≤ snd r) reqs ∧ last + total_time reqs < 2 ^ 64.

Lemma total_time_nonneg reqs : Forall (λ r, 0 ≤ snd r) reqs → 0 ≤ total_time reqs.
Proof. induction 1; cbn; lia. Qed.

Lemma in_bounds_cons last t p reqs :
  in_bounds last ((t, p) :: reqs) → 0 < t ≤ last ∧ 0 ≤ p ∧ 0 ≤ total_time reqs ∧ last + p + total_time reqs < 2 ^ 64 ∧
    Forall (λ r, 0 < fst r ≤ last ∧ 0 ≤ snd r) reqs.
Proof.
  intros [[[??] Hr]%Forall_cons Hb]. cbn in *. split_and!; try done; try lia.
  apply total_time_nonneg. eapply Forall_impl; [exact Hr|]. intros r. cbn. lia.
Qed.

Lemma run_delays_cons {Q} `{QueueModel Q} (q q' q'' : Q) t p reqs d d' ds :
  computeQueueDelay q t p INVALID_CORE_ID = Ok (d, q') → d = d' → run_delays q' reqs = Ok (ds, q'') →
  run_delays q ((t, p) :: reqs) = Ok (d' :: ds, q'').
Proof. intros E <- E'. cbn. by rewrite E; cbn; rewrite E'. Qed.

(** The basic model is that server, whatever the order of arrival. *)
Lemma basic_fifo {M} `{MovingAverage M} last reqs (free : Z) :
  in_bounds last reqs → 0 ≤ free → Z.max free last + total_time reqs < 2 ^ 64 →
  ∃ q, run_delays (QueueModelBasic.mk free (None : option M)) reqs = Ok (fifo_delays free reqs, q).
Proof.
  revert free. induction reqs as [|[t p] reqs IH]; intros free Hb Hf Hmax; [by eexists|].
  pose proof (in_bounds_cons _ _ _ _ Hb) as (Ht & Hp & Htot & Hb' & Hr). cbn in Hmax.
  destruct (IH (Z.max free t + p)) as (q & E); [by split; [|lia] | lia | lia |].
  exists q. cbn [fifo_delays]. eapply run_delays_cons; [reflexivity | |].
  - unfold SubsecondTime.sub, SubsecondTime.Zero. cbn. destruct (Z.ltb_spec t free); rewrite ?u64_small by rlia; lia.
  - cbn. unfold SubsecondTime.add. by rewrite u64_small by rlia.
Qed.

(** One unit of the contention model, after a request at [last]. *)
Lemma contention_unit c t p free tag :
  ContentionModel.m_time c = [(free, tag)] → 0 < t → ContentionModel.m_t_last c ≤ t →
  0 ≤ p → 0 ≤ free → Z.max free t + p < 2 ^ 64 →
  ∃ c', ContentionModel.getCompletionTime c t p 0 = Ok (Z.max free t + p, c') ∧
    ContentionModel.m_time c' = [(Z.max free t + p, 0)] ∧ ContentionModel.m_t_last c' = t.
Proof.
  intros Hc Ht Hl Hp Hf Hb. unfold ContentionModel.getCompletionTime, ContentionModel.first_unit, SubsecondTime.Zero. rewrite Hc. cbn.
  rewrite (proj2 (Z.eqb_neq t 0)), (proj2 (Z.ltb_ge _ _)) by lia.
  assert (E : ∀ b : bool, (if free <=? t then 0%nat else if b then 0%nat else 0%nat) = 0%nat) by (intros []; by case_match).
  rewrite E. cbn. unfold SubsecondTime.add.
  replace (if t <? free then free else t) with (Z.max free t) by (destruct (Z.ltb_spec t free); lia).
  rewrite u64_small by rlia. eauto.
Qed.

(** The contention model answers in every state, and keeps its units. *)
Lemma find_unit_lt t l : ∀ i unit best n, (unit < n)%nat → (i + length l ≤ n)%nat →
  (ContentionModel.find_unit t i unit best l < n)%nat.
Proof.
  induction l as [|u l IH]; intros i unit best n Hu Hn; cbn in *; [done|].
  case_match; [lia|]. case_match; apply IH; lia.
Qed.

Lemma first_unit_ok c t : ContentionModel.m_time c ≠ [] →
  ∃ i x, ContentionModel.first_unit c t = Ok (i, x) ∧ (i < length (ContentionModel.m_time c))%nat.
Proof.
  intros Hc. unfold ContentionModel.first_unit. destruct (ContentionModel.m_time c) as [|u l] eqn:E; [done|].
  change (arr_get (u :: l) 0) with (Ok u). cbn [rbind].
  assert (Hi : (ContentionModel.find_unit t 0 0 (fst u) (u :: l) < length (u :: l))%nat) by (apply find_unit_lt; cbn; lia).
  destruct (lookup_lt_is_Some_2 _ _ Hi) as [x Hx]. rewrite (proj2 (arr_get_ok _ _ _) Hx). cbn [rbind]. eauto.
Qed.

Lemma getCompletionTime_total c t p tag e : ContentionModel.m_time c ≠ [] →
  ContentionModel.getCompletionTime c t p tag ≠ Err e.
Proof.
  intros Hc. unfold ContentionModel.getCompletionTime. destruct (first_unit_ok c t Hc) as (i & x & -> & Hi).
  destruct (ContentionModel.m_time c) as [|u l] eqn:E; [done|]. do 2 (case_match; [done|]). cbn [rbind].
  rewrite (proj2 (arr_set_ok _ _ _ _)) by done. done.
Qed.

Lemma getCompletionTime_units c t p tag r c' : ContentionModel.m_time c ≠ [] →
  ContentionModel.getCompletionTime c t p tag = Ok (r, c') → ContentionModel.m_time c' ≠ [].
Proof.
  intros Hc. unfold ContentionModel.getCompletionTime. destruct (first_unit_ok c t Hc) as (i & x & -> & Hi).
  destruct (ContentionModel.m_time c) as [|u l] eqn:E; [done|].
  do 2 (case_match; [intros [= <- <-]; cbn; congruence|]).
  cbn [rbind]. rewrite (proj2 (arr_set_ok _ _ _ _)) by done. intros [= <- <-]. cbn [ContentionModel.m_time].
  by destruct i.
Qed.

Lemma contention_fifo last reqs c free tag :
  in_bounds last reqs → Sorted Z.le (ContentionModel.m_t_last c :: map fst reqs) →
  ContentionModel.m_time c = [(free, tag)] → 0 ≤ free → Z.max free last + total_time reqs < 2 ^ 64 →
  ∃ q, run_delays (QueueModelContention.mk c) reqs = Ok (fifo_delays free reqs, q).
Proof.
  revert c free tag. induction reqs as [|[t p] reqs IH]; intros c free tag Hb Hs Hc Hf Hmax; [by eexists|].
  pose proof (in_bounds_cons _ _ _ _ Hb) as (Ht & Hp & Htot & Hb' & Hr). cbn in Hmax, Hs.
  apply Sorted_inv in Hs as [Hs Hhd]. inversion Hhd; subst.
  destruct (contention_unit c t p free tag) as (c' & E & Hc' & Hl'); [done|lia..|].
  destruct (IH c' (Z.max free t + p) 0) as (q & Eq); [by split; [|lia] | by rewrite Hl' | done | lia | lia |].
  exists q. eapply run_delays_cons; [|reflexivity|].
  - unfold computeQueueDelay, QueueModelContention.model, QueueModelContention.computeQueueDelay. cbn. rewrite E. cbn.
    unfold SubsecondTime.sub. rewrite (u64_small (_ - t)), u64_small by rlia. do 2 f_equal. lia.
  - exact Eq.
Qed.

(** ** The moving average stays defined *)

Definition num_wf (n : Z) (x : ModuloNum.t) : Prop :=
  ModuloNum.m_max_value x = n ∧ 0 ≤ ModuloNum.m_value x < n.

Definition window_wf (w : Window.t) : Prop :=
  let n := Window.m_max_window_size w + 1 in
  2 ≤ n < 2 ^ 31 ∧ Z.of_nat (length (Window.m_num_list w)) = n ∧
  num_wf n (Window.m_curr_window_front w) ∧ num_wf n (Window.m_curr_window_back w).

Lemma window_new_wf k : 1 ≤ k < 2 ^ 31 - 1 → window_wf (Window.new k).
Proof.
  intros Hk. unfold window_wf, Window.new, num_wf. cbn. rewrite !u32_small by rlia. rewrite length_replicate. lia.
Qed.

Lemma add_one_wf n x : 2 ≤ n < 2 ^ 31 → num_wf n x →
  ∃ y, ModuloNum.add_int x 1 = Ok y ∧ num_wf n y ∧ ModuloNum.m_value y ≠ ModuloNum.m_value x.
Proof.
  intros Hn [Hm Hv]. unfold ModuloNum.add_int, ModuloNum.add, ModuloNum.setValue, umod. rewrite Hm.
  rewrite (proj2 (Z.eqb_neq n 0)) by lia. cbn. rewrite ?Hm, Z.eqb_refl.
  rewrite (Z.mod_small 1) by lia. rewrite u32_small by rlia.
  eexists. split; [done|]. split; [split; [done|]; cbn; by apply Z.mod_pos_bound; lia|]. cbn.
  destruct (Z.eq_dec (ModuloNum.m_value x + 1) n) as [E|E]; [rewrite E, Z_mod_same_full; lia|rewrite Z.mod_small; lia].
Qed.

Lemma addToWindow_wf w v : window_wf w →
  ∃ w', Window.addToWindow w v = Ok w' ∧ window_wf w' ∧
    ModuloNum.m_value (Window.m_curr_window_back w') ≠ ModuloNum.m_value (Window.m_curr_window_front w').
Proof.
  intros (Hn & Hl & [Hfm Hfv] & [Hbm Hbv]). unfold Window.addToWindow.
  rewrite (proj2 (arr_set_ok _ _ _ _)) by (split; [lia|done]). cbn.
  destruct (add_one_wf _ (Window.m_curr_window_back w) Hn) as (b & -> & Hb & _); [done|]. cbn.
  destruct (ModuloNum.eqb b (Window.m_curr_window_front w)) eqn:E.
  - destruct (add_one_wf _ (Window.m_curr_window_front w) Hn) as (f & -> & Hf & Hne); [done|]. cbn.
    apply andb_true_iff in E as [E%Z.eqb_eq _].
    eexists. split; [done|]. unfold window_wf. cbn. rewrite length_insert. split; [done|]. congruence.
  - cbn. eexists. split; [done|]. unfold window_wf. cbn. rewrite length_insert. split; [done|].
    intros Ev. unfold ModuloNum.eqb in E. rewrite Ev, (proj1 Hb), Hfm, !Z.eqb_refl in E. done.
Qed.

Lemma window_size_ok w : window_wf w → ∃ k, Window.curr_window_size w = Ok k ∧
  (ModuloNum.m_value (Window.m_curr_window_back w) ≠ ModuloNum.m_value (Window.m_curr_window_front w) → k ≠ 0).
Proof.
  intros (Hn & Hl & [Hfm Hfv] & [Hbm Hbv]). unfold Window.curr_window_size, ModuloNum.sub. rewrite Hfm, Hbm, Z.eqb_refl.
  cbn. eexists. split; [done|]. case_match eqn:E; [lia|]. apply Z.leb_gt in E. rewrite u32_small by rlia. lia.
Qed.

(** A mean that can be computed: its window holds something. *)
Definition mean_wf (m : MovingArithmeticMean.t) : Prop := window_wf (MovingArithmeticMean.window m).
Definition mean_nonempty (m : MovingArithmeticMean.t) : Prop :=
  let w := MovingArithmeticMean.window m in
  ModuloNum.m_value (Window.m_curr_window_back w) ≠ ModuloNum.m_value (Window.m_curr_window_front w).

Lemma mean_update m v : mean_wf m → ∃ m', MovingArithmeticMean.update m v = Ok m' ∧ mean_wf m' ∧ mean_nonempty m'.
Proof.
  intros Hw. unfold MovingArithmeticMean.update. destruct (window_size_ok _ Hw) as (k & -> & _). cbn.
  destruct (addToWindow_wf _ v Hw) as (w' & E & Hw' & Hne).
  case_match; cbn.
  - unfold Window.get. destruct Hw as (Hn & Hl & [_ Hfv] & _).
    destruct (lookup_lt_is_Some_2 (Window.m_num_list (MovingArithmeticMean.window m))
      (Z.to_nat (ModuloNum.m_value (Window.m_curr_window_front (MovingArithmeticMean.window m))))) as [x Hx]; [lia|].
    rewrite (proj2 (arr_get_ok _ _ _) Hx). cbn. rewrite E. cbn. eauto.
  - rewrite E. cbn. eauto.
Qed.

Lemma mean_compute m : mean_wf m → mean_nonempty m → ∃ v, MovingArithmeticMean.compute m = Ok v.
Proof.
  intros Hw Hn. unfold MovingArithmeticMean.compute, SubsecondTime.div, udiv.
  destruct (window_size_ok _ Hw) as (k & -> & Hk). cbn. rewrite (proj2 (Z.eqb_neq k 0)) by (by apply Hk). eauto.
Qed.

(** ** The history list *)

(** The free intervals are in order, apart, and long enough. *)
Fixpoint free_list (min lo : Z) (l : list (Z * Z)) : Prop :=
  match l with
  | [] => True
  | (a, b) :: l => lo ≤ a ∧ a + min ≤ b ∧ b ≤ QueueModelHistoryList.max_simulation_time ∧ free_list min b l
  end.

(** The resource is free at time [x]. *)
Definition free (l : list (Z * Z)) (x : Z) : Prop := ∃ i, i ∈ l ∧ fst i ≤ x < snd i.

Lemma free_cons i l x : free (i :: l) x ↔ fst i ≤ x < snd i ∨ free l x.
Proof. unfold free. setoid_rewrite elem_of_cons. naive_solver. Qed.

Lemma free_app l l' x : free (l ++ l') x ↔ free l x ∨ free l' x.
Proof. unfold free. setoid_rewrite elem_of_app. naive_solver. Qed.

Lemma free_list_weaken min lo lo' l : free_list min lo l → lo' ≤ lo → free_list min lo' l.
Proof. destruct l as [|[a b] l]; cbn; [done|]. intuition lia. Qed.

Lemma free_list_after min lo l x : 0 ≤ min → free_list min lo l → free l x → lo ≤ x.
Proof.
  revert lo. induction l as [|[a b] l IH]; intros lo Hmin Hl Hx; [destruct Hx as (? & Hin & _); by apply elem_of_nil in Hin|].
  destruct Hl as (Ha & Hb & _ & Hl). apply free_cons in Hx as [Hx|Hx]; cbn in *; [lia|].
  specialize (IH b Hmin Hl Hx). lia.
Qed.

Lemma keep_spec min a b : 0 ≤ a → a ≤ b → b < 2 ^ 64 →
  QueueModelHistoryList.keep min a b = if min <=? b - a then [(a, b)] else [].
Proof. intros. unfold QueueModelHistoryList.keep, SubsecondTime.sub. by rewrite u64_small by rlia. Qed.

Lemma keep_free min a b x : 0 ≤ a → a ≤ b → b < 2 ^ 64 → free (QueueModelHistoryList.keep min a b) x → a ≤ x < b.
Proof.
  intros Ha Hb Hc. rewrite keep_spec by done. case_match; intros (i & Hi & ?).
  - apply list_elem_of_singleton in Hi as ->. done.
  - by apply elem_of_nil in Hi.
Qed.

Lemma keep_list min lo a b l :
  lo ≤ a → 0 ≤ a → a ≤ b → b ≤ 2 ^ 63 → free_list min b l →
  free_list min lo (QueueModelHistoryList.keep min a b ++ l).
Proof.
  intros ?? Hb Hm Hl. rewrite keep_spec by (done || lia).
  destruct (Z.leb_spec min (b - a)); cbn; [|eapply free_list_weaken; [done|lia]]. repeat split; [lia|lia|exact Hm|done].
Qed.

(** What a request gets was free and is not free any more. *)
Lemma search_sound min t p l : ∀ lo d l',
  0 < p ≤ min → 0 ≤ t → t + p < 2 ^ 64 → 0 ≤ lo → free_list min lo l →
  QueueModelHistoryList.search min t p l = Some (d, l') →
  free_list min lo l' ∧ (∀ x, t + d ≤ x < t + d + p → free l x) ∧
  (∀ x, free l' x → free l x ∧ ¬ (t + d ≤ x < t + d + p)).
Proof.
  induction l as [|[a b] l IH]; intros lo d l' Hp Ht Htp Hlo Hl E; cbn in E; [done|].
  destruct Hl as (Ha & Hb & Hm & Hl). unfold QueueModelHistoryList.max_simulation_time in Hm.
  assert (Hafter : ∀ x, free l x → b ≤ x) by (intros x; apply (free_list_after min); [lia|done]).
  unfold SubsecondTime.add in E. rewrite (u64_small (t + p)) in E by rlia.
  destruct ((a <=? t) && (t + p <=? b)) eqn:Efit.
  - apply andb_true_iff in Efit as [Hat%Z.leb_le Hpb%Z.leb_le]. injection E as <- <-.
    unfold SubsecondTime.Zero. rewrite !Z.add_0_r. split; [|split].
    + apply keep_list; try lia. apply keep_list; try lia. done.
    + intros x Hx. apply free_cons. left. cbn. lia.
    + intros x. rewrite !free_app, free_cons. cbn.
      intros [Hx%keep_free|[Hx%keep_free|Hx]]; try lia; [split; [left|]; lia..|].
      pose proof (Hafter x Hx). split; [by right|lia].
  - destruct (Z.ltb_spec t a).
    + injection E as <- <-. rewrite (u64_small (a + p)) by rlia. unfold SubsecondTime.sub. rewrite u64_small by rlia.
      replace (t + (a - t)) with a by lia. split; [|split].
      * apply keep_list; try lia. done.
      * intros x Hx. apply free_cons. left. cbn. lia.
      * intros x. rewrite !free_app, free_cons. cbn. intros [Hx%keep_free|Hx]; try lia.
        pose proof (Hafter x Hx). split; [by right|lia].
    + destruct (QueueModelHistoryList.search min t p l) as [[d' l1]|] eqn:Es; [|done]. injection E as <- <-.
      destruct (IH b d' l1) as (Hl1 & Hin & Hout); [done..|lia|done|done|].
      split; [done|]. split.
      * intros x Hx. apply free_cons. right. by apply Hin.
      * intros x. rewrite !free_cons. cbn. intros [Hx|Hx]; [|by split; [right; apply Hout|apply Hout]].
        split; [by left|]. intros Hs%Hin%Hafter. lia.
Qed.

(** The last interval never ends: as long as it does not begin too late, every request is served. *)
Definition open_end (B : Z) (l : list (Z * Z)) : Prop :=
  ∃ a, last l = Some (a, QueueModelHistoryList.max_simulation_time) ∧ a ≤ B.

Lemma open_end_app B l l' : open_end B l' → open_end B (l ++ l').
Proof. intros (a & Ha & ?). exists a. split; [|done]. rewrite last_app, Ha. done. Qed.

Lemma open_end_mono B B' l : open_end B l → B ≤ B' → open_end B' l.
Proof. intros (a & ? & ?) ?. exists a. split; [done|lia]. Qed.

Lemma search_total min t p B l : ∀ lo,
  0 < p ≤ min → 0 ≤ t ≤ B → 0 ≤ lo → B + p + min ≤ 2 ^ 63 → free_list min lo l → open_end B l →
  ∃ d l', QueueModelHistoryList.search min t p l = Some (d, l') ∧ 0 ≤ d ≤ B ∧
    open_end (B + p) l' ∧ (length l' ≤ S (length l))%nat.
Proof.
  induction l as [|[a b] l IH]; intros lo Hp Ht Hlo HB Hl Hopen; [by destruct Hopen as (? & ? & _)|].
  destruct Hl as (Ha & Hb & Hm & Hl). unfold QueueModelHistoryList.max_simulation_time in Hm. cbn.
  assert (Hrest : l = [] ∧ b = 2 ^ 63 ∧ a ≤ B ∨ open_end B l).
  { destruct Hopen as (z & Hz & Hz'). destruct l as [|i l]; [left|right; by exists z]. cbn in Hz. injection Hz as -> ->. done. }
  unfold SubsecondTime.add. rewrite (u64_small (t + p)) by rlia.
  destruct ((a <=? t) && (t + p <=? b)) eqn:Efit.
  - apply andb_true_iff in Efit as [Hat%Z.leb_le Hpb%Z.leb_le]. rewrite !keep_spec by lia.
    eexists _, _. split; [done|]. unfold SubsecondTime.Zero. split; [lia|]. split.
    + destruct Hrest as [(-> & -> & _)|Hopen']; [|do 2 apply open_end_app; eapply open_end_mono; [done|lia]].
      apply open_end_app. rewrite (proj2 (Z.leb_le _ _)) by lia. exists (t + p). split; [done|lia].
    + rewrite !length_app. do 2 case_match; cbn; lia.
  - destruct (Z.ltb_spec t a).
    + rewrite u64_small by rlia. unfold SubsecondTime.sub. rewrite u64_small by rlia. rewrite keep_spec by lia.
      eexists _, _. split; [done|]. split; [|split].
      * destruct Hrest as [(_ & _ & ?)|(z & Hz & Hzb)]; [lia|].
        assert (a ≤ z); [|lia]. apply last_Some_elem_of in Hz.
        enough (b ≤ z) by lia. apply (free_list_after min b l); [lia|done|]. exists (z, 2 ^ 63). split; [done|]. cbn. lia.
      * destruct Hrest as [(-> & -> & ?)|Hopen']; [|apply open_end_app; eapply open_end_mono; [done|lia]].
        rewrite (proj2 (Z.leb_le _ _)) by lia. exists (a + p). split; [done|lia].
      * rewrite length_app. case_match; cbn; lia.
    + destruct Hrest as [(-> & -> & ?)|Hopen'].
      { exfalso. rewrite (proj2 (Z.leb_le a t)), (proj2 (Z.leb_le _ _)) in Efit by lia. done. }
      destruct (IH b) as (d & l' & -> & Hd & Ho & Hlen); [done|done|lia|done..|].
      eexists d, _. split; [done|]. split; [done|]. split; [by apply (open_end_app _ [_])|cbn; lia].
Qed.

(** What a model has to be for its requests to be served up to time [B]. *)
Definition history_wf (B : Z) (q : QueueModelHistoryList.t) : Prop :=
  let l := QueueModelHistoryList.m_free_interval_list q in
  let n := QueueModelHistoryList.m_max_free_interval_list_size q in
  0 < QueueModelHistoryList.m_min_processing_time q ∧
  free_list (QueueModelHistoryList.m_min_processing_time q) 0 l ∧ open_end B l ∧
  1 ≤ n ∧ Z.of_nat (length l) ≤ n ∧ mean_wf (QueueModelHistoryList.m_average_delay q) ∧
  (mean_nonempty (QueueModelHistoryList.m_average_delay q) ∨ ∃ b, head l = Some (0, b)).

Lemma history_new_wf min n an : 0 < min ≤ 2 ^ 63 → 1 ≤ n < 2 ^ 31 - 1 → history_wf 0 (QueueModelHistoryList.new min n an).
Proof.
  intros Hm Hn. unfold history_wf, QueueModelHistoryList.new. cbn. unfold QueueModelHistoryList.max_simulation_time, SubsecondTime.Zero.
  split_and!; try done; try lia.
  - by exists 0.
  - by apply window_new_wf.
  - right. by eexists.
Qed.

(** A request that is booked in the list. *)
Lemma history_books B q t p r :
  history_wf B q → 0 ≤ t ≤ B → 0 < p ≤ QueueModelHistoryList.m_min_processing_time q →
  B + p + QueueModelHistoryList.m_min_processing_time q ≤ 2 ^ 63 →
  QueueModelHistoryList.is_old q t p = false →
  ∃ d q', QueueModelHistoryList.computeQueueDelay q t p r = Ok (d, q') ∧ 0 ≤ d ∧ history_wf (B + p) q' ∧
    QueueModelHistoryList.m_min_processing_time q' = QueueModelHistoryList.m_min_processing_time q ∧
    (∀ x, t + d ≤ x < t + d + p → free (QueueModelHistoryList.m_free_interval_list q) x) ∧
    (∀ x, free (QueueModelHistoryList.m_free_interval_list q') x →
      free (QueueModelHistoryList.m_free_interval_list q) x ∧ ¬ (t + d ≤ x < t + d + p)).
Proof.
  intros (Hmin & Hl & Ho & Hn & Hlen & Hm & _) Ht Hp HB Hold.
  destruct (search_total _ t p B _ 0 Hp Ht ltac:(lia) HB Hl Ho) as (d & l' & Es & Hd & Ho' & Hlen').
  destruct (search_sound _ t p _ 0 d l' Hp ltac:(lia) ltac:(lia) ltac:(lia) Hl Es) as (Hl' & Hin & Hout).
  destruct (mean_update (QueueModelHistoryList.m_average_delay q) d Hm) as (m & Em & Hm' & Hne).
  unfold QueueModelHistoryList.computeQueueDelay, QueueModelHistoryList.computeUsingHistoryList. rewrite Hold, Es.
  set (n := QueueModelHistoryList.m_max_free_interval_list_size q) in *.
  set (l := if n <? Z.of_nat (length l') then tl l' else l').
  assert (Hone : (1 <=? length (QueueModelHistoryList.m_free_interval_list q))%nat = true).
  { destruct Ho as (a & Ha & _). by destruct (QueueModelHistoryList.m_free_interval_list q). }
  rewrite Hone, (proj2 (Z.leb_le _ _) Hlen). cbn. unfold SubsecondTime.MaxTime.
  rewrite (proj2 (Z.eqb_neq d _)) by lia. cbn. rewrite Em. cbn.
  eexists _, _. split; [done|]. split; [lia|].
  assert (Htl : free_list (QueueModelHistoryList.m_min_processing_time q) 0 l ∧ open_end (B + p) l ∧
    Z.of_nat (length l) ≤ n ∧ ∀ x, free l x → free l' x).
  { subst l. destruct (Z.ltb_spec n (Z.of_nat (length l'))); [|by split_and!].
    destruct l' as [|[a b] l']; [cbn in *; lia|]. destruct Hl' as (? & ? & ? & Hl'). cbn in *. split_and!.
    - eapply free_list_weaken; [done|lia].
    - destruct Ho' as (z & Hz & ?). exists z. split; [|done]. by destruct l'; [cbn in *; lia|].
    - lia.
    - intros x Hx. apply free_cons. by right. }
  destruct Htl as (Hl1 & Ho1 & Hlen1 & Hsub). split; [by split_and!; [..|left]|]. split; [done|]. split; [done|].
  intros x Hx. apply Hout, Hsub, Hx.
Qed.

(** A request that is too old for the list leaves it alone. *)
Lemma history_old B q t p r :
  history_wf B q → 0 ≤ t → 0 < p → t + p < 2 ^ 64 → QueueModelHistoryList.is_old q t p = true →
  ∃ d q', QueueModelHistoryList.computeQueueDelay q t p r = Ok (d, q') ∧ history_wf B q' ∧
    QueueModelHistoryList.m_min_processing_time q' = QueueModelHistoryList.m_min_processing_time q ∧
    QueueModelHistoryList.m_free_interval_list q' = QueueModelHistoryList.m_free_interval_list q.
Proof.
  intros (Hmin & Hl & Ho & Hn & Hlen & Hm & Hne) Ht Hp Htp Hold.
  unfold QueueModelHistoryList.computeQueueDelay. rewrite Hold.
  unfold QueueModelHistoryList.is_old, SubsecondTime.add in Hold. rewrite u64_small in Hold by rlia.
  destruct Hne as [Hne|[b Hb]].
  - destruct (mean_compute _ Hm Hne) as [d ->].
    assert (Hone : (1 <=? length (QueueModelHistoryList.m_free_interval_list q))%nat = true).
    { destruct Ho as (a & Ha & _). by destruct (QueueModelHistoryList.m_free_interval_list q). }
    rewrite Hone. cbn. eexists _, _. split; [done|]. split; [by split_and!; [..|left]|done].
  - exfalso. destruct (QueueModelHistoryList.m_free_interval_list q) as [|i l]; [done|]. cbn in Hb. injection Hb as ->.
    apply andb_true_iff in Hold as [_ Hold%Z.leb_le]. lia.
Qed.

(** Requests in sequence: when each request that is booked in the list begins and ends. *)
Fixpoint run_history (q : QueueModelHistoryList.t) (reqs : list (Z * Z)) : result (list (Z * Z) * QueueModelHistoryList.t) :=
  match reqs with
  | [] => Ok ([], q)
  | (t, p) :: reqs =>
      let! (d, q') := computeQueueDelay q t p INVALID_CORE_ID in
      let! (booked, q'') := run_history q' reqs in
      Ok ((if QueueModelHistoryList.is_old q t p then booked else (t + d, t + d + p) :: booked), q'')
  end.

(** Two uses of the resource never coincide. *)
Definition disjoint_use (i j : Z * Z) : Prop := ∀ x, ¬ (fst i ≤ x < snd i ∧ fst j ≤ x < snd j).

Lemma run_history_disjoint T reqs : ∀ B q,
  history_wf B q → T ≤ B →
  Forall (λ r, 0 ≤ fst r ≤ T ∧ 0 < snd r ≤ QueueModelHistoryList.m_min_processing_time q) reqs →
  B + total_time reqs + QueueModelHistoryList.m_min_processing_time q ≤ 2 ^ 63 →
  ∃ booked q', run_history q reqs = Ok (booked, q') ∧ ForallOrdPairs disjoint_use booked ∧
    Forall (λ i, ∀ x, fst i ≤ x < snd i → free (QueueModelHistoryList.m_free_interval_list q) x) booked.
Proof.
  induction reqs as [|[t p] reqs IH]; intros B q Hwf HT Hr HB; [by eexists _, _; split; [|split; constructor]|].
  apply Forall_cons in Hr as [[Ht Hp] Hr]. cbn in Ht, Hp, HB.
  assert (0 ≤ total_time reqs) by (apply total_time_nonneg; eapply Forall_impl; [exact Hr|]; intros [] ?; cbn in *; lia).
  cbn [run_history]. change (computeQueueDelay q t p ?r) with (QueueModelHistoryList.computeQueueDelay q t p INVALID_CORE_ID).
  destruct (QueueModelHistoryList.is_old q t p) eqn:Hold.
  - destruct (history_old B q t p INVALID_CORE_ID) as (d & q' & -> & Hwf' & Hm & Hl); [done|lia..|done|]. cbn.
    destruct (IH B q') as (bs & q'' & -> & Hd & Hf); [done|done|by rewrite Hm|rewrite Hm; lia|]. cbn.
    eexists _, _. split; [done|]. split; [done|]. by rewrite <- Hl.
  - destruct (history_books B q t p INVALID_CORE_ID) as (d & q' & -> & Hd0 & Hwf' & Hm & Hin & Hout); [done|lia..|done|]. cbn.
    destruct (IH (B + p) q') as (bs & q'' & -> & Hd & Hf); [done|lia|by rewrite Hm|rewrite Hm; lia|]. cbn.
    eexists _, _. split; [done|]. split.
    + constructor; [|done]. eapply Forall_impl; [exact Hf|]. intros i Hi x [Hx Hx']. cbn in Hx.
      by apply (Hout x (Hi x Hx')).
    + constructor; [done|]. eapply Forall_impl; [exact Hf|]. intros i Hi x Hx. by apply Hout, Hi.
Qed.

Lemma analytical_kept q t p r d q' :
  QueueModelHistoryList.computeQueueDelay q t p r = Ok (d, q') →
  QueueModelHistoryList.m_analytical_model_enabled q' = QueueModelHistoryList.m_analytical_model_enabled q.
Proof.
  unfold QueueModelHistoryList.computeQueueDelay, QueueModelHistoryList.computeUsingHistoryList. intros E. inv_ok.
  case_match; inv_ok; [done|]. case_match; [|done]. inv_ok. done.
Qed.

Lemma run_history_all q reqs bs q' :
  QueueModelHistoryList.m_analytical_model_enabled q = false → run_history q reqs = Ok (bs, q') → length bs = length reqs.
Proof.
  revert q bs. induction reqs as [|[t p] reqs IH]; intros q bs Ha E; cbn in E; inv_ok; [done|].
  unfold QueueModelHistoryList.is_old. rewrite Ha. cbn. f_equal.
  match goal with H : run_history ?q1 _ = Ok _ |- _ => apply (IH q1); [|exact H] end.
  rewrite <- Ha. eapply analytical_kept. eassumption.
Qed.

(** * Properties *)

(** [C37] The history list never serves two requests at once: for any requests, out of order
    or not, that need at most the configured minimum time and come early enough for the
    resource to be done before the end of simulated time, every call returns, and the
    intervals in which the requests booked in the list use the resource are disjoint. *)
Theorem history_list_no_double_booking min n analytical T reqs :
  0 < min ≤ 2 ^ 63 → 1 ≤ n < 2 ^ 31 - 1 → 0 ≤ T →
  Forall (λ r, 0 ≤ fst r ≤ T ∧ 0 < snd r ≤ min) reqs →
  T + total_time reqs + min ≤ 2 ^ 63 →
  ∃ booked q, run_history (QueueModelHistoryList.new min n analytical) reqs = Ok (booked, q) ∧
    ForallOrdPairs disjoint_use booked ∧
    (analytical = false → length booked = length reqs).
Proof.
  intros Hm Hn HT Hr HB.
  destruct (run_history_disjoint T reqs T (QueueModelHistoryList.new min n analytical)) as (bs & q & E & Hd & _); [|done..|].
  { destruct (history_new_wf min n analytical Hm Hn) as (H1 & H2 & H3 & H4). split_and!; [done|done| |apply H4..].
    eapply open_end_mono; [done|lia]. }
  exists bs, q. split; [done|]. split; [done|]. intros ->. by eapply run_history_all; [|exact E].
Qed.

Lemma history_list_no_double_booking_witness :
  ∃ booked q, run_history (QueueModelHistoryList.new 10 8 true) [(100, 10); (50, 10); (95, 10); (40, 5)] = Ok (booked, q) ∧
    ForallOrdPairs disjoint_use booked ∧ (true = false → length booked = 4%nat).
Proof.
  apply (history_list_no_double_booking 10 8 true 100 [(100, 10); (50, 10); (95, 10); (40, 5)]);
    [lia | lia | lia | repeat constructor; cbn; lia | cbn; lia].
Defined.

(** [C39] A single contention unit and the basic model without moving average are the same
    server: for requests in order of arrival, at positive times and with the sum of all times
    below 2^64, both give the delays of a first-in first-out queue, and the basic model does so
    for requests out of order as well. *)
Theorem queue_models_fifo {M} `{MovingAverage M} last reqs :
  in_bounds last reqs →
  (∃ q, run_delays (QueueModelBasic.new (None : option M)) reqs = Ok (fifo_delays 0 reqs, q)) ∧
  (Sorted Z.le (map fst reqs) →
   ∃ q, run_delays (QueueModelContention.new 1) reqs = Ok (fifo_delays 0 reqs, q)).
Proof.
  intros Hb. assert (Hmax : Z.max 0 last + total_time reqs < 2 ^ 64).
  { destruct Hb as [Hr Hb]. destruct reqs as [|r reqs]; cbn in *; [lia|]. apply Forall_cons in Hr as [? _]. lia. }
  split; [by apply (basic_fifo last)|].
  intros Hs. apply (contention_fifo last reqs _ 0 0); try done.
  constructor; [done|]. destruct Hb as [Hr _]. destruct Hr; constructor. cbn. unfold SubsecondTime.Zero. lia.
Qed.

Lemma queue_models_fifo_witness :
  (∃ q, run_delays (QueueModelBasic.new (None : option MovingMedian.t)) [(5, 10); (7, 10); (30, 1)] = Ok (fifo_delays 0 [(5, 10); (7, 10); (30, 1)], q)) ∧
  (Sorted Z.le [5; 7; 30] →
   ∃ q, run_delays (QueueModelContention.new 1) [(5, 10); (7, 10); (30, 1)] = Ok (fifo_delays 0 [(5, 10); (7, 10); (30, 1)], q)).
Proof.
  apply (queue_models_fifo 30 [(5, 10); (7, 10); (30, 1)]). split; [repeat constructor; cbn; lia|cbn; lia].
Defined.

(** A request that needs more time than the free interval it is given leaves an interval that
    ends before it begins, because the remaining time is computed without a sign.  Here the
    third request does so; the last two need less than the minimum time and still use the
    resource at the same time. *)
Lemma history_list_inverted_interval :
  ∃ q3 q, run_history (QueueModelHistoryList.new 10 8 false) [(20, 10); (50, 10); (25, 30)] =
      Ok ([(20, 30); (50, 60); (30, 60)], q3) ∧
    (60, 50) ∈ QueueModelHistoryList.m_free_interval_list q3 ∧
    run_history q3 [(61, 5); (55, 5)] = Ok ([(61, 66); (60, 65)], q).
Proof. do 2 eexists. split; [vm_compute; reflexivity|]. split; [apply list_elem_of_lookup_2 with 1%nat; vm_compute; reflexivity|vm_compute; reflexivity]. Qed.
