(* ===== verification/BlockInfo.v ===== *)
(** Cache line states and cache block metadata: [cache/cache_state.h],
    [cache/cache_block_info.{h,cc}], [cache/pr_l2_cache_block_info.{h,cc}] and
    [mem_component.h].  The block record carries the epoch identifier that
    PiCL adds to each cache line. *)
From S2P Require Import Prelude Utils.

(** ** [cache_state.h] *)
Module CacheState.
Inductive cstate_t :=
  | INVALID
  | SHARED
  | SHARED_UPGRADING
  | EXCLUSIVE
  | OWNED
  | MODIFIED
  (* special states, used only for reporting *)
  | INVALID_COLD
  | INVALID_EVICT
  | INVALID_COHERENCY.

#[global] Instance cstate_eq_dec : EqDecision cstate_t.
Proof. solve_decision. Defined.

Definition readable (s : cstate_t) : bool :=
  bool_decide (s = MODIFIED) || bool_decide (s = OWNED)
  || bool_decide (s = SHARED) || bool_decide (s = EXCLUSIVE).

Definition writable (s : cstate_t) : bool := bool_decide (s = MODIFIED).
End CacheState.
Export (hints) CacheState.

(** ** [mem_component.h]

    [UNNAMED n] stands for the values between [L4_CACHE] and
    [LAST_LEVEL_CACHE] to which the code casts level numbers. *)
Module MemComponent.
Inductive component_t :=
  | INVALID_MEM_COMPONENT
  | CORE
  | L1_ICACHE
  | L1_DCACHE
  | L2_CACHE
  | L3_CACHE
  | L4_CACHE
  | UNNAMED (n : Z)
  | LAST_LEVEL_CACHE
  | TAG_DIR
  | ONCHIP_UNDO_BUFFER
  | NUCA_CACHE
  | DRAM_CACHE
  | DRAM.

#[global] Instance component_eq_dec : EqDecision component_t.
Proof. solve_decision. Defined.

(** The value of the enumerator. *)
Definition code (c : component_t) : Z :=
  match c with
  | INVALID_MEM_COMPONENT => 0
  | CORE => 1
  | L1_ICACHE => 2
  | L1_DCACHE => 3
  | L2_CACHE => 4
  | L3_CACHE => 5
  | L4_CACHE => 6
  | UNNAMED n => n
  | LAST_LEVEL_CACHE => 20
  | TAG_DIR => 21
  | ONCHIP_UNDO_BUFFER => 22
  | NUCA_CACHE => 23
  | DRAM_CACHE => 24
  | DRAM => 25
  end.
End MemComponent.

(** ** [cache_block_info.{h,cc}] *)
Module CacheBlockInfo.
Inductive option_t := PREFETCH | WARMUP.

Definition option_code (o : option_t) : Z :=
  match o with PREFETCH => 0 | WARMUP => 1 end.

Record t := mk {
  m_tag : Z;                       (* IntPtr *)
  m_cstate : CacheState.cstate_t;
  m_owner : Z;                     (* UInt64 *)
  m_used : Z;                      (* UInt8, one bit per 8 bytes *)
  m_options : Z;                   (* UInt8, one bit per option *)
  m_eid : Z;                       (* UInt64, the epoch of the last write *)
}.

#[global] Instance t_eq_dec : EqDecision t.
Proof. solve_decision. Defined.

(** The tag [~0] marks a block that holds nothing. *)
Definition INVALID_TAG : Z := 2 ^ 64 - 1.

Definition new (tag : Z) (cstate : CacheState.cstate_t) (options : Z) : t :=
  {| m_tag := tag; m_cstate := cstate; m_owner := 0; m_used := 0;
     m_options := u8 options; m_eid := 0 |}.

(** The default arguments of the constructor. *)
Definition empty : t := new INVALID_TAG CacheState.INVALID 0.

Definition set_tag (b : t) (tag : Z) : t :=
  {| m_tag := tag; m_cstate := m_cstate b; m_owner := m_owner b;
     m_used := m_used b; m_options := m_options b; m_eid := m_eid b |}.
Definition set_cstate (b : t) (s : CacheState.cstate_t) : t :=
  {| m_tag := m_tag b; m_cstate := s; m_owner := m_owner b;
     m_used := m_used b; m_options := m_options b; m_eid := m_eid b |}.
Definition set_owner (b : t) (o : Z) : t :=
  {| m_tag := m_tag b; m_cstate := m_cstate b; m_owner := o;
     m_used := m_used b; m_options := m_options b; m_eid := m_eid b |}.
Definition set_epoch (b : t) (eid : Z) : t :=
  {| m_tag := m_tag b; m_cstate := m_cstate b; m_owner := m_owner b;
     m_used := m_used b; m_options := m_options b; m_eid := eid |}.
Definition set_used (b : t) (u : Z) : t :=
  {| m_tag := m_tag b; m_cstate := m_cstate b; m_owner := m_owner b;
     m_used := u; m_options := m_options b; m_eid := m_eid b |}.
Definition set_options (b : t) (o : Z) : t :=
  {| m_tag := m_tag b; m_cstate := m_cstate b; m_owner := m_owner b;
     m_used := m_used b; m_options := o; m_eid := m_eid b |}.

Definition isValid (b : t) : bool := negb (m_tag b =? INVALID_TAG).

Definition invalidate (b : t) : t :=
  set_epoch (set_cstate (set_tag b INVALID_TAG) CacheState.INVALID) 0.

(** [this->clone(src)]: every field is copied. *)
Definition clone (this src : t) : t :=
  {| m_tag := m_tag src; m_cstate := m_cstate src; m_owner := m_owner src;
     m_used := m_used src; m_options := m_options src; m_eid := m_eid src |}.

Definition hasOption (b : t) (o : option_t) : bool :=
  negb (Z.land (m_options b) (Z.shiftl 1 (option_code o)) =? 0).
Definition setOption (b : t) (o : option_t) : t :=
  set_options b (u8 (Z.lor (m_options b) (Z.shiftl 1 (option_code o)))).
Definition clearOption (b : t) (o : option_t) : t :=
  set_options b (u8 (Z.land (m_options b) (u64 (Z.lnot (Z.shiftl 1 (option_code o)))))).

Definition BitsUsedOffset : Z := 3.

(** [updateUsage(BitsUsedType)]: whether a bit was newly set, and the block. *)
Definition updateUsage_mask (b : t) (used : Z) : bool * t :=
  (negb (Z.land used (Z.lnot (m_used b)) =? 0), set_used b (Z.lor (m_used b) used)).

(** [updateUsage(UInt32 offset, UInt32 size)]; a shift by 64 or more is undefined. *)
Definition updateUsage (b : t) (offset size : Z) : result (bool * t) :=
  let first := Z.shiftr offset BitsUsedOffset in
  let last := Z.shiftr (u32 (u32 (offset + size) - 1)) BitsUsedOffset in
  let! _ := check ((first <? 64) && (last + 1 <? 64)) OutOfRange in
  let first_mask := u64 (Z.shiftl 1 first) - 1 in
  let last_mask := u64 (Z.shiftl 1 (last + 1)) - 1 in
  let usage_mask := Z.land last_mask (Z.lnot first_mask) in
  Ok (updateUsage_mask b (u8 usage_mask)).
End CacheBlockInfo.

(** ** [pr_l2_cache_block_info.{h,cc}]

    A block of a private L2 cache also records which L1 caches hold it. *)
Module PrL2.
Record t := mk {
  base : CacheBlockInfo.t;
  m_cached_loc_bitvec : Z;     (* UInt32 *)
}.

Definition getCachedLoc (b : t) : result MemComponent.component_t :=
  let icache := Z.shiftl 1 (MemComponent.code MemComponent.L1_ICACHE) in
  let dcache := Z.shiftl 1 (MemComponent.code MemComponent.L1_DCACHE) in
  let! _ := check (negb (m_cached_loc_bitvec b =? Z.lor icache dcache)) AssertFail in
  if m_cached_loc_bitvec b =? icache then Ok MemComponent.L1_ICACHE
  else if m_cached_loc_bitvec b =? dcache then Ok MemComponent.L1_DCACHE
  else if m_cached_loc_bitvec b =? 0 then Ok MemComponent.INVALID_MEM_COMPONENT
  else Err LogError.

Definition setCachedLoc (b : t) (loc : MemComponent.component_t) : result t :=
  let bit := Z.shiftl 1 (MemComponent.code loc) in
  let! _ := check (negb (bool_decide (loc = MemComponent.INVALID_MEM_COMPONENT))) AssertFail in
  let! _ := check (Z.land (m_cached_loc_bitvec b) bit =? 0) AssertFail in
  Ok {| base := base b; m_cached_loc_bitvec := Z.lor (m_cached_loc_bitvec b) bit |}.

Definition clearCachedLoc (b : t) (loc : MemComponent.component_t) : result t :=
  let bit := Z.shiftl 1 (MemComponent.code loc) in
  let! _ := check (negb (bool_decide (loc = MemComponent.INVALID_MEM_COMPONENT))) AssertFail in
  let! _ := check (negb (Z.land (m_cached_loc_bitvec b) bit =? 0)) AssertFail in
  Ok {| base := base b; m_cached_loc_bitvec := Z.land (m_cached_loc_bitvec b) (u32 (Z.lnot bit)) |}.

Definition invalidate (b : t) : t :=
  {| base := CacheBlockInfo.invalidate (base b); m_cached_loc_bitvec := 0 |}.

Definition clone (this src : t) : t :=
  {| base := CacheBlockInfo.clone (base this) (base src);
     m_cached_loc_bitvec := m_cached_loc_bitvec src |}.
End PrL2.
