(* ===== verification/AddressMap.v ===== *)
(** Mapping of addresses to cache sets and to home nodes:
    [cache/cache_base.{h,cc}] and [address_home_lookup.{h,cc}]. *)
From S2P Require Import Prelude Utils.

(** ** [address_home_lookup.{h,cc}] *)
Module AddressHomeLookup.
Record t := mk {
  m_ahl_param : Z;         (* UInt32 *)
  m_ahl_mask : Z;          (* UInt64 *)
  m_core_list : list Z;    (* core_id_t *)
  m_total_modules : Z;     (* UInt32 *)
  m_cache_block_size : Z;  (* UInt32 *)
}.

(** A shift of the [int] 1 by 32 or more is undefined. *)
Definition new (ahl_param : Z) (core_list : list Z) (cache_block_size : Z) : result t :=
  let! _ := check (ahl_param <? 32) OutOfRange in
  let! _ := check (s32 (Z.shiftl 1 ahl_param) >=? s32 cache_block_size) AssertFail in
  Ok {| m_ahl_param := ahl_param;
        m_ahl_mask := Z.shiftl 1 ahl_param - 1;
        m_core_list := core_list;
        m_total_modules := u32 (Z.of_nat (length core_list));
        m_cache_block_size := cache_block_size |}.

Definition getHome (l : t) (address : Z) : result Z :=
  let! m := umod (Z.shiftr address (m_ahl_param l)) (m_total_modules l) in
  let module_num := s32 m in
  let! _ := check ((0 <=? module_num) && (module_num <? s32 (m_total_modules l))) AssertFail in
  arr_get (m_core_list l) (Z.to_nat module_num).

Definition getLinearBlock (l : t) (address : Z) : result Z :=
  udiv (Z.shiftr address (m_ahl_param l)) (m_total_modules l).

Definition getLinearAddress (l : t) (address : Z) : result Z :=
  let! block := getLinearBlock l address in
  Ok (Z.lor (u64 (Z.shiftl block (m_ahl_param l))) (Z.land address (m_ahl_mask l))).
End AddressHomeLookup.

(** ** [cache_base.{h,cc}] *)
Module CacheBase.
Inductive access_t := LOAD | STORE.

Inductive hash_t :=
  | INVALID_HASH_TYPE
  | HASH_MASK
  | HASH_MOD
  | HASH_RNG1_MOD
  | HASH_RNG2_MOD
  | HASH_PRIME_DIS
  | HASH_XOR_MOD
  | HASH_MER_MOD.

#[global] Instance hash_eq_dec : EqDecision hash_t.
Proof. solve_decision. Defined.

Inductive ReplacementPolicy :=
  | ROUND_ROBIN | LRU | LRU_QBS | NRU | MRU | NMRU | PLRU | SRRIP | SRRIP_QBS | RANDOM.

Record t := mk {
  m_cache_size : Z;          (* UInt64 *)
  m_associativity : Z;       (* UInt32 *)
  m_blocksize : Z;           (* UInt32 *)
  m_hash : hash_t;
  m_num_sets : Z;            (* UInt32 *)
  m_ahl : option AddressHomeLookup.t;
  m_log_blocksize : Z;       (* UInt32 *)
  m_log_num_sets : Z;        (* UInt32 *)
}.

(** [1UL << -1], the shift the constructor evaluates for no set at all, is undefined. *)
Definition new (num_sets associativity cache_block_size : Z) (hash : hash_t)
    (ahl : option AddressHomeLookup.t) : result t :=
  let! _ := check (0 <=? floorLog2 num_sets) OutOfRange in
  let! _ := check ((num_sets =? Z.shiftl 1 (floorLog2 num_sets))
                   || negb (bool_decide (hash = HASH_MASK))) AssertFail in
  Ok {| m_cache_size := u64 (u64 (num_sets * associativity) * cache_block_size);
        m_associativity := associativity;
        m_blocksize := cache_block_size;
        m_hash := hash;
        m_num_sets := num_sets;
        m_ahl := ahl;
        m_log_blocksize := u32 (floorLog2 cache_block_size);
        m_log_num_sets := u32 (floorLog2 num_sets) |}.

Definition parseAddressHash (hash_name : string) : result hash_t :=
  if bool_decide (hash_name = "mask"%string) then Ok HASH_MASK
  else if bool_decide (hash_name = "mod"%string) then Ok HASH_MOD
  else if bool_decide (hash_name = "rng1_mod"%string) then Ok HASH_RNG1_MOD
  else if bool_decide (hash_name = "rng2_mod"%string) then Ok HASH_RNG2_MOD
  else if bool_decide (hash_name = "prime_dis"%string) then Ok HASH_PRIME_DIS
  else if bool_decide (hash_name = "xor_mod"%string) then Ok HASH_XOR_MOD
  else if bool_decide (hash_name = "mersenne_mod"%string) then Ok HASH_MER_MOD
  else Err LogError.

(** The [switch] of [splitAddress] on the block number. *)
Definition set_index_of (c : t) (block_num : Z) : result Z :=
  let num_sets := m_num_sets c in
  match m_hash c with
  | HASH_MASK => Ok (Z.land block_num (u32 (num_sets - 1)))
  | HASH_MOD => umod block_num num_sets
  | HASH_RNG1_MOD =>
      let state := rng_seed block_num in
      let '(r, _) := rng_next state in
      umod r num_sets
  | HASH_RNG2_MOD =>
      let state := rng_seed block_num in
      let '(_, state) := rng_next state in
      let '(r, _) := rng_next state in
      umod r num_sets
  | HASH_PRIME_DIS =>
      let! si := umod block_num num_sets in
      let Ti := Z.shiftr block_num (m_log_num_sets c) in
      let rho := 3 in
      umod (u64 (u64 (rho * Ti) + si)) num_sets
  | HASH_XOR_MOD =>
      let! si := umod block_num num_sets in
      let! ti := umod (Z.shiftr block_num (m_log_num_sets c)) num_sets in
      Ok (u32 (Z.lxor si ti))
  | HASH_MER_MOD =>
      umod block_num (u32 (num_sets - 1))
  | INVALID_HASH_TYPE => Err LogError
  end.

(** [splitAddress(addr, tag, set_index)]. *)
Definition splitAddress (c : t) (addr : Z) : result (Z * Z) :=
  let! _ := check (m_log_blocksize c <? 64) OutOfRange in
  let tag := Z.shiftr addr (m_log_blocksize c) in
  let! linearAddress :=
    match m_ahl c with
    | Some ahl => AddressHomeLookup.getLinearAddress ahl addr
    | None => Ok addr
    end in
  let block_num := Z.shiftr linearAddress (m_log_blocksize c) in
  let! set_index := set_index_of c block_num in
  Ok (tag, set_index).

(** [splitAddress(addr, tag, set_index, block_offset)]. *)
Definition splitAddress_offset (c : t) (addr : Z) : result (Z * Z * Z) :=
  let block_offset := u32 (Z.land addr (u32 (m_blocksize c - 1))) in
  let! (tag, set_index) := splitAddress c addr in
  Ok (tag, set_index, block_offset).

Definition tagToAddress (c : t) (tag : Z) : Z := u64 (Z.shiftl tag (m_log_blocksize c)).
End CacheBase.

(** ** Lemmas *)

Lemma getHome_fuel l a : AddressHomeLookup.getHome l a ≠ Err NoFuel.
Proof. unfold AddressHomeLookup.getHome. no_fuel. Qed.
Lemma getLinearAddress_fuel l a : AddressHomeLookup.getLinearAddress l a ≠ Err NoFuel.
Proof. unfold AddressHomeLookup.getLinearAddress, AddressHomeLookup.getLinearBlock. no_fuel. Qed.
Lemma set_index_fuel c b : CacheBase.set_index_of c b ≠ Err NoFuel.
Proof. unfold CacheBase.set_index_of. no_fuel. Qed.
#[export] Hint Resolve getHome_fuel getLinearAddress_fuel set_index_fuel : picl.
Lemma splitAddress_fuel c a : CacheBase.splitAddress c a ≠ Err NoFuel.
Proof. unfold CacheBase.splitAddress. no_fuel. Qed.
#[export] Hint Resolve splitAddress_fuel : picl.
Lemma splitAddress_offset_fuel c a : CacheBase.splitAddress_offset c a ≠ Err NoFuel.
Proof. unfold CacheBase.splitAddress_offset. no_fuel. Qed.
#[export] Hint Resolve splitAddress_offset_fuel : picl.

Lemma shiftr_bound a k n : 0 ≤ k → 0 ≤ a < n → 0 ≤ Z.shiftr a k < n.
Proof.
  intros Hk Ha. rewrite Z.shiftr_div_pow2 by lia.
  assert (0 < 2 ^ k) by (apply Z.pow_pos_nonneg; lia).
  split; [apply Z.div_pos; lia|]. apply Z.div_lt_upper_bound; nia.
Qed.

(** A shifted value and an offset below it do not overlap. *)
Lemma lor_shiftl_low x a k :
  0 ≤ k → 0 ≤ a < 2 ^ k → Z.lor (Z.shiftl x k) a = x * 2 ^ k + a.
Proof.
  intros Hk Ha. rewrite <- Z.add_nocarry_lor, Z.shiftl_mul_pow2; [done|done|].
  apply Z.bits_inj'. intros m Hm. rewrite Z.land_spec, Z.bits_0.
  destruct (Z.lt_ge_cases m k).
  - rewrite Z.shiftl_spec by lia. by rewrite (Z.testbit_neg_r _ (m - k)) by lia.
  - rewrite (testbit_hi a k) by lia. apply andb_false_r.
Qed.

Lemma land_pow2 a k : 0 ≤ k → Z.land a (2 ^ k - 1) = a `mod` 2 ^ k.
Proof.
  intros Hk. replace (2 ^ k - 1) with (Z.ones k) by (rewrite Z.ones_equiv; lia).
  by apply Z.land_ones.
Qed.

Lemma land_low a k : 0 ≤ k → Z.land a (Z.shiftl 1 k - 1) = a `mod` 2 ^ k.
Proof. rewrite Z.shiftl_1_l. apply land_pow2. Qed.

Section home.
Import AddressHomeLookup.
Context (p bs : Z) (cores : list Z) (l : t).
Context (Hp : 0 ≤ p) (Hnew : new p cores bs = Ok l).
Context (Hcores : 0 < Z.of_nat (length cores) < 2 ^ 31).

Lemma new_fields :
  p < 32 ∧ m_ahl_param l = p ∧ m_ahl_mask l = Z.shiftl 1 p - 1 ∧ m_core_list l = cores ∧
  m_total_modules l = Z.of_nat (length cores).
Proof using Hnew Hcores.
  clear Hp. unfold new in Hnew. inv_ok. cbn.
  repeat split; [lia|]. apply u32_small. rlia.
Qed.

Lemma getHome_eq a :
  getHome l a = arr_get cores (Z.to_nat ((a `div` 2 ^ p) `mod` Z.of_nat (length cores))).
Proof using Hnew Hcores Hp.
  destruct new_fields as (? & E1 & _ & E2 & E3). unfold getHome, umod.
  rewrite E1, E2, E3. rewrite Z.shiftr_div_pow2 by lia.
  pose proof (Z.mod_pos_bound (a `div` 2 ^ p) (Z.of_nat (length cores)) ltac:(lia)).
  replace (Z.of_nat (length cores) =? 0) with false by lia. cbn [rbind].
  rewrite !s32_small by lia.
  match goal with |- context [check ?b _] => replace b with true by lia end. done.
Qed.

Lemma getHome_ok a : ∃ h, getHome l a = Ok h ∧ h ∈ cores.
Proof using Hnew Hcores Hp.
  rewrite getHome_eq.
  pose proof (Z.mod_pos_bound (a `div` 2 ^ p) (Z.of_nat (length cores)) ltac:(lia)).
  destruct (lookup_lt_is_Some_2 cores (Z.to_nat ((a `div` 2 ^ p) `mod` Z.of_nat (length cores))))
    as [h Hh]; [lia|].
  exists h. split; [by apply arr_get_ok|]. by eapply list_elem_of_lookup_2.
Qed.

Lemma getLinearAddress_eq a :
  in_u64 a →
  getLinearAddress l a =
    Ok ((a `div` 2 ^ p) `div` Z.of_nat (length cores) * 2 ^ p + a `mod` 2 ^ p).
Proof using Hnew Hcores Hp.
  intros Ha. destruct new_fields as (? & E1 & E4 & E2 & E3).
  unfold getLinearAddress, getLinearBlock, udiv. rewrite E1, E3, E4.
  replace (Z.of_nat (length cores) =? 0) with false by lia. cbn [rbind].
  rewrite land_low, Z.shiftr_div_pow2 by lia.
  assert (0 < 2 ^ p) by (apply Z.pow_pos_nonneg; lia).
  assert (0 ≤ a `div` 2 ^ p) by (apply Z.div_pos; rlia).
  assert (0 ≤ (a `div` 2 ^ p) `div` Z.of_nat (length cores) ≤ a `div` 2 ^ p).
  { split; [apply Z.div_pos; lia|]. apply Z.div_le_upper_bound; nia. }
  pose proof (Z.mul_div_le a (2 ^ p) ltac:(lia)).
  rewrite u64_small, lor_shiftl_low; [done|lia| |].
  - apply Z.mod_pos_bound. lia.
  - rewrite Z.shiftl_mul_pow2 by lia. ranges. nia.
Qed.

Lemma getLinearAddress_range a x : in_u64 a → getLinearAddress l a = Ok x → in_u64 x.
Proof using Hnew Hcores Hp.
  intros Ha E. rewrite getLinearAddress_eq in E by done. injection E as <-.
  assert (0 < 2 ^ p) by (apply Z.pow_pos_nonneg; lia).
  assert (0 ≤ a `div` 2 ^ p) by (apply Z.div_pos; rlia).
  assert (0 ≤ (a `div` 2 ^ p) `div` Z.of_nat (length cores) ≤ a `div` 2 ^ p).
  { split; [apply Z.div_pos; lia|]. apply Z.div_le_upper_bound; nia. }
  pose proof (Z.div_mod a (2 ^ p) ltac:(lia)).
  pose proof (Z.mod_pos_bound a (2 ^ p) ltac:(lia)). ranges. nia.
Qed.
End home.

Section split.
Import CacheBase.

Lemma set_index_bound c b :
  in_u32 (m_num_sets c) → 0 < m_num_sets c → 0 ≤ b →
  (m_hash c = HASH_MASK → m_num_sets c = 2 ^ Z.log2 (m_num_sets c)) →
  (m_hash c = HASH_XOR_MOD → m_num_sets c = 2 ^ Z.log2 (m_num_sets c)) →
  (m_hash c = HASH_MER_MOD → 1 < m_num_sets c) →
  m_hash c ≠ INVALID_HASH_TYPE →
  ∃ i, set_index_of c b = Ok i ∧ 0 ≤ i < m_num_sets c.
Proof.
  intros Hr H0 Hb Hmask Hxor Hmer Hinv. unfold set_index_of, umod.
  replace (m_num_sets c =? 0) with false by lia.
  rewrite !u32_small by rlia.
  destruct (m_hash c) eqn:Eh; cbn [rbind]; try done;
    repeat match goal with |- context [let (_, _) := ?x in _] => destruct x end;
    try (eexists; split; [done|]; apply Z.mod_pos_bound; lia).
  - eexists; split; [done|]. split; [apply Z.land_nonneg; lia|].
    pose proof (land_le_r b (m_num_sets c - 1)). lia.
  - specialize (Hxor eq_refl). set (k := Z.log2 (m_num_sets c)) in *.
    assert (0 ≤ k) by apply Z.log2_nonneg.
    pose proof (lxor_range (b `mod` m_num_sets c)
      (Z.shiftr b (m_log_num_sets c) `mod` m_num_sets c) k ltac:(done)) as Hx.
    rewrite <- Hxor in Hx.
    specialize (Hx ltac:(by apply Z.mod_pos_bound) ltac:(by apply Z.mod_pos_bound)).
    rewrite u32_small by rlia. eexists; split; [done|]. done.
  - specialize (Hmer eq_refl). replace (m_num_sets c - 1 =? 0) with false by lia.
    eexists; split; [done|].
    pose proof (Z.mod_pos_bound b (m_num_sets c - 1)). lia.
Qed.
End split.

(** ** Properties *)

(** The parameters with which a cache is built and addressed safely: the
    number of sets is a power of two for the hashes that need it. *)
Definition hash_fits (hash : CacheBase.hash_t) (num_sets : Z) : bool :=
  match hash with
  | CacheBase.INVALID_HASH_TYPE => false
  | CacheBase.HASH_MASK | CacheBase.HASH_XOR_MOD => isPower2 num_sets
  | CacheBase.HASH_MER_MOD => 1 <? num_sets
  | _ => true
  end.

Lemma base_fields ns assoc bs hash ahl c :
  CacheBase.new ns assoc bs hash ahl = Ok c →
  CacheBase.m_num_sets c = ns ∧ CacheBase.m_hash c = hash ∧ CacheBase.m_ahl c = ahl ∧
  CacheBase.m_blocksize c = bs ∧ CacheBase.m_log_blocksize c = u32 (floorLog2 bs).
Proof. unfold CacheBase.new. intros H. inv_ok. done. Qed.

Lemma splitAddress_total ns assoc bs hash c addr :
  CacheBase.new ns assoc bs hash None = Ok c →
  0 < ns < 2 ^ 32 → 0 < bs < 2 ^ 32 → in_u64 addr → hash_fits hash ns = true →
  ∃ i, CacheBase.splitAddress c addr = Ok (Z.shiftr addr (Z.log2 bs), i) ∧
       CacheBase.set_index_of c (Z.shiftr addr (Z.log2 bs)) = Ok i ∧
       in_u64 (Z.shiftr addr (Z.log2 bs)) ∧ 0 ≤ i < ns.
Proof.
  intros Hnew Hns Hbs Ha Hfit. destruct (base_fields _ _ _ _ _ _ Hnew) as (E1 & E2 & E3 & E4 & E5).
  unfold CacheBase.splitAddress. rewrite E3, E5.
  rewrite floorLog2_log2 by rlia. pose proof (Z.log2_nonneg bs).
  assert (Z.log2 bs < 32) by (apply Z.log2_lt_pow2; lia). rewrite u32_small by rlia.
  replace (Z.log2 bs <? 64) with true by lia. cbn [check rbind].
  pose proof (shiftr_bound addr (Z.log2 bs) (2 ^ 64) ltac:(lia) Ha).
  destruct (set_index_bound c (Z.shiftr addr (Z.log2 bs))) as (i & Ei & ?);
    rewrite ?E1, ?E2; try lia; try rlia.
  - intros ->. by apply (proj1 (isPower2_log2 ns ltac:(lia) ltac:(lia))).
  - intros ->. by apply (proj1 (isPower2_log2 ns ltac:(lia) ltac:(lia))).
  - intros ->. cbn in Hfit. lia.
  - by destruct hash.
  - rewrite Ei, E1 in *. by exists i.
Qed.

(** [splitAddress] is total and every set index it computes addresses a set
    of the cache, for each of the seven hash functions, when the number of sets fits the
    hash. *)
Theorem splitAddress_index_bound ns assoc bs hash c addr :
  CacheBase.new ns assoc bs hash None = Ok c →
  0 < ns < 2 ^ 32 → 0 < bs < 2 ^ 32 → in_u64 addr → hash_fits hash ns = true →
  ∃ tag i, CacheBase.splitAddress c addr = Ok (tag, i) ∧ in_u64 tag ∧ 0 ≤ i < ns.
Proof.
  intros Hnew Hns Hbs Ha Hfit.
  destruct (splitAddress_total ns assoc bs hash c addr Hnew Hns Hbs Ha Hfit) as (i & E & _ & ? & ?).
  by eexists _, i.
Qed.

Lemma splitAddress_index_bound_witness :
  ∃ c, CacheBase.new 8192 16 64 CacheBase.HASH_MASK None = Ok c ∧
  ∃ tag i, CacheBase.splitAddress c 0x7fffdeadbeef = Ok (tag, i) ∧ in_u64 tag ∧ 0 ≤ i < 8192.
Proof.
  eexists. split; [vm_compute; reflexivity|].
  apply (splitAddress_index_bound 8192 16 64 CacheBase.HASH_MASK); [vm_compute; reflexivity|rlia..|reflexivity].
Defined.

(** An address is recovered from its tag and block offset: the tag
    determines the block ([tagToAddress]) and the offset the byte inside it. *)
Theorem splitAddress_roundtrip ns assoc k hash ahl c addr tag i off :
  CacheBase.new ns assoc (2 ^ k) hash ahl = Ok c → 0 ≤ k < 32 → in_u64 addr →
  CacheBase.splitAddress_offset c addr = Ok (tag, i, off) →
  CacheBase.tagToAddress c tag + off = addr ∧ 0 ≤ off < 2 ^ k ∧
  CacheBase.tagToAddress c tag = addr - addr `mod` 2 ^ k.
Proof.
  intros Hnew Hk Ha. destruct (base_fields _ _ _ _ _ _ Hnew) as (E1 & E2 & E3 & E4 & E5).
  assert (0 < 2 ^ k) by (apply Z.pow_pos_nonneg; lia).
  assert (2 ^ k < 2 ^ 32) by (apply Z.pow_lt_mono_r; lia).
  unfold CacheBase.splitAddress_offset, CacheBase.splitAddress, CacheBase.tagToAddress.
  intros H'. inv_ok. rewrite E5, E4.
  rewrite floorLog2_log2, Z.log2_pow2 by lia. rewrite (u32_small k) by rlia.
  rewrite (u32_small (2 ^ k - 1)) by rlia. rewrite land_pow2 by lia.
  pose proof (Z.mod_pos_bound addr (2 ^ k) ltac:(lia)).
  rewrite u32_small by rlia. rewrite Z.shiftr_div_pow2, Z.shiftl_mul_pow2 by lia.
  pose proof (Z.div_mod addr (2 ^ k) ltac:(lia)).
  rewrite u64_small; [lia|]. pose proof (Z.div_pos addr (2 ^ k) ltac:(rlia) ltac:(lia)).
  ranges. nia.
Qed.

Lemma splitAddress_roundtrip_witness :
  ∃ c tag i off, CacheBase.new 8192 16 (2 ^ 6) CacheBase.HASH_PRIME_DIS None = Ok c ∧
  CacheBase.splitAddress_offset c 0x7fffdeadbeef = Ok (tag, i, off) ∧
  CacheBase.tagToAddress c tag + off = 0x7fffdeadbeef ∧ 0 ≤ off < 2 ^ 6 ∧
  CacheBase.tagToAddress c tag = 0x7fffdeadbeef - 0x7fffdeadbeef `mod` 2 ^ 6.
Proof.
  eexists _, _, _, _. split; [vm_compute; reflexivity|]. split; [vm_compute; reflexivity|].
  eapply (splitAddress_roundtrip 8192 16 6 CacheBase.HASH_PRIME_DIS None);
    [vm_compute; reflexivity|lia|rlia|vm_compute; reflexivity].
Defined.

(** The xor hash leaves the cache when the number of sets is not a power
    of two: in a cache with 3 sets, block 4 is mapped to set 3, which does not exist. *)
Theorem splitAddress_xor_escapes :
  ∃ c, CacheBase.new 3 4 64 CacheBase.HASH_XOR_MOD None = Ok c ∧
       CacheBase.splitAddress c (4 * 64) = Ok (4, CacheBase.m_num_sets c).
Proof. eexists. split; [vm_compute; reflexivity|]. vm_compute. reflexivity. Qed.

(** The home node and the linear address inside it determine the address:
    the interleaving of the address space over the memory controllers is a bijection onto
    (home, linear address) pairs, so no two addresses share a line of a home. *)
Theorem home_linear_injective p cores bs l a b :
  0 ≤ p → AddressHomeLookup.new p cores bs = Ok l → NoDup cores →
  0 < Z.of_nat (length cores) < 2 ^ 31 → in_u64 a → in_u64 b →
  AddressHomeLookup.getHome l a = AddressHomeLookup.getHome l b →
  AddressHomeLookup.getLinearAddress l a = AddressHomeLookup.getLinearAddress l b →
  a = b.
Proof.
  intros Hp Hnew Hnd Hlen Ha Hb Hh Hl.
  rewrite !(getLinearAddress_eq p bs cores l) in Hl by done.
  destruct (getHome_ok p bs cores l Hp Hnew Hlen a) as (h & E & _). rewrite E in Hh.
  rewrite (getHome_eq p bs cores l Hp Hnew Hlen) in E. apply arr_get_ok in E.
  rewrite (getHome_eq p bs cores l Hp Hnew Hlen) in Hh. symmetry in Hh. apply arr_get_ok in Hh.
  pose proof (NoDup_lookup _ _ _ _ Hnd E Hh) as Hm.
  injection Hl as Hl. set (n := Z.of_nat (length cores)) in *.
  assert (0 < 2 ^ p) by (apply Z.pow_pos_nonneg; lia).
  pose proof (Z.mod_pos_bound a (2 ^ p) ltac:(lia)). pose proof (Z.mod_pos_bound b (2 ^ p) ltac:(lia)).
  pose proof (Z.div_mod a (2 ^ p) ltac:(lia)). pose proof (Z.div_mod b (2 ^ p) ltac:(lia)).
  pose proof (Z.div_mod (a `div` 2 ^ p) n ltac:(lia)). pose proof (Z.div_mod (b `div` 2 ^ p) n ltac:(lia)).
  pose proof (Z.mod_pos_bound (a `div` 2 ^ p) n ltac:(lia)).
  pose proof (Z.mod_pos_bound (b `div` 2 ^ p) n ltac:(lia)).
  apply Z2Nat.inj in Hm; [|lia..].
  assert ((a `div` 2 ^ p) `div` n = (b `div` 2 ^ p) `div` n) by nia. nia.
Qed.

Lemma home_linear_injective_witness :
  ∃ l, AddressHomeLookup.new 6 [0; 4; 8] 64 = Ok l ∧
  AddressHomeLookup.getHome l 0x12345 = Ok 4 ∧ AddressHomeLookup.getLinearAddress l 0x12345 = Ok 0x6105 ∧
  0x12345 = 0x12340 + 5.
Proof.
  eexists. split; [vm_compute; reflexivity|]. do 2 (split; [vm_compute; reflexivity|]).
  eapply (home_linear_injective 6 [0; 4; 8] 64);
    [lia|vm_compute; reflexivity|apply (bool_decide_unpack _); reflexivity|cbn; lia|rlia|rlia
    |vm_compute; reflexivity|vm_compute; reflexivity].
Defined.
