(* ===== verification/Replacement.v ===== *)
(** Replacement policies of a cache set: [cache/cache_set_lru.cc],
    [cache_set_mru.cc], [cache_set_nmru.cc], [cache_set_nru.cc],
    [cache_set_plru.cc], [cache_set_random.cc], [cache_set_round_robin.cc] and
    [cache_set_srrip.cc].

    [CacheSet] is an abstract class whose virtual operations
    [getReplacementIndex] and [updateReplacementIndex] a policy implements; the
    class [Policy] is that interface, each module gives one implementation. *)
From S2P Require Import Prelude Utils BlockInfo.

Abbreviation blocks := (list CacheBlockInfo.t).

(** ** The parts of [CacheSet] the policies use *)

(** The [CacheCntlr] argument: [isInLowerLevelCache] asks whether a block is held
    by a cache closer to the core. [None] is a null pointer. *)
Abbreviation cntlr := (option (CacheBlockInfo.t → bool)).

(** [isValidReplacement]: a block being upgraded must not be evicted. *)
Definition isValidReplacement (l : blocks) (index : nat) : result bool :=
  let! b := arr_get l index in
  Ok (negb (bool_decide (CacheBlockInfo.m_cstate b = CacheState.SHARED_UPGRADING))).

(** The loop that opens every [getReplacementIndex]: the first invalid block. *)
Fixpoint find_invalid (l : blocks) : option nat :=
  match l with
  | [] => None
  | b :: l => if CacheBlockInfo.isValid b then S <$> find_invalid l else Some O
  end.

(** [CacheSetInfoLRU]: statistics shared by the sets of a cache.  [qbs_lookups]
    counts the calls of [cntlr->incrementQBSLookupCost()]. *)
Record CacheSetInfoLRU := mk_info {
  m_access : list Z;
  m_attempts : option (list Z);
  qbs_lookups : Z;
}.

Definition new_info (associativity num_attempts : nat) : CacheSetInfoLRU :=
  {| m_access := replicate associativity 0;
     m_attempts := if (1 <? num_attempts)%nat then Some (replicate num_attempts 0) else None;
     qbs_lookups := 0 |}.

Definition increment (info : CacheSetInfoLRU) (index : Z) : result CacheSetInfoLRU :=
  let! _ := check (index <? Z.of_nat (length (m_access info))) AssertFail in
  let! v := arr_get (m_access info) (Z.to_nat index) in
  let! access := arr_set (m_access info) (Z.to_nat index) (u64 (v + 1)) in
  Ok {| m_access := access; m_attempts := m_attempts info; qbs_lookups := qbs_lookups info |}.

Definition incrementAttempt (info : CacheSetInfoLRU) (attempt : nat) : result CacheSetInfoLRU :=
  match m_attempts info with
  | None => Ok info
  | Some l =>
      let! v := arr_get l attempt in
      let! l := arr_set l attempt (u64 (v + 1)) in
      Ok {| m_access := m_access info; m_attempts := Some l; qbs_lookups := qbs_lookups info |}
  end.

Definition incrementQBSLookupCost (info : CacheSetInfoLRU) : CacheSetInfoLRU :=
  {| m_access := m_access info; m_attempts := m_attempts info; qbs_lookups := qbs_lookups info + 1 |}.

(** ** The interface *)

Class Policy (P : Type) := {
  getReplacementIndex : cntlr → nat → blocks → CacheSetInfoLRU → P → result (nat * (CacheSetInfoLRU * P));
  updateReplacementIndex : nat → CacheSetInfoLRU → P → nat → result (CacheSetInfoLRU * P);
}.

(** [moveToMRU]: the blocks more recent than the accessed one age by one, the
    accessed one becomes the most recent.  ([m_lru_bits[accessed_index]] keeps
    its value during the loop, as it is not below itself.) *)
Definition moveToMRU (lru_bits : list Z) (accessed_index : nat) : result (list Z) :=
  let! a := arr_get lru_bits accessed_index in
  arr_set (map (λ b, if b <? a then u8 (b + 1) else b) lru_bits) accessed_index 0.

(** ** [cache_set_lru.cc] *)
Module LRU.
Record t := mk {
  m_num_attempts : nat;       (* UInt8 *)
  m_lru_bits : list Z;        (* UInt8[] *)
}.

Definition new (associativity num_attempts : nat) : t :=
  {| m_num_attempts := num_attempts;
     m_lru_bits := map (λ i, u8 (Z.of_nat i)) (seq 0 associativity) |}.

Definition set_bits (p : t) (bits : list Z) : t :=
  {| m_num_attempts := m_num_attempts p; m_lru_bits := bits |}.

(** The scan for the block at the LRU position, from index [i] on. *)
Fixpoint lru_scan (l : blocks) (bits : list Z) (ways : list nat) (index : nat) (max_bits : Z) : result nat :=
  match ways with
  | [] => Ok index
  | i :: ways =>
      let! b := arr_get bits i in
      if b >? max_bits then
        let! valid := isValidReplacement l i in
        if (valid : bool) then lru_scan l bits ways i b else lru_scan l bits ways index max_bits
      else lru_scan l bits ways index max_bits
  end.

(** The attempts [attempt .. m_num_attempts-1], [remaining] of them. *)
Fixpoint attempts (c : cntlr) (assoc : nat) (l : blocks) (info : CacheSetInfoLRU) (p : t)
    (remaining attempt : nat) : result (nat * (CacheSetInfoLRU * t)) :=
  match remaining with
  | O => Err LogError
  | S remaining =>
      let! index := lru_scan l (m_lru_bits p) (seq 0 assoc) 0 0 in
      let! _ := check (index <? assoc)%nat AssertFail in
      let! qbs_reject :=
        if (0 <? remaining)%nat then
          match c with
          | None => Err AssertFail
          | Some isInLowerLevelCache =>
              let! b := arr_get l index in Ok (isInLowerLevelCache b)
          end
        else Ok false in
      let! bits := moveToMRU (m_lru_bits p) index in
      if (qbs_reject : bool) then
        attempts c assoc l (incrementQBSLookupCost info) (set_bits p bits) remaining (S attempt)
      else
        let! info := incrementAttempt info attempt in
        Ok (index, (info, set_bits p bits))
  end.

Definition getReplacementIndex (c : cntlr) (assoc : nat) (l : blocks) (info : CacheSetInfoLRU)
    (p : t) : result (nat * (CacheSetInfoLRU * t)) :=
  match find_invalid l with
  | Some i =>
      let! bits := moveToMRU (m_lru_bits p) i in
      Ok (i, (info, set_bits p bits))
  | None => attempts c assoc l info p (m_num_attempts p) 0
  end.

Definition updateReplacementIndex (assoc : nat) (info : CacheSetInfoLRU) (p : t)
    (accessed_index : nat) : result (CacheSetInfoLRU * t) :=
  let! b := arr_get (m_lru_bits p) accessed_index in
  let! info := increment info b in
  let! bits := moveToMRU (m_lru_bits p) accessed_index in
  Ok (info, set_bits p bits).

#[global] Instance policy : Policy t := {
  Replacement.getReplacementIndex := getReplacementIndex;
  Replacement.updateReplacementIndex := updateReplacementIndex;
}.
End LRU.

(** ** [cache_set_mru.cc] *)
Module MRU.
Record t := mk { m_lru_bits : list Z (* UInt8[] *) }.

Definition new (associativity : nat) : t :=
  {| m_lru_bits := map (λ i, u8 (Z.of_nat i)) (seq 0 associativity) |}.

Definition updateReplacementIndex (assoc : nat) (info : CacheSetInfoLRU) (p : t)
    (accessed_index : nat) : result (CacheSetInfoLRU * t) :=
  let! bits := moveToMRU (m_lru_bits p) accessed_index in
  Ok (info, {| m_lru_bits := bits |}).

(** The inner loop: a block whose position is [target] and that may be evicted. *)
Fixpoint scan (l : blocks) (bits : list Z) (target : Z) (ways : list nat) : result (option nat) :=
  match ways with
  | [] => Ok None
  | i :: ways =>
      let! b := arr_get bits i in
      if b =? target then
        let! valid := isValidReplacement l i in
        if (valid : bool) then Ok (Some i) else scan l bits target ways
      else scan l bits target ways
  end.

(** [while (target < m_associativity)], over the remaining targets. *)
Fixpoint search (assoc : nat) (l : blocks) (bits : list Z) (targets : list nat) : result nat :=
  match targets with
  | [] => Err LogError
  | target :: targets =>
      let! found := scan l bits (Z.of_nat target) (seq 0 assoc) in
      match found with
      | Some i => Ok i
      | None => search assoc l bits targets
      end
  end.

Definition getReplacementIndex (c : cntlr) (assoc : nat) (l : blocks) (info : CacheSetInfoLRU)
    (p : t) : result (nat * (CacheSetInfoLRU * t)) :=
  let! i :=
    match find_invalid l with
    | Some i => Ok i
    | None => search assoc l (m_lru_bits p) (seq 0 assoc)
    end in
  let! r := updateReplacementIndex assoc info p i in
  Ok (i, r).

#[global] Instance policy : Policy t := {
  Replacement.getReplacementIndex := getReplacementIndex;
  Replacement.updateReplacementIndex := updateReplacementIndex;
}.
End MRU.

(** ** [cache_set_nmru.cc] *)
Module NMRU.
Record t := mk {
  m_lru_bits : list Z;          (* UInt8[] *)
  m_replacement_pointer : Z;    (* UInt8 *)
}.

Definition new (associativity : nat) : t :=
  {| m_lru_bits := map (λ i, u8 (Z.of_nat i)) (seq 0 associativity);
     m_replacement_pointer := 0 |}.

Definition updateReplacementIndex (assoc : nat) (info : CacheSetInfoLRU) (p : t)
    (accessed_index : nat) : result (CacheSetInfoLRU * t) :=
  let! bits := moveToMRU (m_lru_bits p) accessed_index in
  Ok (info, {| m_lru_bits := bits; m_replacement_pointer := m_replacement_pointer p |}).

(** At most [n] steps of the replacement pointer. *)
Fixpoint search (n : nat) (assoc : nat) (l : blocks) (info : CacheSetInfoLRU) (p : t) :
    result (nat * (CacheSetInfoLRU * t)) :=
  match n with
  | O => Err LogError
  | S n =>
      let index := Z.to_nat (m_replacement_pointer p) in
      let! b := arr_get (m_lru_bits p) index in
      let! valid := if b =? 0 then Ok false else isValidReplacement l index in
      let! next := umod (m_replacement_pointer p + 1) (Z.of_nat assoc) in
      let p := {| m_lru_bits := m_lru_bits p; m_replacement_pointer := u8 next |} in
      if (valid : bool) then
        let! r := updateReplacementIndex assoc info p index in
        Ok (index, r)
      else search n assoc l info p
  end.

Definition getReplacementIndex (c : cntlr) (assoc : nat) (l : blocks) (info : CacheSetInfoLRU)
    (p : t) : result (nat * (CacheSetInfoLRU * t)) :=
  match find_invalid l with
  | Some i => let! r := updateReplacementIndex assoc info p i in Ok (i, r)
  | None => search assoc assoc l info p
  end.

#[global] Instance policy : Policy t := {
  Replacement.getReplacementIndex := getReplacementIndex;
  Replacement.updateReplacementIndex := updateReplacementIndex;
}.
End NMRU.

(** ** [cache_set_nru.cc] *)
Module NRU.
Record t := mk {
  m_lru_bits : list Z;          (* UInt8[] *)
  m_num_bits_set : Z;           (* UInt8 *)
  m_replacement_pointer : Z;    (* UInt8 *)
}.

Definition new (associativity : nat) : t :=
  {| m_lru_bits := replicate associativity 0; m_num_bits_set := 0; m_replacement_pointer := 0 |}.

Definition updateReplacementIndex (assoc : nat) (info : CacheSetInfoLRU) (p : t)
    (accessed_index : nat) : result (CacheSetInfoLRU * t) :=
  let! bits := arr_set (m_lru_bits p) accessed_index 1 in
  let n := u8 (m_num_bits_set p + 1) in
  if n =? Z.of_nat assoc then
    Ok (info, {| m_lru_bits := map (λ _, 0) bits; m_num_bits_set := 0;
                 m_replacement_pointer := m_replacement_pointer p |})
  else
    Ok (info, {| m_lru_bits := bits; m_num_bits_set := n;
                 m_replacement_pointer := m_replacement_pointer p |}).

(** The first loop: an invalid block ([inl]), or whether a candidate has its bit at zero. *)
Fixpoint scan (l : blocks) (bits : list Z) (ways : list nat) (have_zero_bit : bool) :
    result (nat + bool) :=
  match ways with
  | [] => Ok (inr have_zero_bit)
  | i :: ways =>
      let! b := arr_get l i in
      if negb (CacheBlockInfo.isValid b) then Ok (inl i)
      else
        let! bit := arr_get bits i in
        if bit =? 0 then
          let! valid := isValidReplacement l i in
          scan l bits ways (have_zero_bit || valid)
        else scan l bits ways have_zero_bit
  end.

(** At most [n] steps of the replacement pointer. *)
Fixpoint search (n : nat) (assoc : nat) (l : blocks) (info : CacheSetInfoLRU)
    (have_zero_bit : bool) (p : t) : result (nat * (CacheSetInfoLRU * t)) :=
  match n with
  | O => Err LogError
  | S n =>
      let index := Z.to_nat (m_replacement_pointer p) in
      let! bit := arr_get (m_lru_bits p) index in
      let! valid :=
        if (bit =? 0) || negb have_zero_bit then isValidReplacement l index else Ok false in
      let! next := umod (m_replacement_pointer p + 1) (Z.of_nat assoc) in
      let p := {| m_lru_bits := m_lru_bits p; m_num_bits_set := m_num_bits_set p;
                  m_replacement_pointer := u8 next |} in
      if (valid : bool) then
        let! r := updateReplacementIndex assoc info p index in
        Ok (index, r)
      else search n assoc l info have_zero_bit p
  end.

Definition getReplacementIndex (c : cntlr) (assoc : nat) (l : blocks) (info : CacheSetInfoLRU)
    (p : t) : result (nat * (CacheSetInfoLRU * t)) :=
  let! found := scan l (m_lru_bits p) (seq 0 assoc) false in
  match found with
  | inl i => let! r := updateReplacementIndex assoc info p i in Ok (i, r)
  | inr have_zero_bit => search assoc assoc l info have_zero_bit p
  end.

#[global] Instance policy : Policy t := {
  Replacement.getReplacementIndex := getReplacementIndex;
  Replacement.updateReplacementIndex := updateReplacementIndex;
}.
End NRU.

(** ** [cache_set_plru.cc]: tree LRU for 4 and 8 ways *)
Module PLRU.
Record t := mk { b : list Z (* UInt8[8] *) }.

Definition new (associativity : nat) : result t :=
  let! _ := check ((associativity =? 4)%nat || (associativity =? 8)%nat) AssertFail in
  Ok {| b := replicate 8 0 |}.

(** The assignments [b[k]=v; ...] of one branch. *)
Fixpoint set_all (l : list Z) (kvs : list (nat * Z)) : result (list Z) :=
  match kvs with
  | [] => Ok l
  | (k, v) :: kvs => let! l := arr_set l k v in set_all l kvs
  end.

Definition updateReplacementIndex (assoc : nat) (info : CacheSetInfoLRU) (p : t)
    (accessed_index : nat) : result (CacheSetInfoLRU * t) :=
  let! b :=
    if (assoc =? 4)%nat then
      set_all (b p)
        match accessed_index with
        | 0%nat => [(0%nat, 1); (1%nat, 1)]
        | 1%nat => [(0%nat, 1); (1%nat, 0)]
        | 2%nat => [(0%nat, 0); (2%nat, 1)]
        | 3%nat => [(0%nat, 0); (2%nat, 0)]
        | _ => []
        end
    else if (assoc =? 8)%nat then
      set_all (b p)
        match accessed_index with
        | 0%nat => [(0%nat, 1); (1%nat, 1); (2%nat, 1)]
        | 1%nat => [(0%nat, 1); (1%nat, 1); (2%nat, 0)]
        | 2%nat => [(0%nat, 1); (1%nat, 0); (3%nat, 1)]
        | 3%nat => [(0%nat, 1); (1%nat, 0); (3%nat, 0)]
        | 4%nat => [(0%nat, 0); (4%nat, 1); (5%nat, 1)]
        | 5%nat => [(0%nat, 0); (4%nat, 1); (5%nat, 0)]
        | 6%nat => [(0%nat, 0); (4%nat, 0); (6%nat, 1)]
        | 7%nat => [(0%nat, 0); (4%nat, 0); (6%nat, 0)]
        | _ => []
        end
    else Err LogError in
  Ok (info, {| b := b |}).

(** The tree walk that selects the victim. *)
Definition victim (assoc : nat) (l : list Z) : result nat :=
  if (assoc =? 4)%nat then
    let! b0 := arr_get l 0 in
    if b0 =? 0 then
      let! b1 := arr_get l 1 in Ok (if b1 =? 0 then 0%nat else 1%nat)
    else
      let! b2 := arr_get l 2 in Ok (if b2 =? 0 then 2%nat else 3%nat)
  else if (assoc =? 8)%nat then
    let! b0 := arr_get l 0 in
    if b0 =? 0 then
      let! b1 := arr_get l 1 in
      if b1 =? 0 then
        let! b2 := arr_get l 2 in Ok (if b2 =? 0 then 0%nat else 1%nat)
      else
        let! b3 := arr_get l 3 in Ok (if b3 =? 0 then 2%nat else 3%nat)
    else
      let! b4 := arr_get l 4 in
      if b4 =? 0 then
        let! b5 := arr_get l 5 in Ok (if b5 =? 0 then 4%nat else 5%nat)
      else
        let! b6 := arr_get l 6 in Ok (if b6 =? 0 then 6%nat else 7%nat)
  else Err LogError.

Definition getReplacementIndex (c : cntlr) (assoc : nat) (l : blocks) (info : CacheSetInfoLRU)
    (p : t) : result (nat * (CacheSetInfoLRU * t)) :=
  match find_invalid l with
  | Some i => let! r := updateReplacementIndex assoc info p i in Ok (i, r)
  | None =>
      let! retValue := victim assoc (b p) in
      let! valid := isValidReplacement l retValue in
      let! _ := check valid AssertFail in
      let! r := updateReplacementIndex assoc info p retValue in
      Ok (retValue, r)
  end.

#[global] Instance policy : Policy t := {
  Replacement.getReplacementIndex := getReplacementIndex;
  Replacement.updateReplacementIndex := updateReplacementIndex;
}.
End PLRU.

(** ** [cache_set_round_robin.cc] *)
Module RoundRobin.
Record t := mk { m_replacement_index : Z (* UInt32 *) }.

Definition new (associativity : nat) : t :=
  {| m_replacement_index := u32 (Z.of_nat associativity - 1) |}.

(** The recursion of [getReplacementIndex]. *)
Fixpoint search (fuel : nat) (assoc : nat) (l : blocks) (p : t) : result (nat * t) :=
  match fuel with
  | O => Err NoFuel
  | S fuel =>
      let curr_replacement_index := m_replacement_index p in
      let next :=
        if m_replacement_index p =? 0 then u32 (Z.of_nat assoc - 1)
        else m_replacement_index p - 1 in
      let p := {| m_replacement_index := next |} in
      let! valid := isValidReplacement l (Z.to_nat next) in
      if negb valid then search fuel assoc l p
      else Ok (Z.to_nat curr_replacement_index, p)
  end.

(** The recursion visits a new block at each call: [assoc] calls are enough
    unless no block may be replaced ([search_terminates]). *)
Definition getReplacementIndex (c : cntlr) (assoc : nat) (l : blocks) (info : CacheSetInfoLRU)
    (p : t) : result (nat * (CacheSetInfoLRU * t)) :=
  let! (i, p) := search assoc assoc l p in
  Ok (i, (info, p)).

Definition updateReplacementIndex (assoc : nat) (info : CacheSetInfoLRU) (p : t)
    (accessed_index : nat) : result (CacheSetInfoLRU * t) := Ok (info, p).

#[global] Instance policy : Policy t := {
  Replacement.getReplacementIndex := getReplacementIndex;
  Replacement.updateReplacementIndex := updateReplacementIndex;
}.
End RoundRobin.

(** ** [misc/random.h]: the generator of [CacheSetRandom] *)
Module Random.
Definition FACTOR : Z := 1103515245.
Definition ADDEND : Z := 12345.

(** [next(limit)]: the value and the new seed. *)
Definition next (limit : Z) (seed : Z) : result (Z * Z) :=
  let seed := u32 (u32 (seed * FACTOR) + ADDEND) in
  let! v := umod (seed `div` 65536) limit in
  Ok (v, seed).
End Random.

(** ** [cache_set_random.cc] *)
Module RandomPolicy.
Record t := mk { seed : Z (* UInt32 *) }.

(** The recursion of [getReplacementIndex]. *)
Fixpoint search (fuel : nat) (assoc : nat) (l : blocks) (p : t) : result (nat * t) :=
  match fuel with
  | O => Err NoFuel
  | S fuel =>
      match find_invalid l with
      | Some i => Ok (i, p)
      | None =>
          let! (v, s) := Random.next 32768 (seed p) in
          let! index := umod v (Z.of_nat assoc) in
          let p := {| seed := s |} in
          let! valid := isValidReplacement l (Z.to_nat index) in
          if (valid : bool) then Ok (Z.to_nat index, p) else search fuel assoc l p
      end
  end.

(** The code does not bound the number of calls; the model follows the first
    [CALLS] of them. *)
Definition CALLS : nat := 1024.

Definition getReplacementIndex (c : cntlr) (assoc : nat) (l : blocks) (info : CacheSetInfoLRU)
    (p : t) : result (nat * (CacheSetInfoLRU * t)) :=
  let! (i, p) := search CALLS assoc l p in
  Ok (i, (info, p)).

Definition updateReplacementIndex (assoc : nat) (info : CacheSetInfoLRU) (p : t)
    (accessed_index : nat) : result (CacheSetInfoLRU * t) := Ok (info, p).

#[global] Instance policy : Policy t := {
  Replacement.getReplacementIndex := getReplacementIndex;
  Replacement.updateReplacementIndex := updateReplacementIndex;
}.
End RandomPolicy.

(** ** [cache_set_srrip.cc] *)
Module SRRIP.
Record t := mk {
  m_rrip_max : Z;               (* UInt8 *)
  m_rrip_insert : Z;            (* UInt8 *)
  m_num_attempts : nat;         (* UInt8 *)
  m_rrip_bits : list Z;         (* UInt8[] *)
  m_replacement_pointer : Z;    (* UInt8 *)
}.

(** [rrip_numbits] is the configuration's [srrip/bits]. *)
Definition new (associativity : nat) (rrip_numbits : Z) (num_attempts : nat) : t :=
  let rrip_max := u8 (Z.shiftl 1 rrip_numbits - 1) in
  let rrip_insert := u8 (rrip_max - 1) in
  {| m_rrip_max := rrip_max; m_rrip_insert := rrip_insert; m_num_attempts := num_attempts;
     m_rrip_bits := replicate associativity rrip_insert; m_replacement_pointer := 0 |}.

Definition set_state (p : t) (bits : list Z) (ptr : Z) : t :=
  {| m_rrip_max := m_rrip_max p; m_rrip_insert := m_rrip_insert p;
     m_num_attempts := m_num_attempts p; m_rrip_bits := bits; m_replacement_pointer := ptr |}.

(** The inner loop, [n] steps left: a victim ([inl]) or the state reached ([inr]). *)
Fixpoint scan (n : nat) (c : cntlr) (assoc : nat) (l : blocks) (info : CacheSetInfoLRU) (p : t)
    (attempt : nat) : result (nat * (CacheSetInfoLRU * t) + (CacheSetInfoLRU * t * nat)) :=
  match n with
  | O => Ok (inr (info, p, attempt))
  | S n =>
      let index := Z.to_nat (m_replacement_pointer p) in
      let! bits := arr_get (m_rrip_bits p) index in
      let! next := umod (m_replacement_pointer p + 1) (Z.of_nat assoc) in
      if bits >=? m_rrip_max p then
        let! qbs_reject :=
          if Z.of_nat attempt <? Z.of_nat (m_num_attempts p) - 1 then
            match c with
            | None => Err AssertFail
            | Some isInLowerLevelCache => let! b := arr_get l index in Ok (isInLowerLevelCache b)
            end
          else Ok false in
        if (qbs_reject : bool) then
          let! bits := arr_set (m_rrip_bits p) index 0 in
          scan n c assoc l (incrementQBSLookupCost info)
               (set_state p bits (m_replacement_pointer p)) (S attempt)
        else
          let! bits := arr_set (m_rrip_bits p) index (m_rrip_insert p) in
          let! info := incrementAttempt info attempt in
          let! valid := isValidReplacement l index in
          let! _ := check valid AssertFail in
          Ok (inl (index, (info, set_state p bits (u8 next))))
      else scan n c assoc l info (set_state p (m_rrip_bits p) (u8 next)) attempt
  end.

(** The outer loop, [rounds] left; between rounds all counters below the maximum grow. *)
Fixpoint search (rounds : nat) (c : cntlr) (assoc : nat) (l : blocks) (info : CacheSetInfoLRU)
    (p : t) (attempt : nat) : result (nat * (CacheSetInfoLRU * t)) :=
  match rounds with
  | O => Err LogError
  | S rounds =>
      let! r := scan assoc c assoc l info p attempt in
      match r with
      | inl found => Ok found
      | inr (info, p, attempt) =>
          let bits := map (λ b, if b <? m_rrip_max p then u8 (b + 1) else b) (m_rrip_bits p) in
          search rounds c assoc l info (set_state p bits (m_replacement_pointer p)) attempt
      end
  end.

Definition getReplacementIndex (c : cntlr) (assoc : nat) (l : blocks) (info : CacheSetInfoLRU)
    (p : t) : result (nat * (CacheSetInfoLRU * t)) :=
  match find_invalid l with
  | Some i =>
      let! bits := arr_set (m_rrip_bits p) i (m_rrip_insert p) in
      Ok (i, (info, set_state p bits (m_replacement_pointer p)))
  | None => search (S (Z.to_nat (m_rrip_max p))) c assoc l info p 0
  end.

Definition updateReplacementIndex (assoc : nat) (info : CacheSetInfoLRU) (p : t)
    (accessed_index : nat) : result (CacheSetInfoLRU * t) :=
  let! b := arr_get (m_rrip_bits p) accessed_index in
  let! info := increment info b in
  let! bits := if b >? 0 then arr_set (m_rrip_bits p) accessed_index (b - 1)
               else Ok (m_rrip_bits p) in
  Ok (info, set_state p bits (m_replacement_pointer p)).

#[global] Instance policy : Policy t := {
  Replacement.getReplacementIndex := getReplacementIndex;
  Replacement.updateReplacementIndex := updateReplacementIndex;
}.
End SRRIP.

(** * Lemmas *)

(** Every block may be evicted. *)
Definition replaceable (l : blocks) : Prop :=
  Forall (λ b, CacheBlockInfo.m_cstate b ≠ CacheState.SHARED_UPGRADING) l.

Lemma isValidReplacement_ok l i :
  replaceable l → (i < length l)%nat → isValidReplacement l i = Ok true.
Proof.
  intros Hl Hi. unfold isValidReplacement, arr_get.
  destruct (lookup_lt_is_Some_2 l i Hi) as [b Hb]. rewrite Hb. cbn.
  rewrite bool_decide_false; [done|]. unfold replaceable in Hl. rewrite Forall_lookup in Hl. by eapply Hl.
Qed.

Lemma find_invalid_Some l i :
  find_invalid l = Some i →
  (i < length l)%nat ∧ ∃ b, l !! i = Some b ∧ CacheBlockInfo.isValid b = false.
Proof.
  revert i. induction l as [|b l IH]; intros i; cbn; [done|].
  destruct (CacheBlockInfo.isValid b) eqn:E; [|intros [= <-]; split; [lia|eauto]].
  intros H. apply fmap_Some in H as (j & Hj & ->). destruct (IH _ Hj) as (? & ?). split; [lia|done].
Qed.

Lemma find_invalid_None l :
  find_invalid l = None ↔ Forall (λ b, CacheBlockInfo.isValid b = true) l.
Proof.
  induction l as [|b l IH]; cbn; [naive_solver|].
  destruct (CacheBlockInfo.isValid b) eqn:E.
  - rewrite fmap_None, IH, Forall_cons. naive_solver.
  - split; [done|]. intros H. apply Forall_cons in H as [H _]. congruence.
Qed.

Lemma arr_get_lt {A} (l : list A) i : (i < length l)%nat → ∃ a, arr_get l i = Ok a ∧ l !! i = Some a.
Proof.
  intros Hi. destruct (lookup_lt_is_Some_2 l i Hi) as [a Ha].
  exists a. split; [by apply arr_get_ok|done].
Qed.

Lemma arr_set_lt {A} (l : list A) i a : (i < length l)%nat → arr_set l i a = Ok (<[i := a]> l).
Proof. intros Hi. by apply arr_set_ok. Qed.

Lemma increment_ok info i :
  0 ≤ i < Z.of_nat (length (m_access info)) →
  ∃ info', increment info i = Ok info' ∧ length (m_access info') = length (m_access info) ∧
           m_attempts info' = m_attempts info.
Proof.
  intros Hi. unfold increment. replace (i <? _) with true by lia. cbn [check rbind].
  destruct (arr_get_lt (m_access info) (Z.to_nat i)) as (v & -> & _); [lia|]. cbn [rbind].
  rewrite arr_set_lt by lia. eexists. split; [done|]. cbn. by rewrite length_insert.
Qed.

Lemma incrementAttempt_ok info n k :
  (k < n)%nat → (∀ a, m_attempts info = Some a → length a = n) →
  ∃ info', incrementAttempt info k = Ok info' ∧ length (m_access info') = length (m_access info) ∧
           (∀ a, m_attempts info' = Some a → length a = n).
Proof.
  intros Hk Ha. unfold incrementAttempt. destruct (m_attempts info) as [a|] eqn:E.
  - specialize (Ha a eq_refl).
    destruct (arr_get_lt a k) as (v & -> & _); [lia|]. cbn [rbind]. rewrite arr_set_lt by lia. cbn.
    eexists. split; [done|]. cbn. split; [done|]. intros ? [= <-]. by rewrite length_insert.
  - exists info. split; [done|]. split; [done|]. intros a. by rewrite E.
Qed.

(** ** Age bits and recency order

    [recency bits o]: the list of ways [o], most recent first, is the order the
    age bits encode: way [w] at position [k] has age [k]. *)
Definition recency (bits : list Z) (o : list nat) : Prop :=
  o ≡ₚ seq 0 (length bits) ∧
  ∀ pos way, o !! pos = Some way → bits !! way = Some (Z.of_nat pos).

(** Accessing a way makes it the most recent one. *)
Definition touch (i : nat) (o : list nat) : list nat := i :: List.filter (λ j, negb (j =? i)%nat) o.

Lemma recency_length bits o : recency bits o → length o = length bits.
Proof. intros [H _]. by rewrite H, length_seq. Qed.

Lemma recency_NoDup bits o : recency bits o → NoDup o.
Proof. intros [H _]. rewrite H. apply NoDup_ListNoDup, seq_NoDup. Qed.

Lemma recency_in bits o i : recency bits o → i ∈ o ↔ (i < length bits)%nat.
Proof. intros [H _]. rewrite H, elem_of_seq. lia. Qed.

Lemma filter_id {A} (f : A → bool) l : (∀ x, x ∈ l → f x = true) → List.filter f l = l.
Proof.
  induction l as [|a l IH]; [done|]. intros H. cbn. rewrite H by set_solver.
  f_equal. apply IH. set_solver.
Qed.

Lemma touch_split o1 o2 i : NoDup (o1 ++ i :: o2) → touch i (o1 ++ i :: o2) = i :: o1 ++ o2.
Proof.
  intros Hnd. unfold touch. f_equal. rewrite List.filter_app. cbn. rewrite Nat.eqb_refl. cbn.
  apply NoDup_app in Hnd as (_ & Hd & Hnd). apply NoDup_cons in Hnd as [Hi _].
  f_equal; apply filter_id; intros x Hx; destruct (Nat.eqb_spec x i); subst; set_solver.
Qed.

Lemma moveToMRU_recency bits o i :
  recency bits o → (i < length bits)%nat → (length bits ≤ 256)%nat →
  ∃ bits', moveToMRU bits i = Ok bits' ∧ length bits' = length bits ∧ recency bits' (touch i o).
Proof.
  intros Hrec Hi Hle. pose proof (recency_NoDup _ _ Hrec) as Hnd.
  pose proof (proj2 (recency_in _ _ i Hrec) Hi) as Hin.
  pose proof (recency_length _ _ Hrec) as Hlen.
  apply list_elem_of_split in Hin as (o1 & o2 & ->).
  destruct Hrec as [Hperm Hpos].
  pose proof (Hpos (length o1) i ltac:(by rewrite list_lookup_middle)) as Ha.
  unfold moveToMRU, arr_get. rewrite Ha. cbn [rbind].
  set (f := λ b, if b <? Z.of_nat (length o1) then u8 (b + 1) else b).
  rewrite arr_set_lt by (by rewrite length_map).
  eexists. split; [done|]. assert (length (<[i:=0]> (map f bits)) = length bits) as El
    by (rewrite length_insert, length_map; done).
  split; [done|]. rewrite touch_split by done. split.
  { rewrite El, <- Hperm. apply Permutation_middle. }
  assert (∀ way b, way ≠ i → bits !! way = Some b → <[i:=0]> (map f bits) !! way = Some (f b)) as Hf.
  { intros way b Hw Hb. rewrite list_lookup_insert_ne by done.
    change (map f bits) with (f <$> bits). by rewrite list_lookup_fmap, Hb. }
  rewrite length_app in Hlen. cbn [length] in Hlen.
  intros [|pos] way Hway.
  { injection Hway as <-. rewrite list_lookup_insert_eq; [done|by rewrite length_map]. }
  cbn in Hway. apply lookup_app_Some in Hway as [Hway|[Hge Hway]].
  - assert (way ≠ i) by (intros ->; apply NoDup_app in Hnd as (_ & Hd & _);
      apply (Hd i); [by eapply list_elem_of_lookup_2|set_solver]).
    pose proof (lookup_lt_Some _ _ _ Hway).
    rewrite (Hf way (Z.of_nat pos)); [|done|apply Hpos; by apply lookup_app_l_Some].
    unfold f. destruct (Z.ltb_spec (Z.of_nat pos) (Z.of_nat (length o1))); [|lia].
    rewrite u8_small by rlia. f_equal. lia.
  - assert (way ≠ i) by (intros ->; apply NoDup_app in Hnd as (_ & _ & Hnd);
      apply NoDup_cons in Hnd as [Hn _]; apply Hn; by eapply list_elem_of_lookup_2).
    rewrite (Hf way (Z.of_nat (S pos))); [|done|apply Hpos; rewrite lookup_app_r by lia;
      replace (S pos - length o1)%nat with (S (pos - length o1)) by lia; done].
    unfold f. destruct (Z.ltb_spec (Z.of_nat (S pos)) (Z.of_nat (length o1))); [lia|done].
Qed.

Lemma new_bits_recency assoc :
  (assoc ≤ 256)%nat → recency (map (λ i, u8 (Z.of_nat i)) (seq 0 assoc)) (seq 0 assoc).
Proof.
  intros Ha. split; [by rewrite length_map, length_seq|].
  intros pos way Hp. apply lookup_seq in Hp as [-> Hp].
  change (map ?f ?l) with (f <$> l). rewrite list_lookup_fmap, lookup_seq_lt by lia. cbn.
  rewrite u8_small by rlia. done.
Qed.

(** The scan returns a block with the largest age among those scanned. *)
Lemma lru_scan_max l bits ways index max :
  replaceable l → length l = length bits → Forall (λ i, (i < length bits)%nat) ways →
  bits !! index = Some max →
  ∃ r b, LRU.lru_scan l bits ways index max = Ok r ∧ bits !! r = Some b ∧ max ≤ b ∧
         ∀ i bi, i ∈ ways → bits !! i = Some bi → bi ≤ b.
Proof.
  intros Hr Hl. revert index max. induction ways as [|i ways IH]; intros index max Hw Hidx.
  { exists index, max. repeat split; [done|lia|set_solver]. }
  apply Forall_cons in Hw as [Hi Hw]. cbn [LRU.lru_scan].
  destruct (arr_get_lt bits i Hi) as (bi & -> & Hbi). cbn [rbind].
  destruct (Z.gtb_spec bi max).
  - rewrite isValidReplacement_ok by (done || lia). cbn [rbind].
    destruct (IH i bi Hw Hbi) as (r & b & ? & ? & ? & Hall). exists r, b.
    repeat split; [done|done|lia|]. intros j bj [->|Hj]%elem_of_cons Hbj; [|by eapply Hall].
    rewrite Hbi in Hbj. injection Hbj as <-. done.
  - destruct (IH index max Hw Hidx) as (r & b & ? & ? & ? & Hall). exists r, b.
    repeat split; [done|done|done|]. intros j bj [->|Hj]%elem_of_cons Hbj; [|by eapply Hall].
    rewrite Hbi in Hbj. injection Hbj as <-. lia.
Qed.

(** From the initial values [index = 0], [max_bits = 0], over all ways: the least recent one. *)
Lemma lru_scan_last l bits o :
  replaceable l → length l = length bits → recency bits o → (0 < length bits)%nat →
  ∃ r, LRU.lru_scan l bits (seq 0 (length bits)) 0 0 = Ok r ∧ last o = Some r ∧ (r < length bits)%nat.
Proof.
  intros Hr Hl Hrec H0. destruct (arr_get_lt bits 0 H0) as (b0 & E0 & Hb0).
  pose proof (recency_length _ _ Hrec) as Hlo. pose proof Hrec as [Hperm Hpos].
  assert (∀ i b, bits !! i = Some b → ∃ pos, o !! pos = Some i ∧ b = Z.of_nat pos) as Hinv.
  { intros i b Hb. pose proof (proj2 (recency_in _ _ i Hrec) (lookup_lt_Some _ _ _ Hb)) as Hin.
    apply list_elem_of_lookup in Hin as [pos Hp]. exists pos. split; [done|].
    apply Hpos in Hp. congruence. }
  assert (∃ r b, LRU.lru_scan l bits (seq 0 (length bits)) 0 0 = Ok r ∧ bits !! r = Some b ∧
          ∀ i bi, i ∈ seq 0 (length bits) → bits !! i = Some bi → bi ≤ b) as (r & b & E & Hb & Hmax).
  { assert (Forall (λ i, (i < length bits)%nat) (seq 1 (length bits - 1))) as Hw.
    { apply Forall_forall. intros i. rewrite elem_of_seq. lia. }
    replace (seq 0 (length bits)) with (0%nat :: seq 1 (length bits - 1))
      by (destruct (length bits) as [|n]; [lia|]; cbn; by rewrite Nat.sub_0_r).
    cbn [LRU.lru_scan]. rewrite E0. cbn [rbind].
    destruct (Hinv _ _ Hb0) as (pos0 & _ & Hz). destruct (Z.gtb_spec b0 0).
    - rewrite isValidReplacement_ok by (done || lia). cbn [rbind].
      destruct (lru_scan_max l bits (seq 1 (length bits - 1)) 0 b0) as (r & b & ? & ? & ? & Hall);
        [done..|]. exists r, b. repeat split; [done|done|].
      intros j bj [->|Hj]%elem_of_cons Hbj; [|by eapply Hall]. rewrite Hb0 in Hbj. by injection Hbj as <-.
    - assert (b0 = 0) as -> by lia.
      destruct (lru_scan_max l bits (seq 1 (length bits - 1)) 0 0) as (r & b & ? & ? & ? & Hall);
        [done..|]. exists r, b. repeat split; [done|done|].
      intros j bj [->|Hj]%elem_of_cons Hbj; [|by eapply Hall]. rewrite Hb0 in Hbj. by injection Hbj as <-. }
  exists r. pose proof (lookup_lt_Some _ _ _ Hb). split; [done|]. split; [|done].
  destruct (Hinv _ _ Hb) as (pos & Hp & ->). pose proof (lookup_lt_Some _ _ _ Hp).
  destruct (lookup_lt_is_Some_2 o (length o - 1)) as [w Hw]; [lia|].
  pose proof (Hpos _ _ Hw) as Hbw. pose proof (lookup_lt_Some _ _ _ Hbw).
  specialize (Hmax w _ ltac:(apply elem_of_seq; lia) Hbw).
  assert (pos = (length o - 1)%nat) as -> by lia.
  rewrite last_lookup. by replace (pred (length o)) with (length o - 1)%nat by lia.
Qed.

(** ** What a cache set may rely on

    A lawful policy keeps its own invariant, never fails on a set whose blocks
    may all be evicted, and returns a way of the set. *)
Class PolicyLaws (P : Type) `{Policy P} := {
  pol_inv : nat → P → Prop;
  pol_info : nat → CacheSetInfoLRU → Prop;
  pol_replace c assoc l info p :
    (0 < assoc)%nat → length l = assoc → replaceable l → pol_inv assoc p → pol_info assoc info →
    ∃ i info' p', getReplacementIndex c assoc l info p = Ok (i, (info', p')) ∧
      (i < assoc)%nat ∧ pol_inv assoc p' ∧ pol_info assoc info';
  pol_update assoc info p i :
    (i < assoc)%nat → pol_inv assoc p → pol_info assoc info →
    ∃ info' p', updateReplacementIndex assoc info p i = Ok (info', p') ∧
      pol_inv assoc p' ∧ pol_info assoc info';
}.

(** The statistics fit the associativity and the number of QBS attempts. *)
Definition info_fits (assoc num_attempts : nat) (info : CacheSetInfoLRU) : Prop :=
  length (m_access info) = assoc ∧ ∀ a, m_attempts info = Some a → length a = num_attempts.

(** *** LRU (without QBS) *)

(** The state of an LRU set encodes the recency order [o]. *)
Definition lru_state (assoc : nat) (info : CacheSetInfoLRU) (p : LRU.t) (o : list nat) : Prop :=
  LRU.m_num_attempts p = 1%nat ∧ length (LRU.m_lru_bits p) = assoc ∧ (assoc ≤ 256)%nat ∧
  info_fits assoc 1 info ∧ recency (LRU.m_lru_bits p) o.

Lemma lru_move assoc info p o i :
  lru_state assoc info p o → (i < assoc)%nat →
  ∃ bits, moveToMRU (LRU.m_lru_bits p) i = Ok bits ∧
          lru_state assoc info (LRU.set_bits p bits) (touch i o).
Proof.
  intros (E1 & E2 & Ha & Hinfo & Hrec) Hi.
  destruct (moveToMRU_recency _ _ i Hrec) as (bits & E & El & Hrec'); [lia|lia|].
  exists bits. split; [done|]. repeat split; cbn; try done; try apply Hinfo; try apply Hrec'. lia.
Qed.

Lemma lru_replace c assoc l info p o :
  (0 < assoc)%nat → length l = assoc → replaceable l → lru_state assoc info p o →
  ∃ i info' p', LRU.getReplacementIndex c assoc l info p = Ok (i, (info', p')) ∧
    (i < assoc)%nat ∧ lru_state assoc info' p' (touch i o) ∧
    (find_invalid l = None → last o = Some i).
Proof.
  intros H0 Hl Hr Hs. unfold LRU.getReplacementIndex. destruct (find_invalid l) as [i|] eqn:E.
  - apply find_invalid_Some in E as [Hi _]. destruct (lru_move _ _ _ _ i Hs) as (bits & -> & Hs'); [lia|].
    eexists i, info, _. split; [done|]. split; [lia|]. split; [done|]. done.
  - pose proof Hs as (E1 & E2 & Ha & [Hacc Hatt] & Hrec). rewrite E1. cbn [LRU.attempts].
    destruct (lru_scan_last l (LRU.m_lru_bits p) o) as (r & Er & Hlast & Hlt); [done|lia|done|lia|].
    rewrite E2 in Er, Hlt. rewrite Er. cbn [rbind].
    replace (r <? assoc)%nat with true by (symmetry; apply Nat.ltb_lt; lia). cbn [check rbind Nat.ltb Nat.leb].
    destruct (lru_move _ _ _ _ r Hs Hlt) as (bits & -> & (F1 & F2 & F3 & F4 & F5)). cbn [rbind].
    destruct (incrementAttempt_ok info 1 0 ltac:(lia) Hatt) as (info' & -> & Hacc' & Hatt').
    eexists r, info', _. split; [done|]. split; [done|]. split; [|done].
    repeat split; try done; [by rewrite Hacc'|apply F5|apply F5].
Qed.

Lemma lru_update assoc info p o i :
  (i < assoc)%nat → lru_state assoc info p o →
  ∃ info' p', LRU.updateReplacementIndex assoc info p i = Ok (info', p') ∧
    lru_state assoc info' p' (touch i o).
Proof.
  intros Hi Hs. pose proof Hs as (E1 & E2 & Ha & [Hacc Hatt] & [Hperm Hpos]).
  unfold LRU.updateReplacementIndex.
  assert (i ∈ o) as [pos Hp]%list_elem_of_lookup by (rewrite Hperm, elem_of_seq; lia).
  pose proof (lookup_lt_Some _ _ _ Hp) as Hlt. rewrite Hperm, length_seq in Hlt.
  pose proof (Hpos _ _ Hp) as Hb. unfold arr_get. rewrite Hb. cbn [rbind].
  destruct (increment_ok info (Z.of_nat pos)) as (info' & -> & Hacc' & Hatt'); [lia|]. cbn [rbind].
  destruct (lru_move _ _ _ _ i Hs Hi) as (bits & -> & (F1 & F2 & F3 & F4 & F5)). cbn [rbind].
  eexists info', _. split; [done|]. repeat split; try done; [lia| |apply F5|apply F5].
  by rewrite Hatt'.
Qed.

Lemma lru_state_info assoc info info' p o :
  lru_state assoc info p o → info_fits assoc 1 info' → lru_state assoc info' p o.
Proof. intros (? & ? & ? & _ & ?) ?. done. Qed.

Definition lru_inv (assoc : nat) (p : LRU.t) : Prop :=
  ∀ info, info_fits assoc 1 info → ∃ o, lru_state assoc info p o.

Lemma lru_inv_intro assoc info p o : lru_state assoc info p o → lru_inv assoc p ∧ info_fits assoc 1 info.
Proof. intros Hs. split; [|apply Hs]. intros info' Hi. exists o. by eapply lru_state_info. Qed.

Lemma lru_pol_replace c assoc l info p :
  (0 < assoc)%nat → length l = assoc → replaceable l → lru_inv assoc p → info_fits assoc 1 info →
  ∃ i info' p', getReplacementIndex c assoc l info p = Ok (i, (info', p')) ∧
    (i < assoc)%nat ∧ lru_inv assoc p' ∧ info_fits assoc 1 info'.
Proof.
  intros H0 Hl Hr Hp Hi. destruct (Hp info Hi) as [o Hs].
  destruct (lru_replace c assoc l info p o H0 Hl Hr Hs) as (i & info' & p' & ? & ? & Hs' & ?).
  exists i, info', p'. split; [done|]. split; [done|]. by eapply lru_inv_intro.
Qed.

Lemma lru_pol_update assoc info p i :
  (i < assoc)%nat → lru_inv assoc p → info_fits assoc 1 info →
  ∃ info' p', updateReplacementIndex assoc info p i = Ok (info', p') ∧ lru_inv assoc p' ∧ info_fits assoc 1 info'.
Proof.
  intros Hi Hp Hinfo. destruct (Hp info Hinfo) as [o Hs].
  destruct (lru_update _ _ _ _ i Hi Hs) as (info' & p' & ? & Hs').
  exists info', p'. split; [done|]. by eapply lru_inv_intro.
Qed.

#[export] Instance lru_laws : PolicyLaws LRU.t := {
  pol_inv := lru_inv;
  pol_info assoc info := info_fits assoc 1 info;
  pol_replace := lru_pol_replace;
  pol_update := lru_pol_update;
}.

Lemma lru_new_state assoc : (0 < assoc ≤ 256)%nat → lru_state assoc (new_info assoc 1) (LRU.new assoc 1) (seq 0 assoc).
Proof.
  intros Ha. repeat split; cbn; try done; try lia.
  - by rewrite length_map, length_seq.
  - by rewrite length_replicate.
  - apply (new_bits_recency assoc). lia.
  - apply (new_bits_recency assoc). lia.
Qed.

(** *** Round robin *)

Lemma round_robin_search fuel assoc l p k :
  length l = assoc → (Z.to_nat (RoundRobin.m_replacement_index p) < assoc)%nat →
  0 ≤ RoundRobin.m_replacement_index p → Z.of_nat assoc < 2 ^ 32 →
  (k < fuel)%nat →
  isValidReplacement l (Z.to_nat ((RoundRobin.m_replacement_index p - 1 - Z.of_nat k) `mod` Z.of_nat assoc)) = Ok true →
  ∃ i p', RoundRobin.search fuel assoc l p = Ok (i, p') ∧ (i < assoc)%nat ∧
    (Z.to_nat (RoundRobin.m_replacement_index p') < assoc)%nat ∧ 0 ≤ RoundRobin.m_replacement_index p' ∧
    isValidReplacement l (Z.to_nat (RoundRobin.m_replacement_index p')) = Ok true.
Proof.
  revert fuel p. induction k as [|k IH]; intros fuel p Hl Hi H0 Hassoc Hf Hv;
    (destruct fuel as [|fuel]; [lia|]); cbn [RoundRobin.search];
    set (next := if RoundRobin.m_replacement_index p =? 0 then u32 (Z.of_nat assoc - 1)
                 else RoundRobin.m_replacement_index p - 1);
    assert (next = (RoundRobin.m_replacement_index p - 1) `mod` Z.of_nat assoc) as En;
    try (unfold next; destruct (Z.eqb_spec (RoundRobin.m_replacement_index p) 0) as [Hz|Hz];
      [rewrite Hz, u32_small by rlia; replace (0 - 1) with (Z.of_nat assoc - 1 + (-1) * Z.of_nat assoc) by lia;
       rewrite Z.mod_add, Z.mod_small by lia; done|rewrite Z.mod_small by lia; done]);
    pose proof (Z.mod_pos_bound (RoundRobin.m_replacement_index p - 1) (Z.of_nat assoc) ltac:(lia)).
  - rewrite Z.sub_0_r, <- En in Hv. rewrite Hv. cbn [rbind negb].
    eexists _, _. split; [done|]. cbn. repeat split; [lia|lia|lia|done].
  - assert (isValidReplacement l (Z.to_nat next) = Ok true ∨ isValidReplacement l (Z.to_nat next) = Ok false) as [Ev|Ev].
    { unfold isValidReplacement. destruct (arr_get_lt l (Z.to_nat next)) as (b & -> & _); [lia|]. cbn.
      destruct (bool_decide _); auto. }
    + rewrite Ev. cbn [rbind negb]. eexists _, _. split; [done|]. cbn. repeat split; [lia|lia|lia|done].
    + rewrite Ev. cbn [rbind negb].
      apply IH; cbn; try done; try lia. rewrite <- Hv. do 2 f_equal.
      replace (next - 1 - Z.of_nat k) with (next - Z.of_nat (S k)) by lia.
      by rewrite En, Zminus_mod_idemp_l.
Qed.

Lemma round_robin_search_ok assoc l p j :
  length l = assoc → 0 ≤ RoundRobin.m_replacement_index p < Z.of_nat assoc → Z.of_nat assoc < 2 ^ 32 →
  (j < assoc)%nat → isValidReplacement l j = Ok true →
  ∃ i p', RoundRobin.search assoc assoc l p = Ok (i, p') ∧ (i < assoc)%nat ∧
    0 ≤ RoundRobin.m_replacement_index p' < Z.of_nat assoc ∧
    isValidReplacement l (Z.to_nat (RoundRobin.m_replacement_index p')) = Ok true.
Proof.
  intros Hl Hi Ha Hj Hv. set (m := RoundRobin.m_replacement_index p) in *.
  set (k := (m - 1 - Z.of_nat j) `mod` Z.of_nat assoc).
  pose proof (Z.mod_pos_bound (m - 1 - Z.of_nat j) (Z.of_nat assoc) ltac:(lia)).
  destruct (round_robin_search assoc assoc l p (Z.to_nat k)) as (i & p' & E & ? & ? & ? & ?);
    [done|lia|lia|done|lia| |exists i, p'; repeat split; [done|done|lia|lia|done]].
  fold m. rewrite Z2Nat.id by lia. unfold k.
  rewrite Zminus_mod_idemp_r. replace (m - 1 - (m - 1 - Z.of_nat j)) with (Z.of_nat j) by lia.
  by rewrite Z.mod_small, Nat2Z.id by lia.
Qed.

Definition round_robin_state (assoc : nat) (p : RoundRobin.t) : Prop :=
  0 ≤ RoundRobin.m_replacement_index p < Z.of_nat assoc ∧ Z.of_nat assoc < 2 ^ 32.

Lemma round_robin_pol_replace c assoc l info p :
  (0 < assoc)%nat → length l = assoc → replaceable l → round_robin_state assoc p → True →
  ∃ i info' p', getReplacementIndex c assoc l info p = Ok (i, (info', p')) ∧
    (i < assoc)%nat ∧ round_robin_state assoc p' ∧ True.
Proof.
  intros H0 Hl Hr [Hi Ha] _. cbn. unfold RoundRobin.getReplacementIndex.
  destruct (round_robin_search_ok assoc l p 0) as (i & p' & -> & ? & ? & _); [done..| |].
  - apply isValidReplacement_ok; [done|lia].
  - exists i, info, p'. done.
Qed.

#[export] Instance round_robin_laws : PolicyLaws RoundRobin.t := {
  pol_inv := round_robin_state;
  pol_info _ _ := True;
  pol_replace := round_robin_pol_replace;
  pol_update assoc info p i Hi Hp Hinfo := ex_intro _ info (ex_intro _ p (conj eq_refl (conj Hp Hinfo)));
}.

(** *** Tree LRU *)

Definition plru_state (assoc : nat) (p : PLRU.t) : Prop :=
  (assoc = 4 ∨ assoc = 8)%nat ∧ length (PLRU.b p) = 8%nat.

Lemma plru_update assoc info p i :
  plru_state assoc p →
  ∃ p', PLRU.updateReplacementIndex assoc info p i = Ok (info, p') ∧ plru_state assoc p'.
Proof.
  destruct p as [b]. unfold plru_state. cbn [PLRU.b]. intros [Ha Hb].
  do 8 (destruct b as [|? b]; [done|]). destruct b; [|done].
  destruct Ha as [->| ->];
    do 8 (destruct i as [|i]; [eexists; split; [reflexivity|]; auto|]);
    eexists; split; [reflexivity|auto|reflexivity|auto].
Qed.

Lemma plru_victim assoc b :
  (assoc = 4 ∨ assoc = 8)%nat → length b = 8%nat → ∃ i, PLRU.victim assoc b = Ok i ∧ (i < assoc)%nat.
Proof.
  intros Ha Hb. do 8 (destruct b as [|? b]; [done|]). destruct b; [|done].
  destruct Ha as [->| ->]; cbn;
    repeat match goal with |- context [if ?x =? 0 then _ else _] => destruct (x =? 0) end; cbn;
    eexists; (split; [reflexivity|lia]).
Qed.

Lemma plru_replace c assoc l info p :
  length l = assoc → replaceable l → plru_state assoc p →
  ∃ i p', PLRU.getReplacementIndex c assoc l info p = Ok (i, (info, p')) ∧
    (i < assoc)%nat ∧ plru_state assoc p' ∧
    (find_invalid l = None → PLRU.victim assoc (PLRU.b p) = Ok i).
Proof.
  intros Hl Hr Hp. unfold PLRU.getReplacementIndex. destruct (find_invalid l) as [i|] eqn:E.
  - apply find_invalid_Some in E as [Hi _]. destruct (plru_update assoc info p i Hp) as (p' & -> & ?).
    exists i, p'. repeat split; [lia|apply H|apply H|done].
  - destruct Hp as [Ha Hb]. destruct (plru_victim assoc (PLRU.b p) Ha Hb) as (i & -> & Hi). cbn [rbind].
    rewrite isValidReplacement_ok by (done || lia). cbn [rbind check].
    destruct (plru_update assoc info p i (conj Ha Hb)) as (p' & -> & ?).
    exists i, p'. done.
Qed.

Lemma plru_pol_replace c assoc l info p :
  (0 < assoc)%nat → length l = assoc → replaceable l → plru_state assoc p → True →
  ∃ i info' p', getReplacementIndex c assoc l info p = Ok (i, (info', p')) ∧
    (i < assoc)%nat ∧ plru_state assoc p' ∧ True.
Proof.
  intros _ Hl Hr Hp _. destruct (plru_replace c assoc l info p Hl Hr Hp) as (i & p' & ? & ? & ? & _). eauto 10.
Qed.

Lemma plru_pol_update assoc info p i :
  (i < assoc)%nat → plru_state assoc p → True →
  ∃ info' p', updateReplacementIndex assoc info p i = Ok (info', p') ∧ plru_state assoc p' ∧ True.
Proof. intros _ Hp _. destruct (plru_update assoc info p i Hp) as (p' & ? & ?). eauto. Qed.

#[export] Instance plru_laws : PolicyLaws PLRU.t := {
  pol_inv := plru_state;
  pol_info _ _ := True;
  pol_replace := plru_pol_replace;
  pol_update := plru_pol_update;
}.

(** *** Cyclic scans

    NMRU, NRU and SRRIP look for a candidate from a pointer on, around the set. *)
Fixpoint cyclic_find (f : nat → bool) (n assoc : nat) (ptr : Z) : option Z :=
  match n with
  | O => None
  | S n => if f (Z.to_nat ptr) then Some ptr
           else cyclic_find f n assoc ((ptr + 1) `mod` Z.of_nat assoc)
  end.

Lemma cyclic_find_Some f n assoc ptr i :
  0 ≤ ptr < Z.of_nat assoc → cyclic_find f n assoc ptr = Some i →
  0 ≤ i < Z.of_nat assoc ∧ f (Z.to_nat i) = true.
Proof.
  revert ptr. induction n as [|n IH]; intros ptr Hp; cbn; [done|].
  destruct (f (Z.to_nat ptr)) eqn:E; [intros [= <-]; done|].
  apply IH. apply Z.mod_pos_bound. lia.
Qed.

Lemma cyclic_find_None f n assoc ptr :
  0 ≤ ptr < Z.of_nat assoc → cyclic_find f n assoc ptr = None →
  ∀ k, (k < n)%nat → f (Z.to_nat ((ptr + Z.of_nat k) `mod` Z.of_nat assoc)) = false.
Proof.
  revert ptr. induction n as [|n IH]; intros ptr Hp; cbn; [intros; lia|].
  destruct (f (Z.to_nat ptr)) eqn:E; [done|].
  intros H [|k] Hk; [by rewrite Z.add_0_r, Z.mod_small|].
  rewrite <- (IH _ ltac:(apply Z.mod_pos_bound; lia) H k ltac:(lia)).
  do 2 f_equal. rewrite Zplus_mod_idemp_l. f_equal. lia.
Qed.

(** A whole turn visits every way. *)
Lemma cyclic_find_turn f assoc ptr j :
  0 ≤ ptr < Z.of_nat assoc → (j < assoc)%nat → f j = true →
  ∃ i, cyclic_find f assoc assoc ptr = Some i ∧ 0 ≤ i < Z.of_nat assoc ∧ f (Z.to_nat i) = true.
Proof.
  intros Hp Hj Hf. destruct (cyclic_find f assoc assoc ptr) as [i|] eqn:E.
  { exists i. split; [done|]. by eapply cyclic_find_Some. }
  pose proof (Z.mod_pos_bound (Z.of_nat j - ptr) (Z.of_nat assoc) ltac:(lia)).
  pose proof (cyclic_find_None _ _ _ _ Hp E (Z.to_nat ((Z.of_nat j - ptr) `mod` Z.of_nat assoc)) ltac:(lia)) as Hn.
  rewrite Z2Nat.id, Zplus_mod_idemp_r in Hn by lia.
  replace (ptr + (Z.of_nat j - ptr)) with (Z.of_nat j) in Hn by lia.
  rewrite Z.mod_small, Nat2Z.id in Hn by lia. congruence.
Qed.

(** *** Not most recently used *)

Definition nmru_state (assoc : nat) (p : NMRU.t) (o : list nat) : Prop :=
  (2 ≤ assoc ≤ 256)%nat ∧ length (NMRU.m_lru_bits p) = assoc ∧
  recency (NMRU.m_lru_bits p) o ∧ 0 ≤ NMRU.m_replacement_pointer p < Z.of_nat assoc.

Definition nonzero_age (bits : list Z) (i : nat) : bool :=
  match bits !! i with Some b => negb (b =? 0) | None => false end.

Lemma nmru_search n assoc l info p :
  length l = assoc → replaceable l → length (NMRU.m_lru_bits p) = assoc → (assoc ≤ 256)%nat →
  0 ≤ NMRU.m_replacement_pointer p < Z.of_nat assoc →
  NMRU.search n assoc l info p =
    match cyclic_find (nonzero_age (NMRU.m_lru_bits p)) n assoc (NMRU.m_replacement_pointer p) with
    | Some i =>
        let! r := NMRU.updateReplacementIndex assoc info
          {| NMRU.m_lru_bits := NMRU.m_lru_bits p;
             NMRU.m_replacement_pointer := (i + 1) `mod` Z.of_nat assoc |} (Z.to_nat i) in
        Ok (Z.to_nat i, r)
    | None => Err LogError
    end.
Proof.
  revert p. induction n as [|n IH]; intros p Hl Hr Hb Ha Hp; [done|].
  cbn [NMRU.search cyclic_find]. destruct (arr_get_lt (NMRU.m_lru_bits p) (Z.to_nat (NMRU.m_replacement_pointer p)))
    as (b & -> & Hbi); [lia|]. unfold nonzero_age at 1. rewrite Hbi. cbn [rbind].
  pose proof (Z.mod_pos_bound (NMRU.m_replacement_pointer p + 1) (Z.of_nat assoc) ltac:(lia)).
  unfold umod. replace (Z.of_nat assoc =? 0) with false by lia.
  destruct (b =? 0); cbn [negb rbind].
  - rewrite u8_small by rlia. rewrite IH; done.
  - rewrite isValidReplacement_ok by (done || lia). cbn [rbind]. rewrite u8_small by rlia. done.
Qed.

Lemma nmru_move assoc info p o i :
  nmru_state assoc p o → (i < assoc)%nat →
  ∃ p', NMRU.updateReplacementIndex assoc info p i = Ok (info, p') ∧ nmru_state assoc p' (touch i o).
Proof.
  intros (Ha & Hl & Hrec & Hp) Hi. unfold NMRU.updateReplacementIndex.
  destruct (moveToMRU_recency _ _ i Hrec) as (bits & -> & El & Hrec'); [lia|lia|].
  eexists. split; [done|]. repeat split; cbn; try done; try lia; apply Hrec'.
Qed.

Lemma nmru_replace c assoc l info p o :
  length l = assoc → replaceable l → nmru_state assoc p o →
  ∃ i p', NMRU.getReplacementIndex c assoc l info p = Ok (i, (info, p')) ∧
    (i < assoc)%nat ∧ nmru_state assoc p' (touch i o) ∧ (find_invalid l = None → head o ≠ Some i).
Proof.
  intros Hl Hr Hs. unfold NMRU.getReplacementIndex. destruct (find_invalid l) as [i|] eqn:E.
  { apply find_invalid_Some in E as [Hi _]. destruct (nmru_move _ info _ _ i Hs) as (p' & -> & ?); [lia|].
    exists i, p'. split; [done|]. split; [lia|done]. }
  pose proof Hs as (Ha & Hb & [Hperm Hpos] & Hp). rewrite nmru_search by (done || lia).
  destruct (lookup_lt_is_Some_2 o 1) as [j Hj]; [rewrite Hperm, length_seq; lia|].
  pose proof (Hpos _ _ Hj) as Hbj. pose proof (lookup_lt_Some _ _ _ Hbj).
  destruct (cyclic_find_turn (nonzero_age (NMRU.m_lru_bits p)) assoc (NMRU.m_replacement_pointer p) j)
    as (i & -> & Hi & Hf); [done|lia|by unfold nonzero_age; rewrite Hbj|].
  destruct (nmru_move assoc info {| NMRU.m_lru_bits := NMRU.m_lru_bits p;
    NMRU.m_replacement_pointer := (i + 1) `mod` Z.of_nat assoc |} o (Z.to_nat i)) as (p' & -> & ?);
    [|lia|].
  { repeat split; cbn; try done; try lia; apply Z.mod_pos_bound; lia. }
  exists (Z.to_nat i), p'. split; [done|]. split; [lia|]. split; [done|]. intros _ Hh. rewrite head_lookup in Hh. apply Hpos in Hh. unfold nonzero_age in Hf.
  by rewrite Hh in Hf.
Qed.

Lemma nmru_pol_replace c assoc l info p :
  (0 < assoc)%nat → length l = assoc → replaceable l → (∃ o, nmru_state assoc p o) → True →
  ∃ i info' p', getReplacementIndex c assoc l info p = Ok (i, (info', p')) ∧
    (i < assoc)%nat ∧ (∃ o, nmru_state assoc p' o) ∧ True.
Proof.
  intros _ Hl Hr [o Hs] _. destruct (nmru_replace c assoc l info p o Hl Hr Hs) as (i & p' & ? & ? & ? & _).
  eauto 10.
Qed.

Lemma nmru_pol_update assoc info p i :
  (i < assoc)%nat → (∃ o, nmru_state assoc p o) → True →
  ∃ info' p', updateReplacementIndex assoc info p i = Ok (info', p') ∧ (∃ o, nmru_state assoc p' o) ∧ True.
Proof. intros Hi [o Hs] _. destruct (nmru_move _ info _ _ i Hs Hi) as (p' & ? & ?). eauto 10. Qed.

#[export] Instance nmru_laws : PolicyLaws NMRU.t := {
  pol_inv assoc p := ∃ o, nmru_state assoc p o;
  pol_info _ _ := True;
  pol_replace := nmru_pol_replace;
  pol_update := nmru_pol_update;
}.

(** *** SRRIP (without QBS) *)

Definition srrip_state (assoc : nat) (info : CacheSetInfoLRU) (p : SRRIP.t) : Prop :=
  (0 < assoc ≤ 256)%nat ∧ (SRRIP.m_num_attempts p ≤ 1)%nat ∧ length (SRRIP.m_rrip_bits p) = assoc ∧
  0 ≤ SRRIP.m_rrip_insert p ≤ SRRIP.m_rrip_max p ∧ SRRIP.m_rrip_max p < 256 ∧
  Forall (λ b, 0 ≤ b ≤ SRRIP.m_rrip_max p) (SRRIP.m_rrip_bits p) ∧
  0 ≤ SRRIP.m_replacement_pointer p < Z.of_nat assoc ∧ info_fits assoc 1 info.

Definition distant (p : SRRIP.t) (i : nat) : bool :=
  match SRRIP.m_rrip_bits p !! i with Some b => b >=? SRRIP.m_rrip_max p | None => false end.

Lemma srrip_scan n c assoc l info p :
  length l = assoc → replaceable l → srrip_state assoc info p →
  (∃ i info', cyclic_find (distant p) n assoc (SRRIP.m_replacement_pointer p) = Some i ∧
     info_fits assoc 1 info' ∧ 0 ≤ i < Z.of_nat assoc ∧ distant p (Z.to_nat i) = true ∧
     SRRIP.scan n c assoc l info p 0 =
       Ok (inl (Z.to_nat i, (info', SRRIP.set_state p
                  (<[Z.to_nat i := SRRIP.m_rrip_insert p]> (SRRIP.m_rrip_bits p))
                  ((i + 1) `mod` Z.of_nat assoc))))) ∨
  (∃ ptr, cyclic_find (distant p) n assoc (SRRIP.m_replacement_pointer p) = None ∧
     0 ≤ ptr < Z.of_nat assoc ∧
     SRRIP.scan n c assoc l info p 0 = Ok (inr (info, SRRIP.set_state p (SRRIP.m_rrip_bits p) ptr, 0%nat))).
Proof.
  intros Hl Hr. revert p. induction n as [|n IH]; intros p Hs; pose proof Hs as (H0 & Hn & Hlen & Hins & Hmax & Hb & Hp & [Hacc Hatt]).
  { right. exists (SRRIP.m_replacement_pointer p). split; [done|]. split; [done|]. by destruct p. }
  cbn [SRRIP.scan cyclic_find].
  destruct (arr_get_lt (SRRIP.m_rrip_bits p) (Z.to_nat (SRRIP.m_replacement_pointer p)))
    as (b & -> & Hbi); [lia|]. unfold distant at 1 4. rewrite Hbi. cbn [rbind].
  pose proof (Z.mod_pos_bound (SRRIP.m_replacement_pointer p + 1) (Z.of_nat assoc) ltac:(lia)).
  unfold umod. replace (Z.of_nat assoc =? 0) with false by lia. cbn [rbind].
  destruct (b >=? SRRIP.m_rrip_max p) eqn:E.
  - left. destruct (Z.ltb_spec (Z.of_nat 0) (Z.of_nat (SRRIP.m_num_attempts p) - 1)); [lia|]. cbn [rbind].
    rewrite arr_set_lt by lia. cbn [rbind].
    destruct (incrementAttempt_ok info 1 0 ltac:(lia) Hatt) as (info' & -> & Hacc' & Hatt'). cbn [rbind].
    rewrite isValidReplacement_ok by (done || lia). cbn [rbind check]. rewrite u8_small by rlia.
    exists (SRRIP.m_replacement_pointer p), info'.
    split; [done|]. split; [split; [lia|done]|]. split; [done|]. split; [|done].
    unfold distant. by rewrite Hbi.
  - rewrite u8_small by rlia.
    apply (IH (SRRIP.set_state p (SRRIP.m_rrip_bits p)
                 ((SRRIP.m_replacement_pointer p + 1) `mod` Z.of_nat assoc))).
    unfold srrip_state; repeat match goal with |- _ ∧ _ => split end; cbn; (done || lia).
Qed.

(** The largest prediction value of the set. *)
Definition max_of (l : list Z) (m : Z) : Prop := m ∈ l ∧ Forall (λ b, b ≤ m) l.

Lemma max_of_exists l : l ≠ [] → ∃ m, max_of l m.
Proof.
  induction l as [|a l IH]; [done|]. intros _. destruct (decide (l = [])) as [->|Hne].
  - exists a. split; [set_solver|]. by repeat constructor.
  - destruct (IH Hne) as (m & Hm & Hall). destruct (Z.le_ge_cases a m).
    + exists m. split; [set_solver|]. by constructor.
    + exists a. split; [set_solver|]. constructor; [lia|].
      eapply Forall_impl; [exact Hall|]. cbn. lia.
Qed.

(** The search ages the set until a block reaches the maximum, and evicts one that had
    the largest value. *)
Lemma srrip_search rounds c assoc l info p m :
  length l = assoc → replaceable l → srrip_state assoc info p →
  max_of (SRRIP.m_rrip_bits p) m → SRRIP.m_rrip_max p - m < Z.of_nat rounds →
  ∃ i info' ptr,
    SRRIP.search rounds c assoc l info p 0 =
      Ok (i, (info', SRRIP.set_state p
        (<[i := SRRIP.m_rrip_insert p]> (map (λ b, b + (SRRIP.m_rrip_max p - m)) (SRRIP.m_rrip_bits p))) ptr)) ∧
    SRRIP.m_rrip_bits p !! i = Some m ∧ 0 ≤ ptr < Z.of_nat assoc ∧ info_fits assoc 1 info'.
Proof.
  intros Hl Hr. revert p m. induction rounds as [|rounds IH]; intros p m Hs [Hm Hall] Hrd;
    pose proof Hs as (H0 & Hn & Hlen & Hins & Hmax & Hb & Hp & Hinfo);
    pose proof (proj1 (Forall_forall _ _) Hb m Hm) as Hmb; cbn in Hmb; [lia|].
  cbn [SRRIP.search]. destruct (srrip_scan assoc c assoc l info p Hl Hr Hs)
    as [(i & info' & Hc & Hi' & Hi & Hd & ->)|(ptr & Hc & Hptr & ->)]; cbn [rbind].
  - unfold distant in Hd. destruct (SRRIP.m_rrip_bits p !! Z.to_nat i) as [b|] eqn:Eb; [|done].
    pose proof (list_elem_of_lookup_2 _ _ _ Eb) as Hin.
    pose proof (proj1 (Forall_forall _ _) Hall b Hin) as Hbm. cbn in Hbm.
    pose proof (proj1 (Forall_forall _ _) Hb b Hin) as Hbb. cbn in Hbb.
    assert (b = m) as -> by lia. assert (SRRIP.m_rrip_max p - m = 0) as -> by lia.
    exists (Z.to_nat i), info', ((i + 1) `mod` Z.of_nat assoc). split.
    + do 5 f_equal. rewrite <- (map_id (SRRIP.m_rrip_bits p)) at 1. apply map_ext. intros; cbn; lia.
    + split; [done|]. split; [apply Z.mod_pos_bound; lia|done].
  - cbn [SRRIP.set_state SRRIP.m_rrip_bits SRRIP.m_rrip_max SRRIP.m_replacement_pointer].
    assert (∀ b, b ∈ SRRIP.m_rrip_bits p → b < SRRIP.m_rrip_max p) as Hlt.
    { intros b Hin. apply list_elem_of_lookup in Hin as [j Hj].
      destruct (Z.lt_ge_cases b (SRRIP.m_rrip_max p)) as [|Hge]; [done|exfalso].
      destruct (cyclic_find_turn (distant p) assoc (SRRIP.m_replacement_pointer p) j) as (i & Hi & _); [done| | |congruence].
      - pose proof (lookup_lt_Some _ _ _ Hj). lia.
      - unfold distant. rewrite Hj. lia. }
    set (bits' := map (λ b, if b <? SRRIP.m_rrip_max p then u8 (b + 1) else b) (SRRIP.m_rrip_bits p)).
    assert (bits' = map (λ b, b + 1) (SRRIP.m_rrip_bits p)) as Eb.
    { apply map_ext_in. intros b Hin%list_elem_of_In. specialize (Hlt b Hin).
      pose proof (proj1 (Forall_forall _ _) Hb b Hin). cbn in *.
      destruct (Z.ltb_spec b (SRRIP.m_rrip_max p)); [|lia]. rewrite u8_small by rlia. done. }
    pose proof (Hlt m Hm).
    destruct (IH (SRRIP.set_state p bits' ptr) (m + 1)) as (i & info' & ptr' & E & Hbi & Hptr' & Hi').
    + unfold srrip_state; repeat match goal with |- _ ∧ _ => split end; cbn; try (done || lia).
      * by unfold bits'; rewrite length_map.
      * rewrite Eb. apply Forall_fmap. apply Forall_forall. intros b Hin. specialize (Hlt b Hin).
        pose proof (proj1 (Forall_forall _ _) Hb b Hin). cbn in *. lia.
    + cbn. rewrite Eb. split; [by apply (list_elem_of_fmap_2 (λ b, b + 1))|].
      apply Forall_fmap. eapply Forall_impl; [exact Hall|]. cbn. lia.
    + cbn. lia.
    + exists i, info', ptr'. split; [|split; [|done]].
      * etransitivity; [exact E|]. cbn. rewrite Eb, map_map. do 5 f_equal. apply map_ext. intros; lia.
      * cbn in Hbi. rewrite Eb in Hbi. change (map ?f ?x) with (f <$> x) in Hbi. rewrite list_lookup_fmap in Hbi.
        apply fmap_Some in Hbi as (b & Hb' & ?). rewrite Hb'. f_equal. lia.
Qed.

Lemma srrip_replace c assoc l info p :
  length l = assoc → replaceable l → srrip_state assoc info p →
  ∃ i info' p', SRRIP.getReplacementIndex c assoc l info p = Ok (i, (info', p')) ∧
    (i < assoc)%nat ∧ srrip_state assoc info' p' ∧ SRRIP.m_rrip_max p' = SRRIP.m_rrip_max p ∧
    SRRIP.m_rrip_bits p' !! i = Some (SRRIP.m_rrip_insert p) ∧
    (find_invalid l = None →
     ∃ m, SRRIP.m_rrip_bits p !! i = Some m ∧ Forall (λ b, b ≤ m) (SRRIP.m_rrip_bits p)).
Proof.
  intros Hl Hr Hs. pose proof Hs as (H0 & Hn & Hlen & Hins & Hmax & Hb & Hp & Hinfo).
  unfold SRRIP.getReplacementIndex. destruct (find_invalid l) as [i|] eqn:E.
  - apply find_invalid_Some in E as [Hi _]. rewrite arr_set_lt by lia. cbn [rbind].
    eexists i, info, _. split; [done|]. split; [lia|]. split; [|split; [done|split]].
    + unfold srrip_state; repeat match goal with |- _ ∧ _ => split end; cbn; try (done || lia).
      * by rewrite length_insert.
      * apply list_insert_Forall; [done|lia].
    + cbn. rewrite list_lookup_insert_eq; [done|lia].
    + done.
  - destruct (max_of_exists (SRRIP.m_rrip_bits p)) as (m & Hm).
    { intros E0. rewrite E0 in Hlen. cbn in Hlen. lia. }
    pose proof (proj1 (Forall_forall _ _) Hb m (proj1 Hm)) as Hmb. cbn in Hmb.
    destruct (srrip_search (S (Z.to_nat (SRRIP.m_rrip_max p))) c assoc l info p m Hl Hr Hs Hm)
      as (i & info' & ptr & -> & Hi & Hptr & Hinfo'); [lia|].
    pose proof (lookup_lt_Some _ _ _ Hi) as Hlt.
    eexists i, info', _. split; [done|]. split; [lia|]. split; [|split; [done|split]].
    + unfold srrip_state; repeat match goal with |- _ ∧ _ => split end; cbn; try (done || lia).
      * by rewrite length_insert, length_map.
      * apply list_insert_Forall; [|lia]. apply Forall_fmap. apply Forall_forall. intros b Hin.
        pose proof (proj1 (Forall_forall _ _) Hb b Hin). destruct Hm as [_ Hall].
        pose proof (proj1 (Forall_forall _ _) Hall b Hin). cbn in *. lia.
    + cbn. rewrite list_lookup_insert_eq; [done|by rewrite length_map].
    + intros _. exists m. split; [done|apply Hm].
Qed.

(** An access asserts that the prediction value indexes the access statistics. *)
Definition srrip_inv (assoc : nat) (p : SRRIP.t) : Prop :=
  (∀ info, info_fits assoc 1 info → srrip_state assoc info p) ∧ SRRIP.m_rrip_max p < Z.of_nat assoc.

Lemma srrip_inv_intro assoc info p :
  srrip_state assoc info p → SRRIP.m_rrip_max p < Z.of_nat assoc → srrip_inv assoc p ∧ info_fits assoc 1 info.
Proof.
  intros (? & ? & ? & ? & ? & ? & ? & ?) Hm. split; [|done]. split; [|done]. intros info' ?.
  unfold srrip_state. done.
Qed.

Lemma srrip_pol_replace c assoc l info p :
  (0 < assoc)%nat → length l = assoc → replaceable l → srrip_inv assoc p → info_fits assoc 1 info →
  ∃ i info' p', getReplacementIndex c assoc l info p = Ok (i, (info', p')) ∧
    (i < assoc)%nat ∧ srrip_inv assoc p' ∧ info_fits assoc 1 info'.
Proof.
  intros _ Hl Hr [Hs Hm] Hi. destruct (srrip_replace c assoc l info p Hl Hr (Hs info Hi))
    as (i & info' & p' & ? & ? & ? & E & _). exists i, info', p'.
  split; [done|]. split; [done|]. apply srrip_inv_intro; [done|]. by rewrite E.
Qed.

Lemma srrip_pol_update assoc info p i :
  (i < assoc)%nat → srrip_inv assoc p → info_fits assoc 1 info →
  ∃ info' p', updateReplacementIndex assoc info p i = Ok (info', p') ∧
    srrip_inv assoc p' ∧ info_fits assoc 1 info'.
Proof.
  intros Hi [Hs Hm] Hinfo. destruct (Hs info Hinfo) as (H0 & Hn & Hlen & Hins & Hmax & Hb & Hp & [Hacc Hatt]).
  cbn. unfold SRRIP.updateReplacementIndex.
  destruct (arr_get_lt (SRRIP.m_rrip_bits p) i) as (b & -> & Hbi); [lia|]. cbn [rbind].
  pose proof (proj1 (Forall_lookup _ _) Hb i b Hbi) as Hbb. cbn in Hbb.
  destruct (increment_ok info b) as (info' & -> & Hacc' & Hatt'); [lia|]. cbn [rbind].
  assert (info_fits assoc 1 info') as Hinfo' by (split; [lia|by rewrite Hatt']).
  destruct (Z.gtb_spec b 0).
  - rewrite arr_set_lt by lia. cbn [rbind]. eexists _, _. split; [done|].
    apply srrip_inv_intro; [|done]. unfold srrip_state.
    repeat match goal with |- _ ∧ _ => split end; cbn; try (done || lia).
    + by rewrite length_insert.
    + apply list_insert_Forall; [done|lia].
  - cbn [rbind]. eexists _, _. split; [done|]. by apply srrip_inv_intro.
Qed.

#[export] Instance srrip_laws : PolicyLaws SRRIP.t := {
  pol_inv := srrip_inv;
  pol_info assoc info := info_fits assoc 1 info;
  pol_replace := srrip_pol_replace;
  pol_update := srrip_pol_update;
}.

Lemma srrip_new_state assoc nb :
  (0 < assoc ≤ 256)%nat → 1 ≤ nb ≤ 8 → srrip_state assoc (new_info assoc 1) (SRRIP.new assoc nb 1).
Proof.
  intros Ha Hnb. assert (2 ≤ 2 ^ nb ≤ 256) as Hp.
  { change 2 with (2 ^ 1) at 1. change 256 with (2 ^ 8). split; apply Z.pow_le_mono_r; lia. }
  unfold srrip_state, SRRIP.new, info_fits. cbn -[Z.pow].
  rewrite Z.shiftl_1_l, (u8_small (2 ^ nb - 1)), u8_small by rlia.
  repeat match goal with |- _ ∧ _ => split end; try (done || lia).
  - by rewrite length_replicate.
  - apply Forall_replicate. lia.
  - by rewrite length_replicate.
Qed.

(** * Properties *)

(** An operation on a set whose blocks are all valid: an access to a way, or a
    replacement. *)
Inductive set_op := Access (way : nat) | Replace.

(** The specification of LRU: the ways from the most to the least recently used. *)
Definition lru_spec_step (o : list nat) (op : set_op) : option nat * list nat :=
  match op with
  | Access i => (None, touch i o)
  | Replace => match last o with Some v => (Some v, touch v o) | None => (None, o) end
  end.

Fixpoint lru_spec (o : list nat) (ops : list set_op) : list (option nat) :=
  match ops with
  | [] => []
  | op :: ops => let (v, o) := lru_spec_step o op in v :: lru_spec o ops
  end.

(** The same operations on the code's state. *)
Fixpoint run_policy {P} `{Policy P} (c : cntlr) (l : blocks) (info : CacheSetInfoLRU) (p : P)
    (ops : list set_op) : result (list (option nat)) :=
  match ops with
  | [] => Ok []
  | Access i :: ops =>
      let! (info, p) := updateReplacementIndex (length l) info p i in
      let! vs := run_policy c l info p ops in Ok (None :: vs)
  | Replace :: ops =>
      let! (v, (info, p)) := getReplacementIndex c (length l) l info p in
      let! vs := run_policy c l info p ops in Ok (Some v :: vs)
  end.

Lemma lru_run c l ops : ∀ info p o,
  (0 < length l)%nat → replaceable l → find_invalid l = None →
  Forall (λ op, match op with Access i => (i < length l)%nat | Replace => True end) ops →
  lru_state (length l) info p o → run_policy c l info p ops = Ok (lru_spec o ops).
Proof.
  induction ops as [|[i|] ops IH]; intros info p o H0 Hr Hv Hops Hs; [done|..];
    apply Forall_cons in Hops as [Hi Hops]; cbn [run_policy lru_spec lru_spec_step].
  - destruct (lru_update _ info p o i Hi Hs) as (info' & p' & E & Hs').
    cbn [updateReplacementIndex LRU.policy]. rewrite E. cbn [rbind]. by rewrite (IH _ _ _ H0 Hr Hv Hops Hs').
  - destruct (lru_replace c _ l info p o H0 eq_refl Hr Hs) as (v & info' & p' & E & _ & Hs' & Hlast).
    cbn [getReplacementIndex LRU.policy]. rewrite E, (Hlast Hv). cbn [rbind].
    by rewrite (IH _ _ _ H0 Hr Hv Hops Hs').
Qed.

(** [C36] The LRU age bits refine the recency order: for every sequence of accesses and
    replacements on a full set - up to 256 ways, all valid - whose blocks may all be evicted,
    the victims the code picks are those of the list of ways ordered by last use. *)
Theorem lru_refines_recency c l ops :
  (0 < length l ≤ 256)%nat → replaceable l → find_invalid l = None →
  Forall (λ op, match op with Access i => (i < length l)%nat | Replace => True end) ops →
  run_policy c l (new_info (length l) 1) (LRU.new (length l) 1) ops =
    Ok (lru_spec (seq 0 (length l)) ops).
Proof. intros Hl Hr Hv Hops. apply lru_run; [lia|done..|]. by apply lru_new_state. Qed.

(** A set of [n] valid blocks in the shared state. *)
Definition example_blocks (n : nat) : blocks :=
  map (λ i, CacheBlockInfo.new (Z.of_nat i) CacheState.SHARED 0) (seq 0 n).

Lemma lru_refines_recency_witness :
  run_policy None (example_blocks 4) (new_info 4 1) (LRU.new 4 1)
    [Access 3; Access 2; Replace; Access 3; Replace; Replace; Replace] =
  Ok [None; None; Some 1%nat; None; Some 0%nat; Some 2%nat; Some 1%nat].
Proof.
  apply (lru_refines_recency None (example_blocks 4)); [cbn; lia| |reflexivity|].
  - repeat constructor; discriminate.
  - repeat constructor; cbn; lia.
Defined.

(** The tree of PLRU never evicts the block accessed last: after an
    access to a way, the victim of a full set is another way. *)
Theorem plru_victim_not_last assoc info p i v p' :
  plru_state assoc p → (i < assoc)%nat →
  PLRU.updateReplacementIndex assoc info p i = Ok (info, p') →
  PLRU.victim assoc (PLRU.b p') = Ok v → v ≠ i.
Proof.
  destruct p as [b]. unfold plru_state. cbn [PLRU.b]. intros [Ha Hb] Hi.
  do 8 (destruct b as [|? b]; [done|]). destruct b; [|done].
  unfold PLRU.updateReplacementIndex.
  destruct Ha as [->| ->];
    do 8 (destruct i as [|i]; [cbn; intros [= <-]; cbn;
      repeat match goal with |- context [if ?x =? 0 then _ else _] => destruct (x =? 0) end; cbn;
      congruence|]); lia.
Qed.

Lemma plru_victim_not_last_witness :
  ∃ p', PLRU.updateReplacementIndex 8 (new_info 8 1) (PLRU.mk (replicate 8 0)) 0 = Ok (new_info 8 1, p') ∧
  PLRU.victim 8 (PLRU.b p') = Ok 4%nat ∧ (4 ≠ 0)%nat.
Proof.
  eexists. split; [reflexivity|]. split; [reflexivity|].
  eapply (plru_victim_not_last 8 (new_info 8 1) (PLRU.mk (replicate 8 0)));
    [split; [right; reflexivity|reflexivity]|lia|reflexivity|reflexivity].
Defined.

(** SRRIP always finds a victim: the nested search ends within
    [m_rrip_max + 1] ageing rounds, the chosen way had a largest prediction value of the
    set, and its counter is set to the insertion value. *)
Theorem srrip_victim_distant c assoc l info p :
  length l = assoc → replaceable l → find_invalid l = None → srrip_state assoc info p →
  ∃ i info' p' m, SRRIP.getReplacementIndex c assoc l info p = Ok (i, (info', p')) ∧
    (i < assoc)%nat ∧ SRRIP.m_rrip_bits p !! i = Some m ∧ Forall (λ b, b ≤ m) (SRRIP.m_rrip_bits p) ∧
    SRRIP.m_rrip_bits p' !! i = Some (SRRIP.m_rrip_insert p) ∧ srrip_state assoc info' p'.
Proof.
  intros Hl Hr Hv Hs. destruct (srrip_replace c assoc l info p Hl Hr Hs)
    as (i & info' & p' & E & Hi & Hs' & _ & Hins & Hmax).
  destruct (Hmax Hv) as (m & ? & ?). by exists i, info', p', m.
Qed.

Lemma srrip_victim_distant_witness :
  ∃ i info' p' m,
    SRRIP.getReplacementIndex None 4 (example_blocks 4) (new_info 4 1) (SRRIP.new 4 3 1) = Ok (i, (info', p')) ∧
    (i < 4)%nat ∧ SRRIP.m_rrip_bits (SRRIP.new 4 3 1) !! i = Some m ∧
    Forall (λ b, b ≤ m) (SRRIP.m_rrip_bits (SRRIP.new 4 3 1)) ∧
    SRRIP.m_rrip_bits p' !! i = Some 6 ∧ srrip_state 4 info' p'.
Proof.
  apply (srrip_victim_distant None 4 (example_blocks 4)); [reflexivity| |reflexivity|].
  - repeat constructor; discriminate.
  - apply srrip_new_state; lia.
Defined.

(** SRRIP counts accesses per prediction value in an array with one
    counter per way: with two ways and two-bit counters, an access to a block that was
    just inserted stops in an assertion. *)
Theorem srrip_access_asserts :
  SRRIP.updateReplacementIndex 2 (new_info 2 1) (SRRIP.new 2 2 1) 0 = Err AssertFail.
Proof. reflexivity. Qed.

(** Round robin ends whenever some block may be evicted, after at most
    one turn of the recursion, but what it checks is the way after the one it returns: the
    next way is one that may be evicted. *)
Theorem round_robin_terminates assoc l info p j c :
  length l = assoc → round_robin_state assoc p → (j < assoc)%nat → isValidReplacement l j = Ok true →
  ∃ i p', RoundRobin.getReplacementIndex c assoc l info p = Ok (i, (info, p')) ∧ (i < assoc)%nat ∧
    round_robin_state assoc p' ∧
    isValidReplacement l (Z.to_nat (RoundRobin.m_replacement_index p')) = Ok true.
Proof.
  intros Hl [Hp Ha] Hj Hv. unfold RoundRobin.getReplacementIndex.
  destruct (round_robin_search_ok assoc l p j Hl Hp Ha Hj Hv) as (i & p' & -> & ? & ? & ?).
  by exists i, p'.
Qed.

Lemma round_robin_terminates_witness :
  ∃ i p',
    RoundRobin.getReplacementIndex None 3
      [CacheBlockInfo.new 7 CacheState.SHARED 0; CacheBlockInfo.new 8 CacheState.SHARED_UPGRADING 0;
       CacheBlockInfo.new 9 CacheState.SHARED_UPGRADING 0] (new_info 3 1) (RoundRobin.new 3)
      = Ok (i, (new_info 3 1, p')) ∧ (i < 3)%nat ∧ round_robin_state 3 p' ∧
    isValidReplacement
      [CacheBlockInfo.new 7 CacheState.SHARED 0; CacheBlockInfo.new 8 CacheState.SHARED_UPGRADING 0;
       CacheBlockInfo.new 9 CacheState.SHARED_UPGRADING 0]
      (Z.to_nat (RoundRobin.m_replacement_index p')) = Ok true.
Proof.
  apply (round_robin_terminates 3 _ (new_info 3 1) (RoundRobin.new 3) 0);
    [reflexivity|split; vm_compute; intuition congruence|lia|reflexivity].
Defined.

(** Round robin evicts blocks it must not: [isValidReplacement] is asked
    of the way after the one returned, so with one block that may be evicted and two that
    are being upgraded, the code returns one of the latter. *)
Theorem round_robin_evicts_upgrading :
  let l := [CacheBlockInfo.new 7 CacheState.SHARED 0; CacheBlockInfo.new 8 CacheState.SHARED_UPGRADING 0;
            CacheBlockInfo.new 9 CacheState.SHARED_UPGRADING 0] in
  RoundRobin.getReplacementIndex None 3 l (new_info 3 1) (RoundRobin.new 3) =
    Ok (1%nat, (new_info 3 1, RoundRobin.mk 0)) ∧
  isValidReplacement l 1 = Ok false.
Proof. split; reflexivity. Qed.
