(* ===== verification/CacheModel.v ===== *)
(** Cache sets and caches: [cache/cache_set.{h,cc}] and [cache/cache.{h,cc}].

    The sets are generic in the replacement policy, as [CacheSet] is in its
    virtual operations; the theorems use only the laws of [PolicyLaws].
    Refinement: the contents of a set are a finite map from tags to blocks. *)
From S2P Require Import Prelude Utils BlockInfo AddressMap Replacement.

(** Bytes of a data array or buffer. *)
Abbreviation bytes := (list Z).

(** [memcpy] from [src] at [from] into a fresh buffer of [n] bytes. *)
Definition mem_read (src : bytes) (from n : nat) : result bytes :=
  let! _ := check (from + n <=? length src)%nat OutOfRange in
  Ok (take n (drop from src)).

(** [memcpy] of the [n] first bytes of [src] into [dst] at [to]. *)
Definition mem_write (dst : bytes) (to : nat) (src : bytes) (n : nat) : result bytes :=
  let! _ := check ((to + n <=? length dst)%nat && (n <=? length src)%nat) OutOfRange in
  Ok (take to dst ++ take n src ++ drop (to + n) dst).

(** [parsePolicyType] of [cache_set.cc]. *)
Definition parsePolicyType (policy : string) : result CacheBase.ReplacementPolicy :=
  if bool_decide (policy = "round_robin"%string) then Ok CacheBase.ROUND_ROBIN
  else if bool_decide (policy = "lru"%string) then Ok CacheBase.LRU
  else if bool_decide (policy = "lru_qbs"%string) then Ok CacheBase.LRU_QBS
  else if bool_decide (policy = "nru"%string) then Ok CacheBase.NRU
  else if bool_decide (policy = "mru"%string) then Ok CacheBase.MRU
  else if bool_decide (policy = "nmru"%string) then Ok CacheBase.NMRU
  else if bool_decide (policy = "plru"%string) then Ok CacheBase.PLRU
  else if bool_decide (policy = "srrip"%string) then Ok CacheBase.SRRIP
  else if bool_decide (policy = "srrip_qbs"%string) then Ok CacheBase.SRRIP_QBS
  else if bool_decide (policy = "random"%string) then Ok CacheBase.RANDOM
  else Err LogError.

(** [getNumQBSAttempts]; [qbs_attempts] is the configuration's [qbs/attempts]. *)
Definition getNumQBSAttempts (policy : CacheBase.ReplacementPolicy) (qbs_attempts : Z) : Z :=
  match policy with
  | CacheBase.LRU_QBS | CacheBase.SRRIP_QBS => u8 qbs_attempts
  | _ => 1
  end.

(** ** [cache_set.{h,cc}] *)
Module CacheSet.
Record t (P : Type) := mk {
  m_cache_block_info_array : blocks;
  m_blocks : option bytes;       (* NULL unless faults are injected *)
  m_associativity : nat;         (* UInt32 *)
  m_blocksize : nat;             (* UInt32 *)
  policy : P;                    (* the fields of the derived class *)
}.
Arguments mk {P} _ _ _ _ _.
Arguments m_cache_block_info_array {P} _.
Arguments m_blocks {P} _.
Arguments m_associativity {P} _.
Arguments m_blocksize {P} _.
Arguments policy {P} _.

Section ops.
Context {P : Type} `{Policy P}.

(** [fault_injection]: whether [Sim()->getFaultinjectionManager()] exists. *)
Definition new (fault_injection : bool) (associativity blocksize : nat) (p : P) : t P :=
  {| m_cache_block_info_array := replicate associativity CacheBlockInfo.empty;
     m_blocks := if fault_injection then Some (replicate (associativity * blocksize) 0) else None;
     m_associativity := associativity; m_blocksize := blocksize; policy := p |}.

Definition set_array (s : t P) (l : blocks) : t P :=
  {| m_cache_block_info_array := l; m_blocks := m_blocks s;
     m_associativity := m_associativity s; m_blocksize := m_blocksize s; policy := policy s |}.
Definition set_data (s : t P) (d : option bytes) : t P :=
  {| m_cache_block_info_array := m_cache_block_info_array s; m_blocks := d;
     m_associativity := m_associativity s; m_blocksize := m_blocksize s; policy := policy s |}.
Definition set_policy (s : t P) (p : P) : t P :=
  {| m_cache_block_info_array := m_cache_block_info_array s; m_blocks := m_blocks s;
     m_associativity := m_associativity s; m_blocksize := m_blocksize s; policy := p |}.

(** Update of the replacement state, common to reads and writes. *)
Definition touch_line (info : CacheSetInfoLRU) (s : t P) (line_index : nat)
    (update_replacement : bool) : result (CacheSetInfoLRU * t P) :=
  if update_replacement then
    let! (info, p) := updateReplacementIndex (m_associativity s) info (policy s) line_index in
    Ok (info, set_policy s p)
  else Ok (info, s).

(** [read_line]: [out] says whether [out_buff] is not NULL; the result is what
    was copied into it, if anything was. *)
Definition read_line (info : CacheSetInfoLRU) (s : t P) (line_index offset : nat) (out : bool)
    (n : nat) (update_replacement : bool) : result (option bytes * (CacheSetInfoLRU * t P)) :=
  let! _ := check (u32 (Z.of_nat (offset + n)) <=? Z.of_nat (m_blocksize s)) AssertFail in
  let! read :=
    match m_blocks s with
    | Some d => if out then let! b := mem_read d (line_index * m_blocksize s + offset) n in Ok (Some b)
                else Ok None
    | None => Ok None
    end in
  let! r := touch_line info s line_index update_replacement in
  Ok (read, r).

Definition write_line (info : CacheSetInfoLRU) (s : t P) (line_index offset : nat)
    (in_buff : option bytes) (n : nat) (update_replacement : bool) :
    result (CacheSetInfoLRU * t P) :=
  let! _ := check (u32 (Z.of_nat (offset + n)) <=? Z.of_nat (m_blocksize s)) AssertFail in
  let! d :=
    match m_blocks s, in_buff with
    | Some d, Some b => let! d := mem_write d (line_index * m_blocksize s + offset) b n in Ok (Some d)
    | d, _ => Ok d
    end in
  touch_line info (set_data s d) line_index update_replacement.

(** [for (index = m_associativity-1; index >= 0; index--)]. *)
Fixpoint find_from (l : blocks) (tag : Z) (n : nat) : result (option nat) :=
  match n with
  | O => Ok None
  | S index =>
      let! b := arr_get l index in
      if CacheBlockInfo.m_tag b =? tag then Ok (Some index) else find_from l tag index
  end.

(** [find]: the line index, which stands for the pointer to the block. *)
Definition find (s : t P) (tag : Z) : result (option nat) :=
  find_from (m_cache_block_info_array s) tag (m_associativity s).

Definition invalidate (s : t P) (tag : Z) : result (bool * t P) :=
  let! found := find_from (m_cache_block_info_array s) tag (m_associativity s) in
  match found with
  | Some index =>
      let! b := arr_get (m_cache_block_info_array s) index in
      let! l := arr_set (m_cache_block_info_array s) index (CacheBlockInfo.invalidate b) in
      Ok (true, set_array s l)
  | None => Ok (false, s)
  end.

(** What [insert] leaves in its output arguments. *)
Record evicted := {
  eviction : bool;
  evict_block_info : CacheBlockInfo.t;
  evict_buff : option bytes;           (* what was copied to [evict_buff] *)
}.

(** [evict_block_info] is the caller's record, overwritten on an eviction. *)
Definition insert (c : cntlr) (info : CacheSetInfoLRU) (s : t P) (cache_block_info : CacheBlockInfo.t)
    (fill_buff : option bytes) (evict_block : CacheBlockInfo.t) (evict_buff : bool) :
    result (evicted * (CacheSetInfoLRU * t P)) :=
  let! (index, (info, p)) :=
    getReplacementIndex c (m_associativity s) (m_cache_block_info_array s) info (policy s) in
  let! _ := check (index <? m_associativity s)%nat AssertFail in
  let! old := arr_get (m_cache_block_info_array s) index in
  let! ev :=
    if CacheBlockInfo.isValid old then
      let! b :=
        match m_blocks s with
        | Some d => if evict_buff then
                      let! b := mem_read d (index * m_blocksize s) (m_blocksize s) in Ok (Some b)
                    else Ok None
        | None => Ok None
        end in
      Ok {| eviction := true; evict_block_info := CacheBlockInfo.clone evict_block old;
            evict_buff := b |}
    else Ok {| eviction := false; evict_block_info := evict_block; evict_buff := None |} in
  let! l := arr_set (m_cache_block_info_array s) index (CacheBlockInfo.clone old cache_block_info) in
  let! d :=
    match m_blocks s, fill_buff with
    | Some d, Some b => let! d := mem_write d (index * m_blocksize s) b (m_blocksize s) in Ok (Some d)
    | d, _ => Ok d
    end in
  Ok (ev, (info, set_data (set_array (set_policy s p) l) d)).

Definition peekBlock (s : t P) (way : nat) : result CacheBlockInfo.t :=
  arr_get (m_cache_block_info_array s) way.
End ops.
End CacheSet.

(** ** [cache.{h,cc}]

    The callbacks of the fault injector are not modelled: [m_fault_injector] is NULL. *)
Module Cache.
Record t (P : Type) := mk {
  base : CacheBase.t;
  m_enabled : bool;
  m_num_accesses : Z;        (* UInt64 *)
  m_num_hits : Z;            (* UInt64 *)
  m_sets : list (CacheSet.t P);
  m_set_info : CacheSetInfoLRU;
}.
Arguments mk {P} _ _ _ _ _ _.
Arguments base {P} _.
Arguments m_enabled {P} _.
Arguments m_num_accesses {P} _.
Arguments m_num_hits {P} _.
Arguments m_sets {P} _.
Arguments m_set_info {P} _.

(** Where a [CacheBlockInfo*] returned by the cache points: set and way. *)
Definition loc : Type := nat * nat.

Section ops.
Context {P : Type} `{Policy P}.

Definition new (num_sets associativity cache_block_size : nat) (hash : CacheBase.hash_t)
    (ahl : option AddressHomeLookup.t) (fault_injection : bool) (info : CacheSetInfoLRU) (p : P) :
    result (t P) :=
  let! base := CacheBase.new (Z.of_nat num_sets) (Z.of_nat associativity)
                             (Z.of_nat cache_block_size) hash ahl in
  Ok {| base := base; m_enabled := false; m_num_accesses := 0; m_num_hits := 0;
        m_sets := replicate num_sets (CacheSet.new fault_injection associativity cache_block_size p);
        m_set_info := info |}.

Definition set_state (c : t P) (set_index : nat) (r : CacheSetInfoLRU * CacheSet.t P) : result (t P) :=
  let! sets := arr_set (m_sets c) set_index (snd r) in
  Ok {| base := base c; m_enabled := m_enabled c; m_num_accesses := m_num_accesses c;
        m_num_hits := m_num_hits c; m_sets := sets; m_set_info := fst r |}.

Definition invalidateSingleLine (c : t P) (addr : Z) : result (bool * t P) :=
  let! (tag, set_index) := CacheBase.splitAddress (base c) addr in
  let! _ := check (set_index <? CacheBase.m_num_sets (base c)) AssertFail in
  let! s := arr_get (m_sets c) (Z.to_nat set_index) in
  let! (r, s) := CacheSet.invalidate s tag in
  let! c := set_state c (Z.to_nat set_index) (m_set_info c, s) in
  Ok (r, c).

(** The result is the location of the block (NULL on a miss) and the bytes read. *)
Definition accessSingleLine (c : t P) (addr : Z) (access_type : CacheBase.access_t)
    (buff : option bytes) (n : nat) (update_replacement : bool) :
    result (option (loc * option bytes) * t P) :=
  let! (tag, set_index, block_offset) := CacheBase.splitAddress_offset (base c) addr in
  let! s := arr_get (m_sets c) (Z.to_nat set_index) in
  let! found := CacheSet.find s tag in
  match found with
  | None => Ok (None, c)
  | Some line_index =>
      match access_type with
      | CacheBase.LOAD =>
          let! (read, r) :=
            CacheSet.read_line (m_set_info c) s line_index (Z.to_nat block_offset)
              (bool_decide (is_Some buff)) n update_replacement in
          let! c := set_state c (Z.to_nat set_index) r in
          Ok (Some ((Z.to_nat set_index, line_index), read), c)
      | CacheBase.STORE =>
          let! r := CacheSet.write_line (m_set_info c) s line_index (Z.to_nat block_offset) buff n
                      update_replacement in
          let! c := set_state c (Z.to_nat set_index) r in
          Ok (Some ((Z.to_nat set_index, line_index), None), c)
      end
  end.

(** Returns the output arguments of [insert] and [*evict_addr]. *)
Definition insertSingleLine (cn : cntlr) (c : t P) (addr : Z) (fill_buff : option bytes)
    (evict_block : CacheBlockInfo.t) (evict_buff : bool) :
    result (CacheSet.evicted * Z * t P) :=
  let! (tag, set_index) := CacheBase.splitAddress (base c) addr in
  let cache_block_info := CacheBlockInfo.set_tag CacheBlockInfo.empty tag in
  let! s := arr_get (m_sets c) (Z.to_nat set_index) in
  let! (ev, r) := CacheSet.insert cn (m_set_info c) s cache_block_info fill_buff evict_block evict_buff in
  let! c := set_state c (Z.to_nat set_index) r in
  Ok (ev, CacheBase.tagToAddress (base c) (CacheBlockInfo.m_tag (CacheSet.evict_block_info ev)), c).

Definition peekSingleLine (c : t P) (addr : Z) : result (option loc) :=
  let! (tag, set_index) := CacheBase.splitAddress (base c) addr in
  let! s := arr_get (m_sets c) (Z.to_nat set_index) in
  let! found := CacheSet.find s tag in
  Ok ((λ way, (Z.to_nat set_index, way)) <$> found).

Definition peekBlock (c : t P) (l : loc) : result CacheBlockInfo.t :=
  let! s := arr_get (m_sets c) (fst l) in CacheSet.peekBlock s (snd l).

(** A write through a [CacheBlockInfo*], such as [setCState]. *)
Definition updateBlock (c : t P) (l : loc) (f : CacheBlockInfo.t → CacheBlockInfo.t) : result (t P) :=
  let! s := arr_get (m_sets c) (fst l) in
  let! b := CacheSet.peekBlock s (snd l) in
  let! a := arr_set (CacheSet.m_cache_block_info_array s) (snd l) (f b) in
  set_state c (fst l) (m_set_info c, CacheSet.set_array s a).

Definition updateCounters (c : t P) (cache_hit : bool) : t P :=
  if m_enabled c then
    {| base := base c; m_enabled := true; m_num_accesses := u64 (m_num_accesses c + 1);
       m_num_hits := if cache_hit then u64 (m_num_hits c + 1) else m_num_hits c;
       m_sets := m_sets c; m_set_info := m_set_info c |}
  else c.

Definition updateHits (c : t P) (hits : Z) : t P :=
  if m_enabled c then
    {| base := base c; m_enabled := true; m_num_accesses := u64 (m_num_accesses c + hits);
       m_num_hits := u64 (m_num_hits c + hits);
       m_sets := m_sets c; m_set_info := m_set_info c |}
  else c.
End ops.
End Cache.

(** * Lemmas *)

(** ** The contents of a set as a finite map *)

Definition tagged (b : CacheBlockInfo.t) : Z * CacheBlockInfo.t := (CacheBlockInfo.m_tag b, b).
Definition valid_pairs (l : blocks) : list (Z * CacheBlockInfo.t) :=
  map tagged (List.filter CacheBlockInfo.isValid l).
Definition contents (l : blocks) : gmap Z CacheBlockInfo.t := list_to_map (valid_pairs l).
Definition unique_tags (l : blocks) : Prop := NoDup (valid_pairs l).*1.

Lemma isValid_tag b : CacheBlockInfo.isValid b = true ↔ CacheBlockInfo.m_tag b ≠ CacheBlockInfo.INVALID_TAG.
Proof. unfold CacheBlockInfo.isValid. destruct (Z.eqb_spec (CacheBlockInfo.m_tag b) CacheBlockInfo.INVALID_TAG); naive_solver. Qed.

Lemma elem_of_valid_pairs l t b :
  (t, b) ∈ valid_pairs l ↔ b ∈ l ∧ CacheBlockInfo.m_tag b = t ∧ t ≠ CacheBlockInfo.INVALID_TAG.
Proof.
  unfold valid_pairs. change (map ?f ?l) with (f <$> l). rewrite list_elem_of_fmap. split.
  - intros (b' & [= -> ->] & Hin). apply In_filter in Hin as [? ?%isValid_tag]. done.
  - intros (Hin & <- & Hv). exists b. split; [done|]. apply In_filter. split; [done|]. by apply isValid_tag.
Qed.

Lemma contents_lookup l t b :
  unique_tags l → contents l !! t = Some b ↔ b ∈ l ∧ CacheBlockInfo.m_tag b = t ∧ t ≠ CacheBlockInfo.INVALID_TAG.
Proof. intros Hu. unfold contents. rewrite <- elem_of_valid_pairs. symmetry. by apply elem_of_list_to_map. Qed.

Lemma contents_invalid l : contents l !! CacheBlockInfo.INVALID_TAG = None.
Proof.
  apply not_elem_of_list_to_map_1. intros Hin. apply list_elem_of_fmap in Hin as ([t b] & E & Hin).
  apply elem_of_valid_pairs in Hin as (_ & _ & Hne). by symmetry in E.
Qed.

Lemma valid_pairs_Permutation l k : l ≡ₚ k → valid_pairs l ≡ₚ valid_pairs k.
Proof.
  intros Hp. unfold valid_pairs. apply Permutation_map.
  induction Hp; cbn; repeat case_match; try (done || by constructor); by etrans.
Qed.

Lemma contents_Permutation l k : l ≡ₚ k → unique_tags l → contents l = contents k ∧ unique_tags k.
Proof.
  intros Hp Hu. pose proof (valid_pairs_Permutation _ _ Hp) as Hv.
  split; [by apply list_to_map_proper|]. unfold unique_tags. by rewrite <- Hv.
Qed.

Lemma insert_Permutation {A} (l : list A) i a b :
  l !! i = Some a → ∃ rest, l ≡ₚ a :: rest ∧ <[i:=b]> l ≡ₚ b :: rest.
Proof.
  intros Hi. exists (take i l ++ drop (S i) l). split.
  - rewrite <- (take_drop_middle l i a) at 1 by done. by rewrite Permutation_middle.
  - rewrite insert_take_drop by (by eapply lookup_lt_Some). by rewrite Permutation_middle.
Qed.

Lemma contents_cons b l :
  contents (b :: l) = if CacheBlockInfo.isValid b then <[CacheBlockInfo.m_tag b := b]> (contents l) else contents l.
Proof. unfold contents, valid_pairs. cbn. by destruct (CacheBlockInfo.isValid b). Qed.

Lemma unique_cons b l :
  unique_tags (b :: l) ↔
  (CacheBlockInfo.isValid b = true → contents l !! CacheBlockInfo.m_tag b = None) ∧ unique_tags l.
Proof.
  unfold unique_tags, contents, valid_pairs. cbn. destruct (CacheBlockInfo.isValid b); cbn; [|naive_solver].
  rewrite NoDup_cons, <- not_elem_of_list_to_map. naive_solver.
Qed.

(** Replacing a block: its tag leaves the map, the tag of the new one enters. *)
Lemma contents_update l i old new :
  l !! i = Some old → unique_tags l →
  (CacheBlockInfo.isValid new = true → delete (CacheBlockInfo.m_tag old) (contents l) !! CacheBlockInfo.m_tag new = None) →
  unique_tags (<[i:=new]> l) ∧
  contents (<[i:=new]> l) =
    (if CacheBlockInfo.isValid new then <[CacheBlockInfo.m_tag new := new]> else id)
      (delete (CacheBlockInfo.m_tag old) (contents l)).
Proof.
  intros Hi Hu Hnew. destruct (insert_Permutation l i old new Hi) as (rest & Hp & Hp').
  destruct (contents_Permutation _ _ Hp Hu) as [E Hu']. apply unique_cons in Hu' as [Hold Hrest].
  assert (delete (CacheBlockInfo.m_tag old) (contents l) = contents rest) as Ed.
  { rewrite E, contents_cons. destruct (CacheBlockInfo.isValid old) eqn:Ev.
    - rewrite delete_insert_eq. rewrite delete_id; auto.
    - apply delete_id. unfold CacheBlockInfo.isValid in Ev. apply negb_false_iff, Z.eqb_eq in Ev.
      rewrite Ev. apply contents_invalid. }
  rewrite Ed in *. assert (unique_tags (new :: rest)) as Hu2 by (by apply unique_cons).
  symmetry in Hp'. destruct (contents_Permutation _ _ Hp' Hu2) as [E2 Hu3]. split; [done|].
  rewrite <- E2, contents_cons. by destruct (CacheBlockInfo.isValid new).
Qed.

(** ** Lookup *)

Lemma find_from_spec l tag n :
  (n ≤ length l)%nat →
  ∃ r, CacheSet.find_from l tag n = Ok r ∧
    match r with
    | Some i => (i < n)%nat ∧ ∃ b, l !! i = Some b ∧ CacheBlockInfo.m_tag b = tag
    | None => ∀ i b, (i < n)%nat → l !! i = Some b → CacheBlockInfo.m_tag b ≠ tag
    end.
Proof.
  induction n as [|n IH]; intros Hn; cbn; [exists None; split; [done|lia]|].
  destruct (arr_get_lt l n) as (b & -> & Hb); [lia|]. cbn [rbind].
  destruct (Z.eqb_spec (CacheBlockInfo.m_tag b) tag) as [E|E].
  - exists (Some n). split; [done|]. split; [lia|eauto].
  - destruct IH as (r & -> & Hr); [lia|]. exists r. split; [done|]. destruct r as [i|].
    + destruct Hr. split; [lia|done].
    + intros i b' Hi Hb'. destruct (decide (i = n)) as [->|]; [congruence|]. apply (Hr i); [lia|done].
Qed.

Section laws.
Context {P : Type} `{HL : PolicyLaws P}.
Import CacheSet.

(** Well-formedness of a set: its arrays have their sizes, valid tags are
    unique, the replacement state satisfies the invariant of the policy. *)
Definition set_wf (info : CacheSetInfoLRU) (s : CacheSet.t P) : Prop :=
  (0 < m_associativity s)%nat ∧ length (m_cache_block_info_array s) = m_associativity s ∧
  unique_tags (m_cache_block_info_array s) ∧
  (∀ d, m_blocks s = Some d → length d = (m_associativity s * m_blocksize s)%nat) ∧
  pol_inv (m_associativity s) (policy s) ∧ pol_info (m_associativity s) info.

Definition set_contents (s : CacheSet.t P) : gmap Z CacheBlockInfo.t :=
  contents (m_cache_block_info_array s).

Lemma find_spec info s tag :
  set_wf info s → tag ≠ CacheBlockInfo.INVALID_TAG →
  ∃ r, find s tag = Ok r ∧
    match r with
    | Some i => (i < m_associativity s)%nat ∧
        ∃ b, m_cache_block_info_array s !! i = Some b ∧ set_contents s !! tag = Some b ∧
             CacheBlockInfo.m_tag b = tag
    | None => set_contents s !! tag = None
    end.
Proof.
  intros (H0 & Hl & Hu & _) Ht.
  destruct (find_from_spec (m_cache_block_info_array s) tag (m_associativity s)) as (r & E & Hr); [lia|].
  exists r. split; [done|]. destruct r as [i|].
  - destruct Hr as (Hi & b & Hb & Etag). split; [done|]. exists b. split; [done|]. split; [|done].
    apply contents_lookup; [done|]. split; [by eapply list_elem_of_lookup_2|done].
  - apply eq_None_not_Some. intros [b Hb]. apply contents_lookup in Hb as (Hin & <- & _); [|done].
    apply list_elem_of_lookup in Hin as [i Hi]. apply (Hr i b); [|done|done].
    rewrite <- Hl. by eapply lookup_lt_Some.
Qed.

Lemma invalidate_spec info s tag :
  set_wf info s → tag ≠ CacheBlockInfo.INVALID_TAG →
  ∃ s', invalidate s tag = Ok (bool_decide (is_Some (set_contents s !! tag)), s') ∧
    set_wf info s' ∧ set_contents s' = delete tag (set_contents s) ∧
    m_associativity s' = m_associativity s ∧ m_blocksize s' = m_blocksize s.
Proof.
  intros Hwf Ht. pose proof Hwf as (H0 & Hl & Hu & Hd & Hp & Hinfo).
  unfold invalidate. destruct (find_spec info s tag Hwf Ht) as (r & E & Hr). unfold find in E. rewrite E.
  cbn [rbind]. destruct r as [i|].
  - destruct Hr as (Hi & b & Hb & Hc & Etag). unfold arr_get. rewrite Hb. cbn [rbind].
    rewrite arr_set_lt by lia. cbn [rbind].
    rewrite bool_decide_true by (rewrite Hc; eauto). eexists. split; [done|].
    destruct (contents_update _ i b (CacheBlockInfo.invalidate b) Hb Hu) as [Hu' Ec].
    { intros Hv. apply isValid_tag in Hv. done. }
    assert (CacheBlockInfo.isValid (CacheBlockInfo.invalidate b) = false) as Ev by done.
    rewrite Ev, Etag in Ec. split; [|done]. unfold set_wf. cbn. rewrite length_insert. done.
  - rewrite bool_decide_false by (rewrite Hr; by intros []). exists s. split; [done|].
    split; [done|]. by rewrite delete_id.
Qed.

Lemma mem_read_ok (d : list Z) from n : (from + n ≤ length d)%nat → mem_read d from n = Ok (take n (drop from d)).
Proof. intros Hn. unfold mem_read. by rewrite (proj2 (Nat.leb_le _ _) Hn). Qed.

Lemma mem_write_ok (d : list Z) to src n :
  (to + n ≤ length d)%nat → (n ≤ length src)%nat →
  mem_write d to src n = Ok (take to d ++ take n src ++ drop (to + n) d).
Proof. intros H1 H2. unfold mem_write. by rewrite (proj2 (Nat.leb_le _ _) H1), (proj2 (Nat.leb_le _ _) H2). Qed.

Lemma mem_write_length (d : list Z) to src n :
  (to + n ≤ length d)%nat → (n ≤ length src)%nat →
  length (take to d ++ take n src ++ drop (to + n) d) = length d.
Proof. intros. rewrite !length_app, !length_take, length_drop. lia. Qed.

(** Insertion of a block whose tag is not in the set. *)
Lemma insert_spec c info s b fill ev0 eb :
  set_wf info s → replaceable (m_cache_block_info_array s) →
  CacheBlockInfo.isValid b = true → set_contents s !! CacheBlockInfo.m_tag b = None →
  (∀ f, fill = Some f → (m_blocksize s ≤ length f)%nat) →
  ∃ ev info' s', insert c info s b fill ev0 eb = Ok (ev, (info', s')) ∧ set_wf info' s' ∧
    m_associativity s' = m_associativity s ∧ m_blocksize s' = m_blocksize s ∧
    if eviction ev then
      let victim := evict_block_info ev in
      set_contents s !! CacheBlockInfo.m_tag victim = Some victim ∧
      set_contents s' = <[CacheBlockInfo.m_tag b := b]> (delete (CacheBlockInfo.m_tag victim) (set_contents s))
    else
      evict_block_info ev = ev0 ∧
      set_contents s' = <[CacheBlockInfo.m_tag b := b]> (set_contents s).
Proof.
  intros Hwf Hr Hv Hb Hf. pose proof Hwf as (H0 & Hl & Hu & Hd & Hp & Hinfo). unfold insert.
  destruct (pol_replace c _ _ info (policy s) H0 Hl Hr Hp Hinfo) as (i & info' & p' & -> & Hi & Hp' & Hinfo').
  cbn [rbind]. rewrite (proj2 (Nat.ltb_lt _ _) Hi). cbn [check rbind].
  destruct (arr_get_lt (m_cache_block_info_array s) i) as (old & -> & Hold); [lia|]. cbn [rbind].
  assert (CacheBlockInfo.clone old b = b) as -> by (by destruct b).
  rewrite arr_set_lt by lia.
  destruct (contents_update _ i old b Hold Hu) as [Hu' Ec].
  { intros _. rewrite lookup_delete_None. by right. }
  rewrite Hv in Ec.
  set (d' := match m_blocks s with
             | Some d => match fill with
                         | Some f => Some (take (i * m_blocksize s) d ++ take (m_blocksize s) f
                                           ++ drop (i * m_blocksize s + m_blocksize s) d)
                         | None => Some d
                         end
             | None => None
             end).
  assert (∀ d, m_blocks s = Some d → (i * m_blocksize s + m_blocksize s ≤ length d)%nat) as Hlen
    by (intros d Ed; rewrite (Hd d Ed); nia).
  set (s' := set_data (set_array (set_policy s p') (<[i:=b]> (m_cache_block_info_array s))) d').
  assert (set_wf info' s') as Hwf'.
  { unfold set_wf, s'. cbn. rewrite length_insert. split_and!; try done.
    intros d. unfold d'. destruct (m_blocks s) as [d0|] eqn:Ed; [|done].
    specialize (Hlen d0 eq_refl). specialize (Hd d0 eq_refl).
    destruct fill as [f|] eqn:Ef; intros [= <-]; [|done]. by rewrite mem_write_length by auto. }
  assert (match m_blocks s, fill with
          | Some d, Some b => let! d := mem_write d (i * m_blocksize s) b (m_blocksize s) in Ok (Some d)
          | d, _ => Ok d
          end = Ok d') as Ew.
  { unfold d'. destruct (m_blocks s) as [d0|] eqn:Ed; [|done]. destruct fill as [f|] eqn:Ef; [|done].
    by rewrite mem_write_ok by auto. }
  destruct (CacheBlockInfo.isValid old) eqn:Ev; cbn [rbind].
  - assert (∃ eb', match m_blocks s with
              | Some d => if eb then let! b := mem_read d (i * m_blocksize s) (m_blocksize s) in Ok (Some b) else Ok None
              | None => Ok None
              end = Ok eb') as [eb' ->].
    { destruct (m_blocks s) as [d0|]; [|eauto]. destruct eb; [|eauto].
      rewrite mem_read_ok by auto. eauto. }
    cbn [rbind]. rewrite Ew. cbn [rbind]. eexists _, info', s'. split; [done|]. cbn [eviction evict_block_info].
    split; [done|]. split; [done|]. split; [done|].
    assert (CacheBlockInfo.clone ev0 old = old) as -> by (by destruct old). split; [|done].
    apply contents_lookup; [done|]. split; [by eapply list_elem_of_lookup_2|]. split; [done|by apply isValid_tag].
  - cbn [rbind]. rewrite Ew. cbn [rbind]. eexists _, info', s'. split; [done|].
    cbn [eviction evict_block_info]. split_and!; [done..|].
    unfold CacheBlockInfo.isValid in Ev. apply negb_false_iff, Z.eqb_eq in Ev.
    rewrite Ev, (delete_id (contents _)) in Ec by apply contents_invalid. done.
Qed.
End laws.

(** ** Whole caches *)

(** The configuration of a cache. *)
Record config := {
  cfg_sets : Z; cfg_assoc : nat; cfg_block : Z; cfg_hash : CacheBase.hash_t;
}.

(** A hash that fits the number of sets, blocks of at least two bytes. *)
Definition config_ok (g : config) : Prop :=
  0 < cfg_sets g < 2 ^ 32 ∧ 1 < cfg_block g < 2 ^ 32 ∧ hash_fits (cfg_hash g) (cfg_sets g) = true ∧
  (0 < cfg_assoc g)%nat.

(** The block number of an address, which is the tag of its block. *)
Definition block_of (g : config) (addr : Z) : Z := Z.shiftr addr (Z.log2 (cfg_block g)).

Lemma block_of_range g addr : config_ok g → in_u64 addr →
  in_u64 (block_of g addr) ∧ block_of g addr ≠ CacheBlockInfo.INVALID_TAG.
Proof.
  intros (_ & Hb & _) Ha. unfold block_of.
  assert (1 ≤ Z.log2 (cfg_block g)) by (apply Z.log2_le_pow2; lia).
  rewrite Z.shiftr_div_pow2 by lia.
  assert (2 ^ 1 ≤ 2 ^ Z.log2 (cfg_block g)) by (apply Z.pow_le_mono_r; lia).
  assert (0 ≤ addr `div` 2 ^ Z.log2 (cfg_block g)) by (apply Z.div_pos; rlia).
  assert (addr `div` 2 ^ Z.log2 (cfg_block g) < 2 ^ 63) by (apply Z.div_lt_upper_bound; ranges; nia).
  split; [rlia|]. unfold CacheBlockInfo.INVALID_TAG. lia.
Qed.

Section cache_laws.
Context {P : Type} `{HL : PolicyLaws P}.
Import Cache.

(** Well-formedness: well-formed sets of the configured size, and each valid block in
    the set its tag is mapped to. *)
Definition cache_wf (g : config) (c : Cache.t P) : Prop :=
  config_ok g ∧
  CacheBase.new (cfg_sets g) (Z.of_nat (cfg_assoc g)) (cfg_block g) (cfg_hash g) None = Ok (base c) ∧
  Z.of_nat (length (m_sets c)) = cfg_sets g ∧
  ∀ i s, m_sets c !! i = Some s →
    set_wf (m_set_info c) s ∧ CacheSet.m_associativity s = cfg_assoc g ∧
    CacheSet.m_blocksize s = Z.to_nat (cfg_block g) ∧
    ∀ t b, set_contents s !! t = Some b → CacheBase.set_index_of (base c) t = Ok (Z.of_nat i).

(** What a lookup of an address finds. *)
Definition cache_lookup (c : Cache.t P) (addr : Z) : result (option CacheBlockInfo.t) :=
  let! l := peekSingleLine c addr in
  match l with
  | Some l => let! b := peekBlock c l in Ok (Some b)
  | None => Ok None
  end.

(** An address of a well-formed cache selects one of its sets. *)
Lemma split_set g c addr :
  cache_wf g c → in_u64 addr →
  ∃ i s, CacheBase.splitAddress (base c) addr = Ok (block_of g addr, Z.of_nat i) ∧
    CacheBase.set_index_of (base c) (block_of g addr) = Ok (Z.of_nat i) ∧
    m_sets c !! i = Some s ∧ (i < length (m_sets c))%nat.
Proof.
  intros ((Hn & Hb & Hh & _) & Hnew & Hlen & _) Ha.
  destruct (splitAddress_total _ _ _ _ _ addr Hnew Hn ltac:(lia) Ha Hh) as (i & E & Ei & _ & Hi).
  destruct (lookup_lt_is_Some_2 (m_sets c) (Z.to_nat i)) as [s Hs]; [lia|].
  exists (Z.to_nat i), s. rewrite Z2Nat.id by lia. split; [done|]. split; [done|]. split; [done|lia].
Qed.

Lemma cache_lookup_spec g c addr i s :
  cache_wf g c → in_u64 addr →
  CacheBase.splitAddress (base c) addr = Ok (block_of g addr, Z.of_nat i) → m_sets c !! i = Some s →
  cache_lookup c addr = Ok (set_contents s !! block_of g addr).
Proof.
  intros (Hg & _ & _ & Hw) Ha E Hs. destruct (Hw i s Hs) as (Hwf & _).
  destruct (block_of_range g addr Hg Ha) as [_ Hne].
  destruct (find_spec (m_set_info c) s (block_of g addr) Hwf Hne) as (r & Er & Hr).
  unfold cache_lookup, peekSingleLine. rewrite E. cbn [rbind]. rewrite Nat2Z.id.
  unfold arr_get at 1. rewrite Hs. cbn [rbind]. rewrite Er. cbn [rbind].
  destruct r as [w|]; cbn.
  - destruct Hr as (_ & b & Hb & Hc & _). unfold peekBlock, arr_get. cbn [fst]. rewrite Hs. cbn [rbind].
    unfold CacheSet.peekBlock, arr_get. cbn [snd]. rewrite Hb. cbn. by rewrite Hc.
  - by rewrite Hr.
Qed.

(** Replacing one set by a well-formed one. *)
Lemma set_state_wf g c i s' info' :
  cache_wf g c → (i < length (m_sets c))%nat →
  set_wf info' s' → CacheSet.m_associativity s' = cfg_assoc g →
  CacheSet.m_blocksize s' = Z.to_nat (cfg_block g) →
  (∀ t b, set_contents s' !! t = Some b → CacheBase.set_index_of (base c) t = Ok (Z.of_nat i)) →
  ∃ c', set_state c i (info', s') = Ok c' ∧ cache_wf g c' ∧ base c' = base c ∧
        m_sets c' = <[i:=s']> (m_sets c).
Proof.
  intros (Hg & Hnew & Hlen & Hw) Hi Hwf Has Hbs Hpl. unfold set_state. cbn [fst snd].
  rewrite arr_set_lt by done. cbn [rbind]. eexists. split; [done|]. cbn. split; [|done].
  split; [done|]. split; [done|]. split; [cbn; by rewrite length_insert|].
  intros j s Hj. cbn in Hj |- *. apply list_lookup_insert_Some in Hj as [(<- & <- & _)|(Hne & Hj)]; [done|].
  destruct (Hw j s Hj) as (Hwf' & Ha' & Hb' & Hp'). split; [|done].
  unfold set_wf in *. destruct Hwf' as (? & ? & ? & ? & ? & _). destruct Hwf as (_ & _ & _ & _ & _ & Hinfo).
  rewrite Has in Hinfo. rewrite Ha' in *. done.
Qed.

(** Two addresses with the same block number go to the same set. *)
Lemma split_same g (c : Cache.t P) a a' i j :
  CacheBase.set_index_of (base c) (block_of g a) = Ok (Z.of_nat i) →
  CacheBase.set_index_of (base c) (block_of g a') = Ok (Z.of_nat j) →
  block_of g a' = block_of g a → j = i.
Proof. intros E1 E2 E. rewrite E, E1 in E2. injection E2. lia. Qed.

(** Insertion seen through lookups: the new block is found at its address, the
    victim no longer is, every other address is unaffected. *)
Lemma insertSingleLine_spec g cn c addr fill ev0 eb :
  cache_wf g c → in_u64 addr →
  (∀ s, s ∈ m_sets c → replaceable (CacheSet.m_cache_block_info_array s)) →
  cache_lookup c addr = Ok None →
  (∀ f, fill = Some f → (Z.to_nat (cfg_block g) ≤ length f)%nat) →
  ∃ ev ea c', insertSingleLine cn c addr fill ev0 eb = Ok (ev, ea, c') ∧ cache_wf g c' ∧
    ea = CacheBase.tagToAddress (base c) (CacheBlockInfo.m_tag (CacheSet.evict_block_info ev)) ∧
    ∀ a, in_u64 a → cache_lookup c' a =
      if block_of g a =? block_of g addr
      then Ok (Some (CacheBlockInfo.set_tag CacheBlockInfo.empty (block_of g addr)))
      else if CacheSet.eviction ev &&
              (block_of g a =? CacheBlockInfo.m_tag (CacheSet.evict_block_info ev))
      then Ok None
      else cache_lookup c a.
Proof.
  intros Hwf Ha Hrep Hmiss Hfill.
  destruct (split_set g c addr Hwf Ha) as (i & s & Es & Ei & Hs & Hi).
  pose proof Hwf as (Hg & Hnew & Hlen & Hw). destruct (Hw i s Hs) as (Hswf & Has & Hbs & Hpl).
  destruct (block_of_range g addr Hg Ha) as [Hu Hne].
  rewrite (cache_lookup_spec g c addr i s Hwf Ha Es Hs) in Hmiss. injection Hmiss as Hmiss.
  set (nb := CacheBlockInfo.set_tag CacheBlockInfo.empty (block_of g addr)).
  destruct (insert_spec cn (m_set_info c) s nb fill ev0 eb Hswf) as (ev & info' & s' & E & Hswf' & Has' & Hbs' & Hc).
  { apply Hrep. by eapply list_elem_of_lookup_2. }
  { by apply isValid_tag. }
  { done. }
  { intros f Hf. rewrite Hbs. by apply Hfill. }
  assert (∀ t, set_contents s' !! t =
      if t =? block_of g addr then Some nb
      else if CacheSet.eviction ev && (t =? CacheBlockInfo.m_tag (CacheSet.evict_block_info ev)) then None
      else set_contents s !! t) as Hlk.
  { intros t. change (CacheBlockInfo.m_tag nb) with (block_of g addr) in Hc.
    destruct (CacheSet.eviction ev); cbn [andb]; destruct Hc as [Hvic ->];
      destruct (Z.eqb_spec t (block_of g addr)) as [->|Hn]; try (by rewrite lookup_insert_eq);
      rewrite lookup_insert_ne by done; [|done].
    destruct (Z.eqb_spec t (CacheBlockInfo.m_tag (CacheSet.evict_block_info ev))) as [->|Hn'].
    - by rewrite lookup_delete_eq.
    - by rewrite lookup_delete_ne. }
  destruct (set_state_wf g c i s' info' Hwf Hi Hswf') as (c' & Ec & Hwf' & Eb & Esets);
    [congruence|congruence| |].
  { intros t b. rewrite Hlk. destruct (Z.eqb_spec t (block_of g addr)) as [->|]; [done|].
    destruct (_ && _); [done|]. apply Hpl. }
  eexists ev, _, c'. unfold insertSingleLine. rewrite Es. cbn [rbind]. rewrite Nat2Z.id.
  unfold arr_get. rewrite Hs. cbn [rbind]. fold nb. rewrite E. cbn [rbind]. rewrite Ec. cbn [rbind].
  split; [done|]. split; [done|]. split; [by rewrite Eb|].
  intros a Ha'. destruct (split_set g c a Hwf Ha') as (j & sj & Esj & Eij & Hsj & Hj).
  rewrite (cache_lookup_spec g c a j sj Hwf Ha' Esj Hsj).
  assert (m_sets c' !! j = Some (if decide (j = i) then s' else sj)) as Hsj'.
  { rewrite Esets. destruct (decide (j = i)) as [->|]; [by rewrite list_lookup_insert_eq|].
    by rewrite list_lookup_insert_ne. }
  rewrite (cache_lookup_spec g c' a j _ Hwf' Ha' ltac:(by rewrite Eb) Hsj').
  destruct (decide (j = i)) as [->|Hji].
  - rewrite Hs in Hsj. injection Hsj as <-. rewrite Hlk. by repeat case_match.
  - destruct (Z.eqb_spec (block_of g a) (block_of g addr)) as [Eq|_].
    { exfalso. apply Hji. by eapply (split_same g c addr a). }
    destruct (CacheSet.eviction ev); cbn [andb]; [|done].
    destruct (Z.eqb_spec (block_of g a) (CacheBlockInfo.m_tag (CacheSet.evict_block_info ev))) as [Eq|_]; [|done].
    exfalso. destruct Hc as [Hvic _]. apply Hpl in Hvic. rewrite <- Eq, Eij in Hvic.
    injection Hvic. intros. apply Hji. lia.
Qed.
End cache_laws.

Section fresh.
Context {P : Type} `{HL : PolicyLaws P}.

Lemma contents_fresh n : valid_pairs (replicate n CacheBlockInfo.empty) = [].
Proof. induction n as [|n IH]; [done|]. unfold valid_pairs in *. cbn in *. done. Qed.

Lemma new_set_wf fi assoc bs (p : P) info :
  (0 < assoc)%nat → pol_inv assoc p → pol_info assoc info → set_wf info (CacheSet.new fi assoc bs p).
Proof.
  intros H0 Hp Hi. unfold set_wf, unique_tags.
  cbn [CacheSet.new CacheSet.m_cache_block_info_array CacheSet.m_associativity CacheSet.m_blocks CacheSet.policy CacheSet.m_blocksize].
  rewrite length_replicate, contents_fresh.
  split_and!; try done; [constructor|]. intros d. destruct fi; intros [= <-]. by rewrite length_replicate.
Qed.

(** A new cache is well-formed and holds nothing. *)
Lemma new_cache_wf ns assoc bs hash fi info (p : P) c :
  config_ok {| cfg_sets := Z.of_nat ns; cfg_assoc := assoc; cfg_block := Z.of_nat bs; cfg_hash := hash |} →
  pol_inv assoc p → pol_info assoc info → Cache.new ns assoc bs hash None fi info p = Ok c →
  cache_wf {| cfg_sets := Z.of_nat ns; cfg_assoc := assoc; cfg_block := Z.of_nat bs; cfg_hash := hash |} c.
Proof.
  intros Hg Hp Hi Hnew. unfold Cache.new in Hnew. apply rbind_ok in Hnew as (b & Hb & [= <-]).
  split; [done|]. split; [done|]. cbn. rewrite length_replicate. split; [done|].
  intros i s Hs. apply lookup_replicate in Hs as [-> _]. destruct Hg as (_ & _ & _ & H0).
  split; [by apply new_set_wf|]. split; [done|]. cbn in *. split; [by rewrite Nat2Z.id|].
  intros t b' Hb'. change (contents (replicate assoc CacheBlockInfo.empty) !! t = Some b') in Hb'.
  unfold contents in Hb'. by rewrite contents_fresh in Hb'.
Qed.
End fresh.

Lemma lru_new_inv assoc : (0 < assoc ≤ 256)%nat → lru_inv assoc (LRU.new assoc 1).
Proof. intros Ha. by eapply lru_inv_intro, lru_new_state. Qed.

Lemma lru_new_info assoc : (0 < assoc ≤ 256)%nat → info_fits assoc 1 (new_info assoc 1).
Proof. intros Ha. by eapply (lru_inv_intro assoc _ _ _ (lru_new_state assoc Ha)). Qed.

(** ** Policies without unbounded search *)

(** No operation of the policy runs out of fuel. *)
Class TotalPolicy (P : Type) `{Policy P} : Prop := {
  replace_fuel : ∀ c n l i (p : P), getReplacementIndex c n l i p ≠ Err NoFuel;
  update_fuel : ∀ n i (p : P) w, updateReplacementIndex n i p w ≠ Err NoFuel;
}.

Section fuel.
Context {P : Type} `{HT : TotalPolicy P}.
Implicit Types (s : CacheSet.t P) (c : Cache.t P).

Lemma find_from_fuel l tag n : CacheSet.find_from l tag n ≠ Err NoFuel.
Proof. induction n as [|n IH]; cbn; no_fuel. Qed.
Lemma mem_read_fuel b from n : mem_read b from n ≠ Err NoFuel.
Proof. unfold mem_read. no_fuel. Qed.
Lemma mem_write_fuel b to src n : mem_write b to src n ≠ Err NoFuel.
Proof. unfold mem_write. no_fuel. Qed.
Hint Resolve find_from_fuel mem_read_fuel mem_write_fuel replace_fuel update_fuel : picl.
Lemma touch_line_fuel i s w b : CacheSet.touch_line i s w b ≠ Err NoFuel.
Proof using HT. unfold CacheSet.touch_line. no_fuel. Qed.
Lemma peekBlock_fuel s w : CacheSet.peekBlock s w ≠ Err NoFuel.
Proof. unfold CacheSet.peekBlock. no_fuel. Qed.
Lemma set_state_fuel c i r : Cache.set_state c i r ≠ Err NoFuel.
Proof. unfold Cache.set_state. no_fuel. Qed.
Hint Resolve touch_line_fuel peekBlock_fuel set_state_fuel : picl.
Lemma read_line_fuel i s w off out n b : CacheSet.read_line i s w off out n b ≠ Err NoFuel.
Proof using HT. unfold CacheSet.read_line. no_fuel. Qed.
Lemma write_line_fuel i s w off d n b : CacheSet.write_line i s w off d n b ≠ Err NoFuel.
Proof using HT. unfold CacheSet.write_line. no_fuel. Qed.
Lemma insert_fuel cn i s b f ev eb : CacheSet.insert cn i s b f ev eb ≠ Err NoFuel.
Proof using HT. unfold CacheSet.insert. no_fuel. Qed.
Hint Resolve read_line_fuel write_line_fuel insert_fuel : picl.
Lemma peekSingleLine_fuel c a : Cache.peekSingleLine c a ≠ Err NoFuel.
Proof. unfold Cache.peekSingleLine, CacheSet.find. no_fuel. Qed.
Lemma updateBlock_fuel c l f : Cache.updateBlock c l f ≠ Err NoFuel.
Proof. unfold Cache.updateBlock. no_fuel. Qed.
Lemma accessSingleLine_fuel c a ty d n b : Cache.accessSingleLine c a ty d n b ≠ Err NoFuel.
Proof using HT. unfold Cache.accessSingleLine, CacheSet.find. no_fuel. Qed.
Lemma insertSingleLine_fuel cn c a f ev eb : Cache.insertSingleLine cn c a f ev eb ≠ Err NoFuel.
Proof using HT. unfold Cache.insertSingleLine. no_fuel. Qed.
End fuel.
#[export] Hint Resolve mem_read_fuel peekSingleLine_fuel updateBlock_fuel accessSingleLine_fuel insertSingleLine_fuel : picl.

Lemma moveToMRU_fuel bits i : moveToMRU bits i ≠ Err NoFuel.
Proof. unfold moveToMRU. no_fuel. Qed.
Lemma increment_fuel i b : increment i b ≠ Err NoFuel.
Proof. unfold increment. no_fuel. Qed.
Lemma incrementAttempt_fuel i b : incrementAttempt i b ≠ Err NoFuel.
Proof. unfold incrementAttempt. no_fuel. Qed.
Lemma isValidReplacement_fuel l i : isValidReplacement l i ≠ Err NoFuel.
Proof. unfold isValidReplacement. no_fuel. Qed.
#[export] Hint Resolve moveToMRU_fuel increment_fuel incrementAttempt_fuel isValidReplacement_fuel : picl.

Lemma lru_scan_fuel l bits ways i m : LRU.lru_scan l bits ways i m ≠ Err NoFuel.
Proof. revert i m. induction ways as [|w ways IH]; intros i m; cbn; no_fuel. Qed.
#[export] Hint Resolve lru_scan_fuel : picl.
Lemma lru_attempts_fuel c n l i p r a : LRU.attempts c n l i p r a ≠ Err NoFuel.
Proof. revert i p a. induction r as [|r IH]; intros i p a; cbn; no_fuel. Qed.
#[export] Hint Resolve lru_attempts_fuel : picl.

#[export] Instance lru_total : TotalPolicy LRU.t.
Proof.
  split; intros; cbn; [unfold LRU.getReplacementIndex | unfold LRU.updateReplacementIndex]; no_fuel.
Qed.

(** * Properties *)

(** A cache set implements a bounded finite map from tags to blocks,
    whatever lawful replacement policy it uses: inserting a block whose tag is absent
    succeeds, keeps the set well-formed, adds exactly that tag, and removes exactly the
    block reported as evicted, or nothing when no eviction is reported. *)
Theorem set_insert_refines {P} `{HL : PolicyLaws P} c info (s : CacheSet.t P) b fill ev0 eb :
  set_wf info s → replaceable (CacheSet.m_cache_block_info_array s) →
  CacheBlockInfo.isValid b = true → set_contents s !! CacheBlockInfo.m_tag b = None →
  (∀ f, fill = Some f → (CacheSet.m_blocksize s ≤ length f)%nat) →
  ∃ ev info' s', CacheSet.insert c info s b fill ev0 eb = Ok (ev, (info', s')) ∧ set_wf info' s' ∧
    if CacheSet.eviction ev then
      let victim := CacheSet.evict_block_info ev in
      set_contents s !! CacheBlockInfo.m_tag victim = Some victim ∧
      set_contents s' = <[CacheBlockInfo.m_tag b := b]> (delete (CacheBlockInfo.m_tag victim) (set_contents s))
    else set_contents s' = <[CacheBlockInfo.m_tag b := b]> (set_contents s).
Proof.
  intros Hwf Hr Hv Hb Hf. destruct (insert_spec c info s b fill ev0 eb Hwf Hr Hv Hb Hf)
    as (ev & info' & s' & E & Hwf' & _ & _ & Hc). exists ev, info', s'. split; [done|]. split; [done|].
  destruct (CacheSet.eviction ev); [done|apply Hc].
Qed.

Lemma set_insert_refines_witness :
  let s := CacheSet.new false 2 64 (LRU.new 2 1) in
  let b := CacheBlockInfo.new 5 CacheState.SHARED 0 in
  ∃ ev info' s', CacheSet.insert None (new_info 2 1) s b None CacheBlockInfo.empty false = Ok (ev, (info', s')) ∧
    set_wf info' s' ∧
    if CacheSet.eviction ev then
      let victim := CacheSet.evict_block_info ev in
      set_contents s !! CacheBlockInfo.m_tag victim = Some victim ∧
      set_contents s' = <[5 := b]> (delete (CacheBlockInfo.m_tag victim) (set_contents s))
    else set_contents s' = <[5 := b]> (set_contents s).
Proof.
  apply (set_insert_refines None (new_info 2 1) (CacheSet.new false 2 64 (LRU.new 2 1))
           (CacheBlockInfo.new 5 CacheState.SHARED 0) None CacheBlockInfo.empty false).
  - apply new_set_wf; [lia|apply lru_new_inv; lia|apply lru_new_info; lia].
  - repeat constructor; discriminate.
  - reflexivity.
  - reflexivity.
  - discriminate.
Defined.

(** Lookup and invalidation of a set refine the map: [find] returns a way
    holding the block of the tag, or NULL exactly when the tag is absent, and
    [invalidate] removes the tag and reports whether it was there. *)
Theorem set_find_invalidate_refine {P} `{HL : PolicyLaws P} info (s : CacheSet.t P) tag :
  set_wf info s → tag ≠ CacheBlockInfo.INVALID_TAG →
  (∃ r, CacheSet.find s tag = Ok r ∧
     (r ≫= λ i, CacheSet.m_cache_block_info_array s !! i) = set_contents s !! tag ∧
     (r = None ↔ set_contents s !! tag = None)) ∧
  (∃ s', CacheSet.invalidate s tag = Ok (bool_decide (is_Some (set_contents s !! tag)), s') ∧
     set_wf info s' ∧ set_contents s' = delete tag (set_contents s)).
Proof.
  intros Hwf Ht. split.
  - destruct (find_spec info s tag Hwf Ht) as (r & E & Hr). exists r. split; [done|].
    destruct r as [i|]; cbn; [|by rewrite Hr].
    destruct Hr as (_ & b & Hb & Hc & _). rewrite Hb, Hc. done.
  - destruct (invalidate_spec info s tag Hwf Ht) as (s' & E & ? & ? & _). by exists s'.
Qed.

Lemma set_find_invalidate_refine_witness :
  let s := CacheSet.new false 2 64 (LRU.new 2 1) in
  (∃ r, CacheSet.find s 5 = Ok r ∧
     (r ≫= λ i, CacheSet.m_cache_block_info_array s !! i) = set_contents s !! 5 ∧
     (r = None ↔ set_contents s !! 5 = None)) ∧
  (∃ s', CacheSet.invalidate s 5 = Ok (bool_decide (is_Some (set_contents s !! 5)), s') ∧
     set_wf (new_info 2 1) s' ∧ set_contents s' = delete 5 (set_contents s)).
Proof.
  apply (set_find_invalidate_refine (new_info 2 1) (CacheSet.new false 2 64 (LRU.new 2 1)) 5).
  - apply new_set_wf; [lia|apply lru_new_inv; lia|apply lru_new_info; lia].
  - discriminate.
Defined.

(** [C35] A line inserted in a cache is found at its address, the address of
    the evicted line is no longer found, and no other address is affected: insertion is an
    update of the partial map from block addresses to lines. *)
Theorem cache_insert_refines {P} `{HL : PolicyLaws P} g cn (c : Cache.t P) addr fill ev0 eb :
  cache_wf g c → in_u64 addr →
  (∀ s, s ∈ Cache.m_sets c → replaceable (CacheSet.m_cache_block_info_array s)) →
  cache_lookup c addr = Ok None →
  (∀ f, fill = Some f → (Z.to_nat (cfg_block g) ≤ length f)%nat) →
  ∃ ev ea c', Cache.insertSingleLine cn c addr fill ev0 eb = Ok (ev, ea, c') ∧ cache_wf g c' ∧
    ∀ a, in_u64 a → cache_lookup c' a =
      if block_of g a =? block_of g addr
      then Ok (Some (CacheBlockInfo.set_tag CacheBlockInfo.empty (block_of g addr)))
      else if CacheSet.eviction ev &&
              (block_of g a =? CacheBlockInfo.m_tag (CacheSet.evict_block_info ev))
      then Ok None
      else cache_lookup c a.
Proof.
  intros Hwf Ha Hr Hm Hf. destruct (insertSingleLine_spec g cn c addr fill ev0 eb Hwf Ha Hr Hm Hf)
    as (ev & ea & c' & ? & ? & _ & ?). by exists ev, ea, c'.
Qed.

Definition example_config : config :=
  {| cfg_sets := Z.of_nat 4; cfg_assoc := 2; cfg_block := Z.of_nat 64; cfg_hash := CacheBase.HASH_MASK |}.

Lemma cache_insert_refines_witness :
  ∃ c, Cache.new 4 2 64 CacheBase.HASH_MASK None false (new_info 2 1) (LRU.new 2 1) = Ok c ∧
  ∃ ev ea c', Cache.insertSingleLine None c 0x1040 None CacheBlockInfo.empty false = Ok (ev, ea, c') ∧
    cache_wf example_config c' ∧
    ∀ a, in_u64 a → cache_lookup c' a =
      if block_of example_config a =? block_of example_config 0x1040
      then Ok (Some (CacheBlockInfo.set_tag CacheBlockInfo.empty (block_of example_config 0x1040)))
      else if CacheSet.eviction ev &&
              (block_of example_config a =? CacheBlockInfo.m_tag (CacheSet.evict_block_info ev))
      then Ok None
      else cache_lookup c a.
Proof.
  eexists. split; [reflexivity|]. apply (cache_insert_refines example_config).
  - eapply new_cache_wf; [|apply (lru_new_inv 2); lia|apply (lru_new_info 2); lia|reflexivity].
    split; [cbn; lia|]. split; [cbn; lia|]. split; [reflexivity|cbn; lia].
  - rlia.
  - intros s Hs. cbn in Hs. repeat (apply elem_of_cons in Hs as [->|Hs]);
      [repeat constructor; discriminate..|by apply elem_of_nil in Hs].
  - reflexivity.
  - discriminate.
Defined.

(** Data written to a line of a set is what a read of the same bytes
    returns, and reads of the bytes of any other line return what they did before. *)
Theorem line_write_read {P} `{HL : PolicyLaws P} info (s : CacheSet.t P) line off buf n d :
  set_wf info s → CacheSet.m_blocks s = Some d → (line < CacheSet.m_associativity s)%nat →
  (off + n ≤ CacheSet.m_blocksize s)%nat → in_u32 (Z.of_nat (CacheSet.m_blocksize s)) → (n ≤ length buf)%nat →
  ∃ info' s', CacheSet.write_line info s line off (Some buf) n true = Ok (info', s') ∧ set_wf info' s' ∧
    (∃ r, CacheSet.read_line info' s' line off true n false = Ok (Some (take n buf), r)) ∧
    (∀ line' off' m, line' ≠ line → (line' < CacheSet.m_associativity s)%nat →
       (off' + m ≤ CacheSet.m_blocksize s)%nat →
       ∃ x r r', CacheSet.read_line info' s' line' off' true m false = Ok (Some x, r') ∧
                 CacheSet.read_line info s line' off' true m false = Ok (Some x, r)).
Proof.
  intros (H0 & Hl & Hu & Hd & Hp & Hinfo) Ed Hline Hoff Hbs Hn. specialize (Hd d Ed).
  unfold CacheSet.write_line. rewrite u32_small by rlia.
  rewrite (proj2 (Z.leb_le (Z.of_nat (off + n)) (Z.of_nat (CacheSet.m_blocksize s)))) by lia.
  cbn [check rbind]. rewrite Ed. assert (line * CacheSet.m_blocksize s + off + n ≤ length d)%nat by (rewrite Hd; nia).
  rewrite mem_write_ok by lia. cbn [rbind]. unfold CacheSet.touch_line. cbn [CacheSet.m_associativity CacheSet.set_data CacheSet.policy].
  destruct (pol_update _ info (CacheSet.policy s) line Hline Hp Hinfo) as (info' & p' & -> & Hp' & Hinfo').
  cbn [rbind]. set (a := (line * CacheSet.m_blocksize s + off)%nat) in *.
  eexists info', _. split; [done|]. split.
  { unfold set_wf. cbn. split_and!; try done. intros ? [= <-]. rewrite mem_write_length; lia. }
  unfold CacheSet.read_line. cbn [CacheSet.m_blocks CacheSet.m_blocksize CacheSet.set_policy CacheSet.set_data].
  rewrite u32_small by rlia.
  rewrite (proj2 (Z.leb_le (Z.of_nat (off + n)) (Z.of_nat (CacheSet.m_blocksize s)))) by lia. cbn [check rbind]. split.
  - rewrite mem_read_ok by (rewrite mem_write_length; lia). cbn [rbind]. eexists. f_equal. f_equal. f_equal.
    rewrite drop_app_ge, length_take by (rewrite length_take; lia).
    replace (line * _ + off - _)%nat with 0%nat by (fold a; lia). rewrite drop_0.
    rewrite take_app_le by (rewrite length_take; lia). by rewrite take_take, Nat.min_id.
  - intros line' off' m Hne Hline' Hm. rewrite u32_small by rlia.
    rewrite (proj2 (Z.leb_le (Z.of_nat (off' + m)) (Z.of_nat (CacheSet.m_blocksize s)))) by lia. cbn [check rbind].
    rewrite Ed. set (a' := (line' * CacheSet.m_blocksize s + off')%nat).
    assert (a' + m ≤ length d)%nat by (rewrite Hd; nia).
    assert (a' + m ≤ a ∨ a + n ≤ a')%nat as Hdisj by (unfold a, a'; nia).
    rewrite !mem_read_ok by (rewrite ?mem_write_length; lia). cbn [rbind].
    unfold CacheSet.touch_line. cbn [rbind].
    eexists _, _, _. split; [reflexivity|]. do 3 f_equal. symmetry.
    apply list_eq. intros k. destruct (decide (k < m)%nat); [|by rewrite !lookup_take_ge by lia].
    rewrite !lookup_take_lt, !lookup_drop by lia. destruct Hdisj.
    + rewrite lookup_app_l by (rewrite length_take; lia). by rewrite lookup_take_lt by lia.
    + rewrite lookup_app_r by (rewrite length_take; lia). rewrite length_take.
      rewrite lookup_app_r by (rewrite length_take; lia). rewrite length_take, lookup_drop.
      f_equal. lia.
Qed.

Lemma line_write_read_witness :
  let s := CacheSet.new true 2 4 (LRU.new 2 1) in
  ∃ info' s', CacheSet.write_line (new_info 2 1) s 1 1 (Some [7; 8]) 2 true = Ok (info', s') ∧ set_wf info' s' ∧
    (∃ r, CacheSet.read_line info' s' 1 1 true 2 false = Ok (Some [7; 8], r)) ∧
    (∀ line' off' m, line' ≠ 1%nat → (line' < 2)%nat → (off' + m ≤ 4)%nat →
       ∃ x r r', CacheSet.read_line info' s' line' off' true m false = Ok (Some x, r') ∧
                 CacheSet.read_line (new_info 2 1) s line' off' true m false = Ok (Some x, r)).
Proof.
  eapply (line_write_read (new_info 2 1) (CacheSet.new true 2 4 (LRU.new 2 1)) 1 1 [7; 8] 2);
    [apply new_set_wf; [lia|apply lru_new_inv; lia|apply lru_new_info; lia]|reflexivity|cbn; lia|cbn; lia|cbn; rlia|cbn; lia].
Defined.
