(* ===== verification/ShmemMsg.v ===== *)
(** The messages of the coherence protocol and the queues of pending requests:
    [performance_model/hit_where.h], [pr_l1_pr_l2_dram_directory_msi/shmem_msg.{h,cc}],
    [shmem_req.{h,cc}] and [cache/req_queue_list_template.h]. *)
From S2P Require Import Prelude Timing BlockInfo CacheModel.

(** ** [hit_where.h] *)
Module HitWhere.
Inductive where_t :=
  | WHERE_FIRST | L1I | L1_OWN | L2_OWN | L3_OWN | L4_OWN | MISS | NUCA_CACHE | DRAM_CACHE
  | DRAM | DRAM_LOCAL | DRAM_REMOTE | CACHE_REMOTE | SIBLING
  | L1_SIBLING | L2_SIBLING | L3_SIBLING | L4_SIBLING
  | UNKNOWN | PREDICATE_FALSE | PREFETCH_NO_MAPPING.

#[global] Instance where_eq_dec : EqDecision where_t.
Proof. solve_decision. Defined.
End HitWhere.

(** ** Pointers to data

    A [Byte*] that is not NULL points to live bytes, or to a buffer that has been deleted. *)
Inductive buffer :=
  | Live (b : bytes)
  | Freed.

#[global] Instance buffer_eq_dec : EqDecision buffer.
Proof. solve_decision. Defined.

(** The first [n] bytes behind a pointer. *)
Definition deref (p : option buffer) (n : nat) : result bytes :=
  match p with
  | None => Err NullPointer
  | Some Freed => Err UseAfterFree
  | Some (Live b) => mem_read b 0 n
  end.

(** ** [shmem_msg.{h,cc}] *)
Module ShmemMsg.
Inductive msg_t :=
  | INVALID_MSG_TYPE
  | EX_REQ | SH_REQ | UPGRADE_REQ | INV_REQ | FLUSH_REQ | WB_REQ
  | EX_REP | SH_REP | UPGRADE_REP | INV_REP | FLUSH_REP | WB_REP | NULLIFY_REQ
  | CP_REP
  | DRAM_READ_REQ | DRAM_WRITE_REQ | DRAM_READ_REP.

#[global] Instance msg_eq_dec : EqDecision msg_t.
Proof. solve_decision. Defined.

(** [m_perf] is a pointer: the key of a [ShmemPerf] in a store. *)
Record t := mk {
  m_msg_type : msg_t;
  m_sender_mem_component : MemComponent.component_t;
  m_receiver_mem_component : MemComponent.component_t;
  m_requester : Z;
  m_where : HitWhere.where_t;
  m_address : Z;
  m_data_buf : option buffer;
  m_data_length : Z;
  m_perf : option Z;
}.

Definition new (msg_type : msg_t) (sender_mem_component receiver_mem_component : MemComponent.component_t)
    (requester address : Z) (data_buf : option buffer) (data_length : Z) (perf : option Z) : t :=
  {| m_msg_type := msg_type; m_sender_mem_component := sender_mem_component;
     m_receiver_mem_component := receiver_mem_component; m_requester := requester;
     m_where := HitWhere.UNKNOWN; m_address := address; m_data_buf := data_buf;
     m_data_length := data_length; m_perf := perf |}.

(** The copy constructor does not initialise [m_where]: [uninit] is what memory held. *)
Definition copy (uninit : HitWhere.where_t) (m : t) : t :=
  {| m_msg_type := m_msg_type m; m_sender_mem_component := m_sender_mem_component m;
     m_receiver_mem_component := m_receiver_mem_component m; m_requester := m_requester m;
     m_where := uninit; m_address := m_address m; m_data_buf := m_data_buf m;
     m_data_length := m_data_length m; m_perf := m_perf m |}.

Definition setDataBuf (m : t) (data_buf : option buffer) : t :=
  {| m_msg_type := m_msg_type m; m_sender_mem_component := m_sender_mem_component m;
     m_receiver_mem_component := m_receiver_mem_component m; m_requester := m_requester m;
     m_where := m_where m; m_address := m_address m; m_data_buf := data_buf;
     m_data_length := m_data_length m; m_perf := m_perf m |}.

Definition setWhere (m : t) (where_ : HitWhere.where_t) : t :=
  {| m_msg_type := m_msg_type m; m_sender_mem_component := m_sender_mem_component m;
     m_receiver_mem_component := m_receiver_mem_component m; m_requester := m_requester m;
     m_where := where_; m_address := m_address m; m_data_buf := m_data_buf m;
     m_data_length := m_data_length m; m_perf := m_perf m |}.

(** [makeMsgBuf]: the image of the object followed by the payload. *)
Definition makeMsgBuf (m : t) : result (t * bytes) :=
  if 0 <? m_data_length m then
    let! _ := check (bool_decide (is_Some (m_data_buf m))) AssertFail in
    let! payload := deref (m_data_buf m) (Z.to_nat (m_data_length m)) in
    Ok (m, payload)
  else Ok (m, []).

(** [getShmemMsg]: the image is copied over the new object, the payload to a new buffer. *)
Definition getShmemMsg (msg_buf : t * bytes) : t :=
  let (m, payload) := msg_buf in
  if 0 <? m_data_length m then setDataBuf m (Some (Live payload)) else m.

(** [sizeof(ShmemMsg)] with 4-byte enumerations and 8-byte pointers. *)
Definition SIZEOF : Z := 56.

Definition getMsgLen (m : t) : Z := u32 (SIZEOF + m_data_length m).

Definition getModeledLength (m : t) : result Z :=
  match m_msg_type m with
  | EX_REQ | SH_REQ | INV_REQ | FLUSH_REQ | WB_REQ | UPGRADE_REP | UPGRADE_REQ | INV_REP
  | DRAM_READ_REQ => Ok (1 + 8)
  | EX_REP | SH_REP | FLUSH_REP | WB_REP | DRAM_WRITE_REQ | DRAM_READ_REP =>
      Ok (u32 (1 + 8 + m_data_length m))
  | INVALID_MSG_TYPE | NULLIFY_REQ | CP_REP => Err LogError
  end.
End ShmemMsg.

(** ** [shmem_req.{h,cc}] *)
Module ShmemReq.
Record t := mk {
  m_shmem_msg : ShmemMsg.t;
  m_time : Z;                  (* SubsecondTime *)
  m_wait_for_data : bool;
  m_forwarding_from : Z;       (* core_id_t *)
}.

Definition new (uninit : HitWhere.where_t) (shmem_msg : ShmemMsg.t) (time : Z) : result t :=
  let! _ := check (bool_decide (ShmemMsg.m_data_buf shmem_msg = None)) AssertFail in
  Ok {| m_shmem_msg := ShmemMsg.copy uninit shmem_msg; m_time := time;
        m_wait_for_data := false; m_forwarding_from := INVALID_CORE_ID |}.

Definition isForwarding (r : t) : bool := negb (m_forwarding_from r =? INVALID_CORE_ID).

Definition updateTime (time : Z) (r : t) : t :=
  if m_time r <? time then
    {| m_shmem_msg := m_shmem_msg r; m_time := time; m_wait_for_data := m_wait_for_data r;
       m_forwarding_from := m_forwarding_from r |}
  else r.

Definition setWaitForData (wait : bool) (r : t) : t :=
  {| m_shmem_msg := m_shmem_msg r; m_time := m_time r; m_wait_for_data := wait;
     m_forwarding_from := m_forwarding_from r |}.

Definition setForwardingFrom (core_id : Z) (r : t) : t :=
  {| m_shmem_msg := m_shmem_msg r; m_time := m_time r; m_wait_for_data := m_wait_for_data r;
     m_forwarding_from := core_id |}.

(** [getShmemMsg()->setDataBuf(data_buf)]. *)
Definition setMsgDataBuf (data_buf : option buffer) (r : t) : t :=
  {| m_shmem_msg := ShmemMsg.setDataBuf (m_shmem_msg r) data_buf; m_time := m_time r;
     m_wait_for_data := m_wait_for_data r; m_forwarding_from := m_forwarding_from r |}.
End ShmemReq.

(** ** [req_queue_list_template.h]: a map from addresses to queues *)
Module ReqQueueList.
Abbreviation t T_Req := (gmap Z (list T_Req)).

Section ops.
Context {T_Req : Type}.

Definition enqueue (q : t T_Req) (address : Z) (shmem_req : T_Req) : t T_Req :=
  match q !! address with
  | None => <[address := [shmem_req]]> q
  | Some l => <[address := l ++ [shmem_req]]> q
  end.

Definition dequeue (q : t T_Req) (address : Z) : result (T_Req * t T_Req) :=
  match q !! address with
  | None => Err AssertFail
  | Some [] => Err OutOfRange
  | Some [shmem_req] => Ok (shmem_req, delete address q)
  | Some (shmem_req :: l) => Ok (shmem_req, <[address := l]> q)
  end.

Definition front (q : t T_Req) (address : Z) : result T_Req :=
  match q !! address with
  | None => Err AssertFail
  | Some [] => Err OutOfRange
  | Some (shmem_req :: _) => Ok shmem_req
  end.

Definition back (q : t T_Req) (address : Z) : result T_Req :=
  match q !! address with
  | None => Err AssertFail
  | Some l => match last l with Some shmem_req => Ok shmem_req | None => Err OutOfRange end
  end.

Definition size (q : t T_Req) (address : Z) : nat :=
  match q !! address with None => 0 | Some l => length l end.

Definition empty (q : t T_Req) (address : Z) : bool :=
  match q !! address with None => true | Some _ => false end.

(** A write through the pointer that [front] returns. *)
Definition update_front (q : t T_Req) (address : Z) (f : T_Req → T_Req) : t T_Req :=
  match q !! address with
  | Some (shmem_req :: l) => <[address := f shmem_req :: l]> q
  | _ => q
  end.
End ops.
End ReqQueueList.

(** * Lemmas *)

Section queue.
Context {T : Type}.
Implicit Types q : ReqQueueList.t T.

(** The requests pending for an address. *)
Definition pending_at q (a : Z) : list T := default [] (q !! a).

(** The code keeps no empty queue in the map. *)
Definition queue_wf q : Prop := map_Forall (λ _ l, l ≠ []) q.

Lemma pending_insert q a l b : pending_at (<[a := l]> q) b = if decide (a = b) then l else pending_at q b.
Proof. unfold pending_at. case_decide; [subst; by rewrite lookup_insert_eq | by rewrite lookup_insert_ne]. Qed.

Lemma pending_delete q a b : pending_at (delete a q) b = if decide (a = b) then [] else pending_at q b.
Proof. unfold pending_at. case_decide; [subst; by rewrite lookup_delete_eq | by rewrite lookup_delete_ne]. Qed.

Lemma enqueue_pending q a r b :
  pending_at (ReqQueueList.enqueue q a r) b =
  if decide (a = b) then pending_at q b ++ [r] else pending_at q b.
Proof.
  unfold ReqQueueList.enqueue. destruct (q !! a) eqn:E; rewrite pending_insert; case_decide; subst; try done;
    unfold pending_at; by rewrite E.
Qed.

Lemma enqueue_wf q a r : queue_wf q → queue_wf (ReqQueueList.enqueue q a r).
Proof.
  intros Hq. unfold ReqQueueList.enqueue. destruct (q !! a); apply map_Forall_insert_2; try done.
  by destruct l.
Qed.

Lemma dequeue_ok q a r q' :
  ReqQueueList.dequeue q a = Ok (r, q') ↔
  ∃ l, q !! a = Some (r :: l) ∧ q' = match l with [] => delete a q | _ => <[a := l]> q end.
Proof. unfold ReqQueueList.dequeue. repeat case_match; naive_solver. Qed.

Lemma dequeue_wf q a r q' : queue_wf q → ReqQueueList.dequeue q a = Ok (r, q') → queue_wf q'.
Proof.
  intros Hq (l & _ & ->)%dequeue_ok. destruct l; [by apply map_Forall_delete | by apply map_Forall_insert_2].
Qed.

Lemma dequeue_pending q a r q' :
  ReqQueueList.dequeue q a = Ok (r, q') →
  pending_at q a = r :: pending_at q' a ∧ ∀ b, b ≠ a → pending_at q' b = pending_at q b.
Proof.
  intros (l & E & ->)%dequeue_ok. split.
  - unfold pending_at at 1. rewrite E. cbn. f_equal. destruct l; [rewrite pending_delete | rewrite pending_insert];
      by rewrite decide_True.
  - intros b Hb. destruct l; [rewrite pending_delete | rewrite pending_insert]; by rewrite decide_False.
Qed.

Lemma dequeue_nonempty q a : queue_wf q → pending_at q a ≠ [] → ∃ r q', ReqQueueList.dequeue q a = Ok (r, q').
Proof.
  unfold pending_at, ReqQueueList.dequeue. intros Hq Hne. destruct (q !! a) as [[|r [|r' l]]|]; try done; eauto.
Qed.

Lemma front_ok q a r : ReqQueueList.front q a = Ok r ↔ ∃ l, q !! a = Some (r :: l).
Proof. unfold ReqQueueList.front. repeat case_match; naive_solver. Qed.

Lemma front_pending q a r : ReqQueueList.front q a = Ok r → ∃ l, pending_at q a = r :: l.
Proof. intros (l & E)%front_ok. exists l. unfold pending_at. by rewrite E. Qed.

Lemma size_pending q a : ReqQueueList.size q a = length (pending_at q a).
Proof. unfold ReqQueueList.size, pending_at. by destruct (q !! a). Qed.

Lemma empty_pending q a : queue_wf q → ReqQueueList.empty q a = true ↔ pending_at q a = [].
Proof.
  intros Hq. unfold ReqQueueList.empty, pending_at. destruct (q !! a) eqn:E; [|done].
  specialize (Hq a _ E). cbn. naive_solver.
Qed.

Lemma update_front_pending q a f b :
  pending_at (ReqQueueList.update_front q a f) b =
  if decide (a = b) then match pending_at q b with [] => [] | r :: l => f r :: l end else pending_at q b.
Proof.
  unfold ReqQueueList.update_front. case_decide.
  - subst. unfold pending_at. destruct (q !! b) as [[|r l]|] eqn:E; rewrite ?E; cbn; try done.
    by rewrite lookup_insert_eq.
  - repeat case_match; try done. rewrite pending_insert. by rewrite decide_False.
Qed.

Lemma update_front_wf q a f : queue_wf q → queue_wf (ReqQueueList.update_front q a f).
Proof. intros Hq. unfold ReqQueueList.update_front. repeat case_match; try done. by apply map_Forall_insert_2. Qed.

(** Every request queued for some address. *)
Definition all_reqs q : list T := concat (map_to_list q).*2.

Lemma all_reqs_split q a : all_reqs q ≡ₚ pending_at q a ++ all_reqs (delete a q).
Proof.
  unfold all_reqs, pending_at. destruct (q !! a) as [l|] eqn:E; cbn.
  - rewrite <- (map_to_list_delete q a l) by done. done.
  - by rewrite delete_id.
Qed.

Lemma all_reqs_insert q a l : all_reqs (<[a := l]> q) ≡ₚ l ++ all_reqs (delete a q).
Proof. rewrite (all_reqs_split _ a), pending_insert, decide_True by done. by rewrite delete_insert_eq. Qed.

Lemma enqueue_all q a r : all_reqs (ReqQueueList.enqueue q a r) ≡ₚ r :: all_reqs q.
Proof.
  rewrite (all_reqs_split q a). unfold ReqQueueList.enqueue, pending_at.
  destruct (q !! a) eqn:E; rewrite all_reqs_insert; cbn; [|done].
  rewrite <- app_assoc. symmetry. apply Permutation_middle.
Qed.

Lemma dequeue_all q a r q' : ReqQueueList.dequeue q a = Ok (r, q') → all_reqs q ≡ₚ r :: all_reqs q'.
Proof.
  intros (l & E & ->)%dequeue_ok. rewrite (all_reqs_split q a). unfold pending_at. rewrite E. cbn.
  destruct l as [|r' l]; [done|]. by rewrite all_reqs_insert.
Qed.

Lemma update_front_all q a f r :
  ReqQueueList.front q a = Ok r →
  ∃ l, all_reqs q ≡ₚ r :: l ∧ all_reqs (ReqQueueList.update_front q a f) ≡ₚ f r :: l.
Proof.
  intros (l & E)%front_ok. exists (l ++ all_reqs (delete a q)). split.
  - rewrite (all_reqs_split q a). unfold pending_at. by rewrite E.
  - unfold ReqQueueList.update_front. rewrite E. by rewrite all_reqs_insert.
Qed.

(** ** The queues as independent FIFOs *)

Inductive queue_op := Enqueue (a : Z) (r : T) | Dequeue (a : Z).

(** The operations on the code's map; the result lists what the dequeues returned. *)
Fixpoint run_queue (ops : list queue_op) q : result (list T * ReqQueueList.t T) :=
  match ops with
  | [] => Ok ([], q)
  | Enqueue a r :: ops => run_queue ops (ReqQueueList.enqueue q a r)
  | Dequeue a :: ops =>
      let! (r, q) := ReqQueueList.dequeue q a in
      let! (out, q) := run_queue ops q in
      Ok (r :: out, q)
  end.

(** The specification: one list per address; dequeuing from an empty one is an error. *)
Fixpoint run_fifo (ops : list queue_op) (s : Z → list T) : option (list T * (Z → list T)) :=
  match ops with
  | [] => Some ([], s)
  | Enqueue a r :: ops => run_fifo ops (λ b, if decide (a = b) then s b ++ [r] else s b)
  | Dequeue a :: ops =>
      match s a with
      | [] => None
      | r :: l => prod_map (cons r) id <$> run_fifo ops (λ b, if decide (a = b) then l else s b)
      end
  end.

Lemma run_queue_refines ops q s :
  queue_wf q → (∀ a, pending_at q a = s a) →
  match run_queue ops q, run_fifo ops s with
  | Ok (out, q'), Some (out', s') => out = out' ∧ queue_wf q' ∧ ∀ a, pending_at q' a = s' a
  | Err e, None => e = AssertFail
  | _, _ => False
  end.
Proof.
  revert q s. induction ops as [|[a r|a] ops IH]; intros q s Hq Hs; cbn.
  - done.
  - apply IH; [by apply enqueue_wf|]. intros b. rewrite enqueue_pending, Hs. done.
  - rewrite <- Hs. destruct (pending_at q a) as [|r l] eqn:E.
    + unfold pending_at, ReqQueueList.dequeue in *. destruct (q !! a) eqn:E'; [|done].
      specialize (Hq a _ E'). cbn in *. by subst.
    + destruct (dequeue_nonempty q a Hq) as (r' & q' & Hd); [by rewrite E|]. rewrite Hd. cbn.
      destruct (dequeue_pending _ _ _ _ Hd) as [Hp Hothers]. rewrite E in Hp. injection Hp as <- ->.
      specialize (IH q' (λ b, if decide (a = b) then pending_at q' a else s b)).
      destruct (run_queue ops q') as [[out q'']|e], (run_fifo ops _) as [[out' s']|]; cbn in *;
        (assert (Hpre : ∀ b, pending_at q' b = (if decide (a = b) then pending_at q' a else s b))
          by (intros b; case_decide; [by subst | rewrite Hothers by done; apply Hs]));
        specialize (IH ltac:(eauto using dequeue_wf) Hpre); naive_solver.
Qed.
End queue.

(** * Properties *)

(** The pending requests are one FIFO per address: any sequence of enqueues and
    dequeues on an empty [ReqQueueList] returns the requests of each address in the order
    in which they were enqueued there, and stops in an assertion exactly when it dequeues
    from an address without requests. *)
Theorem req_queue_fifo (ops : list (@queue_op ShmemReq.t)) :
  match run_queue ops (∅ : ReqQueueList.t ShmemReq.t), run_fifo ops (λ _, []) with
  | Ok (out, q), Some (out', s) => out = out' ∧ ∀ a, ReqQueueList.size q a = length (s a)
  | Err e, None => e = AssertFail
  | _, _ => False
  end.
Proof.
  pose proof (run_queue_refines ops ∅ (λ _, []) (map_Forall_empty _) (λ a, eq_refl)) as H.
  destruct (run_queue ops ∅) as [[out q]|e], (run_fifo ops _) as [[out' s]|]; try done.
  destruct H as (-> & _ & Hs). split; [done|]. intros a. by rewrite size_pending, Hs.
Qed.

(** A message survives the network: what the receiver rebuilds from the bytes has
    the fields of the message that was sent and a payload of its own with the same bytes. *)
Theorem msg_roundtrip m b :
  ShmemMsg.m_data_buf m = (if 0 <? ShmemMsg.m_data_length m then Some (Live b) else None) →
  Z.of_nat (length b) = ShmemMsg.m_data_length m →
  ∃ buf, ShmemMsg.makeMsgBuf m = Ok buf ∧ ShmemMsg.getShmemMsg buf = m.
Proof.
  intros Hb Hl. unfold ShmemMsg.makeMsgBuf. destruct (Z.ltb_spec 0 (ShmemMsg.m_data_length m)) as [Hlt|].
  - rewrite Hb. cbn. unfold mem_read. rewrite drop_0.
    rewrite (proj2 (Nat.leb_le _ _)) by lia. cbn. eexists. split; [done|]. cbn.
    destruct (Z.ltb_spec 0 (ShmemMsg.m_data_length m)); [|lia].
    rewrite firstn_all2 by lia. destruct m; cbn in *. by subst.
  - eexists. split; [done|]. cbn. destruct (Z.ltb_spec 0 (ShmemMsg.m_data_length m)); [lia|done].
Qed.

Lemma msg_roundtrip_witness :
  let m := ShmemMsg.new ShmemMsg.EX_REP MemComponent.TAG_DIR MemComponent.L2_CACHE 1 64 (Some (Live [1; 2])) 2 None in
  ∃ buf, ShmemMsg.makeMsgBuf m = Ok buf ∧ ShmemMsg.getShmemMsg buf = m.
Proof. apply (msg_roundtrip _ [1; 2]); reflexivity. Defined.
