(* ===== verification/Directory.v ===== *)
(** The tag directory: [directory_schemes/*] (entries, sharer sets, the directory)
    and [pr_l1_pr_l2_dram_directory_msi/dram_directory_cache.{h,cc}].

    [DirectoryEntry*] pointers are modelled as pointers: entries live in a store
    that belongs to the directory, so the table of the directory and the list of
    replaced entries can refer to the same object. *)
From S2P Require Import Prelude Utils Timing Replacement.

(** ** [directory_state.h], [coherency_protocol.h] *)
Module DirectoryState.
Inductive dstate_t := UNCACHED | SHARED | OWNED | MODIFIED | EXCLUSIVE.

#[global] Instance dstate_eq_dec : EqDecision dstate_t.
Proof. solve_decision. Defined.
End DirectoryState.

Module CoherencyProtocol.
Inductive type_t := MSI | MESI | MESIF.

#[global] Instance type_eq_dec : EqDecision type_t.
Proof. solve_decision. Defined.
End CoherencyProtocol.

(** ** [directory_entry.h], [directory_entry_limited_no_broadcast.h],
    [directory_entry_limitless.h], [directory_block_info.h] *)
Module DirectoryEntry.

(** The derived class and its fields. *)
Inductive scheme :=
  | LimitedNoBroadcast (m_rand_num : Z)
  | Limitless (m_software_trap_enabled : bool) (m_software_trap_penalty : Z).

Record t := mk {
  m_address : Z;
  m_dstate : DirectoryState.dstate_t;      (* m_directory_block_info *)
  m_owner_id : Z;
  m_forwarder_id : Z;
  m_sharers : list bool;                   (* a bitset or a vector of booleans *)
  m_scheme : scheme;
}.

(** The constructor does not initialise [m_forwarder_id]: [uninit] is what memory held.
    [capacity] is the number of bits of the sharer set. *)
Definition new (uninit : Z) (capacity : nat) (s : scheme) : t :=
  {| m_address := INVALID_ADDRESS; m_dstate := DirectoryState.UNCACHED;
     m_owner_id := INVALID_CORE_ID; m_forwarder_id := uninit;
     m_sharers := replicate capacity false; m_scheme := s |}.

Definition setAddress (a : Z) (e : t) : t :=
  {| m_address := a; m_dstate := m_dstate e; m_owner_id := m_owner_id e;
     m_forwarder_id := m_forwarder_id e; m_sharers := m_sharers e; m_scheme := m_scheme e |}.
Definition setDState (s : DirectoryState.dstate_t) (e : t) : t :=
  {| m_address := m_address e; m_dstate := s; m_owner_id := m_owner_id e;
     m_forwarder_id := m_forwarder_id e; m_sharers := m_sharers e; m_scheme := m_scheme e |}.
Definition setForwarder (f : Z) (e : t) : t :=
  {| m_address := m_address e; m_dstate := m_dstate e; m_owner_id := m_owner_id e;
     m_forwarder_id := f; m_sharers := m_sharers e; m_scheme := m_scheme e |}.
Definition set_sharers (l : list bool) (e : t) : t :=
  {| m_address := m_address e; m_dstate := m_dstate e; m_owner_id := m_owner_id e;
     m_forwarder_id := m_forwarder_id e; m_sharers := l; m_scheme := m_scheme e |}.
Definition set_scheme (s : scheme) (e : t) : t :=
  {| m_address := m_address e; m_dstate := m_dstate e; m_owner_id := m_owner_id e;
     m_forwarder_id := m_forwarder_id e; m_sharers := m_sharers e; m_scheme := s |}.

(** [m_sharers[sharer_id]]. *)
Definition sharer_index (e : t) (sharer_id : Z) : result nat :=
  let! _ := check ((0 <=? sharer_id) && (sharer_id <? Z.of_nat (length (m_sharers e)))) OutOfRange in
  Ok (Z.to_nat sharer_id).

Definition hasSharer (e : t) (sharer_id : Z) : result bool :=
  let! i := sharer_index e sharer_id in arr_get (m_sharers e) i.

(** [m_sharers.count()]. *)
Definition getNumSharers (e : t) : Z := Z.of_nat (length (List.filter (λ b, b) (m_sharers e))).

(** The loop of [getSharersList] from element [j] on. *)
Fixpoint sharers_from (j : Z) (l : list bool) : list Z :=
  match l with
  | [] => []
  | b :: l => if (b : bool) then j :: sharers_from (j + 1) l else sharers_from (j + 1) l
  end.

Definition getSharersList (e : t) : bool * list Z := (false, sharers_from 0 (m_sharers e)).

(** The result says whether the sharer was added. *)
Definition addSharer (e : t) (sharer_id max_hw_sharers : Z) : result (bool * t) :=
  let! i := sharer_index e sharer_id in
  let! present := arr_get (m_sharers e) i in
  let! _ := check (negb present) AssertFail in
  match m_scheme e with
  | LimitedNoBroadcast _ =>
      if max_hw_sharers <=? getNumSharers e then Ok (false, e)
      else let! l := arr_set (m_sharers e) i true in Ok (true, set_sharers l e)
  | Limitless enabled penalty =>
      let e := if Z.of_nat (length (m_sharers e)) =? max_hw_sharers
               then set_scheme (Limitless true penalty) e else e in
      let! l := arr_set (m_sharers e) i true in Ok (true, set_sharers l e)
  end.

(** With the default [reply_expected = false], which every caller uses. *)
Definition removeSharer (e : t) (sharer_id : Z) : result t :=
  let! i := sharer_index e sharer_id in
  let! present := arr_get (m_sharers e) i in
  let! _ := check present AssertFail in
  let! l := arr_set (m_sharers e) i false in
  Ok (set_sharers l e).

Definition setOwner (owner_id : Z) (e : t) : result t :=
  let! _ :=
    if owner_id =? INVALID_CORE_ID then Ok tt
    else let! present := hasSharer e owner_id in check present AssertFail in
  Ok {| m_address := m_address e; m_dstate := m_dstate e; m_owner_id := owner_id;
        m_forwarder_id := m_forwarder_id e; m_sharers := m_sharers e; m_scheme := m_scheme e |}.

(** A sharer, and the entry, whose generator may have moved on. *)
Definition getOneSharer (e : t) : result (Z * t) :=
  match m_scheme e with
  | LimitedNoBroadcast seed =>
      let sharers := snd (getSharersList e) in
      let! _ := check (0 <? Z.of_nat (length sharers)) AssertFail in
      let! (index, seed) := Random.next (Z.of_nat (length sharers)) seed in
      let! sharer := arr_get sharers (Z.to_nat index) in
      Ok (sharer, set_scheme (LimitedNoBroadcast seed) e)
  | Limitless _ _ =>
      match snd (getSharersList e) with
      | [] => Err AssertFail
      | sharer_id :: _ => Ok (sharer_id, e)
      end
  end.

Definition getLatency (e : t) : Z :=
  match m_scheme e with
  | LimitedNoBroadcast _ => SubsecondTime.Zero
  | Limitless enabled penalty => if enabled then penalty else SubsecondTime.Zero
  end.
End DirectoryEntry.

(** ** [directory.{h,cc}] *)
Module Directory.
Inductive DirectoryType := FULL_MAP | LIMITED_NO_BROADCAST | LIMITLESS.

Definition parseDirectoryType (s : string) : result DirectoryType :=
  if bool_decide (s = "full_map"%string) then Ok FULL_MAP
  else if bool_decide (s = "limited_no_broadcast"%string) then Ok LIMITED_NO_BROADCAST
  else if bool_decide (s = "limitless"%string) then Ok LIMITLESS
  else Err LogError.

Record t := mk {
  m_directory_type : DirectoryType;
  m_num_entries : nat;
  m_num_entries_allocated : Z;
  m_max_hw_sharers : Z;
  m_use_max_hw_sharers : Z;
  m_max_num_sharers : Z;
  m_limitless_software_trap_penalty : Z;
  m_directory_entry_list : list (option nat);   (* pointers, NULL until first used *)
  entries : gmap nat DirectoryEntry.t;          (* the entries allocated *)
  next_entry : nat;                             (* where the next one is allocated *)
}.

(** [software_trap_penalty] is the time configured for limitless directories. *)
Definition new (directory_type_str : string) (num_entries : nat) (max_hw_sharers max_num_sharers : Z)
    (software_trap_penalty : Z) : result t :=
  let! type := parseDirectoryType directory_type_str in
  Ok {| m_directory_type := type; m_num_entries := num_entries; m_num_entries_allocated := 0;
        m_max_hw_sharers := max_hw_sharers; m_use_max_hw_sharers := max_hw_sharers;
        m_max_num_sharers := max_num_sharers;
        m_limitless_software_trap_penalty :=
          match type with LIMITLESS => software_trap_penalty | _ => SubsecondTime.Zero end;
        m_directory_entry_list := replicate num_entries None; entries := ∅; next_entry := 0 |}.

Definition set_entries (d : t) (m : gmap nat DirectoryEntry.t) : t :=
  {| m_directory_type := m_directory_type d; m_num_entries := m_num_entries d;
     m_num_entries_allocated := m_num_entries_allocated d; m_max_hw_sharers := m_max_hw_sharers d;
     m_use_max_hw_sharers := m_use_max_hw_sharers d; m_max_num_sharers := m_max_num_sharers d;
     m_limitless_software_trap_penalty := m_limitless_software_trap_penalty d;
     m_directory_entry_list := m_directory_entry_list d; entries := m; next_entry := next_entry d |}.

(** The storage class that [createDirectoryEntry] chooses for the sharers. *)
Definition sharer_capacity (max_num_sharers : Z) : nat :=
  if max_num_sharers <=? 64 then 64
  else if max_num_sharers <=? 128 then 128
  else if max_num_sharers <=? 256 then 256
  else if max_num_sharers <=? 1024 then 1024
  else Z.to_nat max_num_sharers.

(** [createDirectoryEntry] with [createDirectoryEntrySized]: a pointer to a new entry. *)
Definition createDirectoryEntry (uninit : Z) (d : t) : nat * t :=
  let use := match m_directory_type d with FULL_MAP => m_max_num_sharers d | _ => m_use_max_hw_sharers d end in
  let s := match m_directory_type d with
           | FULL_MAP | LIMITED_NO_BROADCAST => DirectoryEntry.LimitedNoBroadcast 1
           | LIMITLESS => DirectoryEntry.Limitless false (m_limitless_software_trap_penalty d)
           end in
  let e := DirectoryEntry.new uninit (sharer_capacity (m_max_num_sharers d)) s in
  (next_entry d,
   {| m_directory_type := m_directory_type d; m_num_entries := m_num_entries d;
      m_num_entries_allocated := m_num_entries_allocated d; m_max_hw_sharers := m_max_hw_sharers d;
      m_use_max_hw_sharers := use; m_max_num_sharers := m_max_num_sharers d;
      m_limitless_software_trap_penalty := m_limitless_software_trap_penalty d;
      m_directory_entry_list := m_directory_entry_list d;
      entries := <[next_entry d := e]> (entries d); next_entry := S (next_entry d) |}).

Definition setDirectoryEntry (d : t) (entry_num : nat) (p : nat) : result t :=
  let! l := arr_set (m_directory_entry_list d) entry_num (Some p) in
  Ok {| m_directory_type := m_directory_type d; m_num_entries := m_num_entries d;
        m_num_entries_allocated := m_num_entries_allocated d; m_max_hw_sharers := m_max_hw_sharers d;
        m_use_max_hw_sharers := m_use_max_hw_sharers d; m_max_num_sharers := m_max_num_sharers d;
        m_limitless_software_trap_penalty := m_limitless_software_trap_penalty d;
        m_directory_entry_list := l; entries := entries d; next_entry := next_entry d |}.

Definition getDirectoryEntry (uninit : Z) (d : t) (entry_num : nat) : result (nat * t) :=
  let! _ := check (entry_num <? m_num_entries d)%nat AssertFail in
  let! slot := arr_get (m_directory_entry_list d) entry_num in
  match slot with
  | Some p => Ok (p, d)
  | None =>
      let (p, d) := createDirectoryEntry uninit d in
      let! d := setDirectoryEntry d entry_num p in
      Ok (p, {| m_directory_type := m_directory_type d; m_num_entries := m_num_entries d;
                m_num_entries_allocated := u64 (m_num_entries_allocated d + 1);
                m_max_hw_sharers := m_max_hw_sharers d;
                m_use_max_hw_sharers := m_use_max_hw_sharers d; m_max_num_sharers := m_max_num_sharers d;
                m_limitless_software_trap_penalty := m_limitless_software_trap_penalty d;
                m_directory_entry_list := m_directory_entry_list d;
                entries := entries d; next_entry := next_entry d |})
  end.

(** Access through a [DirectoryEntry*]. *)
Definition deref (d : t) (p : nat) : result DirectoryEntry.t :=
  match entries d !! p with
  | Some e => Ok e
  | None => Err UseAfterFree
  end.
Definition store (d : t) (p : nat) (e : DirectoryEntry.t) : t := set_entries d (<[p := e]> (entries d)).
(** [delete p]. *)
Definition free (d : t) (p : nat) : t := set_entries d (delete p (entries d)).
End Directory.

(** ** [dram_directory_cache.{h,cc}] *)
Module DramDirectoryCache.
Record t := mk {
  m_directory : Directory.t;
  m_replacement_ptrs : list Z;             (* UInt32, one per set *)
  m_replaced_directory_entry_list : list nat;
  m_associativity : nat;
  m_num_sets : Z;
  m_log_num_sets : Z;
  m_log_cache_block_size : Z;
  m_dram_directory_cache_access_time : ComponentLatency.t;
}.

(** [uninit_ptrs]: the contents of the array [m_replacement_ptrs], which is not initialised. *)
Definition new (uninit_ptrs : list Z) (directory_type_str : string)
    (total_entries associativity cache_block_size max_hw_sharers max_num_sharers : Z)
    (access_time : ComponentLatency.t) (software_trap_penalty : Z) : result t :=
  let! num_sets := udiv total_entries associativity in
  let! d := Directory.new directory_type_str (Z.to_nat total_entries) max_hw_sharers max_num_sharers
              software_trap_penalty in
  Ok {| m_directory := d; m_replacement_ptrs := take (Z.to_nat num_sets) uninit_ptrs;
        m_replaced_directory_entry_list := []; m_associativity := Z.to_nat associativity;
        m_num_sets := num_sets; m_log_num_sets := floorLog2 num_sets;
        m_log_cache_block_size := floorLog2 cache_block_size;
        m_dram_directory_cache_access_time := access_time |}.

Definition set_directory (c : t) (d : Directory.t) : t :=
  {| m_directory := d; m_replacement_ptrs := m_replacement_ptrs c;
     m_replaced_directory_entry_list := m_replaced_directory_entry_list c;
     m_associativity := m_associativity c; m_num_sets := m_num_sets c;
     m_log_num_sets := m_log_num_sets c; m_log_cache_block_size := m_log_cache_block_size c;
     m_dram_directory_cache_access_time := m_dram_directory_cache_access_time c |}.
Definition set_replaced (c : t) (l : list nat) : t :=
  {| m_directory := m_directory c; m_replacement_ptrs := m_replacement_ptrs c;
     m_replaced_directory_entry_list := l;
     m_associativity := m_associativity c; m_num_sets := m_num_sets c;
     m_log_num_sets := m_log_num_sets c; m_log_cache_block_size := m_log_cache_block_size c;
     m_dram_directory_cache_access_time := m_dram_directory_cache_access_time c |}.
Definition set_ptrs (c : t) (l : list Z) : t :=
  {| m_directory := m_directory c; m_replacement_ptrs := l;
     m_replaced_directory_entry_list := m_replaced_directory_entry_list c;
     m_associativity := m_associativity c; m_num_sets := m_num_sets c;
     m_log_num_sets := m_log_num_sets c; m_log_cache_block_size := m_log_cache_block_size c;
     m_dram_directory_cache_access_time := m_dram_directory_cache_access_time c |}.

(** Tag and set index. *)
Definition splitAddress (c : t) (address : Z) : Z * Z :=
  let cache_block_address := Z.shiftr address (m_log_cache_block_size c) in
  (Z.shiftr cache_block_address (m_log_num_sets c),
   Z.land (u32 cache_block_address) (u32 (m_num_sets c - 1))).

Definition getMaxHwSharers (c : t) : Z := Directory.m_use_max_hw_sharers (m_directory c).

(** Way [i] of set [set_index] in the table of the directory. *)
Definition way_index (c : t) (set_index : Z) (i : nat) : nat :=
  Z.to_nat (u32 (set_index * Z.of_nat (m_associativity c) + Z.of_nat i)).

Section uninit.
(** What memory holds where a new entry does not initialise its forwarder. *)
Context (uninit : Z).

(** The loops over the ways of a set: the first of the ways [i], [i + 1], ... ([n] of them)
    whose entry has the given address. *)
Fixpoint find_way (d : Directory.t) (index : nat → nat) (address : Z) (i n : nat) :
    result (option (nat * nat) * Directory.t) :=
  match n with
  | O => Ok (None, d)
  | S n =>
      let! (p, d) := Directory.getDirectoryEntry uninit d (index i) in
      let! e := Directory.deref d p in
      if DirectoryEntry.m_address e =? address then Ok (Some (i, p), d)
      else find_way d index address (S i) n
  end.

(** The search of [m_replaced_directory_entry_list]: the first entry with the address. *)
Fixpoint find_replaced (d : Directory.t) (l : list nat) (address : Z) : result (option nat) :=
  match l with
  | [] => Ok None
  | p :: l =>
      let! e := Directory.deref d p in
      if DirectoryEntry.m_address e =? address then Ok (Some p) else find_replaced d l address
  end.

(** The entry of an address (allocated in a free way if need be), or NULL. *)
Definition getDirectoryEntry (c : t) (m : ShmemPerfModel.t) (address : Z) (modeled : bool) :
    result (option nat * t * ShmemPerfModel.t) :=
  let! m :=
    if modeled then
      ShmemPerfModel.incrElapsedTime m (ComponentLatency.getLatency (m_dram_directory_cache_access_time c))
        ShmemPerfModel.SIM_THREAD
    else Ok m in
  let (_, set_index) := splitAddress c address in
  let! (found, d) := find_way (m_directory c) (way_index c set_index) address 0 (m_associativity c) in
  match found with
  | Some (_, p) =>
      let! e := Directory.deref d p in
      let! m :=
        if modeled then
          ShmemPerfModel.incrElapsedTime m (DirectoryEntry.getLatency e) ShmemPerfModel.SIM_THREAD
        else Ok m in
      Ok (Some p, set_directory c d, m)
  | None =>
      let! (free, d) := find_way d (way_index c set_index) INVALID_ADDRESS 0 (m_associativity c) in
      match free with
      | Some (_, p) =>
          let! e := Directory.deref d p in
          Ok (Some p, set_directory c (Directory.store d p (DirectoryEntry.setAddress address e)), m)
      | None =>
          let! r := find_replaced d (m_replaced_directory_entry_list c) address in
          Ok (r, set_directory c d, m)
      end
  end.

(** The candidate list of [getReplacementCandidates], from way [i] on. *)
Fixpoint candidates (c : t) (d : Directory.t) (set_index ptr : Z) (i n : nat) :
    result (list nat * Directory.t) :=
  match n with
  | O => Ok ([], d)
  | S n =>
      let! way := umod (u32 (Z.of_nat i + ptr)) (Z.of_nat (m_associativity c)) in
      let! (p, d) := Directory.getDirectoryEntry uninit d (way_index c set_index (Z.to_nat way)) in
      let! (l, d) := candidates c d set_index ptr (S i) n in
      Ok (p :: l, d)
  end.

Definition getReplacementCandidates (c : t) (m : ShmemPerfModel.t) (address : Z) :
    result (list nat * t) :=
  let! (found, c, _) := getDirectoryEntry c m address false in
  let! _ := check (bool_decide (found = None)) AssertFail in
  let (_, set_index) := splitAddress c address in
  let! ptr := arr_get (m_replacement_ptrs c) (Z.to_nat set_index) in
  let! (l, d) := candidates c (m_directory c) set_index ptr 0 (m_associativity c) in
  let! ptrs := arr_set (m_replacement_ptrs c) (Z.to_nat set_index) (u32 (ptr + 1)) in
  Ok (l, set_ptrs (set_directory c d) ptrs).

(** The new entry takes the way of the replaced one, which moves to the list. *)
Definition replaceDirectoryEntry (c : t) (m : ShmemPerfModel.t) (replaced_address address : Z)
    (modeled : bool) : result (nat * t * ShmemPerfModel.t) :=
  let! m :=
    if modeled then
      ShmemPerfModel.incrElapsedTime m (ComponentLatency.getLatency (m_dram_directory_cache_access_time c))
        ShmemPerfModel.SIM_THREAD
    else Ok m in
  let (_, set_index) := splitAddress c replaced_address in
  let! (found, d) := find_way (m_directory c) (way_index c set_index) replaced_address 0 (m_associativity c) in
  match found with
  | Some (i, replaced) =>
      let (p, d) := Directory.createDirectoryEntry uninit d in
      let! e := Directory.deref d p in
      let d := Directory.store d p (DirectoryEntry.setAddress address e) in
      let! d := Directory.setDirectoryEntry d (way_index c set_index i) p in
      Ok (p, set_replaced (set_directory c d) (m_replaced_directory_entry_list c ++ [replaced]), m)
  | None => Err LogError
  end.

(** The loop of [invalidateDirectoryEntry]: deletes the first entry with the address. *)
Fixpoint erase_replaced (d : Directory.t) (l : list nat) (address : Z) : result (list nat * Directory.t) :=
  match l with
  | [] => Err LogError
  | p :: l =>
      let! e := Directory.deref d p in
      if DirectoryEntry.m_address e =? address then Ok (l, Directory.free d p)
      else let! (l, d) := erase_replaced d l address in Ok (p :: l, d)
  end.

Definition invalidateDirectoryEntry (c : t) (address : Z) : result t :=
  let! (l, d) := erase_replaced (m_directory c) (m_replaced_directory_entry_list c) address in
  Ok (set_replaced (set_directory c d) l).
End uninit.
End DramDirectoryCache.

(** * Lemmas *)

(** ** Sharer sets *)

Definition sharers (e : DirectoryEntry.t) : list Z := DirectoryEntry.sharers_from 0 (DirectoryEntry.m_sharers e).

Lemma sharers_from_elem k l j :
  j ∈ DirectoryEntry.sharers_from k l ↔ ∃ i, l !! i = Some true ∧ j = k + Z.of_nat i.
Proof.
  revert k. induction l as [|b l IH]; intros k; cbn.
  - split; [by intros ?%elem_of_nil | intros (i & ? & _); by rewrite lookup_nil in *].
  - assert (Hl : j ∈ DirectoryEntry.sharers_from (k + 1) l ↔ ∃ i, (b :: l) !! S i = Some true ∧ j = k + Z.of_nat (S i)).
    { rewrite IH. split; intros (i & ? & ->); exists i; split; try done; lia. }
    destruct b; rewrite ?elem_of_cons, Hl; split.
    + intros [->|(i & ? & ?)]; [exists 0%nat; split; [done|lia] | by exists (S i)].
    + intros ([|i] & ? & ->); [left; lia | right; by exists i].
    + intros (i & ? & ?). by exists (S i).
    + intros ([|i] & ? & ->); [done | by exists i].
Qed.

Lemma sharers_from_ge k l j : j ∈ DirectoryEntry.sharers_from k l → k ≤ j.
Proof. intros (i & _ & ->)%sharers_from_elem. lia. Qed.

Lemma sharers_from_NoDup k l : NoDup (DirectoryEntry.sharers_from k l).
Proof.
  revert k. induction l as [|b l IH]; intros k; cbn; [constructor|].
  destruct b; [|apply IH]. constructor; [|apply IH]. intros ?%sharers_from_ge. lia.
Qed.

Lemma sharers_count k l : length (DirectoryEntry.sharers_from k l) = length (List.filter (λ b : bool, b) l).
Proof. revert k. induction l as [|b l IH]; intros k; cbn; [done|]. destruct b; cbn; by rewrite IH. Qed.

Lemma getNumSharers_length e : DirectoryEntry.getNumSharers e = Z.of_nat (length (sharers e)).
Proof. unfold DirectoryEntry.getNumSharers, sharers. by rewrite sharers_count. Qed.

Lemma sharers_from_clear k l i :
  DirectoryEntry.sharers_from k (<[i := false]> l) =
  List.filter (λ j, negb (j =? k + Z.of_nat i)) (DirectoryEntry.sharers_from k l).
Proof.
  assert (Hid : ∀ m h, (∀ x, x ∈ h → x ≠ m) → List.filter (λ j, negb (j =? m)) h = h).
  { intros m h. induction h as [|x h IH]; [done|]. intros Hx. cbn. destruct (Z.eqb_spec x m) as [->|].
    - destruct (Hx m); [by left|done].
    - cbn. f_equal. apply IH. intros y Hy. apply Hx. by right. }
  revert k i. induction l as [|b l IH]; intros k i; cbn; [done|]. destruct i as [|i]; cbn.
  - assert (Htail := Hid (k + 0) (DirectoryEntry.sharers_from (k + 1) l)).
    destruct b; cbn; [rewrite Z.add_0_r, Z.eqb_refl; cbn; rewrite Z.add_0_r in Htail|];
      symmetry; apply Htail; intros x ?%sharers_from_ge; lia.
  - replace (k + Z.of_nat (S i)) with (k + 1 + Z.of_nat i) by lia.
    destruct b; cbn; rewrite IH; [|done]. destruct (Z.eqb_spec k (k + 1 + Z.of_nat i)); [lia|done].
Qed.

Lemma sharer_index_ok e id i :
  DirectoryEntry.sharer_index e id = Ok i ↔
  id = Z.of_nat i ∧ (i < length (DirectoryEntry.m_sharers e))%nat.
Proof.
  unfold DirectoryEntry.sharer_index. split.
  - intros H. inv_ok. apply andb_true_iff in H0 as [?%Z.leb_le ?%Z.ltb_lt]. lia.
  - intros [-> Hi]. rewrite (proj2 (Z.leb_le _ _)), (proj2 (Z.ltb_lt _ _)) by lia. cbn. by rewrite Nat2Z.id.
Qed.

Lemma hasSharer_ok e id b : DirectoryEntry.hasSharer e id = Ok b → (b = true ↔ id ∈ sharers e).
Proof.
  unfold DirectoryEntry.hasSharer. intros H. inv_ok. apply sharer_index_ok in H0 as [-> _].
  unfold sharers. rewrite sharers_from_elem. split.
  - intros ->. eexists. split; [done|lia].
  - intros (i & Hi & ?). assert (i = x) as -> by lia. congruence.
Qed.

Lemma sharers_set e l : sharers (DirectoryEntry.set_sharers l e) = DirectoryEntry.sharers_from 0 l.
Proof. done. Qed.

Lemma sharers_add l i k x :
  (i < length l)%nat →
  x ∈ DirectoryEntry.sharers_from k (<[i := true]> l) ↔ x = k + Z.of_nat i ∨ x ∈ DirectoryEntry.sharers_from k l.
Proof.
  intros Hi. rewrite !sharers_from_elem. split.
  - intros (j & Hj & ->). destruct (decide (i = j)) as [->|Hne]; [by left|].
    rewrite list_lookup_insert_ne in Hj by done. right. by exists j.
  - intros [->|(j & Hj & ->)]; [exists i; by rewrite list_lookup_insert_eq|].
    exists j. split; [|done]. destruct (decide (i = j)) as [->|Hne]; [by rewrite list_lookup_insert_eq|].
    by rewrite list_lookup_insert_ne.
Qed.

(** The sharers as a finite set. *)
Definition sharer_set (e : DirectoryEntry.t) : gset Z := list_to_set (sharers e).

Lemma sharer_set_size e : Z.of_nat (size (sharer_set e)) = DirectoryEntry.getNumSharers e.
Proof. rewrite getNumSharers_length. unfold sharer_set. rewrite size_list_to_set; [done|]. apply sharers_from_NoDup. Qed.

(** What of an entry does not change when its sharers do. *)
Definition same_head (e e' : DirectoryEntry.t) : Prop :=
  DirectoryEntry.m_address e' = DirectoryEntry.m_address e ∧
  DirectoryEntry.m_dstate e' = DirectoryEntry.m_dstate e ∧
  DirectoryEntry.m_owner_id e' = DirectoryEntry.m_owner_id e.

Lemma addSharer_ok e id m b e' :
  DirectoryEntry.addSharer e id m = Ok (b, e') →
  id ∉ sharers e ∧ same_head e e' ∧
  if b then (∀ x, x ∈ sharers e' ↔ x = id ∨ x ∈ sharers e) else e' = e.
Proof.
  unfold DirectoryEntry.addSharer. intros H. inv_ok.
  pose proof H0 as Hi. apply sharer_index_ok in Hi as [-> Hi].
  assert (Hnin : Z.of_nat x ∉ sharers e).
  { unfold sharers. rewrite sharers_from_elem. intros (j & Hj & ?). assert (j = x) as -> by lia.
    rewrite H1 in Hj. injection Hj as ->. done. }
  split; [done|]. destruct (DirectoryEntry.m_scheme e) eqn:Es.
  - case_match; inv_ok; [by repeat split|]. split; [by repeat split|]. intros y. rewrite sharers_set. by rewrite sharers_add.
  - case_match; inv_ok; cbn in *; (split; [by repeat split|]); intros y; unfold sharers; cbn; by rewrite sharers_add.
Qed.

Lemma removeSharer_ok e id e' :
  DirectoryEntry.removeSharer e id = Ok e' →
  id ∈ sharers e ∧ same_head e e' ∧ sharers e' = List.filter (λ j, negb (j =? id)) (sharers e).
Proof.
  unfold DirectoryEntry.removeSharer. intros H. inv_ok. apply sharer_index_ok in H0 as [-> Hi].
  split; [|split; [by repeat split|]].
  - unfold sharers. apply sharers_from_elem. by exists x.
  - rewrite sharers_set, sharers_from_clear. done.
Qed.

Lemma setOwner_ok o e e' :
  DirectoryEntry.setOwner o e = Ok e' →
  DirectoryEntry.m_sharers e' = DirectoryEntry.m_sharers e ∧
  DirectoryEntry.m_dstate e' = DirectoryEntry.m_dstate e ∧
  DirectoryEntry.m_address e' = DirectoryEntry.m_address e ∧
  DirectoryEntry.m_owner_id e' = o ∧ (o ≠ INVALID_CORE_ID → o ∈ sharers e).
Proof.
  unfold DirectoryEntry.setOwner. intros H. inv_ok. repeat split; try done.
  intros Ho. case_match eqn:E; [by apply Z.eqb_eq in E|]. inv_ok. by eapply hasSharer_ok.
Qed.

Lemma getOneSharer_ok e x e' :
  DirectoryEntry.getOneSharer e = Ok (x, e') →
  x ∈ sharers e ∧ DirectoryEntry.m_sharers e' = DirectoryEntry.m_sharers e ∧ same_head e e'.
Proof.
  unfold DirectoryEntry.getOneSharer. intros H. case_match; inv_ok.
  - split; [|by repeat split]. by eapply list_elem_of_lookup_2.
  - case_match eqn:E; [done|]. inv_ok. split; [|by repeat split]. unfold sharers. cbn in E. rewrite E. by left.
Qed.

Lemma elem_of_sharer_set e x : x ∈ sharer_set e ↔ x ∈ sharers e.
Proof. apply elem_of_list_to_set. Qed.

(** Whether the scheme lets the entry take one more sharer: a limited directory has
    [max_hw_sharers] pointers, a limitless one goes on in software. *)
Definition has_room (e : DirectoryEntry.t) (max_hw_sharers : Z) : Prop :=
  match DirectoryEntry.m_scheme e with
  | DirectoryEntry.LimitedNoBroadcast _ => Z.of_nat (size (sharer_set e)) < max_hw_sharers
  | DirectoryEntry.Limitless _ _ => True
  end.

(** The core is not one of those the entry has a bit for. *)
Definition index_failure (e : DirectoryEntry.t) (id : Z) (f : failure) : Prop :=
  f = OutOfRange ∧ ¬ (0 ≤ id < Z.of_nat (length (DirectoryEntry.m_sharers e))).

Lemma addSharer_room e id m b e' : DirectoryEntry.addSharer e id m = Ok (b, e') → b = true ↔ has_room e m.
Proof.
  unfold DirectoryEntry.addSharer, has_room. intros H. inv_ok. rewrite sharer_set_size.
  case_match; case_match; inv_ok; split; try done; lia.
Qed.

(** The bit of a core: it is out of range, or says whether the core is a member. *)
Lemma sharer_bit e id :
  (DirectoryEntry.sharer_index e id = Err OutOfRange ∧ index_failure e id OutOfRange) ∨
  ∃ i, DirectoryEntry.sharer_index e id = Ok i ∧ (i < length (DirectoryEntry.m_sharers e))%nat ∧
    arr_get (DirectoryEntry.m_sharers e) i = Ok (bool_decide (id ∈ sharer_set e)).
Proof.
  destruct (DirectoryEntry.sharer_index e id) as [i|f] eqn:E.
  - right. exists i. split; [done|]. pose proof E as [-> Hi]%sharer_index_ok. split; [done|].
    destruct (lookup_lt_is_Some_2 _ _ Hi) as [b Hb]. apply arr_get_ok. rewrite Hb. f_equal.
    assert (Hh : DirectoryEntry.hasSharer e (Z.of_nat i) = Ok b)
      by (unfold DirectoryEntry.hasSharer; rewrite E; cbn; by apply arr_get_ok).
    apply hasSharer_ok in Hh. apply Bool.eq_iff_eq_true. by rewrite Hh, bool_decide_eq_true, elem_of_sharer_set.
  - left. unfold DirectoryEntry.sharer_index in E. unfold check in E.
    destruct (_ && _) eqn:Eb in E; [done|]. injection E as <-. split.
    + done.
    + split; [done|]. intros [??]. rewrite (proj2 (Z.leb_le _ _)), (proj2 (Z.ltb_lt _ _)) in Eb by lia. done.
Qed.

Lemma hasSharer_err e id f : DirectoryEntry.hasSharer e id = Err f → index_failure e id f.
Proof.
  unfold DirectoryEntry.hasSharer. destruct (sharer_bit e id) as [[-> ?]|(i & -> & _ & Hg)]; cbn.
  - by intros [= <-].
  - by rewrite Hg.
Qed.

Lemma addSharer_err e id m f :
  DirectoryEntry.addSharer e id m = Err f → index_failure e id f ∨ f = AssertFail ∧ id ∈ sharer_set e.
Proof.
  unfold DirectoryEntry.addSharer. destruct (sharer_bit e id) as [[-> ?]|(i & -> & Hi & Hg)]; cbn.
  - intros [= <-]. by left.
  - rewrite Hg. cbn. case_bool_decide; cbn; [intros [= <-]; by right|].
    assert (Hs : ∀ b, arr_set (DirectoryEntry.m_sharers e) i b = Ok (<[i := b]> (DirectoryEntry.m_sharers e)))
      by (intros b; by apply arr_set_ok).
    case_match; case_match; cbn; by rewrite ?Hs.
Qed.

Lemma removeSharer_err e id f :
  DirectoryEntry.removeSharer e id = Err f → index_failure e id f ∨ f = AssertFail ∧ id ∉ sharer_set e.
Proof.
  unfold DirectoryEntry.removeSharer. destruct (sharer_bit e id) as [[-> ?]|(i & -> & Hi & Hg)]; cbn.
  - intros [= <-]. by left.
  - rewrite Hg. cbn. case_bool_decide; cbn; [|intros [= <-]; by right].
    rewrite (proj2 (arr_set_ok _ _ _ _)) by done. done.
Qed.

Lemma getOneSharer_err e f : DirectoryEntry.getOneSharer e = Err f → f = AssertFail ∧ sharer_set e = ∅.
Proof.
  unfold DirectoryEntry.getOneSharer, sharer_set, sharers. case_match; cbn.
  - destruct (DirectoryEntry.sharers_from 0 (DirectoryEntry.m_sharers e)) as [|x l] eqn:E; cbn; [by intros [= <-]|].
    unfold Random.next, umod. rewrite (proj2 (Z.eqb_neq _ _)) by lia. cbn.
    match goal with |- context [arr_get _ (Z.to_nat ?k)] => destruct (arr_get_lt (x :: l) (Z.to_nat k)) as (y & -> & _) end;
      [|done]. cbn. pose proof (Z.mod_pos_bound (u32 (u32 (m_rand_num * Random.FACTOR) + Random.ADDEND) `div` 65536)
        (Z.pos (Pos.of_succ_nat (length l)))). lia.
  - by destruct (DirectoryEntry.sharers_from 0 (DirectoryEntry.m_sharers e)) eqn:E; [intros [= <-]|].
Qed.

(** ** Coherent entries

    An owned line has its owner as the only sharer; an uncached one has none. *)
Definition coherent (e : DirectoryEntry.t) : Prop :=
  match DirectoryEntry.m_dstate e with
  | DirectoryState.UNCACHED => sharers e = []
  | DirectoryState.SHARED => sharers e ≠ []
  | DirectoryState.MODIFIED | DirectoryState.EXCLUSIVE => sharers e = [DirectoryEntry.m_owner_id e]
  | DirectoryState.OWNED => False
  end.

Lemma coherent_new uninit n sch : coherent (DirectoryEntry.new uninit n sch).
Proof.
  unfold coherent, sharers. cbn. destruct (DirectoryEntry.sharers_from 0 (replicate n false)) as [|x l] eqn:E; [done|].
  assert (Hx : x ∈ DirectoryEntry.sharers_from 0 (replicate n false)) by (rewrite E; by left).
  apply sharers_from_elem in Hx as (i & Hi & _). apply lookup_replicate in Hi as [? _]. done.
Qed.

(** ** The entries of a directory *)

Section dir.
Context (uninit : Z) (P : DirectoryEntry.t → Prop).
Hypothesis P_new : ∀ n sch, P (DirectoryEntry.new uninit n sch).
Hypothesis P_address : ∀ a e, P e → P (DirectoryEntry.setAddress a e).

Definition entries_ok (d : Directory.t) : Prop := map_Forall (λ _, P) (Directory.entries d).
Definition dir_entries (c : DramDirectoryCache.t) : Prop := entries_ok (DramDirectoryCache.m_directory c).

Lemma deref_ok d p e : Directory.deref d p = Ok e ↔ Directory.entries d !! p = Some e.
Proof. unfold Directory.deref. destruct (Directory.entries d !! p); naive_solver. Qed.

Lemma deref_P d p e : entries_ok d → Directory.deref d p = Ok e → P e.
Proof. intros Hd He%deref_ok. exact (Hd p e He). Qed.

Lemma store_ok d p e : entries_ok d → P e → entries_ok (Directory.store d p e).
Proof. intros Hd He. by apply map_Forall_insert_2. Qed.

Lemma free_ok d p : entries_ok d → entries_ok (Directory.free d p).
Proof. intros Hd. by apply map_Forall_delete. Qed.

Lemma create_ok d p d' : entries_ok d → Directory.createDirectoryEntry uninit d = (p, d') → entries_ok d'.
Proof. intros Hd [= <- <-]. apply map_Forall_insert_2; [apply P_new|done]. Qed.

Lemma setDirectoryEntry_ok d n p d' : entries_ok d → Directory.setDirectoryEntry d n p = Ok d' → entries_ok d'.
Proof. unfold Directory.setDirectoryEntry. intros Hd H. by inv_ok. Qed.

Lemma dir_get_ok d n p d' : entries_ok d → Directory.getDirectoryEntry uninit d n = Ok (p, d') → entries_ok d'.
Proof.
  unfold Directory.getDirectoryEntry. intros Hd H. inv_ok. case_match; [by inv_ok|].
  destruct (Directory.createDirectoryEntry uninit d) as [q d1] eqn:Ec. inv_ok.
  match goal with Hs : Directory.setDirectoryEntry _ _ _ = Ok ?x |- _ => change (entries_ok x) end.
  eapply setDirectoryEntry_ok; [eapply create_ok|]; eassumption.
Qed.

Lemma find_way_ok d index a i n r d' :
  entries_ok d → DramDirectoryCache.find_way uninit d index a i n = Ok (r, d') → entries_ok d'.
Proof.
  revert d i. induction n as [|n IH]; intros d i Hd H; cbn in H; inv_ok; [done|].
  match goal with Hg : Directory.getDirectoryEntry _ _ _ = Ok _ |- _ => eapply dir_get_ok in Hg; [|exact Hd] end.
  case_match; inv_ok; [done|]. eapply IH; eassumption.
Qed.

Lemma candidates_ok c d set ptr i n r d' :
  entries_ok d → DramDirectoryCache.candidates uninit c d set ptr i n = Ok (r, d') → entries_ok d'.
Proof.
  revert d i r. induction n as [|n IH]; intros d i r Hd H; cbn in H; inv_ok; [done|].
  match goal with Hg : Directory.getDirectoryEntry _ d _ = Ok _, Hc : DramDirectoryCache.candidates _ _ _ _ _ _ _ = Ok _ |- _ =>
    eapply IH; [eapply dir_get_ok; [exact Hd | exact Hg] | exact Hc] end.
Qed.

Lemma getDirectoryEntry_ok c m a b r c' m' :
  dir_entries c → DramDirectoryCache.getDirectoryEntry uninit c m a b = Ok (r, c', m') → dir_entries c'.
Proof.
  unfold DramDirectoryCache.getDirectoryEntry, dir_entries. intros Hc H. inv_ok.
  match goal with Hf : DramDirectoryCache.find_way _ _ _ _ _ _ = Ok (_, ?d) |- _ => assert (entries_ok d) by (by eapply find_way_ok) end.
  case_match; [case_match; by inv_ok|]. inv_ok.
  match goal with Hf : DramDirectoryCache.find_way _ ?d _ _ _ _ = Ok (_, ?d') |- _ =>
    first [unify d (DramDirectoryCache.m_directory c); fail 1 | assert (entries_ok d') by (by eapply find_way_ok)] end.
  case_match; [case_match|]; inv_ok; [|done]. apply store_ok; [done|]. apply P_address. by eapply deref_P.
Qed.

Lemma replacementCandidates_ok c m a l c' :
  dir_entries c → DramDirectoryCache.getReplacementCandidates uninit c m a = Ok (l, c') → dir_entries c'.
Proof.
  unfold DramDirectoryCache.getReplacementCandidates. intros Hc H. inv_ok.
  match goal with Hg : DramDirectoryCache.getDirectoryEntry _ _ _ _ _ = Ok _ |- _ => eapply getDirectoryEntry_ok in Hg; [|done] end.
  by eapply candidates_ok.
Qed.

Lemma replaceDirectoryEntry_ok c m r a b p c' m' :
  dir_entries c → DramDirectoryCache.replaceDirectoryEntry uninit c m r a b = Ok (p, c', m') → dir_entries c'.
Proof.
  unfold DramDirectoryCache.replaceDirectoryEntry. intros Hc H. inv_ok.
  match goal with Hf : DramDirectoryCache.find_way _ _ _ _ _ _ = Ok (_, ?d) |- _ => assert (entries_ok d) by (by eapply find_way_ok) end.
  destruct o as [[i q]|]; [|done]. destruct (Directory.createDirectoryEntry uninit _) as [q' d1] eqn:Ec. inv_ok.
  assert (entries_ok d1) by (eapply create_ok; eassumption).
  match goal with Hs : Directory.setDirectoryEntry _ _ _ = Ok ?x |- _ => change (entries_ok x) end.
  eapply setDirectoryEntry_ok; [|eassumption]. apply store_ok; [done|]. apply P_address. by eapply deref_P.
Qed.

Lemma erase_ok d l a l' d' :
  entries_ok d → DramDirectoryCache.erase_replaced d l a = Ok (l', d') → entries_ok d'.
Proof.
  revert d l'. induction l as [|p l IH]; intros d l' Hd H; cbn in H; inv_ok.
  case_match; inv_ok; [by apply free_ok|]. eapply IH; eassumption.
Qed.

Lemma invalidateDirectoryEntry_ok c a c' :
  dir_entries c → DramDirectoryCache.invalidateDirectoryEntry c a = Ok c' → dir_entries c'.
Proof. unfold DramDirectoryCache.invalidateDirectoryEntry. intros Hc H. inv_ok. by eapply erase_ok. Qed.
End dir.

(** ** None of this recurses on fuel *)

Lemma incrElapsedTime_fuel m d th : ShmemPerfModel.incrElapsedTime m d th ≠ Err NoFuel.
Proof. unfold ShmemPerfModel.incrElapsedTime. no_fuel. Qed.
Lemma deref_fuel d p : Directory.deref d p ≠ Err NoFuel.
Proof. unfold Directory.deref. no_fuel. Qed.
#[export] Hint Resolve incrElapsedTime_fuel deref_fuel : picl.
Lemma dir_set_fuel d n p : Directory.setDirectoryEntry d n p ≠ Err NoFuel.
Proof. unfold Directory.setDirectoryEntry. no_fuel. Qed.
#[export] Hint Resolve dir_set_fuel : picl.
Lemma dir_get_fuel u d n : Directory.getDirectoryEntry u d n ≠ Err NoFuel.
Proof. unfold Directory.getDirectoryEntry. no_fuel. Qed.
#[export] Hint Resolve dir_get_fuel : picl.
Lemma find_way_fuel u d index a i n : DramDirectoryCache.find_way u d index a i n ≠ Err NoFuel.
Proof. revert d i. induction n as [|n IH]; intros d i; cbn; no_fuel. Qed.
Lemma find_replaced_fuel d l a : DramDirectoryCache.find_replaced d l a ≠ Err NoFuel.
Proof. induction l as [|p l IH]; cbn; no_fuel. Qed.
Lemma candidates_fuel u c d set ptr i n : DramDirectoryCache.candidates u c d set ptr i n ≠ Err NoFuel.
Proof. revert d i. induction n as [|n IH]; intros d i; cbn; no_fuel. Qed.
Lemma erase_fuel d l a : DramDirectoryCache.erase_replaced d l a ≠ Err NoFuel.
Proof. induction l as [|p l IH]; cbn; no_fuel. Qed.
#[export] Hint Resolve find_way_fuel find_replaced_fuel candidates_fuel erase_fuel : picl.
Lemma getEntry_fuel u c m a b : DramDirectoryCache.getDirectoryEntry u c m a b ≠ Err NoFuel.
Proof. unfold DramDirectoryCache.getDirectoryEntry. no_fuel. Qed.
#[export] Hint Resolve getEntry_fuel : picl.
Lemma getCandidates_fuel u c m a : DramDirectoryCache.getReplacementCandidates u c m a ≠ Err NoFuel.
Proof. unfold DramDirectoryCache.getReplacementCandidates. no_fuel. Qed.
Lemma replaceEntry_fuel u c m r a b : DramDirectoryCache.replaceDirectoryEntry u c m r a b ≠ Err NoFuel.
Proof. unfold DramDirectoryCache.replaceDirectoryEntry. no_fuel. Qed.
Lemma invalidateEntry_fuel c a : DramDirectoryCache.invalidateDirectoryEntry c a ≠ Err NoFuel.
Proof. unfold DramDirectoryCache.invalidateDirectoryEntry. no_fuel. Qed.
Lemma sharer_index_fuel e i : DirectoryEntry.sharer_index e i ≠ Err NoFuel.
Proof. unfold DirectoryEntry.sharer_index. no_fuel. Qed.
#[export] Hint Resolve getCandidates_fuel replaceEntry_fuel invalidateEntry_fuel sharer_index_fuel : picl.
Lemma hasSharer_fuel e i : DirectoryEntry.hasSharer e i ≠ Err NoFuel.
Proof. unfold DirectoryEntry.hasSharer. no_fuel. Qed.
#[export] Hint Resolve hasSharer_fuel : picl.
Lemma addSharer_fuel e i m : DirectoryEntry.addSharer e i m ≠ Err NoFuel.
Proof. unfold DirectoryEntry.addSharer. no_fuel. Qed.
Lemma removeSharer_fuel e i : DirectoryEntry.removeSharer e i ≠ Err NoFuel.
Proof. unfold DirectoryEntry.removeSharer. no_fuel. Qed.
Lemma setOwner_fuel o e : DirectoryEntry.setOwner o e ≠ Err NoFuel.
Proof. unfold DirectoryEntry.setOwner. no_fuel. Qed.
Lemma getOneSharer_fuel e : DirectoryEntry.getOneSharer e ≠ Err NoFuel.
Proof. unfold DirectoryEntry.getOneSharer, Random.next. no_fuel. Qed.
#[export] Hint Resolve addSharer_fuel removeSharer_fuel setOwner_fuel getOneSharer_fuel : picl.

(** * Properties *)

(** The sharers of an entry are a finite set of cores, and the operations are those
    of the set on every branch.  [addSharer] inserts a core that is not a member when the
    scheme has room for it, leaves the entry unchanged and answers false when it has not,
    and stops in an assertion for a member; [removeSharer] deletes a member and stops in an
    assertion otherwise; [hasSharer], [getNumSharers] and [getSharersList] are membership,
    size and elements; [getOneSharer] picks a member unless there is none. *)
Theorem sharers_refine_set e id max_hw :
  let S := sharer_set e in
  (match DirectoryEntry.addSharer e id max_hw with
   | Ok (true, e') => id ∉ S ∧ has_room e max_hw ∧ sharer_set e' = {[id]} ∪ S
   | Ok (false, e') => id ∉ S ∧ ¬ has_room e max_hw ∧ e' = e
   | Err f => index_failure e id f ∨ f = AssertFail ∧ id ∈ S
   end) ∧
  (match DirectoryEntry.removeSharer e id with
   | Ok e' => id ∈ S ∧ sharer_set e' = S ∖ {[id]}
   | Err f => index_failure e id f ∨ f = AssertFail ∧ id ∉ S
   end) ∧
  (match DirectoryEntry.hasSharer e id with
   | Ok b => b = bool_decide (id ∈ S)
   | Err f => index_failure e id f
   end) ∧
  (match DirectoryEntry.getOneSharer e with
   | Ok (x, e') => x ∈ S ∧ sharer_set e' = S
   | Err f => f = AssertFail ∧ S = ∅
   end) ∧
  DirectoryEntry.getNumSharers e = Z.of_nat (size S) ∧
  NoDup (snd (DirectoryEntry.getSharersList e)) ∧
  list_to_set (snd (DirectoryEntry.getSharersList e)) = S.
Proof.
  cbv zeta. split_and!.
  - destruct (DirectoryEntry.addSharer e id max_hw) as [[b e']|f] eqn:E; [|by eapply addSharer_err].
    pose proof (addSharer_room _ _ _ _ _ E) as Hr.
    apply addSharer_ok in E as (Hn & _ & Hb). rewrite <- elem_of_sharer_set in Hn. destruct b; split_and!; try done; [by apply Hr| |].
    + apply set_eq. intros x. rewrite elem_of_union, elem_of_singleton, !elem_of_sharer_set. apply Hb.
    + by intros Hroom%Hr.
  - destruct (DirectoryEntry.removeSharer e id) as [e'|f] eqn:E; [|by eapply removeSharer_err].
    apply removeSharer_ok in E as (Hi%elem_of_sharer_set & _ & Hs). split; [done|]. apply set_eq. intros x.
    by rewrite elem_of_difference, elem_of_singleton, !elem_of_sharer_set, Hs, In_filter, negb_true_iff, Z.eqb_neq.
  - destruct (DirectoryEntry.hasSharer e id) as [b|f] eqn:E; [|by eapply hasSharer_err].
    apply hasSharer_ok in E. apply Bool.eq_iff_eq_true. by rewrite E, bool_decide_eq_true, elem_of_sharer_set.
  - destruct (DirectoryEntry.getOneSharer e) as [[x e']|f] eqn:E; [|by apply getOneSharer_err].
    apply getOneSharer_ok in E as (Hx%elem_of_sharer_set & Hs & _). split; [done|].
    unfold sharer_set, sharers. by rewrite Hs.
  - by rewrite sharer_set_size.
  - apply sharers_from_NoDup.
  - done.
Qed.

(** The software trap of a limitless directory does not depend on the number of
    sharers: the code compares the capacity of the sharer set with the number of hardware
    sharers, so with 64 sharer bits and 2 hardware sharers a third sharer costs nothing. *)
Theorem limitless_trap_ignores_sharers :
  let e := DirectoryEntry.new 0 64 (DirectoryEntry.Limitless false 1000) in
  ∃ e1 e2 e3, DirectoryEntry.addSharer e 0 2 = Ok (true, e1) ∧ DirectoryEntry.addSharer e1 1 2 = Ok (true, e2) ∧
    DirectoryEntry.addSharer e2 2 2 = Ok (true, e3) ∧
    DirectoryEntry.getNumSharers e3 = 3 ∧ DirectoryEntry.getLatency e3 = 0.
Proof. do 3 eexists. repeat (split; [vm_compute; reflexivity|]). reflexivity. Qed.
