(* ===== verification/Nuca.v ===== *)
(** The shared NUCA cache slice in front of memory:
    [parametric_dram_directory_msi/nuca_cache.{h,cc}].

    The queue model of its data array is any instance of [QueueModel]. *)
From S2P Require Import Prelude Timing QueueModels BlockInfo AddressMap Replacement CacheModel ShmemMsg.

Module NucaCache.
Record t (P Q : Type) := mk {
  m_core_id : Z;
  m_cache_block_size : nat;
  m_data_access_time : ComponentLatency.t;
  m_tags_access_time : ComponentLatency.t;
  m_processing_time : Z;       (* m_data_array_bandwidth.getRoundedLatency of a block *)
  m_cache : Cache.t P;
  m_queue_model : option Q;
  m_reads : Z;
  m_writes : Z;
  m_read_misses : Z;
  m_write_misses : Z;
}.
Arguments mk {P Q} _ _ _ _ _ _ _ _ _ _ _.
Arguments m_core_id {P Q} _.
Arguments m_cache_block_size {P Q} _.
Arguments m_data_access_time {P Q} _.
Arguments m_tags_access_time {P Q} _.
Arguments m_processing_time {P Q} _.
Arguments m_cache {P Q} _.
Arguments m_queue_model {P Q} _.
Arguments m_reads {P Q} _.
Arguments m_writes {P Q} _.
Arguments m_read_misses {P Q} _.
Arguments m_write_misses {P Q} _.

Section ops.
Context {P : Type} `{Policy P} {Q : Type} `{QueueModel Q}.

Definition new (core_id : Z) (cache_block_size : nat) (data_access_time tags_access_time : ComponentLatency.t)
    (processing_time : Z) (cache : Cache.t P) (queue : option Q) : t P Q :=
  {| m_core_id := core_id; m_cache_block_size := cache_block_size;
     m_data_access_time := data_access_time; m_tags_access_time := tags_access_time;
     m_processing_time := processing_time; m_cache := cache; m_queue_model := queue;
     m_reads := 0; m_writes := 0; m_read_misses := 0; m_write_misses := 0 |}.

Definition set_cache (n : t P Q) (c : Cache.t P) : t P Q :=
  {| m_core_id := m_core_id n; m_cache_block_size := m_cache_block_size n;
     m_data_access_time := m_data_access_time n; m_tags_access_time := m_tags_access_time n;
     m_processing_time := m_processing_time n; m_cache := c; m_queue_model := m_queue_model n;
     m_reads := m_reads n; m_writes := m_writes n; m_read_misses := m_read_misses n;
     m_write_misses := m_write_misses n |}.
Definition set_queue (n : t P Q) (q : option Q) : t P Q :=
  {| m_core_id := m_core_id n; m_cache_block_size := m_cache_block_size n;
     m_data_access_time := m_data_access_time n; m_tags_access_time := m_tags_access_time n;
     m_processing_time := m_processing_time n; m_cache := m_cache n; m_queue_model := q;
     m_reads := m_reads n; m_writes := m_writes n; m_read_misses := m_read_misses n;
     m_write_misses := m_write_misses n |}.
Definition count_read (n : t P Q) (miss : bool) : t P Q :=
  {| m_core_id := m_core_id n; m_cache_block_size := m_cache_block_size n;
     m_data_access_time := m_data_access_time n; m_tags_access_time := m_tags_access_time n;
     m_processing_time := m_processing_time n; m_cache := m_cache n; m_queue_model := m_queue_model n;
     m_reads := u64 (m_reads n + 1); m_writes := m_writes n;
     m_read_misses := if miss then u64 (m_read_misses n + 1) else m_read_misses n;
     m_write_misses := m_write_misses n |}.
Definition count_write (n : t P Q) (miss : bool) : t P Q :=
  {| m_core_id := m_core_id n; m_cache_block_size := m_cache_block_size n;
     m_data_access_time := m_data_access_time n; m_tags_access_time := m_tags_access_time n;
     m_processing_time := m_processing_time n; m_cache := m_cache n; m_queue_model := m_queue_model n;
     m_reads := m_reads n; m_writes := u64 (m_writes n + 1); m_read_misses := m_read_misses n;
     m_write_misses := if miss then u64 (m_write_misses n + 1) else m_write_misses n |}.

Definition accessDataArray (n : t P Q) (t_start : Z) (perf : ShmemPerf.t) :
    result (Z * ShmemPerf.t * t P Q) :=
  let perf := ShmemPerf.updateTime perf t_start ShmemPerf.UNKNOWN in
  let! (queue_delay, perf, n) :=
    match m_queue_model n with
    | Some q =>
        let! (d, q) := computeQueueDelay q t_start (m_processing_time n) (m_core_id n) in
        let queue_delay := SubsecondTime.add (m_processing_time n) d in
        let perf := ShmemPerf.updateTime perf (SubsecondTime.add t_start (m_processing_time n)) ShmemPerf.NUCA_BUS in
        let perf := ShmemPerf.updateTime perf (SubsecondTime.add t_start queue_delay) ShmemPerf.NUCA_QUEUE in
        Ok (queue_delay, perf, set_queue n (Some q))
    | None => Ok (SubsecondTime.Zero, perf, n)
    end in
  let latency := SubsecondTime.add queue_delay (ComponentLatency.getLatency (m_data_access_time n)) in
  let perf := ShmemPerf.updateTime perf (SubsecondTime.add t_start latency) ShmemPerf.NUCA_DATA in
  Ok (latency, perf, n).

(** [read]: the latency, where it hit, and what was copied to [data_buf] (if anything). *)
Definition read (n : t P Q) (address now : Z) (perf : ShmemPerf.t) (count : bool) :
    result (Z * HitWhere.where_t * option bytes * ShmemPerf.t * t P Q) :=
  let perf := ShmemPerf.updateTime perf now ShmemPerf.UNKNOWN in
  let! block_info := Cache.peekSingleLine (m_cache n) address in
  let latency := ComponentLatency.getLatency (m_tags_access_time n) in
  let perf := ShmemPerf.updateTime perf (SubsecondTime.add now latency) ShmemPerf.NUCA_TAGS in
  match block_info with
  | Some _ =>
      let! (hit, c) := Cache.accessSingleLine (m_cache n) address CacheBase.LOAD (Some [])
                         (m_cache_block_size n) true in
      let! (d, perf, n) := accessDataArray (set_cache n c) (SubsecondTime.add now latency) perf in
      Ok (SubsecondTime.add latency d, HitWhere.NUCA_CACHE, hit ≫= snd, perf,
          if count then count_read n false else n)
  | None =>
      Ok (latency, HitWhere.MISS, None, perf, if count then count_read n true else n)
  end.

(** The output arguments of [write]. *)
Record evicted := { eviction : bool; evict_address : Z; evict_buf : option bytes }.

(** [write]; [out] holds what the caller's variables contain before the call.  The times of
    the data array go to [m_dummy_shmem_perf], which nothing reads: the model drops them. *)
Definition write (n : t P Q) (address : Z) (data_buf : option bytes) (out : evicted) (now : Z) (count : bool) :
    result (Z * HitWhere.where_t * evicted * t P Q) :=
  let! block_info := Cache.peekSingleLine (m_cache n) address in
  let latency := ComponentLatency.getLatency (m_tags_access_time n) in
  match block_info with
  | Some l =>
      let! c := Cache.updateBlock (m_cache n) l (λ b, CacheBlockInfo.set_cstate b CacheState.MODIFIED) in
      let! (_, c) := Cache.accessSingleLine c address CacheBase.STORE data_buf (m_cache_block_size n) true in
      let! (d, _, n) := accessDataArray (set_cache n c) (SubsecondTime.add now latency) ShmemPerf.new in
      Ok (SubsecondTime.add latency d, HitWhere.NUCA_CACHE, out, if count then count_write n false else n)
  | None =>
      let! (ev, ea, c) := Cache.insertSingleLine None (m_cache n) address data_buf CacheBlockInfo.empty true in
      let dirty := bool_decide (CacheBlockInfo.m_cstate (CacheSet.evict_block_info ev) = CacheState.MODIFIED) in
      let n := set_cache n c in
      Ok (latency, HitWhere.MISS,
          {| eviction := CacheSet.eviction ev && dirty; evict_address := ea; evict_buf := CacheSet.evict_buff ev |},
          if count then count_write n true else n)
  end.
End ops.
End NucaCache.

(** * Lemmas *)

(** A queue model that does not run out of fuel. *)
Class TotalQueue (Q : Type) `{QueueModel Q} : Prop :=
  queue_fuel : ∀ (q : Q) t d r, computeQueueDelay q t d r ≠ Err NoFuel.

Section fuel.
Context {P : Type} `{HT : TotalPolicy P} {Q : Type} `{HQ : TotalQueue Q}.

Lemma accessDataArray_fuel (n : NucaCache.t P Q) t p : NucaCache.accessDataArray n t p ≠ Err NoFuel.
Proof using HQ. unfold NucaCache.accessDataArray. no_fuel. Qed.
Hint Resolve accessDataArray_fuel : picl.
Lemma nuca_read_fuel (n : NucaCache.t P Q) a t p c : NucaCache.read n a t p c ≠ Err NoFuel.
Proof using HT HQ. unfold NucaCache.read. no_fuel. Qed.
Lemma nuca_write_fuel (n : NucaCache.t P Q) a d o t c : NucaCache.write n a d o t c ≠ Err NoFuel.
Proof using HT HQ. unfold NucaCache.write. no_fuel. Qed.
End fuel.

(** * Properties *)

Definition no_queue : QueueModel unit := λ q _ _ _, Ok (0, q).
#[local] Existing Instance no_queue.

(** A slice with one set of one way and 64-byte lines, with its data array. *)
Definition example_nuca : result (NucaCache.t LRU.t unit) :=
  let! c := Cache.new 1 1 64 CacheBase.HASH_MASK None true (new_info 1 1) (LRU.new 1 1) in
  Ok (NucaCache.new 0 64 (ComponentLatency.mk 1 4) (ComponentLatency.mk 1 2) 8 c None).

(** Dirty data written to the NUCA cache on a miss is lost: the line is inserted
    without a state, so when it is evicted it does not count as dirty and the caller is
    told not to write it back.  Here a modified line is written to an empty slice, then a
    second line takes its place: no eviction is reported and the first line is gone. *)
Theorem nuca_write_miss_loses_data :
  ∃ n0 l1 o1 n1 l2 o2 n2,
    example_nuca = Ok n0 ∧
    NucaCache.write n0 0 (Some (replicate 64 7)) {| NucaCache.eviction := false; NucaCache.evict_address := 0; NucaCache.evict_buf := None |} 0 true =
      Ok (l1, HitWhere.MISS, o1, n1) ∧ NucaCache.eviction o1 = false ∧
    NucaCache.write n1 64 (Some (replicate 64 8)) o1 0 true = Ok (l2, HitWhere.MISS, o2, n2) ∧
    NucaCache.eviction o2 = false ∧ NucaCache.evict_buf o2 = Some (replicate 64 7) ∧
    Cache.peekSingleLine (NucaCache.m_cache n2) 0 = Ok None.
Proof. do 7 eexists. repeat (split; [vm_compute; reflexivity|]). vm_compute; reflexivity. Qed.
