(* ===== verification/DirCntlr.v ===== *)
(** The directory controller of the coherence protocol:
    [pr_l1_pr_l2_dram_directory_msi/dram_directory_cntlr.{h,cc}], with the two
    functions of [parametric_dram_directory_msi/memory_manager.cc] through which it
    sends messages and the part of [handleMsgFromNetwork] that calls it. *)
From S2P Require Import Prelude Timing QueueModels BlockInfo AddressMap Replacement CacheModel ShmemMsg Directory Nuca.

Module DirCntlr.

(** ** State *)

(** A network packet that carries a message. *)
Record packet := mk_packet {
  p_time : Z;
  p_sender : Z;
  p_receiver : Z;
  p_data : ShmemMsg.t * bytes;
}.

(** [NetPacket::BROADCAST]. *)
Definition BROADCAST : Z := s32 0xDEADBABE.

(** What does not change, and what uninitialised memory holds. *)
Record config := mk_config {
  m_core_id : Z;
  m_core_id_master : Z;                       (* of the memory manager *)
  m_cache_block_size : Z;
  m_protocol : CoherencyProtocol.type_t;
  m_dram_controller_home_lookup : AddressHomeLookup.t;
  m_dummy_shmem_perf : Z;                     (* the address of that member *)
  uninit_forwarder : Z;
  uninit_where : HitWhere.where_t;
  uninit_evicted : NucaCache.evicted;
  uninit_buf : bytes;
}.

Record t (P Q : Type) := mk {
  m_dram_directory_cache : DramDirectoryCache.t;
  m_dram_directory_req_queue_list : ReqQueueList.t ShmemReq.t;
  m_nuca_cache : option (NucaCache.t P Q);
  m_shmem_perf_model : ShmemPerfModel.t;
  perfs : Z → ShmemPerf.t;                    (* the ShmemPerf objects, by address *)
  evict : DirectoryState.dstate_t → Z;
  forward : Z;
  forward_failed : Z;
  sent : list packet;                         (* the packets given to the network *)
}.
Arguments mk {P Q} _ _ _ _ _ _ _ _ _.
Arguments m_dram_directory_cache {P Q} _.
Arguments m_dram_directory_req_queue_list {P Q} _.
Arguments m_nuca_cache {P Q} _.
Arguments m_shmem_perf_model {P Q} _.
Arguments perfs {P Q} _ _.
Arguments evict {P Q} _ _.
Arguments forward {P Q} _.
Arguments forward_failed {P Q} _.
Arguments sent {P Q} _.

(** [caching_protocol/variant], read by the constructor. *)
Definition parseProtocol (protocol : string) : result CoherencyProtocol.type_t :=
  if bool_decide (protocol = "msi"%string) then Ok CoherencyProtocol.MSI
  else if bool_decide (protocol = "mesi"%string) then Ok CoherencyProtocol.MESI
  else if bool_decide (protocol = "mesif"%string) then Ok CoherencyProtocol.MESIF
  else Err LogError.

(** The constructor, with the clocks and the [ShmemPerf] objects of the simulation; [evict]
    of the state [UNCACHED] is the one counter that it leaves as memory held it. *)
Definition new {P Q} (nuca : option (NucaCache.t P Q)) (uninit_ptrs : list Z) (uninit_evict : Z)
    (total_entries associativity cache_block_size max_num_sharers max_hw_sharers : Z)
    (type_str : string) (access_time : ComponentLatency.t) (software_trap_penalty : Z)
    (clock : ShmemPerfModel.t) (perf_objects : Z → ShmemPerf.t) : result (t P Q) :=
  let! c := DramDirectoryCache.new uninit_ptrs type_str total_entries associativity cache_block_size
              max_hw_sharers max_num_sharers access_time software_trap_penalty in
  Ok (mk c ∅ nuca clock perf_objects
         (λ d, match d with DirectoryState.UNCACHED => uninit_evict | _ => 0 end) 0 0 []).

Section cntlr.
Context {P : Type} `{Policy P} {Q : Type} `{QueueModel Q} (cfg : config).
Implicit Types s : t P Q.

Definition set_dir s (c : DramDirectoryCache.t) : t P Q :=
  mk c (m_dram_directory_req_queue_list s) (m_nuca_cache s) (m_shmem_perf_model s) (perfs s)
     (evict s) (forward s) (forward_failed s) (sent s).
Definition set_queue s (q : ReqQueueList.t ShmemReq.t) : t P Q :=
  mk (m_dram_directory_cache s) q (m_nuca_cache s) (m_shmem_perf_model s) (perfs s)
     (evict s) (forward s) (forward_failed s) (sent s).
Definition set_nuca s (n : option (NucaCache.t P Q)) : t P Q :=
  mk (m_dram_directory_cache s) (m_dram_directory_req_queue_list s) n (m_shmem_perf_model s) (perfs s)
     (evict s) (forward s) (forward_failed s) (sent s).
Definition set_clock s (m : ShmemPerfModel.t) : t P Q :=
  mk (m_dram_directory_cache s) (m_dram_directory_req_queue_list s) (m_nuca_cache s) m (perfs s)
     (evict s) (forward s) (forward_failed s) (sent s).
Definition set_perfs s (f : Z → ShmemPerf.t) : t P Q :=
  mk (m_dram_directory_cache s) (m_dram_directory_req_queue_list s) (m_nuca_cache s) (m_shmem_perf_model s) f
     (evict s) (forward s) (forward_failed s) (sent s).
Definition set_counters s (f : DirectoryState.dstate_t → Z) (fwd failed : Z) : t P Q :=
  mk (m_dram_directory_cache s) (m_dram_directory_req_queue_list s) (m_nuca_cache s) (m_shmem_perf_model s)
     (perfs s) f fwd failed (sent s).
Definition set_sent s (l : list packet) : t P Q :=
  mk (m_dram_directory_cache s) (m_dram_directory_req_queue_list s) (m_nuca_cache s) (m_shmem_perf_model s)
     (perfs s) (evict s) (forward s) (forward_failed s) l.

(** [getShmemPerfModel()->getElapsedTime(_SIM_THREAD)]. *)
Definition now s : Z := ShmemPerfModel.getElapsedTime (m_shmem_perf_model s) ShmemPerfModel.SIM_THREAD.

(** [perf->updateTime(time, reason)]. *)
Definition update_perf s (perf : option Z) (time : Z) (reason : ShmemPerf.shmem_times_type_t) : result (t P Q) :=
  match perf with
  | None => Err NullPointer
  | Some p => Ok (set_perfs s (λ k, if k =? p then ShmemPerf.updateTime (perfs s k) time reason else perfs s k))
  end.

Definition updateShmemPerf s (shmem_msg : ShmemMsg.t) (reason : ShmemPerf.shmem_times_type_t) : result (t P Q) :=
  update_perf s (ShmemMsg.m_perf shmem_msg) (now s) reason.

(** ** [MemoryManager::sendMsg] and [MemoryManager::broadcastMsg] *)

Definition sendMsg s (msg_type : ShmemMsg.msg_t) (sender_mem_component receiver_mem_component : MemComponent.component_t)
    (requester receiver address : Z) (data_buf : option buffer) (data_length : Z)
    (where_ : HitWhere.where_t) (perf : option Z) : result (t P Q) :=
  let! _ := check (Bool.eqb (bool_decide (data_buf = None)) (data_length =? 0)) AssertFail in
  let shmem_msg := ShmemMsg.setWhere
    (ShmemMsg.new msg_type sender_mem_component receiver_mem_component requester address data_buf data_length perf)
    where_ in
  let! msg_buf := ShmemMsg.makeMsgBuf shmem_msg in
  let! s := update_perf s perf (now s) ShmemPerf.UNKNOWN in
  Ok (set_sent s (sent s ++ [mk_packet (now s) (m_core_id_master cfg) receiver msg_buf])).

Definition broadcastMsg s (msg_type : ShmemMsg.msg_t) (sender_mem_component receiver_mem_component : MemComponent.component_t)
    (requester address : Z) (data_buf : option buffer) (data_length : Z) (perf : option Z) : result (t P Q) :=
  let! _ := check (Bool.eqb (bool_decide (data_buf = None)) (data_length =? 0)) AssertFail in
  let shmem_msg :=
    ShmemMsg.new msg_type sender_mem_component receiver_mem_component requester address data_buf data_length perf in
  let! msg_buf := ShmemMsg.makeMsgBuf shmem_msg in
  let! s := update_perf s perf (now s) ShmemPerf.UNKNOWN in
  Ok (set_sent s (sent s ++ [mk_packet (now s) (m_core_id_master cfg) BROADCAST msg_buf])).

(** A message of the directory to a cache that carries no data. *)
Definition send_to_cache s (msg_type : ShmemMsg.msg_t) (requester receiver address : Z) (perf : option Z) : result (t P Q) :=
  sendMsg s msg_type MemComponent.TAG_DIR MemComponent.L2_CACHE requester receiver address None 0
    HitWhere.UNKNOWN perf.

(** ** The directory entry of an address *)

Definition getDirectoryEntry s (address : Z) (modeled : bool) : result (option nat * t P Q) :=
  let! (r, c, m) :=
    DramDirectoryCache.getDirectoryEntry (uninit_forwarder cfg) (m_dram_directory_cache s)
      (m_shmem_perf_model s) address modeled in
  Ok (r, set_clock (set_dir s c) m).

(** [*directory_entry], read and written. *)
Definition get_entry s (p : nat) : result DirectoryEntry.t :=
  Directory.deref (DramDirectoryCache.m_directory (m_dram_directory_cache s)) p.
Definition put_entry s (p : nat) (e : DirectoryEntry.t) : t P Q :=
  let c := m_dram_directory_cache s in
  set_dir s (DramDirectoryCache.set_directory c (Directory.store (DramDirectoryCache.m_directory c) p e)).
Definition update_entry s (p : nat) (f : DirectoryEntry.t → DirectoryEntry.t) : result (t P Q) :=
  let! e := get_entry s p in Ok (put_entry s p (f e)).

(** [getDirectoryEntry(address)] with [assert(directory_entry)]. *)
Definition existing_entry s (address : Z) : result (nat * t P Q) :=
  let! (r, s) := getDirectoryEntry s address false in
  match r with
  | Some p => Ok (p, s)
  | None => Err AssertFail
  end.

Definition front s (address : Z) : result ShmemReq.t :=
  ReqQueueList.front (m_dram_directory_req_queue_list s) address.
Definition queued s (address : Z) : nat :=
  ReqQueueList.size (m_dram_directory_req_queue_list s) address.
Definition update_front s (address : Z) (f : ShmemReq.t → ShmemReq.t) : t P Q :=
  set_queue s (ReqQueueList.update_front (m_dram_directory_req_queue_list s) address f).

(** ** Data written back *)

(** The bytes behind a pointer that may be null. *)
Definition payload (p : option buffer) : result (option bytes) :=
  match p with
  | None => Ok None
  | Some (Live b) => Ok (Some b)
  | Some Freed => Err UseAfterFree
  end.

Definition sendDataToNUCA s (address requester : Z) (data_buf : option buffer) (time : Z) (count : bool) : result (t P Q) :=
  match m_nuca_cache s with
  | None => Ok s
  | Some n =>
      let! data := payload data_buf in
      let! (_, _, out, n) := NucaCache.write n address data (uninit_evicted cfg) (now s) count in
      let s := set_nuca s (Some n) in
      if NucaCache.eviction out then
        let! dram_node := AddressHomeLookup.getHome (m_dram_controller_home_lookup cfg) (NucaCache.evict_address out) in
        sendMsg s ShmemMsg.DRAM_WRITE_REQ MemComponent.TAG_DIR MemComponent.DRAM (m_core_id cfg) dram_node
          (NucaCache.evict_address out)
          (Some (Live (default (uninit_buf cfg) (NucaCache.evict_buf out)))) (m_cache_block_size cfg)
          HitWhere.UNKNOWN (Some (m_dummy_shmem_perf cfg))
      else Ok s
  end.

Definition sendDataToDram s (address requester : Z) (data_buf : option buffer) (time : Z) : result (t P Q) :=
  match m_nuca_cache s with
  | Some _ => sendDataToNUCA s address requester data_buf time true
  | None =>
      let! dram_node := AddressHomeLookup.getHome (m_dram_controller_home_lookup cfg) address in
      sendMsg s ShmemMsg.DRAM_WRITE_REQ MemComponent.TAG_DIR MemComponent.DRAM requester dram_node address
        data_buf (m_cache_block_size cfg) HitWhere.UNKNOWN (Some (m_dummy_shmem_perf cfg))
  end.

(** ** Requests

    The functions below call each other in a cycle, and every cycle passes through
    [processNextReqFromL2Cache], which takes a request off a queue: they are defined
    for any [next] in its place, and the knot is tied by recursion on fuel below. *)
Section next.
Context (next : Z → t P Q → result (t P Q)).

(** [INV_REQ] to every sharer; the first message carries the [ShmemPerf] of the request. *)
Fixpoint invalidate_sharers s (requester address : Z) (perf : option Z) (sharers : list Z) : result (t P Q) :=
  match sharers with
  | [] => Ok s
  | sharer :: sharers =>
      let! s := send_to_cache s ShmemMsg.INV_REQ requester sharer address perf in
      invalidate_sharers s requester address (Some (m_dummy_shmem_perf cfg)) sharers
  end.

Definition invalidate_all s (requester address : Z) (perf : option Z) (sharers : bool * list Z) : result (t P Q) :=
  if fst sharers then
    broadcastMsg s ShmemMsg.INV_REQ MemComponent.TAG_DIR MemComponent.L2_CACHE requester address None 0 None
  else invalidate_sharers s requester address perf (snd sharers).

Definition processNullifyReq (shmem_req : ShmemReq.t) s : result (t P Q) :=
  let address := ShmemMsg.m_address (ShmemReq.m_shmem_msg shmem_req) in
  let requester := ShmemMsg.m_requester (ShmemReq.m_shmem_msg shmem_req) in
  let! (p, s) := existing_entry s address in
  let! e := get_entry s p in
  match DirectoryEntry.m_dstate e with
  | DirectoryState.EXCLUSIVE | DirectoryState.MODIFIED =>
      send_to_cache s ShmemMsg.FLUSH_REQ requester (DirectoryEntry.m_owner_id e) address
        (Some (m_dummy_shmem_perf cfg))
  | DirectoryState.SHARED =>
      invalidate_all s requester address (Some (m_dummy_shmem_perf cfg)) (DirectoryEntry.getSharersList e)
  | DirectoryState.UNCACHED =>
      let! c := DramDirectoryCache.invalidateDirectoryEntry (m_dram_directory_cache s) address in
      next address (set_dir s c)
  | DirectoryState.OWNED => Err LogError
  end.

(** The choice among the candidates: the first with the fewest sharers that no request waits for. *)
Fixpoint choose_candidate s (best : option (nat * DirectoryEntry.t)) (l : list nat) :
    result (option (nat * DirectoryEntry.t)) :=
  match l with
  | [] => Ok best
  | p :: l =>
      let! e := get_entry s p in
      let better := match best with
                    | None => true
                    | Some (_, b) => DirectoryEntry.getNumSharers e <? DirectoryEntry.getNumSharers b
                    end in
      if better && (queued s (DirectoryEntry.m_address e) =? 0)%nat
      then choose_candidate s (Some (p, e)) l
      else choose_candidate s best l
  end.

Definition processDirectoryEntryAllocationReq (shmem_req : ShmemReq.t) s : result (nat * t P Q) :=
  let address := ShmemMsg.m_address (ShmemReq.m_shmem_msg shmem_req) in
  let requester := ShmemMsg.m_requester (ShmemReq.m_shmem_msg shmem_req) in
  let msg_time := now s in
  let! (l, c) :=
    DramDirectoryCache.getReplacementCandidates (uninit_forwarder cfg) (m_dram_directory_cache s)
      (m_shmem_perf_model s) address in
  let s := set_dir s c in
  let! best := choose_candidate s None l in
  match best with
  | None => Err AssertFail
  | Some (_, victim) =>
      let s := set_counters s
        (λ d, if decide (d = DirectoryEntry.m_dstate victim) then u64 (evict s d + 1) else evict s d)
        (forward s) (forward_failed s) in
      let replaced_address := DirectoryEntry.m_address victim in
      let! (p, c, m) :=
        DramDirectoryCache.replaceDirectoryEntry (uninit_forwarder cfg) (m_dram_directory_cache s)
          (m_shmem_perf_model s) replaced_address address true in
      let s := set_clock (set_dir s c) m in
      let nullify_msg := ShmemMsg.new ShmemMsg.NULLIFY_REQ MemComponent.TAG_DIR MemComponent.TAG_DIR
        requester replaced_address None 0 (Some (m_dummy_shmem_perf cfg)) in
      let! nullify_req := ShmemReq.new (uninit_where cfg) nullify_msg msg_time in
      let s := set_queue s
        (ReqQueueList.enqueue (m_dram_directory_req_queue_list s) replaced_address nullify_req) in
      let! _ := check (queued s replaced_address =? 1)%nat AssertFail in
      let! s := processNullifyReq nullify_req s in
      Ok (p, s)
  end.

(** The entry of the address of a request, allocated if there is none. *)
Definition request_entry (shmem_req : ShmemReq.t) s : result (nat * t P Q) :=
  let! (r, s) := getDirectoryEntry s (ShmemMsg.m_address (ShmemReq.m_shmem_msg shmem_req)) false in
  match r with
  | Some p => Ok (p, s)
  | None => processDirectoryEntryAllocationReq shmem_req s
  end.

Definition reply_with_data (reply_msg_type : ShmemMsg.msg_t) (receiver address : Z) (data : option buffer)
    (where_ : HitWhere.where_t) (perf : option Z) s : result (t P Q) :=
  let! s := sendMsg s reply_msg_type MemComponent.TAG_DIR MemComponent.L2_CACHE receiver receiver address
              data (m_cache_block_size cfg) where_ perf in
  next address s.

(** The part of [retrieveDataAndSendToL2Cache] after the NUCA lookup. *)
Definition retrieve_from_memory (receiver address : Z) (orig_shmem_msg : ShmemMsg.t) (p : nat) s : result (t P Q) :=
  let! _ := check (0 <? queued s address)%nat AssertFail in
  let! shmem_req := front s address in
  let! e := get_entry s p in
  if bool_decide (m_protocol cfg = CoherencyProtocol.MESIF)
     && (ShmemReq.m_forwarding_from shmem_req =? INVALID_CORE_ID)
     && bool_decide (DirectoryEntry.m_dstate e = DirectoryState.SHARED)
     && negb (DirectoryEntry.m_forwarder_id e =? INVALID_CORE_ID)
  then
    let forwarder := DirectoryEntry.m_forwarder_id e in
    let s := update_front s address (ShmemReq.setForwardingFrom forwarder) in
    send_to_cache s ShmemMsg.WB_REQ receiver forwarder address
      (ShmemMsg.m_perf (ShmemReq.m_shmem_msg shmem_req))
  else
    let s := update_front s address (ShmemReq.setWaitForData true) in
    let! dram_node := AddressHomeLookup.getHome (m_dram_controller_home_lookup cfg) address in
    sendMsg s ShmemMsg.DRAM_READ_REQ MemComponent.TAG_DIR MemComponent.DRAM receiver dram_node address
      None 0 HitWhere.UNKNOWN (ShmemMsg.m_perf orig_shmem_msg).

Definition retrieveDataAndSendToL2Cache (reply_msg_type : ShmemMsg.msg_t) (receiver address : Z)
    (cached_data_buf : option buffer) (orig_shmem_msg : ShmemMsg.t) s : result (t P Q) :=
  let! (p, s) := existing_entry s address in
  match cached_data_buf with
  | Some data =>
      let! s := update_entry s p (DirectoryEntry.setForwarder receiver) in
      reply_with_data reply_msg_type receiver address (Some data) HitWhere.CACHE_REMOTE
        (ShmemMsg.m_perf orig_shmem_msg) s
  | None =>
      match m_nuca_cache s with
      | None => retrieve_from_memory receiver address orig_shmem_msg p s
      | Some n =>
          match ShmemMsg.m_perf orig_shmem_msg with
          | None => Err NullPointer
          | Some perf =>
              let! (nuca_latency, hit_where, data, perf', n) :=
                NucaCache.read n address (now s) (perfs s perf) true in
              let s := set_perfs (set_nuca s (Some n)) (λ k, if k =? perf then perf' else perfs s k) in
              let! m := ShmemPerfModel.incrElapsedTime (m_shmem_perf_model s) nuca_latency ShmemPerfModel.SIM_THREAD in
              let s := set_clock s m in
              if bool_decide (hit_where = HitWhere.MISS)
              then retrieve_from_memory receiver address orig_shmem_msg p s
              else reply_with_data reply_msg_type receiver address
                     (Some (Live (default (uninit_buf cfg) data))) HitWhere.NUCA_CACHE
                     (ShmemMsg.m_perf orig_shmem_msg) s
          end
      end
  end.

(** An uncached line gets its first sharer, the owner. *)
Definition first_sharer s (p : nat) (requester : Z) (dstate : DirectoryState.dstate_t) : result (t P Q) :=
  let! e := get_entry s p in
  let! (add_result, e) :=
    DirectoryEntry.addSharer e requester (DramDirectoryCache.getMaxHwSharers (m_dram_directory_cache s)) in
  let! _ := check add_result AssertFail in
  let! e := DirectoryEntry.setOwner requester e in
  Ok (put_entry s p (DirectoryEntry.setDState dstate e)).

Definition processExReqFromL2Cache (shmem_req : ShmemReq.t) (cached_data_buf : option buffer) s : result (t P Q) :=
  let shmem_msg := ShmemReq.m_shmem_msg shmem_req in
  let address := ShmemMsg.m_address shmem_msg in
  let requester := ShmemMsg.m_requester shmem_msg in
  let! s := updateShmemPerf s shmem_msg ShmemPerf.UNKNOWN in
  let! (p, s) := request_entry shmem_req s in
  let! e := get_entry s p in
  let! s := updateShmemPerf s shmem_msg ShmemPerf.TD_ACCESS in
  match DirectoryEntry.m_dstate e with
  | DirectoryState.EXCLUSIVE | DirectoryState.MODIFIED =>
      let! _ := check (bool_decide (cached_data_buf = None)) AssertFail in
      send_to_cache s ShmemMsg.FLUSH_REQ requester (DirectoryEntry.m_owner_id e) address (ShmemMsg.m_perf shmem_msg)
  | DirectoryState.SHARED =>
      let! _ := check (bool_decide (cached_data_buf = None)) AssertFail in
      invalidate_all s requester address (ShmemMsg.m_perf shmem_msg) (DirectoryEntry.getSharersList e)
  | DirectoryState.UNCACHED =>
      let! s := first_sharer s p requester DirectoryState.MODIFIED in
      retrieveDataAndSendToL2Cache ShmemMsg.EX_REP requester address cached_data_buf shmem_msg s
  | DirectoryState.OWNED => Err LogError
  end.

Definition processShReqFromL2Cache (shmem_req : ShmemReq.t) (cached_data_buf : option buffer) s : result (t P Q) :=
  let shmem_msg := ShmemReq.m_shmem_msg shmem_req in
  let address := ShmemMsg.m_address shmem_msg in
  let requester := ShmemMsg.m_requester shmem_msg in
  let! s := updateShmemPerf s shmem_msg ShmemPerf.UNKNOWN in
  let! (p, s) := request_entry shmem_req s in
  let! e := get_entry s p in
  let! s := updateShmemPerf s shmem_msg ShmemPerf.TD_ACCESS in
  match DirectoryEntry.m_dstate e with
  | DirectoryState.EXCLUSIVE =>
      let! _ := check (negb (requester =? DirectoryEntry.m_owner_id e)) AssertFail in
      let! _ := check (bool_decide (cached_data_buf = None)) AssertFail in
      send_to_cache s ShmemMsg.WB_REQ requester (DirectoryEntry.m_owner_id e) address (ShmemMsg.m_perf shmem_msg)
  | DirectoryState.MODIFIED =>
      let! _ := check (bool_decide (cached_data_buf = None)) AssertFail in
      send_to_cache s ShmemMsg.WB_REQ requester (DirectoryEntry.m_owner_id e) address (ShmemMsg.m_perf shmem_msg)
  | DirectoryState.SHARED =>
      let! has := DirectoryEntry.hasSharer e requester in
      if (has : bool) then
        let failed := bool_decide (cached_data_buf = None) in
        let s := set_counters s (evict s) (u64 (forward s + 1))
                   (if failed then u64 (forward_failed s + 1) else forward_failed s) in
        retrieveDataAndSendToL2Cache ShmemMsg.SH_REP requester address cached_data_buf shmem_msg s
      else
        let! (add_result, e) :=
          DirectoryEntry.addSharer e requester (DramDirectoryCache.getMaxHwSharers (m_dram_directory_cache s)) in
        if (add_result : bool) then
          retrieveDataAndSendToL2Cache ShmemMsg.SH_REP requester address cached_data_buf shmem_msg (put_entry s p e)
        else
          let! (sharer_id, e) := DirectoryEntry.getOneSharer e in
          send_to_cache (put_entry s p e) ShmemMsg.INV_REQ requester sharer_id address (ShmemMsg.m_perf shmem_msg)
  | DirectoryState.UNCACHED =>
      if bool_decide (m_protocol cfg = CoherencyProtocol.MSI) then
        let! s := first_sharer s p requester DirectoryState.SHARED in
        retrieveDataAndSendToL2Cache ShmemMsg.SH_REP requester address cached_data_buf shmem_msg s
      else
        let! s := first_sharer s p requester DirectoryState.EXCLUSIVE in
        retrieveDataAndSendToL2Cache ShmemMsg.EX_REP requester address cached_data_buf shmem_msg s
  | DirectoryState.OWNED => Err LogError
  end.

(** The messages of an upgrade to the sharers from index [i] on, except the requester:
    [INV_REQ], or [FLUSH_REQ] for the first sharer when the requester has no copy. *)
Fixpoint upgrade_sharers s (requester address : Z) (has_copy : bool) (perf : option Z) (perf_sent : bool)
    (i : nat) (sharers : list Z) : result (t P Q) :=
  match sharers with
  | [] => Ok s
  | sharer :: sharers =>
      if sharer =? requester then upgrade_sharers s requester address has_copy perf perf_sent (S i) sharers
      else
        let msg_type := if negb has_copy && (i =? 0)%nat then ShmemMsg.FLUSH_REQ else ShmemMsg.INV_REQ in
        let! s := send_to_cache s msg_type requester sharer address
                    (if perf_sent then Some (m_dummy_shmem_perf cfg) else perf) in
        upgrade_sharers s requester address has_copy perf true (S i) sharers
  end.

Definition send_upgrade_rep s (requester address : Z) (perf : option Z) : result (t P Q) :=
  send_to_cache s ShmemMsg.UPGRADE_REP requester requester address perf.

Definition processUpgradeReqFromL2Cache (shmem_req : ShmemReq.t) (cached_data_buf : option buffer) s : result (t P Q) :=
  let shmem_msg := ShmemReq.m_shmem_msg shmem_req in
  let address := ShmemMsg.m_address shmem_msg in
  let requester := ShmemMsg.m_requester shmem_msg in
  let! s := updateShmemPerf s shmem_msg ShmemPerf.UNKNOWN in
  let! (p, s) := request_entry shmem_req s in
  let! e := get_entry s p in
  let sharers_list_pair := DirectoryEntry.getSharersList e in
  let! s := updateShmemPerf s shmem_msg ShmemPerf.TD_ACCESS in
  match DirectoryEntry.m_dstate e with
  | DirectoryState.EXCLUSIVE | DirectoryState.MODIFIED =>
      let! first := arr_get (snd sharers_list_pair) 0 in
      if first =? requester then
        let! _ := check (DirectoryEntry.m_owner_id e =? requester) AssertFail in
        let! s := send_upgrade_rep s requester address (ShmemMsg.m_perf shmem_msg) in
        let! s := update_entry s p (DirectoryEntry.setDState DirectoryState.MODIFIED) in
        next address s
      else
        send_to_cache s ShmemMsg.FLUSH_REQ requester (DirectoryEntry.m_owner_id e) address (ShmemMsg.m_perf shmem_msg)
  | DirectoryState.SHARED =>
      if bool_decide (snd sharers_list_pair = [requester]) then
        let! e := DirectoryEntry.setOwner requester e in
        let s := put_entry s p (DirectoryEntry.setDState DirectoryState.MODIFIED e) in
        let! s := send_upgrade_rep s requester address (ShmemMsg.m_perf shmem_msg) in
        next address s
      else
        let! requesterHasCopy := DirectoryEntry.hasSharer e requester in
        if fst sharers_list_pair then
          broadcastMsg s ShmemMsg.INV_REQ MemComponent.TAG_DIR MemComponent.L2_CACHE requester address None 0 None
        else
          upgrade_sharers s requester address requesterHasCopy (ShmemMsg.m_perf shmem_msg) false 0
            (snd sharers_list_pair)
  | DirectoryState.UNCACHED =>
      let! _ := check (bool_decide (snd sharers_list_pair = [])) AssertFail in
      let! s := first_sharer s p requester DirectoryState.MODIFIED in
      let cached_data_buf := match cached_data_buf with
                             | None => ShmemMsg.m_data_buf shmem_msg
                             | Some _ => cached_data_buf
                             end in
      retrieveDataAndSendToL2Cache ShmemMsg.EX_REP requester address cached_data_buf shmem_msg s
  | DirectoryState.OWNED => Err LogError
  end.

(** The request at the head of a queue, by type; the types are compared in the code's order. *)
Definition process_request (shmem_req : ShmemReq.t) s : result (t P Q) :=
  match ShmemMsg.m_msg_type (ShmemReq.m_shmem_msg shmem_req) with
  | ShmemMsg.EX_REQ => processExReqFromL2Cache shmem_req None s
  | ShmemMsg.SH_REQ => processShReqFromL2Cache shmem_req None s
  | ShmemMsg.UPGRADE_REQ => processUpgradeReqFromL2Cache shmem_req None s
  | _ => Err LogError
  end.

(** The body of [processNextReqFromL2Cache]. *)
Definition processNextReq_body (address : Z) s : result (t P Q) :=
  let! _ := check (1 <=? queued s address)%nat AssertFail in
  let! (_, q) := ReqQueueList.dequeue (m_dram_directory_req_queue_list s) address in
  let s := set_queue s q in
  if ReqQueueList.empty q address then Ok s
  else
    let! shmem_req := front s address in
    let s := set_clock s (ShmemPerfModel.setElapsedTime (m_shmem_perf_model s) ShmemPerfModel.SIM_THREAD
                            (ShmemReq.m_time shmem_req)) in
    process_request shmem_req s.
End next.

(** [processNextReqFromL2Cache]: each call takes a request off a queue, so one unit of
    fuel per queued request, and one more, is enough (see [handle_total]). *)
Fixpoint processNextReqFromL2Cache (fuel : nat) (address : Z) s : result (t P Q) :=
  match fuel with
  | O => Err NoFuel
  | S fuel => processNextReq_body (processNextReqFromL2Cache fuel) address s
  end.

(** ** Replies *)

Section replies.
Context (fuel : nat).

Definition next : Z → t P Q → result (t P Q) := processNextReqFromL2Cache fuel.

Definition processDRAMReply (sender : Z) (shmem_msg : ShmemMsg.t) s : result (t P Q) :=
  let address := ShmemMsg.m_address shmem_msg in
  let! _ := check (1 <=? queued s address)%nat AssertFail in
  let! shmem_req := front s address in
  let req_msg := ShmemReq.m_shmem_msg shmem_req in
  let! s := updateShmemPerf s req_msg ShmemPerf.UNKNOWN in
  let! (p, s) := existing_entry s address in
  let! e := get_entry s p in
  let curr_dstate := DirectoryEntry.m_dstate e in
  let! s := updateShmemPerf s req_msg ShmemPerf.TD_ACCESS in
  let! reply_msg_type :=
    match ShmemMsg.m_msg_type req_msg with
    | ShmemMsg.SH_REQ =>
        let! _ := check (bool_decide (curr_dstate = DirectoryState.SHARED)
                         || bool_decide (curr_dstate = DirectoryState.EXCLUSIVE)) AssertFail in
        Ok (if bool_decide (curr_dstate = DirectoryState.EXCLUSIVE) then ShmemMsg.EX_REP else ShmemMsg.SH_REP)
    | ShmemMsg.EX_REQ =>
        let! _ := check (bool_decide (curr_dstate = DirectoryState.MODIFIED)) AssertFail in
        Ok ShmemMsg.EX_REP
    | ShmemMsg.UPGRADE_REQ => Ok ShmemMsg.EX_REP
    | _ => Err LogError
    end in
  let hit_where :=
    if bool_decide (ShmemMsg.m_where shmem_msg = HitWhere.DRAM)
    then if sender =? ShmemMsg.m_requester shmem_msg then HitWhere.DRAM_LOCAL else HitWhere.DRAM_REMOTE
    else ShmemMsg.m_where shmem_msg in
  let! s := sendMsg s reply_msg_type MemComponent.TAG_DIR MemComponent.L2_CACHE
              (ShmemMsg.m_requester req_msg) (ShmemMsg.m_requester req_msg) address
              (ShmemMsg.m_data_buf shmem_msg) (m_cache_block_size cfg) hit_where (ShmemMsg.m_perf req_msg) in
  let! s := sendDataToNUCA s address (ShmemMsg.m_requester req_msg) (ShmemMsg.m_data_buf shmem_msg) (now s) false in
  next address s.

(** [shmem_req->updateTime(time)] and [updateElapsedTime(shmem_req->getTime())]: the
    request at the head of the queue, updated. *)
Definition update_times s (address time : Z) : result (ShmemReq.t * t P Q) :=
  let s := update_front s address (ShmemReq.updateTime time) in
  let! shmem_req := front s address in
  Ok (shmem_req, set_clock s (ShmemPerfModel.updateElapsedTime (m_shmem_perf_model s)
                                (ShmemReq.m_time shmem_req) ShmemPerfModel.SIM_THREAD)).

Definition processInvRepFromL2Cache (sender : Z) (shmem_msg : ShmemMsg.t) s : result (t P Q) :=
  let address := ShmemMsg.m_address shmem_msg in
  let! (p, s) := existing_entry s address in
  let! e := get_entry s p in
  let! _ := check (bool_decide (DirectoryEntry.m_dstate e = DirectoryState.SHARED)
                   || bool_decide (DirectoryEntry.m_dstate e = DirectoryState.EXCLUSIVE)) AssertFail in
  let! e := DirectoryEntry.removeSharer e sender in
  let e := if DirectoryEntry.m_forwarder_id e =? sender then DirectoryEntry.setForwarder INVALID_CORE_ID e else e in
  let e := if DirectoryEntry.getNumSharers e =? 0 then DirectoryEntry.setDState DirectoryState.UNCACHED e else e in
  let s := put_entry s p e in
  if (queued s address =? 0)%nat then Ok s
  else
    let! (shmem_req, s) := update_times s address (now s) in
    let req_msg := ShmemReq.m_shmem_msg shmem_req in
    match ShmemMsg.m_msg_type req_msg with
    | ShmemMsg.EX_REQ =>
        if bool_decide (DirectoryEntry.m_dstate e = DirectoryState.UNCACHED) then
          let! s := updateShmemPerf s req_msg ShmemPerf.INV_IMBALANCE in
          processExReqFromL2Cache next shmem_req None s
        else Ok s
    | ShmemMsg.UPGRADE_REQ =>
        if DirectoryEntry.getNumSharers e =? 1 then
          let! has := DirectoryEntry.hasSharer e (ShmemMsg.m_requester req_msg) in
          if (has : bool) then
            let! s := updateShmemPerf s req_msg ShmemPerf.INV_IMBALANCE in
            processUpgradeReqFromL2Cache next shmem_req None s
          else Ok s
        else if DirectoryEntry.getNumSharers e =? 0 then
          let s := put_entry s p (DirectoryEntry.setDState DirectoryState.UNCACHED e) in
          let! s := updateShmemPerf s req_msg ShmemPerf.INV_IMBALANCE in
          processUpgradeReqFromL2Cache next shmem_req None s
        else Ok s
    | ShmemMsg.SH_REQ =>
        if ShmemReq.m_wait_for_data shmem_req then Ok s
        else if ShmemReq.isForwarding shmem_req && negb (sender =? ShmemReq.m_forwarding_from shmem_req) then Ok s
        else
          let! s := updateShmemPerf s req_msg ShmemPerf.INV_IMBALANCE in
          processShReqFromL2Cache next shmem_req None s
    | _ =>
        if bool_decide (DirectoryEntry.m_dstate e = DirectoryState.UNCACHED) then
          let! s := updateShmemPerf s req_msg ShmemPerf.INV_IMBALANCE in
          processNullifyReq next shmem_req s
        else Ok s
    end.

(** The times of the request at the head of the queue after a reply with data. *)
Definition wake_request s (address time : Z) : result (ShmemReq.t * t P Q) :=
  let! (shmem_req, s) := update_times s address time in
  let req_msg := ShmemReq.m_shmem_msg shmem_req in
  let! s := update_perf s (ShmemMsg.m_perf req_msg) time ShmemPerf.UNKNOWN in
  let! s := updateShmemPerf s req_msg ShmemPerf.TD_ACCESS in
  Ok (shmem_req, s).

Definition processFlushRepFromL2Cache (sender : Z) (shmem_msg : ShmemMsg.t) s : result (t P Q) :=
  let address := ShmemMsg.m_address shmem_msg in
  let time := now s in
  let! (p, s) := existing_entry s address in
  let! e := get_entry s p in
  let! has := DirectoryEntry.hasSharer e sender in
  let! _ := check has AssertFail in
  let! e := DirectoryEntry.removeSharer e sender in
  let! e := DirectoryEntry.setOwner INVALID_CORE_ID (DirectoryEntry.setForwarder INVALID_CORE_ID e) in
  let! e :=
    if DirectoryEntry.getNumSharers e =? 0 then Ok (DirectoryEntry.setDState DirectoryState.UNCACHED e)
    else let! _ := check (bool_decide (DirectoryEntry.m_dstate e = DirectoryState.SHARED)) AssertFail in Ok e in
  let s := put_entry s p e in
  let write_back s := sendDataToDram s address (ShmemMsg.m_requester shmem_msg) (ShmemMsg.m_data_buf shmem_msg) time in
  if (queued s address =? 0)%nat then write_back s
  else
    let! (shmem_req, s) := wake_request s address time in
    match ShmemMsg.m_msg_type (ShmemReq.m_shmem_msg shmem_req) with
    | ShmemMsg.EX_REQ => processExReqFromL2Cache next shmem_req (ShmemMsg.m_data_buf shmem_msg) s
    | ShmemMsg.SH_REQ =>
        let! s := write_back s in
        processShReqFromL2Cache next shmem_req (ShmemMsg.m_data_buf shmem_msg) s
    | ShmemMsg.UPGRADE_REQ =>
        if DirectoryEntry.getNumSharers e =? 0 then
          let s := put_entry s p (DirectoryEntry.setDState DirectoryState.UNCACHED e) in
          processUpgradeReqFromL2Cache next shmem_req (ShmemMsg.m_data_buf shmem_msg) s
        else Ok (update_front s address (ShmemReq.setMsgDataBuf (ShmemMsg.m_data_buf shmem_msg)))
    | _ =>
        let! s := write_back s in
        processNullifyReq next shmem_req s
    end.

(** A line that a cache has written back becomes shared. *)
Definition share_entry (sender : Z) s (address : Z) : result (t P Q) :=
  let! (p, s) := existing_entry s address in
  let! e := get_entry s p in
  let! has := DirectoryEntry.hasSharer e sender in
  let! _ := check has AssertFail in
  let! e := DirectoryEntry.setOwner INVALID_CORE_ID e in
  Ok (put_entry s p (DirectoryEntry.setDState DirectoryState.SHARED e)).

Definition processWbRepFromL2Cache (sender : Z) (shmem_msg : ShmemMsg.t) s : result (t P Q) :=
  let address := ShmemMsg.m_address shmem_msg in
  let time := now s in
  let! s := share_entry sender s address in
  if (queued s address =? 0)%nat then Err LogError
  else
    let! (shmem_req, s) := wake_request s address time in
    let! _ := check (bool_decide (ShmemMsg.m_msg_type (ShmemReq.m_shmem_msg shmem_req) = ShmemMsg.SH_REQ)) AssertFail in
    processShReqFromL2Cache next shmem_req (ShmemMsg.m_data_buf shmem_msg) s.

(** A checkpointed line: its data go to memory, nobody waits for it. *)
Definition processCpRepFromL2Cache (sender : Z) (shmem_msg : ShmemMsg.t) s : result (t P Q) :=
  let time := now s in
  let! s := share_entry sender s (ShmemMsg.m_address shmem_msg) in
  sendDataToDram s (ShmemMsg.m_address shmem_msg) (ShmemMsg.m_requester shmem_msg)
    (ShmemMsg.m_data_buf shmem_msg) time.

(** ** Messages *)

(** The three request cases of [handleMsgFromL2Cache]: the request is queued, and
    processed when it is alone in its queue. *)
Definition enqueue_request (shmem_msg : ShmemMsg.t) (msg_time : Z) s : result (t P Q) :=
  let address := ShmemMsg.m_address shmem_msg in
  let! shmem_req := ShmemReq.new (uninit_where cfg) shmem_msg msg_time in
  let s := set_queue s (ReqQueueList.enqueue (m_dram_directory_req_queue_list s) address shmem_req) in
  if (queued s address =? 1)%nat then process_request next shmem_req s else Ok s.

Definition handleMsgFromL2Cache (sender : Z) (shmem_msg : ShmemMsg.t) s : result (t P Q) :=
  let msg_time := now s in
  let! (_, s) := getDirectoryEntry s (ShmemMsg.m_address shmem_msg) true in
  let! s := updateShmemPerf s shmem_msg ShmemPerf.TD_ACCESS in
  match ShmemMsg.m_msg_type shmem_msg with
  | ShmemMsg.EX_REQ | ShmemMsg.SH_REQ | ShmemMsg.UPGRADE_REQ => enqueue_request shmem_msg msg_time s
  | ShmemMsg.INV_REP => processInvRepFromL2Cache sender shmem_msg s
  | ShmemMsg.FLUSH_REP => processFlushRepFromL2Cache sender shmem_msg s
  | ShmemMsg.WB_REP => processWbRepFromL2Cache sender shmem_msg s
  | ShmemMsg.CP_REP => processCpRepFromL2Cache sender shmem_msg s
  | _ => Err LogError
  end.

Definition handleMsgFromDRAM (sender : Z) (shmem_msg : ShmemMsg.t) s : result (t P Q) :=
  match ShmemMsg.m_msg_type shmem_msg with
  | ShmemMsg.DRAM_READ_REP => processDRAMReply sender shmem_msg s
  | _ => Err LogError
  end.
End replies.

(** ** [MemoryManager::handleMsgFromNetwork] *)

(** [delete [] shmem_msg->getDataBuf()]: a request that kept the pointer now dangles.
    Requests hold no other data. *)
Definition free_buffer (r : ShmemReq.t) : ShmemReq.t :=
  match ShmemMsg.m_data_buf (ShmemReq.m_shmem_msg r) with
  | Some (Live _) => ShmemReq.setMsgDataBuf (Some Freed) r
  | _ => r
  end.

(** [p_queue_delay] is the queueing delay the network reports; [to_cache] and [to_dram]
    are the handlers of the other two receivers, the last-level cache controller and the
    memory controller (the latter tells messages of the directory from those of the
    on-chip undo buffer by their sender component). *)
Definition handleMsgFromNetwork (fuel : nat) (to_cache to_dram : Z → ShmemMsg.t → t P Q → result (t P Q))
    (pkt : packet) (p_queue_delay : Z) s : result (t P Q) :=
  let sender := p_sender pkt in
  let shmem_msg := ShmemMsg.getShmemMsg (p_data pkt) in
  let s := set_clock s (ShmemPerfModel.setElapsedTime (m_shmem_perf_model s) ShmemPerfModel.SIM_THREAD (p_time pkt)) in
  let! s :=
    match ShmemMsg.m_perf shmem_msg with
    | None => Err NullPointer
    | Some p => Ok (set_perfs s (λ k, if k =? p then ShmemPerf.updatePacket (perfs s k) (p_time pkt) p_queue_delay
                                      else perfs s k))
    end in
  let! s :=
    match ShmemMsg.m_receiver_mem_component shmem_msg, ShmemMsg.m_sender_mem_component shmem_msg with
    | (MemComponent.L2_CACHE | MemComponent.LAST_LEVEL_CACHE), MemComponent.TAG_DIR => to_cache sender shmem_msg s
    | MemComponent.TAG_DIR, MemComponent.LAST_LEVEL_CACHE => handleMsgFromL2Cache fuel sender shmem_msg s
    | MemComponent.TAG_DIR, MemComponent.DRAM => handleMsgFromDRAM fuel sender shmem_msg s
    | MemComponent.DRAM, (MemComponent.TAG_DIR | MemComponent.ONCHIP_UNDO_BUFFER) => to_dram sender shmem_msg s
    | _, _ => Err LogError
    end in
  if 0 <? ShmemMsg.m_data_length shmem_msg then
    let! _ := check (bool_decide (is_Some (ShmemMsg.m_data_buf shmem_msg))) AssertFail in
    Ok (set_queue s (fmap (M := gmap Z) (map free_buffer) (m_dram_directory_req_queue_list s)))
  else Ok s.

(** A sequence of packets, each with its queueing delay. *)
Fixpoint deliver (fuel : nat) (to_cache to_dram : Z → ShmemMsg.t → t P Q → result (t P Q))
    (pkts : list (packet * Z)) s : result (t P Q) :=
  match pkts with
  | [] => Ok s
  | (pkt, d) :: pkts =>
      let! s := handleMsgFromNetwork fuel to_cache to_dram pkt d s in
      deliver fuel to_cache to_dram pkts s
  end.
End cntlr.
End DirCntlr.

(** * Lemmas *)

#[local] Arguments DirCntlr.sendMsg : simpl never.
#[local] Arguments DirCntlr.send_to_cache : simpl never.
#[local] Arguments DramDirectoryCache.getDirectoryEntry : simpl never.
#[local] Arguments Directory.deref : simpl never.

Section proofs.
Context {P : Type} `{Policy P} {Q : Type} `{QueueModel Q} (cfg : DirCntlr.config).
(** The replacement policy and the queue model of the NUCA cache do not run out of fuel. *)
Definition env_total : Prop := TotalPolicy P ∧ TotalQueue Q.

(** [B]: whether fuel is claimed to suffice. *)
Context (B : Prop) (Henv : B → env_total).
Implicit Types s : DirCntlr.t P Q.

Notation queue := DirCntlr.m_dram_directory_req_queue_list.

(** ** Requests and replies *)

(** A request: its address and the core that made it. *)
Definition req_address (r : ShmemReq.t) : Z := ShmemMsg.m_address (ShmemReq.m_shmem_msg r).
Definition req_type (r : ShmemReq.t) : ShmemMsg.msg_t := ShmemMsg.m_msg_type (ShmemReq.m_shmem_msg r).
Definition req_key (r : ShmemReq.t) : Z * Z := (req_address r, ShmemMsg.m_requester (ShmemReq.m_shmem_msg r)).
(** Requests of cores, as opposed to the directory's own [NULLIFY_REQ]. *)
Definition is_core_req (r : ShmemReq.t) : bool :=
  match req_type r with ShmemMsg.EX_REQ | ShmemMsg.SH_REQ | ShmemMsg.UPGRADE_REQ => true | _ => false end.
Definition core_reqs (l : list ShmemReq.t) : list (Z * Z) := map req_key (List.filter is_core_req l).

Definition is_reply (t : ShmemMsg.msg_t) : bool :=
  match t with ShmemMsg.EX_REP | ShmemMsg.SH_REP | ShmemMsg.UPGRADE_REP => true | _ => false end.
(** The replies among packets: the address and the core that gets it. *)
Definition replies (l : list DirCntlr.packet) : list (Z * Z) :=
  map (λ p, (ShmemMsg.m_address (fst (DirCntlr.p_data p)), DirCntlr.p_receiver p))
      (List.filter (λ p, is_reply (ShmemMsg.m_msg_type (fst (DirCntlr.p_data p)))) l).

(** Requests still queued and requests answered. *)
Definition account s : list (Z * Z) := core_reqs (all_reqs (queue s)) ++ replies (DirCntlr.sent s).
Definition waiting s : nat := length (core_reqs (all_reqs (queue s))).

Lemma replies_app l k : replies (l ++ k) = replies l ++ replies k.
Proof. unfold replies. by rewrite List.filter_app, map_app. Qed.

Lemma core_reqs_perm l k : l ≡ₚ k → core_reqs l ≡ₚ core_reqs k.
Proof.
  intros Hp. unfold core_reqs. apply Permutation_map.
  induction Hp; cbn; repeat case_match; try (done || by constructor); by etrans.
Qed.

(** ** The invariant *)

(** Every entry is coherent, no queue is empty, and requests wait in the queue of their address. *)
Definition dir_coherent s : Prop := dir_entries coherent (DirCntlr.m_dram_directory_cache s).
Definition queues_ok s : Prop :=
  queue_wf (queue s) ∧ ∀ a, Forall (λ r, req_address r = a) (pending_at (queue s) a).
Definition inv s : Prop := dir_coherent s ∧ queues_ok s.

(** [s'] differs from [s] at most in its directory, which is coherent if that of [s] was, in
    the clocks, the statistics and the NUCA cache, and in messages that are not replies. *)
Definition quiet s s' : Prop :=
  queue s' = queue s ∧ (dir_coherent s → dir_coherent s') ∧
  ∃ l, DirCntlr.sent s' = DirCntlr.sent s ++ l ∧ replies l = [].

Lemma quiet_refl s : quiet s s.
Proof. split; [done|]. split; [done|]. exists []. by rewrite app_nil_r. Qed.

Lemma quiet_trans s1 s2 s3 : quiet s1 s2 → quiet s2 s3 → quiet s1 s3.
Proof.
  intros (Hq & Hd & l & Hl & Hr) (Hq' & Hd' & l' & Hl' & Hr'). split; [congruence|]. split; [auto|].
  exists (l ++ l'). rewrite Hl', Hl, app_assoc. split; [done|]. by rewrite replies_app, Hr, Hr'.
Qed.

Lemma quiet_inv s s' : quiet s s' → inv s → inv s'.
Proof. unfold inv, queues_ok. intros (-> & Hd & _) []. auto. Qed.

Lemma quiet_account s s' : quiet s s' → account s' = account s.
Proof. unfold account. intros (-> & _ & l & -> & Hr). by rewrite replies_app, Hr, app_nil_r. Qed.

Lemma quiet_waiting s s' : quiet s s' → waiting s' = waiting s.
Proof. unfold waiting. by intros (-> & _). Qed.

(** ** Steps of the handlers *)

Ltac wp_open := apply wp_intro; [solve [auto with picl | intros _; no_fuel] |].

Lemma wp_update_perf s p time r (R : _ → Prop) :
  (∀ s', quiet s s' → (∀ q, DirCntlr.get_entry s' q = DirCntlr.get_entry s q) →
     DirCntlr.m_dram_directory_cache s' = DirCntlr.m_dram_directory_cache s → R s') →
  wp B (DirCntlr.update_perf s p time r) R.
Proof.
  intros HR. unfold DirCntlr.update_perf. destruct p; [|by intros _]. apply HR; [|done..].
  split; [done|]. split; [done|]. exists []. by rewrite app_nil_r.
Qed.

Lemma sendMsg_ok s ty sc rc requester receiver a buf n w perf s' :
  DirCntlr.sendMsg cfg s ty sc rc requester receiver a buf n w perf = Ok s' →
  queue s' = queue s ∧ DirCntlr.m_dram_directory_cache s' = DirCntlr.m_dram_directory_cache s ∧
  ∃ p, DirCntlr.sent s' = DirCntlr.sent s ++ [p] ∧ DirCntlr.p_receiver p = receiver ∧
    ShmemMsg.m_msg_type (fst (DirCntlr.p_data p)) = ty ∧ ShmemMsg.m_address (fst (DirCntlr.p_data p)) = a.
Proof.
  unfold DirCntlr.sendMsg, DirCntlr.update_perf. intros E. inv_ok. destruct perf; inv_ok. split; [done|]. split; [done|].
  eexists. split; [done|]. split; [done|].
  match goal with Hm : ShmemMsg.makeMsgBuf _ = Ok ?x |- _ => unfold ShmemMsg.makeMsgBuf in Hm; case_match; inv_ok; done end.
Qed.

Lemma makeMsgBuf_fuel m : ShmemMsg.makeMsgBuf m ≠ Err NoFuel.
Proof. unfold ShmemMsg.makeMsgBuf, deref, mem_read. no_fuel. Qed.
Hint Resolve makeMsgBuf_fuel : picl.

Lemma sendMsg_fuel s ty sc rc requester receiver a buf n w perf :
  DirCntlr.sendMsg cfg s ty sc rc requester receiver a buf n w perf ≠ Err NoFuel.
Proof. unfold DirCntlr.sendMsg, DirCntlr.update_perf. no_fuel. Qed.
Hint Resolve sendMsg_fuel : picl.

(** A message that is not a reply. *)
Lemma wp_sendMsg s ty sc rc requester receiver a buf n w perf (R : _ → Prop) :
  is_reply ty = false →
  (∀ s', quiet s s' → DirCntlr.m_dram_directory_cache s' = DirCntlr.m_dram_directory_cache s → R s') →
  wp B (DirCntlr.sendMsg cfg s ty sc rc requester receiver a buf n w perf) R.
Proof.
  intros Ht HR. wp_open. intros s' (Hq & Hd & p & Hp & _ & Hty & _)%sendMsg_ok. apply HR; [|done].
  split; [done|]. split; [by unfold dir_coherent; rewrite Hd|]. exists [p]. split; [done|].
  unfold replies. cbn. by rewrite Hty, Ht.
Qed.

(** A reply. *)
Lemma wp_reply s ty sc rc requester receiver a buf n w perf (R : _ → Prop) :
  is_reply ty = true →
  (∀ s', queue s' = queue s → DirCntlr.m_dram_directory_cache s' = DirCntlr.m_dram_directory_cache s →
     replies (DirCntlr.sent s') = replies (DirCntlr.sent s) ++ [(a, receiver)] → R s') →
  wp B (DirCntlr.sendMsg cfg s ty sc rc requester receiver a buf n w perf) R.
Proof.
  intros Ht HR. wp_open. intros s' (Hq & Hd & p & Hp & Hrec & Hty & Ha)%sendMsg_ok. apply HR; [done..|].
  rewrite Hp, replies_app. f_equal. unfold replies. cbn. rewrite Hty, Ht. cbn. by rewrite Ha, Hrec.
Qed.

(** ** Memory *)

Lemma wp_sendDataToNUCA s a r d time c (R : _ → Prop) :
  (∀ s', quiet s s' → DirCntlr.m_dram_directory_cache s' = DirCntlr.m_dram_directory_cache s → R s') →
  wp B (DirCntlr.sendDataToNUCA cfg s a r d time c) R.
Proof.
  intros HR. unfold DirCntlr.sendDataToNUCA. destruct (DirCntlr.m_nuca_cache s) as [n|]; [|apply HR; [apply quiet_refl|done]].
  apply wp_bind, wp_intro; [intros _; destruct d as [[]|]; done|]. intros bytes _.
  apply wp_bind, wp_intro; [intros [? ?]%Henv; apply nuca_write_fuel|].
  intros [[[latency where_] out] n'] _. case_match; [|apply HR; [exact (quiet_refl s) | done]].
  apply wp_bind. wp_open. intros home _. apply wp_sendMsg; [done|]. intros s' Hq Hd. by apply HR.
Qed.

Lemma wp_sendDataToDram s a r d time (R : _ → Prop) :
  (∀ s', quiet s s' → DirCntlr.m_dram_directory_cache s' = DirCntlr.m_dram_directory_cache s → R s') →
  wp B (DirCntlr.sendDataToDram cfg s a r d time) R.
Proof.
  intros HR. unfold DirCntlr.sendDataToDram. case_match; [by apply wp_sendDataToNUCA|].
  apply wp_bind. wp_open. intros home _. by apply wp_sendMsg.
Qed.

(** ** Directory entries *)

Lemma coherent_address a e : coherent e → coherent (DirectoryEntry.setAddress a e).
Proof. done. Qed.

Lemma set_dir_quiet s c :
  (dir_coherent s → dir_entries coherent c) → quiet s (DirCntlr.set_dir s c).
Proof. intros Hc. split; [done|]. split; [done|]. exists []. by rewrite app_nil_r. Qed.

Lemma wp_getDirectoryEntry s a b (R : _ → Prop) :
  (∀ r s', quiet s s' → R (r, s')) → wp B (DirCntlr.getDirectoryEntry cfg s a b) R.
Proof.
  intros HR. unfold DirCntlr.getDirectoryEntry. apply wp_bind. wp_open. intros [[r c] m] Hg. apply HR.
  assert (Hq : quiet s (DirCntlr.set_dir s c)); [|exact Hq].
  apply set_dir_quiet. intros Hs. eapply getDirectoryEntry_ok; [..|exact Hg]; auto using coherent_new, coherent_address.
Qed.

Lemma wp_existing_entry s a (R : _ → Prop) :
  (∀ p s', quiet s s' → R (p, s')) → wp B (DirCntlr.existing_entry cfg s a) R.
Proof.
  intros HR. unfold DirCntlr.existing_entry. apply wp_bind, wp_getDirectoryEntry. intros [p|] s' Hs; [by apply HR|].
  by apply wp_err.
Qed.

Lemma wp_get_entry s p (R : _ → Prop) :
  dir_coherent s → (∀ e, DirCntlr.get_entry s p = Ok e → coherent e → R e) → wp B (DirCntlr.get_entry s p) R.
Proof.
  intros Hs HR. apply wp_intro; [intros _; apply deref_fuel|]. intros e He. apply HR; [done|].
  by eapply deref_P in He.
Qed.

Lemma put_entry_quiet s p e : coherent e → quiet s (DirCntlr.put_entry s p e).
Proof. intros He. apply set_dir_quiet. intros Hs. by apply store_ok. Qed.

(** ** What requests and the next-request function achieve *)

Definition replies_grow s s' : Prop := ∃ l, replies (DirCntlr.sent s') = replies (DirCntlr.sent s) ++ l.

(** A handler keeps the invariant and loses or invents no request. *)
Definition serves s s' : Prop := inv s' ∧ account s' ≡ₚ account s ∧ replies_grow s s'.

(** [r] describes the request at the head of the queue of its address. *)
Definition at_front s (r : ShmemReq.t) : Prop :=
  ∃ r0 l, pending_at (queue s) (req_address r) = r0 :: l ∧ req_key r0 = req_key r ∧ is_core_req r0 = is_core_req r.

(** The calls that follow a call for address [a]. *)
Definition load s (a : Z) : nat :=
  waiting s + match pending_at (queue s) a with r :: _ => if is_core_req r then 0 else 1 | [] => 0 end.

(** [next] finishes the request at the head of the queue of [a]. *)
Definition next_spec (n : nat) (next : Z → DirCntlr.t P Q → result (DirCntlr.t P Q)) : Prop :=
  ∀ a s, inv s → (B → (0 < n)%nat ∧ ((load s a ≤ n)%nat ∨ DirCntlr.queued s a = 1%nat)) →
    wp B (next a s) (λ s', ∃ r l, pending_at (queue s) a = r :: l ∧ inv s' ∧
      core_reqs [r] ++ account s' ≡ₚ account s ∧ replies_grow s s' ∧
      (l = [] → queue s' = delete a (queue s))).

Lemma quiet_grow s s' : quiet s s' → replies_grow s s'.
Proof. intros (_ & _ & l & Hl & Hr). exists []. by rewrite Hl, replies_app, Hr. Qed.

Lemma grow_trans s1 s2 s3 : replies_grow s1 s2 → replies_grow s2 s3 → replies_grow s1 s3.
Proof. intros [l Hl] [k Hk]. exists (l ++ k). by rewrite Hk, Hl, app_assoc. Qed.

Lemma serves_quiet s s' : inv s → quiet s s' → serves s s'.
Proof. intros Hi Hq. split_and!; [by eapply quiet_inv | by rewrite (quiet_account s s') | by apply quiet_grow]. Qed.

Lemma serves_trans s1 s2 s3 : serves s1 s2 → serves s2 s3 → serves s1 s3.
Proof. intros (_ & Ha & Hg) (Hi & Ha' & Hg'). split_and!; [done | by rewrite Ha' | by eapply grow_trans]. Qed.

Lemma serves_waiting s s' : serves s s' → (waiting s' ≤ waiting s)%nat.
Proof.
  intros (_ & Ha%Permutation_length & l & Hl). unfold account in Ha. rewrite !length_app, Hl, length_app in Ha.
  unfold waiting. lia.
Qed.

Lemma at_front_quiet s s' r : quiet s s' → at_front s r → at_front s' r.
Proof. intros (Hq & _). unfold at_front. by rewrite Hq. Qed.

Lemma head_account s a r l :
  pending_at (queue s) a = r :: l → core_reqs (all_reqs (queue s)) ≡ₚ core_reqs [r] ++ core_reqs (l ++ all_reqs (delete a (queue s))).
Proof.
  intros Hp. rewrite (core_reqs_perm _ _ (all_reqs_split (queue s) a)), Hp.
  unfold core_reqs. cbn. by destruct (is_core_req r).
Qed.

Lemma waiting_pos s r : at_front s r → is_core_req r = true → (0 < waiting s)%nat.
Proof.
  intros (r0 & l & Hp & _ & Hc) Hr. unfold waiting.
  rewrite (Permutation_length (head_account _ _ _ _ Hp)). rewrite length_app. unfold core_reqs at 1.
  cbn -[is_core_req]. rewrite Hc, Hr. cbn. lia.
Qed.

Lemma front_req_address s a r l : inv s → pending_at (queue s) a = r :: l → req_address r = a.
Proof. intros (_ & _ & Ha) Hp. specialize (Ha a). rewrite Hp in Ha. by apply Forall_cons in Ha as []. Qed.

(** A write to the request at the head of a queue that leaves its identity alone. *)
Lemma update_front_serves s a f :
  (∀ r, req_key (f r) = req_key r ∧ is_core_req (f r) = is_core_req r) →
  inv s → serves s (DirCntlr.update_front s a f).
Proof.
  intros Hf (Hd & Hw & Ha). unfold DirCntlr.update_front. split_and!.
  - split; [done|]. split; [by apply update_front_wf|]. intros b. cbn. rewrite update_front_pending.
    case_decide; [subst a|apply Ha].
    specialize (Ha b). destruct (pending_at _ b) as [|r l]; [done|].
    apply Forall_cons in Ha as [Hr Hl]. constructor; [|done]. destruct (Hf r) as [Hk _].
    apply (f_equal fst) in Hk. by change (req_address (f r) = req_address r) in Hk; rewrite Hk.
  - unfold account. cbn. apply Permutation_app_tail. destruct (ReqQueueList.front (queue s) a) as [r|] eqn:E.
    + destruct (update_front_all _ _ f _ E) as (l & H1 & H2).
      rewrite (core_reqs_perm _ _ H1), (core_reqs_perm _ _ H2). unfold core_reqs. cbn. destruct (Hf r) as [Hk ->].
      case_match; cbn; by rewrite ?Hk.
    + unfold ReqQueueList.update_front, ReqQueueList.front in *. repeat case_match; done.
  - exists []. by rewrite app_nil_r.
Qed.

Lemma update_front_at s a f r :
  (∀ r, req_key (f r) = req_key r ∧ is_core_req (f r) = is_core_req r) →
  at_front s r → at_front (DirCntlr.update_front s a f) r.
Proof.
  intros Hf (r0 & l & Hp & Hk & Hc). unfold at_front, DirCntlr.update_front. cbn. rewrite update_front_pending, Hp.
  case_decide; [|by exists r0, l]. exists (f r0), l. destruct (Hf r0) as [-> ->]. done.
Qed.

Lemma wp_invalidate_all s req a perf sh (R : _ → Prop) :
  (∀ s', quiet s s' → R s') → wp B (DirCntlr.invalidate_all cfg s req a perf sh) R.
Proof.
  intros HR. unfold DirCntlr.invalidate_all. destruct sh as [[|] l]; cbn [fst snd].
  - apply wp_intro; [intros _; unfold DirCntlr.broadcastMsg, DirCntlr.update_perf; no_fuel|].
    unfold DirCntlr.broadcastMsg, DirCntlr.update_perf. intros s' Hs. inv_ok.
  - revert s perf HR.
    induction l as [|x l IH]; intros s perf HR; cbn; [apply HR, quiet_refl|].
    apply wp_bind, wp_sendMsg; [done|]. intros s' Hq _. apply IH. intros s'' Hq'. apply HR. by eapply quiet_trans.
Qed.

Lemma wp_upgrade_sharers s req a has perf b i l (R : _ → Prop) :
  (∀ s', quiet s s' → R s') → wp B (DirCntlr.upgrade_sharers cfg s req a has perf b i l) R.
Proof.
  revert s b i. induction l as [|x l IH]; intros s b i HR; cbn; [apply HR, quiet_refl|].
  case_match; [by apply IH|]. apply wp_bind, wp_sendMsg; [by case_match|]. intros s' Hq _. apply IH. intros s'' Hq'.
  apply HR. by eapply quiet_trans.
Qed.

(** ** Requests *)

Section with_next.
Context (n : nat) (next : Z → DirCntlr.t P Q → result (DirCntlr.t P Q)) (Hnext : next_spec n next).

(** [next] after an answer: [s] answered the request at the head of a queue. *)
Lemma wp_answered s s1 r :
  inv s → at_front s r → is_core_req r = true → (B → (waiting s ≤ n)%nat) →
  queue s1 = queue s → dir_coherent s1 →
  replies (DirCntlr.sent s1) = replies (DirCntlr.sent s) ++ [req_key r] →
  wp B (next (req_address r) s1) (serves s).
Proof.
  intros Hi Hf Hc Hn Hq Hd Hr. pose proof (waiting_pos _ _ Hf Hc) as Hpos.
  destruct Hf as (r0 & l & Hp & Hk & Hc0). eapply wp_mono.
  - apply Hnext; [split; [done|]; unfold queues_ok; rewrite Hq; apply Hi|]. intros HB. specialize (Hn HB).
    split; [lia|]. left. unfold load, waiting. rewrite Hq, Hp, Hc0, Hc. unfold waiting in Hn. lia.
  - intros s' (r1 & l' & Hp1 & Hi' & Ha & [k Hk'] & _). rewrite Hq, Hp in Hp1. injection Hp1 as <- <-.
    split_and!; [done| |exists ([req_key r] ++ k); by rewrite Hk', Hr, app_assoc].
    assert (Hone : core_reqs [r0] = [req_key r]) by (unfold core_reqs; cbn -[is_core_req]; by rewrite Hc0, Hc; cbn; rewrite Hk).
    apply (Permutation_app_inv_l [req_key r]). rewrite <- Hone at 1. rewrite Ha.
    unfold account. rewrite Hq, Hr, app_assoc. apply Permutation_app_comm.
Qed.

Lemma wp_reply_with_data s ty r data w perf :
  is_reply ty = true → inv s → at_front s r → is_core_req r = true → (B → (waiting s ≤ n)%nat) →
  wp B (DirCntlr.reply_with_data cfg next ty (snd (req_key r)) (req_address r) data w perf s) (serves s).
Proof.
  intros Ht Hi Hf Hc Hn. unfold DirCntlr.reply_with_data. apply wp_bind, wp_reply; [done|].
  intros s1 Hq Hd Hr. apply wp_answered; try done. unfold dir_coherent. rewrite Hd. apply Hi.
Qed.

Lemma wp_retrieve_from_memory s r m p :
  inv s → at_front s r →
  wp B (DirCntlr.retrieve_from_memory cfg (snd (req_key r)) (req_address r) m p s) (serves s).
Proof.
  intros Hi Hf. unfold DirCntlr.retrieve_from_memory. apply wp_bind, wp_check; [done|]. intros _.
  apply wp_bind, wp_intro; [intros _; unfold DirCntlr.front, ReqQueueList.front; no_fuel|]. intros r1 _.
  apply wp_bind, wp_get_entry; [apply Hi|]. intros e _ _. case_match.
  - apply wp_sendMsg; [done|]. intros s' Hq _. eapply serves_trans; [apply (update_front_serves s (req_address r)); [|done]|].
    2: { apply serves_quiet; [|exact Hq]. apply update_front_serves; done. }
    done.
  - apply wp_bind. apply wp_intro; [intros _; auto with picl|]. intros home _. apply wp_sendMsg; [done|]. intros s' Hq _.
    eapply serves_trans; [apply (update_front_serves s (req_address r)); [|done]|].
    2: { apply serves_quiet; [|exact Hq]. apply update_front_serves; done. }
    done.
Qed.

Lemma wp_retrieve s ty r data m :
  is_reply ty = true → inv s → at_front s r → is_core_req r = true → (B → (waiting s ≤ n)%nat) →
  wp B (DirCntlr.retrieveDataAndSendToL2Cache cfg next ty (snd (req_key r)) (req_address r) data m s) (serves s).
Proof.
  intros Ht Hi Hf Hc Hn. unfold DirCntlr.retrieveDataAndSendToL2Cache.
  apply wp_bind, wp_existing_entry. intros p s1 Hq. assert (Hi1 : inv s1) by (by eapply quiet_inv).
  assert (Hf1 : at_front s1 r) by (by eapply at_front_quiet).
  eapply wp_mono; [|intros s'; apply serves_trans; by apply serves_quiet].
  assert (Hn1 : B → (waiting s1 ≤ n)%nat) by (by rewrite (quiet_waiting s s1)).
  clear Hq Hi Hf Hn. destruct data as [data|].
  - apply wp_bind. unfold DirCntlr.update_entry. apply wp_bind, wp_get_entry; [apply Hi1|]. intros e _ He. cbn.
    assert (Hq2 : quiet s1 (DirCntlr.put_entry s1 p (DirectoryEntry.setForwarder (snd (req_key r)) e))) by (by apply put_entry_quiet).
    eapply wp_mono; [apply wp_reply_with_data; try done|intros s'; apply serves_trans; by apply serves_quiet].
    by eapply quiet_inv.
  - destruct (DirCntlr.m_nuca_cache s1) as [nuca|]; [|by apply wp_retrieve_from_memory].
    destruct (ShmemMsg.m_perf m) as [perf|]; [|by apply wp_err].
    apply wp_bind, wp_intro; [intros [? ?]%Henv; apply nuca_read_fuel|]. intros [[[[lat w] d] perf'] nuca'] _.
    apply wp_bind. apply wp_intro; [intros _; auto with picl|]. intros clock _.
    match goal with |- context [DirCntlr.set_clock ?s ?c] => set (s2 := DirCntlr.set_clock s c) end.
    assert (Hq2 : quiet s1 s2) by exact (quiet_refl s1).
    eapply wp_mono; [|intros s'; apply serves_trans; apply serves_quiet; [exact Hi1|exact Hq2]].
    case_match; [apply wp_retrieve_from_memory|apply wp_reply_with_data]; done.
Qed.

Lemma queued_pending s a : DirCntlr.queued s a = length (pending_at (queue s) a).
Proof. apply size_pending. Qed.

(** The directory's own request: it is answered by nobody. *)
Lemma wp_nullify s r :
  inv s → at_front s r → is_core_req r = false →
  (B → (0 < n)%nat ∧ ((waiting s + 1 ≤ n)%nat ∨ DirCntlr.queued s (req_address r) = 1%nat)) →
  wp B (DirCntlr.processNullifyReq cfg next r s) (λ s', serves s s' ∧
    (DirCntlr.queued s (req_address r) = 1%nat →
     ∀ a, a ≠ req_address r → pending_at (queue s') a = pending_at (queue s) a)).
Proof.
  intros Hi Hf Hc Hn. unfold DirCntlr.processNullifyReq.
  apply wp_bind, wp_existing_entry. intros p s1 Hq1. assert (Hi1 : inv s1) by (by eapply quiet_inv).
  apply wp_bind, wp_get_entry; [apply Hi1|]. intros e _ He.
  assert (Hdone : ∀ s', quiet s1 s' → serves s s' ∧ (DirCntlr.queued s (req_address r) = 1%nat →
    ∀ a, a ≠ req_address r → pending_at (queue s') a = pending_at (queue s) a)).
  { intros s' Hq. assert (Hq' : quiet s s') by (by eapply quiet_trans). split; [by apply serves_quiet|].
    intros _ a _. by destruct Hq' as [-> _]. }
  destruct (DirectoryEntry.m_dstate e).
  - apply wp_bind. apply wp_intro; [intros _; auto with picl|]. intros c Hc'.
    assert (Hq2 : quiet s1 (DirCntlr.set_dir s1 c)) by (apply set_dir_quiet; intros Hd; by eapply invalidateDirectoryEntry_ok in Hc').
    assert (Hq : quiet s (DirCntlr.set_dir s1 c)) by (by eapply quiet_trans).
    destruct Hf as (r0 & l & Hp & Hk & Hc0). pose proof Hq as (Hqq & _).
    eapply wp_mono.
    + apply Hnext; [by eapply quiet_inv|]. intros HB. destruct (Hn HB) as [? [Hl|Hl]]; split; try done.
      * left. unfold load. rewrite (quiet_waiting _ _ Hq).
        repeat case_match; lia.
      * right. rewrite queued_pending in *. rewrite Hqq. exact Hl.
    + intros s' (r1 & l' & Hp1 & Hi' & Ha & Hg & Hdel). change (ShmemMsg.m_address _) with (req_address r) in Hp1, Hdel.
      rewrite Hqq in Hp1, Hdel. rewrite Hp in Hp1. injection Hp1 as <- <-.
      assert (Hnone : core_reqs [r0] = []) by (unfold core_reqs; cbn -[is_core_req]; by rewrite Hc0, Hc).
      rewrite Hnone, (quiet_account _ _ Hq) in Ha. split.
      * split_and!; [done|done|]. eapply grow_trans; [by apply quiet_grow|done].
      * intros Hone a Hne. rewrite queued_pending, Hp in Hone. destruct l; [|done].
        rewrite Hdel by done. rewrite pending_delete. by rewrite decide_False.
  - apply wp_invalidate_all. apply Hdone.
  - by apply wp_err.
  - apply wp_sendMsg; [done|]. intros s' Hq _. by apply Hdone.
  - apply wp_sendMsg; [done|]. intros s' Hq _. by apply Hdone.
Qed.

Lemma wp_choose s best l :
  dir_coherent s → (∀ p e, best = Some (p, e) → DirCntlr.queued s (DirectoryEntry.m_address e) = 0%nat) →
  wp B (DirCntlr.choose_candidate s best l) (λ r,
    ∀ p e, r = Some (p, e) → DirCntlr.queued s (DirectoryEntry.m_address e) = 0%nat).
Proof.
  intros Hs. revert best. induction l as [|q l IH]; intros best Hb; cbn -[DirCntlr.queued]; [exact Hb|].
  apply wp_bind, wp_get_entry; [done|]. intros e _ _. case_match eqn:E; [|by apply IH].
  apply IH. intros p' e' [= <- <-]. by apply andb_true_iff in E as [_ ?%Nat.eqb_eq].
Qed.

Lemma wp_allocation s r :
  inv s → at_front s r → is_core_req r = true → (B → (waiting s ≤ n)%nat) →
  wp B (DirCntlr.processDirectoryEntryAllocationReq cfg next r s) (λ '(p, s'), serves s s' ∧ at_front s' r).
Proof.
  intros Hi Hf Hc Hn. unfold DirCntlr.processDirectoryEntryAllocationReq.
  apply wp_bind. apply wp_intro; [intros _; auto with picl|]. intros [l c] Hl.
  assert (Hd1 : dir_coherent (DirCntlr.set_dir s c)).
  { eapply replacementCandidates_ok; [..|exact Hl]; [apply coherent_new|apply coherent_address|apply Hi]. }
  apply wp_bind. eapply wp_mono; [by apply wp_choose|]. intros [[q victim]|] Hbest; [|by apply wp_err].
  specialize (Hbest q victim eq_refl). change (DirCntlr.queued (DirCntlr.set_dir s c) ?a) with (DirCntlr.queued s a) in Hbest.
  apply wp_bind. apply wp_intro; [intros _; auto with picl|]. intros [[p c'] m] Hr.
  assert (Hd2 : dir_entries coherent c').
  { eapply replaceDirectoryEntry_ok; [..|exact Hr]; [apply coherent_new|apply coherent_address|exact Hd1]. }
  apply wp_bind, wp_intro; [intros _; unfold ShmemReq.new; no_fuel|]. intros nr Hnr.
  set (ra := DirectoryEntry.m_address victim) in *.
  match goal with |- context [DirCntlr.set_clock ?s ?c] => set (s3 := DirCntlr.set_clock s c) end.
  assert (Hnr' : req_address nr = ra ∧ is_core_req nr = false).
  { unfold ShmemReq.new in Hnr. inv_ok. done. }
  destruct Hnr' as [Hra Hcn]. rewrite queued_pending in Hbest. apply length_zero_iff_nil in Hbest.
  match goal with |- context [DirCntlr.set_queue s3 ?q] => set (s4 := DirCntlr.set_queue s3 q) end.
  assert (Hp4 : ∀ a, pending_at (queue s4) a = if decide (ra = a) then [nr] else pending_at (queue s) a).
  { intros a. subst s4. cbn. rewrite enqueue_pending. case_decide; [subst a; by rewrite Hbest|done]. }
  assert (Hi4 : inv s4).
  { split; [exact Hd2|]. split; [apply enqueue_wf, Hi|]. intros a. rewrite Hp4. case_decide; [|apply Hi].
    constructor; [congruence|constructor]. }
  assert (Ha4 : account s4 ≡ₚ account s).
  { unfold account. subst s4. cbn. rewrite (core_reqs_perm _ _ (enqueue_all _ _ _)). unfold core_reqs at 1. cbn -[is_core_req]. by rewrite Hcn. }
  assert (Hs4 : serves s s4) by (split_and!; [done|done|]; exists []; by rewrite app_nil_r).
  apply wp_bind, wp_check; [done|]. intros Hone%Nat.eqb_eq. apply wp_bind.
  eapply wp_mono; [apply (wp_nullify s4 nr); [done| |done|]|].
  - exists nr, []. by rewrite Hp4, Hra, decide_True.
  - intros HB. pose proof (waiting_pos _ _ Hf Hc). specialize (Hn HB). split; [lia|]. right. by rewrite Hra.
  - intros s' [Hs' Hothers]. cbn. split; [by eapply serves_trans|]. destruct Hf as (r0 & k & Hp & Hk & Hck).
    assert (Hne : req_address r ≠ ra) by (intros E; by rewrite E, Hbest in Hp).
    exists r0, k. rewrite Hothers by (by rewrite ?Hra). rewrite Hp4, decide_False by congruence. done.
Qed.

Lemma wp_request_entry s r :
  inv s → at_front s r → is_core_req r = true → (B → (waiting s ≤ n)%nat) →
  wp B (DirCntlr.request_entry cfg next r s) (λ '(p, s'), serves s s' ∧ at_front s' r).
Proof.
  intros Hi Hf Hc Hn. unfold DirCntlr.request_entry. apply wp_bind, wp_getDirectoryEntry. intros [p|] s1 Hq.
  - cbn. split; [by apply serves_quiet | by eapply at_front_quiet].
  - eapply wp_mono; [apply wp_allocation; try done|].
    + by eapply quiet_inv.
    + by eapply at_front_quiet.
    + by rewrite (quiet_waiting _ _ Hq).
    + intros [p s'] [Hs Hf']. split; [|done]. eapply serves_trans; [|done]. by apply serves_quiet.
Qed.

Lemma wp_first_sharer s p requester d (R : _ → Prop) :
  dir_coherent s → (∀ e, DirCntlr.get_entry s p = Ok e → sharers e = []) →
  d = DirectoryState.MODIFIED ∨ d = DirectoryState.EXCLUSIVE ∨ d = DirectoryState.SHARED →
  (∀ s', quiet s s' → R s') →
  wp B (DirCntlr.first_sharer s p requester d) R.
Proof.
  intros Hs Hnone Hd HR. unfold DirCntlr.first_sharer. apply wp_bind, wp_get_entry; [done|]. intros e He _.
  apply Hnone in He. apply wp_bind. apply wp_intro; [intros _; auto with picl|]. intros [b e1] Ha.
  apply addSharer_ok in Ha as (_ & _ & Hb). apply wp_bind, wp_check; [done|]. intros ->.
  apply wp_bind. apply wp_intro; [intros _; auto with picl|]. intros e2 (Hsh & _ & _ & Ho & _)%setOwner_ok.
  apply HR, put_entry_quiet.
  assert (Hone : sharers e1 = [requester]).
  { assert (Hnd : NoDup (sharers e1)) by apply sharers_from_NoDup.
    assert (Hall : ∀ x, x ∈ sharers e1 ↔ x = requester) by (intros x; rewrite Hb, He, elem_of_nil; tauto).
    destruct (sharers e1) as [|x [|y l]].
    - exfalso. assert (Hin : requester ∈ []) by (by apply Hall). by apply elem_of_nil in Hin.
    - f_equal. apply Hall. by left.
    - exfalso. assert (x = requester) as -> by (apply Hall; by left). assert (y = requester) as -> by (apply Hall; right; by left).
      apply NoDup_cons in Hnd as [Hnd _]. apply Hnd. by left. }
  assert (Hsh' : sharers (DirectoryEntry.setDState d e2) = [requester]) by (unfold sharers; cbn; by rewrite Hsh).
  unfold coherent. rewrite Hsh'. cbn. by destruct Hd as [->|[->| ->]]; rewrite ?Ho.
Qed.

(** What the three request handlers do before they look at the state of the line. *)
Lemma wp_prologue s r (k : nat → DirectoryEntry.t → DirCntlr.t P Q → result (DirCntlr.t P Q)) :
  inv s → at_front s r → is_core_req r = true → (B → (waiting s ≤ n)%nat) →
  (∀ p e s', inv s' → at_front s' r → (B → (waiting s' ≤ n)%nat) → DirCntlr.get_entry s' p = Ok e → coherent e →
     wp B (k p e s') (serves s')) →
  wp B (let! s := DirCntlr.updateShmemPerf s (ShmemReq.m_shmem_msg r) ShmemPerf.UNKNOWN in
        let! (p, s) := DirCntlr.request_entry cfg next r s in
        let! e := DirCntlr.get_entry s p in
        let! s := DirCntlr.updateShmemPerf s (ShmemReq.m_shmem_msg r) ShmemPerf.TD_ACCESS in
        k p e s) (serves s).
Proof.
  intros Hi Hf Hc Hn Hk. apply wp_bind, wp_update_perf. intros s1 Hq1 _ _.
  apply wp_bind. eapply wp_mono; [apply wp_request_entry; try done|].
  - by eapply quiet_inv.
  - by eapply at_front_quiet.
  - by rewrite (quiet_waiting _ _ Hq1).
  - intros [p s2] [Hs2 Hf2]. apply wp_bind, wp_get_entry; [apply Hs2|]. intros e He Hce.
    apply wp_bind, wp_update_perf. intros s3 Hq3 Hsame _.
    assert (Hs : serves s s3).
    { eapply serves_trans; [by apply (serves_quiet s s1)|]. eapply serves_trans; [exact Hs2|]. apply serves_quiet; [apply Hs2|done]. }
    eapply wp_mono; [apply Hk; try done|].
    + apply Hs.
    + by eapply at_front_quiet.
    + intros HB. specialize (Hn HB). apply serves_waiting in Hs. lia.
    + by rewrite Hsame.
    + intros s'. by apply serves_trans.
Qed.

Lemma req_key_snd r : snd (req_key r) = ShmemMsg.m_requester (ShmemReq.m_shmem_msg r).
Proof. done. Qed.

(** A step that leaves the requests alone, before the rest of a handler. *)
Lemma wp_serves_quiet s s1 (m : result (DirCntlr.t P Q)) :
  inv s → quiet s s1 → wp B m (serves s1) → wp B m (serves s).
Proof. intros Hi Hq Hm. eapply wp_mono; [exact Hm|]. intros s'. apply serves_trans. by apply serves_quiet. Qed.

Lemma wp_retrieve_after s s1 ty r data m :
  is_reply ty = true → inv s → at_front s r → is_core_req r = true → (B → (waiting s ≤ n)%nat) → quiet s s1 →
  wp B (DirCntlr.retrieveDataAndSendToL2Cache cfg next ty (ShmemMsg.m_requester (ShmemReq.m_shmem_msg r))
          (ShmemMsg.m_address (ShmemReq.m_shmem_msg r)) data m s1) (serves s).
Proof.
  intros Ht Hi Hf Hc Hn Hq. eapply wp_serves_quiet; [done|exact Hq|]. apply (wp_retrieve s1 ty r); try done.
  - by eapply quiet_inv.
  - by eapply at_front_quiet.
  - by rewrite (quiet_waiting _ _ Hq).
Qed.

Lemma wp_ex_req s r data :
  inv s → at_front s r → is_core_req r = true → (B → (waiting s ≤ n)%nat) →
  wp B (DirCntlr.processExReqFromL2Cache cfg next r data s) (serves s).
Proof.
  intros Hi Hf Hc Hn. unfold DirCntlr.processExReqFromL2Cache. apply wp_prologue; [done..|].
  clear s Hi Hf Hn. intros p e s Hi Hf Hn He Hce. unfold coherent in Hce. destruct (DirectoryEntry.m_dstate e).
  - apply wp_bind, wp_first_sharer; [apply Hi | by intros e' [= <-]%(eq_trans (eq_sym He)) | by left |].
    intros s1 Hq. by apply wp_retrieve_after.
  - apply wp_bind, wp_check; [done|]. intros _. apply wp_invalidate_all. intros s' Hq. by apply serves_quiet.
  - done.
  - apply wp_bind, wp_check; [done|]. intros _. apply wp_sendMsg; [done|]. intros s' Hq _. by apply serves_quiet.
  - apply wp_bind, wp_check; [done|]. intros _. apply wp_sendMsg; [done|]. intros s' Hq _. by apply serves_quiet.
Qed.

Lemma wp_sh_req s r data :
  inv s → at_front s r → is_core_req r = true → (B → (waiting s ≤ n)%nat) →
  wp B (DirCntlr.processShReqFromL2Cache cfg next r data s) (serves s).
Proof.
  intros Hi Hf Hc Hn. unfold DirCntlr.processShReqFromL2Cache. apply wp_prologue; [done..|].
  clear s Hi Hf Hn. intros p e s Hi Hf Hn He Hce. unfold coherent in Hce. destruct (DirectoryEntry.m_dstate e) eqn:Ed.
  - assert (Hnone : ∀ e', DirCntlr.get_entry s p = Ok e' → sharers e' = []) by (by intros e' [= <-]%(eq_trans (eq_sym He))).
    case_match; (apply wp_bind, wp_first_sharer; [apply Hi | done | tauto |]); intros s1 Hq; by apply wp_retrieve_after.
  - apply wp_bind. apply wp_intro; [intros _; auto with picl|]. intros has _. destruct has.
    + apply wp_retrieve_after; try done. exact (quiet_refl s).
    + apply wp_bind. apply wp_intro; [intros _; auto with picl|]. intros [b e1] (_ & (_ & Hd1 & _) & Hb)%addSharer_ok. destruct b.
      * apply wp_retrieve_after; try done. apply put_entry_quiet. unfold coherent. rewrite Hd1, Ed.
        intros E. specialize (Hb (ShmemMsg.m_requester (ShmemReq.m_shmem_msg r))). rewrite E, elem_of_nil in Hb. tauto.
      * subst e1. apply wp_bind. apply wp_intro; [intros _; auto with picl|]. intros [x e2] (_ & Hs2 & (_ & Hd2 & _))%getOneSharer_ok.
        apply wp_sendMsg; [done|]. intros s' Hq _. apply serves_quiet; [done|]. eapply quiet_trans; [|exact Hq].
        apply put_entry_quiet. unfold coherent, sharers. by rewrite Hd2, Ed, Hs2.
  - done.
  - apply wp_bind, wp_check; [done|]. intros _. apply wp_sendMsg; [done|]. intros s' Hq _. by apply serves_quiet.
  - apply wp_bind, wp_check; [done|]. intros _. apply wp_bind, wp_check; [done|]. intros _.
    apply wp_sendMsg; [done|]. intros s' Hq _. by apply serves_quiet.
Qed.

Lemma wp_upgrade_req s r data :
  inv s → at_front s r → is_core_req r = true → (B → (waiting s ≤ n)%nat) →
  wp B (DirCntlr.processUpgradeReqFromL2Cache cfg next r data s) (serves s).
Proof.
  intros Hi Hf Hc Hn. unfold DirCntlr.processUpgradeReqFromL2Cache. apply wp_prologue; [done..|].
  clear s Hi Hf Hn. intros p e s Hi Hf Hn He Hce. unfold coherent in Hce.
  change (snd (DirectoryEntry.getSharersList e)) with (sharers e).
  assert (Howned : sharers e = [DirectoryEntry.m_owner_id e] →
    wp B (let! first := arr_get (sharers e) 0 in
      if first =? ShmemMsg.m_requester (ShmemReq.m_shmem_msg r) then
        let! _ := check (DirectoryEntry.m_owner_id e =? ShmemMsg.m_requester (ShmemReq.m_shmem_msg r)) AssertFail in
        let! s := DirCntlr.send_upgrade_rep cfg s (ShmemMsg.m_requester (ShmemReq.m_shmem_msg r))
                    (ShmemMsg.m_address (ShmemReq.m_shmem_msg r)) (ShmemMsg.m_perf (ShmemReq.m_shmem_msg r)) in
        let! s := DirCntlr.update_entry s p (DirectoryEntry.setDState DirectoryState.MODIFIED) in
        next (ShmemMsg.m_address (ShmemReq.m_shmem_msg r)) s
      else
        DirCntlr.send_to_cache cfg s ShmemMsg.FLUSH_REQ (ShmemMsg.m_requester (ShmemReq.m_shmem_msg r))
          (DirectoryEntry.m_owner_id e) (ShmemMsg.m_address (ShmemReq.m_shmem_msg r))
          (ShmemMsg.m_perf (ShmemReq.m_shmem_msg r))) (serves s)).
  { intros Hown. rewrite Hown. apply wp_bind. change (arr_get [DirectoryEntry.m_owner_id e] 0) with (Ok (DirectoryEntry.m_owner_id e)).
    apply wp_ok. destruct (DirectoryEntry.m_owner_id e =? ShmemMsg.m_requester (ShmemReq.m_shmem_msg r)) eqn:Eo; [|apply wp_sendMsg; [done|]; intros s' Hq _; by apply serves_quiet].
    apply wp_bind, wp_check; [done|]. intros _. apply wp_bind, wp_reply; [done|]. intros s1 Hq1 Hd1 Hr1.
    unfold DirCntlr.update_entry. apply wp_bind, wp_bind. unfold DirCntlr.get_entry in *. rewrite Hd1, He.
    apply (wp_answered s _ r); try done. apply store_ok; [|unfold coherent, sharers in *; cbn; by rewrite Hown].
    rewrite Hd1. apply Hi. }
  destruct (DirectoryEntry.m_dstate e) eqn:Ed; [| |done|by apply Howned..].
  - apply wp_bind, wp_check; [done|]. intros _.
    apply wp_bind, wp_first_sharer; [apply Hi | by intros e' [= <-]%(eq_trans (eq_sym He)) | by left |].
    intros s1 Hq. by apply wp_retrieve_after.
  - case_match eqn:Eone.
    + apply bool_decide_eq_true in Eone. apply wp_bind. apply wp_intro; [intros _; auto with picl|].
      intros e2 (Hsh & _ & _ & Ho & _)%setOwner_ok. apply wp_bind, wp_reply; [done|]. intros s1 Hq1 Hd1 Hr1.
      apply (wp_answered s _ r); try done. unfold dir_coherent. rewrite Hd1. apply store_ok; [apply Hi|].
      unfold coherent, sharers in *. cbn. by rewrite Hsh, Ho.
    + apply wp_bind. apply wp_intro; [intros _; auto with picl|]. intros has _. cbn.
      apply wp_upgrade_sharers. intros s' Hq. by apply serves_quiet.
Qed.

Lemma wp_process_request s r :
  inv s → at_front s r → (B → (waiting s ≤ n)%nat) → wp B (DirCntlr.process_request cfg next r s) (serves s).
Proof.
  intros Hi Hf Hn. unfold DirCntlr.process_request.
  destruct (ShmemMsg.m_msg_type (ShmemReq.m_shmem_msg r)) eqn:Ety; try (by apply wp_err);
    (assert (is_core_req r = true) by (unfold is_core_req, req_type; by rewrite Ety)); by auto using wp_ex_req, wp_sh_req, wp_upgrade_req.
Qed.

Lemma next_body_spec : next_spec (S n) (DirCntlr.processNextReq_body cfg next).
Proof.
  intros a s Hi Hn. unfold DirCntlr.processNextReq_body. apply wp_bind, wp_check; [done|]. intros Hlen%Nat.leb_le.
  destruct Hi as [Hd [Hw Ha]].
  rewrite queued_pending in Hlen. destruct (dequeue_nonempty (queue s) a Hw) as (r & q & Hdq).
  { intros E. rewrite E in Hlen. cbn in Hlen. lia. }
  apply wp_bind. rewrite Hdq. cbn. destruct (dequeue_pending _ _ _ _ Hdq) as [Hp Hoth].
  set (s1 := DirCntlr.set_queue s q).
  assert (Hi1 : inv s1).
  { split; [done|]. split; [by eapply dequeue_wf|]. intros b. destruct (decide (b = a)) as [->|Hne].
    - specialize (Ha a). rewrite Hp in Ha. by apply Forall_cons in Ha as [].
    - cbn. by rewrite Hoth. }
  assert (Hacc : core_reqs [r] ++ account s1 ≡ₚ account s).
  { unfold account. cbn. rewrite (core_reqs_perm _ _ (dequeue_all _ _ _ _ Hdq)).
    unfold core_reqs. cbn -[is_core_req]. by destruct (is_core_req r). }
  assert (Hwait : waiting s = (length (core_reqs [r]) + waiting s1)%nat).
  { unfold waiting. rewrite (Permutation_length (core_reqs_perm _ _ (dequeue_all _ _ _ _ Hdq))).
    unfold core_reqs. cbn -[is_core_req]. by destruct (is_core_req r). }
  destruct (ReqQueueList.empty q a) eqn:Ee.
  - cbn. exists r, (pending_at q a). split_and!; try done; [exists []; by rewrite app_nil_r|].
    intros _. apply dequeue_ok in Hdq as (l & El & ->). assert (l = []) as ->; [|done].
    unfold ReqQueueList.empty in Ee. destruct l as [|r' l]; [done|]. by rewrite lookup_insert_eq in Ee.
  - assert (Hne : pending_at q a ≠ []) by (intros E; apply empty_pending in E; [by rewrite E in Ee|apply (dequeue_wf _ _ _ _ Hw Hdq)]).
    apply wp_bind, wp_intro; [intros _; unfold DirCntlr.front, ReqQueueList.front; no_fuel|]. intros r1 Hr1.
    assert (Hf1 : ReqQueueList.front q a = Ok r1) by exact Hr1. apply front_pending in Hf1 as [l1 Hp1].
    assert (Hr1a : req_address r1 = a) by (by eapply (front_req_address s1)).
    match goal with |- context [DirCntlr.set_clock s1 ?c] => set (s2 := DirCntlr.set_clock s1 c) end.
    eapply wp_mono; [apply (wp_process_request s2 r1)|].
    + exact Hi1.
    + exists r1, l1. by rewrite Hr1a.
    + intros HB. destruct (Hn HB) as [_ [Hl|Hl]].
      * change (waiting s2) with (waiting s1). unfold load in Hl. rewrite Hp in Hl.
        unfold core_reqs in Hwait. cbn -[is_core_req waiting] in Hwait. destruct (is_core_req r); cbn in Hwait; lia.
      * rewrite queued_pending, Hp in Hl. cbn in Hl. by destruct (pending_at q a).
    + intros s' (Hi' & Ha' & Hg). exists r, (pending_at q a). split_and!; try done.
      etrans; [|exact Hacc]. apply Permutation_app_head. exact Ha'.
Qed.
End with_next.

Lemma next_ok n : next_spec n (DirCntlr.processNextReqFromL2Cache cfg n).
Proof.
  induction n as [|n IH]; [|by apply next_body_spec].
  intros a s _ Hn HB. destruct (Hn HB). lia.
Qed.

(** ** Messages *)

Section handlers.
Context (fuel : nat).

Lemma head_at_front s a r : inv s → DirCntlr.front s a = Ok r → req_address r = a ∧ at_front s r.
Proof.
  intros Hi Hr. assert (Hr' : ReqQueueList.front (queue s) a = Ok r) by exact Hr.
  apply front_pending in Hr' as [l Hp]. assert (Ha : req_address r = a) by (by eapply front_req_address).
  split; [done|]. exists r, l. by rewrite Ha.
Qed.

Lemma front_fuel s a : DirCntlr.front s a ≠ Err NoFuel.
Proof. unfold DirCntlr.front, ReqQueueList.front. no_fuel. Qed.
Hint Resolve front_fuel : picl.

Lemma wp_dram_reply s sender m :
  inv s → (B → (waiting s ≤ fuel)%nat) → wp B (DirCntlr.processDRAMReply cfg fuel sender m s) (serves s).
Proof.
  intros Hi Hn. unfold DirCntlr.processDRAMReply. apply wp_bind, wp_check; [done|]. intros _.
  apply wp_bind. apply wp_intro; [intros _; auto with picl|]. intros r [Ha Hf]%head_at_front; [|done].
  rewrite <- Ha.
  apply wp_bind, wp_update_perf. intros s1 Hq1 _ _. apply wp_bind, wp_existing_entry. intros p s2 Hq2.
  assert (Hq12 : quiet s s2) by (by eapply quiet_trans). clear s1 Hq1 Hq2.
  apply wp_bind, wp_get_entry; [by eapply quiet_inv|]. intros e _ _.
  apply wp_bind, wp_update_perf. intros s3 Hq3 _ _. assert (Hq : quiet s s3) by (by eapply quiet_trans). clear s2 Hq12 Hq3.
  apply wp_bind, (wp_mono _ _ (λ ty, is_reply ty = true ∧ is_core_req r = true)).
  { assert (Hc : ∀ b : bool, b = (match req_type r with ShmemMsg.EX_REQ | ShmemMsg.SH_REQ | ShmemMsg.UPGRADE_REQ => true | _ => false end) →
      b = is_core_req r) by (by intros b ->).
    unfold req_type in Hc. destruct (ShmemMsg.m_msg_type (ShmemReq.m_shmem_msg r)); try (by apply wp_err).
    - apply wp_bind, wp_check; [done|]. intros _. apply wp_ok. by rewrite <- (Hc _ eq_refl).
    - apply wp_bind, wp_check; [done|]. intros _. apply wp_ok. rewrite <- (Hc _ eq_refl). by case_match.
    - apply wp_ok. by rewrite <- (Hc _ eq_refl). }
  intros ty [Hty Hc]. apply wp_bind, wp_reply; [done|]. intros s4 Hq4 Hd4 Hr4.
  apply wp_bind, wp_sendDataToNUCA. intros s5 (Hq5 & Hd5 & l & Hl & Hlr) Hdir5.
  destruct Hq as (Hqq & Hqd & l' & Hl' & Hlr').
  apply (wp_answered fuel _ (next_ok fuel)); try done.
  - by rewrite Hq5, Hq4.
  - unfold dir_coherent. rewrite Hdir5, Hd4. apply Hqd, Hi.
  - rewrite Hl, replies_app, Hlr, app_nil_r, Hr4, Hl', replies_app, Hlr', app_nil_r. done.
Qed.

(** Waking the request at the head of a queue. *)
Lemma wp_update_times s a time (R : _ → Prop) :
  inv s →
  (∀ r s', serves s s' → at_front s' r → req_address r = a → R (r, s')) →
  wp B (DirCntlr.update_times s a time) R.
Proof.
  intros Hi HR. unfold DirCntlr.update_times.
  assert (Hs : serves s (DirCntlr.update_front s a (ShmemReq.updateTime time))).
  { apply update_front_serves; [|done]. intros r. unfold ShmemReq.updateTime. by case_match. }
  apply wp_bind. apply wp_intro; [intros _; auto with picl|]. intros r [Ha Hf]%head_at_front; [|apply Hs].
  apply HR; [exact Hs|exact Hf|done].
Qed.

Lemma wp_wake s a time (R : _ → Prop) :
  inv s →
  (∀ r s', serves s s' → at_front s' r → req_address r = a → R (r, s')) →
  wp B (DirCntlr.wake_request s a time) R.
Proof.
  intros Hi HR. unfold DirCntlr.wake_request. apply wp_bind, wp_update_times; [done|]. intros r s1 Hs1 Hf1 Ha1.
  apply wp_bind, wp_update_perf. intros s2 Hq2 _ _. apply wp_bind, wp_update_perf. intros s3 Hq3 _ _.
  assert (Hq : quiet s1 s3) by (by eapply quiet_trans). apply HR; [|by eapply at_front_quiet|done].
  eapply serves_trans; [exact Hs1|]. apply serves_quiet; [apply Hs1|done].
Qed.

(** The rest of a handler after [s1]. *)
Lemma wp_serves s s1 (m : result (DirCntlr.t P Q)) : serves s s1 → wp B m (serves s1) → wp B m (serves s).
Proof. intros Hs Hm. eapply wp_mono; [exact Hm|]. intros s'. by apply serves_trans. Qed.

Lemma serves_then s s1 s2 : serves s s1 → quiet s1 s2 → serves s s2.
Proof. intros Hs Hq. eapply serves_trans; [exact Hs|]. apply serves_quiet; [apply Hs|done]. Qed.

Lemma nullify_reply s r :
  inv s → at_front s r → is_core_req r = false → (B → (waiting s < fuel)%nat) →
  wp B (DirCntlr.processNullifyReq cfg (DirCntlr.next cfg fuel) r s) (serves s).
Proof.
  intros Hi Hf Hc Hn. eapply wp_mono; [apply (wp_nullify fuel _ (next_ok fuel)); try done|by intros s' []].
  intros HB. specialize (Hn HB). split; [lia|left; lia].
Qed.

(** A line that loses a sharer: it becomes uncached when that was the last one. *)
Lemma settle_coherent e e1 e2 sender :
  coherent e → DirectoryEntry.removeSharer e sender = Ok e1 →
  sharers e2 = sharers e1 → DirectoryEntry.m_dstate e2 = DirectoryEntry.m_dstate e1 →
  coherent (if DirectoryEntry.getNumSharers e2 =? 0 then DirectoryEntry.setDState DirectoryState.UNCACHED e2 else e2).
Proof.
  intros He (Hin & (_ & Hd1 & _) & Hsh)%removeSharer_ok Hs2 Hd2. rewrite getNumSharers_length.
  destruct (Z.eqb_spec (Z.of_nat (length (sharers e2))) 0) as [Hz|Hz].
  - unfold coherent. cbn. change (sharers e2 = []). apply length_zero_iff_nil. lia.
  - assert (Hne : sharers e2 ≠ []) by (intros E; by rewrite E in Hz).
    assert (Hone : ∀ x, sharers e = [x] → False).
    { intros x Ex. rewrite Ex in Hin, Hsh. apply list_elem_of_singleton in Hin as ->. cbn in Hsh.
      rewrite Z.eqb_refl in Hsh. cbn in Hsh. congruence. }
    unfold coherent in *. rewrite Hd2, Hd1. destruct (DirectoryEntry.m_dstate e); try done; try (by apply Hone in He).
    rewrite He in Hin. by apply elem_of_nil in Hin.
Qed.

(** The request at the head of the queue goes on after a reply. *)
Lemma wp_resume s s3 s4 r reason k :
  serves s s3 → at_front s3 r → quiet s3 s4 → (B → (waiting s < fuel)%nat) →
  (∀ s5, inv s5 → at_front s5 r → (B → (waiting s5 < fuel)%nat) → wp B (k s5) (serves s5)) →
  wp B (let! s := DirCntlr.updateShmemPerf s4 (ShmemReq.m_shmem_msg r) reason in k s) (serves s).
Proof.
  intros Hs Hf Hq Hn Hk. apply wp_bind, wp_update_perf. intros s5 Hq5 _ _.
  assert (Hq35 : quiet s3 s5) by (by eapply quiet_trans). assert (Hs5 : serves s s5) by (by eapply serves_then).
  eapply wp_serves; [exact Hs5|]. apply Hk; [apply Hs5|by eapply at_front_quiet|].
  intros HB. specialize (Hn HB). apply serves_waiting in Hs5. lia.
Qed.

Lemma wp_inv_rep s sender m :
  inv s → (B → (waiting s < fuel)%nat) → wp B (DirCntlr.processInvRepFromL2Cache cfg fuel sender m s) (serves s).
Proof.
  intros Hi Hn. unfold DirCntlr.processInvRepFromL2Cache. apply wp_bind, wp_existing_entry. intros p s1 Hq1.
  apply wp_bind, wp_get_entry; [by eapply quiet_inv|]. intros e _ He. apply wp_bind, wp_check; [done|]. intros _.
  apply wp_bind. apply wp_intro; [intros _; auto with picl|]. intros e1 He1.
  set (e2 := if DirectoryEntry.m_forwarder_id e1 =? sender then DirectoryEntry.setForwarder INVALID_CORE_ID e1 else e1).
  assert (Hc3 := settle_coherent e e1 e2 sender He He1 ltac:(subst e2; by case_match) ltac:(subst e2; by case_match)).
  set (e3 := if DirectoryEntry.getNumSharers e2 =? 0 then DirectoryEntry.setDState DirectoryState.UNCACHED e2 else e2) in *.
  assert (Hs2 : serves s (DirCntlr.put_entry s1 p e3)).
  { apply serves_quiet; [done|]. eapply quiet_trans; [exact Hq1|]. by apply put_entry_quiet. }
  case_match; [exact Hs2|]. apply wp_bind, wp_update_times; [apply Hs2|]. intros r s3 Hs3 Hf3 _.
  assert (Hss3 : serves s s3) by (by eapply serves_trans).
  assert (Hle : ∀ s5, (B → (waiting s5 < fuel)%nat) → B → (waiting s5 ≤ fuel)%nat) by (intros s5 H5 HB; specialize (H5 HB); lia).
  destruct (is_core_req r) eqn:Hc.
  - assert (Hup : ∀ s4, quiet s3 s4 → wp B (let! s := DirCntlr.updateShmemPerf s4 (ShmemReq.m_shmem_msg r) ShmemPerf.INV_IMBALANCE in
      DirCntlr.processUpgradeReqFromL2Cache cfg (DirCntlr.next cfg fuel) r None s) (serves s)).
    { intros s4 Hq4. eapply wp_resume; eauto. intros. apply (wp_upgrade_req fuel _ (next_ok fuel)); auto. }
    pose proof Hc as Hty. unfold is_core_req, req_type in Hty.
    destruct (ShmemMsg.m_msg_type (ShmemReq.m_shmem_msg r)); try discriminate Hty.
    + case_match; [|exact Hss3]. eapply wp_resume; eauto using quiet_refl. intros.
      apply (wp_ex_req fuel _ (next_ok fuel)); auto.
    + repeat case_match; try exact Hss3. eapply wp_resume; eauto using quiet_refl. intros.
      apply (wp_sh_req fuel _ (next_ok fuel)); auto.
    + case_match.
      * apply wp_bind. apply wp_intro; [intros _; auto with picl|]. intros [|] _; [|exact Hss3]. apply Hup, quiet_refl.
      * destruct (DirectoryEntry.getNumSharers e3 =? 0) eqn:Ez; [|exact Hss3]. apply Hup. apply put_entry_quiet.
        rewrite getNumSharers_length in Ez. unfold coherent. cbn. change (sharers e3 = []).
        apply Z.eqb_eq in Ez. apply length_zero_iff_nil. lia.
  - assert (Hnull : wp B (if bool_decide (DirectoryEntry.m_dstate e3 = DirectoryState.UNCACHED)
      then let! s := DirCntlr.updateShmemPerf s3 (ShmemReq.m_shmem_msg r) ShmemPerf.INV_IMBALANCE in
           DirCntlr.processNullifyReq cfg (DirCntlr.next cfg fuel) r s
      else Ok s3) (serves s)).
    { case_match; [|exact Hss3]. eapply wp_resume; eauto using quiet_refl. intros. by apply nullify_reply. }
    unfold is_core_req, req_type in Hc.
    destruct (ShmemMsg.m_msg_type (ShmemReq.m_shmem_msg r)); try discriminate Hc; exact Hnull.
Qed.

Lemma wp_flush_rep s sender m :
  inv s → (B → (waiting s < fuel)%nat) → wp B (DirCntlr.processFlushRepFromL2Cache cfg fuel sender m s) (serves s).
Proof.
  intros Hi Hn. unfold DirCntlr.processFlushRepFromL2Cache. apply wp_bind, wp_existing_entry. intros p s1 Hq1.
  apply wp_bind, wp_get_entry; [by eapply quiet_inv|]. intros e _ He.
  apply wp_bind. apply wp_intro; [intros _; auto with picl|]. intros has _. apply wp_bind, wp_check; [done|]. intros _.
  apply wp_bind. apply wp_intro; [intros _; auto with picl|]. intros e1 He1.
  apply wp_bind. apply wp_intro; [intros _; auto with picl|]. intros e2 (Hsh2 & Hd2 & _ & _ & _)%setOwner_ok.
  assert (Hc3 := settle_coherent e e1 e2 sender He He1 ltac:(unfold sharers; by rewrite Hsh2) Hd2).
  apply wp_bind, (wp_mono _ _ (λ e3, e3 = (if DirectoryEntry.getNumSharers e2 =? 0
    then DirectoryEntry.setDState DirectoryState.UNCACHED e2 else e2))).
  { case_match; [done|]. by apply wp_bind, wp_check. }
  intros e3 ->. set (e3 := if DirectoryEntry.getNumSharers e2 =? 0 then _ else e2) in *.
  set (s2 := DirCntlr.put_entry s1 p e3).
  assert (Hs2 : serves s s2).
  { apply serves_quiet; [done|]. eapply quiet_trans; [exact Hq1|]. by apply put_entry_quiet. }
  assert (Hwb : ∀ s3 k, serves s s3 → (∀ s4, quiet s3 s4 → wp B (k s4) (serves s)) →
    wp B (let! s := DirCntlr.sendDataToDram cfg s3 (ShmemMsg.m_address m) (ShmemMsg.m_requester m)
                      (ShmemMsg.m_data_buf m) (DirCntlr.now s) in k s) (serves s)).
  { intros s3 k Hs3 Hk. apply wp_bind, wp_sendDataToDram. intros s4 Hq4 _. by apply Hk. }
  case_match.
  { apply wp_sendDataToDram. intros s3 Hq3 _. by eapply serves_then. }
  apply wp_bind, wp_wake; [apply Hs2|]. intros r s3 Hs3 Hf3 _.
  assert (Hss3 : serves s s3) by (by eapply serves_trans).
  assert (Hgo : ∀ k s4, serves s s4 → at_front s4 r →
    (∀ s5, inv s5 → at_front s5 r → (B → (waiting s5 < fuel)%nat) → wp B (k s5) (serves s5)) → wp B (k s4) (serves s)).
  { intros k s4 Hs4 Hf4 Hk. eapply wp_serves; [exact Hs4|]. apply Hk; [apply Hs4|done|].
    intros HB. specialize (Hn HB). apply serves_waiting in Hs4. lia. }
  assert (Hle : ∀ s5, (B → (waiting s5 < fuel)%nat) → B → (waiting s5 ≤ fuel)%nat) by (intros s5 H5 HB; specialize (H5 HB); lia).
  destruct (is_core_req r) eqn:Hc.
  - pose proof Hc as Hty. unfold is_core_req, req_type in Hty.
    destruct (ShmemMsg.m_msg_type (ShmemReq.m_shmem_msg r)); try discriminate Hty.
    + apply Hgo; [done..|]. intros. apply (wp_ex_req fuel _ (next_ok fuel)); auto.
    + apply Hwb; [done|]. intros s4 Hq4. apply (Hgo (λ s, DirCntlr.processShReqFromL2Cache cfg _ r _ s));
        [by eapply serves_then | by eapply at_front_quiet |]. intros. apply (wp_sh_req fuel _ (next_ok fuel)); auto.
    + destruct (DirectoryEntry.getNumSharers e3 =? 0) eqn:Ez.
      * assert (Hq4 : quiet s3 (DirCntlr.put_entry s3 p (DirectoryEntry.setDState DirectoryState.UNCACHED e3))).
        { apply put_entry_quiet. rewrite getNumSharers_length in Ez. unfold coherent. cbn. change (sharers e3 = []).
          apply Z.eqb_eq in Ez. apply length_zero_iff_nil. lia. }
        apply (Hgo (λ s, DirCntlr.processUpgradeReqFromL2Cache cfg _ r _ s));
          [by eapply serves_then | by eapply at_front_quiet |]. intros. apply (wp_upgrade_req fuel _ (next_ok fuel)); auto.
      * apply wp_ok. eapply serves_trans; [exact Hss3|]. apply update_front_serves; [done|apply Hss3].
  - assert (Hnull : wp B (let! s := DirCntlr.sendDataToDram cfg s3 (ShmemMsg.m_address m) (ShmemMsg.m_requester m)
                      (ShmemMsg.m_data_buf m) (DirCntlr.now s) in DirCntlr.processNullifyReq cfg (DirCntlr.next cfg fuel) r s) (serves s)).
    { apply Hwb; [done|]. intros s4 Hq4. apply (Hgo (λ s, DirCntlr.processNullifyReq cfg _ r s));
        [by eapply serves_then | by eapply at_front_quiet |]. intros. by apply nullify_reply. }
    unfold is_core_req, req_type in Hc.
    destruct (ShmemMsg.m_msg_type (ShmemReq.m_shmem_msg r)); try discriminate Hc; exact Hnull.
Qed.

Lemma wp_share_entry s sender a (R : _ → Prop) :
  inv s → (∀ s', quiet s s' → R s') → wp B (DirCntlr.share_entry cfg sender s a) R.
Proof.
  intros Hi HR. unfold DirCntlr.share_entry. apply wp_bind, wp_existing_entry. intros p s1 Hq1.
  apply wp_bind, wp_get_entry; [by eapply quiet_inv|]. intros e _ _.
  apply wp_bind. apply wp_intro; [intros _; auto with picl|]. intros has Hhas%hasSharer_ok.
  apply wp_bind, wp_check; [done|]. intros ->.
  apply wp_bind. apply wp_intro; [intros _; auto with picl|]. intros e2 (Hsh & _)%setOwner_ok. apply wp_ok, HR.
  eapply quiet_trans; [exact Hq1|]. apply put_entry_quiet. unfold coherent, sharers in *. cbn. rewrite Hsh.
  intros E. rewrite E, elem_of_nil in Hhas. tauto.
Qed.

Lemma wp_wb_rep s sender m :
  inv s → (B → (waiting s < fuel)%nat) → wp B (DirCntlr.processWbRepFromL2Cache cfg fuel sender m s) (serves s).
Proof.
  intros Hi Hn. unfold DirCntlr.processWbRepFromL2Cache. apply wp_bind, wp_share_entry; [done|]. intros s1 Hq1.
  case_match; [by apply wp_err|]. assert (Hs1 : serves s s1) by (by apply serves_quiet).
  apply wp_bind, wp_wake; [apply Hs1|]. intros r s2 Hs2 Hf2 _. apply wp_bind, wp_check; [done|]. intros Ety%bool_decide_eq_true.
  assert (Hss2 : serves s s2) by (by eapply serves_trans).
  eapply wp_serves; [exact Hss2|]. apply (wp_sh_req fuel _ (next_ok fuel)); [apply Hss2|done| |].
  - unfold is_core_req, req_type. by rewrite Ety.
  - intros HB. specialize (Hn HB). apply serves_waiting in Hss2. lia.
Qed.

Lemma wp_cp_rep s sender m :
  inv s → wp B (DirCntlr.processCpRepFromL2Cache cfg sender m s) (serves s).
Proof.
  intros Hi. unfold DirCntlr.processCpRepFromL2Cache. apply wp_bind, wp_share_entry; [done|]. intros s1 Hq1.
  apply wp_sendDataToDram. intros s2 Hq2 _. apply serves_quiet; [done|]. by eapply quiet_trans.
Qed.

(** The requests that arrive with a message. *)
Definition arrivals (m : ShmemMsg.t) : list (Z * Z) :=
  match ShmemMsg.m_msg_type m with
  | ShmemMsg.EX_REQ | ShmemMsg.SH_REQ | ShmemMsg.UPGRADE_REQ => [(ShmemMsg.m_address m, ShmemMsg.m_requester m)]
  | _ => []
  end.

Definition handles s m s' : Prop := inv s' ∧ account s' ≡ₚ arrivals m ++ account s ∧ replies_grow s s'.

Lemma wp_enqueue s m time :
  inv s → (B → (waiting s < fuel)%nat) → arrivals m ≠ [] →
  wp B (DirCntlr.enqueue_request cfg fuel m time s) (handles s m).
Proof.
  intros Hi Hn Hm. unfold DirCntlr.enqueue_request.
  apply wp_bind, wp_intro; [intros _; unfold ShmemReq.new; no_fuel|]. intros r Hr.
  assert (Hr' : req_key r = (ShmemMsg.m_address m, ShmemMsg.m_requester m) ∧ core_reqs [r] = arrivals m ∧ is_core_req r = true).
  { unfold ShmemReq.new in Hr. inv_ok. unfold arrivals, core_reqs, is_core_req, req_type in *. cbn in *. by case_match. }
  destruct Hr' as (Hk & Hone & Hc).
  match goal with |- context [DirCntlr.set_queue s ?q] => set (s1 := DirCntlr.set_queue s q) end.
  assert (Hp : ∀ a, pending_at (queue s1) a = if decide (ShmemMsg.m_address m = a) then pending_at (queue s) a ++ [r] else pending_at (queue s) a)
    by (intros a; apply enqueue_pending).
  assert (Hra : req_address r = ShmemMsg.m_address m) by exact (f_equal fst Hk).
  assert (Hi1 : inv s1).
  { destruct Hi as [Hd [Hw Ha]]. split; [done|]. split; [by apply enqueue_wf|]. intros a. rewrite Hp. case_decide; [|apply Ha].
    apply Forall_app. split; [apply Ha|]. constructor; [congruence|constructor]. }
  assert (Ha1 : account s1 ≡ₚ arrivals m ++ account s).
  { unfold account. cbn. rewrite (core_reqs_perm _ _ (enqueue_all _ _ _)), <- Hone.
    unfold core_reqs. cbn -[is_core_req]. by destruct (is_core_req r). }
  assert (Hg1 : replies_grow s s1) by (exists []; by rewrite app_nil_r).
  case_match eqn:Elen; [|by apply wp_ok]. apply Nat.eqb_eq in Elen. rewrite queued_pending, Hp, decide_True in Elen by done.
  rewrite length_app in Elen. cbn in Elen. destruct (pending_at (queue s) (ShmemMsg.m_address m)) eqn:Epa; [|cbn in Elen; lia].
  eapply wp_mono; [apply (wp_process_request fuel _ (next_ok fuel) s1 r); [done| |]|].
  - exists r, []. rewrite Hp, Hra, decide_True by done. by rewrite Epa.
  - intros HB. specialize (Hn HB). unfold waiting in *. subst s1. cbn.
    rewrite (Permutation_length (core_reqs_perm _ _ (enqueue_all _ _ _))).
    unfold core_reqs in *. cbn -[is_core_req]. rewrite Hc. cbn. lia.
  - intros s' (Hi' & Ha' & Hg'). split_and!; [done|by rewrite Ha', Ha1|exact (grow_trans _ _ _ Hg1 Hg')].
Qed.

Lemma handles_serves s m s' : arrivals m = [] → serves s s' → handles s m s'.
Proof. unfold handles. by intros ->. Qed.

Lemma wp_handle_L2 s sender m :
  inv s → (B → (waiting s < fuel)%nat) → wp B (DirCntlr.handleMsgFromL2Cache cfg fuel sender m s) (handles s m).
Proof.
  intros Hi Hn. unfold DirCntlr.handleMsgFromL2Cache. apply wp_bind, wp_getDirectoryEntry. intros r s1 Hq1.
  apply wp_bind, wp_update_perf. intros s2 Hq2 _ _. assert (Hq : quiet s s2) by (by eapply quiet_trans).
  assert (Hi2 : inv s2) by (by eapply quiet_inv). rewrite <- (quiet_waiting _ _ Hq) in Hn.
  apply (wp_mono _ _ (handles s2 m)).
  - destruct (ShmemMsg.m_msg_type m) eqn:Ety; try (by apply wp_err);
      try (apply wp_enqueue; [done..|unfold arrivals; by rewrite Ety]).
      all: (eapply wp_mono; [|intros s'; apply handles_serves; unfold arrivals; by rewrite Ety]);
      auto using wp_inv_rep, wp_flush_rep, wp_wb_rep, wp_cp_rep.
  - intros s' (Hi' & Ha & Hg). split_and!; [done|by rewrite Ha, (quiet_account _ _ Hq)|].
    eapply grow_trans; [by apply quiet_grow|done].
Qed.

Lemma wp_handle_DRAM s sender m :
  inv s → (B → (waiting s < fuel)%nat) → wp B (DirCntlr.handleMsgFromDRAM cfg fuel sender m s) (handles s m).
Proof.
  intros Hi Hn. unfold DirCntlr.handleMsgFromDRAM. destruct (ShmemMsg.m_msg_type m) eqn:Ety; try (by apply wp_err).
  eapply wp_mono; [apply wp_dram_reply; [done|]|].
  - intros HB. specialize (Hn HB). lia.
  - intros s'. apply handles_serves. unfold arrivals. by rewrite Ety.
Qed.

(** ** Packets *)

Definition to_directory (pkt : DirCntlr.packet) : Prop :=
  ShmemMsg.m_receiver_mem_component (fst (DirCntlr.p_data pkt)) = MemComponent.TAG_DIR.
Definition pkt_msg (pkt : DirCntlr.packet) : ShmemMsg.t := ShmemMsg.getShmemMsg (DirCntlr.p_data pkt).

Lemma free_buffers_serves s :
  inv s → serves s (DirCntlr.set_queue s (fmap (M := gmap Z) (map DirCntlr.free_buffer) (queue s))).
Proof.
  intros (Hd & Hw & Ha).
  assert (Hf : ∀ r, req_key (DirCntlr.free_buffer r) = req_key r ∧ is_core_req (DirCntlr.free_buffer r) = is_core_req r).
  { intros r. unfold DirCntlr.free_buffer. by repeat case_match. }
  assert (Hp : ∀ a, pending_at (fmap (M := gmap Z) (map DirCntlr.free_buffer) (queue s)) a =
    map DirCntlr.free_buffer (pending_at (queue s) a)).
  { intros a. unfold pending_at. rewrite lookup_fmap. by destruct (queue s !! a). }
  split_and!.
  - split; [done|]. split.
    + intros a l. cbn. rewrite lookup_fmap. intros Hl. apply fmap_Some in Hl as (l' & Hl' & ->).
      specialize (Hw a _ Hl'). by destruct l'.
    + intros a. cbn. rewrite Hp. apply Forall_map. eapply Forall_impl; [apply Ha|]. intros r Hr.
      unfold compose. change (fst (req_key (DirCntlr.free_buffer r)) = a). by rewrite (proj1 (Hf r)).
  - unfold account. cbn. apply Permutation_app_tail. unfold all_reqs. rewrite map_to_list_fmap.
    induction (map_to_list (queue s)) as [|[a l] ls IH]; [done|]. cbn. unfold core_reqs in *.
    rewrite !List.filter_app, !map_app. apply Permutation_app; [|exact IH].
    induction l as [|r l IHl]; [done|]. cbn -[is_core_req]. destruct (Hf r) as [Hk ->].
    case_match; cbn; [|exact IHl]. rewrite Hk. by constructor.
  - exists []. by rewrite app_nil_r.
Qed.

Lemma arrivals_received pkt : arrivals (pkt_msg pkt) = arrivals (fst (DirCntlr.p_data pkt)).
Proof. unfold pkt_msg, ShmemMsg.getShmemMsg. destruct (DirCntlr.p_data pkt) as [m d]. by case_match. Qed.

Lemma wp_network s tc td pkt d :
  inv s → to_directory pkt → (B → (waiting s < fuel)%nat) →
  wp B (DirCntlr.handleMsgFromNetwork cfg fuel tc td pkt d s) (handles s (fst (DirCntlr.p_data pkt))).
Proof.
  intros Hi Hto Hn. unfold DirCntlr.handleMsgFromNetwork. fold (pkt_msg pkt).
  assert (Hrec : ShmemMsg.m_receiver_mem_component (pkt_msg pkt) = MemComponent.TAG_DIR).
  { unfold pkt_msg, ShmemMsg.getShmemMsg, to_directory in *. destruct (DirCntlr.p_data pkt) as [m b]. by case_match. }
  apply wp_bind. destruct (ShmemMsg.m_perf (pkt_msg pkt)) as [perf|]; [|by apply wp_err]. apply wp_ok.
  match goal with |- context [DirCntlr.set_perfs ?s ?f] => set (s1 := DirCntlr.set_perfs s f) end.
  assert (Hq1 : quiet s s1) by exact (quiet_refl s).
  rewrite Hrec. apply wp_bind, (wp_mono _ _ (handles s1 (pkt_msg pkt))).
  - destruct (ShmemMsg.m_sender_mem_component (pkt_msg pkt)); try (by apply wp_err);
      [apply wp_handle_L2|apply wp_handle_DRAM]; done.
  - intros s2 (Hi2 & Ha2 & Hg2). rewrite arrivals_received in Ha2.
    assert (Hh : handles s (fst (DirCntlr.p_data pkt)) s2) by (by split_and!).
    case_match; [|exact Hh]. apply wp_bind, wp_check; [done|]. intros _. apply wp_ok.
    destruct (free_buffers_serves s2 Hi2) as (Hi3 & Ha3 & Hg3).
    split_and!; [done | by rewrite Ha3 | exact (grow_trans _ _ _ Hg2 Hg3)].
Qed.

Lemma wp_deliver s tc td pkts :
  inv s → Forall (λ p, to_directory (fst p)) pkts → (B → (waiting s + length pkts ≤ fuel)%nat) →
  wp B (DirCntlr.deliver cfg fuel tc td pkts s) (λ s', inv s' ∧
    account s' ≡ₚ concat (map (λ p, arrivals (fst (DirCntlr.p_data (fst p)))) pkts) ++ account s).
Proof.
  revert s. induction pkts as [|[pkt d] pkts IH]; intros s Hi Hto Hn; cbn [DirCntlr.deliver]; [by apply wp_ok|].
  apply Forall_cons in Hto as [Hto Htos]. apply wp_bind. eapply wp_mono; [apply wp_network; [done..|]|].
  - intros HB. specialize (Hn HB). cbn in Hn. lia.
  - intros s1 (Hi1 & Ha1 & l & Hg1). eapply wp_mono; [apply IH; [done..|]|].
    + intros HB. specialize (Hn HB). cbn in Hn. apply Permutation_length in Ha1. unfold account in Ha1.
      rewrite !length_app, Hg1, length_app in Ha1. unfold waiting in *.
      assert (length (arrivals (fst (DirCntlr.p_data pkt))) ≤ 1)%nat by (unfold arrivals; case_match; cbn; lia). lia.
    + intros s' [Hi' Ha']. split; [done|]. rewrite Ha', Ha1. cbn. rewrite !app_assoc.
      apply Permutation_app_tail, Permutation_app_comm.
Qed.
End handlers.

Lemma new_inv nuca u ue te assoc bs ms mh ty at_ pen clock po s :
  DirCntlr.new nuca u ue te assoc bs ms mh ty at_ pen clock po = Ok s → inv s ∧ account s = [].
Proof.
  unfold DirCntlr.new, DramDirectoryCache.new, Directory.new. intros E. inv_ok.
  split; [|done]. split; [apply map_Forall_empty|]. split; [apply map_Forall_empty|].
  intros a. unfold pending_at. cbn. rewrite lookup_empty. constructor.
Qed.
End proofs.

(** * Properties *)

(** A controller as the constructor leaves it. *)
Definition started {P Q} (s : DirCntlr.t P Q) : Prop :=
  ∃ nuca u ue te assoc bs ms mh ty at_ pen clock po,
    DirCntlr.new nuca u ue te assoc bs ms mh ty at_ pen clock po = Ok s.

Lemma started_inv {P Q} (s : DirCntlr.t P Q) : started s → inv s ∧ account s = [].
Proof. intros (? & ? & ? & ? & ? & ? & ? & ? & ? & ? & ? & ? & ? & E). by eapply new_inv. Qed.

(** The requests that a sequence of packets brings to the directory. *)
Definition requests_of (pkts : list (DirCntlr.packet * Z)) : list (Z * Z) :=
  concat (map (λ p, arrivals (fst (DirCntlr.p_data (fst p)))) pkts).

(** [C7] The directory answers every request exactly once.  Whatever packets it is given
    after its construction, in whatever order, with any coherence protocol, directory
    scheme, NUCA cache and fuel: the replies it has sent ([EX_REP], [SH_REP] or
    [UPGRADE_REP], to the requester of the line) together with the requests that are still
    queued are exactly the requests that have arrived. *)
Theorem directory_conserves_requests {P} `{Policy P} {Q} `{QueueModel Q} cfg fuel tc td pkts (s0 s : DirCntlr.t P Q) :
  started s0 → Forall (λ p, to_directory (fst p)) pkts →
  DirCntlr.deliver cfg fuel tc td pkts s0 = Ok s →
  replies (DirCntlr.sent s) ++ core_reqs (all_reqs (DirCntlr.m_dram_directory_req_queue_list s)) ≡ₚ requests_of pkts.
Proof.
  intros [Hi Ha]%started_inv Hto Hd.
  destruct (wp_elim _ _ _ _ (wp_deliver cfg False ltac:(done) fuel s0 tc td pkts Hi Hto ltac:(done)) Hd) as [_ Hacc].
  rewrite Ha, app_nil_r in Hacc. rewrite Permutation_app_comm. exact Hacc.
Qed.

(** [C8] One writer or many readers, as far as the directory knows: in every state the
    directory controller can reach, each of its entries is uncached without sharers,
    shared with at least one, or owned ([MODIFIED] or [EXCLUSIVE]) by its only sharer. *)
Theorem directory_coherent {P} `{Policy P} {Q} `{QueueModel Q} cfg fuel tc td pkts (s0 s : DirCntlr.t P Q) p e :
  started s0 → Forall (λ p, to_directory (fst p)) pkts →
  DirCntlr.deliver cfg fuel tc td pkts s0 = Ok s →
  DirCntlr.get_entry s p = Ok e →
  match DirectoryEntry.m_dstate e with
  | DirectoryState.UNCACHED => sharers e = []
  | DirectoryState.SHARED => sharers e ≠ []
  | DirectoryState.MODIFIED | DirectoryState.EXCLUSIVE => sharers e = [DirectoryEntry.m_owner_id e]
  | DirectoryState.OWNED => False
  end.
Proof.
  intros [Hi _]%started_inv Hto Hd He.
  destruct (wp_elim _ _ _ _ (wp_deliver cfg False ltac:(done) fuel s0 tc td pkts Hi Hto ltac:(done)) Hd) as [[Hc _] _].
  by eapply (deref_P coherent) in He.
Qed.

(** [C9] The mutual recursion of the request handlers ends: with one unit of fuel per
    packet delivered, whatever the packets are, no call of [processNextReqFromL2Cache]
    runs out of it. *)
Theorem directory_terminates {P} `{TotalPolicy P} {Q} `{TotalQueue Q} cfg fuel tc td pkts (s0 : DirCntlr.t P Q) :
  started s0 → Forall (λ p, to_directory (fst p)) pkts → (length pkts ≤ fuel)%nat →
  DirCntlr.deliver cfg fuel tc td pkts s0 ≠ Err NoFuel.
Proof.
  intros [Hi Ha]%started_inv Hto Hlen Hd.
  assert (Hw : waiting s0 = 0%nat).
  { apply (f_equal length) in Ha. unfold account in Ha. rewrite length_app in Ha. unfold waiting. cbn in Ha. lia. }
  pose proof (wp_deliver cfg True ltac:(by split) fuel s0 tc td pkts Hi Hto) as Hwp.
  rewrite Hw, Hd in Hwp. unfold wp in Hwp. by apply Hwp; [intros _; exact Hlen|..].
Qed.

Section example.
#[local] Existing Instance no_queue.

Definition example_clock : ShmemPerfModel.t := ShmemPerfModel.new.
Definition example_cfg (protocol : CoherencyProtocol.type_t) : DirCntlr.config :=
  DirCntlr.mk_config 0 0 64 protocol (AddressHomeLookup.mk 6 63 [0] 1 64) 0 (-1) HitWhere.UNKNOWN
    {| NucaCache.eviction := false; NucaCache.evict_address := 0; NucaCache.evict_buf := None |} [].

(** Four entries in one set, no NUCA cache. *)
Definition example_dir : result (DirCntlr.t LRU.t unit) :=
  DirCntlr.new None [0] 0 4 4 64 4 4 "full_map" (ComponentLatency.mk 1 1) 0 example_clock (λ _, ShmemPerf.new).

Definition from_cache (core : Z) (ty : ShmemMsg.msg_t) (data : option bytes) : DirCntlr.packet * Z :=
  (DirCntlr.mk_packet 100 core 0
     (ShmemMsg.new ty MemComponent.LAST_LEVEL_CACHE MemComponent.TAG_DIR core 0x40
        (match data with Some d => Some (Live d) | None => None end)
        (match data with Some d => Z.of_nat (length d) | None => 0 end) (Some core),
      default [] data), 0).
Definition from_dram (requester : Z) : DirCntlr.packet * Z :=
  (DirCntlr.mk_packet 200 0 0
     (ShmemMsg.setWhere (ShmemMsg.new ShmemMsg.DRAM_READ_REP MemComponent.DRAM MemComponent.TAG_DIR requester 0x40
        (Some (Live (replicate 64 9))) 64 (Some requester)) HitWhere.DRAM, replicate 64 9), 0).
Definition no_handler : Z → ShmemMsg.t → DirCntlr.t LRU.t unit → result (DirCntlr.t LRU.t unit) := λ _ _ _, Err LogError.

(** Two cores read a line, the first read is still under way when the second arrives. *)
Definition example_pkts : list (DirCntlr.packet * Z) :=
  [from_cache 1 ShmemMsg.SH_REQ None; from_cache 2 ShmemMsg.SH_REQ None; from_dram 1].

Definition example_start : DirCntlr.t LRU.t unit :=
  DirCntlr.mk
    (DramDirectoryCache.mk (Directory.mk Directory.FULL_MAP 4 0 4 4 4 0 (replicate 4 None) ∅ 0) [0] [] 4 1 0 6
       (ComponentLatency.mk 1 1))
    ∅ None example_clock (λ _, ShmemPerf.new)
    (λ d, match d with DirectoryState.UNCACHED => 0 | _ => 0 end) 0 0 [].

Lemma example_started : example_dir = Ok example_start ∧ started example_start.
Proof.
  split; [reflexivity|].
  exists None, [0], 0, 4, 4, 64, 4, 4, "full_map"%string, (ComponentLatency.mk 1 1), 0, example_clock, (λ _, ShmemPerf.new).
  reflexivity.
Defined.

Definition example_deliver (pkts : list (DirCntlr.packet * Z)) : result (DirCntlr.t LRU.t unit) :=
  DirCntlr.deliver (example_cfg CoherencyProtocol.MSI) 8 no_handler no_handler pkts example_start.

(** What a run sends and whether its first entry is shared. *)
Definition example_outcome (m : result (DirCntlr.t LRU.t unit)) : option (list (Z * Z) * bool) :=
  match m with
  | Ok s => Some (replies (DirCntlr.sent s),
                  match DirCntlr.get_entry s 0 with
                  | Ok e => bool_decide (DirectoryEntry.m_dstate e = DirectoryState.SHARED)
                  | Err _ => false
                  end)
  | Err _ => None
  end.

Lemma example_run : ∃ s, example_deliver example_pkts = Ok s ∧ example_outcome (Ok s) = Some ([(0x40, 1)], true).
Proof.
  assert (E : example_outcome (example_deliver example_pkts) = Some ([(0x40, 1)], true)) by (vm_compute; reflexivity).
  destruct (example_deliver example_pkts) as [s|e]; [by exists s | discriminate].
Defined.

Lemma example_to_directory : Forall (λ p, to_directory (fst p)) example_pkts.
Proof. repeat constructor. Defined.

Lemma directory_conserves_requests_witness :
  ∃ s, example_deliver example_pkts = Ok s ∧ replies (DirCntlr.sent s) = [(0x40, 1)] ∧
    replies (DirCntlr.sent s) ++ core_reqs (all_reqs (DirCntlr.m_dram_directory_req_queue_list s)) ≡ₚ [(0x40, 1); (0x40, 2)].
Proof.
  destruct example_run as (s & E & Ho). exists s. split; [exact E|]. split; [by injection Ho|].
  apply (directory_conserves_requests (example_cfg CoherencyProtocol.MSI) 8 no_handler no_handler example_pkts example_start);
    [exact (proj2 example_started) | exact example_to_directory | exact E].
Defined.

Lemma directory_coherent_witness :
  ∃ s e, example_deliver example_pkts = Ok s ∧ DirCntlr.get_entry s 0 = Ok e ∧
    DirectoryEntry.m_dstate e = DirectoryState.SHARED ∧ sharers e ≠ [].
Proof.
  destruct example_run as (s & E & Ho). exists s. cbn in Ho.
  destruct (DirCntlr.get_entry s 0) as [e|] eqn:Ee; [|discriminate]. exists e. split; [exact E|]. split; [done|].
  injection Ho as _ Hs. apply bool_decide_eq_true in Hs. split; [done|].
  unfold example_deliver in E. pose proof (directory_coherent (example_cfg CoherencyProtocol.MSI) 8 no_handler no_handler example_pkts example_start s 0 e
    (proj2 example_started) example_to_directory E Ee) as Hc. by rewrite Hs in Hc.
Defined.

#[local] Instance no_queue_total : TotalQueue unit.
Proof. intros q t d r. discriminate. Defined.

Lemma directory_terminates_witness :
  started example_start ∧ example_deliver example_pkts ≠ Err NoFuel.
Proof.
  split; [exact (proj2 example_started)|]. unfold example_deliver.
  apply (directory_terminates (example_cfg CoherencyProtocol.MSI) 8 no_handler no_handler example_pkts example_start);
    [exact (proj2 example_started) | exact example_to_directory | cbn; lia].
Defined.

(** Data kept for an upgrade dangle: when the requester of an upgrade holds no copy, one
    sharer flushes its data and the others are invalidated; if the flush arrives before the
    last invalidation, the request keeps a pointer to the data of a message that is deleted
    as soon as it has been handled, and the reply is built from freed memory. *)
Theorem upgrade_uses_freed_data :
  example_deliver
    [from_cache 1 ShmemMsg.SH_REQ None; from_dram 1; from_cache 2 ShmemMsg.SH_REQ None; from_dram 2;
     from_cache 3 ShmemMsg.UPGRADE_REQ None;              (* core 3 has no copy *)
     from_cache 1 ShmemMsg.FLUSH_REP (Some (replicate 64 9));
     from_cache 2 ShmemMsg.INV_REP None] = Err UseAfterFree.
Proof. vm_compute. reflexivity. Qed.
End example.

Lemma invalidate_sharers_sent {P Q} cfg (s s' : DirCntlr.t P Q) req a perf l :
  DirCntlr.invalidate_sharers cfg s req a perf l = Ok s' →
  DirCntlr.m_dram_directory_cache s' = DirCntlr.m_dram_directory_cache s ∧
  ∃ pkts, DirCntlr.sent s' = DirCntlr.sent s ++ pkts ∧
    map (λ pkt, (DirCntlr.p_receiver pkt, ShmemMsg.m_msg_type (fst (DirCntlr.p_data pkt)))) pkts =
      map (λ c, (c, ShmemMsg.INV_REQ)) l.
Proof.
  revert s perf. induction l as [|c l IH]; intros s perf E; cbn in E; inv_ok.
  - split; [done|]. exists []. by rewrite app_nil_r.
  - match goal with Hm : DirCntlr.send_to_cache _ _ _ _ _ _ _ = Ok _ |- _ =>
      apply sendMsg_ok in Hm as (_ & Hd & p & Hp & Hr & Hty & _) end.
    apply IH in E as (Hd' & pkts & Hs & Hm). split; [congruence|]. exists (p :: pkts).
    rewrite Hs, Hp, <- app_assoc. split; [done|]. cbn. by rewrite Hr, Hty, Hm.
Qed.

(** A request for a line that others only read invalidates exactly them: the packets
    that [EX_REQ] sends for a shared line are one [INV_REQ] per sharer, in the order of the
    cores, and the entry is left as it was until they answer. *)
Theorem ex_req_invalidates_sharers {P} `{Policy P} {Q} `{QueueModel Q} cfg next r (s s' : DirCntlr.t P Q) p c m e :
  DramDirectoryCache.getDirectoryEntry (DirCntlr.uninit_forwarder cfg) (DirCntlr.m_dram_directory_cache s)
    (DirCntlr.m_shmem_perf_model s) (req_address r) false = Ok (Some p, c, m) →
  Directory.deref (DramDirectoryCache.m_directory c) p = Ok e →
  DirectoryEntry.m_dstate e = DirectoryState.SHARED →
  DirCntlr.processExReqFromL2Cache cfg next r None s = Ok s' →
  ∃ pkts, DirCntlr.sent s' = DirCntlr.sent s ++ pkts ∧
    map (λ pkt, (DirCntlr.p_receiver pkt, ShmemMsg.m_msg_type (fst (DirCntlr.p_data pkt)))) pkts =
      map (λ c, (c, ShmemMsg.INV_REQ)) (sharers e) ∧
    DirCntlr.get_entry s' p = Ok e.
Proof.
  intros Hg He Hd E. unfold DirCntlr.processExReqFromL2Cache, DirCntlr.updateShmemPerf, DirCntlr.update_perf,
    DirCntlr.request_entry, DirCntlr.getDirectoryEntry in E.
  destruct (ShmemMsg.m_perf (ShmemReq.m_shmem_msg r)) as [perf|]; [|done]. cbn in E.
  change (ShmemMsg.m_address (ShmemReq.m_shmem_msg r)) with (req_address r) in E. rewrite Hg in E. cbn in E.
  unfold DirCntlr.get_entry in E. cbn in E. rewrite He in E. cbn in E. rewrite Hd in E. cbn in E.
  apply invalidate_sharers_sent in E as (Hdir & pkts & Hs & Hm). exists pkts. split; [done|]. split; [done|].
  unfold DirCntlr.get_entry. rewrite Hdir. exact He.
Qed.

Section example_ex.
#[local] Existing Instance no_queue.

(** Entry 0 is shared by cores 1 and 3. *)
Definition example_shared : DirectoryEntry.t :=
  DirectoryEntry.mk 0x40 DirectoryState.SHARED (-1) (-1) [false; true; false; true] (DirectoryEntry.LimitedNoBroadcast 1).
Definition example_shared_dir : DirCntlr.t LRU.t unit :=
  DirCntlr.set_dir example_start
    (DramDirectoryCache.mk (Directory.mk Directory.FULL_MAP 4 1 4 4 4 0 [Some 0%nat; None; None; None] {[0%nat := example_shared]} 1)
       [0] [] 4 1 0 6 (ComponentLatency.mk 1 1)).
Definition example_ex_req : ShmemReq.t :=
  ShmemReq.mk (ShmemMsg.new ShmemMsg.EX_REQ MemComponent.LAST_LEVEL_CACHE MemComponent.TAG_DIR 2 0x40 None 0 (Some 2)) 100 false (-1).

Lemma ex_req_invalidates_sharers_witness :
  ∃ s' pkts, DirCntlr.processExReqFromL2Cache (example_cfg CoherencyProtocol.MSI) (λ _ s, Ok s) example_ex_req None example_shared_dir = Ok s' ∧
    DirCntlr.sent s' = [] ++ pkts ∧
    map (λ pkt, (DirCntlr.p_receiver pkt, ShmemMsg.m_msg_type (fst (DirCntlr.p_data pkt)))) pkts =
      [(1, ShmemMsg.INV_REQ); (3, ShmemMsg.INV_REQ)].
Proof.
  assert (E : is_ok (DirCntlr.processExReqFromL2Cache (example_cfg CoherencyProtocol.MSI) (λ _ s, Ok s) example_ex_req None example_shared_dir) = true)
    by (vm_compute; reflexivity).
  destruct (DirCntlr.processExReqFromL2Cache _ _ _ _ _) as [s'|] eqn:Ex; [|discriminate].
  destruct (ex_req_invalidates_sharers (example_cfg CoherencyProtocol.MSI) (λ _ s, Ok s) example_ex_req example_shared_dir s' 0
    (DirCntlr.m_dram_directory_cache example_shared_dir) example_clock example_shared) as (pkts & Hs & Hm & _);
    [vm_compute; reflexivity | vm_compute; reflexivity | reflexivity | exact Ex |].
  exists s', pkts. split; [exact eq_refl|]. split; [exact Hs|exact Hm].
Defined.
End example_ex.
