(* ===== verification/Memory.v ===== *)
(** The memory controllers: [dram/dram_cntlr_interface.*],
    [pr_l1_pr_l2_dram_directory_msi/dram_cntlr.*] and [nvm_cntlr.*], their performance
    models [performance_model/dram_perf_model_constant.*], [dram_perf_model_readwrite.*],
    [nvm_perf_model_constant.*], [nvm_perf_model_readwrite.*], and the cache in front of
    memory, [dram/dram_cache.*].

    The controllers are modelled without a fault injector (but with the data that a fault
    injection manager makes them keep); the access counts that are compiled out, and
    the performance models that draw latencies from a normal distribution, are left out. *)
From S2P Require Import Prelude Timing QueueModels BlockInfo AddressMap Replacement CacheModel ShmemMsg Directory Nuca DirCntlr.

(** A [ShmemPerf*] that may be null: [perf->updateTime(time, reason)]. *)
Definition perf_update_time (perf : option ShmemPerf.t) (time : Z) (reason : ShmemPerf.shmem_times_type_t) :
    result (option ShmemPerf.t) :=
  match perf with
  | None => Err NullPointer
  | Some p => Ok (Some (ShmemPerf.updateTime p time reason))
  end.

(** ** [dram_cntlr_interface.h] *)
Inductive access_t := READ | WRITE.

(** The virtual functions.  [getDataFromDram] returns the latency, where it hit, the
    buffer and the [ShmemPerf] it was given; what a caller passes as [data_buf] is what
    its buffer holds before the call. *)
Class DramCntlrInterface (M : Type) := {
  getDataFromDram : M → Z (* address *) → Z (* requester *) → bytes → Z (* now *) → option ShmemPerf.t →
    result (Z * HitWhere.where_t * bytes * option ShmemPerf.t * M);
  putDataToDram : M → Z (* address *) → Z (* requester *) → option buffer → Z (* now *) →
    result (Z * HitWhere.where_t * M);
}.

(** ** Performance models *)

(** [dram_perf_model.h]: the virtual function. *)
Class DramPerfModel (D : Type) :=
  getAccessLatency : D → Z (* pkt_time *) → Z (* pkt_size *) → Z (* requester *) → access_t → option ShmemPerf.t →
    result (Z * option ShmemPerf.t * D).

(** [m_enabled] and [m_num_accesses] of [DramPerfModel], and [getApplicationCores()]. *)
Record perf_base := mk_base {
  m_enabled : bool;
  m_num_accesses : Z;              (* UInt64 *)
  application_cores : Z;
}.
Definition enable (b : perf_base) : perf_base := mk_base true (m_num_accesses b) (application_cores b).
Definition disable (b : perf_base) : perf_base := mk_base false (m_num_accesses b) (application_cores b).
Definition count_access (b : perf_base) : perf_base :=
  mk_base (m_enabled b) (u64 (m_num_accesses b + 1)) (application_cores b).

(** Whether an access is timed at all. *)
Definition is_modeled (b : perf_base) (requester : Z) : bool :=
  m_enabled b && negb (application_cores b <=? requester).

(** [m_queue_model ? m_queue_model->computeQueueDelay(...) : Zero()]. *)
Definition queue_delay_of {Q} `{QueueModel Q} (q : option Q) (pkt_time processing_time requester : Z) :
    result (Z * option Q) :=
  match q with
  | Some q => let! (d, q) := computeQueueDelay q pkt_time processing_time requester in Ok (d, Some q)
  | None => Ok (SubsecondTime.Zero, None)
  end.

(** The three parts of an access, attributed one after the other. *)
Definition attribute_access (perf : option ShmemPerf.t) (pkt_time queue_delay processing_time access_cost : Z) :
    result (option ShmemPerf.t) :=
  let! perf := perf_update_time perf pkt_time ShmemPerf.UNKNOWN in
  let t_queue := SubsecondTime.add pkt_time queue_delay in
  let! perf := perf_update_time perf t_queue ShmemPerf.DRAM_QUEUE in
  let t_bus := SubsecondTime.add t_queue processing_time in
  let! perf := perf_update_time perf t_bus ShmemPerf.DRAM_BUS in
  perf_update_time perf (SubsecondTime.add t_bus access_cost) ShmemPerf.DRAM_DEVICE.

Definition access_latency_of (queue_delay processing_time access_cost : Z) : Z :=
  SubsecondTime.add (SubsecondTime.add queue_delay processing_time) access_cost.

(** [dram_perf_model_constant.*] and [nvm_perf_model_constant.*]: they differ in the cost of
    an access, which is one configured time for DRAM and depends on its type for NVM. *)
Module PerfModelConstant.
Record t (Q : Type) := mk {
  base : perf_base;
  m_queue_model : option Q;
  access_cost : access_t → Z;
  m_bandwidth : ComponentBandwidth.t;
  m_total_queueing_delay : Z;
  m_total_access_latency : Z;
}.
Arguments mk {Q} _ _ _ _ _ _.
Arguments base {Q} _.
Arguments m_queue_model {Q} _.
Arguments access_cost {Q} _ _.
Arguments m_bandwidth {Q} _.
Arguments m_total_queueing_delay {Q} _.
Arguments m_total_access_latency {Q} _.

Section ops.
Context {Q : Type} `{QueueModel Q}.

(** [DramPerfModelConstant::DramPerfModelConstant]. *)
Definition new_dram (cores : Z) (q : option Q) (bandwidth : ComponentBandwidth.t) (dram_access_cost : Z) : t Q :=
  mk (mk_base false 0 cores) q (λ _, dram_access_cost) bandwidth SubsecondTime.Zero SubsecondTime.Zero.

(** [NvmPerfModelConstant::NvmPerfModelConstant]; its third cost, for writes to the log, is never used. *)
Definition new_nvm (cores : Z) (q : option Q) (bandwidth : ComponentBandwidth.t) (nvm_read_cost nvm_write_cost : Z) : t Q :=
  mk (mk_base false 0 cores) q (λ a, match a with WRITE => nvm_write_cost | READ => nvm_read_cost end)
     bandwidth SubsecondTime.Zero SubsecondTime.Zero.

Definition getAccessLatency (m : t Q) (pkt_time pkt_size requester : Z) (access_type : access_t)
    (perf : option ShmemPerf.t) : result (Z * option ShmemPerf.t * t Q) :=
  if negb (is_modeled (base m) requester) then Ok (SubsecondTime.Zero, perf, m)
  else
    let! processing_time := ComponentBandwidth.getRoundedLatency (m_bandwidth m) (u64 (8 * pkt_size)) in
    let! (queue_delay, q) := queue_delay_of (m_queue_model m) pkt_time processing_time requester in
    let cost := access_cost m access_type in
    let access_latency := access_latency_of queue_delay processing_time cost in
    let! perf := attribute_access perf pkt_time queue_delay processing_time cost in
    Ok (access_latency, perf,
        mk (count_access (base m)) q (access_cost m) (m_bandwidth m)
           (SubsecondTime.add (m_total_queueing_delay m) queue_delay)
           (SubsecondTime.add (m_total_access_latency m) access_latency)).

#[global] Instance model : DramPerfModel (t Q) := getAccessLatency.
End ops.
End PerfModelConstant.

(** [dram_perf_model_readwrite.*] and [nvm_perf_model_readwrite.*], which differ in the same way. *)
Module PerfModelReadWrite.
Record t (Q : Type) := mk {
  base : perf_base;
  m_queue_model_read : option Q;
  m_queue_model_write : option Q;
  access_cost : access_t → Z;
  m_bandwidth : ComponentBandwidth.t;
  m_shared_readwrite : bool;
  m_total_read_queueing_delay : Z;
  m_total_write_queueing_delay : Z;
  m_total_access_latency : Z;
}.
Arguments mk {Q} _ _ _ _ _ _ _ _ _.
Arguments base {Q} _.
Arguments m_queue_model_read {Q} _.
Arguments m_queue_model_write {Q} _.
Arguments access_cost {Q} _ _.
Arguments m_bandwidth {Q} _.
Arguments m_shared_readwrite {Q} _.
Arguments m_total_read_queueing_delay {Q} _.
Arguments m_total_write_queueing_delay {Q} _.
Arguments m_total_access_latency {Q} _.

Section ops.
Context {Q : Type} `{QueueModel Q}.

(** [DramPerfModelReadWrite::DramPerfModelReadWrite] with one cost for both types of access,
    [NvmPerfModelReadWrite::NvmPerfModelReadWrite] with two. *)
Definition new (cores : Z) (q : option (Q * Q)) (bandwidth : ComponentBandwidth.t) (read_cost write_cost : Z)
    (shared_readwrite : bool) : t Q :=
  mk (mk_base false 0 cores) (fst <$> q) (snd <$> q)
     (λ a, match a with WRITE => write_cost | READ => read_cost end) bandwidth shared_readwrite
     SubsecondTime.Zero SubsecondTime.Zero SubsecondTime.Zero.

(** [m_queue_model_write->computeQueueDelay(...)]. *)
Definition write_queue (m : t Q) (pkt_time processing_time requester : Z) : result (Z * option Q) :=
  match m_queue_model_write m with
  | None => Err NullPointer
  | Some q => let! (d, q) := computeQueueDelay q pkt_time processing_time requester in Ok (d, Some q)
  end.

(** The queueing delay, and the two queues after the access. *)
Definition access_queues (m : t Q) (pkt_time processing_time requester : Z) (access_type : access_t) :
    result (Z * option Q * option Q) :=
  match m_queue_model_read m with
  | None => Ok (SubsecondTime.Zero, None, m_queue_model_write m)
  | Some r =>
      match access_type with
      | READ =>
          let! (d, r) := computeQueueDelay r pkt_time processing_time requester in
          if m_shared_readwrite m then
            let! (_, w) := write_queue m pkt_time processing_time requester in Ok (d, Some r, w)
          else Ok (d, Some r, m_queue_model_write m)
      | WRITE =>
          let! (d, w) := write_queue m pkt_time processing_time requester in Ok (d, Some r, w)
      end
  end.

Definition getAccessLatency (m : t Q) (pkt_time pkt_size requester : Z) (access_type : access_t)
    (perf : option ShmemPerf.t) : result (Z * option ShmemPerf.t * t Q) :=
  if negb (is_modeled (base m) requester) then Ok (SubsecondTime.Zero, perf, m)
  else
    let! processing_time := ComponentBandwidth.getRoundedLatency (m_bandwidth m) (u64 (8 * pkt_size)) in
    let! (queue_delay, r, w) := access_queues m pkt_time processing_time requester access_type in
    let cost := access_cost m access_type in
    let access_latency := access_latency_of queue_delay processing_time cost in
    let! perf := attribute_access perf pkt_time queue_delay processing_time cost in
    Ok (access_latency, perf,
        mk (count_access (base m)) r w (access_cost m) (m_bandwidth m) (m_shared_readwrite m)
           (match access_type with READ => SubsecondTime.add (m_total_read_queueing_delay m) queue_delay
                                 | WRITE => m_total_read_queueing_delay m end)
           (match access_type with READ => m_total_write_queueing_delay m
                                 | WRITE => SubsecondTime.add (m_total_write_queueing_delay m) queue_delay end)
           (SubsecondTime.add (m_total_access_latency m) access_latency)).

#[global] Instance model : DramPerfModel (t Q) := getAccessLatency.
End ops.
End PerfModelReadWrite.

(** ** [dram_cntlr.{h,cc}], [nvm_cntlr.{h,cc}] *)
Module DramCntlr.
Record t (D : Type) := mk {
  m_cache_block_size : nat;
  m_data_map : option (gmap Z bytes);     (* None: there is no fault injection manager *)
  m_dram_perf_model : D;
  m_reads : Z;                            (* UInt64 *)
  m_writes : Z;                           (* UInt64 *)
}.
Arguments mk {D} _ _ _ _ _.
Arguments m_cache_block_size {D} _.
Arguments m_data_map {D} _.
Arguments m_dram_perf_model {D} _.
Arguments m_reads {D} _.
Arguments m_writes {D} _.

Section ops.
Context {D : Type} `{DramPerfModel D}.

(** [fault_injection]: whether [Sim()->getFaultinjectionManager()] exists. *)
Definition new (cache_block_size : nat) (fault_injection : bool) (perf_model : D) : t D :=
  mk cache_block_size (if fault_injection then Some ∅ else None) perf_model 0 0.

Definition runDramPerfModel (m : t D) (requester time address : Z) (access_type : access_t) (perf : option ShmemPerf.t) :
    result (Z * option ShmemPerf.t * D) :=
  getAccessLatency (m_dram_perf_model m) time (Z.of_nat (m_cache_block_size m)) requester access_type perf.

Definition getDataFromDram (m : t D) (address requester : Z) (data_buf : bytes) (now : Z) (perf : option ShmemPerf.t) :
    result (Z * HitWhere.where_t * bytes * option ShmemPerf.t * t D) :=
  let (data_map, data_buf) :=
    match m_data_map m with
    | None => (None, data_buf)
    | Some d =>
        let data := default (replicate (m_cache_block_size m) 0) (d !! address) in
        (Some (<[address := data]> d), data)
    end in
  let! (latency, perf, model) := runDramPerfModel m requester now address READ perf in
  Ok (latency, HitWhere.DRAM, data_buf, perf,
      mk (m_cache_block_size m) data_map model (u64 (m_reads m + 1)) (m_writes m)).

(** The times of a write go to a [ShmemPerf] that nothing reads. *)
Definition putDataToDram (m : t D) (address requester : Z) (data_buf : option buffer) (now : Z) :
    result (Z * HitWhere.where_t * t D) :=
  let! data_map :=
    match m_data_map m with
    | None => Ok None
    | Some d =>
        match d !! address with
        | None => Err LogError
        | Some _ => let! data := deref data_buf (m_cache_block_size m) in Ok (Some (<[address := data]> d))
        end
    end in
  let! (latency, _, model) := runDramPerfModel m requester now address WRITE (Some ShmemPerf.new) in
  Ok (latency, HitWhere.DRAM, mk (m_cache_block_size m) data_map model (m_reads m) (u64 (m_writes m + 1))).

#[global] Instance interface : DramCntlrInterface (t D) :=
  { getDataFromDram := getDataFromDram; putDataToDram := putDataToDram }.
End ops.
End DramCntlr.

(** [NvmCntlr] redefines both functions with the same bodies (and prints the latency). *)
Module NvmCntlr.
Record t (D : Type) := mk { dram : DramCntlr.t D; m_logs : Z (* UInt64 *) }.
Arguments mk {D} _ _.
Arguments dram {D} _.
Arguments m_logs {D} _.

Section ops.
Context {D : Type} `{DramPerfModel D}.

Definition new (cache_block_size : nat) (fault_injection : bool) (perf_model : D) : t D :=
  mk (DramCntlr.new cache_block_size fault_injection perf_model) 0.

Definition getDataFromDram (m : t D) (address requester : Z) (data_buf : bytes) (now : Z) (perf : option ShmemPerf.t) :
    result (Z * HitWhere.where_t * bytes * option ShmemPerf.t * t D) :=
  let! (latency, where_, data_buf, perf, d) := DramCntlr.getDataFromDram (dram m) address requester data_buf now perf in
  Ok (latency, where_, data_buf, perf, mk d (m_logs m)).

Definition putDataToDram (m : t D) (address requester : Z) (data_buf : option buffer) (now : Z) :
    result (Z * HitWhere.where_t * t D) :=
  let! (latency, where_, d) := DramCntlr.putDataToDram (dram m) address requester data_buf now in
  Ok (latency, where_, mk d (m_logs m)).

#[global] Instance interface : DramCntlrInterface (t D) :=
  { getDataFromDram := getDataFromDram; putDataToDram := putDataToDram }.
End ops.
End NvmCntlr.

(** ** [dram_cntlr_interface.cc] *)
Section interface.
Context {P : Type} `{Policy P} {Q : Type} `{QueueModel Q} {M : Type} `{DramCntlrInterface M} (cfg : DirCntlr.config).

(** The [ShmemPerf] object at a pointer, and its new contents. *)
Definition perf_at (s : DirCntlr.t P Q) (p : Z) : option ShmemPerf.t := Some (DirCntlr.perfs s p).
Definition set_perf_at (s : DirCntlr.t P Q) (p : Z) (perf : option ShmemPerf.t) : DirCntlr.t P Q :=
  match perf with
  | None => s
  | Some v => DirCntlr.set_perfs s (λ k, if k =? p then v else DirCntlr.perfs s k)
  end.

(** [s] is the memory manager's state that the controllers of a core share: clock,
    [ShmemPerf] objects and network. *)
Definition handleMsgFromTagDirectory (sender : Z) (shmem_msg : ShmemMsg.t) (m : M) (s : DirCntlr.t P Q) :
    result (M * DirCntlr.t P Q) :=
  let msg_time := DirCntlr.now s in
  let! s := DirCntlr.update_perf s (ShmemMsg.m_perf shmem_msg) msg_time ShmemPerf.UNKNOWN in
  let address := ShmemMsg.m_address shmem_msg in
  match ShmemMsg.m_msg_type shmem_msg, ShmemMsg.m_perf shmem_msg with
  | ShmemMsg.DRAM_READ_REQ, Some p =>
      let! (dram_latency, hit_where, data_buf, perf, m) :=
        getDataFromDram m address (ShmemMsg.m_requester shmem_msg) (DirCntlr.uninit_buf cfg) msg_time (perf_at s p) in
      let s := set_perf_at s p perf in
      let! clock := ShmemPerfModel.incrElapsedTime (DirCntlr.m_shmem_perf_model s) dram_latency ShmemPerfModel.SIM_THREAD in
      let s := DirCntlr.set_clock s clock in
      let! s := DirCntlr.update_perf s (Some p) (DirCntlr.now s)
                  (if bool_decide (hit_where = HitWhere.DRAM_CACHE) then ShmemPerf.DRAM_CACHE else ShmemPerf.DRAM) in
      let! s := DirCntlr.sendMsg cfg s ShmemMsg.DRAM_READ_REP MemComponent.DRAM MemComponent.TAG_DIR
                  (ShmemMsg.m_requester shmem_msg) sender address (Some (Live data_buf))
                  (DirCntlr.m_cache_block_size cfg) hit_where (Some p) in
      Ok (m, s)
  | ShmemMsg.DRAM_WRITE_REQ, _ =>
      let! (_, _, m) := putDataToDram m address (ShmemMsg.m_requester shmem_msg) (ShmemMsg.m_data_buf shmem_msg) msg_time in
      Ok (m, s)
  | _, _ => Err LogError
  end.

(** The case of [MemoryManager::handleMsgFromNetwork] for the memory controller of a core that
    has one, the cache in front of memory if there is one; the clock has been set to the time of the packet before. *)
Definition handleMsgForDram (sender : Z) (shmem_msg : ShmemMsg.t) (m : M) (s : DirCntlr.t P Q) :
    result (M * DirCntlr.t P Q) :=
  match ShmemMsg.m_sender_mem_component shmem_msg with
  | MemComponent.TAG_DIR => handleMsgFromTagDirectory sender shmem_msg m s
  | MemComponent.ONCHIP_UNDO_BUFFER =>
      let! (_, _, m) := putDataToDram m (ShmemMsg.m_address shmem_msg) (ShmemMsg.m_requester shmem_msg)
                          (ShmemMsg.m_data_buf shmem_msg) (DirCntlr.now s) in
      Ok (m, s)
  | _ => Err LogError
  end.
End interface.

(** ** [dram/dram_cache.{h,cc}] *)

(** [prefetcher.h]: the virtual function. *)
Class Prefetcher (F : Type) :=
  getNextAddress : F → Z (* current_address *) → Z (* core_id *) → result (list Z * F).

Module DramCache.
Record t (P Q F M : Type) := mk {
  m_core_id : Z;
  m_cache_block_size : nat;
  m_data_access_time : Z;
  m_tags_access_time : Z;
  m_data_array_bandwidth : ComponentBandwidth.t;
  m_dram_cntlr : M;
  m_cache : Cache.t P;
  m_queue_model : option Q;
  m_prefetcher : option F;
  m_prefetch_on_prefetch_hit : bool;
  m_prefetch_mshr : ContentionModel.t;
  m_reads : Z;                       (* UInt64, as the other counters *)
  m_writes : Z;
  m_read_misses : Z;
  m_write_misses : Z;
  m_hits_prefetch : Z;
  m_prefetches : Z;
  m_prefetch_mshr_delay : Z;
}.
Arguments mk {P Q F M} _ _ _ _ _ _ _ _ _ _ _ _ _ _ _ _ _ _.
Arguments m_core_id {P Q F M} _.
Arguments m_cache_block_size {P Q F M} _.
Arguments m_data_access_time {P Q F M} _.
Arguments m_tags_access_time {P Q F M} _.
Arguments m_data_array_bandwidth {P Q F M} _.
Arguments m_dram_cntlr {P Q F M} _.
Arguments m_cache {P Q F M} _.
Arguments m_queue_model {P Q F M} _.
Arguments m_prefetcher {P Q F M} _.
Arguments m_prefetch_on_prefetch_hit {P Q F M} _.
Arguments m_prefetch_mshr {P Q F M} _.
Arguments m_reads {P Q F M} _.
Arguments m_writes {P Q F M} _.
Arguments m_read_misses {P Q F M} _.
Arguments m_write_misses {P Q F M} _.
Arguments m_hits_prefetch {P Q F M} _.
Arguments m_prefetches {P Q F M} _.
Arguments m_prefetch_mshr_delay {P Q F M} _.

Section ops.
Context {P : Type} `{Policy P} {Q : Type} `{QueueModel Q} {F : Type} `{Prefetcher F} {M : Type} `{DramCntlrInterface M}.
Notation cache := (t P Q F M).

(** The members that accesses change. *)
Definition set_parts (d : cache) (dram : M) (c : Cache.t P) (q : option Q) (f : option F) (mshr : ContentionModel.t) : cache :=
  mk (m_core_id d) (m_cache_block_size d) (m_data_access_time d) (m_tags_access_time d) (m_data_array_bandwidth d)
     dram c q f (m_prefetch_on_prefetch_hit d) mshr (m_reads d) (m_writes d) (m_read_misses d) (m_write_misses d)
     (m_hits_prefetch d) (m_prefetches d) (m_prefetch_mshr_delay d).
Definition set_dram (d : cache) (m : M) : cache :=
  set_parts d m (m_cache d) (m_queue_model d) (m_prefetcher d) (m_prefetch_mshr d).
Definition set_cache (d : cache) (c : Cache.t P) : cache :=
  set_parts d (m_dram_cntlr d) c (m_queue_model d) (m_prefetcher d) (m_prefetch_mshr d).
Definition set_queue (d : cache) (q : option Q) : cache :=
  set_parts d (m_dram_cntlr d) (m_cache d) q (m_prefetcher d) (m_prefetch_mshr d).
Definition set_prefetcher (d : cache) (f : option F) : cache :=
  set_parts d (m_dram_cntlr d) (m_cache d) (m_queue_model d) f (m_prefetch_mshr d).
Definition set_mshr (d : cache) (c : ContentionModel.t) : cache :=
  set_parts d (m_dram_cntlr d) (m_cache d) (m_queue_model d) (m_prefetcher d) c.
(** Adds to the counters. *)
Definition count (d : cache) (reads writes read_misses write_misses hits_prefetch prefetches delay : Z) : cache :=
  mk (m_core_id d) (m_cache_block_size d) (m_data_access_time d) (m_tags_access_time d) (m_data_array_bandwidth d)
     (m_dram_cntlr d) (m_cache d) (m_queue_model d) (m_prefetcher d) (m_prefetch_on_prefetch_hit d) (m_prefetch_mshr d)
     (u64 (m_reads d + reads)) (u64 (m_writes d + writes)) (u64 (m_read_misses d + read_misses))
     (u64 (m_write_misses d + write_misses)) (u64 (m_hits_prefetch d + hits_prefetch))
     (u64 (m_prefetches d + prefetches)) (SubsecondTime.add (m_prefetch_mshr_delay d) delay).

(** [m_cache->peekSingleLine(address)->f()]. *)
Definition update_line (c : Cache.t P) (address : Z) (f : CacheBlockInfo.t → CacheBlockInfo.t) : result (Cache.t P) :=
  let! l := Cache.peekSingleLine c address in
  match l with
  | None => Err NullPointer
  | Some l => Cache.updateBlock c l f
  end.

Definition accessDataArray (d : cache) (requester t_start : Z) (perf : option ShmemPerf.t) :
    result (Z * option ShmemPerf.t * cache) :=
  let! processing_time :=
    ComponentBandwidth.getRoundedLatency (m_data_array_bandwidth d) (8 * Z.of_nat (m_cache_block_size d)) in
  let! (queue_delay, q) := queue_delay_of (m_queue_model d) t_start processing_time requester in
  let! perf := perf_update_time perf t_start ShmemPerf.UNKNOWN in
  let t_queue := SubsecondTime.add t_start queue_delay in
  let! perf := perf_update_time perf t_queue ShmemPerf.DRAM_CACHE_QUEUE in
  let t_bus := SubsecondTime.add t_queue processing_time in
  let! perf := perf_update_time perf t_bus ShmemPerf.DRAM_CACHE_BUS in
  let! perf := perf_update_time perf (SubsecondTime.add t_bus (m_data_access_time d)) ShmemPerf.DRAM_CACHE_DATA in
  Ok (access_latency_of queue_delay processing_time (m_data_access_time d), perf, set_queue d q).

(** The data that [insertSingleLine] is given, [data_buf], are also those that are written
    back for the line it evicts. *)
Definition insertLine (d : cache) (access : CacheBase.access_t) (address requester : Z) (data_buf : option buffer) (now : Z) :
    result cache :=
  let! fill := DirCntlr.payload data_buf in
  let! (ev, evict_address, c) := Cache.insertSingleLine None (m_cache d) address fill CacheBlockInfo.empty true in
  let! c := update_line c address (λ b, CacheBlockInfo.set_cstate b
              (match access with CacheBase.STORE => CacheState.MODIFIED | CacheBase.LOAD => CacheState.SHARED end)) in
  let! (_, _, d) := accessDataArray (set_cache d c) requester now None in
  if CacheSet.eviction ev && bool_decide (CacheBlockInfo.m_cstate (CacheSet.evict_block_info ev) = CacheState.MODIFIED) then
    let! (_, _, m) := putDataToDram (m_dram_cntlr d) evict_address requester data_buf now in
    Ok (set_dram d m)
  else Ok d.

(** One address of the loop of [callPrefetcher]; [uninit_buf] is what its buffer holds before. *)
Definition prefetch (uninit_buf : bytes) (t_issue : Z) (d : cache) (prefetch_address : Z) : result cache :=
  let! present := Cache.peekSingleLine (m_cache d) prefetch_address in
  match present with
  | Some _ => Ok d
  | None =>
      let! (dram_latency, _, data_buf, _, m) :=
        getDataFromDram (m_dram_cntlr d) prefetch_address (m_core_id d) uninit_buf t_issue None in
      let! d := insertLine (set_dram d m) CacheBase.LOAD prefetch_address (m_core_id d) (Some (Live data_buf))
                  (SubsecondTime.add t_issue dram_latency) in
      let! c := update_line (m_cache d) prefetch_address (λ b, CacheBlockInfo.setOption b CacheBlockInfo.PREFETCH) in
      let d := set_cache d c in
      let! (_, mshr) := ContentionModel.getCompletionTime (m_prefetch_mshr d) t_issue dram_latency prefetch_address in
      Ok (count (set_mshr d mshr) 0 0 0 0 0 1 0)
  end.

Fixpoint prefetch_all (uninit_buf : bytes) (t_issue : Z) (prefetchList : list Z) (d : cache) : result cache :=
  match prefetchList with
  | [] => Ok d
  | a :: prefetchList => let! d := prefetch uninit_buf t_issue d a in prefetch_all uninit_buf t_issue prefetchList d
  end.

Definition callPrefetcher (uninit_buf : bytes) (d : cache) (train_address : Z) (cache_hit prefetch_hit : bool) (t_issue : Z) :
    result cache :=
  match m_prefetcher d with
  | None => Ok d
  | Some f =>
      let! (prefetchList, f) := getNextAddress f train_address INVALID_CORE_ID in
      let d := set_prefetcher d (Some f) in
      if negb cache_hit || (m_prefetch_on_prefetch_hit d && prefetch_hit)
      then prefetch_all uninit_buf t_issue prefetchList d else Ok d
  end.

(** A hit on a line that was prefetched: the latency, and whether it was. *)
Definition prefetch_hit_of (d : cache) (l : Cache.loc) (address now latency : Z) : result (Z * bool * cache) :=
  let! b := Cache.peekBlock (m_cache d) l in
  if CacheBlockInfo.hasOption b CacheBlockInfo.PREFETCH then
    let! c := Cache.updateBlock (m_cache d) l (λ b, CacheBlockInfo.clearOption b CacheBlockInfo.PREFETCH) in
    let d := count (set_cache d c) 0 0 0 0 1 0 0 in
    let t_completed := ContentionModel.getTagCompletionTime (m_prefetch_mshr d) address in
    if negb (t_completed =? SubsecondTime.MaxTime) && (SubsecondTime.add now latency <? t_completed) then
      Ok (SubsecondTime.sub t_completed now, true,
          count d 0 0 0 0 0 0 (SubsecondTime.sub t_completed (SubsecondTime.add now latency)))
    else Ok (latency, true, d)
  else Ok (latency, false, d).

(** Whether it hit, the latency, the buffer and the [ShmemPerf] after the access. *)
Definition doAccess (uninit_buf : bytes) (d : cache) (access : CacheBase.access_t) (address requester : Z)
    (data_buf : option buffer) (now : Z) (perf : option ShmemPerf.t) :
    result (bool * Z * option buffer * option ShmemPerf.t * cache) :=
  let! block_info := Cache.peekSingleLine (m_cache d) address in
  let latency := m_tags_access_time d in
  let! perf := perf_update_time perf now ShmemPerf.UNKNOWN in
  let! perf := perf_update_time perf (SubsecondTime.add now latency) ShmemPerf.DRAM_CACHE_TAGS in
  match block_info with
  | Some l =>
      let! (latency, prefetch_hit, d) := prefetch_hit_of d l address now latency in
      let! bytes := DirCntlr.payload data_buf in
      let! (hit, c) := Cache.accessSingleLine (m_cache d) address access bytes (m_cache_block_size d) true in
      let data_buf := match access, hit ≫= snd with CacheBase.LOAD, Some read => Some (Live read) | _, _ => data_buf end in
      let! (array, perf, d) := accessDataArray (set_cache d c) requester (SubsecondTime.add now latency) perf in
      let latency := SubsecondTime.add latency array in
      let! d := match access with
                | CacheBase.STORE =>
                    let! c := Cache.updateBlock (m_cache d) l (λ b, CacheBlockInfo.set_cstate b CacheState.MODIFIED) in
                    Ok (set_cache d c)
                | CacheBase.LOAD => Ok d
                end in
      let! d := callPrefetcher uninit_buf d address true prefetch_hit (SubsecondTime.add now latency) in
      Ok (true, latency, data_buf, perf, d)
  | None =>
      let! (latency, data_buf, perf, d) :=
        match access with
        | CacheBase.LOAD =>
            let! before := DirCntlr.payload data_buf in
            let! (dram_latency, _, data, perf, m) :=
              getDataFromDram (m_dram_cntlr d) address requester (default [] before) (SubsecondTime.add now latency) perf in
            Ok (SubsecondTime.add latency dram_latency, Some (Live data), perf, set_dram d m)
        | CacheBase.STORE => Ok (latency, data_buf, perf, d)
        end in
      let! d := insertLine d access address requester data_buf (SubsecondTime.add now latency) in
      let! d := callPrefetcher uninit_buf d address false false (SubsecondTime.add now latency) in
      Ok (false, latency, data_buf, perf, d)
  end.

Definition hit_where_of (hit : bool) : HitWhere.where_t := if hit then HitWhere.DRAM_CACHE else HitWhere.DRAM.

Definition getDataFromDram (uninit_buf : bytes) (d : cache) (address requester : Z) (data_buf : bytes) (now : Z)
    (perf : option ShmemPerf.t) : result (Z * HitWhere.where_t * bytes * option ShmemPerf.t * cache) :=
  let! (hit, latency, data_buf, perf, d) :=
    doAccess uninit_buf d CacheBase.LOAD address requester (Some (Live data_buf)) now perf in
  let! bytes := DirCntlr.payload data_buf in
  Ok (latency, hit_where_of hit, default [] bytes, perf, count d 1 0 (if hit then 0 else 1) 0 0 0 0).

(** [doAccess] is called with a null [ShmemPerf]. *)
Definition putDataToDram (uninit_buf : bytes) (d : cache) (address requester : Z) (data_buf : option buffer) (now : Z) :
    result (Z * HitWhere.where_t * cache) :=
  let! (hit, latency, _, _, d) := doAccess uninit_buf d CacheBase.STORE address requester data_buf now None in
  Ok (latency, hit_where_of hit, count d 0 1 0 (if hit then 0 else 1) 0 0 0).

Definition interface (uninit_buf : bytes) : DramCntlrInterface cache :=
  {| Memory.getDataFromDram := getDataFromDram uninit_buf; Memory.putDataToDram := putDataToDram uninit_buf |}.
End ops.
End DramCache.

(** * Lemmas *)

Section lemmas.
Context {P : Type} `{Policy P} {Q : Type} `{QueueModel Q} {F : Type} `{Prefetcher F} {M : Type} `{DramCntlrInterface M}.
Implicit Types d : DramCache.t P Q F M.

(** The cache accounts the times of its own accesses to a null [ShmemPerf]. *)
Lemma accessDataArray_null d r t : ¬ is_ok (DramCache.accessDataArray d r t None) = true.
Proof.
  unfold DramCache.accessDataArray. intros E.
  destruct (ComponentBandwidth.getRoundedLatency _ _) as [p|]; [|done]. cbn in E.
  by destruct (queue_delay_of _ _ _ _) as [[? ?]|].
Qed.

Lemma insertLine_null d access address r data now d' : DramCache.insertLine d access address r data now ≠ Ok d'.
Proof.
  unfold DramCache.insertLine. intros E. inv_ok.
  match goal with Ha : DramCache.accessDataArray ?a ?b ?c None = Ok _ |- _ =>
    apply (accessDataArray_null a b c); by rewrite Ha end.
Qed.
End lemmas.

(** ** Performance models that always answer *)

(** A queue model, in a state from which it never fails. *)
Class QueueLaws (Q : Type) `{QueueModel Q} := {
  queue_inv : Q → Prop;
  queue_total : ∀ q t p r, queue_inv q → ∃ d q', computeQueueDelay q t p r = Ok (d, q') ∧ queue_inv q';
}.

(** The same for a performance model that is given a [ShmemPerf]. *)
Class PerfLaws (D : Type) `{DramPerfModel D} := {
  perf_inv : D → Prop;
  perf_total : ∀ d t n r a p, perf_inv d →
    ∃ l p' d', getAccessLatency d t n r a (Some p) = Ok (l, Some p', d') ∧ perf_inv d';
}.

#[export] Program Instance basic_laws {M} `{MovingAverage M} : QueueLaws (QueueModelBasic.t M) :=
  { queue_inv q := QueueModelBasic.m_moving_average q = None }.
Next Obligation.
  intros M ? [time average] t p r Hq. cbn in Hq. subst average. by do 2 eexists.
Qed.

#[export] Program Instance contention_laws : QueueLaws QueueModelContention.t :=
  { queue_inv q := ContentionModel.m_time (QueueModelContention.m_contention q) ≠ [] }.
Next Obligation.
  intros [c] t p r Hq. cbn in Hq.
  unfold computeQueueDelay, QueueModelContention.model, QueueModelContention.computeQueueDelay. cbn.
  destruct (ContentionModel.getCompletionTime c t p 0) as [[e c']|e] eqn:E; cbn.
  - do 2 eexists. split; [done|]. cbn. eapply getCompletionTime_units; eassumption.
  - exfalso. eapply getCompletionTime_total; eassumption.
Qed.

Section perf_laws.
Context {Q : Type} `{HQ : QueueLaws Q}.

Lemma queue_delay_total q t p r : (∀ x, q = Some x → queue_inv x) →
  ∃ d q', queue_delay_of q t p r = Ok (d, q') ∧ ∀ x, q' = Some x → queue_inv x.
Proof using HQ.
  intros Hq. destruct q as [q|]; cbn; [|by do 2 eexists].
  destruct (queue_total q t p r) as (d & q' & -> & Hq'); [by apply Hq|].
  cbn. do 2 eexists. split; [done|]. by intros x [= <-].
Qed.

Lemma rounded_total b n : ComponentBandwidth.m_bw_in_bits_per_us b ≠ 0 → ∃ l, ComponentBandwidth.getRoundedLatency b n = Ok l.
Proof. intros Hb. unfold ComponentBandwidth.getRoundedLatency, SubsecondTime.div, udiv. cbn. case_match; [lia|eauto]. Qed.

Definition constant_inv (m : PerfModelConstant.t Q) : Prop :=
  ComponentBandwidth.m_bw_in_bits_per_us (PerfModelConstant.m_bandwidth m) ≠ 0 ∧
  ∀ q, PerfModelConstant.m_queue_model m = Some q → queue_inv q.

#[export] Program Instance constant_laws : PerfLaws (PerfModelConstant.t Q) := { perf_inv := constant_inv }.
Next Obligation.
  intros m t n r a p [Hb Hq]. unfold getAccessLatency, PerfModelConstant.model, PerfModelConstant.getAccessLatency.
  case_match; [by do 3 eexists|].
  destruct (rounded_total (PerfModelConstant.m_bandwidth m) (u64 (8 * n)) Hb) as [l ->]. cbn.
  destruct (queue_delay_total (PerfModelConstant.m_queue_model m) t l r Hq) as (d & q' & -> & Hq'). cbn.
  do 3 eexists. split; [done|]. by split.
Qed.
End perf_laws.

(** ** Sequences of accesses to a memory controller *)

Inductive mem_op := Read (address : Z) | Write (address : Z) (data : bytes).

Section accesses.
Context {D : Type} `{PD : DramPerfModel D}.

(** The data that the reads return. *)
Fixpoint run_ops (m : DramCntlr.t D) (ops : list (mem_op * Z)) : result (list bytes * DramCntlr.t D) :=
  match ops with
  | [] => Ok ([], m)
  | (Read a, now) :: ops =>
      let! (_, _, data, _, m) := DramCntlr.getDataFromDram m a 0 [] now (Some ShmemPerf.new) in
      let! (outs, m) := run_ops m ops in Ok (data :: outs, m)
  | (Write a data, now) :: ops =>
      let! (_, _, m) := DramCntlr.putDataToDram m a 0 (Some (Live data)) now in run_ops m ops
  end.
End accesses.

(** What a read of [a] returns after the accesses [past], the latest first: what was written
    there last, or zeros. *)
Fixpoint last_written (size : nat) (past : list mem_op) (a : Z) : bytes :=
  match past with
  | [] => replicate size 0
  | Write b data :: past => if a =? b then data else last_written size past a
  | Read _ :: past => last_written size past a
  end.

Fixpoint reads_of (size : nat) (past ops : list mem_op) : list bytes :=
  match ops with
  | [] => []
  | Read a :: ops => last_written size past a :: reads_of size (Read a :: past) ops
  | Write a data :: ops => reads_of size (Write a data :: past) ops
  end.

Definition reads_address (a : Z) (o : mem_op) : bool := match o with Read b => a =? b | Write _ _ => false end.

(** Every line is read before it is written. *)
Fixpoint read_first (past ops : list mem_op) : bool :=
  match ops with
  | [] => true
  | Read a :: ops => read_first (Read a :: past) ops
  | Write a data :: ops => existsb (reads_address a) past && read_first (Write a data :: past) ops
  end.

Definition op_size (size : nat) (o : mem_op) : Prop := match o with Read _ => True | Write _ data => length data = size end.

(** The data map after the accesses [past]; only lines that were read have been written. *)
Definition map_after (size : nat) (past : list mem_op) (d : gmap Z bytes) : Prop :=
  ∀ a, d !! a = (if existsb (reads_address a) past then Some (last_written size past a) else None) ∧
    (existsb (reads_address a) past = false → last_written size past a = replicate size 0).

Lemma map_after_read size past d a : map_after size past d →
  map_after size (Read a :: past) (<[a := last_written size past a]> d).
Proof.
  intros Hd b. destruct (Hd b) as [Hb Hz]. cbn. destruct (Z.eqb_spec b a) as [->|Hne]; cbn.
  - by rewrite lookup_insert_eq.
  - by rewrite lookup_insert_ne.
Qed.

Lemma map_after_write size past d a data : map_after size past d → existsb (reads_address a) past = true →
  map_after size (Write a data :: past) (<[a := data]> d).
Proof.
  intros Hd Ha b. destruct (Hd b) as [Hb Hz]. cbn. destruct (Z.eqb_spec b a) as [->|Hne]; cbn.
  - rewrite Ha, lookup_insert_eq. done.
  - by rewrite lookup_insert_ne.
Qed.

Section refinement.
Context {D : Type} `{PL : PerfLaws D}.
Implicit Types m : DramCntlr.t D.

(** A controller with data, after the accesses [past]. *)
Definition dram_after (size : nat) (past : list mem_op) m : Prop :=
  perf_inv (DramCntlr.m_dram_perf_model m) ∧ DramCntlr.m_cache_block_size m = size ∧
  ∃ d, DramCntlr.m_data_map m = Some d ∧ map_after size past d.

Lemma read_after size past m a r buf now p : dram_after size past m →
  ∃ l p' m', DramCntlr.getDataFromDram m a r buf now (Some p) =
      Ok (l, HitWhere.DRAM, last_written size past a, Some p', m') ∧ dram_after size (Read a :: past) m'.
Proof using PL.
  intros (Hp & <- & d & Hm & Hd). unfold DramCntlr.getDataFromDram, DramCntlr.runDramPerfModel. rewrite Hm.
  edestruct perf_total as (l & p' & d' & -> & Hp'); [exact Hp|]. cbn.
  assert (E : default (replicate (DramCntlr.m_cache_block_size m) 0) (d !! a) = last_written (DramCntlr.m_cache_block_size m) past a).
  { destruct (Hd a) as [-> Hz]. case_match; cbn; [done|]. by rewrite Hz. }
  rewrite E. do 3 eexists. split; [done|]. split; [done|]. split; [done|]. eexists. split; [done|]. by apply map_after_read.
Qed.

Lemma write_after size past m a r data now : dram_after size past m → length data = size →
  existsb (reads_address a) past = true →
  ∃ l m', DramCntlr.putDataToDram m a r (Some (Live data)) now = Ok (l, HitWhere.DRAM, m') ∧
    dram_after size (Write a data :: past) m'.
Proof using PL.
  intros (Hp & <- & d & Hm & Hd) Hl Ha. unfold DramCntlr.putDataToDram, DramCntlr.runDramPerfModel. rewrite Hm.
  rewrite (proj1 (Hd a)), Ha. unfold deref, mem_read. cbn. rewrite drop_0, <- Hl, (proj2 (Nat.leb_le _ _)), firstn_all by lia. cbn.
  edestruct perf_total as (l & p' & d' & -> & Hp'); [exact Hp|]. cbn.
  do 2 eexists. split; [done|]. split; [done|]. split; [done|]. eexists. split; [done|]. rewrite Hl. by apply map_after_write.
Qed.

Lemma write_unread size past m a r data now : dram_after size past m → existsb (reads_address a) past = false →
  DramCntlr.putDataToDram m a r data now = Err LogError.
Proof.
  intros (Hp & <- & d & Hm & Hd) Ha. unfold DramCntlr.putDataToDram. rewrite Hm, (proj1 (Hd a)), Ha. done.
Qed.

Lemma run_ops_after size ops : ∀ past m,
  dram_after size past m → Forall (op_size size) (map fst ops) →
  match run_ops m ops with
  | Ok (outs, _) => read_first past (map fst ops) = true ∧ outs = reads_of size past (map fst ops)
  | Err e => read_first past (map fst ops) = false ∧ e = LogError
  end.
Proof using PL.
  induction ops as [|[[a|a data] now] ops IH]; intros past m Hm Hs; [done|apply Forall_cons in Hs as [Ho Hs]..]; cbn.
  - destruct (read_after size past m a 0 [] now ShmemPerf.new Hm) as (l & p' & m' & -> & Hm'). cbn.
    specialize (IH _ _ Hm' Hs). destruct (run_ops m' ops) as [[outs m'']|e]; cbn; [|done]. by destruct IH as [? ->].
  - destruct (existsb (reads_address a) past) eqn:Ha; cbn.
    + destruct (write_after size past m a 0 data now Hm Ho Ha) as (l & m' & -> & Hm'). cbn. exact (IH _ _ Hm' Hs).
    + by rewrite (write_unread size past m a 0 _ now Hm Ha).
Qed.
End refinement.

(** ** Writes to the log *)

Section log.
Context {P : Type} `{Policy P} {Q : Type} `{QueueModel Q} {D : Type} `{PL : PerfLaws D} (cfg : DirCntlr.config).

(** Messages delivered to the memory controller, in sequence. *)
Fixpoint deliver_to_dram {M} `{DramCntlrInterface M} (msgs : list (Z * ShmemMsg.t)) (m : M) (s : DirCntlr.t P Q) :
    result (M * DirCntlr.t P Q) :=
  match msgs with
  | [] => Ok (m, s)
  | (sender, msg) :: msgs =>
      let! (m, s) := handleMsgForDram cfg sender msg m s in deliver_to_dram msgs m s
  end.

Definition from_undo_buffer (msg : ShmemMsg.t) : Prop :=
  ShmemMsg.m_sender_mem_component msg = MemComponent.ONCHIP_UNDO_BUFFER.

Lemma log_write (m : NvmCntlr.t D) sender msg (s : DirCntlr.t P Q) :
  from_undo_buffer msg → perf_inv (DramCntlr.m_dram_perf_model (NvmCntlr.dram m)) →
  DramCntlr.m_data_map (NvmCntlr.dram m) = None →
  ∃ m', handleMsgForDram cfg sender msg m s = Ok (m', s) ∧
    perf_inv (DramCntlr.m_dram_perf_model (NvmCntlr.dram m')) ∧ DramCntlr.m_data_map (NvmCntlr.dram m') = None ∧
    DramCntlr.m_writes (NvmCntlr.dram m') = u64 (DramCntlr.m_writes (NvmCntlr.dram m) + 1) ∧
    DramCntlr.m_reads (NvmCntlr.dram m') = DramCntlr.m_reads (NvmCntlr.dram m) ∧ NvmCntlr.m_logs m' = NvmCntlr.m_logs m.
Proof using PL.
  intros Hf Hp Hd. unfold handleMsgForDram. rewrite Hf. cbn.
  unfold NvmCntlr.putDataToDram, DramCntlr.putDataToDram, DramCntlr.runDramPerfModel. rewrite Hd. cbn.
  edestruct perf_total as (l & p' & d' & -> & Hp'); [exact Hp|]. cbn. eexists. by split.
Qed.

Lemma log_writes msgs : ∀ (m : NvmCntlr.t D) (s : DirCntlr.t P Q) n,
  Forall (λ x, from_undo_buffer (snd x)) msgs → perf_inv (DramCntlr.m_dram_perf_model (NvmCntlr.dram m)) →
  DramCntlr.m_data_map (NvmCntlr.dram m) = None → DramCntlr.m_writes (NvmCntlr.dram m) = u64 n →
  ∃ m', deliver_to_dram msgs m s = Ok (m', s) ∧
    DramCntlr.m_writes (NvmCntlr.dram m') = u64 (n + Z.of_nat (length msgs)) ∧
    DramCntlr.m_reads (NvmCntlr.dram m') = DramCntlr.m_reads (NvmCntlr.dram m) ∧ NvmCntlr.m_logs m' = NvmCntlr.m_logs m.
Proof using PL.
  induction msgs as [|[sender msg] msgs IH]; intros m s n Hm Hp Hd Hn; cbn.
  - exists m. by rewrite Z.add_0_r.
  - apply Forall_cons in Hm as [Hf Hm]. destruct (log_write m sender msg s Hf Hp Hd) as (m1 & -> & Hp1 & Hd1 & Hw & Hr & Hl). cbn.
    destruct (IH m1 s (n + 1) Hm Hp1 Hd1) as (m2 & -> & Hw2 & Hr2 & Hl2).
    { rewrite Hw, Hn. apply u64_add_l. }
    exists m2. split; [done|]. rewrite Hw2, Hr2, Hl2, Hr, Hl. split; [f_equal; lia|done].
Qed.
End log.

(** * Properties *)

(** [C38] Memory returns what was written last: for any sequence of reads and writes to a
    controller that keeps data, every read returns the last data written to its line, or
    zeros.  The controller stops with an error exactly when a line is written that was
    never read. *)
Theorem dram_reads_last_write {D} `{PerfLaws D} size (model : D) ops :
  perf_inv model → Forall (op_size size) (map fst ops) →
  match run_ops (DramCntlr.new size true model) ops with
  | Ok (outs, _) => read_first [] (map fst ops) = true ∧ outs = reads_of size [] (map fst ops)
  | Err e => read_first [] (map fst ops) = false ∧ e = LogError
  end.
Proof.
  intros Hp Hs. apply run_ops_after; [|done]. split; [done|]. split; [done|]. exists ∅. split; [done|].
  intros a. split; [apply lookup_empty|done].
Qed.

Section example.
(** A model with a queue, 8 bits per nanosecond, two costs, enabled. *)
Definition example_model : PerfModelConstant.t QueueModelContention.t :=
  PerfModelConstant.mk (mk_base true 0 4) (Some (QueueModelContention.new 1))
    (λ a, match a with WRITE => 300 | READ => 100 end) (ComponentBandwidth.mk 8000) 0 0.

Lemma example_model_inv : perf_inv example_model.
Proof. split; [done|]. by intros q [= <-]. Qed.

Definition example_ops : list (mem_op * Z) :=
  [(Read 64, 10); (Write 64 [1; 2], 20); (Read 128, 5); (Read 64, 30); (Write 64 [3; 4], 31); (Read 64, 32)].

Lemma dram_reads_last_write_witness :
  perf_inv example_model ∧ Forall (op_size 2) (map fst example_ops) ∧
  match run_ops (DramCntlr.new 2 true example_model) example_ops with
  | Ok (outs, _) => read_first [] (map fst example_ops) = true ∧ outs = reads_of 2 [] (map fst example_ops)
  | Err e => read_first [] (map fst example_ops) = false ∧ e = LogError
  end.
Proof.
  split; [exact example_model_inv|]. split; [repeat constructor|].
  apply (dram_reads_last_write 2 example_model example_ops); [exact example_model_inv | repeat constructor].
Defined.

Lemma example_reads :
  ∃ m, run_ops (DramCntlr.new 2 true example_model) example_ops = Ok ([[0; 0]; [0; 0]; [1; 2]; [3; 4]], m).
Proof. eexists. vm_compute. reflexivity. Qed.
End example.

(** The log reaches memory: without fault injection, every message that the on-chip
    undo buffers send to an NVM controller is accepted and counted as one write.  The
    counter for log writes that the controller declares stays as it was. *)
Theorem nvm_counts_log_writes {P} `{Policy P} {Q} `{QueueModel Q} {D} `{PerfLaws D} cfg size (model : D) msgs (s : DirCntlr.t P Q) :
  perf_inv model → Forall (λ x, from_undo_buffer (snd x)) msgs →
  ∃ m, deliver_to_dram cfg msgs (NvmCntlr.new size false model) s = Ok (m, s) ∧
    DramCntlr.m_writes (NvmCntlr.dram m) = u64 (Z.of_nat (length msgs)) ∧ DramCntlr.m_reads (NvmCntlr.dram m) = 0 ∧
    NvmCntlr.m_logs m = 0.
Proof.
  intros Hp Hm. destruct (log_writes cfg msgs (NvmCntlr.new size false model) s 0) as (m & ? & ? & ? & ?); try done.
  by exists m.
Qed.

(** With fault injection the same message stops the controller, unless the log's line has been
    read before, which nothing does. *)
Lemma log_write_unread {P} `{Policy P} {Q} `{QueueModel Q} {D} `{DramPerfModel D} cfg size (model : D) sender msg (s : DirCntlr.t P Q) :
  from_undo_buffer msg → handleMsgForDram cfg sender msg (NvmCntlr.new size true model) s = Err LogError.
Proof. intros Hf. unfold handleMsgForDram. by rewrite Hf. Qed.

Definition example_log : list (Z * ShmemMsg.t) :=
  replicate 3 (0, ShmemMsg.new ShmemMsg.CP_REP MemComponent.ONCHIP_UNDO_BUFFER MemComponent.DRAM 0 UINT32_MAX
                    (Some (Live [7; 7])) 2 (Some 0)).

#[local] Existing Instance no_queue.

Lemma nvm_counts_log_writes_witness :
  perf_inv example_model ∧ Forall (λ x, from_undo_buffer (snd x)) example_log ∧
  ∃ m, deliver_to_dram (example_cfg CoherencyProtocol.MSI) example_log (NvmCntlr.new 2 false example_model) example_start = Ok (m, example_start) ∧
    DramCntlr.m_writes (NvmCntlr.dram m) = u64 (Z.of_nat (length example_log)) ∧ DramCntlr.m_reads (NvmCntlr.dram m) = 0 ∧
    NvmCntlr.m_logs m = 0.
Proof.
  split; [exact example_model_inv|]. split; [repeat constructor|].
  apply (nvm_counts_log_writes (example_cfg CoherencyProtocol.MSI) 2 example_model example_log example_start);
    [exact example_model_inv | repeat constructor].
Defined.

(** The cache in front of memory cannot be used: every write to it, and every read that
    misses, dereferences a null [ShmemPerf].  No write returns, and a read returns only if
    the line was in the cache before, so that from an empty cache no access returns. *)
Theorem dram_cache_needs_lines {P} `{Policy P} {Q} `{QueueModel Q} {F} `{Prefetcher F} {M} `{DramCntlrInterface M}
    (d : DramCache.t P Q F M) uninit a r buf now perf :
  (∀ data res, DramCache.putDataToDram uninit d a r data now ≠ Ok res) ∧
  (∀ res, DramCache.getDataFromDram uninit d a r buf now perf = Ok res →
    ∃ l, Cache.peekSingleLine (DramCache.m_cache d) a = Ok (Some l)).
Proof.
  split.
  - intros data res E. unfold DramCache.putDataToDram, DramCache.doAccess in E. inv_ok.
    match goal with Hn : perf_update_time None _ _ = Ok _ |- _ => discriminate Hn end.
  - intros res E. unfold DramCache.getDataFromDram, DramCache.doAccess in E. inv_ok.
    case_match; [by eexists|]. inv_ok.
    match goal with Hi : DramCache.insertLine _ _ _ _ _ _ = Ok _ |- _ => by apply insertLine_null in Hi end.
Qed.
