(* ===== verification/Epoch.v ===== *)
(** Epochs and hooks: [system/epoch_manager.{h,cc}], [system/hooks_manager.{h,cc}]
    and the periodic callback of [core/core.cc] that ends an epoch. *)
From S2P Require Import Prelude.

(** ** [hooks_manager.h]: the events (those without a reader in the model are
    in [HOOK_OTHER], with their number) *)
Inductive hook_type_t :=
  | HOOK_PERIODIC
  | HOOK_PERIODIC_INS
  | HOOK_APPLICATION_EXIT
  | HOOK_OTHER (n : Z).

#[global] Instance hook_type_eq_dec : EqDecision hook_type_t.
Proof. solve_decision. Defined.

Inductive HookCallbackOrder := ORDER_NOTIFY_PRE | ORDER_ACTION | ORDER_NOTIFY_POST.

#[global] Instance hook_order_eq_dec : EqDecision HookCallbackOrder.
Proof. solve_decision. Defined.

(** The values of the loop [order = 0 .. NUM_HOOK_ORDER-1]. *)
Definition hook_orders : list HookCallbackOrder := [ORDER_NOTIFY_PRE; ORDER_ACTION; ORDER_NOTIFY_POST].

(** ** [hooks_manager.cc]

    A callback is a function pointer with an argument.  [F] names the functions;
    [run f arg val s] is a call of [f] in the simulator state [s]. *)
Module HooksManager.
Section hooks.
Context {F S : Type} (run : F → Z → Z → S → result (Z * S)).

Record HookCallback := mk {
  func : F;
  arg : Z;                    (* UInt64 *)
  order : HookCallbackOrder;
}.

(** [std::unordered_map<hook_type_t, std::vector<HookCallback>>]; a missing key
    reads as the empty vector. *)
Definition t : Type := hook_type_t → list HookCallback.

Definition new : t := λ _, [].

Definition registerHook (reg : t) (type : hook_type_t) (f : F) (argument : Z)
    (o : HookCallbackOrder) : t :=
  λ ty, if decide (ty = type) then reg ty ++ [{| func := f; arg := argument; order := o |}]
        else reg ty.

(** The inner loop: the callbacks of one order; [Some r] is an early return. *)
Fixpoint call_order (o : HookCallbackOrder) (val : Z) (expect_return : bool)
    (l : list HookCallback) (s : S) : result (option Z * S) :=
  match l with
  | [] => Ok (None, s)
  | it :: l =>
      if decide (order it = o) then
        let! (r, s) := run (func it) (arg it) val s in
        if expect_return && negb (r =? -1) then Ok (Some r, s)
        else call_order o val expect_return l s
      else call_order o val expect_return l s
  end.

Fixpoint call_orders (os : list HookCallbackOrder) (val : Z) (expect_return : bool)
    (l : list HookCallback) (s : S) : result (Z * S) :=
  match os with
  | [] => Ok (-1, s)
  | o :: os =>
      let! (r, s) := call_order o val expect_return l s in
      match r with
      | Some r => Ok (r, s)
      | None => call_orders os val expect_return l s
      end
  end.

Definition callHooks (reg : t) (type : hook_type_t) (val : Z) (expect_return : bool) (s : S) :
    result (Z * S) :=
  call_orders hook_orders val expect_return (reg type) s.
End hooks.
Arguments HookCallback : clear implicits.
Arguments t : clear implicits.
End HooksManager.

(** ** [epoch_manager.{h,cc}] *)
Module EpochManager.
Record t := mk {
  m_system_eid : Z;       (* UInt64 *)
  m_persisted_eid : Z;    (* UInt64 *)
}.

Definition new : t := {| m_system_eid := 1; m_persisted_eid := 0 |}.

Definition getGlobalSystemEID (e : t) : Z := m_system_eid e.

Definition setGlobalPersistedEID (e : t) (persisted_eid : Z) : t :=
  {| m_system_eid := m_system_eid e; m_persisted_eid := persisted_eid |}.

Definition increment (e : t) : t :=
  {| m_system_eid := u64 (m_system_eid e + 1); m_persisted_eid := m_persisted_eid e |}.
End EpochManager.

(** ** [core.cc]: [hookPeriodicInsCheck] and [hookPeriodicInsCall]

    [g_instructions_hpi_global] counts the instructions of all cores; when it passes
    the next threshold, the periodic hooks run and an epoch ends. *)
Module HookPeriodicIns.
(** The globals. *)
Record globals := mk_globals {
  g_instructions_hpi_global : Z;            (* UInt64 *)
  g_instructions_hpi_global_callback : Z;   (* UInt64 *)
}.
(** The fields of one core. *)
Record core := mk_core {
  m_instructions : Z;                (* UInt64 *)
  m_instructions_hpi_callback : Z;   (* UInt64 *)
  m_instructions_hpi_last : Z;       (* UInt64 *)
}.

(** [hookPeriodicInsCall]; the result says whether the hooks were called. *)
Definition hookPeriodicInsCall (ins_global : Z) (g : globals) : bool * globals :=
  if g_instructions_hpi_global g >? g_instructions_hpi_global_callback g then
    (true, {| g_instructions_hpi_global := g_instructions_hpi_global g;
              g_instructions_hpi_global_callback :=
                u64 (g_instructions_hpi_global_callback g + ins_global) |})
  else (false, g).

Definition hookPeriodicInsCheck (ins_per_core ins_global : Z) (c : core) (g : globals) :
    bool * core * globals :=
  if m_instructions c >? m_instructions_hpi_callback c then
    let g := {| g_instructions_hpi_global :=
                  u64 (g_instructions_hpi_global g + (m_instructions c - m_instructions_hpi_last c));
                g_instructions_hpi_global_callback := g_instructions_hpi_global_callback g |} in
    let c := {| m_instructions := m_instructions c;
                m_instructions_hpi_callback := u64 (m_instructions_hpi_callback c + ins_per_core);
                m_instructions_hpi_last := m_instructions c |} in
    if g_instructions_hpi_global g >? g_instructions_hpi_global_callback g then
      let (called, g) := hookPeriodicInsCall ins_global g in (called, c, g)
    else (false, c, g)
  else (false, c, g).
End HookPeriodicIns.

(** * Lemmas *)

Section hooks_spec.
Import HooksManager.
Context {F S : Type} (run : F → Z → Z → S → result (Z * S)).

(** Calls a list of callbacks one after the other, ignoring what they return. *)
Fixpoint run_all (val : Z) (l : list (HookCallback F)) (s : S) : result S :=
  match l with
  | [] => Ok s
  | it :: l => let! (_, s) := run (func it) (arg it) val s in run_all val l s
  end.

Definition of_order (o : HookCallbackOrder) (l : list (HookCallback F)) : list (HookCallback F) :=
  List.filter (λ it, bool_decide (order it = o)) l.

Lemma run_all_app val l k s :
  run_all val (l ++ k) s = (let! s := run_all val l s in run_all val k s).
Proof.
  revert s. induction l as [|it l IH]; intros s; [done|]. cbn.
  destruct (run (func it) (arg it) val s) as [[r s']|e]; [apply IH|done].
Qed.

Lemma call_order_all o val l s :
  call_order run o val false l s = (let! s := run_all val (of_order o l) s in Ok (None, s)).
Proof.
  revert s. induction l as [|it l IH]; intros s; [done|]. cbn.
  destruct (decide (order it = o)) as [E|E].
  - rewrite bool_decide_true by done. cbn.
    destruct (run (func it) (arg it) val s) as [[r s']|e]; [apply IH|done].
  - rewrite bool_decide_false by done. apply IH.
Qed.

Lemma callHooks_all reg type val s :
  callHooks run reg type val false s =
    (let! s := run_all val (of_order ORDER_NOTIFY_PRE (reg type) ++ of_order ORDER_ACTION (reg type)
                            ++ of_order ORDER_NOTIFY_POST (reg type)) s in Ok (-1, s)).
Proof.
  unfold callHooks, hook_orders. cbn. rewrite !call_order_all, !run_all_app.
  destruct (run_all val _ s) as [s1|e]; [|done]. cbn. rewrite !call_order_all, !run_all_app.
  destruct (run_all val _ s1) as [s2|e]; [|done]. cbn. rewrite !call_order_all.
  by destruct (run_all val _ s2).
Qed.
End hooks_spec.

(** * Properties *)

(** [callHooks] without an expected return value runs every callback of
    the event exactly once: those that only look before ([ORDER_NOTIFY_PRE]) first, then
    the actions, then those that look after, each group in registration order. *)
Theorem callHooks_order {F S} (run : F → Z → Z → S → result (Z * S)) reg type val s :
  HooksManager.callHooks run reg type val false s =
    (let! s := run_all run val (of_order ORDER_NOTIFY_PRE (reg type) ++
                                of_order ORDER_ACTION (reg type) ++
                                of_order ORDER_NOTIFY_POST (reg type)) s in
     Ok (-1, s)).
Proof. apply callHooks_all. Qed.

(** The periodic callback is rate limited: after a check that calls the
    hooks, the next threshold lies one global interval further, and no check of a core
    that has not executed new instructions beyond its own threshold calls them again. *)
Theorem hookPeriodicIns_rate per_core global c g called c' g' :
  HookPeriodicIns.hookPeriodicInsCheck per_core global c g = (called, c', g') →
  (called = true →
     HookPeriodicIns.g_instructions_hpi_global g' > HookPeriodicIns.g_instructions_hpi_global_callback g ∧
     HookPeriodicIns.g_instructions_hpi_global_callback g' =
       u64 (HookPeriodicIns.g_instructions_hpi_global_callback g + global)) ∧
  (HookPeriodicIns.m_instructions c ≤ HookPeriodicIns.m_instructions_hpi_callback c →
     called = false ∧ c' = c ∧ g' = g) ∧
  (called = false →
     HookPeriodicIns.g_instructions_hpi_global_callback g' = HookPeriodicIns.g_instructions_hpi_global_callback g).
Proof.
  unfold HookPeriodicIns.hookPeriodicInsCheck, HookPeriodicIns.hookPeriodicInsCall.
  destruct (Z.gtb_spec (HookPeriodicIns.m_instructions c) (HookPeriodicIns.m_instructions_hpi_callback c)) as [Hc|Hc].
  - cbn. destruct (Z.gtb_spec (u64 (HookPeriodicIns.g_instructions_hpi_global g +
      (HookPeriodicIns.m_instructions c - HookPeriodicIns.m_instructions_hpi_last c)))
      (HookPeriodicIns.g_instructions_hpi_global_callback g)) as [Hg|Hg]; cbn;
      intros [= <- <- <-]; cbn; split_and!; try done; intros; try lia; done.
  - intros [= <- <- <-]. split_and!; done.
Qed.

Lemma hookPeriodicIns_rate_witness :
  HookPeriodicIns.hookPeriodicInsCheck 1000 4000
    {| HookPeriodicIns.m_instructions := 5000; HookPeriodicIns.m_instructions_hpi_callback := 4500;
       HookPeriodicIns.m_instructions_hpi_last := 900 |}
    {| HookPeriodicIns.g_instructions_hpi_global := 100; HookPeriodicIns.g_instructions_hpi_global_callback := 4000 |} =
    (true, {| HookPeriodicIns.m_instructions := 5000; HookPeriodicIns.m_instructions_hpi_callback := 5500;
              HookPeriodicIns.m_instructions_hpi_last := 5000 |},
     {| HookPeriodicIns.g_instructions_hpi_global := 4200; HookPeriodicIns.g_instructions_hpi_global_callback := 8000 |}) ∧
  8000 = u64 (4000 + 4000).
Proof.
  split; [reflexivity|].
  apply (hookPeriodicIns_rate 1000 4000
    {| HookPeriodicIns.m_instructions := 5000; HookPeriodicIns.m_instructions_hpi_callback := 4500;
       HookPeriodicIns.m_instructions_hpi_last := 900 |}
    {| HookPeriodicIns.g_instructions_hpi_global := 100; HookPeriodicIns.g_instructions_hpi_global_callback := 4000 |}
    true {| HookPeriodicIns.m_instructions := 5000; HookPeriodicIns.m_instructions_hpi_callback := 5500;
              HookPeriodicIns.m_instructions_hpi_last := 5000 |}
     {| HookPeriodicIns.g_instructions_hpi_global := 4200; HookPeriodicIns.g_instructions_hpi_global_callback := 8000 |});
    reflexivity.
Defined.
