(* ===== verification/UndoBuffer.v ===== *)
(** The on-chip undo buffer of PiCL and its controller:
    [cache/onchip_undo_buffer.{h,cc}] and
    [parametric_dram_directory_msi/onchip_undo_buffer_cntlr.{h,cc}].

    An undo entry records that a cache line had the value of epoch [valid_from]
    until epoch [valid_till]; entries wait in the buffer until they are written to
    the log in non-volatile memory.  The log is the sequence of messages that
    [sendDataToNVM] sends. *)
From S2P Require Import Prelude BlockInfo AddressMap Epoch.

(** ** [onchip_undo_buffer.{h,cc}] *)

Record UndoEntry := mk_entry {
  m_tag : Z;                (* IntPtr *)
  m_valid_from_eid : Z;     (* UInt64 *)
  m_valid_till_eid : Z;     (* UInt64 *)
}.

#[global] Instance UndoEntry_eq_dec : EqDecision UndoEntry.
Proof. solve_decision. Defined.

(** The constructor [UndoEntry(system_eid, cache_block_info)]. *)
Definition new_entry (system_eid : Z) (b : CacheBlockInfo.t) : UndoEntry :=
  {| m_tag := CacheBlockInfo.m_tag b; m_valid_from_eid := CacheBlockInfo.m_eid b;
     m_valid_till_eid := system_eid |}.

Module OnChipUndoBuffer.
Record t := mk {
  m_num_entries : Z;            (* UInt32 *)
  m_buffer : list UndoEntry;    (* std::vector *)
}.

Definition new (num_entries : Z) : t := {| m_num_entries := num_entries; m_buffer := [] |}.

Definition set_buffer (b : t) (l : list UndoEntry) : t :=
  {| m_num_entries := m_num_entries b; m_buffer := l |}.

Definition isFull (b : t) : bool := Z.of_nat (length (m_buffer b)) =? m_num_entries b.

Definition insertUndoEntry (b : t) (system_eid : Z) (block : CacheBlockInfo.t) : result t :=
  let! _ := check (Z.of_nat (length (m_buffer b)) <? m_num_entries b) AssertFail in
  Ok (set_buffer b (m_buffer b ++ [new_entry system_eid block])).

Definition is_old (acs_eid : Z) (e : UndoEntry) : bool := m_valid_till_eid e <=? acs_eid.

(** [removeOldEntries(acs_eid)]: the removed entries (a queue, front first), and the buffer. *)
Definition removeOldEntries (b : t) (acs_eid : Z) : list UndoEntry * t :=
  (List.filter (is_old acs_eid) (m_buffer b),
   set_buffer b (List.filter (λ e, negb (is_old acs_eid e)) (m_buffer b))).

(** [std::min_element] by [valid_till]; [None] is [end()]. *)
Fixpoint min_element (l : list UndoEntry) : option UndoEntry :=
  match l with
  | [] => None
  | e :: l =>
      match min_element l with
      | Some m => if m_valid_till_eid m <? m_valid_till_eid e then Some m else Some e
      | None => Some e
      end
  end.

(** [removeOldEntries()]: [min->getValidTillEID()] has no meaning at [end()]. *)
Definition removeOldestEntries (b : t) : result (list UndoEntry * t) :=
  match min_element (m_buffer b) with
  | Some m => Ok (removeOldEntries b (m_valid_till_eid m))
  | None => Err OutOfRange
  end.

Definition removeAllEntries (b : t) : list UndoEntry * t := (m_buffer b, set_buffer b []).
End OnChipUndoBuffer.

(** ** [onchip_undo_buffer_cntlr.{h,cc}] *)
Module OnChipUndoBufferCntlr.
Import OnChipUndoBuffer.

Definition DEFAULT_ACS_GAP : Z := 3.
Definition DEFAULT_NUM_ENTRIES : Z := 32.

Record t := mk {
  m_onchip_undo_buffer : OnChipUndoBuffer.t;
  m_acs_gap : Z;                                     (* UInt32 *)
  m_tag_directory_home_lookup : AddressHomeLookup.t;
  log_writes : Z;                                    (* UInt64, stats *)
  avg_log_writes_by_epoch : Z;                       (* UInt64, stats *)
  overflow : Z;                                      (* UInt64, stats *)
}.

(** What the controllers share: the epoch manager and the log in NVM, as the messages
    (receiver and entry) sent to it, oldest first. *)
Record shared := mk_shared {
  epoch : EpochManager.t;
  nvm_log : list (Z * UndoEntry);
}.

(** [getNumEntries]: [None] when the configuration has no such key. *)
Definition getNumEntries (cfg_num_entries : option Z) : Z :=
  match cfg_num_entries with
  | None => DEFAULT_NUM_ENTRIES
  | Some n => let num_entries := u32 n in if num_entries >? 0 then num_entries else UINT32_MAX
  end.

Definition new (lookup : AddressHomeLookup.t) (cfg_num_entries cfg_acs_gap : option Z) : t :=
  {| m_onchip_undo_buffer := OnChipUndoBuffer.new (getNumEntries cfg_num_entries);
     m_acs_gap := match cfg_acs_gap with Some g => u32 g | None => DEFAULT_ACS_GAP end;
     m_tag_directory_home_lookup := lookup;
     log_writes := 0; avg_log_writes_by_epoch := 0; overflow := 0 |}.

Definition set_buf (c : t) (b : OnChipUndoBuffer.t) : t :=
  {| m_onchip_undo_buffer := b; m_acs_gap := m_acs_gap c;
     m_tag_directory_home_lookup := m_tag_directory_home_lookup c;
     log_writes := log_writes c; avg_log_writes_by_epoch := avg_log_writes_by_epoch c;
     overflow := overflow c |}.
Definition set_log_writes (c : t) (n : Z) : t :=
  {| m_onchip_undo_buffer := m_onchip_undo_buffer c; m_acs_gap := m_acs_gap c;
     m_tag_directory_home_lookup := m_tag_directory_home_lookup c;
     log_writes := n; avg_log_writes_by_epoch := avg_log_writes_by_epoch c;
     overflow := overflow c |}.
Definition set_avg (c : t) (n : Z) : t :=
  {| m_onchip_undo_buffer := m_onchip_undo_buffer c; m_acs_gap := m_acs_gap c;
     m_tag_directory_home_lookup := m_tag_directory_home_lookup c;
     log_writes := log_writes c; avg_log_writes_by_epoch := n; overflow := overflow c |}.
Definition set_overflow (c : t) (n : Z) : t :=
  {| m_onchip_undo_buffer := m_onchip_undo_buffer c; m_acs_gap := m_acs_gap c;
     m_tag_directory_home_lookup := m_tag_directory_home_lookup c;
     log_writes := log_writes c; avg_log_writes_by_epoch := avg_log_writes_by_epoch c;
     overflow := n |}.

Definition getLogAddress : Z := UINT32_MAX.

(** [sendDataToNVM]: a copy message to the memory controller that is home of the log address. *)
Definition sendDataToNVM (c : t) (g : shared) (entry : UndoEntry) : result shared :=
  let address := getLogAddress in
  let! home := AddressHomeLookup.getHome (m_tag_directory_home_lookup c) address in
  Ok {| epoch := epoch g; nvm_log := nvm_log g ++ [(home, entry)] |}.

(** [while (!log_entries.empty())]. *)
Fixpoint send_entries (log_entries : list UndoEntry) (c : t) (g : shared) : result (t * shared) :=
  match log_entries with
  | [] => Ok (c, g)
  | entry :: log_entries =>
      let! g := sendDataToNVM c g entry in
      send_entries log_entries (set_log_writes c (u64 (log_writes c + 1))) g
  end.

(** [flush(UInt64 persisted_eid)]. *)
Definition flush (persisted_eid : Z) (c : t) (g : shared) : result (t * shared) :=
  let (log_entries, b) :=
    if persisted_eid =? EpochManager.getGlobalSystemEID (epoch g)
    then removeAllEntries (m_onchip_undo_buffer c)
    else removeOldEntries (m_onchip_undo_buffer c) persisted_eid in
  let! (c, g) := send_entries log_entries (set_buf c b) g in
  Ok (c, {| epoch := EpochManager.setGlobalPersistedEID (epoch g) persisted_eid;
            nvm_log := nvm_log g |}).

(** [flush()]. *)
Definition flush_all (c : t) (g : shared) : result (t * shared) :=
  let (log_entries, b) := removeAllEntries (m_onchip_undo_buffer c) in
  send_entries log_entries (set_buf c b) g.

(** [do { flush(system_eid - gap--); } while (isFull());]. *)
Fixpoint flush_loop (fuel : nat) (system_eid gap : Z) (c : t) (g : shared) : result (t * shared) :=
  match fuel with
  | O => Err NoFuel
  | S fuel =>
      let! (c, g) := flush (u64 (system_eid - gap)) c g in
      let gap := u32 (gap - 1) in
      if isFull (m_onchip_undo_buffer c) then flush_loop fuel system_eid gap c g else Ok (c, g)
  end.

(** [gap + 1] rounds are enough: the last one flushes every entry. *)
Definition insertUndoEntry (system_eid : Z) (block : CacheBlockInfo.t) (c : t) (g : shared) :
    result (t * shared) :=
  let! (c, g) :=
    if isFull (m_onchip_undo_buffer c) then
      let c := set_overflow c (u64 (overflow c + 1)) in
      let gap := if system_eid >? m_acs_gap c then m_acs_gap c else u32 system_eid in
      flush_loop (S (Z.to_nat gap)) system_eid gap c g
    else Ok (c, g) in
  let! b := OnChipUndoBuffer.insertUndoEntry (m_onchip_undo_buffer c) system_eid block in
  Ok (set_buf c b, g).

Definition asyncCacheScan (c : t) (g : shared) : result (t * shared) :=
  let system_eid := EpochManager.getGlobalSystemEID (epoch g) in
  if system_eid >=? m_acs_gap c then flush (u64 (system_eid - m_acs_gap c)) c g
  else Ok (c, g).

(** [round] is the identity on the integer quotient. *)
Definition persistLastEpochs (c : t) (g : shared) : result (t * shared) :=
  let system_eid := EpochManager.getGlobalSystemEID (epoch g) in
  let! (c, g) := flush system_eid c g in
  let! avg := udiv (log_writes c) system_eid in
  Ok (set_avg c avg, g).

Definition isPresent (c : t) (block : CacheBlockInfo.t) : bool := false.
End OnChipUndoBufferCntlr.

(** * Lemmas *)

(** ** The buffer *)

Section buffer.
Import OnChipUndoBuffer.

Lemma min_element_spec l m :
  min_element l = Some m → m ∈ l ∧ Forall (λ e, m_valid_till_eid m ≤ m_valid_till_eid e) l.
Proof.
  revert m. induction l as [|e l IH]; intros m; cbn; [done|].
  destruct (min_element l) as [m'|] eqn:E.
  - destruct (IH m' eq_refl) as [Hin Hall].
    destruct (Z.ltb_spec (m_valid_till_eid m') (m_valid_till_eid e)); intros [= <-].
    + split; [set_solver|]. constructor; [lia|done].
    + split; [set_solver|]. constructor; [lia|]. eapply Forall_impl; [exact Hall|]. cbn. lia.
  - intros [= <-]. destruct l as [|e' l]; [|cbn in E; repeat case_match; discriminate].
    split; [set_solver|]. by repeat constructor.
Qed.

Lemma min_element_None l : min_element l = None ↔ l = [].
Proof. destruct l as [|e l]; [done|]. cbn. repeat case_match; done. Qed.

Lemma removed_old acs l : Forall (λ e, m_valid_till_eid e ≤ acs) (List.filter (is_old acs) l).
Proof. apply Forall_forall. intros e He%In_filter. unfold is_old in He. lia. Qed.

Lemma kept_young acs l :
  Forall (λ e, acs < m_valid_till_eid e) (List.filter (λ e, negb (is_old acs e)) l).
Proof. apply Forall_forall. intros e He%In_filter. unfold is_old in He. lia. Qed.
End buffer.

(** ** Flushing

    [flushed e sys l] is what [flush e] takes out of a buffer [l] in epoch [sys]. *)
Definition flushed (e sys : Z) (l : list UndoEntry) : list UndoEntry :=
  if e =? sys then l else List.filter (OnChipUndoBuffer.is_old e) l.
Definition remaining (e sys : Z) (l : list UndoEntry) : list UndoEntry :=
  if e =? sys then [] else List.filter (λ x, negb (OnChipUndoBuffer.is_old e x)) l.

Lemma flushed_perm e sys l : flushed e sys l ++ remaining e sys l ≡ₚ l.
Proof.
  unfold flushed, remaining. destruct (e =? sys); [by rewrite app_nil_r|]. apply filter_negb_perm.
Qed.

(** When no entry outlives the current epoch, the special case of the current
    epoch removes what the general one would. *)
Lemma flushed_till e sys l :
  Forall (λ x, m_valid_till_eid x ≤ sys) l →
  flushed e sys l = List.filter (OnChipUndoBuffer.is_old e) l ∧
  remaining e sys l = List.filter (λ x, negb (OnChipUndoBuffer.is_old e x)) l.
Proof.
  unfold flushed, remaining. intros Hl. destruct (Z.eqb_spec e sys) as [->|]; [|done].
  induction Hl as [|x l Hx Hl [IH1 IH2]]; [done|]. cbn. unfold OnChipUndoBuffer.is_old in *.
  replace (m_valid_till_eid x <=? sys) with true by lia. cbn. by rewrite <- IH1, <- IH2.
Qed.

Lemma remaining_length e sys l : (length (flushed e sys l) + length (remaining e sys l) = length l)%nat.
Proof. rewrite <- length_app. apply Permutation_length, flushed_perm. Qed.

Section cntlr.
Import OnChipUndoBufferCntlr.

(** Well-formedness of a controller: fields in their ranges, at least one
    entry, no more entries than the capacity, and a home for the log address. *)
Definition cntlr_wf (c : t) : Prop :=
  in_u32 (OnChipUndoBuffer.m_num_entries (m_onchip_undo_buffer c)) ∧
  0 < OnChipUndoBuffer.m_num_entries (m_onchip_undo_buffer c) ∧
  Z.of_nat (length (OnChipUndoBuffer.m_buffer (m_onchip_undo_buffer c))) ≤
    OnChipUndoBuffer.m_num_entries (m_onchip_undo_buffer c) ∧
  in_u32 (m_acs_gap c) ∧ in_u64 (log_writes c) ∧
  is_ok (AddressHomeLookup.getHome (m_tag_directory_home_lookup c) getLogAddress) = true.

Definition buffered (c : t) : list UndoEntry := OnChipUndoBuffer.m_buffer (m_onchip_undo_buffer c).
Definition sys (g : shared) : Z := EpochManager.m_system_eid (epoch g).
Definition persisted (g : shared) : Z := EpochManager.m_persisted_eid (epoch g).

(** A controller and the shared state after some entries were sent. *)
Definition sent_to (h : Z) (es : list UndoEntry) (g : shared) : shared :=
  {| epoch := epoch g; nvm_log := nvm_log g ++ map (pair h) es |}.

Lemma u64_add_u64 x y : u64 (u64 x + y) = u64 (x + y).
Proof. unfold u64. by rewrite Zplus_mod_idemp_l. Qed.

Lemma send_entries_spec h es c g :
  AddressHomeLookup.getHome (m_tag_directory_home_lookup c) getLogAddress = Ok h →
  in_u64 (log_writes c) →
  send_entries es c g =
    Ok (set_log_writes c (u64 (log_writes c + Z.of_nat (length es))), sent_to h es g).
Proof.
  revert c g. induction es as [|e es IH]; intros c g Hh Hw; cbn [send_entries].
  - rewrite Z.add_0_r, u64_small by done. unfold sent_to. cbn. rewrite app_nil_r.
    by destruct c, g.
  - unfold sendDataToNVM. rewrite Hh. cbn [rbind]. rewrite IH; [|done|apply u64_range].
    unfold sent_to. cbn. rewrite u64_add_u64, <- app_assoc. do 4 f_equal. lia.
Qed.

Lemma flush_spec h e c g :
  AddressHomeLookup.getHome (m_tag_directory_home_lookup c) getLogAddress = Ok h →
  in_u64 (log_writes c) →
  flush e c g =
    Ok (set_log_writes
          (set_buf c (OnChipUndoBuffer.set_buffer (m_onchip_undo_buffer c) (remaining e (sys g) (buffered c))))
          (u64 (log_writes c + Z.of_nat (length (flushed e (sys g) (buffered c))))),
        {| epoch := EpochManager.setGlobalPersistedEID (epoch g) e;
           nvm_log := nvm_log g ++ map (pair h) (flushed e (sys g) (buffered c)) |}).
Proof.
  intros Hh Hw. unfold flush, EpochManager.getGlobalSystemEID, flushed, remaining, sys, buffered.
  destruct (e =? EpochManager.m_system_eid (epoch g)); cbn [OnChipUndoBuffer.removeAllEntries OnChipUndoBuffer.removeOldEntries];
    rewrite (send_entries_spec h) by done; reflexivity.
Qed.

(** The home of the log address. *)
Lemma cntlr_home c : cntlr_wf c →
  ∃ h, AddressHomeLookup.getHome (m_tag_directory_home_lookup c) getLogAddress = Ok h.
Proof.
  intros (_ & _ & _ & _ & _ & H). destruct (AddressHomeLookup.getHome _ _) as [h|]; [eauto|done].
Qed.

Lemma isFull_false c :
  cntlr_wf c → OnChipUndoBuffer.isFull (m_onchip_undo_buffer c) = false ↔
  Z.of_nat (length (buffered c)) < OnChipUndoBuffer.m_num_entries (m_onchip_undo_buffer c).
Proof.
  intros (_ & _ & Hl & _). unfold OnChipUndoBuffer.isFull, buffered.
  destruct (Z.eqb_spec (Z.of_nat (length (OnChipUndoBuffer.m_buffer (m_onchip_undo_buffer c))))
    (OnChipUndoBuffer.m_num_entries (m_onchip_undo_buffer c))); split; lia || done.
Qed.

Lemma flush_nothing c : set_log_writes (set_buf c (m_onchip_undo_buffer c)) (log_writes c) = c.
Proof. by destruct c. Qed.

Lemma flushed_nil e s l : flushed e s l = [] → remaining e s l = l.
Proof.
  unfold flushed, remaining. destruct (e =? s); [by intros ->|].
  induction l as [|x l IH]; [done|]. cbn.
  destruct (OnChipUndoBuffer.is_old e x); cbn; [done|]. intros H. by rewrite IH.
Qed.

(** The state after flushing up to epoch [e]. *)
Definition flushed_cntlr (e : Z) (c : t) (g : shared) : t :=
  set_log_writes
    (set_buf c (OnChipUndoBuffer.set_buffer (m_onchip_undo_buffer c) (remaining e (sys g) (buffered c))))
    (u64 (log_writes c + Z.of_nat (length (flushed e (sys g) (buffered c))))).
Definition flushed_shared (h e : Z) (c : t) (g : shared) : shared :=
  {| epoch := EpochManager.setGlobalPersistedEID (epoch g) e;
     nvm_log := nvm_log g ++ map (pair h) (flushed e (sys g) (buffered c)) |}.

Lemma flushed_cntlr_wf e c g : cntlr_wf c → cntlr_wf (flushed_cntlr e c g).
Proof.
  intros (H1 & H2 & H3 & H4 & H5 & H6). unfold cntlr_wf, flushed_cntlr. cbn.
  pose proof (remaining_length e (sys g) (buffered c)). unfold buffered in *.
  split_and!; try done; [lia|apply u64_range..].
Qed.

Lemma flush_ok h e c g :
  cntlr_wf c → AddressHomeLookup.getHome (m_tag_directory_home_lookup c) getLogAddress = Ok h →
  flush e c g = Ok (flushed_cntlr e c g, flushed_shared h e c g).
Proof. intros (_ & _ & _ & _ & H & _) Hh. by apply flush_spec. Qed.

(** Rounds that remove nothing only move the persisted epoch. *)
Lemma flush_idle h e c g :
  cntlr_wf c → AddressHomeLookup.getHome (m_tag_directory_home_lookup c) getLogAddress = Ok h →
  flushed e (sys g) (buffered c) = [] →
  flush e c g = Ok (c, {| epoch := EpochManager.setGlobalPersistedEID (epoch g) e; nvm_log := nvm_log g |}).
Proof.
  intros Hwf Hh Hn. rewrite (flush_ok h) by done. unfold flushed_cntlr, flushed_shared.
  rewrite (flushed_nil _ _ _ Hn), Hn. cbn. rewrite Z.add_0_r, app_nil_r, u64_small by apply Hwf.
  f_equal. f_equal. unfold buffered. by destruct c as [[]].
Qed.

(** The overflow loop of a full buffer: it goes through the epochs from
    [s - gap] on and stops at the first one, [s - j], that frees an entry; the current
    epoch ([j = 0]) always does. *)
Lemma flush_loop_spec h s n : ∀ c g fuel,
  cntlr_wf c → AddressHomeLookup.getHome (m_tag_directory_home_lookup c) getLogAddress = Ok h →
  sys g = s → in_u64 s → Z.of_nat n ≤ s → in_u32 (Z.of_nat n) → (n < fuel)%nat →
  OnChipUndoBuffer.isFull (m_onchip_undo_buffer c) = true →
  ∃ j, (j ≤ n)%nat ∧ flushed (s - Z.of_nat j) s (buffered c) ≠ [] ∧
    (∀ k, (j < k ≤ n)%nat → flushed (s - Z.of_nat k) s (buffered c) = []) ∧
    flush_loop fuel s (Z.of_nat n) c g =
      Ok (flushed_cntlr (s - Z.of_nat j) c g, flushed_shared h (s - Z.of_nat j) c g).
Proof.
  induction n as [|n IH]; intros c g fuel Hwf Hh Hs Hs64 Hn Hn32 Hf Hfull;
    (destruct fuel as [|fuel]; [lia|]); cbn [flush_loop].
  - assert (flushed (s - Z.of_nat 0) s (buffered c) ≠ []) as Hne.
    { unfold flushed. rewrite Z.sub_0_r, Z.eqb_refl. intros E.
      pose proof (isFull_false c Hwf) as [_ Hb]. rewrite Hb in Hfull; [done|]. rewrite E. cbn. apply Hwf. }
    exists 0%nat. split; [lia|]. split; [done|]. split; [intros; lia|].
    rewrite u64_small by rlia. rewrite (flush_ok h) by done. cbn [rbind].
    pose proof (isFull_false (flushed_cntlr (s - Z.of_nat 0) c g) (flushed_cntlr_wf _ _ _ Hwf)) as [_ ->]; [done|].
    unfold flushed_cntlr, buffered. cbn -[Z.of_nat]. rewrite Hs.
    pose proof (remaining_length (s - Z.of_nat 0) s (buffered c)) as Hl. unfold buffered in *.
    destruct (flushed (s - Z.of_nat 0) s _) eqn:E; [done|]. cbn [length] in Hl.
    destruct Hwf as (_ & _ & Hlen & _). lia.
  - rewrite u64_small by rlia.
    destruct (decide (flushed (s - Z.of_nat (S n)) s (buffered c) = [])) as [Hn0|Hne].
    + rewrite (flush_idle h) by (rewrite ?Hs; done). cbn [rbind]. rewrite Hfull.
      replace (u32 (Z.of_nat (S n) - 1)) with (Z.of_nat n) by (rewrite u32_small by rlia; lia).
      destruct (IH c {| epoch := EpochManager.setGlobalPersistedEID (epoch g) (s - Z.of_nat (S n));
                        nvm_log := nvm_log g |} fuel) as (j & Hj & Hne & Hall & E); try done; [lia|rlia|lia|].
      exists j. split; [lia|]. split; [done|]. split; [|exact E].
      intros k Hk. destruct (decide (k = S n)) as [->|]; [done|]. apply Hall. lia.
    + exists (S n). split; [lia|]. split; [done|]. split; [intros; lia|].
      rewrite (flush_ok h) by done. cbn [rbind].
      pose proof (isFull_false (flushed_cntlr (s - Z.of_nat (S n)) c g) (flushed_cntlr_wf _ _ _ Hwf)) as [_ ->]; [done|].
      unfold flushed_cntlr, buffered. cbn -[Z.of_nat]. rewrite Hs.
      pose proof (remaining_length (s - Z.of_nat (S n)) s (buffered c)) as Hl. unfold buffered in *.
      destruct (flushed (s - Z.of_nat (S n)) s _) eqn:E; [done|]. cbn [length] in Hl.
      destruct Hwf as (_ & _ & Hlen & _). lia.
Qed.

(** [insertUndoEntry] on every branch. *)
Definition added (s : Z) (b : CacheBlockInfo.t) (c : t) : t :=
  set_buf c (OnChipUndoBuffer.set_buffer (m_onchip_undo_buffer c) (buffered c ++ [new_entry s b])).

Lemma add_entry_ok s b c :
  Z.of_nat (length (buffered c)) < OnChipUndoBuffer.m_num_entries (m_onchip_undo_buffer c) →
  (let! x := OnChipUndoBuffer.insertUndoEntry (m_onchip_undo_buffer c) s b in Ok (set_buf c x)) = Ok (added s b c).
Proof.
  intros H. unfold OnChipUndoBuffer.insertUndoEntry. unfold buffered in H.
  rewrite (proj2 (Z.ltb_lt _ _) H). done.
Qed.

Lemma insert_not_full s b c g :
  cntlr_wf c → OnChipUndoBuffer.isFull (m_onchip_undo_buffer c) = false →
  insertUndoEntry s b c g = Ok (added s b c, g).
Proof.
  intros Hwf Hf. unfold insertUndoEntry. rewrite Hf. cbn [rbind].
  pose proof (add_entry_ok s b c (proj1 (isFull_false c Hwf) Hf)) as E.
  apply rbind_ok in E as (x & -> & [= E]). cbn [rbind]. by rewrite E.
Qed.

Lemma insert_full h s b c g :
  cntlr_wf c → AddressHomeLookup.getHome (m_tag_directory_home_lookup c) getLogAddress = Ok h →
  sys g = s → in_u64 s → OnChipUndoBuffer.isFull (m_onchip_undo_buffer c) = true →
  let c0 := set_overflow c (u64 (overflow c + 1)) in
  ∃ j, 0 ≤ j ≤ Z.min s (m_acs_gap c) ∧ flushed (s - j) s (buffered c) ≠ [] ∧
    (∀ k, j < k ≤ Z.min s (m_acs_gap c) → flushed (s - k) s (buffered c) = []) ∧
    insertUndoEntry s b c g =
      Ok (added s b (flushed_cntlr (s - j) c0 g), flushed_shared h (s - j) c0 g).
Proof.
  intros Hwf Hh Hs Hs64 Hfull c0. assert (cntlr_wf c0) as Hwf0 by done.
  pose proof Hwf as (_ & _ & _ & Hgap & _).
  set (gap := if s >? m_acs_gap c then m_acs_gap c else u32 s).
  assert (gap = Z.min s (m_acs_gap c)) as Eg.
  { unfold gap. destruct (Z.gtb_spec s (m_acs_gap c)); [lia|]. rewrite u32_small; rlia. }
  destruct (flush_loop_spec h s (Z.to_nat gap) c0 g (S (Z.to_nat gap))) as (j & Hj & Hne & Hall & E);
    try done; [rlia|rlia|lia|].
  exists (Z.of_nat j). split; [rlia|]. split; [done|]. split.
  { intros k Hk. specialize (Hall (Z.to_nat k)). rewrite Z2Nat.id in Hall by rlia. apply Hall. rlia. }
  unfold insertUndoEntry. rewrite Hfull. fold c0 gap.
  rewrite Z2Nat.id in E by rlia.
  change (m_acs_gap c0) with (m_acs_gap c). fold gap. rewrite E. cbn [rbind].
  pose proof (add_entry_ok s b (flushed_cntlr (s - Z.of_nat j) c0 g)) as Ea.
  assert (Z.of_nat (length (buffered (flushed_cntlr (s - Z.of_nat j) c0 g))) <
          OnChipUndoBuffer.m_num_entries (m_onchip_undo_buffer (flushed_cntlr (s - Z.of_nat j) c0 g))) as Hlt.
  { unfold flushed_cntlr, buffered at 1. cbn -[Z.of_nat]. rewrite Hs.
    pose proof (remaining_length (s - Z.of_nat j) s (buffered c0)) as Hl.
    destruct (flushed (s - Z.of_nat j) s (buffered c0)) eqn:Ef; [done|]. cbn [length] in Hl.
    destruct Hwf as (_ & _ & Hlen & _). unfold buffered in *. cbn in *. lia. }
  specialize (Ea Hlt). apply rbind_ok in Ea as (x & -> & [= Ea]). cbn [rbind]. by rewrite Ea.
Qed.

Lemma added_wf s b c :
  cntlr_wf c → Z.of_nat (length (buffered c)) < OnChipUndoBuffer.m_num_entries (m_onchip_undo_buffer c) →
  cntlr_wf (added s b c).
Proof.
  intros (H1 & H2 & H3 & H4 & H5 & H6) Hlt. unfold cntlr_wf, added. cbn.
  rewrite length_app. cbn. unfold buffered in *. split_and!; try done; lia.
Qed.
End cntlr.

Section derived.
Import OnChipUndoBufferCntlr.

(** The entries in the log. *)
Definition logged (g : shared) : list UndoEntry := map snd (nvm_log g).

Lemma logged_sent h e c g :
  logged (flushed_shared h e c g) = logged g ++ flushed e (sys g) (buffered c).
Proof.
  unfold logged, flushed_shared. cbn. rewrite map_app. f_equal.
  induction (flushed e (sys g) (buffered c)) as [|x l IH]; [done|]. cbn. by rewrite IH.
Qed.

(** Flushing moves entries to the log and loses none. *)
Lemma flush_conserves h e c g :
  logged (flushed_shared h e c g) ++ buffered (flushed_cntlr e c g) ≡ₚ logged g ++ buffered c.
Proof.
  rewrite logged_sent, <- app_assoc. unfold flushed_cntlr, buffered. cbn.
  apply Permutation_app_head, flushed_perm.
Qed.

Lemma buffered_flushed e c g : buffered (flushed_cntlr e c g) = remaining e (sys g) (buffered c).
Proof. done. Qed.

(** What an insertion keeps of the buffer, and the epoch it leaves as persisted. *)
Definition insert_outcome (s : Z) (b : CacheBlockInfo.t) (c : t) (g : shared) (c' : t) (g' : shared) : Prop :=
  cntlr_wf c' ∧ sys g' = s ∧ m_acs_gap c' = m_acs_gap c ∧
  ∃ kept, buffered c' = kept ++ [new_entry s b] ∧ logged g' ++ kept ≡ₚ logged g ++ buffered c ∧
    ((kept = buffered c ∧ g' = g) ∨
     (s - m_acs_gap c ≤ persisted g' ≤ s ∧ 0 ≤ persisted g' ∧ kept = remaining (persisted g') s (buffered c))).

Lemma insert_total s b c g :
  cntlr_wf c → sys g = s → in_u64 s →
  ∃ c' g', insertUndoEntry s b c g = Ok (c', g') ∧ insert_outcome s b c g c' g'.
Proof.
  intros Hwf Hs Hs64. destruct (OnChipUndoBuffer.isFull (m_onchip_undo_buffer c)) eqn:Hfull.
  - destruct (cntlr_home c Hwf) as [h Hh].
    destruct (insert_full h s b c g Hwf Hh Hs Hs64 Hfull) as (j & Hj & Hne & _ & E).
    set (c0 := set_overflow c (u64 (overflow c + 1))) in *.
    exists (added s b (flushed_cntlr (s - j) c0 g)), (flushed_shared h (s - j) c0 g).
    split; [done|]. split.
    { apply added_wf; [by apply flushed_cntlr_wf|]. rewrite buffered_flushed, Hs.
      pose proof (remaining_length (s - j) s (buffered c)) as Hl. cbn.
      destruct (flushed (s - j) s (buffered c)) eqn:Ef; [done|]. cbn [length] in Hl.
      destruct Hwf as (_ & _ & Hlen & _). unfold buffered in *. cbn in *. lia. }
    split; [done|]. split; [done|]. exists (remaining (s - j) s (buffered c)). split; [by rewrite <- Hs|]. split.
    { pose proof (flush_conserves h (s - j) c0 g) as Hc. rewrite buffered_flushed, Hs in Hc. exact Hc. }
    right. cbn. split; [lia|]. split; [lia|done].
  - exists (added s b c), g. rewrite (insert_not_full s b c g Hwf Hfull).
    split; [done|]. split; [apply added_wf; [done|by apply isFull_false]|]. split; [done|].
    split; [done|]. exists (buffered c). split; [done|]. split; [done|]. by left.
Qed.

Lemma scan_ok c g :
  cntlr_wf c → in_u64 (sys g) →
  ∃ c' g', asyncCacheScan c g = Ok (c', g') ∧ cntlr_wf c' ∧ sys g' = sys g ∧ m_acs_gap c' = m_acs_gap c ∧
    logged g' ++ buffered c' ≡ₚ logged g ++ buffered c ∧
    ((sys g < m_acs_gap c ∧ c' = c ∧ g' = g) ∨
     (m_acs_gap c ≤ sys g ∧ persisted g' = sys g - m_acs_gap c ∧
      buffered c' = remaining (sys g - m_acs_gap c) (sys g) (buffered c))).
Proof.
  intros Hwf Hs. unfold asyncCacheScan, EpochManager.getGlobalSystemEID. fold (sys g).
  pose proof Hwf as (_ & _ & _ & Hgap & _).
  destruct (sys g >=? m_acs_gap c) eqn:E.
  - destruct (cntlr_home c Hwf) as [h Hh]. rewrite u64_small by rlia. rewrite (flush_ok h) by done.
    eexists _, _. split; [done|]. split; [by apply flushed_cntlr_wf|]. split; [done|]. split; [done|].
    split; [apply flush_conserves|]. right. split; [lia|done].
  - exists c, g. split_and!; try done. left. split; [lia|done].
Qed.

Lemma persist_ok c g :
  cntlr_wf c → 0 < sys g →
  ∃ c' g', persistLastEpochs c g = Ok (c', g') ∧ cntlr_wf c' ∧ sys g' = sys g ∧ m_acs_gap c' = m_acs_gap c ∧
    logged g' ++ buffered c' ≡ₚ logged g ++ buffered c ∧ buffered c' = [] ∧ persisted g' = sys g ∧
    avg_log_writes_by_epoch c' = log_writes c' `div` sys g.
Proof.
  intros Hwf Hs. unfold persistLastEpochs, EpochManager.getGlobalSystemEID. fold (sys g).
  destruct (cntlr_home c Hwf) as [h Hh]. rewrite (flush_ok h) by done. cbn [rbind].
  unfold udiv. replace (sys g =? 0) with false by lia. cbn [rbind].
  eexists _, _. split; [done|]. split; [by apply (flushed_cntlr_wf (sys g) c g Hwf)|].
  split; [done|]. split; [done|]. split; [apply (flush_conserves h)|].
  split; [|done]. unfold flushed_cntlr, remaining, buffered. cbn. by rewrite Z.eqb_refl.
Qed.
End derived.

(** * Properties *)

Lemma filter_sublist {A} (f : A → bool) l : List.filter f l `sublist_of` l.
Proof. induction l as [|a l IH]; [constructor|]. cbn. destruct (f a); by constructor. Qed.

(** [removeOldEntries(acs_eid)] splits the buffer: the queue holds exactly the
    entries valid until [acs_eid] or earlier, the buffer keeps exactly the others, both in the
    order of the buffer, and nothing is lost or duplicated. *)
Theorem removeOldEntries_partition b acs removed b' :
  OnChipUndoBuffer.removeOldEntries b acs = (removed, b') →
  Forall (λ e, m_valid_till_eid e ≤ acs) removed ∧
  Forall (λ e, acs < m_valid_till_eid e) (OnChipUndoBuffer.m_buffer b') ∧
  removed ++ OnChipUndoBuffer.m_buffer b' ≡ₚ OnChipUndoBuffer.m_buffer b ∧
  removed `sublist_of` OnChipUndoBuffer.m_buffer b ∧
  OnChipUndoBuffer.m_buffer b' `sublist_of` OnChipUndoBuffer.m_buffer b ∧
  OnChipUndoBuffer.m_num_entries b' = OnChipUndoBuffer.m_num_entries b.
Proof.
  unfold OnChipUndoBuffer.removeOldEntries. intros [= <- <-]. cbn.
  split_and!; [apply removed_old|apply kept_young|apply filter_negb_perm|apply filter_sublist..|done].
Qed.

Definition example_buffer : OnChipUndoBuffer.t :=
  OnChipUndoBuffer.mk 4 [mk_entry 10 0 5; mk_entry 11 2 3; mk_entry 12 4 5; mk_entry 13 1 4].

Lemma removeOldEntries_partition_witness :
  OnChipUndoBuffer.removeOldEntries example_buffer 4 =
    ([mk_entry 11 2 3; mk_entry 13 1 4], OnChipUndoBuffer.mk 4 [mk_entry 10 0 5; mk_entry 12 4 5]) ∧
  Forall (λ e, m_valid_till_eid e ≤ 4) [mk_entry 11 2 3; mk_entry 13 1 4].
Proof.
  split; [reflexivity|].
  apply (removeOldEntries_partition example_buffer 4 [mk_entry 11 2 3; mk_entry 13 1 4]
           (OnChipUndoBuffer.mk 4 [mk_entry 10 0 5; mk_entry 12 4 5])).
  reflexivity.
Defined.

(** [removeOldEntries()] frees the oldest epoch: on a buffer that holds
    something it removes at least one entry, exactly those with the smallest [valid_till];
    on an empty buffer it dereferences [end()]. *)
Theorem removeOldest_frees b :
  (OnChipUndoBuffer.m_buffer b = [] → OnChipUndoBuffer.removeOldestEntries b = Err OutOfRange) ∧
  (OnChipUndoBuffer.m_buffer b ≠ [] → ∃ m removed b',
     OnChipUndoBuffer.removeOldestEntries b = Ok (removed, b') ∧ removed ≠ [] ∧
     Forall (λ e, m ≤ m_valid_till_eid e) (OnChipUndoBuffer.m_buffer b) ∧
     Forall (λ e, m_valid_till_eid e = m) removed ∧
     Forall (λ e, m < m_valid_till_eid e) (OnChipUndoBuffer.m_buffer b')).
Proof.
  unfold OnChipUndoBuffer.removeOldestEntries. split; [by intros ->|]. intros Hne.
  destruct (OnChipUndoBuffer.min_element (OnChipUndoBuffer.m_buffer b)) as [m|] eqn:E;
    [|by apply min_element_None in E].
  destruct (min_element_spec _ _ E) as [Hin Hall].
  eexists (m_valid_till_eid m), _, _. split; [reflexivity|]. split; [|split; [done|split]].
  - assert (m ∈ List.filter (OnChipUndoBuffer.is_old (m_valid_till_eid m)) (OnChipUndoBuffer.m_buffer b)) as Hm.
    { apply In_filter. split; [done|]. unfold OnChipUndoBuffer.is_old. lia. }
    intros Hn. cbn in Hn. rewrite Hn in Hm. by apply elem_of_nil in Hm.
  - apply Forall_forall. intros e He%In_filter. destruct He as [He Hold].
    pose proof (proj1 (Forall_forall _ _) Hall e He). unfold OnChipUndoBuffer.is_old in Hold. cbn in *. lia.
  - apply kept_young.
Qed.

(** [C34] Inserting an undo entry always succeeds: the loop that makes room ends
    after at most [acs_gap + 1] flushes, the new entry is the last of the buffer, and every
    entry that was buffered is still buffered or has been written to the log. *)
Theorem insertUndoEntry_total b c g :
  cntlr_wf c → in_u64 (sys g) →
  ∃ c' g' kept, OnChipUndoBufferCntlr.insertUndoEntry (sys g) b c g = Ok (c', g') ∧ cntlr_wf c' ∧
    buffered c' = kept ++ [new_entry (sys g) b] ∧
    logged g' ++ kept ≡ₚ logged g ++ buffered c ∧ sys g' = sys g.
Proof.
  intros Hwf Hs. destruct (insert_total (sys g) b c g Hwf eq_refl Hs)
    as (c' & g' & E & Hwf' & Hs' & _ & kept & Hb & Hp & _).
  by exists c', g', kept.
Qed.

(** A buffer of [n] entries and a scan gap, with one memory controller. *)
Definition example_cntlr (n gap : Z) : OnChipUndoBufferCntlr.t :=
  OnChipUndoBufferCntlr.new (AddressHomeLookup.mk 6 63 [0] 1 64) (Some n) (Some gap).
Definition example_block (tag eid : Z) : CacheBlockInfo.t :=
  CacheBlockInfo.set_epoch (CacheBlockInfo.new tag CacheState.MODIFIED 0) eid.
Definition example_full (entries : list UndoEntry) (gap : Z) : OnChipUndoBufferCntlr.t :=
  OnChipUndoBufferCntlr.set_buf (example_cntlr (Z.of_nat (length entries)) gap)
    (OnChipUndoBuffer.mk (Z.of_nat (length entries)) entries).

Lemma insertUndoEntry_total_witness :
  let c := example_full [mk_entry 10 0 5; mk_entry 11 2 3; mk_entry 12 4 5] 3 in
  let g := OnChipUndoBufferCntlr.mk_shared (EpochManager.mk 5 1) [] in
  ∃ c' g' kept, OnChipUndoBufferCntlr.insertUndoEntry 5 (example_block 13 2) c g = Ok (c', g') ∧ cntlr_wf c' ∧
    buffered c' = kept ++ [mk_entry 13 2 5] ∧
    logged g' ++ kept ≡ₚ logged g ++ buffered c ∧ sys g' = 5.
Proof.
  apply (insertUndoEntry_total (example_block 13 2)
           (example_full [mk_entry 10 0 5; mk_entry 11 2 3; mk_entry 12 4 5] 3)
           (OnChipUndoBufferCntlr.mk_shared (EpochManager.mk 5 1) [])).
  - by_compute.
  - cbn. rlia.
Defined.

(** On overflow the controller makes room with the oldest epochs it can:
    it flushes up to the first epoch from [system_eid - acs_gap] on (never before epoch 0)
    for which the buffer holds an entry, so no younger entry is written than needed. *)
Theorem overflow_flushes_oldest b c g :
  cntlr_wf c → in_u64 (sys g) → OnChipUndoBuffer.isFull (OnChipUndoBufferCntlr.m_onchip_undo_buffer c) = true →
  ∃ j c' g', 0 ≤ j ≤ Z.min (sys g) (OnChipUndoBufferCntlr.m_acs_gap c) ∧
    OnChipUndoBufferCntlr.insertUndoEntry (sys g) b c g = Ok (c', g') ∧
    (∀ k, j < k ≤ Z.min (sys g) (OnChipUndoBufferCntlr.m_acs_gap c) → flushed (sys g - k) (sys g) (buffered c) = []) ∧
    flushed (sys g - j) (sys g) (buffered c) ≠ [] ∧
    logged g' = logged g ++ flushed (sys g - j) (sys g) (buffered c) ∧
    buffered c' = remaining (sys g - j) (sys g) (buffered c) ++ [new_entry (sys g) b] ∧
    persisted g' = sys g - j ∧
    OnChipUndoBufferCntlr.overflow c' = u64 (OnChipUndoBufferCntlr.overflow c + 1).
Proof.
  intros Hwf Hs Hfull. destruct (cntlr_home c Hwf) as [h Hh].
  destruct (insert_full h (sys g) b c g Hwf Hh eq_refl Hs Hfull) as (j & Hj & Hne & Hall & E).
  eexists j, _, _. split; [done|]. split; [exact E|]. split; [done|]. split; [done|].
  split; [by rewrite logged_sent|]. done.
Qed.

Lemma overflow_flushes_oldest_witness :
  let c := example_full [mk_entry 10 0 5; mk_entry 11 2 3; mk_entry 12 4 5] 3 in
  let g := OnChipUndoBufferCntlr.mk_shared (EpochManager.mk 5 1) [] in
  ∃ j c' g', 0 ≤ j ≤ Z.min 5 3 ∧
    OnChipUndoBufferCntlr.insertUndoEntry 5 (example_block 13 2) c g = Ok (c', g') ∧
    (∀ k, j < k ≤ Z.min 5 3 → flushed (5 - k) 5 (buffered c) = []) ∧
    flushed (5 - j) 5 (buffered c) ≠ [] ∧
    logged g' = logged g ++ flushed (5 - j) 5 (buffered c) ∧
    buffered c' = remaining (5 - j) 5 (buffered c) ++ [new_entry 5 (example_block 13 2)] ∧
    persisted g' = 5 - j ∧
    OnChipUndoBufferCntlr.overflow c' = 1.
Proof.
  apply (overflow_flushes_oldest (example_block 13 2)
           (example_full [mk_entry 10 0 5; mk_entry 11 2 3; mk_entry 12 4 5] 3)
           (OnChipUndoBufferCntlr.mk_shared (EpochManager.mk 5 1) [])).
  - by_compute.
  - cbn. rlia.
  - reflexivity.
Defined.

(** After the periodic scan of a buffer, what it marked as persisted is
    persisted: the entries that remain are valid beyond the persisted epoch, which is
    [acs_gap] epochs behind, and the others are in the log. *)
Theorem asyncCacheScan_persists c g :
  cntlr_wf c → in_u64 (sys g) → Forall (λ e, m_valid_till_eid e ≤ sys g) (buffered c) →
  OnChipUndoBufferCntlr.m_acs_gap c ≤ sys g →
  ∃ c' g', OnChipUndoBufferCntlr.asyncCacheScan c g = Ok (c', g') ∧ cntlr_wf c' ∧
    persisted g' = sys g - OnChipUndoBufferCntlr.m_acs_gap c ∧
    Forall (λ e, persisted g' < m_valid_till_eid e) (buffered c') ∧
    ∀ e, e ∈ buffered c → e ∈ buffered c' ∨ e ∈ logged g'.
Proof.
  intros Hwf Hs Ht Hgap. destruct (scan_ok c g Hwf Hs)
    as (c' & g' & E & Hwf' & Hs' & _ & Hp & [(? & _)|(_ & Hpers & Hb)]); [lia|].
  exists c', g'. split; [done|]. split; [done|]. split; [done|]. split.
  - rewrite Hb, Hpers, (proj2 (flushed_till _ _ _ Ht)). apply kept_young.
  - intros e He. assert (e ∈ logged g' ++ buffered c') as Hin by (rewrite Hp; set_solver).
    apply elem_of_app in Hin as [?|?]; auto.
Qed.

Lemma asyncCacheScan_persists_witness :
  let c := example_full [mk_entry 10 0 5; mk_entry 11 1 2; mk_entry 12 4 5] 3 in
  let g := OnChipUndoBufferCntlr.mk_shared (EpochManager.mk 5 1) [] in
  ∃ c' g', OnChipUndoBufferCntlr.asyncCacheScan c g = Ok (c', g') ∧ cntlr_wf c' ∧
    persisted g' = 5 - 3 ∧
    Forall (λ e, persisted g' < m_valid_till_eid e) (buffered c') ∧
    ∀ e, e ∈ buffered c → e ∈ buffered c' ∨ e ∈ logged g'.
Proof.
  apply (asyncCacheScan_persists (example_full [mk_entry 10 0 5; mk_entry 11 1 2; mk_entry 12 4 5] 3)
           (OnChipUndoBufferCntlr.mk_shared (EpochManager.mk 5 1) [])).
  - by_compute.
  - cbn. rlia.
  - repeat constructor; cbn; lia.
  - by_compute.
Defined.

(** An overflow within one epoch breaks what the persisted epoch promises:
    when all entries of a full buffer end in the current epoch, the controller declares
    the current epoch persisted and then buffers an entry that ends in it. *)
Theorem overflow_overstates_persisted :
  let c := example_full [mk_entry 10 2 5; mk_entry 11 3 5] 3 in
  let g := OnChipUndoBufferCntlr.mk_shared (EpochManager.mk 5 2) [] in
  ∃ c' g', OnChipUndoBufferCntlr.insertUndoEntry 5 (example_block 12 4) c g = Ok (c', g') ∧
    persisted g' = 5 ∧ buffered c' = [mk_entry 12 4 5].
Proof. eexists _, _. split; [vm_compute; reflexivity|]. split; reflexivity. Qed.

(** The persisted epoch can move backwards: after an overflow has declared
    epoch 5 persisted, the next periodic scan sets it to 2. *)
Theorem persisted_not_monotone :
  let c := example_full [mk_entry 10 2 5; mk_entry 11 3 5] 3 in
  let g := OnChipUndoBufferCntlr.mk_shared (EpochManager.mk 5 2) [] in
  ∃ c1 g1 c2 g2, OnChipUndoBufferCntlr.insertUndoEntry 5 (example_block 12 4) c g = Ok (c1, g1) ∧
    OnChipUndoBufferCntlr.asyncCacheScan c1 g1 = Ok (c2, g2) ∧ persisted g1 = 5 ∧ persisted g2 = 2.
Proof.
  eexists _, _, _, _. split; [vm_compute; reflexivity|]. split; [vm_compute; reflexivity|].
  split; reflexivity.
Qed.
