(* ===== verification/Picl.v ===== *)
(** The PiCL system: cores with their undo buffer controllers, the last-level
    caches they write to, the epoch manager and the hooks that tie them together.

    Modelled from [cache_cntlr.cc] ([writeCacheBlock], and the effect on the
    last-level cache of [insertCacheBlock], [setCacheState], [invalidateCacheBlock]),
    [memory_manager.cc] (one undo buffer controller per core), [simulator.cc] (the
    epoch manager is started after the cores exist, so its hook comes last) and the
    hook registrations of [onchip_undo_buffer_cntlr.cc] and [epoch_manager.cc]. *)
From S2P Require Import Prelude Utils BlockInfo AddressMap Replacement CacheModel Epoch UndoBuffer.

Module Picl.
(** The shared part of a last-level cache ([m_master]): the cache, and the
    buffer of the line being evicted with its address. *)
Record llc (P : Type) := mk_llc {
  cache : Cache.t P;
  m_evicting : option (Z * bytes);
}.
Arguments mk_llc {P} _ _.
Arguments cache {P} _.
Arguments m_evicting {P} _.

(** A core: which last-level cache it writes to, and its controller. *)
Record core := mk_core {
  llc_index : nat;
  m_onchip_undo_buffer_cntlr : OnChipUndoBufferCntlr.t;
}.

Record t (P : Type) := mk {
  m_picl_enabled : bool;
  is_L3 : bool;                 (* m_cache->getName() == "L3" *)
  llcs : list (llc P);
  cores : list core;
  shared : OnChipUndoBufferCntlr.shared;
}.
Arguments mk {P} _ _ _ _ _.
Arguments m_picl_enabled {P} _.
Arguments is_L3 {P} _.
Arguments llcs {P} _.
Arguments cores {P} _.
Arguments shared {P} _.

Section ops.
Context {P : Type} `{Policy P}.

Definition set_llc (s : t P) (i : nat) (l : llc P) : result (t P) :=
  let! ls := arr_set (llcs s) i l in
  Ok {| m_picl_enabled := m_picl_enabled s; is_L3 := is_L3 s; llcs := ls;
        cores := cores s; shared := shared s |}.

Definition set_core (s : t P) (k : nat) (c : OnChipUndoBufferCntlr.t)
    (g : OnChipUndoBufferCntlr.shared) : result (t P) :=
  let! old := arr_get (cores s) k in
  let! cs := arr_set (cores s) k {| llc_index := llc_index old; m_onchip_undo_buffer_cntlr := c |} in
  Ok {| m_picl_enabled := m_picl_enabled s; is_L3 := is_L3 s; llcs := llcs s;
        cores := cs; shared := g |}.

(** A call of an operation of the controller of core [k]. *)
Definition with_cntlr (k : nat)
    (f : OnChipUndoBufferCntlr.t → OnChipUndoBufferCntlr.shared →
         result (OnChipUndoBufferCntlr.t * OnChipUndoBufferCntlr.shared)) (s : t P) : result (t P) :=
  let! co := arr_get (cores s) k in
  let! (c, g) := f (m_onchip_undo_buffer_cntlr co) (shared s) in
  set_core s k c g.

(** The part of [writeCacheBlock] for a line of the cache: the data are stored,
    and the first write in an epoch hands the line's old epoch to the undo buffer. *)
Definition write_line (k : nat) (co : core) (l : llc P) (address : Z) (offset : nat)
    (data_buf : option bytes) (data_length : nat) (s : t P) : result (list UndoEntry * t P) :=
  let! (found, c) := Cache.accessSingleLine (cache l) (u64 (address + Z.of_nat offset)) CacheBase.STORE
                       data_buf data_length false in
  let! s := set_llc s (llc_index co) {| cache := c; m_evicting := m_evicting l |} in
  match found with
  | None => Err AssertFail
  | Some (loc, _) =>
      let! cache_block_info := Cache.peekBlock c loc in
      let! _ := check (bool_decide (CacheBlockInfo.m_cstate cache_block_info = CacheState.MODIFIED)) AssertFail in
      let system_eid := EpochManager.getGlobalSystemEID (OnChipUndoBufferCntlr.epoch (shared s)) in
      if CacheBlockInfo.m_eid cache_block_info =? system_eid then Ok ([], s)
      else
        let logs := m_picl_enabled s && is_L3 s in
        let! s := if logs then
                    with_cntlr k (OnChipUndoBufferCntlr.insertUndoEntry system_eid cache_block_info) s
                  else Ok s in
        let! c := Cache.updateBlock c loc (λ b, CacheBlockInfo.set_epoch b system_eid) in
        let! s := set_llc s (llc_index co) {| cache := c; m_evicting := m_evicting l |} in
        Ok (if logs then [new_entry system_eid cache_block_info] else [], s)
  end.

(** [writeCacheBlock] of the last-level cache, called by the level above in core [k].
    Also returns the entries handed to the undo buffer. *)
Definition writeCacheBlock (k : nat) (address : Z) (offset : nat) (data_buf : option bytes)
    (data_length : nat) (s : t P) : result (list UndoEntry * t P) :=
  let! co := arr_get (cores s) k in
  let! l := arr_get (llcs s) (llc_index co) in
  match m_evicting l with
  | Some (evicting_address, evicting_buf) =>
      if address =? evicting_address then
        let! _ := check (offset =? 0)%nat AssertFail in
        let! _ := check (Z.of_nat data_length =? CacheBase.m_blocksize (Cache.base (cache l))) AssertFail in
        let! buf :=
          match data_buf with
          | Some d => mem_write evicting_buf offset d data_length
          | None => Ok evicting_buf
          end in
        let! s := set_llc s (llc_index co)
                    {| cache := cache l; m_evicting := Some (evicting_address, buf) |} in
        Ok ([], s)
      else write_line k co l address offset data_buf data_length s
  | None => write_line k co l address offset data_buf data_length s
  end.

Definition getCacheState (c : Cache.t P) (address : Z) : result CacheState.cstate_t :=
  let! loc := Cache.peekSingleLine c address in
  match loc with
  | Some loc => let! b := Cache.peekBlock c loc in Ok (CacheBlockInfo.m_cstate b)
  | None => Ok CacheState.INVALID
  end.

(** The beginning of [insertCacheBlock]: the line is inserted and given its state;
    if a line was evicted, its buffer takes the write-backs of the levels above. *)
Definition insertCacheBlock (i : nat) (address : Z) (cstate : CacheState.cstate_t)
    (data_buf : option bytes) (cn : cntlr) (s : t P) : result (t P) :=
  let! l := arr_get (llcs s) i in
  let! state := getCacheState (cache l) address in
  let! _ := check (bool_decide (state = CacheState.INVALID)) AssertFail in
  let! (ev, evict_address, c) :=
    Cache.insertSingleLine cn (cache l) address data_buf CacheBlockInfo.empty true in
  let! loc := Cache.peekSingleLine c address in
  match loc with
  | None => Err NullPointer
  | Some loc =>
      let! c := Cache.updateBlock c loc (λ b, CacheBlockInfo.set_cstate b cstate) in
      let evicting :=
        if CacheSet.eviction ev then
          Some (evict_address,
                default (replicate (Z.to_nat (CacheBase.m_blocksize (Cache.base c))) 0) (CacheSet.evict_buff ev))
        else m_evicting l in
      set_llc s i {| cache := c; m_evicting := evicting |}
  end.

(** The write-backs of the levels above are done. *)
Definition evictionDone (i : nat) (s : t P) : result (t P) :=
  let! l := arr_get (llcs s) i in
  set_llc s i {| cache := cache l; m_evicting := None |}.

(** [setCacheState]; the block must be there. *)
Definition setCacheState (i : nat) (address : Z) (cstate : CacheState.cstate_t) (s : t P) : result (t P) :=
  let! l := arr_get (llcs s) i in
  let! loc := Cache.peekSingleLine (cache l) address in
  match loc with
  | None => Err NullPointer
  | Some loc =>
      let! c := Cache.updateBlock (cache l) loc (λ b, CacheBlockInfo.set_cstate b cstate) in
      set_llc s i {| cache := c; m_evicting := m_evicting l |}
  end.

(** [invalidateCacheBlock] of the last level. *)
Definition invalidateCacheBlock (i : nat) (address : Z) (s : t P) : result (t P) :=
  let! l := arr_get (llcs s) i in
  let! old_cstate := getCacheState (cache l) address in
  let! _ := check (negb (bool_decide (old_cstate = CacheState.MODIFIED)) && negb (bool_decide (old_cstate = CacheState.INVALID))) AssertFail in
  let! (_, c) := Cache.invalidateSingleLine (cache l) address in
  set_llc s i {| cache := c; m_evicting := m_evicting l |}.

(** ** Hooks *)

(** The functions registered; the argument is [this], here the core number. *)
Inductive hook_func := async_cache_scan | persist_last_epochs | epoch_increment.

Definition run_hook (f : hook_func) (arg val : Z) (s : t P) : result (Z * t P) :=
  match f with
  | async_cache_scan =>
      let! s := with_cntlr (Z.to_nat arg) OnChipUndoBufferCntlr.asyncCacheScan s in Ok (0, s)
  | persist_last_epochs =>
      let! s := with_cntlr (Z.to_nat arg) OnChipUndoBufferCntlr.persistLastEpochs s in Ok (0, s)
  | epoch_increment =>
      Ok (0, {| m_picl_enabled := m_picl_enabled s; is_L3 := is_L3 s; llcs := llcs s; cores := cores s;
                shared := {| OnChipUndoBufferCntlr.epoch :=
                               EpochManager.increment (OnChipUndoBufferCntlr.epoch (shared s));
                             OnChipUndoBufferCntlr.nvm_log := OnChipUndoBufferCntlr.nvm_log (shared s) |} |})
  end.

(** The registrations: the constructor of each controller, core by core, and
    then [EpochManager::start]. *)
Fixpoint register_cores (ks : list nat) (reg : HooksManager.t hook_func) : HooksManager.t hook_func :=
  match ks with
  | [] => reg
  | k :: ks =>
      let reg := HooksManager.registerHook reg HOOK_PERIODIC_INS async_cache_scan (Z.of_nat k) ORDER_NOTIFY_PRE in
      let reg := HooksManager.registerHook reg HOOK_APPLICATION_EXIT persist_last_epochs (Z.of_nat k) ORDER_NOTIFY_PRE in
      register_cores ks reg
  end.
Definition registry (num_cores : nat) : HooksManager.t hook_func :=
  HooksManager.registerHook (register_cores (seq 0 num_cores) HooksManager.new)
    HOOK_PERIODIC_INS epoch_increment 0 ORDER_NOTIFY_PRE.

Definition call_hooks (type : hook_type_t) (s : t P) : result (t P) :=
  let! (_, s) := HooksManager.callHooks run_hook (registry (length (cores s))) type 0 false s in Ok s.

(** ** Runs *)

Inductive event :=
  | Write (k : nat) (address : Z) (offset : nat) (data_buf : option bytes) (data_length : nat)
  | Insert (i : nat) (address : Z) (cstate : CacheState.cstate_t) (data_buf : option bytes) (cn : cntlr)
  | EvictionDone (i : nat)
  | SetState (i : nat) (address : Z) (cstate : CacheState.cstate_t)
  | Invalidate (i : nat) (address : Z)
  | PeriodicIns
  | ApplicationExit.

Definition exec (ev : event) (s : t P) : result (list UndoEntry * t P) :=
  match ev with
  | Write k a off d n => writeCacheBlock k a off d n s
  | Insert i a st d cn => let! s := insertCacheBlock i a st d cn s in Ok ([], s)
  | EvictionDone i => let! s := evictionDone i s in Ok ([], s)
  | SetState i a st => let! s := setCacheState i a st s in Ok ([], s)
  | Invalidate i a => let! s := invalidateCacheBlock i a s in Ok ([], s)
  | PeriodicIns => let! s := call_hooks HOOK_PERIODIC_INS s in Ok ([], s)
  | ApplicationExit => let! s := call_hooks HOOK_APPLICATION_EXIT s in Ok ([], s)
  end.

(** A run, with all the undo entries it created. *)
Fixpoint run (evs : list event) (s : t P) : result (list UndoEntry * t P) :=
  match evs with
  | [] => Ok ([], s)
  | ev :: evs =>
      let! (es, s) := exec ev s in
      let! (es', s) := run evs s in
      Ok (es ++ es', s)
  end.
End ops.
End Picl.

(** * Lemmas *)

(** ** Epochs of cache lines *)

Section eids.
Context {P : Type} `{Policy P}.
Import Cache.

Definition block_eid (n : Z) (b : CacheBlockInfo.t) : Prop := 0 ≤ CacheBlockInfo.m_eid b ≤ n.

(** No line of the cache was written after epoch [n]. *)
Definition eids_le (n : Z) (c : Cache.t P) : Prop :=
  ∀ i s, m_sets c !! i = Some s → Forall (block_eid n) (CacheSet.m_cache_block_info_array s).

Lemma eids_mono n m c : n ≤ m → eids_le n c → eids_le m c.
Proof.
  intros Hnm Hc i s Hs. eapply Forall_impl; [exact (Hc i s Hs)|]. unfold block_eid. intros b. lia.
Qed.

Lemma set_state_eids n c i r c' :
  eids_le n c → Forall (block_eid n) (CacheSet.m_cache_block_info_array (snd r)) →
  set_state c i r = Ok c' → eids_le n c'.
Proof.
  unfold set_state. intros Hc Hr E. inv_ok. intros j s Hj. cbn in Hj.
  apply list_lookup_insert_Some in Hj as [(_ & <- & _)|(_ & Hj)]; [done|]. by apply (Hc j).
Qed.

Lemma peekBlock_eid n c l b : eids_le n c → peekBlock c l = Ok b → block_eid n b.
Proof.
  unfold peekBlock, CacheSet.peekBlock. intros Hc E. inv_ok.
  eapply Forall_lookup in E; [exact E|]. by eapply Hc.
Qed.

Lemma updateBlock_eids n c l f c' :
  eids_le n c → (∀ b, block_eid n b → block_eid n (f b)) → updateBlock c l f = Ok c' → eids_le n c'.
Proof.
  unfold updateBlock, CacheSet.peekBlock. intros Hc Hf E. inv_ok.
  eapply set_state_eids; [exact Hc| |exact E]. cbn.
  pose proof (Hc _ _ ltac:(eassumption)) as Hs. apply list_insert_Forall; [done|].
  apply Hf. eapply Forall_lookup; [exact Hs|]. eassumption.
Qed.

Lemma touch_line_array info s i u r :
  CacheSet.touch_line info s i u = Ok r →
  CacheSet.m_cache_block_info_array (snd r) = CacheSet.m_cache_block_info_array s.
Proof. unfold CacheSet.touch_line. destruct u; intros E; inv_ok; done. Qed.

Lemma write_line_array info s i off b n u r :
  CacheSet.write_line info s i off b n u = Ok r →
  CacheSet.m_cache_block_info_array (snd r) = CacheSet.m_cache_block_info_array s.
Proof. unfold CacheSet.write_line. intros E. inv_ok. by apply touch_line_array in E. Qed.

Lemma access_store_eids n c a b k u r c' :
  eids_le n c → accessSingleLine c a CacheBase.STORE b k u = Ok (r, c') → eids_le n c'.
Proof.
  unfold accessSingleLine. intros Hc E. inv_ok.
  match goal with H : CacheSet.find ?s _ = Ok ?f |- _ => destruct f as [w|] end; inv_ok; [|done].
  match goal with H : set_state _ _ _ = Ok _ |- _ => eapply set_state_eids in H; [exact H|exact Hc|] end.
  match goal with H : CacheSet.write_line _ _ _ _ _ _ _ = Ok _ |- _ => rewrite (write_line_array _ _ _ _ _ _ _ _ H) end.
  eapply Hc. eassumption.
Qed.

Lemma insert_array_eids n c info s b fill e0 eb ev r :
  Forall (block_eid n) (CacheSet.m_cache_block_info_array s) → block_eid n b →
  CacheSet.insert c info s b fill e0 eb = Ok (ev, r) →
  Forall (block_eid n) (CacheSet.m_cache_block_info_array (snd r)).
Proof.
  unfold CacheSet.insert. intros Hs Hb E. inv_ok. cbn. by apply list_insert_Forall.
Qed.

Lemma insertSingleLine_eids n cn c a fill e0 eb r c' :
  0 ≤ n → eids_le n c → insertSingleLine cn c a fill e0 eb = Ok (r, c') → eids_le n c'.
Proof.
  unfold insertSingleLine. intros Hn Hc E. inv_ok.
  match goal with H : set_state _ _ _ = Ok _ |- _ => eapply set_state_eids in H; [exact H|exact Hc|] end.
  eapply insert_array_eids; cycle 2; [eassumption|eapply Hc; eassumption|unfold block_eid; cbn; lia].
Qed.

Lemma invalidateSingleLine_eids n c a r c' :
  0 ≤ n → eids_le n c → invalidateSingleLine c a = Ok (r, c') → eids_le n c'.
Proof.
  unfold invalidateSingleLine, CacheSet.invalidate. intros Hn Hc E. inv_ok.
  match goal with H : set_state _ _ _ = Ok _ |- _ => eapply set_state_eids in H; [exact H|exact Hc|] end.
  match goal with H : CacheSet.find_from _ _ _ = Ok ?f |- _ => destruct f as [w|] end; inv_ok; cbn.
  - apply list_insert_Forall; [by eapply Hc|]. unfold block_eid. cbn. lia.
  - by eapply Hc.
Qed.
End eids.

(** ** The invariant of the system *)

Section invariant.
Context {P : Type} `{Policy P}.
Import Picl.

Abbreviation state := (Picl.t P).

Definition core_buffer (co : core) : list UndoEntry := buffered (m_onchip_undo_buffer_cntlr co).
Definition all_buffered (s : state) : list UndoEntry := cores s ≫= core_buffer.
Definition sys_eid (s : state) : Z := sys (shared s).
Definition persisted_eid (s : state) : Z := persisted (shared s).

(** Every undo entry the system holds, in the log or in a buffer. *)
Definition held (s : state) : list UndoEntry := logged (shared s) ++ all_buffered s.

(** An entry describes epochs that have existed, the first before the last. *)
Definition entry_ok (n : Z) (e : UndoEntry) : Prop :=
  0 ≤ m_valid_from_eid e ∧ m_valid_from_eid e < m_valid_till_eid e ≤ n.

Record picl_inv (s : state) : Prop := {
  inv_cntlr : Forall (λ co, cntlr_wf (m_onchip_undo_buffer_cntlr co)) (cores s);
  inv_entries : Forall (entry_ok (sys_eid s)) (held s);
  inv_eids : ∀ i l, llcs s !! i = Some l → eids_le (sys_eid s) (cache l);
  inv_sys : 1 ≤ sys_eid s;
  inv_persisted : 0 ≤ persisted_eid s ≤ sys_eid s;
}.

Definition upd_core (s : state) (k : nat) (co : core) (c : OnChipUndoBufferCntlr.t)
    (g : OnChipUndoBufferCntlr.shared) : state :=
  {| m_picl_enabled := m_picl_enabled s; is_L3 := is_L3 s; llcs := llcs s;
     cores := <[k := {| llc_index := llc_index co; m_onchip_undo_buffer_cntlr := c |}]> (cores s);
     shared := g |}.

Lemma with_cntlr_ok k f (s s' : state) :
  with_cntlr k f s = Ok s' ↔
  ∃ co c g, cores s !! k = Some co ∧ f (m_onchip_undo_buffer_cntlr co) (shared s) = Ok (c, g) ∧
            s' = upd_core s k co c g.
Proof.
  unfold with_cntlr, set_core, upd_core. split.
  - intros E. apply rbind_ok in E as (co & Hco & E). apply arr_get_ok in Hco.
    apply rbind_ok in E as ([c g] & Ef & E). unfold arr_get, arr_set in E. rewrite Hco in E.
    cbn in E. injection E as <-. eauto 10.
  - intros (co & c & g & Hco & Ef & ->). unfold arr_get, arr_set. rewrite Hco. cbn. rewrite Ef. done.
Qed.

Lemma all_buffered_upd s k co c g :
  cores s !! k = Some co →
  ∃ rest, all_buffered s ≡ₚ core_buffer co ++ rest ∧ all_buffered (upd_core s k co c g) ≡ₚ buffered c ++ rest.
Proof.
  intros Hk. destruct (insert_Permutation (cores s) k co
    {| llc_index := llc_index co; m_onchip_undo_buffer_cntlr := c |} Hk) as (rest & H1 & H2).
  exists (rest ≫= core_buffer). unfold all_buffered. split.
  - by rewrite H1.
  - cbn [cores upd_core]. by rewrite H2.
Qed.

(** A controller operation that keeps its controller well-formed and accounts for the
    entries keeps the invariant of the system. *)
Lemma with_cntlr_inv k f (s s' : state) add :
  picl_inv s → Forall (entry_ok (sys_eid s)) add →
  (∀ co c g, cores s !! k = Some co → cntlr_wf (m_onchip_undo_buffer_cntlr co) →
     f (m_onchip_undo_buffer_cntlr co) (shared s) = Ok (c, g) →
     cntlr_wf c ∧ sys g = sys_eid s ∧ 0 ≤ persisted g ≤ sys_eid s ∧
     logged g ++ buffered c ≡ₚ logged (shared s) ++ core_buffer co ++ add) →
  with_cntlr k f s = Ok s' →
  picl_inv s' ∧ sys_eid s' = sys_eid s ∧ held s' ≡ₚ held s ++ add ∧ llcs s' = llcs s.
Proof.
  intros [H1 H2 H3 H4 H5] Hadd Hf E. apply with_cntlr_ok in E as (co & c & g & Hco & Ef & ->).
  destruct (Hf co c g Hco) as (Hwf & Hs & Hp & Hc); [by eapply (Forall_lookup_1 _ _ _ _ H1)|done|].
  assert (held (upd_core s k co c g) ≡ₚ held s ++ add) as Hheld.
  { destruct (all_buffered_upd s k co c g Hco) as (rest & R1 & R2). unfold held. rewrite R1, R2.
    cbn [shared upd_core]. rewrite app_assoc, Hc. rewrite <- !app_assoc. do 2 f_equiv. apply Permutation_app_comm. }
  split; [|done]. split.
  - cbn. by apply list_insert_Forall.
  - change (sys_eid (upd_core s k co c g)) with (sys g). rewrite Hheld, Hs. by apply Forall_app.
  - intros i l Hl. change (sys_eid (upd_core s k co c g)) with (sys g). rewrite Hs. by eapply H3.
  - change (sys_eid (upd_core s k co c g)) with (sys g). by rewrite Hs.
  - change (sys_eid (upd_core s k co c g)) with (sys g).
    change (persisted_eid (upd_core s k co c g)) with (persisted g). by rewrite Hs.
Qed.

Lemma insert_inv k b (s s' : state) :
  picl_inv s → sys_eid s < 2 ^ 64 → block_eid (sys_eid s) b → CacheBlockInfo.m_eid b ≠ sys_eid s →
  with_cntlr k (OnChipUndoBufferCntlr.insertUndoEntry (sys_eid s) b) s = Ok s' →
  picl_inv s' ∧ sys_eid s' = sys_eid s ∧ held s' ≡ₚ held s ++ [new_entry (sys_eid s) b] ∧ llcs s' = llcs s.
Proof.
  intros Hinv Hs [Hb0 Hb] Hne. pose proof Hinv as [_ _ _ H4 H5]. apply with_cntlr_inv; [done| |].
  - repeat constructor; cbn; lia.
  - intros co c g Hco Hwf Ef.
    destruct (insert_total (sys_eid s) b _ (shared s) Hwf eq_refl) as (c' & g' & E' & Ho); [rlia|].
    rewrite E' in Ef. injection Ef as <- <-.
    destruct Ho as (Hwf' & Hs' & _ & kept & Hk & Hp & Hcase).
    split; [done|]. split; [done|]. split.
    { destruct Hcase as [[_ ->]|(? & ? & _)]; [done|lia]. }
    rewrite Hk, app_assoc, Hp. by rewrite app_assoc.
Qed.

Lemma scan_inv k (s s' : state) :
  picl_inv s → sys_eid s < 2 ^ 64 → with_cntlr k OnChipUndoBufferCntlr.asyncCacheScan s = Ok s' →
  picl_inv s' ∧ sys_eid s' = sys_eid s ∧ held s' ≡ₚ held s ∧ llcs s' = llcs s.
Proof.
  intros Hinv Hs E. pose proof Hinv as [_ _ _ H4 H5].
  eapply (with_cntlr_inv k _ s s' []) in E; [rewrite app_nil_r in E; exact E|done|done|].
  intros co c g Hco Hwf Ef. destruct (scan_ok _ (shared s) Hwf) as (c' & g' & E' & Hwf' & Hs' & _ & Hp & Hcase);
    [unfold sys_eid in *; rlia|].
  rewrite E' in Ef. injection Ef as <- <-. split; [done|]. split; [done|].
  split; [|by rewrite app_nil_r]. pose proof Hwf as (_ & _ & _ & Hgap & _).
  unfold sys_eid, persisted_eid in *. destruct Hcase as [(_ & _ & ->)|(? & -> & _)]; [done|rlia].
Qed.

Lemma persist_inv k (s s' : state) :
  picl_inv s → with_cntlr k OnChipUndoBufferCntlr.persistLastEpochs s = Ok s' →
  picl_inv s' ∧ sys_eid s' = sys_eid s ∧ held s' ≡ₚ held s ∧ llcs s' = llcs s.
Proof.
  intros Hinv E. pose proof Hinv as [_ _ _ H4 H5].
  eapply (with_cntlr_inv k _ s s' []) in E; [rewrite app_nil_r in E; exact E|done|done|].
  intros co c g Hco Hwf Ef. destruct (persist_ok _ (shared s) Hwf) as (c' & g' & E' & Hwf' & Hs' & _ & Hp & _ & Hpe & _);
    [unfold sys_eid in *; lia|].
  rewrite E' in Ef. injection Ef as <- <-. split; [done|]. split; [done|].
  split; [|by rewrite app_nil_r]. rewrite Hpe. unfold sys_eid in *. lia.
Qed.

Lemma increment_inv v (s s' : state) r :
  picl_inv s → sys_eid s < 2 ^ 64 - 1 → run_hook epoch_increment 0 v s = Ok (r, s') →
  picl_inv s' ∧ sys_eid s' = sys_eid s + 1 ∧ held s' = held s ∧ cores s' = cores s ∧
  persisted_eid s' = persisted_eid s.
Proof.
  intros [H1 H2 H3 H4 H5] Hs. cbn. intros [= <- <-].
  assert (u64 (sys_eid s + 1) = sys_eid s + 1) as Eu by (apply u64_small; rlia).
  split; [|done]. split; cbn.
  - done.
  - unfold sys_eid, sys in *. cbn. rewrite Eu. eapply Forall_impl; [exact H2|]. unfold entry_ok. intros e. lia.
  - intros i l Hl. unfold sys_eid, sys in *. cbn. rewrite Eu. eapply eids_mono; [|by eapply H3]. lia.
  - unfold sys_eid, sys in *. cbn. rewrite Eu. lia.
  - unfold sys_eid, persisted_eid, sys, persisted in *. cbn. rewrite Eu. lia.
Qed.

(** Replacing a cache. *)
Lemma set_llc_inv (s s' : state) i l :
  picl_inv s → eids_le (sys_eid s) (cache l) → set_llc s i l = Ok s' →
  picl_inv s' ∧ sys_eid s' = sys_eid s ∧ held s' = held s ∧ cores s' = cores s ∧ shared s' = shared s.
Proof.
  intros [H1 H2 H3 H4 H5] Hl E. unfold set_llc in E. inv_ok. split; [|done]. split; try done.
  intros j l' Hj. cbn in Hj. apply list_lookup_insert_Some in Hj as [(_ & <- & _)|(_ & Hj)]; [done|].
  by eapply H3.
Qed.
End invariant.

(** ** The hooks of the system *)

Section hooks.
Context {P : Type} `{Policy P}.
Import Picl.
Abbreviation state := (Picl.t P).

Definition scan_hook (k : nat) : HooksManager.HookCallback hook_func :=
  HooksManager.mk async_cache_scan (Z.of_nat k) ORDER_NOTIFY_PRE.
Definition persist_hook (k : nat) : HooksManager.HookCallback hook_func :=
  HooksManager.mk persist_last_epochs (Z.of_nat k) ORDER_NOTIFY_PRE.
Definition increment_hook : HooksManager.HookCallback hook_func :=
  HooksManager.mk epoch_increment 0 ORDER_NOTIFY_PRE.

Lemma register_cores_hooks ks reg :
  register_cores ks reg HOOK_PERIODIC_INS = reg HOOK_PERIODIC_INS ++ map scan_hook ks ∧
  register_cores ks reg HOOK_APPLICATION_EXIT = reg HOOK_APPLICATION_EXIT ++ map persist_hook ks.
Proof.
  revert reg. induction ks as [|k ks IH]; intros reg; cbn; [by rewrite !app_nil_r|].
  destruct (IH (HooksManager.registerHook (HooksManager.registerHook reg HOOK_PERIODIC_INS async_cache_scan
    (Z.of_nat k) ORDER_NOTIFY_PRE) HOOK_APPLICATION_EXIT persist_last_epochs (Z.of_nat k) ORDER_NOTIFY_PRE)) as [-> ->].
  unfold HooksManager.registerHook. repeat case_decide; try done. by rewrite <- !app_assoc.
Qed.

(** The periodic hooks scan the buffers core by core and then end the epoch. *)
Lemma registry_periodic n : registry n HOOK_PERIODIC_INS = map scan_hook (seq 0 n) ++ [increment_hook].
Proof.
  unfold registry, HooksManager.registerHook at 1. cbn [decide].
  destruct (decide (HOOK_PERIODIC_INS = HOOK_PERIODIC_INS)); [|done].
  by rewrite (proj1 (register_cores_hooks (seq 0 n) HooksManager.new)).
Qed.

Lemma registry_exit n : registry n HOOK_APPLICATION_EXIT = map persist_hook (seq 0 n).
Proof.
  unfold registry, HooksManager.registerHook at 1.
  destruct (decide (HOOK_APPLICATION_EXIT = HOOK_PERIODIC_INS)); [done|].
  by rewrite (proj2 (register_cores_hooks (seq 0 n) HooksManager.new)).
Qed.

Lemma of_order_pre {F} (l : list (HooksManager.HookCallback F)) :
  Forall (λ it, HooksManager.order it = ORDER_NOTIFY_PRE) l →
  of_order ORDER_NOTIFY_PRE l ++ of_order ORDER_ACTION l ++ of_order ORDER_NOTIFY_POST l = l.
Proof.
  intros Hl. assert (of_order ORDER_ACTION l = [] ∧ of_order ORDER_NOTIFY_POST l = [] ∧
    of_order ORDER_NOTIFY_PRE l = l) as (-> & -> & ->); [|by rewrite !app_nil_r].
  induction Hl as [|it l Hit Hl (IH1 & IH2 & IH3)]; [done|].
  unfold of_order in *. cbn. rewrite Hit. cbn. by rewrite IH1, IH2, IH3.
Qed.

(** Running a list of hooks, as a fold over controller operations. *)
Fixpoint for_cores (f : nat → state → result state) (ks : list nat) (s : state) : result state :=
  match ks with
  | [] => Ok s
  | k :: ks => let! s := f k s in for_cores f ks s
  end.

Lemma run_all_app_map f h ks (s : state) tl :
  (∀ k s, run_hook (HooksManager.func (h k)) (HooksManager.arg (h k)) 0 s =
          (let! s := f k s in Ok (0, s))) →
  run_all run_hook 0 (map h ks ++ tl) s = (let! s := for_cores f ks s in run_all run_hook 0 tl s).
Proof.
  intros Hf. revert s. induction ks as [|k ks IH]; intros s; [done|]. cbn. rewrite Hf.
  destruct (f k s) as [s1|]; [apply IH|done].
Qed.

Lemma call_periodic (s : state) :
  call_hooks HOOK_PERIODIC_INS s =
    (let! s := for_cores (λ k, with_cntlr k OnChipUndoBufferCntlr.asyncCacheScan) (seq 0 (length (cores s))) s in
     let! (_, s) := run_hook epoch_increment 0 0 s in Ok s).
Proof.
  unfold call_hooks. rewrite callHooks_all, of_order_pre.
  - rewrite registry_periodic, (run_all_app_map (λ k, with_cntlr k OnChipUndoBufferCntlr.asyncCacheScan)).
    + destruct (for_cores _ _ s); done.
    + intros k s'. cbn. by rewrite Nat2Z.id.
  - rewrite registry_periodic. apply Forall_app. split; [|by repeat constructor].
    apply Forall_fmap, Forall_true. done.
Qed.

Lemma call_exit (s : state) :
  call_hooks HOOK_APPLICATION_EXIT s =
    for_cores (λ k, with_cntlr k OnChipUndoBufferCntlr.persistLastEpochs) (seq 0 (length (cores s))) s.
Proof.
  unfold call_hooks. rewrite callHooks_all, of_order_pre.
  - rewrite registry_exit, <- (app_nil_r (map persist_hook _)),
      (run_all_app_map (λ k, with_cntlr k OnChipUndoBufferCntlr.persistLastEpochs)).
    + destruct (for_cores _ _ s); done.
    + intros k s'. cbn. by rewrite Nat2Z.id.
  - rewrite registry_exit. apply Forall_fmap, Forall_true. done.
Qed.

(** What each step of [for_cores] keeps, all of them keep. *)
Lemma for_cores_ind (R : state → Prop) f ks (s s' : state) :
  (∀ k s1 s2, R s1 → f k s1 = Ok s2 → R s2) → R s → for_cores f ks s = Ok s' → R s'.
Proof.
  intros Hf. revert s. induction ks as [|k ks IH]; intros s Hs E; cbn in E; [by injection E as <-|].
  inv_ok. eauto.
Qed.
End hooks.

(** ** Steps and runs *)

Section runs.
Context {P : Type} `{Policy P}.
Import Picl.
Abbreviation state := (Picl.t P).

(** What a step from [s] to [s'] that creates the entries [es] guarantees. *)
Definition step_ok (s s' : state) (es : list UndoEntry) : Prop :=
  picl_inv s' ∧ sys_eid s ≤ sys_eid s' ≤ sys_eid s + 1 ∧ held s' ≡ₚ held s ++ es.

Lemma write_line_ok k co l a off d n (s s' : state) es :
  picl_inv s → sys_eid s < 2 ^ 64 → llcs s !! llc_index co = Some l →
  write_line k co l a off d n s = Ok (es, s') → step_ok s s' es.
Proof.
  intros Hinv Hs Hl E. unfold write_line in E. apply rbind_ok in E as ([found c] & Eacc & E).
  apply rbind_ok in E as (s1 & E1 & E). apply access_store_eids with (n := sys_eid s) in Eacc;
    [|by eapply (inv_eids s Hinv)].
  apply set_llc_inv in E1 as (Hinv1 & Hs1 & Hh1 & Hc1 & Hg1); [|done|done].
  destruct found as [[loc ?]|]; [|done].
  apply rbind_ok in E as (b & Eb & E). apply rbind_ok in E as (u & _ & E).
  pose proof (peekBlock_eid _ _ _ _ Eacc Eb) as Hbe.
  change (EpochManager.getGlobalSystemEID (OnChipUndoBufferCntlr.epoch (shared s1))) with (sys_eid s1) in E.
  rewrite Hs1 in E.
  destruct (Z.eqb_spec (CacheBlockInfo.m_eid b) (sys_eid s)) as [Heq|Hne].
  { injection E as <- <-. split; [done|]. rewrite Hs1, Hh1, app_nil_r. split; [lia|done]. }
  apply rbind_ok in E as (s2 & E2 & E). apply rbind_ok in E as (c' & Ec' & E).
  apply rbind_ok in E as (s3 & E3 & [= <- <-]).
  apply updateBlock_eids with (n := sys_eid s) in Ec'; [|done|unfold block_eid in *; cbn; lia].
  assert (picl_inv s2 ∧ sys_eid s2 = sys_eid s ∧
          held s2 ≡ₚ held s ++ (if m_picl_enabled s1 && is_L3 s1 then [new_entry (sys_eid s) b] else [])) as (Hinv2 & Hs2 & Hh2).
  { destruct (m_picl_enabled s1 && is_L3 s1).
    - rewrite <- Hs1 in Hs, Hbe, Hne, E2 |- *.
      destruct (insert_inv k b s1 s2 Hinv1 Hs Hbe Hne E2) as (? & ? & Hh & _).
      split; [done|]. split; [done|]. by rewrite Hh, Hh1.
    - injection E2 as <-. split; [done|]. split; [done|]. by rewrite Hh1, app_nil_r. }
  apply set_llc_inv in E3 as (Hinv3 & Hs3 & Hh3 & _); [|done|cbn; by rewrite Hs2].
  split; [done|]. rewrite Hs3, Hs2, Hh3, Hh2. split; [lia|done].
Qed.

(** An operation on one cache that creates no entry. *)
Lemma cache_step_ok i l (s s' : state) :
  picl_inv s → eids_le (sys_eid s) (cache l) → set_llc s i l = Ok s' → step_ok s s' [].
Proof.
  intros Hinv Hl E. destruct (set_llc_inv _ _ _ _ Hinv Hl E) as (? & Es & Eh & _).
  split; [done|]. rewrite Es, Eh, app_nil_r. split; [lia|done].
Qed.

Lemma write_ok k a off d n (s s' : state) es :
  picl_inv s → sys_eid s < 2 ^ 64 → writeCacheBlock k a off d n s = Ok (es, s') → step_ok s s' es.
Proof.
  intros Hinv Hs E. unfold writeCacheBlock in E. apply rbind_ok in E as (co & _ & E).
  apply rbind_ok in E as (l & Hl & E). apply arr_get_ok in Hl.
  destruct (m_evicting l) as [[ea eb]|]; [|by eapply write_line_ok].
  destruct (a =? ea); [|by eapply write_line_ok].
  inv_ok. eapply cache_step_ok; [done| |eassumption]. exact (inv_eids s Hinv _ _ Hl).
Qed.

Lemma insertCacheBlock_ok i a st d cn (s s' : state) :
  picl_inv s → insertCacheBlock i a st d cn s = Ok s' → step_ok s s' [].
Proof.
  intros Hinv E. pose proof Hinv as [_ _ He Hs _]. unfold insertCacheBlock in E.
  apply rbind_ok in E as (l & Hl & E). apply arr_get_ok in Hl.
  apply rbind_ok in E as (st0 & _ & E).
  apply rbind_ok in E as (u & _ & E). apply rbind_ok in E as ([[ev ea] c] & Eins & E).
  apply insertSingleLine_eids with (n := sys_eid s) in Eins; [|lia|by eapply He].
  apply rbind_ok in E as ([loc|] & _ & E); [|done]. apply rbind_ok in E as (c' & Ec' & E).
  apply updateBlock_eids with (n := sys_eid s) in Ec'; [|done|done].
  eapply cache_step_ok; [done| |exact E]. done.
Qed.

Lemma scans_ok ks (s s' : state) :
  picl_inv s → sys_eid s < 2 ^ 64 →
  for_cores (λ k, with_cntlr k OnChipUndoBufferCntlr.asyncCacheScan) ks s = Ok s' →
  picl_inv s' ∧ sys_eid s' = sys_eid s ∧ held s' ≡ₚ held s.
Proof.
  intros Hinv Hs. apply (for_cores_ind (λ x, picl_inv x ∧ sys_eid x = sys_eid s ∧ held x ≡ₚ held s)); [|done].
  intros k s1 s2 (H1 & H2 & H3) E. apply scan_inv in E as (? & E2 & E3 & _); [|done|by rewrite H2].
  split; [done|]. split; [congruence|]. by rewrite E3.
Qed.

Lemma persists_ok ks (s s' : state) :
  picl_inv s →
  for_cores (λ k, with_cntlr k OnChipUndoBufferCntlr.persistLastEpochs) ks s = Ok s' →
  picl_inv s' ∧ sys_eid s' = sys_eid s ∧ held s' ≡ₚ held s.
Proof.
  intros Hinv. apply (for_cores_ind (λ x, picl_inv x ∧ sys_eid x = sys_eid s ∧ held x ≡ₚ held s)); [|done].
  intros k s1 s2 (H1 & H2 & H3) E. apply persist_inv in E as (? & E2 & E3 & _); [|done].
  split; [done|]. split; [congruence|]. by rewrite E3.
Qed.

Lemma exec_ok ev (s s' : state) es :
  picl_inv s → sys_eid s < 2 ^ 64 - 1 → exec ev s = Ok (es, s') → step_ok s s' es.
Proof.
  intros Hinv Hs E. pose proof Hinv as [_ _ He Hs1 _].
  destruct ev as [k a off d n|i a st d cn|i|i a st|i a| |]; cbn [exec] in E.
  - eapply write_ok; [done|lia|done].
  - apply rbind_ok in E as (s1 & E & [= <- <-]). by eapply insertCacheBlock_ok.
  - apply rbind_ok in E as (s1 & E & [= <- <-]). unfold evictionDone in E. inv_ok.
    eapply cache_step_ok; [done| |exact E]. cbn. eapply He; eassumption.
  - apply rbind_ok in E as (s1 & E & [= <- <-]). unfold setCacheState in E.
    apply rbind_ok in E as (l & Hl & E). apply arr_get_ok in Hl.
    apply rbind_ok in E as ([loc|] & _ & E); [|done]. apply rbind_ok in E as (c' & Ec' & E).
    apply updateBlock_eids with (n := sys_eid s) in Ec'; [|by eapply He|done].
    eapply cache_step_ok; [done| |exact E]. done.
  - apply rbind_ok in E as (s1 & E & [= <- <-]). unfold invalidateCacheBlock in E.
    apply rbind_ok in E as (l & Hl & E). apply arr_get_ok in Hl.
    apply rbind_ok in E as (st0 & _ & E). apply rbind_ok in E as (u & _ & E). apply rbind_ok in E as ([r c'] & Ec' & E).
    apply invalidateSingleLine_eids with (n := sys_eid s) in Ec'; [|lia|by eapply He].
    eapply cache_step_ok; [done| |exact E]. done.
  - apply rbind_ok in E as (s1 & E & [= <- <-]). rewrite call_periodic in E.
    apply rbind_ok in E as (s2 & E2 & E). apply rbind_ok in E as ([r s3] & E3 & [= <-]).
    apply scans_ok in E2 as (Hinv2 & Hs2 & Hh2); [|done|lia].
    apply increment_inv in E3 as (Hinv3 & Hs3 & Hh3 & _); [|done|lia].
    split; [done|]. rewrite Hs3, Hs2, Hh3, Hh2, app_nil_r. split; [lia|done].
  - apply rbind_ok in E as (s1 & E & [= <- <-]). rewrite call_exit in E.
    apply persists_ok in E as (Hinv2 & Hs2 & Hh2); [|done].
    split; [done|]. rewrite Hs2, Hh2, app_nil_r. split; [lia|done].
Qed.

Lemma run_ok evs : ∀ (s s' : state) es,
  picl_inv s → sys_eid s + Z.of_nat (length evs) < 2 ^ 64 → run evs s = Ok (es, s') →
  picl_inv s' ∧ sys_eid s ≤ sys_eid s' ≤ sys_eid s + Z.of_nat (length evs) ∧ held s' ≡ₚ held s ++ es.
Proof.
  induction evs as [|ev evs IH]; intros s s' es Hinv Hs E; cbn [run] in E.
  { injection E as <- <-. rewrite app_nil_r. split; [done|]. split; [cbn; lia|done]. }
  apply rbind_ok in E as ([es1 s1] & E1 & E). apply rbind_ok in E as ([es2 s2] & E2 & [= <- <-]).
  cbn [length] in Hs. apply exec_ok in E1 as (Hinv1 & Hs1 & Hh1); [|done|lia].
  apply IH in E2 as (Hinv2 & Hs2 & Hh2); [|done|lia].
  split; [done|]. cbn [length]. split; [lia|]. by rewrite Hh2, Hh1, app_assoc.
Qed.
End runs.

(** ** What the persisted epoch promises *)

Section promise.
Context {P : Type} `{Policy P}.
Import Picl.
Abbreviation state := (Picl.t P).

Definition core_overflow (co : core) : Z := OnChipUndoBufferCntlr.overflow (m_onchip_undo_buffer_cntlr co).
Definition core_gap (co : core) : Z := OnChipUndoBufferCntlr.m_acs_gap (m_onchip_undo_buffer_cntlr co).

(** No buffer has overflowed. *)
Definition quiet (cs : list core) : Prop := Forall (λ co, core_overflow co = 0) cs.

(** No entry still waits in a buffer whose epoch is declared persisted. *)
Definition promise (p : Z) (cs : list core) : Prop :=
  Forall (λ co, Forall (λ e, p < m_valid_till_eid e) (core_buffer co)) cs.

(** The promise holds as long as no buffer overflows; the overflow counters count
    at most [n] overflows, so they do not wrap around. *)
Record promise_inv (n gap : Z) (cs : list core) (g : OnChipUndoBufferCntlr.shared) : Prop := {
  pr_gap : Forall (λ co, core_gap co = gap) cs;
  pr_overflow : Forall (λ co, 0 ≤ core_overflow co ≤ n) cs;
  pr_promise : quiet cs → promise (persisted g) cs;
  pr_persisted : quiet cs → persisted g < sys g;
}.

Lemma promise_mono n m gap cs g : n ≤ m → promise_inv n gap cs g → promise_inv m gap cs g.
Proof.
  intros Hnm [H1 H2 H3 H4]. split; try done. eapply Forall_impl; [exact H2|]. cbn. intros co. lia.
Qed.

(** Whether the events leave the cores alone, or one of them inserts an entry. *)
Lemma write_effect k a off d n (s s' : state) es :
  writeCacheBlock k a off d n s = Ok (es, s') →
  (cores s' = cores s ∧ shared s' = shared s) ∨
  ∃ b (s1 s2 : state), cores s1 = cores s ∧ shared s1 = shared s ∧
    with_cntlr k (OnChipUndoBufferCntlr.insertUndoEntry (sys_eid s) b) s1 = Ok s2 ∧
    cores s' = cores s2 ∧ shared s' = shared s2.
Proof.
  assert (∀ i l (x y : state), set_llc x i l = Ok y → cores y = cores x ∧ shared y = shared x) as Hset.
  { intros i l x y E. unfold set_llc in E. by inv_ok. }
  assert (∀ co l, write_line k co l a off d n s = Ok (es, s') →
    (cores s' = cores s ∧ shared s' = shared s) ∨
    ∃ b (s1 s2 : state), cores s1 = cores s ∧ shared s1 = shared s ∧
      with_cntlr k (OnChipUndoBufferCntlr.insertUndoEntry (sys_eid s) b) s1 = Ok s2 ∧
      cores s' = cores s2 ∧ shared s' = shared s2) as Hline.
  { intros co l E. unfold write_line in E. apply rbind_ok in E as ([found c] & _ & E).
    apply rbind_ok in E as (s1 & E1 & E). apply Hset in E1 as [Ec1 Eg1].
    destruct found as [[loc ?]|]; [|done]. apply rbind_ok in E as (b & _ & E).
    apply rbind_ok in E as (u & _ & E). rewrite Eg1 in E.
    destruct (_ =? _); [injection E as <- <-; by left|].
    apply rbind_ok in E as (s2 & E2 & E). apply rbind_ok in E as (c' & _ & E).
    apply rbind_ok in E as (s3 & E3 & [= <- <-]). apply Hset in E3 as [Ec3 Eg3].
    destruct (m_picl_enabled s1 && is_L3 s1).
    - right. exists b, s1, s2. done.
    - injection E2 as <-. left. split; congruence. }
  intros E. unfold writeCacheBlock in E. apply rbind_ok in E as (co & _ & E).
  apply rbind_ok in E as (l & _ & E). destruct (m_evicting l) as [[ea eb]|]; [|by eapply Hline].
  destruct (a =? ea); [|by eapply Hline]. inv_ok. left. by eapply Hset.
Qed.

Lemma insert_promise k b s0 gap n (s s' : state) :
  Forall (λ co, cntlr_wf (m_onchip_undo_buffer_cntlr co)) (cores s) → sys (shared s) = s0 → in_u64 s0 →
  n < 2 ^ 64 - 1 → promise_inv n gap (cores s) (shared s) →
  with_cntlr k (OnChipUndoBufferCntlr.insertUndoEntry s0 b) s = Ok s' →
  promise_inv (n + 1) gap (cores s') (shared s').
Proof.
  intros Hwf Hs0 Hu Hn [H1 H2 H3 H4] E. apply with_cntlr_ok in E as (co & c & g & Hco & E & ->).
  pose proof (Forall_lookup_1 _ _ _ _ Hwf Hco) as Hc. pose proof (Forall_lookup_1 _ _ _ _ H2 Hco) as Ho.
  pose proof (Forall_lookup_1 _ _ _ _ H1 Hco) as Hg. cbn in Hc, Ho, Hg.
  cbn [cores shared upd_core].
  assert (OnChipUndoBufferCntlr.m_acs_gap c = gap ∧
    ((OnChipUndoBufferCntlr.overflow c = core_overflow co ∧ g = shared s ∧
      buffered c = core_buffer co ++ [new_entry s0 b]) ∨
     OnChipUndoBufferCntlr.overflow c = core_overflow co + 1)) as [Hgap Hcase].
  { destruct (OnChipUndoBuffer.isFull (OnChipUndoBufferCntlr.m_onchip_undo_buffer (m_onchip_undo_buffer_cntlr co))) eqn:Hfull.
    - destruct (cntlr_home _ Hc) as [h Hh].
      destruct (insert_full h s0 b _ (shared s) Hc Hh Hs0 Hu Hfull) as (j & _ & _ & _ & E').
      rewrite E' in E. injection E as <- <-. split; [exact Hg|]. right.
      change (u64 (core_overflow co + 1) = core_overflow co + 1). apply u64_small. rlia.
    - rewrite (insert_not_full s0 b _ (shared s) Hc Hfull) in E. injection E as <- <-. split; [exact Hg|]. by left. }
  split.
  - by apply list_insert_Forall.
  - apply list_insert_Forall; [eapply Forall_impl; [exact H2|]; cbn; lia|].
    unfold core_overflow at 1 2. cbn. destruct Hcase as [(-> & _)| ->]; lia.
  - intros Hq. assert (quiet (cores s)) as Hq0.
    { unfold quiet. rewrite <- (list_insert_id (cores s) k co Hco), <- (list_insert_insert_eq (cores s) k co
        {| llc_index := llc_index co; m_onchip_undo_buffer_cntlr := c |}).
      apply list_insert_Forall; [exact Hq|].
      pose proof (Forall_lookup_1 _ _ k _ Hq ltac:(apply list_lookup_insert_eq; by eapply lookup_lt_Some)) as Hz.
      unfold core_overflow at 1 in Hz. cbn in Hz. destruct Hcase as [(Eo & _)|Eo]; lia. }
    pose proof (Forall_lookup_1 _ _ k _ Hq ltac:(apply list_lookup_insert_eq; by eapply lookup_lt_Some)) as Hz.
    unfold core_overflow at 1 in Hz. cbn in Hz.
    destruct Hcase as [(Eo & -> & Hb)|Eo]; [|lia].
    specialize (H3 Hq0). specialize (H4 Hq0). apply list_insert_Forall; [done|].
    unfold core_buffer at 1. cbn. rewrite Hb. apply Forall_app.
    split; [by apply (Forall_lookup_1 _ _ _ _ H3 Hco)|]. repeat constructor. cbn. lia.
  - intros Hq. pose proof (Forall_lookup_1 _ _ k _ Hq ltac:(apply list_lookup_insert_eq; by eapply lookup_lt_Some)) as Hz.
    unfold core_overflow at 1 in Hz. cbn in Hz.
    destruct Hcase as [(Eo & -> & Hb)|Eo]; [|lia]. apply H4.
    unfold quiet. rewrite <- (list_insert_id (cores s) k co Hco), <- (list_insert_insert_eq (cores s) k co
        {| llc_index := llc_index co; m_onchip_undo_buffer_cntlr := c |}).
    apply list_insert_Forall; [exact Hq|]. lia.
Qed.
End promise.

Section scans.
Context {P : Type} `{Policy P}.
Import Picl.
Abbreviation state := (Picl.t P).

Definition clean (e : Z) (co : core) : Prop := Forall (λ x, e < m_valid_till_eid x) (core_buffer co).

Lemma core_entries_till (s : state) k co :
  picl_inv s → cores s !! k = Some co → Forall (λ e, m_valid_till_eid e ≤ sys_eid s) (core_buffer co).
Proof.
  intros Hinv Hk. apply Forall_forall. intros e He.
  assert (e ∈ held s) as Hin.
  { unfold held, all_buffered. apply elem_of_app. right. apply list_elem_of_bind. exists co.
    split; [done|by eapply list_elem_of_lookup_2]. }
  pose proof (proj1 (Forall_forall _ _) (inv_entries s Hinv) e Hin) as [_ Ho]. lia.
Qed.

(** One scan: only the buffer of its core changes, and it becomes clean. *)
Lemma scan_effect k gap (s s' : state) :
  picl_inv s → in_u64 (sys_eid s) → Forall (λ co, core_gap co = gap) (cores s) →
  with_cntlr k OnChipUndoBufferCntlr.asyncCacheScan s = Ok s' →
  ∃ co co', cores s !! k = Some co ∧ cores s' = <[k := co']> (cores s) ∧
    core_overflow co' = core_overflow co ∧ core_gap co' = gap ∧
    ((sys_eid s < gap ∧ cores s' = cores s ∧ shared s' = shared s) ∨
     (gap ≤ sys_eid s ∧ persisted_eid s' = sys_eid s - gap ∧ clean (sys_eid s - gap) co')).
Proof.
  intros Hinv Hu Hgaps E. apply with_cntlr_ok in E as (co & c & g & Hco & E & ->).
  pose proof (Forall_lookup_1 _ _ _ _ (inv_cntlr s Hinv) Hco) as Hwf. cbn in Hwf.
  pose proof (Forall_lookup_1 _ _ _ _ Hgaps Hco) as Hg. cbn in Hg. unfold core_gap in Hg.
  exists co, {| llc_index := llc_index co; m_onchip_undo_buffer_cntlr := c |}.
  split; [done|]. split; [done|].
  assert (OnChipUndoBufferCntlr.overflow c = core_overflow co) as Eo.
  { unfold OnChipUndoBufferCntlr.asyncCacheScan in E. destruct (_ >=? _); [|by injection E as <- _].
    destruct (cntlr_home _ Hwf) as [h Hh]. rewrite (flush_ok h) in E by done. by injection E as <- _. }
  destruct (scan_ok _ (shared s) Hwf Hu) as (c' & g' & E' & _ & _ & Eg & _ & Hcase).
  rewrite E' in E. injection E as <- <-.
  split; [done|]. split; [unfold core_gap; cbn; congruence|].
  destruct Hcase as [(Hlt & -> & ->)|(Hge & Hp & Hb)].
  - left. rewrite Hg in Hlt. split; [done|]. split; [|done]. cbn.
    replace {| llc_index := llc_index co; m_onchip_undo_buffer_cntlr := m_onchip_undo_buffer_cntlr co |}
      with co by (by destruct co). by apply list_insert_id.
  - right. rewrite Hg in *. split; [done|]. split; [done|]. unfold clean, core_buffer. cbn. rewrite Hb.
    pose proof (core_entries_till s k co Hinv Hco) as Ht.
    change (sys (shared s)) with (sys_eid s).
    change (buffered (m_onchip_undo_buffer_cntlr co)) with (core_buffer co).
    rewrite (proj2 (flushed_till (sys_eid s - gap) (sys_eid s) _ Ht)). apply kept_young.
Qed.

Lemma scans_effect gap ks : ∀ (s s' : state),
  picl_inv s → sys_eid s < 2 ^ 64 → Forall (λ co, core_gap co = gap) (cores s) →
  for_cores (λ k, with_cntlr k OnChipUndoBufferCntlr.asyncCacheScan) ks s = Ok s' →
  Forall (λ co, core_gap co = gap) (cores s') ∧ map core_overflow (cores s') = map core_overflow (cores s) ∧
  ((sys_eid s < gap ∧ cores s' = cores s ∧ shared s' = shared s) ∨
   (gap ≤ sys_eid s ∧ (ks ≠ [] → persisted_eid s' = sys_eid s - gap) ∧ (ks = [] → s' = s) ∧
    ∀ j co', cores s' !! j = Some co' →
      (j ∈ ks ∨ ∃ co, cores s !! j = Some co ∧ clean (sys_eid s - gap) co) → clean (sys_eid s - gap) co')).
Proof.
  induction ks as [|k ks IH]; intros s s' Hinv Hs Hg E; cbn in E.
  { injection E as <-. split; [done|]. split; [done|].
    destruct (Z.lt_ge_cases (sys_eid s) gap); [by left|right]. split; [lia|]. split; [done|]. split; [done|].
    intros j co' Hj [Hin|(co & Hco & Hcl)]; [by apply elem_of_nil in Hin|]. congruence. }
  apply rbind_ok in E as (s1 & E1 & E).
  pose proof (inv_sys s Hinv) as H1s.
  destruct (scan_effect k gap s s1 Hinv ltac:(rlia) Hg E1) as (co & co1 & Hco & Ecs & Eo & Eg & Hcase).
  apply scan_inv in E1 as (Hinv1 & Es1 & _ & _); [|done|done].
  assert (Forall (λ co, core_gap co = gap) (cores s1)) as Hg1 by (rewrite Ecs; by apply list_insert_Forall).
  destruct (IH s1 s' Hinv1 ltac:(lia) Hg1 E) as (Hg' & Eo' & Hcase').
  split; [done|]. split.
  { rewrite Eo', Ecs. change (map ?f ?l) with (f <$> l). rewrite list_fmap_insert, Eo.
    apply list_insert_id. by rewrite list_lookup_fmap, Hco. }
  rewrite Es1 in Hcase'.
  destruct Hcase as [(Hlt & Ec1 & Esh)|(Hge & Hp1 & Hcl1)], Hcase' as [(Hlt' & Ec2 & Esh2)|(Hge' & Hp2 & Hn2 & Hcl2)];
    try lia.
  - left. split; [done|]. split; congruence.
  - right. split; [done|]. split; [|split; [done|]].
    { intros _. destruct ks; [rewrite (Hn2 eq_refl); done|by apply Hp2]. }
    intros j co' Hj Hor. apply (Hcl2 j co' Hj). rewrite Ecs.
    destruct (decide (j = k)) as [->|Hjk].
    + right. exists co1. split; [|done]. apply list_lookup_insert_eq. by eapply lookup_lt_Some.
    + destruct Hor as [Hin|(c0 & Hc0 & Hcl0)].
      * left. set_solver.
      * right. exists c0. by rewrite list_lookup_insert_ne.
Qed.

Lemma quiet_map (cs cs' : list core) : map core_overflow cs' = map core_overflow cs → quiet cs' → quiet cs.
Proof.
  unfold quiet. intros E Hq. assert (Forall (λ o, o = 0) (map core_overflow cs')) as Hm by by apply Forall_fmap.
  rewrite E in Hm. by apply Forall_fmap in Hm.
Qed.

Lemma overflow_map n (cs cs' : list core) : map core_overflow cs' = map core_overflow cs →
  Forall (λ co, 0 ≤ core_overflow co ≤ n) cs → Forall (λ co, 0 ≤ core_overflow co ≤ n) cs'.
Proof.
  intros E Hq. assert (Forall (λ o, 0 ≤ o ≤ n) (map core_overflow cs)) as Hm by by apply Forall_fmap.
  rewrite <- E in Hm. by apply Forall_fmap in Hm.
Qed.

Lemma periodic_promise n gap (s s' : state) :
  picl_inv s → sys_eid s < 2 ^ 64 - 1 → promise_inv n gap (cores s) (shared s) →
  call_hooks HOOK_PERIODIC_INS s = Ok s' → promise_inv n gap (cores s') (shared s').
Proof.
  intros Hinv Hs [H1 H2 H3 H4] E. rewrite call_periodic in E.
  apply rbind_ok in E as (s1 & E1 & E). apply rbind_ok in E as ([r s2] & E2 & [= <-]).
  destruct (scans_effect gap _ s s1 Hinv ltac:(lia) H1 E1) as (Hg & Eo & Hcase).
  apply scans_ok in E1 as (Hinv1 & Hs1 & _); [|done|lia].
  apply increment_inv in E2 as (_ & Hs2 & _ & Hc2 & Hp2); [|done|lia].
  rewrite Hc2. change (persisted_eid s2) with (persisted (shared s2)) in Hp2.
  split; [done|by eapply overflow_map| |].
  - intros Hq. pose proof (quiet_map _ _ Eo Hq) as Hq0. rewrite Hp2.
    destruct Hcase as [(_ & -> & Esh)|(Hge & Hp & _ & Hcl)].
    + unfold persisted_eid. rewrite Esh. by apply H3.
    + apply Forall_lookup. intros j co Hj.
      assert (length (cores s1) = length (cores s)) as El by (apply (f_equal length) in Eo; by rewrite !length_map in Eo).
      pose proof (lookup_lt_Some _ _ _ Hj) as Hlt. rewrite El in Hlt.
      rewrite Hp by (intros E; apply (f_equal length) in E; rewrite length_seq in E; cbn in E; lia).
      apply (Hcl j co Hj). left. apply elem_of_seq. lia.
  - intros Hq. pose proof (quiet_map _ _ Eo Hq) as Hq0. specialize (H4 Hq0). rewrite Hp2.
    change (sys (shared s2)) with (sys_eid s2). rewrite Hs2, Hs1.
    destruct Hcase as [(_ & _ & Esh)|(Hge & Hp & Hnil & _)].
    + unfold persisted_eid. rewrite Esh. unfold sys_eid. lia.
    + destruct (seq 0 (length (cores s))) eqn:El.
      * rewrite (Hnil eq_refl). unfold persisted_eid, sys_eid in *. lia.
      * rewrite Hp by done. assert (0 ≤ gap); [|lia].
        destruct (cores s) as [|co cs] eqn:Ecs; [done|]. apply Forall_cons in H1 as [<- _].
        pose proof (inv_cntlr s Hinv) as Hwf. rewrite Ecs in Hwf. apply Forall_cons in Hwf as [Hwf _].
        destruct Hwf as (_ & _ & _ & Hgap & _). unfold core_gap. rlia.
Qed.
End scans.

Section promise_runs.
Context {P : Type} `{Policy P}.
Import Picl.
Abbreviation state := (Picl.t P).

Lemma exec_promise ev n gap (s s' : state) es :
  picl_inv s → sys_eid s < 2 ^ 64 - 1 → 0 ≤ n < 2 ^ 64 - 1 → promise_inv n gap (cores s) (shared s) →
  ev ≠ ApplicationExit → exec ev s = Ok (es, s') → promise_inv (n + 1) gap (cores s') (shared s').
Proof.
  assert (∀ i l (x y : state), set_llc x i l = Ok y → cores y = cores x ∧ shared y = shared x) as Hset.
  { intros i l x y E. unfold set_llc in E. by inv_ok. }
  intros Hinv Hs Hn Hp Hne E. pose proof (inv_sys s Hinv).
  assert (promise_inv (n + 1) gap (cores s) (shared s)) as Hp1 by (eapply promise_mono; [|done]; lia).
  destruct ev as [k a off d m|i a st d cn|i|i a st|i a| |]; cbn [exec] in E; [|..|done].
  - apply write_effect in E as [[-> ->]|(b & s1 & s2 & Ec & Eg & E & -> & ->)]; [done|].
    rewrite <- Ec, <- Eg in Hp.
    eapply (insert_promise k b (sys_eid s) gap n s1 s2); [|by rewrite Eg|rlia|lia|done|done].
    rewrite Ec. apply Hinv.
  - apply rbind_ok in E as (s1 & E & [= <- <-]). unfold insertCacheBlock in E.
    apply rbind_ok in E as (l & Hl & E).
    apply rbind_ok in E as (st0 & _ & E). apply rbind_ok in E as (u & _ & E).
    apply rbind_ok in E as ([[ev ea] c] & _ & E). apply rbind_ok in E as ([loc|] & _ & E); [|done].
    apply rbind_ok in E as (c' & _ & E). by apply Hset in E as [-> ->].
  - apply rbind_ok in E as (s1 & E & [= <- <-]). unfold evictionDone in E. inv_ok. by apply Hset in E as [-> ->].
  - apply rbind_ok in E as (s1 & E & [= <- <-]). unfold setCacheState in E.
    apply rbind_ok in E as (l & Hl & E). apply rbind_ok in E as ([loc|] & _ & E); [|done].
    apply rbind_ok in E as (c' & _ & E). by apply Hset in E as [-> ->].
  - apply rbind_ok in E as (s1 & E & [= <- <-]). unfold invalidateCacheBlock in E.
    apply rbind_ok in E as (l & Hl & E). apply rbind_ok in E as (st0 & _ & E).
    apply rbind_ok in E as (u & _ & E). apply rbind_ok in E as ([r c'] & _ & E). by apply Hset in E as [-> ->].
  - apply rbind_ok in E as (s1 & E & [= <- <-]). eapply periodic_promise; [done|done|done|exact E].
Qed.

Lemma run_promise gap evs : ∀ n (s s' : state) es,
  picl_inv s → sys_eid s + Z.of_nat (length evs) < 2 ^ 64 → 0 ≤ n → n + Z.of_nat (length evs) < 2 ^ 64 →
  promise_inv n gap (cores s) (shared s) → ApplicationExit ∉ evs → run evs s = Ok (es, s') →
  promise_inv (n + Z.of_nat (length evs)) gap (cores s') (shared s').
Proof.
  induction evs as [|ev evs IH]; intros n s s' es Hinv Hs Hn Hn2 Hp Hne E; cbn [run] in E.
  { injection E as <- <-. cbn. by rewrite Z.add_0_r. }
  apply rbind_ok in E as ([es1 s1] & E1 & E). apply rbind_ok in E as ([es2 s2] & E2 & [= <- <-]).
  cbn [length] in *. apply not_elem_of_cons in Hne as [Hne1 Hne2].
  pose proof (exec_promise ev n gap s s1 es1 Hinv ltac:(lia) ltac:(lia) Hp ltac:(congruence) E1) as Hp1.
  apply exec_ok in E1 as (Hinv1 & Hs1 & _); [|done|lia].
  replace (n + Z.of_nat (S (length evs))) with ((n + 1) + Z.of_nat (length evs)) by lia.
  eapply IH; [exact Hinv1|lia|lia|lia|done|done|exact E2].
Qed.
End promise_runs.

(** ** The initial system *)

Section init.
Context {P : Type} `{Policy P}.
Import Picl.

(** [Simulator::start]: fresh caches, controllers with empty buffers, epoch 1. *)
Definition init (enabled l3 : bool) (caches : list (Cache.t P)) (cs : list core) : Picl.t P :=
  {| m_picl_enabled := enabled; is_L3 := l3; llcs := map (λ c, mk_llc c None) caches; cores := cs;
     shared := OnChipUndoBufferCntlr.mk_shared EpochManager.new [] |}.

Definition fresh_cache (c : Cache.t P) : Prop := eids_le 0 c.
Definition fresh_core (gap : Z) (co : core) : Prop :=
  cntlr_wf (m_onchip_undo_buffer_cntlr co) ∧ core_buffer co = [] ∧ core_overflow co = 0 ∧ core_gap co = gap.

Lemma init_inv gap enabled l3 caches cs :
  Forall fresh_cache caches → Forall (fresh_core gap) cs → picl_inv (init enabled l3 caches cs).
Proof.
  intros Hca Hco. split.
  - cbn. eapply Forall_impl; [exact Hco|]. by intros co (? & _).
  - assert (held (init enabled l3 caches cs) = []) as ->; [|done].
    unfold held, all_buffered. cbn. induction Hco as [|co cs (_ & Hb & _) _ IH]; [done|]. cbn.
    by rewrite Hb, IH.
  - intros i l Hl. cbn in Hl. change (map ?f ?x) with (f <$> x) in Hl. rewrite list_lookup_fmap in Hl.
    apply fmap_Some in Hl as (c & Hc & ->). cbn. eapply eids_mono; [|by eapply Forall_lookup_1 in Hca]. cbn. lia.
  - cbn. lia.
  - cbn. lia.
Qed.

Lemma init_promise gap enabled l3 caches cs :
  Forall (fresh_core gap) cs →
  promise_inv 0 gap cs (shared (init enabled l3 caches cs)).
Proof.
  intros Hco. split.
  - eapply Forall_impl; [exact Hco|]. by intros co (_ & _ & _ & ?).
  - eapply Forall_impl; [exact Hco|]. intros co (_ & _ & Ho & _). cbn. lia.
  - intros _. eapply Forall_impl; [exact Hco|]. intros co (_ & Hb & _). cbn. by rewrite Hb.
  - cbn. lia.
Qed.

(** Every buffer is emptied by the exit hooks. *)
Lemma exit_effect ks : ∀ (s s' : Picl.t P),
  picl_inv s → for_cores (λ k, with_cntlr k OnChipUndoBufferCntlr.persistLastEpochs) ks s = Ok s' →
  length (cores s') = length (cores s) ∧
  (ks ≠ [] → persisted_eid s' = sys_eid s) ∧
  ∀ j co', cores s' !! j = Some co' →
    (j ∈ ks ∨ ∃ co, cores s !! j = Some co ∧ core_buffer co = []) → core_buffer co' = [].
Proof.
  induction ks as [|k ks IH]; intros s s' Hinv E; cbn in E.
  { injection E as <-. split; [done|]. split; [done|]. intros j co' Hj [Hin|(co & Hco & Hb)]; [by apply elem_of_nil in Hin|congruence]. }
  apply rbind_ok in E as (s1 & E1 & E). pose proof (persist_inv k s s1 Hinv E1) as (Hinv1 & Es1 & _ & _).
  apply with_cntlr_ok in E1 as (co & c & g & Hco & Ef & ->).
  pose proof (Forall_lookup_1 _ _ _ _ (inv_cntlr s Hinv) Hco) as Hwf. cbn in Hwf.
  destruct (persist_ok _ (shared s) Hwf) as (c' & g' & E' & _ & _ & _ & _ & Hb & Hp & _);
    [pose proof (inv_sys s Hinv); unfold sys_eid in *; lia|].
  rewrite E' in Ef. injection Ef as <- <-.
  destruct (IH _ s' Hinv1 E) as (El & Hp2 & Hcl). cbn [cores upd_core] in El, Hcl.
  rewrite length_insert in El. split; [done|]. split.
  { intros _. destruct ks; [cbn in E; injection E as <-; exact Hp|rewrite Hp2 by done; exact Es1]. }
  intros j co' Hj Hor. apply (Hcl j co' Hj). destruct (decide (j = k)) as [->|Hjk].
  - right. eexists. split; [apply list_lookup_insert_eq; by eapply lookup_lt_Some|exact Hb].
  - destruct Hor as [Hin|(c0 & Hc0 & Hb0)]; [left; set_solver|].
    right. exists c0. by rewrite list_lookup_insert_ne.
Qed.

Lemma exit_total (s : Picl.t P) ks :
  picl_inv s → Forall (λ k, (k < length (cores s))%nat) ks →
  ∃ s', for_cores (λ k, with_cntlr k OnChipUndoBufferCntlr.persistLastEpochs) ks s = Ok s'.
Proof.
  revert s. induction ks as [|k ks IH]; intros s Hinv Hks; cbn; [eauto|].
  apply Forall_cons in Hks as [Hk Hks]. destruct (lookup_lt_is_Some_2 _ _ Hk) as [co Hco].
  pose proof (Forall_lookup_1 _ _ _ _ (inv_cntlr s Hinv) Hco) as Hwf. cbn in Hwf.
  destruct (persist_ok _ (shared s) Hwf) as (c' & g' & E' & _);
    [pose proof (inv_sys s Hinv); unfold sys_eid in *; lia|].
  assert (with_cntlr k OnChipUndoBufferCntlr.persistLastEpochs s = Ok (upd_core s k co c' g')) as E
    by (apply with_cntlr_ok; eauto 10).
  rewrite E. cbn [rbind]. apply IH; [by apply persist_inv in E as (? & _)|].
  cbn. by rewrite length_insert.
Qed.
End init.

(** ** One entry per line and epoch *)

Section once.
Context {P : Type} `{Policy P}.
Import Picl.
Abbreviation state := (Picl.t P).

Lemma find_from_tags l l' tag n :
  map CacheBlockInfo.m_tag l = map CacheBlockInfo.m_tag l' →
  CacheSet.find_from l tag n = CacheSet.find_from l' tag n.
Proof.
  intros E. induction n as [|n IH]; [done|]. cbn [CacheSet.find_from].
  assert (CacheBlockInfo.m_tag <$> l !! n = CacheBlockInfo.m_tag <$> l' !! n) as En.
  { rewrite <- !list_lookup_fmap. change (?f <$> ?x) with (map f x). by rewrite E. }
  unfold arr_get. destruct (l !! n), (l' !! n); cbn in En; try done. injection En as En.
  cbn [rbind]. by rewrite En, IH.
Qed.

(** What a store to a line does to the cache: the location is the one the tag
    is found at, and no block changes. *)
Lemma access_store_spec (c c' : Cache.t P) a b n u i w r :
  Cache.accessSingleLine c a CacheBase.STORE b n u = Ok (Some ((i, w), r), c') →
  Cache.base c' = Cache.base c ∧
  ∃ tag si s s', CacheBase.splitAddress (Cache.base c) a = Ok (tag, si) ∧ i = Z.to_nat si ∧
    Cache.m_sets c !! i = Some s ∧ Cache.m_sets c' !! i = Some s' ∧
    CacheSet.m_cache_block_info_array s' = CacheSet.m_cache_block_info_array s ∧
    CacheSet.m_associativity s' = CacheSet.m_associativity s ∧
    CacheSet.find s tag = Ok (Some w).
Proof.
  unfold Cache.accessSingleLine, CacheBase.splitAddress_offset. intros E.
  apply rbind_ok in E as ([[tag si] off] & Esp & E).
  apply rbind_ok in Esp as ([tag' si'] & Esp & [= -> -> _]).
  apply rbind_ok in E as (s & Hs & E). apply arr_get_ok in Hs.
  apply rbind_ok in E as ([w'|] & Ef & E); [|done].
  apply rbind_ok in E as ([info s'] & Ew & E). apply rbind_ok in E as (c1 & Ec & [= <- <- _ <-]).
  unfold Cache.set_state in Ec. apply rbind_ok in Ec as (sets & Es & [= <-]).
  apply arr_set_ok in Es as [Hlt ->]. cbn. split; [done|]. exists tag, si, s, s'.
  pose proof (write_line_array _ _ _ _ _ _ _ _ Ew) as Ea. cbn in Ea.
  split; [done|]. split; [done|]. split; [done|]. split; [by apply list_lookup_insert_eq|].
  split; [done|]. split; [|done].
  unfold CacheSet.write_line, CacheSet.touch_line in Ew. inv_ok. destruct u; inv_ok; done.
Qed.

(** Once a line carries the current epoch, storing to it creates no entry. *)
Lemma write_line_current k co l a off d n (s s' : state) es tag si st w b :
  write_line k co l a off d n s = Ok (es, s') →
  CacheBase.splitAddress (Cache.base (cache l)) (u64 (a + Z.of_nat off)) = Ok (tag, si) →
  Cache.m_sets (cache l) !! Z.to_nat si = Some st → CacheSet.find st tag = Ok (Some w) →
  CacheSet.m_cache_block_info_array st !! w = Some b → CacheBlockInfo.m_eid b = sys_eid s → es = [].
Proof.
  unfold write_line. intros E Esp Hst Hf Hb Heid.
  apply rbind_ok in E as ([found c] & Eacc & E). apply rbind_ok in E as (s1 & E1 & E).
  destruct found as [[[i w'] r]|]; [|done].
  destruct (access_store_spec _ _ _ _ _ _ _ _ _ Eacc) as (_ & tag' & si' & st' & st2 & Esp' & -> & Hst' & Hst2 & Ea & _ & Hf').
  rewrite Esp in Esp'. injection Esp' as <- <-. rewrite Hst in Hst'. injection Hst' as <-.
  rewrite Hf in Hf'. injection Hf' as <-.
  apply rbind_ok in E as (b' & Eb & E). unfold Cache.peekBlock, CacheSet.peekBlock in Eb. cbn [fst snd] in Eb.
  unfold arr_get at 1 in Eb. rewrite Hst2 in Eb. cbn [rbind] in Eb. unfold arr_get in Eb. rewrite Ea, Hb in Eb.
  injection Eb as <-. apply rbind_ok in E as (u & _ & E).
  assert (shared s1 = shared s) as Eg by (unfold set_llc in E1; by inv_ok).
  rewrite Eg in E. change (EpochManager.getGlobalSystemEID (OnChipUndoBufferCntlr.epoch (shared s))) with (sys_eid s) in E.
  rewrite Heid, Z.eqb_refl in E. by injection E as <-.
Qed.

(** After a store, the line carries the current epoch. *)
Lemma write_line_marks k co l a off d n (s s' : state) es :
  picl_inv s → sys_eid s < 2 ^ 64 → llcs s !! llc_index co = Some l →
  write_line k co l a off d n s = Ok (es, s') →
  sys_eid s' = sys_eid s ∧
  ∃ l' tag si st w b, llcs s' !! llc_index co = Some l' ∧ m_evicting l' = m_evicting l ∧
    Cache.base (cache l') = Cache.base (cache l) ∧
    CacheBase.splitAddress (Cache.base (cache l)) (u64 (a + Z.of_nat off)) = Ok (tag, si) ∧
    Cache.m_sets (cache l') !! Z.to_nat si = Some st ∧ CacheSet.find st tag = Ok (Some w) ∧
    CacheSet.m_cache_block_info_array st !! w = Some b ∧ CacheBlockInfo.m_eid b = sys_eid s.
Proof.
  unfold write_line. intros Hinv Hs Hl E.
  apply rbind_ok in E as ([found c] & Eacc & E). apply rbind_ok in E as (s1 & E1 & E).
  pose proof Eacc as Eeid. apply access_store_eids with (n := sys_eid s) in Eeid;
    [|by eapply (inv_eids s Hinv)].
  pose proof (set_llc_inv s s1 (llc_index co) {| cache := c; m_evicting := m_evicting l |} Hinv Eeid E1) as (Hinv1 & Hs1 & _ & _ & Eg1).
  assert (llcs s1 = <[llc_index co := {| cache := c; m_evicting := m_evicting l |}]> (llcs s)) as El1
    by (unfold set_llc in E1; by inv_ok).
  pose proof (lookup_lt_Some _ _ _ Hl) as Hlt.
  destruct found as [[[i w] r]|]; [|done].
  destruct (access_store_spec _ _ _ _ _ _ _ _ _ Eacc) as (Eb & tag & si & st & st2 & Esp & -> & Hst & Hst2 & Ea & Eas & Hf).
  assert (CacheSet.find st2 tag = Ok (Some w)) as Hf2 by (unfold CacheSet.find in *; by rewrite Ea, Eas).
  apply rbind_ok in E as (b & Ebl & E). unfold Cache.peekBlock, CacheSet.peekBlock in Ebl. cbn [fst snd] in Ebl.
  unfold arr_get at 1 in Ebl. rewrite Hst2 in Ebl. cbn [rbind] in Ebl. apply arr_get_ok in Ebl.
  apply rbind_ok in E as (u & _ & E). rewrite Eg1 in E.
  change (EpochManager.getGlobalSystemEID (OnChipUndoBufferCntlr.epoch (shared s))) with (sys_eid s) in E.
  destruct (Z.eqb_spec (CacheBlockInfo.m_eid b) (sys_eid s)) as [Heq|Hne].
  { injection E as _ <-. split; [done|]. eexists _, tag, si, st2, w, b. rewrite El1.
    split; [by apply list_lookup_insert_eq|]. done. }
  apply rbind_ok in E as (s2 & E2 & E). apply rbind_ok in E as (c' & Ec' & E).
  apply rbind_ok in E as (s3 & E3 & [= _ <-]).
  unfold Cache.updateBlock, CacheSet.peekBlock in Ec'. cbn [fst snd] in Ec'.
  unfold arr_get at 1 in Ec'. rewrite Hst2 in Ec'. cbn [rbind] in Ec'. unfold arr_get in Ec'. rewrite Ebl in Ec'. cbn [rbind] in Ec'.
  apply rbind_ok in Ec' as (arr & Earr & Ec'). apply arr_set_ok in Earr as [Hw ->].
  unfold Cache.set_state in Ec'. apply rbind_ok in Ec' as (sets & Es & [= <-]).
  apply arr_set_ok in Es as [Hsi ->]. cbn [fst snd] in *.
  assert (sys_eid s2 = sys_eid s) as Es2.
  { destruct (m_picl_enabled s1 && is_L3 s1); [|injection E2 as <-; done].
    apply with_cntlr_ok in E2 as (co' & cc & g & Hco' & Ei & ->).
    pose proof (Forall_lookup_1 _ _ _ _ (inv_cntlr s1 Hinv1) Hco') as Hwf. cbn in Hwf.
    pose proof (inv_sys s Hinv).
    destruct (insert_total (sys_eid s) b _ (shared s1) Hwf) as (c2 & g2 & E' & _ & Hsy & _); [done|rlia|].
    rewrite E' in Ei. injection Ei as <- <-. exact Hsy. }
  split.
  { unfold set_llc in E3. by inv_ok. }
  eexists _, tag, si, _, w, (CacheBlockInfo.set_epoch b (sys_eid s)).
  split; [|split; [|split; [|split; [exact Esp|split; [|split; [|split]]]]]].
  - unfold set_llc in E3. apply rbind_ok in E3 as (ls & Els & [= <-]). apply arr_set_ok in Els as [? ->].
    cbn. by apply list_lookup_insert_eq.
  - done.
  - exact Eb.
  - cbn. by apply list_lookup_insert_eq.
  - unfold CacheSet.find in *. cbn. rewrite <- Hf2. apply find_from_tags.
    change (map ?f ?x) with (f <$> x). rewrite list_fmap_insert. apply list_insert_id.
    by rewrite list_lookup_fmap, Ebl.
  - cbn. by apply list_lookup_insert_eq.
  - done.
Qed.
End once.

(** * Properties *)

(** [C5] No undo entry is ever lost.  In every run of the system from its start,
    whatever writes, insertions, invalidations, epoch ends and exits it consists of, the
    entries in the log together with those in the buffers are exactly the entries the
    writes created; each describes an interval of epochs [from < till <= system_eid]; no
    line of a last-level cache carries an epoch that has not begun; the persisted epoch
    never passes the current one. *)
Theorem run_accounts {P} `{Policy P} gap enabled l3 caches cs evs es (s : Picl.t P) :
  Forall fresh_cache caches → Forall (fresh_core gap) cs → Z.of_nat (length evs) < 2 ^ 64 - 1 →
  Picl.run evs (init enabled l3 caches cs) = Ok (es, s) →
  held s ≡ₚ es ∧ Forall (entry_ok (sys_eid s)) es ∧
  (∀ i l, Picl.llcs s !! i = Some l → eids_le (sys_eid s) (Picl.cache l)) ∧
  0 ≤ persisted_eid s ≤ sys_eid s ∧ sys_eid s ≤ 1 + Z.of_nat (length evs).
Proof.
  intros Hca Hco Hn E. pose proof (init_inv gap enabled l3 caches cs Hca Hco) as Hinv.
  assert (sys_eid (init enabled l3 caches cs) = 1) as E1 by done.
  destruct (run_ok evs _ s es Hinv) as (Hinv' & Hs & Hh); [lia|done|].
  assert (held (init enabled l3 caches cs) = []) as E0.
  { unfold held, all_buffered. cbn. clear - Hco. induction Hco as [|co cs (_ & Hb & _) _ IH]; [done|].
    cbn. by rewrite Hb, IH. }
  rewrite E0 in Hh. cbn in Hh. destruct Hinv' as [_ He Hl _ Hp].
  split; [done|]. split; [by rewrite <- Hh|]. split; [done|]. split; [done|]. lia.
Qed.

(** [C6] What the persisted epoch promises.  In a run without application exit in
    which no buffer has overflowed, with the same scan gap in every core, each entry
    whose last epoch is at most the persisted one is in the log, not in a volatile
    buffer: memory can be restored to the end of the persisted epoch. *)
Theorem persisted_epoch_recoverable {P} `{Policy P} gap enabled l3 caches cs evs es (s : Picl.t P) :
  Forall fresh_cache caches → Forall (fresh_core gap) cs → Z.of_nat (length evs) < 2 ^ 64 - 1 →
  Picl.ApplicationExit ∉ evs → Picl.run evs (init enabled l3 caches cs) = Ok (es, s) → quiet (Picl.cores s) →
  ∀ e, e ∈ es → m_valid_till_eid e ≤ persisted_eid s → e ∈ logged (Picl.shared s).
Proof.
  intros Hca Hco Hn Hne E Hq e He Ht. pose proof (init_inv gap enabled l3 caches cs Hca Hco) as Hinv.
  assert (sys_eid (init enabled l3 caches cs) = 1) as E1 by done.
  pose proof (run_promise gap evs 0 (init enabled l3 caches cs) s es Hinv ltac:(lia) ltac:(lia) ltac:(lia)
    (init_promise gap enabled l3 caches cs Hco) Hne E) as [_ _ Hp _]. specialize (Hp Hq).
  destruct (run_ok evs _ s es Hinv ltac:(lia) E) as (_ & _ & Hh).
  assert (e ∈ held s) as Hin.
  { rewrite Hh. apply elem_of_app. by right. }
  apply elem_of_app in Hin as [|Hin]; [done|exfalso].
  unfold all_buffered in Hin. apply list_elem_of_bind in Hin as (co & Hin & Hc).
  pose proof (proj1 (Forall_forall _ _) Hp co Hc) as Hb. cbn in Hb.
  pose proof (proj1 (Forall_forall _ _) Hb e Hin) as Hlt. cbn in Hlt. unfold persisted_eid in Ht. lia.
Qed.

(** A last-level cache of 4 sets of 2 ways, and [n] cores that share it. *)
Definition example_cache : Cache.t LRU.t :=
  {| Cache.base := {| CacheBase.m_cache_size := 512; CacheBase.m_associativity := 2; CacheBase.m_blocksize := 64;
                      CacheBase.m_hash := CacheBase.HASH_MASK; CacheBase.m_num_sets := 4; CacheBase.m_ahl := None;
                      CacheBase.m_log_blocksize := 6; CacheBase.m_log_num_sets := 2 |};
     Cache.m_enabled := false; Cache.m_num_accesses := 0; Cache.m_num_hits := 0;
     Cache.m_sets := replicate 4 (CacheSet.new false 2 64 (LRU.new 2 1));
     Cache.m_set_info := new_info 2 1 |}.
Definition example_cores (n : nat) (entries gap : Z) : list Picl.core :=
  replicate n (Picl.mk_core 0 (example_cntlr entries gap)).
Definition example_system (n : nat) (entries gap : Z) : Picl.t LRU.t :=
  init true true [example_cache] (example_cores n entries gap).

(** Two lines are inserted in the modified state and written in two epochs. *)
Definition example_run : list Picl.event :=
  [Picl.Insert 0 0x1000 CacheState.MODIFIED None None;
   Picl.Write 0 0x1000 0 None 64;
   Picl.PeriodicIns;
   Picl.Insert 0 0x2000 CacheState.MODIFIED None None;
   Picl.Write 1 0x1000 8 None 8;
   Picl.Write 0 0x2000 0 None 64;
   Picl.PeriodicIns; Picl.PeriodicIns].

Lemma example_fresh_cache : Forall fresh_cache [example_cache].
Proof.
  repeat constructor. intros [|[|[|[|i]]]] s Hs; cbn in Hs; try discriminate Hs; injection Hs as <-;
    repeat constructor; discriminate.
Qed.

Lemma example_fresh_cores n entries gap :
  0 < entries < 2 ^ 32 → in_u32 gap → Forall (fresh_core gap) (example_cores n entries gap).
Proof.
  intros He Hg. apply Forall_replicate. unfold fresh_core, cntlr_wf, core_gap, core_overflow, core_buffer, buffered.
  cbn. rewrite !u32_small by rlia. destruct (Z.gtb_spec entries 0); [|lia].
  split_and!; try done; try rlia.
Qed.

Lemma run_accounts_witness :
  ∃ es s, Picl.run example_run (example_system 2 4 1) = Ok (es, s) ∧
  held s ≡ₚ es ∧ Forall (entry_ok (sys_eid s)) es ∧
  (∀ i l, Picl.llcs s !! i = Some l → eids_le (sys_eid s) (Picl.cache l)) ∧
  0 ≤ persisted_eid s ≤ sys_eid s ∧ sys_eid s ≤ 1 + Z.of_nat (length example_run).
Proof.
  eexists _, _. split; [vm_compute; reflexivity|].
  apply (run_accounts 1 true true [example_cache] (example_cores 2 4 1) example_run).
  - exact example_fresh_cache.
  - apply example_fresh_cores; rlia.
  - cbn. lia.
  - vm_compute. reflexivity.
Defined.

Lemma persisted_epoch_recoverable_witness :
  ∃ es s, Picl.run example_run (example_system 2 4 1) = Ok (es, s) ∧
  es = [mk_entry 64 0 1; mk_entry 64 1 2; mk_entry 128 0 2] ∧ persisted_eid s = 2 ∧
  ∀ e, e ∈ es → m_valid_till_eid e ≤ persisted_eid s → e ∈ logged (Picl.shared s).
Proof.
  eexists _, _. split; [vm_compute; reflexivity|]. split; [reflexivity|]. split; [reflexivity|].
  apply (persisted_epoch_recoverable 1 true true [example_cache] (example_cores 2 4 1) example_run).
  - exact example_fresh_cache.
  - apply example_fresh_cores; rlia.
  - cbn. lia.
  - intros Hin. repeat (apply elem_of_cons in Hin as [Hin|Hin]; [discriminate Hin|]). by apply elem_of_nil in Hin.
  - vm_compute. reflexivity.
  - repeat constructor.
Defined.

(** The exit hooks empty all buffers. *)
Lemma exit_persists {P} `{Policy P} (s : Picl.t P) :
  picl_inv s → Picl.cores s ≠ [] →
  ∃ s', Picl.call_hooks HOOK_APPLICATION_EXIT s = Ok s' ∧ picl_inv s' ∧ all_buffered s' = [] ∧
    logged (Picl.shared s') ≡ₚ held s ∧ persisted_eid s' = sys_eid s ∧ sys_eid s' = sys_eid s.
Proof.
  intros Hinv Hne. destruct (exit_total s (seq 0 (length (Picl.cores s))) Hinv) as [s' E].
  { apply Forall_forall. intros k Hk. apply elem_of_seq in Hk. lia. }
  exists s'. rewrite call_exit. split; [done|].
  destruct (exit_effect _ s s' Hinv E) as (El & Hp & Hcl).
  pose proof (persists_ok _ s s' Hinv E) as (? & Es & Hh). split; [done|].
  assert (all_buffered s' = []) as Hb.
  { unfold all_buffered. assert (Forall (λ co, core_buffer co = []) (Picl.cores s')) as Hall.
    { apply Forall_lookup. intros j co Hj. apply (Hcl j co Hj). left. apply elem_of_seq.
      pose proof (lookup_lt_Some _ _ _ Hj). lia. }
    clear - Hall. induction Hall as [|co cs Hb _ IH]; [done|]. cbn. by rewrite Hb, IH. }
  split; [done|]. unfold held at 1 in Hh. rewrite Hb, app_nil_r in Hh. split; [done|]. split; [|done].
  apply Hp. intros Hn. apply (f_equal length) in Hn. rewrite length_seq in Hn.
  destruct (Picl.cores s); [done|discriminate].
Qed.

(** Application exit persists everything: in every reachable state the exit
    hooks succeed, afterwards all buffers are empty, every entry is in the log, and (when
    there is a core) the current epoch is the persisted one. *)
Theorem application_exit_persists {P} `{Policy P} (s : Picl.t P) :
  picl_inv s → Picl.cores s ≠ [] →
  ∃ s', Picl.exec Picl.ApplicationExit s = Ok ([], s') ∧ all_buffered s' = [] ∧
    logged (Picl.shared s') ≡ₚ held s ∧ persisted_eid s' = sys_eid s ∧ sys_eid s' = sys_eid s.
Proof.
  intros Hinv Hne. destruct (exit_persists s Hinv Hne) as (s' & E & _ & ?). exists s'. cbn [Picl.exec]. by rewrite E.
Qed.

Lemma application_exit_persists_witness :
  let s := example_system 2 4 1 in
  ∃ s', Picl.exec Picl.ApplicationExit s = Ok ([], s') ∧ all_buffered s' = [] ∧
    logged (Picl.shared s') ≡ₚ held s ∧ persisted_eid s' = sys_eid s ∧ sys_eid s' = sys_eid s.
Proof.
  apply (application_exit_persists (example_system 2 4 1)).
  - eapply init_inv; [exact example_fresh_cache|apply example_fresh_cores; rlia].
  - discriminate.
Defined.

(** The first write to a line in an epoch logs it, the others do not: after a
    write by any core, a second write to the same line of the same cache in the same
    epoch, by any core, hands nothing to an undo buffer. *)
Theorem one_entry_per_epoch {P} `{Policy P} k k' a off off' d d' n n' (s s1 s2 : Picl.t P) co co' l es es' :
  picl_inv s → sys_eid s < 2 ^ 64 →
  Picl.cores s !! k = Some co → Picl.llcs s !! Picl.llc_index co = Some l → Picl.m_evicting l = None →
  Picl.writeCacheBlock k a off d n s = Ok (es, s1) →
  Picl.cores s1 !! k' = Some co' → Picl.llc_index co' = Picl.llc_index co →
  CacheBase.splitAddress (Cache.base (Picl.cache l)) (u64 (a + Z.of_nat off')) =
    CacheBase.splitAddress (Cache.base (Picl.cache l)) (u64 (a + Z.of_nat off)) →
  Picl.writeCacheBlock k' a off' d' n' s1 = Ok (es', s2) → es' = [].
Proof.
  intros Hinv Hs Hco Hl Hev E1 Hco' Hidx Hsplit E2.
  unfold Picl.writeCacheBlock, arr_get in E1. rewrite Hco in E1. cbn [rbind] in E1. rewrite Hl in E1. cbn [rbind] in E1. rewrite Hev in E1.
  destruct (write_line_marks k co l a off d n s s1 es Hinv Hs Hl E1)
    as (Hs1 & l1 & tag & si & st & w & b & Hl1 & Hev1 & Hb1 & Hsp & Hst & Hf & Hb & Heid).
  unfold Picl.writeCacheBlock, arr_get in E2. rewrite Hco' in E2. cbn [rbind] in E2.
  rewrite Hidx, Hl1 in E2. cbn [rbind] in E2. rewrite Hev1, Hev in E2.
  eapply (write_line_current k' co' l1 a off' d' n' s1 s2 es' tag si st w b); [exact E2| |done|done|done|congruence].
  by rewrite Hb1, Hsplit.
Qed.

(** The state a computation reaches. *)
Definition state_of (r : result (list UndoEntry * Picl.t LRU.t)) : Picl.t LRU.t :=
  match r with Ok (_, s) => s | Err _ => example_system 0 1 1 end.
Definition example_modified : Picl.t LRU.t :=
  state_of (Picl.exec (Picl.Insert 0 0x1000 CacheState.MODIFIED None None) (example_system 2 4 1)).
Definition example_written : Picl.t LRU.t :=
  state_of (Picl.writeCacheBlock 0 0x1000 0 None 64 example_modified).

Lemma one_entry_per_epoch_witness :
  Picl.writeCacheBlock 0 0x1000 0 None 64 example_modified = Ok ([mk_entry 64 0 1], example_written) ∧
  ∃ s2, Picl.writeCacheBlock 1 0x1000 8 None 8 example_written = Ok ([], s2) ∧ ([] : list UndoEntry) = [].
Proof.
  split; [vm_compute; reflexivity|]. eexists. split; [vm_compute; reflexivity|].
  eapply (one_entry_per_epoch 0 1 0x1000 0 8 None None 64 8 example_modified example_written);
    [|reflexivity|reflexivity|reflexivity|reflexivity|vm_compute; reflexivity|reflexivity|reflexivity|reflexivity
     |vm_compute; reflexivity].
  eapply (exec_ok (Picl.Insert 0 0x1000 CacheState.MODIFIED None None) (example_system 2 4 1));
    [eapply init_inv; [exact example_fresh_cache|apply example_fresh_cores; rlia]|reflexivity|vm_compute; reflexivity].
Defined.

(** The persisted epoch is shared, the buffers are not: with two cores, an
    overflow in one core declares the current epoch persisted while the other core still
    holds an entry of that epoch in its buffer. *)
Theorem overflow_of_one_core_breaks_promise :
  ∃ es s, Picl.run
    [Picl.Insert 0 0x1000 CacheState.MODIFIED None None; Picl.Insert 0 0x2040 CacheState.MODIFIED None None;
     Picl.Insert 0 0x3080 CacheState.MODIFIED None None;
     Picl.Write 1 0x1000 0 None 64;       (* core 1 buffers an entry *)
     Picl.Write 0 0x2040 0 None 64;       (* core 0 fills its buffer of one entry *)
     Picl.Write 0 0x3080 0 None 64]       (* and overflows *)
    (example_system 2 1 3) = Ok (es, s) ∧
  persisted_eid s = 1 ∧ mk_entry 64 0 1 ∈ es ∧ mk_entry 64 0 1 ∉ logged (Picl.shared s).
Proof.
  eexists _, _. split; [vm_compute; reflexivity|]. split; [reflexivity|]. split; [set_solver|].
  apply (bool_decide_unpack _). vm_compute. done.
Qed.

(** A write-back that hits the line being evicted bypasses the log: it goes to
    the eviction buffer, no undo entry is created and no epoch is recorded, although the
    modified data are about to be written to memory. *)
Theorem eviction_bypasses_log {P} `{Policy P} k a d n (s s' : Picl.t P) co l buf es :
  Picl.cores s !! k = Some co → Picl.llcs s !! Picl.llc_index co = Some l →
  Picl.m_evicting l = Some (a, buf) →
  Picl.writeCacheBlock k a 0 d n s = Ok (es, s') →
  es = [] ∧ held s' = held s ∧ ∃ l', Picl.llcs s' !! Picl.llc_index co = Some l' ∧ Picl.cache l' = Picl.cache l.
Proof.
  intros Hco Hl Hev E. unfold Picl.writeCacheBlock, arr_get in E. rewrite Hco in E. cbn [rbind] in E.
  rewrite Hl in E. cbn [rbind] in E. rewrite Hev, Z.eqb_refl in E.
  apply rbind_ok in E as (u & _ & E). apply rbind_ok in E as (u' & _ & E).
  apply rbind_ok in E as (buf' & _ & E). apply rbind_ok in E as (s1 & E & [= <- <-]).
  unfold Picl.set_llc in E. apply rbind_ok in E as (ls & Els & [= <-]). apply arr_set_ok in Els as [Hlt ->].
  split; [done|]. split; [done|]. eexists. split; [by apply list_lookup_insert_eq|done].
Qed.

Definition example_evicting : Picl.llc LRU.t := Picl.mk_llc example_cache (Some (0x5000, replicate 64 0)).
Definition example_evicting_system : Picl.t LRU.t :=
  Picl.mk true true [example_evicting] (example_cores 1 4 1) (OnChipUndoBufferCntlr.mk_shared EpochManager.new []).

Lemma eviction_bypasses_log_witness :
  let s' := state_of (Picl.writeCacheBlock 0 0x5000 0 None 64 example_evicting_system) in
  Picl.writeCacheBlock 0 0x5000 0 None 64 example_evicting_system = Ok ([], s') ∧
    ([] : list UndoEntry) = [] ∧ held s' = held example_evicting_system ∧
    ∃ l', Picl.llcs s' !! 0%nat = Some l' ∧ Picl.cache l' = Picl.cache example_evicting.
Proof.
  split; [vm_compute; reflexivity|].
  apply (eviction_bypasses_log 0 0x5000 None 64 example_evicting_system
    (state_of (Picl.writeCacheBlock 0 0x5000 0 None 64 example_evicting_system))
    (Picl.mk_core 0 (example_cntlr 4 1)) example_evicting (replicate 64 0) []);
    [reflexivity|reflexivity|reflexivity|vm_compute; reflexivity].
Defined.
