(* ===== verification/Log.v ===== *)
(** The log as the cache controllers see it: undo buffer controllers and the state they
    share with the epoch manager, moved by insertions of entries and by hooks.

    [log_inv] is the interface between the hierarchy of caches and the log: any property of
    the buffers and the log that insertions keep is an invariant of the hierarchy. *)
From S2P Require Import Prelude Utils BlockInfo AddressMap Replacement CacheModel Epoch UndoBuffer Picl.

Implicit Types (us : list OnChipUndoBufferCntlr.t) (g : OnChipUndoBufferCntlr.shared).

(** Every entry in the log or in a buffer. *)
Definition stored us g : list UndoEntry := logged g ++ (us ≫= buffered).

(** The system of [Picl] without its caches; its cores are the controllers. *)
Definition picl_of us g : Picl.t LRU.t := Picl.mk true true [] (map (Picl.mk_core 0) us) g.

Lemma stored_held us g : held (picl_of us g) = stored us g.
Proof.
  unfold held, stored, all_buffered. cbn. f_equal. induction us as [|u us IH]; [done|]. cbn. by rewrite IH.
Qed.

(** What a controller's insertion of an entry does to the whole. *)
Lemma insert_stored us g u x b x' g' :
  us !! u = Some x → cntlr_wf x → in_u64 (sys g) →
  OnChipUndoBufferCntlr.insertUndoEntry (sys g) b x g = Ok (x', g') →
  cntlr_wf x' ∧ sys g' = sys g ∧ stored (<[u := x']> us) g' ≡ₚ stored us g ++ [new_entry (sys g) b] ∧
  Picl.with_cntlr u (OnChipUndoBufferCntlr.insertUndoEntry (sys g) b) (picl_of us g) = Ok (picl_of (<[u := x']> us) g').
Proof.
  intros Hu Hx Hs E. destruct (insert_total (sys g) b x g Hx eq_refl Hs) as (x2 & g2 & E2 & Hwf & Hsys & _ & kept & Hk & Hp & _).
  rewrite E in E2. injection E2 as <- <-. split_and!; [done|done| |].
  - destruct (insert_Permutation us u x x' Hu) as (rest & H1 & H2). unfold stored. rewrite H2, H1. cbn.
    rewrite Hk, <- !app_assoc, (app_assoc (logged g')), Hp, <- !app_assoc. do 2 f_equiv. apply Permutation_app_comm.
  - apply with_cntlr_ok. exists (Picl.mk_core 0 x), x', g'. split_and!; [|done|].
    + cbn. change (map ?f ?l) with (f <$> l). by rewrite list_lookup_fmap, Hu.
    + unfold upd_core, picl_of. cbn. f_equal. change (map ?f ?l) with (f <$> l). by rewrite list_fmap_insert.
Qed.

(** ** Invariants of the log *)

(** The part that all of them contain. *)
Definition log_wf (undo : nat) us g : Prop := picl_inv (picl_of us g) ∧ length us = undo ∧ sys g < 2 ^ 64.

Lemma log_wf_cntlrs undo us g : log_wf undo us g → Forall cntlr_wf us.
Proof. intros ([H _ _ _ _] & _). cbn in H. change (map ?f ?l) with (f <$> l) in H. by rewrite Forall_fmap in H. Qed.
Lemma log_wf_sys undo us g : log_wf undo us g → 1 ≤ sys g < 2 ^ 64.
Proof. intros ([_ _ _ H _] & _ & Hs). split; [exact H|done]. Qed.
Lemma log_wf_u64 undo us g : log_wf undo us g → in_u64 (sys g).
Proof. intros Hwf. pose proof (log_wf_sys _ _ _ Hwf). rlia. Qed.
Lemma log_wf_entries undo us g : log_wf undo us g → Forall (entry_ok (sys g)) (stored us g).
Proof. intros ([_ H _ _ _] & _). by rewrite stored_held in H. Qed.

Lemma log_wf_insert undo us g u x b x' g' :
  log_wf undo us g → us !! u = Some x → 0 ≤ CacheBlockInfo.m_eid b < sys g →
  OnChipUndoBufferCntlr.insertUndoEntry (sys g) b x g = Ok (x', g') → log_wf undo (<[u := x']> us) g'.
Proof.
  intros Hwf Hu Hb E. pose proof (log_wf_sys _ _ _ Hwf) as Hs. pose proof (log_wf_cntlrs _ _ _ Hwf) as Hc.
  destruct Hwf as (Hinv & Hl & _).
  destruct (insert_stored us g u x b x' g' Hu) as (_ & Hsys & _ & Ew); [by eapply Forall_lookup_1|rlia|done|].
  split_and!; [|by rewrite length_insert|rewrite Hsys; lia].
  eapply (insert_inv u b (picl_of us g) (picl_of (<[u:=x']> us) g')); [exact Hinv| | | |exact Ew];
    change (sys_eid (picl_of us g)) with (sys g); [lia|unfold block_eid; lia|lia].
Qed.

(** ** Marks

    A line that carries epoch [e] was written in it for the first time since it entered the
    cache, and then an entry that ends in [e] was made for it. *)
Definition accounted us g (t e : Z) : Prop := e = 0 ∨ ∃ x, x ∈ stored us g ∧ m_tag x = t ∧ m_valid_till_eid x = e.

Lemma accounted_mono us g us' g' l t e :
  stored us' g' ≡ₚ stored us g ++ l → accounted us g t e → accounted us' g' t e.
Proof.
  intros Hp [->|(x & Hx & Ht & He)]; [by left|right]. exists x. split; [|done]. rewrite Hp. apply elem_of_app. by left.
Qed.

Lemma accounted_new us g us' g' b e :
  stored us' g' ≡ₚ stored us g ++ [new_entry e b] → accounted us' g' (CacheBlockInfo.m_tag b) e.
Proof.
  intros Hp. right. exists (new_entry e b). split; [|done]. rewrite Hp. apply elem_of_app. right. by left.
Qed.

(** ** Hooks *)

(** The hooks of an event, on the controllers and the shared state. *)
Definition run_hooks (type : hook_type_t) us g : result (list OnChipUndoBufferCntlr.t * OnChipUndoBufferCntlr.shared) :=
  let! p := Picl.call_hooks type (picl_of us g) in
  Ok (map Picl.m_onchip_undo_buffer_cntlr (Picl.cores p), Picl.shared p).

Definition is_log (p : Picl.t LRU.t) : Prop := ∃ us g, p = picl_of us g.

Lemma with_cntlr_log k f p p' : is_log p → Picl.with_cntlr k f p = Ok p' → is_log p' ∧ length (Picl.cores p') = length (Picl.cores p).
Proof.
  intros (us & g & ->) (co & c & g' & Hco & _ & ->)%with_cntlr_ok. cbn in Hco. change (map ?f ?l) with (f <$> l) in Hco.
  rewrite list_lookup_fmap in Hco. apply fmap_Some in Hco as (u & Hu & ->). cbn.
  split; [|by rewrite length_insert]. exists (<[k := c]> us), g'. unfold picl_of, upd_core. cbn. f_equal.
  change (map ?f ?l) with (f <$> l). by rewrite list_fmap_insert.
Qed.

Lemma for_cores_log f ks p p' : is_log p → for_cores (λ k, Picl.with_cntlr k f) ks p = Ok p' →
  is_log p' ∧ length (Picl.cores p') = length (Picl.cores p).
Proof.
  intros Hp. apply (for_cores_ind (λ x, is_log x ∧ length (Picl.cores x) = length (Picl.cores p))); [|done].
  intros k p1 p2 [H1 E1] E. apply with_cntlr_log in E as [? E2]; [|done]. split; [done|congruence].
Qed.

Lemma picl_of_cores us g : map Picl.m_onchip_undo_buffer_cntlr (Picl.cores (picl_of us g)) = us.
Proof. cbn. rewrite map_map. cbn. apply map_id. Qed.

(** The end of an epoch keeps every entry, and the number of the epoch grows by one. *)
Lemma periodic_log undo us g us' g' : log_wf undo us g → sys g < 2 ^ 64 - 1 →
  run_hooks HOOK_PERIODIC_INS us g = Ok (us', g') →
  log_wf undo us' g' ∧ sys g' = sys g + 1 ∧ stored us' g' ≡ₚ stored us g ∧
  Picl.call_hooks HOOK_PERIODIC_INS (picl_of us g) = Ok (picl_of us' g').
Proof.
  intros Hwf Hs E. pose proof (log_wf_sys _ _ _ Hwf) as Hs1. destruct Hwf as (Hinv & Hl & _).
  unfold run_hooks in E. destruct (Picl.call_hooks HOOK_PERIODIC_INS (picl_of us g)) as [p|] eqn:Ep; [|done]. injection E as <- <-.
  assert (is_log p ∧ length (Picl.cores p) = length us) as [(us2 & g2 & ->) Hlen].
  { rewrite call_periodic in Ep. apply rbind_ok in Ep as (p1 & E1 & Ep). apply rbind_ok in Ep as ([r p2] & E2 & [= <-]).
    apply for_cores_log in E1 as [(us1 & g1 & ->) El]; [|by eexists _, _]. cbn in E2. injection E2 as <- <-.
    split; [by eexists _, _|]. cbn in El |- *. rewrite !length_map in *. done. }
  rewrite picl_of_cores. cbn in Hlen. rewrite length_map in Hlen.
  assert (step_ok (picl_of us g) (picl_of us2 g2) [] ∧ sys g2 = sys g + 1) as [(Hinv' & _ & Hh) Hsys].
  { split; [apply (exec_ok Picl.PeriodicIns); [done|done|cbn; by rewrite Ep]|].
    rewrite call_periodic in Ep. apply rbind_ok in Ep as (p1 & E1 & Ep). apply rbind_ok in Ep as ([r p2] & E2 & [= ->]).
    apply scans_ok in E1 as (H1 & H2 & _); [|done|change (sys_eid (picl_of us g)) with (sys g); lia].
    apply increment_inv in E2 as (_ & H3 & _); [|done|rewrite H2; exact Hs].
    change (sys_eid (picl_of us2 g2) = sys_eid (picl_of us g) + 1). congruence. }
  rewrite app_nil_r, !stored_held in Hh. change (Picl.shared (picl_of us2 g2)) with g2. split_and!; try done. split_and!; [done|lia|lia].
Qed.
(** An epoch can always end. *)
Lemma periodic_total us g : picl_inv (picl_of us g) → sys g < 2 ^ 64 → ∃ us' g', run_hooks HOOK_PERIODIC_INS us g = Ok (us', g').
Proof.
  intros Hinv Hs. unfold run_hooks. rewrite call_periodic.
  assert (∀ ks (p : Picl.t LRU.t), picl_inv p → sys_eid p < 2 ^ 64 → Forall (λ k, (k < length (Picl.cores p))%nat) ks →
    ∃ p', for_cores (λ k, Picl.with_cntlr k OnChipUndoBufferCntlr.asyncCacheScan) ks p = Ok p') as Hscan.
  { induction ks as [|k ks IH]; intros p Hp Hps Hks; cbn; [eauto|].
    apply Forall_cons in Hks as [Hk Hks]. destruct (lookup_lt_is_Some_2 _ _ Hk) as [co Hco].
    pose proof (Forall_lookup_1 _ _ _ _ (inv_cntlr p Hp) Hco) as Hwf. cbn in Hwf.
    pose proof (inv_sys p Hp) as H1. destruct (scan_ok _ (Picl.shared p) Hwf) as (c' & g' & E' & _); [unfold sys_eid in *; rlia|].
    assert (Picl.with_cntlr k OnChipUndoBufferCntlr.asyncCacheScan p = Ok (upd_core p k co c' g')) as E
      by (apply with_cntlr_ok; eauto 10).
    rewrite E. cbn [rbind]. apply scan_inv in E as (Hp' & Es & _); [|done|rlia].
    apply IH; [done|lia|cbn; by rewrite length_insert]. }
  destruct (Hscan (seq 0 (length (Picl.cores (picl_of us g)))) (picl_of us g)) as [p E]; [done|done| |].
  { apply Forall_forall. intros k Hk. apply elem_of_seq in Hk. lia. }
  rewrite E. cbn [rbind]. destruct (Picl.run_hook _ _ _ p) as [[r p']|e] eqn:Eh; [by eexists _, _|by cbn in Eh].
Qed.

(** The exit of the application puts every entry in the log. *)
Lemma exit_log undo us g : log_wf undo us g → us ≠ [] →
  ∃ us' g', run_hooks HOOK_APPLICATION_EXIT us g = Ok (us', g') ∧ (us' ≫= buffered) = [] ∧
    logged g' ≡ₚ stored us g ∧ persisted g' = sys g ∧ sys g' = sys g.
Proof.
  intros [Hinv _] Hne. destruct (exit_persists (picl_of us g)) as (p & E & Hp & Hb & Hl & Hper & Hsys); [done|by destruct us|].
  assert (is_log p) as (us' & g' & ->).
  { rewrite call_exit in E. apply for_cores_log in E as [? _]; [done|by eexists _, _]. }
  exists us', g'. unfold run_hooks. rewrite E. cbn [rbind]. rewrite picl_of_cores. split_and!; [done| |by rewrite <- stored_held|done|done].
  pose proof (stored_held us' g') as Hst. unfold held, stored in Hst. rewrite Hb in Hst. by apply app_inv_head in Hst.
Qed.

(** ** Properties that the log keeps *)

(** An invariant of the log: the entries that writes insert keep it, and the end of an epoch. *)
Record log_inv (undo : nat) := {
  holds :> list OnChipUndoBufferCntlr.t → OnChipUndoBufferCntlr.shared → Prop;
  holds_wf us g : holds us g → log_wf undo us g;
  holds_insert us g u x b x' g' : holds us g → us !! u = Some x → 0 ≤ CacheBlockInfo.m_eid b < sys g →
    OnChipUndoBufferCntlr.insertUndoEntry (sys g) b x g = Ok (x', g') → holds (<[u := x']> us) g';
  holds_periodic us g us' g' : holds us g → sys g < 2 ^ 64 - 1 →
    run_hooks HOOK_PERIODIC_INS us g = Ok (us', g') → holds us' g';
}.
Arguments holds {undo} _ _ _.
Arguments holds_wf {undo} _ _ _ _.
Arguments holds_insert {undo} _ _ _ _ _ _ _ _ _ _ _ _.
Arguments holds_periodic {undo} _ _ _ _ _ _ _ _.

(** The least one. *)
Definition some_log (undo : nat) : log_inv undo :=
  {| holds := log_wf undo; holds_wf _ _ H := H; holds_insert := log_wf_insert undo;
     holds_periodic us g us' g' H Hs E := proj1 (periodic_log undo us g us' g' H Hs E) |}.

Section invariants.
Context (undo : nat).

(** No entry is ever lost, and time goes on. *)
Definition keeping (n : Z) (l : list UndoEntry) us g : Prop := log_wf undo us g ∧ l ⊆+ stored us g ∧ n ≤ sys g.

Lemma keeping_insert n l us g u x b x' g' :
  keeping n l us g → us !! u = Some x → 0 ≤ CacheBlockInfo.m_eid b < sys g →
  OnChipUndoBufferCntlr.insertUndoEntry (sys g) b x g = Ok (x', g') → keeping n l (<[u := x']> us) g'.
Proof.
  intros (Hwf & Hl & Hn) Hu Hb E. split; [by eapply log_wf_insert|].
  destruct (insert_stored us g u x b x' g' Hu) as (_ & -> & -> & _); [|by eapply log_wf_u64|done|].
  - eapply Forall_lookup_1, Hu. by eapply log_wf_cntlrs.
  - split; [by apply submseteq_inserts_r|done].
Qed.

Lemma keeping_periodic n l us g us' g' :
  keeping n l us g → sys g < 2 ^ 64 - 1 → run_hooks HOOK_PERIODIC_INS us g = Ok (us', g') → keeping n l us' g'.
Proof.
  intros (Hwf & Hl & Hn) Hs E. destruct (periodic_log undo us g us' g' Hwf Hs E) as (? & ? & Hp & _).
  split; [done|]. split; [by rewrite Hp|lia].
Qed.

Definition keeps_log (n : Z) (l : list UndoEntry) : log_inv undo :=
  {| holds := keeping n l; holds_wf _ _ H := proj1 H; holds_insert := keeping_insert n l; holds_periodic := keeping_periodic n l |}.

(** As long as no buffer overflows, nothing waits in one whose epoch counts as persisted; a
    counter of overflows does not wrap around before there are as many entries. *)
Definition promising (gap : Z) us g : Prop :=
  log_wf undo us g ∧
  (Z.of_nat (length (stored us g)) < 2 ^ 64 →
   promise_inv (Z.of_nat (length (stored us g))) gap (Picl.cores (picl_of us g)) g).

Lemma promising_insert gap us g u x b x' g' :
  promising gap us g → us !! u = Some x → 0 ≤ CacheBlockInfo.m_eid b < sys g →
  OnChipUndoBufferCntlr.insertUndoEntry (sys g) b x g = Ok (x', g') → promising gap (<[u := x']> us) g'.
Proof.
  intros [Hwf Hp] Hu Hb E. split; [by eapply log_wf_insert|].
  destruct (insert_stored us g u x b x' g' Hu) as (_ & _ & -> & Ew); [|by eapply log_wf_u64|done|].
  { eapply Forall_lookup_1, Hu. by eapply log_wf_cntlrs. }
  rewrite length_app, Nat2Z.inj_add. cbn [length]. change (Z.of_nat 1) with 1. intros Hn.
  eapply (insert_promise u b (sys g) gap _ (picl_of us g) (picl_of (<[u := x']> us) g')); [|done|by eapply log_wf_u64|lia|apply Hp; lia|exact Ew].
  apply Hwf.
Qed.

Lemma promising_periodic gap us g us' g' :
  promising gap us g → sys g < 2 ^ 64 - 1 → run_hooks HOOK_PERIODIC_INS us g = Ok (us', g') → promising gap us' g'.
Proof.
  intros [Hwf Hp] Hs E. destruct (periodic_log undo us g us' g' Hwf Hs E) as (Hwf' & _ & Hst & Ep).
  split; [done|]. rewrite Hst. intros Hn. eapply (periodic_promise _ gap (picl_of us g) (picl_of us' g')); [apply Hwf|done|by apply Hp|done].
Qed.

Definition promise_log (gap : Z) : log_inv undo :=
  {| holds := promising gap; holds_wf _ _ H := proj1 H; holds_insert := promising_insert gap; holds_periodic := promising_periodic gap |}.
End invariants.
