(* ===== verification/StateResult.v ===== *)
(** Stateful code that may fail: the monad of the larger components, with the
    operators of its notation and a weakest precondition for it.

    [M S A] is code that reads and changes a state [S] and returns an [A] or stops
    with a [failure].  [wps E m s Q]: run from [s], [m] returns a result and a state
    that satisfy [Q], or stops with a failure that satisfies [E].  With [E] everywhere
    true it is partial correctness, with [E] everywhere false it says that no assertion
    fails, and with [terminates] that no fuel runs out. *)
From S2P Require Import Prelude.

Definition M (S A : Type) : Type := S → result (A * S).

#[export] Instance M_ret {S} : MRet (M S) := λ A a s, Ok (a, s).
#[export] Instance M_bind {S} : MBind (M S) :=
  λ A B f m s, match m s with Ok (a, s) => f a s | Err e => Err e end.

Section operators.
Context {S : Type}.

Definition fail {A} (e : failure) : M S A := λ _, Err e.
Definition lift {A} (r : result A) : M S A :=
  λ s, match r with Ok a => Ok (a, s) | Err e => Err e end.
Definition gets {A} (f : S → A) : M S A := λ s, Ok (f s, s).
Definition modify (f : S → S) : M S unit := λ s, Ok (tt, f s).
Definition assert_ (b : bool) : M S unit := lift (check b AssertFail).
Definition when (b : bool) (m : M S unit) : M S unit := if b then m else mret tt.

(** A loop over a list with an accumulator. *)
Fixpoint foldM {A B} (f : B → A → M S B) (b : B) (l : list A) : M S B :=
  match l with
  | [] => mret b
  | a :: l => b ← f b a; foldM f b l
  end.
End operators.

(** * Weakest preconditions *)

Definition wps {S A} (E : failure → Prop) (m : M S A) (s : S) (Q : A → S → Prop) : Prop :=
  match m s with
  | Ok (a, s) => Q a s
  | Err e => E e
  end.

Definition terminates : failure → Prop := λ e, e ≠ NoFuel.
Definition anything : failure → Prop := λ _, True.
Definition never : failure → Prop := λ _, False.

Section rules.
Context {S : Type} (E : failure → Prop).

Lemma wps_ret {A} (a : A) s (Q : A → S → Prop) : Q a s → wps E (mret a) s Q.
Proof. done. Qed.
Lemma wps_bind {A B} (m : M S A) (f : A → M S B) s Q :
  wps E m s (λ a s, wps E (f a) s Q) → wps E (m ≫= f) s Q.
Proof. unfold wps, mbind, M_bind. destruct (m s) as [[a s']|e]; done. Qed.
Lemma wps_assoc {A B C} (m : M S A) (f : A → M S B) (g : B → M S C) s (Q : C → S → Prop) :
  wps E ((m ≫= f) ≫= g) s Q → wps E (m ≫= λ a, f a ≫= g) s Q.
Proof. unfold wps, mbind, M_bind. by destruct (m s) as [[a s']|e]. Qed.
Lemma wps_mono {A} (m : M S A) s (Q R : A → S → Prop) :
  wps E m s Q → (∀ a s, Q a s → R a s) → wps E m s R.
Proof. unfold wps. destruct (m s) as [[a s']|e]; eauto. Qed.
Lemma wps_and {A} (m : M S A) s (Q R : A → S → Prop) :
  wps E m s Q → wps E m s R → wps E m s (λ a s, Q a s ∧ R a s).
Proof. unfold wps. destruct (m s) as [[a s']|e]; eauto. Qed.
Lemma wps_gets {A} (f : S → A) s Q : Q (f s) s → wps E (gets f) s Q.
Proof. done. Qed.
Lemma wps_modify f s (Q : unit → S → Prop) : Q tt (f s) → wps E (modify f) s Q.
Proof. done. Qed.
Lemma wps_fail {A} e s (Q : A → S → Prop) : E e → wps E (fail e) s Q.
Proof. done. Qed.
Lemma wps_lift {A} (r : result A) s (Q : A → S → Prop) :
  (∀ a, r = Ok a → Q a s) → (∀ e, r = Err e → E e) → wps E (lift r) s Q.
Proof. unfold wps, lift. destruct r; eauto. Qed.
Lemma wps_lift_ok {A} (r : result A) a s (Q : A → S → Prop) :
  r = Ok a → Q a s → wps E (lift r) s Q.
Proof. by intros ->. Qed.
Lemma wps_assert b s (Q : unit → S → Prop) :
  (b = true → Q tt s) → (b = false → E AssertFail) → wps E (assert_ b) s Q.
Proof. destruct b; unfold wps; cbn; eauto. Qed.
Lemma wps_when b m s (Q : unit → S → Prop) :
  (b = true → wps E m s Q) → (b = false → Q tt s) → wps E (when b m) s Q.
Proof. destruct b; cbn; eauto. Qed.
Lemma wps_elim {A} (m : M S A) s Q a s' : wps E m s Q → m s = Ok (a, s') → Q a s'.
Proof. unfold wps. intros H E'. by rewrite E' in H. Qed.

(** A loop keeps an invariant that speaks of the elements still to come. *)
Lemma wps_fold {A B} (f : B → A → M S B) (I : list A → B → S → Prop) l b s :
  I l b s →
  (∀ a l b s, I (a :: l) b s → wps E (f b a) s (λ b s, I l b s)) →
  wps E (foldM f b l) s (λ b s, I [] b s).
Proof.
  intros H0 Hstep. revert b s H0. induction l as [|a l IH]; intros b s H0; cbn [foldM]; [done|].
  apply wps_bind. eapply wps_mono; [by apply Hstep|]. cbn. eauto.
Qed.
End rules.

(** A weaker demand on the failures. *)
Lemma wps_weaken {S A} (E E' : failure → Prop) (m : M S A) s Q :
  (∀ e, E e → E' e) → wps E m s Q → wps E' m s Q.
Proof. unfold wps. destruct (m s) as [[a s']|e]; eauto. Qed.

(** The result of code that cannot fail. *)
Lemma wps_never {S A} (m : M S A) s Q :
  wps never m s Q ↔ ∃ a s', m s = Ok (a, s') ∧ Q a s'.
Proof.
  unfold wps, never. split.
  - destruct (m s) as [[a s']|e]; [eauto|done].
  - intros (a & s' & E & H). by rewrite E.
Qed.

(** One step of symbolic execution. *)
Ltac wstep :=
  lazymatch goal with
  | |- wps _ (mbind _ _) _ _ => apply wps_bind
  | |- wps _ (mret _) _ _ => apply wps_ret
  | |- wps _ (gets _) _ _ => apply wps_gets
  | |- wps _ (modify _) _ _ => apply wps_modify
  | |- wps _ (when _ _) _ _ => apply wps_when; intros ?
  | |- wps _ (assert_ _) _ _ => apply wps_assert; intros ?
  | |- wps _ (fail _) _ _ => apply wps_fail
  | |- wps _ (let _ := _ in _) _ _ => cbv zeta
  | |- wps _ (if ?b then _ else _) _ _ => destruct b eqn:?
  | |- wps _ (match ?x with _ => _ end) _ _ => destruct x eqn:?
  end.
