(* ===== verification/TlbAtd.v ===== *)
(** Two users of the cache model: the TLBs ([parametric_dram_directory_msi/tlb.{h,cc}]),
    caches of pages where the second level is a victim cache of the first, and the
    auxiliary tag directories ([cache_atd.{h,cc}]), which replay the accesses of one
    core on some sets of a cache shared by several. *)
From S2P Require Import Prelude Utils BlockInfo AddressMap Replacement CacheModel.

(** [Core::mem_op_t] and [Core::lock_signal_t] of [core.h]. *)
Module Core.
Inductive mem_op_t := INVALID_MEM_OP | READ | READ_EX | WRITE.
Inductive lock_signal_t := INVALID_LOCK_SIGNAL | NONE | LOCK | UNLOCK.

#[global] Instance mem_op_eq_dec : EqDecision mem_op_t.
Proof. solve_decision. Defined.
#[global] Instance lock_signal_eq_dec : EqDecision lock_signal_t.
Proof. solve_decision. Defined.
End Core.

(** ** [tlb.{h,cc}] *)
Module TLB.
Definition SIM_PAGE_SHIFT : Z := 12.
Definition SIM_PAGE_SIZE : Z := Z.shiftl 1 SIM_PAGE_SHIFT.

(** [m_next_level] is a pointer: the TLBs of a memory manager live in a list, and the
    instruction and the data TLB point to the same second level. *)
Record t := mk {
  m_size : Z;                   (* UInt32 *)
  m_associativity : Z;          (* UInt32 *)
  m_cache : Cache.t LRU.t;
  m_next_level : option nat;
  m_access : Z;                 (* UInt64 *)
  m_miss : Z;                   (* UInt64 *)
}.

Definition new (num_entries associativity : Z) (next_level : option nat) : result t :=
  let! num_sets := udiv num_entries associativity in
  let! _ := check (u32 (num_sets * associativity) =? num_entries) AssertFail in
  let! c := Cache.new (Z.to_nat num_sets) (Z.to_nat associativity) (Z.to_nat SIM_PAGE_SIZE)
              CacheBase.HASH_MASK None false (new_info (Z.to_nat associativity) 1)
              (LRU.new (Z.to_nat associativity) 1) in
  Ok {| m_size := num_entries; m_associativity := associativity; m_cache := c;
        m_next_level := next_level; m_access := 0; m_miss := 0 |}.

Definition set_cache (x : t) (c : Cache.t LRU.t) : t :=
  {| m_size := m_size x; m_associativity := m_associativity x; m_cache := c;
     m_next_level := m_next_level x; m_access := m_access x; m_miss := m_miss x |}.
Definition count (x : t) (access miss : Z) : t :=
  {| m_size := m_size x; m_associativity := m_associativity x; m_cache := m_cache x;
     m_next_level := m_next_level x; m_access := u64 (m_access x + access); m_miss := u64 (m_miss x + miss) |}.

Abbreviation store := (list t).

(** [allocate] of TLB number [i]; the fuel bounds the number of levels. *)
Fixpoint allocate (fuel : nat) (i : nat) (address : Z) (s : store) : result store :=
  match fuel with
  | O => Err NoFuel
  | S fuel =>
      let! x := arr_get s i in
      let! (ev, evict_addr, c) := Cache.insertSingleLine None (m_cache x) address None CacheBlockInfo.empty false in
      let! s := arr_set s i (set_cache x c) in
      match CacheSet.eviction ev, m_next_level x with
      | true, Some n => allocate fuel n evict_addr s
      | _, _ => Ok s
      end
  end.

Fixpoint lookup (fuel : nat) (i : nat) (address : Z) (allocate_on_miss : bool) (s : store) : result (bool * store) :=
  match fuel with
  | O => Err NoFuel
  | S fuel' =>
      let! x := arr_get s i in
      let! (found, c) := Cache.accessSingleLine (m_cache x) address CacheBase.LOAD None 0 true in
      let x := count (set_cache x c) 1 0 in
      match found with
      | Some _ => let! s := arr_set s i x in Ok (true, s)
      | None =>
          let x := count x 0 1 in
          let! s := arr_set s i x in
          let! (hit, s) :=
            match m_next_level x with
            | Some n => lookup fuel' n address false s
            | None => Ok (false, s)
            end in
          if allocate_on_miss then let! s := allocate fuel i address s in Ok (hit, s) else Ok (hit, s)
      end
  end.
End TLB.

(** ** [cache_atd.{h,cc}] *)
Module ATD.
Record stats := mk_stats {
  loads : Z; stores : Z; load_misses : Z; store_misses : Z;
  loads_constructive : Z; stores_constructive : Z;
  loads_destructive : Z; stores_destructive : Z;
}.

Record t (P : Type) := mk {
  m_cache_base : CacheBase.t;
  m_sets : gmap Z (CacheSet.t P);
  m_set_info : CacheSetInfoLRU;
  counters : stats;
}.
Arguments mk {P} _ _ _ _.
Arguments m_cache_base {P} _.
Arguments m_sets {P} _.
Arguments m_set_info {P} _.
Arguments counters {P} _.

(** [configName + "/atd/sampling"] and its parameters. *)
Inductive sampling_t := Full | Powers | Random (seed count : Z) | Other.

Section ops.
Context {P : Type} `{Policy P}.

(** [for (set_index = 0; ...; ++set_index)], [n] sets from [set_index] on. *)
Fixpoint full_sets (s : CacheSet.t P) (set_index : Z) (n : nat) (m : gmap Z (CacheSet.t P)) : gmap Z (CacheSet.t P) :=
  match n with
  | O => m
  | S n => full_sets s (set_index + 1) n (<[set_index := s]> m)
  end.

(** [for (set_index = 1; set_index < num_sets - 1; set_index <<= 1)]; 64 iterations reach
    the width of the index, and the bound is an [UInt32]. *)
Fixpoint power_sets (fuel : nat) (s : CacheSet.t P) (bound set_index : Z) (m : gmap Z (CacheSet.t P)) :
    result (gmap Z (CacheSet.t P)) :=
  match fuel with
  | O => Err NoFuel
  | S fuel =>
      if set_index <? bound
      then power_sets fuel s bound (u64 (Z.shiftl set_index 1)) (<[u32 (set_index + 1) := s]> m)
      else Ok m
  end.

(** [while (num_atds)]: the number of attempts is bounded by an assertion. *)
Fixpoint random_sets (fuel : nat) (s : CacheSet.t P) (num_sets state num_atds num_attempts : Z)
    (m : gmap Z (CacheSet.t P)) : result (gmap Z (CacheSet.t P)) :=
  match fuel with
  | O => Err NoFuel
  | S fuel =>
      if num_atds =? 0 then Ok m
      else
        let (r, state) := rng_next state in
        let! set_index := umod r num_sets in
        let fresh := bool_decide (m !! set_index = None) in
        let m := if fresh then <[set_index := s]> m else m in
        let num_atds := if fresh then num_atds - 1 else num_atds in
        let num_attempts := u64 (num_attempts + 1) in
        let! _ := check (num_attempts <? u32 (10 * num_sets)) AssertFail in
        random_sets fuel s num_sets state num_atds num_attempts m
  end.

(** The constructor; [p] is the initial state of the replacement policy of a set. *)
Definition new (num_sets associativity cache_block_size : Z) (hash : CacheBase.hash_t) (sampling : sampling_t)
    (info : CacheSetInfoLRU) (p : P) : result (t P) :=
  let! base := CacheBase.new num_sets associativity cache_block_size hash None in
  let s := CacheSet.new false (Z.to_nat associativity) 0 p in
  let! m :=
    match sampling with
    | Full => Ok (full_sets s 0 (Z.to_nat num_sets) ∅)
    | Powers => power_sets 64 s (u32 (num_sets - 1)) 1 ∅
    | Random seed count =>
        let! _ := check (u64 count <=? num_sets) AssertFail in
        random_sets (S (Z.to_nat (u32 (10 * num_sets)))) s num_sets (rng_seed (u64 seed)) (u64 count) 0 ∅
    | Other => Err LogError
    end in
  Ok {| m_cache_base := base; m_sets := m; m_set_info := info; counters := mk_stats 0 0 0 0 0 0 0 0 |}.

Definition isSampledSet (a : t P) (set_index : Z) : bool := bool_decide (is_Some (m_sets a !! set_index)).

(** The counters of one access. *)
Definition count (c : stats) (write cache_hit atd_hit : bool) : stats :=
  let one (b : bool) (n : Z) : Z := if b then u64 (n + 1) else n in
  {| loads := one (negb write) (loads c);
     stores := one write (stores c);
     load_misses := one (negb write && negb atd_hit) (load_misses c);
     store_misses := one (write && negb atd_hit) (store_misses c);
     loads_constructive := one (negb write && cache_hit && negb atd_hit) (loads_constructive c);
     stores_constructive := one (write && cache_hit && negb atd_hit) (stores_constructive c);
     loads_destructive := one (negb write && negb cache_hit && atd_hit) (loads_destructive c);
     stores_destructive := one (write && negb cache_hit && atd_hit) (stores_destructive c) |}.

Definition access (a : t P) (mem_op_type : Core.mem_op_t) (cache_hit : bool) (address : Z) : result (t P) :=
  let! (tag, set_index) := CacheBase.splitAddress (m_cache_base a) address in
  match m_sets a !! set_index with
  | None => Ok a
  | Some s =>
      let! found := CacheSet.find s tag in
      let! (info, s) :=
        match found with
        | Some line_index => CacheSet.touch_line (m_set_info a) s line_index true
        | None =>
            let! (_, r) := CacheSet.insert None (m_set_info a) s
                             (CacheBlockInfo.new tag CacheState.MODIFIED 0) None CacheBlockInfo.empty false in
            Ok r
        end in
      Ok {| m_cache_base := m_cache_base a; m_sets := <[set_index := s]> (m_sets a); m_set_info := info;
            counters := count (counters a) (bool_decide (mem_op_type = Core.WRITE)) cache_hit
                          (bool_decide (is_Some found)) |}
  end.
End ops.
End ATD.
