(* ===== verification/Prefetchers.v ===== *)
(** The hardware prefetchers: [parametric_dram_directory_msi/prefetcher.{h,cc}],
    [simple_prefetcher.{h,cc}] (linear strides in several flows),
    [ghb_prefetcher.{h,cc}] (a global history buffer of address deltas) and
    [a53prefetcher.{h,cc}].  Each is an instance of [Memory.Prefetcher]. *)
From S2P Require Import Prelude Memory.

(** Conversion to a 64-bit signed integer. *)
Definition s64 (x : Z) : Z := (x + 2 ^ 63) `mod` 2 ^ 64 - 2 ^ 63.
Definition INT64_MAX : Z := 2 ^ 63 - 1.

(** [push_back] unless it is there already. *)
Definition push_new (l : list Z) (a : Z) : list Z := if bool_decide (a ∈ l) then l else l ++ [a].

(** ** [simple_prefetcher.{h,cc}] *)
Module SimplePrefetcher.
Definition PAGE_SIZE : Z := 4096.
Definition PAGE_MASK : Z := u64 (Z.lnot (PAGE_SIZE - 1)).

Record t := mk {
  core_id : Z;
  shared_cores : Z;
  n_flows : Z;                        (* UInt32 *)
  flows_per_core : bool;
  num_prefetches : Z;                 (* UInt32 *)
  stop_at_page : bool;
  n_flow_next : Z;                    (* UInt32 *)
  m_prev_address : list (list Z);     (* one list of flows, or one per core *)
}.

Definition new (_core_id _shared_cores flows : Z) (per_core : bool) (prefetches : Z) (stop : bool) : t :=
  {| core_id := _core_id; shared_cores := _shared_cores; n_flows := u32 flows; flows_per_core := per_core;
     num_prefetches := u32 prefetches; stop_at_page := stop; n_flow_next := 0;
     m_prev_address := replicate (if per_core then Z.to_nat _shared_cores else 1)
                                 (replicate (Z.to_nat (u32 flows)) 0) |}.

(** The distance of two addresses; [abs] is that of a 64-bit integer. *)
Definition distance (a b : Z) : Z := u64 (Z.abs (s64 (s64 a - s64 b))).

(** The search for the nearest previous address, from flow [i] on. *)
Fixpoint nearest (current_address : Z) (i n_flow min_dist : Z) (prev_address : list Z) : Z :=
  match prev_address with
  | [] => n_flow
  | a :: prev_address =>
      let dist := distance current_address a in
      if dist <? min_dist then nearest current_address (i + 1) i dist prev_address
      else nearest current_address (i + 1) n_flow min_dist prev_address
  end.

(** The prefetches number [i] and after, [n] of them. *)
Fixpoint strides (stop : bool) (current_address stride i : Z) (n : nat) : list Z :=
  match n with
  | O => []
  | S n =>
      let prefetch_address := u64 (current_address + u64 (i * stride)) in
      let rest := strides stop current_address stride (i + 1) n in
      if negb stop || (Z.land prefetch_address PAGE_MASK =? Z.land current_address PAGE_MASK)
      then prefetch_address :: rest else rest
  end.

Definition getNextAddress (p : t) (current_address _core_id : Z) : result (list Z * t) :=
  let idx := if flows_per_core p then _core_id - core_id p else 0 in
  let! _ := check (0 <=? idx) OutOfRange in
  let! prev_address := arr_get (m_prev_address p) (Z.to_nat idx) in
  let! next := umod (u32 (n_flow_next p + 1)) (n_flows p) in
  let n_flow := nearest current_address 0 (n_flow_next p) PAGE_SIZE prev_address in
  let! previous := arr_get prev_address (Z.to_nat n_flow) in
  let stride := u64 (current_address - previous) in
  let! flows := arr_set prev_address (Z.to_nat n_flow) current_address in
  let! all := arr_set (m_prev_address p) (Z.to_nat idx) flows in
  Ok (if negb (stride =? 0)
      then strides (stop_at_page p) current_address stride 0 (Z.to_nat (num_prefetches p)) else [],
      {| core_id := core_id p; shared_cores := shared_cores p; n_flows := n_flows p;
         flows_per_core := flows_per_core p; num_prefetches := num_prefetches p;
         stop_at_page := stop_at_page p; n_flow_next := next; m_prev_address := all |}).
End SimplePrefetcher.

#[export] Instance simple_prefetcher : Prefetcher SimplePrefetcher.t := SimplePrefetcher.getNextAddress.

(** ** [ghb_prefetcher.{h,cc}] *)
Module GhbPrefetcher.
Definition INVALID_DELTA : Z := INT64_MAX.
Definition INVALID_INDEX : Z := UINT32_MAX.

Record GHBEntry := mk_ghb { nextIndex : Z; delta : Z; generation : Z }.
Record TableEntry := mk_table { ghbIndex : Z; t_delta : Z; t_generation : Z }.

Record t := mk {
  m_prefetchWidth : Z;
  m_prefetchDepth : Z;
  m_lastAddress : Z;
  m_ghbSize : Z;
  m_ghbHead : Z;
  m_generation : Z;
  m_ghb : list GHBEntry;
  m_tableSize : Z;
  m_tableHead : Z;
  m_ghbTable : list TableEntry;
}.

Definition new (width depth ghb_size ghb_table_size : Z) : t :=
  {| m_prefetchWidth := u32 width; m_prefetchDepth := u32 depth; m_lastAddress := INVALID_ADDRESS;
     m_ghbSize := u32 ghb_size; m_ghbHead := 0; m_generation := 0;
     m_ghb := replicate (Z.to_nat (u32 ghb_size)) (mk_ghb INVALID_INDEX INVALID_DELTA 0);
     m_tableSize := u32 ghb_table_size; m_tableHead := 0;
     m_ghbTable := replicate (Z.to_nat (u32 ghb_table_size)) (mk_table INVALID_INDEX INVALID_DELTA 0) |}.

Definition set_last (p : t) (a : Z) : t :=
  mk (m_prefetchWidth p) (m_prefetchDepth p) a (m_ghbSize p) (m_ghbHead p) (m_generation p) (m_ghb p)
     (m_tableSize p) (m_tableHead p) (m_ghbTable p).
Definition set_ghb (p : t) (l : list GHBEntry) : t :=
  mk (m_prefetchWidth p) (m_prefetchDepth p) (m_lastAddress p) (m_ghbSize p) (m_ghbHead p) (m_generation p) l
     (m_tableSize p) (m_tableHead p) (m_ghbTable p).
Definition set_table (p : t) (head : Z) (l : list TableEntry) : t :=
  mk (m_prefetchWidth p) (m_prefetchDepth p) (m_lastAddress p) (m_ghbSize p) (m_ghbHead p) (m_generation p) (m_ghb p)
     (m_tableSize p) head l.
Definition set_head (p : t) (head gen : Z) : t :=
  mk (m_prefetchWidth p) (m_prefetchDepth p) (m_lastAddress p) (m_ghbSize p) head gen (m_ghb p)
     (m_tableSize p) (m_tableHead p) (m_ghbTable p).

Definition ghb_at (p : t) (i : Z) : result GHBEntry := arr_get (m_ghb p) (Z.to_nat i).

(** [while (i < m_tableSize && table[i].delta != INVALID_DELTA && table[i].delta != delta) ++i;] *)
Fixpoint find_delta (d : Z) (i : Z) (l : list TableEntry) : Z :=
  match l with
  | [] => i
  | e :: l =>
      if negb (t_delta e =? INVALID_DELTA) && negb (t_delta e =? d) then find_delta d (i + 1) l else i
  end.

(** The entry of the table for a delta: [i != m_tableSize && m_ghbTable[i].delta == delta]. *)
Definition lookup_delta (p : t) (d : Z) : result (option (Z * TableEntry)) :=
  let i := find_delta d 0 (m_ghbTable p) in
  if i =? m_tableSize p then Ok None
  else let! e := arr_get (m_ghbTable p) (Z.to_nat i) in
       Ok (if t_delta e =? d then Some (i, e) else None).

(** The inner loop, at depth [depth] with [n] iterations left. *)
Fixpoint walk_depth (p : t) (ghbIndex newAddress depth : Z) (n : nat) (prefetchList : list Z) : result (list Z) :=
  match n with
  | O => Ok prefetchList
  | S n =>
      let! k := umod (u32 (ghbIndex + depth)) (m_ghbSize p) in
      let! e := ghb_at p k in
      if delta e =? INVALID_DELTA then Ok prefetchList
      else
        let newAddress := u64 (newAddress + delta e) in
        walk_depth p ghbIndex newAddress (depth + 1) n (push_new prefetchList newAddress)
  end.

(** The outer loop, with [n] iterations left. *)
Fixpoint walk_width (p : t) (currentAddress ghbIndex : Z) (n : nat) (prefetchList : list Z) : result (list Z) :=
  match n with
  | O => Ok prefetchList
  | S n =>
      if ghbIndex =? INVALID_INDEX then Ok prefetchList
      else
        let! prefetchList := walk_depth p ghbIndex currentAddress 0 (Z.to_nat (m_prefetchDepth p)) prefetchList in
        let! e := ghb_at p ghbIndex in
        let next := nextIndex e in
        walk_width p currentAddress
          (if ((ghbIndex <? next) || (m_ghbHead p <? ghbIndex)) && (next <? m_ghbHead p) then INVALID_INDEX else next)
          n prefetchList
  end.

(** The addresses predicted for a delta. *)
Definition predict (p : t) (currentAddress d : Z) : result (list Z) :=
  let! found := lookup_delta p d in
  match found with
  | None => Ok []
  | Some (_, e) =>
      let! g := ghb_at p (ghbIndex e) in
      if t_generation e =? generation g
      then walk_width p currentAddress (ghbIndex e) (Z.to_nat (m_prefetchWidth p)) []
      else Ok []
  end.

(** The new delta enters the buffer, and the table for the delta before it. *)
Definition record_delta (p : t) (d : Z) : result t :=
  let! l := arr_set (m_ghb p) (Z.to_nat (m_ghbHead p)) (mk_ghb INVALID_INDEX d (m_generation p)) in
  let p := set_ghb p l in
  let prevHead := if m_ghbHead p >? 0 then m_ghbHead p - 1 else u32 (m_ghbSize p - 1) in
  let! previous := ghb_at p prevHead in
  let prevDelta := delta previous in
  let! p :=
    if prevDelta =? INVALID_DELTA then Ok p
    else
      let! found := lookup_delta p prevDelta in
      match found with
      | Some (i, e) =>
          let! g := ghb_at p (ghbIndex e) in
          let! l := arr_set (m_ghb p) (Z.to_nat (m_ghbHead p))
                      (mk_ghb (if t_generation e =? generation g then ghbIndex e else INVALID_INDEX) d (m_generation p)) in
          let! tb := arr_set (m_ghbTable p) (Z.to_nat i) (mk_table (m_ghbHead p) (t_delta e) (m_generation p)) in
          Ok (set_table (set_ghb p l) (m_tableHead p) tb)
      | None =>
          let! tb := arr_set (m_ghbTable p) (Z.to_nat (m_tableHead p)) (mk_table (m_ghbHead p) prevDelta (m_generation p)) in
          let! head := umod (u32 (m_tableHead p + 1)) (m_tableSize p) in
          Ok (set_table p head tb)
      end in
  let head := u32 (m_ghbHead p + 1) in
  Ok (if head =? m_ghbSize p then set_head p 0 (u32 (m_generation p + 1) `mod` 4)
      else set_head p head (m_generation p)).

Definition getNextAddress (p : t) (currentAddress core_id : Z) : result (list Z * t) :=
  if m_lastAddress p =? INVALID_ADDRESS then Ok ([], set_last p currentAddress)
  else
    let d := s64 (currentAddress - m_lastAddress p) in
    let p := set_last p currentAddress in
    let! prefetchList := predict p currentAddress d in
    let! p := record_delta p d in
    Ok (prefetchList, p).
End GhbPrefetcher.

#[export] Instance ghb_prefetcher : Prefetcher GhbPrefetcher.t := GhbPrefetcher.getNextAddress.

(** ** [a53prefetcher.{h,cc}] *)
Module A53Prefetcher.
Record t := mk {
  m_cacheLineSize : Z;                    (* unsigned int *)
  m_patternLength : Z;                    (* unsigned int *)
  m_consecutivePatternLength : Z;         (* unsigned int *)
  m_numPrefetches : Z;                    (* unsigned int *)
  prevAddress : option Z;                 (* None while firstAddress *)
  stride : Z;                             (* intptr_t *)
  currentPatternLength : Z;               (* unsigned int *)
  currentConsecutivePatternLength : Z;    (* unsigned int *)
}.

Definition new (cache_block_size pattern_length consecutive_pattern_length num_prefetches : Z) : t :=
  {| m_cacheLineSize := u32 cache_block_size; m_patternLength := u32 (pattern_length - 1);
     m_consecutivePatternLength := u32 (consecutive_pattern_length - 1);
     m_numPrefetches := u32 num_prefetches; prevAddress := None; stride := 0;
     currentPatternLength := 0; currentConsecutivePatternLength := 0 |}.

Definition myAbs (a : Z) : Z := s64 (Z.abs a).

Definition set (p : t) (prev stride_ pattern consecutive : Z) : t :=
  {| m_cacheLineSize := m_cacheLineSize p; m_patternLength := m_patternLength p;
     m_consecutivePatternLength := m_consecutivePatternLength p; m_numPrefetches := m_numPrefetches p;
     prevAddress := Some prev; stride := stride_; currentPatternLength := pattern;
     currentConsecutivePatternLength := consecutive |}.

(** [for (i = 1; i <= m_numPrefetches; ++i)], at [i] with [n] iterations left. *)
Fixpoint ahead (currentAddress : Z) (step : Z → Z) (i : Z) (n : nat) : list Z :=
  match n with
  | O => []
  | S n => u64 (currentAddress + step i) :: ahead currentAddress step (i + 1) n
  end.

(** The loop does not end when [m_numPrefetches] is the largest unsigned int. *)
Definition getNextAddress (p : t) (currentAddress core_id : Z) : result (list Z * t) :=
  match prevAddress p with
  | None => Ok ([], set p currentAddress (stride p) (currentPatternLength p) (currentConsecutivePatternLength p))
  | Some prev =>
      let dist := s64 (currentAddress - prev) in
      let n := Z.to_nat (m_numPrefetches p) in
      if dist =? 0 then
        Ok ([], set p currentAddress (stride p) (currentPatternLength p) (currentConsecutivePatternLength p))
      else if myAbs dist =? m_cacheLineSize p then
        let len := if dist =? stride p then u32 (currentConsecutivePatternLength p + 1) else 1 in
        Ok (if m_consecutivePatternLength p <=? len
            then ahead currentAddress (λ i, u32 (m_cacheLineSize p * i)) 1 n else [],
            set p currentAddress dist (currentPatternLength p) len)
      else
        let len := if dist =? stride p then u32 (currentPatternLength p + 1) else 1 in
        Ok (if m_patternLength p <=? len
            then ahead currentAddress (λ i, s64 (dist * i)) 1 n else [],
            set p currentAddress dist len (currentConsecutivePatternLength p))
  end.
End A53Prefetcher.

#[export] Instance a53_prefetcher : Prefetcher A53Prefetcher.t := A53Prefetcher.getNextAddress.

(** ** [Prefetcher::createPrefetcher] *)
Module AnyPrefetcher.
Inductive t := Simple (p : SimplePrefetcher.t) | Ghb (p : GhbPrefetcher.t) | A53 (p : A53Prefetcher.t).

(** The objects that the constructors would build are given by the caller. *)
Definition createPrefetcher (type : string) (simple : SimplePrefetcher.t) (ghb : GhbPrefetcher.t)
    (a53 : A53Prefetcher.t) : result (option t) :=
  if bool_decide (type = "none"%string) then Ok None
  else if bool_decide (type = "simple"%string) then Ok (Some (Simple simple))
  else if bool_decide (type = "ghb"%string) then Ok (Some (Ghb ghb))
  else if bool_decide (type = "a53prefetcher"%string) then Ok (Some (A53 a53))
  else Err LogError.

(** The dispatch of the virtual call. *)
Definition getNextAddress (p : t) (current_address core_id : Z) : result (list Z * t) :=
  match p with
  | Simple p => let! (l, p) := getNextAddress p current_address core_id in Ok (l, Simple p)
  | Ghb p => let! (l, p) := getNextAddress p current_address core_id in Ok (l, Ghb p)
  | A53 p => let! (l, p) := getNextAddress p current_address core_id in Ok (l, A53 p)
  end.
End AnyPrefetcher.

#[export] Instance any_prefetcher : Prefetcher AnyPrefetcher.t := AnyPrefetcher.getNextAddress.
