(* ===== verification/CacheLines.v ===== *)
(** A cache seen as a map from block numbers to blocks, for clients that care about
    lines and not about sets, ways or replacement: the operations of [CacheModel.Cache]
    in terms of [line], for any replacement policy.  [lines_wf] is the part of
    [CacheModel.cache_wf] that no policy can break. *)
From S2P Require Import Prelude Utils BlockInfo AddressMap Replacement CacheModel.

Section lines.
Context {P : Type} `{Policy P}.
Import Cache.
Implicit Types (c : Cache.t P) (l : loc) (t : Z) (b : CacheBlockInfo.t).

Abbreviation array := CacheSet.m_cache_block_info_array.

(** ** Definitions *)

(** The arrays of a set have their sizes, and its valid tags are unique. *)
Definition set_shape (g : config) (s : CacheSet.t P) : Prop :=
  length (array s) = cfg_assoc g ∧ CacheSet.m_associativity s = cfg_assoc g ∧
  CacheSet.m_blocksize s = Z.to_nat (cfg_block g) ∧ unique_tags (array s) ∧
  (∀ d, CacheSet.m_blocks s = Some d → length d = (cfg_assoc g * Z.to_nat (cfg_block g))%nat).

Definition placed c t (i : nat) : Prop := CacheBase.set_index_of (base c) t = Ok (Z.of_nat i).

Definition lines_wf (g : config) c : Prop :=
  config_ok g ∧
  CacheBase.new (cfg_sets g) (Z.of_nat (cfg_assoc g)) (cfg_block g) (cfg_hash g) None = Ok (base c) ∧
  Z.of_nat (length (m_sets c)) = cfg_sets g ∧
  ∀ i s, m_sets c !! i = Some s →
    set_shape g s ∧ ∀ b, b ∈ array s → CacheBlockInfo.isValid b = true → placed c (CacheBlockInfo.m_tag b) i.

(** The block with a given number, if the cache holds it. *)
Definition line c t : option CacheBlockInfo.t :=
  match CacheBase.set_index_of (base c) t with
  | Ok i => s ← m_sets c !! Z.to_nat i; contents (array s) !! t
  | Err _ => None
  end.

(** What a [CacheBlockInfo*] points to. *)
Definition block_at c l : option CacheBlockInfo.t := s ← m_sets c !! fst l; array s !! snd l.

Definition points c l t b : Prop := block_at c l = Some b ∧ CacheBlockInfo.m_tag b = t ∧ t ≠ CacheBlockInfo.INVALID_TAG.

(** ** Blocks and lines *)

Lemma block_at_Some c l b :
  block_at c l = Some b ↔ ∃ s, m_sets c !! fst l = Some s ∧ array s !! snd l = Some b.
Proof. unfold block_at. destruct (m_sets c !! fst l) as [s|]; cbn; naive_solver. Qed.

Lemma line_placed c t i s : placed c t i → m_sets c !! i = Some s → line c t = contents (array s) !! t.
Proof. unfold line, placed. intros -> Hs. rewrite Nat2Z.id, Hs. done. Qed.

Lemma points_placed g c l t b : lines_wf g c → points c l t b → placed c t (fst l).
Proof.
  intros (_ & _ & _ & Hw) (Hb & <- & Hv). apply block_at_Some in Hb as (s & Hs & Hb).
  destruct (Hw _ _ Hs) as [_ Hp]. apply Hp; [by eapply list_elem_of_lookup_2|by apply isValid_tag].
Qed.

Lemma points_line g c l t b : lines_wf g c → points c l t b → line c t = Some b.
Proof.
  intros Hwf Hp. pose proof (points_placed _ _ _ _ _ Hwf Hp) as Hpl. destruct Hp as (Hb & <- & Hv).
  apply block_at_Some in Hb as (s & Hs & Hb). rewrite (line_placed c _ _ s Hpl Hs).
  destruct Hwf as (_ & _ & _ & Hw). destruct (Hw _ _ Hs) as [(_ & _ & _ & Hu & _) _].
  apply contents_lookup; [done|]. split; [by eapply list_elem_of_lookup_2|done].
Qed.

Lemma line_points g c t b : lines_wf g c → line c t = Some b → ∃ l, points c l t b ∧ placed c t (fst l).
Proof.
  intros (_ & _ & _ & Hw). unfold line. destruct (CacheBase.set_index_of (base c) t) as [i|] eqn:Ei; [|done].
  destruct (m_sets c !! Z.to_nat i) as [s|] eqn:Es; [|done]. cbn. intros Hb.
  destruct (Hw _ _ Es) as [(_ & _ & _ & Hu & _) Hp]. apply contents_lookup in Hb as (Hin & Et & Hne); [|done].
  apply list_elem_of_lookup in Hin as [w Hin]. exists (Z.to_nat i, w).
  assert (points c (Z.to_nat i, w) t b) as Hpt.
  { split; [|done]. apply block_at_Some. exists s. done. }
  split; [done|]. subst t. cbn. apply Hp; [by eapply list_elem_of_lookup_2|by apply isValid_tag].
Qed.

Lemma line_tag g c t b : lines_wf g c → line c t = Some b → CacheBlockInfo.m_tag b = t.
Proof. intros Hwf (l & (_ & ? & _) & _)%(line_points g); done. Qed.

Lemma line_range g c t b : lines_wf g c → line c t = Some b → t ≠ CacheBlockInfo.INVALID_TAG.
Proof. intros Hwf (l & (_ & _ & ?) & _)%(line_points g); done. Qed.

(** A line is in one place. *)
Lemma points_unique g c l l' t b b' : lines_wf g c → points c l t b → points c l' t b' → l = l'.
Proof.
  intros Hwf Hp Hp'. pose proof (points_placed _ _ _ _ _ Hwf Hp) as H1. pose proof (points_placed _ _ _ _ _ Hwf Hp') as H2.
  unfold placed in *. rewrite H1 in H2. injection H2 as H2. apply Nat2Z.inj in H2.
  destruct Hp as (Hb & Et & Hv), Hp' as (Hb' & Et' & _).
  apply block_at_Some in Hb as (s & Hs & Hb). apply block_at_Some in Hb' as (s' & Hs' & Hb').
  rewrite H2 in Hs. rewrite Hs in Hs'. injection Hs' as <-.
  destruct Hwf as (_ & _ & _ & Hw). destruct (Hw _ _ Hs) as [(_ & _ & _ & Hu & _) _].
  destruct l as [i w], l' as [i' w']. cbn in *. subst i'. f_equal.
  destruct (decide (w = w')) as [|Hne]; [done|exfalso].
  destruct (insert_Permutation (array s) w b b Hb) as (rest & Hperm & _).
  assert (b' ∈ rest) as Hin.
  { assert (array s !! w' = Some b') as H3 by done.
    assert (b' ∈ delete w (array s)) as H4.
    { apply list_elem_of_lookup. destruct (decide (w' < w)%nat).
      - exists w'. by rewrite list_lookup_delete_lt.
      - exists (w' - 1)%nat. rewrite list_lookup_delete_ge by lia. by replace (S (w' - 1)) with w' by lia. }
    assert (delete w (array s) ≡ₚ rest) as H5.
    { apply (Permutation_cons_inv (a := b)). by rewrite <- Hperm, <- delete_Permutation. }
    by rewrite <- H5. }
  destruct (contents_Permutation _ _ Hperm Hu) as [_ Hu']. apply unique_cons in Hu' as [Hnone Hu'].
  specialize (Hnone (proj2 (isValid_tag b) ltac:(congruence))).
  assert (contents rest !! CacheBlockInfo.m_tag b = Some b') as Hs2.
  { apply contents_lookup; [done|]. split; [done|]. split; [congruence|congruence]. }
  congruence.
Qed.

(** ** Replacing a set *)

(** A set whose blocks stay: nothing changes for lines. *)
Lemma set_state_same g c i s s' info :
  lines_wf g c → m_sets c !! i = Some s → array s' = array s → set_shape g s' →
  ∃ c', set_state c i (info, s') = Ok c' ∧ lines_wf g c' ∧ base c' = base c ∧
    (∀ t, line c' t = line c t) ∧ ∀ l, block_at c' l = block_at c l.
Proof.
  intros Hwf Hs Ea Hsh. pose proof Hwf as (Hg & Hnew & Hlen & Hw). unfold set_state, arr_set. cbn [snd fst].
  rewrite Hs. cbn [rbind]. eexists. split; [done|].
  assert (∀ t, line (mk (base c) (m_enabled c) (m_num_accesses c) (m_num_hits c) (<[i:=s']> (m_sets c)) info) t = line c t) as Hline.
  { intros t. unfold line. cbn. destruct (CacheBase.set_index_of (base c) t) as [j|]; [|done].
    destruct (decide (Z.to_nat j = i)) as [->|Hne].
    - rewrite list_lookup_insert_eq by (by eapply lookup_lt_Some). rewrite Hs. cbn. by rewrite Ea.
    - by rewrite list_lookup_insert_ne. }
  split; [|split; [done|split; [exact Hline|]]].
  - split; [done|]. split; [done|]. cbn. split; [by rewrite length_insert|].
    intros j sj Hj. apply list_lookup_insert_Some in Hj as [(<- & <- & _)|(Hne & Hj)]; [|by apply Hw].
    split; [done|]. rewrite Ea. by apply (Hw i s).
  - intros [j w]. unfold block_at. cbn. destruct (decide (j = i)) as [->|Hne].
    + rewrite list_lookup_insert_eq by (by eapply lookup_lt_Some). rewrite Hs. cbn. by rewrite Ea.
    + by rewrite list_lookup_insert_ne.
Qed.

(** A block that is replaced: its line leaves, that of the new one enters. *)
Lemma set_state_block g c l old new s s' info :
  lines_wf g c → m_sets c !! fst l = Some s → array s !! snd l = Some old →
  array s' = <[snd l := new]> (array s) → set_shape g (CacheSet.set_array s' (array s)) →
  (CacheBlockInfo.isValid new = true → placed c (CacheBlockInfo.m_tag new) (fst l) ∧
     (CacheBlockInfo.m_tag new = CacheBlockInfo.m_tag old ∨ line c (CacheBlockInfo.m_tag new) = None)) →
  ∃ c', set_state c (fst l) (info, s') = Ok c' ∧ lines_wf g c' ∧ base c' = base c ∧
    (∀ t, line c' t = if CacheBlockInfo.isValid new && (t =? CacheBlockInfo.m_tag new) then Some new
                      else if t =? CacheBlockInfo.m_tag old then None else line c t) ∧
    ∀ l', block_at c' l' = if decide (l' = l) then Some new else block_at c l'.
Proof.
  destruct l as [i w]. cbn [fst snd]. intros Hwf Hs Hold Ea Hsh Hnew0.
  pose proof Hwf as (Hg & Hnew & Hlen & Hw). destruct (Hw _ _ Hs) as [(Hl & Has & Hbs & Hu & Hd) Hpl].
  assert (CacheBlockInfo.isValid old = true → placed c (CacheBlockInfo.m_tag old) i) as Hpo.
  { intros Hv. apply Hpl; [by eapply list_elem_of_lookup_2|done]. }
  assert (CacheBlockInfo.isValid new = true → contents (array s) !! CacheBlockInfo.m_tag new = None ∨
            CacheBlockInfo.m_tag new = CacheBlockInfo.m_tag old) as Hnone.
  { intros Hv. destruct (Hnew0 Hv) as [Hp [?|Hn]]; [by right|left]. by rewrite <- (line_placed c _ _ s Hp Hs). }
  destruct (contents_update (array s) w old new Hold Hu) as [Hu' Ec].
  { intros Hv. rewrite lookup_delete_None. destruct (Hnone Hv) as [|]; [by right|by left]. }
  unfold set_state, arr_set. cbn [snd fst]. rewrite Hs. cbn [rbind]. eexists. split; [done|].
  assert (i < length (m_sets c))%nat as Hi by (by eapply lookup_lt_Some).
  set (c' := mk (base c) (m_enabled c) (m_num_accesses c) (m_num_hits c) (<[i:=s']> (m_sets c)) info).
  split; [|split; [done|split]].
  - split; [done|]. split; [done|]. cbn. split; [by rewrite length_insert|].
    intros j sj Hj. apply list_lookup_insert_Some in Hj as [(<- & <- & _)|(Hne & Hj)]; [|by apply Hw].
    destruct Hsh as (_ & Has' & Hbs' & _ & Hd'). split.
    + split; [by rewrite Ea, length_insert|]. split; [exact Has'|]. split; [exact Hbs'|]. split; [by rewrite Ea|exact Hd'].
    + intros b Hb Hv. rewrite Ea in Hb. apply list_elem_of_lookup in Hb as [k Hk].
      apply list_lookup_insert_Some in Hk as [(<- & <- & _)|(Hne & Hk)]; [by apply Hnew0|].
      apply Hpl; [by eapply list_elem_of_lookup_2|done].
  - intros t. unfold line. cbn.
    destruct (CacheBase.set_index_of (base c) t) as [j|] eqn:Ej.
    + destruct (decide (Z.to_nat j = i)) as [E|Hne].
      * rewrite E, list_lookup_insert_eq, Hs by done. cbn. rewrite Ea, Ec.
        destruct (CacheBlockInfo.isValid new) eqn:Hv; cbn [andb id].
        -- destruct (Z.eqb_spec t (CacheBlockInfo.m_tag new)) as [->|Hne]; [by rewrite lookup_insert_eq|].
           rewrite lookup_insert_ne by done. destruct (Z.eqb_spec t (CacheBlockInfo.m_tag old)) as [->|Hne'].
           ++ by rewrite lookup_delete_eq.
           ++ by rewrite lookup_delete_ne.
        -- destruct (Z.eqb_spec t (CacheBlockInfo.m_tag old)) as [->|Hne'].
           ++ by rewrite lookup_delete_eq.
           ++ by rewrite lookup_delete_ne.
      * rewrite list_lookup_insert_ne by done.
        destruct (CacheBlockInfo.isValid new) eqn:Hv; cbn [andb];
          [destruct (Z.eqb_spec t (CacheBlockInfo.m_tag new)) as [->|_]|].
        { destruct (Hnew0 eq_refl) as [Hp _]. unfold placed in Hp. rewrite Hp in Ej. injection Ej as <-.
          by rewrite Nat2Z.id in Hne. }
        all: destruct (Z.eqb_spec t (CacheBlockInfo.m_tag old)) as [->|_]; [|done].
        all: destruct (CacheBlockInfo.isValid old) eqn:Ho.
        1, 3: specialize (Hpo eq_refl); unfold placed in Hpo; rewrite Hpo in Ej; injection Ej as <-;
              by rewrite Nat2Z.id in Hne.
        all: unfold CacheBlockInfo.isValid in Ho; apply negb_false_iff, Z.eqb_eq in Ho; rewrite Ho.
        all: destruct (m_sets c !! Z.to_nat j) as [sj|]; [|done]; apply contents_invalid.
    + destruct (CacheBlockInfo.isValid new) eqn:Hv; cbn [andb];
        [destruct (Z.eqb_spec t (CacheBlockInfo.m_tag new)) as [->|_]|].
      { destruct (Hnew0 eq_refl) as [Hp _]. unfold placed in Hp. by rewrite Hp in Ej. }
      all: by destruct (t =? CacheBlockInfo.m_tag old).
  - intros [j k]. unfold block_at. cbn [c' m_sets fst snd]. destruct (decide (j = i)) as [->|Hne].
    + rewrite list_lookup_insert_eq, Hs by done. cbn. rewrite Ea.
      case_decide as E.
      * injection E as ->. rewrite list_lookup_insert_eq; [done|]. eapply lookup_lt_Some. exact Hold.
      * rewrite list_lookup_insert_ne by congruence. done.
    + rewrite list_lookup_insert_ne by done. by rewrite decide_False by congruence.
Qed.

(** ** The operations *)

(** The set that an address selects in a well-formed cache. *)
Lemma split_line g c addr :
  lines_wf g c → in_u64 addr →
  ∃ i s, CacheBase.splitAddress (base c) addr = Ok (block_of g addr, Z.of_nat i) ∧
    placed c (block_of g addr) i ∧ m_sets c !! i = Some s ∧ set_shape g s.
Proof.
  intros ((Hn & Hb & Hh & _) & Hnew & Hlen & Hw) Ha.
  destruct (splitAddress_total _ _ _ _ _ addr Hnew Hn ltac:(lia) Ha Hh) as (i & E & Ei & _ & Hi).
  destruct (lookup_lt_is_Some_2 (m_sets c) (Z.to_nat i)) as [s Hs]; [lia|].
  exists (Z.to_nat i), s. unfold placed. rewrite Z2Nat.id by lia. split_and!; try done. by apply (Hw _ _ Hs).
Qed.

Lemma find_line g c i s t :
  lines_wf g c → placed c t i → m_sets c !! i = Some s → t ≠ CacheBlockInfo.INVALID_TAG →
  ∃ r, CacheSet.find s t = Ok r ∧
    match r with
    | Some w => (w < cfg_assoc g)%nat ∧ ∃ b, array s !! w = Some b ∧ points c (i, w) t b ∧ line c t = Some b
    | None => line c t = None
    end.
Proof.
  intros Hwf Hp Hs Hne. pose proof Hwf as (_ & _ & _ & Hw). destruct (Hw _ _ Hs) as [(Hl & Has & _ & Hu & _) Hpl].
  destruct (find_from_spec (array s) t (CacheSet.m_associativity s)) as (r & E & Hr); [lia|].
  exists r. split; [done|]. destruct r as [w|].
  - destruct Hr as (Hi & b & Hb & Et). split; [lia|].
    assert (points c (i, w) t b) as Hpt.
    { split; [|done]. apply block_at_Some. exists s. done. }
    exists b. split; [done|]. split; [done|]. by apply (points_line g) in Hpt.
  - rewrite (line_placed c t i s Hp Hs). apply eq_None_not_Some. intros [b Hb].
    apply contents_lookup in Hb as (Hin & Et & _); [|done]. apply list_elem_of_lookup in Hin as [k Hk].
    apply (Hr k b); [|done|done]. rewrite Has, <- Hl. by eapply lookup_lt_Some.
Qed.

Lemma peek_spec g c addr :
  lines_wf g c → in_u64 addr →
  ∃ r, peekSingleLine c addr = Ok r ∧
    match r with
    | Some l => ∃ b, points c l (block_of g addr) b ∧ line c (block_of g addr) = Some b
    | None => line c (block_of g addr) = None
    end.
Proof.
  intros Hwf Ha. destruct (split_line g c addr Hwf Ha) as (i & s & E & Hp & Hs & _).
  destruct (block_of_range g addr (proj1 Hwf) Ha) as [_ Hne].
  destruct (find_line g c i s _ Hwf Hp Hs Hne) as (r & Er & Hr).
  unfold peekSingleLine. rewrite E. cbn [rbind]. rewrite Nat2Z.id. unfold arr_get. rewrite Hs. cbn [rbind].
  rewrite Er. cbn [rbind]. eexists. split; [done|]. destruct r as [w|]; cbn; [|done].
  destruct Hr as (_ & b & _ & Hpt & Hl). eauto.
Qed.

Lemma peekBlock_at c l b : block_at c l = Some b → peekBlock c l = Ok b.
Proof.
  intros (s & Hs & Hb)%block_at_Some. unfold peekBlock, arr_get. rewrite Hs. cbn [rbind].
  unfold CacheSet.peekBlock, arr_get. by rewrite Hb.
Qed.

(** A change of the fields of a block other than its tag. *)
Lemma updateBlock_spec g c l t b f :
  lines_wf g c → points c l t b → CacheBlockInfo.m_tag (f b) = t →
  ∃ c', updateBlock c l f = Ok c' ∧ lines_wf g c' ∧ base c' = base c ∧
    (∀ t', line c' t' = if t' =? t then Some (f b) else line c t') ∧
    (∀ l', block_at c' l' = if decide (l' = l) then Some (f b) else block_at c l').
Proof.
  intros Hwf Hp Ht. pose proof (points_placed _ _ _ _ _ Hwf Hp) as Hpl. destruct Hp as (Hb & Et & Hv).
  apply block_at_Some in Hb as (s & Hs & Hb). unfold updateBlock. unfold arr_get. rewrite Hs. cbn [rbind].
  unfold CacheSet.peekBlock, arr_get, arr_set. rewrite Hb. cbn [rbind].
  destruct (set_state_block g c l b (f b) s (CacheSet.set_array s (<[snd l:=f b]> (array s))) (m_set_info c) Hwf Hs Hb)
    as (c' & E & Hwf' & Eb & Hl & Hat); [done| | |].
  - destruct Hwf as (_ & _ & _ & Hw). apply (Hw _ _ Hs).
  - intros _. rewrite Ht. split; [done|by left].
  - exists c'. rewrite E. split_and!; try done. intros t'. rewrite Hl, Ht, Et.
    rewrite (proj2 (isValid_tag (f b))) by congruence. cbn [andb]. by destruct (t' =? t).
Qed.


(** A change of other fields than the tag and the state, of any block. *)
Definition shape (b : CacheBlockInfo.t) := (CacheBlockInfo.m_tag b, CacheBlockInfo.m_cstate b).

Lemma updateBlock_keep g c l f c' :
  lines_wf g c → (∀ b, shape (f b) = shape b) → updateBlock c l f = Ok c' →
  lines_wf g c' ∧ base c' = base c ∧
  (∀ t, line c' t = line c t ∨ ∃ b, points c l t b ∧ line c' t = Some (f b)) ∧
  (∀ l', shape <$> block_at c' l' = shape <$> block_at c l').
Proof.
  intros Hwf Hf E. unfold updateBlock in E. apply rbind_ok in E as (s & Hs%arr_get_ok & E).
  apply rbind_ok in E as (b & Hb%arr_get_ok & E). apply rbind_ok in E as (l2 & [Hlen ->]%arr_set_ok & E).
  pose proof (Hf b) as Eb. injection Eb as Et Ec.
  pose proof Hwf as (_ & _ & _ & Hw). destruct (Hw _ _ Hs) as [Hsh Hpl].
  assert (CacheBlockInfo.isValid (f b) = CacheBlockInfo.isValid b) as Hv by (unfold CacheBlockInfo.isValid; by rewrite Et).
  destruct (set_state_block g c l b (f b) s (CacheSet.set_array s (<[snd l:=f b]> (array s))) (m_set_info c) Hwf Hs Hb)
    as (c2 & E2 & Hwf' & Eb & Hl & Hat); [done|done| |].
  { intros Hvf. rewrite Et. split; [|by left]. apply Hpl; [by eapply list_elem_of_lookup_2|congruence]. }
  rewrite E2 in E. injection E as <-. split_and!; [done|done| |].
  - intros t. rewrite Hl, Hv, Et. destruct (Z.eqb_spec t (CacheBlockInfo.m_tag b)) as [->|]; [|left; by rewrite andb_false_r].
    destruct (CacheBlockInfo.isValid b) eqn:Evb; cbn [andb].
    + right. exists b. split; [|done]. split; [apply block_at_Some; eauto|]. split; [done|by apply isValid_tag].
    + left. destruct (line c (CacheBlockInfo.m_tag b)) as [b'|] eqn:El; [|done].
      apply (line_range g) in El; [|done]. by apply isValid_tag in El; congruence.
  - intros l'. rewrite Hat. case_decide as E'; [subst l'|done]. cbn.
    rewrite (proj2 (block_at_Some c l b)) by eauto. cbn. by rewrite Hf.
Qed.

Lemma invalidate_line_spec g c addr l b :
  lines_wf g c → in_u64 addr → points c l (block_of g addr) b →
  ∃ c', invalidateSingleLine c addr = Ok (true, c') ∧ lines_wf g c' ∧ base c' = base c ∧
    (∀ t, line c' t = if t =? block_of g addr then None else line c t) ∧
    (∀ l', block_at c' l' = if decide (l' = l) then Some (CacheBlockInfo.invalidate b) else block_at c l').
Proof.
  intros Hwf Ha Hpt. destruct (split_line g c addr Hwf Ha) as (i & s & E & Hp & Hs & Hsh).
  destruct (block_of_range g addr (proj1 Hwf) Ha) as [_ Hne].
  destruct (find_line g c i s _ Hwf Hp Hs Hne) as (r & Er & Hr).
  destruct r as [w|]; [|by rewrite (points_line g _ _ _ _ Hwf Hpt) in Hr].
  destruct Hr as (_ & b' & Hw & Hpt' & Hl). pose proof (points_unique g c _ _ _ _ _ Hwf Hpt Hpt') as ->.
  rewrite (points_line g _ _ _ _ Hwf Hpt) in Hl. injection Hl as <-.
  unfold invalidateSingleLine. rewrite E. cbn [rbind].
  assert (Z.of_nat i <? CacheBase.m_num_sets (base c) = true) as ->.
  { pose proof Hwf as (_ & Hnew & Hlen & _). apply base_fields in Hnew as (Hns & _). rewrite Hns, <- Hlen.
    apply lookup_lt_Some in Hs. lia. }
  cbn [check rbind]. rewrite Nat2Z.id. unfold arr_get at 1. rewrite Hs. cbn [rbind].
  unfold CacheSet.invalidate. unfold CacheSet.find in Er. rewrite Er. cbn [rbind].
  unfold arr_get, arr_set. rewrite Hw. cbn [rbind].
  destruct (set_state_block g c (i, w) b (CacheBlockInfo.invalidate b) s
              (CacheSet.set_array s (<[w:=CacheBlockInfo.invalidate b]> (array s))) (m_set_info c) Hwf Hs Hw)
    as (c' & Ec & Hwf' & Eb & Hl' & Hat); [done|done|done|].
  exists c'. cbn [fst] in Ec. rewrite Ec. split; [done|]. split; [done|]. split; [done|]. split; [|done].
  intros t. rewrite Hl'. cbn [andb CacheBlockInfo.isValid CacheBlockInfo.invalidate].
  destruct Hpt as (_ & <- & _). done.
Qed.

(** *** Data *)

Lemma mem_write_len (d d' : bytes) to src n : mem_write d to src n = Ok d' → length d' = length d.
Proof.
  unfold mem_write. intros (u & Hc%check_ok & E)%rbind_ok. injection E as <-.
  apply andb_true_iff in Hc as [H1%Nat.leb_le H2%Nat.leb_le].
  rewrite !length_app, length_drop, !length_take. lia.
Qed.

Lemma mem_read_len (d d' : bytes) from n : mem_read d from n = Ok d' → length d' = n.
Proof.
  unfold mem_read. intros (u & Hc%check_ok & E)%rbind_ok. injection E as <-. apply Nat.leb_le in Hc. rewrite length_take, length_drop. lia.
Qed.

(** *** Accesses *)

Lemma touch_line_shape g info s w u info' s' :
  CacheSet.touch_line info s w u = Ok (info', s') → set_shape g s → array s' = array s ∧ set_shape g s'.
Proof.
  unfold CacheSet.touch_line. destruct u; intros E Hsh; inv_ok; [|done]. split; done.
Qed.

Lemma read_line_shape g info s w off out n u r info' s' :
  CacheSet.read_line info s w off out n u = Ok (r, (info', s')) → set_shape g s →
  array s' = array s ∧ set_shape g s' ∧ (∀ d, r = Some d → length d = n).
Proof.
  unfold CacheSet.read_line. intros E Hsh. apply rbind_ok in E as (? & _ & E). apply rbind_ok in E as (read & Er & E).
  apply rbind_ok in E as ([i2 s2] & Et & E). injection E as <- -> ->.
  destruct (touch_line_shape g _ _ _ _ _ _ Et Hsh) as [? ?]. split_and!; [done|done|].
  intros d ->. destruct (CacheSet.m_blocks s) as [dd|]; [|done]. destruct out; [|done].
  inv_ok. by eapply mem_read_len.
Qed.

Lemma write_line_shape g info s w off buf n u info' s' :
  CacheSet.write_line info s w off buf n u = Ok (info', s') → set_shape g s → array s' = array s ∧ set_shape g s'.
Proof.
  unfold CacheSet.write_line. intros E Hsh. apply rbind_ok in E as (? & _ & E). apply rbind_ok in E as (d & Ed & E).
  assert (set_shape g (CacheSet.set_data s d)) as Hsh'.
  { destruct Hsh as (H1 & H2 & H3 & H4 & H5). split_and!; try done. intros d' Hd'. cbn in Hd'. subst d.
    destruct (CacheSet.m_blocks s) as [dd|]; [|by inv_ok]. destruct buf as [b|]; [|inv_ok; by apply H5].
    apply rbind_ok in Ed as (d2 & Hw & Ed). injection Ed as <-. rewrite (mem_write_len _ _ _ _ _ Hw). by apply H5. }
  by destruct (touch_line_shape g _ _ _ _ _ _ E Hsh') as [? ?].
Qed.

(** An access changes no line; what it returns is where the line is, if it is there. *)
Lemma access_spec g c addr ty buf n u r c' :
  lines_wf g c → in_u64 addr → accessSingleLine c addr ty buf n u = Ok (r, c') →
  lines_wf g c' ∧ base c' = base c ∧ (∀ t, line c' t = line c t) ∧ (∀ l, block_at c' l = block_at c l) ∧
  match r with
  | Some (l, read) => (∃ b, points c l (block_of g addr) b) ∧ ∀ d, read = Some d → length d = n
  | None => line c (block_of g addr) = None
  end.
Proof.
  intros Hwf Ha. destruct (split_line g c addr Hwf Ha) as (i & s & E & Hp & Hs & Hsh).
  destruct (block_of_range g addr (proj1 Hwf) Ha) as [_ Hne].
  destruct (find_line g c i s _ Hwf Hp Hs Hne) as (f & Ef & Hf).
  unfold accessSingleLine, CacheBase.splitAddress_offset. rewrite E. cbn [rbind]. rewrite Nat2Z.id.
  unfold arr_get. rewrite Hs. cbn [rbind]. rewrite Ef. cbn [rbind].
  destruct f as [w|]; [|intros [= <- <-]; done].
  destruct Hf as (_ & b & _ & Hpt & _). destruct ty.
  - intros E'. apply rbind_ok in E' as ([read [info s']] & Er & E'). apply rbind_ok in E' as (c2 & Ec & E').
    injection E' as <- <-. destruct (read_line_shape g _ _ _ _ _ _ _ _ _ _ Er Hsh) as (Ea & Hsh' & Hlen).
    destruct (set_state_same g c i s s' info Hwf Hs Ea Hsh') as (c3 & Ec' & ? & ? & ? & ?).
    rewrite Ec' in Ec. injection Ec as <-. split_and!; try done. by exists b.
  - intros E'. apply rbind_ok in E' as ([info s'] & Er & E'). apply rbind_ok in E' as (c2 & Ec & E').
    injection E' as <- <-. destruct (write_line_shape g _ _ _ _ _ _ _ _ _ Er Hsh) as (Ea & Hsh').
    destruct (set_state_same g c i s s' info Hwf Hs Ea Hsh') as (c3 & Ec' & ? & ? & ? & ?).
    rewrite Ec' in Ec. injection Ec as <-. split_and!; try done. by exists b.
Qed.

(** The bytes at an offset of a line exist. *)
Lemma data_range g s w off n d :
  set_shape g s → CacheSet.m_blocks s = Some d → (w < cfg_assoc g)%nat → (off + n ≤ Z.to_nat (cfg_block g))%nat →
  (w * CacheSet.m_blocksize s + off + n ≤ length d)%nat.
Proof.
  intros (_ & _ & Hb & _ & Hd) Ed Hw Hn. rewrite (Hd d Ed), Hb.
  pose proof (Nat.mul_le_mono_r (S w) (cfg_assoc g) (Z.to_nat (cfg_block g)) Hw). lia.
Qed.

(** An access within a line that leaves the replacement state alone cannot fail. *)
Lemma access_total g c addr ty buf n :
  lines_wf g c → in_u64 addr →
  (Z.to_nat (addr `mod` cfg_block g) + n ≤ Z.to_nat (cfg_block g))%nat → (∃ k, 0 ≤ k ∧ cfg_block g = 2 ^ k) →
  (∀ d, ty = CacheBase.STORE → buf = Some d → (n ≤ length d)%nat) →
  ∃ r, accessSingleLine c addr ty buf n false = Ok r.
Proof.
  intros Hwf Ha Hn (k & Hk0 & Hk) Hbuf. pose proof Hwf as ((_ & Hcb & _) & Hnew & _ & Hw).
  destruct (split_line g c addr Hwf Ha) as (i & s & E & Hp & Hs & Hsh).
  destruct (block_of_range g addr (proj1 Hwf) Ha) as [_ Hne].
  destruct (find_line g c i s _ Hwf Hp Hs Hne) as (f & Ef & Hf).
  unfold accessSingleLine, CacheBase.splitAddress_offset. rewrite E. cbn [rbind]. rewrite Nat2Z.id.
  unfold arr_get. rewrite Hs. cbn [rbind]. rewrite Ef. cbn [rbind].
  destruct f as [w|]; [|by eexists]. destruct Hf as (Hwa & b & _ & Hpt & _).
  assert (u32 (Z.land addr (u32 (CacheBase.m_blocksize (base c) - 1))) = addr `mod` cfg_block g) as ->.
  { apply base_fields in Hnew as (_ & _ & _ & Hbs & _). rewrite Hbs, (u32_small (_ - 1)) by rlia.
    rewrite Hk, land_pow2 by lia. rewrite <- Hk. apply u32_small.
    pose proof (Z.mod_pos_bound addr (cfg_block g) ltac:(lia)). rlia. }
  set (off := Z.to_nat (addr `mod` cfg_block g)) in *.
  assert (u32 (Z.of_nat (off + n)) <=? Z.of_nat (CacheSet.m_blocksize s) = true) as Hchk.
  { destruct Hsh as (_ & _ & Hb & _). rewrite Hb, u32_small by rlia. apply Z.leb_le. by apply inj_le. }
  pose proof (data_range g s w off n) as Hrange.
  assert (∀ s', set_shape g s' → array s' = array s → ∃ c', set_state c i (m_set_info c, s') = Ok c') as Hst.
  { intros s' Hs' Ea'. destruct (set_state_same g c i s s' (m_set_info c) Hwf Hs Ea' Hs') as (c' & ? & _). eauto. }
  destruct ty.
  - unfold CacheSet.read_line. rewrite Hchk. cbn [check rbind]. unfold CacheSet.touch_line.
    destruct (Hst s Hsh eq_refl) as [c' Hc'].
    destruct (CacheSet.m_blocks s) as [d|]; cbn [rbind]; [|rewrite Hc'; cbn; by eexists].
    case_bool_decide; cbn [rbind]; [rewrite mem_read_ok by (by apply Hrange); cbn [rbind]|]; rewrite Hc'; cbn; by eexists.
  - unfold CacheSet.write_line. rewrite Hchk. cbn [check rbind]. unfold CacheSet.touch_line.
    destruct (CacheSet.m_blocks s) as [d|] eqn:Ed; [destruct buf as [bf|]|]; cbn [rbind].
    1: rewrite mem_write_ok by (by (apply Hrange || eapply Hbuf)); cbn [rbind].
    all: match goal with |- context [set_state _ _ (_, ?s')] => destruct (Hst s') as [c' Hc'] end.
    all: try (rewrite Hc'; cbn; by eexists). all: try done.
    all: destruct Hsh as (H1 & H2 & H3 & H4 & H5); split_and!; try done; cbn; intros d' Hd'; try congruence.
    + injection Hd' as <-. rewrite mem_write_length; [by apply H5|by apply Hrange|by eapply Hbuf].
    + injection Hd' as <-. by apply H5.
Qed.

(** *** Insertion *)

(** What is in a block just inserted. *)
Definition fresh_block (t : Z) : CacheBlockInfo.t := CacheBlockInfo.set_tag CacheBlockInfo.empty t.

Lemma insert_line_spec g cn c addr fill ev0 eb ev ea c' :
  lines_wf g c → in_u64 addr → line c (block_of g addr) = None →
  insertSingleLine cn c addr fill ev0 eb = Ok (ev, ea, c') →
  lines_wf g c' ∧ base c' = base c ∧ (∀ d, CacheSet.evict_buff ev = Some d → length d = Z.to_nat (cfg_block g)) ∧
  if CacheSet.eviction ev then
    let v := CacheSet.evict_block_info ev in
    line c (CacheBlockInfo.m_tag v) = Some v ∧ ea = CacheBase.tagToAddress (base c) (CacheBlockInfo.m_tag v) ∧
    ∀ t, line c' t = if t =? block_of g addr then Some (fresh_block t)
                     else if t =? CacheBlockInfo.m_tag v then None else line c t
  else ∀ t, line c' t = if t =? block_of g addr then Some (fresh_block t) else line c t.
Proof.
  intros Hwf Ha Hnone. destruct (split_line g c addr Hwf Ha) as (i & s & E & Hp & Hs & Hsh).
  destruct (block_of_range g addr (proj1 Hwf) Ha) as [_ Hne].
  unfold insertSingleLine. rewrite E. cbn [rbind]. rewrite Nat2Z.id. unfold arr_get. rewrite Hs. cbn [rbind].
  intros E'. apply rbind_ok in E' as ([ev' [info s']] & Ei & E'). apply rbind_ok in E' as (c2 & Ec & E').
  injection E' as <- <- <-.
  unfold CacheSet.insert in Ei. apply rbind_ok in Ei as ([w [info2 p2]] & _ & Ei).
  apply rbind_ok in Ei as (? & Hchk%check_ok & Ei). apply rbind_ok in Ei as (old & Hold%arr_get_ok & Ei).
  apply rbind_ok in Ei as (ev2 & Hev & Ei). apply rbind_ok in Ei as (l2 & Hl2 & Ei).
  apply arr_set_ok in Hl2 as [Hw ->]. apply rbind_ok in Ei as (d2 & Hd2 & Ei). injection Ei as <- <- <-.
  set (new := CacheBlockInfo.set_tag CacheBlockInfo.empty (block_of g addr)) in *.
  assert (CacheBlockInfo.clone old new = new) as Hnew by done. rewrite Hnew in *.
  assert (CacheBlockInfo.isValid new = true) as Hv by (by apply isValid_tag).
  set (s2 := CacheSet.set_data (CacheSet.set_array (CacheSet.set_policy s p2) (<[w:=new]> (array s))) d2) in *.
  destruct (set_state_block g c (i, w) old new s s2 info2 Hwf Hs Hold) as (c3 & Ec3 & Hwf3 & Eb & Hl & _); [done| | |].
  { destruct Hsh as (H1 & H2 & H3 & H4 & H5). split_and!; try done. cbn. intros d Ed. subst d2.
    destruct (CacheSet.m_blocks s) as [dd|]; [|by inv_ok]. destruct fill as [f|]; [|inv_ok; by apply H5].
    apply rbind_ok in Hd2 as (d3 & Hw3 & Hd2). injection Hd2 as <-. rewrite (mem_write_len _ _ _ _ _ Hw3). by apply H5. }
  { intros _. split; [done|by right]. }
  cbn [fst] in Ec3. rewrite Ec3 in Ec. injection Ec as <-. split; [done|]. split; [done|].
  assert (∀ t, line c3 t = if t =? block_of g addr then Some (fresh_block t)
                           else if t =? CacheBlockInfo.m_tag old then None else line c t) as Hl'.
  { intros t. rewrite Hl, Hv. change (CacheBlockInfo.m_tag new) with (block_of g addr). cbn [andb].
    destruct (Z.eqb_spec t (block_of g addr)) as [->|]; done. }
  destruct (CacheBlockInfo.isValid old) eqn:Ho; inv_ok; cbn [CacheSet.eviction CacheSet.evict_block_info CacheSet.evict_buff].
  - split.
    { intros d ->. destruct (CacheSet.m_blocks s) as [dd|]; [|done]. destruct eb; [|done]. inv_ok.
      destruct Hsh as (_ & _ & Hb & _). rewrite <- Hb. by eapply mem_read_len. }
    assert (CacheBlockInfo.clone ev0 old = old) as -> by (by destruct old). split; [|by rewrite Eb].
    apply (points_line g c (i, w)); [done|]. split; [|split; [done|by apply isValid_tag]].
    apply block_at_Some. exists s. done.
  - split; [done|]. intros t. rewrite Hl'. destruct (t =? block_of g addr); [done|].
    destruct (Z.eqb_spec t (CacheBlockInfo.m_tag old)) as [->|]; [|done].
    destruct (line c (CacheBlockInfo.m_tag old)) as [b|] eqn:El; [|done].
    apply (line_range g) in El; [|done]. unfold CacheBlockInfo.isValid in Ho. apply negb_false_iff, Z.eqb_eq in Ho. done.
Qed.
End lines.
