(* ===== verification/CacheCntlr.v ===== *)
(** The cache controllers: [parametric_dram_directory_msi/cache_cntlr.{h,cc}], with the
    functions of [memory_manager.cc] they call and [cache_perf_model*.{h,cc}].

    The controllers of all cores and levels form a tree: each has a next level, and the
    caches themselves, shared by several cores, have lists of previous levels.  A
    controller is a number; what its constructor fixes is [conf] and [mconf] in the
    configuration, what changes is in the state [t], for each controller ([CacheVars]) and
    for each cache ([CacheMasterCntlr]).  Operations are in the monad of [StateResult].
    Recursion follows the levels, up or down, with the number of levels as fuel.

    A memory access of a core ([processMemOpFromCore]) that misses in the last level sends
    a message and waits for the network thread; it is modelled up to that point and from
    it on, with the local variables that the code keeps in between ([pending]), and
    [handleMsgFromDramDirectory] runs the second part when it wakes the core up.  Between
    taking and passing on the lock of the stack nothing else touches the lines of that
    set, so the parts are atomic.  Left out: the locks, the
    cache efficiency callbacks, of which none are registered, and the statistics that
    only [ENABLE_TRANSITIONS] or [TRACK_LATENCY_BY_HITWHERE] keep. *)
From stdpp Require Import functions.
From S2P Require Import Prelude Timing QueueModels BlockInfo AddressMap Replacement CacheModel.
From S2P Require Import ShmemMsg DirCntlr Memory Epoch UndoBuffer StateResult TlbAtd.

Module Transition.
Inductive reason_t := CORE_RD | CORE_WR | CORE_RDEX | UPGRADE | EVICT | BACK_INVAL | COHERENCY.
#[global] Instance reason_eq_dec : EqDecision reason_t.
Proof. solve_decision. Defined.
End Transition.

Module Prefetch.
Inductive prefetch_type_t := NONE | OWN | OTHER.
#[global] Instance prefetch_type_eq_dec : EqDecision prefetch_type_t.
Proof. solve_decision. Defined.
End Prefetch.

(** [HitWhere::where_t(m_mem_component)], or the same plus [SIBLING]. The values of a level
    above L4 are those of other enumerators, and those that name no enumerator are not kept. *)
Definition where_of (c : MemComponent.component_t) (sibling : bool) : HitWhere.where_t :=
  match MemComponent.code c, sibling with
  | 2, false => HitWhere.L1I
  | 3, false => HitWhere.L1_OWN
  | 4, false => HitWhere.L2_OWN
  | 5, false => HitWhere.L3_OWN
  | 6, false => HitWhere.L4_OWN
  | 7, false => HitWhere.MISS
  | 8, false => HitWhere.NUCA_CACHE
  | 9, false => HitWhere.DRAM_CACHE
  | 10, false => HitWhere.DRAM
  | 11, false => HitWhere.DRAM_LOCAL
  | 12, false => HitWhere.DRAM_REMOTE
  | 13, false => HitWhere.CACHE_REMOTE
  | 14, false => HitWhere.SIBLING
  | 3, true => HitWhere.L1_SIBLING
  | 4, true => HitWhere.L2_SIBLING
  | 5, true => HitWhere.L3_SIBLING
  | 6, true => HitWhere.L4_SIBLING
  | _, _ => HitWhere.UNKNOWN
  end.

(** ** [cache_perf_model.{h,cc}], [cache_perf_model_parallel.h], [cache_perf_model_sequential.h] *)
Module CachePerfModel.
Inductive CacheAccess_t := ACCESS_CACHE_DATA_AND_TAGS | ACCESS_CACHE_DATA | ACCESS_CACHE_TAGS.
Inductive PerfModel_t := CACHE_PERF_MODEL_PARALLEL | CACHE_PERF_MODEL_SEQUENTIAL.

Record t := mk {
  kind : PerfModel_t;
  m_cache_data_access_time : ComponentLatency.t;
  m_cache_tags_access_time : ComponentLatency.t;
  m_enabled : bool;
}.

Definition parseModelType (model_type : string) : result PerfModel_t :=
  if bool_decide (model_type = "parallel"%string) then Ok CACHE_PERF_MODEL_PARALLEL
  else if bool_decide (model_type = "sequential"%string) then Ok CACHE_PERF_MODEL_SEQUENTIAL
  else Err LogError.

Definition create (cache_perf_model_type : string) (data tags : ComponentLatency.t) : result t :=
  let! k := parseModelType cache_perf_model_type in
  Ok {| kind := k; m_cache_data_access_time := data; m_cache_tags_access_time := tags; m_enabled := false |}.

Definition getLatency (m : t) (access : CacheAccess_t) : Z :=
  let data := ComponentLatency.getLatency (m_cache_data_access_time m) in
  let tags := ComponentLatency.getLatency (m_cache_tags_access_time m) in
  if m_enabled m then
    match access, kind m with
    | ACCESS_CACHE_TAGS, _ => tags
    | ACCESS_CACHE_DATA, _ => data
    | ACCESS_CACHE_DATA_AND_TAGS, CACHE_PERF_MODEL_PARALLEL => data
    | ACCESS_CACHE_DATA_AND_TAGS, CACHE_PERF_MODEL_SEQUENTIAL => SubsecondTime.add data tags
    end
  else SubsecondTime.Zero.
End CachePerfModel.

(** [ComponentBandwidthPerCycle] of [subsecond_time.h]. *)
Module ComponentBandwidthPerCycle.
Record t := mk { m_period : Z; m_bw_in_bits_per_cycle : Z }.
Definition isInfinite (b : t) : bool := m_bw_in_bits_per_cycle b =? 0.
Definition getRoundedLatency (b : t) (bits_transmitted : Z) : result Z :=
  let! half := SubsecondTime.div (m_period b) 2 in
  SubsecondTime.div (SubsecondTime.add (SubsecondTime.mul bits_transmitted (m_period b)) half)
    (m_bw_in_bits_per_cycle b).
End ComponentBandwidthPerCycle.

Definition PREFETCH_MAX_QUEUE_LENGTH : nat := 32.
Definition PREFETCH_INTERVAL : Z := SubsecondTime.NS_1.

Module CacheCntlr.

(** ** What the constructors fix *)

(** Of a controller; [m_master] and [m_next_cache_cntlr] are the numbers of a cache and of
    a controller, [m_shmem_perf] and [m_dummy_shmem_perf] addresses. *)
Record conf := mk_conf {
  m_mem_component : MemComponent.component_t;
  m_core_id : Z;
  m_shared_cores : Z;
  m_master : nat;
  m_next_cache_cntlr : option nat;
  m_onchip_undo_buffer_cntlr : option nat;
  m_tag_directory_home_lookup : AddressHomeLookup.t;
  m_perfect : bool;
  m_passthrough : bool;
  m_coherent : bool;
  m_prefetch_on_prefetch_hit : bool;
  m_train_prefetcher_on_hit : bool;
  m_prefetch_delay : bool;
  m_l1_mshr : bool;
  m_cache_block_size : nat;
  m_cache_writethrough : bool;
  m_writeback_time : ComponentLatency.t;
  m_next_level_read_bandwidth : ComponentBandwidthPerCycle.t;
  m_perf_model : CachePerfModel.t;            (* m_cache_perf_models[mem_component] *)
  m_shmem_perf : Z;
  m_dummy_shmem_perf : Z;
  m_picl_enabled : bool;
}.

Definition m_core_id_master (c : conf) : Z := m_core_id c - Z.rem (m_core_id c) (m_shared_cores c).
Definition isMasterCache (c : conf) : bool := m_core_id c =? m_core_id_master c.

(** Of a cache. *)
Record master_conf := mk_mconf {
  m_name : string;
  m_prev_cache_cntlrs : list nat;
  m_direct_dram : bool;                        (* m_dram_cntlr *)
}.

Record config := mk_config {
  cntlr_conf : nat → conf;
  cache_conf : nat → master_conf;
  levels : nat;                                (* fuel: no path between controllers is longer *)
  core_id_master : Z → Z;                      (* m_core_id_master of the memory manager of a core *)
  cache_only : bool;                           (* Sim()->getInstrumentationMode() == CACHE_ONLY *)
  uninit_buf : bytes;                          (* what a local buffer holds at first *)
}.

(** [setPrevCacheCntlrs]: only the controllers that own a cache are appended. *)
Definition setPrevCacheCntlrs (cf : nat → conf) (m : master_conf) (prev_cache_cntlrs : list nat) : master_conf :=
  {| m_name := m_name m;
     m_prev_cache_cntlrs := m_prev_cache_cntlrs m ++ List.filter (λ i, isMasterCache (cf i)) prev_cache_cntlrs;
     m_direct_dram := m_direct_dram m |}.

(** ** State *)

Record CacheDirectoryWaiter := mk_waiter {
  exclusive : bool;
  isPrefetch : bool;
  cache_cntlr : nat;
  t_issue : Z;
}.

Record MshrEntry := make_mshr { mshr_t_issue : Z; mshr_t_complete : Z }.

(** [CacheMasterCntlr]. The iteration order of the hash table [mshr], which the
    standard leaves open, is that of [map_to_list]. *)
Record CacheMasterCntlr (P F : Type) := mk_master {
  m_cache : Cache.t P;
  m_prefetcher : option F;
  m_dram_outstanding_writebacks : option ContentionModel.t;
  mshr : gmap Z MshrEntry;
  master_l1_mshr : ContentionModel.t;
  next_level_read_bandwidth : ContentionModel.t;
  m_directory_waiters : ReqQueueList.t CacheDirectoryWaiter;
  m_evicting : option (Z * bytes);             (* m_evicting_buf and m_evicting_address *)
  m_atds : list (ATD.t P);
  m_prefetch_list : list Z;
  m_prefetch_next : Z;
}.
Arguments mk_master {P F} _ _ _ _ _ _ _ _ _ _ _.
Arguments m_cache {P F} _.
Arguments m_prefetcher {P F} _.
Arguments m_dram_outstanding_writebacks {P F} _.
Arguments mshr {P F} _.
Arguments master_l1_mshr {P F} _.
Arguments next_level_read_bandwidth {P F} _.
Arguments m_directory_waiters {P F} _.
Arguments m_evicting {P F} _.
Arguments m_atds {P F} _.
Arguments m_prefetch_list {P F} _.
Arguments m_prefetch_next {P F} _.

(** The fields of the struct [stats], all [UInt64] or times. *)
Inductive stat :=
  | loads | stores | load_misses | store_misses | load_overlapping_misses | store_overlapping_misses
  | loads_state (s : CacheState.cstate_t) | stores_state (s : CacheState.cstate_t)
  | loads_where (w : HitWhere.where_t) | stores_where (w : HitWhere.where_t)
  | load_misses_state (s : CacheState.cstate_t) | store_misses_state (s : CacheState.cstate_t)
  | loads_prefetch | stores_prefetch | hits_prefetch | evict_prefetch | invalidate_prefetch
  | evict (s : CacheState.cstate_t) | backinval (s : CacheState.cstate_t)
  | hits_warmup | evict_warmup | invalidate_warmup
  | total_latency | snoop_latency | qbs_query_latency | mshr_latency | prefetches
  | coherency_downgrades | coherency_upgrades | coherency_invalidates | coherency_writebacks.
#[global] Instance stat_eq_dec : EqDecision stat.
Proof. solve_decision. Defined.

Record CacheVars := mk_vars {
  m_last_remote_hit_where : HitWhere.where_t;
  stats : stat → Z;
  m_shmem_perf_global : ShmemPerf.t;
  m_shmem_perf_totaltime : Z;
  m_shmem_perf_numrequests : Z;
}.

(** The local variables of a core that waits for the network thread: in
    [processMemOpFromCore] of an L1 cache, or in [doPrefetch] of any cache. *)
Record mem_op := mk_op {
  op_lock_signal : Core.lock_signal_t;
  op_type : Core.mem_op_t;
  op_address : Z;
  op_offset : nat;
  op_data_buf : option bytes;
  op_data_length : nat;
  op_modeled : bool;
  op_count : bool;
}.
Inductive pending :=
  | InMemOp (c : nat) (op : mem_op) (t_start t_miss_begin t_mshr_avail : Z)
  | InPrefetch (c : nat) (prefetch_address t_start t_before t_now : Z) (answer : HitWhere.where_t * option bytes).

Record t (P F D : Type) := mk {
  masters : nat → CacheMasterCntlr P F;
  vars : nat → CacheVars;
  clocks : Z → ShmemPerfModel.t;               (* the ShmemPerfModel of each core *)
  perfs : Z → ShmemPerf.t;                     (* the ShmemPerf objects, by address *)
  sent : list DirCntlr.packet;                 (* the packets given to the network *)
  undo_cntlrs : list OnChipUndoBufferCntlr.t;
  shared : OnChipUndoBufferCntlr.shared;
  dram : D;
  waiting : Z → option pending;                (* what each core waits in *)
  returned : list (Z * (HitWhere.where_t * option bytes));   (* the accesses that returned: core, answer *)
}.
Arguments mk {P F D} _ _ _ _ _ _ _ _ _ _.
Arguments masters {P F D} _ _.
Arguments vars {P F D} _ _.
Arguments clocks {P F D} _ _.
Arguments perfs {P F D} _ _.
Arguments sent {P F D} _.
Arguments undo_cntlrs {P F D} _.
Arguments shared {P F D} _.
Arguments dram {P F D} _.
Arguments waiting {P F D} _ _.
Arguments returned {P F D} _.

Section ops.
Context {P : Type} `{Policy P} {F : Type} `{Prefetcher F} {D : Type} `{DramCntlrInterface D} (cfg : config).
Abbreviation state := (t P F D).
Abbreviation MM := (M state).
Implicit Types (c : nat) (address : Z) (m : CacheMasterCntlr P F).

(** ** Access to the state *)

Definition put_cache (x : Cache.t P) m : CacheMasterCntlr P F :=
  mk_master x (m_prefetcher m) (m_dram_outstanding_writebacks m) (mshr m) (master_l1_mshr m)
    (next_level_read_bandwidth m) (m_directory_waiters m) (m_evicting m) (m_atds m) (m_prefetch_list m) (m_prefetch_next m).
Definition put_prefetcher (x : option F) m : CacheMasterCntlr P F :=
  mk_master (m_cache m) x (m_dram_outstanding_writebacks m) (mshr m) (master_l1_mshr m)
    (next_level_read_bandwidth m) (m_directory_waiters m) (m_evicting m) (m_atds m) (m_prefetch_list m) (m_prefetch_next m).
Definition put_writebacks (x : option ContentionModel.t) m : CacheMasterCntlr P F :=
  mk_master (m_cache m) (m_prefetcher m) x (mshr m) (master_l1_mshr m)
    (next_level_read_bandwidth m) (m_directory_waiters m) (m_evicting m) (m_atds m) (m_prefetch_list m) (m_prefetch_next m).
Definition put_mshr (x : gmap Z MshrEntry) m : CacheMasterCntlr P F :=
  mk_master (m_cache m) (m_prefetcher m) (m_dram_outstanding_writebacks m) x (master_l1_mshr m)
    (next_level_read_bandwidth m) (m_directory_waiters m) (m_evicting m) (m_atds m) (m_prefetch_list m) (m_prefetch_next m).
Definition put_l1_mshr (x : ContentionModel.t) m : CacheMasterCntlr P F :=
  mk_master (m_cache m) (m_prefetcher m) (m_dram_outstanding_writebacks m) (mshr m) x
    (next_level_read_bandwidth m) (m_directory_waiters m) (m_evicting m) (m_atds m) (m_prefetch_list m) (m_prefetch_next m).
Definition put_bandwidth (x : ContentionModel.t) m : CacheMasterCntlr P F :=
  mk_master (m_cache m) (m_prefetcher m) (m_dram_outstanding_writebacks m) (mshr m) (master_l1_mshr m)
    x (m_directory_waiters m) (m_evicting m) (m_atds m) (m_prefetch_list m) (m_prefetch_next m).
Definition put_waiters (x : ReqQueueList.t CacheDirectoryWaiter) m : CacheMasterCntlr P F :=
  mk_master (m_cache m) (m_prefetcher m) (m_dram_outstanding_writebacks m) (mshr m) (master_l1_mshr m)
    (next_level_read_bandwidth m) x (m_evicting m) (m_atds m) (m_prefetch_list m) (m_prefetch_next m).
Definition put_evicting (x : option (Z * bytes)) m : CacheMasterCntlr P F :=
  mk_master (m_cache m) (m_prefetcher m) (m_dram_outstanding_writebacks m) (mshr m) (master_l1_mshr m)
    (next_level_read_bandwidth m) (m_directory_waiters m) x (m_atds m) (m_prefetch_list m) (m_prefetch_next m).
Definition put_atds (x : list (ATD.t P)) m : CacheMasterCntlr P F :=
  mk_master (m_cache m) (m_prefetcher m) (m_dram_outstanding_writebacks m) (mshr m) (master_l1_mshr m)
    (next_level_read_bandwidth m) (m_directory_waiters m) (m_evicting m) x (m_prefetch_list m) (m_prefetch_next m).
Definition put_queue (x : list Z) (next : Z) m : CacheMasterCntlr P F :=
  mk_master (m_cache m) (m_prefetcher m) (m_dram_outstanding_writebacks m) (mshr m) (master_l1_mshr m)
    (next_level_read_bandwidth m) (m_directory_waiters m) (m_evicting m) (m_atds m) x next.

Definition set_masters (x : nat → CacheMasterCntlr P F) (s : state) : state :=
  mk x (vars s) (clocks s) (perfs s) (sent s) (undo_cntlrs s) (shared s) (dram s) (waiting s) (returned s).
Definition set_vars (x : nat → CacheVars) (s : state) : state :=
  mk (masters s) x (clocks s) (perfs s) (sent s) (undo_cntlrs s) (shared s) (dram s) (waiting s) (returned s).
Definition set_clocks (x : Z → ShmemPerfModel.t) (s : state) : state :=
  mk (masters s) (vars s) x (perfs s) (sent s) (undo_cntlrs s) (shared s) (dram s) (waiting s) (returned s).
Definition set_perfs (x : Z → ShmemPerf.t) (s : state) : state :=
  mk (masters s) (vars s) (clocks s) x (sent s) (undo_cntlrs s) (shared s) (dram s) (waiting s) (returned s).
Definition set_sent (x : list DirCntlr.packet) (s : state) : state :=
  mk (masters s) (vars s) (clocks s) (perfs s) x (undo_cntlrs s) (shared s) (dram s) (waiting s) (returned s).
Definition set_undo (x : list OnChipUndoBufferCntlr.t) (g : OnChipUndoBufferCntlr.shared) (s : state) : state :=
  mk (masters s) (vars s) (clocks s) (perfs s) (sent s) x g (dram s) (waiting s) (returned s).
Definition set_dram (x : D) (s : state) : state :=
  mk (masters s) (vars s) (clocks s) (perfs s) (sent s) (undo_cntlrs s) (shared s) x (waiting s) (returned s).
Definition set_waiting (x : Z → option pending) (s : state) : state :=
  mk (masters s) (vars s) (clocks s) (perfs s) (sent s) (undo_cntlrs s) (shared s) (dram s) x (returned s).
Definition set_returned (x : list (Z * (HitWhere.where_t * option bytes))) (s : state) : state :=
  mk (masters s) (vars s) (clocks s) (perfs s) (sent s) (undo_cntlrs s) (shared s) (dram s) (waiting s) x.

Definition cf c : conf := cntlr_conf cfg c.
Definition mf c : master_conf := cache_conf cfg (m_master (cf c)).

(** [*m_master] of controller [c], read and written. *)
Definition master c : MM (CacheMasterCntlr P F) := gets (λ s, masters s (m_master (cf c))).
Definition upd_master c (f : CacheMasterCntlr P F → CacheMasterCntlr P F) : MM unit :=
  modify (λ s, set_masters (<[m_master (cf c) := f (masters s (m_master (cf c)))]> (masters s)) s).

(** A call of an operation of the cache. *)
Definition cache_call {A} c (f : Cache.t P → result (A * Cache.t P)) : MM A :=
  m ← master c;
  '(a, x) ← lift (f (m_cache m));
  upd_master c (put_cache x);; mret a.

Definition upd_vars c (f : CacheVars → CacheVars) : MM unit :=
  modify (λ s, set_vars (<[c := f (vars s c)]> (vars s)) s).
Definition add_stat c (k : stat) (n : Z) : MM unit :=
  upd_vars c (λ v, mk_vars (m_last_remote_hit_where v) (<[k := u64 (stats v k + n)]> (stats v))
                     (m_shmem_perf_global v) (m_shmem_perf_totaltime v) (m_shmem_perf_numrequests v)).
Definition incr_stat c (k : stat) : MM unit := add_stat c k 1.
Definition set_last_remote c (w : HitWhere.where_t) : MM unit :=
  upd_vars c (λ v, mk_vars w (stats v) (m_shmem_perf_global v) (m_shmem_perf_totaltime v) (m_shmem_perf_numrequests v)).

(** [getShmemPerfModel()->getElapsedTime(thread_num)], and its setter. *)
Definition getElapsedTime c (thread_num : ShmemPerfModel.Thread_t) : MM Z :=
  gets (λ s, ShmemPerfModel.getElapsedTime (clocks s (m_core_id (cf c))) thread_num).
Definition setElapsedTime c (thread_num : ShmemPerfModel.Thread_t) (time : Z) : MM unit :=
  modify (λ s, set_clocks (<[m_core_id (cf c) :=
    ShmemPerfModel.setElapsedTime (clocks s (m_core_id (cf c))) thread_num time]> (clocks s)) s).

(** [MemoryManager::incrElapsedTime(latency, thread_num)]. *)
Definition incrElapsedTime c (latency : Z) (thread_num : ShmemPerfModel.Thread_t) : MM unit :=
  k ← gets (λ s, clocks s (m_core_id (cf c)));
  k ← lift (ShmemPerfModel.incrElapsedTime k latency thread_num);
  modify (λ s, set_clocks (<[m_core_id (cf c) := k]> (clocks s)) s).

(** [MemoryManager::getCost], and [incrElapsedTime] of an access. *)
Definition getCost c (access_type : CachePerfModel.CacheAccess_t) : Z :=
  if bool_decide (m_mem_component (cf c) = MemComponent.INVALID_MEM_COMPONENT) then SubsecondTime.Zero
  else CachePerfModel.getLatency (m_perf_model (cf c)) access_type.
Definition incr_access c (access_type : CachePerfModel.CacheAccess_t) (thread_num : ShmemPerfModel.Thread_t) : MM unit :=
  incrElapsedTime c (getCost c access_type) thread_num.

(** A change of the [ShmemPerf] at an address. *)
Definition upd_perf (p : Z) (f : ShmemPerf.t → ShmemPerf.t) : MM unit :=
  modify (λ s, set_perfs (<[p := f (perfs s p)]> (perfs s)) s).
Definition upd_perf_ptr (p : option Z) (f : ShmemPerf.t → ShmemPerf.t) : MM unit :=
  match p with Some p => upd_perf p f | None => fail NullPointer end.

(** [MemoryManager::sendMsg] of the core of controller [c], from the last-level cache to a directory. *)
Definition sendMsg c (msg_type : ShmemMsg.msg_t) (requester receiver address : Z) (data_buf : option bytes)
    (where_ : HitWhere.where_t) (perf : option Z) (thread_num : ShmemPerfModel.Thread_t) : MM unit :=
  let data_length := match data_buf with Some _ => Z.of_nat (m_cache_block_size (cf c)) | None => 0 end in
  assert_ (Bool.eqb (bool_decide (data_buf = None)) (data_length =? 0));;
  msg_buf ← lift (ShmemMsg.makeMsgBuf (ShmemMsg.setWhere
    (ShmemMsg.new msg_type MemComponent.LAST_LEVEL_CACHE MemComponent.TAG_DIR requester address
       (Live <$> data_buf) data_length perf) where_));
  msg_time ← getElapsedTime c thread_num;
  upd_perf_ptr perf (λ x, ShmemPerf.updateTime x msg_time ShmemPerf.UNKNOWN);;
  modify (λ s, set_sent (sent s ++
    [DirCntlr.mk_packet msg_time (core_id_master cfg (m_core_id (cf c))) receiver msg_buf]) s).

Definition getHome c address : MM Z := lift (AddressHomeLookup.getHome (m_tag_directory_home_lookup (cf c)) address).

(** ** Localized cache block operations *)

(** A [SharedCacheBlockInfo*] is the location of the block in the cache. *)
Definition getCacheBlockInfo c address : MM (option Cache.loc) :=
  m ← master c; lift (Cache.peekSingleLine (m_cache m) address).

(** [*cache_block_info], read and written. *)
Definition block c (l : Cache.loc) : MM CacheBlockInfo.t :=
  m ← master c; lift (Cache.peekBlock (m_cache m) l).
Definition upd_block c (l : Cache.loc) (f : CacheBlockInfo.t → CacheBlockInfo.t) : MM unit :=
  m ← master c;
  x ← lift (Cache.updateBlock (m_cache m) l f);
  upd_master c (put_cache x).
Definition deref_block c (p : option Cache.loc) : MM Cache.loc :=
  match p with Some l => mret l | None => fail NullPointer end.

Definition getCState c (l : Cache.loc) : MM CacheState.cstate_t :=
  b ← block c l; mret (CacheBlockInfo.m_cstate b).
Definition setCState c (l : Cache.loc) (x : CacheState.cstate_t) : MM unit :=
  upd_block c l (λ b, CacheBlockInfo.set_cstate b x).

(** [getCacheState] of a pointer, and of an address. *)
Definition getCacheState_of c (p : option Cache.loc) : MM CacheState.cstate_t :=
  match p with Some l => getCState c l | None => mret CacheState.INVALID end.
Definition getCacheState c address : MM CacheState.cstate_t :=
  p ← getCacheBlockInfo c address; getCacheState_of c p.

Definition setCacheState c address (x : CacheState.cstate_t) : MM (option Cache.loc) :=
  p ← getCacheBlockInfo c address;
  l ← deref_block c p;
  setCState c l x;; mret (Some l).

(** The next level of the tag-sharing notifications: without [ENABLE_TRACK_SHARING_PREVCACHES]
    [notifyPrevLevelInsert] and [notifyPrevLevelEvict] do nothing. *)
Definition invalidateCacheBlock c address : MM unit :=
  old_cstate ← getCacheState c address;
  assert_ (negb (bool_decide (old_cstate = CacheState.MODIFIED)));;
  assert_ (negb (bool_decide (old_cstate = CacheState.INVALID)));;
  cache_call c (λ x, Cache.invalidateSingleLine x address);;
  mret tt.

(** Returns what [data_buf] holds afterwards. *)
Definition retrieveCacheBlock c address (data_buf : bytes) (update_replacement : bool) : MM bytes :=
  r ← cache_call c (λ x, Cache.accessSingleLine x address CacheBase.LOAD (Some data_buf)
                           (m_cache_block_size (cf c)) update_replacement);
  match r with
  | Some (_, read) => mret (default data_buf read)
  | None => fail AssertFail
  end.

(** The block that the pointer given to [operationPermissibleinCache] receives, and its answer. *)
Definition operationPermissibleinCache c address (mem_op_type : Core.mem_op_t) : MM (bool * option Cache.loc) :=
  p ← getCacheBlockInfo c address;
  cstate ← getCacheState_of c p;
  match mem_op_type with
  | Core.READ => mret (CacheState.readable cstate, p)
  | Core.READ_EX | Core.WRITE => mret (CacheState.writable cstate, p)
  | Core.INVALID_MEM_OP => fail LogError
  end.

(** ** Writes to the next levels *)

Definition next_cntlr c : MM nat :=
  match m_next_cache_cntlr (cf c) with Some n => mret n | None => fail NullPointer end.

(** The undo entry for a line of L3 that is written for the first time in an epoch. *)
Definition log_undo c (system_eid : Z) (cache_block_info : CacheBlockInfo.t) : MM unit :=
  match m_onchip_undo_buffer_cntlr (cf c) with
  | None => fail NullPointer
  | Some k =>
      us ← gets undo_cntlrs;
      u ← lift (arr_get us k);
      g ← gets shared;
      '(u, g) ← lift (OnChipUndoBufferCntlr.insertUndoEntry system_eid cache_block_info u g);
      us ← lift (arr_set us k u);
      modify (set_undo us g)
  end.

Definition getGlobalSystemEID : MM Z :=
  gets (λ s, EpochManager.getGlobalSystemEID (OnChipUndoBufferCntlr.epoch (shared s))).

(** The part of [writeCacheBlock] for a line in the cache. *)
Definition write_line c address (offset : nat) (data_buf : option bytes) (data_length : nat) : MM unit :=
  r ← cache_call c (λ x, Cache.accessSingleLine x (u64 (address + Z.of_nat offset)) CacheBase.STORE
                           data_buf data_length false);
  match r with
  | None => fail AssertFail
  | Some (l, _) =>
      b ← block c l;
      assert_ (bool_decide (CacheBlockInfo.m_cstate b = CacheState.MODIFIED));;
      system_eid ← getGlobalSystemEID;
      when (negb (CacheBlockInfo.m_eid b =? system_eid))
        (when (m_picl_enabled (cf c) && bool_decide (m_name (mf c) = "L3"%string)) (log_undo c system_eid b);;
         upd_block c l (λ b, CacheBlockInfo.set_epoch b system_eid))
  end.

Fixpoint writeCacheBlock (fuel : nat) c address (offset : nat) (data_buf : option bytes) (data_length : nat) : MM unit :=
  match fuel with
  | O => fail NoFuel
  | S fuel =>
      m ← master c;
      match m_evicting m with
      | Some (a, buf) =>
          if address =? a then
            assert_ (offset =? 0)%nat;;
            assert_ (data_length =? m_cache_block_size (cf c))%nat;;
            match data_buf with
            | Some d =>
                buf ← lift (mem_write buf offset d data_length);
                upd_master c (put_evicting (Some (a, buf)))
            | None => mret tt
            end
          else write_line c address offset data_buf data_length
      | None => write_line c address offset data_buf data_length
      end;;
      when (m_cache_writethrough (cf c))
        (n ← next_cntlr c; writeCacheBlock fuel n address offset data_buf data_length)
  end.

(** ** Operations that update the previous levels *)

(** What [updateCacheBlock] counts of a block whose state it changes. *)
Definition count_update c (l : Cache.loc) (new_cstate : CacheState.cstate_t) (reason : Transition.reason_t) : MM unit :=
  b ← block c l;
  let invalidated := bool_decide (new_cstate = CacheState.INVALID) in
  when (bool_decide (reason = Transition.COHERENCY))
    (incr_stat c (if bool_decide (new_cstate = CacheState.SHARED) then coherency_downgrades
                  else if bool_decide (CacheBlockInfo.m_cstate b = CacheState.MODIFIED) then coherency_writebacks
                  else coherency_invalidates);;
     when (CacheBlockInfo.hasOption b CacheBlockInfo.PREFETCH && invalidated) (incr_stat c invalidate_prefetch);;
     when (CacheBlockInfo.hasOption b CacheBlockInfo.WARMUP && invalidated) (incr_stat c invalidate_warmup));;
  match reason with
  | Transition.UPGRADE => incr_stat c coherency_upgrades
  | Transition.BACK_INVAL => incr_stat c (backinval (CacheBlockInfo.m_cstate b))
  | _ => mret tt
  end.

(** [retrieveCacheBlock(address, out_buf, ...)] if there is an [out_buf]: what it holds
    afterwards and whether it was written, which is also whether data were written back. *)
Definition fill_out c address (out_buf : option bytes) : MM (option bytes * bool) :=
  match out_buf with
  | Some buf => buf ← retrieveCacheBlock c address buf false; mret (Some buf, true)
  | None => mret (None, false)
  end.

(** The write-back of a [MODIFIED] block. *)
Definition write_back c address (out_buf : option bytes) : MM (option bytes * bool * bool) :=
  if m_cache_writethrough (cf c) then mret (out_buf, false, false)
  else match m_next_cache_cntlr (cf c), out_buf with
  | Some n, _ =>
      data_buf ← retrieveCacheBlock c address (uninit_buf cfg) false;
      writeCacheBlock (levels cfg) n address 0 (Some data_buf) (m_cache_block_size (cf c));;
      mret (out_buf, false, true)
  | None, Some _ =>
      '(out_buf, w) ← fill_out c address out_buf; mret (out_buf, w, true)
  | None, None => fail AssertFail
  end.

(** [updateCacheBlock] of a block in another state than the one wanted. *)
Definition change_state c address (l : Cache.loc) (new_cstate : CacheState.cstate_t) (reason : Transition.reason_t)
    (out_buf : option bytes) : MM (option bytes * bool * bool) :=
  count_update c l new_cstate reason;;
  cstate ← getCState c l;
  '(out_buf, buf_written, is_writeback) ←
    (if bool_decide (cstate = CacheState.MODIFIED) then
       r ← write_back c address out_buf; setCState c l CacheState.SHARED;; mret r
     else mret (out_buf, false, false));
  match new_cstate with
  | CacheState.INVALID =>
      '(out_buf, w) ← fill_out c address out_buf;
      when (m_coherent (cf c)) (invalidateCacheBlock c address);;
      mret (out_buf, buf_written || w, is_writeback || w)
  | CacheState.SHARED =>
      '(out_buf, w) ← fill_out c address out_buf;
      setCState c l new_cstate;;
      mret (out_buf, buf_written || w, is_writeback || w)
  | CacheState.MODIFIED =>
      setCState c l new_cstate;; mret (out_buf, buf_written, is_writeback)
  | _ => fail AssertFail
  end.

(** [new_cstate < NUM_CSTATE_STATES]. *)
Definition proper_state (x : CacheState.cstate_t) : bool :=
  match x with
  | CacheState.INVALID_COLD | CacheState.INVALID_EVICT | CacheState.INVALID_COHERENCY => false
  | _ => true
  end.

(** The latency, whether data came from here or below, and [out_buf] afterwards. *)
Fixpoint updateCacheBlock (fuel : nat) c address (new_cstate : CacheState.cstate_t) (reason : Transition.reason_t)
    (out_buf : option bytes) : MM (Z * bool * option bytes) :=
  match fuel with
  | O => fail NoFuel
  | S fuel =>
      assert_ (proper_state new_cstate);;
      sibling_hit ← foldM (λ sibling_hit it,
          '(_, hit, _) ← updateCacheBlock fuel it address new_cstate
             (if bool_decide (reason = Transition.EVICT) then Transition.BACK_INVAL else reason) None;
          mret (sibling_hit || hit))
        false (m_prev_cache_cntlrs (mf c));
      cache_block_info ← getCacheBlockInfo c address;
      old_cstate ← getCacheState_of c cache_block_info;
      '(out, buf_written, is_writeback) ←
        match cache_block_info with
        | None => mret (out_buf, false, false)
        | Some l =>
            if bool_decide (new_cstate = old_cstate) && bool_decide (is_Some out_buf)
            then '(out, w) ← fill_out c address out_buf; mret (out, w, w)
            else change_state c address l new_cstate reason out_buf
        end;
      let settled (x : CacheState.cstate_t) : bool :=
        bool_decide (x = CacheState.INVALID) || bool_decide (x = new_cstate) || negb (m_coherent (cf c)) in
      x ← getCacheState c address;
      assert_ (settled x);;
      current_cstate ← getCacheState_of c cache_block_info;
      assert_ (settled current_cstate);;
      assert_ (bool_decide (out_buf = None) || buf_written);;
      mret (if is_writeback : bool then ComponentLatency.getLatency (m_writeback_time (cf c)) else SubsecondTime.Zero,
            sibling_hit || is_writeback, out)
  end.

(** [isInLowerLevelCache], which the replacement policies with queries ask. *)
Definition isInLowerLevelCache (s : state) c (block_info : CacheBlockInfo.t) : bool :=
  let address := CacheBase.tagToAddress (Cache.base (m_cache (masters s (m_master (cf c))))) (CacheBlockInfo.m_tag block_info) in
  existsb (λ it, match Cache.peekSingleLine (m_cache (masters s (m_master (cf it)))) address with
                 | Ok (Some _) => true
                 | _ => false
                 end) (m_prev_cache_cntlrs (mf c)).

Definition incrementQBSLookupCost c : MM unit :=
  let latency := ComponentLatency.getLatency (m_writeback_time (cf c)) in
  incrElapsedTime c latency ShmemPerfModel.USER_THREAD;;
  add_stat c qbs_query_latency latency.

(** The calls of [incrementQBSLookupCost] during an insertion, which the policy counts. *)
Definition charge_queries c (before : Z) : MM unit :=
  m ← master c;
  foldM (λ _ _, incrementQBSLookupCost c) tt
    (replicate (Z.to_nat (qbs_lookups (Cache.m_set_info (m_cache m)) - before)) tt).

(** The previous levels give up a line: the largest of their latencies. *)
Definition back_invalidate c address : MM Z :=
  foldM (λ latency it,
      '(l, _, _) ← updateCacheBlock (levels cfg) it address CacheState.INVALID Transition.BACK_INVAL None;
      mret (Z.max latency l))
    SubsecondTime.Zero (m_prev_cache_cntlrs (mf c)).

(** [accessDRAM]: where the access hit, its latency and the buffer afterwards. *)
Definition accessDRAM c (mem_op_type : Core.mem_op_t) address (data_buf : bytes) : MM (HitWhere.where_t * Z * bytes) :=
  t_issue ← getElapsedTime c ShmemPerfModel.USER_THREAD;
  d ← gets dram;
  match mem_op_type with
  | Core.READ =>
      p ← gets (λ s, perfs s (m_shmem_perf (cf c)));
      '(dram_latency, hit_where, data_buf, p, d) ←
        lift (getDataFromDram d address (m_core_id_master (cf c)) data_buf t_issue (Some p));
      modify (set_dram d);;
      match p with Some p => upd_perf (m_shmem_perf (cf c)) (λ _, p) | None => mret tt end;;
      mret (hit_where, dram_latency, data_buf)
  | Core.READ_EX | Core.WRITE =>
      '(dram_latency, hit_where, d) ←
        lift (putDataToDram d address (m_core_id_master (cf c)) (Some (Live data_buf)) t_issue);
      modify (set_dram d);;
      mret (hit_where, dram_latency, data_buf)
  | Core.INVALID_MEM_OP => fail LogError
  end.

(** A dirty line goes straight to memory, when an evict buffer is free. *)
Definition evict_to_dram c address (evict_buf : bytes) : MM unit :=
  t_now ← getElapsedTime c ShmemPerfModel.USER_THREAD;
  m ← master c;
  match m_dram_outstanding_writebacks m with
  | Some w =>
      start ← lift (ContentionModel.getStartTime w t_now);
      incrElapsedTime c (SubsecondTime.sub start t_now) ShmemPerfModel.USER_THREAD
  | None => mret tt
  end;;
  '(_, dram_latency, _) ← accessDRAM c Core.WRITE address evict_buf;
  m ← master c;
  match m_dram_outstanding_writebacks m with
  | Some w =>
      '(_, w) ← lift (ContentionModel.getCompletionTime w t_now dram_latency 0);
      upd_master c (put_writebacks (Some w))
  | None => mret tt
  end.

(** A line leaves the last-level cache: a message to the directory. *)
Definition evict_to_directory c address (evict_state : CacheState.cstate_t) (evict_buf : bytes)
    (thread_num : ShmemPerfModel.Thread_t) : MM unit :=
  home_node_id ← getHome c address;
  if bool_decide (evict_state = CacheState.MODIFIED) then
    sendMsg c ShmemMsg.FLUSH_REP (m_core_id (cf c)) home_node_id address (Some evict_buf)
      HitWhere.UNKNOWN (Some (m_dummy_shmem_perf (cf c))) thread_num
  else
    assert_ (bool_decide (evict_state = CacheState.SHARED) || bool_decide (evict_state = CacheState.EXCLUSIVE));;
    sendMsg c ShmemMsg.INV_REP (m_core_id (cf c)) home_node_id address None
      HitWhere.UNKNOWN (Some (m_dummy_shmem_perf (cf c))) thread_num.

(** "Now properly get rid of the evicted line". *)
Definition dispose c address (evict_state : CacheState.cstate_t) (evict_buf : bytes)
    (thread_num : ShmemPerfModel.Thread_t) : MM unit :=
  let dirty := bool_decide (evict_state = CacheState.MODIFIED) in
  if m_perfect (cf c) then mret tt
  else if negb (m_coherent (cf c)) then
    when (negb (m_cache_writethrough (cf c))) (assert_ (negb dirty))
  else match m_next_cache_cntlr (cf c) with
  | Some n =>
      when (negb (m_cache_writethrough (cf c)) && dirty)
        (writeCacheBlock (levels cfg) n address 0 (Some evict_buf) (m_cache_block_size (cf c)))
  | None =>
      if m_direct_dram (mf c) then when dirty (evict_to_dram c address evict_buf)
      else evict_to_directory c address evict_state evict_buf thread_num
  end.

(** The eviction part of [insertCacheBlock]. *)
Definition evict_line c address (evict_block_info : CacheBlockInfo.t) (evict_buf : bytes)
    (thread_num : ShmemPerfModel.Thread_t) : MM unit :=
  let old_state := CacheBlockInfo.m_cstate evict_block_info in
  incr_stat c (evict old_state);;
  when (CacheBlockInfo.hasOption evict_block_info CacheBlockInfo.PREFETCH) (incr_stat c evict_prefetch);;
  when (CacheBlockInfo.hasOption evict_block_info CacheBlockInfo.WARMUP) (incr_stat c evict_warmup);;
  evict_buf ←
    match m_prev_cache_cntlrs (mf c) with
    | [] => mret evict_buf
    | _ =>
        upd_master c (put_evicting (Some (address, evict_buf)));;
        latency ← back_invalidate c address;
        incrElapsedTime c latency thread_num;;
        add_stat c snoop_latency latency;;
        m ← master c;
        upd_master c (put_evicting None);;
        mret (match m_evicting m with Some (_, b) => b | None => evict_buf end)
    end;
  dispose c address old_state evict_buf thread_num;;
  x ← getCacheState c address;
  assert_ (bool_decide (x = CacheState.INVALID)).

Definition insertCacheBlock c address (cstate : CacheState.cstate_t) (data_buf : option bytes) (requester : Z)
    (thread_num : ShmemPerfModel.Thread_t) : MM (option Cache.loc) :=
  x ← getCacheState c address;
  assert_ (bool_decide (x = CacheState.INVALID));;
  cn ← gets (λ s, isInLowerLevelCache s c);
  m ← master c;
  '(ev, evict_address) ← cache_call c (λ x, Cache.insertSingleLine (Some cn) x address data_buf CacheBlockInfo.empty true);
  charge_queries c (qbs_lookups (Cache.m_set_info (m_cache m)));;
  cache_block_info ← setCacheState c address cstate;
  l ← deref_block c cache_block_info;
  when (cache_only cfg) (upd_block c l (λ b, CacheBlockInfo.setOption b CacheBlockInfo.WARMUP));;
  when (CacheSet.eviction ev)
    (evict_line c evict_address (CacheSet.evict_block_info ev) (default (uninit_buf cfg) (CacheSet.evict_buff ev)) thread_num);;
  mret cache_block_info.

(** ** Statistics *)

(** The entry of [mshr] that completes first; ties are broken by the iteration order. *)
Definition earliest (l : list (Z * MshrEntry)) : Z * Z :=
  fold_left (λ best e, if mshr_t_complete (snd e) <? snd best then (fst e, mshr_t_complete (snd e)) else best)
    l (0, SubsecondTime.MaxTime).

(** When no entry completes before [MaxTime], [mshr.erase(0)] finds nothing, for ever. *)
Fixpoint cleanup (fuel : nat) (x : gmap Z MshrEntry) : result (gmap Z MshrEntry) :=
  match fuel with
  | O => Err NoFuel
  | S fuel =>
      if (8 <? size x)%nat then
        let address := fst (earliest (map_to_list x)) in
        match x !! address with
        | Some _ => cleanup fuel (delete address x)
        | None => Err Diverges
        end
      else Ok x
  end.

(** Each iteration removes an entry. *)
Definition cleanupMshr c : MM unit :=
  m ← master c;
  x ← lift (cleanup (S (size (mshr m))) (mshr m));
  upd_master c (put_mshr x).

(** Whether a miss of the line is in progress at [t_now], and when it completes. *)
Definition in_progress (x : gmap Z MshrEntry) address (t_now : Z) : option Z :=
  match x !! address with
  | Some e => if (mshr_t_issue e <? t_now) && (t_now <? mshr_t_complete e) then Some (mshr_t_complete e) else None
  | None => None
  end.

Definition accessATDs c (mem_op_type : Core.mem_op_t) (hit : bool) address (core_num : Z) : MM unit :=
  m ← master c;
  match m_atds m with
  | [] => mret tt
  | atds =>
      a ← lift (arr_get atds (Z.to_nat core_num));
      a ← lift (ATD.access a mem_op_type hit address);
      atds ← lift (arr_set atds (Z.to_nat core_num) a);
      upd_master c (put_atds atds)
  end.

Definition updateCounters c (mem_op_type : Core.mem_op_t) address (cache_hit : bool) (cstate : CacheState.cstate_t)
    (isPrefetch : Prefetch.prefetch_type_t) : MM unit :=
  t_now ← getElapsedTime c ShmemPerfModel.USER_THREAD;
  m ← master c;
  let overlapping := bool_decide (is_Some (in_progress (mshr m) address t_now)) in
  accessATDs c mem_op_type (negb (bool_decide (cstate = CacheState.INVALID))) address
    (m_core_id (cf c) - m_core_id_master (cf c));;
  let prefetch := negb (bool_decide (isPrefetch = Prefetch.NONE)) in
  let own := bool_decide (isPrefetch = Prefetch.OWN) in
  (if bool_decide (mem_op_type = Core.WRITE) then
     when prefetch (incr_stat c stores_prefetch);;
     when (negb own)
       (incr_stat c stores;;
        incr_stat c (stores_state cstate);;
        when (negb cache_hit || overlapping)
          (incr_stat c store_misses;;
           incr_stat c (store_misses_state cstate);;
           when overlapping (incr_stat c store_overlapping_misses)))
   else
     when prefetch (incr_stat c loads_prefetch);;
     when (negb own)
       (incr_stat c loads;;
        incr_stat c (loads_state cstate);;
        when (negb cache_hit)
          (incr_stat c load_misses;;
           incr_stat c (load_misses_state cstate);;
           when overlapping (incr_stat c load_overlapping_misses))));;
  cleanupMshr c.

(** [getCache()->updateCounters(cache_hit)]. *)
Definition count_access c (cache_hit : bool) : MM unit :=
  upd_master c (λ m, put_cache (Cache.updateCounters (m_cache m) cache_hit) m).

Fixpoint updateHits c (mem_op_type : Core.mem_op_t) (hits : nat) : MM unit :=
  match hits with
  | O => mret tt
  | S hits =>
      count_access c true;;
      updateCounters c mem_op_type 0 true
        (if bool_decide (mem_op_type = Core.READ) then CacheState.SHARED else CacheState.MODIFIED) Prefetch.NONE;;
      updateHits c mem_op_type hits
  end.

Definition updateUncoreStatistics c (hit_where : HitWhere.where_t) (now : Z) : MM unit :=
  set_last_remote c hit_where;;
  p ← gets (λ s, perfs s (m_shmem_perf (cf c)));
  when (SubsecondTime.Zero <? ShmemPerf.m_time_begin p)
    (let p := ShmemPerf.disable p in
     upd_vars c (λ v, mk_vars (m_last_remote_hit_where v) (stats v) (ShmemPerf.add (m_shmem_perf_global v) p)
       (SubsecondTime.add (m_shmem_perf_totaltime v) (SubsecondTime.sub now (ShmemPerf.m_time_begin p)))
       (u64 (m_shmem_perf_numrequests v + 1)));;
     upd_perf (m_shmem_perf (cf c)) (λ _, ShmemPerf.reset p SubsecondTime.Zero INVALID_CORE_ID)).

(** ** Requests to the directory *)

Definition processExReqToDirectory c address : MM unit :=
  cstate ← getCacheState c address;
  assert_ (negb (bool_decide (cstate = CacheState.SHARED)));;
  assert_ (bool_decide (cstate = CacheState.INVALID));;
  home ← getHome c address;
  sendMsg c ShmemMsg.EX_REQ (m_core_id_master (cf c)) home address None HitWhere.UNKNOWN
    (Some (m_shmem_perf (cf c))) ShmemPerfModel.USER_THREAD.

Definition processUpgradeReqToDirectory c address (perf : Z) (thread_num : ShmemPerfModel.Thread_t) : MM unit :=
  cstate ← getCacheState c address;
  assert_ (bool_decide (cstate = CacheState.SHARED));;
  setCacheState c address CacheState.SHARED_UPGRADING;;
  home ← getHome c address;
  sendMsg c ShmemMsg.UPGRADE_REQ (m_core_id_master (cf c)) home address None HitWhere.UNKNOWN
    (Some perf) thread_num.

Definition processShReqToDirectory c address : MM unit :=
  home ← getHome c address;
  sendMsg c ShmemMsg.SH_REQ (m_core_id_master (cf c)) home address None HitWhere.UNKNOWN
    (Some (m_shmem_perf (cf c))) ShmemPerfModel.USER_THREAD.

Definition reset_perf c : MM unit :=
  t_now ← getElapsedTime c ShmemPerfModel.USER_THREAD;
  upd_perf (m_shmem_perf (cf c)) (λ p, ShmemPerf.reset p t_now (m_core_id (cf c))).

Definition initiateDirectoryAccess c (mem_op_type : Core.mem_op_t) address (is_prefetch : bool) (t_issue : Z) : MM unit :=
  when (bool_decide (mem_op_type = Core.INVALID_MEM_OP)) (fail LogError);;
  let exclusive := negb (bool_decide (mem_op_type = Core.READ)) in
  upd_master c (λ m, put_waiters (ReqQueueList.enqueue (m_directory_waiters m) address
                       (mk_waiter exclusive is_prefetch c t_issue)) m);;
  m ← master c;
  when (ReqQueueList.size (m_directory_waiters m) address =? 1)%nat
    (reset_perf c;;
     if exclusive then
       cstate ← getCacheState c address;
       if bool_decide (cstate = CacheState.SHARED)
       then processUpgradeReqToDirectory c address (m_shmem_perf (cf c)) ShmemPerfModel.USER_THREAD
       else processExReqToDirectory c address
     else processShReqToDirectory c address).

(** ** Operations called by a cache on its next level *)

Definition copyDataFromNextLevel c (mem_op_type : Core.mem_op_t) address (modeled : bool) (t_now : Z) : MM unit :=
  n ← next_cntlr c;
  '(permissible, _) ← operationPermissibleinCache n address mem_op_type;
  assert_ permissible;;
  data_buf ← retrieveCacheBlock n address (uninit_buf cfg) false;
  cstate ← getCacheState n address;
  when (modeled && negb (ComponentBandwidthPerCycle.isInfinite (m_next_level_read_bandwidth (cf c))))
    (delay ← lift (ComponentBandwidthPerCycle.getRoundedLatency (m_next_level_read_bandwidth (cf c))
                     (u32 (Z.of_nat (m_cache_block_size (cf c)) * 8)));
     m ← master c;
     '(t_done, b) ← lift (ContentionModel.getCompletionTime (next_level_read_bandwidth m) t_now delay 0);
     upd_master c (put_bandwidth b);;
     assert_ (SubsecondTime.add t_now delay <=? t_done);;
     incrElapsedTime c (SubsecondTime.sub (SubsecondTime.sub t_done t_now) delay) ShmemPerfModel.USER_THREAD);;
  cache_block_info ← getCacheBlockInfo c address;
  match cache_block_info with
  | Some _ => updateCacheBlock (levels cfg) c address cstate Transition.UPGRADE None;; mret tt
  | None => insertCacheBlock c address cstate (Some data_buf) (m_core_id (cf c)) ShmemPerfModel.USER_THREAD;; mret tt
  end.

(** The addresses that enter the queue, whose length is [n] so far. *)
Fixpoint enqueue_prefetches c (n : nat) (prefetchList : list Z) : MM (list Z) :=
  match prefetchList with
  | [] => mret []
  | a :: prefetchList =>
      if (PREFETCH_MAX_QUEUE_LENGTH <? n)%nat then mret []
      else
        '(permissible, _) ← operationPermissibleinCache c a Core.READ;
        if permissible : bool then enqueue_prefetches c n prefetchList
        else rest ← enqueue_prefetches c (S n) prefetchList; mret (a :: rest)
  end.

Definition trainPrefetcher c address (cache_hit prefetch_hit prefetch_own : bool) (t_issue : Z) : MM unit :=
  when (m_train_prefetcher_on_hit (cf c) || (negb prefetch_own && negb cache_hit))
    (m ← master c;
     p ← match m_prefetcher m with Some p => mret p | None => fail NullPointer end;
     '(prefetchList, p) ← lift (getNextAddress p address (m_core_id (cf c)));
     upd_master c (put_prefetcher (Some p));;
     when (negb cache_hit || (m_prefetch_on_prefetch_hit (cf c) && prefetch_hit))
       (let next := if m_prefetch_delay (cf c) then SubsecondTime.add t_issue PREFETCH_INTERVAL else t_issue in
        l ← enqueue_prefetches c 0 prefetchList;
        upd_master c (put_queue l next))).

(** The previous levels other than the one that asks change the state of a line. *)
Definition snoop_others c (requester : nat) address (new_cstate : CacheState.cstate_t)
    (reason : Transition.reason_t) : MM bool :=
  '(latency, sibling_hit) ← foldM (λ '(latency, sibling_hit) it,
      if (it =? requester)%nat then mret (latency, sibling_hit)
      else
        '(l, hit, _) ← updateCacheBlock (levels cfg) it address new_cstate reason None;
        mret (Z.max latency l, sibling_hit || hit))
    (SubsecondTime.Zero, false) (m_prev_cache_cntlrs (mf c));
  incrElapsedTime c latency ShmemPerfModel.USER_THREAD;;
  add_stat c snoop_latency latency;;
  mret sibling_hit.

(** An option of a block that a hit finds set is cleared and counted. *)
Definition take_option c (l : Cache.loc) (o : CacheBlockInfo.option_t) (enabled : bool) (k : stat) : MM bool :=
  b ← block c l;
  let set := enabled && CacheBlockInfo.hasOption b o in
  when set (incr_stat c k;; upd_block c l (λ b, CacheBlockInfo.clearOption b o));;
  mret set.

(** The hit path of [processShmemReqFromPrevCache]: whether the line was prefetched, and where it hit. *)
Definition request_hits c (requester : nat) (mem_op_type : Core.mem_op_t) address (l : Cache.loc) (modeled : bool)
    (isPrefetch : Prefetch.prefetch_type_t) : MM (bool * HitWhere.where_t) :=
  prefetch_hit ← take_option c l CacheBlockInfo.PREFETCH (bool_decide (isPrefetch = Prefetch.NONE)) hits_prefetch;
  take_option c l CacheBlockInfo.WARMUP (negb (cache_only cfg)) hits_warmup;;
  when modeled
    (t_now ← getElapsedTime c ShmemPerfModel.USER_THREAD;
     m ← master c;
     match in_progress (mshr m) address t_now with
     | Some t_complete =>
         let latency := SubsecondTime.sub t_complete t_now in
         add_stat c mshr_latency latency;;
         incrElapsedTime c latency ShmemPerfModel.USER_THREAD
     | None => incr_access c CachePerfModel.ACCESS_CACHE_DATA_AND_TAGS ShmemPerfModel.USER_THREAD
     end);;
  cstate ← getCState c l;
  sibling_hit ←
    (if negb (bool_decide (mem_op_type = Core.READ)) then
       snoop_others c requester address CacheState.INVALID Transition.COHERENCY
     else if bool_decide (cstate = CacheState.MODIFIED) || bool_decide (cstate = CacheState.EXCLUSIVE) then
       snoop_others c requester address CacheState.SHARED Transition.COHERENCY
     else mret false);
  v ← gets (λ s, vars s c);
  if bool_decide (m_last_remote_hit_where v = HitWhere.UNKNOWN)
  then mret (prefetch_hit, where_of (m_mem_component (cf c)) sibling_hit)
  else set_last_remote c HitWhere.UNKNOWN;; mret (prefetch_hit, m_last_remote_hit_where v).

(** [setOption(PREFETCH)] of a block that must be there. *)
Definition mark_prefetched c address : MM unit :=
  p ← getCacheBlockInfo c address;
  l ← deref_block c p;
  upd_block c l (λ b, CacheBlockInfo.setOption b CacheBlockInfo.PREFETCH).

(** A miss in the last level; [None] for the location of a block that is not there. Whether
    it counts as a hit after all, and where. *)
Definition last_level_miss c (requester : nat) (mem_op_type : Core.mem_op_t) address (cache_block_info : option Cache.loc)
    (is_prefetch : bool) (t_issue : Z) : MM (bool * HitWhere.where_t) :=
  cstate ← getCacheState_of c cache_block_info;
  match cache_block_info with
  | Some l =>
      if bool_decide (cstate = CacheState.EXCLUSIVE) then
        snoop_others c requester address CacheState.INVALID Transition.UPGRADE;;
        setCState c l CacheState.MODIFIED;;
        mret (true, where_of (m_mem_component (cf c)) false)
      else if m_direct_dram (mf c) then
        setCState c l CacheState.MODIFIED;;
        mret (true, where_of (m_mem_component (cf c)) false)
      else
        initiateDirectoryAccess c mem_op_type address is_prefetch t_issue;;
        mret (false, HitWhere.MISS)
  | None =>
      if m_direct_dram (mf c) then
        reset_perf c;;
        '(hit_where, latency, data_buf) ← accessDRAM c Core.READ address (uninit_buf cfg);
        incrElapsedTime c latency ShmemPerfModel.USER_THREAD;;
        insertCacheBlock c address
          (if bool_decide (mem_op_type = Core.READ) then CacheState.SHARED else CacheState.MODIFIED)
          (Some data_buf) (m_core_id (cf c)) ShmemPerfModel.USER_THREAD;;
        when is_prefetch (mark_prefetched c address);;
        t_now ← getElapsedTime c ShmemPerfModel.USER_THREAD;
        updateUncoreStatistics c hit_where t_now;;
        mret (true, hit_where)
      else
        initiateDirectoryAccess c mem_op_type address is_prefetch t_issue;;
        mret (false, HitWhere.MISS)
  end.

(** A cache that is [perfect] has every line; one that is [passthrough] none. The answer of
    [operationPermissibleinCache] becomes: is it a hit, was it one at first, the block. *)
Definition special_modes c (mem_op_type : Core.mem_op_t) address (permissible : bool) (p : option Cache.loc)
    (count : bool) : MM (bool * bool * option Cache.loc) :=
  if negb permissible && m_perfect (cf c) then
    match p with
    | Some l => setCState c l CacheState.MODIFIED;; mret (true, permissible, p)
    | None =>
        p ← insertCacheBlock c address
              (if bool_decide (mem_op_type = Core.READ) then CacheState.SHARED else CacheState.MODIFIED)
              None (m_core_id (cf c)) ShmemPerfModel.USER_THREAD;
        mret (true, permissible, p)
    end
  else if permissible && m_passthrough (cf c) && count then
    l ← deref_block c p;
    upd_block c l CacheBlockInfo.invalidate;;
    mret (false, false, None)
  else mret (permissible, permissible, p).

Fixpoint processShmemReqFromPrevCache (fuel : nat) c (requester : nat) (mem_op_type : Core.mem_op_t) address
    (modeled count : bool) (isPrefetch : Prefetch.prefetch_type_t) (t_issue : Z) : MM HitWhere.where_t :=
  match fuel with
  | O => fail NoFuel
  | S fuel =>
      let is_prefetch := negb (bool_decide (isPrefetch = Prefetch.NONE)) in
      '(permissible, p) ← operationPermissibleinCache c address mem_op_type;
      '(cache_hit, first_hit, p) ← special_modes c mem_op_type address permissible p count;
      when (permissible && m_passthrough (cf c) && count)
        (assert_ (bool_decide (is_Some (m_next_cache_cntlr (cf c)))));;
      when count
        (when (negb is_prefetch) (count_access c cache_hit);;
         cstate ← getCacheState c address;
         updateCounters c mem_op_type address cache_hit cstate isPrefetch);;
      '(cache_hit, prefetch_hit, hit_where) ←
        (if cache_hit : bool then
           l ← deref_block c p;
           '(prefetch_hit, hit_where) ← request_hits c requester mem_op_type address l modeled isPrefetch;
           mret (true, prefetch_hit, hit_where)
         else
           when modeled (incr_access c CachePerfModel.ACCESS_CACHE_TAGS ShmemPerfModel.USER_THREAD);;
           cstate ← getCacheState_of c p;
           when (bool_decide (cstate = CacheState.SHARED))
             (snoop_others c requester address CacheState.INVALID Transition.UPGRADE;; mret tt);;
           match m_next_cache_cntlr (cf c) with
           | Some n =>
               when (bool_decide (is_Some p)) (invalidateCacheBlock c address);;
               hit_where ← processShmemReqFromPrevCache fuel n c mem_op_type address modeled count
                             (if is_prefetch then Prefetch.OTHER else Prefetch.NONE) t_issue;
               if bool_decide (hit_where = HitWhere.MISS) then mret (false, false, hit_where)
               else
                 t_now ← getElapsedTime c ShmemPerfModel.USER_THREAD;
                 copyDataFromNextLevel c mem_op_type address modeled t_now;;
                 when is_prefetch (mark_prefetched c address);;
                 mret (true, false, hit_where)
           | None =>
               '(hit, hit_where) ← last_level_miss c requester mem_op_type address p is_prefetch t_issue;
               mret (hit, false, hit_where)
           end);
      when cache_hit
        (retrieveCacheBlock c address (uninit_buf cfg) (first_hit && count);;
         when (modeled && negb first_hit && negb (m_passthrough (cf c)))
           (t_now ← getElapsedTime c ShmemPerfModel.USER_THREAD;
            upd_master c (λ m, put_mshr (<[address := make_mshr t_issue t_now]> (mshr m)) m);;
            cleanupMshr c));;
      m ← master c;
      when (modeled && bool_decide (is_Some (m_prefetcher m)))
        (trainPrefetcher c address cache_hit prefetch_hit (bool_decide (isPrefetch = Prefetch.OWN)) t_issue);;
      mret hit_where
  end.

(** ** Operations called by the core on a first-level cache *)

(** The access itself, once the line is there: what a load leaves in [data_buf]. *)
Definition accessCache c (mem_op_type : Core.mem_op_t) ca_address (offset : nat) (data_buf : option bytes)
    (data_length : nat) (update_replacement : bool) : MM (option bytes) :=
  let address := u64 (ca_address + Z.of_nat offset) in
  match mem_op_type with
  | Core.READ | Core.READ_EX =>
      r ← cache_call c (λ x, Cache.accessSingleLine x address CacheBase.LOAD data_buf data_length update_replacement);
      mret (match r with Some (_, Some read) => Some read | _ => data_buf end)
  | Core.WRITE =>
      system_eid ← getGlobalSystemEID;
      r ← cache_call c (λ x, Cache.accessSingleLine x address CacheBase.STORE data_buf data_length update_replacement);
      l ← deref_block c (fst <$> r);
      b ← block c l;
      when (negb (CacheBlockInfo.m_eid b =? system_eid)) (upd_block c l (λ b, CacheBlockInfo.set_epoch b system_eid));;
      when (m_cache_writethrough (cf c))
        (assert_ (bool_decide (is_Some (m_next_cache_cntlr (cf c))));;
         n ← next_cntlr c;
         writeCacheBlock (levels cfg) n ca_address offset data_buf data_length);;
      mret data_buf
  | Core.INVALID_MEM_OP => fail LogError
  end.

(** The first address of the queue that is not in the cache, and the rest of the queue. *)
Fixpoint next_prefetch c (l : list Z) : MM (option Z * list Z) :=
  match l with
  | [] => mret (None, [])
  | address :: l =>
      '(permissible, _) ← operationPermissibleinCache c address Core.READ;
      if permissible : bool then next_prefetch c l else mret (Some address, l)
  end.

(** The end of [doPrefetch]: what the prefetch did to the clock is forgotten. *)
Definition end_prefetch c (t_before : Z) : MM unit := setElapsedTime c ShmemPerfModel.USER_THREAD t_before.

(** [doPrefetch] up to the wait for the network thread: whether it completed. *)
Definition doPrefetch c (prefetch_address t_start t_now : Z) (answer : HitWhere.where_t * option bytes) : MM bool :=
  incr_stat c prefetches;;
  t_before ← getElapsedTime c ShmemPerfModel.USER_THREAD;
  setElapsedTime c ShmemPerfModel.USER_THREAD t_start;;
  w ← processShmemReqFromPrevCache (levels cfg) c c Core.READ prefetch_address true true Prefetch.OWN t_start;
  if bool_decide (w = HitWhere.MISS) then
    modify (λ s, set_waiting (<[m_core_id (cf c) :=
      Some (InPrefetch c prefetch_address t_start t_before t_now answer)]> (waiting s)) s);;
    mret false
  else end_prefetch c t_before;; mret true.

Definition advance_queue c : MM unit :=
  upd_master c (λ m, put_queue (m_prefetch_list m) (SubsecondTime.add (m_prefetch_next m) PREFETCH_INTERVAL) m).

(** [Prefetch], on this level and the next ones; whether it ended without waiting.
    [answer] is what the access will return: where it hit, and what it read. *)
Fixpoint Prefetch (fuel : nat) c (t_now : Z) (answer : HitWhere.where_t * option bytes) : MM bool :=
  match fuel with
  | O => fail NoFuel
  | S fuel =>
      m ← master c;
      address_to_prefetch ←
        (if m_prefetch_next m <=? t_now then
           '(a, l) ← next_prefetch c (m_prefetch_list m);
           upd_master c (λ m, put_queue l (m_prefetch_next m) m);;
           mret (default INVALID_ADDRESS a)
         else mret INVALID_ADDRESS);
      completed ←
        (if address_to_prefetch =? INVALID_ADDRESS then mret true
         else
           completed ← doPrefetch c address_to_prefetch (m_prefetch_next m) t_now answer;
           when completed (advance_queue c);;
           mret completed);
      match completed : bool, m_next_cache_cntlr (cf c) with
      | true, Some n => Prefetch fuel n t_now answer
      | b, _ => mret b
      end
  end.

(** The access returns to the core. *)
Definition return_to_core c (answer : HitWhere.where_t * option bytes) : MM unit :=
  modify (λ s, set_returned (returned s ++ [(m_core_id (cf c), answer)]) s).

(** The end of [processMemOpFromCore], from the access to the line on. *)
Definition finish_mem_op c (op : mem_op) (t_start : Z) (cache_hit prefetch_hit : bool) (hit_where : HitWhere.where_t) : MM unit :=
  data_buf ← accessCache c (op_type op) (op_address op) (op_offset op) (op_data_buf op) (op_data_length op)
    (bool_decide (hit_where = where_of (m_mem_component (cf c)) false) && op_count op);
  t_now ← getElapsedTime c ShmemPerfModel.USER_THREAD;
  when (negb cache_hit && op_count op) (add_stat c total_latency (SubsecondTime.sub t_now t_start));;
  incr_stat c (if bool_decide (op_type op = Core.WRITE) then stores_where hit_where else loads_where hit_where);;
  m ← master c;
  when (op_modeled op && bool_decide (is_Some (m_prefetcher m)))
    (trainPrefetcher c (op_address op) cache_hit prefetch_hit false t_start);;
  completed ←
    (if negb (bool_decide (op_lock_signal op = Core.LOCK)) && op_modeled op
     then Prefetch (levels cfg) c t_start (hit_where, data_buf) else mret true);
  when completed (return_to_core c (hit_where, data_buf)).

(** The data are in the next level: they are copied, and the access is done. *)
Definition fill_mem_op c (op : mem_op) (t_start t_miss_begin t_mshr_avail : Z) (hit_where : HitWhere.where_t) : MM unit :=
  t_now ← getElapsedTime c ShmemPerfModel.USER_THREAD;
  copyDataFromNextLevel c (op_type op) (op_address op) (op_modeled op) t_now;;
  '(permissible, _) ← operationPermissibleinCache c (op_address op) (op_type op);
  assert_ permissible;;
  when (op_modeled op && m_l1_mshr (cf c) && negb (m_passthrough (cf c)))
    (t_miss_end ← getElapsedTime c ShmemPerfModel.USER_THREAD;
     m ← master c;
     '(_, x) ← lift (ContentionModel.getCompletionTime (master_l1_mshr m) t_miss_begin
                       (SubsecondTime.sub t_miss_end t_mshr_avail) (op_address op));
     upd_master c (put_l1_mshr x));;
  finish_mem_op c op t_start false false hit_where.

(** The hit path of [processMemOpFromCore]: whether the line was prefetched. *)
Definition mem_op_hits c (op : mem_op) (l : Cache.loc) : MM bool :=
  incr_access c CachePerfModel.ACCESS_CACHE_DATA_AND_TAGS ShmemPerfModel.USER_THREAD;;
  take_option c l CacheBlockInfo.WARMUP (negb (cache_only cfg)) hits_warmup;;
  prefetch_hit ← take_option c l CacheBlockInfo.PREFETCH true hits_prefetch;
  when (op_modeled op && m_l1_mshr (cf c))
    (t_now ← getElapsedTime c ShmemPerfModel.USER_THREAD;
     m ← master c;
     let t_completed := ContentionModel.getTagCompletionTime (master_l1_mshr m) (op_address op) in
     when (negb (t_completed =? SubsecondTime.MaxTime) && (t_now <? t_completed))
       (incr_stat c (if bool_decide (op_type op = Core.WRITE) then store_overlapping_misses else load_overlapping_misses);;
        incrElapsedTime c (SubsecondTime.sub t_completed t_now) ShmemPerfModel.USER_THREAD));;
  when (op_modeled op)
    (t_now ← getElapsedTime c ShmemPerfModel.USER_THREAD;
     m ← master c;
     match in_progress (mshr m) (op_address op) t_now with
     | Some t_complete =>
         let latency := SubsecondTime.sub t_complete t_now in
         add_stat c mshr_latency latency;;
         incrElapsedTime c latency ShmemPerfModel.USER_THREAD
     | None => mret tt
     end);;
  mret prefetch_hit.

(** The miss path, up to the wait for the network thread. *)
Definition mem_op_misses c (op : mem_op) (t_start : Z) : MM unit :=
  when (negb (m_passthrough (cf c))) (incr_access c CachePerfModel.ACCESS_CACHE_TAGS ShmemPerfModel.USER_THREAD);;
  t_miss_begin ← getElapsedTime c ShmemPerfModel.USER_THREAD;
  t_mshr_avail ←
    (if op_modeled op && m_l1_mshr (cf c) && negb (m_passthrough (cf c)) then
       m ← master c;
       t_mshr_avail ← lift (ContentionModel.getStartTime (master_l1_mshr m) t_miss_begin);
       assert_ (t_miss_begin <=? t_mshr_avail);;
       let latency := SubsecondTime.sub t_mshr_avail t_miss_begin in
       incrElapsedTime c latency ShmemPerfModel.USER_THREAD;;
       add_stat c mshr_latency latency;;
       mret t_mshr_avail
     else mret t_miss_begin);
  when (bool_decide (op_lock_signal op = Core.UNLOCK)) (fail LogError);;
  x ← getCacheState c (op_address op);
  when (negb (bool_decide (x = CacheState.INVALID))) (invalidateCacheBlock c (op_address op));;
  n ← next_cntlr c;
  hit_where ← processShmemReqFromPrevCache (levels cfg) n c (op_type op) (op_address op) (op_modeled op) (op_count op)
                Prefetch.NONE t_start;
  if bool_decide (hit_where = HitWhere.MISS) then
    modify (λ s, set_waiting (<[m_core_id (cf c) :=
      Some (InMemOp c op t_start t_miss_begin t_mshr_avail)]> (waiting s)) s)
  else fill_mem_op c op t_start t_miss_begin t_mshr_avail hit_where.

Definition processMemOpFromCore c (op : mem_op) : MM unit :=
  let ca_address := op_address op in
  assert_ (Z.land ca_address (Z.of_nat (m_cache_block_size (cf c)) - 1) =? 0);;
  assert_ (op_offset op + op_data_length op <=? m_cache_block_size (cf c))%nat;;
  t_start ← getElapsedTime c ShmemPerfModel.USER_THREAD;
  '(permissible, p) ← operationPermissibleinCache c ca_address (op_type op);
  '(cache_hit, _, p) ← special_modes c (op_type op) ca_address permissible p true;
  when (op_count op)
    (count_access c cache_hit;;
     cstate ← getCacheState_of c p;
     updateCounters c (op_type op) ca_address cache_hit cstate Prefetch.NONE);;
  if cache_hit : bool then
    l ← deref_block c p;
    prefetch_hit ← mem_op_hits c op l;
    finish_mem_op c op t_start true prefetch_hit (where_of (m_mem_component (cf c)) false)
  else mem_op_misses c op t_start.

(** What a core does when the network thread wakes it up. *)
Definition resume (core : Z) : MM unit :=
  w ← gets (λ s, waiting s core);
  modify (λ s, set_waiting (<[core := None]> (waiting s)) s);;
  match w with
  | None => fail AssertFail        (* the network thread waits for ever *)
  | Some (InMemOp c op t_start t_miss_begin t_mshr_avail) =>
      n ← next_cntlr c;
      hit_where ← processShmemReqFromPrevCache (levels cfg) n c (op_type op) (op_address op) false false
                    Prefetch.NONE t_start;
      assert_ (negb (bool_decide (hit_where = HitWhere.MISS)));;
      fill_mem_op c op t_start t_miss_begin t_mshr_avail hit_where
  | Some (InPrefetch c prefetch_address t_start t_before t_now answer) =>
      w ← processShmemReqFromPrevCache (levels cfg) c c Core.READ prefetch_address false false Prefetch.OWN t_start;
      assert_ (negb (bool_decide (w = HitWhere.MISS)));;
      end_prefetch c t_before;;
      advance_queue c;;
      completed ← match m_next_cache_cntlr (cf c) with
                  | Some n => Prefetch (levels cfg) n t_now answer
                  | None => mret true
                  end;
      when completed (return_to_core c answer)
  end.

(** ** Messages from the directory *)

Definition sim_time c : MM Z := getElapsedTime c ShmemPerfModel.SIM_THREAD.

(** [shmem_msg->getPerf()->updateTime(getShmemPerfModel()->getElapsedTime(_SIM_THREAD), reason)]. *)
Definition update_msg_perf c (shmem_msg : ShmemMsg.t) (reason : ShmemPerf.shmem_times_type_t) : MM unit :=
  t_now ← sim_time c;
  upd_perf_ptr (ShmemMsg.m_perf shmem_msg) (λ p, ShmemPerf.updateTime p t_now reason).

(** The bytes that a message carries, if any. *)
Definition msg_data (shmem_msg : ShmemMsg.t) : MM (option bytes) := lift (DirCntlr.payload (ShmemMsg.m_data_buf shmem_msg)).

Definition processExRepFromDramDirectory c (requester : Z) (shmem_msg : ShmemMsg.t) : MM unit :=
  data_buf ← msg_data shmem_msg;
  insertCacheBlock c (ShmemMsg.m_address shmem_msg) CacheState.EXCLUSIVE data_buf requester ShmemPerfModel.SIM_THREAD;;
  mret tt.

Definition processShRepFromDramDirectory c (requester : Z) (shmem_msg : ShmemMsg.t) : MM unit :=
  data_buf ← msg_data shmem_msg;
  insertCacheBlock c (ShmemMsg.m_address shmem_msg) CacheState.SHARED data_buf requester ShmemPerfModel.SIM_THREAD;;
  mret tt.

Definition processUpgradeRepFromDramDirectory c (shmem_msg : ShmemMsg.t) : MM unit :=
  let address := ShmemMsg.m_address shmem_msg in
  cstate ← getCacheState c address;
  match cstate with
  | CacheState.INVALID =>
      data_buf ← msg_data shmem_msg;
      assert_ (bool_decide (is_Some data_buf));;
      updateCacheBlock (levels cfg) c address CacheState.MODIFIED Transition.UPGRADE data_buf;; mret tt
  | CacheState.SHARED_UPGRADING =>
      updateCacheBlock (levels cfg) c address CacheState.MODIFIED Transition.UPGRADE None;; mret tt
  | _ => fail LogError
  end.

(** The reply to a request of the directory, with data or without. *)
Definition reply c (sender : Z) (shmem_msg : ShmemMsg.t) (msg_type : ShmemMsg.msg_t) (data_buf : option bytes) : MM unit :=
  sendMsg c msg_type (ShmemMsg.m_requester shmem_msg) sender (ShmemMsg.m_address shmem_msg) data_buf
    HitWhere.UNKNOWN (ShmemMsg.m_perf shmem_msg) ShmemPerfModel.SIM_THREAD.

Definition processInvReqFromDramDirectory c (sender : Z) (shmem_msg : ShmemMsg.t) : MM unit :=
  let address := ShmemMsg.m_address shmem_msg in
  cstate ← getCacheState c address;
  if bool_decide (cstate = CacheState.INVALID) then
    incr_access c CachePerfModel.ACCESS_CACHE_TAGS ShmemPerfModel.SIM_THREAD
  else
    update_msg_perf c shmem_msg ShmemPerf.UNKNOWN;;
    incr_access c CachePerfModel.ACCESS_CACHE_TAGS ShmemPerfModel.SIM_THREAD;;
    updateCacheBlock (levels cfg) c address CacheState.INVALID Transition.COHERENCY None;;
    update_msg_perf c shmem_msg ShmemPerf.REMOTE_CACHE_INV;;
    reply c sender shmem_msg ShmemMsg.INV_REP None.

Definition processFlushReqFromDramDirectory c (sender : Z) (shmem_msg : ShmemMsg.t) : MM unit :=
  let address := ShmemMsg.m_address shmem_msg in
  cstate ← getCacheState c address;
  if bool_decide (cstate = CacheState.INVALID) then
    incr_access c CachePerfModel.ACCESS_CACHE_TAGS ShmemPerfModel.SIM_THREAD
  else
    update_msg_perf c shmem_msg ShmemPerf.UNKNOWN;;
    incr_access c CachePerfModel.ACCESS_CACHE_DATA_AND_TAGS ShmemPerfModel.SIM_THREAD;;
    '(_, _, data_buf) ← updateCacheBlock (levels cfg) c address CacheState.INVALID Transition.COHERENCY (Some (uninit_buf cfg));
    update_msg_perf c shmem_msg ShmemPerf.REMOTE_CACHE_WB;;
    reply c sender shmem_msg ShmemMsg.FLUSH_REP data_buf.

Definition processWbReqFromDramDirectory c (sender : Z) (shmem_msg : ShmemMsg.t) : MM unit :=
  let address := ShmemMsg.m_address shmem_msg in
  cstate ← getCacheState c address;
  if bool_decide (cstate = CacheState.INVALID) then
    incr_access c CachePerfModel.ACCESS_CACHE_TAGS ShmemPerfModel.SIM_THREAD;;
    update_msg_perf c shmem_msg ShmemPerf.REMOTE_CACHE_WB
  else
    update_msg_perf c shmem_msg ShmemPerf.UNKNOWN;;
    incr_access c CachePerfModel.ACCESS_CACHE_DATA_AND_TAGS ShmemPerfModel.SIM_THREAD;;
    data_buf ←
      (if bool_decide (cstate = CacheState.SHARED_UPGRADING) then mret (Some (uninit_buf cfg))
       else
         '(_, _, data_buf) ← updateCacheBlock (levels cfg) c address CacheState.SHARED Transition.COHERENCY (Some (uninit_buf cfg));
         mret data_buf);
    update_msg_perf c shmem_msg ShmemPerf.REMOTE_CACHE_FWD;;
    reply c sender shmem_msg ShmemMsg.WB_REP data_buf.

(** The loop over the requests that wait for a line, first to last; it stops when one of
    them needs more rights than the line came with. *)
Fixpoint wake_waiters (fuel : nat) c address (where_ : HitWhere.where_t) : MM unit :=
  match fuel with
  | O => fail NoFuel
  | S fuel =>
      m ← master c;
      if ReqQueueList.empty (m_directory_waiters m) address then mret tt
      else
        request ← lift (ReqQueueList.front (m_directory_waiters m) address);
        let r := cache_cntlr request in
        t_here ← sim_time c;
        upd_perf (m_shmem_perf (cf r)) (λ p, ShmemPerf.updateTime p t_here ShmemPerf.PENDING_HIT);;
        cstate ← getCacheState c address;
        if exclusive request && bool_decide (cstate = CacheState.SHARED) then
          processUpgradeReqToDirectory c address (m_shmem_perf (cf r)) ShmemPerfModel.SIM_THREAD
        else
          when (isPrefetch request) (mark_prefetched c address);;
          t_core ← getElapsedTime r ShmemPerfModel.USER_THREAD;
          when (t_core <? t_here) (setElapsedTime r ShmemPerfModel.USER_THREAD t_here);;
          updateUncoreStatistics r where_ t_here;;
          resume (m_core_id (cf r));;
          t_here ← sim_time c;
          upd_master r (λ m, put_mshr (<[address := make_mshr (t_issue request) t_here]> (mshr m)) m);;
          cleanupMshr c;;
          m ← master c;
          '(_, q) ← lift (ReqQueueList.dequeue (m_directory_waiters m) address);
          upd_master c (put_waiters q);;
          wake_waiters fuel c address where_
  end.

(** Replies to a request of this cache; they release those that wait for the line. *)
Definition is_reply (x : ShmemMsg.msg_t) : bool :=
  match x with ShmemMsg.EX_REP | ShmemMsg.SH_REP | ShmemMsg.UPGRADE_REP => true | _ => false end.

(** [fuel] bounds the number of requests that wait for the line. *)
Definition handleMsgFromDramDirectory (fuel : nat) c (sender : Z) (shmem_msg : ShmemMsg.t) : MM unit :=
  let address := ShmemMsg.m_address shmem_msg in
  let type := ShmemMsg.m_msg_type shmem_msg in
  requester ←
    (if is_reply type then
       m ← master c;
       request ← lift (ReqQueueList.front (m_directory_waiters m) address);
       mret (m_core_id (cf (cache_cntlr request)))
     else mret INVALID_CORE_ID);
  match type with
  | ShmemMsg.EX_REP => processExRepFromDramDirectory c requester shmem_msg
  | ShmemMsg.SH_REP => processShRepFromDramDirectory c requester shmem_msg
  | ShmemMsg.UPGRADE_REP => processUpgradeRepFromDramDirectory c shmem_msg
  | ShmemMsg.INV_REQ => processInvReqFromDramDirectory c sender shmem_msg
  | ShmemMsg.FLUSH_REQ => processFlushReqFromDramDirectory c sender shmem_msg
  | ShmemMsg.WB_REQ => processWbReqFromDramDirectory c sender shmem_msg
  | _ => fail LogError
  end;;
  when (is_reply type) (wake_waiters fuel c address (ShmemMsg.m_where shmem_msg)).

(** [flushCacheBlock], for the [asyncCacheScan] of this class, which nothing calls, as the
    registration of its hook is commented out. *)
Definition flushCacheBlock c (l : Cache.loc) : MM unit :=
  b ← block c l;
  m ← master c;
  let address := CacheBase.tagToAddress (Cache.base (m_cache m)) (CacheBlockInfo.m_tag b) in
  '(_, _, data_buf) ← updateCacheBlock (levels cfg) c address CacheState.SHARED Transition.COHERENCY (Some (uninit_buf cfg));
  home ← getHome c address;
  sendMsg c ShmemMsg.CP_REP (m_core_id_master (cf c)) home address data_buf HitWhere.UNKNOWN
    (Some (m_dummy_shmem_perf (cf c))) ShmemPerfModel.SIM_THREAD.
End ops.
End CacheCntlr.
