(* ===== verification/MemoryManager.v ===== *)
(** The construction of the simulated machine's memory: the constructors of
    [parametric_dram_directory_msi/memory_manager.cc] for all cores in order
    ([core_manager.cc]), with those of [CacheParameters], [CacheCntlr] and
    [CacheMasterCntlr] ([cache_cntlr.{h,cc}]), the choice of a replacement policy in
    [cache_set.cc], the places of memory controllers ([memory_manager_base.cc]), TLBs and
    undo buffers.

    What the configuration file says is [sim_cfg]; [MemoryManager.build] builds the controllers,
    in the order of their creation, and the caches, which go by the number of the controller
    that owns them.  [config_of] and [start_of] give them the shape of [CacheCntlr].  The memory
    controllers, NUCA caches and directory controllers that the constructor creates besides are
    those of [Memory], [Nuca] and [DirCntlr], whose theorems start from their own constructors. *)
From stdpp Require Import pretty.
From S2P Require Import Prelude Utils Timing QueueModels BlockInfo AddressMap Replacement CacheModel ShmemMsg DirCntlr.
From S2P Require Import Memory Epoch UndoBuffer StateResult TlbAtd Prefetchers CacheCntlr.

(** ** [CacheSet::createCacheSet] *)
Module AnyPolicy.
Inductive t :=
  | Lru (p : LRU.t) | Mru (p : MRU.t) | Nmru (p : NMRU.t) | Nru (p : NRU.t) | Plru (p : PLRU.t)
  | RoundRobin_ (p : RoundRobin.t) | Random_ (p : RandomPolicy.t) | Srrip (p : SRRIP.t).

(** The dispatch of the virtual calls. *)
Definition getReplacementIndex (c : cntlr) (assoc : nat) (l : blocks) (info : CacheSetInfoLRU) (p : t) :
    result (nat * (CacheSetInfoLRU * t)) :=
  match p with
  | Lru p => let! (i, (info, p)) := getReplacementIndex c assoc l info p in Ok (i, (info, Lru p))
  | Mru p => let! (i, (info, p)) := getReplacementIndex c assoc l info p in Ok (i, (info, Mru p))
  | Nmru p => let! (i, (info, p)) := getReplacementIndex c assoc l info p in Ok (i, (info, Nmru p))
  | Nru p => let! (i, (info, p)) := getReplacementIndex c assoc l info p in Ok (i, (info, Nru p))
  | Plru p => let! (i, (info, p)) := getReplacementIndex c assoc l info p in Ok (i, (info, Plru p))
  | RoundRobin_ p => let! (i, (info, p)) := getReplacementIndex c assoc l info p in Ok (i, (info, RoundRobin_ p))
  | Random_ p => let! (i, (info, p)) := getReplacementIndex c assoc l info p in Ok (i, (info, Random_ p))
  | Srrip p => let! (i, (info, p)) := getReplacementIndex c assoc l info p in Ok (i, (info, Srrip p))
  end.
Definition updateReplacementIndex (assoc : nat) (info : CacheSetInfoLRU) (p : t) (accessed_index : nat) :
    result (CacheSetInfoLRU * t) :=
  match p with
  | Lru p => let! (info, p) := updateReplacementIndex assoc info p accessed_index in Ok (info, Lru p)
  | Mru p => let! (info, p) := updateReplacementIndex assoc info p accessed_index in Ok (info, Mru p)
  | Nmru p => let! (info, p) := updateReplacementIndex assoc info p accessed_index in Ok (info, Nmru p)
  | Nru p => let! (info, p) := updateReplacementIndex assoc info p accessed_index in Ok (info, Nru p)
  | Plru p => let! (info, p) := updateReplacementIndex assoc info p accessed_index in Ok (info, Plru p)
  | RoundRobin_ p => let! (info, p) := updateReplacementIndex assoc info p accessed_index in Ok (info, RoundRobin_ p)
  | Random_ p => let! (info, p) := updateReplacementIndex assoc info p accessed_index in Ok (info, Random_ p)
  | Srrip p => let! (info, p) := updateReplacementIndex assoc info p accessed_index in Ok (info, Srrip p)
  end.
#[global] Instance policy : Policy t := {
  Replacement.getReplacementIndex := getReplacementIndex;
  Replacement.updateReplacementIndex := updateReplacementIndex;
}.

(** [qbs_attempts], [rrip_numbits] and [time] are [/qbs/attempts] and [/srrip/bits] of the
    configuration and the value of [time(NULL)]. *)
Definition createCacheSet (policy : CacheBase.ReplacementPolicy) (associativity : nat)
    (qbs_attempts rrip_numbits time : Z) : result t :=
  let attempts := Z.to_nat (getNumQBSAttempts policy qbs_attempts) in
  match policy with
  | CacheBase.ROUND_ROBIN => Ok (RoundRobin_ (RoundRobin.new associativity))
  | CacheBase.LRU | CacheBase.LRU_QBS => Ok (Lru (LRU.new associativity attempts))
  | CacheBase.NRU => Ok (Nru (NRU.new associativity))
  | CacheBase.MRU => Ok (Mru (MRU.new associativity))
  | CacheBase.NMRU => Ok (Nmru (NMRU.new associativity))
  | CacheBase.PLRU => let! p := PLRU.new associativity in Ok (Plru p)
  | CacheBase.SRRIP | CacheBase.SRRIP_QBS => Ok (Srrip (SRRIP.new associativity rrip_numbits attempts))
  | CacheBase.RANDOM => Ok (Random_ (RandomPolicy.mk (u32 time)))
  end.
End AnyPolicy.

(** [CacheSet::createCacheSetInfo]; only the sets of the policies with such statistics use it. *)
Definition createCacheSetInfo (policy : CacheBase.ReplacementPolicy) (associativity : nat) (qbs_attempts : Z) : CacheSetInfoLRU :=
  new_info associativity (Z.to_nat (getNumQBSAttempts policy qbs_attempts)).

(** Machines whose caches may have any policy, and those of a single one. *)
Class PolicyFactory (P : Type) := createSet : CacheBase.ReplacementPolicy → nat → Z → Z → Z → result P.
#[export] Instance any_factory : PolicyFactory AnyPolicy.t := AnyPolicy.createCacheSet.
#[export] Instance lru_factory : PolicyFactory LRU.t := λ policy associativity qbs_attempts _ _,
  match policy with
  | CacheBase.LRU | CacheBase.LRU_QBS => Ok (LRU.new associativity (Z.to_nat (getNumQBSAttempts policy qbs_attempts)))
  | _ => Err LogError
  end.

(** ** The configuration *)

(** [perf_model/<name>/...] of one cache. *)
Record cache_cfg := mk_cache_cfg {
  c_cache_size : Z;                        (* in KB *)
  c_associativity : Z;
  c_cache_block_size : Z;
  c_address_hash : string;
  c_replacement_policy : string;
  c_qbs_attempts : Z;
  c_srrip_bits : Z;
  c_perfect : bool;
  c_coherent : bool;
  c_passthrough : bool;
  c_data_access_time : Z;
  c_tags_access_time : Z;
  c_writeback_time : Z;
  c_next_level_read_bandwidth : Z;
  c_perf_model_type : string;
  c_dvfs_domain : string;
  c_writethrough : bool;
  c_shared_cores : Z;
  c_outstanding_misses : Z;
  c_prefetcher : string;
  c_flows : Z;
  c_flows_per_core : bool;
  c_num_prefetches : Z;
  c_stop_at_page_boundary : bool;
  c_ghb_width : Z;
  c_ghb_depth : Z;
  c_ghb_size : Z;
  c_ghb_table_size : Z;
  c_pattern_length : Z;
  c_consecutive_pattern_length : Z;
  c_a53_num_prefetches : Z;
  c_prefetch_on_prefetch_hit : bool;
  c_train_prefetcher_on_hit : option bool; (* if the key is there *)
  c_delay_prefetcher : option bool;        (* if the key is there *)
  c_atd : option ATD.sampling_t;           (* if [atd/enabled] *)
}.

Record sim_cfg := mk_sim_cfg {
  total_cores : nat;                       (* Config::getTotalCores() *)
  application_cores : nat;                 (* Config::getApplicationCores() *)
  cache_levels : Z;                        (* perf_model/cache/levels *)
  l1_block_size : Z;                       (* perf_model/l1_icache/cache_block_size *)
  logical_cpus : Z;                        (* perf_model/core/logical_cpus *)
  cache_config : nat → nat → cache_cfg;    (* of a core and the index of a component *)
  core_period : nat → Z;
  global_period : Z;
  stlb_size : Z; stlb_associativity : Z;
  itlb_size : Z; itlb_associativity : Z;
  dtlb_size : Z; dtlb_associativity : Z;
  tlb_penalty : Z;
  tlb_penalty_parallel : bool;
  num_controllers : Z;                     (* perf_model/dram/... *)
  controllers_interleaving : Z;
  controller_positions : list Z;           (* read by parseMemoryControllerList *)
  network_positions : list Z;              (* computeMemoryControllerPositions *)
  direct_access : bool;
  evict_buffers : Z;                       (* perf_model/llc/evict_buffers *)
  directory_locations : string;            (* perf_model/dram_directory/... *)
  directory_interleaving : Z;
  directory_home_lookup_param : Z;
  picl : bool;                             (* picl/enabled *)
  undo_buffer_entries : option Z;
  acs_gap : option Z;
  fault_injection : bool;
  now_seconds : Z;                         (* time(NULL) *)
  instrument_cache_only : bool;
  uninitialised : bytes;
}.

(** ** Places of controllers and directories *)

(** [getCoreListWithMemoryControllers]. *)
Definition getCoreListWithMemoryControllers (g : sim_cfg) : result (list Z) :=
  let core_count := Z.of_nat (application_cores g) in
  let interleaving := controllers_interleaving g * logical_cpus g in
  let! _ := check (num_controllers g <=? core_count) AssertFail in
  if negb (num_controllers g =? -1) then
    let positions := controller_positions g in
    let! _ := check ((length positions =? 0)%nat || (Z.of_nat (length positions) =? num_controllers g)) AssertFail in
    Ok (if (0 <? length positions)%nat then positions else network_positions g)
  else if negb (interleaving =? 0) then
    let n := Z.quot (core_count + interleaving - 1) interleaving in
    let l := map (λ i, Z.of_nat i * interleaving) (seq 0 (Z.to_nat n)) in
    let! _ := check (forallb (λ i, i <? core_count) l) AssertFail in
    Ok l
  else Ok (map Z.of_nat (seq 0 (application_cores g))).

(** The loop over [core_id] in steps of [interleaving]; without progress it does not end. *)
Definition core_list_with_tag_directories (g : sim_cfg) (dram : list Z) (llc_shared_cores : Z) : result (list Z) :=
  let every (interleaving : Z) : result (list Z) :=
    let! _ := check (0 <? interleaving) Diverges in
    Ok (List.filter (λ i, Z.rem i interleaving =? 0) (map Z.of_nat (seq 0 (application_cores g)))) in
  if bool_decide (directory_locations g = "dram"%string) then Ok dram
  else if bool_decide (directory_locations g = "llc"%string) then every llc_shared_cores
  else if bool_decide (directory_locations g = "interleaved"%string) then every (directory_interleaving g * logical_cpus g)
  else Err LogError.

(** ** [CacheParameters] *)
Module CacheParameters.
Record t := mk {
  size : Z;
  num_sets : Z;
  associativity : Z;
  hash_function : string;
  replacement_policy : string;
  perfect : bool;
  coherent : bool;
  data_access_time : ComponentLatency.t;
  tags_access_time : ComponentLatency.t;
  writeback_time : ComponentLatency.t;
  next_level_read_bandwidth : ComponentBandwidthPerCycle.t;
  perf_model_type : string;
  writethrough : bool;
  shared_cores : Z;
  prefetcher : string;
  outstanding_misses : Z;
}.

(** All sizes are [UInt32]. *)
Definition get_num_sets (size associativity block_size : Z) : result Z :=
  let! num_sets := udiv (u32 (1024 * size)) (u32 (associativity * block_size)) in
  let! _ := check (u32 (1024 * size) =? u32 (u32 (num_sets * associativity) * block_size)) AssertFail in
  Ok num_sets.

Definition set_shared_cores (n : Z) (p : t) : t :=
  {| size := size p; num_sets := num_sets p; associativity := associativity p; hash_function := hash_function p;
     replacement_policy := replacement_policy p; perfect := perfect p; coherent := coherent p;
     data_access_time := data_access_time p; tags_access_time := tags_access_time p; writeback_time := writeback_time p;
     next_level_read_bandwidth := next_level_read_bandwidth p; perf_model_type := perf_model_type p;
     writethrough := writethrough p; shared_cores := n; prefetcher := prefetcher p;
     outstanding_misses := outstanding_misses p |}.
End CacheParameters.

Module MemoryManager.
Import CacheCntlr.

(** The components of a core, by their position from [FIRST_LEVEL_CACHE] on. *)
Definition component_of (j : nat) : MemComponent.component_t :=
  match j with
  | 0%nat => MemComponent.L1_ICACHE
  | 1%nat => MemComponent.L1_DCACHE
  | 2%nat => MemComponent.L2_CACHE
  | 3%nat => MemComponent.L3_CACHE
  | 4%nat => MemComponent.L4_CACHE
  | _ => if (j =? 18)%nat then MemComponent.LAST_LEVEL_CACHE else MemComponent.UNNAMED (Z.of_nat j + 2)
  end.
Definition name_of (j : nat) : string :=
  match j with
  | 0%nat => "L1-I"%string
  | 1%nat => "L1-D"%string
  | _ => ("L" +:+ pretty j)%string
  end.

Section construction.
Context {P : Type} `{Policy P, PolicyFactory P} (g : sim_cfg).

(** The position of [m_last_level_cache]; the array of controllers ends at [LAST_LEVEL_CACHE],
    and the L2 is needed in any case. *)
Definition last_level : result nat :=
  let! _ := check ((2 <=? cache_levels g) && (cache_levels g <=? 18)) OutOfRange in
  Ok (Z.to_nat (cache_levels g)).

Definition is_application (core : nat) : bool := (core <? application_cores g)%nat.

(** The loop body that fills [cache_parameters]. *)
Definition cache_parameters (core last j : nat) : result CacheParameters.t :=
  let c := cache_config g core j in
  let! period :=
    (if bool_decide (c_dvfs_domain c = "core"%string) then Ok (core_period g core)
     else if bool_decide (c_dvfs_domain c = "global"%string) then Ok (global_period g)
     else Err LogError) in
  let! _ := check (c_cache_block_size c =? l1_block_size g) AssertFail in
  let size := u32 (c_cache_size c) in
  let associativity := u32 (c_associativity c) in
  let! num_sets := CacheParameters.get_num_sets size associativity (u32 (l1_block_size g)) in
  let latency (n : Z) := ComponentLatency.mk period (u64 n) in
  let p := CacheParameters.mk size num_sets associativity (c_address_hash c) (c_replacement_policy c) (c_perfect c)
    (if (j =? 0)%nat then c_coherent c else true)
    (latency (c_data_access_time c)) (latency (c_tags_access_time c)) (latency (c_writeback_time c))
    (ComponentBandwidthPerCycle.mk period (if (j <? last)%nat then u64 (c_next_level_read_bandwidth c) else 0))
    (c_perf_model_type c) (c_writethrough c) (u32 (c_shared_cores c * logical_cpus g)) (c_prefetcher c)
    (if (j =? 1)%nat then u32 (c_outstanding_misses c) else 0) in
  Ok (if is_application core then p else CacheParameters.set_shared_cores 1 p).

(** ** What is built *)

(** A memory manager, as far as it is not in its cache controllers: the number of its first
    controller, its TLBs, and [m_core_id_master]. *)
Record mm := mk_mm {
  m_first_cntlr : nat;
  m_last_level_cache : nat;
  m_cache_block_size : Z;
  m_tlbs : TLB.store;
  m_itlb : option nat;
  m_dtlb : option nat;
  m_tlb_miss_penalty : ComponentLatency.t;
  m_tlb_miss_parallel : bool;
  m_mm_core_id_master : Z;
  m_tag_directories : list Z;
  m_dram_controllers : list Z;
}.

(** All objects so far: controllers in the order of their creation, caches by the number of
    the controller that created them with the parameters of [createSetLocks],
    [m_all_cache_cntlrs], undo buffers and memory managers by core. *)
Record built := mk_built {
  cntlrs : list conf;
  caches : gmap nat (master_conf * CacheMasterCntlr P AnyPrefetcher.t);
  setlocks : gmap nat (Z * Z * Z * Z);
  all_cache_cntlrs : gmap (nat * nat) nat;
  undos : list OnChipUndoBufferCntlr.t;
  mms : list mm;
}.

Definition nothing : built := mk_built [] ∅ ∅ ∅ [] [].

Definition get_cntlr (i : nat) (s : built) : result conf := arr_get (cntlrs s) i.
Definition upd_cntlr (i : nat) (f : conf → conf) (s : built) : result built :=
  let! c := get_cntlr i s in
  Ok (mk_built (<[i := f c]> (cntlrs s)) (caches s) (setlocks s) (all_cache_cntlrs s) (undos s) (mms s)).
Definition get_cache (m : nat) (s : built) : result (master_conf * CacheMasterCntlr P AnyPrefetcher.t) :=
  match caches s !! m with Some x => Ok x | None => Err NullPointer end.
Definition put_cache (m : nat) (x : master_conf * CacheMasterCntlr P AnyPrefetcher.t) (s : built) : built :=
  mk_built (cntlrs s) (<[m := x]> (caches s)) (setlocks s) (all_cache_cntlrs s) (undos s) (mms s).

Definition set_next (n : option nat) (c : conf) : conf :=
  mk_conf (m_mem_component c) (m_core_id c) (m_shared_cores c) (m_master c) n (m_onchip_undo_buffer_cntlr c)
    (m_tag_directory_home_lookup c) (m_perfect c) (m_passthrough c) (m_coherent c) (m_prefetch_on_prefetch_hit c)
    (m_train_prefetcher_on_hit c) (m_prefetch_delay c) (m_l1_mshr c) (CacheCntlr.m_cache_block_size c)
    (m_cache_writethrough c) (m_writeback_time c) (m_next_level_read_bandwidth c) (m_perf_model c) (m_shmem_perf c)
    (m_dummy_shmem_perf c) (m_picl_enabled c).
Definition setOnChipUndoBufferCntlr (u : option nat) (c : conf) : conf :=
  mk_conf (m_mem_component c) (m_core_id c) (m_shared_cores c) (m_master c) (m_next_cache_cntlr c) u
    (m_tag_directory_home_lookup c) (m_perfect c) (m_passthrough c) (m_coherent c) (m_prefetch_on_prefetch_hit c)
    (m_train_prefetcher_on_hit c) (m_prefetch_delay c) (m_l1_mshr c) (CacheCntlr.m_cache_block_size c)
    (m_cache_writethrough c) (m_writeback_time c) (m_next_level_read_bandwidth c) (m_perf_model c) (m_shmem_perf c)
    (m_dummy_shmem_perf c) (m_picl_enabled c).
Definition set_perf_model (p : CachePerfModel.t) (c : conf) : conf :=
  mk_conf (m_mem_component c) (m_core_id c) (m_shared_cores c) (m_master c) (m_next_cache_cntlr c)
    (m_onchip_undo_buffer_cntlr c) (m_tag_directory_home_lookup c) (m_perfect c) (m_passthrough c) (m_coherent c)
    (m_prefetch_on_prefetch_hit c) (m_train_prefetcher_on_hit c) (m_prefetch_delay c) (m_l1_mshr c)
    (CacheCntlr.m_cache_block_size c) (m_cache_writethrough c) (m_writeback_time c) (m_next_level_read_bandwidth c) p
    (m_shmem_perf c) (m_dummy_shmem_perf c) (m_picl_enabled c).

(** ** [CacheMasterCntlr] and [CacheCntlr] *)

Fixpoint createATDs (n : nat) (r : result (ATD.t P)) : result (list (ATD.t P)) :=
  match n with
  | O => Ok []
  | S n => let! a := r in let! l := createATDs n r in Ok (a :: l)
  end.

(** The new objects of the master of a cache. *)
Definition new_master (core j : nat) (p : CacheParameters.t) : result (master_conf * CacheMasterCntlr P AnyPrefetcher.t) :=
  let c := cache_config g core j in
  let associativity := Z.to_nat (CacheParameters.associativity p) in
  let block_size := u32 (l1_block_size g) in
  let! policy := parsePolicyType (CacheParameters.replacement_policy p) in
  let! hash := CacheBase.parseAddressHash (CacheParameters.hash_function p) in
  let! set := createSet policy associativity (c_qbs_attempts c) (c_srrip_bits c) (now_seconds g) in
  let info := createCacheSetInfo policy associativity (c_qbs_attempts c) in
  let! cache := Cache.new (Z.to_nat (CacheParameters.num_sets p)) associativity (Z.to_nat block_size) hash None
                  (fault_injection g) info set in
  let! prefetcher := AnyPrefetcher.createPrefetcher (CacheParameters.prefetcher p)
    (SimplePrefetcher.new (Z.of_nat core) (CacheParameters.shared_cores p) (c_flows c) (c_flows_per_core c)
       (c_num_prefetches c) (c_stop_at_page_boundary c))
    (GhbPrefetcher.new (c_ghb_width c) (c_ghb_depth c) (c_ghb_size c) (c_ghb_table_size c))
    (A53Prefetcher.new (c_cache_block_size c) (c_pattern_length c) (c_consecutive_pattern_length c) (c_a53_num_prefetches c)) in
  let! atds :=
    match c_atd c with
    | None => Ok []
    | Some sampling => createATDs (Z.to_nat (CacheParameters.shared_cores p))
        (ATD.new (CacheParameters.num_sets p) (CacheParameters.associativity p) block_size hash sampling info set)
    end in
  Ok (mk_mconf (name_of j) [] false,
      mk_master cache prefetcher None ∅ (ContentionModel.new (Z.to_nat (CacheParameters.outstanding_misses p)))
        (ContentionModel.new 1) ∅ None atds [] SubsecondTime.Zero).

(** The constructor of a [CacheCntlr], and [setCacheCntlrAt]; it gets the next number [i]. *)
Definition new_cntlr (core j last : nat) (lookup : AddressHomeLookup.t) (p : CacheParameters.t) (s : built) : result built :=
  let i := length (cntlrs s) in
  let c := cache_config g core j in
  let! rest := umod (Z.of_nat core) (CacheParameters.shared_cores p) in
  let master_core := Z.to_nat (Z.of_nat core - rest) in
  let! _ := check (negb (j =? last)%nat || negb (c_passthrough c)) AssertFail in
  let! (m, s) :=
    if (core =? master_core)%nat then
      let! x := new_master core j p in
      Ok (i, put_cache i x s)
    else
      match all_cache_cntlrs s !! (master_core, j) with
      | Some k => let! x := get_cntlr k s in Ok (m_master x, s)
      | None => Err NullPointer
      end in
  let! x := get_cache m s in
  let prefetching := match m_prefetcher (snd x) with Some _ => true | None => false end in
  let k := {| m_mem_component := component_of j; m_core_id := Z.of_nat core;
     m_shared_cores := CacheParameters.shared_cores p; m_master := m; m_next_cache_cntlr := None;
     m_onchip_undo_buffer_cntlr := None; m_tag_directory_home_lookup := lookup;
     m_perfect := CacheParameters.perfect p; m_passthrough := c_passthrough c; m_coherent := CacheParameters.coherent p;
     m_prefetch_on_prefetch_hit := prefetching && c_prefetch_on_prefetch_hit c;
     m_train_prefetcher_on_hit := default true (c_train_prefetcher_on_hit c);
     m_prefetch_delay := default true (c_delay_prefetcher c);
     m_l1_mshr := 0 <? CacheParameters.outstanding_misses p;
     CacheCntlr.m_cache_block_size := Z.to_nat (u32 (l1_block_size g));
     m_cache_writethrough := CacheParameters.writethrough p; m_writeback_time := CacheParameters.writeback_time p;
     m_next_level_read_bandwidth := CacheParameters.next_level_read_bandwidth p;
     m_perf_model := CachePerfModel.mk CachePerfModel.CACHE_PERF_MODEL_PARALLEL
       (CacheParameters.data_access_time p) (CacheParameters.tags_access_time p) false;
     m_shmem_perf := 2 * Z.of_nat i; m_dummy_shmem_perf := 2 * Z.of_nat i + 1; m_picl_enabled := picl g |} in
  Ok (mk_built (cntlrs s ++ [k]) (caches s) (setlocks s) (<[(core, j) := i]> (all_cache_cntlrs s)) (undos s) (mms s)).

(** A loop of constructors over positions. *)
Fixpoint each (f : nat → built → result built) (js : list nat) (s : built) : result built :=
  match js with
  | [] => Ok s
  | j :: js => let! s := f j s in each f js s
  end.

Fixpoint each_parameters (core last : nat) (js : list nat) : result (list CacheParameters.t) :=
  match js with
  | [] => Ok []
  | j :: js => let! p := cache_parameters core last j in let! l := each_parameters core last js in Ok (p :: l)
  end.

(** The TLBs of a core, and the positions of the instruction and the data TLB. *)
Definition new_tlb (size associativity : Z) (next : option nat) (l : TLB.store) : result (option nat * TLB.store) :=
  if u32 size =? 0 then Ok (None, l)
  else let! x := TLB.new (u32 size) (u32 associativity) next in Ok (Some (length l), l ++ [x]).
Definition new_tlbs : result (option nat * option nat * TLB.store) :=
  let! (stlb, l) := new_tlb (stlb_size g) (stlb_associativity g) None [] in
  let! (itlb, l) := new_tlb (itlb_size g) (itlb_associativity g) stlb l in
  let! (dtlb, l) := new_tlb (dtlb_size g) (dtlb_associativity g) stlb l in
  Ok (itlb, dtlb, l).

(** [setNextCacheCntlr] and [setPrevCacheCntlrs] of the controllers from number [base] on. *)
Definition link_next (base j n : nat) (s : built) : result built :=
  upd_cntlr (base + j) (set_next (Some (base + n)%nat)) s.
Definition link_prev (base j : nat) (prev_cache_cntlrs : list nat) (s : built) : result built :=
  let! c := get_cntlr (base + j) s in
  let! x := get_cache (m_master c) s in
  let! l := arr_get (cntlrs s) base in
  Ok (put_cache (m_master c)
        (setPrevCacheCntlrs (λ i, default l (cntlrs s !! i)) (fst x) (map (λ p, (base + p)%nat) prev_cache_cntlrs), snd x) s).
Definition link (base last : nat) (s : built) : result built :=
  let! s := link_next base 0 2 s in
  let! s := link_next base 1 2 s in
  let! s := each (λ j, link_next base j (S j)) (seq 2 (last - 2)) s in
  let! s := link_prev base 2 [0; 1]%nat s in
  each (λ j, link_prev base (S j) [j]) (seq 2 (last - 2)) s.

(** The number of sets by which accesses are locked. *)
Definition num_lock_sets (core : nat) (p : CacheParameters.t) : Z :=
  let num_sets := CacheParameters.num_sets p in
  if (0 <=? floorLog2 num_sets) && (num_sets =? Z.shiftl 1 (floorLog2 num_sets)) &&
     forallb (λ core, (c_cache_size (cache_config g core 1) =? CacheParameters.size p) &&
                      bool_decide (c_address_hash (cache_config g core 1) = "mask"%string)) (seq 0 (application_cores g))
  then num_sets else 1.

(** [setDRAMDirectAccess]. *)
Definition setDRAMDirectAccess (x : master_conf * CacheMasterCntlr P AnyPrefetcher.t) :
    master_conf * CacheMasterCntlr P AnyPrefetcher.t :=
  (mk_mconf (m_name (fst x)) (m_prev_cache_cntlrs (fst x)) true,
   put_writebacks (Some (ContentionModel.new (Z.to_nat (u64 (evict_buffers g))))) (snd x)).

(** What only the core does that owns the last-level cache. *)
Definition set_up_master (core base last : nat) (ps : list CacheParameters.t) (has_dram_cntlr : bool) (s : built) : result built :=
  let! c := get_cntlr (base + last) s in
  let! x := get_cache (m_master c) s in
  let! p := arr_get ps 1 in
  let! llc := arr_get ps last in
  let s := mk_built (cntlrs s) (caches s)
    (<[m_master c := (u32 (l1_block_size g), num_lock_sets core p, m_core_id_master c, CacheParameters.shared_cores llc)]> (setlocks s))
    (all_cache_cntlrs s) (undos s) (mms s) in
  if direct_access g && is_application core then
    let! _ := check (Z.of_nat (application_cores g) <=? CacheParameters.shared_cores llc) AssertFail in
    let! _ := check has_dram_cntlr AssertFail in
    Ok (put_cache (m_master c) (setDRAMDirectAccess x) s)
  else Ok s.

(** The constructor of the [MemoryManager] of a core. *)
Definition new (core : nat) (s : built) : result built :=
  let! last := last_level in
  let! (itlb, dtlb, tlbs) := new_tlbs in
  let! ps := each_parameters core last (seq 0 (S last)) in
  let! dram := getCoreListWithMemoryControllers g in
  let! llc := arr_get ps last in
  let! directories := core_list_with_tag_directories g dram (CacheParameters.shared_cores llc) in
  let! lookup := AddressHomeLookup.new (u32 (directory_home_lookup_param g)) directories (u32 (l1_block_size g)) in
  let! _ := AddressHomeLookup.new (u32 (directory_home_lookup_param g)) dram (u32 (l1_block_size g)) in
  let base := length (cntlrs s) in
  let! s := each (λ j s, let! p := arr_get ps j in new_cntlr core j last lookup p s) (seq 0 (S last)) s in
  let! s := link base last s in
  let! s := each (λ j s, let! p := arr_get ps j in
      let! model := CachePerfModel.create (CacheParameters.perf_model_type p) (CacheParameters.data_access_time p)
                      (CacheParameters.tags_access_time p) in
      upd_cntlr (base + j) (set_perf_model model) s) (seq 0 (S last)) s in
  let! c := get_cntlr (base + last) s in
  let has_dram := bool_decide (Z.of_nat core ∈ dram) in
  let! _ := check (negb has_dram || isMasterCache c) AssertFail in
  let! _ := check (negb (bool_decide (Z.of_nat core ∈ directories)) || isMasterCache c) AssertFail in
  let undo := OnChipUndoBufferCntlr.new lookup (undo_buffer_entries g) (acs_gap g) in
  let u := length (undos s) in
  let s := mk_built (cntlrs s) (caches s) (setlocks s) (all_cache_cntlrs s) (undos s ++ [undo]) (mms s) in
  let! s := each (λ j, upd_cntlr (base + j) (setOnChipUndoBufferCntlr (Some u))) (seq 0 (S last)) s in
  let! c := get_cntlr (base + last) s in
  let! s := (if isMasterCache c then set_up_master core base last ps has_dram s else Ok s) in
  let penalty := ComponentLatency.mk (core_period g core) (u64 (tlb_penalty g)) in
  Ok (mk_built (cntlrs s) (caches s) (setlocks s) (all_cache_cntlrs s) (undos s)
        (mms s ++ [mk_mm base last (l1_block_size g) tlbs itlb dtlb penalty (tlb_penalty_parallel g)
                         (m_core_id_master c) directories dram])).

(** [CoreManager::CoreManager]: the cores in order. *)
Definition build : result built := each new (seq 0 (total_cores g)) nothing.
End construction.
End MemoryManager.

(** ** The machine, as [CacheCntlr] sees it *)
Section machine.
Import CacheCntlr MemoryManager.
Context {P : Type} `{Policy P, PolicyFactory P} {D : Type} (g : sim_cfg).

(** A number that names no controller or cache stands for one of its own, apart from the
    others, like the first one. *)
Definition stray (first : conf) (i : nat) : conf :=
  mk_conf (m_mem_component first) (m_core_id first) (m_shared_cores first) i None (m_onchip_undo_buffer_cntlr first)
    (m_tag_directory_home_lookup first) (m_perfect first) (m_passthrough first) (m_coherent first)
    (m_prefetch_on_prefetch_hit first) (m_train_prefetcher_on_hit first) (m_prefetch_delay first) (m_l1_mshr first)
    (CacheCntlr.m_cache_block_size first) false (m_writeback_time first) (m_next_level_read_bandwidth first)
    (m_perf_model first) (m_shmem_perf first) (m_dummy_shmem_perf first) (m_picl_enabled first).

Definition config_of (b : built (P := P)) (first : conf) : CacheCntlr.config :=
  CacheCntlr.mk_config (λ c, default (stray first c) (cntlrs b !! c))
    (λ m, match caches b !! m with Some x => fst x | None => mk_mconf EmptyString [] false end)
    (Z.to_nat (cache_levels g))
    (λ core, match mms b !! Z.to_nat core with Some x => m_mm_core_id_master x | None => core end)
    (instrument_cache_only g) (uninitialised g).

Definition start_of (b : built (P := P)) (first : CacheMasterCntlr P AnyPrefetcher.t) (d : D) :
    CacheCntlr.t P AnyPrefetcher.t D :=
  CacheCntlr.mk (λ m, match caches b !! m with Some x => snd x | None => first end)
    (λ _, mk_vars HitWhere.UNKNOWN (λ _, 0) ShmemPerf.new SubsecondTime.Zero 0)
    (λ _, ShmemPerfModel.new) (λ _, ShmemPerf.new) [] (undos b)
    (OnChipUndoBufferCntlr.mk_shared EpochManager.new []) d (λ _, None) [].

Definition machine (d : D) : result (CacheCntlr.config * CacheCntlr.t P AnyPrefetcher.t D) :=
  let! b := build g in
  let! k := get_cntlr 0 b in
  let! x := get_cache 0 b in
  Ok (config_of b k, start_of b (snd x) d).
End machine.
