(* ===== verification/Hierarchy.v ===== *)
(** The tree of cache controllers of [CacheCntlr]: what makes a configuration a tree,
    which states are well-formed, and what [updateCacheBlock] does to a subtree.

    A cache is seen through [lstate], the coherence state of each of its lines; the lemmas
    [wps_*] are rules of symbolic execution for the operations of the controller. *)
From stdpp Require Import functions.
From S2P Require Import Prelude Timing QueueModels BlockInfo AddressMap Replacement CacheModel CacheLines.
From S2P Require Import ShmemMsg DirCntlr Memory Epoch UndoBuffer Log StateResult TlbAtd CacheCntlr.
Import CacheCntlr.

(** The block number of an address, for blocks of [2^k] bytes. *)
Definition blk (k : Z) (address : Z) : Z := Z.shiftr address k.
Definition aligned (k : Z) (address : Z) : Prop := in_u64 address ∧ address `mod` 2 ^ k = 0.

(** ** The tree *)

Section tree.
Context (cfg : CacheCntlr.config).

(** The cache of a controller, and the controllers above a cache. *)
Definition cache_of (c : nat) : nat := m_master (cntlr_conf cfg c).
Definition next_of (c : nat) : option nat := m_next_cache_cntlr (cntlr_conf cfg c).
Definition prevs (m : nat) : list nat := m_prev_cache_cntlrs (cache_conf cfg m).

(** The controllers form a tree: the levels [lv] increase towards memory, next and previous
    levels correspond, the controllers of one cache lead to the same next cache, and a cache
    appears once in a list.  Lines have [2^k] bytes everywhere, and there are [undo]
    controllers of undo buffers. *)
Record tree_ok (geo : nat → CacheModel.config) (k : Z) (undo : nat) (lv : nat → nat) : Prop := {
  tree_k : 1 ≤ k < 32;
  tree_geo m : cfg_block (geo m) = 2 ^ k;
  tree_block c : m_cache_block_size (cntlr_conf cfg c) = Z.to_nat (2 ^ k);
  tree_buf : length (uninit_buf cfg) = Z.to_nat (2 ^ k);
  tree_undo c : ∃ u, m_onchip_undo_buffer_cntlr (cntlr_conf cfg c) = Some u ∧ (u < undo)%nat;
  tree_levels m : (lv m < levels cfg)%nat;
  tree_up c n : next_of c = Some n → (lv (cache_of c) < lv (cache_of n))%nat;
  tree_prev m p : p ∈ prevs m → ∃ n, next_of p = Some n ∧ cache_of n = m;
  tree_next c n : next_of c = Some n → ∃ p, p ∈ prevs (cache_of n) ∧ cache_of p = cache_of c;
  tree_same c c' : cache_of c = cache_of c' → cache_of <$> next_of c = cache_of <$> next_of c';
  tree_once m p q : p ∈ prevs m → q ∈ prevs m → cache_of p = cache_of q → p = q;
  tree_nodup m : NoDup (prevs m);
}.

(** The caches of the subtree under a cache, itself included. *)
Inductive below (m : nat) : nat → Prop :=
  | below_refl : below m m
  | below_prev y p : below m y → p ∈ prevs y → below m (cache_of p).

Context {geo : nat → CacheModel.config} {k : Z} {undo : nat} {lv : nat → nat} (T : tree_ok geo k undo lv).

Lemma prev_lv m p : p ∈ prevs m → (lv (cache_of p) < lv m)%nat.
Proof using T. intros Hp. destruct (tree_prev _ _ _ _ T m p Hp) as (n & Hn & <-). by apply (tree_up _ _ _ _ T). Qed.

Lemma parent_unique m m' p q : p ∈ prevs m → q ∈ prevs m' → cache_of p = cache_of q → m = m'.
Proof using T.
  intros Hp Hq E. destruct (tree_prev _ _ _ _ T m p Hp) as (n & Hn & <-).
  destruct (tree_prev _ _ _ _ T m' q Hq) as (n' & Hn' & <-).
  pose proof (tree_same _ _ _ _ T _ _ E) as H. rewrite Hn, Hn' in H. cbn in H. by injection H.
Qed.

Lemma below_lv m x : below m x → (lv x ≤ lv m)%nat.
Proof using T. induction 1 as [|y p _ IH Hp]; [done|]. apply prev_lv in Hp. lia. Qed.

Lemma below_trans m x y : below m x → below x y → below m y.
Proof. intros Hx. induction 1; [done|]. by econstructor. Qed.

Lemma below_child m p x : p ∈ prevs m → below (cache_of p) x → below m x.
Proof. intros Hp Hx. eapply below_trans; [|exact Hx]. econstructor; [constructor|done]. Qed.

Lemma below_inv m x : below m x → x = m ∨ ∃ p, p ∈ prevs m ∧ below (cache_of p) x.
Proof.
  induction 1 as [|y p Hy IH Hp]; [by left|right]. destruct IH as [->|(q & Hq & Hb)].
  - exists p. split; [done|constructor].
  - exists q. split; [done|]. by econstructor.
Qed.

(** Two subtrees that meet contain one another. *)
Lemma below_chain a b x : below a x → below b x → below a b ∨ below b a.
Proof using T.
  intros Ha. revert b. induction Ha as [|y p Hy IH Hp]; intros b Hb; [by right|].
  remember (cache_of p) as x eqn:Ex. destruct Hb as [|y' q Hy' Hq]; subst.
  - left. by econstructor.
  - assert (y = y') as <- by (by eapply parent_unique). by apply IH.
Qed.

Lemma below_siblings m p q x :
  p ∈ prevs m → q ∈ prevs m → below (cache_of p) x → below (cache_of q) x → p = q.
Proof using T.
  assert (∀ p q, p ∈ prevs m → q ∈ prevs m → below (cache_of p) (cache_of q) → cache_of p = cache_of q) as Hone.
  { clear p q. intros p q Hp Hq Hb. remember (cache_of q) as z eqn:Ez. destruct Hb as [|y r Hy Hr]; [done|].
    assert (y = m) as -> by (by eapply parent_unique). apply below_lv in Hy. apply prev_lv in Hp. lia. }
  intros Hp Hq Hpx Hqx. apply (tree_once _ _ _ _ T m); [done..|].
  destruct (below_chain _ _ _ Hpx Hqx); [|symmetry]; by apply Hone.
Qed.

(** Where one is in the tree can be decided. *)
Lemma below_dec m x : below m x ∨ ¬ below m x.
Proof using T.
  remember (lv m) as i eqn:Ei. revert m Ei. induction (lt_wf i) as [i _ IH]. intros m ->.
  destruct (decide (x = m)) as [->|Hne]; [left; constructor|].
  assert ((∃ p, p ∈ prevs m ∧ below (cache_of p) x) ∨ ¬ ∃ p, p ∈ prevs m ∧ below (cache_of p) x) as [(p & Hp & Hb)|Hno].
  { assert (∀ p, p ∈ prevs m → below (cache_of p) x ∨ ¬ below (cache_of p) x) as Hdec.
    { intros p Hp. eapply IH; [by apply (prev_lv m)|done]. }
    revert Hdec. induction (prevs m) as [|p l IHl]; intros Hdec; [right; intros (? & []%not_elem_of_nil & _)|].
    destruct (Hdec p) as [Hb|Hb]; [by left|left; exists p; split; [by left|done]|].
    destruct IHl as [(q & Hq & Hb')|Hno]; [by intros q Hq; apply Hdec; right|left; exists q; split; [by right|done]|].
    right. intros (q & [->|Hq]%elem_of_cons & Hb'); [done|]. apply Hno. by exists q. }
  - left. by eapply below_child.
  - right. intros [->|?]%below_inv; done.
Qed.

Lemma not_below_self m p : p ∈ prevs m → ¬ below (cache_of p) m.
Proof using T. intros Hp Hb. apply below_lv in Hb. apply prev_lv in Hp. lia. Qed.
End tree.

(** ** States *)

Section states.
Context {P : Type} `{Policy P} {F : Type} `{Prefetcher F} {D : Type} `{DramCntlrInterface D}.
Context (cfg : CacheCntlr.config) (geo : nat → CacheModel.config) (k : Z) (undo : nat) (LI : log_inv undo).
Abbreviation state := (t P F D).
Implicit Types s : state.

Abbreviation cache_at s m := (m_cache (masters s m)).

Definition cstate (x : Cache.t P) (t : Z) : option CacheState.cstate_t := CacheBlockInfo.m_cstate <$> line x t.
Definition lstate s (m : nat) (t : Z) : option CacheState.cstate_t := cstate (cache_at s m) t.
Definition evicting s (m : nat) : option Z := fst <$> m_evicting (masters s m).

(** The caches whose writes are logged: L3 caches below others, with PiCL enabled. *)
Definition logging (m : nat) : Prop :=
  m_name (cache_conf cfg m) = "L3"%string ∧ prevs cfg m ≠ [] ∧
  ∀ c, cache_of cfg c = m → m_picl_enabled (cntlr_conf cfg c) = true.

(** An epoch that the line [t] of a cache may carry: a past one and, where writes are
    logged, one that an entry ends in. *)
Definition marked s (m : nat) (t e : Z) : Prop :=
  0 ≤ e ≤ sys (shared s) ∧ (logging m → accounted (undo_cntlrs s) (shared s) t e).
Definition lines_ok s (m : nat) (x : Cache.t P) : Prop :=
  lines_wf (geo m) x ∧ ∀ t b, line x t = Some b → marked s m t (CacheBlockInfo.m_eid b).

Record hier_wf s : Prop := {
  hw_log : LI (undo_cntlrs s) (shared s);
  hw_caches m : lines_ok s m (cache_at s m);
  hw_evicting m a b : m_evicting (masters s m) = Some (a, b) → length b = Z.to_nat (2 ^ k);
}.

Lemma hw_lines s : hier_wf s → ∀ m, lines_wf (geo m) (cache_at s m).
Proof. intros Hwf m. apply Hwf. Qed.
Lemma hw_marked s : hier_wf s → ∀ m t b, line (cache_at s m) t = Some b → marked s m t (CacheBlockInfo.m_eid b).
Proof. intros Hwf m. apply Hwf. Qed.
Lemma hw_undo s : hier_wf s → Forall cntlr_wf (undo_cntlrs s) ∧ length (undo_cntlrs s) = undo.
Proof.
  intros Hwf. pose proof (holds_wf _ _ _ (hw_log _ Hwf)) as Hlog. split; [by eapply log_wf_cntlrs|apply Hlog].
Qed.
Lemma hw_sys s : hier_wf s → in_u64 (sys (shared s)).
Proof. intros Hwf. pose proof (log_wf_sys _ _ _ (holds_wf _ _ _ (hw_log _ Hwf))). rlia. Qed.

Lemma marked_zero s m t : hier_wf s → marked s m t 0.
Proof. intros Hwf. pose proof (hw_sys _ Hwf). split; [rlia|]. intros _. by left. Qed.

Lemma wf_same s s' : undo_cntlrs s' = undo_cntlrs s → shared s' = shared s →
  (∀ m, cache_at s' m = cache_at s m) → (∀ m, m_evicting (masters s' m) = m_evicting (masters s m)) → hier_wf s → hier_wf s'.
Proof.
  intros Eu Eg Ec Ee [W1 W2 W3]. split.
  - by rewrite Eu, Eg.
  - intros m. unfold lines_ok, marked. rewrite Eu, Eg, Ec. apply W2.
  - intros m a b. rewrite Ee. apply W3.
Qed.

(** The cache of a well-formed state, changed. *)
Lemma lines_same s m x : hier_wf s → lines_wf (geo m) x →
  (∀ t, CacheBlockInfo.m_eid <$> line x t = CacheBlockInfo.m_eid <$> line (cache_at s m) t) → lines_ok s m x.
Proof.
  intros Hwf Hx Hl. split; [done|]. intros t b Hb. specialize (Hl t). rewrite Hb in Hl. cbn in Hl.
  symmetry in Hl. apply fmap_Some in Hl as (b' & Hb' & ->). by apply hw_marked.
Qed.

(** All that the operations on lines leave alone, of a cache and of the system. *)
Definition rest (m : CacheMasterCntlr P F) :=
  (m_prefetcher m, m_dram_outstanding_writebacks m, mshr m, master_l1_mshr m, next_level_read_bandwidth m,
   m_directory_waiters m, fst <$> m_evicting m, m_atds m, m_prefetch_list m, m_prefetch_next m, Cache.base (m_cache m)).
Record frame s s' : Prop := {
  fr_rest m : rest (masters s' m) = rest (masters s m);
  fr_clocks : clocks s' = clocks s;
  fr_perfs : perfs s' = perfs s;
  fr_sent : sent s' = sent s;
  fr_dram : dram s' = dram s;
  fr_waiting : waiting s' = waiting s;
  fr_returned : returned s' = returned s;
  fr_sys : sys (shared s') = sys (shared s);
  fr_last r : m_last_remote_hit_where (vars s' r) = m_last_remote_hit_where (vars s r);
}.

#[global] Instance frame_refl : Reflexive frame.
Proof. intros s. by split. Qed.
#[global] Instance frame_trans : Transitive frame.
Proof. intros s1 s2 s3 [] []. split; intros; etrans; eauto. Qed.

Lemma frame_evicting s s' m : frame s s' → evicting s' m = evicting s m.
Proof. intros Hf. pose proof (fr_rest _ _ Hf m) as E. unfold rest in E. unfold evicting. congruence. Qed.

(** The state with another cache for controller [c]. *)
Definition put (c : nat) (x : Cache.t P) s : state :=
  set_masters (<[cache_of cfg c := put_cache x (masters s (cache_of cfg c))]> (masters s)) s.

Lemma cache_put c x s m : cache_at (put c x s) m = if decide (m = cache_of cfg c) then x else cache_at s m.
Proof. cbn. unfold insert, fn_insert. destruct (decide (cache_of cfg c = m)) as [<-|]; [by rewrite decide_True|by rewrite decide_False]. Qed.

Lemma lstate_put c x s m t : lstate (put c x s) m t = if decide (m = cache_of cfg c) then cstate x t else lstate s m t.
Proof. unfold lstate. rewrite cache_put. by case_decide. Qed.

Lemma evicting_buf_put c x s m : m_evicting (masters (put c x s) m) = m_evicting (masters s m).
Proof. cbn. unfold insert, fn_insert. by destruct (decide (cache_of cfg c = m)) as [<-|]. Qed.

Lemma put_wf c x s : hier_wf s → lines_ok s (cache_of cfg c) x → hier_wf (put c x s).
Proof.
  intros [Wu Wl We] Hx. split; [done| |].
  - intros m. rewrite cache_put. case_decide as Hm; [by rewrite Hm|apply Wl].
  - intros m a b. rewrite evicting_buf_put. apply We.
Qed.

Lemma put_frame c x s : Cache.base x = Cache.base (cache_at s (cache_of cfg c)) → frame s (put c x s).
Proof.
  intros E. split; try done. intros m. cbn. unfold insert, fn_insert.
  destruct (decide (cache_of cfg c = m)) as [<-|]; [|done]. unfold rest. cbn. by rewrite E.
Qed.

(** A change of the statistics of a controller. *)
Lemma vars_wf v s : hier_wf s → hier_wf (set_vars v s).
Proof. by intros []. Qed.
Lemma vars_frame c (f : CacheVars → CacheVars) s :
  (∀ v, m_last_remote_hit_where (f v) = m_last_remote_hit_where v) →
  frame s (set_vars (<[c := f (vars s c)]> (vars s)) s).
Proof. intros Hf. split; try done. intros r. cbn. unfold insert, fn_insert. by destruct (decide (c = r)) as [<-|]. Qed.

(** ** Rules for the operations on lines *)

Context {lv : nat → nat} (T : tree_ok cfg geo k undo lv) (E : failure → Prop).

Lemma block_blk m a : block_of (geo m) a = blk k a.
Proof using T. unfold block_of, blk. rewrite (tree_geo _ _ _ _ _ T). pose proof (tree_k _ _ _ _ _ T). by rewrite Z.log2_pow2 by lia. Qed.

Lemma wps_master c s Q : Q (masters s (cache_of cfg c)) s → wps E (master cfg c) s Q.
Proof. done. Qed.

(** A pointer to the line of an address, in the cache of a controller. *)
Definition pointer s c a (p : option Cache.loc) : Prop :=
  match p with
  | Some l => ∃ b, points (cache_at s (cache_of cfg c)) l (blk k a) b
  | None => line (cache_at s (cache_of cfg c)) (blk k a) = None
  end.

Lemma pointer_lstate s c a p : hier_wf s → pointer s c a p →
  match p with
  | Some l => ∃ b, points (cache_at s (cache_of cfg c)) l (blk k a) b ∧ lstate s (cache_of cfg c) (blk k a) = Some (CacheBlockInfo.m_cstate b)
  | None => lstate s (cache_of cfg c) (blk k a) = None
  end.
Proof.
  intros Hwf. destruct p as [l|]; cbn; unfold lstate, cstate.
  - intros [b Hb]. exists b. split; [done|]. by rewrite (points_line _ _ _ _ _ (hw_lines _ Hwf _) Hb).
  - by intros ->.
Qed.

Lemma wps_getCacheBlockInfo c a s Q :
  hier_wf s → in_u64 a → (∀ p, pointer s c a p → Q p s) → wps E (getCacheBlockInfo cfg c a) s Q.
Proof using T.
  intros Hwf Ha HQ. unfold getCacheBlockInfo. apply wps_bind, wps_master.
  destruct (peek_spec (geo (cache_of cfg c)) _ a (hw_lines _ Hwf (cache_of cfg c)) Ha) as (r & Er & Hr).
  eapply wps_lift_ok; [exact Er|]. apply HQ. rewrite block_blk in Hr. destruct r as [l|]; cbn; [|done].
  destruct Hr as (b & ? & _). by exists b.
Qed.

Lemma wps_block c l s b Q : block_at (cache_at s (cache_of cfg c)) l = Some b → Q b s → wps E (block cfg c l) s Q.
Proof. intros Hb HQ. unfold block. apply wps_bind, wps_master. eapply wps_lift_ok; [by apply peekBlock_at|done]. Qed.

Lemma wps_getCState c l s b Q :
  block_at (cache_at s (cache_of cfg c)) l = Some b → Q (CacheBlockInfo.m_cstate b) s → wps E (getCState cfg c l) s Q.
Proof. intros Hb HQ. unfold getCState. apply wps_bind. eapply wps_block; [done|]. by apply wps_ret. Qed.

Lemma wps_getCacheState_of c a p s Q :
  hier_wf s → pointer s c a p → Q (default CacheState.INVALID (lstate s (cache_of cfg c) (blk k a))) s → wps E (getCacheState_of cfg c p) s Q.
Proof.
  intros Hwf Hp HQ. pose proof (pointer_lstate _ _ _ _ Hwf Hp) as Hl. destruct p as [l|]; cbn.
  - destruct Hl as (b & (Hb & _) & Hl). rewrite Hl in HQ. by eapply wps_getCState.
  - rewrite Hl in HQ. by apply wps_ret.
Qed.

Lemma wps_getCacheState c a s Q :
  hier_wf s → in_u64 a → Q (default CacheState.INVALID (lstate s (cache_of cfg c) (blk k a))) s → wps E (getCacheState cfg c a) s Q.
Proof using T.
  intros Hwf Ha HQ. unfold getCacheState. apply wps_bind. apply wps_getCacheBlockInfo; [done..|].
  intros p Hp. by eapply wps_getCacheState_of.
Qed.

(** A change of a block that keeps its tag. *)
Lemma wps_upd_block c a l b f s Q :
  hier_wf s → points (cache_at s (cache_of cfg c)) l (blk k a) b → CacheBlockInfo.m_tag (f b) = blk k a →
  marked s (cache_of cfg c) (blk k a) (CacheBlockInfo.m_eid (f b)) →
  (∀ x, lines_ok s (cache_of cfg c) x → Cache.base x = Cache.base (cache_at s (cache_of cfg c)) →
     (∀ t, line x t = if t =? blk k a then Some (f b) else line (cache_at s (cache_of cfg c)) t) →
     points x l (blk k a) (f b) →
     (∀ l', block_at x l' = if decide (l' = l) then Some (f b) else block_at (cache_at s (cache_of cfg c)) l') →
     Q tt (put c x s)) →
  wps E (upd_block cfg c l f) s Q.
Proof.
  intros Hwf Hp Ht Hm HQ. unfold upd_block. apply wps_bind, wps_master.
  destruct (updateBlock_spec _ _ _ _ _ f (hw_lines _ Hwf _) Hp Ht) as (x & Ex & Hx & Hb & Hl & Hat).
  apply wps_bind. eapply wps_lift_ok; [exact Ex|]. apply wps_modify. apply HQ; [|done..| |done].
  { split; [done|]. intros t b'. rewrite Hl. destruct (Z.eqb_spec t (blk k a)) as [->|]; [by intros [= <-]|by apply hw_marked]. }
  split; [by rewrite Hat, decide_True|]. split; [done|]. by destruct Hp as (_ & _ & ?).
Qed.

Lemma wps_setCState c a l b st s Q :
  hier_wf s → points (cache_at s (cache_of cfg c)) l (blk k a) b →
  (∀ x, lines_ok s (cache_of cfg c) x → Cache.base x = Cache.base (cache_at s (cache_of cfg c)) →
     (∀ t, cstate x t = if t =? blk k a then Some st else cstate (cache_at s (cache_of cfg c)) t) →
     points x l (blk k a) (CacheBlockInfo.set_cstate b st) →
     Q tt (put c x s)) →
  wps E (setCState cfg c l st) s Q.
Proof.
  intros Hwf Hp HQ. apply (wps_upd_block c a l b); [done..|by destruct Hp as (_ & ? & _)| |].
  { change (CacheBlockInfo.m_eid (CacheBlockInfo.set_cstate b st)) with (CacheBlockInfo.m_eid b).
    eapply hw_marked, points_line; [done|by apply hw_lines|done]. }
  intros x Hx Hb Hl Hpt _. apply HQ; [done..| |done]. intros t. unfold cstate. rewrite Hl. by destruct (t =? blk k a).
Qed.

(** The line of an address is taken away. *)
Lemma wps_invalidateCacheBlock c a l b s Q :
  hier_wf s → in_u64 a → points (cache_at s (cache_of cfg c)) l (blk k a) b →
  CacheBlockInfo.m_cstate b ≠ CacheState.MODIFIED → CacheBlockInfo.m_cstate b ≠ CacheState.INVALID →
  (∀ x, lines_ok s (cache_of cfg c) x → Cache.base x = Cache.base (cache_at s (cache_of cfg c)) →
     (∀ t, line x t = if t =? blk k a then None else line (cache_at s (cache_of cfg c)) t) →
     block_at x l = Some (CacheBlockInfo.invalidate b) →
     Q tt (put c x s)) →
  wps E (invalidateCacheBlock cfg c a) s Q.
Proof using T.
  intros Hwf Ha Hp HM HI HQ. unfold invalidateCacheBlock. apply wps_bind. apply wps_getCacheState; [done..|].
  unfold lstate, cstate. rewrite (points_line _ _ _ _ _ (hw_lines _ Hwf _) Hp). cbn [fmap option_fmap option_map default].
  rewrite !bool_decide_false by done. apply wps_bind, wps_ret, wps_bind, wps_ret.
  rewrite <- (block_blk (cache_of cfg c)) in Hp.
  destruct (invalidate_line_spec (geo (cache_of cfg c)) _ a l b (hw_lines _ Hwf _) Ha Hp) as (x & Ex & Hx & Hb & Hl & Hat).
  apply wps_bind. unfold cache_call. apply wps_bind, wps_master. apply wps_bind.
  eapply wps_lift_ok; [exact Ex|]. apply wps_bind, wps_modify, wps_ret, wps_ret.
  apply HQ; [|done|intros t; by rewrite Hl, block_blk|by rewrite Hat, decide_True].
  split; [done|]. intros t b'. rewrite Hl. destruct (t =? _); [done|by apply hw_marked].
Qed.

(** An access whose address is a line's and whose length is at most that of a line. *)
Lemma wps_access c a ty buf n s (Q : _ → state → Prop) :
  hier_wf s → aligned k a → (n ≤ Z.to_nat (2 ^ k))%nat →
  (∀ d, ty = CacheBase.STORE → buf = Some d → (n ≤ length d)%nat) →
  (∀ r x, lines_ok s (cache_of cfg c) x → Cache.base x = Cache.base (cache_at s (cache_of cfg c)) →
     (∀ t, line x t = line (cache_at s (cache_of cfg c)) t) →
     (∀ l, block_at x l = block_at (cache_at s (cache_of cfg c)) l) →
     match r with
     | Some (l, read) => (∃ b, points (cache_at s (cache_of cfg c)) l (blk k a) b) ∧ ∀ d, read = Some d → length d = n
     | None => line (cache_at s (cache_of cfg c)) (blk k a) = None
     end → Q r (put c x s)) →
  wps E (cache_call cfg c (λ x, Cache.accessSingleLine x a ty buf n false)) s Q.
Proof using T.
  intros Hwf [Ha Hal] Hn Hbuf HQ. unfold cache_call. apply wps_bind, wps_master, wps_bind.
  pose proof (tree_k _ _ _ _ _ T) as Hk. pose proof (tree_geo _ _ _ _ _ T (cache_of cfg c)) as Hg.
  destruct (access_total (geo (cache_of cfg c)) _ a ty buf n (hw_lines _ Hwf (cache_of cfg c)) Ha) as [[r x] Er].
  { rewrite Hg, Hal. cbn. lia. }
  { exists k. split; [lia|done]. }
  { done. }
  eapply wps_lift_ok; [exact Er|]. apply wps_bind, wps_modify, wps_ret.
  destruct (access_spec _ _ _ _ _ _ _ _ _ (hw_lines _ Hwf _) Ha Er) as (? & ? & ? & ? & Hr).
  rewrite block_blk in Hr. apply HQ; [|done..]. apply lines_same; [done..|]. intros t. by f_equal.
Qed.

Lemma wps_retrieveCacheBlock c a buf s (Q : bytes → state → Prop) :
  hier_wf s → aligned k a → is_Some (lstate s (cache_of cfg c) (blk k a)) →
  length buf = Z.to_nat (2 ^ k) →
  (∀ d x, lines_ok s (cache_of cfg c) x → Cache.base x = Cache.base (cache_at s (cache_of cfg c)) →
     (∀ t, line x t = line (cache_at s (cache_of cfg c)) t) →
     (∀ l, block_at x l = block_at (cache_at s (cache_of cfg c)) l) → length d = Z.to_nat (2 ^ k) →
     Q d (put c x s)) →
  wps E (retrieveCacheBlock cfg c a buf false) s Q.
Proof using T.
  intros Hwf Ha Hst Hbuf HQ. unfold retrieveCacheBlock. apply wps_bind.
  unfold cf. rewrite (tree_block _ _ _ _ _ T). apply wps_access; [done|done|done|done|].
  intros r x Hx Hb Hl Hat Hr. destruct r as [[l read]|].
  - destruct Hr as [_ Hr]. apply wps_ret. apply HQ; [done..|]. destruct read as [d|]; [by apply Hr|done].
  - exfalso. destruct Hst as [st Hst]. unfold lstate, cstate in Hst. by rewrite Hr in Hst.
Qed.

(** Statistics change no line. *)
Definition same_lines s s' : Prop := masters s' = masters s ∧ hier_wf s' ∧ frame s s'.

Lemma wps_upd_vars c f s (Q : unit → state → Prop) :
  hier_wf s → (∀ v, m_last_remote_hit_where (f v) = m_last_remote_hit_where v) →
  (∀ s', same_lines s s' → Q tt s') → wps E (upd_vars c f) s Q.
Proof. intros Hwf Hf HQ. apply wps_modify, HQ. split_and!; [done|by apply vars_wf|by apply (vars_frame c f)]. Qed.

Lemma wps_add_stat c x n s (Q : unit → state → Prop) :
  hier_wf s → (∀ s', same_lines s s' → Q tt s') → wps E (add_stat c x n) s Q.
Proof. intros Hwf HQ. by apply wps_upd_vars. Qed.

Lemma wps_count_update c l b st reason s (Q : unit → state → Prop) :
  hier_wf s → block_at (cache_at s (cache_of cfg c)) l = Some b →
  (∀ s', same_lines s s' → Q tt s') → wps E (count_update cfg c l st reason) s Q.
Proof.
  intros Hwf Hb HQ. unfold count_update. apply wps_bind. eapply wps_block; [done|].
  assert (∀ s1 s2 s3, same_lines s1 s2 → same_lines s2 s3 → same_lines s1 s3) as Htr.
  { intros s1 s2 s3 (E1 & ? & ?) (E2 & ? & ?). split_and!; [congruence|done|by etrans]. }
  assert (∀ (b : bool) (x : stat) s1 (R : unit → state → Prop), same_lines s s1 → (∀ s2, same_lines s s2 → R tt s2) →
            wps E (when b (incr_stat c x)) s1 R) as Hwhen.
  { intros b' x s1 R Hs1 HR. apply wps_when; intros _; [|by apply HR].
    apply wps_add_stat; [by apply Hs1|]. intros s2 Hs2. apply HR. by eapply Htr. }
  assert (same_lines s s) as Hs0 by (split_and!; done).
  assert (∀ s1, same_lines s s1 → wps E
    match reason with
    | Transition.UPGRADE => incr_stat c coherency_upgrades
    | Transition.BACK_INVAL => incr_stat c (backinval (CacheBlockInfo.m_cstate b))
    | _ => mret ()
    end s1 Q) as Hlast.
  { intros s1 Hs1. destruct reason; try (by apply wps_ret, HQ).
    all: apply wps_add_stat; [by apply Hs1|]; intros s2 Hs2; apply HQ; by eapply Htr. }
  apply wps_bind, wps_when; intros _; [|by apply Hlast].
  apply wps_bind, (Hwhen true); [done|]. intros s1 Hs1. apply wps_bind, Hwhen; [done|]. intros s2 Hs2.
  apply Hwhen; [done|]. intros s3 Hs3. by apply Hlast.
Qed.

(** ** Writes to the next levels

    A controller accepts a write of a line that its cache holds as [MODIFIED] or is evicting,
    and, if it writes through, that the next one accepts. *)
Definition dirty s (m : nat) (a : Z) : Prop := evicting s m = Some a ∨ lstate s m (blk k a) = Some CacheState.MODIFIED.

Inductive accepts s (a : Z) : nat → Prop :=
  | accepts_stop n : dirty s (cache_of cfg n) a → m_cache_writethrough (cntlr_conf cfg n) = false → accepts s a n
  | accepts_through n n' : dirty s (cache_of cfg n) a → next_of cfg n = Some n' → accepts s a n' → accepts s a n.

(** The blocks of a cache are where they were, in the same states. *)
Definition same_shapes (m : nat) s s' : Prop :=
  ∀ l, shape <$> block_at (cache_at s' m) l = shape <$> block_at (cache_at s m) l.

(** What the writes of lines leave as it is: all states of lines, and the caches of lower levels. *)
Definition written (n : nat) s s' : Prop :=
  hier_wf s' ∧ frame s s' ∧ (∀ m t, lstate s' m t = lstate s m t) ∧
  (∀ m, (lv m < lv (cache_of cfg n))%nat → masters s' m = masters s m) ∧ ∀ m, same_shapes m s s'.

Lemma dirty_mono s s' m a : frame s s' → (∀ m t, lstate s' m t = lstate s m t) → dirty s m a → dirty s' m a.
Proof. intros Hf Hl. unfold dirty. by rewrite (frame_evicting _ _ _ Hf), Hl. Qed.

Lemma accepts_mono s s' a n : frame s s' → (∀ m t, lstate s' m t = lstate s m t) → accepts s a n → accepts s' a n.
Proof. intros Hf Hl. induction 1; [apply accepts_stop|eapply accepts_through]; eauto using dirty_mono. Qed.

(** The log grows, the caches stay. *)
Lemma log_wf_grow s us g l :
  hier_wf s → LI us g → sys (shared s) ≤ sys g → stored us g ≡ₚ stored (undo_cntlrs s) (shared s) ++ l → hier_wf (set_undo us g s).
Proof.
  intros [W1 W2 W3] HL Hs Hst. split; [done| |done]. intros m. destruct (W2 m) as [Hw Hm]. split; [done|].
  intros t b Hb. destruct (Hm t b Hb) as [He Ha]. split; [cbn; lia|].
  intros Hlog. by eapply accounted_mono, Ha.
Qed.

Lemma wps_log_undo c eid b s (Q : unit → state → Prop) :
  hier_wf s → eid = sys (shared s) → 0 ≤ CacheBlockInfo.m_eid b < sys (shared s) →
  (∀ s', masters s' = masters s → hier_wf s' → frame s s' →
     accounted (undo_cntlrs s') (shared s') (CacheBlockInfo.m_tag b) (sys (shared s)) → Q tt s') →
  wps E (log_undo cfg c eid b) s Q.
Proof using T.
  intros Hwf -> Hb HQ. unfold log_undo, cf. destruct (tree_undo _ _ _ _ _ T c) as (u & -> & Hu).
  destruct (hw_undo _ Hwf) as [Hall Hlen]. apply wps_bind, wps_gets, wps_bind.
  destruct (lookup_lt_is_Some_2 (undo_cntlrs s) u) as [x Hx]; [lia|].
  eapply wps_lift_ok; [by apply arr_get_ok|]. apply wps_bind, wps_gets, wps_bind.
  pose proof (proj1 (Forall_lookup _ _) Hall u x Hx) as Hxw.
  destruct (insert_total (sys (shared s)) b x (shared s) Hxw eq_refl (hw_sys _ Hwf)) as (x' & g' & Ei & _).
  destruct (insert_stored _ _ u x b x' g' Hx Hxw (hw_sys _ Hwf) Ei) as (_ & Hsys & Hst & _).
  eapply wps_lift_ok; [exact Ei|]. apply wps_bind. eapply wps_lift_ok; [apply arr_set_ok; split; [lia|done]|].
  apply wps_modify, HQ; [done| |by split|by eapply accounted_new].
  eapply log_wf_grow; [done|by eapply holds_insert, Ei; [apply Hwf|..]|lia|exact Hst].
Qed.

(** The log takes the old epoch of a line, if the cache logs; the line may have the new one. *)
Lemma wps_log_line c l t b s (Q : unit → state → Prop) :
  hier_wf s → points (cache_at s (cache_of cfg c)) l t b → CacheBlockInfo.m_eid b ≠ sys (shared s) →
  (∀ s', masters s' = masters s → hier_wf s' → frame s s' → marked s' (cache_of cfg c) t (sys (shared s)) → Q tt s') →
  wps E (when (m_picl_enabled (cf cfg c) && bool_decide (m_name (mf cfg c) = "L3"%string))
           (log_undo cfg c (sys (shared s)) b)) s Q.
Proof using T.
  intros Hwf Hp Hne HQ. pose proof (hw_sys _ Hwf) as Hsys. apply wps_when; intros Hlog.
  - destruct (hw_marked _ Hwf (cache_of cfg c) t b) as [He _]; [by eapply points_line; [apply hw_lines|]|].
    apply wps_log_undo; [done|done|lia|]. intros s' Em Hwf' Hf Hacc. apply HQ; [done..|].
    destruct Hp as (_ & <- & _). split; [rewrite (fr_sys _ _ Hf); rlia|done].
  - apply HQ; [done..|]. split; [rlia|]. intros (Hn & _ & Hpicl). unfold cf, mf in Hlog.
    rewrite (Hpicl c eq_refl) in Hlog. apply bool_decide_eq_false in Hlog. by destruct Hlog.
Qed.

Lemma wps_write_line c a d s (Q : unit → state → Prop) :
  hier_wf s → aligned k a → length d = Z.to_nat (2 ^ k) → lstate s (cache_of cfg c) (blk k a) = Some CacheState.MODIFIED →
  (∀ s', written c s s' → Q tt s') → wps E (write_line cfg c a 0 (Some d) (Z.to_nat (2 ^ k))) s Q.
Proof using T.
  intros Hwf Ha Hd Hst HQ. unfold write_line. rewrite Z.add_0_r. pose proof Ha as [Hu _].
  rewrite u64_small by done. apply wps_bind. apply wps_access; [done|done|done|by intros ? _ [= <-]; lia|].
  intros r x Hx Hb Hl Hat Hr. destruct r as [[l read]|]; [|unfold lstate, cstate in Hst; by rewrite Hr in Hst].
  destruct Hr as [[b Hp] _].
  assert (hier_wf (put c x s)) as Hwf1 by (by apply put_wf).
  assert (frame s (put c x s)) as Hf1 by (by apply put_frame).
  assert (∀ m t, lstate (put c x s) m t = lstate s m t) as Hl1.
  { intros m t. rewrite lstate_put. case_decide; [subst|done]. unfold lstate, cstate. by rewrite Hl. }
  assert (points (cache_at (put c x s) (cache_of cfg c)) l (blk k a) b) as Hp1.
  { rewrite cache_put, decide_True by done. destruct Hp as (Hp & ? & ?). split; [by rewrite Hat|done]. }
  assert (∀ m, same_shapes m s (put c x s)) as Hsh1.
  { intros m l'. rewrite cache_put. case_decide; [subst m; by rewrite Hat|done]. }
  assert (∀ m, (lv m < lv (cache_of cfg c))%nat → masters (put c x s) m = masters s m) as Hm1.
  { intros m Hm. cbn. unfold insert, fn_insert. rewrite decide_False; [done|]. intros <-. lia. }
  apply wps_bind. eapply wps_block; [apply Hp1|].
  assert (CacheBlockInfo.m_cstate b = CacheState.MODIFIED) as Hbm.
  { unfold lstate, cstate in Hst. rewrite (points_line _ _ _ _ _ (hw_lines _ Hwf _) Hp) in Hst. by injection Hst. }
  rewrite (bool_decide_true (CacheBlockInfo.m_cstate b = _)) by done. apply wps_bind, wps_ret, wps_bind, wps_gets, wps_when; intros Hne; [|by apply HQ].
  set (s1 := put c x s) in *.
  assert (∀ s2, masters s2 = masters s1 → hier_wf s2 → frame s1 s2 → marked s2 (cache_of cfg c) (blk k a) (sys (shared s1)) →
    wps E (upd_block cfg c l (λ b, CacheBlockInfo.set_epoch b (EpochManager.getGlobalSystemEID
              (OnChipUndoBufferCntlr.epoch (shared s1))))) s2 Q) as Hupd.
  { intros s2 Em Hwf2 Hf2 Hmk. apply (wps_upd_block c a l b); [done|by rewrite Em|by destruct Hp1 as (_ & ? & _)|done|].
    intros y Hy Hby Hly Hpy Haty. rewrite Em in *. apply HQ. split_and!.
    - by apply put_wf.
    - etrans; [exact Hf1|]. etrans; [exact Hf2|]. apply put_frame. by rewrite Em.
    - intros m t. rewrite lstate_put. case_decide; [subst m|unfold lstate; rewrite Em; apply Hl1].
      rewrite <- Hl1. unfold lstate, cstate. rewrite Hly. destruct (Z.eqb_spec t (blk k a)) as [->|]; [|done].
      by rewrite (points_line _ _ _ _ _ (hw_lines _ Hwf1 _) Hp1).
    - intros m Hm. cbn. unfold insert, fn_insert. rewrite decide_False by (intros <-; lia). rewrite Em. by apply Hm1.
    - intros m l'. rewrite cache_put. case_decide; [subst m|rewrite Em; apply Hsh1].
      rewrite Haty. case_decide as El; [subst l'|apply Hsh1]. rewrite <- Hsh1. by rewrite (proj1 Hp1). }
  apply wps_bind. eapply wps_log_line; [done|done| |done].
  change (EpochManager.getGlobalSystemEID _) with (sys (shared s1)) in Hne. lia.
Qed.

Lemma written_trans n n' s s1 s2 :
  (lv (cache_of cfg n) < lv (cache_of cfg n'))%nat → written n s s1 → written n' s1 s2 → written n s s2.
Proof.
  intros Hlv (W1 & F1 & L1 & M1 & S1) (W2 & F2 & L2 & M2 & S2). split_and!; [done|by etrans| | |].
  - intros m t. by rewrite L2, L1.
  - intros m Hm. rewrite M2, M1 by lia. done.
  - intros m l. by rewrite S2, S1.
Qed.

(** The buffer of a line being evicted takes the data. *)
Lemma written_buffer n a b buf s :
  hier_wf s → m_evicting (masters s (cache_of cfg n)) = Some (a, buf) → length b = Z.to_nat (2 ^ k) →
  written n s (set_masters (<[cache_of cfg n := put_evicting (Some (a, b)) (masters s (cache_of cfg n))]> (masters s)) s).
Proof.
  intros [W1 W2 W4] He Hb. unfold insert, fn_insert. split_and!.
  - split; [done| |]; cbn.
    + intros m. destruct (decide (cache_of cfg n = m)) as [<-|]; apply W2.
    + intros m a' b'. destruct (decide (cache_of cfg n = m)) as [<-|]; [by intros [= <- <-]|apply W4].
  - split; try done. intros m. cbn. destruct (decide (cache_of cfg n = m)) as [<-|]; [|done].
    unfold rest. cbn. by rewrite He.
  - intros m t. unfold lstate. cbn. by destruct (decide (cache_of cfg n = m)) as [<-|].
  - intros m Hm. cbn. rewrite decide_False; [done|]. intros <-. lia.
  - intros m l. cbn. by destruct (decide (cache_of cfg n = m)) as [<-|].
Qed.

(** A write of a whole line succeeds where it is accepted. *)
Lemma wps_writeCacheBlock fuel n a d s (Q : unit → state → Prop) :
  hier_wf s → aligned k a → length d = Z.to_nat (2 ^ k) → accepts s a n →
  (levels cfg - lv (cache_of cfg n) ≤ fuel)%nat →
  (∀ s', written n s s' → Q tt s') → wps E (writeCacheBlock cfg fuel n a 0 (Some d) (Z.to_nat (2 ^ k))) s Q.
Proof using T.
  revert n s Q. induction fuel as [|fuel IH]; intros n s Q Hwf Ha Hd Hacc Hfuel HQ.
  { pose proof (tree_levels _ _ _ _ _ T (cache_of cfg n)). lia. }
  cbn [writeCacheBlock]. apply wps_bind, wps_master.
  assert (dirty s (cache_of cfg n) a) as Hdirty by (by destruct Hacc).
  assert (∀ s1, written n s s1 → wps E (when (m_cache_writethrough (cf cfg n))
            (n0 ← next_cntlr cfg n; writeCacheBlock cfg fuel n0 a 0 (Some d) (Z.to_nat (2 ^ k)))) s1 Q) as Hthrough.
  { intros s1 Hs1. apply wps_when; intros Hthr; [|by apply HQ]. unfold cf in Hthr.
    destruct Hacc as [n Hd' Hwt|n n' Hd' Hn' Hacc]; [congruence|].
    apply wps_bind. unfold next_cntlr, cf. unfold next_of in Hn'. rewrite Hn'. apply wps_ret.
    pose proof (tree_up _ _ _ _ _ T n n' Hn') as Hup.
    pose proof Hs1 as (W1 & F1 & L1 & M1 & _).
    apply IH; [done|done|done|by eapply accepts_mono|lia|].
    intros s2 Hs2. apply HQ. by eapply written_trans. }
  assert (evicting s (cache_of cfg n) ≠ Some a →
    wps E (write_line cfg n a 0 (Some d) (Z.to_nat (2 ^ k))) s (λ _ s1, wps E (when (m_cache_writethrough (cf cfg n))
            (n0 ← next_cntlr cfg n; writeCacheBlock cfg fuel n0 a 0 (Some d) (Z.to_nat (2 ^ k)))) s1 Q)) as Hline.
  { intros Hne. destruct Hdirty as [He|Hm]; [done|]. by apply wps_write_line. }
  apply wps_bind. unfold evicting in Hline.
  destruct (m_evicting (masters s (cache_of cfg n))) as [[a' buf]|] eqn:Eev; [|by apply Hline].
  destruct (Z.eqb_spec a a') as [<-|Hne]; [|apply Hline; cbn; congruence]. apply wps_bind. apply wps_ret.
  unfold cf. rewrite (tree_block _ _ _ _ _ T), Nat.eqb_refl. apply wps_bind, wps_ret. apply wps_bind.
  pose proof (hw_evicting _ Hwf _ _ _ Eev) as Hbuf.
  eapply wps_lift_ok; [apply mem_write_ok; lia|]. apply wps_modify, Hthrough.
  eapply written_buffer; [done|done|]. rewrite mem_write_length; lia.
Qed.

(** ** Changes of the state of a line

    [quiet]: nothing happened to the states of the lines, and the blocks of a controller
    are where they were. *)
Definition quiet c s s' : Prop :=
  hier_wf s' ∧ frame s s' ∧ (∀ m t, lstate s' m t = lstate s m t) ∧
  (∀ l, block_at (cache_at s' (cache_of cfg c)) l = block_at (cache_at s (cache_of cfg c)) l) ∧ ∀ m, same_shapes m s s'.

Lemma still_refl c s : hier_wf s → quiet c s s.
Proof. intros Hwf. split_and!; done. Qed.

Lemma still_trans c s s1 s2 : quiet c s s1 → quiet c s1 s2 → quiet c s s2.
Proof.
  intros (W1 & F1 & L1 & B1 & S1) (W2 & F2 & L2 & B2 & S2). split_and!; [done|by etrans| | |].
  - intros m t. by rewrite L2, L1.
  - intros l. by rewrite B2, B1.
  - intros m l. by rewrite S2, S1.
Qed.

Lemma quiet_points c s s' l t b :
  quiet c s s' → points (cache_at s (cache_of cfg c)) l t b → points (cache_at s' (cache_of cfg c)) l t b.
Proof. intros (_ & _ & _ & B & _) (Hb & ? & ?). split; [by rewrite B|done]. Qed.

Lemma quiet_put c x s :
  hier_wf s → lines_ok s (cache_of cfg c) x → Cache.base x = Cache.base (cache_at s (cache_of cfg c)) →
  (∀ t, line x t = line (cache_at s (cache_of cfg c)) t) →
  (∀ l, block_at x l = block_at (cache_at s (cache_of cfg c)) l) → quiet c s (put c x s).
Proof.
  intros Hwf Hx Hb Hl Hat. split_and!; [by apply put_wf|by apply put_frame| | |].
  - intros m t. rewrite lstate_put. case_decide; [subst m|done]. unfold lstate, cstate. by rewrite Hl.
  - intros l. by rewrite cache_put, decide_True.
  - intros m l. rewrite cache_put. case_decide; [subst m; by rewrite Hat|done].
Qed.

Lemma same_lines_quiet c s s' : same_lines s s' → quiet c s s'.
Proof. intros (Em & W & Fr). split_and!; [done|done| | |]; try intros ? ?; intros; unfold lstate; by rewrite Em. Qed.

Lemma written_quiet c n s s' : (lv (cache_of cfg c) < lv (cache_of cfg n))%nat → written n s s' → quiet c s s'.
Proof. intros Hlv (W & Fr & L & Mm & S'). split_and!; [done..| |done]. intros l. by rewrite Mm. Qed.

(** The state of one line of one cache, or its absence, is replaced. *)
Definition patched c a (v : option CacheState.cstate_t) s s' : Prop :=
  hier_wf s' ∧ frame s s' ∧
  (∀ m t, lstate s' m t = if decide (m = cache_of cfg c ∧ t = blk k a) then v else lstate s m t) ∧
  ∀ m, m ≠ cache_of cfg c → same_shapes m s s'.

Lemma patched_put c a x v s :
  hier_wf s → lines_ok s (cache_of cfg c) x → Cache.base x = Cache.base (cache_at s (cache_of cfg c)) →
  (∀ t, cstate x t = if t =? blk k a then v else cstate (cache_at s (cache_of cfg c)) t) →
  patched c a v s (put c x s).
Proof.
  intros Hwf Hx Hb Hl. split_and!; [by apply put_wf|by apply put_frame| |].
  2:{ intros m Hm l. by rewrite cache_put, decide_False. }
  intros m t. rewrite lstate_put. case_decide as Hm.
  - subst m. rewrite Hl. destruct (Z.eqb_spec t (blk k a)); [by rewrite decide_True|].
    rewrite decide_False by tauto. done.
  - by rewrite decide_False by tauto.
Qed.

Lemma patched_quiet c a v s s1 s2 : quiet c s s1 → patched c a v s1 s2 → patched c a v s s2.
Proof.
  intros (W1 & F1 & L1 & _ & S1) (W2 & F2 & L2 & S2). split_and!; [done|by etrans| |].
  - intros m t. rewrite L2. case_decide; [done|apply L1].
  - intros m Hm l. by rewrite S2, S1.
Qed.

Lemma patched_patched c a v v' s s1 s2 : patched c a v s s1 → patched c a v' s1 s2 → patched c a v' s s2.
Proof.
  intros (W1 & F1 & L1 & S1) (W2 & F2 & L2 & S2). split_and!; [done|by etrans| |].
  - intros m t. rewrite L2. case_decide; [done|]. rewrite L1. by rewrite decide_False.
  - intros m Hm l. by rewrite S2, S1.
Qed.

Lemma quiet_patched c a s s' : quiet c s s' → patched c a (lstate s (cache_of cfg c) (blk k a)) s s'.
Proof.
  intros (W & Fr & L & _ & S'). split_and!; [done..| |by intros m _].
  intros m t. rewrite L. case_decide as Hd; [|done]. by destruct Hd as [-> ->].
Qed.

(** A controller may give up a dirty line if it writes through, if the next level accepts
    it, or into a buffer; else an assertion fails. *)
Definition may_leave s a c (out : bool) : Prop :=
  lstate s (cache_of cfg c) (blk k a) = Some CacheState.MODIFIED → m_cache_writethrough (cntlr_conf cfg c) = false →
  match next_of cfg c with
  | Some n => accepts s a n
  | None => out = true ∨ E AssertFail
  end.

(** A buffer for the line is given only where the line is, and not for an upgrade. *)
Definition out_ok s a c (st : CacheState.cstate_t) (out : option bytes) : Prop :=
  ∀ d, out = Some d →
    match lstate s (cache_of cfg c) (blk k a) with
    | Some _ => length d = Z.to_nat (2 ^ k) ∧ st ≠ CacheState.MODIFIED
    | None => E AssertFail
    end.

Lemma wps_retrieve_quiet c a buf s (Q : bytes → state → Prop) :
  hier_wf s → aligned k a → is_Some (lstate s (cache_of cfg c) (blk k a)) → length buf = Z.to_nat (2 ^ k) →
  (∀ d s', quiet c s s' → length d = Z.to_nat (2 ^ k) → Q d s') → wps E (retrieveCacheBlock cfg c a buf false) s Q.
Proof using T.
  intros Hwf Ha Hst Hbuf HQ. apply wps_retrieveCacheBlock; [done..|].
  intros d x Hx Hb Hl Hat Hd. apply HQ; [by apply quiet_put|done].
Qed.

Lemma wps_fill_out c a out s (Q : option bytes * bool → state → Prop) :
  hier_wf s → aligned k a → (∀ d, out = Some d → length d = Z.to_nat (2 ^ k) ∧ is_Some (lstate s (cache_of cfg c) (blk k a))) →
  (∀ out' s', quiet c s s' → length <$> out' = length <$> out → Q (out', bool_decide (is_Some out)) s') →
  wps E (fill_out cfg c a out) s Q.
Proof using T.
  intros Hwf Ha Hout HQ. destruct out as [d|]; cbn [fill_out].
  - destruct (Hout d eq_refl) as [Hd Hst]. apply wps_bind, wps_retrieve_quiet; [done..|].
    intros d' s' Hq Hd'. apply wps_ret. apply HQ; [done|]. cbn. congruence.
  - apply wps_ret. apply HQ; [by apply still_refl|done].
Qed.

Lemma wps_write_back c a out s (Q : option bytes * bool * bool → state → Prop) :
  hier_wf s → aligned k a → lstate s (cache_of cfg c) (blk k a) = Some CacheState.MODIFIED →
  may_leave s a c (bool_decide (is_Some out)) → (∀ d, out = Some d → length d = Z.to_nat (2 ^ k)) →
  (∀ out' w wb s', quiet c s s' → length <$> out' = length <$> out → Q (out', w, wb) s') →
  wps E (write_back cfg c a out) s Q.
Proof using T.
  intros Hwf Ha Hst Hleave Hout HQ. unfold write_back, cf.
  destruct (m_cache_writethrough (cntlr_conf cfg c)) eqn:Ewt.
  { apply wps_ret, HQ; [by apply still_refl|done]. }
  specialize (Hleave Hst Ewt). unfold next_of in Hleave.
  destruct (m_next_cache_cntlr (cntlr_conf cfg c)) as [n|] eqn:En.
  - pose proof (tree_up _ _ _ _ _ T c n En) as Hlv.
    apply wps_bind, wps_retrieve_quiet; [done|done|by eexists|apply (tree_buf _ _ _ _ _ T)|].
    intros d s1 Hq1 Hd. pose proof Hq1 as (W1 & F1 & L1 & _).
    rewrite (tree_block _ _ _ _ _ T). apply wps_bind, wps_writeCacheBlock; [done|done|done| | |].
    + by eapply accepts_mono.
    + lia.
    + intros s2 Hw. apply wps_ret, HQ; [|done]. eapply still_trans; [done|]. by eapply written_quiet.
  - destruct out as [d|]; [|by destruct Hleave as [[=]|]]. apply wps_bind, wps_fill_out; [done|done| |].
    { intros d' [= <-]. split; [by apply Hout|by eexists]. }
    intros out' s1 Hq Hl. by apply wps_ret, HQ.
Qed.

(** What a line becomes: with [INVALID] it is gone. *)
Definition after (st : CacheState.cstate_t) : option CacheState.cstate_t :=
  if bool_decide (st = CacheState.INVALID) then None else Some st.
(** The states a line can be given; for [EXCLUSIVE] an assertion fails. *)
Definition target (st : CacheState.cstate_t) : Prop :=
  st = CacheState.INVALID ∨ st = CacheState.SHARED ∨ st = CacheState.MODIFIED ∨ (st = CacheState.EXCLUSIVE ∧ E AssertFail).

(** ** Changes of the state of a line in subtrees *)

(** The line is in the new state in all caches of the subtrees of some controllers that had
    it; nothing else happened to the states of the lines. *)
Definition subtrees (V : nat → Prop) a st s s' : Prop :=
  hier_wf s' ∧ frame s s' ∧
  (∀ m p, V p → below cfg (cache_of cfg p) m → lstate s' m (blk k a) = lstate s m (blk k a) ≫= λ _, after st) ∧
  (∀ m t, (t = blk k a → ∀ p, V p → ¬ below cfg (cache_of cfg p) m) → lstate s' m t = lstate s m t) ∧
  ∀ m, (∀ p, V p → ¬ below cfg (cache_of cfg p) m) → same_shapes m s s'.
Definition subtree c : Z → CacheState.cstate_t → state → state → Prop := subtrees (λ p, p = c).

(** What must hold for it: every line is alive and may be given up. *)
Record ready s a c st (out : option bytes) : Prop := {
  rd_alive m : below cfg (cache_of cfg c) m → lstate s m (blk k a) ≠ Some CacheState.INVALID;
  rd_below m p : below cfg (cache_of cfg c) m → p ∈ prevs cfg m → may_leave s a p false;
  rd_self : may_leave s a c (bool_decide (is_Some out));
  rd_out : out_ok s a c st out;
}.

Lemma subtrees_refl a st s : hier_wf s → subtrees (λ _, False) a st s s.
Proof. intros Hwf. split_and!; done. Qed.

Lemma subtrees_iff (V V' : nat → Prop) a st s s' : (∀ p, V p ↔ V' p) → subtrees V a st s s' → subtrees V' a st s s'.
Proof.
  intros HV (W & Fr & L & K & S'). split_and!; [done..| | |intros m Hm; apply S'; intros p Hp; apply Hm; by apply HV].
  - intros m p Hp. apply L. by apply HV.
  - intros m t Hm. apply K. intros -> p Hp. apply Hm; [done|by apply HV].
Qed.

(** Whether a next level accepts a line depends on the path to memory only. *)
Lemma next_below c n : next_of cfg c = Some n → below cfg (cache_of cfg n) (cache_of cfg c).
Proof using T. intros Hn. destruct (tree_next _ _ _ _ _ T c n Hn) as (p & Hp & <-). econstructor; [constructor|done]. Qed.

Lemma accepts_local s s' a n :
  accepts s a n → frame s s' → (∀ m, below cfg m (cache_of cfg n) → lstate s' m (blk k a) = lstate s m (blk k a)) →
  accepts s' a n.
Proof using T.
  intros Hacc Hf. assert (∀ m, lstate s' m (blk k a) = lstate s m (blk k a) → dirty s m a → dirty s' m a) as Hd.
  { intros m Hm. unfold dirty. by rewrite (frame_evicting _ _ _ Hf), Hm. }
  induction Hacc as [n Hn Hwt|n n' Hn Hnext _ IH]; intros Hl.
  - apply accepts_stop; [|done]. apply Hd; [|done]. apply Hl. constructor.
  - apply accepts_through with n'; [|done|].
    + apply Hd; [|done]. apply Hl. constructor.
    + apply IH. intros m Hm. apply Hl. eapply below_trans; [exact Hm|by apply next_below].
Qed.

Lemma may_leave_local s s' a c out :
  may_leave s a c out → frame s s' → (∀ m, below cfg m (cache_of cfg c) → lstate s' m (blk k a) = lstate s m (blk k a)) →
  may_leave s' a c out.
Proof using T.
  intros Hm Hf Hl Hst Hwt. rewrite Hl in Hst by constructor. specialize (Hm Hst Hwt).
  destruct (next_of cfg c) as [n|] eqn:En; [|done]. eapply accepts_local; [done..|].
  intros m Hb. apply Hl. eapply below_trans; [exact Hb|by apply next_below].
Qed.

(** Changes in the subtrees of other controllers of the same cache do not matter. *)
Lemma apart m p q x y :
  p ∈ prevs cfg m → q ∈ prevs cfg m → p ≠ q → below cfg (cache_of cfg p) x → below cfg y x → ¬ below cfg (cache_of cfg q) y.
Proof using T.
  intros Hp Hq Hne Hx Hy Hq'. apply Hne. eapply (below_siblings cfg T m); [done..|exact Hx|]. by eapply below_trans.
Qed.

Lemma ready_apart V m p a st s s' :
  ready s a p st None → subtrees V a st s s' → p ∈ prevs cfg m → (∀ q, V q → q ∈ prevs cfg m ∧ q ≠ p) → ready s' a p st None.
Proof using T.
  intros [R1 R2 R3 R4] (W & Fr & L & K & _) Hp HV.
  assert (∀ x y, below cfg (cache_of cfg p) x → below cfg y x → lstate s' y (blk k a) = lstate s y (blk k a)) as Hsame.
  { intros x y Hx Hy. apply K. intros _ q Hq. destruct (HV q Hq) as [? Hne].
    apply (apart m p q x y); [done|done|congruence|done|done]. }
  split; [| | |done].
  - intros x Hx. rewrite (Hsame x x) by (done || constructor). by apply R1.
  - intros x q Hx Hq. eapply may_leave_local; [by eapply R2|done|]. intros y Hy.
    eapply Hsame; [|exact Hy]. by econstructor.
  - eapply may_leave_local; [done..|]. intros y Hy. eapply Hsame; [|exact Hy]. constructor.
Qed.

Lemma subtrees_add V m p a st s s1 s2 :
  subtrees V a st s s1 → subtree p a st s1 s2 → p ∈ prevs cfg m → (∀ q, V q → q ∈ prevs cfg m ∧ q ≠ p) →
  subtrees (λ q, V q ∨ q = p) a st s s2.
Proof using T.
  intros (W1 & F1 & L1 & K1 & S1) (W2 & F2 & L2 & K2 & S2) Hp HV. split_and!; [done|by etrans| | |].
  - intros x q Hq Hx. destruct (decide (q = p)) as [->|Hne].
    + rewrite (L2 x p eq_refl Hx), K1; [done|]. intros _ r Hr Hxr. destruct (HV r Hr) as [Hr1 Hr2].
      apply Hr2. by eapply (below_siblings cfg T m).
    + destruct Hq as [Hq|]; [|done]. destruct (HV q Hq) as [Hq1 _].
      rewrite K2; [by apply (L1 _ q)|]. intros _ r -> Hxr. apply Hne. by eapply (below_siblings cfg T m).
  - intros x t Hx. rewrite K2, K1; [done| |].
    + intros Et q Hq. apply Hx; [done|by left].
    + intros Et q ->. apply Hx; [done|by right].
  - intros x Hx l. rewrite S2, S1; [done| |]; intros q Hq; apply Hx; [by left|by right].
Qed.

(** A loop that updates some of the previous levels of a cache. *)
Lemma wps_each {B} (f : B → nat → M state B) (V : nat → bool) m a st b s (Q : B → state → Prop) :
  hier_wf s → (∀ p, p ∈ prevs cfg m → V p = true → ready s a p st None) →
  (∀ b p s1 (R : B → state → Prop), p ∈ prevs cfg m → V p = true → hier_wf s1 → ready s1 a p st None →
     (∀ b' s2, subtree p a st s1 s2 → R b' s2) → wps E (f b p) s1 R) →
  (∀ b p s1 (R : B → state → Prop), V p = false → R b s1 → wps E (f b p) s1 R) →
  (∀ b' s', subtrees (λ p, p ∈ prevs cfg m ∧ V p = true) a st s s' → Q b' s') →
  wps E (foldM f b (prevs cfg m)) s Q.
Proof using T.
  intros Hwf Hready Hf Hskip HQ.
  pose proof (tree_nodup _ _ _ _ _ T m) as Hnd.
  apply wps_mono with (Q := λ b' s', ∃ l0, prevs cfg m = l0 ++ [] ∧ subtrees (λ p, p ∈ l0 ∧ V p = true) a st s s').
  2:{ intros b' s' (l0 & El & Hs). apply HQ. rewrite app_nil_r in El. by rewrite El. }
  apply (wps_fold E f (λ l b' s', ∃ l0, prevs cfg m = l0 ++ l ∧ subtrees (λ p, p ∈ l0 ∧ V p = true) a st s s')).
  { exists []. split; [done|]. eapply subtrees_iff; [|by apply subtrees_refl].
    intros p. split; [done|]. by intros [?%elem_of_nil _]. }
  intros p l b1 s1 (l0 & El & Hs). rewrite El in Hnd. apply NoDup_app in Hnd as (Hnd0 & Hdis & Hnd1).
  apply NoDup_cons in Hnd1 as [Hp _].
  assert (p ∈ prevs cfg m) as Hpin by (rewrite El; set_solver).
  assert (prevs cfg m = (l0 ++ [p]) ++ l) as El' by (by rewrite <- app_assoc).
  assert (∀ q, q ∈ l0 ∧ V q = true → q ∈ prevs cfg m ∧ q ≠ p) as Hother.
  { intros q [Hq _]. split; [rewrite El; set_solver|]. intros ->. apply (Hdis p Hq). set_solver. }
  destruct (V p) eqn:Ev.
  - pose proof Hs as (W1 & _). apply Hf; [done|done|done| |].
    { eapply ready_apart; [by apply Hready|exact Hs|done|done]. }
    intros b2 s2 H2. exists (l0 ++ [p]). split; [done|].
    eapply subtrees_iff; [|by eapply subtrees_add]. intros q. rewrite elem_of_app, list_elem_of_singleton.
    split; [intros [[]| ->]; tauto|]. intros [[?| ->] ?]; tauto.
  - apply Hskip; [done|]. exists (l0 ++ [p]). split; [done|].
    eapply subtrees_iff; [|exact Hs]. intros q. rewrite elem_of_app, list_elem_of_singleton. split; [tauto|].
    intros [[?| ->] ?]; [tauto|congruence].
Qed.

(** ** [updateCacheBlock] *)

Context (Hcoh : ∀ c, m_coherent (cntlr_conf cfg c) = true).

Lemma wps_change_state c a l b st reason out s (Q : option bytes * bool * bool → state → Prop) :
  hier_wf s → aligned k a → points (cache_at s (cache_of cfg c)) l (blk k a) b →
  CacheBlockInfo.m_cstate b ≠ CacheState.INVALID → target st → out_ok s a c st out →
  may_leave s a c (bool_decide (is_Some out)) →
  (∀ out' w wb s', patched c a (after st) s s' → length <$> out' = length <$> out → (is_Some out → w = true) →
     CacheBlockInfo.m_cstate <$> block_at (cache_at s' (cache_of cfg c)) l = Some st → Q (out', w, wb) s') →
  wps E (change_state cfg c a l st reason out) s Q.
Proof using T Hcoh.
  intros Hwf Ha Hp Hb Hst Hout Hleave HQ. unfold change_state.
  apply wps_bind. eapply wps_count_update; [done|apply Hp|]. intros s1 Hs1%(same_lines_quiet c).
  pose proof (quiet_points _ _ _ _ _ _ Hs1 Hp) as Hp1. pose proof Hs1 as (W1 & F1 & L1 & _).
  assert (lstate s (cache_of cfg c) (blk k a) = Some (CacheBlockInfo.m_cstate b)) as Hls.
  { unfold lstate, cstate. by rewrite (points_line _ _ _ _ _ (hw_lines _ Hwf _) Hp). }
  apply wps_bind. eapply wps_getCState; [apply Hp1|].
  (* the write-back leaves the line in a state that is not MODIFIED *)
  apply wps_bind.
  assert (∀ out1 w wb s2 b2, patched c a (Some (CacheBlockInfo.m_cstate b2)) s s2 →
    points (cache_at s2 (cache_of cfg c)) l (blk k a) b2 →
    CacheBlockInfo.m_cstate b2 ≠ CacheState.INVALID → CacheBlockInfo.m_cstate b2 ≠ CacheState.MODIFIED →
    length <$> out1 = length <$> out →
    wps E match st with
          | CacheState.INVALID =>
              '(out_buf, w0) ← fill_out cfg c a out1;
              when (m_coherent (cf cfg c)) (invalidateCacheBlock cfg c a);; mret (out_buf, w || w0, wb || w0)
          | CacheState.SHARED =>
              '(out_buf, w0) ← fill_out cfg c a out1;
              setCState cfg c l st;; mret (out_buf, w || w0, wb || w0)
          | CacheState.MODIFIED => setCState cfg c l st;; mret (out1, w, wb)
          | _ => fail AssertFail
          end s2 Q) as Hrest.
  { intros out1 w wb s2 b2 Hpat Hp2 HI HM Hlen. pose proof Hpat as (W2 & F2 & L2 & _).
    assert (∀ d, out1 = Some d → length d = Z.to_nat (2 ^ k) ∧ is_Some (lstate s2 (cache_of cfg c) (blk k a))) as Hout1.
    { intros d ->. destruct out as [d0|]; [|done]. specialize (Hout d0 eq_refl). rewrite Hls in Hout.
      destruct Hout as [Hd _]. cbn in Hlen. split; [congruence|]. rewrite L2, decide_True by done. by eexists. }
    assert (is_Some out1 ↔ is_Some out) as His by (destruct out, out1; try done; split; intros []; done).
    destruct Hst as [->|[->|[->|[-> HE]]]].
    - apply wps_bind, wps_fill_out; [done..|]. intros out2 s3 Hs3 Hlen2. pose proof Hs3 as (W3 & F3 & L3 & _).
      unfold cf. rewrite Hcoh. apply wps_bind. cbn [when].
      eapply wps_invalidateCacheBlock; [done|apply Ha|by eapply quiet_points|done|done|].
      intros x Hx Hbx Hlx Hatx. apply wps_ret, HQ.
      + eapply patched_patched; [eapply patched_patched; [exact Hpat|by apply quiet_patched]|].
        apply patched_put; [done..|]. intros t. unfold cstate. rewrite Hlx. by destruct (t =? blk k a).
      + congruence.
      + intros Hso. rewrite (bool_decide_true (is_Some out1)) by tauto. by rewrite orb_true_r.
      + by rewrite cache_put, decide_True, Hatx.
    - apply wps_bind, wps_fill_out; [done..|]. intros out2 s3 Hs3 Hlen2. pose proof Hs3 as (W3 & F3 & L3 & _).
      apply wps_bind. eapply wps_setCState; [done|by eapply quiet_points|]. intros x Hx Hbx Hlx Hpx. apply wps_ret, HQ.
      + eapply patched_patched; [eapply patched_patched; [exact Hpat|by apply quiet_patched]|]. by apply patched_put.
      + congruence.
      + intros Hso. rewrite (bool_decide_true (is_Some out1)) by tauto. by rewrite orb_true_r.
      + rewrite cache_put, decide_True by done. by destruct Hpx as (-> & _).
    - apply wps_bind. eapply wps_setCState; [done|done|]. intros x Hx Hbx Hlx Hpx. apply wps_ret, HQ.
      + eapply patched_patched; [exact Hpat|]. by apply patched_put.
      + done.
      + intros [d Hd]. specialize (Hout d Hd). rewrite Hls in Hout. by destruct Hout.
      + rewrite cache_put, decide_True by done. by destruct Hpx as (-> & _).
    - by apply wps_bind, wps_fail || by apply wps_fail. }
  destruct (bool_decide (CacheBlockInfo.m_cstate b = CacheState.MODIFIED)) eqn:Hm;
    [apply bool_decide_eq_true_1 in Hm|apply bool_decide_eq_false_1 in Hm].
  - rewrite Hm in Hls. apply wps_bind, wps_write_back; [done|done|by rewrite L1| | |].
    + intros Hst1 Hwt. rewrite L1 in Hst1. specialize (Hleave Hst1 Hwt). destruct (next_of cfg c); [|done].
      by eapply accepts_mono.
    + intros d Hd. specialize (Hout d Hd). rewrite Hls in Hout. by destruct Hout.
    + intros out1 w wb s2 Hs2 Hlen. pose proof Hs2 as (W2 & F2 & L2 & _).
      pose proof (quiet_points _ _ _ _ _ _ Hs2 Hp1) as Hp2.
      apply wps_bind. eapply wps_setCState; [done|done|]. intros x Hx Hbx Hlx Hpx. apply wps_ret.
      apply (Hrest _ _ _ _ (CacheBlockInfo.set_cstate b CacheState.SHARED)); [| |done|done|done].
      * cbn. eapply patched_quiet; [by eapply still_trans|]. by apply patched_put.
      * by rewrite cache_put, decide_True.
  - apply wps_ret. apply (Hrest _ _ _ _ b); [|done|done|done|done].
    rewrite <- Hls. by apply quiet_patched.
Qed.

(** The assertions at the end of [updateCacheBlock] hold: the line is gone or in the new state. *)
Lemma wps_settled {A} c a (p : option Cache.loc) st (rest : M state A) s (Q : A → state → Prop) :
  hier_wf s → in_u64 a →
  match p with
  | Some l => lstate s (cache_of cfg c) (blk k a) = after st ∧
      CacheBlockInfo.m_cstate <$> block_at (cache_at s (cache_of cfg c)) l = Some st
  | None => lstate s (cache_of cfg c) (blk k a) = None
  end → wps E rest s Q →
  let settled (x : CacheState.cstate_t) : bool :=
    bool_decide (x = CacheState.INVALID) || bool_decide (x = st) || negb (m_coherent (cf cfg c)) in
  wps E (x ← getCacheState cfg c a;
         assert_ (settled x);;
         current_cstate ← getCacheState_of cfg c p;
         assert_ (settled current_cstate);; rest) s Q.
Proof using T.
  intros Hwf Ha Hp HQ settled. apply wps_bind, wps_getCacheState; [done..|].
  assert (settled CacheState.INVALID = true ∧ settled st = true) as [HI Hst].
  { unfold settled. split; [done|]. by rewrite (bool_decide_true (st = st)), orb_true_r by done. }
  destruct p as [l|].
  - destruct Hp as [Hl Hat]. replace (settled _) with true.
    2:{ rewrite Hl. unfold after. by case_bool_decide. }
    apply wps_bind, wps_ret, wps_bind.
    destruct (block_at (cache_at s (cache_of cfg c)) l) as [b|] eqn:Eb; [|done]. injection Hat as <-.
    eapply wps_getCState; [done|]. rewrite Hst. by apply wps_bind, wps_ret.
  - rewrite Hp. cbn [default]. rewrite HI. apply wps_bind, wps_ret, wps_bind, wps_ret.
    rewrite HI. by apply wps_bind, wps_ret.
Qed.

(** [updateCacheBlock] succeeds and changes the line in the whole subtree, and nothing else. *)
Lemma wps_updateCacheBlock fuel c a st reason out s (Q : Z * bool * option bytes → state → Prop) :
  hier_wf s → aligned k a → target st → ready s a c st out → (lv (cache_of cfg c) < fuel)%nat →
  (∀ lat hit out' s', subtree c a st s s' → length <$> out' = length <$> out → Q (lat, hit, out') s') →
  wps E (updateCacheBlock cfg fuel c a st reason out) s Q.
Proof using T Hcoh.
  revert c reason out s Q. induction fuel as [|fuel IH]; intros c reason out s Q Hwf Ha Hst Hr Hfuel HQ; [lia|].
  cbn [updateCacheBlock]. apply wps_bind.
  assert (proper_state st = true) as -> by (by destruct Hst as [->|[->|[->|[-> _]]]]). apply wps_ret, wps_bind.
  change (m_prev_cache_cntlrs (mf cfg c)) with (prevs cfg (cache_of cfg c)).
  pose proof Hr as [R1 R2 R3 R4].
  apply (wps_each _ (λ _, true) (cache_of cfg c) a st); [done| | |done|].
  { intros p Hp _. pose proof (below_prev cfg _ _ p (below_refl cfg (cache_of cfg c)) Hp) as Hbp.
    split; [| | |done].
    - intros m Hm. apply R1. by eapply below_trans.
    - intros m q Hm. apply R2. by eapply below_trans.
    - apply (R2 (cache_of cfg c)); [constructor|done]. }
  { intros hit p s1 R Hp _ W1 Hr1 HR. apply wps_bind. pose proof (prev_lv cfg T _ _ Hp).
    apply IH; [done|done|done|done|lia|]. intros lat hit' out' s2 Hs2 _. by apply wps_ret, HR. }
  intros sibling_hit s1 Hs1. pose proof Hs1 as (W1 & F1 & L1 & K1 & S1).
  assert (∀ m, below cfg m (cache_of cfg c) → lstate s1 m (blk k a) = lstate s m (blk k a)) as Hup.
  { intros m Hm. apply K1. intros _ p [Hp _] Hb. apply (not_below_self cfg T _ _ Hp). by eapply below_trans. }
  pose proof (Hup _ (below_refl cfg _)) as Hself.
  (* the line of this cache *)
  assert (∀ s', patched c a (lstate s (cache_of cfg c) (blk k a) ≫= λ _, after st) s1 s' →
            subtree c a st s s') as Hdone.
  { intros s' (W2 & F2 & L2 & S2). split_and!; [done|by etrans| | |].
    - intros m p -> Hm. rewrite L2. case_decide as Hd; [by destruct Hd as [-> _]|].
      apply below_inv in Hm as [->|(p & Hp & Hm)]; [tauto|]. by eapply L1.
    - intros m t Hm. rewrite L2, decide_False.
      + apply K1. intros Et p [Hp _] Hb. apply (Hm Et c eq_refl). by eapply below_child.
      + intros [-> Et]. apply (Hm Et c eq_refl). constructor.
    - intros m Hm l. rewrite S2, S1; [done| |].
      + intros p [Hp _] Hb. apply (Hm c eq_refl). by eapply below_child.
      + intros ->. apply (Hm c eq_refl). constructor. }
  apply wps_bind, wps_getCacheBlockInfo; [done|apply Ha|]. intros p Hp.
  apply wps_bind. eapply wps_getCacheState_of; [done|exact Hp|]. apply wps_bind.
  pose proof (pointer_lstate _ _ _ _ W1 Hp) as Hpl. rewrite Hself in Hpl.
  destruct p as [l|].
  - destruct Hpl as (b & Hpb & Hlb).
    assert (CacheBlockInfo.m_cstate b ≠ CacheState.INVALID) as Hb.
    { intros E1. apply (R1 (cache_of cfg c)); [constructor|]. by rewrite Hlb, E1. }
    assert (∀ out' (w wb : bool) s' x, subtree c a st s s' → length <$> out' = length <$> out → (is_Some out → w = true) →
      wps E (assert_ (bool_decide (out = None) || w);; mret (x, sibling_hit || wb, out')) s' Q) as Hend.
    { intros out' w wb s' x Hs' Hlen Hw. replace (bool_decide (out = None) || w) with true; [by apply wps_bind, wps_ret, wps_ret, HQ|].
      destruct out as [d|]; [by rewrite (Hw ltac:(by eexists))|done]. }
    rewrite Hself, Hlb. cbn [default from_option id].
    destruct (bool_decide (st = CacheBlockInfo.m_cstate b) && bool_decide (is_Some out)) eqn:Esame.
    + apply andb_prop in Esame as [E1%bool_decide_eq_true_1 Eo%bool_decide_eq_true_1].
      apply wps_bind, wps_fill_out; [done|done| |].
      { intros d Hd. specialize (R4 d Hd). rewrite Hself. rewrite Hlb in *. by destruct R4. }
      intros out' s' Hq Hlen. apply wps_ret. pose proof (quiet_points _ _ _ _ _ _ Hq Hpb) as Hpb'.
      assert (lstate s (cache_of cfg c) (blk k a) = after st) as Hsame.
      { rewrite Hlb, E1. unfold after. by rewrite bool_decide_false. }
      pose proof Hq as (W' & _ & L' & _).
      apply wps_settled; [done|apply Ha| |].
      * split; [by rewrite L', Hself|]. destruct Hpb' as (-> & _). cbn. congruence.
      * apply Hend; [|done|by intros; rewrite bool_decide_true].
        apply Hdone. rewrite Hlb. cbn. rewrite <- Hsame, <- Hself. by apply quiet_patched.
    + eapply wps_change_state; [done|done|exact Hpb|done|done| | |].
      * intros d Hd. rewrite Hself. by apply R4.
      * eapply may_leave_local; [done..|]. exact Hup.
      * intros out' w wb s' Hpat Hlen Hw Hat. pose proof Hpat as (W' & _ & L' & _).
        apply wps_settled; [done|apply Ha|split; [by rewrite L', decide_True|done]|].
        apply Hend; [|done|done]. apply Hdone. by rewrite Hlb.
  - apply wps_ret, wps_settled; [done|apply Ha|by rewrite Hself|].
    destruct out as [d|]; [specialize (R4 d eq_refl); by rewrite Hpl in R4|].
    apply wps_bind, wps_ret, wps_ret, HQ; [|done]. apply Hdone. rewrite Hpl. cbn.
    pose proof (quiet_patched c a _ _ (still_refl c s1 W1)) as Hq. by rewrite Hself, Hpl in Hq.
Qed.
End states.
