(* ===== verification/Inclusion.v ===== *)
(** Inclusion of the caches of a tree, and what the controllers make of it: the messages of
    the directory are answered, and the insertion of a line makes room at the levels above.

    [inclusive]: a line of a cache is in the next level too, in a state at least as strong. *)
From stdpp Require Import functions.
From S2P Require Import Prelude Timing QueueModels BlockInfo AddressMap Replacement CacheModel CacheLines.
From S2P Require Import ShmemMsg DirCntlr Memory Epoch UndoBuffer Log StateResult TlbAtd CacheCntlr Hierarchy.
Import CacheCntlr.

(** A line in state [x] may have its next level in state [y]; only a last-level cache has
    lines that are being upgraded. *)
Definition weaker (x y : CacheState.cstate_t) : bool :=
  match x, y with
  | CacheState.MODIFIED, CacheState.MODIFIED
  | CacheState.EXCLUSIVE, (CacheState.EXCLUSIVE | CacheState.MODIFIED)
  | CacheState.SHARED, (CacheState.SHARED | CacheState.SHARED_UPGRADING | CacheState.EXCLUSIVE | CacheState.MODIFIED) => true
  | _, _ => false
  end.

Section inclusion.
Context {P : Type} `{Policy P} {F : Type} `{Prefetcher F} {D : Type} `{DramCntlrInterface D}.
Context (cfg : CacheCntlr.config) (geo : nat → CacheModel.config) (k : Z) (undo : nat) (LI : log_inv undo).
Context {lv : nat → nat} (T : tree_ok cfg geo k undo lv) (E : failure → Prop).
Context (Hcoh : ∀ c, m_coherent (cntlr_conf cfg c) = true).
Context (Hwt : ∀ c, m_cache_writethrough (cntlr_conf cfg c) = true → is_Some (next_of cfg c)).
Abbreviation state := (t P F D).
Abbreviation cache_at s m := (m_cache (masters s m)).
Abbreviation hier_wf := (hier_wf cfg geo k undo LI).
Implicit Types s : state.

(** ** The invariant *)

Definition inclusive_at s (t : Z) : Prop :=
  ∀ m p st, p ∈ prevs cfg m → lstate s (cache_of cfg p) t = Some st →
    ∃ st', lstate s m t = Some st' ∧ weaker st st' = true.
Definition inclusive s : Prop := ∀ t, inclusive_at s t.

(** In full: no access is in the middle of an eviction. *)
Record coherent s : Prop := {
  co_wf : hier_wf s;
  co_inclusive : inclusive s;
  co_alive m t : lstate s m t ≠ Some CacheState.INVALID;
  co_evicting m : m_evicting (masters s m) = None;
}.

Lemma weaker_modified y : weaker CacheState.MODIFIED y = true → y = CacheState.MODIFIED.
Proof. by destruct y. Qed.
Lemma weaker_valid x y : weaker x y = true → x ≠ CacheState.INVALID ∧ y ≠ CacheState.INVALID.
Proof. by destruct x, y. Qed.
Lemma weaker_refl x : x = CacheState.SHARED ∨ x = CacheState.EXCLUSIVE ∨ x = CacheState.MODIFIED → weaker x x = true.
Proof. by intros [->|[->| ->]]. Qed.

(** Dirty lines are dirty on the way to memory. *)
Definition climbs s (t : Z) : Prop :=
  ∀ m p, p ∈ prevs cfg m → lstate s (cache_of cfg p) t = Some CacheState.MODIFIED → lstate s m t = Some CacheState.MODIFIED.

Lemma inclusive_climbs s t : inclusive_at s t → climbs s t.
Proof. intros Hi m p Hp Hst. by destruct (Hi m p _ Hp Hst) as (st' & Hst' & ->%weaker_modified). Qed.

Lemma climbs_next s t c n :
  climbs s t → next_of cfg c = Some n → lstate s (cache_of cfg c) t = Some CacheState.MODIFIED →
  lstate s (cache_of cfg n) t = Some CacheState.MODIFIED.
Proof using T. intros Hi Hn Hst. destruct (tree_next _ _ _ _ _ T c n Hn) as (p & Hp & Ep). eapply (Hi _ p); [done|by rewrite Ep]. Qed.

(** What is dirty up to memory is accepted. *)
Lemma rising_accepts (R : nat → Prop) s a n :
  (∀ m p, p ∈ prevs cfg m → R (cache_of cfg p) → R m) → (∀ m, R m → dirty k s m a) → R (cache_of cfg n) → accepts cfg k s a n.
Proof using T Hwt.
  intros Hup Hdirty. remember (levels cfg - lv (cache_of cfg n))%nat as i eqn:Ei. revert n Ei.
  induction (lt_wf i) as [i _ IH]. intros n -> Hn.
  destruct (m_cache_writethrough (cntlr_conf cfg n)) eqn:Ew; [|by apply accepts_stop; [apply Hdirty|]].
  destruct (Hwt n Ew) as [n' Hn']. eapply accepts_through; [by apply Hdirty|exact Hn'|].
  pose proof (tree_up _ _ _ _ _ T n n' Hn'). pose proof (tree_levels _ _ _ _ _ T (cache_of cfg n')).
  destruct (tree_next _ _ _ _ _ T n n' Hn') as (p & Hp & Ep).
  eapply IH; [|done|apply (Hup _ p Hp); by rewrite Ep]. lia.
Qed.

Lemma climbs_accepts s a n :
  climbs s (blk k a) → lstate s (cache_of cfg n) (blk k a) = Some CacheState.MODIFIED → accepts cfg k s a n.
Proof using T Hwt. intros Hi. apply (rising_accepts (λ m, lstate s m (blk k a) = Some CacheState.MODIFIED)); [done|by right]. Qed.

Lemma climbs_may_leave s a c out :
  climbs s (blk k a) →
  (next_of cfg c = None → lstate s (cache_of cfg c) (blk k a) = Some CacheState.MODIFIED → out = true ∨ E AssertFail) →
  may_leave cfg k E s a c out.
Proof using T Hwt.
  intros Hi Hroot Hst Hw. destruct (next_of cfg c) as [n|] eqn:En; [|by apply Hroot].
  apply climbs_accepts; [done|]. by eapply climbs_next.
Qed.

(** A controller can be told to change a line. *)
Lemma climbs_ready s a c st out :
  climbs s (blk k a) → (∀ m, lstate s m (blk k a) ≠ Some CacheState.INVALID) →
  (next_of cfg c = None → lstate s (cache_of cfg c) (blk k a) = Some CacheState.MODIFIED → is_Some out ∨ E AssertFail) →
  out_ok cfg k E s a c st out → ready cfg k E s a c st out.
Proof using T Hwt.
  intros Hi Hal Hroot Hout. split; [| | |done].
  - intros m _. apply Hal.
  - intros m p _ Hp. apply climbs_may_leave; [done|]. destruct (tree_prev _ _ _ _ _ T m p Hp) as (n & -> & _). done.
  - apply climbs_may_leave; [done|]. intros En Hst. destruct (Hroot En Hst); [left|by right]. by apply bool_decide_eq_true_2.
Qed.

(** Subtrees whose lines change together stay in order, if the caches above them agree. *)
Lemma subtrees_inclusive (V : nat → Prop) a st s s' t :
  inclusive_at s t → subtrees cfg geo k undo LI V a st s s' → target E st →
  (∀ x, (∃ r, V r ∧ below cfg (cache_of cfg r) x) ∨ ¬ ∃ r, V r ∧ below cfg (cache_of cfg r) x) →
  (t = blk k a → st ≠ CacheState.INVALID → ∀ r m p x, V r → p ∈ prevs cfg m → cache_of cfg p = cache_of cfg r →
     lstate s m t = Some x → weaker st x = true) →
  inclusive_at s' t.
Proof using T.
  intros Hi (W & Fr & L & K & _) Hst Hdec Habove m p st1 Hp Hst1.
  destruct (decide (t = blk k a)) as [->|Hne].
  2:{ rewrite K in Hst1 by done. rewrite K by done. by eapply Hi. }
  assert (∀ x, (¬ ∃ r, V r ∧ below cfg (cache_of cfg r) x) → lstate s' x (blk k a) = lstate s x (blk k a)) as Hout.
  { intros x Hx. apply K. intros _ r Hr Hb. apply Hx. eauto. }
  destruct (Hdec (cache_of cfg p)) as [(r & Hr & Hb)|Hno].
  - rewrite (L _ r Hr Hb) in Hst1. destruct (lstate s (cache_of cfg p) (blk k a)) as [x|] eqn:Ex; [|done].
    cbn in Hst1. unfold after in Hst1. case_bool_decide as Hinv; [done|]. injection Hst1 as <-.
    destruct (Hi m p x Hp Ex) as (y & Hy & _).
    destruct (Hdec m) as [(r' & Hr' & Hb')|Hno].
    + exists st. rewrite (L _ r' Hr' Hb'), Hy. cbn. unfold after. rewrite bool_decide_false by done.
      split; [done|]. apply weaker_refl. destruct Hst as [|[|[|[]]]]; tauto.
    + exists y. rewrite Hout by done. split; [done|]. apply (Habove eq_refl Hinv r m p); [done|done| |done].
      remember (cache_of cfg p) as z eqn:Ez. destruct Hb as [|m' q Hb Hq]; [done|].
      exfalso. apply Hno. exists r. split; [done|]. by rewrite (parent_unique cfg T m m' p q Hp Hq).
  - rewrite Hout in Hst1 by done. destruct (Hi m p st1 Hp Hst1) as (y & Hy & Hw). exists y. split; [|done].
    rewrite Hout; [done|]. intros (r & Hr & Hb). apply Hno. exists r. split; [done|]. by econstructor.
Qed.

Lemma subtree_inclusive c a st s s' t :
  inclusive_at s t → subtree cfg geo k undo LI c a st s s' → target E st →
  (t = blk k a → st ≠ CacheState.INVALID → ∀ n x, next_of cfg c = Some n → lstate s (cache_of cfg n) t = Some x → weaker st x = true) →
  inclusive_at s' t.
Proof using T.
  intros Hi Hs Hst Habove. eapply subtrees_inclusive; [done|exact Hs|done| |].
  - intros x. destruct (below_dec cfg T (cache_of cfg c) x); [left; eauto|right]. by intros (r & -> & ?).
  - intros Et Hne r m p x -> Hp Ep Hx. destruct (tree_prev _ _ _ _ _ T m p Hp) as (n' & Hn' & Em).
    pose proof (tree_same _ _ _ _ _ T _ _ Ep) as Hsame. rewrite Hn' in Hsame. cbn in Hsame.
    destruct (next_of cfg c) as [n|] eqn:En; [|done]. injection Hsame as Hsame.
    apply (Habove Et Hne n); [done|]. by rewrite <- Hsame, Em.
Qed.

(** ** Clocks and messages

    What no cache sees. *)
Definition aside s s' : Prop :=
  masters s' = masters s ∧ undo_cntlrs s' = undo_cntlrs s ∧ shared s' = shared s ∧
  waiting s' = waiting s ∧ returned s' = returned s.

#[local] Instance aside_refl : Reflexive aside.
Proof. intros s. by unfold aside. Qed.
#[local] Instance aside_trans : Transitive aside.
Proof. intros s1 s2 s3 (?&?&?&?&?) (?&?&?&?&?). split_and!; by etrans. Qed.

Lemma aside_wf s s' : aside s s' → hier_wf s → hier_wf s'.
Proof. intros (Em & Eu & Es & _). by apply wf_same; [..|intros m; rewrite Em|intros m; rewrite Em]. Qed.
Lemma aside_lstate s s' m t : aside s s' → lstate s' m t = lstate s m t.
Proof. intros (Em & _). unfold lstate. by rewrite Em. Qed.
Lemma aside_inclusive s s' t : aside s s' → inclusive_at s t → inclusive_at s' t.
Proof. intros Ha Hi m p st Hp. rewrite !(aside_lstate _ _ _ _ Ha). by apply Hi. Qed.
Lemma aside_coherent s s' : aside s s' → coherent s → coherent s'.
Proof.
  intros Ha [W I L V]. split; [by eapply aside_wf|intros t; by eapply aside_inclusive| |].
  { intros m t. by rewrite (aside_lstate _ _ _ _ Ha). }
  destruct Ha as (-> & _). done.
Qed.

(** The clock of the network thread has room for an access. *)
Definition sim_clock s c : Z := ShmemPerfModel.getElapsedTime (clocks s (m_core_id (cntlr_conf cfg c))) ShmemPerfModel.SIM_THREAD.

Lemma wps_sim_time c s Q : Q (sim_clock s c) s → wps E (sim_time cfg c) s Q.
Proof. done. Qed.

Lemma wps_upd_perf_ptr p f s (Q : unit → state → Prop) :
  is_Some p → (∀ x, Q tt (set_perfs x s)) → wps E (upd_perf_ptr p f) s Q.
Proof. intros [x ->] HQ. by apply wps_modify. Qed.

Lemma wps_update_msg_perf c msg reason s (Q : unit → state → Prop) :
  is_Some (ShmemMsg.m_perf msg) → (∀ x, Q tt (set_perfs x s)) → wps E (update_msg_perf cfg c msg reason) s Q.
Proof. intros Hp HQ. apply wps_bind, wps_sim_time. by apply wps_upd_perf_ptr. Qed.

Lemma wps_incr_sim c n s (Q : unit → state → Prop) :
  0 ≤ sim_clock s c → 0 ≤ n → sim_clock s c + n < 2 ^ 64 →
  (∀ x, Q tt (set_clocks x s)) → wps E (incrElapsedTime cfg c n ShmemPerfModel.SIM_THREAD) s Q.
Proof.
  intros H0' Hn Hmax HQ. unfold incrElapsedTime. apply wps_bind, wps_gets, wps_bind.
  unfold sim_clock, cf in *. unfold ShmemPerfModel.incrElapsedTime. unfold SubsecondTime.add.
  rewrite u64_small by (split; lia). rewrite (proj2 (Z.leb_le _ _)) by lia. by apply wps_modify.
Qed.

(** The reply to a message of the directory. *)
Definition reply_to (msg : ShmemMsg.t) (type : ShmemMsg.msg_t) (data : option bytes) : ShmemMsg.t :=
  ShmemMsg.new type MemComponent.LAST_LEVEL_CACHE MemComponent.TAG_DIR (ShmemMsg.m_requester msg) (ShmemMsg.m_address msg)
    (Live <$> data) (match data with Some _ => 2 ^ k | None => 0 end) (ShmemMsg.m_perf msg).

Lemma wps_reply c sender msg type data s (Q : unit → state → Prop) :
  is_Some (ShmemMsg.m_perf msg) → (∀ d, data = Some d → length d = Z.to_nat (2 ^ k)) →
  (∀ s', aside s s' → sent s' = sent s ++ [DirCntlr.mk_packet (sim_clock s c) (core_id_master cfg (m_core_id (cntlr_conf cfg c)))
      sender (reply_to msg type data, default [] data)] → Q tt s') →
  wps E (reply cfg c sender msg type data) s Q.
Proof using T.
  intros Hp Hd HQ. unfold reply, sendMsg, cf. rewrite (tree_block _ _ _ _ _ T).
  pose proof (tree_k _ _ _ _ _ T) as Hk. assert (0 < 2 ^ k) as Hpos by (apply Z.pow_pos_nonneg; lia).
  rewrite Z2Nat.id by lia. apply wps_bind.
  assert (wps E (lift (ShmemMsg.makeMsgBuf (ShmemMsg.setWhere (reply_to msg type data) HitWhere.UNKNOWN))) s
            (λ m s', m = (reply_to msg type data, default [] data) ∧ s' = s)) as Hmake.
  { destruct data as [d|]; [|done]. specialize (Hd d eq_refl). unfold ShmemMsg.makeMsgBuf. cbn.
    rewrite (proj2 (Z.ltb_lt _ _)) by lia. 
    rewrite mem_read_ok by (cbn; lia). cbn. rewrite take_ge; [done|]. rewrite drop_0. lia. }
  destruct data as [d|].
  - rewrite bool_decide_false, (proj2 (Z.eqb_neq _ _)) by (done || lia). apply wps_ret, wps_bind.
    eapply wps_mono; [exact Hmake|]. intros m s1 [-> ->]. apply wps_bind, wps_gets, wps_bind, wps_upd_perf_ptr; [done|].
    intros x. apply wps_modify, HQ; [by split_and!|done].
  - apply wps_ret, wps_bind. eapply wps_mono; [exact Hmake|]. intros m s1 [-> ->].
    apply wps_bind, wps_gets, wps_bind, wps_upd_perf_ptr; [done|]. intros x. apply wps_modify, HQ; [by split_and!|done].
Qed.

(** ** Demands of the directory *)

(** A line of a subtree goes to another state, or away; no other line changes. *)
Definition given_up c a st s s' : Prop :=
  (∀ m, below cfg (cache_of cfg c) m → lstate s' m (blk k a) = lstate s m (blk k a) ≫= λ _, after st) ∧
  (∀ m t, (t = blk k a → ¬ below cfg (cache_of cfg c) m) → lstate s' m t = lstate s m t).

Lemma given_up_aside c a st s s1 s2 s' : aside s s1 → given_up c a st s1 s2 → aside s2 s' → given_up c a st s s'.
Proof.
  intros A1 [L K] A2. split.
  - intros m Hm. by rewrite (aside_lstate _ _ _ _ A2), L, (aside_lstate _ _ _ _ A1).
  - intros m t Hm. by rewrite (aside_lstate _ _ _ _ A2), K, (aside_lstate _ _ _ _ A1).
Qed.

Lemma frame_co_evicting s s' : frame s s' → (∀ m, m_evicting (masters s m) = None) → ∀ m, m_evicting (masters s' m) = None.
Proof.
  intros Hf Hev m. pose proof (frame_evicting _ _ m Hf) as E1. unfold evicting in E1. rewrite Hev in E1.
  by destruct (m_evicting (masters s' m)).
Qed.

(** The last-level cache changes a line, and its subtree with it. *)
Lemma wps_root_update c a st reason out s (Q : Z * bool * option bytes → state → Prop) :
  coherent s → aligned k a → target E st → next_of cfg c = None →
  (lstate s (cache_of cfg c) (blk k a) = Some CacheState.MODIFIED → is_Some out ∨ E AssertFail) → out_ok cfg k E s a c st out →
  (∀ lat hit out' s', coherent s' → given_up c a st s s' → sent s' = sent s → clocks s' = clocks s →
     waiting s' = waiting s → returned s' = returned s → length <$> out' = length <$> out → Q (lat, hit, out') s') →
  wps E (updateCacheBlock cfg (levels cfg) c a st reason out) s Q.
Proof using T Hcoh Hwt.
  intros [W I L V] Ha Hst Hroot Hm Hout HQ.
  eapply wps_updateCacheBlock; [done..| | |].
  - apply climbs_ready; [by apply inclusive_climbs|done|by intros _|done].
  - apply (tree_levels _ _ _ _ _ T).
  - intros lat hit out' s' Hs Hlen. pose proof Hs as (W' & Fr & L' & K' & _).
    assert (given_up c a st s s') as Hg.
    { split; [intros m Hm'; by eapply L'|]. intros m t Hmt. apply K'. intros Et p ->. by apply Hmt. }
    apply HQ; [|done|by apply Fr..|done]. split; [done| | |].
    + intros t. eapply subtree_inclusive; [apply I|exact Hs|done|]. intros _ _ n y Hn. congruence.
    + intros m t. destruct (decide (t = blk k a)) as [->|]; [|by rewrite K'].
      destruct (below_dec cfg T (cache_of cfg c) m) as [Hb|Hb]; [|rewrite K'; [done|by intros _ p ->]].
      rewrite (L' m c eq_refl Hb). unfold after. destruct (lstate s m (blk k a)); [cbn|done]. by case_bool_decide; intros [= ->].
    + by eapply frame_co_evicting.
Qed.

(** The start of the handlers. *)
Lemma wps_charged {A} c msg acc (m : M state A) s (Q : A → state → Prop) :
  is_Some (ShmemMsg.m_perf msg) → 0 ≤ sim_clock s c → 0 ≤ getCost cfg c acc → sim_clock s c + getCost cfg c acc < 2 ^ 64 →
  (∀ s1, aside s s1 → sent s1 = sent s → wps E m s1 Q) →
  wps E (update_msg_perf cfg c msg ShmemPerf.UNKNOWN;; incr_access cfg c acc ShmemPerfModel.SIM_THREAD;; m) s Q.
Proof.
  intros Hp Hc1 Hc2 Hc3 HQ. apply wps_bind, wps_update_msg_perf; [done|]. intros x.
  apply wps_bind, wps_incr_sim; [done..|]. intros y. apply HQ; [by split_and!|done].
Qed.

(** The end of the handlers. *)
Lemma wps_respond c sender msg ptype rtype data s (Q : unit → state → Prop) :
  is_Some (ShmemMsg.m_perf msg) → (∀ d, data = Some d → length d = Z.to_nat (2 ^ k)) →
  (∀ s' time, aside s s' → sent s' = sent s ++ [DirCntlr.mk_packet time (core_id_master cfg (m_core_id (cntlr_conf cfg c)))
      sender (reply_to msg rtype data, default [] data)] → Q tt s') →
  wps E (update_msg_perf cfg c msg ptype;; reply cfg c sender msg rtype data) s Q.
Proof using T.
  intros Hp Hd HQ. apply wps_bind, wps_update_msg_perf; [done|]. intros x. apply wps_reply; [done..|].
  intros s' Ha Hs. eapply HQ; [|exact Hs]. etrans; [|exact Ha]. by split_and!.
Qed.

(** What the directory may ask for, the state it leaves the line in, and the answer. *)
Definition demand (type : ShmemMsg.msg_t) : option (CacheState.cstate_t * ShmemMsg.msg_t) :=
  match type with
  | ShmemMsg.INV_REQ => Some (CacheState.INVALID, ShmemMsg.INV_REP)
  | ShmemMsg.FLUSH_REQ => Some (CacheState.INVALID, ShmemMsg.FLUSH_REP)
  | ShmemMsg.WB_REQ => Some (CacheState.SHARED, ShmemMsg.WB_REP)
  | _ => None
  end.

(** The answer goes to the directory [sender], with the line's data except for [INV_REP]. *)
Definition answered c (sender : Z) (msg : ShmemMsg.t) (rtype : ShmemMsg.msg_t) s s' : Prop :=
  ∃ time data,
    sent s' = sent s ++ [DirCntlr.mk_packet time (core_id_master cfg (m_core_id (cntlr_conf cfg c))) sender
                           (reply_to msg rtype data, default [] data)] ∧
    (length <$> data) = if bool_decide (rtype = ShmemMsg.INV_REP) then None else Some (Z.to_nat (2 ^ k)).

(** A message finds a line that the directory knows about: dirty only if its data are wanted,
    and not in the middle of an upgrade if it is to be written back. *)
Lemma wps_demands fuel c sender msg st rtype s (Q : unit → state → Prop) :
  let a := ShmemMsg.m_address msg in
  let x := lstate s (cache_of cfg c) (blk k a) in
  demand (ShmemMsg.m_msg_type msg) = Some (st, rtype) →
  coherent s → aligned k a → next_of cfg c = None → is_Some x →
  (ShmemMsg.m_msg_type msg = ShmemMsg.WB_REQ → x ≠ Some CacheState.SHARED_UPGRADING) →
  (ShmemMsg.m_msg_type msg = ShmemMsg.INV_REQ → x ≠ Some CacheState.MODIFIED) →
  is_Some (ShmemMsg.m_perf msg) → 0 ≤ sim_clock s c →
  (∀ acc, 0 ≤ getCost cfg c acc ∧ sim_clock s c + getCost cfg c acc < 2 ^ 64) →
  (∀ s', coherent s' → given_up c a st s s' → answered c sender msg rtype s s' →
     waiting s' = waiting s → returned s' = returned s → Q tt s') →
  wps E (handleMsgFromDramDirectory cfg fuel c sender msg) s Q.
Proof using T Hcoh Hwt.
  intros a x Hdem Hco Ha Hroot Hx Hup Hinv Hp Hclk Hcost HQ.
  assert (∀ st', st' ≠ CacheState.MODIFIED → out_ok cfg k E s a c st' (Some (uninit_buf cfg))) as Hbuf.
  { intros st' Hst' d [= <-]. fold x. destruct x; [|by destruct Hx]. split; [apply (tree_buf _ _ _ _ _ T)|done]. }
  assert (∀ ptype data s1, coherent s1 → given_up c a st s s1 → sent s1 = sent s → waiting s1 = waiting s →
    returned s1 = returned s → length <$> data = (if bool_decide (rtype = ShmemMsg.INV_REP) then None else Some (Z.to_nat (2 ^ k))) →
    wps E (update_msg_perf cfg c msg ptype;; reply cfg c sender msg rtype data) s1 Q) as Hend.
  { intros ptype data s1 Hco1 Hg Hs Hw Hr Hlen. apply wps_respond; [done| |].
    { intros d ->. case_bool_decide; [done|]. by injection Hlen. }
    intros s2 time Has Hs2. apply HQ; [by eapply aside_coherent| | |destruct Has as (_&_&_&->&_); done|destruct Has as (_&_&_&_&->); done].
    - by eapply given_up_aside.
    - exists time, data. by rewrite Hs2, Hs. }
  assert (wps E (getCacheState cfg c a) s (λ y s1, s1 = s ∧ bool_decide (y = CacheState.INVALID) = false ∧ Some y = x)) as Hget.
  { eapply wps_getCacheState; [exact T|apply Hco|apply Ha|]. fold x. destruct x as [y|] eqn:Ex; [|by destruct Hx].
    split_and!; [done| |done]. cbn. apply bool_decide_eq_false_2. intros E1. apply (co_alive _ Hco (cache_of cfg c) (blk k a)).
    fold x. rewrite Ex. f_equal. exact E1. }
  assert (∀ st' reason out s1 R, target E st' → coherent s1 → aside s s1 → sent s1 = sent s → out_ok cfg k E s a c st' out →
    (x = Some CacheState.MODIFIED → is_Some out ∨ E AssertFail) →
    (∀ lat hit out' s2, coherent s2 → given_up c a st' s s2 → sent s2 = sent s → waiting s2 = waiting s →
       returned s2 = returned s → length <$> out' = length <$> out → R (lat, hit, out') s2) →
    wps E (updateCacheBlock cfg (levels cfg) c a st' reason out) s1 R) as Hupdate.
  { intros st' reason out s1 R Hst' Hco1 Has Hs Hout Hm HR. pose proof (aside_lstate _ _ (cache_of cfg c) (blk k a) Has) as El.
    apply wps_root_update; [done..|by rewrite El|by unfold out_ok; rewrite El|].
    intros lat hit out' s2 Hco2 Hg Hs2 _ Hw Hr Hlen. pose proof Has as (Em & _ & _ & Ew & Er).
    apply HR; [done| |congruence..|done]. by eapply given_up_aside. }
  assert (∀ ptype data s1 R, coherent s1 → given_up c a st s s1 → sent s1 = sent s → waiting s1 = waiting s →
    returned s1 = returned s → length <$> data = (if bool_decide (rtype = ShmemMsg.INV_REP) then None else Some (Z.to_nat (2 ^ k))) →
    (∀ s2, Q tt s2 → R tt s2) → wps E (update_msg_perf cfg c msg ptype;; reply cfg c sender msg rtype data) s1 R) as Hend'.
  { intros. eapply wps_mono; [by apply Hend|]. intros []. auto. }
  pose proof (tree_buf _ _ _ _ _ T) as Hlenb.
  unfold handleMsgFromDramDirectory.
  destruct (ShmemMsg.m_msg_type msg) eqn:Ety; try discriminate Hdem; injection Hdem as <- <-; cbn [is_reply];
    apply wps_bind, wps_ret, wps_bind, wps_bind; (eapply wps_mono; [exact Hget|]); intros y s1 (-> & Ey & Hy); rewrite Ey;
    (apply wps_charged; [done|done|apply Hcost..|]); intros s1 Has Hs; pose proof (aside_coherent _ _ Has Hco) as Hco1;
    apply wps_bind.
  - apply Hupdate; [by left|done|done|done|done|by intros Hm%Hinv|]. intros lat hit out' s2 ? ? ? ? ? Hlen. by apply Hend'.
  - apply Hupdate; [by left|done|done|done|by apply Hbuf|by left|]. intros lat hit out' s2 ? ? ? ? ? Hlen.
    apply Hend'; [done..| |done]. rewrite Hlen. cbn. by rewrite Hlenb.
  - rewrite (bool_decide_false (y = CacheState.SHARED_UPGRADING)) by (intros ->; by apply Hup).
    apply wps_bind, Hupdate; [by right; left|done|done|done|by apply Hbuf|by left|]. intros lat hit out' s2 ? ? ? ? ? Hlen. apply wps_ret.
    apply Hend'; [done..| |done]. rewrite Hlen. cbn. by rewrite Hlenb.
Qed.
End inclusion.
