(* ===== verification/Accesses.v ===== *)
(** Accesses to the hierarchy of caches: the insertion of lines, the requests of cores and
    prefetchers, and the replies of the directory keep the hierarchy well-formed and
    inclusive.

    [Calm] code changes no line; its rules compose, so that most of the controllers
    (counters, clocks, MSHRs, prefetch queues) is shown to be calm by their structure alone.
    Failures: [E] is what the code may stop with; that fuel does not run out is shown by
    letting [E] exclude [NoFuel]. *)
From stdpp Require Import functions.
From S2P Require Import Prelude Timing QueueModels BlockInfo AddressMap Replacement CacheModel CacheLines.
From S2P Require Import ShmemMsg DirCntlr Memory Epoch UndoBuffer Log StateResult TlbAtd CacheCntlr Hierarchy Inclusion Utils.
Import CacheCntlr.

(** ** What the parts that are parameters promise *)

(** No operation of the memory controller runs out of fuel, and an access to it is no miss. *)
Class TotalDram (D : Type) `{DramCntlrInterface D} : Prop := {
  get_dram_fuel : ∀ (d : D) a r buf t p, getDataFromDram d a r buf t p ≠ Err NoFuel;
  get_dram_where : ∀ (d : D) a r buf t p lat w buf' p' d',
    getDataFromDram d a r buf t p = Ok (lat, w, buf', p', d') → w ≠ HitWhere.MISS;
  put_dram_fuel : ∀ (d : D) a r buf t, putDataToDram d a r buf t ≠ Err NoFuel;
}.

(** A prefetcher ends; one that has been asked about lines only names lines. *)
Class PrefetcherLaws (k : Z) (F : Type) `{Prefetcher F} := {
  prefetch_inv : F → Prop;
  prefetch_fuel : ∀ (f : F) a c, getNextAddress f a c ≠ Err NoFuel;
  prefetch_lines : ∀ (f : F) a c l f', prefetch_inv f → aligned k a → getNextAddress f a c = Ok (l, f') →
    prefetch_inv f' ∧ Forall (aligned k) l;
}.

#[export] Hint Resolve get_dram_fuel put_dram_fuel prefetch_fuel : picl.

(** ** Fuel of the components that the controllers call *)

Lemma sub_div_fuel a b : SubsecondTime.div a b ≠ Err NoFuel.
Proof. unfold SubsecondTime.div. no_fuel. Qed.
#[export] Hint Resolve sub_div_fuel : picl.
Lemma bandwidth_fuel b n : ComponentBandwidthPerCycle.getRoundedLatency b n ≠ Err NoFuel.
Proof. unfold ComponentBandwidthPerCycle.getRoundedLatency. no_fuel. Qed.
Lemma incr_clock_fuel m t th : ShmemPerfModel.incrElapsedTime m t th ≠ Err NoFuel.
Proof. unfold ShmemPerfModel.incrElapsedTime. no_fuel. Qed.
Lemma first_unit_fuel c t : ContentionModel.first_unit c t ≠ Err NoFuel.
Proof. unfold ContentionModel.first_unit. no_fuel. Qed.
#[export] Hint Resolve bandwidth_fuel incr_clock_fuel first_unit_fuel : picl.
Lemma start_time_fuel c t : ContentionModel.getStartTime c t ≠ Err NoFuel.
Proof. unfold ContentionModel.getStartTime. no_fuel. Qed.
Lemma completion_time_fuel c t d a : ContentionModel.getCompletionTime c t d a ≠ Err NoFuel.
Proof. unfold ContentionModel.getCompletionTime. no_fuel. Qed.
Lemma deref_buffer_fuel p n : ShmemMsg.deref p n ≠ Err NoFuel.
Proof. unfold ShmemMsg.deref. no_fuel. Qed.
#[export] Hint Resolve start_time_fuel completion_time_fuel deref_buffer_fuel getHome_fuel : picl.
Lemma msg_buf_fuel m : ShmemMsg.makeMsgBuf m ≠ Err NoFuel.
Proof. unfold ShmemMsg.makeMsgBuf. no_fuel. Qed.
Lemma payload_fuel p : DirCntlr.payload p ≠ Err NoFuel.
Proof. unfold DirCntlr.payload. no_fuel. Qed.
Lemma front_waiter_fuel {A} (q : ReqQueueList.t A) a : ReqQueueList.front q a ≠ Err NoFuel.
Proof. unfold ReqQueueList.front. no_fuel. Qed.
Lemma dequeue_waiter_fuel {A} (q : ReqQueueList.t A) a : ReqQueueList.dequeue q a ≠ Err NoFuel.
Proof. unfold ReqQueueList.dequeue. no_fuel. Qed.
Lemma block_peek_fuel {P} `{Policy P} (c : Cache.t P) l : Cache.peekBlock c l ≠ Err NoFuel.
Proof. unfold Cache.peekBlock, CacheSet.peekBlock. no_fuel. Qed.
#[export] Hint Resolve msg_buf_fuel payload_fuel front_waiter_fuel dequeue_waiter_fuel block_peek_fuel : picl.
Lemma atd_fuel {P} `{TotalPolicy P} (a : ATD.t P) ty h x : ATD.access a ty h x ≠ Err NoFuel.
Proof.
  unfold ATD.access, CacheSet.find.
  pose proof (splitAddress_fuel (ATD.m_cache_base a) x). no_fuel; eauto using find_from_fuel, update_fuel, replace_fuel.
Qed.
#[export] Hint Resolve atd_fuel : picl.

(** The clean-up of the MSHRs ends: each iteration removes an entry. *)
Lemma cleanup_fuel fuel x : (size x < fuel)%nat → cleanup fuel x ≠ Err NoFuel.
Proof.
  revert x. induction fuel as [|fuel IH]; intros x Hs; [lia|]. cbn [cleanup].
  destruct (8 <? size x)%nat eqn:E; [|done]. destruct (x !! _) as [e|] eqn:Ex; [|done].
  apply IH. rewrite map_size_delete_Some by eauto. apply Nat.ltb_lt in E. lia.
Qed.

Section accesses.
Context {P : Type} `{HP : Policy P} {HTP : TotalPolicy P} {F : Type} `{HF : Prefetcher F}
  {D : Type} `{HD : DramCntlrInterface D} {HTD : TotalDram D}.
Context (cfg : CacheCntlr.config) (geo : nat → CacheModel.config) (k : Z) (undo : nat) (LI : log_inv undo) {HPL : PrefetcherLaws k F}.
Context {lv : nat → nat} (T : tree_ok cfg geo k undo lv) (E : failure → Prop).
Context (Hcoh : ∀ c, m_coherent (cntlr_conf cfg c) = true).
Context (Hwt : ∀ c, m_cache_writethrough (cntlr_conf cfg c) = true → is_Some (next_of cfg c)).
Context (HE : ∀ e, e ≠ NoFuel → E e).
Abbreviation state := (t P F D).
Abbreviation cache_at s m := (m_cache (masters s m)).
Abbreviation hier_wf := (hier_wf cfg geo k undo LI).
Implicit Types s : state.

(** ** Calm code *)

(** What cores that wait are to do, and what the prefetchers have queued, is about lines; a
    core waits in a first-level cache.  What came from elsewhere was no miss. *)
Definition pending_ok (w : pending) : Prop :=
  match w with
  | InMemOp c op _ _ _ => prevs cfg (cache_of cfg c) = [] ∧ aligned k (op_address op)
  | InPrefetch _ a _ _ _ _ => aligned k a
  end.
Definition queue_ok (m : CacheMasterCntlr P F) : Prop :=
  Forall (aligned k) (m_prefetch_list m) ∧ ∀ f, m_prefetcher m = Some f → prefetch_inv (k := k) f.
Definition sides s : Prop :=
  (∀ m, queue_ok (masters s m)) ∧ (∀ core w, waiting s core = Some w → pending_ok w) ∧
  ∀ c, m_last_remote_hit_where (vars s c) ≠ HitWhere.MISS.

Record calm s s' : Prop := {
  ca_wf : hier_wf s';
  ca_evicting m : evicting s' m = evicting s m;
  ca_lines m t : lstate s' m t = lstate s m t;
  ca_blocks m l : shape <$> block_at (cache_at s' m) l = shape <$> block_at (cache_at s m) l;
  ca_sides : sides s → sides s';
}.
Definition Calm {A} (m : M state A) : Prop := ∀ s, hier_wf s → wps E m s (λ _ s', calm s s').

Lemma calm_refl s : hier_wf s → calm s s.
Proof. by split. Qed.
Lemma calm_trans s s1 s2 : calm s s1 → calm s1 s2 → calm s s2.
Proof. intros [] []. split; intros; first [etrans; eauto | eauto]. Qed.

Lemma wps_calm {A} (m : M state A) s (Q : A → state → Prop) :
  Calm m → hier_wf s → (∀ a s', calm s s' → Q a s') → wps E m s Q.
Proof. intros Hm Hwf HQ. eapply wps_mono; [by apply Hm|]. intros a s' Hs'. by apply HQ. Qed.

Lemma Calm_ret {A} (a : A) : Calm (mret a).
Proof. intros s Hwf. by apply wps_ret, calm_refl. Qed.
Lemma Calm_bind {A B} (m : M state A) (f : A → M state B) : Calm m → (∀ a, Calm (f a)) → Calm (m ≫= f).
Proof.
  intros Hm Hf s Hwf. apply wps_bind, wps_calm; [done..|]. intros a s1 Hs1.
  eapply wps_mono; [apply Hf, Hs1|]. intros b s2 Hs2. by eapply calm_trans.
Qed.
Lemma Calm_gets {A} (f : state → A) : Calm (gets f).
Proof. intros s Hwf. by apply wps_gets, calm_refl. Qed.
Lemma Calm_lift {A} (r : result A) : r ≠ Err NoFuel → Calm (lift r).
Proof using HE. intros Hr s Hwf. apply wps_lift; [intros; by apply calm_refl|]. intros e He. apply HE. congruence. Qed.
Lemma Calm_fail {A} e : e ≠ NoFuel → Calm (fail e : M state A).
Proof using HE. intros He s Hwf. by apply wps_fail, HE. Qed.
Lemma Calm_assert b : Calm (assert_ b).
Proof using HE. apply Calm_lift. by destruct b. Qed.
Lemma Calm_when b (m : M state unit) : (b = true → Calm m) → Calm (when b m).
Proof. destruct b; intros Hm; [by apply Hm|apply Calm_ret]. Qed.
Lemma Calm_fold {A B} (f : B → A → M state B) b l : (∀ b a, Calm (f b a)) → Calm (foldM f b l).
Proof. intros Hf. revert b. induction l as [|a l IH]; intros b; [apply Calm_ret|]. apply Calm_bind; auto. Qed.

(** What the caches do not see. *)
Lemma Calm_modify f :
  (∀ s, masters (f s) = masters s ∧ undo_cntlrs (f s) = undo_cntlrs s ∧ shared (f s) = shared s ∧ waiting (f s) = waiting s ∧ vars (f s) = vars s) →
  Calm (modify f).
Proof.
  intros Hf s Hwf. apply wps_modify. destruct (Hf s) as (Em & Eu & Es & Ew & Ev).
  split; [by apply (wf_same _ _ _ _ _ s); [..|intros m; rewrite Em|intros m; rewrite Em|]|..]; intros; unfold evicting, lstate, sides in *; rewrite ?Em, ?Ew, ?Ev; done.
Qed.

Lemma Calm_upd_vars c f :
  (∀ v, m_last_remote_hit_where (f v) = m_last_remote_hit_where v ∨ m_last_remote_hit_where (f v) ≠ HitWhere.MISS) →
  Calm (upd_vars c f).
Proof.
  intros Hf s Hwf. apply wps_modify. split; [by apply vars_wf|done..|].
  intros (Hq & Hw & Hl). split_and!; [done|done|]. intros c'. cbn. unfold insert, fn_insert.
  destruct (decide (c = c')) as [<-|]; [|apply Hl]. destruct (Hf (vars s c)) as [->|]; [apply Hl|done].
Qed.

(** The parts of a cache other than its lines. *)
Lemma calm_master c f s0 s :
  calm s0 s → (∀ m, m_cache (f m) = m_cache m ∧ m_evicting (f m) = m_evicting m) →
  (sides s0 → queue_ok (masters s (cache_of cfg c)) → queue_ok (f (masters s (cache_of cfg c)))) →
  calm s0 (set_masters (<[cache_of cfg c := f (masters s (cache_of cfg c))]> (masters s)) s).
Proof.
  intros [W Cev Cl Cb Cs] Hf Hl. unfold insert, fn_insert.
  assert (∀ m, m_cache ((if decide (cache_of cfg c = m) then f (masters s (cache_of cfg c)) else masters s m)) = cache_at s m ∧
     m_evicting (if decide (cache_of cfg c = m) then f (masters s (cache_of cfg c)) else masters s m) = m_evicting (masters s m)) as Hm.
  { intros m. case_decide as Ed; [|done]. rewrite <- Ed. apply Hf. }
  split.
  - by apply (wf_same _ _ _ _ _ s); [..|intros m; apply Hm|intros m; apply Hm|].
  - intros m. rewrite <- Cev. unfold evicting. cbn. by rewrite (proj2 (Hm m)).
  - intros m t. rewrite <- Cl. unfold lstate. cbn. by rewrite (proj1 (Hm m)).
  - intros m l. rewrite <- Cb. cbn. by rewrite (proj1 (Hm m)).
  - intros Hs0. destruct (Cs Hs0) as (Hq & Hw & Hv). split; [|done]. intros m. cbn. case_decide as Ed; [|done]. by apply Hl.
Qed.

Lemma Calm_upd_master c f :
  (∀ m, m_cache (f m) = m_cache m ∧ m_evicting (f m) = m_evicting m ∧ m_prefetch_list (f m) = m_prefetch_list m ∧
     m_prefetcher (f m) = m_prefetcher m) →
  Calm (upd_master cfg c f).
Proof.
  intros Hf s Hwf. apply wps_modify, calm_master; [by apply calm_refl|intros m; by destruct (Hf m) as (? & ? & _)|].
  intros _. unfold queue_ok. by destruct (Hf (masters s (cache_of cfg c))) as (_ & _ & -> & ->).
Qed.

(** Another cache with the same lines. *)
Lemma calm_put c x s :
  hier_wf s → lines_ok cfg geo s (cache_of cfg c) x → (∀ t, cstate x t = cstate (cache_at s (cache_of cfg c)) t) →
  (∀ l, shape <$> block_at x l = shape <$> block_at (cache_at s (cache_of cfg c)) l) → calm s (put cfg c x s).
Proof.
  intros Hwf Hx Hl Hat. split.
  - by apply put_wf.
  - intros m. unfold evicting. by rewrite evicting_buf_put.
  - intros m t. rewrite lstate_put. case_decide; [subst m|done]. apply Hl.
  - intros m l. rewrite cache_put. case_decide; [subst m|done]. apply Hat.
  - intros (Hq & Hw & Hv). split; [|done]. intros m. cbn. unfold insert, fn_insert.
    destruct (decide (cache_of cfg c = m)) as [<-|]; [|done]. apply Hq.
Qed.

(** A change of other fields of a block than its tag and its state. *)
Lemma wps_keep_block c l f s (Q : unit → state → Prop) :
  hier_wf s → (∀ b, shape (f b) = shape b) →
  (∀ t b, points (cache_at s (cache_of cfg c)) l t b → marked cfg s (cache_of cfg c) t (CacheBlockInfo.m_eid (f b))) →
  (∀ s', calm s s' → Q tt s') → wps E (upd_block cfg c l f) s Q.
Proof using HE.
  intros Hwf Hf Hm HQ. unfold upd_block. apply wps_bind, wps_master, wps_bind, wps_lift.
  - intros x Ex. apply wps_modify, HQ.
    destruct (updateBlock_keep _ _ _ _ _ (hw_lines _ _ _ _ _ _ Hwf (cache_of cfg c)) Hf Ex) as (Hx & _ & Hl & Hat).
    apply calm_put; [done| | |done].
    + split; [done|]. intros t b Hb. destruct (Hl t) as [El|(b' & Hb' & El)]; rewrite El in Hb; [by apply (hw_marked _ _ _ _ _ _ Hwf)|].
      injection Hb as <-. by apply Hm.
    + intros t. unfold cstate. destruct (Hl t) as [->|(b & Hb & ->)]; [done|].
      rewrite (points_line _ _ _ _ _ (hw_lines _ _ _ _ _ _ Hwf _) Hb). cbn. pose proof (Hf b) as [= _ ->]. done.
  - intros e Ee. apply HE. intros ->. by apply updateBlock_fuel in Ee.
Qed.

Lemma Calm_upd_block c l f : (∀ b, shape (f b) = shape b ∧ CacheBlockInfo.m_eid (f b) = CacheBlockInfo.m_eid b) → Calm (upd_block cfg c l f).
Proof using HE.
  intros Hf s Hwf. apply wps_keep_block; [done|apply Hf| |done]. intros t b Hb. rewrite (proj2 (Hf b)).
  eapply hw_marked, points_line; [done|by apply (hw_lines _ _ _ _ _ _ Hwf)|done].
Qed.

Lemma Calm_count_access c hit : Calm (count_access cfg c hit).
Proof.
  intros s Hwf. unfold count_access. apply wps_modify.
  pose proof (hw_lines _ _ _ _ _ _ Hwf (cache_of cfg c)) as Hw.
  set (x := cache_at s (cache_of cfg c)) in *.
  assert (lines_wf (geo (cache_of cfg c)) (Cache.updateCounters x hit) ∧ (∀ t, line (Cache.updateCounters x hit) t = line x t) ∧
          ∀ l, block_at (Cache.updateCounters x hit) l = block_at x l) as (Hx & Hl & Hat).
  { unfold Cache.updateCounters. destruct (Cache.m_enabled x); [by split_and!|done]. }
  apply (calm_put c (Cache.updateCounters x hit)); [done| | |]; [|intros; unfold cstate; by rewrite Hl|intros; by rewrite Hat].
  apply (lines_same _ _ _ _ _ _ _ _ Hwf); [done|]. intros t. by rewrite Hl.
Qed.

(** An access changes no line, and returns where the line is. *)
Lemma wps_access_line c a ty buf n u s (Q : _ → state → Prop) :
  hier_wf s → in_u64 a →
  (∀ r s', calm s s' → undo_cntlrs s' = undo_cntlrs s → shared s' = shared s →
     match r with Some (l, _) => ∃ t b, points (cache_at s' (cache_of cfg c)) l t b | None => True end → Q r s') →
  wps E (cache_call cfg c (λ x, Cache.accessSingleLine x a ty buf n u)) s Q.
Proof using HE HTP.
  intros Hwf Ha HQ. unfold cache_call. apply wps_bind, wps_master, wps_bind, wps_lift.
  - intros [r x] Ex. apply wps_bind, wps_modify, wps_ret.
    destruct (access_spec _ _ _ _ _ _ _ _ _ (hw_lines _ _ _ _ _ _ Hwf (cache_of cfg c)) Ha Ex) as (Hx & _ & Hl & Hat & Hr).
    apply HQ; [|done|done|].
    + apply calm_put; [done| |intros; by unfold cstate; rewrite Hl|intros; by rewrite Hat].
      apply (lines_same _ _ _ _ _ _ _ _ Hwf); [done|]. intros t. by rewrite Hl.
    + destruct r as [[l d]|]; [|done]. destruct Hr as [(b & Hb & Ht & Hv) _]. exists (block_of (geo (cache_of cfg c)) a), b.
      rewrite (cache_put cfg c x s), decide_True by done. split; [by rewrite Hat|done].
  - intros e Ee. apply HE. intros ->. by apply accessSingleLine_fuel in Ee.
Qed.

Lemma Calm_access c a ty buf n u :
  in_u64 a → Calm (cache_call cfg c (λ x, Cache.accessSingleLine x a ty buf n u)).
Proof using HE HTP. intros Ha s Hwf. by apply wps_access_line. Qed.

(** ** Calm operations of the controllers *)

Ltac calm_step :=
  first
    [ solve [auto with calm]
    | lazymatch goal with
      | |- Calm (mbind _ _) => apply Calm_bind; [|intros ?]
      | |- Calm (mret _) => apply Calm_ret
      | |- Calm (gets _) => apply Calm_gets
      | |- Calm (when _ _) => apply Calm_when; intros ?
      | |- Calm (assert_ _) => apply Calm_assert
      | |- Calm (fail _) => apply Calm_fail; discriminate
      | |- Calm (lift _) => apply Calm_lift; solve [auto with picl | no_fuel]
      | |- Calm (modify _) => apply Calm_modify; intros ?; done
      | |- Calm (upd_master _ _ _) => apply Calm_upd_master; intros ?; done
      | |- Calm (upd_block _ _ _ _) => apply Calm_upd_block; intros []; done
      end
    | progress cbv zeta
    | case_match ].
Ltac calm := repeat calm_step.

Lemma Calm_add_stat c x n : Calm (add_stat c x n).
Proof. apply Calm_upd_vars. intros v. by left. Qed.
Lemma Calm_set_last_remote c w : w ≠ HitWhere.MISS → Calm (set_last_remote c w).
Proof. intros Hw. apply Calm_upd_vars. intros v. by right. Qed.
Lemma Calm_setElapsedTime c th x : Calm (setElapsedTime cfg c th x).
Proof. unfold setElapsedTime. calm. Qed.
Lemma Calm_incrElapsedTime c n th : Calm (incrElapsedTime cfg c n th).
Proof using HE HP. unfold incrElapsedTime. calm. Qed.
Lemma Calm_upd_perf p f : Calm (upd_perf p f).
Proof. unfold upd_perf. calm. Qed.
Lemma Calm_upd_perf_ptr p f : Calm (upd_perf_ptr p f).
Proof using HE HP. unfold upd_perf_ptr, upd_perf. calm. Qed.
#[local] Hint Resolve Calm_add_stat Calm_set_last_remote Calm_setElapsedTime Calm_incrElapsedTime Calm_upd_perf Calm_upd_perf_ptr
  Calm_count_access Calm_access : calm.
#[local] Hint Extern 1 (Calm (incr_stat _ _)) => apply Calm_add_stat : calm.
#[local] Hint Extern 1 (Calm (incr_access _ _ _ _)) => apply Calm_incrElapsedTime : calm.
#[local] Hint Extern 1 (Calm (getElapsedTime _ _ _)) => apply Calm_gets : calm.
#[local] Hint Extern 1 (Calm (master _ _)) => apply Calm_gets : calm.
#[local] Hint Extern 1 (Calm getGlobalSystemEID) => apply Calm_gets : calm.

Lemma Calm_sendMsg c ty r1 r2 a d w p th : Calm (sendMsg cfg c ty r1 r2 a d w p th).
Proof using HE HP. unfold sendMsg. calm. Qed.
Lemma Calm_getHome c a : Calm (getHome cfg c a).
Proof using HE HP. unfold getHome. calm. Qed.
Lemma Calm_getCacheBlockInfo c a : Calm (getCacheBlockInfo cfg c a).
Proof using HE HP. unfold getCacheBlockInfo. calm. Qed.
Lemma Calm_block c l : Calm (block cfg c l).
Proof using HE HP. unfold block. calm. Qed.
Lemma Calm_deref_block c p : Calm (deref_block c p).
Proof using HE HP. unfold deref_block. calm. Qed.
#[local] Hint Resolve Calm_sendMsg Calm_getHome Calm_getCacheBlockInfo Calm_block Calm_deref_block : calm.
Lemma Calm_getCState c l : Calm (getCState cfg c l).
Proof using HE HP. unfold getCState. calm. Qed.
#[local] Hint Resolve Calm_getCState : calm.
Lemma Calm_getCacheState_of c p : Calm (getCacheState_of cfg c p).
Proof using HE HP. unfold getCacheState_of. calm. Qed.
#[local] Hint Resolve Calm_getCacheState_of : calm.
Lemma Calm_getCacheState c a : Calm (getCacheState cfg c a).
Proof using HE HP. unfold getCacheState. calm. Qed.
#[local] Hint Resolve Calm_getCacheState : calm.
Lemma Calm_operationPermissible c a ty : Calm (operationPermissibleinCache cfg c a ty).
Proof using HE HP. unfold operationPermissibleinCache. calm. Qed.
Lemma Calm_next_cntlr c : Calm (next_cntlr cfg c).
Proof using HE HP. unfold next_cntlr. calm. Qed.
Lemma Calm_charge_queries c n : Calm (charge_queries cfg c n).
Proof using HE HP. unfold charge_queries, incrementQBSLookupCost. calm. apply Calm_fold. intros. calm. Qed.
Lemma Calm_accessDRAM c ty a d : Calm (accessDRAM cfg c ty a d).
Proof using HE HP HTD. unfold accessDRAM. calm. Qed.
#[local] Hint Resolve Calm_operationPermissible Calm_next_cntlr Calm_charge_queries Calm_accessDRAM : calm.
Lemma Calm_evict_to_dram c a d : Calm (evict_to_dram cfg c a d).
Proof using HE HP HTD. unfold evict_to_dram. calm. Qed.
Lemma Calm_evict_to_directory c a st d th : Calm (evict_to_directory cfg c a st d th).
Proof using HE HP. unfold evict_to_directory. calm. Qed.
Lemma Calm_cleanupMshr c : Calm (cleanupMshr cfg c).
Proof using HE HP. unfold cleanupMshr. calm. apply Calm_lift, cleanup_fuel. lia. Qed.
Lemma Calm_accessATDs c ty hit a n : Calm (accessATDs cfg c ty hit a n).
Proof using HE HP HTP. unfold accessATDs. calm. Qed.
#[local] Hint Resolve Calm_evict_to_dram Calm_evict_to_directory Calm_cleanupMshr Calm_accessATDs : calm.
Lemma Calm_updateCounters c ty a hit st pf : Calm (updateCounters cfg c ty a hit st pf).
Proof using HE HP HTP. unfold updateCounters. calm. Qed.
Lemma Calm_updateUncore c w n : w ≠ HitWhere.MISS → Calm (updateUncoreStatistics cfg c w n).
Proof. intros Hw. unfold updateUncoreStatistics. calm. apply Calm_upd_vars. intros v. by left. Qed.
Lemma Calm_reset_perf c : Calm (reset_perf cfg c).
Proof. unfold reset_perf. calm. Qed.
Lemma Calm_take_option c l o b x : Calm (take_option cfg c l o b x).
Proof using HE HP. unfold take_option. calm. Qed.
Lemma Calm_mark_prefetched c a : Calm (mark_prefetched cfg c a).
Proof using HE HP. unfold mark_prefetched. calm. Qed.
Lemma Calm_retrieve c a d u : in_u64 a → Calm (retrieveCacheBlock cfg c a d u).
Proof using HE HP HTP. intros Ha. unfold retrieveCacheBlock. calm. Qed.
#[local] Hint Resolve Calm_updateCounters Calm_updateUncore Calm_reset_perf Calm_take_option Calm_mark_prefetched Calm_retrieve : calm.

(** *** Writes *)

Lemma u64_u64 x : in_u64 (u64 x).
Proof. unfold u64, in_u64. apply Z.mod_pos_bound. lia. Qed.
#[local] Hint Resolve u64_u64 : calm.

Lemma log_calm s s' : masters s' = masters s → hier_wf s' → frame s s' → calm s s'.
Proof.
  intros Em Hwf' Hf.
  split; [done|by intros m; unfold evicting; rewrite Em|by intros m t; unfold lstate; rewrite Em|by intros m l; rewrite Em|].
  intros (Hq & Hw & Hl). split_and!; [intros m; rewrite Em; apply Hq|intros core w; rewrite (fr_waiting _ _ Hf); apply Hw|].
  intros r. rewrite (fr_last _ _ Hf). apply Hl.
Qed.

(** A line takes the current epoch. *)
Lemma wps_set_epoch c l t b e s (Q : unit → state → Prop) :
  hier_wf s → points (cache_at s (cache_of cfg c)) l t b → marked cfg s (cache_of cfg c) t e →
  (∀ s', calm s s' → Q tt s') → wps E (upd_block cfg c l (λ b, CacheBlockInfo.set_epoch b e)) s Q.
Proof using HE.
  intros Hwf (Hb & Ht & _) Hm HQ. apply wps_keep_block; [done|by intros []| |done].
  intros t' b' (Hb' & Ht' & _). rewrite Hb in Hb'. injection Hb' as <-. rewrite Ht in Ht'. by subst.
Qed.

Lemma Calm_write_line c a off d n : Calm (write_line cfg c a off d n).
Proof using T HE HP HTP.
  intros s Hwf. unfold write_line. apply wps_bind, wps_access_line; [done|apply u64_u64|]. intros r s1 Hs1 _ _ Hr.
  pose proof (ca_wf _ _ Hs1) as Hwf1. destruct r as [[l read]|]; [|by apply wps_fail, HE]. destruct Hr as (t & b & Hp).
  apply wps_bind. eapply wps_block; [apply Hp|]. apply wps_bind, wps_assert; intros _; [|by apply HE].
  apply wps_bind, wps_gets, wps_when; intros Hne; [|done]. apply wps_bind.
  change (EpochManager.getGlobalSystemEID (OnChipUndoBufferCntlr.epoch (shared s1))) with (sys (shared s1)) in *.
  eapply (wps_log_line cfg geo k undo LI T); [done|done|lia|]. intros s2 Em Hwf2 Hf2 Hm.
  apply (wps_set_epoch c l t b); [done|by rewrite Em|done|]. intros s3 Hs3.
  eapply calm_trans; [exact Hs1|]. eapply calm_trans; [by apply log_calm|done].
Qed.

Lemma Calm_evict_buffer c a buf d n s :
  hier_wf s → m_evicting (masters s (cache_of cfg c)) = Some (a, buf) →
  wps E (buf ← lift (mem_write buf 0 d n); upd_master cfg c (put_evicting (Some (a, buf)))) s (λ _ s', calm s s').
Proof using HE lv.
  intros Hwf He. apply wps_bind, wps_lift.
  - intros b Hb. apply wps_modify. apply mem_write_len in Hb.
    pose proof (hw_evicting _ _ _ _ _ _ Hwf _ _ _ He) as Hlen.
    pose proof (written_buffer cfg geo k undo LI (lv := lv) c a b buf s Hwf He (eq_trans Hb Hlen)) as (W & Fr & L & _).
    change (m_master (cf cfg c)) with (cache_of cfg c).
    split; [done|intros; by apply (frame_evicting _ _ _ Fr)|done| |].
    + intros m l. unfold insert, fn_insert. cbn. by destruct (decide (cache_of cfg c = m)) as [<-|].
    + intros (Hq & Hw & Hl). split; [|done]. intros m. unfold insert, fn_insert. cbn.
      destruct (decide (cache_of cfg c = m)) as [<-|]; apply Hq.
  - intros e Ee. apply HE. intros ->. by apply mem_write_fuel in Ee.
Qed.

Lemma Calm_writeCacheBlock fuel c a off d n :
  (levels cfg - lv (cache_of cfg c) ≤ fuel)%nat → Calm (writeCacheBlock cfg fuel c a off d n).
Proof using T HE HP HTP.
  revert c. induction fuel as [|fuel IH]; intros c Hfuel.
  { pose proof (tree_levels _ _ _ _ _ T (cache_of cfg c)). lia. }
  intros s Hwf. cbn [writeCacheBlock]. apply wps_bind, wps_master, wps_bind.
  assert (Calm (when (m_cache_writethrough (cf cfg c)) (n0 ← next_cntlr cfg c; writeCacheBlock cfg fuel n0 a off d n))) as Hnext.
  { apply Calm_when; intros _. intros s1 Hwf1. apply wps_bind. unfold next_cntlr, cf.
    destruct (m_next_cache_cntlr (cntlr_conf cfg c)) as [n'|] eqn:En; [|by apply wps_fail, HE].
    apply wps_ret, IH; [|done]. pose proof (tree_up _ _ _ _ _ T c n' En). lia. }
  assert (∀ m : M state unit, wps E m s (λ _ s', calm s s') →
    wps E m s (λ _ s1, wps E (when (m_cache_writethrough (cf cfg c)) (n0 ← next_cntlr cfg c; writeCacheBlock cfg fuel n0 a off d n)) s1 (λ _ s', calm s s'))) as Hthen.
  { intros m Hm. eapply wps_mono; [exact Hm|]. intros [] s1 Hs1. eapply wps_mono; [apply Hnext, Hs1|].
    intros [] s2. by apply calm_trans. }
  apply Hthen. destruct (m_evicting (masters s (cache_of cfg c))) as [[a' buf]|] eqn:Ee; [|by apply Calm_write_line].
  destruct (Z.eqb_spec a a') as [<-|]; [|by apply Calm_write_line].
  apply wps_bind, wps_assert; intros Hoff; [|by apply HE].
  apply wps_bind, wps_assert; intros _; [|by apply HE].
  destruct d as [d|]; [|by apply wps_ret, calm_refl]. apply Nat.eqb_eq in Hoff as ->. by apply Calm_evict_buffer.
Qed.

Lemma Calm_accessCache c ty a off d n u : prevs cfg (cache_of cfg c) = [] → Calm (accessCache cfg c ty a off d n u).
Proof using T HE HP HTP.
  intros Hpr. unfold accessCache. destruct ty; [by calm..|].
  intros s Hwf. apply wps_bind, wps_gets, wps_bind, wps_access_line; [done|apply u64_u64|]. intros r s1 Hs1 _ Eg Hr.
  pose proof (ca_wf _ _ Hs1) as Hwf1. change (EpochManager.getGlobalSystemEID _) with (sys (shared s)). rewrite <- Eg.
  apply wps_bind. destruct r as [[l read]|]; [|by apply wps_fail, HE]. destruct Hr as (t & b & Hp). apply wps_ret, wps_bind.
  eapply wps_block; [apply Hp|]. apply wps_bind.
  assert (∀ s2, calm s s2 → wps E (when (m_cache_writethrough (cf cfg c))
     (assert_ (bool_decide (is_Some (m_next_cache_cntlr (cf cfg c))));; n0 ← next_cntlr cfg c; writeCacheBlock cfg (levels cfg) n0 a off d n);; mret d)
     s2 (λ _ s', calm s s')) as Hthrough.
  { intros s2 Hs2. eapply wps_mono; [|intros x s3 H3; eapply calm_trans; [exact Hs2|exact H3]].
    apply Calm_bind; [calm; apply Calm_writeCacheBlock; lia|intros []; apply Calm_ret|apply Hs2]. }
  apply wps_when; intros _; [|by apply Hthrough].
  apply (wps_set_epoch c l t b); [done|done| |intros s2 Hs2; apply Hthrough; by eapply calm_trans].
  split; [pose proof (hw_sys _ _ _ _ _ _ Hwf1); rlia|]. by intros (_ & ? & _).
Qed.

(** *** Prefetchers *)

Lemma wps_enqueue c n l s :
  hier_wf s → wps E (enqueue_prefetches cfg c n l) s (λ r s', calm s s' ∧ (Forall (aligned k) l → Forall (aligned k) r)).
Proof using HE HP.
  revert n s. induction l as [|a l IH]; intros n s Hwf; [split; [by apply calm_refl|done]|]. cbn [enqueue_prefetches].
  case_match; [split; [by apply calm_refl|by constructor]|].
  apply wps_bind, wps_calm; [apply Calm_operationPermissible|done|]. intros [b p] s1 Hs1. destruct b.
  - eapply wps_mono; [apply IH, Hs1|]. intros r s2 [Hs2 Hr]. split; [by eapply calm_trans|]. intros [_ ?]%Forall_cons. by apply Hr.
  - apply wps_bind. eapply wps_mono; [apply IH, Hs1|]. intros r s2 [Hs2 Hr]. apply wps_ret.
    split; [by eapply calm_trans|]. intros [? ?]%Forall_cons. apply Forall_cons; auto.
Qed.

Lemma Calm_trainPrefetcher c a b1 b2 b3 n : aligned k a → Calm (trainPrefetcher cfg c a b1 b2 b3 n).
Proof using HE HP HPL.
  intros Ha s Hwf. unfold trainPrefetcher. apply wps_when; intros _; [|by apply calm_refl].
  apply wps_bind, wps_master, wps_bind.
  destruct (m_prefetcher (masters s (cache_of cfg c))) as [f|] eqn:Ef; [apply wps_ret|by apply wps_fail, HE].
  apply wps_bind, wps_lift; [|intros e Ee; apply HE; intros ->; by apply prefetch_fuel in Ee].
  intros [l f'] El.
  assert (queue_ok (masters s (cache_of cfg c)) → prefetch_inv f' ∧ Forall (aligned k) l) as Hf.
  { intros [_ Hq]. eapply prefetch_lines; [by apply Hq|exact Ha|exact El]. }
  apply wps_bind, wps_modify. change (m_master (cf cfg c)) with (cache_of cfg c). set (s1 := set_masters _ s).
  assert (calm s s1) as Hs1.
  { apply calm_master; [by apply calm_refl|done|]. intros _ Hq. split; [apply Hq|]. intros g [= <-]. by apply Hf. }
  apply wps_when; intros _; [|done]. cbv zeta.
  apply wps_bind. eapply wps_mono; [apply wps_enqueue, Hs1|]. intros r s2 [Hs2 Hr]. apply wps_modify.
  apply (calm_master c (put_queue r _)); [by eapply calm_trans|done|].
  intros [Hq _] Hq2. split; [apply Hr, Hf, Hq|apply Hq2].
Qed.
#[local] Hint Resolve Calm_accessCache Calm_trainPrefetcher : calm.

(** ** Well-formed hierarchies

    [settled]: between two operations.  [opened X s a]: in the middle of a request for a
    line, that the caches of [X], on the way from the core, have given up before they get it
    again with the right to write it. *)
(** The states of the lines of a cache. *)
Definition fillable (st : CacheState.cstate_t) : Prop :=
  st = CacheState.SHARED ∨ st = CacheState.EXCLUSIVE ∨ st = CacheState.MODIFIED.
Definition stable (st : CacheState.cstate_t) : Prop := fillable st ∨ st = CacheState.SHARED_UPGRADING.

Record upright s : Prop := {
  so_wf : hier_wf s;
  so_states m t st : lstate s m t = Some st → stable st;
  so_tags m t : is_Some (lstate s m t) → ∃ a, aligned k a ∧ blk k a = t;
  so_sides : sides s;
}.
Record sound s : Prop := {
  so_upright : upright s;
  so_evicting m : evicting s m = None;
}.
Definition settled s : Prop := sound s ∧ inclusive cfg s.

Definition near (X : nat → Prop) s (t : Z) : Prop :=
  ∀ m p st, p ∈ prevs cfg m → lstate s (cache_of cfg p) t = Some st →
    (∃ st', lstate s m t = Some st' ∧ weaker st st' = true) ∨ (X m ∧ weaker st CacheState.EXCLUSIVE = true).
Record opened (X : nat → Prop) s a : Prop := {
  op_sound : sound s;
  op_others t : t ≠ blk k a → inclusive_at cfg s t;
  op_near : near X s (blk k a);
  op_holes m : X m → lstate s m (blk k a) = None;
}.
Definition nowhere : nat → Prop := λ _, False.

Lemma stable_valid st : stable st → st ≠ CacheState.INVALID.
Proof. by intros [[->|[->| ->]]| ->]. Qed.
Lemma so_alive s m t : upright s → lstate s m t ≠ Some CacheState.INVALID.
Proof. intros Hs Hst. by apply (so_states _ Hs), stable_valid in Hst. Qed.
Lemma target_fillable st : target E st → st = CacheState.INVALID ∨ fillable st.
Proof. unfold fillable. intros [->|[->|[->|[-> _]]]]; auto. Qed.

Lemma calm_upright s s' : calm s s' → upright s → upright s'.
Proof.
  intros [C1 C2 C3 C4 C5] [S1 S2 S3 S4]. split; [done|intros m t st; rewrite C3; apply S2|intros m t; rewrite C3; apply S3|auto].
Qed.
Lemma calm_sound s s' : calm s s' → sound s → sound s'.
Proof. intros Hc [S1 S2]. split; [by eapply calm_upright|]. intros m. by rewrite (ca_evicting _ _ Hc). Qed.
Lemma calm_inclusive_at s s' t : calm s s' → inclusive_at cfg s t → inclusive_at cfg s' t.
Proof. intros Hc Hi m p st Hp. rewrite !(ca_lines _ _ Hc). by apply Hi. Qed.
Lemma calm_settled s s' : calm s s' → settled s → settled s'.
Proof. intros Hc [Hs Hi]. split; [by eapply calm_sound|intros t; by eapply calm_inclusive_at]. Qed.
Lemma calm_opened X s s' a : calm s s' → opened X s a → opened X s' a.
Proof.
  intros Hc [O1 O2 O3 O4]. split; [by eapply calm_sound|intros t Ht; by eapply calm_inclusive_at, O2| |].
  - intros m p st Hp. rewrite !(ca_lines _ _ Hc). by apply O3.
  - intros m. rewrite (ca_lines _ _ Hc). apply O4.
Qed.

Lemma settled_opened X s a : settled s → (∀ m, X m → lstate s m (blk k a) = None) → opened X s a.
Proof. intros [Hs Hi] HX. split; [done|by intros t _|intros m p st Hp Hst; left; by eapply Hi|done]. Qed.
Lemma opened_settled X s a : opened X s a → inclusive_at cfg s (blk k a) → settled s.
Proof. intros [O1 O2 O3 O4] Hi. split; [done|]. intros t. destruct (decide (t = blk k a)) as [->|]; auto. Qed.
Lemma opened_none X s a : opened X s a → (∀ m, ¬ X m) → settled s.
Proof. intros Ho HX. apply (opened_settled X s a Ho). intros m p st Hp Hst. destruct (op_near _ _ _ Ho m p st Hp Hst) as [|[HXm _]]; [done|]. by apply HX in HXm. Qed.

Lemma opened_climbs X s a : opened X s a → climbs cfg s (blk k a).
Proof.
  intros Ho m p Hp Hst. destruct (op_near _ _ _ Ho m p _ Hp Hst) as [(st' & Hst' & ->%weaker_modified)|[_ Hw]]; [done|discriminate Hw].
Qed.

(** A cache whose holes are elsewhere has the line if one of its previous levels has. *)
Lemma opened_parent X s a m p st :
  opened X s a → ¬ X m → p ∈ prevs cfg m → lstate s (cache_of cfg p) (blk k a) = Some st →
  ∃ st', lstate s m (blk k a) = Some st' ∧ weaker st st' = true.
Proof. intros Ho HX Hp Hst. by destruct (op_near _ _ _ Ho m p st Hp Hst) as [|[]]. Qed.

(** Previous levels can be told to change the line. *)
Lemma opened_ready X s a m p st : opened X s a → p ∈ prevs cfg m → ready cfg k E s a p st None.
Proof using T Hwt.
  intros Ho Hp. apply (climbs_ready cfg geo k undo T E Hwt); [by eapply opened_climbs|intros m'; apply so_alive, Ho| |done].
  destruct (tree_prev _ _ _ _ _ T m p Hp) as (n & -> & _). done.
Qed.

Lemma frame_sides s s' : frame s s' → sides s → sides s'.
Proof.
  intros Hf (Hq & Hw & Hl). split_and!.
  - intros m. pose proof (fr_rest _ _ Hf m) as Er. unfold rest in Er. injection Er as Ep ? ? ? ? ? ? ? El ? ?.
    unfold queue_ok. rewrite El, Ep. apply Hq.
  - intros core w. rewrite (fr_waiting _ _ Hf). apply Hw.
  - intros r. rewrite (fr_last _ _ Hf). apply Hl.
Qed.

Lemma subtrees_upright V a st s s' :
  upright s → target E st → subtrees cfg geo k undo LI V a st s s' →
  (∀ x, (∃ r, V r ∧ below cfg (cache_of cfg r) x) ∨ ¬ ∃ r, V r ∧ below cfg (cache_of cfg r) x) → upright s'.
Proof using T.
  intros [S1 S2 S5 S4] Hst (W & Fr & L & K & _) Hdec.
  assert (∀ m, lstate s' m (blk k a) = lstate s m (blk k a) ∨ lstate s' m (blk k a) = lstate s m (blk k a) ≫= λ _, after st) as Hor.
  { intros m. destruct (Hdec m) as [(r & Hr & Hb)|Hno]; [right; by apply (L m r)|left].
    apply K. intros _ r Hr Hb. apply Hno. eauto. }
  split; [done| | |by eapply frame_sides]; [intros m t x|intros m t];
    (destruct (decide (t = blk k a)) as [->|]; [|rewrite K by done; first [apply S2|apply S5]]).
  - destruct (Hor m) as [->| ->]; [apply S2|]. destruct (lstate s m (blk k a)); [cbn; unfold after|done].
    case_bool_decide; [done|]. intros [= <-]. left. by destruct (target_fillable _ Hst).
  - intros Hm. apply (S5 m). destruct (Hor m) as [E1|E1]; rewrite E1 in Hm; [done|].
    destruct (lstate s m (blk k a)); [by eexists|]. by destruct Hm.
Qed.
Lemma subtrees_sound V a st s s' :
  sound s → target E st → subtrees cfg geo k undo LI V a st s s' →
  (∀ x, (∃ r, V r ∧ below cfg (cache_of cfg r) x) ∨ ¬ ∃ r, V r ∧ below cfg (cache_of cfg r) x) → sound s'.
Proof using T.
  intros [S1 S2] Hst Hs Hdec. split; [by eapply subtrees_upright|]. intros m.
  by rewrite (frame_evicting _ _ _ (proj1 (proj2 Hs))).
Qed.

(** A snoop of some of the previous levels of a cache. *)
Definition snoopable (X : nat → Prop) s c a st : Prop :=
  st = CacheState.INVALID ∨
  st = CacheState.SHARED ∧ (∀ m, ¬ X m) ∧ ∀ x, lstate s (cache_of cfg c) (blk k a) = Some x → weaker CacheState.SHARED x = true.

Lemma prevs_dec m (V : nat → bool) x :
  (∃ r, (r ∈ prevs cfg m ∧ V r = true) ∧ below cfg (cache_of cfg r) x) ∨ ¬ ∃ r, (r ∈ prevs cfg m ∧ V r = true) ∧ below cfg (cache_of cfg r) x.
Proof using T.
  induction (prevs cfg m) as [|p l IHl]; [right; intros (? & [[]%not_elem_of_nil _] & _)|].
  destruct IHl as [(r & [Hr Hv] & Hb)|Hno]; [left; exists r; split; [split; [by right|done]|done]|].
  destruct (V p) eqn:Ev; [destruct (below_dec cfg T (cache_of cfg p) x)|].
  1: left; exists p; split; [split; [by left|done]|done].
  all: right; intros (r & [[->|Hr]%elem_of_cons Hv] & Hb); [congruence|apply Hno; eauto].
Qed.

Lemma snoop_opened X c a st (V : nat → bool) s s' :
  opened X s a → snoopable X s c a st →
  subtrees cfg geo k undo LI (λ p, p ∈ prevs cfg (cache_of cfg c) ∧ V p = true) a st s s' → opened X s' a.
Proof using T E.
  intros Ho Hst Hs. pose proof Hs as (W & Fr & L & K & _). pose proof (prevs_dec (cache_of cfg c) V) as Hdec.
  split; [eapply subtrees_sound; [apply (op_sound _ _ _ Ho)| |exact Hs|exact Hdec]| | |].
  1: destruct Hst as [->|[-> _]]; [by left|by right; left].
  - intros t Ht m p st1 Hp. rewrite !K by done. by apply (op_others _ _ _ Ho).
  - destruct Hst as [->|(-> & HX & Hx)].
    + intros m p st1 Hp Hst1. destruct (Hdec (cache_of cfg p)) as [(r & Hr & Hb)|Hno].
      { rewrite (L _ r Hr Hb) in Hst1. by destruct (lstate s (cache_of cfg p) (blk k a)). }
      rewrite K in Hst1 by (intros _ r Hr Hb; apply Hno; eauto).
      rewrite K by (intros _ r Hr Hb; apply Hno; exists r; split; [done|by eapply below_prev]). exact (op_near _ _ _ Ho m p st1 Hp Hst1).
    + destruct (opened_none X s a Ho HX) as [_ Hi].
      assert (target E CacheState.SHARED) as Htg by (by right; left).
      pose proof (subtrees_inclusive cfg geo k undo LI T E _ a _ s s' (blk k a) (Hi _) Hs Htg Hdec) as Hin.
      intros m p st1 Hp Hst1. left. eapply Hin; [|done|done]. intros _ _ r m' q x [Hr _] Hq Eq Hx'.
      apply Hx. by rewrite (parent_unique cfg T (cache_of cfg c) m' r q Hr Hq (eq_sym Eq)).
  - intros m Hm. pose proof (op_holes _ _ _ Ho m Hm) as Hnone. destruct (Hdec m) as [(r & Hr & Hb)|Hno].
    + by rewrite (L _ r Hr Hb), Hnone.
    + rewrite K; [done|]. intros _ r Hr Hb. apply Hno. eauto.
Qed.

(** What a snoop leaves: the other previous levels have changed the line; this cache and
    those outside its subtree are as before. *)
Record snooped c (r : nat) a st s s' : Prop := {
  sn_gone p : st = CacheState.INVALID → p ∈ prevs cfg (cache_of cfg c) → p ≠ r → lstate s' (cache_of cfg p) (blk k a) = None;
  sn_same m : (∀ p, p ∈ prevs cfg (cache_of cfg c) → ¬ below cfg (cache_of cfg p) m) →
    lstate s' m (blk k a) = lstate s m (blk k a) ∧ same_shapes m s s';
  sn_none m : lstate s m (blk k a) = None → lstate s' m (blk k a) = None;
}.

Lemma snooped_self c r a st s s' :
  snooped c r a st s s' → lstate s' (cache_of cfg c) (blk k a) = lstate s (cache_of cfg c) (blk k a) ∧ same_shapes (cache_of cfg c) s s'.
Proof using T. intros Hs. apply (sn_same _ _ _ _ _ _ Hs). intros p Hp. by apply (not_below_self cfg T). Qed.

Lemma wps_snoop X c r a st reason s (Q : bool → state → Prop) :
  opened X s a → aligned k a → snoopable X s c a st →
  (∀ b s', opened X s' a → (inclusive_at cfg s (blk k a) → inclusive_at cfg s' (blk k a)) → snooped c r a st s s' → Q b s') →
  wps E (snoop_others cfg c r a st reason) s Q.
Proof using T Hcoh Hwt HE HP.
  intros Ho Ha Hst HQ. unfold snoop_others. apply wps_bind.
  assert (target E st) as Htg by (destruct Hst as [->|[-> _]]; [by left|by right; left]).
  change (m_prev_cache_cntlrs (mf cfg c)) with (prevs cfg (cache_of cfg c)).
  apply (wps_each cfg geo k undo LI T E _ (λ p, negb (p =? r)%nat) (cache_of cfg c) a st).
  - apply Ho.
  - intros p Hp _. by eapply opened_ready.
  - intros [lat hit] p s1 R Hp Hv Hwf1 Hr1 HR. apply negb_true_iff in Hv. rewrite Hv. apply wps_bind.
    apply (wps_updateCacheBlock cfg geo k undo LI T E Hcoh); [done..|apply (tree_levels _ _ _ _ _ T)|].
    intros l h o s2 Hs2 _. by apply wps_ret, HR.
  - intros [lat hit] p s1 R Hv HR. apply negb_false_iff in Hv. by rewrite Hv.
  - intros [lat hit] s1 Hs1. pose proof (snoop_opened _ _ _ _ _ _ _ Ho Hst Hs1) as Ho1.
    pose proof Hs1 as (W1 & F1 & L1 & K1 & S1).
    apply wps_bind, wps_calm; [apply Calm_incrElapsedTime|done|]. intros [] s2 Hs2.
    apply wps_bind, wps_calm; [apply Calm_add_stat|apply Hs2|]. intros [] s3 Hs3. apply wps_ret.
    assert (calm s1 s3) as Hc by (by eapply calm_trans).
    apply HQ; [by eapply calm_opened| |].
    { intros Hi. eapply calm_inclusive_at; [exact Hc|]. assert (opened nowhere s a) as Hno.
      { apply settled_opened; [by eapply opened_settled|done]. }
      assert (snoopable nowhere s c a st) as Hst' by (destruct Hst as [|(? & _ & ?)]; [by left|right; split_and!; [done|by intros m []|done]]).
      by destruct (opened_none _ _ _ (snoop_opened _ _ _ _ _ _ _ Hno Hst' Hs1) (λ m Hm, Hm)) as [_ Hi1]. }
    split.
    + intros p -> Hp Hne. rewrite (ca_lines _ _ Hc), (L1 (cache_of cfg p) p); [by destruct (lstate s _ _)| |constructor].
      split; [done|]. by apply negb_true_iff, Nat.eqb_neq.
    + intros m Hm. rewrite (ca_lines _ _ Hc), K1 by (intros _ p [Hp _]; by apply Hm). split; [done|].
      intros l. rewrite (ca_blocks _ _ Hc). apply S1. intros p [Hp _]. by apply Hm.
    + intros m Hm. rewrite (ca_lines _ _ Hc). destruct (prevs_dec (cache_of cfg c) (λ p, negb (p =? r)%nat) m) as [(p & Hp & Hb)|Hno].
      * by rewrite (L1 m p Hp Hb), Hm.
      * rewrite K1; [done|]. intros _ p Hp Hb. apply Hno. eauto.
Qed.

(** ** The line of one cache *)

Lemma opened_others_patched X c a v s s' :
  opened X s a → patched cfg geo k undo LI c a v s s' → ∀ t, t ≠ blk k a → inclusive_at cfg s' t.
Proof.
  intros Ho (W & Fr & L & _) t Ht m p st Hp. rewrite !L, !decide_False by tauto. by apply (op_others _ _ _ Ho).
Qed.
Lemma patched_sound c a v s s' : sound s → patched cfg geo k undo LI c a v s s' → aligned k a → (∀ st, v = Some st → stable st) → sound s'.
Proof.
  intros [[S1 S2 S5 S4] S3] (W & Fr & L & _) Ha Hv.
  split; [|intros m; by rewrite (frame_evicting _ _ _ Fr)].
  split; [done| | |by eapply frame_sides]; [intros m t st|intros m t]; rewrite L.
  - case_decide; [apply Hv|apply S2].
  - case_decide as Hd; [|apply S5]. intros _. exists a. split; [done|]. by destruct Hd.
Qed.

(** A cache gives up a line that it cannot write to. *)
Lemma give_up_opened (X : nat → Prop) c a s s' st :
  opened X s a → aligned k a → ¬ X (cache_of cfg c) → lstate s (cache_of cfg c) (blk k a) = Some st → weaker st CacheState.EXCLUSIVE = true →
  patched cfg geo k undo LI c a None s s' → opened (λ m, X m ∨ m = cache_of cfg c) s' a.
Proof using T.
  intros Ho Ha HX Hst Hw Hp. pose proof Hp as (W & Fr & L & _).
  split; [eapply patched_sound; [apply (op_sound _ _ _ Ho)|exact Hp|done|done]|by eapply opened_others_patched| |].
  - intros m p st1 Hpm. rewrite !L. case_decide as Hd; [done|]. intros Hst1.
    destruct (op_near _ _ _ Ho m p st1 Hpm Hst1) as [(st' & Hst' & Hw')|[HXm Hw']]; [|by right; split; [left|]].
    case_decide as Hd'; [|left; eauto]. destruct Hd' as [-> _]. right. split; [by right|].
    rewrite Hst in Hst'. injection Hst' as <-. by destruct st1, st.
  - intros m [Hm| ->]; rewrite L; [|by rewrite decide_True]. case_decide; [done|]. by apply (op_holes _ _ _ Ho).
Qed.

(** Nothing is lost if no previous level has the line. *)
Lemma give_up_inclusive c a s s' :
  inclusive_at cfg s (blk k a) → (∀ p, p ∈ prevs cfg (cache_of cfg c) → lstate s (cache_of cfg p) (blk k a) = None) →
  patched cfg geo k undo LI c a None s s' → inclusive_at cfg s' (blk k a).
Proof.
  intros Hi Hnone (W & Fr & L & _) m p st Hp. rewrite !L. case_decide as Hd; [done|]. intros Hst.
  case_decide as Hd'; [|by eapply Hi]. destruct Hd' as [-> _]. by rewrite Hnone in Hst.
Qed.

(** A cache gets a line: with the right to write, or as its next level has it. *)
Lemma fill_near (X X' : nat → Prop) c a s s' st :
  opened X s a →
  (∀ m, X m → X' m ∨ m = cache_of cfg c) → (∀ m, X' m → X m ∧ m ≠ cache_of cfg c) →
  (∀ p x, p ∈ prevs cfg (cache_of cfg c) → lstate s (cache_of cfg p) (blk k a) = Some x → weaker x st = true) →
  (∀ m p, p ∈ prevs cfg m → cache_of cfg p = cache_of cfg c → ∃ x, lstate s m (blk k a) = Some x ∧ weaker st x = true) →
  (∀ m, lstate s' m (blk k a) = if decide (m = cache_of cfg c) then Some st else lstate s m (blk k a)) →
  near X' s' (blk k a) ∧ ∀ m, X' m → lstate s' m (blk k a) = None.
Proof using T.
  intros Ho HX1 HX2 Hbelow Habove L. split.
  - intros m p st1 Hpm. rewrite !L. case_decide as Ep.
    + intros [= <-]. destruct (Habove m p Hpm Ep) as (x & Hx & Hw). left.
      rewrite decide_False; [eauto|]. intros ->. apply (prev_lv cfg T) in Hpm. rewrite Ep in Hpm. lia.
    + intros Hst1. case_decide as Hd'; [subst m; left; exists st; split; [done|by eapply Hbelow]|].
      destruct (op_near _ _ _ Ho m p st1 Hpm Hst1) as [|[HXm Hw]]; [by left|].
      destruct (HX1 m HXm) as [| ->]; [by right|]. done.
  - intros m Hm. destruct (HX2 m Hm) as [HXm Hne]. rewrite L, decide_False by done. by apply (op_holes _ _ _ Ho).
Qed.

Lemma fill_opened (X X' : nat → Prop) c a s s' st :
  opened X s a → aligned k a → fillable st →
  (∀ m, X m → X' m ∨ m = cache_of cfg c) → (∀ m, X' m → X m ∧ m ≠ cache_of cfg c) →
  (∀ p x, p ∈ prevs cfg (cache_of cfg c) → lstate s (cache_of cfg p) (blk k a) = Some x → weaker x st = true) →
  (∀ m p, p ∈ prevs cfg m → cache_of cfg p = cache_of cfg c → ∃ x, lstate s m (blk k a) = Some x ∧ weaker st x = true) →
  patched cfg geo k undo LI c a (Some st) s s' → opened X' s' a.
Proof using T.
  intros Ho Ha Hst HX1 HX2 Hbelow Habove Hp. pose proof Hp as (W & Fr & L & _).
  destruct (fill_near X X' c a s s' st) as [Hn Hh]; [done..| |].
  { intros m. rewrite L. repeat case_decide; tauto. }
  split; [|by eapply opened_others_patched|done|done].
  eapply patched_sound; [apply (op_sound _ _ _ Ho)|exact Hp|done|by intros x [= <-]; left].
Qed.

(** ** Evictions *)

Lemma tagToAddress_blk m (x : Cache.t P) a : lines_wf (geo m) x → aligned k a → CacheBase.tagToAddress (Cache.base x) (blk k a) = a.
Proof using T.
  intros (_ & Hnew & _) [Ha Hal]. destruct (base_fields _ _ _ _ _ _ Hnew) as (_ & _ & _ & _ & E5).
  pose proof (tree_k _ _ _ _ _ T). assert (2 ^ k < 2 ^ 32) by (apply Z.pow_lt_mono_r; lia).
  assert (0 < 2 ^ k) by (apply Z.pow_pos_nonneg; lia). unfold CacheBase.tagToAddress, blk. rewrite E5, (tree_geo _ _ _ _ _ T).
  rewrite floorLog2_log2, Z.log2_pow2 by rlia. rewrite (u32_small k) by rlia.
  rewrite Z.shiftl_mul_pow2, Z.shiftr_div_pow2 by lia.
  rewrite Z.mul_comm, <- Z_div_exact_full_2 by (lia || done). by apply u64_small.
Qed.

(** A line is out of a cache and in its evict buffer, that of a cache that had it in a state
    at least as strong as the previous levels still have. *)
Record evictable c v (ost : CacheState.cstate_t) s : Prop := {
  ev_gone : lstate s (cache_of cfg c) (blk k v) = None;
  ev_others m p st : m ≠ cache_of cfg c → p ∈ prevs cfg m → lstate s (cache_of cfg p) (blk k v) = Some st →
    ∃ st', lstate s m (blk k v) = Some st' ∧ weaker st st' = true;
  ev_below p st : p ∈ prevs cfg (cache_of cfg c) → lstate s (cache_of cfg p) (blk k v) = Some st → weaker st ost = true;
  ev_above n : ost = CacheState.MODIFIED → next_of cfg c = Some n → lstate s (cache_of cfg n) (blk k v) = Some CacheState.MODIFIED;
}.

Lemma calm_evictable c v ost s s' : calm s s' → evictable c v ost s → evictable c v ost s'.
Proof.
  intros Hc [E1 E2 E3 E4]. split; [rewrite (ca_lines _ _ Hc); done|..].
  - intros m p st. rewrite !(ca_lines _ _ Hc). apply E2.
  - intros p st. rewrite (ca_lines _ _ Hc). apply E3.
  - intros n. rewrite (ca_lines _ _ Hc). apply E4.
Qed.

Lemma evictable_ready c v ost s p :
  evictable c v ost s → (∀ m t, lstate s m t ≠ Some CacheState.INVALID) → evicting s (cache_of cfg c) = Some v →
  p ∈ prevs cfg (cache_of cfg c) → ready cfg k E s v p CacheState.INVALID None.
Proof using T Hwt.
  intros [E1 E2 E3 E4] Hal Hev Hp.
  set (R := λ m, lstate s m (blk k v) = Some CacheState.MODIFIED ∨ (m = cache_of cfg c ∧ ost = CacheState.MODIFIED)).
  assert (∀ m q, q ∈ prevs cfg m → R (cache_of cfg q) → R m) as Hup.
  { intros m q Hq [Hst|[Eq ->]].
    - destruct (decide (m = cache_of cfg c)) as [->|Hne].
      + right. split; [done|]. by apply weaker_modified, (E3 q).
      + left. by destruct (E2 m q _ Hne Hq Hst) as (st' & Hst' & ->%weaker_modified).
    - destruct (tree_prev _ _ _ _ _ T m q Hq) as (n & Hn & <-).
      pose proof (tree_same _ _ _ _ _ T _ _ Eq) as Hsame. rewrite Hn in Hsame. cbn in Hsame.
      destruct (next_of cfg c) as [n'|] eqn:En; [|done]. injection Hsame as ->. left. by apply E4. }
  assert (∀ m q, q ∈ prevs cfg m → may_leave cfg k E s v q false) as Hleave.
  { intros m q Hq Hst _. destruct (tree_prev _ _ _ _ _ T m q Hq) as (n & -> & En).
    apply (rising_accepts cfg geo k undo T Hwt R); [done| |apply (Hup _ q); [by rewrite En|by left]].
    intros m' [Hm|[-> _]]; [by right|by left]. }
  split; [intros m _; apply Hal|intros m q _; apply Hleave| |done].
  intros Hst Hw. pose proof (Hleave _ p Hp Hst Hw) as Hl.
  by destruct (tree_prev _ _ _ _ _ T _ p Hp) as (n & En & _); rewrite En in *.
Qed.


Lemma Calm_dispose c a st d th : Calm (dispose cfg c a st d th).
Proof using T Hcoh HE HP HTP HTD.
  unfold dispose. calm; try (apply Calm_writeCacheBlock; lia). all: by calm.
Qed.

(** The previous levels lose the line. *)
Definition dropped c v s s' : Prop :=
  (∀ m, lstate s m (blk k v) = None → lstate s' m (blk k v) = None) ∧
  (∀ p, p ∈ prevs cfg (cache_of cfg c) → lstate s' (cache_of cfg p) (blk k v) = None) ∧
  (∀ m p st, p ∈ prevs cfg m → lstate s' (cache_of cfg p) (blk k v) = Some st →
     lstate s' (cache_of cfg p) (blk k v) = lstate s (cache_of cfg p) (blk k v) ∧ lstate s' m (blk k v) = lstate s m (blk k v)) ∧
  (∀ m t, t ≠ blk k v → lstate s' m t = lstate s m t).

Lemma dropped_calm c v s s1 s2 s' : calm s s1 → dropped c v s1 s2 → calm s2 s' → dropped c v s s'.
Proof.
  intros Hc1 (D1 & D2 & D3 & D4) Hc2. split_and!.
  - intros m. rewrite (ca_lines _ _ Hc2), <- (ca_lines _ _ Hc1). apply D1.
  - intros p. rewrite (ca_lines _ _ Hc2). apply D2.
  - intros m p st. rewrite !(ca_lines _ _ Hc2), <- !(ca_lines _ _ Hc1). apply D3.
  - intros m t. rewrite (ca_lines _ _ Hc2), <- (ca_lines _ _ Hc1). apply D4.
Qed.

Lemma subtrees_dropped c v s s' :
  subtrees cfg geo k undo LI (λ p, p ∈ prevs cfg (cache_of cfg c) ∧ true = true) v CacheState.INVALID s s' → dropped c v s s'.
Proof using T.
  intros (W & Fr & L & K & _). pose proof (prevs_dec (cache_of cfg c) (λ _, true)) as Hdec. split_and!.
  - intros m Hm. destruct (Hdec m) as [(r & Hr & Hb)|Hno]; [by rewrite (L m r Hr Hb), Hm|].
    rewrite K; [done|]. intros _ r Hr Hb. apply Hno. eauto.
  - intros p Hp. rewrite (L _ p) by (done || constructor). by destruct (lstate s _ _).
  - intros m p st Hp Hst. destruct (Hdec (cache_of cfg p)) as [(r & Hr & Hb)|Hno].
    { rewrite (L _ r Hr Hb) in Hst. by destruct (lstate s (cache_of cfg p) (blk k v)). }
    rewrite !K; [done|..].
    + intros _ r Hr Hb. apply Hno. exists r. split; [done|by eapply below_prev].
    + intros _ r Hr Hb. apply Hno. eauto.
  - intros m t Ht. by apply K.
Qed.

(** The evict buffer of a cache, filled and emptied. *)
Lemma evicting_state c x s :
  upright s → (∀ a b, x = Some (a, b) → length b = Z.to_nat (2 ^ k)) → (∀ m, m ≠ cache_of cfg c → evicting s m = None) →
  let s' := set_masters (<[cache_of cfg c := put_evicting x (masters s (cache_of cfg c))]> (masters s)) s in
  upright s' ∧ (∀ m t, lstate s' m t = lstate s m t) ∧
  evicting s' (cache_of cfg c) = fst <$> x ∧ ∀ m, m ≠ cache_of cfg c → evicting s' m = None.
Proof.
  intros [[W0 W1 W4] S2 S3 (S4 & S5 & S6)] Hx Hev s'. unfold s', insert, fn_insert.
  assert (∀ m t, lstate s' m t = lstate s m t) as Hl.
  { intros m t. unfold lstate, s', insert, fn_insert. cbn. by destruct (decide (cache_of cfg c = m)) as [<-|]. }
  split_and!; [|exact Hl| |].
  - split; [split; [done| |]|intros m t st; rewrite Hl; apply S2|intros m t; rewrite Hl; apply S3|split; [|done]]; cbn.
    + intros m. destruct (decide (cache_of cfg c = m)) as [<-|]; apply W1.
    + intros m a b. destruct (decide (cache_of cfg c = m)) as [<-|]; [apply Hx|apply W4].
    + intros m. destruct (decide (cache_of cfg c = m)) as [<-|]; apply S4.
  - unfold evicting. cbn. by rewrite decide_True.
  - intros m Hm. unfold evicting. cbn. rewrite decide_False by congruence. by apply Hev.
Qed.

(** The previous levels give up the line that a cache is evicting. *)
Lemma wps_back_invalidate c v ost s (Q : Z → state → Prop) :
  upright s → evictable c v ost s → aligned k v → evicting s (cache_of cfg c) = Some v →
  (∀ lat s', upright s' → dropped c v s s' → frame s s' → Q lat s') → wps E (back_invalidate cfg c v) s Q.
Proof using T Hcoh Hwt.
  intros Hs He Hv Hev HQ. unfold back_invalidate.
  change (m_prev_cache_cntlrs (mf cfg c)) with (prevs cfg (cache_of cfg c)).
  apply (wps_each cfg geo k undo LI T E _ (λ _, true) (cache_of cfg c) v CacheState.INVALID).
  - apply Hs.
  - intros p Hp _. eapply evictable_ready; [done|intros m t; by apply so_alive|done|done].
  - intros lat p s1 R Hp _ Hwf1 Hr1 HR. apply wps_bind.
    apply (wps_updateCacheBlock cfg geo k undo LI T E Hcoh); [done|done|by left|done|apply (tree_levels _ _ _ _ _ T)|].
    intros l h o s2 Hs2 _. by apply wps_ret, HR.
  - done.
  - intros lat s1 Hs1. apply HQ; [|by apply subtrees_dropped|apply Hs1].
    eapply subtrees_upright; [done|by left|exact Hs1|]. apply (prevs_dec (cache_of cfg c) (λ _, true)).
Qed.

Lemma dropped_inclusive c v ost s s' : evictable c v ost s → dropped c v s s' → inclusive_at cfg s' (blk k v).
Proof.
  intros [E1 E2 E3 E4] (D1 & D2 & D3 & D4) m p st Hp Hst. destruct (D3 m p st Hp Hst) as [Ep Em].
  destruct (decide (m = cache_of cfg c)) as [->|Hne]; [by rewrite D2 in Hst|].
  rewrite Em. apply (E2 m p st Hne Hp). by rewrite <- Ep.
Qed.

(** [evict_line]: the line leaves the levels above too; no other line is affected. *)
Lemma wps_evict_line c v info buf th s (Q : unit → state → Prop) :
  sound s → aligned k v → length buf = Z.to_nat (2 ^ k) → evictable c v (CacheBlockInfo.m_cstate info) s →
  (∀ s', sound s' → dropped c v s s' → inclusive_at cfg s' (blk k v) → Q tt s') →
  wps E (evict_line cfg c v info buf th) s Q.
Proof using T Hcoh Hwt HE HP HTP HTD.
  intros Hs Hv Hbuf He HQ. unfold evict_line.
  apply wps_bind, wps_calm; [apply Calm_add_stat|apply Hs|]. intros [] s1 Hs1.
  apply wps_bind, wps_calm; [apply Calm_when; intros _; apply Calm_add_stat|apply Hs1|]. intros [] s2 Hs2.
  apply wps_bind, wps_calm; [apply Calm_when; intros _; apply Calm_add_stat|apply Hs2|]. intros [] s3 Hs3.
  assert (calm s s3) as Hc by (eapply calm_trans; [exact Hs1|]; by eapply calm_trans).
  pose proof (calm_sound _ _ Hc Hs) as Hsound3. pose proof (calm_evictable _ _ _ _ _ Hc He) as He3.
  (* the end *)
  assert (∀ d s4, sound s4 → dropped c v s s4 → inclusive_at cfg s4 (blk k v) →
    wps E (dispose cfg c v (CacheBlockInfo.m_cstate info) d th;;
           x ← getCacheState cfg c v; assert_ (bool_decide (x = CacheState.INVALID))) s4 Q) as Hend.
  { intros d s4 Hs4 Hd4 Hi4. apply wps_bind, wps_calm; [apply Calm_dispose|apply Hs4|]. intros [] s5 Hs5.
    apply wps_bind, wps_calm; [by apply Calm_getCacheState|apply Hs5|]. intros x s6 Hs6.
    apply wps_calm; [apply Calm_assert|apply Hs6|]. intros [] s7 Hs7.
    assert (calm s4 s7) as Hc4 by (eapply calm_trans; [exact Hs5|]; by eapply calm_trans).
    apply HQ; [by eapply calm_sound|by eapply dropped_calm; [apply calm_refl, Hs|exact Hd4|]|by eapply calm_inclusive_at]. }
  apply wps_bind. destruct (m_prev_cache_cntlrs (mf cfg c)) as [|p0 l0] eqn:Epr.
  { change (m_prev_cache_cntlrs (mf cfg c)) with (prevs cfg (cache_of cfg c)) in Epr.
    assert (dropped c v s3 s3) as Hd.
    { split_and!; [done|by rewrite Epr; intros p Hp%not_elem_of_nil|done|done]. }
    apply wps_ret, Hend; [done|by eapply dropped_calm; [exact Hc|exact Hd|apply calm_refl, Hsound3]|by eapply dropped_inclusive]. }
  apply wps_bind, wps_modify. change (m_master (cf cfg c)) with (cache_of cfg c).
  destruct (evicting_state c (Some (v, buf)) s3 (so_upright _ Hsound3)) as (Hup4 & Hl4 & Hev4 & Hother4);
    [by intros a b [= _ <-]|by intros m _; apply Hsound3|].
  set (s4 := set_masters _ s3) in *.
  assert (evictable c v (CacheBlockInfo.m_cstate info) s4) as He4.
  { destruct He3 as [A1 A2 A3 A4]. split; [by rewrite Hl4|intros m p st; rewrite !Hl4; apply A2|intros p st; rewrite Hl4; apply A3|intros n; rewrite Hl4; apply A4]. }
  apply wps_bind, wps_back_invalidate with (ost := CacheBlockInfo.m_cstate info); [done..|]. intros lat s5 Hup5 Hd5 Fr5.
  apply wps_bind, wps_calm; [apply Calm_incrElapsedTime|apply Hup5|]. intros [] s6 Hs6.
  apply wps_bind, wps_calm; [apply Calm_add_stat|apply Hs6|]. intros [] s7 Hs7.
  apply wps_bind, wps_master, wps_bind, wps_modify, wps_ret. change (m_master (cf cfg c)) with (cache_of cfg c).
  assert (calm s5 s7) as Hc57 by (by eapply calm_trans).
  pose proof (calm_upright _ _ Hc57 Hup5) as Hup7.
  destruct (evicting_state c None s7 Hup7) as (Hup8 & Hl8 & Hev8 & Hother8); [done| |].
  { intros m Hm. rewrite (ca_evicting _ _ Hc57), (frame_evicting _ _ _ Fr5). by apply Hother4. }
  set (s8 := set_masters _ s7) in *.
  assert (dropped c v s3 s8) as Hd8.
  { destruct Hd5 as (D1 & D2 & D3 & D4). split_and!.
    - intros m. rewrite Hl8, (ca_lines _ _ Hc57), <- Hl4. apply D1.
    - intros p. rewrite Hl8, (ca_lines _ _ Hc57). apply D2.
    - intros m p st. rewrite !Hl8, !(ca_lines _ _ Hc57), <- !Hl4. apply D3.
    - intros m t. rewrite Hl8, (ca_lines _ _ Hc57), <- Hl4. apply D4. }
  assert (sound s8) as Hs8.
  { split; [done|]. intros m. destruct (decide (m = cache_of cfg c)) as [->|]; [done|by apply Hother8]. }
  apply Hend; [done|by eapply dropped_calm; [exact Hc|exact Hd8|apply calm_refl, Hs8]|exact (dropped_inclusive _ _ _ _ _ He3 Hd8)].
Qed.

(** ** Insertions *)

(** What the insertion of a line does before the line it replaced is disposed of. *)
Definition placed_line c a cst (gone : option Z) s s' : Prop :=
  hier_wf s' ∧ (∀ m, evicting s' m = evicting s m) ∧ (sides s → sides s') ∧
  ∀ m t, lstate s' m t =
    if decide (m = cache_of cfg c)
    then if decide (t = blk k a) then Some cst else if decide (gone = Some t) then None else lstate s m t
    else lstate s m t.

Lemma put_sides c x s : sides s → sides (put cfg c x s).
Proof.
  intros (Hq & Hw & Hl). split; [|done]. intros m. cbn. unfold insert, fn_insert.
  destruct (decide (cache_of cfg c = m)) as [<-|]; apply Hq.
Qed.
Lemma put_evicting_same c x s m : evicting (put cfg c x s) m = evicting s m.
Proof. unfold evicting. by rewrite evicting_buf_put. Qed.

(** The state of the new line is set; the pointer to it is not null. *)
Lemma wps_set_new c a cst (gone : option Z) s s1 (Q : option Cache.loc → state → Prop) :
  placed_line c a CacheState.INVALID gone s s1 → in_u64 a →
  (∀ l s2, placed_line c a cst gone s s2 → Q (Some l) s2) → wps E (setCacheState cfg c a cst) s1 Q.
Proof using T.
  intros (W1 & V1 & S1 & L1) Ha HQ. unfold setCacheState. apply wps_bind.
  apply (wps_getCacheBlockInfo cfg geo k undo LI T E); [done|done|]. intros p Hp.
  pose proof (pointer_lstate cfg geo k undo LI _ _ _ _ W1 Hp) as Hpl.
  destruct p as [l|]; [|by rewrite L1, !decide_True in Hpl].
  destruct Hp as [b Hp]. apply wps_bind, wps_ret, wps_bind.
  eapply (wps_setCState cfg geo k undo LI E c a l b cst); [done|done|]. intros x Hx _ Hl _. apply wps_ret, HQ.
  split_and!; [by apply put_wf|intros m; by rewrite put_evicting_same|intros ?; by apply put_sides, S1|].
  intros m t. rewrite lstate_put. case_decide as Hm; [subst m|by rewrite L1, decide_False].
  rewrite Hl. destruct (Z.eqb_spec t (blk k a)) as [->|Hne]; [by rewrite decide_True|]. rewrite (decide_False (P := t = _)) by done.
  fold (lstate s1 (cache_of cfg c) t). by rewrite L1, decide_True, decide_False by done.
Qed.

Lemma placed_calm c a cst (gone : option Z) s s1 s2 : placed_line c a cst gone s s1 → calm s1 s2 → placed_line c a cst gone s s2.
Proof.
  intros (W1 & V1 & S1 & L1) Hc. split_and!; [apply Hc|intros m; by rewrite (ca_evicting _ _ Hc)|intros ?; by apply (ca_sides _ _ Hc), S1|].
  intros m t. by rewrite (ca_lines _ _ Hc).
Qed.

Lemma placed_sound c a cst (gone : option Z) s s' :
  sound s → aligned k a → fillable cst → placed_line c a cst gone s s' → sound s'.
Proof.
  intros [[S1 S2 S3 S4] S5] Ha Hc (W & V & Sd & L). split; [|intros m; by rewrite V].
  split; [done| | |by apply Sd]; [intros m t st|intros m t]; rewrite L.
  - repeat case_decide; try apply S2; [|done]. intros [= <-]. by left.
  - repeat case_decide; try apply S3; [|by intros []]. intros _. by exists a.
Qed.

Lemma placed_near (X X' : nat → Prop) c a cst s s' :
  opened X s a → (∀ m, X m → X' m ∨ m = cache_of cfg c) → (∀ m, X' m → X m ∧ m ≠ cache_of cfg c) →
  (∀ p x, p ∈ prevs cfg (cache_of cfg c) → lstate s (cache_of cfg p) (blk k a) = Some x → weaker x cst = true) →
  (∀ m p, p ∈ prevs cfg m → cache_of cfg p = cache_of cfg c → ∃ x, lstate s m (blk k a) = Some x ∧ weaker cst x = true) →
  (∀ m, lstate s' m (blk k a) = if decide (m = cache_of cfg c) then Some cst else lstate s m (blk k a)) →
  sound s' → (∀ t, t ≠ blk k a → inclusive_at cfg s' t) → opened X' s' a.
Proof using T.
  intros Ho HX1 HX2 Hb Ha L Hs Hothers. destruct (fill_near X X' c a s s' cst) as [Hn Hh]; [done..|]. by split.
Qed.

(** The line that is replaced can be evicted. *)
Lemma placed_evictable (X : nat → Prop) c a v cst ost s s' :
  opened X s a → lstate s (cache_of cfg c) (blk k v) = Some ost → blk k v ≠ blk k a →
  placed_line c a cst (Some (blk k v)) s s' → evictable c v ost s'.
Proof using T.
  intros Ho Hv Hne (_ & _ & _ & L). pose proof (op_others _ _ _ Ho _ Hne) as Hi.
  assert (∀ m, m ≠ cache_of cfg c → lstate s' m (blk k v) = lstate s m (blk k v)) as Hsame.
  { intros m Hm. by rewrite L, decide_False. }
  split.
  - by rewrite L, decide_True, decide_False, decide_True.
  - intros m p st Hm Hp. rewrite (Hsame m Hm). destruct (decide (cache_of cfg p = cache_of cfg c)) as [Ep|Ep].
    + by rewrite Ep, L, decide_True, decide_False, decide_True.
    + rewrite (Hsame _ Ep). by apply Hi.
  - intros p st Hp. assert (cache_of cfg p ≠ cache_of cfg c) as Hpc.
    { intros Ep. apply (prev_lv cfg T) in Hp. rewrite Ep in Hp. lia. }
    rewrite (Hsame _ Hpc). intros Hst. destruct (Hi _ p st Hp Hst) as (st' & Hst' & Hw). congruence.
  - intros n -> Hn. rewrite Hsame; [by eapply climbs_next; [exact T|apply inclusive_climbs, Hi|exact Hn|]|]. intros En. apply (tree_up _ _ _ _ _ T) in Hn. rewrite En in Hn. lia.
Qed.

(** The line enters the cache: what was there first leaves it. *)
Lemma wps_insert_line (X : nat → Prop) c a fill cn ev0 eb s
    (Q : CacheSet.evicted * Z → state → Prop) :
  opened X s a → aligned k a → lstate s (cache_of cfg c) (blk k a) = None →
  (∀ ev ea s', (∀ d, CacheSet.evict_buff ev = Some d → length d = Z.to_nat (2 ^ k)) →
     (if CacheSet.eviction ev
      then aligned k ea ∧ blk k ea ≠ blk k a ∧
           lstate s (cache_of cfg c) (blk k ea) = Some (CacheBlockInfo.m_cstate (CacheSet.evict_block_info ev)) ∧
           placed_line c a CacheState.INVALID (Some (blk k ea)) s s'
      else placed_line c a CacheState.INVALID None s s') → Q (ev, ea) s') →
  wps E (cache_call cfg c (λ x, Cache.insertSingleLine cn x a fill ev0 eb)) s Q.
Proof using T HE HP HTP.
  intros Ho Ha Hnone HQ. pose proof (op_sound _ _ _ Ho) as [Hup _]. pose proof (so_wf _ Hup) as Hwf.
  pose proof (hw_lines _ _ _ _ _ _ Hwf (cache_of cfg c)) as Hlw.
  unfold cache_call. apply wps_bind, wps_master, wps_bind, wps_lift.
  2:{ intros e Ee. apply HE. intros ->. by apply insertSingleLine_fuel in Ee. }
  intros [[ev ea] x] Ex. apply wps_bind, wps_modify, wps_ret.
  assert (line (cache_at s (cache_of cfg c)) (block_of (geo (cache_of cfg c)) a) = None) as Hno.
  { rewrite (block_blk cfg geo k undo T). unfold lstate, cstate in Hnone. by destruct (line _ _). }
  destruct (insert_line_spec _ _ _ _ _ _ _ _ _ _ Hlw (proj1 Ha) Hno Ex) as (Hx & Hb & Hbuf & Hl).
  rewrite (block_blk cfg geo k undo T) in Hl.
  assert (lines_ok cfg geo s (cache_of cfg c) x) as Hok.
  { split; [done|]. intros t b Ht.
    assert (b = fresh_block t ∨ line (cache_at s (cache_of cfg c)) t = Some b) as [->|Hold].
    { destruct (CacheSet.eviction ev); [destruct Hl as (_ & _ & Hl)|]; rewrite Hl in Ht; repeat case_match; naive_solver. }
    - by apply (marked_zero _ _ _ _ _ _ _ _ Hwf).
    - by apply (hw_marked _ _ _ _ _ _ Hwf). }
  assert (∀ gone, (∀ t, cstate x t = if decide (t = blk k a) then Some CacheState.INVALID
                           else if decide (gone = Some t) then None else cstate (cache_at s (cache_of cfg c)) t) →
            placed_line c a CacheState.INVALID gone s (put cfg c x s)) as Hput.
  { intros gone Hg. split_and!; [by apply put_wf|intros m; by rewrite put_evicting_same|by apply put_sides|].
    intros m t. rewrite lstate_put. case_decide; [subst m|done]. apply Hg. }
  apply HQ.
  - intros d Hd. rewrite (Hbuf d Hd). by rewrite (tree_geo _ _ _ _ _ T).
  - destruct (CacheSet.eviction ev); cbn zeta in Hl.
    + destruct Hl as (Hv & -> & Hl). set (v := CacheSet.evict_block_info ev) in *.
      assert (is_Some (lstate s (cache_of cfg c) (CacheBlockInfo.m_tag v))) as Hsome by (unfold lstate, cstate; rewrite Hv; by eexists).
      destruct (so_tags _ Hup _ _ Hsome) as (a' & Ha' & Et). rewrite <- Et, (tagToAddress_blk (cache_of cfg c) _ a') by done.
      assert (lstate s (cache_of cfg c) (blk k a') = Some (CacheBlockInfo.m_cstate v)) as Hst.
      { rewrite Et. unfold lstate, cstate. by rewrite Hv. }
      split_and!; [done|congruence|done|]. apply Hput. intros t. unfold cstate. rewrite Hl.
      destruct (Z.eqb_spec t (blk k a)); [by rewrite decide_True|]. rewrite decide_False, Et by done.
      destruct (Z.eqb_spec t (CacheBlockInfo.m_tag v)) as [->|]; [by rewrite decide_True|]. by rewrite decide_False by congruence.
    + apply Hput. intros t. unfold cstate. rewrite Hl. by destruct (Z.eqb_spec t (blk k a)); [rewrite decide_True|rewrite decide_False].
Qed.

(** [insertCacheBlock]: the hierarchy is well-formed with the new line; a line it replaced is
    gone from the levels above too. *)
Lemma wps_insertCacheBlock (X X' : nat → Prop) c a cst data req th s (Q : option Cache.loc → state → Prop) :
  opened X s a → aligned k a → fillable cst →
  (∀ m, X m → X' m ∨ m = cache_of cfg c) → (∀ m, X' m → X m ∧ m ≠ cache_of cfg c) →
  (∀ p x, p ∈ prevs cfg (cache_of cfg c) → lstate s (cache_of cfg p) (blk k a) = Some x → weaker x cst = true) →
  (∀ m p, p ∈ prevs cfg m → cache_of cfg p = cache_of cfg c → ∃ x, lstate s m (blk k a) = Some x ∧ weaker cst x = true) →
  (∀ p s', opened X' s' a → (∀ m, lstate s' m (blk k a) = if decide (m = cache_of cfg c) then Some cst else lstate s m (blk k a)) → Q p s') →
  wps E (insertCacheBlock cfg c a cst data req th) s Q.
Proof using T Hcoh Hwt HE HP HTP HTD.
  intros Ho Ha Hst HX1 HX2 Hbelow Habove HQ. pose proof (op_sound _ _ _ Ho) as Hs. unfold insertCacheBlock.
  pose proof (so_wf _ (so_upright _ Hs)) as Hwf.
  apply wps_bind, (wps_getCacheState cfg geo k undo LI T E); [done|apply Ha|].
  apply wps_bind, wps_assert; intros Hinv; [apply bool_decide_eq_true_1 in Hinv|by apply HE].
  assert (lstate s (cache_of cfg c) (blk k a) = None) as Hnone.
  { pose proof (so_alive _ (cache_of cfg c) (blk k a) (so_upright _ Hs)). destruct (lstate s _ _); [cbn in Hinv; congruence|done]. }
  apply wps_bind, wps_gets, wps_bind, wps_master, wps_bind.
  eapply wps_insert_line; [done|done|done|]. intros ev ea s1 Hbuf Hev.
  set (gone := if CacheSet.eviction ev then Some (blk k ea) else None).
  assert (placed_line c a CacheState.INVALID gone s s1) as Hp1 by (unfold gone; destruct (CacheSet.eviction ev); [apply Hev|done]).
  apply wps_bind, wps_calm; [apply Calm_charge_queries|apply Hp1|]. intros [] s2 Hs2.
  apply wps_bind, (wps_set_new c a cst gone s); [by eapply placed_calm|apply Ha|]. intros l s3 Hp3.
  apply wps_bind, wps_ret, wps_bind, wps_calm; [apply Calm_when; intros _; apply Calm_upd_block; by intros []|apply Hp3|].
  intros [] s4 Hs4. pose proof (placed_calm _ _ _ _ _ _ _ Hp3 Hs4) as Hp4.
  pose proof (placed_sound _ _ _ _ _ _ Hs Ha Hst Hp4) as Hsound4. pose proof Hp4 as (W4 & V4 & S4 & L4).
  assert (∀ m, lstate s4 m (blk k a) = if decide (m = cache_of cfg c) then Some cst else lstate s m (blk k a)) as La.
  { intros m. rewrite L4. case_decide; [by rewrite decide_True|done]. }
  assert (∀ t, t ≠ blk k a → gone ≠ Some t → inclusive_at cfg s4 t) as Hothers.
  { intros t Ht Hg m p x Hp. rewrite !L4, !(decide_False (P := t = _)), !(decide_False (P := gone = _)) by done.
    assert (∀ m', (if decide (m' = cache_of cfg c) then lstate s m' t else lstate s m' t) = lstate s m' t) as Eif by (intros m'; by case_decide).
    rewrite !Eif. by apply (op_others _ _ _ Ho). }
  apply wps_bind, wps_when; intros Eev.
  - unfold gone in *. rewrite Eev in *. destruct Hev as (Hea & Hne & Hold & _).
    apply wps_evict_line; [done|done| |by eapply placed_evictable|].
    { destruct (CacheSet.evict_buff ev) as [d|] eqn:Ed; cbn; [by apply Hbuf|apply (tree_buf _ _ _ _ _ T)]. }
    intros s5 Hs5 Hd5 Hi5. apply wps_ret. pose proof Hd5 as (_ & _ & _ & D4).
    assert (∀ m, lstate s5 m (blk k a) = if decide (m = cache_of cfg c) then Some cst else lstate s m (blk k a)) as La5.
    { intros m. by rewrite D4. }
    apply HQ; [|done]. eapply placed_near; [exact Ho|done..|].
    intros t Ht. destruct (decide (t = blk k ea)) as [->|Hte]; [done|].
    intros m p x Hp. rewrite !D4 by done. apply Hothers; [done|congruence|done].
  - apply wps_ret, HQ; [|done]. eapply placed_near; [exact Ho|done..|]. intros t Ht. apply Hothers; [done|].
    unfold gone. by rewrite Eev.
Qed.

(** ** Requests *)

(** What an access needs of the state of a line. *)
Definition permits (op : Core.mem_op_t) (st : CacheState.cstate_t) : bool :=
  match op with Core.READ => CacheState.readable st | _ => CacheState.writable st end.

Lemma permits_fillable op st : permits op st = true → stable st → fillable st ∧ (op ≠ Core.READ → st = CacheState.MODIFIED).
Proof.
  unfold permits, CacheState.readable, CacheState.writable.
  intros Hp [[->|[->| ->]]| ->]; destruct op; try discriminate Hp; split; unfold fillable; auto; done.
Qed.
Lemma permits_not op st : permits op st = false → fillable st → op ≠ Core.READ ∧ (st = CacheState.SHARED ∨ st = CacheState.EXCLUSIVE).
Proof. intros Hp [->|[->| ->]]; destruct op; try discriminate Hp; auto. Qed.

Lemma wps_permissible c a op s (Q : bool * option Cache.loc → state → Prop) :
  hier_wf s → in_u64 a →
  (∀ p, pointer cfg k s c a p → op ≠ Core.INVALID_MEM_OP →
     Q (permits op (default CacheState.INVALID (lstate s (cache_of cfg c) (blk k a))), p) s) →
  wps E (operationPermissibleinCache cfg c a op) s Q.
Proof using T HE.
  intros Hwf Ha HQ. unfold operationPermissibleinCache. apply wps_bind.
  apply (wps_getCacheBlockInfo cfg geo k undo LI T E); [done|done|]. intros p Hp.
  apply wps_bind. eapply (wps_getCacheState_of cfg geo k undo); [done|exact Hp|].
  destruct op; [by apply wps_fail, HE|by apply wps_ret, HQ..].
Qed.

(** Of the caches of which a cache could be the parent, there is the one that its next level is. *)
Lemma parent_next c n m p : next_of cfg c = Some n → p ∈ prevs cfg m → cache_of cfg p = cache_of cfg c → m = cache_of cfg n.
Proof using T.
  intros Hn Hp Ep. destruct (tree_prev _ _ _ _ _ T m p Hp) as (n' & Hn' & <-).
  pose proof (tree_same _ _ _ _ _ T _ _ Ep) as Hsame. rewrite Hn, Hn' in Hsame. cbn in Hsame. congruence.
Qed.

Lemma wps_update_leaf (X : nat → Prop) c n a st s (Q : Z * bool * option bytes → state → Prop) :
  opened X s a → aligned k a → fillable st → (∀ m, ¬ X m) → prevs cfg (cache_of cfg c) = [] → next_of cfg c = Some n →
  lstate s (cache_of cfg n) (blk k a) = Some st → is_Some (lstate s (cache_of cfg c) (blk k a)) →
  (∀ r s', settled s' → (∀ m, lstate s' m (blk k a) = if decide (m = cache_of cfg c) then Some st else lstate s m (blk k a)) → Q r s') →
  wps E (updateCacheBlock cfg (levels cfg) c a st Transition.UPGRADE None) s Q.
Proof using T Hcoh Hwt HE.
  intros Ho Ha Hst HX Hpr Hn Hnext Hx HQ.
  assert (target E st) as Htg.
  { destruct Hst as [->|[->| ->]]; [by right; left|right; right; right; split; [done|by apply HE]|by right; right; left]. }
  apply (wps_updateCacheBlock cfg geo k undo LI T E Hcoh);
    [apply Ho|done|done| |apply (tree_levels _ _ _ _ _ T)|].
  { apply (climbs_ready cfg geo k undo T E Hwt); [by eapply opened_climbs|intros m'; apply so_alive, Ho| |done].
    rewrite Hn. done. }
  intros lat hit out s' Hs' _. pose proof Hs' as (W & Fr & L & K & _).
  assert (∀ x, (∃ r, r = c ∧ below cfg (cache_of cfg r) x) ∨ ¬ ∃ r, r = c ∧ below cfg (cache_of cfg r) x) as Hdec.
  { intros x. destruct (below_dec cfg T (cache_of cfg c) x); [left; eauto|right; by intros (? & -> & ?)]. }
  apply HQ.
  - destruct (opened_none X s a Ho HX) as [Hs Hi]. split; [eapply subtrees_sound; [exact Hs|exact Htg|exact Hs'|exact Hdec]|].
    intros t. eapply (subtree_inclusive cfg geo k undo LI T E); [apply Hi|exact Hs'|done|].
    intros -> _ n' x Hn' Hx'. assert (n' = n) as -> by congruence. rewrite Hnext in Hx'. injection Hx' as <-. by apply weaker_refl.
  - intros m. case_decide as Hm.
    + subst m. rewrite (L _ c eq_refl (below_refl _ _)). destruct Hx as [x ->]. cbn. unfold after.
      rewrite bool_decide_false; [done|]. by destruct Hst as [->|[->| ->]].
    + apply K. intros _ p -> [->|(q & Hq & _)]%below_inv; [done|]. rewrite Hpr in Hq. by apply not_elem_of_nil in Hq.
Qed.

(** [copyDataFromNextLevel]: a cache that does not have the line gets it as the next level
    has it; so does one without previous levels that has it. *)
Lemma wps_copyData (X X' : nat → Prop) c n op a modeled t_now st s (Q : unit → state → Prop) :
  opened X s a → aligned k a → next_of cfg c = Some n → lstate s (cache_of cfg n) (blk k a) = Some st →
  (∀ m, X m → X' m ∨ m = cache_of cfg c) → (∀ m, X' m → X m ∧ m ≠ cache_of cfg c) →
  (∀ p x, permits op st = true → p ∈ prevs cfg (cache_of cfg c) → lstate s (cache_of cfg p) (blk k a) = Some x → weaker x st = true) →
  lstate s (cache_of cfg c) (blk k a) = None ∨ (prevs cfg (cache_of cfg c) = [] ∧ ∀ m, ¬ X m) →
  (∀ s', opened X' s' a → permits op st = true →
     (∀ m, lstate s' m (blk k a) = if decide (m = cache_of cfg c) then Some st else lstate s m (blk k a)) → Q tt s') →
  wps E (copyDataFromNextLevel cfg c op a modeled t_now) s Q.
Proof using T Hcoh Hwt HE HP HTP HTD.
  intros Ho Ha Hn Hst HX1 HX2 Hbelow Hcase HQ. unfold copyDataFromNextLevel.
  apply wps_bind. unfold next_cntlr, cf. unfold next_of in Hn. rewrite Hn. apply wps_ret.
  assert (hier_wf s) as Hwf by apply Ho.
  apply wps_bind, wps_permissible; [done|apply Ha|]. intros p0 _ _. rewrite Hst. cbn [default].
  apply wps_bind, wps_assert; intros Hperm; [|by apply HE].
  destruct (permits_fillable op st Hperm) as [Hfill _]; [by eapply so_states; [apply Ho|]|].
  apply wps_bind, wps_calm; [apply Calm_retrieve, Ha|done|]. intros d s1 Hs1.
  apply wps_bind, (wps_getCacheState cfg geo k undo LI T E); [apply Hs1|apply Ha|]. rewrite (ca_lines _ _ Hs1), Hst. cbn [default].
  set (bw := when _ _). assert (Calm bw) as Hbw by (unfold bw; calm).
  apply wps_bind, wps_calm; [exact Hbw|apply Hs1|]. intros [] s2 Hs2.
  assert (calm s s2) as Hc by (by eapply calm_trans). pose proof (calm_opened _ _ _ _ Hc Ho) as Ho2.
  apply wps_bind, (wps_getCacheBlockInfo cfg geo k undo LI T E); [apply Hs2|apply Ha|]. intros p Hp.
  pose proof (pointer_lstate cfg geo k undo LI _ _ _ _ (ca_wf _ _ Hs2) Hp) as Hpl. rewrite (ca_lines _ _ Hc) in Hpl.
  destruct p as [l|].
  - destruct Hpl as (b & _ & Hpl). destruct Hcase as [Hno|[Hpr HX]]; [congruence|].
    apply wps_bind. eapply (wps_update_leaf X); [exact Ho2|done|done|done|done|exact Hn|by rewrite (ca_lines _ _ Hc)|
      rewrite (ca_lines _ _ Hc), Hpl; by eexists|].
    intros r s3 Hs3 L3. apply wps_ret, HQ; [|done|].
    + apply settled_opened; [done|]. intros m Hm. destruct (HX2 m Hm) as [HXm _]. by apply HX in HXm.
    + intros m. rewrite L3. by rewrite (ca_lines _ _ Hc).
  - apply wps_bind. eapply (wps_insertCacheBlock X X'); [exact Ho2|done|done|done|done| | |].
    + intros p x Hpp. rewrite (ca_lines _ _ Hc). by apply Hbelow.
    + intros m p Hpp Ep. rewrite (parent_next c n m p Hn Hpp Ep), (ca_lines _ _ Hc), Hst. exists st. split; [done|by apply weaker_refl].
    + intros p s3 Ho3 L3. apply wps_ret, HQ; [done|done|]. intros m. rewrite L3. by rewrite (ca_lines _ _ Hc).
Qed.

(** ** The miss of the last level *)

Lemma shapes_pointer s s' c a p :
  hier_wf s → hier_wf s' → same_shapes (cache_of cfg c) s s' → lstate s' (cache_of cfg c) (blk k a) = lstate s (cache_of cfg c) (blk k a) →
  pointer cfg k s c a p → pointer cfg k s' c a p.
Proof.
  intros Hwf Hwf' Hsh Hl Hp. destruct p as [l|]; cbn in *.
  - destruct Hp as (b & Hb & Et & Hv). specialize (Hsh l). rewrite Hb in Hsh.
    destruct (block_at (cache_at s' (cache_of cfg c)) l) as [b'|] eqn:Eb; [|done]. injection Hsh as Et' _.
    exists b'. split; [done|]. split; [congruence|done].
  - unfold lstate, cstate in Hl. rewrite Hp in Hl. by destruct (line _ _).
Qed.

Lemma calm_pointer s s' c a p : hier_wf s → calm s s' → pointer cfg k s c a p → pointer cfg k s' c a p.
Proof. intros Hwf Hc. apply shapes_pointer; [done|apply Hc|intros l; apply (ca_blocks _ _ Hc)|apply (ca_lines _ _ Hc)]. Qed.

(** The last-level cache of a controller has the line to itself. *)
Definition strong s c a : Prop :=
  ∃ ρ x, below cfg (cache_of cfg ρ) (cache_of cfg c) ∧ next_of cfg ρ = None ∧
    lstate s (cache_of cfg ρ) (blk k a) = Some x ∧ (x = CacheState.EXCLUSIVE ∨ x = CacheState.MODIFIED).

Lemma root_unique c ρ : next_of cfg c = None → below cfg (cache_of cfg ρ) (cache_of cfg c) → cache_of cfg ρ = cache_of cfg c.
Proof using T.
  intros Hn Hb. remember (cache_of cfg c) as z eqn:Ez. destruct Hb as [|y p Hy Hp]; [done|].
  destruct (tree_prev _ _ _ _ _ T y p Hp) as (n & Hn' & _). pose proof (tree_same _ _ _ _ _ T _ _ Ez) as Hsame.
  by rewrite Hn, Hn' in Hsame.
Qed.

Lemma strong_next s s' c n a :
  next_of cfg c = Some n → strong s c a → (∀ ρ, below cfg (cache_of cfg ρ) (cache_of cfg n) →
    lstate s' (cache_of cfg ρ) (blk k a) = lstate s (cache_of cfg ρ) (blk k a)) → strong s' n a.
Proof using T.
  intros Hn (ρ & x & Hb & Hr & Hx & Hst) Hl. remember (cache_of cfg c) as z eqn:Ez. destruct Hb as [|y p Hy Hp].
  - pose proof (tree_same _ _ _ _ _ T _ _ Ez) as Hsame. by rewrite Hr, Hn in Hsame.
  - assert (y = cache_of cfg n) as -> by (by eapply parent_next). exists ρ, x. split_and!; [done|done| |done]. by rewrite Hl.
Qed.

(** A cache with the line to itself is below one. *)
Lemma strong_above (X : nat → Prop) s c a x :
  opened X s a → (∀ m, X m → ¬ below cfg m (cache_of cfg c) ) → lstate s (cache_of cfg c) (blk k a) = Some x →
  x = CacheState.EXCLUSIVE ∨ x = CacheState.MODIFIED → strong s c a.
Proof using T.
  intros Ho. remember (levels cfg - lv (cache_of cfg c))%nat as i eqn:Ei. revert c x Ei.
  induction (lt_wf i) as [i _ IH]. intros c x -> HX Hx Hst.
  destruct (next_of cfg c) as [n|] eqn:En; [|exists c, x; split_and!; [constructor|done..]].
  destruct (tree_next _ _ _ _ _ T c n En) as (p & Hp & Ep).
  assert (∀ m, below cfg m (cache_of cfg n) → below cfg m (cache_of cfg c)) as Hup.
  { intros m Hm. eapply below_trans; [exact Hm|]. by apply (next_below cfg geo k undo T). }
  destruct (opened_parent X s a (cache_of cfg n) p x Ho) as (y & Hy & Hw); [|done|by rewrite Ep|].
  { intros HXn. apply (HX _ HXn), Hup. constructor. }
  pose proof (tree_up _ _ _ _ _ T c n En). pose proof (tree_levels _ _ _ _ _ T (cache_of cfg n)).
  destruct (IH (levels cfg - lv (cache_of cfg n))%nat ltac:(lia) n y eq_refl) as (ρ & z & Hb & Hr & Hz & Hzst); [|done| |].
  { intros m HXm Hm. by apply (HX m HXm), Hup. }
  { destruct Hst as [->| ->], y; try discriminate Hw; auto. }
  exists ρ, z. split_and!; [by apply Hup|done..].
Qed.

Lemma strong_calm s s' c a : calm s s' → strong s' c a → strong s c a.
Proof. intros Hc (ρ & x & ?). exists ρ, x. by rewrite (ca_lines _ _ Hc) in *. Qed.

(** A line of a root goes to another state. *)
Lemma patched_settled c a v s s' :
  settled s → patched cfg geo k undo LI c a (Some v) s s' → aligned k a → stable v → next_of cfg c = None →
  (∀ p x, p ∈ prevs cfg (cache_of cfg c) → lstate s (cache_of cfg p) (blk k a) = Some x → weaker x v = true) → settled s'.
Proof using T.
  intros [Hs Hi] Hp Ha Hv Hroot Hbelow. pose proof Hp as (W & Fr & L & _).
  split; [eapply patched_sound; [exact Hs|exact Hp|done|by intros x [= <-]]|].
  intros t m p x Hpm. rewrite !L. case_decide as Hd.
  - destruct Hd as [Ep _]. destruct (tree_prev _ _ _ _ _ T m p Hpm) as (n & Hn & _).
    pose proof (tree_same _ _ _ _ _ T _ _ Ep) as Hsame. by rewrite Hn, Hroot in Hsame.
  - intros Hx. case_decide as Hd'; [|by eapply Hi]. destruct Hd' as [-> ->]. exists v. split; [done|by eapply Hbelow].
Qed.

Lemma wps_setCState_patched c a l st s (Q : unit → state → Prop) :
  hier_wf s → pointer cfg k s c a (Some l) → (∀ s', patched cfg geo k undo LI c a (Some st) s s' → Q tt s') →
  wps E (setCState cfg c l st) s Q.
Proof.
  intros Hwf [b Hb] HQ. eapply (wps_setCState cfg geo k undo LI E c a l b st); [done|done|].
  intros x Hx Hbx Hl _. apply HQ. by apply patched_put.
Qed.

(** [initiateDirectoryAccess]: what the caches hold may only change from [SHARED] to
    [SHARED_UPGRADING] in the last level. *)
Lemma wps_upgrade_request c a perf th s (Q : unit → state → Prop) :
  sound s → aligned k a → next_of cfg c = None → (∀ s', sound s' → (settled s → settled s') → Q tt s') →
  wps E (processUpgradeReqToDirectory cfg c a perf th) s Q.
Proof using T HE HP.
  intros Hso Ha Hroot HQ. assert (hier_wf s) as Hwf by apply Hso.
  unfold processUpgradeReqToDirectory. apply wps_bind, (wps_getCacheState cfg geo k undo LI T E); [done|apply Ha|].
  apply wps_bind, wps_assert; intros Hsh; [apply bool_decide_eq_true_1 in Hsh|by apply HE].
  assert (lstate s (cache_of cfg c) (blk k a) = Some CacheState.SHARED) as Hst.
  { destruct (lstate s _ _); cbn in Hsh; [by rewrite Hsh|done]. }
  unfold setCacheState. apply wps_bind, wps_bind, (wps_getCacheBlockInfo cfg geo k undo LI T E); [done|apply Ha|]. intros p Hp.
  pose proof (pointer_lstate cfg geo k undo LI _ _ _ _ Hwf Hp) as Hpl. destruct p as [l|]; [|congruence].
  apply wps_bind, wps_ret, wps_bind, (wps_setCState_patched c a l); [done|done|]. intros s1 Hp1. apply wps_ret.
  assert (sound s1) as Hso1 by (eapply patched_sound; [exact Hso|exact Hp1|done|by intros x [= <-]; right]).
  assert (settled s → settled s1) as Hs1.
  { intros [_ Hi]. eapply patched_settled; [exact (conj Hso Hi)|exact Hp1|done|by right|done|]. intros q x Hq Hx.
    destruct (Hi _ _ q x Hq Hx) as (y & Hy & Hw). rewrite Hst in Hy. injection Hy as <-. by destruct x. }
  apply wps_bind, wps_calm; [apply Calm_getHome|apply Hso1|]. intros h s2 Hs2.
  apply wps_calm; [apply Calm_sendMsg|apply Hs2|]. intros [] s3 Hs3. assert (calm s1 s3) as Hc by (by eapply calm_trans).
  apply HQ; [by eapply calm_sound|]. intros Hset. eapply calm_settled; [exact Hc|by apply Hs1].
Qed.

Lemma Calm_ex_request c a : Calm (processExReqToDirectory cfg c a).
Proof using HE HP. unfold processExReqToDirectory. calm. Qed.
Lemma Calm_sh_request c a : Calm (processShReqToDirectory cfg c a).
Proof using HE HP. unfold processShReqToDirectory. calm. Qed.
#[local] Hint Resolve Calm_ex_request Calm_sh_request : calm.

Lemma wps_initiate c op a pf t s (Q : unit → state → Prop) :
  sound s → aligned k a → next_of cfg c = None → (∀ s', sound s' → (settled s → settled s') → Q tt s') →
  wps E (initiateDirectoryAccess cfg c op a pf t) s Q.
Proof using T HE HP.
  intros Hs Ha Hroot HQ. unfold initiateDirectoryAccess.
  assert (∀ (m : M state unit) s0, calm s s0 → Calm m → wps E m s0 Q) as Hcalm.
  { intros m s0 Hs0 Hm. apply wps_calm; [done|apply Hs0|]. intros [] s' Hs'. assert (calm s s') as Hc by (by eapply calm_trans).
    apply HQ; [by eapply calm_sound|by apply calm_settled]. }
  apply wps_bind, wps_calm; [calm|apply Hs|]. intros [] s1 Hs1.
  apply wps_bind, wps_calm; [calm|apply Hs1|]. intros [] s2 Hs2.
  assert (calm s s2) as Hc2 by (by eapply calm_trans).
  apply wps_bind, wps_master, wps_when; intros _; [|by apply HQ; [eapply calm_sound|apply calm_settled]].
  apply wps_bind, wps_calm; [apply Calm_reset_perf|apply Hs2|]. intros [] s3 Hs3.
  assert (calm s s3) as Hc3 by (by eapply calm_trans).
  destruct (negb (bool_decide (op = Core.READ))); [|by apply Hcalm; [|calm]].
  apply wps_bind, wps_calm; [apply Calm_getCacheState|apply Hs3|]. intros x s4 Hs4.
  assert (calm s s4) as Hc4 by (by eapply calm_trans).
  case_bool_decide; [|by apply Hcalm; [|calm]].
  apply wps_upgrade_request; [by eapply calm_sound|done|done|]. intros s5 Hs5 Hset5.
  apply HQ; [done|]. intros Hset. by apply Hset5, (calm_settled s).
Qed.

(** Conditions for the miss of a request to leave the hierarchy settled: no other line of
    the way is needed for it. *)
Definition may_wait s c (r : nat) op a : Prop :=
  strong s c a ∨
  (inclusive_at cfg s (blk k a) ∧
   (op = Core.READ ∨ (r ∈ prevs cfg (cache_of cfg c) → lstate s (cache_of cfg r) (blk k a) = None))).

(** What a request leaves: the line is there, or the hierarchy is settled. *)
Definition request_post (X : nat → Prop) s c (r : nat) op a (miss : bool) s' : Prop :=
  if miss then sound s' ∧ (may_wait s c r op a → settled s')
  else opened X s' a ∧ (∃ st, lstate s' (cache_of cfg c) (blk k a) = Some st ∧ permits op st = true) ∧
    ∀ m, below cfg (cache_of cfg c) m → m ≠ cache_of cfg c → lstate s m (blk k a) = None → lstate s' m (blk k a) = None.

Lemma request_post_calm X s c r op a miss s1 s2 :
  request_post X s c r op a miss s1 → calm s1 s2 → request_post X s c r op a miss s2.
Proof.
  intros Hp Hc. destruct miss; cbn in *.
  - destruct Hp as [Hs Hset]. split; [by eapply calm_sound|]. intros Hm. eapply calm_settled; [exact Hc|by apply Hset].
  - destruct Hp as (Ho & (st & Hst & Hperm) & Hn). split_and!; [by eapply calm_opened| |].
    + exists st. by rewrite (ca_lines _ _ Hc).
    + intros m Hb Hm Hnone. rewrite (ca_lines _ _ Hc). by apply Hn.
Qed.

(** A cache without a next level, or whose next level has the line, gets the right to write it. *)
Lemma root_fill (X : nat → Prop) c a s s' st :
  opened X s a → aligned k a → fillable st → ¬ X (cache_of cfg c) → next_of cfg c = None →
  (∀ p x, p ∈ prevs cfg (cache_of cfg c) → lstate s (cache_of cfg p) (blk k a) = Some x → weaker x st = true) →
  patched cfg geo k undo LI c a (Some st) s s' → opened X s' a.
Proof using T.
  intros Ho Ha Hst HX Hroot Hbelow Hp.
  apply (fill_opened X X c a s s' st); [done..|by left|by intros m Hm; split; [|intros ->]|done| |done].
  intros m p Hpm Ep. destruct (tree_prev _ _ _ _ _ T m p Hpm) as (n & Hn & _).
  pose proof (tree_same _ _ _ _ _ T _ _ Ep) as Hsame. by rewrite Hn, Hroot in Hsame.
Qed.

Lemma weaker_exclusive x : weaker x CacheState.EXCLUSIVE = true → weaker x CacheState.MODIFIED = true.
Proof. by destruct x. Qed.

Context (Hplain : ∀ c, m_perfect (cntlr_conf cfg c) = false ∧ m_passthrough (cntlr_conf cfg c) = false).
Context (Hwhere : ∀ c b, where_of (m_mem_component (cntlr_conf cfg c)) b ≠ HitWhere.MISS).

Lemma opened_children_none (X : nat → Prop) s c a p :
  opened X s a → ¬ X (cache_of cfg c) → lstate s (cache_of cfg c) (blk k a) = None →
  p ∈ prevs cfg (cache_of cfg c) → lstate s (cache_of cfg p) (blk k a) = None.
Proof.
  intros Ho HX Hnone Hp. destruct (lstate s (cache_of cfg p) (blk k a)) as [x|] eqn:Ex; [|done].
  destruct (opened_parent X s a _ p x Ho HX Hp Ex) as (y & Hy & _). congruence.
Qed.

(** The state of a block that a pointer leads to. *)
Lemma wps_state_of c a p s (Q : CacheState.cstate_t → state → Prop) :
  hier_wf s → pointer cfg k s c a p → Q (default CacheState.INVALID (lstate s (cache_of cfg c) (blk k a))) s →
  wps E (getCacheState_of cfg c p) s Q.
Proof. intros. by eapply (wps_getCacheState_of cfg geo k undo). Qed.

(** What the miss of the last level does, at the level itself. *)
Definition last_post (X : nat → Prop) s c op a (r : bool * HitWhere.where_t) s' : Prop :=
  if fst r
  then snd r ≠ HitWhere.MISS ∧ opened X s' a ∧ (∃ st, lstate s' (cache_of cfg c) (blk k a) = Some st ∧ permits op st = true) ∧
    ∀ m, below cfg (cache_of cfg c) m → m ≠ cache_of cfg c → lstate s m (blk k a) = None → lstate s' m (blk k a) = None
  else snd r = HitWhere.MISS ∧ sound s' ∧ (settled s → settled s') ∧
    ∀ x, lstate s (cache_of cfg c) (blk k a) = Some x → x ≠ CacheState.EXCLUSIVE ∧ x ≠ CacheState.MODIFIED.

Lemma last_post_write (X : nat → Prop) s s1 s' c op a w :
  opened X s1 a → aligned k a → ¬ X (cache_of cfg c) → next_of cfg c = None → w ≠ HitWhere.MISS →
  (∀ m, lstate s m (blk k a) = None → lstate s1 m (blk k a) = None) →
  (∀ p x, p ∈ prevs cfg (cache_of cfg c) → lstate s1 (cache_of cfg p) (blk k a) = Some x → weaker x CacheState.MODIFIED = true) →
  patched cfg geo k undo LI c a (Some CacheState.MODIFIED) s1 s' → last_post X s c op a (true, w) s'.
Proof using T.
  intros Ho Ha HX Hroot Hw Hnone Hbelow Hp. pose proof Hp as (_ & _ & L & _).
  assert (fillable CacheState.MODIFIED) as Hfill by (by right; right).
  split_and!; [done|by eapply root_fill| |].
  - exists CacheState.MODIFIED. rewrite L, decide_True by done. split; [done|]. by destruct op.
  - intros m _ Hm Hn. rewrite L, decide_False by tauto. by apply Hnone.
Qed.

(** Memory is no miss. *)
Lemma dram_where c a d s : wps E (accessDRAM cfg c Core.READ a d) s (λ r _, fst (fst r) ≠ HitWhere.MISS).
Proof using HE HTD.
  unfold accessDRAM. apply wps_bind, wps_gets, wps_bind, wps_gets, wps_bind, wps_gets, wps_bind, wps_lift.
  - intros [[[[lat w] d'] p] x] Ed. apply get_dram_where in Ed. apply wps_bind, wps_modify, wps_bind.
    destruct p; [by apply wps_modify, wps_ret|by apply wps_ret, wps_ret].
  - intros e Ee. apply HE. intros ->. by apply get_dram_fuel in Ee.
Qed.

Lemma wps_last_level_miss (X : nat → Prop) c r op a p pf t s (Q : bool * HitWhere.where_t → state → Prop) :
  opened X s a → aligned k a → ¬ X (cache_of cfg c) → next_of cfg c = None → pointer cfg k s c a p → op ≠ Core.INVALID_MEM_OP →
  permits op (default CacheState.INVALID (lstate s (cache_of cfg c) (blk k a))) = false →
  (∀ r s', last_post X s c op a r s' → Q r s') →
  wps E (last_level_miss cfg c r op a p pf t) s Q.
Proof using T Hcoh Hwt HE HP HTP HTD Hwhere.
  intros Ho Ha HX Hroot Hp Hop Hperm HQ. pose proof (op_sound _ _ _ Ho) as Hs. assert (hier_wf s) as Hwf by apply Ho.
  unfold last_level_miss. apply wps_bind, (wps_state_of c a p); [done|done|].
  pose proof (pointer_lstate cfg geo k undo LI _ _ _ _ Hwf Hp) as Hpl.
  destruct p as [l|].
  - destruct Hpl as (b & _ & Hst). rewrite Hst in *. cbn [default] in *.
    set (st := CacheBlockInfo.m_cstate b) in *.
    assert (stable st) as Hstable by (by eapply so_states; [apply Hs|]).
    assert (st ≠ CacheState.MODIFIED) as HnM by (intros Em; rewrite Em in Hperm; by destruct op).
    assert (∀ s1, opened X s1 a → lstate s1 (cache_of cfg c) (blk k a) = Some st →
      ∀ q x, q ∈ prevs cfg (cache_of cfg c) → lstate s1 (cache_of cfg q) (blk k a) = Some x → weaker x CacheState.MODIFIED = true) as Hbelow.
    { intros s1 Ho1 Hst1 q x Hq Hx. destruct (opened_parent X s1 a _ q x Ho1 HX Hq Hx) as (y & Hy & Hw).
      rewrite Hst1 in Hy. injection Hy as <-. by destruct x, st. }
    case_bool_decide as HE1; [|case_match eqn:Edram].
    + apply wps_bind, (wps_snoop X); [done|done|by left|]. intros hit s1 Ho1 _ Hsn.
      destruct (snooped_self _ _ _ _ _ _ Hsn) as [Hl1 Hsh1].
      assert (pointer cfg k s1 c a (Some l)) as Hp1 by (by eapply (shapes_pointer s); [..|apply Ho1|done|done|]).
      apply wps_bind, (wps_setCState_patched c a l); [apply Ho1|done|]. intros s2 Hp2. apply wps_ret, HQ.
      eapply last_post_write; [exact Ho1|done|done|done|apply Hwhere|apply (sn_none _ _ _ _ _ _ Hsn)| |exact Hp2].
      apply Hbelow; [done|]. by rewrite Hl1.
    + apply wps_bind, (wps_setCState_patched c a l); [done|done|]. intros s2 Hp2. apply wps_ret, HQ.
      eapply last_post_write; [exact Ho|done|done|done|apply Hwhere|done| |exact Hp2]. by apply Hbelow.
    + apply wps_bind, wps_initiate; [done|done|done|]. intros s1 Hs1 Hset. apply wps_ret, HQ.
      split_and!; [done|done|done|]. intros x. rewrite Hst. by intros [= <-].
  - cbn [default] in Hperm. rewrite Hpl in Hperm.
    destruct (m_direct_dram (mf cfg c)) eqn:Edram.
    + apply wps_bind, wps_calm; [apply Calm_reset_perf|done|]. intros [] s1 Hs1.
      apply wps_bind. eapply wps_mono; [apply wps_and; [apply (Calm_accessDRAM c Core.READ a (uninit_buf cfg)), Hs1|apply dram_where]|].
      intros [[w lat] d] s2 [Hs2 Hw]. cbn in Hw.
      apply wps_bind, wps_calm; [apply Calm_incrElapsedTime|apply Hs2|]. intros [] s3 Hs3.
      assert (calm s s3) as Hc by (eapply calm_trans; [exact Hs1|]; by eapply calm_trans).
      set (st := if bool_decide (op = Core.READ) then CacheState.SHARED else CacheState.MODIFIED).
      assert (fillable st ∧ permits op st = true) as [Hfill Hperm'] by (unfold st, fillable; destruct op; split; auto).
      pose proof (calm_opened _ _ _ _ Hc Ho) as Ho3.
      apply wps_bind. eapply (wps_insertCacheBlock X X); [exact Ho3|done|done|by left|by intros m Hm; split; [|intros ->]| | |].
      { intros q x Hq. rewrite (opened_children_none X s3 c a q Ho3 HX); [done| |done]. by rewrite (ca_lines _ _ Hc). }
      { intros m q Hq Eq. destruct (tree_prev _ _ _ _ _ T m q Hq) as (n & Hn & _).
        pose proof (tree_same _ _ _ _ _ T _ _ Eq) as Hsame. by rewrite Hn, Hroot in Hsame. }
      intros l s4 Ho4 L4.
      apply wps_bind, wps_calm; [apply Calm_when; intros _; apply Calm_mark_prefetched|apply Ho4|]. intros [] s5 Hs5.
      apply wps_bind, wps_gets, wps_bind, wps_calm; [by apply Calm_updateUncore|apply Hs5|]. intros [] s6 Hs6. apply wps_ret, HQ.
      assert (calm s4 s6) as Hc46 by (by eapply calm_trans).
      split_and!; [done|by eapply calm_opened| |].
      * exists st. by rewrite (ca_lines _ _ Hc46), L4, decide_True.
      * intros m _ Hm Hnone. by rewrite (ca_lines _ _ Hc46), L4, decide_False, (ca_lines _ _ Hc).
    + apply wps_bind, wps_initiate; [done|done|done|]. intros s1 Hs1 Hset. apply wps_ret, HQ.
      split_and!; [done|done|done|]. intros x. rewrite Hpl. done.
Qed.

(** ** Requests from the previous level *)

Definition hit_post (X : nat → Prop) s c op a s' : Prop :=
  opened X s' a ∧ (∃ st, lstate s' (cache_of cfg c) (blk k a) = Some st ∧ permits op st = true) ∧
  ∀ m, below cfg (cache_of cfg c) m → m ≠ cache_of cfg c → lstate s m (blk k a) = None → lstate s' m (blk k a) = None.

Lemma hit_post_calm X s c op a s1 s2 : hit_post X s c op a s1 → calm s1 s2 → hit_post X s c op a s2.
Proof. apply (request_post_calm X s c 0%nat op a false). Qed.

(** The snoop of a hit: for a read, a line that others may have modified becomes shared. *)
Lemma wps_hit_snoop (X : nat → Prop) c r op a st s (Q : bool → state → Prop) :
  opened X s a → aligned k a → (op = Core.READ → ∀ m, ¬ X m) →
  lstate s (cache_of cfg c) (blk k a) = Some st → permits op st = true →
  (∀ b s', hit_post X s c op a s' → Q b s') →
  wps E (if negb (bool_decide (op = Core.READ)) then
           snoop_others cfg c r a CacheState.INVALID Transition.COHERENCY
         else if bool_decide (st = CacheState.MODIFIED) || bool_decide (st = CacheState.EXCLUSIVE) then
           snoop_others cfg c r a CacheState.SHARED Transition.COHERENCY
         else mret false) s Q.
Proof using T Hcoh Hwt HE HP.
  intros Ho Ha HX Hst Hperm HQ.
  assert (∀ st', snoopable X s c a st' → wps E (snoop_others cfg c r a st' Transition.COHERENCY) s Q) as Hsnoop.
  { intros st' Hst'. apply (wps_snoop X); [done..|]. intros b s1 Ho1 _ Hsn. destruct (snooped_self _ _ _ _ _ _ Hsn) as [Hl1 _].
    apply HQ. split_and!; [done|exists st; by rewrite Hl1|]. intros m _ _. apply (sn_none _ _ _ _ _ _ Hsn). }
  case_bool_decide as Hop; cbn [negb].
  - destruct (_ || _) eqn:Eme.
    + apply Hsnoop. right. split_and!; [done|by apply HX|]. rewrite Hst. intros x [= <-].
      apply orb_prop in Eme as [->%bool_decide_eq_true_1| ->%bool_decide_eq_true_1]; done.
    + apply wps_ret, HQ. split_and!; [done|eauto|done].
  - apply Hsnoop. by left.
Qed.

Lemma wps_request_hits (X : nat → Prop) c r op a l modeled pf st s (Q : bool * HitWhere.where_t → state → Prop) :
  opened X s a → aligned k a → (op = Core.READ → ∀ m, ¬ X m) → pointer cfg k s c a (Some l) →
  lstate s (cache_of cfg c) (blk k a) = Some st → permits op st = true →
  (∀ ph w s', w ≠ HitWhere.MISS → hit_post X s c op a s' → Q (ph, w) s') →
  wps E (request_hits cfg c r op a l modeled pf) s Q.
Proof using T Hcoh Hwt HE HP Hwhere.
  intros Ho Ha HX Hp Hst Hperm HQ. assert (hier_wf s) as Hwf by apply Ho. unfold request_hits.
  apply wps_bind, wps_calm; [apply Calm_take_option|done|]. intros ph s1 Hs1.
  apply wps_bind, wps_calm; [apply Calm_take_option|apply Hs1|]. intros b2 s2 Hs2.
  apply wps_bind, wps_calm; [calm|apply Hs2|]. intros [] s3 Hs3.
  assert (calm s s3) as Hc by (eapply calm_trans; [exact Hs1|]; by eapply calm_trans).
  pose proof (calm_pointer _ _ _ _ _ Hwf Hc Hp) as [b Hb].
  apply wps_bind. eapply wps_getCState; [apply Hb|].
  assert (CacheBlockInfo.m_cstate b = st) as ->.
  { pose proof (ca_lines _ _ Hc (cache_of cfg c) (blk k a)) as El. rewrite Hst in El. unfold lstate, cstate in El.
    rewrite (points_line _ _ _ _ _ (hw_lines _ _ _ _ _ _ (ca_wf _ _ Hc) _) Hb) in El. by injection El. }
  apply wps_bind, (wps_hit_snoop X); [by eapply calm_opened|done|done|by rewrite (ca_lines _ _ Hc)|done|].
  intros sib s4 Hpost. apply wps_bind, wps_gets.
  assert (hit_post X s c op a s4) as Hpost'.
  { destruct Hpost as (? & ? & Hn). split_and!; [done..|]. intros m Hb' Hm Hnone. apply Hn; [done|done|]. by rewrite (ca_lines _ _ Hc). }
  case_bool_decide as Hw; [by apply wps_ret, HQ|].
  destruct Hpost' as (Ho4 & ?). assert (sides s4) as (_ & _ & Hlast) by apply Ho4.
  apply wps_bind, wps_calm; [by apply Calm_set_last_remote|apply Ho4|]. intros [] s5 Hs5. apply wps_ret, HQ; [apply Hlast|].
  by eapply hit_post_calm.
Qed.

Lemma special_plain c op a perm p count :
  (special_modes cfg c op a perm p count : M state _) = mret (perm, perm, p).
Proof using Hplain. unfold special_modes, cf. destruct (Hplain c) as [-> ->]. by rewrite !andb_false_r. Qed.

(** What becomes of the line of a cache that passes a request on: it is given up. *)
Definition way (X : nat → Prop) c op : nat → Prop := λ m, X m ∨ (op ≠ Core.READ ∧ m = cache_of cfg c).

Lemma wps_pass_on (X : nat → Prop) c n op a p s (Q : unit → state → Prop) :
  opened X s a → aligned k a → ¬ X (cache_of cfg c) → next_of cfg c = Some n → pointer cfg k s c a p →
  permits op (default CacheState.INVALID (lstate s (cache_of cfg c) (blk k a))) = false →
  (∀ s', opened (way X c op) s' a → lstate s' (cache_of cfg c) (blk k a) = None →
     (∀ m, m ≠ cache_of cfg c → lstate s' m (blk k a) = lstate s m (blk k a)) →
     (inclusive_at cfg s (blk k a) → (∀ q, q ∈ prevs cfg (cache_of cfg c) → lstate s (cache_of cfg q) (blk k a) = None) →
        inclusive_at cfg s' (blk k a)) → Q tt s') →
  wps E (when (bool_decide (is_Some p)) (invalidateCacheBlock cfg c a)) s Q.
Proof using T.
  intros Ho Ha HX Hn Hp Hperm HQ. assert (hier_wf s) as Hwf by apply Ho.
  pose proof (pointer_lstate cfg geo k undo LI _ _ _ _ Hwf Hp) as Hpl. destruct p as [l|].
  - destruct Hpl as (b & Hb & Hst). rewrite Hst in Hperm. cbn in Hperm. set (st := CacheBlockInfo.m_cstate b) in *.
    destruct (tree_next _ _ _ _ _ T c n Hn) as (q & Hq & Eq).
    assert (op ≠ Core.READ ∧ (st = CacheState.SHARED ∨ st = CacheState.EXCLUSIVE)) as [Hop Hse].
    { apply permits_not; [done|]. pose proof (so_states _ (so_upright _ (op_sound _ _ _ Ho)) _ _ _ Hst) as [|Hup]; [done|].
      destruct (op_near _ _ _ Ho (cache_of cfg n) q st Hq) as [(y & _ & Hw)|[_ Hw]]; [by rewrite Eq|..]; rewrite Hup in Hw; by try destruct y. }
    rewrite bool_decide_true by (by eexists). cbn [when].
    eapply (wps_invalidateCacheBlock cfg geo k undo LI T E c a l b); [done|apply Ha|done|fold st; by destruct Hse as [Es|Es]; rewrite Es|fold st; by destruct Hse as [Es|Es]; rewrite Es|].
    intros x Hx Hbx Hlx _.
    assert (patched cfg geo k undo LI c a None s (put cfg c x s)) as Hpat.
    { apply patched_put; [done..|]. intros t. unfold cstate. rewrite Hlx. by destruct (t =? blk k a). }
    pose proof Hpat as (_ & _ & L & _). apply HQ.
    + assert (weaker st CacheState.EXCLUSIVE = true) as Hw by (by destruct Hse as [-> | ->]).
      destruct (give_up_opened X c a s _ st Ho Ha HX Hst Hw Hpat) as [O1 O2 O3 O4]. split; [done|done| |].
      * intros m q' y Hq' Hy. destruct (O3 m q' y Hq' Hy) as [|[[HXm| ->] ?]]; [by left|right; split; [by left|done]|right; split; [by right|done]].
      * intros m [HXm|[_ ->]]; apply O4; [by left|by right].
    + by rewrite L, decide_True.
    + intros m Hm. rewrite L, decide_False; [done|]. tauto.
    + intros Hi Hnone. by eapply give_up_inclusive.
  - rewrite bool_decide_false by (by intros []). cbn [when]. apply HQ; [|done|done|done].
    destruct Ho as [O1 O2 O3 O4]. split; [done|done| |].
    + intros m q y Hq Hy. destruct (O3 m q y Hq Hy) as [|[? ?]]; [by left|right; split; [by left|done]].
    + intros m [HXm|[_ ->]]; [by apply O4|done].
Qed.

(** Before a cache asks its next level, the other previous levels lose a shared line. *)
Record cleared c (r : nat) a s s' : Prop := {
  cl_inclusive : inclusive_at cfg s (blk k a) → inclusive_at cfg s' (blk k a);
  cl_none m : lstate s m (blk k a) = None → lstate s' m (blk k a) = None;
  cl_same m : (∀ p, p ∈ prevs cfg (cache_of cfg c) → ¬ below cfg (cache_of cfg p) m) → lstate s' m (blk k a) = lstate s m (blk k a);
  cl_gone p : lstate s (cache_of cfg c) (blk k a) = Some CacheState.SHARED → p ∈ prevs cfg (cache_of cfg c) → p ≠ r →
    lstate s' (cache_of cfg p) (blk k a) = None;
}.

Lemma wps_clear (X : nat → Prop) c r a p s (Q : unit → state → Prop) :
  opened X s a → aligned k a → pointer cfg k s c a p →
  (∀ s', opened X s' a → pointer cfg k s' c a p → lstate s' (cache_of cfg c) (blk k a) = lstate s (cache_of cfg c) (blk k a) →
     cleared c r a s s' → Q tt s') →
  wps E (cstate ← getCacheState_of cfg c p;
         when (bool_decide (cstate = CacheState.SHARED)) (snoop_others cfg c r a CacheState.INVALID Transition.UPGRADE;; mret tt)) s Q.
Proof using T Hcoh Hwt HE HP.
  intros Ho Ha Hp HQ. assert (hier_wf s) as Hwf by apply Ho.
  apply wps_bind, (wps_state_of c a p); [done|done|]. apply wps_when; intros Hsh.
  - apply bool_decide_eq_true_1 in Hsh. apply wps_bind, (wps_snoop X); [done|done|by left|]. intros b s1 Ho1 Hi Hsn. apply wps_ret.
    destruct (snooped_self _ _ _ _ _ _ Hsn) as [Hl Hs]. apply HQ; [done|by eapply (shapes_pointer s); [..|apply Ho1|done|done|]|done|].
    split; [done|apply (sn_none _ _ _ _ _ _ Hsn)|intros m Hm; by apply (sn_same _ _ _ _ _ _ Hsn)|].
    intros q _ Hq Hne. by apply (sn_gone _ _ _ _ _ _ Hsn).
  - apply bool_decide_eq_false_1 in Hsh. apply HQ; [done..|]. split; [done|done|done|].
    intros q Hst. rewrite Hst in Hsh. done.
Qed.

(** A request that a cache passes on may wait if it could before. *)
Lemma may_wait_next (X : nat → Prop) c n r op a s1 s2 s3 :
  opened X s1 a → (∀ m, X m → below cfg (cache_of cfg c) m ∧ m ≠ cache_of cfg c) → next_of cfg c = Some n →
  permits op (default CacheState.INVALID (lstate s1 (cache_of cfg c) (blk k a))) = false →
  cleared c r a s1 s2 → lstate s2 (cache_of cfg c) (blk k a) = lstate s1 (cache_of cfg c) (blk k a) → opened X s2 a →
  lstate s3 (cache_of cfg c) (blk k a) = None →
  (∀ m, m ≠ cache_of cfg c → lstate s3 m (blk k a) = lstate s2 m (blk k a)) →
  (inclusive_at cfg s2 (blk k a) → (∀ q, q ∈ prevs cfg (cache_of cfg c) → lstate s2 (cache_of cfg q) (blk k a) = None) →
     inclusive_at cfg s3 (blk k a)) →
  may_wait s1 c r op a → may_wait s3 n c op a.
Proof using T.
  intros Ho HX Hn Hperm Hcl Hself Ho2 Hnone3 Hsame3 Hi3 Hw.
  assert (∀ m, below cfg m (cache_of cfg n) → lstate s3 m (blk k a) = lstate s1 m (blk k a)) as Hup.
  { intros m Hm. assert (below cfg m (cache_of cfg c)) as Hmc.
    { eapply below_trans; [exact Hm|]. by apply (next_below cfg geo k undo T). }
    pose proof (below_lv cfg T _ _ Hm). pose proof (tree_up _ _ _ _ _ T c n Hn).
    rewrite Hsame3 by (intros ->; lia). apply (cl_same _ _ _ _ _ Hcl). intros p Hp Hb.
    apply (not_below_self cfg T _ _ Hp). by eapply below_trans. }
  assert (strong s1 c a → may_wait s3 n c op a) as Hstrong.
  { intros Hs. left. eapply strong_next; [exact Hn|exact Hs|]. intros ρ Hρ. by apply Hup. }
  destruct Hw as [Hs|[Hi Hr]]; [by apply Hstrong|].
  destruct (lstate s1 (cache_of cfg c) (blk k a)) as [x|] eqn:Ex.
  - cbn in Hperm. destruct (tree_next _ _ _ _ _ T c n Hn) as (q & Hq & Eq).
    assert (op ≠ Core.READ ∧ (x = CacheState.SHARED ∨ x = CacheState.EXCLUSIVE)) as [Hop [-> | ->]].
    { apply permits_not; [done|]. destruct (Hi (cache_of cfg n) q x Hq) as (y & _ & Hw); [by rewrite Eq|].
      pose proof (so_states _ (so_upright _ (op_sound _ _ _ Ho)) _ _ _ Ex) as [|Hup']; [done|]. rewrite Hup' in Hw. by destruct y. }
    + right. split; [|right; intros _; done]. apply Hi3; [by apply (cl_inclusive _ _ _ _ _ Hcl)|].
      intros p Hp. destruct (decide (p = r)) as [->|Hne]; [|by apply (cl_gone _ _ _ _ _ Hcl)].
      apply (cl_none _ _ _ _ _ Hcl). destruct Hr as [|Hr]; [done|by apply Hr].
    + apply Hstrong. eapply strong_above; [exact Ho| |exact Ex|by left].
      intros m HXm Hm. destruct (HX m HXm) as [Hb Hne]. pose proof (below_lv cfg T _ _ Hb).
      pose proof (below_lv cfg T _ _ Hm). remember (cache_of cfg c) as z. destruct Hb as [|y p Hy Hp]; [done|].
      pose proof (below_lv cfg T _ _ Hy). pose proof (prev_lv cfg T _ _ Hp). lia.
  - right. split; [|right; intros _; done]. apply Hi3; [by apply (cl_inclusive _ _ _ _ _ Hcl)|].
    intros p Hp. apply (cl_none _ _ _ _ _ Hcl). destruct (lstate s1 (cache_of cfg p) (blk k a)) as [y|] eqn:Ey; [|done].
    destruct (Hi _ p y Hp Ey) as (z & Hz & _). congruence.
Qed.

(** The requests that [fuel] is enough for do what they should. *)
Definition requests_ok (fuel : nat) : Prop :=
  ∀ c (r : nat) op a modeled count pf t (X : nat → Prop) s (Q : HitWhere.where_t → state → Prop),
    opened X s a → aligned k a → (levels cfg - lv (cache_of cfg c) ≤ fuel)%nat →
    (∀ m, X m → below cfg (cache_of cfg c) m ∧ m ≠ cache_of cfg c) → (op = Core.READ → ∀ m, ¬ X m) →
    (∀ w s', request_post X s c r op a (bool_decide (w = HitWhere.MISS)) s' → Q w s') →
    wps E (processShmemReqFromPrevCache cfg fuel c r op a modeled count pf t) s Q.

(** The outcome of the part of a request that hits or misses. *)
Definition mid_post (X : nat → Prop) s c (r : nat) op a (x : bool * bool * HitWhere.where_t) s' : Prop :=
  let '(cache_hit, _, w) := x in
  request_post X s c r op a (negb cache_hit) s' ∧ bool_decide (w = HitWhere.MISS) = negb cache_hit.

Lemma opened_below_none (X : nat → Prop) s c a (r : nat) op :
  opened X s a → (op = Core.READ → ∀ m, ¬ X m) → lstate s (cache_of cfg c) (blk k a) = None →
  ∀ p x st, permits op st = true → stable st → p ∈ prevs cfg (cache_of cfg c) → lstate s (cache_of cfg p) (blk k a) = Some x → weaker x st = true.
Proof.
  intros Ho HX Hnone p x st Hperm Hst Hp Hx.
  destruct (op_near _ _ _ Ho _ p x Hp Hx) as [(y & Hy & _)|[HXc Hw]]; [congruence|].
  destruct (permits_fillable op st Hperm Hst) as [_ HM]. rewrite HM; [by apply weaker_exclusive|]. intros ->. by apply HX in HXc.
Qed.

Lemma wps_miss fuel (X : nat → Prop) c r op a p modeled count (pf : bool) t s0 s (Q : bool * bool * HitWhere.where_t → state → Prop) :
  requests_ok fuel → calm s0 s → opened X s0 a → aligned k a → (levels cfg - lv (cache_of cfg c) ≤ S fuel)%nat →
  (∀ m, X m → below cfg (cache_of cfg c) m ∧ m ≠ cache_of cfg c) → (op = Core.READ → ∀ m, ¬ X m) → op ≠ Core.INVALID_MEM_OP →
  pointer cfg k s c a p → permits op (default CacheState.INVALID (lstate s (cache_of cfg c) (blk k a))) = false →
  (∀ x s', mid_post X s0 c r op a x s' → Q x s') →
  wps E (when modeled (incr_access cfg c CachePerfModel.ACCESS_CACHE_TAGS ShmemPerfModel.USER_THREAD);;
         cstate ← getCacheState_of cfg c p;
         when (bool_decide (cstate = CacheState.SHARED))
           (snoop_others cfg c r a CacheState.INVALID Transition.UPGRADE;; mret tt);;
         match m_next_cache_cntlr (cf cfg c) with
         | Some n =>
             when (bool_decide (is_Some p)) (invalidateCacheBlock cfg c a);;
             hit_where ← processShmemReqFromPrevCache cfg fuel n c op a modeled count
                           (if pf then Prefetch.OTHER else Prefetch.NONE) t;
             if bool_decide (hit_where = HitWhere.MISS) then mret (false, false, hit_where)
             else
               t_now ← getElapsedTime cfg c ShmemPerfModel.USER_THREAD;
               copyDataFromNextLevel cfg c op a modeled t_now;;
               when pf (mark_prefetched cfg c a);;
               mret (true, false, hit_where)
         | None =>
             '(hit, hit_where) ← last_level_miss cfg c r op a p pf t;
             mret (hit, false, hit_where)
         end) s Q.
Proof using T Hcoh Hwt HE HP HTP HTD Hwhere.
  intros IH Hc0 Ho0 Ha Hfuel HX HXr Hop Hp Hperm HQ.
  pose proof (calm_opened _ _ _ _ Hc0 Ho0) as Ho. assert (hier_wf s) as Hwf by apply Ho.
  assert (¬ X (cache_of cfg c)) as HXc by (intros HXc; by destruct (HX _ HXc)).
  apply wps_bind, wps_calm; [calm|done|]. intros [] s1 Hs1.
  pose proof (calm_opened _ _ _ _ Hs1 Ho) as Ho1. pose proof (calm_pointer _ _ _ _ _ Hwf Hs1 Hp) as Hp1.
  assert (calm s0 s1) as Hc1 by (by eapply calm_trans).
  rewrite <- (ca_lines _ _ Hs1) in Hperm.
  apply (wps_assoc E). apply wps_bind, (wps_clear X c r a p); [done..|]. intros s2 Ho2 Hp2 Hl2 Hcl.
  assert (∀ m, lstate s0 m (blk k a) = None → lstate s2 m (blk k a) = None) as Hn02.
  { intros m Hm. apply (cl_none _ _ _ _ _ Hcl). by rewrite (ca_lines _ _ Hc1). }
  assert (may_wait s0 c r op a → may_wait s1 c r op a) as Hmw01.
  { intros [Hs|[Hi Hr]]; [left|right].
    - destruct Hs as (ρ & x & ?). exists ρ, x. by rewrite (ca_lines _ _ Hc1).
    - split; [by eapply calm_inclusive_at|]. by rewrite (ca_lines _ _ Hc1). }
  destruct (m_next_cache_cntlr (cf cfg c)) as [n|] eqn:En.
  - assert (next_of cfg c = Some n) as Hn by done.
    apply wps_bind, (wps_pass_on X c n op a p); [done..|by rewrite Hl2|]. intros s3 Ho3 Hnone3 Hsame3 Hi3.
    pose proof (tree_up _ _ _ _ _ T c n Hn) as Hlv.
    assert (∀ m, way X c op m → below cfg (cache_of cfg n) m ∧ m ≠ cache_of cfg n) as HX3.
    { intros m Hm. assert (below cfg (cache_of cfg c) m) as Hb by (destruct Hm as [HXm|[_ ->]]; [by apply HX|constructor]).
      pose proof (below_lv cfg T _ _ Hb). split; [|intros ->; lia].
      eapply below_trans; [by apply (next_below cfg geo k undo T)|done]. }
    apply wps_bind. eapply (IH n c op a); [exact Ho3|done|lia|exact HX3|by intros -> m [?|[]]; [eapply HXr|]|].
    intros w s4 Hpost. case_bool_decide as Hw.
    + apply wps_ret, HQ. destruct Hpost as [Hs4 Hset]. split; [|by apply bool_decide_eq_true_2].
      split; [done|]. intros Hmw. apply Hset. eapply (may_wait_next X c n r); [exact Ho1|done..|by apply Hmw01].
    + destruct Hpost as (Ho4 & (st & Hst & Hperm4) & Hn4).
      assert (lstate s4 (cache_of cfg c) (blk k a) = None) as Hnone4.
      { apply Hn4; [by apply (next_below cfg geo k undo T)| |done]. intros Ec. rewrite Ec in Hlv. lia. }
      apply wps_bind, wps_gets, wps_bind.
      eapply (wps_copyData (way X c op) X c n op a); [exact Ho4|done|exact Hn|exact Hst| | | |by left|].
      { intros m [?|[_ ->]]; [by left|by right]. }
      { intros m HXm. split; [by left|]. intros ->. done. }
      { intros q x Hpm Hq Hx. eapply (opened_below_none (way X c op) s4 c a r op); [exact Ho4| |done|done| |done|done].
        { intros -> m [?|[]]; [by eapply HXr|done]. }
        eapply so_states; [apply Ho4|exact Hst]. }
      intros s5 Ho5 _ L5. apply wps_bind, wps_calm; [apply Calm_when; intros _; apply Calm_mark_prefetched|apply Ho5|]. intros [] s6 Hs6.
      apply wps_ret, HQ. split; [|by apply bool_decide_eq_false_2].
      eapply (request_post_calm X s0 c r op a false); [|exact Hs6]. split_and!; [done| |].
      * exists st. by rewrite L5, decide_True.
      * intros m Hb Hm Hnone. rewrite L5, decide_False by done. pose proof (below_lv cfg T _ _ Hb).
        apply Hn4; [|intros ->; lia|rewrite Hsame3 by done; by apply Hn02].
        eapply below_trans; [by apply (next_below cfg geo k undo T)|done].
  - assert (next_of cfg c = None) as Hn by done.
    apply wps_bind, (wps_last_level_miss X); [done..|by rewrite Hl2|]. intros [hit w] s3 Hpost. apply wps_ret, HQ.
    destruct hit; cbn in Hpost.
    + destruct Hpost as (Hw & Ho3 & Hst & Hn3). split; [|by apply bool_decide_eq_false_2]. split_and!; [done|done|].
      intros m Hb Hm Hnone. apply Hn3; [done|done|by apply Hn02].
    + destruct Hpost as (-> & Hs3 & Hset & Hx). split; [|done]. split; [done|]. intros Hmw.
      apply Hset. destruct (Hmw01 Hmw) as [(ρ & x & Hb & Hr & Hxs & Hst)|[Hi _]].
      { rewrite (root_unique c ρ Hn Hb) in Hxs. rewrite <- Hl2 in Hxs. destruct (Hx x Hxs). by destruct Hst. }
      eapply opened_settled; [exact Ho2|]. by apply (cl_inclusive _ _ _ _ _ Hcl).
Qed.

Lemma requests_all fuel : requests_ok fuel.
Proof using T Hcoh Hwt HE HP HTP HTD HPL Hplain Hwhere.
  induction fuel as [|fuel IH]; intros c r op a modeled count pf t X s Q Ho Ha Hfuel HX HXr HQ.
  { pose proof (tree_levels _ _ _ _ _ T (cache_of cfg c)). lia. }
  cbn [processShmemReqFromPrevCache]. assert (hier_wf s) as Hwf by apply Ho.
  assert (¬ X (cache_of cfg c)) as HXc by (intros HXc; by destruct (HX _ HXc)).
  apply wps_bind, wps_permissible; [done|apply Ha|]. intros p Hp Hop.
  apply wps_bind. rewrite special_plain. apply wps_ret.
  set (perm := permits op _) in *.
  apply wps_bind, wps_calm; [calm|done|]. intros [] s1 Hs1.
  apply wps_bind, wps_calm; [calm|apply Hs1|]. intros [] s2 Hs2.
  assert (calm s s2) as Hc by (by eapply calm_trans).
  pose proof (calm_opened _ _ _ _ Hc Ho) as Ho2. pose proof (calm_pointer _ _ _ _ _ Hwf Hc Hp) as Hp2.
  assert (∀ (m : M state (bool * bool * HitWhere.where_t)) (R : bool * bool * HitWhere.where_t → M state HitWhere.where_t),
    (∀ R', (∀ x s', mid_post X s c r op a x s' → R' x s') → wps E m s2 R') →
    (∀ x s', hier_wf s' → wps E (R x) s' (λ w s'', w = snd x ∧ calm s' s'')) → wps E (m ≫= R) s2 Q) as Hseq.
  { intros m R Hm HR. apply wps_bind, Hm. intros x s3 Hmid.
    assert (hier_wf s3) as Hwf3.
    { destruct x as [[ch ph] w], Hmid as [Hpost _]. destruct ch; cbn in Hpost; [destruct Hpost as (Ho3 & _); apply Ho3|destruct Hpost as (Hs3 & _); apply Hs3]. }
    eapply wps_mono; [by apply HR|]. intros w s4 [-> Hs4]. apply HQ. destruct x as [[ch ph] w], Hmid as [Hpost Hw].
    cbn [snd]. rewrite Hw. by eapply request_post_calm. }
  apply Hseq.
  - intros R' HR'. destruct perm eqn:Eperm.
    + destruct p as [l|].
      2:{ assert (lstate s (cache_of cfg c) (blk k a) = None) as Hno by (by apply (pointer_lstate cfg geo k undo LI _ _ _ _ Hwf Hp)).
          unfold perm in Eperm. rewrite Hno in Eperm. by destruct op. }
      pose proof (pointer_lstate cfg geo k undo LI _ _ _ _ Hwf Hp) as (b & _ & Hst). unfold perm in Eperm. rewrite Hst in Eperm.
      apply wps_bind, wps_ret, wps_bind. eapply (wps_request_hits X); [done|done|done|done|by rewrite (ca_lines _ _ Hc)|done|].
      intros ph w s3 Hw Hpost. apply wps_ret, HR'. split; [|by apply bool_decide_eq_false_2].
      destruct Hpost as (Ho3 & Hst3 & Hn3). split_and!; [done|done|]. intros m Hb Hm Hnone. apply Hn3; [done|done|].
      by rewrite (ca_lines _ _ Hc).
    + eapply (wps_miss fuel X c r op a p); [done|exact Hc|done|done|lia|done|done|done|done| |done].
      by rewrite (ca_lines _ _ Hc).
  - intros [[ch ph] w] s3 Hwf3. cbn [snd].
    apply wps_bind, wps_calm; [|done|].
    { apply Calm_when; intros _. apply Calm_bind; [apply Calm_retrieve, Ha|intros _]. calm. }
    intros [] s4 Hs4. apply wps_bind, wps_master, wps_bind, wps_calm; [apply Calm_when; intros _; by apply Calm_trainPrefetcher|apply Hs4|].
    intros [] s5 Hs5. apply wps_ret. split; [done|]. by eapply calm_trans.
Qed.

(** ** Accesses of a core *)

Lemma opened_nowhere s a : opened nowhere s a → settled s.
Proof. intros Ho. apply (opened_none _ _ _ Ho). by intros m []. Qed.

(** A core waits in the middle of an access. *)
Lemma set_waiting_settled core w s :
  settled s → (∀ x, w = Some x → pending_ok x) → settled (set_waiting (<[core := w]> (waiting s)) s).
Proof.
  intros [[[S1 S2 S3 (S4 & S5 & S6)] S7] Hi] Hw. split; [|done]. split; [|done]. split; [by destruct S1|done|done|].
  split_and!; [done| |done]. intros core' x. cbn. unfold insert, fn_insert. case_decide; [apply Hw|apply S5].
Qed.

Lemma next_prefetch_aligned c l s (Q : option Z * list Z → state → Prop) :
  hier_wf s → Forall (aligned k) l →
  (∀ x l' s', calm s s' → (∀ a, x = Some a → aligned k a) → Forall (aligned k) l' → Q (x, l') s') →
  wps E (next_prefetch cfg c l) s Q.
Proof using HE HP.
  revert s. induction l as [|a l IH]; intros s Hwf Hl HQ; cbn [next_prefetch]; [by apply wps_ret, HQ; [apply calm_refl|..]|].
  apply Forall_cons in Hl as [Ha Hl]. apply wps_bind, wps_calm; [apply Calm_operationPermissible|done|]. intros [b p] s1 Hs1.
  destruct b; [|by apply wps_ret, HQ; [done|intros a' [= <-]|]].
  apply IH; [apply Hs1|done|]. intros x l' s' Hs'. apply HQ. by eapply calm_trans.
Qed.

Lemma wps_put_queue c l (g : CacheMasterCntlr P F → Z) s (Q : unit → state → Prop) :
  settled s → Forall (aligned k) l → (∀ s', settled s' → Q tt s') → wps E (upd_master cfg c (λ m, put_queue l (g m) m)) s Q.
Proof.
  intros Hs Hl HQ. apply wps_modify, HQ. eapply calm_settled; [|done].
  apply (calm_master c (λ m, put_queue l (g m) m)); [by apply calm_refl, Hs|done|]. intros _ [_ Hq]. by split.
Qed.

Lemma wps_settled_calm {A} (m : M state A) s (Q : A → state → Prop) :
  Calm m → settled s → (∀ a s', settled s' → Q a s') → wps E m s Q.
Proof. intros Hm Hs HQ. apply wps_calm; [done|apply Hs|]. intros a s' Hs'. by apply HQ, (calm_settled s). Qed.

(** A prefetch reads a line into the cache itself; it may have to wait. *)
Lemma wps_doPrefetch c a t1 t2 w s (Q : bool → state → Prop) :
  settled s → aligned k a → (∀ b s', settled s' → Q b s') → wps E (doPrefetch cfg c a t1 t2 w) s Q.
Proof using T Hcoh Hwt HE HP HTP HTD HPL Hplain Hwhere.
  intros Hs Ha HQ. unfold doPrefetch.
  apply wps_bind, wps_settled_calm; [apply Calm_add_stat|done|]. intros [] s1 Hs1.
  apply wps_bind, wps_gets, wps_bind, wps_settled_calm; [apply Calm_setElapsedTime|done|]. intros [] s2 Hs2.
  apply wps_bind. eapply (requests_all _ c c Core.READ a _ _ _ _ nowhere); [by apply settled_opened|done|lia|by intros m []|by intros _ m []|].
  intros w' s3 Hpost. case_bool_decide as Hw.
  - destruct Hpost as [Hs3 Hset]. apply wps_bind, wps_modify, wps_ret, HQ.
    apply set_waiting_settled; [|by intros x [= <-]]. apply Hset. right. split; [apply Hs2|by left].
  - destruct Hpost as (Ho3 & _). assert (settled s3) as Hs3 by (by eapply opened_nowhere).
    apply wps_bind, wps_settled_calm; [apply Calm_setElapsedTime|done|]. intros [] s4 Hs4. by apply wps_ret, HQ.
Qed.

Lemma wps_Prefetch fuel c t w s (Q : bool → state → Prop) :
  (levels cfg - lv (cache_of cfg c) ≤ fuel)%nat → settled s → (∀ b s', settled s' → Q b s') → wps E (Prefetch cfg fuel c t w) s Q.
Proof using T Hcoh Hwt HE HP HTP HTD HPL Hplain Hwhere.
  revert c s. induction fuel as [|fuel IH]; intros c s Hfuel Hs HQ.
  { pose proof (tree_levels _ _ _ _ _ T (cache_of cfg c)). lia. }
  cbn [Prefetch]. apply wps_bind, wps_master, wps_bind.
  apply wps_mono with (Q := λ a s', settled s' ∧ (a = INVALID_ADDRESS ∨ aligned k a)).
  { case_match; [|by apply wps_ret; split; [|left]]. assert (sides s) as (Hq & _) by apply Hs.
    apply wps_bind, next_prefetch_aligned; [apply Hs|apply Hq|]. intros x l s1 Hs1 Hx Hl.
    apply wps_bind, wps_put_queue; [by eapply calm_settled|done|]. intros s2 Hs2. apply wps_ret.
    split; [done|]. destruct x as [a|]; [right; by apply Hx|by left]. }
  intros a s1 [Hs1 Ha]. apply wps_bind.
  apply wps_mono with (Q := λ _ s', settled s').
  { case_match eqn:Ea; [by apply wps_ret|]. apply Z.eqb_neq in Ea. destruct Ha as [|Ha]; [done|].
    apply wps_bind, wps_doPrefetch; [done|done|]. intros b s2 Hs2.
    apply wps_bind, wps_settled_calm; [unfold advance_queue; calm|done|]. intros [] s3 Hs3. by apply wps_ret. }
  intros b s2 Hs2. destruct b; [|by apply wps_ret, HQ].
  destruct (m_next_cache_cntlr (cf cfg c)) as [n|] eqn:En; [|by apply wps_ret, HQ].
  pose proof (tree_up _ _ _ _ _ T c n En). apply IH; [lia|done|done].
Qed.

(** The end of an access, with the prefetches it sets off. *)
Lemma wps_finish c op t b1 b2 w s (Q : unit → state → Prop) :
  settled s → prevs cfg (cache_of cfg c) = [] → aligned k (op_address op) → (∀ s', settled s' → Q tt s') →
  wps E (finish_mem_op cfg c op t b1 b2 w) s Q.
Proof using T Hcoh Hwt HE HP HTP HTD HPL Hplain Hwhere.
  intros Hs Hpr Ha HQ. unfold finish_mem_op.
  apply wps_bind, wps_settled_calm; [by apply Calm_accessCache|done|]. intros d s1 Hs1.
  apply wps_bind, wps_gets, wps_bind, wps_settled_calm; [calm|done|]. intros [] s2 Hs2.
  apply wps_bind, wps_settled_calm; [calm|done|]. intros [] s3 Hs3.
  apply wps_bind, wps_master, wps_bind, wps_settled_calm; [apply Calm_when; intros _; by apply Calm_trainPrefetcher|done|]. intros [] s4 Hs4.
  apply wps_bind, wps_mono with (Q := λ _ s', settled s').
  { case_match; [|by apply wps_ret]. apply wps_Prefetch; [lia|done|done]. }
  intros b s5 Hs5. apply wps_when; intros _; [|by apply HQ]. apply wps_settled_calm; [|done|intros []; apply HQ].
  unfold return_to_core. calm.
Qed.

(** The data are copied from the next level. *)
Lemma wps_fill c n op t1 t2 t3 w st s (Q : unit → state → Prop) :
  settled s → aligned k (op_address op) → prevs cfg (cache_of cfg c) = [] → next_of cfg c = Some n →
  lstate s (cache_of cfg n) (blk k (op_address op)) = Some st →
  (∀ s', settled s' → Q tt s') → wps E (fill_mem_op cfg c op t1 t2 t3 w) s Q.
Proof using T Hcoh Hwt HE HP HTP HTD HPL Hplain Hwhere.
  intros Hs Ha Hpr Hn Hst HQ. unfold fill_mem_op. apply wps_bind, wps_gets, wps_bind.
  eapply (wps_copyData nowhere nowhere c n); [by apply settled_opened|done|done|done|by left|by intros m []| | |].
  - intros p x _ Hp. rewrite Hpr in Hp. by apply not_elem_of_nil in Hp.
  - right. split; [done|by intros m []].
  - intros s1 Ho1 _ _. assert (settled s1) as Hs1 by (by eapply opened_nowhere).
    apply wps_bind, wps_settled_calm; [apply Calm_operationPermissible|done|]. intros [b p] s2 Hs2.
    apply wps_bind, wps_settled_calm; [apply Calm_assert|done|]. intros [] s3 Hs3.
    apply wps_bind, wps_settled_calm; [calm|done|]. intros [] s4 Hs4. by apply wps_finish.
Qed.

Lemma Calm_mem_op_hits c op l : Calm (mem_op_hits cfg c op l).
Proof using HE HP. unfold mem_op_hits. calm. Qed.

(** A cache without previous levels gives up a line; a dirty one fails an assertion. *)
Lemma wps_invalidate_leaf c a s (Q : unit → state → Prop) :
  settled s → aligned k a → prevs cfg (cache_of cfg c) = [] → is_Some (lstate s (cache_of cfg c) (blk k a)) →
  (∀ s', settled s' → lstate s' (cache_of cfg c) (blk k a) = None → Q tt s') →
  wps E (invalidateCacheBlock cfg c a) s Q.
Proof using T HE.
  intros [Hs Hi] Ha Hpr [x Hx] HQ. assert (hier_wf s) as Hwf by apply Hs.
  destruct (decide (x = CacheState.MODIFIED)) as [->|HM].
  - unfold invalidateCacheBlock. apply wps_bind, (wps_getCacheState cfg geo k undo LI T E); [done|apply Ha|].
    rewrite Hx. cbn [default]. apply wps_bind. by apply wps_fail, HE.
  - pose proof Hx as Hx'. unfold lstate, cstate in Hx'. destruct (line (cache_at s (cache_of cfg c)) (blk k a)) as [b|] eqn:El; [|done].
    destruct (line_points _ _ _ _ (hw_lines _ _ _ _ _ _ Hwf _) El) as (l & Hp & _). injection Hx' as Hb.
    eapply (wps_invalidateCacheBlock cfg geo k undo LI T E c a l b); [done|apply Ha|done|congruence| |].
    { rewrite Hb. intros ->. by eapply so_alive; [apply Hs|]. }
    intros y Hy Hby Hly _.
    assert (patched cfg geo k undo LI c a None s (put cfg c y s)) as Hpat.
    { apply patched_put; [done..|]. intros t. unfold cstate. rewrite Hly. by destruct (t =? blk k a). }
    pose proof Hpat as (_ & _ & L & _). apply HQ; [|by rewrite L, decide_True].
    split; [eapply patched_sound; [exact Hs|exact Hpat|done|done]|]. intros t m p st Hp'. rewrite !L. case_decide; [done|]. intros Hst.
    rewrite decide_False; [by eapply Hi|]. intros [-> _]. rewrite Hpr in Hp'. by apply not_elem_of_nil in Hp'.
Qed.

(** A first-level cache that misses gives up the line and asks the next level. *)
Lemma wps_mem_op_misses c op t s (Q : unit → state → Prop) :
  settled s → aligned k (op_address op) → prevs cfg (cache_of cfg c) = [] → (∀ s', settled s' → Q tt s') →
  wps E (mem_op_misses cfg c op t) s Q.
Proof using T Hcoh Hwt HE HP HTP HTD HPL Hplain Hwhere.
  intros Hs Ha Hpr HQ. unfold mem_op_misses.
  apply wps_bind, wps_settled_calm; [calm|done|]. intros [] s1 Hs1.
  apply wps_bind, wps_gets, wps_bind, wps_settled_calm; [calm|done|]. intros t_avail s2 Hs2.
  apply wps_bind, wps_settled_calm; [calm|done|]. intros [] s3 Hs3.
  apply wps_bind, (wps_getCacheState cfg geo k undo LI T E); [apply Hs3|apply Ha|]. apply wps_bind.
  apply wps_mono with (Q := λ _ s', settled s' ∧ lstate s' (cache_of cfg c) (blk k (op_address op)) = None).
  { apply wps_when; intros Hx.
    - apply negb_true_iff, bool_decide_eq_false_1 in Hx. apply wps_invalidate_leaf; [done..| |done].
      destruct (lstate s3 _ _); [by eexists|done].
    - apply negb_false_iff, bool_decide_eq_true_1 in Hx. split; [done|].
      pose proof (so_alive _ (cache_of cfg c) (blk k (op_address op)) (so_upright _ (proj1 Hs3))).
      destruct (lstate s3 _ _); [cbn in Hx; congruence|done]. }
  intros [] s4 [Hs4 Hnone]. apply wps_bind. unfold next_cntlr, cf.
  destruct (m_next_cache_cntlr (cntlr_conf cfg c)) as [n|] eqn:En; [|by apply wps_fail, HE].
  apply wps_ret, wps_bind. eapply (requests_all _ n c _ _ _ _ _ _ nowhere); [by apply settled_opened|done|lia|by intros m []|by intros _ m []|].
  intros w s5 Hpost. case_bool_decide as Hw.
  - destruct Hpost as [Hs5 Hset]. apply wps_modify, HQ, set_waiting_settled; [|by intros x [= <-]].
    apply Hset. right. split; [apply Hs4|right; by intros _].
  - destruct Hpost as (Ho5 & (st & Hst & _) & _). eapply (wps_fill c n); [by eapply opened_nowhere|done|done|done|exact Hst|done].
Qed.

(** [processMemOpFromCore] on a first-level cache: the hierarchy is settled again when the
    access is done or waits for a message. *)
Lemma wps_processMemOp c op s (Q : unit → state → Prop) :
  settled s → aligned k (op_address op) → prevs cfg (cache_of cfg c) = [] → (∀ s', settled s' → Q tt s') →
  wps E (processMemOpFromCore cfg c op) s Q.
Proof using T Hcoh Hwt HE HP HTP HTD HPL Hplain Hwhere.
  intros Hs Ha Hpr HQ. unfold processMemOpFromCore.
  apply wps_bind, wps_settled_calm; [apply Calm_assert|done|]. intros [] s1 Hs1.
  apply wps_bind, wps_settled_calm; [apply Calm_assert|done|]. intros [] s2 Hs2.
  apply wps_bind, wps_gets, wps_bind, wps_settled_calm; [apply Calm_operationPermissible|done|]. intros [perm p] s3 Hs3.
  apply wps_bind. rewrite special_plain. apply wps_ret.
  apply wps_bind, wps_settled_calm; [calm|done|]. intros [] s4 Hs4. destruct perm; [|by apply wps_mem_op_misses].
  apply wps_bind, wps_settled_calm; [apply Calm_deref_block|done|]. intros l s5 Hs5.
  apply wps_bind, wps_settled_calm; [apply Calm_mem_op_hits|done|]. intros ph s6 Hs6. by apply wps_finish.
Qed.

(** The second part of an access, when the network thread wakes the core up. *)
Lemma wps_resume core s (Q : unit → state → Prop) :
  settled s → (∀ s', settled s' → Q tt s') → wps E (resume cfg core) s Q.
Proof using T Hcoh Hwt HE HP HTP HTD HPL Hplain Hwhere.
  intros Hs HQ. unfold resume. apply wps_bind, wps_gets.
  assert (∀ w, waiting s core = Some w → pending_ok w) as Hw by (intros w; apply (proj1 Hs)).
  apply wps_bind, wps_modify. set (s1 := set_waiting _ s).
  assert (settled s1) as Hs1 by (by apply set_waiting_settled).
  destruct (waiting s core) as [[c op t1 t2 t3|c a t1 t2 t3 w]|]; [..|by apply wps_fail, HE].
  - destruct (Hw _ eq_refl) as [Hpr Ha]. apply wps_bind. unfold next_cntlr, cf.
    destruct (m_next_cache_cntlr (cntlr_conf cfg c)) as [n|] eqn:En; [|by apply wps_fail, HE].
    apply wps_ret, wps_bind. eapply (requests_all _ n c _ _ _ _ _ _ nowhere); [by apply settled_opened|done|lia|by intros m []|by intros _ m []|].
    intros w s2 Hpost. apply wps_bind, wps_assert; intros Hmiss; [|by apply HE]. apply negb_true_iff in Hmiss. rewrite Hmiss in Hpost.
    destruct Hpost as (Ho2 & (st & Hst & _) & _). eapply (wps_fill c n); [by eapply opened_nowhere|done|done|done|exact Hst|done].
  - specialize (Hw _ eq_refl). cbn in Hw.
    apply wps_bind. eapply (requests_all _ c c _ _ _ _ _ _ nowhere); [by apply settled_opened|done|lia|by intros m []|by intros _ m []|].
    intros w' s2 Hpost. apply wps_bind, wps_assert; intros Hmiss; [|by apply HE]. apply negb_true_iff in Hmiss. rewrite Hmiss in Hpost.
    destruct Hpost as (Ho2 & _). assert (settled s2) as Hs2 by (by eapply opened_nowhere).
    apply wps_bind, wps_settled_calm; [apply Calm_setElapsedTime|done|]. intros [] s3 Hs3.
    apply wps_bind, wps_settled_calm; [unfold advance_queue; calm|done|]. intros [] s4 Hs4.
    apply wps_bind, wps_mono with (Q := λ _ s', settled s').
    { destruct (m_next_cache_cntlr (cf cfg c)) as [n|]; [|by apply wps_ret]. apply wps_Prefetch; [lia|done|done]. }
    intros b s5 Hs5. apply wps_when; intros _; [|by apply HQ]. apply wps_settled_calm; [unfold return_to_core; calm|done|intros []; apply HQ].
Qed.

(** ** Messages of the directory *)

(** The last-level cache changes a line, and its subtree with it. *)
Lemma wps_update_root c a st reason out s (Q : Z * bool * option bytes → state → Prop) :
  settled s → aligned k a → target E st → next_of cfg c = None →
  (∀ d, out = Some d → is_Some (lstate s (cache_of cfg c) (blk k a)) → length d = Z.to_nat (2 ^ k) ∧ st ≠ CacheState.MODIFIED) →
  (∀ r s', settled s' → Q r s') → wps E (updateCacheBlock cfg (levels cfg) c a st reason out) s Q.
Proof using T Hcoh Hwt HE.
  intros [Hs Hi] Ha Hst Hroot Hout HQ.
  apply (wps_updateCacheBlock cfg geo k undo LI T E Hcoh); [apply Hs|done|done| |apply (tree_levels _ _ _ _ _ T)|].
  - apply (climbs_ready cfg geo k undo T E Hwt); [by apply inclusive_climbs|intros m; by apply so_alive, Hs|by right; apply HE|].
    intros d Hd. destruct (lstate s (cache_of cfg c) (blk k a)) eqn:El; [by apply Hout; [|eexists]|by apply HE].
  - intros lat hit out' s' Hs' _. apply HQ. split.
    + eapply subtrees_sound; [exact Hs|exact Hst|exact Hs'|].
      intros x. destruct (below_dec cfg T (cache_of cfg c) x); [left; eauto|right; by intros (? & -> & ?)].
    + intros t. eapply (subtree_inclusive cfg geo k undo LI T E); [apply Hi|exact Hs'|done|]. intros _ _ n x Hn. congruence.
Qed.

(** A reply brings a line to the last level. *)
Lemma wps_insert_root c a cst data req th s (Q : option Cache.loc → state → Prop) :
  settled s → aligned k a → fillable cst → next_of cfg c = None → (∀ p s', settled s' → Q p s') →
  wps E (insertCacheBlock cfg c a cst data req th) s Q.
Proof using T Hcoh Hwt HE HP HTP HTD.
  intros Hs Ha Hst Hroot HQ. pose proof (settled_opened nowhere s a Hs ltac:(done)) as Ho.
  destruct (lstate s (cache_of cfg c) (blk k a)) as [x|] eqn:Ex.
  - unfold insertCacheBlock. apply wps_bind, (wps_getCacheState cfg geo k undo LI T E); [apply Hs|apply Ha|]. rewrite Ex. cbn [default from_option id].
    apply wps_bind. rewrite bool_decide_false; [by apply wps_fail, HE|]. intros ->. by eapply so_alive; [apply Hs|].
  - eapply (wps_insertCacheBlock nowhere nowhere); [exact Ho|done|done|by left|by intros m []| | |].
    + intros p y Hp. by rewrite (opened_children_none nowhere s c a p Ho (λ F, F) Ex Hp).
    + intros m p Hp Ep. destruct (tree_prev _ _ _ _ _ T m p Hp) as (n & Hn & _).
      pose proof (tree_same _ _ _ _ _ T _ _ Ep) as Hsame. by rewrite Hn, Hroot in Hsame.
    + intros p s' Ho' _. apply HQ. by eapply opened_nowhere.
Qed.

Lemma Calm_update_msg_perf c msg x : Calm (update_msg_perf cfg c msg x).
Proof using HE HP. unfold update_msg_perf, sim_time. calm. Qed.
Lemma Calm_reply c z msg ty d : Calm (reply cfg c z msg ty d).
Proof using HE HP. apply Calm_sendMsg. Qed.
#[local] Hint Resolve Calm_update_msg_perf Calm_reply : calm.

(** The data of messages are whole lines. *)
Definition msg_ok (msg : ShmemMsg.t) : Prop :=
  aligned k (ShmemMsg.m_address msg) ∧ ShmemMsg.m_where msg ≠ HitWhere.MISS.

Lemma wps_process c sender requester msg s (Q : unit → state → Prop) :
  settled s → aligned k (ShmemMsg.m_address msg) → next_of cfg c = None → (∀ s', settled s' → Q tt s') →
  wps E match ShmemMsg.m_msg_type msg with
        | ShmemMsg.EX_REP => processExRepFromDramDirectory cfg c requester msg
        | ShmemMsg.SH_REP => processShRepFromDramDirectory cfg c requester msg
        | ShmemMsg.UPGRADE_REP => processUpgradeRepFromDramDirectory cfg c msg
        | ShmemMsg.INV_REQ => processInvReqFromDramDirectory cfg c sender msg
        | ShmemMsg.FLUSH_REQ => processFlushReqFromDramDirectory cfg c sender msg
        | ShmemMsg.WB_REQ => processWbReqFromDramDirectory cfg c sender msg
        | _ => fail LogError
        end s Q.
Proof using T Hcoh Hwt HE HP HTP HTD.
  intros Hs Ha Hroot HQ. pose proof (tree_buf _ _ _ _ _ T) as Hbuf.
  assert (∀ s0 (m : M state unit), settled s0 → Calm m → wps E m s0 Q) as Hend.
  { intros s0 m Hs0 Hm. apply wps_settled_calm; [done|done|intros []; apply HQ]. }
  destruct (ShmemMsg.m_msg_type msg); try (by apply wps_fail, HE).
  - (* INV_REQ *)
    apply wps_bind, wps_settled_calm; [calm|done|]. intros x s1 Hs1. case_bool_decide; [by apply Hend; [|calm]|].
    apply wps_bind, wps_settled_calm; [calm|done|]. intros [] s2 Hs2.
    apply wps_bind, wps_settled_calm; [calm|done|]. intros [] s3 Hs3.
    apply wps_bind, wps_update_root; [done|done|by left|done|done|]. intros r s4 Hs4. by apply Hend; [|calm].
  - (* FLUSH_REQ *)
    apply wps_bind, wps_settled_calm; [calm|done|]. intros x s1 Hs1. case_bool_decide; [by apply Hend; [|calm]|].
    apply wps_bind, wps_settled_calm; [calm|done|]. intros [] s2 Hs2.
    apply wps_bind, wps_settled_calm; [calm|done|]. intros [] s3 Hs3.
    apply wps_bind, wps_update_root; [done|done|by left|done|by intros d [= <-]|]. intros [[lat hit] d] s4 Hs4. by apply Hend; [|calm].
  - (* WB_REQ *)
    apply wps_bind, wps_settled_calm; [calm|done|]. intros x s1 Hs1. case_bool_decide; [by apply Hend; [|calm]|].
    apply wps_bind, wps_settled_calm; [calm|done|]. intros [] s2 Hs2.
    apply wps_bind, wps_settled_calm; [calm|done|]. intros [] s3 Hs3.
    apply wps_bind, wps_mono with (Q := λ _ s', settled s').
    { case_bool_decide; [by apply wps_ret|]. apply wps_bind, wps_update_root; [done|done|by right; left|done|by intros d [= <-]|].
      intros [[lat hit] d] s4 Hs4. by apply wps_ret. }
    intros d s4 Hs4. by apply Hend; [|calm].
  - (* EX_REP *)
    apply wps_bind, wps_settled_calm; [unfold msg_data; calm|done|]. intros d s1 Hs1.
    apply wps_bind, wps_insert_root; [done|done|by right; left|done|]. intros p s2 Hs2. by apply wps_ret, HQ.
  - (* SH_REP *)
    apply wps_bind, wps_settled_calm; [unfold msg_data; calm|done|]. intros d s1 Hs1.
    apply wps_bind, wps_insert_root; [done|done|by left|done|]. intros p s2 Hs2. by apply wps_ret, HQ.
  - (* UPGRADE_REP *)
    apply wps_bind, (wps_getCacheState cfg geo k undo LI T E); [apply Hs|apply Ha|].
    destruct (lstate s (cache_of cfg c) (blk k (ShmemMsg.m_address msg))) as [x|] eqn:Ex; cbn [default from_option id].
    + assert (x ≠ CacheState.INVALID) as Hx by (intros ->; by eapply so_alive; [apply Hs|]).
      destruct x; try (by apply wps_fail, HE); [done|].
      apply wps_bind, wps_update_root; [done|done|by right; right; left|done|done|]. intros r s1 Hs1. by apply wps_ret, HQ.
    + apply wps_bind, wps_calm; [unfold msg_data; calm|apply Hs|]. intros d s1 Hs1.
      apply wps_bind, wps_calm; [apply Calm_assert|apply Hs1|]. intros [] s2 Hs2.
      apply wps_bind, wps_update_root; [exact (calm_settled _ _ Hs2 (calm_settled _ _ Hs1 Hs))|done|by right; right; left|done| |].
      { intros d' _. rewrite (ca_lines _ _ Hs2), (ca_lines _ _ Hs1), Ex. by intros [? [=]]. }
      intros r s3 Hs3. by apply wps_ret, HQ.
Qed.

(** Those that wait for a line are resumed. *)
Lemma wps_wake_waiters fuel c a w s (Q : unit → state → Prop) :
  E NoFuel → settled s → aligned k a → next_of cfg c = None → w ≠ HitWhere.MISS → (∀ s', settled s' → Q tt s') →
  wps E (wake_waiters cfg fuel c a w) s Q.
Proof using T Hcoh Hwt HE HP HTP HTD HPL Hplain Hwhere.
  intros HE0 Hs Ha Hroot Hw HQ. revert s Hs. induction fuel as [|fuel IH]; intros s Hs; [by apply wps_fail|]. cbn [wake_waiters].
  apply wps_bind, wps_master. case_match; [by apply wps_ret, HQ|].
  apply wps_bind, wps_settled_calm; [calm|done|]. intros request s1 Hs1.
  apply wps_bind, wps_gets, wps_bind, wps_settled_calm; [calm|done|]. intros [] s2 Hs2.
  apply wps_bind, wps_settled_calm; [calm|done|]. intros x s3 Hs3. case_match.
  { apply wps_upgrade_request; [apply Hs3|done|done|]. intros s' _ Hs'. by apply HQ, Hs'. }
  apply wps_bind, wps_settled_calm; [calm|done|]. intros [] s4 Hs4.
  apply wps_bind, wps_gets, wps_bind, wps_settled_calm; [calm|done|]. intros [] s5 Hs5.
  apply wps_bind, wps_settled_calm; [by apply Calm_updateUncore|done|]. intros [] s6 Hs6.
  apply wps_bind, wps_resume; [done|]. intros s7 Hs7. apply wps_bind, wps_gets.
  apply wps_bind, wps_settled_calm; [calm|done|]. intros [] s8 Hs8.
  apply wps_bind, wps_settled_calm; [apply Calm_cleanupMshr|done|]. intros [] s9 Hs9.
  apply wps_bind, wps_master, wps_bind, wps_settled_calm; [calm|done|]. intros [y q] s10 Hs10.
  apply wps_bind, wps_settled_calm; [calm|done|]. intros [] s11 Hs11. by apply IH.
Qed.

Lemma wps_handleMsg fuel c sender msg s (Q : unit → state → Prop) :
  E NoFuel → settled s → msg_ok msg → next_of cfg c = None → (∀ s', settled s' → Q tt s') →
  wps E (handleMsgFromDramDirectory cfg fuel c sender msg) s Q.
Proof using T Hcoh Hwt HE HP HTP HTD HPL Hplain Hwhere.
  intros HE0 Hs [Ha Hw] Hroot HQ. unfold handleMsgFromDramDirectory.
  apply wps_bind, wps_settled_calm; [calm|done|]. intros requester s1 Hs1.
  apply wps_bind. eapply wps_mono; [apply (wps_process c sender requester msg s1 (λ _ s', settled s')); done|].
  intros [] s2 Hs2. apply wps_when; intros _; [|by apply HQ]. by apply wps_wake_waiters.
Qed.
End accesses.
