(* ===== verification/Parts.v ===== *)
(** What the parts that a platform plugs into its caches promise: the prefetchers
    ([Accesses.PrefetcherLaws]), the memory controllers ([Accesses.TotalDram]), and the TLBs
    and tag directories. *)
From S2P Require Import Prelude Utils Timing QueueModels BlockInfo AddressMap Replacement CacheModel ShmemMsg Nuca Memory.
From S2P Require Import TlbAtd Prefetchers Hierarchy Accesses.

(** ** Memory controllers *)

(** A performance model that does not run out of fuel. *)
Class TotalPerf (D : Type) `{DramPerfModel D} : Prop :=
  perf_fuel : ∀ (d : D) t n r a p, getAccessLatency d t n r a p ≠ Err NoFuel.
#[export] Hint Resolve perf_fuel : picl.

Section memory.
Context {Q : Type} `{HQ : TotalQueue Q}.

Lemma rounded_fuel b n : ComponentBandwidth.getRoundedLatency b n ≠ Err NoFuel.
Proof. unfold ComponentBandwidth.getRoundedLatency. no_fuel. Qed.
Lemma perf_update_fuel p t w : perf_update_time p t w ≠ Err NoFuel.
Proof. unfold perf_update_time. no_fuel. Qed.
Hint Resolve rounded_fuel perf_update_fuel : picl.
Lemma attribute_fuel p a b c d : attribute_access p a b c d ≠ Err NoFuel.
Proof. unfold attribute_access. no_fuel. Qed.
Lemma queue_delay_fuel (q : option Q) t p r : queue_delay_of q t p r ≠ Err NoFuel.
Proof using HQ. unfold queue_delay_of. no_fuel. Qed.
Hint Resolve attribute_fuel queue_delay_fuel : picl.

#[export] Instance constant_total : TotalPerf (PerfModelConstant.t Q).
Proof using HQ. intros d t n r a p. unfold getAccessLatency, PerfModelConstant.model, PerfModelConstant.getAccessLatency. no_fuel. Qed.
#[export] Instance readwrite_total : TotalPerf (PerfModelReadWrite.t Q).
Proof using HQ.
  intros d t n r a p. unfold getAccessLatency, PerfModelReadWrite.model, PerfModelReadWrite.getAccessLatency,
    PerfModelReadWrite.access_queues, PerfModelReadWrite.write_queue. no_fuel.
Qed.
End memory.

Section controllers.
Context {D : Type} `{HD : TotalPerf D}.

Lemma run_perf_fuel (m : DramCntlr.t D) r t a ty p : DramCntlr.runDramPerfModel m r t a ty p ≠ Err NoFuel.
Proof using HD. apply perf_fuel. Qed.
Hint Resolve run_perf_fuel : picl.

#[export] Instance dram_total : TotalDram (DramCntlr.t D).
Proof using HD.
  split.
  - intros d a r buf t p. unfold getDataFromDram, DramCntlr.interface, DramCntlr.getDataFromDram. no_fuel.
  - intros d a r buf t p lat w buf' p' d'. unfold getDataFromDram, DramCntlr.interface, DramCntlr.getDataFromDram.
    case_match. intros E. apply rbind_ok in E as ([[x1 x2] x3] & _ & E). by injection E as <- <- <- <- <-.
  - intros d a r buf t. unfold putDataToDram, DramCntlr.interface, DramCntlr.putDataToDram. no_fuel.
Qed.

#[export] Instance nvm_total : TotalDram (NvmCntlr.t D).
Proof using HD.
  split.
  - intros d a r buf t p. unfold getDataFromDram, NvmCntlr.interface, NvmCntlr.getDataFromDram. no_fuel.
    exact (get_dram_fuel (NvmCntlr.dram d) a r buf t p).
  - intros d a r buf t p lat w buf' p' d'. unfold getDataFromDram, NvmCntlr.interface, NvmCntlr.getDataFromDram.
    intros E. apply rbind_ok in E as ([[[[lat1 w1] buf1] p1] d1] & E1 & E2). injection E2 as <- <- <- <- <-.
    exact (get_dram_where (NvmCntlr.dram d) a r buf t p lat1 w1 buf1 p1 d1 E1).
  - intros d a r buf t. unfold putDataToDram, NvmCntlr.interface, NvmCntlr.putDataToDram. no_fuel.
Qed.
End controllers.

(** ** Prefetchers

    Addresses, strides and deltas of lines are multiples of the line size, whatever the
    width they are computed in. *)
Section lines.
Context (k : Z) (Hk : 1 ≤ k < 32).
Definition of_lines (x : Z) : Prop := (2 ^ k | x).

Lemma of_lines_add x y : of_lines x → of_lines y → of_lines (x + y).
Proof. apply Z.divide_add_r. Qed.
Lemma of_lines_sub x y : of_lines x → of_lines y → of_lines (x - y).
Proof. apply Z.divide_sub_r. Qed.
Lemma of_lines_mul x y : of_lines x → of_lines (y * x).
Proof. apply Z.divide_mul_r. Qed.
Lemma of_lines_0 : of_lines 0.
Proof. apply Z.divide_0_r. Qed.
Lemma of_lines_pow w : k ≤ w → of_lines (2 ^ w).
Proof using Hk. intros Hw. exists (2 ^ (w - k)). rewrite <- Z.pow_add_r by lia. f_equal. lia. Qed.
Lemma of_lines_mod w x : k ≤ w → of_lines x → of_lines (x `mod` 2 ^ w).
Proof using Hk.
  intros Hw Hx. rewrite Z.mod_eq by (apply Z.pow_nonzero; lia). apply of_lines_sub; [done|].
  rewrite Z.mul_comm. apply of_lines_mul. by apply of_lines_pow.
Qed.
Lemma of_lines_u64 x : of_lines x → of_lines (u64 x).
Proof using Hk. apply of_lines_mod. lia. Qed.
Lemma of_lines_u32 x : of_lines x → of_lines (u32 x).
Proof using Hk. apply of_lines_mod. lia. Qed.
Lemma of_lines_s64 x : of_lines x → of_lines (s64 x).
Proof using Hk.
  intros Hx. unfold s64. apply of_lines_sub; [|apply of_lines_pow; lia]. apply of_lines_mod; [lia|].
  apply of_lines_add; [done|apply of_lines_pow; lia].
Qed.

Lemma aligned_of_lines a : aligned k a ↔ in_u64 a ∧ of_lines a.
Proof using Hk. unfold aligned, of_lines. rewrite Z.mod_divide by (apply Z.pow_nonzero; lia). done. Qed.
Lemma aligned_u64 x : of_lines x → aligned k (u64 x).
Proof using Hk. intros Hx. apply aligned_of_lines. split; [apply u64_range|by apply of_lines_u64]. Qed.

Hint Resolve of_lines_add of_lines_sub of_lines_mul of_lines_0 of_lines_u64 of_lines_u32 of_lines_s64 aligned_u64 : picl.

(** *** Strides *)

Lemma strides_lines stop a d i n : of_lines a → of_lines d → Forall (aligned k) (SimplePrefetcher.strides stop a d i n).
Proof using Hk.
  intros Ha Hd. revert i. induction n as [|n IH]; intros i; [constructor|]. cbn. case_match; [constructor|]; auto with picl.
Qed.

Definition simple_inv (p : SimplePrefetcher.t) : Prop := Forall (Forall of_lines) (SimplePrefetcher.m_prev_address p).

Lemma simple_lines p a c l p' :
  simple_inv p → aligned k a → SimplePrefetcher.getNextAddress p a c = Ok (l, p') → simple_inv p' ∧ Forall (aligned k) l.
Proof using Hk.
  intros Hp [Ha Hl]%aligned_of_lines E. unfold SimplePrefetcher.getNextAddress in E. inv_ok.
  match goal with H : SimplePrefetcher.m_prev_address p !! _ = Some ?fl |- _ => pose proof (proj1 (Forall_lookup _ _) Hp _ _ H) as Hfl end.
  match goal with H : _ !! Z.to_nat (SimplePrefetcher.nearest _ _ _ _ _) = Some ?x |- _ => pose proof (proj1 (Forall_lookup _ _) Hfl _ _ H) as Hprev end.
  split; [unfold simple_inv; cbn; apply Forall_insert; [done|by apply Forall_insert]|].
  match goal with |- Forall _ (if ?b then _ else _) => destruct b end; [|constructor]. apply strides_lines; auto with picl.
Qed.

(** *** The history buffer *)

Import GhbPrefetcher.

Definition index_ok (p : t) (i : Z) : Prop := 0 ≤ i < m_ghbSize p.

(** Sizes and indices in range; deltas are of lines, or invalid. *)
Record ghb_wf (p : t) : Prop := {
  gw_size : 0 < m_ghbSize p < 2 ^ 32 ∧ length (m_ghb p) = Z.to_nat (m_ghbSize p) ∧ index_ok p (m_ghbHead p);
  gw_table_size : 0 < m_tableSize p < 2 ^ 32 ∧ length (m_ghbTable p) = Z.to_nat (m_tableSize p) ∧
    0 ≤ m_tableHead p < m_tableSize p;
  gw_last : m_lastAddress p = INVALID_ADDRESS ∨ of_lines (m_lastAddress p);
  gw_ghb : Forall (λ e, (nextIndex e = INVALID_INDEX ∨ index_ok p (nextIndex e)) ∧
                        (delta e = INVALID_DELTA ∨ of_lines (delta e))) (m_ghb p);
  gw_table : Forall (λ e, t_delta e = INVALID_DELTA ∨ index_ok p (ghbIndex e)) (m_ghbTable p);
}.

Lemma valid_delta d : of_lines d → d ≠ INVALID_DELTA.
Proof using Hk.
  intros [q ->] E. apply (f_equal Z.odd) in E. rewrite Z.odd_mul, Z.odd_pow in E by lia. by rewrite andb_comm in E.
Qed.

Lemma ghb_at_ok p i : ghb_wf p → index_ok p i → ∃ e, ghb_at p i = Ok e ∧ e ∈ m_ghb p.
Proof using Type.
  intros Hp [H0 Hi]. destruct (gw_size _ Hp) as (_ & Hlen & _).
  destruct (lookup_lt_is_Some_2 (m_ghb p) (Z.to_nat i)) as [e He]; [lia|].
  exists e. split; [by apply arr_get_ok|by eapply list_elem_of_lookup_2].
Qed.

Lemma ghb_entry p e : ghb_wf p → e ∈ m_ghb p →
  (nextIndex e = INVALID_INDEX ∨ index_ok p (nextIndex e)) ∧ (delta e = INVALID_DELTA ∨ of_lines (delta e)).
Proof using Type. intros Hp He. exact (proj1 (Forall_forall _ _) (gw_ghb _ Hp) e He). Qed.

Lemma find_delta_range d i l : i ≤ find_delta d i l ≤ i + Z.of_nat (length l).
Proof using Type.
  revert i. induction l as [|e l IH]; intros i; cbn [find_delta length]; [lia|]. specialize (IH (i + 1)). case_match; lia.
Qed.

Lemma lookup_delta_ok p d : ghb_wf p → d ≠ INVALID_DELTA →
  ∃ r, lookup_delta p d = Ok r ∧
    match r with
    | Some (i, e) => 0 ≤ i < m_tableSize p ∧ t_delta e = d ∧ index_ok p (ghbIndex e)
    | None => True
    end.
Proof using Type.
  intros Hp Hd. unfold lookup_delta. destruct (gw_table_size _ Hp) as ([H0 _] & Hlen & _).
  pose proof (find_delta_range d 0 (m_ghbTable p)) as Hr. cbv zeta.
  set (i := find_delta d 0 (m_ghbTable p)) in *.
  destruct (Z.eqb_spec i (m_tableSize p)) as [|Hi]; [by exists None|].
  destruct (lookup_lt_is_Some_2 (m_ghbTable p) (Z.to_nat i)) as [e He]; [lia|].
  rewrite (proj2 (arr_get_ok _ _ _) He). cbn [rbind]. eexists. split; [done|].
  destruct (Z.eqb_spec (t_delta e) d) as [Ed|]; [|done].
  split; [lia|]. split; [done|]. destruct (proj1 (Forall_lookup _ _) (gw_table _ Hp) _ _ He) as [Ei|]; [|done].
  by rewrite Ei in Ed.
Qed.

(** The list of prefetches: distinct lines. *)
Definition lines_list (n : nat) (l : list Z) : Prop := Forall (aligned k) l ∧ NoDup l ∧ (length l ≤ n)%nat.

Lemma lines_push n l x : lines_list n l → of_lines x → lines_list (S n) (push_new l (u64 x)).
Proof using Hk.
  intros (Ha & Hn & Hl) Hx. unfold push_new. case_bool_decide as Hin; [split_and!; [done|done|lia]|].
  split_and!.
  - apply Forall_app. split; [done|]. constructor; [by apply aligned_u64|constructor].
  - apply NoDup_app. split_and!; [done| |apply NoDup_singleton]. intros y Hy Hy'. apply list_elem_of_singleton in Hy'. by subst.
  - rewrite length_app. cbn. lia.
Qed.

Lemma walk_depth_ok p i x depth n m l : ghb_wf p → of_lines x → lines_list m l →
  ∃ l', walk_depth p i x depth n l = Ok l' ∧ lines_list (m + n) l'.
Proof using Hk.
  intros Hp. revert x depth m l. induction n as [|n IH]; intros x depth m l Hx Hl; cbn [walk_depth].
  { exists l. by rewrite Nat.add_0_r. }
  destruct (gw_size _ Hp) as ([H0 H1] & _). unfold umod.
  destruct (Z.eqb_spec (m_ghbSize p) 0); [lia|]. cbn [rbind].
  destruct (ghb_at_ok p (u32 (i + depth) `mod` m_ghbSize p) Hp) as (e & -> & He); [by apply Z.mod_pos_bound|]. cbn [rbind].
  destruct (ghb_entry p e Hp He) as [_ Hd]. destruct (Z.eqb_spec (delta e) INVALID_DELTA) as [|Hne].
  { exists l. split; [done|]. destruct Hl as (? & ? & ?). split_and!; [done|done|lia]. }
  destruct Hd as [|Hd]; [done|]. replace (m + S n)%nat with (S m + n)%nat by lia.
  apply IH; [auto with picl|apply lines_push; auto with picl].
Qed.

Lemma walk_width_ok p a i n m l : ghb_wf p → of_lines a → (i = INVALID_INDEX ∨ index_ok p i) → lines_list m l →
  ∃ l', walk_width p a i n l = Ok l' ∧ lines_list (m + n * Z.to_nat (m_prefetchDepth p)) l'.
Proof using Hk.
  intros Hp Ha. revert i m l. induction n as [|n IH]; intros i m l Hi Hl; cbn [walk_width].
  { exists l. by rewrite Nat.mul_0_l, Nat.add_0_r. }
  destruct (Z.eqb_spec i INVALID_INDEX) as [|Hne].
  { exists l. split; [done|]. destruct Hl as (? & ? & ?). split_and!; [done|done|lia]. }
  destruct Hi as [|Hi]; [done|].
  destruct (walk_depth_ok p i a 0 (Z.to_nat (m_prefetchDepth p)) m l Hp Ha Hl) as (l1 & -> & Hl1). cbn [rbind].
  destruct (ghb_at_ok p i Hp Hi) as (e & -> & He). cbn [rbind]. destruct (ghb_entry p e Hp He) as [Hnext _].
  replace (m + S n * Z.to_nat (m_prefetchDepth p))%nat
    with ((m + Z.to_nat (m_prefetchDepth p)) + n * Z.to_nat (m_prefetchDepth p))%nat by lia.
  apply IH; [|done]. case_match; [by left|done].
Qed.

Lemma predict_ok p a d : ghb_wf p → of_lines a → d ≠ INVALID_DELTA →
  ∃ l, predict p a d = Ok l ∧ lines_list (Z.to_nat (m_prefetchWidth p) * Z.to_nat (m_prefetchDepth p)) l.
Proof using Hk.
  intros Hp Ha Hd. assert (∀ n, lines_list n []) as Hnil by (intros n; split_and!; [constructor|constructor|cbn; lia]).
  unfold predict. destruct (lookup_delta_ok p d Hp Hd) as (r & -> & Hr). cbn [rbind].
  destruct r as [[i e]|]; [|by exists []]. destruct Hr as (_ & _ & Hi).
  destruct (ghb_at_ok p (ghbIndex e) Hp Hi) as (g & -> & _). cbn [rbind]. case_match; [|by exists []].
  destruct (walk_width_ok p a (ghbIndex e) (Z.to_nat (m_prefetchWidth p)) 0 [] Hp Ha) as (l & E & Hl); [by right|done|].
  exists l. by split.
Qed.

(** *** Updates of the history buffer *)

Lemma ghb_insert p i e : ghb_wf p → index_ok p i →
  (nextIndex e = INVALID_INDEX ∨ index_ok p (nextIndex e)) → of_lines (delta e) →
  arr_set (m_ghb p) (Z.to_nat i) e = Ok (<[Z.to_nat i := e]> (m_ghb p)) ∧ ghb_wf (set_ghb p (<[Z.to_nat i := e]> (m_ghb p))).
Proof using Type.
  intros [H1 H2 H3 H4 H5] [Hi0 Hi] Hn Hd. split.
  - apply arr_set_ok. split; [|done]. destruct H1 as (_ & Hlen & _). lia.
  - split; cbn; [by rewrite length_insert|done|done| |done]. apply Forall_insert; [exact H4|]. split; [done|by right].
Qed.

Lemma table_insert p i e head : ghb_wf p → 0 ≤ i < m_tableSize p → index_ok p (ghbIndex e) → 0 ≤ head < m_tableSize p →
  arr_set (m_ghbTable p) (Z.to_nat i) e = Ok (<[Z.to_nat i := e]> (m_ghbTable p)) ∧
  ghb_wf (set_table p head (<[Z.to_nat i := e]> (m_ghbTable p))).
Proof using Type.
  intros [H1 H2 H3 H4 H5] Hi He Hh. split.
  - apply arr_set_ok. split; [|done]. destruct H2 as (_ & Hlen & _). lia.
  - split; cbn; [done| |done|done|].
    + rewrite length_insert. destruct H2 as (? & ? & _). done.
    + apply Forall_insert; [exact H5|by right].
Qed.

Lemma head_advance p g : ghb_wf p →
  let head := u32 (m_ghbHead p + 1) in
  ghb_wf (if head =? m_ghbSize p then set_head p 0 g else set_head p head (m_generation p)).
Proof using Type.
  intros [(H0 & Hlen & Hh) H2 H3 H4 H5] head. unfold index_ok in Hh.
  assert (head = m_ghbHead p + 1) as Eh by (unfold head; apply u32_small; rlia).
  destruct (Z.eqb_spec head (m_ghbSize p)); (split; [|exact H2|exact H3|exact H4|exact H5]);
    (split; [done|]); (split; [done|]); unfold index_ok; cbn; lia.
Qed.

(** The entry of the table for the delta before [d]. *)
Lemma record_table p d pd : ghb_wf p → of_lines d → pd ≠ INVALID_DELTA →
  ∃ p', (let! found := lookup_delta p pd in
         match found with
         | Some (i, e) =>
             let! g := ghb_at p (ghbIndex e) in
             let! l := arr_set (m_ghb p) (Z.to_nat (m_ghbHead p))
                         (mk_ghb (if t_generation e =? generation g then ghbIndex e else INVALID_INDEX) d (m_generation p)) in
             let! tb := arr_set (m_ghbTable p) (Z.to_nat i) (mk_table (m_ghbHead p) (t_delta e) (m_generation p)) in
             Ok (set_table (set_ghb p l) (m_tableHead p) tb)
         | None =>
             let! tb := arr_set (m_ghbTable p) (Z.to_nat (m_tableHead p)) (mk_table (m_ghbHead p) pd (m_generation p)) in
             let! head := umod (u32 (m_tableHead p + 1)) (m_tableSize p) in
             Ok (set_table p head tb)
         end) = Ok p' ∧ ghb_wf p'.
Proof using Type.
  intros Hp Hd Hpd. destruct (lookup_delta_ok p pd Hp Hpd) as (r & -> & Hr). cbn [rbind].
  pose proof (gw_size _ Hp) as (_ & _ & Hhead). pose proof (gw_table_size _ Hp) as (Hts & _ & Hth).
  destruct r as [[i e]|].
  - destruct Hr as (Hi & _ & He). destruct (ghb_at_ok p (ghbIndex e) Hp He) as (g & -> & _). cbn [rbind].
    destruct (ghb_insert p (m_ghbHead p)
      (mk_ghb (if t_generation e =? generation g then ghbIndex e else INVALID_INDEX) d (m_generation p)) Hp Hhead)
      as [-> Hp1]; [cbn; case_match; [by right|by left]|done|]. cbn [rbind].
    destruct (table_insert _ i (mk_table (m_ghbHead p) (t_delta e) (m_generation p)) (m_tableHead p) Hp1 Hi Hhead Hth) as [E Hp2].
    cbn [m_ghbTable set_ghb] in E. rewrite E. cbn [rbind]. eexists. by split.
  - unfold umod. destruct (Z.eqb_spec (m_tableSize p) 0); [lia|].
    destruct (table_insert p (m_tableHead p) (mk_table (m_ghbHead p) pd (m_generation p))
                (u32 (m_tableHead p + 1) `mod` m_tableSize p) Hp Hth Hhead) as [-> Hp1]; [apply Z.mod_pos_bound; lia|].
    cbn [rbind]. eexists. by split.
Qed.

Lemma record_delta_ok p d : ghb_wf p → of_lines d → ∃ p', record_delta p d = Ok p' ∧ ghb_wf p'.
Proof using Hk.
  intros Hp Hd. unfold record_delta. pose proof (gw_size _ Hp) as (Hs & _ & Hhead).
  destruct (ghb_insert p (m_ghbHead p) (mk_ghb INVALID_INDEX d (m_generation p)) Hp Hhead) as [-> Hp1]; [by left|done|].
  cbn [rbind]. cbv zeta. set (p1 := set_ghb p _) in *.
  assert (index_ok p1 (if m_ghbHead p1 >? 0 then m_ghbHead p1 - 1 else u32 (m_ghbSize p1 - 1))) as Hprev.
  { unfold index_ok in *. cbn. destruct (Z.gtb_spec (m_ghbHead p) 0); [lia|]. rewrite u32_small by rlia. lia. }
  destruct (ghb_at_ok p1 _ Hp1 Hprev) as (e & -> & He). cbn [rbind].
  assert (∃ p2, (if delta e =? INVALID_DELTA then Ok p1 else
       let! found := lookup_delta p1 (delta e) in
       match found with
       | Some (i, e) =>
           let! g := ghb_at p1 (ghbIndex e) in
           let! l := arr_set (m_ghb p1) (Z.to_nat (m_ghbHead p1))
                       (mk_ghb (if t_generation e =? generation g then ghbIndex e else INVALID_INDEX) d (m_generation p1)) in
           let! tb := arr_set (m_ghbTable p1) (Z.to_nat i) (mk_table (m_ghbHead p1) (t_delta e) (m_generation p1)) in
           Ok (set_table (set_ghb p1 l) (m_tableHead p1) tb)
       | None =>
           let! tb := arr_set (m_ghbTable p1) (Z.to_nat (m_tableHead p1)) (mk_table (m_ghbHead p1) (delta e) (m_generation p1)) in
           let! head := umod (u32 (m_tableHead p1 + 1)) (m_tableSize p1) in
           Ok (set_table p1 head tb)
       end) = Ok p2 ∧ ghb_wf p2) as (p2 & -> & Hp2).
  { destruct (Z.eqb_spec (delta e) INVALID_DELTA); [by exists p1|]. by apply record_table. }
  cbn [rbind]. eexists. split; [done|]. by apply head_advance.
Qed.

Lemma record_delta_same p d p' : record_delta p d = Ok p' →
  m_prefetchWidth p' = m_prefetchWidth p ∧ m_prefetchDepth p' = m_prefetchDepth p.
Proof using Type.
  unfold record_delta. intros E. apply rbind_ok in E as (l & _ & E). apply rbind_ok in E as (e & _ & E).
  apply rbind_ok in E as (p2 & E2 & [= <-]). assert (m_prefetchWidth p2 = m_prefetchWidth p ∧ m_prefetchDepth p2 = m_prefetchDepth p).
  { case_match; [by injection E2 as <-|]. apply rbind_ok in E2 as ([[i x]|] & _ & E2).
    - apply rbind_ok in E2 as (? & _ & E2). apply rbind_ok in E2 as (? & _ & E2). by apply rbind_ok in E2 as (? & _ & [= <-]).
    - apply rbind_ok in E2 as (? & _ & E2). by apply rbind_ok in E2 as (? & _ & [= <-]). }
  by destruct (u32 (m_ghbHead p2 + 1) =? m_ghbSize p2).
Qed.

Lemma ghb_next p a c : ghb_wf p → aligned k a →
  ∃ l p', getNextAddress p a c = Ok (l, p') ∧ ghb_wf p' ∧
    lines_list (Z.to_nat (m_prefetchWidth p) * Z.to_nat (m_prefetchDepth p)) l ∧
    m_prefetchWidth p' = m_prefetchWidth p ∧ m_prefetchDepth p' = m_prefetchDepth p.
Proof using Hk.
  intros Hp [Hu Ha]%aligned_of_lines. unfold getNextAddress.
  assert (ghb_wf (set_last p a)) as Hp1 by (destruct Hp; split; try done; by right).
  destruct (Z.eqb_spec (m_lastAddress p) INVALID_ADDRESS) as [|Hl].
  { eexists _, _. split; [done|]. split_and!; [done| |done|done]. split_and!; [constructor|constructor|cbn; lia]. }
  assert (of_lines (s64 (a - m_lastAddress p))) as Hd.
  { destruct (gw_last _ Hp); [done|]. auto with picl. }
  cbv zeta. destruct (predict_ok (set_last p a) a _ Hp1 Ha (valid_delta _ Hd)) as (l & -> & Hlist). cbn [rbind].
  destruct (record_delta_ok (set_last p a) _ Hp1 Hd) as (p2 & Ep & Hp2). rewrite Ep. cbn [rbind].
  exists l, p2. split_and!; [done|done|exact Hlist|..]; by apply record_delta_same in Ep as [? ?].
Qed.

(** *** The A53 prefetcher *)

Definition a53_inv (p : A53Prefetcher.t) : Prop :=
  of_lines (A53Prefetcher.m_cacheLineSize p) ∧ ∀ prev, A53Prefetcher.prevAddress p = Some prev → of_lines prev.

Lemma ahead_lines a step i n : of_lines a → (∀ i, of_lines (step i)) → Forall (aligned k) (A53Prefetcher.ahead a step i n).
Proof using Hk. intros Ha Hs. revert i. induction n as [|n IH]; intros i; cbn; constructor; auto with picl. Qed.

Lemma a53_lines p a c l p' :
  a53_inv p → aligned k a → A53Prefetcher.getNextAddress p a c = Ok (l, p') → a53_inv p' ∧ Forall (aligned k) l.
Proof using Hk.
  intros [Hs Hp] [_ Ha]%aligned_of_lines. unfold A53Prefetcher.getNextAddress.
  assert (∀ st x y, a53_inv (A53Prefetcher.set p a st x y)) as Hset by (intros; split; [done|by intros ? [= <-]]).
  assert (∀ i, of_lines (u32 (A53Prefetcher.m_cacheLineSize p * i))) as Hup.
  { intros i. rewrite Z.mul_comm. auto with picl. }
  destruct (A53Prefetcher.prevAddress p) as [prev|]; cbv zeta; [|intros [= <- <-]; split; [done|constructor]].
  assert (of_lines (s64 (a - prev))) as Hd by (specialize (Hp prev eq_refl); auto with picl).
  assert (∀ i, of_lines (s64 (s64 (a - prev) * i))) as Hdi by (intros i; rewrite Z.mul_comm; auto with picl).
  repeat (match goal with |- (if ?b then _ else _) = Ok _ → _ => destruct b end); intros [= <- <-];
    (split; [done|]); try match goal with |- Forall _ (if ?b then _ else _) => destruct b end;
    first [by apply ahead_lines | constructor].
Qed.
End lines.

(** The instances; the sizes of the buffers of a platform are positive. *)
Definition simple_laws k (Hk : 1 ≤ k < 32) : PrefetcherLaws k SimplePrefetcher.t.
Proof.
  exists (simple_inv k).
  - intros f a c. unfold getNextAddress, simple_prefetcher, SimplePrefetcher.getNextAddress. no_fuel.
  - intros f a c l f'. by apply simple_lines.
Defined.

Definition a53_laws k (Hk : 1 ≤ k < 32) : PrefetcherLaws k A53Prefetcher.t.
Proof.
  exists (a53_inv k).
  - intros f a c. unfold getNextAddress, a53_prefetcher, A53Prefetcher.getNextAddress. no_fuel.
  - intros f a c l f'. by apply a53_lines.
Defined.

Lemma walk_depth_fuel p i x d n l : GhbPrefetcher.walk_depth p i x d n l ≠ Err NoFuel.
Proof. revert x d l. induction n as [|n IH]; intros x d l; cbn; unfold GhbPrefetcher.ghb_at; no_fuel. Qed.
Lemma walk_width_fuel p a i n l : GhbPrefetcher.walk_width p a i n l ≠ Err NoFuel.
Proof.
  revert i l. induction n as [|n IH]; intros i l; [done|]. cbn [GhbPrefetcher.walk_width]. unfold GhbPrefetcher.ghb_at.
  no_fuel. apply walk_depth_fuel.
Qed.

Definition ghb_laws k (Hk : 1 ≤ k < 32) : PrefetcherLaws k GhbPrefetcher.t.
Proof.
  exists (ghb_wf k).
  - intros f a c. unfold getNextAddress, ghb_prefetcher, GhbPrefetcher.getNextAddress, GhbPrefetcher.predict,
      GhbPrefetcher.record_delta, GhbPrefetcher.lookup_delta, GhbPrefetcher.ghb_at. no_fuel. apply walk_width_fuel.
  - intros f a c l f' Hf Ha E. destruct (ghb_next k Hk f a c Hf Ha) as (l' & p' & E' & Hp' & Hl & _).
    unfold getNextAddress, ghb_prefetcher in E. rewrite E' in E. injection E as <- <-. split; [done|apply Hl].
Defined.

Definition any_laws k (Hk : 1 ≤ k < 32) : PrefetcherLaws k AnyPrefetcher.t.
Proof.
  exists (λ p, match p with
              | AnyPrefetcher.Simple p => simple_inv k p
              | AnyPrefetcher.Ghb p => ghb_wf k p
              | AnyPrefetcher.A53 p => a53_inv k p
              end).
  - intros f a c. pose proof (prefetch_fuel (PrefetcherLaws := simple_laws k Hk)).
    pose proof (prefetch_fuel (PrefetcherLaws := ghb_laws k Hk)). pose proof (prefetch_fuel (PrefetcherLaws := a53_laws k Hk)).
    unfold getNextAddress at 1, any_prefetcher, AnyPrefetcher.getNextAddress. destruct f; no_fuel.
  - intros f a c l f' Hf Ha E. unfold getNextAddress, any_prefetcher, AnyPrefetcher.getNextAddress in E.
    destruct f as [p|p|p]; apply rbind_ok in E as ([l' p'] & E & [= <- <-]).
    + by eapply (prefetch_lines (PrefetcherLaws := simple_laws k Hk)).
    + by eapply (prefetch_lines (PrefetcherLaws := ghb_laws k Hk)).
    + by eapply (prefetch_lines (PrefetcherLaws := a53_laws k Hk)).
Defined.

(** *** What they predict *)

(** The answers to a sequence of questions. *)
Fixpoint ask {F} `{Prefetcher F} (f : F) (l : list Z) : result (list (list Z)) :=
  match l with
  | [] => Ok []
  | a :: l => let! (x, f) := getNextAddress f a 0 in let! xs := ask f l in Ok (x :: xs)
  end.

Lemma ghb_new k width depth size table :
  0 < u32 size → 0 < u32 table → ghb_wf k (GhbPrefetcher.new width depth size table).
Proof.
  intros Hs Ht. pose proof (u32_range size). pose proof (u32_range table).
  split; cbn; [| |by left|..].
  - rewrite length_replicate. unfold index_ok. cbn. split_and!; try done; rlia.
  - rewrite length_replicate. split_and!; try done; rlia.
  - apply Forall_replicate. split; by left.
  - apply Forall_replicate. by left.
Qed.

(** (bounds) The history buffer of the GHB prefetcher: from any configuration with
    room in its buffers, and for any sequence of addresses of lines, no access of its tables
    is out of range, and each question is answered with distinct addresses of lines, at most
    width times depth of them. (Its mark for "no delta", the largest integer, is no delta
    of lines: for addresses of single bytes this fails.) *)
Theorem ghb_in_bounds k width depth size table l :
  1 ≤ k < 32 → 0 < u32 size → 0 < u32 table → Forall (aligned k) l →
  ∃ answers, ask (GhbPrefetcher.new width depth size table) l = Ok answers ∧ length answers = length l ∧
    Forall (λ x, Forall (aligned k) x ∧ NoDup x ∧ (length x ≤ Z.to_nat (u32 width) * Z.to_nat (u32 depth))%nat) answers.
Proof.
  intros Hk Hs Ht Hl. pose proof (ghb_new k width depth size table Hs Ht) as Hwf.
  change (u32 width) with (GhbPrefetcher.m_prefetchWidth (GhbPrefetcher.new width depth size table)).
  change (u32 depth) with (GhbPrefetcher.m_prefetchDepth (GhbPrefetcher.new width depth size table)).
  revert Hwf. generalize (GhbPrefetcher.new width depth size table). clear Hs Ht.
  induction Hl as [|a l Ha _ IH]; intros p Hp; [by exists []|].
  destruct (ghb_next k Hk p a 0 Hp Ha) as (x & p' & E & Hp' & Hx & Ew & Ed). specialize (IH p' Hp').
  rewrite Ew, Ed in IH. destruct IH as (xs & Exs & Hlen & Hxs).
  exists (x :: xs). split.
  { change (rbind (GhbPrefetcher.getNextAddress p a 0) (λ '(x, f), let! xs := ask f l in Ok (x :: xs)) = Ok (x :: xs)).
    rewrite E. cbn [rbind]. by rewrite Exs. }
  split; [cbn; by rewrite Hlen|by constructor].
Qed.

Lemma ghb_in_bounds_witness :
  ∃ answers, ask (GhbPrefetcher.new 2 2 8 4) [64; 128; 256; 320; 448] = Ok answers ∧ length answers = 5%nat.
Proof.
  destruct (ghb_in_bounds 6 2 2 8 4 [64; 128; 256; 320; 448]) as (answers & E & Hlen & _);
    [lia|done|done|repeat constructor; done|].
  exists answers. by split.
Defined.

(** [nearest]: a flow at the least distance from the address, of those on its page or so. *)
Lemma nearest_spec a l i next m :
  let r := SimplePrefetcher.nearest a i next m l in
  (r = next ∧ ∀ x, x ∈ l → m ≤ SimplePrefetcher.distance a x) ∨
  (i ≤ r ∧ ∃ x, l !! Z.to_nat (r - i) = Some x ∧ SimplePrefetcher.distance a x < m ∧
     ∀ y, y ∈ l → SimplePrefetcher.distance a x ≤ SimplePrefetcher.distance a y).
Proof.
  revert i next m. induction l as [|x l IH]; intros i next m; cbn [SimplePrefetcher.nearest]; cbv zeta.
  { left. split; [done|]. by intros y ?%not_elem_of_nil. }
  destruct (Z.ltb_spec (SimplePrefetcher.distance a x) m) as [Hx|Hx].
  - right. destruct (IH (i + 1) i (SimplePrefetcher.distance a x)) as [[-> Hy]|(Hi & y & Hy & Hlt & Hmin)].
    + split; [lia|]. exists x. rewrite Z.sub_diag. split; [done|]. split; [done|]. intros y [->|Hin]%elem_of_cons; [lia|by apply Hy].
    + split; [lia|]. exists y. split; [|split; [lia|intros z [->|Hin]%elem_of_cons; [lia|by apply Hmin]]].
      replace (Z.to_nat _) with (S (Z.to_nat (SimplePrefetcher.nearest a (i + 1) i (SimplePrefetcher.distance a x) l - (i + 1)))) by lia.
      done.
  - destruct (IH (i + 1) next m) as [[-> Hy]|(Hi & y & Hy & Hlt & Hmin)].
    + left. split; [done|]. intros y [->|Hin]%elem_of_cons; [lia|by apply Hy].
    + right. split; [lia|]. exists y. split; [|split; [lia|intros z [->|Hin]%elem_of_cons; [lia|by apply Hmin]]].
      replace (Z.to_nat _) with (S (Z.to_nat (SimplePrefetcher.nearest a (i + 1) next m l - (i + 1)))) by lia.
      done.
Qed.

Lemma strides_spec stop a d i n x : x ∈ SimplePrefetcher.strides stop a d i n ↔
  ∃ j, i ≤ j < i + Z.of_nat n ∧ x = u64 (a + u64 (j * d)) ∧
    (stop = true → Z.land x SimplePrefetcher.PAGE_MASK = Z.land a SimplePrefetcher.PAGE_MASK).
Proof.
  revert i. induction n as [|n IH]; intros i; cbn [SimplePrefetcher.strides].
  { split; [by intros ?%not_elem_of_nil|intros (j & Hj & _); lia]. }
  cbv zeta. set (y := u64 (a + u64 (i * d))).
  assert (x ∈ (if negb stop || (Z.land y SimplePrefetcher.PAGE_MASK =? Z.land a SimplePrefetcher.PAGE_MASK)
               then y :: SimplePrefetcher.strides stop a d (i + 1) n else SimplePrefetcher.strides stop a d (i + 1) n) ↔
    (x = y ∧ (stop = true → Z.land y SimplePrefetcher.PAGE_MASK = Z.land a SimplePrefetcher.PAGE_MASK)) ∨
    x ∈ SimplePrefetcher.strides stop a d (i + 1) n) as ->.
  { destruct stop; cbn [negb orb]; [|rewrite elem_of_cons; naive_solver].
    destruct (Z.eqb_spec (Z.land y SimplePrefetcher.PAGE_MASK) (Z.land a SimplePrefetcher.PAGE_MASK)); rewrite ?elem_of_cons; naive_solver. }
  rewrite IH. split.
  - intros [[-> Hp]|(j & Hj & Hx)]; [exists i|exists j]; (split; [lia|done]).
  - intros (j & Hj & -> & Hp). destruct (decide (j = i)) as [->|]; [by left|right]. exists j. split; [lia|done].
Qed.

(** Where the flows of core [c] are, and what the constructor sets up: as many flows in each
    list as configured, and at least one. *)
Definition slot (p : SimplePrefetcher.t) (c : Z) : Z := if SimplePrefetcher.flows_per_core p then c - SimplePrefetcher.core_id p else 0.
Definition flows_wf (p : SimplePrefetcher.t) : Prop :=
  0 ≤ SimplePrefetcher.n_flow_next p < SimplePrefetcher.n_flows p ∧ SimplePrefetcher.n_flows p < 2 ^ 32 ∧
  Forall (λ l, Z.of_nat (length l) = SimplePrefetcher.n_flows p) (SimplePrefetcher.m_prev_address p).

(** Flow [f] is the one that address [a] continues, [next] being the oldest slot. *)
Definition continues (a : Z) (flows : list Z) (f : nat) (previous next : Z) : Prop :=
  flows !! f = Some previous ∧
  (∀ x, x ∈ flows → SimplePrefetcher.distance a x < SimplePrefetcher.PAGE_SIZE →
     SimplePrefetcher.distance a previous ≤ SimplePrefetcher.distance a x) ∧
  ((∀ x, x ∈ flows → SimplePrefetcher.PAGE_SIZE ≤ SimplePrefetcher.distance a x) → f = Z.to_nat next).

Lemma nearest_continues a flows next : 0 ≤ next < Z.of_nat (length flows) →
  let r := SimplePrefetcher.nearest a 0 next SimplePrefetcher.PAGE_SIZE flows in
  ∃ previous, 0 ≤ r < Z.of_nat (length flows) ∧ continues a flows (Z.to_nat r) previous next.
Proof.
  intros Hnext r. pose proof (nearest_spec a flows 0 next SimplePrefetcher.PAGE_SIZE) as Hr. cbv zeta in Hr. fold r in Hr.
  destruct Hr as [[-> Hfar]|(Hr & y & Hy & Hlt & Hmin)].
  - destruct (lookup_lt_is_Some_2 flows (Z.to_nat next)) as [y Hy]; [lia|]. exists y. split; [lia|].
    split_and!; [done| |done]. intros x Hx Hd. specialize (Hfar x Hx). lia.
  - rewrite Z.sub_0_r in Hy. exists y. pose proof (lookup_lt_Some _ _ _ Hy). split; [lia|]. split_and!; [done|auto|].
    intros Hfar. apply list_elem_of_lookup_2, Hfar in Hy. lia.
Qed.

(** (functional) The simple prefetcher continues the nearest flow. For a core that has
    flows it always answers: it takes a flow at the least distance from the address, or the
    oldest slot when none is within a page, remembers the address there, and predicts exactly
    the next multiples of the stride from the previous one - on the same page, if it is to
    stop at its end - of which the first is the accessed line itself. *)
Theorem simple_prefetch_spec p a c : flows_wf p → 0 ≤ slot p c < Z.of_nat (length (SimplePrefetcher.m_prev_address p)) →
  ∃ l p' flows f previous, SimplePrefetcher.getNextAddress p a c = Ok (l, p') ∧ flows_wf p' ∧
    SimplePrefetcher.m_prev_address p !! Z.to_nat (slot p c) = Some flows ∧
    continues a flows f previous (SimplePrefetcher.n_flow_next p) ∧
    SimplePrefetcher.m_prev_address p' = <[Z.to_nat (slot p c) := <[f := a]> flows]> (SimplePrefetcher.m_prev_address p) ∧
    ∀ x, x ∈ l ↔ u64 (a - previous) ≠ 0 ∧
      ∃ j, 0 ≤ j < SimplePrefetcher.num_prefetches p ∧ x = u64 (a + u64 (j * u64 (a - previous))) ∧
        (SimplePrefetcher.stop_at_page p = true →
           Z.land x SimplePrefetcher.PAGE_MASK = Z.land a SimplePrefetcher.PAGE_MASK).
Proof.
  intros (Hnext & Hsize & Hflows) Hslot. destruct (lookup_lt_is_Some_2 (SimplePrefetcher.m_prev_address p) (Z.to_nat (slot p c))) as [flows Hl]; [lia|].
  pose proof (Forall_lookup_1 _ _ _ _ Hflows Hl) as Hlen. cbv beta in Hlen.
  destruct (nearest_continues a flows (SimplePrefetcher.n_flow_next p)) as (previous & Hr & Hc); [lia|].
  unfold SimplePrefetcher.getNextAddress. fold (slot p c). rewrite (proj2 (Z.leb_le 0 (slot p c)) (proj1 Hslot)).
  cbn [check rbind]. rewrite (proj2 (arr_get_ok _ _ _) Hl). cbn [rbind]. unfold umod.
  destruct (Z.eqb_spec (SimplePrefetcher.n_flows p) 0) as [|_]; [lia|]. cbn [rbind].
  rewrite (proj2 (arr_get_ok _ _ _) (proj1 Hc)). cbn [rbind]. cbv zeta.
  rewrite arr_set_lt by lia. cbn [rbind]. rewrite arr_set_lt by lia. cbn [rbind].
  eexists _, _, flows, _, previous. split; [done|]. split_and!; [|done|done|done|].
  - repeat split; cbn; [apply Z.mod_pos_bound; lia..|lia|]. apply Forall_insert; [done|]. by rewrite length_insert.
  - intros x. destruct (Z.eqb_spec (u64 (a - previous)) 0) as [->|Hne]; cbn [negb].
    { split; [by intros ?%not_elem_of_nil|by intros [? _]]. }
    rewrite strides_spec. split; [intros (j & Hj & Hx); split; [done|]; exists j|intros (_ & j & Hj & Hx); exists j]; (split; [lia|done]).
Qed.

Lemma simple_prefetch_spec_witness :
  let p := SimplePrefetcher.new 0 1 2 false 3 true in
  ∃ l p' flows f previous, SimplePrefetcher.getNextAddress p 64 0 = Ok (l, p') ∧ l = [64; 128; 192] ∧
    SimplePrefetcher.m_prev_address p !! 0%nat = Some flows ∧ continues 64 flows f previous 0.
Proof.
  intros p. destruct (simple_prefetch_spec p 64 0) as (l & p' & flows & f & previous & E & _ & H1 & H2 & _).
  - split; [split; [done|reflexivity]|]. split; [reflexivity|]. by repeat constructor.
  - done.
  - exists l, p', flows, f, previous. split; [exact E|]. split; [vm_compute in E; by injection E as <- _|]. by split.
Defined.

(** ** TLBs *)

Section tlb.
Context (g : CacheModel.config) (k : Z) (Hk : 0 ≤ k ∧ cfg_block g = 2 ^ k).
Implicit Types (c : Cache.t LRU.t) (x : TLB.t).

(** Entries of a TLB are never in the middle of an upgrade. *)
Definition plain (c : Cache.t LRU.t) : Prop :=
  ∀ s, s ∈ Cache.m_sets c → replaceable (CacheSet.m_cache_block_info_array s).
Definition tlb_wf x : Prop := cache_wf g (TLB.m_cache x) ∧ plain (TLB.m_cache x).

(** An access of no bytes: the recency of the page is updated. *)
Lemma tlb_access c a :
  cache_wf g c → plain c → in_u64 a →
  ∃ old r c', cache_lookup c a = Ok old ∧ Cache.accessSingleLine c a CacheBase.LOAD None 0 true = Ok (r, c') ∧
    (is_Some r ↔ is_Some old) ∧ cache_wf g c' ∧ plain c' ∧ ∀ a', in_u64 a' → cache_lookup c' a' = cache_lookup c a'.
Proof using Hk.
  intros Hwf Hpl Ha. destruct (split_set g c a Hwf Ha) as (i & s & E & Ei & Hs & Hi).
  pose proof Hwf as (Hg & Hnew & Hlen & Hw). destruct (Hw i s Hs) as (Hswf & Has & Hbs & Hin).
  destruct (block_of_range g a Hg Ha) as [_ Hne].
  rewrite (cache_lookup_spec g c a i s Hwf Ha E Hs).
  destruct (find_spec (Cache.m_set_info c) s (block_of g a) Hswf Hne) as (f & Ef & Hf).
  unfold Cache.accessSingleLine, CacheBase.splitAddress_offset. rewrite E. cbn [rbind]. rewrite Nat2Z.id.
  unfold arr_get at 1. rewrite Hs. cbn [rbind]. rewrite Ef. cbn [rbind].
  destruct f as [w|]; [|eexists _, None, c; split_and!; try done; rewrite Hf; split; by intros []].
  destruct Hf as (Hwlt & b & _ & Hb & _). pose proof Hswf as (? & ? & ? & ? & Hp & Hinfo).
  destruct (pol_update _ _ _ w Hwlt Hp Hinfo) as (info' & p' & Eu & Hp' & Hinfo').
  assert (set_wf info' (CacheSet.set_policy s p')) as Hswf' by (by split_and!).
  destruct (set_state_wf g c i _ info' Hwf Hi Hswf' Has Hbs Hin) as (c' & Ec & Hwf' & Eb & Esets).
  unfold CacheSet.read_line. rewrite Nat.add_0_r.
  assert ((u32 (Z.of_nat (Z.to_nat (u32 (Z.land a (u32 (CacheBase.m_blocksize (Cache.base c) - 1)))))) <=?
           Z.of_nat (CacheSet.m_blocksize s)) = true) as ->.
  { destruct Hg as (_ & Hcb & _). apply base_fields in Hnew as (_ & _ & _ & Hbsz & _). rewrite Hbsz, Hbs, (u32_small (_ - 1)) by rlia.
    destruct Hk as [Hk0 Hk1]. rewrite Hk1, land_pow2 by lia. rewrite <- Hk1.
    pose proof (Z.mod_pos_bound a (cfg_block g) ltac:(lia)). rewrite (u32_small (a `mod` _)), Z2Nat.id, u32_small by rlia.
    apply Z.leb_le. lia. }
  cbn [check rbind]. unfold CacheSet.touch_line. rewrite Eu. cbn [rbind].
  eexists _, (Some (i, w, None)), c'. split; [done|]. split.
  { destruct (CacheSet.m_blocks s); cbn [rbind bool_decide]; [rewrite bool_decide_false by (by intros [? [=]])|]; cbn [rbind]; rewrite Ec; done. }
  split; [rewrite Hb; split; eauto|]. split; [done|]. split.
  - intros s' Hs'. rewrite Esets in Hs'. apply list_elem_of_lookup in Hs' as [j Hj].
    apply list_lookup_insert_Some in Hj as [(_ & <- & _)|(_ & Hj)]; [apply (Hpl s)|apply Hpl]; by eapply list_elem_of_lookup_2.
  - intros a' Ha'. destruct (split_set g c a' Hwf Ha') as (j & sj & Esj & _ & Hsj & Hj).
    rewrite (cache_lookup_spec g c a' j sj Hwf Ha' Esj Hsj).
    assert (∃ s', Cache.m_sets c' !! j = Some s' ∧ set_contents s' = set_contents sj) as (s' & Hs' & <-).
    { rewrite Esets. destruct (decide (j = i)) as [->|].
      - rewrite list_lookup_insert_eq by done. rewrite Hs in Hsj. injection Hsj as <-. by eexists.
      - rewrite list_lookup_insert_ne by done. by eexists. }
    by rewrite (cache_lookup_spec g c' a' j s' Hwf' Ha' ltac:(by rewrite Eb) Hs').
Qed.

(** New entries are plain. *)
Lemma tlb_insert_plain c a eb ev ea c' :
  plain c → Cache.insertSingleLine None c a None eb false = Ok (ev, ea, c') → plain c'.
Proof using Type.
  intros Hpl E. unfold Cache.insertSingleLine in E.
  apply rbind_ok in E as ([tag i] & _ & E). apply rbind_ok in E as (s & Hs%arr_get_ok & E).
  apply rbind_ok in E as ([ev1 [info1 s1]] & Ei & E). apply rbind_ok in E as (c1 & Es & [= <- <- <-]).
  unfold Cache.set_state in Es. apply rbind_ok in Es as (sets & [_ ->]%arr_set_ok & [= <-]). cbn.
  intros s' Hs'. apply list_elem_of_lookup in Hs' as [j Hj].
  apply list_lookup_insert_Some in Hj as [(_ & <- & _)|(_ & Hj)]; [|apply Hpl; by eapply list_elem_of_lookup_2].
  unfold CacheSet.insert in Ei. apply rbind_ok in Ei as ([w [info2 p2]] & _ & Ei). apply rbind_ok in Ei as (_ & _ & Ei).
  apply rbind_ok in Ei as (old & Hold%arr_get_ok & Ei). apply rbind_ok in Ei as (ev2 & _ & Ei).
  apply rbind_ok in Ei as (l & [_ ->]%arr_set_ok & Ei). apply rbind_ok in Ei as (d & _ & [= <- <- <-]). cbn.
  apply Forall_insert; [apply Hpl; by eapply list_elem_of_lookup_2|done].
Qed.

Lemma tlb_allocate_ok n i x (s : TLB.store) a :
  s !! i = Some x → TLB.m_next_level x = None → tlb_wf x → in_u64 a → cache_lookup (TLB.m_cache x) a = Ok None →
  ∃ c', TLB.allocate (S n) i a s = Ok (<[i := TLB.set_cache x c']> s) ∧ tlb_wf (TLB.set_cache x c') ∧
    cache_lookup c' a = Ok (Some (CacheBlockInfo.set_tag CacheBlockInfo.empty (block_of g a))).
Proof using Type.
  intros Hx Hn [Hwf Hpl] Ha Hmiss.
  destruct (insertSingleLine_spec g None (TLB.m_cache x) a None CacheBlockInfo.empty false Hwf Ha Hpl Hmiss)
    as (ev & ea & c' & E & Hwf' & _ & Hlk); [done|].
  exists c'. cbn [TLB.allocate]. rewrite (proj2 (arr_get_ok _ _ _) Hx). cbn [rbind]. rewrite E. cbn [rbind].
  rewrite (proj2 (arr_set_ok _ _ _ _) (conj (lookup_lt_Some _ _ _ Hx) eq_refl)). cbn [rbind]. rewrite Hn.
  split; [by destruct (CacheSet.eviction ev)|]. split; [split; [done|by eapply tlb_insert_plain]|].
  rewrite (Hlk a Ha), Z.eqb_refl. done.
Qed.

(** What a lookup in a single TLB does. *)
Lemma tlb_lookup_ok n i x (s : TLB.store) a :
  s !! i = Some x → TLB.m_next_level x = None → tlb_wf x → in_u64 a →
  ∃ old x', cache_lookup (TLB.m_cache x) a = Ok old ∧
    TLB.lookup (S n) i a true s = Ok (bool_decide (is_Some old), <[i := x']> s) ∧ tlb_wf x' ∧ TLB.m_next_level x' = None ∧
    (∃ b, cache_lookup (TLB.m_cache x') a = Ok (Some b)) ∧
    (is_Some old → ∀ a', in_u64 a' → cache_lookup (TLB.m_cache x') a' = cache_lookup (TLB.m_cache x) a') ∧
    TLB.m_access x' = u64 (TLB.m_access x + 1) ∧
    TLB.m_miss x' = u64 (TLB.m_miss x + (if bool_decide (is_Some old) then 0 else 1)).
Proof using Hk.
  intros Hx Hn [Hwf Hpl] Ha.
  destruct (tlb_access (TLB.m_cache x) a Hwf Hpl Ha) as (old & r & c1 & Eold & E & Hr & Hwf1 & Hpl1 & Hlk).
  exists old. cbn [TLB.lookup]. rewrite (proj2 (arr_get_ok _ _ _) Hx). cbn [rbind]. rewrite E. cbn [rbind]. cbv zeta.
  assert (∀ y : TLB.t, arr_set s i y = Ok (<[i := y]> s)) as Hset.
  { intros y. apply arr_set_ok. split; [by eapply lookup_lt_Some|done]. }
  destruct r as [[l rd]|].
  - destruct (proj1 Hr (mk_is_Some _ _ eq_refl)) as [b Hb]. rewrite Hset. cbn [rbind].
    rewrite bool_decide_true by (by eexists). eexists. split; [done|]. split; [done|]. cbn.
    split; [by split|]. split; [done|]. split; [exists b; by rewrite Hlk, Eold, Hb|].
    split; [by intros _|]. by split.
  - assert (old = None) as -> by (destruct old; [|done]; destruct (proj2 Hr (mk_is_Some _ _ eq_refl)); done).
    rewrite bool_decide_false by (by intros []). rewrite Hset. cbn [rbind].
    set (x1 := TLB.count (TLB.count (TLB.set_cache x c1) 1 0) 0 1).
    change (TLB.m_next_level x1) with (TLB.m_next_level x). rewrite Hn. cbn [rbind].
    destruct (tlb_allocate_ok n i x1 (<[i := x1]> s) a) as (c' & Ea & Hwf' & Hb).
    { apply list_lookup_insert_eq. by eapply lookup_lt_Some. }
    { done. } { by split. } { done. } { cbn. by rewrite Hlk. }
    rewrite Ea. cbn [rbind]. rewrite list_insert_insert_eq. eexists. split; [done|]. split; [done|].
    split; [done|]. split; [done|]. split; [eexists; exact Hb|]. split; [by intros [? [=]]|].
    cbn. unfold u64. rewrite !Zplus_mod_idemp_l. split; f_equal; lia.
Qed.
End tlb.

(** (functional) A lookup in a single TLB never fails; it hits exactly when the page is
    there, and then changes no entry; afterwards the page is there in any case, so that the
    next lookup of it hits; accesses and misses are counted. *)
Theorem tlb_lookup_spec g k n i x (s : TLB.store) a :
  0 ≤ k ∧ cfg_block g = 2 ^ k → s !! i = Some x → TLB.m_next_level x = None → tlb_wf g x → in_u64 a →
  ∃ old x', cache_lookup (TLB.m_cache x) a = Ok old ∧
    TLB.lookup (S n) i a true s = Ok (bool_decide (is_Some old), <[i := x']> s) ∧ tlb_wf g x' ∧
    (is_Some old → ∀ a', in_u64 a' → cache_lookup (TLB.m_cache x') a' = cache_lookup (TLB.m_cache x) a') ∧
    TLB.m_access x' = u64 (TLB.m_access x + 1) ∧
    TLB.m_miss x' = u64 (TLB.m_miss x + (if bool_decide (is_Some old) then 0 else 1)) ∧
    ∃ s'', TLB.lookup (S n) i a true (<[i := x']> s) = Ok (true, s'').
Proof.
  intros Hk Hx Hn Hwf Ha.
  destruct (tlb_lookup_ok g k Hk n i x s a Hx Hn Hwf Ha) as (old & x' & Eold & E & Hwf' & Hn' & [b Hb] & Hsame & Hacc & Hmiss).
  exists old, x'. split_and!; try done.
  destruct (tlb_lookup_ok g k Hk n i x' (<[i := x']> s) a) as (old2 & x2 & Eold2 & E2 & _).
  { apply list_lookup_insert_eq. by eapply lookup_lt_Some. }
  { done. } { done. } { done. }
  rewrite Hb in Eold2. injection Eold2 as <-. rewrite bool_decide_true in E2 by (by eexists). by eexists.
Qed.

Definition example_tlb_config : CacheModel.config :=
  {| cfg_sets := Z.of_nat 2; cfg_assoc := 2; cfg_block := Z.of_nat 4096; cfg_hash := CacheBase.HASH_MASK |}.

Lemma tlb_lookup_spec_witness :
  ∃ x, TLB.new 4 2 None = Ok x ∧ ∃ x', TLB.lookup 1 0 0x5000 true [x] = Ok (false, [x']) ∧ tlb_wf example_tlb_config x'.
Proof.
  destruct (TLB.new 4 2 None) as [x|] eqn:E; [|discriminate E]. exists x. split; [done|].
  assert (tlb_wf example_tlb_config x ∧ TLB.m_next_level x = None ∧ cache_lookup (TLB.m_cache x) 0x5000 = Ok None) as (Hwf & Hn & Hold).
  { vm_compute in E. injection E as <-. split_and!; [|done|by vm_compute]. split.
    - eapply (new_cache_wf 2 2 4096 CacheBase.HASH_MASK false (new_info 2 1) (LRU.new 2 1));
        [|apply (lru_new_inv 2); lia|apply (lru_new_info 2); lia|vm_compute; reflexivity].
      split; [cbn; lia|]. split; [cbn; lia|]. split; [reflexivity|cbn; lia].
    - intros s Hs. cbn in Hs. repeat (apply elem_of_cons in Hs as [->|Hs]);
        [repeat constructor; discriminate..|by apply elem_of_nil in Hs]. }
  destruct (tlb_lookup_spec example_tlb_config 12 0 0 x [x] 0x5000) as (old & x' & Eold & E' & Hwf' & _); try done.
  rewrite Hold in Eold. injection Eold as <-. exists x'. by split.
Defined.

(** A first-level TLB of one entry over a second level of four. *)
Definition two_tlbs : result TLB.store :=
  let! a := TLB.new 1 1 (Some 1%nat) in
  let! b := TLB.new 4 4 None in
  Ok [a; b].
Fixpoint tlb_run (l : list Z) (s : TLB.store) : result (list bool * TLB.store) :=
  match l with
  | [] => Ok ([], s)
  | a :: l => let! (hit, s) := TLB.lookup 3 0 a true s in
              let! (hits, s) := tlb_run l s in Ok (hit :: hits, s)
  end.
(** The pages that a TLB holds, way by way. *)
Definition pages (x : TLB.t) : list (list Z) :=
  map (λ s, map CacheBlockInfo.m_tag (CacheSet.m_cache_block_info_array s)) (Cache.m_sets (TLB.m_cache x)).

(** (error) A second-level TLB fills with copies: the victims of the first level are
    inserted in it without a look at whether they are there already. Three pages in use would
    fit into the five entries of these TLBs; but after page 3, pages 1 and 2 used in turn
    occupy all four entries of the second level twice each, and page 3 misses. *)
Theorem tlb_victims_duplicate :
  ∃ s0 hits s, two_tlbs = Ok s0 ∧
    tlb_run [0x3000; 0x1000; 0x2000; 0x1000; 0x2000; 0x1000; 0x2000; 0x1000; 0x3000] s0 = Ok (hits, s) ∧
    hits = [false; false; false; true; true; true; true; true; false] ∧
    (∃ s1 h, tlb_run [0x3000; 0x1000; 0x2000; 0x1000; 0x2000; 0x1000; 0x2000; 0x1000] s0 = Ok (h, s1) ∧
       map pages s1 = [[[1]]; [[2; 1; 2; 1]]]).
Proof.
  eexists _, _, _. split; [vm_compute; reflexivity|]. split; [vm_compute; reflexivity|]. split; [reflexivity|].
  eexists _, _. split; [vm_compute; reflexivity|]. vm_compute. reflexivity.
Qed.
