(* ===== verification/Multilevel.v ===== *)
(** The hierarchy of caches as a whole: cores that access their first-level caches and
    messages of the directory to the last level, as a step relation, and what holds in all
    states reached from an empty hierarchy.  A platform with two cores is given as an
    example, with the defect that a run of it shows. *)
From stdpp Require Import functions.
From S2P Require Import Prelude Timing QueueModels BlockInfo AddressMap Replacement CacheModel CacheLines.
From S2P Require Import ShmemMsg DirCntlr Memory Epoch UndoBuffer Log StateResult TlbAtd CacheCntlr Hierarchy Inclusion Accesses.
Import CacheCntlr.

(** ** Empty caches *)

Section empty.
Context {P : Type} `{Policy P}.

Lemma no_valid_blocks n : valid_pairs (replicate n CacheBlockInfo.empty) = [].
Proof. induction n; [done|exact IHn]. Qed.

(** A new cache is well-formed for any policy and state of it. *)
Lemma new_cache_lines ns assoc bs hash fi info (p : P) c :
  config_ok {| cfg_sets := Z.of_nat ns; cfg_assoc := assoc; cfg_block := Z.of_nat bs; cfg_hash := hash |} →
  Cache.new ns assoc bs hash None fi info p = Ok c →
  lines_wf {| cfg_sets := Z.of_nat ns; cfg_assoc := assoc; cfg_block := Z.of_nat bs; cfg_hash := hash |} c ∧
  ∀ t, line c t = None.
Proof.
  intros Hg Hnew. unfold Cache.new in Hnew. apply rbind_ok in Hnew as (b & Hb & [= <-]). split.
  - split; [done|]. split; [done|]. cbn. rewrite length_replicate. split; [done|].
    intros i s Hs. apply lookup_replicate in Hs as [-> _]. split.
    + split_and!; cbn; [by rewrite length_replicate|done|by rewrite Nat2Z.id| |].
      * unfold unique_tags. rewrite no_valid_blocks. constructor.
      * intros d. destruct fi; intros [= <-]. by rewrite length_replicate, Nat2Z.id.
    + intros b' Hb' Hv. apply elem_of_replicate in Hb' as [-> _]. done.
  - intros t. unfold line. cbn. destruct (CacheBase.set_index_of b t) as [i|]; [|done].
    destruct (replicate ns _ !! Z.to_nat i) as [s|] eqn:Es; [|done]. apply lookup_replicate in Es as [-> _].
    change (contents (replicate assoc CacheBlockInfo.empty) !! t = None). unfold contents. by rewrite no_valid_blocks.
Qed.
End empty.

(** ** Miss status holding registers *)

Section mshr.
Implicit Types (x : gmap Z MshrEntry).

Lemma earliest_fold (l : list (Z * MshrEntry)) best :
  let r := fold_left (λ best e, if mshr_t_complete (snd e) <? snd best then (fst e, mshr_t_complete (snd e)) else best) l best in
  snd r ≤ snd best ∧ (∀ p, p ∈ l → snd r ≤ mshr_t_complete (snd p)) ∧
  (r = best ∨ ∃ e, (fst r, e) ∈ l ∧ mshr_t_complete e = snd r).
Proof.
  revert best. induction l as [|[a e] l IH]; intros best; cbn [fold_left]; cbv zeta.
  { split; [lia|]. split; [by intros p ?%not_elem_of_nil|by left]. }
  cbn [fst snd]. destruct (Z.ltb_spec (mshr_t_complete e) (snd best)) as [Hlt|Hge].
  - destruct (IH (a, mshr_t_complete e)) as (H1 & H2 & H3). cbn [snd] in *. split; [lia|]. split.
    + intros p [->|Hp]%elem_of_cons; [done|by apply H2].
    + right. destruct H3 as [->|(e' & He' & ?)]; [exists e; split; [by left|done]|exists e'; split; [by right|done]].
  - destruct (IH best) as (H1 & H2 & H3). split; [done|]. split.
    + intros p [->|Hp]%elem_of_cons; [cbn [snd]; lia|by apply H2].
    + destruct H3 as [H3|(e' & He' & ?)]; [by left|right; exists e'; split; [by right|done]].
Qed.

(** The entry that completes first. *)
Lemma earliest_spec x : (∀ a e, x !! a = Some e → mshr_t_complete e < SubsecondTime.MaxTime) → (0 < size x)%nat →
  ∃ e, x !! fst (earliest (map_to_list x)) = Some e ∧
    ∀ a' e', x !! a' = Some e' → mshr_t_complete e ≤ mshr_t_complete e'.
Proof.
  intros Hx Hs. destruct (earliest_fold (map_to_list x) (0, SubsecondTime.MaxTime)) as (_ & H2 & H3).
  fold (earliest (map_to_list x)) in H2, H3.
  assert (∀ a e, x !! a = Some e → snd (earliest (map_to_list x)) ≤ mshr_t_complete e) as Hmin.
  { intros a e He. apply elem_of_map_to_list in He. by specialize (H2 _ He). }
  destruct H3 as [E|(e & He%elem_of_map_to_list & Ee)].
  - exfalso. destruct (map_choose x) as (a & e & Ha); [intros E0; rewrite E0, map_size_empty in Hs; lia|].
    specialize (Hmin _ _ Ha). specialize (Hx _ _ Ha). rewrite E in Hmin. cbn in Hmin. lia.
  - exists e. split; [done|]. intros a' e' He'. rewrite Ee. by eapply Hmin.
Qed.

(** What goes completes no later than what stays. *)
Definition keeps_latest (x x' : gmap Z MshrEntry) : Prop :=
  ∀ a e a' e', x !! a = Some e → x' !! a = None → x' !! a' = Some e' → mshr_t_complete e ≤ mshr_t_complete e'.

Lemma cleanup_ok fuel x : (size x < fuel)%nat → (∀ a e, x !! a = Some e → mshr_t_complete e < SubsecondTime.MaxTime) →
  ∃ x', cleanup fuel x = Ok x' ∧ x' ⊆ x ∧ size x' = Nat.min 8 (size x) ∧ keeps_latest x x'.
Proof.
  unfold keeps_latest. revert x. induction fuel as [|fuel IH]; intros x Hf Hx; [lia|]. cbn [cleanup].
  destruct (Nat.ltb_spec 8 (size x)) as [Hs|Hs].
  2:{ exists x. split; [done|]. split; [done|]. split; [lia|]. intros a e a' e' Ha Hn. congruence. }
  destruct (earliest_spec x Hx ltac:(lia)) as (e0 & He0 & Hmin). rewrite He0.
  set (a0 := fst (earliest (map_to_list x))) in *.
  pose proof (map_size_delete_Some a0 x ltac:(by eexists)) as Hsize.
  destruct (IH (delete a0 x)) as (x' & E & Hsub & Hsz & Hord); [lia| |].
  { intros a e Ha. apply lookup_delete_Some in Ha as [_ Ha]. by eapply Hx. }
  exists x'. split; [done|]. split; [etrans; [done|apply delete_subseteq]|]. split; [lia|].
  intros a e a' e' Ha Hn Ha'. destruct (decide (a = a0)) as [->|Hne].
  - rewrite He0 in Ha. injection Ha as <-. apply (Hmin a').
    eapply lookup_weaken; [exact Ha'|]. etrans; [done|apply delete_subseteq].
  - apply (Hord a e a' e'); [by rewrite lookup_delete_ne|done|done].
Qed.
End mshr.

(** (functional) The clean-up of the MSHRs ends and keeps the latest: of more than
    eight entries exactly eight stay, and each one that goes completes no later than any that
    stays; eight or fewer all stay. (All complete before the end of time: the code searches
    for a smaller time than the largest one, and would loop.) *)
Theorem cleanup_keeps_latest (x : gmap Z MshrEntry) :
  (∀ a e, x !! a = Some e → mshr_t_complete e < SubsecondTime.MaxTime) →
  ∃ x', cleanup (S (size x)) x = Ok x' ∧ x' ⊆ x ∧ size x' = Nat.min 8 (size x) ∧ keeps_latest x x'.
Proof. intros Hx. by apply cleanup_ok; [lia|]. Qed.

Lemma cleanup_keeps_latest_witness :
  let x := list_to_map (map (λ i, (i, make_mshr 0 (100 - i))) [1; 2; 3; 4; 5; 6; 7; 8; 9; 10]) : gmap Z MshrEntry in
  ∃ x', cleanup 11 x = Ok x' ∧ size x' = 8%nat ∧ x' !! 1 = Some (make_mshr 0 99).
Proof.
  intros x. destruct (cleanup_keeps_latest x) as (x' & E & Hsub & Hsz & Hord).
  - intros a e He. apply elem_of_list_to_map_2 in He. cbn in He.
    repeat (apply elem_of_cons in He as [[= -> ->]|He]; [reflexivity|]). by apply elem_of_nil in He.
  - exists x'. split; [exact E|]. split; [exact Hsz|]. vm_compute in E. injection E as <-. by vm_compute.
Defined.

(** ** The platform and its steps *)

(** A tree of caches of [2^k]-byte lines, all coherent, none perfect or passed through, and
    none of them of the kind whose number is that of [HitWhere::MISS]. *)
Record platform (cfg : CacheCntlr.config) (geo : nat → CacheModel.config) (k : Z) (undo : nat) (lv : nat → nat) : Prop := {
  pf_tree : tree_ok cfg geo k undo lv;
  pf_coherent c : m_coherent (cntlr_conf cfg c) = true;
  pf_writethrough c : m_cache_writethrough (cntlr_conf cfg c) = true → is_Some (next_of cfg c);
  pf_plain c : m_perfect (cntlr_conf cfg c) = false ∧ m_passthrough (cntlr_conf cfg c) = false;
  pf_where c b : where_of (m_mem_component (cntlr_conf cfg c)) b ≠ HitWhere.MISS;
}.

Section multilevel.
Context {P : Type} `{HP : Policy P} {HTP : TotalPolicy P} {F : Type} `{HF : Prefetcher F}
  {D : Type} `{HD : DramCntlrInterface D} {HTD : TotalDram D}.
Context (cfg : CacheCntlr.config) (geo : nat → CacheModel.config) (k : Z) (undo : nat) {HPL : PrefetcherLaws k F}.
Context {lv : nat → nat}.
Abbreviation state := (t P F D).
Implicit Types s : state.

(** Empty caches, nothing in flight; controllers of undo buffers in order. *)
Record initial s : Prop := {
  in_cache m : ∃ ns bs fi info p, geo m = {| cfg_sets := Z.of_nat ns; cfg_assoc := cfg_assoc (geo m);
      cfg_block := Z.of_nat bs; cfg_hash := cfg_hash (geo m) |} ∧ config_ok (geo m) ∧
    Cache.new ns (cfg_assoc (geo m)) bs (cfg_hash (geo m)) None fi info p = Ok (m_cache (masters s m));
  in_quiet m : m_evicting (masters s m) = None ∧ m_prefetch_list (masters s m) = [];
  in_prefetcher m f : m_prefetcher (masters s m) = Some f → prefetch_inv (k := k) f;
  in_waiting core : waiting s core = None;
  in_last c : m_last_remote_hit_where (vars s c) = HitWhere.UNKNOWN;
  in_log : log_wf undo (undo_cntlrs s) (shared s);
}.

(** A core that does not wait accesses one of its first-level caches; the directory sends
    any message, about a whole line, to a last-level cache.  An access includes all it does
    in the caches and in memory, up to the wait for the directory.  An epoch ends between
    two of these, with the periodic hooks, and the clocks of cores are set, as instructions
    take time. *)
Inductive step s : state → Prop :=
  | step_access c op s' : prevs cfg (cache_of cfg c) = [] → in_u64 (op_address op) →
      waiting s (m_core_id (cntlr_conf cfg c)) = None →
      processMemOpFromCore cfg c op s = Ok (tt, s') → step s s'
  | step_message fuel c sender msg s' : next_of cfg c = None → msg_ok k msg →
      handleMsgFromDramDirectory cfg fuel c sender msg s = Ok (tt, s') → step s s'
  | step_epoch us g : sys (shared s) < 2 ^ 64 - 1 →
      run_hooks HOOK_PERIODIC_INS (undo_cntlrs s) (shared s) = Ok (us, g) → step s (set_undo us g s)
  | step_clock clocks : step s (set_clocks clocks s).

(** ** The invariant of all reachable states *)

Context (Hpf : platform cfg geo k undo lv).

Section settled.
Context (LI : log_inv undo).

Lemma initial_settled s : initial s → LI (undo_cntlrs s) (shared s) → settled cfg geo k undo LI s.
Proof using Type.
  intros [Hc Hq Hpre Hw Hl Hlog] HLI. pose proof (log_wf_sys _ _ _ Hlog) as Hsys.
  assert (∀ m, lines_wf (geo m) (m_cache (masters s m)) ∧ ∀ t, line (m_cache (masters s m)) t = None) as Hcaches.
  { intros m. destruct (Hc m) as (ns & bs & fi & info & p & Eg & Hok & Hnew). rewrite Eg in Hok. rewrite Eg.
    by eapply new_cache_lines. }
  assert (∀ m t, lstate s m t = None) as Hnone.
  { intros m t. unfold lstate, cstate. by rewrite (proj2 (Hcaches m) t). }
  split; [split|].
  - split; [split|..]; [done| | | | |].
    + intros m. split; [apply Hcaches|]. intros t b. by rewrite (proj2 (Hcaches m) t).
    + intros m a b E. by rewrite (proj1 (Hq m)) in E.
    + intros m t st. by rewrite Hnone.
    + intros m t. rewrite Hnone. by intros [? [=]].
    + split_and!; [intros m; split; [by rewrite (proj2 (Hq m))|apply Hpre]|intros core w; by rewrite Hw|intros c; by rewrite Hl].
  - intros m. unfold evicting. by rewrite (proj1 (Hq m)).
  - intros t m p st _. by rewrite Hnone.
Qed.

(** An address that is not that of a line fails an assertion. *)
Lemma unaligned c op s : in_u64 (op_address op) → ¬ aligned k (op_address op) → processMemOpFromCore cfg c op s = Err AssertFail.
Proof using Hpf.
  intros Hu Hn. pose proof (tree_k _ _ _ _ _ (pf_tree _ _ _ _ _ Hpf)) as Hk. unfold processMemOpFromCore.
  destruct (Z.eqb_spec (Z.land (op_address op) (Z.of_nat (m_cache_block_size (cf cfg c)) - 1)) 0) as [E|]; [|done].
  destruct Hn. split; [done|]. rewrite <- E. unfold cf.
  rewrite (tree_block _ _ _ _ _ (pf_tree _ _ _ _ _ Hpf)), Z2Nat.id, Z.sub_1_r, <- Z.ones_equiv, Z.land_ones by lia. done.
Qed.

(** The end of an epoch touches no cache. *)
Lemma settled_log s us g l : settled cfg geo k undo LI s → LI us g → sys (shared s) ≤ sys g →
  stored us g ≡ₚ stored (undo_cntlrs s) (shared s) ++ l → settled cfg geo k undo LI (set_undo us g s).
Proof using Type.
  intros [[[Hwf Hst Ht Hs] He] Hi] HL Hsys Hp. split; [split; [split|]|]; [by eapply log_wf_grow|done..].
Qed.

Lemma settled_epoch s us g : settled cfg geo k undo LI s → sys (shared s) < 2 ^ 64 - 1 →
  run_hooks HOOK_PERIODIC_INS (undo_cntlrs s) (shared s) = Ok (us, g) → settled cfg geo k undo LI (set_undo us g s).
Proof using Type.
  intros Hset Hs Eh. pose proof (hw_log _ _ _ _ _ _ (so_wf _ _ _ _ _ _ (so_upright _ _ _ _ _ _ (proj1 Hset)))) as HL.
  destruct (periodic_log undo _ _ us g (holds_wf _ _ _ HL) Hs Eh) as (_ & Hs' & Hst & _).
  apply (settled_log s us g []); [done|by eapply holds_periodic|lia|by rewrite app_nil_r].
Qed.

Lemma settled_clocks s clocks : settled cfg geo k undo LI s → settled cfg geo k undo LI (set_clocks clocks s).
Proof using Type. intros [[[[Hl Hc Hv] ? ? ?] ?] ?]. by repeat (split; try done). Qed.

Lemma step_settled s s' : settled cfg geo k undo LI s → step s s' → settled cfg geo k undo LI s'.
Proof using HTP HTD HPL Hpf.
  destruct Hpf as [T Hcoh Hwt Hplain Hwhere]. intros Hs Hstep.
  destruct Hstep as [c op s' Hpr Hu _ Eop|fuel c sender msg s' Hroot Hmsg Emsg|us g Hs1 Eh|clocks];
    [| |by eapply settled_epoch|by apply settled_clocks].
  - destruct (decide (aligned k (op_address op))) as [Ha|Hn]; [|by rewrite unaligned in Eop].
    pose proof (wps_processMemOp cfg geo k undo LI T anything Hcoh Hwt (λ _ _, I) Hplain Hwhere c op s
                  (λ _ s', settled cfg geo k undo LI s') Hs Ha Hpr (λ _ H, H)) as Hx.
    unfold wps in Hx. by rewrite Eop in Hx.
  - pose proof (wps_handleMsg cfg geo k undo LI T anything Hcoh Hwt (λ _ _, I) Hplain Hwhere fuel c sender msg s
                  (λ _ s', settled cfg geo k undo LI s') I Hs Hmsg Hroot (λ _ H, H)) as Hx.
    unfold wps in Hx. by rewrite Emsg in Hx.
Qed.

Lemma reachable_settled s s' : initial s → LI (undo_cntlrs s) (shared s) → star step s s' → settled cfg geo k undo LI s'.
Proof using HTP HTD HPL Hpf.
  intros Hs HL Hrun. eapply (star_invariant step (settled cfg geo k undo LI)), Hrun; [apply step_settled|by apply initial_settled].
Qed.


Lemma settled_coherent s : settled cfg geo k undo LI s → coherent cfg geo k undo LI s.
Proof using Type.
  intros [[Hu He] Hi]. split; [apply Hu|done|intros m t; by eapply so_alive|].
  intros m. specialize (He m). unfold evicting in He. by destruct (m_evicting (masters s m)).
Qed.

End settled.

(** The properties of the log are apart from those of the caches. *)
Lemma settled_with (L1 L2 : log_inv undo) s :
  settled cfg geo k undo L1 s → L2 (undo_cntlrs s) (shared s) → settled cfg geo k undo L2 s.
Proof using Type. intros [[[[_ Hc Hv] ? ? ?] ?] ?] HL. by repeat (split; try done). Qed.

Lemma reachable_some s s' : initial s → star step s s' → settled cfg geo k undo (some_log undo) s'.
Proof using HTP HTD HPL Hpf. intros Hs. by apply reachable_settled, Hs. Qed.

(** [C10] (invariant) Inclusion: however cores and the directory act on an empty hierarchy,
    a line that a cache holds is also in the cache of the next level, in a state at least as
    strong; a line is dirty only if it is dirty all the way to the last level. *)
Theorem hierarchy_inclusive s s' : initial s → star step s s' → inclusive cfg s'.
Proof using HTP HTD HPL Hpf. intros Hs Hrun. apply (reachable_some s s' Hs Hrun). Qed.

(** [C13] (type) Types are preserved: in every reachable state, sets have their sizes and
    unique tags, and each tag is in its set; lines are [SHARED], [EXCLUSIVE] or [MODIFIED],
    or [SHARED_UPGRADING] in the last level only; nothing is half evicted; prefetch queues
    and suspended accesses are about whole lines; the undo buffers are well-formed. *)
Theorem caches_well_formed s s' : initial s → star step s s' →
  (∀ m, lines_wf (geo m) (m_cache (masters s' m)) ∧ m_evicting (masters s' m) = None ∧
     Forall (aligned k) (m_prefetch_list (masters s' m))) ∧
  (∀ m t st, lstate s' m t = Some st → fillable st ∨ st = CacheState.SHARED_UPGRADING) ∧
  (∀ c t, lstate s' (cache_of cfg c) t = Some CacheState.SHARED_UPGRADING → next_of cfg c = None) ∧
  (∀ core w, waiting s' core = Some w → pending_ok cfg k w) ∧
  Forall cntlr_wf (undo_cntlrs s').
Proof using HTP HTD HPL Hpf.
  intros Hs Hrun. pose proof (reachable_some s s' Hs Hrun) as Hset.
  pose proof (settled_coherent (some_log undo) s' Hset) as [Hwf Hi _ He]. destruct Hset as [[[_ Hst _ (Hq & Hw & _)] _] _].
  split_and!; [intros m; split_and!; [by eapply hw_lines|done|apply Hq]|exact Hst| |exact Hw|by eapply hw_undo].
  intros c t Hup. destruct (next_of cfg c) as [n|] eqn:En; [|done].
  destruct (tree_next _ _ _ _ _ (pf_tree _ _ _ _ _ Hpf) c n En) as (p & Hp & Ep).
  destruct (Hi t (cache_of cfg n) p CacheState.SHARED_UPGRADING Hp) as (y & _ & Hy); [by rewrite Ep|by destruct y].
Qed.

(** [C12] (termination) Every access ends: in a reachable state, an access of a first-level
    cache - with its requests to the levels below, evictions, write-backs, snoops and
    prefetches - returns, waits for the directory or stops at an assertion; the number of
    levels bounds all its recursion, and its loops end. *)
Theorem access_terminates s s' c op :
  initial s → star step s s' → in_u64 (op_address op) → prevs cfg (cache_of cfg c) = [] →
  processMemOpFromCore cfg c op s' ≠ Err NoFuel.
Proof using HTP HTD HPL Hpf.
  intros Hs Hrun Hu Hpr. destruct (decide (aligned k (op_address op))) as [Ha|Hn]; [|by rewrite unaligned].
  pose proof (reachable_some s s' Hs Hrun) as Hset. destruct Hpf as [T Hcoh Hwt Hplain Hwhere].
  pose proof (wps_processMemOp cfg geo k undo (some_log undo) T terminates Hcoh Hwt (λ _ H, H) Hplain Hwhere c op s'
                (λ _ _, True) Hset Ha Hpr (λ _ _, I)) as Hx.
  unfold wps in Hx. intros E. rewrite E in Hx. by apply Hx.
Qed.

(** (functional) [updateCacheBlock] below the last level, in a reachable state: it
    never fails, and afterwards the line is in the new state - or gone, for [INVALID] - in
    exactly those caches of the controller's subtree that had it; no other line of any cache
    changes state, nor do clocks, messages, waiting cores and prefetch queues. *)
Theorem updateCacheBlock_subtree s s' c n a st reason :
  initial s → star step s s' → aligned k a → next_of cfg c = Some n →
  st = CacheState.INVALID ∨ st = CacheState.SHARED ∨ st = CacheState.MODIFIED →
  ∃ latency hit s2, updateCacheBlock cfg (levels cfg) c a st reason None s' = Ok (latency, hit, None, s2) ∧
    (∀ m, below cfg (cache_of cfg c) m →
       lstate s2 m (blk k a) = if bool_decide (st = CacheState.INVALID) then None
                               else (λ _, st) <$> lstate s' m (blk k a)) ∧
    (∀ m t, t ≠ blk k a ∨ ¬ below cfg (cache_of cfg c) m → lstate s2 m t = lstate s' m t) ∧
    frame s' s2.
Proof using HTP HTD HPL Hpf.
  intros Hs Hrun Ha Hn Hst. pose proof (reachable_some s s' Hs Hrun) as [[Hu _] Hi].
  destruct Hpf as [T Hcoh Hwt _ _].
  assert (target never st) as Htgt by (unfold target; tauto).
  assert (ready cfg k never s' a c st None) as Hready.
  { apply (climbs_ready cfg geo k undo T never Hwt); [by apply inclusive_climbs|intros m; by eapply so_alive|by rewrite Hn|done]. }
  pose proof (wps_updateCacheBlock cfg geo k undo (some_log undo) T never Hcoh (levels cfg) c a st reason None s'
    (λ r s2, subtree cfg geo k undo (some_log undo) c a st s' s2 ∧ snd r = None) (so_wf _ _ _ _ _ _ Hu) Ha Htgt Hready) as Hx.
  unfold wps in Hx. destruct (updateCacheBlock _ _ _ _ _ _ _ _) as [[[[lat hit] out] s2]|e].
  2:{ destruct Hx; [apply (tree_levels _ _ _ _ _ T)|]. intros lat hit out s2 Hsub E. split; [done|]. by destruct out. }
  destruct Hx as [(_ & Fr & L & K & _) Eo]; [apply (tree_levels _ _ _ _ _ T)| |].
  { intros lat' hit' out' s2' Hsub E. split; [done|]. by destruct out'. }
  cbn in Eo. subst out. exists lat, hit, s2. split_and!; [done| | |done].
  - intros m Hm. rewrite (L m c eq_refl Hm). unfold after. by case_bool_decide; destruct (lstate s' m (blk k a)).
  - intros m t Hm. apply K. intros -> p ->. by destruct Hm.
Qed.

(** [C11] (liveness) The directory's demands are met: in a reachable state, a demand for a line
    that a last-level cache holds - to invalidate it, flush it or write it back - is carried out
    without failure, with the exception of an invalidation of a modified line and of a
    write-back of a line that is being upgraded, where the code asserts that there is none; the
    message carries its latency record, and the times are below 2^64. The line leaves the caches
    under that last level, or is [SHARED] there, no other line changes state, inclusion is kept,
    and exactly one message goes out: the answer to the directory that asked, with the line's
    data where due. *)
Theorem directory_demands_answered s s' fuel c sender msg st rtype :
  let a := ShmemMsg.m_address msg in
  let x := lstate s' (cache_of cfg c) (blk k a) in
  initial s → star step s s' →
  demand (ShmemMsg.m_msg_type msg) = Some (st, rtype) → aligned k a → next_of cfg c = None → is_Some x →
  (ShmemMsg.m_msg_type msg = ShmemMsg.WB_REQ → x ≠ Some CacheState.SHARED_UPGRADING) →
  (ShmemMsg.m_msg_type msg = ShmemMsg.INV_REQ → x ≠ Some CacheState.MODIFIED) →
  is_Some (ShmemMsg.m_perf msg) → 0 ≤ sim_clock cfg s' c →
  (∀ acc, 0 ≤ getCost cfg c acc ∧ sim_clock cfg s' c + getCost cfg c acc < 2 ^ 64) →
  ∃ s2, handleMsgFromDramDirectory cfg fuel c sender msg s' = Ok (tt, s2) ∧
    given_up cfg k c a st s' s2 ∧ answered cfg k c sender msg rtype s' s2 ∧ inclusive cfg s2 ∧
    waiting s2 = waiting s' ∧ returned s2 = returned s'.
Proof using HTP HTD HPL Hpf.
  intros a x Hs Hrun Hd Ha Hroot Hx Hwb Hinv Hp H0 Hcost.
  pose proof (settled_coherent (some_log undo) s' (reachable_some s s' Hs Hrun)) as Hco. destruct Hpf as [T Hcoh Hwt _ _].
  pose proof (wps_demands cfg geo k undo (some_log undo) T never Hcoh Hwt fuel c sender msg st rtype s'
    (λ _ s2, given_up cfg k c a st s' s2 ∧ answered cfg k c sender msg rtype s' s2 ∧ inclusive cfg s2 ∧
       waiting s2 = waiting s' ∧ returned s2 = returned s') Hd Hco Ha Hroot Hx Hwb Hinv Hp H0 Hcost) as Hw.
  unfold wps in Hw. destruct (handleMsgFromDramDirectory _ _ _ _ _ _) as [[[] s2]|e].
  - exists s2. split; [done|]. apply Hw. intros s3 Hco3 ? ? ? ?. split_and!; [done|done|apply Hco3|done|done].
  - destruct Hw. intros s3 Hco3 ? ? ? ?. split_and!; [done|done|apply Hco3|done|done].
Qed.
End multilevel.

(** ** An example: two cores with private L1 and L2 caches under a shared L3

    Controllers and caches of core [k] are numbered [4k] (L1-I), [4k+1] (L1-D), [4k+2] (L2)
    and [4k+3] (L3); the L3 of both is cache 3.  Every cache has one set of two lines of
    eight bytes, which it stores.  Other numbers stand for last-level caches of their own. *)
Module Example2.

(** The memory controller and the prefetcher are not there. *)
#[export] Instance no_dram : DramCntlrInterface unit :=
  {| getDataFromDram := λ _ _ _ _ _ _, Err NullPointer; putDataToDram := λ _ _ _ _ _, Err NullPointer |}.
#[export] Instance no_prefetcher : Prefetcher unit := λ _ _ _, Err NullPointer.

Definition latency : ComponentLatency.t := ComponentLatency.mk 1 1.
Definition lookup : AddressHomeLookup.t := AddressHomeLookup.mk 3 7 [0] 1 8.
Definition cntlr (i : nat) : CacheCntlr.conf :=
  let core := if (i <? 8)%nat then (i / 4)%nat else 0%nat in
  let level := if (i <? 8)%nat then (i mod 4)%nat else 3%nat in
  CacheCntlr.mk_conf
    (match level with 0%nat => MemComponent.L1_ICACHE | 1%nat => MemComponent.L1_DCACHE
                    | 2%nat => MemComponent.L2_CACHE | _ => MemComponent.L3_CACHE end)
    (Z.of_nat core) (if (level =? 3)%nat then 2 else 1) (if (i =? 7)%nat then 3 else i)%nat
    (match level with 0%nat | 1%nat => Some (4 * core + 2)%nat | 2%nat => Some (4 * core + 3)%nat | _ => None end)
    (Some core) lookup false false true false false false false 8 false latency
    (ComponentBandwidthPerCycle.mk 1 0)
    (CachePerfModel.mk CachePerfModel.CACHE_PERF_MODEL_PARALLEL latency latency true)
    (Z.of_nat i) (100 + Z.of_nat i) true.
Definition cache_conf (m : nat) : CacheCntlr.master_conf :=
  CacheCntlr.mk_mconf (if (m =? 3)%nat then "L3"%string else "other"%string)
    (match m with 2%nat => [0; 1]%nat | 6%nat => [4; 5]%nat | 3%nat => [2; 6]%nat | _ => [] end) false.
Definition cfg : CacheCntlr.config :=
  CacheCntlr.mk_config cntlr cache_conf 3 (λ _, 0) false (replicate 8 170).

Definition base : CacheBase.t :=
  {| CacheBase.m_cache_size := 16; CacheBase.m_associativity := 2; CacheBase.m_blocksize := 8;
     CacheBase.m_hash := CacheBase.HASH_MASK; CacheBase.m_num_sets := 1; CacheBase.m_ahl := None;
     CacheBase.m_log_blocksize := 3; CacheBase.m_log_num_sets := 0 |}.
Definition cache : Cache.t LRU.t :=
  {| Cache.base := base; Cache.m_enabled := false; Cache.m_num_accesses := 0; Cache.m_num_hits := 0;
     Cache.m_sets := [CacheSet.new true 2 8 (LRU.new 2 1)]; Cache.m_set_info := new_info 2 1 |}.
Definition master : CacheCntlr.CacheMasterCntlr LRU.t unit :=
  CacheCntlr.mk_master cache None None ∅ (ContentionModel.new 0) (ContentionModel.new 1) ∅ None [] [] 0.
Definition vars : CacheCntlr.CacheVars :=
  CacheCntlr.mk_vars HitWhere.UNKNOWN (λ _, 0) ShmemPerf.new 0 0.

(** The state at the start. *)
Definition start : CacheCntlr.t LRU.t unit unit :=
  CacheCntlr.mk (λ _, master) (λ _, vars) (λ _, ShmemPerfModel.new) (λ _, ShmemPerf.new) []
    [OnChipUndoBufferCntlr.new lookup (Some 4) (Some 3); OnChipUndoBufferCntlr.new lookup (Some 4) (Some 3)]
    (OnChipUndoBufferCntlr.mk_shared (EpochManager.mk 1 0) [])
    tt (λ _, None) [].

(** A load or a store of one byte by the L1-D of a core. *)
Definition load (address : Z) : CacheCntlr.mem_op :=
  CacheCntlr.mk_op Core.NONE Core.READ address 0 (Some [0]) 1 true true.
Definition store (address value : Z) : CacheCntlr.mem_op :=
  CacheCntlr.mk_op Core.NONE Core.WRITE address 0 (Some [value]) 1 true true.
Definition message (type : ShmemMsg.msg_t) (address : Z) (data : option bytes) : ShmemMsg.t :=
  ShmemMsg.new type MemComponent.TAG_DIR MemComponent.L2_CACHE 0 address (Live <$> data)
    (match data with Some _ => 8 | None => 0 end) (Some 50).

Definition lv (m : nat) : nat := match m with 2%nat | 6%nat => 1%nat | 3%nat => 2%nat | _ => 0%nat end.
Definition geo (m : nat) : CacheModel.config :=
  {| cfg_sets := 1; cfg_assoc := 2; cfg_block := 8; cfg_hash := CacheBase.HASH_MASK |}.

#[export] Instance no_dram_total : TotalDram unit.
Proof. by split. Qed.
#[export] Instance no_prefetcher_laws : PrefetcherLaws 3 unit.
Proof. by exists (λ _, True). Defined.

(** A case for each of the numbers below 8, and one for the others. *)
Ltac each i := destruct i as [|[|[|[|[|[|[|[|i]]]]]]]].

Lemma tree : tree_ok cfg geo 3 2 lv.
Proof.
  split; try done.
  - intros c. each c; eexists; (split; [reflexivity|cbn; lia]).
  - intros m. each m; cbn; lia.
  - intros c n. each c; try discriminate; intros [= <-]; cbn; lia.
  - intros m p. each m; cbn; rewrite ?elem_of_cons, ?elem_of_nil; naive_solver.
  - intros c n Hn. exists c. split; [|done]. revert Hn. each c; try discriminate; intros [= <-]; cbn; rewrite ?elem_of_cons; auto.
  - intros c c'. each c; each c'; try done.
  - intros m p q. each m; cbn; rewrite ?elem_of_cons, ?elem_of_nil; naive_solver.
  - intros m. each m; cbn; rewrite ?NoDup_cons, ?elem_of_cons, ?elem_of_nil; split_and?; try done; try constructor; naive_solver.
Qed.

Lemma example_platform : platform cfg geo 3 2 lv.
Proof. split; [apply tree|done|done|done|]. intros c b. by each c; destruct b. Qed.

Lemma example_initial : initial geo 3 2 start.
Proof.
  split; try done.
  - intros m. exists 1%nat, 8%nat, true, (new_info 2 1), (LRU.new 2 1). split; [done|]. split; [|done].
    split_and!; cbn; lia || done.
  - split_and!; [|done|done]. repeat constructor; done.
Qed.

Abbreviation state := (CacheCntlr.t LRU.t unit unit).

(** The events of a run: loads and stores of a core, messages to the shared L3 and ends of epochs. *)
Inductive event := Access (core : nat) (op : CacheCntlr.mem_op) | Reply (msg : ShmemMsg.t) | EndEpoch.
Definition perform (e : event) : M state unit :=
  match e with
  | Access core op => CacheCntlr.processMemOpFromCore cfg (4 * core + 1) op
  | Reply msg => CacheCntlr.handleMsgFromDramDirectory cfg 9 3 0 msg
  | EndEpoch => λ s, let! (us, g) := run_hooks HOOK_PERIODIC_INS (undo_cntlrs s) (shared s) in Ok (tt, set_undo us g s)
  end.
Definition run (l : list event) : M state unit := foldM (λ _, perform) tt l.
Definition final (l : list event) : state := match run l start with Ok (_, s) => s | Err _ => start end.

Definition allowed (e : event) : Prop :=
  match e with
  | Access core op => (core < 2)%nat ∧ in_u64 (op_address op)
  | Reply msg => msg_ok 3 msg
  | EndEpoch => True
  end.

(** The run succeeds, and a core that waits does not start another access, nor do epochs run out. *)
Fixpoint serial (l : list event) (s : state) : bool :=
  match l with
  | [] => true
  | e :: l => match perform e s with
              | Ok (_, s') => match e with
                              | Access core _ => match waiting s (Z.of_nat core) with None => true | Some _ => false end
                              | Reply _ => true
                              | EndEpoch => sys (shared s) <? 2 ^ 64 - 1
                              end && serial l s'
              | Err _ => false
              end
  end.

Lemma serial_star l s0 s s' :
  Forall allowed l → serial l s = true → run l s = Ok (tt, s') → star (step cfg 3) s0 s → star (step cfg 3) s0 s'.
Proof.
  revert s. induction l as [|e l IH]; intros s Hok Hs Hrun H0; [by injection Hrun as <-|].
  apply Forall_cons in Hok as [He Hok]. unfold run in Hrun. cbn in Hs, Hrun. unfold mbind, M_bind in Hrun.
  destruct (perform e s) as [[[] s1]|] eqn:Ee; [|done]. apply andb_true_iff in Hs as [Hw Hs].
  apply (IH s1); [done..|]. eapply star_step; [exact H0|]. destruct e as [core op|msg|].
  - destruct He as [Hc Ha]. eapply step_access; [|done| |exact Ee]; destruct core as [|[|]]; try lia; try done; cbn in Hw |- *; by case_match.
  - by eapply step_message; [| |exact Ee].
  - apply Z.ltb_lt in Hw. cbn in Ee. destruct (run_hooks _ _ _) as [[us g]|] eqn:Eh; [|done]. injection Ee as <-. by apply step_epoch.
Qed.

Lemma serial_run l s : serial l s = true → ∃ s', run l s = Ok (tt, s').
Proof.
  revert s. induction l as [|e l IH]; intros s Hs; [by exists s|].
  unfold run. cbn in Hs |- *. unfold mbind, M_bind. destruct (perform e s) as [[[] s1]|]; [|done].
  apply andb_true_iff in Hs as [_ Hs]. by apply IH.
Qed.

Lemma run_app l l' s s1 : run l s = Ok (tt, s1) → run (l ++ l') s = run l' s1.
Proof.
  revert s. induction l as [|e l IH]; intros s E; [by injection E as <-|].
  unfold run in *. cbn in E |- *. unfold mbind, M_bind in *. destruct (perform e s) as [[[] s2]|]; [|done]. by apply IH.
Qed.

Lemma reach_app l l' : serial l start = true → Forall allowed l' → serial l' (final l) = true →
  star (step cfg 3) (final l) (final (l ++ l')).
Proof.
  intros [s1 E1]%serial_run Hok Hs. unfold final in *. rewrite (run_app l l' start s1 E1), E1 in *.
  pose proof (serial_run _ _ Hs) as [s2 E2]. rewrite E2. eapply (serial_star l'); [done..|constructor].
Qed.

Lemma reach l : Forall allowed l → serial l start = true → star (step cfg 3) start (final l).
Proof. by apply (reach_app []). Qed.

(** A store by core 0 that misses everywhere; the directory grants the line. *)
Definition owned : list event := [Access 0 (store 64 1); Reply (message ShmemMsg.EX_REP 64 (Some (replicate 8 0)))].

Lemma owned_reachable : star (step cfg 3) start (final owned).
Proof. apply reach; [|by vm_compute]. repeat constructor; try done; cbn; lia. Qed.

Lemma hierarchy_inclusive_witness : inclusive cfg (final owned) ∧ lstate (final owned) 1 8 = Some CacheState.MODIFIED.
Proof.
  split; [|by vm_compute].
  exact (hierarchy_inclusive cfg geo 3 2 example_platform start (final owned) example_initial owned_reachable).
Defined.

Lemma caches_well_formed_witness :
  (∀ m, lines_wf (geo m) (m_cache (masters (final owned) m)) ∧ m_evicting (masters (final owned) m) = None ∧
     Forall (aligned 3) (m_prefetch_list (masters (final owned) m))) ∧
  (∀ m t st, lstate (final owned) m t = Some st → fillable st ∨ st = CacheState.SHARED_UPGRADING) ∧
  (∀ c t, lstate (final owned) (cache_of cfg c) t = Some CacheState.SHARED_UPGRADING → next_of cfg c = None) ∧
  (∀ core w, waiting (final owned) core = Some w → pending_ok cfg 3 w) ∧
  Forall cntlr_wf (undo_cntlrs (final owned)).
Proof. exact (caches_well_formed cfg geo 3 2 example_platform start (final owned) example_initial owned_reachable). Defined.

Lemma access_terminates_witness : processMemOpFromCore cfg 5 (load 64) (final owned) ≠ Err NoFuel.
Proof.
  apply (access_terminates cfg geo 3 2 example_platform start (final owned) 5 (load 64) example_initial owned_reachable); done.
Defined.

(** The L2 of core 0, whose L1-D also has the line, gives it up. *)
Lemma updateCacheBlock_subtree_witness :
  ∃ latency hit s2, updateCacheBlock cfg 3 2 64 CacheState.INVALID Transition.COHERENCY None (final owned) = Ok (latency, hit, None, s2) ∧
    (∀ m, below cfg 2 m → lstate s2 m 8 = None) ∧ lstate s2 3 8 = Some CacheState.MODIFIED.
Proof.
  assert (aligned 3 64) as Ha by (split; [split|]; done).
  destruct (updateCacheBlock_subtree cfg geo 3 2 example_platform start (final owned) 2 3 64 CacheState.INVALID Transition.COHERENCY
    example_initial owned_reachable Ha eq_refl (or_introl eq_refl)) as (lat & hit & s2 & E & L & K & _).
  exists lat, hit, s2. split; [exact E|]. split; [exact L|]. rewrite K; [by vm_compute|].
  right. intros Hb. apply (below_lv cfg tree) in Hb. cbn in Hb. lia.
Defined.

Lemma directory_demands_answered_witness :
  ∃ s2, handleMsgFromDramDirectory cfg 0 3 0 (message ShmemMsg.FLUSH_REQ 64 None) (final owned) = Ok (tt, s2) ∧
    lstate s2 1 8 = None ∧ ∃ p, sent s2 = sent (final owned) ++ [p].
Proof.
  destruct (directory_demands_answered cfg geo 3 2 example_platform start (final owned) 0 3 0
    (message ShmemMsg.FLUSH_REQ 64 None) CacheState.INVALID ShmemMsg.FLUSH_REP) as (s2 & E & [L _] & (time & data & Es & _) & _).
  - exact example_initial.
  - exact owned_reachable.
  - reflexivity.
  - split; [split|]; done.
  - reflexivity.
  - vm_compute. by eexists.
  - intros E. discriminate E.
  - intros E. discriminate E.
  - by eexists.
  - by vm_compute.
  - intros acc. by destruct acc; vm_compute.
  - exists s2. split; [exact E|]. split; [|eexists; exact Es].
    etrans; [apply (L 1%nat)|by vm_compute]. apply (below_prev cfg 3 2 1%nat); [apply (below_prev cfg 3 3 2%nat)|]; cbn; try constructor; rewrite ?elem_of_cons; auto.
Defined.

(** (error) Cores that share a last level can read stale data. Core 0 stores 1 and
    owns the line; core 1 loads it: the shared L3 answers itself and, as its line is dirty,
    gives core 1 the line as [MODIFIED], while core 0 keeps it as [SHARED]. A store of 2 by
    core 1 then hits in its own L1, tells nobody, and core 0 goes on reading 1, the last
    store being 2. The only message that ever left the caches is the first request. *)
Theorem stale_read :
  let s := final (owned ++ [Access 1 (load 64); Access 1 (store 64 2); Access 0 (load 64)]) in
  star (step cfg 3) start s ∧
  returned s = [(0, (HitWhere.L3_OWN, Some [1])); (1, (HitWhere.L3_SIBLING, Some [1]));
                (1, (HitWhere.L1_OWN, Some [2])); (0, (HitWhere.L1_OWN, Some [1]))] ∧
  lstate s 1 8 = Some CacheState.SHARED ∧ lstate s 5 8 = Some CacheState.MODIFIED ∧
  map (λ p, ShmemMsg.m_msg_type (fst (DirCntlr.p_data p))) (sent s) = [ShmemMsg.EX_REQ].
Proof.
  intros s. split; [apply reach; [|by vm_compute]; repeat constructor; try done; cbn; lia|].
  split_and!; by vm_compute.
Qed.
End Example2.
