(* ===== verification/Persistence.v ===== *)
(** PiCL under the full hierarchy of caches: what the undo buffers, the log and the epochs of
    lines promise in every state that accesses of the cores, messages of the directory and
    ends of epochs reach. *)
From stdpp Require Import functions.
From S2P Require Import Prelude Timing BlockInfo AddressMap Replacement CacheModel CacheLines ShmemMsg Memory.
From S2P Require Import Epoch UndoBuffer Picl Log StateResult CacheCntlr Hierarchy Inclusion Accesses Multilevel.
Import CacheCntlr.

(** All entries, and the epochs, of a state. *)
Definition entries {P F D} (s : t P F D) : list UndoEntry := stored (undo_cntlrs s) (shared s).
Definition system_eid {P F D} (s : t P F D) : Z := sys (shared s).

(** New controllers with this gap between the current epoch and the persisted one; no epoch
    has ended. *)
Definition fresh_log (gap : Z) (us : list OnChipUndoBufferCntlr.t) (g : OnChipUndoBufferCntlr.shared) : Prop :=
  Forall (λ u, buffered u = [] ∧ OnChipUndoBufferCntlr.overflow u = 0 ∧ OnChipUndoBufferCntlr.m_acs_gap u = gap) us ∧
  g = OnChipUndoBufferCntlr.mk_shared EpochManager.new [].
Definition no_overflow (us : list OnChipUndoBufferCntlr.t) : Prop := Forall (λ u, OnChipUndoBufferCntlr.overflow u = 0) us.

Lemma fresh_promising undo gap us g : log_wf undo us g → fresh_log gap us g → promising undo gap us g.
Proof.
  intros Hwf [Hu ->]. split; [done|]. intros _. eapply promise_mono; [|apply (init_promise (P := LRU.t) gap true true [])]; [lia|].
  apply log_wf_cntlrs in Hwf. cbn. change (map ?f ?l) with (f <$> l). rewrite Forall_fmap, Forall_forall in *.
  intros u Hin. destruct (Hu u Hin) as (? & ? & ?). by split_and!; [apply Hwf|..].
Qed.

(** Entries whose epochs count as persisted are in the log. *)
Lemma promising_logged undo gap us g x : promising undo gap us g → Z.of_nat (length (stored us g)) < 2 ^ 64 → no_overflow us →
  x ∈ stored us g → m_valid_till_eid x ≤ persisted g → x ∈ logged g.
Proof.
  intros [_ Hp] Hn Hq Hin Ht. apply elem_of_app in Hin as [Hx|Hx]; [done|exfalso]. destruct (Hp Hn) as [_ _ H _].
  apply list_elem_of_bind in Hx as (u & Hx & Hu). cbn in H. change (map ?f ?l) with (f <$> l) in H.
  assert (Picl.quiet (Picl.mk_core 0 <$> us)) as Hquiet by (apply Forall_fmap; exact Hq).
  specialize (H Hquiet). unfold promise in H. rewrite Forall_fmap, Forall_forall in H. specialize (H u Hu). cbn in H.
  rewrite Forall_forall in H. specialize (H x Hx). cbn in H. lia.
Qed.

Section persistence.
Context {P : Type} `{HP : Policy P} {HTP : TotalPolicy P} {F : Type} `{HF : Prefetcher F}
  {D : Type} `{HD : DramCntlrInterface D} {HTD : TotalDram D}.
Context (cfg : CacheCntlr.config) (geo : nat → CacheModel.config) (k : Z) (undo : nat) {HPL : PrefetcherLaws k F}.
Context {lv : nat → nat}.
Context (Hpf : platform cfg geo k undo lv).
Implicit Types s : t P F D.
Abbreviation initial := (initial geo k undo).
Abbreviation step := (step cfg k).

Lemma settled_holds (LI : log_inv undo) s : settled cfg geo k undo LI s → LI (undo_cntlrs s) (shared s).
Proof using Type. intros [Hs _]. apply Hs. Qed.

Lemma reachable_log s s' : initial s → star step s s' → log_wf undo (undo_cntlrs s') (shared s').
Proof using HTP HTD HPL Hpf. intros Hs Hrun. eapply (settled_holds (some_log undo)), reachable_some; eassumption. Qed.

(** A line of a cache that logs carries an epoch other than 0 only with an entry for it. *)
Lemma reachable_marked s s' : initial s → star step s s' →
  ∀ m t b, line (m_cache (masters s' m)) t = Some b → marked cfg s' m t (CacheBlockInfo.m_eid b).
Proof using HTP HTD HPL Hpf.
  intros Hs Hrun. eapply hw_marked, so_wf, so_upright. apply (reachable_some cfg geo k undo Hpf s s' Hs Hrun).
Qed.

(** [C2] (invariant) Write-ahead logging by the whole hierarchy of caches, however cores,
    the directory and epochs follow each other: a line of an L3 cache that carries epoch
    [e > 0] has an undo entry, in a buffer or in the log, with its tag and ending in [e]. All
    entries span from an epoch before the one they end in, none later than the current one;
    no line carries a later epoch, and the persisted epoch is no later either. *)
Theorem marks_are_logged s s' m t b :
  initial s → star step s s' → logging cfg m → line (m_cache (masters s' m)) t = Some b → CacheBlockInfo.m_eid b ≠ 0 →
  (∃ x, x ∈ entries s' ∧ m_tag x = t ∧ m_valid_till_eid x = CacheBlockInfo.m_eid b ∧ m_valid_from_eid x < CacheBlockInfo.m_eid b) ∧
  CacheBlockInfo.m_eid b ≤ system_eid s' ∧ Forall (entry_ok (system_eid s')) (entries s') ∧
  0 ≤ persisted (shared s') ≤ system_eid s'.
Proof using HTP HTD HPL Hpf.
  intros Hs Hrun Hm Hb He. pose proof (reachable_log s s' Hs Hrun) as Hlog. pose proof (log_wf_entries _ _ _ Hlog) as Hall.
  destruct (reachable_marked s s' Hs Hrun m t b Hb) as [Hle [|(x & Hx & Ht & Hx2)]%(λ H, H Hm)]; [done|].
  split_and!; [|apply Hle|done|apply Hlog|apply Hlog]. exists x. split_and!; [done..|].
  rewrite Forall_forall in Hall. destruct (Hall x Hx). lia.
Qed.

(** [C3] (safety) Nothing that was logged is ever lost: whatever happens between two
    states, all entries of the first are among those of the second, as often, whether they
    have moved from buffers to the log or not; and epochs do not go back. *)
Theorem entries_never_lost s s1 s2 :
  initial s → star step s s1 → star step s1 s2 → entries s1 ⊆+ entries s2 ∧ system_eid s1 ≤ system_eid s2.
Proof using HTP HTD HPL Hpf.
  intros Hs H1 H2. pose proof (reachable_some cfg geo k undo Hpf s s1 Hs H1) as Hset.
  assert (settled cfg geo k undo (keeps_log undo (system_eid s1) (entries s1)) s2) as (_ & ? & ?)%settled_holds; [|done].
  eapply (star_invariant step (settled cfg geo k undo _)), H2; [by apply (step_settled cfg geo k undo Hpf)|].
  eapply settled_with; [exact Hset|]. split_and!; [by eapply reachable_log|done|done].
Qed.

(** [C1] (functional) What the persisted epoch promises in the full hierarchy, from new undo
    buffers on: while none has overflowed, every entry that ends in an epoch no later than the
    persisted one is in the log in memory, not in a volatile buffer; hence for each line of an
    L3 cache whose epoch counts as persisted the log has an entry with the tag of the line that
    ends in that epoch. (Only tags and epochs: the entries of this code carry no data to restore
    a line from.) *)
Theorem persisted_lines_recoverable gap s s' :
  initial s → fresh_log gap (undo_cntlrs s) (shared s) → star step s s' →
  Z.of_nat (length (entries s')) < 2 ^ 64 → no_overflow (undo_cntlrs s') →
  (∀ x, x ∈ entries s' → m_valid_till_eid x ≤ persisted (shared s') → x ∈ logged (shared s')) ∧
  ∀ m t b, logging cfg m → line (m_cache (masters s' m)) t = Some b →
    0 < CacheBlockInfo.m_eid b ≤ persisted (shared s') →
    ∃ x, x ∈ logged (shared s') ∧ m_tag x = t ∧ m_valid_till_eid x = CacheBlockInfo.m_eid b.
Proof using HTP HTD HPL Hpf.
  intros Hs Hf Hrun Hn Hq.
  assert (∀ x, x ∈ entries s' → m_valid_till_eid x ≤ persisted (shared s') → x ∈ logged (shared s')) as Hlog.
  { intros x. apply (promising_logged undo gap); [|done..]. apply (settled_holds (promise_log undo gap)).
    eapply reachable_settled; [done|exact Hs| |exact Hrun]. apply fresh_promising; [apply Hs|done]. }
  split; [done|]. intros m t b Hm Hb [He Hp].
  destruct (reachable_marked s s' Hs Hrun m t b Hb) as [_ [|(x & Hx & Ht & Hx2)]%(λ H, H Hm)]; [lia|].
  exists x. split; [|done]. apply Hlog; [done|lia].
Qed.

(** [C4] (termination) Epochs can always end, and so can the program: in every reachable
    state, before the counter of epochs is exhausted, the periodic hooks return, with the
    same entries in buffers and log and the next epoch; the exit hooks return, every buffer
    is then empty, every entry is in the log and the current epoch is the persisted one. *)
Theorem hooks_return s s' : initial s → star step s s' → (0 < undo)%nat →
  (system_eid s' < 2 ^ 64 - 1 → ∃ us g, run_hooks HOOK_PERIODIC_INS (undo_cntlrs s') (shared s') = Ok (us, g) ∧
     step s' (set_undo us g s') ∧ stored us g ≡ₚ entries s' ∧ sys g = system_eid s' + 1) ∧
  ∃ us g, run_hooks HOOK_APPLICATION_EXIT (undo_cntlrs s') (shared s') = Ok (us, g) ∧
    (us ≫= buffered) = [] ∧ logged g ≡ₚ entries s' ∧ persisted g = system_eid s' ∧ sys g = system_eid s'.
Proof using HTP HTD HPL Hpf.
  intros Hs Hrun Hu. pose proof (reachable_log s s' Hs Hrun) as Hlog. split.
  - intros Hn. destruct (periodic_total (undo_cntlrs s') (shared s')) as (us & g & E); [apply Hlog|apply Hlog|].
    destruct (periodic_log undo _ _ us g Hlog Hn E) as (_ & Hsys & Hst & _).
    exists us, g. split_and!; [done|by apply step_epoch|done|done].
  - eapply exit_log; [exact Hlog|]. destruct Hlog as (_ & Hl & _). intros E. rewrite E in Hl. cbn in Hl. lia.
Qed.
End persistence.

(** ** The example

    Core 1 loads the line that core 0 has stored to: the shared L3 takes the value, in epoch
    1, and logs the line. The entry waits in a buffer until epoch 5 begins. *)
Module Example.
Import Example2.

Definition shared_line : list event := owned ++ [Access 1 (load 64)].
Definition later : list event := shared_line ++ replicate 4 EndEpoch.

Lemma shared_line_reachable : star (step cfg 3) start (final shared_line).
Proof. apply reach; [|by vm_compute]. repeat constructor; try done; cbn; lia. Qed.
Lemma later_reachable : star (step cfg 3) start (final later).
Proof. apply reach; [|by vm_compute]. repeat constructor; try done; cbn; lia. Qed.
Lemma epochs_reachable : star (step cfg 3) (final shared_line) (final later).
Proof.
  apply (reach_app shared_line); [by vm_compute|by repeat constructor|by vm_compute].
Qed.

Lemma logging_l3 : logging cfg 3.
Proof. split; [done|]. split; [done|]. intros c _. reflexivity. Qed.

Lemma marks_are_logged_witness :
  (∃ x, x ∈ entries (final shared_line) ∧ m_tag x = 8 ∧ m_valid_till_eid x = 1 ∧ m_valid_from_eid x < 1) ∧
  1 ≤ system_eid (final shared_line) ∧
  Forall (entry_ok (system_eid (final shared_line))) (entries (final shared_line)) ∧
  0 ≤ persisted (shared (final shared_line)) ≤ system_eid (final shared_line).
Proof.
  destruct (line (m_cache (masters (final shared_line) 3)) 8) as [b|] eqn:Eb; [|by vm_compute in Eb].
  assert (CacheBlockInfo.m_eid b = 1) as Ee by (vm_compute in Eb; by injection Eb as <-).
  rewrite <- Ee.
  apply (marks_are_logged cfg geo 3 2 example_platform start (final shared_line) 3 8 b example_initial shared_line_reachable logging_l3 Eb).
  rewrite Ee. discriminate.
Defined.

Lemma entries_never_lost_witness :
  length (entries (final shared_line)) = 1%nat ∧ system_eid (final later) = 5 ∧
  entries (final shared_line) ⊆+ entries (final later) ∧ system_eid (final shared_line) ≤ system_eid (final later).
Proof.
  split; [by vm_compute|]. split; [by vm_compute|].
  exact (entries_never_lost cfg geo 3 2 example_platform start _ _ example_initial shared_line_reachable epochs_reachable).
Defined.

Lemma persisted_lines_recoverable_witness :
  (∀ x, x ∈ entries (final later) → m_valid_till_eid x ≤ 1 → x ∈ logged (shared (final later))) ∧
  ∃ x, x ∈ logged (shared (final later)) ∧ m_tag x = 8 ∧ m_valid_till_eid x = 1.
Proof.
  destruct (persisted_lines_recoverable cfg geo 3 2 example_platform 3 start (final later)) as [H1 H2].
  - exact example_initial.
  - split; [by repeat constructor|done].
  - exact later_reachable.
  - by vm_compute.
  - vm_compute. by repeat constructor.
  - split; [exact H1|]. destruct (line (m_cache (masters (final later) 3)) 8) as [b|] eqn:Eb; [|by vm_compute in Eb].
    assert (CacheBlockInfo.m_eid b = 1) as Ee by (vm_compute in Eb; by injection Eb as <-).
    rewrite <- Ee. apply (H2 3%nat 8 b logging_l3 Eb). rewrite Ee. split; [done|]. by vm_compute.
Defined.

Lemma hooks_return_witness :
  ∃ us g, run_hooks HOOK_APPLICATION_EXIT (undo_cntlrs (final shared_line)) (shared (final shared_line)) = Ok (us, g) ∧
    (us ≫= buffered) = [] ∧ logged g ≡ₚ entries (final shared_line) ∧ persisted g = 1 ∧ sys g = 1.
Proof.
  assert (0 < 2)%nat as Hu by lia.
  exact (proj2 (hooks_return cfg geo 3 2 example_platform start (final shared_line) example_initial shared_line_reachable Hu)).
Defined.
End Example.
