(* ===== verification/Machine.v ===== *)
(** The machine that the constructors build is one that the theorems about the hierarchy are
    about: whatever the number of cores and levels, if the caches of each level are shared by
    as many cores as those of the levels before, or by a multiple of that number.

    [shape]: what has been built after some constructors; each constructor keeps it. *)
From stdpp Require Import functions pretty.
From S2P Require Import Prelude Utils Timing QueueModels BlockInfo AddressMap Replacement CacheModel CacheLines ShmemMsg DirCntlr.
From S2P Require Import Memory Epoch UndoBuffer Picl Log StateResult TlbAtd Prefetchers CacheCntlr Hierarchy Inclusion Accesses Parts Multilevel.
From S2P Require Import Persistence MemoryManager.
Import CacheCntlr MemoryManager.

(** The geometry of a cache, from its parameters. *)
Definition geo_of {P} (c : Cache.t P) : CacheModel.config :=
  {| cfg_sets := CacheBase.m_num_sets (Cache.base c); cfg_assoc := Z.to_nat (CacheBase.m_associativity (Cache.base c));
     cfg_block := CacheBase.m_blocksize (Cache.base c); cfg_hash := CacheBase.m_hash (Cache.base c) |}.

Lemma geo_of_new {P} `{Policy P} ns a bs h fi info (p : P) c : Cache.new ns a bs h None fi info p = Ok c →
  geo_of c = {| cfg_sets := Z.of_nat ns; cfg_assoc := a; cfg_block := Z.of_nat bs; cfg_hash := h |}.
Proof. unfold Cache.new, CacheBase.new. intros E. inv_ok. unfold geo_of. cbn. by rewrite Nat2Z.id. Qed.

(** The level after that of a component. *)
Definition nx (j : nat) : nat := match j with O | S O => 2 | _ => S j end%nat.
(** The components that lead to one. *)
Definition feeders (j : nat) : list nat := match j with O | S O => [] | S (S O) => [0; 1]%nat | S j => [j] end.

Lemma feeders_nx j p : p ∈ feeders j ↔ nx p = j.
Proof.
  destruct j as [|[|[|j]]]; cbn; rewrite ?elem_of_cons, ?elem_of_nil; destruct p as [|[|p]]; cbn; split; try lia;
    intros; destruct_or?; simplify_eq; tauto || lia.
Qed.
Lemma nx_lt j : (j < nx j)%nat. Proof. destruct j as [|[|j]]; cbn; lia. Qed.

Lemma each_seq {P} f a n (b : built (P := P)) (I : nat → built → Prop) :
  I a b → (∀ j b, (a ≤ j < a + n)%nat → I j b → ∃ b', f j b = Ok b' ∧ I (S j) b') →
  ∃ b', each f (seq a n) b = Ok b' ∧ I (a + n)%nat b'.
Proof.
  revert a b. induction n as [|n IH]; intros a b Hb Hf; cbn; [exists b; by rewrite Nat.add_0_r|].
  destruct (Hf a b) as (b1 & E & H1); [lia|done|]. rewrite E. cbn.
  destruct (IH (S a) b1) as (b2 & E2 & H2); [done|intros j b' Hj; apply Hf; lia|]. exists b2. by rewrite <- Nat.add_succ_comm.
Qed.

(** ** Sharing *)

Section sharing.
Context (g : sim_cfg) (s : nat → nat) (n : nat).

(** How many cores share a cache of a core, and the first of them. *)
Definition shr (q j : nat) : nat := if is_application g q then s j else 1%nat.
Definition mc (q j : nat) : nat := (q - q `mod` shr q j)%nat.
Definition width : nat := S n.
Definition num (q j : nat) : nat := (q * width + j)%nat.

Lemma num_inj q j q' j' : (j < width)%nat → (j' < width)%nat → num q j = num q' j' → q = q' ∧ j = j'.
Proof. unfold num. intros Hj Hj' E. assert (q = q') as -> by nia. split; [done|lia]. Qed.

Context (Hs : ∀ j, (0 < s j)%nat).

Lemma shr_pos q j : (0 < shr q j)%nat.
Proof using Hs. unfold shr. case_match; [apply Hs|lia]. Qed.
Lemma mc_le q j : (mc q j ≤ q)%nat. Proof. unfold mc. lia. Qed.
Lemma mc_app q j : is_application g (mc q j) = is_application g q.
Proof using Hs.
  unfold mc, shr. destruct (is_application g q) eqn:E; unfold is_application in *.
  - apply Nat.ltb_lt in E. apply Nat.ltb_lt. lia.
  - by rewrite Nat.mod_1_r, Nat.sub_0_r.
Qed.
Lemma mc_mult q j : ∃ x, mc q j = (x * shr q j)%nat ∧ (mc q j ≤ q < mc q j + shr q j)%nat.
Proof using Hs.
  pose proof (shr_pos q j) as Hp. exists (q / shr q j)%nat. unfold mc.
  pose proof (Nat.div_mod_eq q (shr q j)). pose proof (Nat.mod_upper_bound q (shr q j)). lia.
Qed.
Lemma mc_unique q j x : (x * shr q j ≤ q < x * shr q j + shr q j)%nat → mc q j = (x * shr q j)%nat.
Proof using Hs. intros Hx. destruct (mc_mult q j) as (y & Ey & Hy). rewrite Ey in *. assert (x = y) as -> by nia. done. Qed.
Lemma mc_shr q j j' : shr (mc q j) j' = shr q j'.
Proof using Hs. unfold shr. by rewrite mc_app. Qed.
Lemma mc_idem q j : mc (mc q j) j = mc q j.
Proof using Hs.
  destruct (mc_mult q j) as (x & Ex & _). rewrite Ex at 2. rewrite <- (mc_shr q j j). apply mc_unique.
  rewrite mc_shr. pose proof (shr_pos q j). lia.
Qed.

(** Cores that share a cache share the one that it leads to. *)
Lemma mc_next q j j' : (s j | s j')%nat → mc (mc q j) j' = mc q j'.
Proof using Hs.
  intros Hd. destruct (mc_mult q j) as (x & Ex & Hx). destruct (mc_mult q j') as (y & Ey & Hy).
  assert (shr q j | shr q j')%nat as [z Hz] by (unfold shr; case_match; [done|by exists 1%nat]).
  rewrite Ey, <- (mc_shr q j j'). apply mc_unique. rewrite mc_shr. pose proof (shr_pos q j). pose proof (shr_pos q j').
  rewrite Ex, Ey in *. rewrite Hz in *. split; [|nia]. assert (y * z < S x)%nat by nia. nia.
Qed.
End sharing.

(** ** Configurations *)

Section sane.
Context {P : Type} `{Policy P, PolicyFactory P} (g : sim_cfg) (k : Z) (Hk : 1 ≤ k < 32) (n : nat) (s : nat → nat).
#[local] Instance prefetcher_laws : PrefetcherLaws k AnyPrefetcher.t := any_laws k Hk.

(** The configuration of one cache: its parameters are consistent, it and its prefetcher can
    be created, its lines have [2^k] bytes, and it is what the theorems about the hierarchy
    are about: coherent, neither perfect nor passed through. *)
Record cache_sane (q j : nat) : Prop := {
  cs_shared : u32 (c_shared_cores (cache_config g q j) * logical_cpus g) = Z.of_nat (s j);
  cs_perfect : c_perfect (cache_config g q j) = false;
  cs_passthrough : c_passthrough (cache_config g q j) = false;
  cs_coherent : j = 0%nat → c_coherent (cache_config g q j) = true;
  cs_writethrough : c_writethrough (cache_config g q j) = true → j ≠ n;
  cs_model : is_ok (CachePerfModel.parseModelType (c_perf_model_type (cache_config g q j))) = true;
  cs_made : ∃ p x, cache_parameters g q n j = Ok p ∧ new_master g q j p = Ok x ∧
    config_ok (geo_of (m_cache (snd x))) ∧ ∀ f, m_prefetcher (snd x) = Some f → prefetch_inv (k := k) f;
}.

(** That of the places of controllers and directories, as a core sees it. *)
Record places_sane (q : nat) (dram dirs : list Z) (lookup lookup' : AddressHomeLookup.t) : Prop := {
  ps_dram : getCoreListWithMemoryControllers g = Ok dram;
  ps_dirs : core_list_with_tag_directories g dram (Z.of_nat (shr g s q n)) = Ok dirs;
  ps_lookup : AddressHomeLookup.new (u32 (directory_home_lookup_param g)) dirs (u32 (l1_block_size g)) = Ok lookup;
  ps_lookup' : AddressHomeLookup.new (u32 (directory_home_lookup_param g)) dram (u32 (l1_block_size g)) = Ok lookup';
  ps_home : is_ok (AddressHomeLookup.getHome lookup OnChipUndoBufferCntlr.getLogAddress) = true;
  ps_masters : Z.of_nat q ∈ dram ∨ Z.of_nat q ∈ dirs → mc g s q n = q;
  ps_direct : direct_access g = true → is_application g q = true → mc g s q n = q →
    Z.of_nat (application_cores g) ≤ Z.of_nat (s n) ∧ Z.of_nat q ∈ dram;
}.

Record sane : Prop := {
  sn_cores : (0 < total_cores g)%nat;
  sn_levels : cache_levels g = Z.of_nat n ∧ (2 ≤ n ≤ 4)%nat;
  sn_block : l1_block_size g = 2 ^ k;
  sn_uninit : length (uninitialised g) = Z.to_nat (2 ^ k);
  sn_share j : (0 < s j)%nat;
  sn_divides j : (j < n)%nat → (s j | s (nx j))%nat;
  sn_tlbs : is_ok (new_tlbs g) = true;
  sn_cache q j : (q < total_cores g)%nat → (j ≤ n)%nat → cache_sane q j;
  sn_places q : (q < total_cores g)%nat → ∃ dram dirs lookup lookup', places_sane q dram dirs lookup lookup';
}.

(** ** What has been built *)

Abbreviation W := (width n).
Abbreviation id := (num n).
Abbreviation mc := (mc g s).
Abbreviation shr := (shr g s).
Abbreviation built := (MemoryManager.built (P := P)).

Record conf_ok (q j : nat) (c : conf) : Prop := {
  ck_component : m_mem_component c = component_of j;
  ck_core : m_core_id c = Z.of_nat q;
  ck_shared : m_shared_cores c = Z.of_nat (shr q j);
  ck_master : m_master c = id (mc q j) j;
  ck_block : CacheCntlr.m_cache_block_size c = Z.to_nat (2 ^ k);
  ck_coherent : m_coherent c = true;
  ck_plain : m_perfect c = false ∧ m_passthrough c = false;
  ck_writethrough : m_cache_writethrough c = true → j ≠ n;
  ck_picl : m_picl_enabled c = picl g;
}.

(** What a new cache is. *)
Record cache_fresh (j : nat) (prevs : list nat) (x : master_conf * CacheMasterCntlr P AnyPrefetcher.t) : Prop := {
  cf_name : m_name (fst x) = name_of j;
  cf_prevs : m_prev_cache_cntlrs (fst x) = prevs;
  cf_new : ∃ ns fi info p, Cache.new ns (cfg_assoc (geo_of (m_cache (snd x)))) (Z.to_nat (2 ^ k))
    (cfg_hash (geo_of (m_cache (snd x)))) None fi info p = Ok (m_cache (snd x));
  cf_geo : config_ok (geo_of (m_cache (snd x)));
  cf_quiet : m_evicting (snd x) = None ∧ m_prefetch_list (snd x) = [];
  cf_prefetcher f : m_prefetcher (snd x) = Some f → prefetch_inv (k := k) f;
}.

(** The first [Q] cores, and the first [J] components of the next one. *)
Definition here (Q J q j : nat) : Prop := (q < Q ∧ j < W ∨ q = Q ∧ j < J)%nat.

(** The links of controllers to the next level and to undo buffers, and of caches to the
    previous level, are [nxt], [und] and [prv]. *)
Record shape (Q J : nat) (nxt und : nat → nat → option nat) (prv : nat → nat → list nat) (b : built) : Prop := {
  sh_cntlrs : length (cntlrs b) = (Q * W + J)%nat;
  sh_cntlr q j : here Q J q j → ∃ c, cntlrs b !! id q j = Some c ∧ conf_ok q j c ∧
    m_next_cache_cntlr c = nxt q j ∧ m_onchip_undo_buffer_cntlr c = und q j;
  sh_all q j : here Q J q j → all_cache_cntlrs b !! (q, j) = Some (id q j);
  sh_cache q j : here Q J q j → mc q j = q → ∃ x, caches b !! id q j = Some x ∧ cache_fresh j (prv q j) x;
  sh_only i x : caches b !! i = Some x → ∃ q j, here Q J q j ∧ mc q j = q ∧ i = id q j;
}.

Lemma here_W Q J q j : (J ≤ W)%nat → here Q J q j → (j < W)%nat.
Proof. intros HJ [[]|[]]; lia. Qed.
Lemma here_num Q J q j : (J ≤ W)%nat → here Q J q j ↔ (j < W ∧ id q j < Q * W + J)%nat.
Proof. intros HJ. unfold here, num. split; [intros [[]|[-> ?]]; nia|]. intros [Hj Hi]. destruct (lt_eq_lt_dec q Q) as [[|]|]; [lia..|nia]. Qed.

Lemma shape_ext Q J nxt und prv nxt' und' prv' b : (∀ q j, here Q J q j → nxt q j = nxt' q j ∧ und q j = und' q j ∧ prv q j = prv' q j) →
  shape Q J nxt und prv b → shape Q J nxt' und' prv' b.
Proof.
  intros He [S1 S2 S3 S4 S5]. split; [done| |done| |done].
  - intros q j Hh. destruct (He q j Hh) as (<- & <- & _). by apply S2.
  - intros q j Hh Hm. destruct (He q j Hh) as (_ & _ & <-). by apply S4.
Qed.

(** A controller is changed. *)
Lemma shape_upd Q J nxt und prv nxt' und' q0 j0 f b : (J ≤ W)%nat → here Q J q0 j0 → shape Q J nxt und prv b →
  (∀ c, conf_ok q0 j0 c → m_next_cache_cntlr c = nxt q0 j0 → m_onchip_undo_buffer_cntlr c = und q0 j0 →
     conf_ok q0 j0 (f c) ∧ m_next_cache_cntlr (f c) = nxt' q0 j0 ∧ m_onchip_undo_buffer_cntlr (f c) = und' q0 j0) →
  (∀ q j, q ≠ q0 ∨ j ≠ j0 → nxt' q j = nxt q j ∧ und' q j = und q j) →
  ∃ b', upd_cntlr (id q0 j0) f b = Ok b' ∧ shape Q J nxt' und' prv b' ∧ undos b' = undos b ∧ mms b' = mms b.
Proof.
  intros HJ Hh [S1 S2 S3 S4 S5] Hf Ho. destruct (S2 q0 j0 Hh) as (c & Hc & Hok & Hn & Hu).
  unfold upd_cntlr, get_cntlr, arr_get. rewrite Hc. cbn. eexists. split; [done|]. split; [|done].
  split; [by cbn; rewrite length_insert| |done..]. intros q j Hqj. cbn.
  destruct (decide (q = q0 ∧ j = j0)) as [[-> ->]|Hne].
  - exists (f c). rewrite list_lookup_insert_eq by (by eapply lookup_lt_Some). split; [done|]. by apply Hf.
  - rewrite list_lookup_insert_ne.
    + destruct (S2 q j Hqj) as (c' & ? & ? & ? & ?). exists c'. destruct (Ho q j) as [-> ->]; [|done].
      destruct (decide (q = q0)) as [->|]; [right; intros ->; by apply Hne|by left].
    + intros E. apply num_inj in E as [-> ->]; [by apply Hne|by eapply here_W..].
Qed.

(** ** The constructors *)

Lemma params_spec q j p : cache_sane q j → cache_parameters g q n j = Ok p →
  CacheParameters.shared_cores p = Z.of_nat (shr q j) ∧ CacheParameters.perfect p = false ∧
  CacheParameters.coherent p = true ∧ (CacheParameters.writethrough p = true → j ≠ n) ∧
  CacheParameters.perf_model_type p = c_perf_model_type (cache_config g q j).
Proof.
  intros Hc E. unfold cache_parameters in E. inv_ok. unfold shr.
  pose proof (cs_shared _ _ Hc) as Hsh. pose proof (cs_coherent _ _ Hc) as Hco.
  destruct (is_application g q); cbn; (split_and!; [done|apply Hc| |apply Hc|done]); by destruct j; [apply Hco|].
Qed.

Lemma new_master_fresh q j p x : sane → cache_sane q j → cache_parameters g q n j = Ok p → new_master g q j p = Ok x →
  cache_fresh j [] x.
Proof.
  intros Hg Hc Ep Ex. destruct (cs_made _ _ Hc) as (p' & x' & Ep' & Ex' & Hgeo & Hpre).
  rewrite Ep in Ep'. injection Ep' as <-. rewrite Ex in Ex'. injection Ex' as <-.
  pose proof (sn_block Hg) as Hb. unfold new_master in Ex. inv_ok. split; try done. cbn.
  match goal with H : Cache.new ?ns _ _ _ _ ?fi ?info ?p = Ok ?c |- _ => exists ns, fi, info, p; rename H into Hnew end.
  pose proof Hnew as Hnew'. unfold Cache.new, CacheBase.new in Hnew'. inv_ok. cbn in *. rewrite Nat2Z.id. rewrite <- Hnew.
  rewrite Hb, u32_small; [done|]. pose proof (Z.pow_lt_mono_r 2 k 32 ltac:(lia) ltac:(lia) ltac:(lia)). rlia.
Qed.

(** A constructor of a controller: what it makes is right and not linked. *)
Lemma new_cntlr_shape q j lookup p nxt und prv b : sane → cache_sane q j → (j ≤ n)%nat → cache_parameters g q n j = Ok p →
  nxt q j = None → und q j = None → prv q j = [] → shape q j nxt und prv b →
  ∃ b', new_cntlr g q j n lookup p b = Ok b' ∧ shape q (S j) nxt und prv b' ∧ undos b' = undos b ∧ mms b' = mms b.
Proof.
  intros Hg Hc Hj Ep Hn Hu Hp [S1 S2 S3 S4 S5]. destruct (params_spec q j p Hc Ep) as (Esh & Epf & Eco & Ewt & _).
  pose proof (shr_pos g s (sn_share Hg) q j) as Hpos. pose proof (cs_passthrough _ _ Hc) as Epass.
  assert (length (cntlrs b) = id q j) as Elen by (unfold num, width in *; lia).
  assert (∀ q' j', here q (S j) q' j' → here q j q' j' ∨ q' = q ∧ j' = j) as Hhere by (unfold here; intros; lia).
  assert (∀ q' j', here q j q' j' → id q' j' ≠ id q j) as Hold.
  { intros q' j' Hh E. apply num_inj in E as [-> ->]; [unfold here in Hh; lia| |unfold width; lia].
    eapply here_W; [|exact Hh]. unfold width. lia. }
  assert (∃ m b1, (if (q =? mc q j)%nat then let! x := new_master g q j p in Ok (id q j, put_cache (id q j) x b)
             else match all_cache_cntlrs b !! (mc q j, j) with
                  | Some k => let! x := get_cntlr k b in Ok (m_master x, b) | None => Err NullPointer end) = Ok (m, b1) ∧
    m = id (mc q j) j ∧ is_Some (caches b1 !! m) ∧ cntlrs b1 = cntlrs b ∧ all_cache_cntlrs b1 = all_cache_cntlrs b ∧
    undos b1 = undos b ∧ mms b1 = mms b ∧
    (∀ q' j', here q (S j) q' j' → mc q' j' = q' → ∃ x, caches b1 !! id q' j' = Some x ∧ cache_fresh j' (prv q' j') x) ∧
    (∀ i x, caches b1 !! i = Some x → ∃ q' j', here q (S j) q' j' ∧ mc q' j' = q' ∧ i = id q' j')) as (m & b1 & E & Em & Hm & E1 & E2 & E3 & E4 & H4 & H5).
  { destruct (Nat.eqb_spec q (mc q j)) as [Eq|Hne].
    - destruct (cs_made _ _ Hc) as (p' & x & Ep' & Ex & _). rewrite Ep in Ep'. injection Ep' as <-. rewrite Ex. cbn.
      eexists _, _. split; [done|]. rewrite <- Eq. split_and!; try done; [by eexists; apply lookup_insert_eq| |].
      + intros q' j' Hh Hm. cbn. apply Hhere in Hh as [Hh|[-> ->]].
        * rewrite lookup_insert_ne by (symmetry; by apply Hold). by apply S4.
        * rewrite lookup_insert_eq, Hp. exists x. split; [done|]. by eapply new_master_fresh.
      + intros i y. cbn. intros Hy. apply lookup_insert_Some in Hy as [[<- _]|[_ Hy]].
        * exists q, j. split; [unfold here; lia|by split].
        * apply S5 in Hy as (q' & j' & ? & ?). exists q', j'. split; [|done]. unfold here in *. lia.
    - assert (here q j (mc q j) j) as Hh.
      { pose proof (mc_le g s q j). left. unfold width. lia. }
      rewrite (S3 _ _ Hh). destruct (S2 _ _ Hh) as (c & Ec & Hok & _). unfold get_cntlr, arr_get. rewrite Ec. cbn.
      eexists _, _. split; [done|]. pose proof (mc_idem g s (sn_share Hg) q j) as Hidem.
      rewrite (ck_master _ _ _ Hok), Hidem. split_and!; try done.
      + destruct (S4 _ _ Hh Hidem) as (x & -> & _). by eexists.
      + intros q' j' Hh' Hm. apply Hhere in Hh' as [Hh'|[-> ->]]; [by apply S4|]. by rewrite Hm in Hne.
      + intros i y Hy. apply S5 in Hy as (q' & j' & ? & ?). exists q', j'. split; [|done]. unfold here in *. lia. }
  unfold new_cntlr. rewrite Esh. unfold umod.
  assert (Z.of_nat q `mod` Z.of_nat (shr q j) = Z.of_nat (q `mod` shr q j)) as Erem by (by rewrite Nat2Z.inj_mod).
  destruct (Z.eqb_spec (Z.of_nat (shr q j)) 0); [lia|]. cbn [rbind]. rewrite Erem.
  replace (Z.to_nat (Z.of_nat q - Z.of_nat (q `mod` shr q j))) with (mc q j) by (unfold Machine.mc; lia).
  rewrite Epass, orb_true_r. cbn [rbind check]. rewrite Elen, E. cbn [rbind]. unfold get_cache.
  destruct Hm as [[mcf x] Hx]. rewrite Hx. cbn [rbind]. eexists. split; [done|]. split; [|by cbn].
  split; cbn.
  - rewrite E1, length_app. cbn. unfold num in Elen. lia.
  - intros q' j' [Hh|[-> ->]]%Hhere.
    + destruct (S2 _ _ Hh) as (c & ? & ?). exists c. split; [|done]. rewrite E1. by apply lookup_app_l_Some.
    + eexists. rewrite E1, lookup_app_r, Elen, Nat.sub_diag by lia. split; [done|]. rewrite Hn, Hu. split; [|done].
      split; try done. cbn. rewrite (sn_block Hg), u32_small; [done|].
      pose proof (Z.pow_lt_mono_r 2 k 32 ltac:(lia) ltac:(lia) ltac:(lia)). rlia.
  - intros q' j' [Hh|[-> ->]]%Hhere; [|by rewrite lookup_insert_eq]. rewrite lookup_insert_ne, E2; [by apply S3|].
    intros [= -> ->]. by eapply Hold.
  - done.
  - done.
Qed.

(** ** The links of one core *)

(** The final links: to the next level, to the undo buffer of the core; and the controllers
    of the first [Q] cores that lead to a cache. *)
Definition nxt_final (q j : nat) : option nat := if (j =? n)%nat then None else Some (id q (nx j)).
Definition und_final (q j : nat) : option nat := Some q.
Definition leads (q r j : nat) : list nat :=
  if (mc q j =? r)%nat then map (id q) (List.filter (λ p, (mc q p =? q)%nat) (feeders j)) else [].
Fixpoint prevs_upto (Q r j : nat) : list nat :=
  match Q with O => [] | S Q => prevs_upto Q r j ++ leads Q r j end.

(** They are set for one component after the other. *)
Definition upto {A} (Q m : nat) (a0 : A) (f : nat → nat → A) (q j : nat) : A :=
  if (q <? Q)%nat then f q j else if (j <? m)%nat then f q j else a0.
Definition prv_upto (Q m : nat) (r j : nat) : list nat := if (j <? m)%nat then prevs_upto (S Q) r j else prevs_upto Q r j.

Lemma upto_other {A} Q m (a0 : A) f q j : q ≠ Q ∨ j ≠ m → here Q W q j → upto Q (S m) a0 f q j = upto Q m a0 f q j.
Proof. intros Hne Hh. unfold upto. destruct (Nat.ltb_spec q Q), (Nat.ltb_spec j m), (Nat.ltb_spec j (S m)); try done; unfold here in Hh; lia. Qed.

Lemma prevs_new Q r j : (Q ≤ r)%nat → prevs_upto Q r j = [].
Proof.
  induction Q as [|Q IH]; intros HQ; [done|]. cbn. rewrite IH by lia. unfold leads. pose proof (mc_le g s Q j).
  destruct (Nat.eqb_spec (mc Q j) r); [lia|done].
Qed.

Lemma isMasterCache_ok q j c : sane → conf_ok q j c → isMasterCache c = (mc q j =? q)%nat.
Proof.
  intros Hg Hc. unfold isMasterCache, m_core_id_master. rewrite (ck_core _ _ _ Hc), (ck_shared _ _ _ Hc).
  pose proof (shr_pos g s (sn_share Hg) q j). rewrite Z.rem_mod_nonneg, <- Nat2Z.inj_mod by lia.
  unfold Machine.mc. pose proof (Nat.Div0.mod_le q (shr q j)).
  destruct (Nat.eqb_spec (q - q `mod` shr q j) q); [apply Z.eqb_eq|apply Z.eqb_neq]; lia.
Qed.

Lemma num_base Q j : (id Q 0 + j)%nat = id Q j.
Proof. unfold num. lia. Qed.

Lemma link_next_shape Q m und prv b : sane → (Q < total_cores g)%nat → (m < n)%nat → shape Q W (upto Q m None nxt_final) und prv b →
  ∃ b', link_next (id Q 0) m (nx m) b = Ok b' ∧ shape Q W (upto Q (S m) None nxt_final) und prv b' ∧ undos b' = undos b ∧ mms b' = mms b.
Proof.
  intros Hg HQ Hm Hb. unfold link_next. rewrite !num_base.
  assert (here Q W Q m) as Hh by (right; unfold width; lia).
  destruct (shape_upd Q W _ und prv (λ q j, if decide (q = Q ∧ j = m) then Some (id Q (nx m)) else upto Q m None nxt_final q j) und
    Q m (set_next (Some (id Q (nx m)))) b (Nat.le_refl _) Hh Hb) as (b' & E & Hb' & Hrest).
  - intros c [] Hn Hu. split; [by split|]. split; [by rewrite decide_True|done].
  - intros q j Hne. split; [|done]. rewrite decide_False; [done|]. intros [-> ->]. by destruct Hne.
  - exists b'. split; [done|]. split; [|done]. eapply shape_ext; [|exact Hb']. intros q j Hqj. split_and!; [|done|done].
    destruct (decide _) as [[-> ->]|Hne].
    + unfold upto, nxt_final. rewrite Nat.ltb_irrefl. destruct (Nat.ltb_spec m (S m)), (Nat.eqb_spec m n); done || lia.
    + symmetry. apply upto_other; [|done]. destruct (decide (q = Q)) as [->|]; [right; intros ->; by apply Hne|by left].
Qed.

(** A cache is changed. *)
Lemma shape_put Q J nxt und prv prv' q0 j0 f x b : (J ≤ W)%nat → here Q J q0 j0 → mc q0 j0 = q0 → shape Q J nxt und prv b →
  caches b !! id q0 j0 = Some x → (cache_fresh j0 (prv q0 j0) x → cache_fresh j0 (prv' q0 j0) (f x)) →
  (∀ q j, here Q J q j → q ≠ q0 ∨ j ≠ j0 → mc q j = q → prv' q j = prv q j) →
  shape Q J nxt und prv' (put_cache (id q0 j0) (f x) b).
Proof.
  intros HJ Hh Hm [S1 S2 S3 S4 S5] Hx Hf Ho. split; [done..| |].
  - intros q j Hqj Hmq. cbn. destruct (decide (q = q0 ∧ j = j0)) as [[-> ->]|Hne].
    + exists (f x). rewrite lookup_insert_eq. split; [done|]. apply Hf. destruct (S4 _ _ Hh Hm) as (y & Hy & Hok).
      rewrite Hx in Hy. by injection Hy as <-.
    + assert (q ≠ q0 ∨ j ≠ j0) as Hne' by (destruct (decide (q = q0)) as [->|]; [right; intros ->; by apply Hne|by left]).
      rewrite lookup_insert_ne, (Ho q j); [by apply S4|done|done|done|].
      intros E. apply num_inj in E as [-> ->]; [by apply Hne|by eapply here_W..].
  - intros i y Hy. cbn in Hy. apply lookup_insert_Some in Hy as [[<- _]|[_ Hy]]; [by exists q0, j0|by eapply S5].
Qed.

Lemma link_prev_shape Q m nxt und b : sane → (Q < total_cores g)%nat → (2 ≤ m ≤ n)%nat → shape Q W nxt und (prv_upto Q m) b →
  ∃ b', link_prev (id Q 0) m (feeders m) b = Ok b' ∧ shape Q W nxt und (prv_upto Q (S m)) b' ∧ undos b' = undos b ∧ mms b' = mms b.
Proof.
  intros Hg HQ Hm Hb. unfold link_prev. rewrite num_base.
  assert (∀ j, (j ≤ n)%nat → here Q W Q j) as Hhere by (intros; right; unfold width; lia).
  destruct (sh_cntlr _ _ _ _ _ _ Hb Q m (Hhere m ltac:(lia))) as (c & Hc & Hok & _).
  destruct (sh_cntlr _ _ _ _ _ _ Hb Q 0 (Hhere 0%nat ltac:(lia))) as (c0 & Hc0 & _).
  unfold get_cntlr, arr_get. rewrite Hc. cbn [rbind]. rewrite (ck_master _ _ _ Hok).
  pose proof (mc_idem g s (sn_share Hg) Q m) as Hidem. pose proof (mc_le g s Q m) as Hle.
  assert (here Q W (mc Q m) m) as Hh by (unfold here, width; lia).
  destruct (sh_cache _ _ _ _ _ _ Hb _ _ Hh Hidem) as (x & Hx & _). unfold get_cache. rewrite Hx. cbn [rbind]. rewrite Hc0. cbn [rbind].
  eexists. split; [done|]. split; [|done].
  assert (List.filter (λ i, isMasterCache (default c0 (cntlrs b !! i))) (map (λ p, (id Q 0 + p)%nat) (feeders m)) =
          map (id Q) (List.filter (λ p, (mc Q p =? Q)%nat) (feeders m))) as Efl.
  { assert (∀ l, Forall (λ p, p ≤ n)%nat l → List.filter (λ i, isMasterCache (default c0 (cntlrs b !! i))) (map (λ p, (id Q 0 + p)%nat) l) =
          map (id Q) (List.filter (λ p, (mc Q p =? Q)%nat) l)) as Hl.
    { induction l as [|p l IH]; intros Hall; [done|]. apply Forall_cons in Hall as [Hp Hall]. cbn. rewrite num_base, IH by done.
      destruct (sh_cntlr _ _ _ _ _ _ Hb Q p (Hhere p Hp)) as (cp & -> & Hokp & _). cbn.
      rewrite (isMasterCache_ok Q p cp Hg Hokp). by destruct (mc Q p =? Q)%nat. }
    apply Hl, Forall_forall. intros p Hp. apply feeders_nx in Hp. pose proof (nx_lt p). lia. }
  eapply (shape_put Q W nxt und (prv_upto Q m) (prv_upto Q (S m)) (mc Q m) m
    (λ x, (setPrevCacheCntlrs (λ i, default c0 (cntlrs b !! i)) (fst x) (map (λ p, (id Q 0 + p)%nat) (feeders m)), snd x)) x b); try done.
  - intros [F1 F2 F3 F4 F5 F6]. split; try done. cbn. rewrite F2, Efl. unfold prv_upto.
    destruct (Nat.ltb_spec m m); [lia|]. destruct (Nat.ltb_spec m (S m)); [|lia]. cbn. unfold leads. by rewrite Nat.eqb_refl.
  - intros q j Hqj Hne Hmq. unfold prv_upto. destruct (Nat.ltb_spec j m), (Nat.ltb_spec j (S m)); try done; [lia|].
    assert (j = m) as -> by lia. cbn. unfold leads. destruct (Nat.eqb_spec (mc Q m) q); [|by rewrite app_nil_r].
    destruct Hne; congruence.
Qed.

Lemma link_shape Q und b : sane → (Q < total_cores g)%nat → shape Q W (upto Q 0 None nxt_final) und (prevs_upto Q) b →
  ∃ b', link (id Q 0) n b = Ok b' ∧ shape Q W nxt_final und (prevs_upto (S Q)) b' ∧ undos b' = undos b ∧ mms b' = mms b.
Proof.
  intros Hg HQ Hb. pose proof (proj2 (sn_levels Hg)) as Hn. unfold link.
  destruct (link_next_shape Q 0 und (prevs_upto Q) b Hg HQ ltac:(lia) Hb) as (b1 & E1 & H1 & U1 & M1). cbn in E1. rewrite E1. cbn [rbind].
  destruct (link_next_shape Q 1 und (prevs_upto Q) b1 Hg HQ ltac:(lia) H1) as (b2 & E2 & H2 & U2 & M2). cbn in E2. rewrite E2. cbn [rbind].
  destruct (each_seq (λ j, link_next (id Q 0) j (S j)) 2 (n - 2) b2
    (λ m b', shape Q W (upto Q m None nxt_final) und (prevs_upto Q) b' ∧ undos b' = undos b ∧ mms b' = mms b)) as (b3 & E3 & H3 & U3 & M3).
  { split; [done|]. split; congruence. }
  { intros j b' Hj (Hs' & U & M). destruct (link_next_shape Q j und (prevs_upto Q) b' Hg HQ ltac:(lia) Hs') as (b'' & E & ? & ? & ?).
    exists b''. split; [|split; [done|split; congruence]]. by destruct j as [|[|j]]; [lia..|]. }
  rewrite E3. cbn [rbind]. replace (2 + (n - 2))%nat with n in H3 by lia.
  assert (shape Q W nxt_final und (prv_upto Q 2) b3) as H3'.
  { eapply shape_ext; [|exact H3]. intros q j Hqj. apply here_W in Hqj as Hj; [|done]. unfold upto, prv_upto, nxt_final, width in *. split_and!; [|done|].
    - destruct (Nat.ltb_spec q Q); [done|]. destruct (Nat.ltb_spec j n), (Nat.eqb_spec j n); done || lia.
    - destruct j as [|[|j]]; cbn; [by destruct (leads _ _ _) eqn:El; [rewrite app_nil_r|unfold leads in El; cbn in El; case_match]..|done]. }
  destruct (link_prev_shape Q 2 nxt_final und b3 Hg HQ ltac:(lia) H3') as (b4 & E4 & H4 & U4 & M4). cbn in E4. rewrite E4. cbn [rbind].
  destruct (each_seq (λ j, link_prev (id Q 0) (S j) [j]) 2 (n - 2) b4
    (λ m b', shape Q W nxt_final und (prv_upto Q (S m)) b' ∧ undos b' = undos b ∧ mms b' = mms b)) as (b5 & E5 & H5 & U5 & M5).
  { split; [done|]. split; congruence. }
  { intros j b' Hj (Hs' & U & M). destruct (link_prev_shape Q (S j) nxt_final und b' Hg HQ ltac:(lia) Hs') as (b'' & E & ? & ? & ?).
    exists b''. split; [|split; [done|split; congruence]]. by destruct j as [|[|j]]; [lia..|]. }
  exists b5. rewrite E5. split; [done|]. split; [|done]. eapply shape_ext; [|exact H5]. intros q j Hqj. split_and!; [done..|].
  apply here_W in Hqj; [|done]. unfold prv_upto, width in *. destruct (Nat.ltb_spec j (S (2 + (n - 2)))); [done|lia].
Qed.

(** Controllers are changed one by one, but not where they lead. *)
Lemma upd_all Q nxt und prv (und' : nat → nat → option nat) (f : nat → conf → conf) b : (Q < total_cores g)%nat → shape Q W nxt und prv b →
  (∀ j c, (j ≤ n)%nat → conf_ok Q j c → conf_ok Q j (f j c) ∧ m_next_cache_cntlr (f j c) = m_next_cache_cntlr c ∧
     ((m_onchip_undo_buffer_cntlr c = und Q j → m_onchip_undo_buffer_cntlr (f j c) = und' Q j))) →
  (∀ q j, here Q W q j → q ≠ Q → und' q j = und q j) →
  ∃ b', each (λ j, upd_cntlr (id Q 0 + j) (f j)) (seq 0 W) b = Ok b' ∧ shape Q W nxt und' prv b' ∧ undos b' = undos b ∧ mms b' = mms b.
Proof.
  intros HQ Hb Hf Ho.
  destruct (each_seq (λ j, upd_cntlr (id Q 0 + j) (f j)) 0 W b
    (λ m b', shape Q W nxt (λ q j, if (q =? Q)%nat && (j <? m)%nat then und' q j else und q j) prv b' ∧ undos b' = undos b ∧ mms b' = mms b))
    as (b' & E & Hb' & U & M).
  - split; [|done]. eapply shape_ext; [|exact Hb]. intros q j _. split_and!; [done| |done]. by rewrite andb_false_r.
  - intros j b' Hj (Hs' & U & M). rewrite num_base.
    destruct (shape_upd Q W nxt _ prv nxt (λ q j', if (q =? Q)%nat && (j' <? S j)%nat then und' q j' else und q j') Q j (f j) b' (Nat.le_refl _)
                ltac:(unfold here, width in *; lia) Hs') as (b'' & E & ? & ? & ?).
    + intros c Hc En Eu. rewrite Nat.eqb_refl, Nat.ltb_irrefl in Eu. cbn in Eu. unfold width in Hj.
      destruct (Hf j c ltac:(lia) Hc) as (? & En' & Eu'). split; [done|]. split; [congruence|].
      rewrite Nat.eqb_refl. destruct (Nat.ltb_spec j (S j)); [by apply Eu'|lia].
    + intros q j' Hne. split; [done|]. destruct (Nat.eqb_spec q Q), (Nat.ltb_spec j' j), (Nat.ltb_spec j' (S j)); try done; lia.
    + exists b''. split; [done|]. split; [done|]. split; congruence.
  - exists b'. split; [done|]. split; [|done]. eapply shape_ext; [|exact Hb']. intros q j Hqj. split_and!; [done| |done].
    destruct (Nat.eqb_spec q Q) as [->|Hne]; [|by rewrite Ho].
    apply here_W in Hqj; [|done]. by rewrite (proj2 (Nat.ltb_lt j (0 + W))) by lia.
Qed.

Lemma cache_fresh_direct j l x : cache_fresh j l x → cache_fresh j l (setDRAMDirectAccess g x).
Proof. intros []. by split. Qed.

(** ** A memory manager *)

Lemma each_params Q js : sane → (Q < total_cores g)%nat → Forall (λ j, j ≤ n)%nat js →
  ∃ ps, each_parameters g Q n js = Ok ps ∧
    ∀ i j, js !! i = Some j → ∃ p, ps !! i = Some p ∧ cache_parameters g Q n j = Ok p.
Proof.
  intros Hg HQ. induction 1 as [|j js Hj _ (ps & E & Hps)]; [by exists []|]. cbn.
  destruct (cs_made _ _ (sn_cache Hg Q j HQ Hj)) as (p & _ & Ep & _). rewrite Ep, E. cbn. exists (p :: ps).
  split; [done|]. intros [|i] j' Hi; cbn in Hi |- *; [injection Hi as <-; by exists p|by apply Hps].
Qed.

(** The gap that the configuration fixes. *)
Definition gap_of : Z := match acs_gap g with Some x => u32 x | None => OnChipUndoBufferCntlr.DEFAULT_ACS_GAP end.
Definition undo_fresh (u : OnChipUndoBufferCntlr.t) : Prop :=
  cntlr_wf u ∧ buffered u = [] ∧ OnChipUndoBufferCntlr.overflow u = 0 ∧ OnChipUndoBufferCntlr.m_acs_gap u = gap_of.

Lemma new_undo_fresh lookup : is_ok (AddressHomeLookup.getHome lookup OnChipUndoBufferCntlr.getLogAddress) = true →
  undo_fresh (OnChipUndoBufferCntlr.new lookup (undo_buffer_entries g) (acs_gap g)).
Proof.
  intros Hh. split; [|done]. unfold cntlr_wf. cbn.
  assert (0 < OnChipUndoBufferCntlr.getNumEntries (undo_buffer_entries g) < 2 ^ 32) as Hn.
  { unfold OnChipUndoBufferCntlr.getNumEntries. destruct (undo_buffer_entries g) as [e|]; [|by split].
    pose proof (u32_range e). destruct (Z.gtb_spec (u32 e) 0); unfold UINT32_MAX; rlia. }
  split_and!; [rlia|lia|lia| |by split|done]. destruct (acs_gap g); [apply u32_range|by split].
Qed.

Lemma set_up_master_shape Q ps dram dirs lookup lookup' b c has_dram : sane → (Q < total_cores g)%nat → mc Q n = Q →
  places_sane Q dram dirs lookup lookup' → has_dram = bool_decide (Z.of_nat Q ∈ dram) →
  shape Q W nxt_final und_final (prevs_upto (S Q)) b → cntlrs b !! id Q n = Some c → conf_ok Q n c →
  is_Some (ps !! 1%nat) → (∃ llc, ps !! n = Some llc ∧ CacheParameters.shared_cores llc = Z.of_nat (shr Q n)) →
  ∃ b', set_up_master g Q (id Q 0) n ps has_dram b = Ok b' ∧ shape Q W nxt_final und_final (prevs_upto (S Q)) b' ∧
    undos b' = undos b ∧ mms b' = mms b ∧ cntlrs b' = cntlrs b.
Proof.
  intros Hg HQ Hm Hpl -> Hb Hc Hok [p1 Hp1] (llc & Hllc & Esh). unfold set_up_master, get_cntlr, arr_get, get_cache.
  rewrite num_base, Hc. cbn [rbind]. rewrite (ck_master _ _ _ Hok), Hm.
  assert (here Q W Q n) as Hh by (right; unfold width; lia).
  destruct (sh_cache _ _ _ _ _ _ Hb _ _ Hh Hm) as (x & Hx & Hfr). rewrite Hx. cbn [rbind]. rewrite Hp1, Hllc. cbn [rbind].
  set (b1 := mk_built _ _ _ _ _ _).
  assert (shape Q W nxt_final und_final (prevs_upto (S Q)) b1) as Hb1 by (destruct Hb; by split).
  destruct (direct_access g && is_application g Q) eqn:Ed; [|by exists b1].
  apply andb_true_iff in Ed as [Ed Ea]. destruct (ps_direct _ _ _ _ _ Hpl Ed Ea Hm) as [Ha Hin].
  assert ((Z.of_nat (application_cores g) <=? CacheParameters.shared_cores llc) = true) as ->.
  { apply Z.leb_le. rewrite Esh. unfold Machine.shr. by rewrite Ea. }
  rewrite bool_decide_true by done. cbn [rbind check]. eexists. split; [done|]. split; [|done].
  eapply (shape_put Q W _ _ _ _ Q n (setDRAMDirectAccess g) x b1); try done. apply cache_fresh_direct.
Qed.

(** After the memory managers of the first [Q] cores. *)
Definition built_upto (Q : nat) (b : built) : Prop :=
  shape Q 0 nxt_final und_final (prevs_upto Q) b ∧ length (undos b) = Q ∧ Forall undo_fresh (undos b) ∧ length (mms b) = Q.

Lemma new_shape Q b : sane → (Q < total_cores g)%nat → built_upto Q b → ∃ b', new g Q b = Ok b' ∧ built_upto (S Q) b'.
Proof.
  intros Hg HQ (Hb & Hul & Huf & Hml). destruct (sn_levels Hg) as [El Hn].
  destruct (sn_places Hg Q HQ) as (dram & dirs & lookup & lookup' & Hpl). pose proof Hpl as [P1 P2 P3 P4 P5 P6 P7].
  assert (Forall (λ j, j ≤ n)%nat (seq 0 W)) as Hseq by (apply Forall_forall; intros j Hj%elem_of_seq; unfold width in Hj; lia).
  destruct (each_params Q (seq 0 W) Hg HQ Hseq) as (ps & Eps & Hps).
  assert (∀ j, (j ≤ n)%nat → ∃ p, ps !! j = Some p ∧ cache_parameters g Q n j = Ok p) as Hp.
  { intros j Hj. apply Hps. rewrite lookup_seq_lt; [done|unfold width; lia]. }
  destruct (Hp n (Nat.le_refl n)) as (llc & Hllc & Ellc).
  destruct (params_spec Q n llc (sn_cache Hg Q n HQ (Nat.le_refl n)) Ellc) as (Esh & _).
  unfold new, last_level. rewrite El. rewrite (proj2 (Z.leb_le 2 (Z.of_nat n))), (proj2 (Z.leb_le (Z.of_nat n) 18)) by lia. cbn [andb check rbind].
  rewrite Nat2Z.id. destruct (new_tlbs g) as [[[itlb dtlb] tlbs]|] eqn:Et; [|by pose proof (sn_tlbs Hg) as Ht; rewrite Et in Ht].
  change (S n) with W. cbn [rbind]. rewrite Eps. cbn [rbind]. rewrite P1. cbn [rbind]. unfold arr_get at 1. rewrite Hllc. cbn [rbind].
  rewrite Esh, P2. cbn [rbind]. rewrite P3. cbn [rbind]. rewrite P4. cbn [rbind].
  assert (length (cntlrs b) = id Q 0) as -> by (rewrite (sh_cntlrs _ _ _ _ _ _ Hb); done).
  (* the controllers *)
  destruct (each_seq (λ j b, let! p := arr_get ps j in new_cntlr g Q j n lookup p b) 0 W b
    (λ j b', shape Q j (upto Q 0 None nxt_final) (upto Q 0 None und_final) (prevs_upto Q) b' ∧ undos b' = undos b ∧ mms b' = mms b))
    as (b1 & -> & Hb1 & U1 & M1).
  { split; [|done]. eapply shape_ext; [|exact Hb]. intros q j [[]|[]]; [|lia]. unfold upto. by destruct (Nat.ltb_spec q Q); [|lia]. }
  { intros j b' Hj (Hb' & U & M). unfold width in Hj. destruct (Hp j ltac:(lia)) as (p & Hpj & Ep). unfold arr_get. rewrite Hpj. cbn [rbind].
    destruct (new_cntlr_shape Q j lookup p (upto Q 0 None nxt_final) (upto Q 0 None und_final) (prevs_upto Q) b' Hg
                (sn_cache Hg Q j HQ ltac:(lia)) ltac:(lia) Ep) as (b'' & E & ? & ? & ?).
    1, 2: unfold upto; by rewrite Nat.ltb_irrefl. 1: by apply prevs_new. 1: done.
    exists b''. split; [done|]. split; [done|]. split; congruence. }
  cbn [rbind]. rewrite Nat.add_0_l in Hb1.
  destruct (link_shape Q _ b1 Hg HQ Hb1) as (b2 & -> & H2 & U2 & M2). cbn [rbind].
  (* performance models *)
  set (F := λ (j : nat) (c : conf), match ps !! j with
    | Some p => match CachePerfModel.create (CacheParameters.perf_model_type p) (CacheParameters.data_access_time p)
                        (CacheParameters.tags_access_time p) with Ok model => set_perf_model model c | Err _ => c end
    | None => c end).
  assert (∀ js (b0 : built), Forall (λ j, j ≤ n)%nat js → each (λ j b, let! p := arr_get ps j in
      let! model := CachePerfModel.create (CacheParameters.perf_model_type p) (CacheParameters.data_access_time p) (CacheParameters.tags_access_time p) in
      upd_cntlr (id Q 0 + j) (set_perf_model model) b) js b0 =
    each (λ j, upd_cntlr (id Q 0 + j) (F j)) js b0) as Hperf.
  { induction js as [|j js IH]; intros b0 Hall; [done|]. apply Forall_cons in Hall as [Hj Hall]. cbn. unfold F at 1. destruct (Hp j Hj) as (p & Hpj & Ep).
    unfold arr_get. rewrite Hpj. cbn [rbind]. destruct (params_spec Q j p (sn_cache Hg Q j HQ Hj) Ep) as (_ & _ & _ & _ & Em).
    pose proof (cs_model _ _ (sn_cache Hg Q j HQ Hj)) as Hm. unfold CachePerfModel.create. rewrite Em.
    destruct (CachePerfModel.parseModelType _); [|done]. cbn [rbind]. destruct (upd_cntlr _ _ b0); [|done]. cbn [rbind]. by apply IH. }
  rewrite Hperf by done.
  destruct (upd_all Q nxt_final (upto Q 0 None und_final) (prevs_upto (S Q)) (upto Q 0 None und_final) F b2 HQ H2) as (b3 & -> & H3 & U3 & M3).
  { intros j c Hj Hc. unfold F. destruct (ps !! j) as [p|]; [|done]. destruct (CachePerfModel.create _ _ _); [|done]. destruct Hc. split; [by split|done]. }
  { done. }
  cbn [rbind]. unfold get_cntlr at 1. unfold arr_get at 1. rewrite num_base.
  assert (here Q W Q n) as Hh by (right; unfold width; lia).
  destruct (sh_cntlr _ _ _ _ _ _ H3 Q n Hh) as (c & Hc & Hok & _). rewrite Hc. cbn [rbind].
  rewrite !(isMasterCache_ok Q n c Hg Hok).
  assert (check (negb (bool_decide (Z.of_nat Q ∈ dram)) || (mc Q n =? Q)%nat) AssertFail = Ok tt) as ->.
  { case_bool_decide; [|done]. rewrite P6 by auto. by rewrite Nat.eqb_refl. }
  assert (check (negb (bool_decide (Z.of_nat Q ∈ dirs)) || (mc Q n =? Q)%nat) AssertFail = Ok tt) as ->.
  { case_bool_decide; [|done]. rewrite P6 by auto. by rewrite Nat.eqb_refl. }
  cbn [rbind]. set (b4 := mk_built (cntlrs b3) _ _ _ _ _).
  assert (shape Q W nxt_final (upto Q 0 None und_final) (prevs_upto (S Q)) b4) as H4 by (destruct H3; by split).
  assert (length (undos b3) = Q) as EU by congruence. rewrite EU.
  destruct (upd_all Q nxt_final (upto Q 0 None und_final) (prevs_upto (S Q)) und_final (λ _, setOnChipUndoBufferCntlr (Some Q)) b4 HQ H4)
    as (b5 & E5 & H5 & U5 & M5).
  { intros j c' Hj []. by split; [split|]. }
  { intros q j Hqj Hne. unfold upto. destruct (Nat.ltb_spec q Q); [done|]. unfold here in Hqj. lia. }
  rewrite E5. cbn [rbind]. unfold get_cntlr at 1, arr_get at 1.
  destruct (sh_cntlr _ _ _ _ _ _ H5 Q n Hh) as (c5 & Hc5 & Hok5 & _). rewrite Hc5. cbn [rbind]. rewrite (isMasterCache_ok Q n c5 Hg Hok5).
  assert (∃ b6, (if (mc Q n =? Q)%nat then set_up_master g Q (id Q 0) n ps (bool_decide (Z.of_nat Q ∈ dram)) b5 else Ok b5) = Ok b6 ∧
    shape Q W nxt_final und_final (prevs_upto (S Q)) b6 ∧ undos b6 = undos b5 ∧ mms b6 = mms b5) as (b6 & -> & H6 & U6 & M6).
  { destruct (Nat.eqb_spec (mc Q n) Q) as [Hm|Hm]; [|by exists b5]. destruct (Hp 1%nat ltac:(lia)) as (p1 & Hp1 & _).
    destruct (set_up_master_shape Q ps dram dirs lookup lookup' b5 c5 _ Hg HQ Hm Hpl eq_refl H5 Hc5 Hok5) as (b6 & E6 & ? & ? & ? & _);
      [by eexists|by exists llc|]. by exists b6. }
  cbn [rbind]. eexists. split; [done|]. split_and!; cbn.
  - destruct H6 as [S1 S2 S3 S4 S5].
    assert (∀ q j, here (S Q) 0 q j ↔ here Q W q j) as Hw by (unfold here; intros; lia).
    split; cbn; [unfold width in *; lia|intros; apply S2; by apply Hw|intros; apply S3; by apply Hw|intros; apply S4; [by apply Hw|done]|].
    intros i x Hx. destruct (S5 i x Hx) as (q & j & Hqj & ?). exists q, j. split; [by apply Hw|done].
  - rewrite U6, U5. cbn. rewrite length_app, EU. cbn. lia.
  - rewrite U6, U5. cbn. apply Forall_app. split; [|by repeat constructor; apply new_undo_fresh]. congruence.
  - rewrite length_app, M6, M5. cbn. rewrite M3, M2, M1, Hml. lia.
Qed.

Lemma build_ok : sane → ∃ b, build g = Ok b ∧ built_upto (total_cores g) b.
Proof.
  intros Hg. unfold build.
  destruct (each_seq (new g) 0 (total_cores g) nothing built_upto) as (b & E & Hb); [|intros j b Hj; apply new_shape; [done|lia]|by exists b].
  split_and!; [|done|constructor|done]. split; [done| | | |done]; intros q j; unfold here; lia.
Qed.

(** ** The links form a tree *)

Definition lv (m : nat) : nat := match (m `mod` W)%nat with O => O | S j => j end.

Lemma num_mod q j : (j < W)%nat → (id q j `mod` W = j)%nat.
Proof. intros Hj. unfold num. rewrite Nat.add_comm, Nat.Div0.mod_add. by apply Nat.mod_small. Qed.

Lemma elem_of_leads q r j p : p ∈ leads q r j ↔ mc q j = r ∧ ∃ i, nx i = j ∧ mc q i = q ∧ p = id q i.
Proof.
  unfold leads. destruct (Nat.eqb_spec (mc q j) r) as [->|Hne]; [|split; [by intros ?%elem_of_nil|by intros [? _]]].
  rewrite list_elem_of_In, in_map_iff. setoid_rewrite filter_In. setoid_rewrite <- list_elem_of_In. setoid_rewrite feeders_nx.
  setoid_rewrite Nat.eqb_eq. naive_solver.
Qed.

Lemma elem_of_prevs Q r j p : p ∈ prevs_upto Q r j ↔ ∃ q i, (q < Q)%nat ∧ mc q j = r ∧ nx i = j ∧ mc q i = q ∧ p = id q i.
Proof.
  induction Q as [|Q IH]; cbn [prevs_upto].
  - split; [by intros ?%elem_of_nil|intros (q & i & ? & _); lia].
  - rewrite elem_of_app, IH, elem_of_leads. split.
    + intros [(q & i & ? & ?)|(? & i & ?)]; [exists q, i; split; [lia|done]|exists Q, i; split; [lia|naive_solver]].
    + intros (q & i & Hq & Hr & ?). destruct (decide (q = Q)) as [->|]; [right; split; [done|by exists i]|left; exists q, i; split; [lia|done]].
Qed.

Lemma prevs_nodup Q r j : (j < W)%nat → NoDup (prevs_upto Q r j).
Proof.
  intros Hj. assert (∀ i, nx i = j → (i < W)%nat) as Hi by (intros i Ei; pose proof (nx_lt i); lia).
  induction Q as [|Q IH]; [constructor|]. cbn [prevs_upto]. apply NoDup_app. split_and!; [done| |].
  - intros p (q & i & Hq & _ & Hi1 & _ & ->)%elem_of_prevs (_ & i' & Hi2 & _ & E)%elem_of_leads.
    apply num_inj in E as [-> _]; [lia|by apply Hi..].
  - unfold leads. destruct (mc Q j =? r)%nat; [|constructor].
    assert (∀ l, (∀ p, p ∈ l → nx p = j) → NoDup l → NoDup (map (id Q) (List.filter (λ p, (mc Q p =? Q)%nat) l))) as Hl.
    { induction l as [|p l IHl]; intros Hp Hnd; [constructor|]. apply NoDup_cons in Hnd as [Hnin Hnd]. cbn.
      destruct (mc Q p =? Q)%nat; [|apply IHl; [intros x Hx; apply Hp; by right|done]]. cbn. constructor.
      - intros (x & E & Hx)%list_elem_of_In%in_map_iff. apply filter_In in Hx as [Hx%list_elem_of_In _].
        apply num_inj in E as [_ ->]; [done|apply Hi, Hp; by right|apply Hi, Hp; by left].
      - apply IHl; [intros x Hx; apply Hp; by right|done]. }
    apply Hl; [intros p Hp; by apply feeders_nx|]. destruct j as [|[|[|j]]]; cbn; repeat constructor; set_solver.
Qed.

(** ** The machine *)

Section result.
Context {D : Type}.
Context (Hg : sane) (b : built) (Hb : built_upto (total_cores g) b) (first : conf) (x0 : master_conf * CacheMasterCntlr P AnyPrefetcher.t) (d : D).
Context (Hfirst : cntlrs b !! 0%nat = Some first) (Hx0 : caches b !! 0%nat = Some x0).
Abbreviation T := (total_cores g).
Abbreviation cfg := (config_of g b first).
Abbreviation st := (start_of b (snd x0) d).
Abbreviation geo := (λ m, geo_of (m_cache (masters st m))).

(** A number is that of a controller, or stands for one of its own. *)
Lemma conf_cases c :
  (∃ q j, (q < T)%nat ∧ (j ≤ n)%nat ∧ c = id q j ∧ conf_ok q j (cntlr_conf cfg c) ∧
     next_of cfg c = nxt_final q j ∧ m_onchip_undo_buffer_cntlr (cntlr_conf cfg c) = Some q) ∨
  ((T * W ≤ c)%nat ∧ cntlr_conf cfg c = stray first c).
Proof using Hb.
  destruct Hb as [Hs _]. destruct (decide (c < T * W)%nat) as [Hc|Hc].
  - left. assert (0 < W)%nat as HW by (unfold width; lia).
    exists (c / W)%nat, (c mod W)%nat. pose proof (Nat.div_mod_eq c W) as Edm. pose proof (Nat.mod_upper_bound c W ltac:(lia)).
    assert (c = id (c / W) (c mod W)) as Ec by (unfold num; lia).
    assert (c / W < T)%nat as Hq by (apply Nat.Div0.div_lt_upper_bound; lia).
    destruct (sh_cntlr _ _ _ _ _ _ Hs (c / W) (c mod W)) as (x & Hx & Hok & Hn & Hu); [by left|].
    rewrite <- Ec in Hx. unfold next_of, config_of. cbn. rewrite Hx. cbn. split_and!; try done. unfold width in *. lia.
  - right. split; [lia|]. unfold config_of. cbn. rewrite lookup_ge_None_2; [done|]. rewrite (sh_cntlrs _ _ _ _ _ _ Hs). lia.
Qed.

Lemma first_ok : conf_ok 0 0 first ∧ m_onchip_undo_buffer_cntlr first = Some 0%nat.
Proof using Hb Hfirst Hg.
  destruct Hb as [Hs _]. destruct (sh_cntlr _ _ _ _ _ _ Hs 0 0) as (x & Hx & Hok & _ & Hu).
  - left. pose proof (sn_cores Hg). unfold width. lia.
  - change (id 0 0) with 0%nat in Hx. rewrite Hfirst in Hx. by injection Hx as <-.
Qed.

Lemma prevs_cases m p : p ∈ prevs cfg m ↔
  ∃ q i, (q < T)%nat ∧ (nx i ≤ n)%nat ∧ mc q i = q ∧ p = id q i ∧ m = id (mc q (nx i)) (nx i).
Proof using Hb Hg.
  destruct Hb as [Hs _]. unfold prevs, config_of. cbn. split.
  - destruct (caches b !! m) as [x|] eqn:Ex; [|by intros ?%elem_of_nil].
    destruct (sh_only _ _ _ _ _ _ Hs m x Ex) as (r & j & Hrj & Hm & ->).
    destruct (sh_cache _ _ _ _ _ _ Hs r j Hrj Hm) as (y & Ey & Hf). rewrite Ex in Ey. injection Ey as <-. rewrite (cf_prevs _ _ _ Hf).
    intros (q & i & Hq & Hr & <- & Hi & ->)%elem_of_prevs. apply here_W in Hrj; [|lia]. exists q, i. unfold width in Hrj.
    split_and!; [done|lia|done|done|by rewrite Hr].
  - intros (q & i & Hq & Hi & Hmi & -> & ->). pose proof (mc_le g s q (nx i)).
    destruct (sh_cache _ _ _ _ _ _ Hs (mc q (nx i)) (nx i)) as (y & -> & Hf); [left; unfold width; lia|by apply mc_idem, sn_share|].
    rewrite (cf_prevs _ _ _ Hf). apply elem_of_prevs. by exists q, i.
Qed.

Lemma prevs_NoDup m : NoDup (prevs cfg m).
Proof using Hb.
  destruct Hb as [Hs _]. unfold prevs, config_of. cbn. destruct (caches b !! m) as [x|] eqn:Ex; [|constructor].
  destruct (sh_only _ _ _ _ _ _ Hs m x Ex) as (r & j & Hrj & Hm & ->).
  destruct (sh_cache _ _ _ _ _ _ Hs r j Hrj Hm) as (y & Ey & Hf). rewrite Ex in Ey. injection Ey as <-. rewrite (cf_prevs _ _ _ Hf).
  apply prevs_nodup. apply here_W in Hrj; [done|lia].
Qed.

(** The cache of each number is new. *)
Lemma cache_cases m : ∃ j l x, masters st m = snd x ∧ cache_fresh j l x.
Proof using Hb Hg Hx0.
  destruct Hb as [Hs _]. unfold start_of. cbn. destruct (caches b !! m) as [x|] eqn:Ex.
  - destruct (sh_only _ _ _ _ _ _ Hs m x Ex) as (r & j & Hrj & Hm & ->).
    destruct (sh_cache _ _ _ _ _ _ Hs r j Hrj Hm) as (y & Ey & Hf). rewrite Ex in Ey. injection Ey as <-. by eexists _, _, x.
  - assert (here T 0 0 0) as Hh by (left; pose proof (sn_cores Hg); unfold width; lia).
    destruct (sh_cache _ _ _ _ _ _ Hs 0 0 Hh eq_refl) as (y & Ey & Hf).
    change (id 0 0) with 0%nat in Ey. rewrite Hx0 in Ey. injection Ey as <-. by eexists _, _, x0.
Qed.

Lemma next_cases c n' : next_of cfg c = Some n' → ∃ q j, (q < T)%nat ∧ (nx j ≤ n)%nat ∧ c = id q j ∧ n' = id q (nx j) ∧
  cache_of cfg c = id (mc q j) j ∧ cache_of cfg n' = id (mc q (nx j)) (nx j).
Proof using Hb Hg.
  intros Hn. destruct (conf_cases c) as [(q & j & Hq & Hj & -> & Hok & Hnx & _)|[_ E]].
  - rewrite Hnx in Hn. unfold nxt_final in Hn. destruct (Nat.eqb_spec j n) as [|Hne]; [done|]. injection Hn as <-.
    pose proof (proj2 (sn_levels Hg)). assert (nx j ≤ n)%nat as Hle by (destruct j as [|[|j]]; cbn; lia).
    exists q, j. split_and!; try done; [apply (ck_master _ _ _ Hok)|].
    destruct (conf_cases (id q (nx j))) as [(q' & j' & Hq' & Hj' & E & Hok' & _)|[Hge _]].
    + apply num_inj in E as [<- <-]; [apply (ck_master _ _ _ Hok')|unfold width; lia..].
    + unfold num, width in Hge. nia.
  - unfold next_of in Hn. rewrite E in Hn. done.
Qed.

Lemma built_tree : tree_ok cfg geo k T lv.
Proof using All.
  pose proof (proj2 (sn_levels Hg)) as Hn. pose proof first_ok as [Hf0 Hu0].
  assert (∀ c, conf_ok 0 0 first → CacheCntlr.m_cache_block_size (cntlr_conf cfg c) = Z.to_nat (2 ^ k)) as Hblock.
  { intros c Hf. destruct (conf_cases c) as [(q & j & _ & _ & -> & Hok & _)|[_ ->]]; [apply Hok|apply Hf]. }
  split.
  - done.
  - intros m. destruct (cache_cases m) as (j & l & x & -> & [_ _ (ns & fi & info & p & E) _ _ _]).
    rewrite (geo_of_new _ _ _ _ _ _ _ _ E). cbn. rewrite Z2Nat.id; [done|apply Z.pow_nonneg; lia].
  - intros c. by apply Hblock.
  - apply Hg.
  - intros c. destruct (conf_cases c) as [(q & j & Hq & _ & -> & _ & _ & Hu)|[_ ->]]; [by exists q|]. exists 0%nat. split; [done|apply Hg].
  - intros m. cbn. rewrite (proj1 (sn_levels Hg)), Nat2Z.id. pose proof (Nat.mod_upper_bound m W). unfold lv, width in *. case_match; lia.
  - intros c n' (q & j & Hq & Hj & -> & -> & -> & ->)%next_cases. pose proof (nx_lt j). unfold lv. rewrite !num_mod by (unfold width; lia).
    destruct j as [|[|j]]; cbn; lia.
  - intros m p (q & i & Hq & Hi & Hm & -> & ->)%prevs_cases. exists (id q (nx i)).
    destruct (conf_cases (id q i)) as [(q' & j' & Hq' & Hj' & E & Hok & Hnx & _)|[Hge _]].
    + pose proof (nx_lt i). apply num_inj in E as [<- <-]; [|unfold width; lia..].
      assert (next_of cfg (id q i) = Some (id q (nx i))) as En.
      { rewrite Hnx. unfold nxt_final. destruct (Nat.eqb_spec i n); [lia|done]. }
      split; [done|]. apply next_cases in En as (q' & j' & _ & Hj2 & E & E' & _ & ->).
      pose proof (nx_lt j'). apply num_inj in E as [<- <-]; [done|unfold width; lia..].
    + pose proof (nx_lt i). unfold num, width in Hge. nia.
  - intros c n' (q & j & Hq & Hj & -> & -> & -> & ->)%next_cases. pose proof (nx_lt j). exists (id (mc q j) j).
    pose proof (mc_le g s q j) as Hle. pose proof (mc_idem g s (sn_share Hg) q j) as Hid. split.
    + apply prevs_cases. exists (mc q j), j. split_and!; [lia|done|done|done|].
      by rewrite (mc_next g s (sn_share Hg)) by (apply Hg; lia).
    + destruct (conf_cases (id (mc q j) j)) as [(q' & j' & _ & Hj' & E & Hok & _)|[Hge _]].
      * apply num_inj in E as [<- <-]; [|unfold width; lia..]. unfold cache_of. by rewrite (ck_master _ _ _ Hok), Hid.
      * unfold num, width in Hge. nia.
  - intros c c'. assert (∀ q j, (q < T)%nat → (j ≤ n)%nat → (id (mc q j) j < T * W)%nat) as Hlt.
    { intros q j Hq Hj. pose proof (mc_le g s q j). unfold num, width. nia. }
    destruct (conf_cases c) as [(q & j & Hq & Hj & Ec & Hok & Hnx & _)|[Hge E]], (conf_cases c') as [(q' & j' & Hq' & Hj' & Ec' & Hok' & Hnx' & _)|[Hge' E']].
    + unfold cache_of at 1 2. rewrite (ck_master _ _ _ Hok), (ck_master _ _ _ Hok'). intros Em.
      apply num_inj in Em as [Em <-]; [|unfold width; lia..].
      destruct (next_of cfg c) as [m|] eqn:En, (next_of cfg c') as [m'|] eqn:En'; [|unfold nxt_final in *; by destruct (j =? n)%nat..].
      change (Some (cache_of cfg m) = Some (cache_of cfg m')). f_equal.
      apply next_cases in En as (q1 & j1 & _ & H1 & E1 & _ & _ & ->). apply next_cases in En' as (q2 & j2 & _ & H2 & E2 & _ & _ & ->).
      pose proof (nx_lt j1). pose proof (nx_lt j2).
      rewrite Ec in E1. rewrite Ec' in E2. apply num_inj in E1 as [<- <-]; [|unfold width; lia..]. apply num_inj in E2 as [<- <-]; [|unfold width; lia..].
      f_equal. rewrite <- (mc_next g s (sn_share Hg) q j (nx j)), <- (mc_next g s (sn_share Hg) q' j (nx j)) by (apply Hg; lia). by rewrite Em.
    + unfold cache_of at 1 2. rewrite (ck_master _ _ _ Hok), E'. cbn. intros Em. specialize (Hlt q j Hq Hj). lia.
    + unfold cache_of at 1 2. rewrite (ck_master _ _ _ Hok'), E. cbn. intros Em. specialize (Hlt q' j' Hq' Hj'). lia.
    + unfold cache_of at 1 2. rewrite E, E'. by intros [= ->].
  - intros m p p' Hp Hp' E. assert (∀ p, p ∈ prevs cfg m → cache_of cfg p = p) as Hself.
    { clear p p' Hp Hp' E. intros p (q & i & Hq & Hi & Hm & -> & _)%prevs_cases. pose proof (nx_lt i).
      destruct (conf_cases (id q i)) as [(q' & j' & _ & Hj' & E & Hok & _)|[Hge _]]; [|unfold num, width in Hge; nia].
      apply num_inj in E as [<- <-]; [|unfold width; lia..]. unfold cache_of. by rewrite (ck_master _ _ _ Hok), Hm. }
    rewrite <- (Hself p Hp), <- (Hself p' Hp'). exact E.
  - apply prevs_NoDup.
Qed.

Lemma built_platform : platform cfg geo k T lv.
Proof using All.
  pose proof first_ok as [[F1 _ _ _ _ F2 F3 _ _] _]. split; [apply built_tree|..].
  - intros c. destruct (conf_cases c) as [(q & j & _ & _ & _ & Hok & _)|[_ ->]]; [apply Hok|exact F2].
  - intros c Hw. destruct (conf_cases c) as [(q & j & Hq & Hj & -> & Hok & Hnx & _)|[_ E]]; [|by rewrite E in Hw].
    rewrite Hnx. unfold nxt_final. apply (ck_writethrough _ _ _ Hok) in Hw. by destruct (Nat.eqb_spec j n).
  - intros c. destruct (conf_cases c) as [(q & j & _ & _ & _ & Hok & _)|[_ ->]]; [apply Hok|exact F3].
  - pose proof (proj2 (sn_levels Hg)) as Hn. intros c bb.
    destruct (conf_cases c) as [(q & j & _ & Hj & _ & Hok & _)|[_ ->]]; [rewrite (ck_component _ _ _ Hok)|cbn; rewrite F1; by destruct bb].
    assert (j ≤ 4)%nat as Hj4 by lia. do 5 (destruct j as [|j]; [by destruct bb|]). lia.
Qed.

Lemma built_initial : initial geo k T st.
Proof using All.
  split; try done.
  - intros m. destruct (cache_cases m) as (j & l & x & -> & [_ _ (ns & fi & info & p & E) Hgeo _ _]).
    exists ns, (Z.to_nat (2 ^ k)), fi, info, p. split; [|split; [exact Hgeo|exact E]]. by rewrite (geo_of_new _ _ _ _ _ _ _ _ E).
  - intros m. destruct (cache_cases m) as (j & l & x & -> & [_ _ _ _ Hq _]). exact Hq.
  - intros m f. destruct (cache_cases m) as (j & l & x & -> & [_ _ _ _ _ Hpre]). apply Hpre.
  - destruct Hb as (_ & Hl & Hf & _). split; [|done]. cbn. apply (init_inv gap_of true true []); [constructor|].
    change (map ?h ?l) with (h <$> l). apply Forall_fmap. eapply Forall_impl; [exact Hf|]. by intros u (? & ? & ? & ?).
Qed.

Lemma built_fresh : fresh_log gap_of (undo_cntlrs st) (shared st).
Proof using Hb. destruct Hb as (_ & _ & Hf & _). split; [|done]. eapply Forall_impl; [exact Hf|]. by intros u (? & ? & ? & ?). Qed.

(** With PiCL, the L3 caches log. *)
Lemma built_logging q : picl g = true → (3 ≤ n)%nat → (q < T)%nat → logging cfg (cache_of cfg (id q 3)).
Proof using All.
  intros Hp Hn Hq. pose proof (mc_le g s q 3) as Hle. pose proof (mc_idem g s (sn_share Hg) q 3) as Hid.
  assert (cache_of cfg (id q 3) = id (mc q 3) 3) as Ec.
  { destruct (conf_cases (id q 3)) as [(q' & j' & _ & Hj' & E & Hok & _)|[Hge _]]; [|unfold num, width in Hge; nia].
    apply num_inj in E as [<- <-]; [|unfold width; lia..]. apply Hok. }
  rewrite Ec. set (r := mc q 3) in *. split_and!.
  - destruct Hb as [Hs _]. destruct (sh_cache _ _ _ _ _ _ Hs r 3) as (x & Hx & Hf); [left; unfold width; lia|done|].
    unfold config_of. cbn [cache_conf]. rewrite Hx, (cf_name _ _ _ Hf). by vm_compute.
  - assert (mc r 2 = r) as Hr.
    { pose proof (mc_next g s (sn_share Hg) r 2 3 (sn_divides Hg 2 ltac:(lia))) as E. pose proof (mc_le g s r 2). pose proof (mc_le g s (mc r 2) 3). lia. }
    assert (id r 2 ∈ prevs cfg (id r 3)) as Hin; [|by intros E0; rewrite E0 in Hin; apply elem_of_nil in Hin].
    apply prevs_cases. exists r, 2%nat. split_and!; [lia|done|done|done|cbn; by rewrite Hid].
  - intros c Hc. destruct (conf_cases c) as [(q' & j' & _ & _ & _ & Hok & _)|[Hge E]]; [rewrite (ck_picl _ _ _ Hok); exact Hp|].
    unfold cache_of in Hc. rewrite E in Hc. cbn in Hc. unfold num, width in *. nia.
Qed.
End result.

(** [C17] (type) The constructors build what the theorems about hierarchies are about.  From
    any configuration whose caches can be created one by one, with L2, L3 and maybe L4, shared
    by cores in numbers that divide those of the next level, all memory managers are built
    without failure: the controllers and caches form a tree, each core with its first-level
    caches at the leaves, in which only owners of caches are listed; the caches are empty, the
    undo buffers fresh, and with PiCL enabled the L3 caches log. *)
Theorem machine_is_platform {D : Type} (d : D) : sane →
  ∃ cfg st, machine g d = Ok (cfg, st) ∧ let geo m := geo_of (m_cache (masters st m)) in
    platform cfg geo k (total_cores g) lv ∧ initial geo k (total_cores g) st ∧
    fresh_log gap_of (undo_cntlrs st) (shared st) ∧
    (∀ q j, (q < total_cores g)%nat → (j < 2)%nat → prevs cfg (cache_of cfg (id q j)) = []) ∧
    ∀ q, picl g = true → (3 ≤ n)%nat → (q < total_cores g)%nat → logging cfg (cache_of cfg (id q 3)).
Proof.
  intros Hg. destruct (build_ok Hg) as (b & E & Hb). pose proof Hb as [Hs _].
  assert (here (total_cores g) 0 0 0) as Hh by (left; pose proof (sn_cores Hg); unfold width; lia).
  destruct (sh_cntlr _ _ _ _ _ _ Hs 0 0 Hh) as (first & Hfirst & _). destruct (sh_cache _ _ _ _ _ _ Hs 0 0 Hh eq_refl) as (x0 & Hx0 & _).
  change (id 0 0) with 0%nat in *. unfold machine, get_cntlr, get_cache, arr_get. rewrite E. cbn [rbind]. rewrite Hfirst. cbn [rbind].
  rewrite Hx0. cbn [rbind]. eexists _, _. split; [done|]. cbv zeta. split_and!.
  - exact (built_platform (D:=D) Hg b Hb first x0 d Hfirst Hx0).
  - exact (built_initial (D:=D) Hg b Hb first x0 d Hfirst Hx0).
  - exact (built_fresh (D:=D) b Hb x0 d).
  - intros q j Hq Hj. pose proof (sn_levels Hg) as Hlv.
    destruct (conf_cases b Hb first (id q j)) as [(q' & j' & _ & Hj' & Ej & Hok & _)|[Hge _]]; [|unfold num, width in Hge; nia].
    apply num_inj in Ej as [<- <-]; [|unfold width; pose proof (proj2 (sn_levels Hg)); lia..].
    destruct (prevs _ _) as [|p l] eqn:Ep; [done|]. assert (p ∈ prevs (config_of g b first) (cache_of (config_of g b first) (id q j))) as Hin by (rewrite Ep; left).
    apply (prevs_cases Hg b Hb) in Hin as (q' & i & _ & Hi & _ & _ & Em). unfold cache_of in Em. rewrite (ck_master _ _ _ Hok) in Em.
    apply num_inj in Em as [_ Em]; [|unfold width; lia..]. destruct i as [|[|i]]; cbn in Em; lia.
  - intros q. exact (built_logging (D:=D) Hg b Hb first x0 d Hfirst Hx0 q).
Qed.
End sane.

(** ** A machine of two application cores and a service core, with an L3 shared by two *)
Module MachineExample.
Import MemoryManager.

Definition caches_cfg (core j : nat) : cache_cfg := {|
  c_cache_size := 2 ^ Z.of_nat j; c_associativity := 2; c_cache_block_size := 64; c_address_hash := "mask";
  c_replacement_policy := "lru"; c_qbs_attempts := 1; c_srrip_bits := 3; c_perfect := false; c_coherent := true;
  c_passthrough := false; c_data_access_time := 4; c_tags_access_time := 1; c_writeback_time := 0;
  c_next_level_read_bandwidth := 0; c_perf_model_type := "parallel"; c_dvfs_domain := "core"; c_writethrough := false;
  c_shared_cores := (if (j =? 3)%nat then 2 else 1); c_outstanding_misses := 10;
  c_prefetcher := (if (j =? 2)%nat then "simple" else "none"); c_flows := 16; c_flows_per_core := false;
  c_num_prefetches := 2; c_stop_at_page_boundary := true; c_ghb_width := 1; c_ghb_depth := 1; c_ghb_size := 1;
  c_ghb_table_size := 1; c_pattern_length := 4; c_consecutive_pattern_length := 4; c_a53_num_prefetches := 4;
  c_prefetch_on_prefetch_hit := true; c_train_prefetcher_on_hit := None; c_delay_prefetcher := None; c_atd := None |}.

Definition g : sim_cfg := {|
  total_cores := 3; application_cores := 2; cache_levels := 3; l1_block_size := 64; logical_cpus := 1;
  cache_config := caches_cfg; core_period := λ _, 1; global_period := 1;
  stlb_size := 8; stlb_associativity := 4; itlb_size := 4; itlb_associativity := 4; dtlb_size := 4; dtlb_associativity := 4;
  tlb_penalty := 0; tlb_penalty_parallel := true; num_controllers := -1; controllers_interleaving := 2;
  controller_positions := []; network_positions := []; direct_access := true; evict_buffers := 8;
  directory_locations := "dram"; directory_interleaving := 1; directory_home_lookup_param := 6; picl := true;
  undo_buffer_entries := None; acs_gap := None; fault_injection := false; now_seconds := 0;
  instrument_cache_only := false; uninitialised := replicate 64 0 |}.

Definition s (j : nat) : nat := if (j =? 3)%nat then 2 else 1.

(** A cache of the machine can be created. *)
Ltac made := do 2 eexists; split; [vm_compute; reflexivity|]; split; [vm_compute; reflexivity|].

Lemma block : 1 ≤ 6 < 32. Proof. done. Qed.

Lemma g_sane : sane (P := LRU.t) g 6 block 3 s.
Proof.
  split; try done.
  - cbn. lia.
  - cbn. lia.
  - intros j. unfold s. case_match; lia.
  - intros j Hj. by exists (s (nx j)); destruct j as [|[|[|j]]]; [..|lia].
  - intros q j Hq Hj. cbn in Hq. split; try done.
    + by destruct j as [|[|[|[|j]]]]; [..|lia].
    + destruct j as [|[|[|[|j]]]]; [..|lia]; destruct q as [|[|[|q]]]; try lia.
      all: made.
      all: split; [vm_compute; repeat split; repeat constructor|].
      all: try (intros f Hf; vm_compute in Hf; discriminate).
      all: intros f [= <-]; vm_compute; repeat first [apply Forall_nil_2 | apply Forall_cons_2 | by exists 0].
  - intros q Hq. cbn in Hq.
    exists [0], [0]. do 2 eexists. split; try (vm_compute; reflexivity).
    + intros Hin. assert (q = 0%nat) as -> by (rewrite !list_elem_of_singleton in Hin; lia). done.
    + intros _ Happ Hm. split; [done|]. destruct q as [|[|[|q]]]; try done. by left.
Qed.

#[local] Instance laws : PrefetcherLaws 6 AnyPrefetcher.t := any_laws 6 block.

(** It can be built; its L1 caches are leaves and its L3 caches log. *)
Lemma machine_is_platform_witness :
  ∃ cfg st, machine (P := LRU.t) g tt = Ok (cfg, st) ∧ let geo m := geo_of (m_cache (masters st m)) in
    platform cfg geo 6 3 (lv 3) ∧ initial geo 6 3 st ∧ fresh_log (gap_of g) (undo_cntlrs st) (shared st) ∧
    (∀ q j, (q < 3)%nat → (j < 2)%nat → prevs cfg (cache_of cfg (num 3 q j)) = []) ∧
    ∀ q, (q < 3)%nat → logging cfg (cache_of cfg (num 3 q 3)).
Proof.
  destruct (machine_is_platform g 6 block 3 s tt g_sane) as (cfg & st & E & Hp & Hi & Hf & Hl & Hg).
  exists cfg, st. exact (conj E (conj Hp (conj Hi (conj Hf (conj Hl (λ q, Hg q eq_refl (le_n 3))))))).
Defined.
End MachineExample.
