(* ===== verification/CoreAccess.v ===== *)
(** The memory accesses of a core: [core/core.{h,cc}] - [initiateMemoryAccess], which splits a
    range of bytes into accesses of cache lines, [accessMemory], [readInstructionMemory],
    [accessMemoryFast] and [nativeMemOp] - and [countInstructions].

    A core uses its memory manager through the interface of [MemoryManagerBase], the class
    [MemorySystem] here.  An access of the memory manager may have to wait for the network
    thread; the loop over the lines is then left with its local variables ([access]) and goes
    on when the answer is there ([continue_access]).  Calls of the performance model are
    events.  Addresses are [IntPtr], sizes [UInt32]. *)
From stdpp Require Import functions.
From S2P Require Import Prelude Timing BlockInfo CacheModel ShmemMsg TlbAtd StateResult Epoch.

(** [HitWhere::where_t] as a number, by which places are compared. *)
Definition where_code (w : HitWhere.where_t) : Z :=
  match w with
  | HitWhere.WHERE_FIRST => 0
  | HitWhere.L1I => 2 | HitWhere.L1_OWN => 3 | HitWhere.L2_OWN => 4 | HitWhere.L3_OWN => 5 | HitWhere.L4_OWN => 6
  | HitWhere.MISS => 7 | HitWhere.NUCA_CACHE => 8 | HitWhere.DRAM_CACHE => 9
  | HitWhere.DRAM => 10 | HitWhere.DRAM_LOCAL => 11 | HitWhere.DRAM_REMOTE => 12
  | HitWhere.CACHE_REMOTE => 13 | HitWhere.SIBLING => 14
  | HitWhere.L1_SIBLING => 17 | HitWhere.L2_SIBLING => 18 | HitWhere.L3_SIBLING => 19 | HitWhere.L4_SIBLING => 20
  | HitWhere.UNKNOWN => 21 | HitWhere.PREDICATE_FALSE => 22 | HitWhere.PREFETCH_NO_MAPPING => 23
  end.

Inductive MemModeled :=
  | MEM_MODELED_NONE | MEM_MODELED_COUNT | MEM_MODELED_COUNT_TLBTIME | MEM_MODELED_TIME | MEM_MODELED_FENCED | MEM_MODELED_RETURN.
#[global] Instance modeled_eq_dec : EqDecision MemModeled.
Proof. solve_decision. Defined.

(** What a core tells others: instructions queued for, and latencies reported to, its
    performance model, and accesses left to the trace manager. *)
Inductive event :=
  | MemAccessInstruction (latency address data_size : Z) (is_fence : bool)
  | TLBMissInstruction (latency : Z) (is_ifetch : bool)
  | handleMemoryLatency (latency : Z) (where_ : HitWhere.where_t)
  | TraceAccess (lock_signal : Core.lock_signal_t) (mem_op_type : Core.mem_op_t) (address data_size : Z).

(** ** The interface of memory managers *)

(** The arguments of [coreInitiateMemoryAccess]. *)
Record request := mk_request {
  q_mem_component : MemComponent.component_t;
  q_lock_signal : Core.lock_signal_t;
  q_mem_op_type : Core.mem_op_t;
  q_address : Z;
  q_offset : Z;
  q_data_buf : option bytes;
  q_data_length : Z;
  q_modeled : MemModeled;
}.
Definition answer : Type := HitWhere.where_t * option bytes.

(** [coreInitiateMemoryAccess] answers, or the core waits and [awaited] gives the answer when
    it is there; [clock] is the [ShmemPerfModel] of a core. *)
Class MemorySystem (S : Type) := {
  getCacheBlockSize : nat → Z;
  getL1HitLatency : nat → Z;
  coreInitiateMemoryAccess : nat → request → M S (list event * option answer);
  awaited : nat → S → option answer;
  clock : nat → S → ShmemPerfModel.t;
  set_clock : nat → ShmemPerfModel.t → S → S;
}.

(** ** Cores *)

(** The arguments of [initiateMemoryAccess] and its local variables. *)
Record access := mk_access {
  mem_component : MemComponent.component_t;
  lock_signal : Core.lock_signal_t;
  mem_op_type : Core.mem_op_t;
  address : Z;
  data_buf : option bytes;
  data_size : Z;
  modeled : MemModeled;
  initial_time : Z;
  curr_addr_aligned : Z;
  curr_data_buffer_head : nat;
  num_misses : Z;
  hit_where : HitWhere.where_t;
}.

(** What a core waits in: a loop over lines, or the single access of [accessMemoryFast]. *)
Inductive suspended := InAccess (x : access) | InFast (initial_time : Z).

Record MemoryResult := mk_result { r_hit_where : HitWhere.where_t; r_latency : Z; r_data : option bytes }.

(** [m_results] are the results returned so far, [m_access] is what the core waits in. *)
Record core := mk_core {
  m_icache_last_block : Z;
  m_mem_lock : bool;
  m_performance_enabled : bool;
  m_access : option suspended;
  m_results : list MemoryResult;
}.
Definition new_core : core := mk_core UINT64_MAX false false None [].

(** [application] is the memory of the simulated program. *)
Record t (S : Type) := mk {
  memory : S;
  cores : nat → core;
  events : list (nat * event);
  application : Z → Z;
  m_global_core_lock : bool;
}.
Arguments mk {S} _ _ _ _ _.
Arguments memory {S} _.
Arguments cores {S} _ _.
Arguments events {S} _.
Arguments application {S} _ _.
Arguments m_global_core_lock {S} _.

Inductive simulation_mode := PINTOOL | STANDALONE | OTHER_MODE.

Section core_ops.
Context {S : Type} `{MemorySystem S}.
Abbreviation MM := (M (t S)).
Implicit Types (q : nat) (x : access).

Definition in_memory {A} (m : M S A) : MM A := λ s,
  let! (a, y) := m (memory s) in Ok (a, mk y (cores s) (events s) (application s) (m_global_core_lock s)).
Definition get_core q : MM core := gets (λ s, cores s q).
Definition put_core q (c : core) : MM unit :=
  modify (λ s, mk (memory s) (<[q := c]> (cores s)) (events s) (application s) (m_global_core_lock s)).
Definition tell q (l : list event) : MM unit :=
  modify (λ s, mk (memory s) (cores s) (events s ++ map (pair q) l) (application s) (m_global_core_lock s)).

Definition set_lock q (b : bool) : MM unit :=
  c ← get_core q; put_core q (mk_core (m_icache_last_block c) b (m_performance_enabled c) (m_access c) (m_results c)).
Definition set_access q (x : option suspended) : MM unit :=
  c ← get_core q; put_core q (mk_core (m_icache_last_block c) (m_mem_lock c) (m_performance_enabled c) x (m_results c)).
Definition set_last_block q (b : Z) : MM unit :=
  c ← get_core q; put_core q (mk_core b (m_mem_lock c) (m_performance_enabled c) (m_access c) (m_results c)).

(** [Lock::acquire] of [m_mem_lock]: a core that finds it taken waits for another call of
    its own. *)
Definition acquire_mem_lock q : MM unit :=
  c ← get_core q; lift (check (negb (m_mem_lock c)) Diverges);; set_lock q true.

Definition getElapsedTime q : MM Z := gets (λ s, ShmemPerfModel.getElapsedTime (clock q (memory s)) ShmemPerfModel.USER_THREAD).
Definition upd_clock q (f : ShmemPerfModel.t → ShmemPerfModel.t) : MM unit :=
  in_memory (modify (λ s, set_clock q (f (clock q s)) s)).

Definition makeMemoryResult q (r : MemoryResult) : MM unit :=
  assert_ (where_code (r_hit_where r) <? 24);;
  c ← get_core q;
  put_core q (mk_core (m_icache_last_block c) (m_mem_lock c) (m_performance_enabled c) (m_access c) (m_results c ++ [r])).

(** [(HitWhere::where_t)mem_component] for the components that cores access. *)
Definition where_component (c : MemComponent.component_t) : HitWhere.where_t :=
  match c with
  | MemComponent.L1_ICACHE => HitWhere.L1I
  | MemComponent.L1_DCACHE => HitWhere.L1_OWN
  | MemComponent.L2_CACHE => HitWhere.L2_OWN
  | MemComponent.L3_CACHE => HitWhere.L3_OWN
  | MemComponent.L4_CACHE => HitWhere.L4_OWN
  | _ => HitWhere.UNKNOWN
  end.

(** ** [initiateMemoryAccess] *)

Definition cache_block q : Z := u32 (getCacheBlockSize q).
Definition begin_addr_aligned q x : Z := address x - address x `mod` cache_block q.
Definition end_addr x : Z := u64 (address x + data_size x).
Definition end_addr_aligned q x : Z := end_addr x - end_addr x `mod` cache_block q.

(** The offset and the size of an iteration, unless it is skipped. *)
Definition piece q x : option (Z * Z) :=
  let curr_offset := if curr_addr_aligned x =? begin_addr_aligned q x then u32 (address x `mod` cache_block q) else 0 in
  if curr_addr_aligned x =? end_addr_aligned q x then
    let curr_size := u32 (end_addr x `mod` cache_block q - curr_offset) in
    if curr_size =? 0 then None else Some (curr_offset, curr_size)
  else Some (curr_offset, u32 (cache_block q - curr_offset)).

Definition next_line q x : access :=
  mk_access (mem_component x) (lock_signal x) (mem_op_type x) (address x) (data_buf x) (data_size x) (modeled x)
    (initial_time x) (u64 (curr_addr_aligned x + cache_block q)) (curr_data_buffer_head x) (num_misses x) (hit_where x).

(** The bytes at the buffer head, for a write, and their replacement, for a read. *)
Definition slice (buf : option bytes) (head n : nat) : result (option bytes) :=
  match buf with
  | Some buf => let! b := mem_read buf head n in Ok (Some b)
  | None => Ok None
  end.
Definition fill (buf : option bytes) (head n : nat) (read : option bytes) : result (option bytes) :=
  match buf, read with
  | Some buf, Some read => let! buf := mem_write buf head read n in Ok (Some buf)
  | buf, _ => Ok buf
  end.

(** What an iteration does with the answer. *)
Definition take_answer x (curr_size : Z) (a : answer) : result access :=
  let (this_hit_where, read) := a in
  let n := Z.to_nat curr_size in
  let! buf := fill (data_buf x) (curr_data_buffer_head x) n read in
  let missed := negb (bool_decide (hit_where x = where_component (mem_component x))) in
  let further := bool_decide (hit_where x = HitWhere.UNKNOWN) ||
    (negb (bool_decide (this_hit_where = HitWhere.UNKNOWN)) && (where_code (hit_where x) <? where_code this_hit_where)) in
  Ok (mk_access (mem_component x) (lock_signal x) (mem_op_type x) (address x) buf (data_size x) (modeled x)
        (initial_time x) (curr_addr_aligned x) (curr_data_buffer_head x + n)
        (if missed then u32 (num_misses x + 1) else num_misses x) (if further then this_hit_where else hit_where x)).

(** After the loop. *)
Definition finish_access q x : MM unit :=
  final_time ← getElapsedTime q;
  assert_ (initial_time x <=? final_time);;
  when (negb (bool_decide (lock_signal x = Core.LOCK))) (set_lock q false);;
  let shmem_time := SubsecondTime.sub final_time (initial_time x) in
  c ← get_core q;
  match modeled x with
  | MEM_MODELED_TIME | MEM_MODELED_FENCED =>
      when (m_performance_enabled c)
        (tell q [MemAccessInstruction shmem_time (address x) (data_size x) (bool_decide (modeled x = MEM_MODELED_FENCED))])
  | MEM_MODELED_COUNT | MEM_MODELED_COUNT_TLBTIME =>
      when (SubsecondTime.Zero <? shmem_time) (tell q [handleMemoryLatency shmem_time (hit_where x)])
  | MEM_MODELED_NONE | MEM_MODELED_RETURN => mret tt
  end;;
  when (negb (bool_decide (modeled x = MEM_MODELED_NONE)))
    (upd_clock q (λ k, ShmemPerfModel.incrTotalMemoryAccessLatency k shmem_time));;
  assert_ (negb (bool_decide (hit_where x = HitWhere.UNKNOWN)));;
  makeMemoryResult q (mk_result (hit_where x) shmem_time (data_buf x)).

Definition request_of x (curr_offset curr_size : Z) : result request :=
  let! buf := slice (data_buf x) (curr_data_buffer_head x) (Z.to_nat curr_size) in
  Ok (mk_request (mem_component x) (lock_signal x) (mem_op_type x) (curr_addr_aligned x) curr_offset buf curr_size (modeled x)).

(** The loop over the lines; [fuel] bounds their number. *)
Fixpoint access_lines (fuel : nat) q x : MM unit :=
  match fuel with
  | O => fail NoFuel
  | Datatypes.S fuel =>
      if curr_addr_aligned x <=? end_addr_aligned q x then
        match piece q x with
        | None => access_lines fuel q (next_line q x)
        | Some (curr_offset, curr_size) =>
            r ← lift (request_of x curr_offset curr_size);
            '(l, a) ← in_memory (coreInitiateMemoryAccess q r);
            tell q l;;
            match a with
            | None => set_access q (Some (InAccess x))
            | Some a => x ← lift (take_answer x curr_size a); access_lines fuel q (next_line q x)
            end
        end
      else finish_access q x
  end.

(** [accessMemoryFast], with [coreInitiateMemoryAccessFast] of [MemoryManagerBase]: one whole line. *)
Definition finish_fast q (initial_time : Z) : MM unit :=
  final_time ← getElapsedTime q;
  let latency := SubsecondTime.sub final_time initial_time in
  when (SubsecondTime.Zero <? latency) (tell q [handleMemoryLatency latency HitWhere.MISS]).

Definition accessMemoryFast q (icache : bool) (op : Core.mem_op_t) (addr elapsed_time : Z) : MM unit :=
  upd_clock q (λ k, ShmemPerfModel.setElapsedTime k ShmemPerfModel.USER_THREAD elapsed_time);;
  aligned ← lift (umod addr (getCacheBlockSize q));
  '(l, a) ← in_memory (coreInitiateMemoryAccess q
    (mk_request (if icache then MemComponent.L1_ICACHE else MemComponent.L1_DCACHE) Core.NONE op (u64 (addr - aligned)) 0
       None (u32 (getCacheBlockSize q)) MEM_MODELED_COUNT_TLBTIME));
  tell q l;;
  match a with
  | None => set_access q (Some (InFast elapsed_time))
  | Some _ => finish_fast q elapsed_time
  end.

(** The rest of an access, when the answer that the core waits for is there. *)
Definition continue_access (fuel : nat) q : MM unit :=
  c ← get_core q;
  a ← gets (λ s, awaited q (memory s));
  match m_access c, a with
  | Some (InAccess x), Some a =>
      set_access q None;;
      match piece q x with
      | None => fail AssertFail
      | Some (_, curr_size) => x ← lift (take_answer x curr_size a); access_lines fuel q (next_line q x)
      end
  | Some (InFast initial_time), Some _ => set_access q None;; finish_fast q initial_time
  | _, _ => fail AssertFail
  end.

(** [elapsed_time] is what the performance model of the core says. *)
Definition initiateMemoryAccess (fuel : nat) q (component : MemComponent.component_t) (lock : Core.lock_signal_t)
    (op : Core.mem_op_t) (addr : Z) (buf : option bytes) (size : Z) (model : MemModeled) (now elapsed_time : Z) : MM unit :=
  if size <=? 0 then makeMemoryResult q (mk_result (where_component component) SubsecondTime.Zero buf)
  else
    let initial_time := if now =? SubsecondTime.MaxTime then elapsed_time else now in
    when (negb (bool_decide (lock = Core.UNLOCK))) (acquire_mem_lock q);;
    upd_clock q (λ k, ShmemPerfModel.setElapsedTime k ShmemPerfModel.USER_THREAD initial_time);;
    let x := mk_access component lock op addr buf size model initial_time 0 0 0 HitWhere.UNKNOWN in
    access_lines fuel q (mk_access component lock op addr buf size model initial_time (begin_addr_aligned q x) 0 0 HitWhere.UNKNOWN).

(** ** The other operations *)

(** [applicationMemCopy] from and to the application. *)
Definition load_application (m : Z → Z) (d_addr : Z) (n : nat) : bytes := map (λ i, m (d_addr + Z.of_nat i)) (seq 0 n).
Definition store_application (m : Z → Z) (d_addr : Z) (b : bytes) : Z → Z :=
  λ a, if (d_addr <=? a) && (a <? d_addr + Z.of_nat (length b)) then default 0 (b !! Z.to_nat (a - d_addr)) else m a.

Definition nativeMemOp (lock : Core.lock_signal_t) (op : Core.mem_op_t) (d_addr : Z) (data_buffer : bytes) (data_size : Z) : MM bytes :=
  if data_size <=? 0 then mret data_buffer
  else
    let n := Z.to_nat data_size in
    when (bool_decide (lock = Core.LOCK))
      (assert_ (bool_decide (op = Core.READ_EX));;
       b ← gets m_global_core_lock;
       lift (check (negb b) Diverges);;
       modify (λ s, mk (memory s) (cores s) (events s) (application s) true));;
    m ← gets application;
    data_buffer ←
      (match op with
       | Core.READ | Core.READ_EX => lift (mem_write data_buffer 0 (load_application m d_addr n) n)
       | Core.WRITE =>
           b ← lift (mem_read data_buffer 0 n);
           modify (λ s, mk (memory s) (cores s) (events s) (store_application m d_addr b) (m_global_core_lock s));;
           mret data_buffer
       | Core.INVALID_MEM_OP => mret data_buffer
       end);
    when (bool_decide (lock = Core.UNLOCK))
      (assert_ (bool_decide (op = Core.WRITE));;
       modify (λ s, mk (memory s) (cores s) (events s) (application s) false));;
    mret data_buffer.

(** The data that are asked for come from the application, not from the caches. *)
Definition accessMemory (mode : simulation_mode) (fuel : nat) q (lock : Core.lock_signal_t) (op : Core.mem_op_t) (d_addr : Z)
    (data_buffer : option bytes) (data_size : Z) (model : MemModeled) (now : Z) (is_fault_mask : bool) (elapsed_time : Z) : MM unit :=
  buf ←
    (match data_buffer, is_fault_mask with
     | Some b, false =>
         match mode with
         | PINTOOL => nativeMemOp Core.NONE op d_addr b data_size;; mret tt
         | STANDALONE => tell q [TraceAccess lock op d_addr data_size]
         | OTHER_MODE => mret tt
         end;; mret None
     | b, _ => mret b
     end);
  if bool_decide (model = MEM_MODELED_NONE) then makeMemoryResult q (mk_result HitWhere.UNKNOWN SubsecondTime.Zero buf)
  else initiateMemoryAccess fuel q MemComponent.L1_DCACHE lock op d_addr buf data_size model now elapsed_time.

(** [address & blockmask]. *)
Definition line_of q (addr : Z) : Z := Z.land addr (u64 (Z.lnot (u64 (getCacheBlockSize q - 1)))).

Definition readInstructionMemory (fuel : nat) q (addr instruction_size elapsed_time : Z) : MM unit :=
  let single_cache_line := line_of q addr =? line_of q (u64 (addr + instruction_size - 1)) in
  c ← get_core q;
  let again := line_of q addr =? m_icache_last_block c in
  if again && single_cache_line then makeMemoryResult q (mk_result HitWhere.L1I (getL1HitLatency q) None)
  else
    let addr := if again then u64 (line_of q addr + getCacheBlockSize q) else addr in
    set_last_block q (line_of q addr);;
    initiateMemoryAccess fuel q MemComponent.L1_ICACHE Core.NONE Core.READ (line_of q addr) None (u32 (getCacheBlockSize q))
      MEM_MODELED_COUNT_TLBTIME SubsecondTime.MaxTime elapsed_time.
End core_ops.

(** ** [countInstructions] *)

(** The fields it uses, beside those of the periodic check. *)
Record counters := mk_counters { hpi : HookPeriodicIns.core; m_instructions_callback : Z }.

Definition setInstructionsCallback (instructions : Z) (c : counters) : counters :=
  mk_counters (hpi c) (u64 (HookPeriodicIns.m_instructions (hpi c) + instructions)).
Definition disableInstructionsCallback (c : counters) : counters := mk_counters (hpi c) UINT64_MAX.

(** The result says whether the thread may have been rescheduled, as the hook
    [HOOK_INSTR_COUNT] was called, and whether the periodic hooks were called. *)
Definition countInstructions (ins_per_core ins_global count : Z) (c : counters) (g : HookPeriodicIns.globals) :
    bool * bool * counters * HookPeriodicIns.globals :=
  let h := HookPeriodicIns.mk_core (u64 (HookPeriodicIns.m_instructions (hpi c) + count))
             (HookPeriodicIns.m_instructions_hpi_callback (hpi c)) (HookPeriodicIns.m_instructions_hpi_last (hpi c)) in
  let c := mk_counters h (m_instructions_callback c) in
  let check_rescheduled := negb (m_instructions_callback c =? UINT64_MAX) &&
                           (m_instructions_callback c <=? HookPeriodicIns.m_instructions (hpi c)) in
  let c := if check_rescheduled then disableInstructionsCallback c else c in
  let '(called, h, g) := HookPeriodicIns.hookPeriodicInsCheck ins_per_core ins_global (hpi c) g in
  (check_rescheduled, called, mk_counters h (m_instructions_callback c), g).

(** * The loop over lines *)

Lemma wps_never_unit {S} (m : M S unit) s (Q : S → Prop) : wps never m s (λ _ s, Q s) → ∃ s', m s = Ok (tt, s') ∧ Q s'.
Proof. intros ([] & s' & E & HQ)%wps_never. by exists s'. Qed.

Section lines.
Context {S : Type} `{HM : MemorySystem S} (q : nat) (B b n : Z).
Context (HB : cache_block q = B) (HB0 : 0 < B < 2 ^ 32) (Hb : 0 ≤ b) (Hn : 0 < n < 2 ^ 32) (Hend : b + n + B < 2 ^ 64).
Context (component : MemComponent.component_t) (lock : Core.lock_signal_t) (op : Core.mem_op_t) (model : MemModeled) (t0 : Z).

(** The access in front of the line at [curr], with [p] bytes done. *)
Definition mid (curr p : Z) (buf : option bytes) (misses : Z) (w : HitWhere.where_t) : access :=
  mk_access component lock op b buf n model t0 curr (Z.to_nat p) misses w.

Lemma line_bounds a : a - a `mod` B = B * (a `div` B) ∧ 0 ≤ a `mod` B < B.
Proof using HB0. pose proof (Z.div_mod a B). pose proof (Z.mod_pos_bound a B). lia. Qed.

(** From the lines before the first byte to the one of the end. *)
Definition in_loop (j : Z) : Prop := b `div` B ≤ j ≤ (b + n) `div` B.

Lemma piece_spec j buf p misses w : in_loop j →
  let from := Z.max b (B * j) in let to := Z.min (b + n) (B * j + B) in
  piece q (mid (B * j) p buf misses w) = if to - from =? 0 then None else Some (from - B * j, to - from).
Proof using HB HB0 Hb Hn Hend.
  intros [Hj1 Hj2]. cbv zeta. unfold piece, begin_addr_aligned, end_addr_aligned, end_addr, mid.
  cbn [curr_addr_aligned address data_size]. rewrite HB, (u64_small (b + n)) by (unfold in_u64; lia).
  pose proof (line_bounds b) as [Eb Rb]. pose proof (line_bounds (b + n)) as [Ee Re]. rewrite Eb, Ee.
  rewrite !(u32_small (b `mod` B)) by (unfold in_u32; lia).
  set (jb := b `div` B) in *. set (je := (b + n) `div` B) in *.
  assert (jb ≤ je) by lia. assert ((B * j =? B * jb) = (j =? jb)) as -> by (destruct (Z.eqb_spec j jb) as [->|]; [apply Z.eqb_refl|apply Z.eqb_neq; nia]).
  assert ((B * j =? B * je) = (j =? je)) as -> by (destruct (Z.eqb_spec j je) as [->|]; [apply Z.eqb_refl|apply Z.eqb_neq; nia]).
  assert (∀ i, i < j → B * i + B ≤ B * j) as Hlt by nia. assert (∀ i, j < i → B * j + B ≤ B * i) as Hgt by nia.
  destruct (Z.eqb_spec j jb) as [Hjb|Hjb], (Z.eqb_spec j je) as [E|Hje]; rewrite <- ?Hjb, <- ?E in *.
  - rewrite u32_small by (unfold in_u32; lia). rewrite Z.max_l, Z.min_l by lia.
    replace ((b + n) `mod` B - b `mod` B) with (b + n - b) by lia. case_match; [done|]. do 2 f_equal; lia.
  - specialize (Hgt je ltac:(lia)). rewrite u32_small by (unfold in_u32; lia). rewrite Z.max_l, Z.min_r by lia.
    destruct (Z.eqb_spec (B * j + B - b) 0); [lia|]. do 2 f_equal; lia.
  - specialize (Hlt jb ltac:(lia)). rewrite u32_small by (unfold in_u32; lia). rewrite Z.max_r, Z.min_l by lia.
    replace ((b + n) `mod` B - 0) with (b + n - B * j) by lia. case_match; [done|]. do 2 f_equal; lia.
  - specialize (Hlt jb ltac:(lia)). specialize (Hgt je ltac:(lia)). rewrite u32_small by (unfold in_u32; lia). rewrite Z.max_r, Z.min_r by lia.
    destruct (Z.eqb_spec (B * j + B - B * j) 0); [lia|]. do 2 f_equal; lia.
Qed.

(** An invariant of the bytes done so far, which each access of a part of a line keeps. *)
Context (E : failure → Prop) (I : Z → option bytes → S → Prop) (W : HitWhere.where_t → Prop) (HW : ¬ W HitWhere.UNKNOWN).
Context (Hstep : ∀ p m buf y, I p buf y → 0 ≤ p → 0 < m → p + m ≤ n → (b + p) `mod` B + m ≤ B →
  ∃ part, slice buf (Z.to_nat p) (Z.to_nat m) = Ok part ∧
  wps E (coreInitiateMemoryAccess q (mk_request component lock op (b + p - (b + p) `mod` B) ((b + p) `mod` B) part m model)) y
    (λ r y', ∃ w read buf', snd r = Some (w, read) ∧ W w ∧
       fill buf (Z.to_nat p) (Z.to_nat m) read = Ok buf' ∧ I (p + m) buf' y')).

(** The number of bytes in front of line [j]. *)
Definition before (j : Z) : Z := Z.min (b + n) (Z.max b (B * j)) - b.
Definition last_line : Z := (b + n) `div` B.

(** The end of a line that is accessed from [b + p] on. *)
Lemma part_of_line j : in_loop j → let p := before j in let m := before (j + 1) - p in
  0 ≤ p ∧ 0 ≤ m ∧ p + m ≤ n ∧ (0 < m → b + p - (b + p) `mod` B = B * j ∧ (b + p) `mod` B + m ≤ B) ∧
  m = Z.min (b + n) (B * j + B) - Z.max b (B * j) ∧ (0 < m → (b + p) `mod` B = Z.max b (B * j) - B * j).
Proof using HB0 Hb Hn.
  intros [Hj1 Hj2]. cbv zeta. unfold before. pose proof (line_bounds b) as [Eb Rb]. pose proof (line_bounds (b + n)) as [Ee Re].
  set (jb := b `div` B) in *. set (je := (b + n) `div` B) in *.
  assert (B * jb ≤ B * j ≤ B * je) as [? ?] by nia.
  assert (b + (Z.min (b + n) (Z.max b (B * j)) - b) = Z.max b (B * j)) as -> by lia.
  assert (Z.max b (B * j) < B * j + B) as Hlt by (destruct (decide (j = jb)) as [->|]; nia).
  assert (Z.max b (B * j) `mod` B = Z.max b (B * j) - B * j) as Em.
  { symmetry. apply (Z.mod_unique _ _ j); lia. }
  rewrite Em. lia.
Qed.

Lemma wps_access_lines (j : nat) : ∀ fuel i buf misses w s Q, in_loop i ∨ i = last_line + 1 → (j < fuel)%nat →
  Z.of_nat j = last_line + 1 - i → I (before i) buf (memory s) → (before i = 0 ∧ w = HitWhere.UNKNOWN ∨ W w) →
  (∀ buf misses w y l, I n buf y → W w →
     wps E (finish_access q (mid (B * (last_line + 1)) n buf misses w)) (mk y (cores s) l (application s) (m_global_core_lock s)) Q) →
  wps E (access_lines fuel q (mid (B * i) (before i) buf misses w)) s Q.
Proof using HB HB0 Hb Hn Hend HW Hstep.
  pose proof (line_bounds (b + n)) as [Ee Re]. pose proof (line_bounds b) as [Eb Rb].
  induction j as [|j IH]; intros fuel i buf misses w s Q Hi Hf Hj HI Hw HQ.
  all: destruct fuel as [|fuel]; [lia|]; cbn [access_lines].
  all: unfold end_addr_aligned at 1, end_addr at 1 2; cbn [mid curr_addr_aligned address data_size]; rewrite HB, u64_small, Ee by (unfold in_u64; lia).
  all: fold last_line.
  - assert (i = last_line + 1) as -> by lia. destruct (Z.leb_spec (B * (last_line + 1)) (B * last_line)); [nia|].
    assert (before (last_line + 1) = n) as En by (unfold before, last_line in *; nia). rewrite En in *.
    destruct s as [y cs l a g]. apply HQ; [done|]. destruct Hw as [[? _]|]; [lia|done].
  - destruct Hi as [Hi|]; [|lia]. destruct (Z.leb_spec (B * i) (B * last_line)) as [_|]; [|unfold in_loop, last_line in *; nia].
    change (mk_access _ _ _ _ _ _ _ _ _ _ _ _) with (mid (B * i) (before i) buf misses w).
    destruct (part_of_line i Hi) as (Hp & Hm & Hpm & Hfit & Em & Eo). cbv zeta in *.
    rewrite (piece_spec i buf (before i) misses w Hi). cbv zeta. rewrite <- Em.
    assert (u64 (B * i + B) = B * (i + 1)) as Enext by (rewrite u64_small by (unfold in_u64, in_loop, last_line in *; nia); lia).
    assert (in_loop (i + 1) ∨ i + 1 = last_line + 1) as Hi' by (unfold in_loop, last_line in *; lia).
    destruct (Z.eqb_spec (before (i + 1) - before i) 0) as [E0|E0].
    + unfold next_line. cbn [mid mem_component lock_signal mem_op_type address data_buf data_size modeled initial_time
        curr_addr_aligned curr_data_buffer_head num_misses hit_where]. rewrite HB, Enext.
      replace (before i) with (before (i + 1)) in * by lia. apply (IH fuel (i + 1)); try done; lia.
    + destruct Hfit as [Hal Hfit]; [lia|]. specialize (Eo ltac:(lia)).
      destruct (Hstep (before i) (before (i + 1) - before i) buf (memory s)) as (part & Epart & Hcall); [done|lia..|].
      wstep. unfold request_of. cbn [mid data_buf curr_data_buffer_head mem_component lock_signal mem_op_type curr_addr_aligned modeled].
      rewrite Epart. cbn [rbind]. apply wps_lift_ok with (a := mk_request component lock op (B * i) (Z.max b (B * i) - B * i) part (before (i + 1) - before i) model); [done|].
      rewrite <- Eo, <- Hal. wstep. unfold wps in Hcall |- *. unfold in_memory.
      destruct (coreInitiateMemoryAccess _ _ _) as [[[l a] y]|e]; [|done]. cbn [rbind].
      destruct Hcall as (w' & read & buf' & Ea & Hw' & Efill & HI'). cbn in Ea. subst a.
      cbn beta iota. apply wps_bind. unfold tell. apply wps_modify. cbn beta iota.
      apply wps_bind. unfold take_answer. cbn [mid data_buf curr_data_buffer_head]. rewrite Efill. cbn [rbind].
      eapply wps_lift_ok; [done|]. unfold next_line.
      cbn [mid mem_component lock_signal mem_op_type address data_buf data_size modeled initial_time
        curr_addr_aligned curr_data_buffer_head num_misses hit_where]. rewrite HB, Hal, Enext.
      replace (Z.to_nat (before i) + Z.to_nat (before (i + 1) - before i))%nat with (Z.to_nat (before (i + 1))) by lia.
      replace (before i + (before (i + 1) - before i)) with (before (i + 1)) in HI' by lia.
      apply (IH fuel (i + 1)); try done; [lia..|].
      right. case_match eqn:Ew; [done|]. apply orb_false_iff in Ew as [Ew%bool_decide_eq_false _]. by destruct Hw as [[_ ?]|].
Qed.
End lines.

(** * A flat memory

    What the accesses of a core promise: to read and write ranges of bytes.  This memory
    answers at once, and only to requests for a part of a line. *)
Module FlatMemory.
Record t := mk { cells : Z → Z; clocks : nat → ShmemPerfModel.t }.

Definition access (k : Z) (r : request) : M t (list event * option answer) :=
  assert_ (Z.land (q_address r) (2 ^ k - 1) =? 0);;
  assert_ (q_offset r + q_data_length r <=? 2 ^ k);;
  let a := q_address r + q_offset r in
  let n := Z.to_nat (q_data_length r) in
  m ← gets cells;
  match q_mem_op_type r, q_data_buf r with
  | Core.INVALID_MEM_OP, _ => fail LogError
  | Core.WRITE, Some b =>
      modify (λ s, mk (store_application m a (take n b)) (clocks s));; mret ([], Some (HitWhere.L1_OWN, None))
  | Core.WRITE, None => mret ([], Some (HitWhere.L1_OWN, None))
  | _, b => mret ([], Some (HitWhere.L1_OWN, (λ _, load_application m a n) <$> b))
  end.

Definition system (k : Z) : MemorySystem t := {|
  getCacheBlockSize _ := 2 ^ k;
  getL1HitLatency _ := 0;
  coreInitiateMemoryAccess _ r := access k r;
  awaited _ _ := None;
  clock q s := clocks s q;
  set_clock q c s := mk (cells s) (<[q := c]> (clocks s));
|}.

(** A read or a write of the bytes from [addr] on. *)
Definition served (op : Core.mem_op_t) (m : Z → Z) (addr : Z) (data : bytes) : bytes :=
  match op with Core.READ | Core.READ_EX => load_application m addr (length data) | _ => data end.
Definition written (op : Core.mem_op_t) (m : Z → Z) (addr : Z) (data : bytes) : Z → Z :=
  match op with Core.WRITE => store_application m addr data | _ => m end.
End FlatMemory.

Section flat.
Import FlatMemory.
Context (k : Z) (Hk : 0 ≤ k < 32).
#[local] Instance flat : MemorySystem t := system k.
Implicit Types (s : CoreAccess.t t).

Lemma load_length m a n : length (load_application m a n) = n.
Proof. unfold load_application. by rewrite length_map, length_seq. Qed.
Lemma load_lookup m a n i : (i < n)%nat → load_application m a n !! i = Some (m (a + Z.of_nat i)).
Proof.
  intros Hi. unfold load_application. change (map ?f ?l) with (f <$> l). rewrite list_lookup_fmap, lookup_seq_lt by done. done.
Qed.
Lemma load_app m a n n' : load_application m a (n + n') = load_application m a n ++ load_application m (a + Z.of_nat n) n'.
Proof.
  apply list_eq. intros i. destruct (decide (i < n + n')%nat) as [Hi|Hi].
  - rewrite load_lookup by done. destruct (decide (i < n)%nat).
    + rewrite lookup_app_l by (by rewrite load_length). by rewrite load_lookup.
    + rewrite lookup_app_r by (rewrite load_length; lia). rewrite load_length, load_lookup by lia. do 2 f_equal. lia.
  - rewrite !lookup_ge_None_2; [done|rewrite length_app, !load_length; lia|rewrite load_length; lia].
Qed.

(** Storing the first [p] bytes, and then the next [n]. *)
Lemma store_app m a l l' x :
  store_application (store_application m a l) (a + Z.of_nat (length l)) l' x = store_application m a (l ++ l') x.
Proof.
  unfold store_application. rewrite length_app, Nat2Z.inj_add.
  destruct (Z.leb_spec a x), (Z.leb_spec (a + Z.of_nat (length l)) x), (Z.ltb_spec x (a + Z.of_nat (length l) + Z.of_nat (length l'))),
    (Z.ltb_spec x (a + (Z.of_nat (length l) + Z.of_nat (length l')))), (Z.ltb_spec x (a + Z.of_nat (length l))); try lia; cbn; try done.
  - rewrite lookup_app_r by lia. f_equal. f_equal. lia.
  - by rewrite lookup_app_l by lia.
Qed.
Lemma load_ext m m' a n : (∀ x, m x = m' x) → load_application m a n = load_application m' a n.
Proof. intros E. unfold load_application. apply map_ext. intros i. apply E. Qed.
Lemma store_ext m m' a l x : (∀ x, m x = m' x) → store_application m a l x = store_application m' a l x.
Proof. intros E. unfold store_application. by rewrite E. Qed.

Context (q : nat) (component : MemComponent.component_t) (lock : Core.lock_signal_t) (op : Core.mem_op_t) (model : MemModeled).
Context (addr : Z) (data : bytes).
Abbreviation n := (Z.of_nat (length data)).

Section parts.
Context (m : Z → Z) (t0 : Z).

(** After [p] bytes. *)
Definition done_up_to (p : Z) (buf : option bytes) (y : t) : Prop :=
  buf = Some (take (Z.to_nat p) (served op m addr data) ++ drop (Z.to_nat p) data) ∧
  (∀ a, cells y a = written op m addr (take (Z.to_nat p) data) a) ∧ ShmemPerfModel.m_elapsed_user (clocks y q) = t0.

Lemma served_length : length (served op m addr data) = length data.
Proof using Type. unfold served. destruct op; by rewrite ?load_length. Qed.

Lemma request_fits p r E Q y : 0 ≤ p → 0 < r → (addr + p) `mod` 2 ^ k + r ≤ 2 ^ k → ∀ part,
  (wps E (m0 ← gets cells;
     match op, part with
     | Core.INVALID_MEM_OP, _ => fail LogError
     | Core.WRITE, Some b =>
         modify (λ z, mk (store_application m0 (addr + p) (take (Z.to_nat r) b)) (clocks z));; mret ([], Some (HitWhere.L1_OWN, None))
     | Core.WRITE, None => mret ([], Some (HitWhere.L1_OWN, None))
     | _, b => mret ([], Some (HitWhere.L1_OWN, (λ _, load_application m0 (addr + p) (Z.to_nat r)) <$> b))
     end) y Q) →
  wps E (coreInitiateMemoryAccess q (mk_request component lock op (addr + p - (addr + p) `mod` 2 ^ k) ((addr + p) `mod` 2 ^ k) part r model)) y Q.
Proof using Hk.
  intros Hp Hr Hfit part HQ. cbn [coreInitiateMemoryAccess flat system]. unfold access. cbn [q_address q_offset q_data_length q_mem_op_type q_data_buf].
  pose proof (Z.pow_pos_nonneg 2 k ltac:(lia) ltac:(lia)) as H2.
  assert (Z.land (addr + p - (addr + p) `mod` 2 ^ k) (2 ^ k - 1) = 0) as ->.
  { rewrite Z.sub_1_r, <- Z.ones_equiv, Z.land_ones by lia. rewrite Zminus_mod_idemp_r, Z.sub_diag. by apply Z.mod_0_l; lia. }
  apply wps_bind. cbn [Z.eqb]. apply wps_bind. rewrite (proj2 (Z.leb_le _ _)) by lia. cbn. 
  replace (addr + p - (addr + p) `mod` 2 ^ k + (addr + p) `mod` 2 ^ k) with (addr + p) by lia. exact HQ.
Qed.

Lemma load_part a p r l : (p + r ≤ l)%nat → take r (drop p (load_application m a l)) = load_application m (a + Z.of_nat p) r.
Proof using Type.
  intros Hl. replace l with (p + (r + (l - p - r)))%nat by lia. rewrite !load_app, drop_app_length' by (by rewrite load_length).
  by rewrite take_app_length' by (by rewrite load_length).
Qed.

(** A buffer whose first bytes are those of [L], and the next ones too after a read. *)
Lemma fill_part (L : bytes) p r : length L = length data → 0 ≤ p → 0 ≤ r → p + r ≤ n →
  (let! buf := mem_write (take (Z.to_nat p) L ++ drop (Z.to_nat p) data) (Z.to_nat p) (take (Z.to_nat r) (drop (Z.to_nat p) L)) (Z.to_nat r) in
   Ok (Some buf)) = Ok (Some ((take (Z.to_nat p) L ++ take (Z.to_nat r) (drop (Z.to_nat p) L)) ++ drop (Z.to_nat (p + r)) data)).
Proof using Type.
  intros Hl Hp Hr Hpr. unfold mem_write. rewrite length_app, !length_take, !length_drop, Hl.
  rewrite (proj2 (Nat.leb_le _ _)), (proj2 (Nat.leb_le _ _)) by lia. cbn [andb check rbind]. do 2 f_equal.
  rewrite take_app_length' by (rewrite length_take; lia). rewrite take_take, Nat.min_id, <- app_assoc. do 2 f_equal.
  rewrite drop_app_ge by (rewrite length_take; lia). rewrite drop_drop. f_equal. rewrite length_take. lia.
Qed.

Lemma part_access p r buf y E : op ≠ Core.INVALID_MEM_OP → done_up_to p buf y → 0 ≤ p → 0 < r → p + r ≤ n →
  (addr + p) `mod` 2 ^ k + r ≤ 2 ^ k →
  ∃ part, slice buf (Z.to_nat p) (Z.to_nat r) = Ok part ∧
  wps E (coreInitiateMemoryAccess q (mk_request component lock op (addr + p - (addr + p) `mod` 2 ^ k) ((addr + p) `mod` 2 ^ k) part r model)) y
    (λ x y', ∃ w read buf', snd x = Some (w, read) ∧ w = HitWhere.L1_OWN ∧
       fill buf (Z.to_nat p) (Z.to_nat r) read = Ok buf' ∧ done_up_to (p + r) buf' y').
Proof using Hk.
  intros Hop (-> & Hy & Hclock) Hp Hr Hpr Hfit. pose proof served_length as Hl. set (L := served op m addr data) in *.
  assert (length (take (Z.to_nat p) L) = Z.to_nat p) as Ht by (rewrite length_take; lia).
  assert (take (Z.to_nat r) (drop (Z.to_nat p) (take (Z.to_nat p) L ++ drop (Z.to_nat p) data)) = take (Z.to_nat r) (drop (Z.to_nat p) data)) as Es.
  { by rewrite drop_app_length'. }
  eexists. split.
  { unfold slice, mem_read. rewrite (proj2 (Nat.leb_le _ _)); [cbn; by rewrite Es|]. rewrite length_app, Ht, length_drop. lia. }
  assert (∀ l : bytes, take (Z.to_nat (p + r)) l = take (Z.to_nat p) l ++ take (Z.to_nat r) (drop (Z.to_nat p) l)) as Etake.
  { intros l. rewrite Z2Nat.inj_add by lia. by rewrite take_take_drop. }
  apply request_fits; try done. apply wps_bind, wps_gets. unfold done_up_to.
  assert (op = Core.WRITE ∨ L = load_application m addr (length data) ∧ (∀ x, cells y x = m x) ∧ written op m addr = (λ _, m) ∧ op ≠ Core.WRITE) as [->|(EL & Em & Ew & Hnw)].
  { unfold L. destruct op; [done|right|right|by left]; (split; [done|]; split; [|done]; intros x; by rewrite Hy). }
  - apply wps_bind, wps_modify, wps_ret. eexists _, None, _. split; [done|]. split; [done|]. split; [done|].
    split; [unfold L; cbn [served]; by rewrite !take_drop|]. split; [|done]. intros a. cbn [cells written]. rewrite take_take, Nat.min_id, Etake.
    rewrite (store_ext _ _ _ _ a Hy). cbn [written].
    replace (addr + p) with (addr + Z.of_nat (length (take (Z.to_nat p) data))) by (rewrite length_take; lia). apply store_app.
  - assert (load_application (cells y) (addr + p) (Z.to_nat r) = take (Z.to_nat r) (drop (Z.to_nat p) L)) as Er.
    { rewrite (load_ext _ m) by done. rewrite EL, load_part by lia. f_equal. lia. }
    assert (∀ a, cells y a = written op m addr (take (Z.to_nat (p + r)) data) a) as Hy' by (intros a; by rewrite Ew).
    destruct op; try done; (apply wps_ret; eexists _, _, _; split; [done|]; split; [done|]; cbn [fmap option_fmap option_map fill];
      rewrite Er, fill_part by lia; split; [done|]; split; [by rewrite Etake|exact (conj Hy' Hclock)]).
Qed.
End parts.

Lemma wps_finish_access E x s (Q : unit → CoreAccess.t t → Prop) :
  ShmemPerfModel.m_elapsed_user (clocks (memory s) q) = initial_time x → hit_where x ≠ HitWhere.UNKNOWN →
  (∀ s', cells (memory s') = cells (memory s) → m_results (cores s' q) = m_results (cores s q) ++ [mk_result (hit_where x) 0 (data_buf x)] →
     m_mem_lock (cores s' q) = bool_decide (lock_signal x = Core.LOCK) && m_mem_lock (cores s q) →
     m_access (cores s' q) = m_access (cores s q) → Q tt s') →
  wps E (finish_access q x) s Q.
Proof using Type.
  intros Ht Hw HQ. unfold finish_access. apply wps_bind, wps_gets. cbn. rewrite Ht.
  apply wps_bind, wps_assert; [|by rewrite Z.leb_refl]. intros _.
  replace (SubsecondTime.sub (initial_time x) (initial_time x)) with 0 by (unfold SubsecondTime.sub; by rewrite Z.sub_diag).
  assert (where_code (hit_where x) <? 24 = true) as Hc by (destruct (hit_where x); done).
  (* the lock *)
  set (c := mk_core (m_icache_last_block (cores s q)) (bool_decide (lock_signal x = Core.LOCK) && m_mem_lock (cores s q))
              (m_performance_enabled (cores s q)) (m_access (cores s q)) (m_results (cores s q))).
  apply wps_bind. apply wps_mono with (Q := λ _ s', memory s' = memory s ∧ cores s' q = c).
  { apply wps_when; intros El.
    - apply negb_true_iff in El. unfold c. rewrite El. apply wps_bind, wps_gets. apply wps_modify. split; [done|]. cbn. by rewrite fn_lookup_insert.
    - apply negb_false_iff in El. unfold c. rewrite El. split; [done|]. by destruct (cores s q). }
  intros _ s1 [Em1 Ec1]. apply wps_bind, wps_gets.
  (* the performance model *)
  apply wps_bind. apply wps_mono with (Q := λ _ s', memory s' = memory s ∧ cores s' q = c).
  { destruct (modeled x); cbn [when]; repeat (wstep || case_match); try done; by apply wps_modify. }
  intros _ s2 [Em2 Ec2]. apply wps_bind. apply wps_mono with (Q := λ _ s', cells (memory s') = cells (memory s) ∧ cores s' q = c).
  { apply wps_when; intros _; [|by rewrite Em2]. unfold wps, upd_clock, in_memory, modify. cbn. by rewrite Em2. }
  intros _ s3 [Em3 Ec3]. apply wps_bind, wps_assert; [|by rewrite bool_decide_false].
  intros _. unfold makeMemoryResult. apply wps_bind, wps_assert; [|by cbn; rewrite Hc].
  intros _. apply wps_bind, wps_gets. apply wps_modify. apply HQ; cbn; rewrite ?fn_lookup_insert, ?Ec3; done.
Qed.

(** [C19] (functional) A core's accesses read and write ranges of bytes: for every alignment and
    every size from 1 to 2^32 - 1 of an access that ends more than a line below 2^64
    ([top_of_memory] is about others), the loop of [initiateMemoryAccess] over cache lines asks
    a memory only for parts of single lines, and ends having read exactly the bytes from the
    address on into the buffer, or written exactly those of the buffer, without any other
    change. The core's lock, free before or taken by the access that now unlocks, is held
    afterwards if the access locks, and one result is returned. *)
Theorem core_access_flat (fuel : nat) (now elapsed : Z) s :
  op ≠ Core.INVALID_MEM_OP → 0 ≤ addr → 0 < n < 2 ^ 32 → addr + n + 2 ^ k < 2 ^ 64 → n / 2 ^ k + 2 < Z.of_nat fuel →
  (lock ≠ Core.UNLOCK → m_mem_lock (cores s q) = false) →
  ∃ s', initiateMemoryAccess fuel q component lock op addr (Some data) n model now elapsed s = Ok (tt, s') ∧
    (∀ a, cells (memory s') a = written op (cells (memory s)) addr data a) ∧
    m_results (cores s' q) = m_results (cores s q) ++
      [mk_result HitWhere.L1_OWN 0 (Some (served op (cells (memory s)) addr data))] ∧
    m_mem_lock (cores s' q) = bool_decide (lock = Core.LOCK) ∧ m_access (cores s' q) = m_access (cores s q).
Proof using Hk.
  intros Hop Ha Hn Hend Hf Hl. apply wps_never_unit.
  pose proof (Z.pow_pos_nonneg 2 k ltac:(lia) ltac:(lia)) as H2. pose proof (Z.pow_lt_mono_r 2 k 32 ltac:(lia) ltac:(lia) ltac:(lia)) as H32.
  assert (cache_block q = 2 ^ k) as HB by (unfold cache_block; cbn; rewrite u32_small by (unfold in_u32; lia); done).
  unfold initiateMemoryAccess. rewrite (proj2 (Z.leb_gt _ _)) by lia. cbv zeta. set (t0 := if now =? SubsecondTime.MaxTime then elapsed else now).
  apply wps_bind. apply wps_mono with (Q := λ _ s1, memory s1 = memory s ∧ m_results (cores s1 q) = m_results (cores s q) ∧
    m_access (cores s1 q) = m_access (cores s q) ∧ (lock ≠ Core.UNLOCK → m_mem_lock (cores s1 q) = true)).
  { apply wps_when; intros El; [|by apply negb_false_iff, bool_decide_eq_true in El].
    apply negb_true_iff, bool_decide_eq_false in El. unfold acquire_mem_lock. apply wps_bind, wps_gets, wps_bind.
    apply wps_lift_ok with (a := tt); [by rewrite (Hl El)|]. apply wps_bind, wps_gets, wps_modify. cbn. by rewrite fn_lookup_insert. }
  intros _ s1 (Em & Er & Ea & Elock). apply wps_bind. unfold wps at 1, upd_clock, in_memory, modify. cbn [rbind]. cbn beta iota.
  set (s2 := CoreAccess.mk _ _ _ _ _).
  assert (begin_addr_aligned q (mk_access component lock op addr (Some data) n model t0 0 0 0 HitWhere.UNKNOWN) = 2 ^ k * (addr `div` 2 ^ k)) as Eb.
  { unfold begin_addr_aligned. cbn [address]. rewrite HB. pose proof (Z.div_mod addr (2 ^ k)). lia. }
  rewrite Eb. pose proof (Z.div_mod addr (2 ^ k) ltac:(lia)) as Ed. pose proof (Z.mod_pos_bound addr (2 ^ k) ltac:(lia)) as Rd.
  assert (before (2 ^ k) addr n (addr `div` 2 ^ k) = 0) as E0 by (unfold before; lia).
  pose proof (wps_access_lines q (2 ^ k) addr n HB (conj H2 H32) Ha Hn Hend component lock op model t0 never
    (done_up_to (cells (memory s)) t0) (λ w, w = HitWhere.L1_OWN) ltac:(done)) as Hrule.
  assert (addr `div` 2 ^ k ≤ (addr + n) `div` 2 ^ k) as Hd by (apply Z.div_le_mono; lia).
  assert ((addr + n) `div` 2 ^ k ≤ addr `div` 2 ^ k + n / 2 ^ k + 1) as Hd'.
  { apply Z.lt_succ_r. apply Z.div_lt_upper_bound; [lia|]. pose proof (Z.div_mod n (2 ^ k)). pose proof (Z.mod_pos_bound n (2 ^ k)). nia. }
  specialize (Hrule (λ p r buf y, part_access (cells (memory s)) t0 p r buf y never Hop)
    (Z.to_nat ((addr + n) `div` 2 ^ k + 1 - addr `div` 2 ^ k)) fuel (addr `div` 2 ^ k) (Some data) 0 HitWhere.UNKNOWN s2).
  rewrite E0 in Hrule. apply Hrule; clear Hrule.
  - left. split; lia.
  - lia.
  - unfold last_line. lia.
  - split; [done|]. unfold s2. cbn [CoreAccess.memory]. rewrite Em. split.
    + intros a. cbn. unfold written, store_application. destruct op; try done.
      change (take (Z.to_nat 0) data) with (@nil Z). cbn [length]. rewrite Z.add_0_r.
      destruct (Z.leb_spec addr a), (Z.ltb_spec a addr); done || lia.
    + cbn. by rewrite fn_lookup_insert.
  - by left.
  - intros buf misses w y l (-> & Hy & Hclock) ->. rewrite Nat2Z.id, drop_all, app_nil_r in *.
    rewrite firstn_all in Hy. rewrite take_ge by (rewrite served_length; lia).
    apply wps_finish_access; [done|done|]. intros s' Ec' Er' El' Ea'. rewrite Ec', Er', El', Ea'. cbn [cores memory s2 mid hit_where data_buf lock_signal].
    split_and!; [done|by rewrite Er| |done]. repeat case_bool_decide; try done. rewrite Elock; [done|by intros E; congruence].
Qed.
End flat.

(** ** The top of the address space *)

Section top.
Import FlatMemory.
Context (k : Z) (Hk : 0 ≤ k < 32).
#[local] Instance flat_top : MemorySystem t := system k.
Context (q : nat) (component : MemComponent.component_t) (lock : Core.lock_signal_t) (op : Core.mem_op_t) (model : MemModeled).
Context (addr n : Z) (Ha : in_u64 addr) (Hn : 0 < n < 2 ^ 32).
Abbreviation B := (2 ^ k).
Implicit Types (s : CoreAccess.t t).

Lemma block_range : 0 < B < 2 ^ 32 ∧ cache_block (S := t) q = B.
Proof using Hk.
  pose proof (Z.pow_pos_nonneg 2 k ltac:(lia) ltac:(lia)). pose proof (Z.pow_lt_mono_r 2 k 32 ltac:(lia) ltac:(lia) ltac:(lia)).
  split; [lia|]. unfold cache_block. cbn. apply u32_small. unfold in_u32. lia.
Qed.

(** A part never leaves its line. *)
Lemma piece_fits x o sz : address x = addr → data_size x = n → addr + n < 2 ^ 64 → piece q x = Some (o, sz) → 0 ≤ o ∧ 0 ≤ sz ∧ o + sz ≤ B.
Proof using Hk Ha Hn.
  intros Ea En Hs. destruct block_range as [HB Eb]. unfold piece, end_addr_aligned, begin_addr_aligned, end_addr.
  rewrite Ea, En, Eb, (u64_small (addr + n)) by (ranges; lia). pose proof (Z.mod_pos_bound addr B ltac:(lia)). pose proof (Z.mod_pos_bound (addr + n) B ltac:(lia)).
  pose proof (Z.div_mod addr B ltac:(lia)). pose proof (Z.div_mod (addr + n) B ltac:(lia)).
  rewrite (u32_small (addr `mod` B)) by (unfold in_u32; lia).
  destruct (Z.eqb_spec (curr_addr_aligned x) (addr - addr `mod` B)) as [E1|E1], (Z.eqb_spec (curr_addr_aligned x) (addr + n - (addr + n) `mod` B)) as [E2|E2].
  all: rewrite u32_small by (unfold in_u32; lia); try (case_match; [done|]); intros [= <- <-]; lia.
Qed.

(** The lines in front of the last one of the address space are all in the loop. *)
Lemma lines_for_ever fuel : 2 ^ 64 - B ≤ addr + n < 2 ^ 64 → op ≠ Core.INVALID_MEM_OP → ∀ x s,
  address x = addr → data_size x = n → data_buf x = None → mem_op_type x = op →
  (∃ j, curr_addr_aligned x = B * j) → in_u64 (curr_addr_aligned x) →
  access_lines fuel q x s = Err NoFuel.
Proof using Hk Ha Hn.
  intros He Hop. destruct block_range as [HB Eb]. induction fuel as [|fuel IH]; intros x s Ex En Ed Eo [j Hj] Hc; [done|]. cbn [access_lines].
  assert (∃ i, 2 ^ 64 = B * i) as [i Hi] by (exists (2 ^ (64 - k)); rewrite <- Z.pow_add_r by lia; f_equal; lia).
  assert (end_addr_aligned q x = 2 ^ 64 - B) as Eend.
  { unfold end_addr_aligned, end_addr. rewrite Ex, En, Eb, u64_small by (ranges; lia).
    rewrite <- (Z.mod_unique (addr + n) B (i - 1) (addr + n - B * (i - 1))) by lia. lia. }
  assert (j ≤ i - 1) as Hji by (enough (j < i) by lia; unfold in_u64 in Hc; apply (Z.mul_lt_mono_pos_l B); lia).
  rewrite Eend, (proj2 (Z.leb_le _ _)) by (rewrite Hj, Hi; apply (Z.mul_le_mono_nonneg_l _ _ B) in Hji; lia).
  assert (∀ x', address x' = addr → data_size x' = n → data_buf x' = None → mem_op_type x' = op → curr_addr_aligned x' = curr_addr_aligned x →
    ∀ s', access_lines fuel q (next_line q x') s' = Err NoFuel) as Hnext.
  { intros x' H1 H2 H3 H4 H5 s'. apply IH; try done; cbn [next_line curr_addr_aligned]; rewrite Eb, H5; [|apply u64_range].
    unfold u64. exists ((j + 1) `mod` i). rewrite Hj, Hi. replace (B * j + B) with (B * (j + 1)) by lia. rewrite <- Zmult_mod_distr_l. done. }
  destruct (piece q x) as [[o sz]|] eqn:Ep; [|by apply Hnext].
  destruct (piece_fits x o sz Ex En ltac:(lia) Ep) as (Ho & Hsz & Hfit).
  unfold request_of. rewrite Ed. cbn [slice rbind]. unfold mbind, M_bind, lift, in_memory. cbn [coreInitiateMemoryAccess flat_top system].
  unfold access. cbn [q_address q_offset q_data_length q_mem_op_type q_data_buf]. rewrite Hj, Eo.
  assert (Z.land (B * j) (B - 1) = 0) as El.
  { rewrite Z.sub_1_r, <- Z.ones_equiv, Z.land_ones by lia. rewrite Z.mul_comm. apply Z.mod_mul. lia. }
  unfold mbind, M_bind, assert_, lift, check. rewrite El, (proj2 (Z.leb_le _ _)) by lia. cbn.
  unfold take_answer. rewrite Ed. destruct op; try done; cbn; by apply Hnext.
Qed.

Lemma finish_unknown x s : ShmemPerfModel.m_elapsed_user (clocks (memory s) q) = initial_time x → hit_where x = HitWhere.UNKNOWN →
  finish_access q x s = Err AssertFail.
Proof using Type.
  intros Ht Hw. unfold finish_access, mbind, M_bind. cbn. unfold assert_, lift, check, mbind, M_bind.
  rewrite Ht, Z.leb_refl, Hw. cbn. unfold when, mbind, M_bind. repeat (case_match; cbn in *; try done).
Qed.

(** (error) At the top of the address space the loop over lines fails: an access that
    reaches into the last line goes on for ever, as the address of the line after the last one
    is 0 again, and one that passes the end of the address space accesses no line at all and
    stops at the last assertion. *)
Theorem top_of_memory fuel (now elapsed : Z) s :
  op ≠ Core.INVALID_MEM_OP → (lock ≠ Core.UNLOCK → m_mem_lock (cores s q) = false) →
  (2 ^ 64 - B ≤ addr + n < 2 ^ 64 → initiateMemoryAccess fuel q component lock op addr None n model now elapsed s = Err NoFuel) ∧
  (2 ^ 64 ≤ addr + n → (0 < fuel)%nat →
   initiateMemoryAccess fuel q component lock op addr None n model now elapsed s = Err AssertFail).
Proof using Hk Ha Hn.
  intros Hop Hl. destruct block_range as [HB Eb]. unfold initiateMemoryAccess. rewrite (proj2 (Z.leb_gt _ _)) by lia. cbv zeta.
  set (t0 := if now =? SubsecondTime.MaxTime then elapsed else now).
  unfold mbind, M_bind.
  destruct (when (negb (bool_decide (lock = Core.UNLOCK))) (acquire_mem_lock q) s) as [[[] s1]|e] eqn:E1.
  2:{ unfold when, acquire_mem_lock, mbind, M_bind, get_core, gets, lift in E1. destruct (bool_decide_reflect (lock = Core.UNLOCK)) as [|Hne]; [done|].
      cbn in E1. by rewrite (Hl Hne) in E1. }
  unfold upd_clock, in_memory, modify. cbn [rbind]. set (s2 := CoreAccess.mk _ _ _ _ _).
  assert (begin_addr_aligned q (mk_access component lock op addr None n model t0 0 0 0 HitWhere.UNKNOWN) = addr - addr `mod` B) as ->.
  { unfold begin_addr_aligned. cbn [address]. by rewrite Eb. }
  pose proof (Z.div_mod addr B ltac:(lia)). pose proof (Z.mod_pos_bound addr B ltac:(lia)). split.
  - intros He. apply lines_for_ever; try done; cbn [curr_addr_aligned]; [exists (addr `div` B); lia|ranges; nia].
  - intros He Hf. destruct fuel as [|fuel]; [lia|]. cbn [access_lines curr_addr_aligned].
    rewrite (proj2 (Z.leb_gt _ _)); [apply finish_unknown; [|done]; unfold s2; cbn; by rewrite fn_lookup_insert|].
    unfold end_addr_aligned, end_addr. cbn [address data_size]. rewrite Eb.
    assert (u64 (addr + n) = addr + n - 2 ^ 64) as -> by (unfold u64; symmetry; apply (Z.mod_unique _ _ 1); ranges; lia).
    pose proof (Z.mod_pos_bound (addr + n - 2 ^ 64) B ltac:(lia)). pose proof (Z.pow_le_mono_r 2 k 31 ltac:(lia) ltac:(lia)). ranges. lia.
Qed.
End top.

(** ** An example: ten bytes that lie in two lines of 64 bytes *)
Module AccessExample.
#[local] Instance lines_of_64 : MemorySystem FlatMemory.t := FlatMemory.system 6.
Definition start : t FlatMemory.t :=
  mk (FlatMemory.mk (λ a, a `mod` 256) (λ _, ShmemPerfModel.new)) (λ _, new_core) [] (λ _, 0) false.

Lemma core_access_flat_witness :
  ∃ s', initiateMemoryAccess 10 0 MemComponent.L1_DCACHE Core.LOCK Core.READ_EX 60 (Some (replicate 10 0)) 10
          MEM_MODELED_TIME 5 0 start = Ok (tt, s') ∧
    m_results (cores s' 0%nat) = [mk_result HitWhere.L1_OWN 0 (Some [60; 61; 62; 63; 64; 65; 66; 67; 68; 69])] ∧
    m_mem_lock (cores s' 0%nat) = true.
Proof.
  destruct (core_access_flat 6 ltac:(lia) 0 MemComponent.L1_DCACHE Core.LOCK Core.READ_EX MEM_MODELED_TIME 60 (replicate 10 0)
    10 5 0 start) as (s' & E & _ & Er & El & _); [done|done|done|done|done|done|].
  exists s'. split; [exact E|]. split; [exact Er|exact El].
Defined.

Lemma top_of_memory_witness :
  initiateMemoryAccess 1000 0 MemComponent.L1_DCACHE Core.NONE Core.READ (2 ^ 64 - 16) None 8 MEM_MODELED_TIME 5 0 start = Err NoFuel.
Proof.
  apply (top_of_memory 6 ltac:(lia) 0 MemComponent.L1_DCACHE Core.NONE Core.READ MEM_MODELED_TIME (2 ^ 64 - 16) 8 ltac:(done) ltac:(done)); done.
Defined.
End AccessExample.
