(* ===== verification/CoreSystem.v ===== *)
(** Cores on the hierarchy of caches: [MemoryManager::coreInitiateMemoryAccess] and
    [accessTLB] of [parametric_dram_directory_msi/memory_manager.cc] make the memory managers
    of [MemoryManager] an instance of the interface of [CoreAccess].

    The steps of the whole - calls of [Core], replies of the directory, ends of epochs - are
    then steps of the hierarchy, for which [Multilevel] and [Persistence] show what holds. *)
From stdpp Require Import functions.
From S2P Require Import Prelude Utils Timing BlockInfo AddressMap Replacement CacheModel ShmemMsg DirCntlr Memory Epoch UndoBuffer.
From S2P Require Import Log StateResult TlbAtd CacheCntlr MemoryManager Hierarchy Inclusion Accesses Multilevel Persistence CoreAccess.
Import MemoryManager.

Section system.
Context {P : Type} `{HP : Policy P} {F : Type} `{HF : Prefetcher F} {D : Type} `{HD : DramCntlrInterface D}.
Context (cfg : CacheCntlr.config) (mm_of : nat → MemoryManager.mm).

(** The caches and TLBs of all cores. *)
Record system := mk_system { hier : CacheCntlr.t P F D; tlbs : nat → TLB.store }.
Abbreviation MM := (M system).
Implicit Types (q : nat) (z : system).

Definition in_hier {A} (m : M (CacheCntlr.t P F D) A) : MM A := λ z, let! (a, s) := m (hier z) in Ok (a, mk_system s (tlbs z)).

(** [MemoryManager::incrElapsedTime] for the user thread of a core. *)
Definition incr_user_time q (latency : Z) : MM unit :=
  in_hier (k ← gets (λ s, CacheCntlr.clocks s (Z.of_nat q));
           k ← lift (ShmemPerfModel.incrElapsedTime k latency ShmemPerfModel.USER_THREAD);
           modify (λ s, CacheCntlr.set_clocks (<[Z.of_nat q := k]> (CacheCntlr.clocks s)) s)).

(** [MEM_MODELED_NONE] and [MEM_MODELED_COUNT] take no time. *)
Definition untimed (modeled : MemModeled) : bool :=
  bool_decide (modeled = MEM_MODELED_NONE) || bool_decide (modeled = MEM_MODELED_COUNT).

Definition accessTLB q (tlb : nat) (address : Z) (isIfetch : bool) (modeled : MemModeled) : MM (list event) :=
  l ← gets (λ z, tlbs z q);
  '(hit, l) ← lift (TLB.lookup (length l) tlb address true l);
  modify (λ z, mk_system (hier z) (<[q := l]> (tlbs z)));;
  let latency := ComponentLatency.getLatency (m_tlb_miss_penalty (mm_of q)) in
  if negb hit && negb (untimed modeled) && negb (latency =? SubsecondTime.Zero) then
    if m_tlb_miss_parallel (mm_of q) then incr_user_time q latency;; mret []
    else mret [TLBMissInstruction latency isIfetch]
  else mret [].

(** The answer to the last access of a core, when it does not wait. *)
Definition last_answer q (s : CacheCntlr.t P F D) : option answer :=
  match CacheCntlr.waiting s (Z.of_nat q) with
  | Some _ => None
  | None => snd <$> last (List.filter (λ r, fst r =? Z.of_nat q) (CacheCntlr.returned s))
  end.

(** The controller of a component: [m_cache_cntlrs[mem_component]]. *)
Definition cntlr_at q (mem_component : MemComponent.component_t) : result nat :=
  let j := MemComponent.code mem_component - MemComponent.code MemComponent.L1_ICACHE in
  let! _ := check (j <=? Z.of_nat (m_last_level_cache (mm_of q))) AssertFail in
  let! _ := check (0 <=? j) NullPointer in
  Ok (m_first_cntlr (mm_of q) + Z.to_nat j)%nat.

Definition mem_op_of (r : request) : CacheCntlr.mem_op :=
  CacheCntlr.mk_op (q_lock_signal r) (q_mem_op_type r) (q_address r) (Z.to_nat (q_offset r)) (q_data_buf r)
    (Z.to_nat (q_data_length r)) (negb (untimed (q_modeled r))) (negb (bool_decide (q_modeled r = MEM_MODELED_NONE))).

Definition coreInitiateMemoryAccess q (r : request) : MM (list event * option answer) :=
  c ← lift (cntlr_at q (q_mem_component r));
  l ←
    (match q_mem_component r, m_itlb (mm_of q), m_dtlb (mm_of q) with
     | MemComponent.L1_ICACHE, Some tlb, _ => accessTLB q tlb (q_address r) true (q_modeled r)
     | MemComponent.L1_DCACHE, _, Some tlb => accessTLB q tlb (q_address r) false (q_modeled r)
     | _, _, _ => mret []
     end);
  in_hier (CacheCntlr.processMemOpFromCore cfg c (mem_op_of r));;
  w ← gets (λ z, CacheCntlr.waiting (hier z) (Z.of_nat q));
  a ← gets (λ z, last_answer q (hier z));
  match w, a with
  | Some _, _ => mret (l, None)
  | None, Some a => mret (l, Some a)
  | None, None => fail AssertFail
  end.

#[export] Instance memory_managers : MemorySystem system := {|
  CoreAccess.getCacheBlockSize q := m_cache_block_size (mm_of q);
  CoreAccess.getL1HitLatency q :=
    CacheCntlr.CachePerfModel.getLatency (CacheCntlr.m_perf_model (CacheCntlr.cntlr_conf cfg (m_first_cntlr (mm_of q))))
      CacheCntlr.CachePerfModel.ACCESS_CACHE_DATA_AND_TAGS;
  CoreAccess.coreInitiateMemoryAccess := coreInitiateMemoryAccess;
  CoreAccess.awaited q z := last_answer q (hier z);
  CoreAccess.clock q z := CacheCntlr.clocks (hier z) (Z.of_nat q);
  CoreAccess.set_clock q k z :=
    mk_system (CacheCntlr.set_clocks (<[Z.of_nat q := k]> (CacheCntlr.clocks (hier z))) (hier z)) (tlbs z);
|}.
End system.

(** ** Steps of the whole *)

Create HintDb refines.

Section refinement.
Context {P : Type} `{HP : Policy P} {F : Type} `{HF : Prefetcher F} {D : Type} `{HD : DramCntlrInterface D}.
Context (cfg : CacheCntlr.config) (mm_of : nat → MemoryManager.mm) (k : Z) (total : nat).
#[local] Instance managers : MemorySystem (CoreSystem.system (P := P) (F := F) (D := D)) := memory_managers cfg mm_of.
Abbreviation system := (CoreSystem.system (P := P) (F := F) (D := D)).
Abbreviation state := (t system).
Implicit Types (q : nat) (s : state).

Definition caches_of s : CacheCntlr.t P F D := hier (memory s).
Definition put_caches (y : CacheCntlr.t P F D) s : state :=
  mk (mk_system y (tlbs (memory s))) (cores s) (events s) (application s) (m_global_core_lock s).

(** The calls of a core: any instruction fetch and any data access, also fast ones. *)
Inductive call q : M state unit → Prop :=
  | call_fetch fuel addr size elapsed : call q (readInstructionMemory fuel q (u64 addr) size elapsed)
  | call_access mode fuel lock op addr buf size model now fault elapsed :
      call q (accessMemory mode fuel q lock op (u64 addr) buf size model now fault elapsed)
  | call_fast icache op addr elapsed : call q (accessMemoryFast q icache op (u64 addr) elapsed).

(** A core calls when it does not wait, and goes on when its answer is there; the directory
    sends messages; epochs end. *)
Inductive core_step s : state → Prop :=
  | core_call q m s' : (q < total)%nat → call q m → CacheCntlr.waiting (caches_of s) (Z.of_nat q) = None →
      m_access (cores s q) = None → m s = Ok (tt, s') → core_step s s'
  | core_continue fuel q s' : (q < total)%nat → continue_access fuel q s = Ok (tt, s') → core_step s s'
  | core_message fuel c sender msg y : next_of cfg c = None → msg_ok k msg →
      CacheCntlr.handleMsgFromDramDirectory cfg fuel c sender msg (caches_of s) = Ok (tt, y) → core_step s (put_caches y s)
  | core_epoch us g : sys (CacheCntlr.shared (caches_of s)) < 2 ^ 64 - 1 →
      run_hooks HOOK_PERIODIC_INS (CacheCntlr.undo_cntlrs (caches_of s)) (CacheCntlr.shared (caches_of s)) = Ok (us, g) →
      core_step s (put_caches (CacheCntlr.set_undo us g (caches_of s)) s).

(** The first-level caches of a core are leaves, and theirs. *)
Context (Hleaf : ∀ q c, (q < total)%nat → (c < 2)%nat →
  prevs cfg (cache_of cfg (m_first_cntlr (mm_of q) + c)) = [] ∧
  CacheCntlr.m_core_id (CacheCntlr.cntlr_conf cfg (m_first_cntlr (mm_of q) + c)) = Z.of_nat q).

Definition first_level (c : MemComponent.component_t) : Prop := c = MemComponent.L1_ICACHE ∨ c = MemComponent.L1_DCACHE.
Definition suspended_ok (x : option suspended) : Prop :=
  match x with Some (InAccess x) => first_level (mem_component x) | _ => True end.
Definition idle q s : Prop := CacheCntlr.waiting (caches_of s) (Z.of_nat q) = None.

(** What happens on the way from one state to another. *)
Record follows s s' : Prop := {
  fo_steps : star (Multilevel.step cfg k) (caches_of s) (caches_of s');
  fo_suspended q : suspended_ok (m_access (cores s q)) → suspended_ok (m_access (cores s' q));
}.

Lemma star_trans {A} (R : A → A → Prop) a b c : star R a b → star R b c → star R a c.
Proof. intros H1 H2. induction H2; eauto with picl. Qed.

#[global] Instance follows_refl : Reflexive follows.
Proof. split; [constructor|done]. Qed.
#[global] Instance follows_trans : Transitive follows.
Proof. intros a b c [H1 H2] [H3 H4]. split; [by eapply star_trans|eauto]. Qed.

(** A computation that keeps to the hierarchy's steps, from a state where a core is idle. *)
Definition refines {A} q (m : M state A) : Prop := ∀ s, idle q s → wps anything m s (λ _ s', follows s s').
Definition refines_idle {A} q (m : M state A) : Prop := ∀ s, idle q s → wps anything m s (λ _ s', follows s s' ∧ idle q s').

Lemma refines_bind {A B} q (m : M state A) (f : A → M state B) :
  refines_idle q m → (∀ a, refines q (f a)) → refines q (m ≫= f).
Proof.
  intros Hm Hf s Hs. apply wps_bind. eapply wps_mono; [by apply Hm|]. cbn. intros a s1 [H1 Hi].
  eapply wps_mono; [by apply Hf|]. cbn. intros _ s2 H2. by etrans.
Qed.
Lemma refines_idle_bind {A B} q (m : M state A) (f : A → M state B) :
  refines_idle q m → (∀ a, refines_idle q (f a)) → refines_idle q (m ≫= f).
Proof.
  intros Hm Hf s Hs. apply wps_bind. eapply wps_mono; [by apply Hm|]. cbn. intros a s1 [H1 Hi].
  eapply wps_mono; [by apply Hf|]. cbn. intros _ s2 [H2 ?]. split; [by etrans|done].
Qed.
Lemma refines_weaken {A} q (m : M state A) : refines_idle q m → refines q m.
Proof. intros Hm s Hs. eapply wps_mono; [by apply Hm|]. by intros _ s' [? _]. Qed.
Lemma refines_idle_pure {A} q (m : M state A) : (∀ s, wps anything m s (λ _ s', memory s' = memory s ∧ cores s' = cores s)) → refines_idle q m.
Proof.
  intros Hm s Hs. eapply wps_mono; [apply Hm|]. cbn. intros _ s' [E1 E2]. unfold idle, caches_of in *. rewrite E1.
  split; [|done]. split; [unfold caches_of; rewrite E1; constructor|by rewrite E2].
Qed.
Lemma refines_idle_ret {A} q (a : A) : refines_idle q (mret a). Proof. by apply refines_idle_pure. Qed.
Lemma refines_idle_gets {A} q (f : state → A) : refines_idle q (gets f). Proof. by apply refines_idle_pure. Qed.
Lemma refines_idle_lift {A} q (r : result A) : refines_idle q (lift r).
Proof. apply refines_idle_pure. intros s. unfold wps, lift. by destruct r. Qed.
Lemma refines_idle_assert q b : refines_idle q (assert_ b). Proof. apply refines_idle_lift. Qed.
Lemma refines_idle_fail {A} q e : refines_idle (A := A) q (fail e). Proof. by intros s Hs. Qed.
Lemma refines_idle_tell q p l : refines_idle q (tell p l). Proof. by apply refines_idle_pure. Qed.
Lemma refines_idle_when q b m : refines_idle q m → refines_idle q (when b m).
Proof. destruct b; [done|intros _; apply refines_idle_ret]. Qed.
Lemma refines_idle_core q p (f : core → core) :
  (∀ c, suspended_ok (m_access c) → suspended_ok (m_access (f c))) → refines_idle q (c ← get_core p; put_core p (f c)).
Proof.
  intros Hf s Hs. split; [|done]. split; [constructor|]. intros r. cbn.
  destruct (decide (p = r)) as [->|]; [rewrite fn_lookup_insert; apply Hf|by rewrite fn_lookup_insert_ne].
Qed.
Lemma refines_idle_lock q p b : refines_idle q (set_lock p b). Proof. by apply refines_idle_core. Qed.
Lemma refines_idle_block q p b : refines_idle q (set_last_block p b). Proof. by apply refines_idle_core. Qed.
Lemma refines_idle_access q p x : suspended_ok x → refines_idle q (set_access p x). Proof. intros Hx. by apply refines_idle_core. Qed.
Lemma refines_idle_result q p r : refines_idle q (makeMemoryResult p r).
Proof. apply refines_idle_bind; [apply refines_idle_assert|]. intros _. by apply refines_idle_core. Qed.

(** Clocks may be set. *)
Lemma refines_idle_clock q p f : refines_idle q (upd_clock p f).
Proof. intros s Hs. split; [|done]. split; [|done]. by apply star_one, Multilevel.step_clock. Qed.

Lemma refines_idle_acquire q p : refines_idle q (acquire_mem_lock p).
Proof.
  apply refines_idle_bind; [apply refines_idle_gets|]. intros c. apply refines_idle_bind; [apply refines_idle_lift|].
  intros _. apply refines_idle_lock.
Qed.

Lemma refines_idle_get q p : refines_idle q (get_core p). Proof. apply refines_idle_gets. Qed.
Lemma refines_idle_time q p : refines_idle q (CoreAccess.getElapsedTime p). Proof. apply refines_idle_gets. Qed.

#[local] Hint Resolve refines_idle_get refines_idle_time refines_idle_ret refines_idle_gets refines_idle_lift refines_idle_assert refines_idle_tell refines_idle_when
  refines_idle_lock refines_idle_block refines_idle_result refines_idle_clock refines_idle_acquire : refines.
#[local] Hint Extern 1 (refines_idle _ (_ ≫= _)) => apply refines_idle_bind; [|intros ?] : refines.

#[local] Hint Extern 1 (refines_idle _ (modify _)) => by apply refines_idle_pure : refines.

Lemma refines_idle_finish q p x : refines_idle q (finish_access p x).
Proof. unfold finish_access. destruct (modeled x); auto 20 with refines. Qed.
Lemma refines_idle_finish_fast q p t0 : refines_idle q (finish_fast p t0).
Proof. unfold finish_fast. auto 20 with refines. Qed.

(** *** Accesses of the memory manager *)

Lemma wps_in_memory {A} E (m : M system A) s Q :
  wps E m (memory s) (λ a z, Q a (mk z (cores s) (events s) (application s) (m_global_core_lock s))) → wps E (in_memory m) s Q.
Proof. unfold wps, in_memory. by destruct (m (memory s)) as [[a z]|e]. Qed.
Lemma wps_in_hier {A} E (m : M (CacheCntlr.t P F D) A) (z : system) Q :
  wps E m (hier z) (λ a y, Q a (mk_system y (tlbs z))) → wps E (in_hier m) z Q.
Proof. unfold wps, in_hier. by destruct (m (hier z)) as [[a y]|e]. Qed.

(** A TLB may take time, and touches nothing else. *)
Lemma wps_accessTLB q tlb a ifetch modeled (z : system) :
  wps anything (accessTLB mm_of q tlb a ifetch modeled) z (λ _ z', ∃ clocks, hier z' = CacheCntlr.set_clocks clocks (hier z)).
Proof.
  assert (∀ y, ∃ clocks, hier (mk_system (hier z) y) = CacheCntlr.set_clocks clocks (hier z)) as Hz.
  { intros y. exists (CacheCntlr.clocks (hier z)). by destruct (hier z). }
  unfold accessTLB. apply wps_bind, wps_gets, wps_bind, wps_lift; [|done]. intros [hit l] _. apply wps_bind, wps_modify.
  case_match; [|apply wps_ret, Hz]. case_match; [|apply wps_ret, Hz]. apply wps_bind, wps_in_hier, wps_bind, wps_gets, wps_bind, wps_lift; [|done].
  intros kk _. apply wps_modify, wps_ret. by eexists.
Qed.

Lemma refines_memory_access q r s : (q < total)%nat → first_level (q_mem_component r) → in_u64 (q_address r) → idle q s →
  wps anything (in_memory (CoreAccess.coreInitiateMemoryAccess q r)) s (λ x s', follows s s' ∧ (snd x = None ∨ idle q s')).
Proof using Hleaf.
  intros Hq Hc Hu Hi. apply wps_in_memory. cbn [CoreAccess.coreInitiateMemoryAccess managers memory_managers].
  unfold coreInitiateMemoryAccess. apply wps_bind, wps_lift; [|done]. intros c Ec.
  assert (∃ i, (i < 2)%nat ∧ c = (m_first_cntlr (mm_of q) + i)%nat) as (i & Hi2 & ->).
  { unfold cntlr_at in Ec. inv_ok. destruct Hc as [-> | ->]; cbn; eexists; (split; [|reflexivity]); lia. }
  destruct (Hleaf q i Hq Hi2) as [Hpr Hid]. apply wps_bind.
  apply wps_mono with (Q := λ _ z', ∃ clocks, hier z' = CacheCntlr.set_clocks clocks (caches_of s)).
  { assert (∃ clocks, hier (memory s) = CacheCntlr.set_clocks clocks (caches_of s)) as Hz.
    { exists (CacheCntlr.clocks (caches_of s)). unfold caches_of. by destruct (hier (memory s)). }
    destruct Hc as [-> | ->]; repeat case_match; try (apply wps_ret, Hz); apply wps_accessTLB. }
  intros l z1 [clocks Ez]. apply wps_bind, wps_in_hier. rewrite Ez.
  unfold wps at 1. destruct (CacheCntlr.processMemOpFromCore cfg _ _ _) as [[[] y]|e] eqn:Ey; [|done].
  assert (follows s (mk (mk_system y (tlbs z1)) (cores s) (events s) (application s) (m_global_core_lock s))) as Hf.
  { split; [|done]. eapply star_step; [apply star_one, (Multilevel.step_clock cfg k (caches_of s) clocks)|].
    apply (Multilevel.step_access cfg k _ (m_first_cntlr (mm_of q) + i) (mem_op_of r)); [done|done| |done]. rewrite Hid. exact Hi. }
  apply wps_bind, wps_gets, wps_bind, wps_gets. cbn [hier]. destruct (CacheCntlr.waiting y (Z.of_nat q)) eqn:Ew.
  - apply wps_ret. split; [exact Hf|by left].
  - case_match; [|done]. apply wps_ret. split; [exact Hf|by right].
Qed.

Lemma first_level_take x n a x' : take_answer x n a = Ok x' → mem_component x' = mem_component x ∧ curr_addr_aligned x' = curr_addr_aligned x.
Proof. unfold take_answer. destruct a. intros E. by inv_ok. Qed.

Lemma refines_lines fuel q x : (q < total)%nat → first_level (mem_component x) → in_u64 (curr_addr_aligned x) → refines q (access_lines fuel q x).
Proof using Hleaf.
  intros Hq. revert x. induction fuel as [|fuel IH]; intros x Hc Hu; [by intros s Hs|]. cbn [access_lines].
  assert (∀ x', mem_component x' = mem_component x → refines q (access_lines fuel q (next_line q x'))) as Hnext.
  { intros x' E. apply IH; [by cbn; rewrite E|apply u64_range]. }
  case_match; [|apply refines_weaken, refines_idle_finish].
  destruct (piece q x) as [[o n]|]; [|by apply Hnext].
  intros s Hs. apply wps_bind, wps_lift; [|done]. intros r Er.
  assert (q_mem_component r = mem_component x ∧ q_address r = curr_addr_aligned x) as [Erc Era].
  { unfold request_of in Er. by inv_ok. }
  apply wps_bind. eapply wps_mono; [apply refines_memory_access; rewrite ?Erc, ?Era; done|]. cbn. intros [l a] s1 [H1 Ha].
  apply wps_bind, wps_modify. set (s2 := mk _ _ _ _ _). assert (follows s s2) as H2 by (split; apply H1).
  destruct a as [a|].
  - destruct Ha as [|Hi]; [done|]. apply wps_bind, wps_lift; [|done]. intros x' [Ex _]%first_level_take.
    eapply wps_mono; [by apply Hnext|]. cbn. intros _ s3 H3. by etrans.
  - cbn. apply wps_bind, wps_gets, wps_modify. etrans; [exact H2|]. split; [constructor|]. intros p. cbn.
    destruct (decide (q = p)) as [->|]; [by rewrite fn_lookup_insert|by rewrite fn_lookup_insert_ne].
Qed.

Lemma aligned_down a b : in_u64 a → 0 ≤ b → in_u64 (a - a `mod` b).
Proof using Type.
  unfold in_u64. intros Hu Hb. destruct (decide (b = 0)) as [->|]; [rewrite Z.mod_0_r; lia|].
  pose proof (Z.mod_pos_bound a b ltac:(lia)). pose proof (Z.mod_le a b ltac:(lia) ltac:(lia)). lia.
Qed.

Lemma refines_initiate fuel q c lock op addr buf size model now elapsed :
  (q < total)%nat → first_level c → in_u64 addr → refines q (initiateMemoryAccess fuel q c lock op addr buf size model now elapsed).
Proof using Hleaf.
  intros Hq Hc Ha. unfold initiateMemoryAccess. case_match; [apply refines_weaken, refines_idle_result|].
  apply refines_bind; [auto with refines|]. intros _. apply refines_bind; [auto with refines|]. intros _.
  apply refines_lines; [done|done|]. apply aligned_down; [done|]. apply u32_range.
Qed.

Lemma refines_idle_native q lock op a b n : refines_idle q (nativeMemOp lock op a b n).
Proof.
  unfold nativeMemOp. case_match; [auto with refines|]. apply refines_idle_bind; [auto 20 with refines|].
  intros _. apply refines_idle_bind; [auto with refines|]. intros m. apply refines_idle_bind; [destruct op; auto 20 with refines|].
  intros d. auto 20 with refines.
Qed.

Lemma line_of_range q a : in_u64 (line_of q (u64 a)).
Proof using Type.
  unfold line_of. pose proof (u64_range a) as Ha. pose proof (u64_range (Z.lnot (u64 (getCacheBlockSize q - 1)))) as Hb.
  set (b := u64 (Z.lnot _)) in *. set (c := u64 a) in *. unfold in_u64 in *. split; [apply Z.land_nonneg; lia|].
  pose proof (land_le_r c b). lia.
Qed.

Lemma refines_call q m : (q < total)%nat → call q m → refines q m.
Proof using Hleaf.
  intros Hq Hm. destruct Hm as [fuel addr size elapsed|mode fuel lock op addr buf size model now fault elapsed|icache op addr elapsed].
  - unfold readInstructionMemory. apply refines_bind; [apply refines_idle_get|]. intros c. case_match; [apply refines_weaken, refines_idle_result|].
    apply refines_bind; [apply refines_idle_block|]. intros _. apply refines_initiate; [done|by left|].
    case_match; apply line_of_range.
  - unfold accessMemory. apply refines_bind.
    + repeat case_match; auto 10 using refines_idle_native with refines.
    + intros b. case_match; [apply refines_weaken, refines_idle_result|]. apply refines_initiate; [done|by right|apply u64_range].
  - unfold accessMemoryFast. apply refines_bind; [apply refines_idle_clock|]. intros _. apply refines_bind; [apply refines_idle_lift|].
    intros al s Hs. apply wps_bind. eapply wps_mono; [apply refines_memory_access; [done|by destruct icache; [left|right]|apply u64_range|done]|].
    cbn. intros [l a] s1 [H1 Ha]. apply wps_bind, wps_modify. set (s2 := mk _ _ _ _ _). assert (follows s s2) as H2 by (split; apply H1).
    destruct a as [a|].
    + destruct Ha as [|Hi]; [done|]. eapply wps_mono; [by apply refines_idle_finish_fast|]. cbn. intros _ s3 [H3 _]. by etrans.
    + apply wps_bind, wps_gets, wps_modify. etrans; [exact H2|]. split; [constructor|]. intros p. cbn.
      destruct (decide (q = p)) as [->|]; [by rewrite fn_lookup_insert|by rewrite fn_lookup_insert_ne].
Qed.

Lemma refines_continue fuel q s s' : (q < total)%nat → suspended_ok (m_access (cores s q)) →
  continue_access fuel q s = Ok (tt, s') → follows s s'.
Proof using Hleaf.
  intros Hq Hok E. enough (wps anything (continue_access fuel q) s (λ _ s', follows s s')) as Hw by (unfold wps in Hw; by rewrite E in Hw).
  unfold continue_access. apply wps_bind, wps_gets, wps_bind, wps_gets.
  destruct (m_access (cores s q)) as [[x|t0]|]; [| |done].
  all: destruct (awaited q (memory s)) as [a|] eqn:Ea; [|done].
  all: assert (idle q s) as Hi by (cbn in Ea; unfold last_answer in Ea; unfold idle, caches_of; by destruct (CacheCntlr.waiting _ _)).
  - refine (refines_bind q _ _ _ _ s Hi); [by apply refines_idle_access|]. intros _. destruct (piece q x) as [[o n]|]; [|by intros s0 _].
    intros s0 Hs0. apply wps_bind, wps_lift; [|done]. intros x' [Ex _]%first_level_take.
    apply refines_lines; [done|by cbn; rewrite Ex|apply u64_range|done].
  - refine (refines_bind q _ _ _ _ s Hi); [by apply refines_idle_access|]. intros _. apply refines_weaken, refines_idle_finish_fast.
Qed.

Definition all_suspended_ok s : Prop := ∀ q, suspended_ok (m_access (cores s q)).

Lemma core_step_follows s s' : all_suspended_ok s → core_step s s' → follows s s'.
Proof using Hleaf.
  intros Hok Hstep. destruct Hstep as [q m s' Hq Hm Hi _ E|fuel q s' Hq E|fuel c sender msg y Hr Hm E|us g Hs E].
  - pose proof (refines_call q m Hq Hm s Hi) as Hw. unfold wps in Hw. by rewrite E in Hw.
  - by eapply refines_continue.
  - split; [|done]. apply star_one. by eapply Multilevel.step_message.
  - split; [|done]. apply star_one. by apply Multilevel.step_epoch.
Qed.

(** [C18] (refinement) Cores, with their memory managers and TLBs, only do to the caches what
    [Multilevel] describes: whatever calls the cores make - fetches of instructions, accesses
    of data of any size and alignment, fast accesses - and however their parts, messages of the
    directory and ends of epochs interleave, the caches go through steps of the hierarchy.
    What holds in all reachable states of the hierarchy thus holds here. *)
Theorem cores_refine_hierarchy s s' :
  (∀ q, m_access (cores s q) = None) → star core_step s s' → star (Multilevel.step cfg k) (caches_of s) (caches_of s').
Proof using Hleaf.
  intros H0 Hrun. assert (all_suspended_ok s) as Hok by (intros q; by rewrite H0). clear H0.
  enough (follows s s') as Hf by apply Hf. induction Hrun as [|s s1 s2 Hrun IH Hstep]; [done|].
  specialize (IH Hok). etrans; [exact IH|]. apply core_step_follows; [|done]. intros q. apply IH, Hok.
Qed.
End refinement.

(** ** An example: a store of four bytes in two lines

    Core 0 of the machine of [Example2], with a data TLB, stores bytes 62 to 65; for each of
    the two lines of 8 bytes it waits for the directory. *)
Module SystemExample.
Import Example2.
Definition mm_of (q : nat) : MemoryManager.mm :=
  mk_mm (4 * q) 3 8 [] None None (ComponentLatency.mk 1 30) true 0 [0] [0].
#[local] Instance managers : MemorySystem (system (P := LRU.t) (F := unit) (D := unit)) := memory_managers cfg mm_of.
Abbreviation state := (t (system (P := LRU.t) (F := unit) (D := unit))).

Definition start_system : state := mk (mk_system Example2.start (λ _, [])) (λ _, new_core) [] (λ _, 0) false.

Definition deliver (msg : ShmemMsg.t) : M state unit := λ s,
  let! (_, y) := CacheCntlr.handleMsgFromDramDirectory cfg 9 3 0 msg (caches_of s) in Ok (tt, put_caches y s).
Definition outcome (m : M state unit) (s : state) : state := match m s with Ok (_, s) => s | Err _ => s end.

Definition store_call : M state unit :=
  accessMemory OTHER_MODE 9 0 Core.NONE Core.WRITE (u64 62) (Some [1; 2; 3; 4]) 4 MEM_MODELED_TIME 5 true 0.
Definition granted (address : Z) : ShmemMsg.t := message ShmemMsg.EX_REP address (Some (replicate 8 0)).
Definition s1 : state := outcome store_call start_system.
Definition s2 : state := outcome (deliver (granted 56)) s1.
Definition s3 : state := outcome (continue_access 9 0) s2.
Definition s4 : state := outcome (deliver (granted 64)) s3.
Definition s5 : state := outcome (continue_access 9 0) s4.

Lemma outcome_ok (m : M state unit) s : is_ok (m s) = true → m s = Ok (tt, outcome m s).
Proof. unfold outcome. by destruct (m s) as [[[] ?]|]. Qed.
Lemma deliver_step msg s : msg_ok 3 msg → is_ok (deliver msg s) = true → core_step cfg mm_of 3 2 s (outcome (deliver msg) s).
Proof.
  intros Hm Hok. unfold outcome, deliver in *. destruct (CacheCntlr.handleMsgFromDramDirectory _ _ _ _ _ _) as [[[] y]|] eqn:E; [|done].
  by eapply core_message; [| |exact E].
Qed.

Lemma leaves q c : (q < 2)%nat → (c < 2)%nat → prevs cfg (cache_of cfg (m_first_cntlr (mm_of q) + c)) = [] ∧
  CacheCntlr.m_core_id (CacheCntlr.cntlr_conf cfg (m_first_cntlr (mm_of q) + c)) = Z.of_nat q.
Proof. intros Hq Hc. by destruct q as [|[|]], c as [|[|]]; try lia. Qed.

Lemma run_steps : star (core_step cfg mm_of 3 2) start_system s5.
Proof.
  eapply star_step; [eapply star_step; [eapply star_step; [eapply star_step; [apply star_one|]|]|]|].
  - eapply (core_call cfg mm_of 3 2 start_system 0 store_call s1); [lia|apply call_access|done|done|]. apply outcome_ok. by vm_compute.
  - apply (deliver_step (granted 56) s1); [|by vm_compute]. by repeat split; try done.
  - eapply (core_continue cfg mm_of 3 2 s2 9 0 s3); [lia|]. apply outcome_ok. by vm_compute.
  - apply (deliver_step (granted 64) s3); [|by vm_compute]. by repeat split; try done.
  - eapply (core_continue cfg mm_of 3 2 s4 9 0 s5); [lia|]. apply outcome_ok. by vm_compute.
Qed.

(** The store has returned, and both lines are the core's; the caches went through steps of
    the hierarchy, so inclusion holds. *)
Lemma cores_refine_hierarchy_witness :
  star (Multilevel.step cfg 3) Example2.start (caches_of s5) ∧
  m_results (cores s5 0%nat) = [mk_result HitWhere.L3_OWN 6 (Some [1; 2; 3; 4])].
Proof.
  split; [|by vm_compute].
  exact (cores_refine_hierarchy cfg mm_of 3 2 leaves start_system s5 (λ _, eq_refl) run_steps).
Defined.
End SystemExample.
