(* ===== verification/Locks.v ===== *)
(** The locks of the cache hierarchy: [misc/setlock.{h,cc}], and in
    [parametric_dram_directory_msi/cache_cntlr.cc] [createSetLocks], [getSetLock],
    [acquireLock], [releaseLock], [acquireStackLock], [releaseStackLock] and the hand-over
    between a core and the network thread; [misc/selock.{h,cc}], the alternative that is not used.

    The last-level cache has a [SetLock] for each set of the first-level caches: a vector of
    mutexes, one per core.  A core takes its own for an access of its first-level cache
    (shared), all of them for the levels below (exclusive), and so does the network thread.
    The mutexes belong to no thread, as one may release what another one has acquired: a core
    that waits for a line is woken up by the network thread, which passes the lock to it.

    Threads run step by step and interleave: a step starts an operation or performs the next
    action - on a mutex or a semaphore - of one.  [CacheCntlr] takes what happens under a
    lock as one step; the theorems here are what allows it to.  They are about one lock; a
    thread asks for a second one only where a cache below the first level writes through. *)
From stdpp Require Import functions.
From S2P Require Import Prelude Utils AddressMap.

(** ** The lock of a line *)

(** [CacheMasterCntlr::createSetLocks], its fields. *)
Record set_locks := mk_set_locks { m_log_blocksize : Z; m_num_sets : Z }.
Definition createSetLocks (cache_block_size num_sets : Z) : set_locks := mk_set_locks (u32 (floorLog2 cache_block_size)) num_sets.
Definition getSetLock (l : set_locks) (addr : Z) : result Z :=
  let! _ := check (m_log_blocksize l <? 64) OutOfRange in
  let i := Z.land (Z.shiftr addr (m_log_blocksize l)) (u32 (m_num_sets l - 1)) in
  let! _ := check (i <? m_num_sets l) OutOfRange in Ok i.

Lemma getSetLock_eq bs nl addr : 0 < bs < 2 ^ 32 → 0 < nl < 2 ^ 32 → isPower2 nl = true → in_u64 addr →
  getSetLock (createSetLocks bs nl) addr = Ok (Z.shiftr addr (Z.log2 bs) `mod` nl).
Proof.
  intros Hbs Hnl Hp Ha. assert (0 ≤ Z.log2 bs < 32) as Hlog by (split; [apply Z.log2_nonneg|apply Z.log2_lt_pow2; lia]).
  unfold getSetLock, createSetLocks. cbn. rewrite floorLog2_log2, u32_small, (proj2 (Z.ltb_lt _ 64)) by (rlia || lia). cbn.
  pose proof (proj1 (isPower2_log2 nl ltac:(lia) ltac:(lia)) Hp) as Hnl'. rewrite (u32_small (nl - 1)) by rlia. rewrite Hnl', land_pow2 by apply Z.log2_nonneg.
  rewrite <- Hnl'. pose proof (Z.mod_pos_bound (Z.shiftr addr (Z.log2 bs)) nl ltac:(lia)). by rewrite (proj2 (Z.ltb_lt _ _)) by lia.
Qed.

(** [C16] The lines of one set of a cache have the same lock, which is one of those created, so
    that what happens in the set is done under one lock - if the cache finds its sets by
    "mask" or "mod" and the number of locks, a power of two, divides its number of sets. *)
Theorem same_set_same_lock ns assoc bs hash c nl a b :
  CacheBase.new ns assoc bs hash None = Ok c → 0 < ns < 2 ^ 32 → 0 < bs < 2 ^ 32 →
  hash = CacheBase.HASH_MASK ∨ hash = CacheBase.HASH_MOD → isPower2 nl = true → 0 < nl → (nl | ns) → in_u64 a → in_u64 b →
  ∃ i, getSetLock (createSetLocks bs nl) a = Ok i ∧ 0 ≤ i < nl ∧
    ((let! x := CacheBase.splitAddress c a in Ok (snd x)) = (let! x := CacheBase.splitAddress c b in Ok (snd x)) →
     getSetLock (createSetLocks bs nl) b = Ok i).
Proof.
  intros Hnew Hns Hbs Hh Hp Hnl [k Hk] Ha Hb. assert (0 < k) by nia. assert (nl < 2 ^ 32) by nia.
  rewrite !getSetLock_eq by done. eexists. split; [done|]. split; [apply Z.mod_pos_bound; lia|].
  assert (∀ x, in_u64 x → (let! y := CacheBase.splitAddress c x in Ok (snd y)) = Ok (Z.shiftr x (Z.log2 bs) `mod` ns)) as Hsplit.
  { intros x Hx. destruct (base_fields _ _ _ _ _ _ Hnew) as (E1 & E2 & _ & _ & _).
    assert (hash_fits hash ns = true) as Hfit.
    { clear E1 E2. destruct Hh as [-> | ->]; [|done]. cbn. unfold CacheBase.new in Hnew. inv_ok. cbn in *. apply isPower2_log2; [lia..|].
      rewrite floorLog2_log2, Z.shiftl_1_l, bool_decide_true, orb_false_r in * by (done || rlia). lia. }
    destruct (splitAddress_total _ _ _ _ _ x Hnew Hns Hbs Hx Hfit) as (i & E & Ei & _). rewrite E. cbn. f_equal.
    unfold CacheBase.set_index_of in Ei. rewrite E1, E2 in Ei. destruct Hh as [-> | ->]; cbn in Ei.
    - pose proof (proj1 (isPower2_log2 ns ltac:(lia) ltac:(lia)) Hfit) as Hns'. rewrite u32_small in Ei by rlia. injection Ei as <-. rewrite Hns' at 1. rewrite land_pow2 by apply Z.log2_nonneg. by rewrite <- Hns'.
    - unfold umod in Ei. rewrite (proj2 (Z.eqb_neq _ _)) in Ei by lia. by injection Ei as <-. }
  rewrite !Hsplit by done. intros [= E]. f_equal. subst ns. rewrite Z.mul_comm in E.
  assert (∀ z, z `mod` nl = (z `mod` (nl * k)) `mod` nl) as Hm; [|by rewrite (Hm (Z.shiftr b _)), <- E, <- Hm].
  intros z. rewrite Z.rem_mul_r, Z.mul_comm, Z.mod_add, Z.mod_mod by nia. done.
Qed.
Lemma same_set_same_lock_witness :
  ∃ c, CacheBase.new 8192 16 64 CacheBase.HASH_MASK None = Ok c ∧
  CacheBase.splitAddress c 0x7fffdeadbeef = Ok (0x1ffff7ab6fb, 5883) ∧ CacheBase.splitAddress c 0x7fffdea5beef = Ok (0x1ffff7a96fb, 5883) ∧
  getSetLock (createSetLocks 64 64) 0x7fffdeadbeef = Ok 59 ∧ getSetLock (createSetLocks 64 64) 0x7fffdea5beef = Ok 59.
Proof.
  eexists. split; [vm_compute; reflexivity|]. split; [vm_compute; reflexivity|]. split; [vm_compute; reflexivity|].
  destruct (same_set_same_lock 8192 16 64 CacheBase.HASH_MASK _ 64 0x7fffdeadbeef 0x7fffdea5beef eq_refl) as (i & Ei & _ & Hi);
    [lia|lia|by left|vm_compute; reflexivity|lia|by exists 128|rlia|rlia|].
  rewrite Hi by (vm_compute; reflexivity). split; [vm_compute; reflexivity|]. rewrite <- Ei. vm_compute. reflexivity.
Defined.

(** The call of [acquireStackLock] and [releaseStackLock] in [writeCacheBlock], its arguments
    [address] and [this_is_locked]: what is written is [(true)], the declaration is
    [(UInt64 address, bool this_is_locked = false)].  The lock is the first one. *)
Definition nested_call : Z * bool := (Z.b2z true, false).
Lemma nested_lock bs nl : 1 < bs < 2 ^ 32 → 0 < nl < 2 ^ 32 → isPower2 nl = true → getSetLock (createSetLocks bs nl) (fst nested_call) = Ok 0.
Proof.
  intros Hbs Hnl Hp. cbn [fst nested_call Z.b2z]. rewrite getSetLock_eq by (done || lia || rlia). assert (0 < Z.log2 bs) as Hl by (apply Z.log2_pos; lia).
  rewrite (Z.shiftr_eq_0 1) by (cbn; lia). done.
Qed.

(** With more locks than sets - the number is that of the first-level cache -, or with another
    hash, two lines of one set have different locks. *)
Lemma same_set_other_lock :
  (∃ c, CacheBase.new 64 16 64 CacheBase.HASH_MASK None = Ok c ∧
   CacheBase.splitAddress c 0 = Ok (0, 0) ∧ CacheBase.splitAddress c 4096 = Ok (64, 0) ∧
   getSetLock (createSetLocks 64 128) 0 = Ok 0 ∧ getSetLock (createSetLocks 64 128) 4096 = Ok 64) ∧
  (∃ c, CacheBase.new 64 16 64 CacheBase.HASH_XOR_MOD None = Ok c ∧
   CacheBase.splitAddress c 0 = Ok (0, 0) ∧ CacheBase.splitAddress c (65 * 64) = Ok (65, 0) ∧
   getSetLock (createSetLocks 64 64) 0 = Ok 0 ∧ getSetLock (createSetLocks 64 64) (65 * 64) = Ok 1).
Proof. split; eexists; (split; [vm_compute; reflexivity|]); by vm_compute. Qed.

(** ** Actions and operations *)

(** The semaphores on which a core waits for the network thread and the network thread for it. *)
Inductive sem := UserSem (c : nat) | NetSem (c : nat).
#[global] Instance sem_eq_dec : EqDecision sem.
Proof. solve_decision. Defined.

Inductive act :=
  | Acq (i : nat)      (* PersetLock::acquire of mutex [i] *)
  | Rel (i : nat)      (* PersetLock::release *)
  | Wait (s : sem)     (* Semaphore::wait *)
  | Post (s : sem).    (* Semaphore::signal *)
#[global] Instance act_eq_dec : EqDecision act.
Proof. solve_decision. Defined.

(** [_SetLock], for [n] cores from [m_core_offset] on: the actions of its operations. *)
Module SetLock.
Section ops.
Context (m_core_offset : Z) (n : nat).

(** [m_locks.at(core_id - m_core_offset)]; the difference is one of [UInt32]. *)
Definition at_ (core_id : Z) : result nat :=
  let i := u32 (core_id - m_core_offset) in
  let! _ := check (i <? Z.of_nat n) OutOfRange in Ok (Z.to_nat i).

Definition acquire_exclusive : list act := map Acq (seq 0 n).
Definition release_exclusive : list act := map Rel (seq 0 n).
Definition acquire_shared (core_id : Z) : result (list act) :=
  let! _ := check ((m_core_offset <=? core_id) && (core_id <? m_core_offset + Z.of_nat n)) AssertFail in
  let! i := at_ core_id in Ok [Acq i].
Definition release_shared (core_id : Z) : result (list act) := let! i := at_ core_id in Ok [Rel i].
Definition upgrade (core_id : Z) : result (list act) :=
  let! l := release_shared core_id in Ok (l ++ acquire_exclusive).
Definition downgrade (core_id : Z) : result (list act) :=
  Ok (map Rel (List.filter (λ i, negb (Z.of_nat i =? u32 (core_id - m_core_offset))) (seq 0 n))).
End ops.
End SetLock.

(** ** Threads *)

(** Where a thread is between two operations on the lock: outside, in its first-level cache,
    in the whole stack of caches - [locked], if its own mutex was taken before and is kept
    after -, in the stack and inside the lock that [writeCacheBlock] takes once more, just
    woken up with the lock of the stack, or waiting for a core that it woke up. *)
Inductive point := Outside | InCache | InStack (locked : bool) | Nested (locked : bool) | Woken (locked : bool) | Passed (c : nat).
#[global] Instance point_eq_dec : EqDecision point.
Proof. solve_decision. Defined.

Record thread := mk_thread { pc : point; todo : list act }.

Record state := mk_state {
  m_locks : list bool;         (* the mutexes of one [SetLock] *)
  sems : sem → nat;
  users : nat → thread;        (* the threads of the cores *)
  net : thread;                (* the network thread *)
}.

(** What an action does; [None] if it has to wait. *)
Definition perform (a : act) (locks : list bool) (sems : sem → nat) : option (list bool * (sem → nat)) :=
  match a with
  | Acq i => if default true (locks !! i) then None else Some (<[i := true]> locks, sems)
  | Rel i => Some (<[i := false]> locks, sems)
  | Wait s => match sems s with O => None | S k => Some (locks, <[s := k]> sems) end
  | Post s => Some (locks, <[s := S (sems s)]> sems)
  end.

(** [nested]: a cache below the first level writes through.  Then, and if it is the lock of
    [nested_call], a thread may take the lock once more; another lock goes through fewer steps. *)
Section system.
Context (m_core_offset : Z) (n : nat) (nested : bool).

Definition core_id (c : nat) : Z := m_core_offset + Z.of_nat c.
Definition actions (r : result (list act)) : list act := match r with Ok l => l | Err _ => [] end.

(** [acquireLock], [releaseLock], [acquireStackLock] and [releaseStackLock]. *)
Definition acquireLock (c : nat) : list act := actions (SetLock.acquire_shared m_core_offset n (core_id c)).
Definition releaseLock (c : nat) : list act := actions (SetLock.release_shared m_core_offset n (core_id c)).
Definition acquireStackLock (c : nat) (this_is_locked : bool) : list act :=
  if this_is_locked then actions (SetLock.upgrade m_core_offset n (core_id c)) else SetLock.acquire_exclusive n.
Definition releaseStackLock (c : nat) (this_is_locked : bool) : list act :=
  if this_is_locked then actions (SetLock.downgrade m_core_offset n (core_id c)) else SetLock.release_exclusive n.

(** The operations of core [c]: an access takes the lock of its cache or, if it must write
    through, that of the stack; a miss upgrades; a miss in the last level gives up all, waits
    and goes on with the lock that it is given; a prefetch is like a write-through access.
    Between the two parts of an atomic access it stays [InCache].

    A cache below the first level that writes through calls [acquireStackLock(true)] in
    [writeCacheBlock], with its caller in the stack: [true] becomes the address 1
    ([nested_call]), and what is taken, all of it, is the lock of that address.  For that lock
    a caller that is in the stack under another lock comes from [Outside], as for an access of
    its own; one in the stack under this lock takes all mutexes that it has already. *)
Inductive begins (c : nat) : point → point → list act → Prop :=
  | begin_access : begins c Outside InCache (acquireLock c)
  | begin_stack : begins c Outside (InStack false) (acquireStackLock c false)
  | end_access : begins c InCache Outside (releaseLock c)
  | begin_miss : begins c InCache (InStack true) (acquireStackLock c true)
  | end_miss : begins c (InStack true) InCache (releaseStackLock c true)
  | end_stack : begins c (InStack false) Outside (releaseStackLock c false)
  | wait_for_line b : begins c (InStack b) (Woken b) (releaseStackLock c false ++ [Wait (UserSem c)])
  | woken b : begins c (Woken b) (InStack b) [Post (NetSem c)]
  | begin_nested b : nested = true → begins c (InStack b) (Nested b) (acquireStackLock c (snd nested_call))
  | end_nested b : nested = true → begins c (Nested b) (InStack b) (releaseStackLock c (snd nested_call)).

(** The network thread: a message takes the lock of the stack; to each core that waits for
    the line it passes the lock on, and takes it again when the core has let it go.  What it
    writes back goes through [writeCacheBlock] as well. *)
Inductive net_begins (s : state) : point → point → list act → Prop :=
  | net_message : net_begins s Outside (InStack false) (SetLock.acquire_exclusive n)
  | net_done : net_begins s (InStack false) Outside (SetLock.release_exclusive n)
  | net_wake c b : (c < n)%nat → users s c = mk_thread (Woken b) [Wait (UserSem c)] → sems s (UserSem c) = O →
      net_begins s (InStack false) (Passed c) [Post (UserSem c); Wait (NetSem c)]
  | net_again c : net_begins s (Passed c) (InStack false) (SetLock.acquire_exclusive n)
  | net_begin_nested : nested = true → net_begins s (InStack false) (Nested false) (SetLock.acquire_exclusive n)
  | net_end_nested : nested = true → net_begins s (Nested false) (InStack false) (SetLock.release_exclusive n).

Definition put_user (c : nat) (t : thread) (s : state) : state := mk_state (m_locks s) (sems s) (<[c := t]> (users s)) (net s).
Definition put_net (t : thread) (s : state) : state := mk_state (m_locks s) (sems s) (users s) t.
Definition put_shared (x : list bool * (sem → nat)) (s : state) : state := mk_state (fst x) (snd x) (users s) (net s).

(** [new]: a core starts an access, or the network thread takes a message. *)
Inductive step : bool → state → state → Prop :=
  | user_begins s c p p' l : (c < n)%nat → users s c = mk_thread p [] → begins c p p' l →
      step (bool_decide (p = Outside)) s (put_user c (mk_thread p' l) s)
  | user_acts s c p a l x : (c < n)%nat → users s c = mk_thread p (a :: l) → perform a (m_locks s) (sems s) = Some x →
      step false s (put_user c (mk_thread p l) (put_shared x s))
  | net_starts s p p' l : net s = mk_thread p [] → net_begins s p p' l →
      step (bool_decide (p = Outside)) s (put_net (mk_thread p' l) s)
  | net_acts s p a l x : net s = mk_thread p (a :: l) → perform a (m_locks s) (sems s) = Some x →
      step false s (put_net (mk_thread p l) (put_shared x s)).

Definition start : state :=
  mk_state (replicate n false) (λ _, O) (λ _, mk_thread Outside []) (mk_thread Outside []).
Definition reachable (s : state) : Prop := rtc (λ s s', ∃ new, step new s s') start s.
End system.

(** ** Who claims which mutex *)

(** The cores' threads, the network thread, and a lock that is being passed to a core. *)
Inductive owner := U (c : nat) | N | T (c : nat).
#[global] Instance owner_eq_dec : EqDecision owner.
Proof. solve_decision. Defined.

(** Exactly the mutexes that are claimed are locked, each by one. *)
Record owned (n : nat) (locks : list bool) (claims : owner → nat → Prop) : Prop := {
  ow_length : length locks = n;
  ow_unique i w w' : (i < n)%nat → claims w i → claims w' i → w = w';
  ow_locked i : (i < n)%nat → locks !! i = Some true ↔ ∃ w, claims w i;
}.

Section owned.
Context {n : nat} {locks : list bool} {claims claims' : owner → nat → Prop} (Hown : owned n locks claims).

Lemma owned_same : (∀ w i, (i < n)%nat → claims' w i ↔ claims w i) → owned n locks claims'.
Proof using Hown.
  destruct Hown as [Hl Hu Hk]. intros E. split; [done| |].
  - intros i w w' Hi Hw Hw'. apply (E _ _ Hi) in Hw, Hw'. by eapply Hu.
  - intros i Hi. rewrite Hk by done. by setoid_rewrite E.
Qed.
Lemma owned_acq t i : (i < n)%nat → locks !! i = Some false →
  (∀ w j, (j < n)%nat → claims' w j ↔ claims w j ∨ w = t ∧ j = i) → owned n (<[i := true]> locks) claims'.
Proof using Hown.
  destruct Hown as [Hl Hu Hk]. intros Hi Hf E. assert (∀ w, ¬ claims w i) as Hn.
  { intros w Hw. assert (locks !! i = Some true) by (apply Hk; eauto). congruence. }
  split; [by rewrite length_insert| |].
  - intros j w w' Hj Hw Hw'. apply (E _ _ Hj) in Hw, Hw'.
    destruct Hw as [Hw|[-> ->]], Hw' as [Hw'|[-> E']]; [by eapply Hu|subst; by edestruct Hn|by edestruct Hn|done].
  - intros j Hj. destruct (decide (i = j)) as [<-|Hne].
    + rewrite list_lookup_insert_eq by lia. split; [intros _; exists t; apply E; auto|done].
    + rewrite list_lookup_insert_ne, Hk by done. setoid_rewrite (E _ j Hj). split; intros [w Hw]; exists w; [by left|by destruct Hw as [|[_ ->]]].
Qed.
Lemma owned_rel i : (i < n)%nat → (∀ w j, (j < n)%nat → claims' w j ↔ claims w j ∧ j ≠ i) → owned n (<[i := false]> locks) claims'.
Proof using Hown.
  destruct Hown as [Hl Hu Hk]. intros Hi E. split; [by rewrite length_insert| |].
  - intros j w w' Hj Hw Hw'. apply (E _ _ Hj) in Hw as [? _], Hw' as [? _]. by eapply Hu.
  - intros j Hj. destruct (decide (i = j)) as [<-|Hne].
    + rewrite list_lookup_insert_eq by lia. split; [done|]. intros [w Hw]. by apply (E _ _ Hj) in Hw as [_ ?].
    + rewrite list_lookup_insert_ne, Hk by done. setoid_rewrite (E _ j Hj). split; intros [w Hw]; exists w; [by split|apply Hw].
Qed.
(** All is passed from one to another who had nothing. *)
Lemma owned_pass t t' : t ≠ t' → (∀ j, (j < n)%nat → claims t j ∧ ¬ claims t' j ∧ ¬ claims' t j ∧ claims' t' j) →
  (∀ w j, (j < n)%nat → w ≠ t → w ≠ t' → claims' w j ↔ claims w j) → owned n locks claims'.
Proof using Hown.
  destruct Hown as [Hl Hu Hk]. intros Hne E Eo. assert (∀ w j, (j < n)%nat → claims' w j ↔ w = t') as H1.
  { intros w j Hj. destruct (E j Hj) as (? & ? & ? & ?). destruct (decide (w = t')) as [->|]; [done|]. destruct (decide (w = t)) as [->|]; [done|].
    rewrite Eo by done. split; [intros Hw; by destruct (Hu j w t)|done]. }
  split; [done| |].
  - intros j w w' Hj Hw Hw'. apply H1 in Hw, Hw'; [|done..]. congruence.
  - intros j Hj. rewrite Hk by done. setoid_rewrite H1; [|done]. split; intros _; [by exists t'|exists t; by apply E].
Qed.
End owned.

(** ** What threads can be doing *)

Section invariant.
Context (m_core_offset : Z) (n : nat) (nested : bool) (Hoff : 0 ≤ m_core_offset) (Hn : m_core_offset + Z.of_nat n < 2 ^ 32).
Implicit Types (c i j k : nat) (s : state).

(** The actions that are left of taking, or releasing, mutexes from the [k]-th on. *)
Definition acqs k : list act := map Acq (seq k (n - k)).
Definition rels k : list act := map Rel (seq k (n - k)).
Definition down c k : list act := map Rel (List.filter (λ i, negb (i =? c)%nat) (seq k (n - k))).

Lemma acqs_cons k : (k < n)%nat → acqs k = Acq k :: acqs (S k).
Proof using Type. intros Hk. unfold acqs. replace (n - k)%nat with (S (n - S k)) by lia. done. Qed.
Lemma rels_cons k : (k < n)%nat → rels k = Rel k :: rels (S k).
Proof using Type. intros Hk. unfold rels. replace (n - k)%nat with (S (n - S k)) by lia. done. Qed.
Lemma acqs_nil k : (n ≤ k)%nat → acqs k = [].
Proof using Type. intros Hk. unfold acqs. by replace (n - k)%nat with 0%nat by lia. Qed.
Lemma rels_nil k : (n ≤ k)%nat → rels k = [].
Proof using Type. intros Hk. unfold rels. by replace (n - k)%nat with 0%nat by lia. Qed.
Lemma down_cons c k : (k < n)%nat → down c k = (if (k =? c)%nat then [] else [Rel k]) ++ down c (S k).
Proof using Type. intros Hk. unfold down. replace (n - k)%nat with (S (n - S k)) by lia. cbn. by destruct (k =? c)%nat. Qed.
Lemma down_nil c k : (n ≤ k)%nat → down c k = [].
Proof using Type. intros Hk. unfold down. by replace (n - k)%nat with 0%nat by lia. Qed.

(** What the operations do, for the cores of this lock. *)
Lemma at_core c : (c < n)%nat → SetLock.at_ m_core_offset n (core_id m_core_offset c) = Ok c.
Proof using Hoff Hn.
  intros Hc. unfold SetLock.at_, core_id. replace (m_core_offset + Z.of_nat c - m_core_offset) with (Z.of_nat c) by lia.
  rewrite u32_small, (proj2 (Z.ltb_lt _ _)) by (unfold in_u32; lia). cbn. by rewrite Nat2Z.id.
Qed.
Lemma acquireLock_core c : (c < n)%nat → acquireLock m_core_offset n c = [Acq c].
Proof using Hoff Hn.
  intros Hc. unfold acquireLock, SetLock.acquire_shared. rewrite at_core by done. unfold core_id.
  by rewrite (proj2 (Z.leb_le _ _)), (proj2 (Z.ltb_lt _ _)) by lia.
Qed.
Lemma releaseLock_core c : (c < n)%nat → releaseLock m_core_offset n c = [Rel c].
Proof using Hoff Hn. intros Hc. unfold releaseLock, SetLock.release_shared. by rewrite at_core. Qed.
Lemma all_acqs : SetLock.acquire_exclusive n = acqs 0.
Proof using Type. unfold SetLock.acquire_exclusive, acqs. by rewrite Nat.sub_0_r. Qed.
Lemma all_rels : SetLock.release_exclusive n = rels 0.
Proof using Type. unfold SetLock.release_exclusive, rels. by rewrite Nat.sub_0_r. Qed.
Lemma upgrade_core c : (c < n)%nat → acquireStackLock m_core_offset n c true = Rel c :: acqs 0.
Proof using Hoff Hn. intros Hc. unfold acquireStackLock, SetLock.upgrade, SetLock.release_shared. rewrite at_core by done. cbn. by rewrite all_acqs. Qed.
Lemma downgrade_core c : (c < n)%nat → releaseStackLock m_core_offset n c true = down c 0.
Proof using Hoff Hn.
  intros Hc. unfold releaseStackLock, SetLock.downgrade, down, core_id. cbn. rewrite Nat.sub_0_r. f_equal. apply List.filter_ext. intros i.
  replace (m_core_offset + Z.of_nat c - m_core_offset) with (Z.of_nat c) by lia. rewrite u32_small by (unfold in_u32; lia). f_equal.
  destruct (Nat.eqb_spec i c) as [->|]; [apply Z.eqb_refl|apply Z.eqb_neq; lia].
Qed.

(** Where a core can be, and with which actions left. *)
Inductive running c : point → list act → Prop :=
  | run_done p : match p with Passed _ | Nested _ => False | _ => True end → running c p []
  | run_acquire : running c InCache [Acq c]
  | run_release : running c Outside [Rel c]
  | run_upgrade : running c (InStack true) (Rel c :: acqs 0)
  | run_acquire_all b k : (k < n)%nat → running c (InStack b) (acqs k)
  | run_release_all k : (k < n)%nat → running c Outside (rels k)
  | run_downgrade k : (k < n)%nat → running c InCache (down c k)
  | run_wait b k : running c (Woken b) (rels k ++ [Wait (UserSem c)])
  | run_post b : running c (InStack b) [Post (NetSem c)]
  | run_nested b : nested = true → running c (Nested b) (acqs 0).
Inductive net_running : point → list act → Prop :=
  | net_done_ p : p = Outside ∨ p = InStack false ∨ (∃ c, (c < n)%nat ∧ p = Passed c) → net_running p []
  | net_acquire_all k : (k < n)%nat → net_running (InStack false) (acqs k)
  | net_release_all k : (k < n)%nat → net_running Outside (rels k)
  | net_post c : (c < n)%nat → net_running (Passed c) [Post (UserSem c); Wait (NetSem c)]
  | net_wait c : (c < n)%nat → net_running (Passed c) [Wait (NetSem c)]
  | net_nested : nested = true → net_running (Nested false) (acqs 0).

(** The mutexes of a thread: those it will have at the end, without those that it has still
    to take, and those that it has still to release. *)
Definition gets (a : act) i : Prop := match a with Acq j => i = j | Wait (UserSem _) => True | _ => False end.
Definition gives (a : act) i : Prop := match a with Rel j => i = j | Post (UserSem _) => True | _ => False end.
Definition dest c (p : point) i : Prop :=
  match p with Outside | Passed _ => False | InCache => i = c | InStack _ | Nested _ | Woken _ => True end.
(** A thread that takes the lock once more has all mutexes before. *)
Definition again (p : point) : Prop := match p with Nested _ => True | _ => False end.
Definition claim c (t : thread) i : Prop :=
  Exists (λ a, gives a i) (todo t) ∨ dest c (pc t) i ∧ Forall (λ a, ¬ gets a i) (todo t) ∨ again (pc t).

Definition claims s (w : owner) i : Prop :=
  match w with
  | U c => (c < n)%nat ∧ claim c (users s c) i
  | N => claim 0 (net s) i
  | T c => (c < n)%nat ∧ (0 < sems s (UserSem c))%nat
  end.

Lemma gives_acqs k i : Exists (λ a, gives a i) (acqs k) ↔ False.
Proof using Type. split; [|done]. intros (a & Ha & Hg)%Exists_exists. apply list_elem_of_fmap in Ha as (j & -> & _). done. Qed.
Lemma gets_acqs k i : (i < n)%nat → Forall (λ a, ¬ gets a i) (acqs k) ↔ (i < k)%nat.
Proof using Type.
  intros Hi. unfold acqs. change (map ?f ?l) with (f <$> l). rewrite Forall_fmap, Forall_forall. cbn. split.
  - intros H. destruct (decide (i < k)%nat) as [|Hk]; [done|]. edestruct (H i); [|done]. apply elem_of_seq. lia.
  - intros Hk j Hj ->. apply elem_of_seq in Hj. lia.
Qed.
Lemma gives_rels k i : (i < n)%nat → Exists (λ a, gives a i) (rels k) ↔ (k ≤ i)%nat.
Proof using Type.
  intros Hi. rewrite Exists_exists. split.
  - intros (a & Ha & Hg). apply list_elem_of_fmap in Ha as (j & -> & Hj%elem_of_seq). cbn in Hg. lia.
  - intros Hk. exists (Rel i). split; [|done]. apply list_elem_of_fmap. exists i. split; [done|]. apply elem_of_seq. lia.
Qed.
Lemma gets_rels k i : Forall (λ a, ¬ gets a i) (rels k) ↔ True.
Proof using Type. split; [done|]. intros _. unfold rels. change (map ?f ?l) with (f <$> l). rewrite Forall_fmap, Forall_forall. by intros j _ ?. Qed.
Lemma gives_down c k i : (i < n)%nat → Exists (λ a, gives a i) (down c k) ↔ (k ≤ i)%nat ∧ i ≠ c.
Proof using Type.
  intros Hi. rewrite Exists_exists. split.
  - intros (a & Ha & Hg). apply list_elem_of_fmap in Ha as (j & -> & Hj%list_elem_of_In). apply filter_In in Hj as [Hj%list_elem_of_In%elem_of_seq Hc].
    cbn in Hg. subst. apply negb_true_iff, Nat.eqb_neq in Hc. lia.
  - intros [Hk Hc]. exists (Rel i). split; [|done]. apply list_elem_of_fmap. exists i. split; [done|]. apply list_elem_of_In, filter_In.
    split; [apply list_elem_of_In, elem_of_seq; lia|by apply negb_true_iff, Nat.eqb_neq].
Qed.
Lemma gets_down c k i : Forall (λ a, ¬ gets a i) (down c k) ↔ True.
Proof using Type. split; [done|]. intros _. unfold down. change (map ?f ?l) with (f <$> l). rewrite Forall_fmap, Forall_forall. by intros j _ ?. Qed.

(** A step of a thread keeps what can be running, and its claims change as the mutexes do. *)
Lemma claim_nil c p i : claim c (mk_thread p []) i ↔ dest c p i.
Proof using Type. unfold claim. cbn. rewrite Exists_nil, Forall_nil. destruct p; cbn; tauto. Qed.
Lemma claim_acq c p i l j : claim c (mk_thread p l) i → claim c (mk_thread p l) j ↔ claim c (mk_thread p (Acq i :: l)) j ∨ j = i.
Proof using Type. unfold claim. cbn. rewrite Exists_cons, Forall_cons. cbn. destruct (decide (j = i)) as [->|]; tauto. Qed.
Lemma claim_rel c p i l j : ¬ claim c (mk_thread p l) i → claim c (mk_thread p l) j ↔ claim c (mk_thread p (Rel i :: l)) j ∧ j ≠ i.
Proof using Type. unfold claim. cbn. rewrite Exists_cons, Forall_cons. cbn. destruct (decide (j = i)) as [->|]; tauto. Qed.
Lemma claim_other c p a l j : ¬ gives a j → ¬ gets a j → claim c (mk_thread p l) j ↔ claim c (mk_thread p (a :: l)) j.
Proof using Type. unfold claim. cbn. rewrite Exists_cons, Forall_cons. tauto. Qed.
Lemma claim_acqs c p k i : (i < n)%nat → claim c (mk_thread p (acqs k)) i ↔ dest c p i ∧ (i < k)%nat ∨ again p.
Proof using Type. intros Hi. unfold claim. cbn. rewrite gives_acqs, gets_acqs by done. tauto. Qed.
Lemma claim_rels c p k i : (i < n)%nat → claim c (mk_thread p (rels k)) i ↔ (k ≤ i)%nat ∨ dest c p i.
Proof using Type. intros Hi. unfold claim. cbn. rewrite gives_rels, gets_rels by done. destruct p; cbn; tauto. Qed.
Lemma claim_down c p k i : (i < n)%nat → claim c (mk_thread p (down c k)) i ↔ (k ≤ i)%nat ∧ i ≠ c ∨ dest c p i.
Proof using Type. intros Hi. unfold claim. cbn. rewrite gives_down, gets_down by done. destruct p; cbn; tauto. Qed.
Lemma claim_waiting c b k i : (i < n)%nat → claim c (mk_thread (Woken b) (rels k ++ [Wait (UserSem c)])) i ↔ (k ≤ i)%nat.
Proof using Type.
  intros Hi. unfold claim. cbn. rewrite Exists_app, Forall_app, gives_rels, Exists_cons, Exists_nil, Forall_cons by done. cbn. tauto.
Qed.
Create Rewrite HintDb claim.
#[local] Hint Rewrite claim_nil claim_acqs claim_rels claim_down claim_waiting using done : claim.

Lemma acqs_cases k : acqs k = [] ∨ (k < n)%nat ∧ acqs k = Acq k :: acqs (S k).
Proof using Type. destruct (decide (k < n)%nat); [right; auto using acqs_cons|left; apply acqs_nil; lia]. Qed.
Lemma rels_cases k : rels k = [] ∧ (n ≤ k)%nat ∨ (k < n)%nat ∧ rels k = Rel k :: rels (S k).
Proof using Type. destruct (decide (k < n)%nat); [right; auto using rels_cons|left; split; [apply rels_nil|]; lia]. Qed.
Lemma down_cases c k : down c k = [] ∨ ∃ j, (k ≤ j < n)%nat ∧ j ≠ c ∧ down c k = Rel j :: down c (S j).
Proof using Type.
  destruct (decide (k < n)%nat) as [Hk|]; [|left; apply down_nil; lia]. remember (n - k)%nat as m eqn:Hm. revert k Hm Hk.
  induction m as [|m IH]; intros k Hm Hk; [lia|]. rewrite down_cons by done. case_match eqn:E; cbn.
  - destruct (decide (S k < n)%nat); [|left; apply down_nil; lia]. destruct (IH (S k)) as [->|(j & ? & ? & ->)]; [lia|done|by left|].
    right. exists j. split_and!; [lia|lia|done|done].
  - right. exists k. apply Nat.eqb_neq in E. by split_and!; [lia|lia| |].
Qed.

(** The states from which what is left of an operation runs to its end. *)
Lemma running_acqs c b k : running c (InStack b) (acqs k).
Proof using Type. destruct (decide (k < n)%nat); [by constructor|rewrite acqs_nil by lia; by constructor]. Qed.
Lemma running_rels c k : running c Outside (rels k).
Proof using Type. destruct (decide (k < n)%nat); [by constructor|rewrite rels_nil by lia; by constructor]. Qed.
Lemma running_down c k : running c InCache (down c k).
Proof using Type. destruct (decide (k < n)%nat); [by constructor|rewrite down_nil by lia; by constructor]. Qed.
Lemma net_running_acqs k : net_running (InStack false) (acqs k).
Proof using Type. destruct (decide (k < n)%nat); [by constructor|rewrite acqs_nil by lia; constructor; auto]. Qed.
Lemma net_running_rels k : net_running Outside (rels k).
Proof using Type. destruct (decide (k < n)%nat); [by constructor|rewrite rels_nil by lia; constructor; auto]. Qed.
#[local] Hint Resolve running_acqs running_rels running_down net_running_acqs net_running_rels : core.
#[local] Hint Constructors running net_running : core.

Lemma running_ready c p : (c < n)%nat → running c p [] → match p with Passed _ | Nested _ => False | _ => True end.
Proof using Type. intros Hc H. remember [] as l eqn:Hl. destruct H; try done. by rewrite acqs_cons in Hl by lia. Qed.
Lemma begins_running c p p' l : (c < n)%nat → running c p [] → begins m_core_offset n nested c p p' l →
  running c p' l ∧ ∀ i, (i < n)%nat → claim c (mk_thread p' l) i ↔ claim c (mk_thread p []) i.
Proof using Hoff Hn.
  intros Hc H0 Hb. destruct Hb; try (by apply running_ready in H0);
    rewrite ?acquireLock_core, ?releaseLock_core, ?upgrade_core, ?downgrade_core by done;
    unfold acquireStackLock, releaseStackLock; cbn [snd nested_call]; rewrite ?all_acqs, ?all_rels; (split; [auto|intros i Hi]); autorewrite with claim; cbn; try lia.
  - unfold claim. cbn. rewrite Exists_nil, !Forall_cons, Forall_nil || rewrite Exists_cons, Forall_cons, Exists_nil, Forall_nil. cbn. tauto.
  - unfold claim. cbn. rewrite Exists_cons, Exists_nil. cbn. tauto.
  - unfold claim. cbn. rewrite Exists_cons, Forall_cons, gives_acqs, gets_acqs by done. cbn. lia.
  - rewrite <- claim_other by (cbn; auto). by autorewrite with claim.
Qed.
Lemma running_acq c p i l : (c < n)%nat → running c p (Acq i :: l) → (i < n)%nat ∧ (¬ again p → running c p l) ∧ claim c (mk_thread p l) i.
Proof using Type.
  intros Hc H. inversion H as [| | | |b k Hk Ep E|k Hk Ep E|k Hk Ep E|b k Ep E| |b Hne Ep E]; subst.
  - split_and!; [done|auto|]. by rewrite claim_nil.
  - destruct (acqs_cases k) as [E'|[_ E']]; rewrite E' in E; inversion E; subst. split_and!; [done|done|]. autorewrite with claim. cbn. auto with lia.
  - destruct (rels_cases k) as [[E' _]|[_ E']]; by rewrite E' in E.
  - destruct (down_cases c k) as [E'|(j & _ & _ & E')]; by rewrite E' in E.
  - destruct (rels_cases k) as [[E' _]|[_ E']]; by rewrite E' in E.
  - destruct (acqs_cases 0) as [E'|[? E']]; rewrite E' in E; inversion E; subst. autorewrite with claim; cbn. split; [done|]. split; [|auto]. by intros [].
Qed.
Lemma running_rel c p i l : (c < n)%nat → running c p (Rel i :: l) → (i < n)%nat ∧ running c p l ∧ ¬ claim c (mk_thread p l) i.
Proof using Hoff.
  intros Hc H. inversion H as [| | | |b k Hk Ep E|k Hk Ep E|k Hk Ep E|b k Ep E| |b Hne Ep E]; subst.
  - autorewrite with claim; cbn; auto.
  - autorewrite with claim; cbn; auto with lia.
  - destruct (acqs_cases k) as [E'|[_ E']]; by rewrite E' in E.
  - destruct (rels_cases k) as [[E' _]|[_ E']]; rewrite E' in E; inversion E; subst. autorewrite with claim; cbn; auto with lia.
  - destruct (down_cases c k) as [E'|(j & [? ?] & ? & E')]; rewrite E' in E; inversion E; subst. autorewrite with claim; cbn; auto with lia.
  - destruct (rels_cases k) as [[E' _]|[? E']]; rewrite E' in E; inversion E; subst. autorewrite with claim; cbn; auto with lia.
  - by rewrite acqs_cons in E by lia.
Qed.
Lemma running_sem c p a l : running c p (a :: l) →
  match a with
  | Wait m => m = UserSem c ∧ l = [] ∧ ∃ b, p = Woken b
  | Post m => m = NetSem c ∧ l = [] ∧ ∃ b, p = InStack b
  | _ => True
  end.
Proof using Type.
  intros H. inversion H as [| | | |b k Hk Ep E|k Hk Ep E|k Hk Ep E|b k Ep E|b|b Hne Ep E]; subst; try done.
  - destruct (acqs_cases k) as [E'|[_ E']]; rewrite E' in E; by inversion E.
  - destruct (rels_cases k) as [[E' _]|[_ E']]; rewrite E' in E; by inversion E.
  - destruct (down_cases c k) as [E'|(j & _ & _ & E')]; rewrite E' in E; by inversion E.
  - destruct (rels_cases k) as [[E' _]|[_ E']]; rewrite E' in E; inversion E; subst; eauto.
  - eauto.
  - destruct (acqs_cases 0) as [E'|[_ E']]; rewrite E' in E; by inversion E.
Qed.
(** Who takes the lock once more cannot take the first mutex. *)
Lemma running_again c p a l : running c p (a :: l) → again p → a = Acq 0 ∧ (0 < n)%nat.
Proof using Type.
  intros H Hp. remember (a :: l) as l' eqn:E. destruct H; try done. destruct (acqs_cases 0) as [E'|[? E']]; rewrite E' in E; by simplify_eq.
Qed.

(** The network thread. *)
Lemma net_not_nested b : net_running (Nested b) [] → n = 0%nat.
Proof using Type.
  intros H. remember (Nested b) as p eqn:Hp. remember [] as l eqn:Hl. destruct H as [p [|[|(c & _ & ?)]]| | | | |]; simplify_eq.
  destruct (decide (0 < n)%nat); [by rewrite acqs_cons in Hl|lia].
Qed.
Lemma net_begins_running s p p' l : net_running p [] → net_begins n nested s p p' l →
  net_running p' l ∧ ∀ i, (i < n)%nat → claim 0 (mk_thread p' l) i ↔ claim 0 (mk_thread p []) i.
Proof using Type.
  intros H0 Hb. destruct Hb; try (apply net_not_nested in H0; rewrite all_rels, rels_nil by lia; split; [by constructor; auto|lia]);
    rewrite ?all_acqs, ?all_rels; (split; [auto|intros i Hi]); autorewrite with claim; cbn; try lia.
  unfold claim. cbn. rewrite !Exists_cons, Forall_cons, Exists_nil. cbn. tauto.
Qed.
Lemma net_running_acts p a l : net_running p (a :: l) →
  match a with
  | Acq i => (i < n)%nat ∧ (¬ again p → net_running p l) ∧ claim 0 (mk_thread p l) i
  | Rel i => (i < n)%nat ∧ net_running p l ∧ ¬ claim 0 (mk_thread p l) i
  | Post m => ∃ c, (c < n)%nat ∧ m = UserSem c ∧ p = Passed c ∧ l = [Wait (NetSem c)]
  | Wait m => ∃ c, (c < n)%nat ∧ m = NetSem c ∧ p = Passed c ∧ l = []
  end.
Proof using Hoff.
  intros H. inversion H as [|k Hk Ep E|k Hk Ep E| | |Hne Ep E]; subst; eauto 8.
  - destruct (acqs_cases k) as [E'|[_ E']]; rewrite E' in E; inversion E; subst. autorewrite with claim; cbn; auto with lia.
  - destruct (rels_cases k) as [[E' _]|[_ E']]; rewrite E' in E; inversion E; subst. autorewrite with claim; cbn; auto with lia.
  - destruct (acqs_cases 0) as [E'|[? E']]; rewrite E' in E; inversion E; subst. autorewrite with claim; cbn. split; [done|]. split; [|auto]. by intros [].
Qed.
Lemma net_running_again p a l : net_running p (a :: l) → again p → a = Acq 0 ∧ (0 < n)%nat.
Proof using Type.
  intros H Hp. remember (a :: l) as l' eqn:E. destruct H; try done. destruct (acqs_cases 0) as [E'|[? E']]; rewrite E' in E; by simplify_eq.
Qed.

(** The mutexes that threads claim are those that are locked, after each step. *)
Lemma claims_put_user s c t x w i : (c < n)%nat → (∀ d, snd x (UserSem d) = sems s (UserSem d)) →
  claims (put_user c t (put_shared x s)) w i ↔ (if decide (w = U c) then claim c t i else claims s w i).
Proof using Type.
  intros Hc Hx. unfold put_user, put_shared. destruct w as [d| |d]; cbn; rewrite ?Hx; case_decide as E; try done.
  - injection E as ->. rewrite fn_lookup_insert. split; [by intros [_ ?]|done].
  - rewrite fn_lookup_insert_ne by congruence. done.
Qed.
Lemma claims_put_net s t x w i : (∀ d, snd x (UserSem d) = sems s (UserSem d)) →
  claims (put_net t (put_shared x s)) w i ↔ (if decide (w = N) then claim 0 t i else claims s w i).
Proof using Type. intros Hx. unfold put_net, put_shared. destruct w as [d| |d]; cbn; rewrite ?Hx; by case_decide. Qed.
Lemma put_shared_same s : put_shared (m_locks s, sems s) s = s.
Proof using Type. by destruct s. Qed.

(** A thread [w] that takes or releases a mutex. *)
Lemma owned_acts s w a p l x claims' c : owned n (m_locks s) (claims s) →
  (∀ i, claims s w i ↔ claim c (mk_thread p (a :: l)) i) →
  (∀ v i, claims' v i ↔ if decide (v = w) then claim c (mk_thread p l) i else claims s v i) →
  match a with
  | Acq i => (i < n)%nat ∧ claim c (mk_thread p l) i
  | Rel i => (i < n)%nat ∧ ¬ claim c (mk_thread p l) i
  | _ => False
  end → perform a (m_locks s) (sems s) = Some x → owned n (fst x) claims'.
Proof using Type.
  intros Ho Hw E Ha Hx. destruct a as [i|i| |]; try done; cbn in Hx; simplify_option_eq.
  - destruct Ha as [Hi Hc]. destruct (m_locks s !! i) as [[]|] eqn:Hl; try done. injection Hx as <-. cbn.
    eapply (owned_acq Ho w i); [done..|]. intros v j _. rewrite E. case_decide as Ev; [|tauto]. subst v. rewrite Hw, (claim_acq c p i l j Hc). tauto.
  - destruct Ha as [Hi Hc]. cbn. eapply (owned_rel Ho i); [done|]. intros v j Hj. rewrite E. case_decide as Ev; [subst v; by rewrite Hw, (claim_rel c p i l j Hc)|].
    split; [|by intros [? _]]. intros Hv. split; [done|]. intros ->. apply Ev. eapply (ow_unique _ _ _ Ho); [done..|]. apply Hw. left. by constructor.
Qed.

(** The first mutex of a lock that is taken once more is locked. *)
Lemma perform_again s w p c a l x : owned n (m_locks s) (claims s) → (∀ i, claims s w i ↔ claim c (mk_thread p (a :: l)) i) →
  (again p → a = Acq 0 ∧ (0 < n)%nat) → perform a (m_locks s) (sems s) = Some x → ¬ again p.
Proof using Type.
  intros Ho Hw Ha Hx Hp. destruct (Ha Hp) as [-> Hn0]. cbn in Hx.
  rewrite (proj2 (ow_locked _ _ _ Ho 0 Hn0)) in Hx; [done|]. exists w. apply Hw. by right; right.
Qed.

(** *** The invariant *)

Definition waits s c : Prop := ∃ b, users s c = mk_thread (Woken b) [Wait (UserSem c)].
(** Core [c] will let the network thread go on. *)
Definition answers s c : Prop :=
  (0 < sems s (NetSem c))%nat ∨ (0 < sems s (UserSem c))%nat ∨ ∃ b, users s c = mk_thread (Woken b) [] ∨ users s c = mk_thread (InStack b) [Post (NetSem c)].

Record inv s : Prop := {
  iv_users c : (c < n)%nat → running c (pc (users s c)) (todo (users s c));
  iv_net : net_running (pc (net s)) (todo (net s));
  iv_owned : owned n (m_locks s) (claims s);
  iv_sem c : (c < n)%nat → (sems s (UserSem c) ≤ 1)%nat;
  iv_passed c : (c < n)%nat → (0 < sems s (UserSem c))%nat → waits s c;
  iv_posting c : (c < n)%nat → net s = mk_thread (Passed c) [Post (UserSem c); Wait (NetSem c)] → sems s (UserSem c) = O ∧ waits s c;
  iv_waiting c : (c < n)%nat → net s = mk_thread (Passed c) [Wait (NetSem c)] → answers s c;
}.

Lemma inv_start : inv (start n).
Proof using Type.
  split; cbn; auto; try done; try lia.
  split; [by rewrite length_replicate| |].
  - intros i [c| |c] [d| |d] Hi; cbn; rewrite ?claim_nil; cbn; tauto || lia.
  - intros i Hi. rewrite lookup_replicate_2 by done. split; [done|]. intros [[c| |c]]; cbn in *; rewrite ?claim_nil in *; cbn in *; tauto || lia.
Qed.

Lemma waits_other s c d t x : d ≠ c → waits s d → waits (put_user c t (put_shared x s)) d.
Proof using Type. intros Hd [b Hb]. exists b. cbn. by rewrite fn_lookup_insert_ne. Qed.

Lemma inv_user_begins s c p p' l : inv s → (c < n)%nat → users s c = mk_thread p [] → begins m_core_offset n nested c p p' l →
  inv (put_user c (mk_thread p' l) s).
Proof using Hoff Hn.
  intros [Hu Hnet Ho H1 Hp Hpo Hw] Hc Hs Hb. assert (running c p []) as Hr0 by (generalize (Hu c Hc); by rewrite Hs).
  destruct (begins_running _ _ _ _ Hc Hr0 Hb) as [Hr Hcl].
  assert (∀ d, waits s d → d ≠ c) as Hne. { intros d [b Hd] ->. congruence. }
  split; cbn; try done.
  - intros d Hd. destruct (decide (d = c)) as [->|]; [by rewrite fn_lookup_insert|rewrite fn_lookup_insert_ne by done; auto].
  - eapply (owned_same Ho). intros w i Hi. rewrite <- (put_shared_same s) at 1. rewrite claims_put_user by done. case_decide as E; [|done].
    subst w. rewrite Hcl by done. cbn. rewrite Hs. split; [done|by intros [_ ?]].
  - intros d Hd H0. rewrite <- (put_shared_same s). apply waits_other; [apply Hne|]; auto.
  - intros d Hd H0. destruct (Hpo d Hd H0) as [? Hwd]. split; [done|]. rewrite <- (put_shared_same s). by apply waits_other; [apply Hne|].
  - intros d Hd H0. destruct (Hw d Hd H0) as [|[|(b & Hb')]]; [by left|by right; left|]. right. right.
    destruct (decide (d = c)) as [->|]; [|exists b; cbn; by rewrite fn_lookup_insert_ne].
    rewrite Hs in Hb'. destruct Hb' as [[= ->]|]; [|done]. inversion Hb; subst. exists b. right. cbn. by rewrite fn_lookup_insert.
Qed.

Lemma perform_mutex a locks m x : (∀ e, a ≠ Wait e ∧ a ≠ Post e) → perform a locks m = Some x → snd x = m.
Proof using Type. intros Ha Hx. destruct a as [i|i|e|e]; cbn in Hx; [case_match|..]; simplify_eq; try done; by destruct (Ha e). Qed.
Lemma user_runs s c t d : (c < n)%nat → (∀ d, (d < n)%nat → running d (pc (users s d)) (todo (users s d))) → running c (pc t) (todo t) →
  (d < n)%nat → running d (pc (<[c := t]> (users s) d)) (todo (<[c := t]> (users s) d)).
Proof using Type. intros Hc Hu Ht Hd. destruct (decide (d = c)) as [->|]; [by rewrite fn_lookup_insert|rewrite fn_lookup_insert_ne by done; auto]. Qed.

(** A core that takes or releases a mutex, and one that is woken up or answers. *)
Lemma inv_user_mutex s c p a l x : inv s → (c < n)%nat → users s c = mk_thread p (a :: l) → (∀ e, a ≠ Wait e ∧ a ≠ Post e) →
  perform a (m_locks s) (sems s) = Some x → inv (put_user c (mk_thread p l) (put_shared x s)).
Proof using Hoff.
  intros [Hu Hnet Ho H1 Hp Hpo Hw] Hc Hs Ha Hx. pose proof (perform_mutex _ _ _ _ Ha Hx) as Hsx.
  assert (running c p (a :: l)) as Hr by (generalize (Hu c Hc); by rewrite Hs).
  assert (∀ e b l, users s c = mk_thread b l → head l ≠ Some (Wait e) ∧ head l ≠ Some (Post e)) as Hnw.
  { intros e b l' Hb. rewrite Hs in Hb. injection Hb as <- <-. cbn. split; intros [= ->]; by destruct (Ha e). }
  assert (∀ d, waits s d → waits (put_user c (mk_thread p l) (put_shared x s)) d) as Hww.
  { intros d [b Hb]. apply waits_other; [|by exists b]. intros ->. by destruct (Hnw (UserSem c) _ _ Hb). }
  assert (∀ i, claims s (U c) i ↔ claim c (mk_thread p (a :: l)) i) as Hcl by (intros i; cbn; rewrite Hs; split; [by intros [_ ?]|done]).
  pose proof (perform_again s (U c) p c a l x Ho Hcl (running_again c p a l Hr) Hx) as Hag.
  split; cbn; rewrite ?Hsx; try done; auto.
  - intros d. apply user_runs; [done..|]. cbn. destruct a as [i|i|e|e]; [by apply (running_acq c p i l)|by apply (running_rel c p i l)|by destruct (Ha e)..].
  - eapply (owned_acts s (U c) a p l x _ c Ho); [|..|exact Hx].
    + exact Hcl.
    + intros v i. apply claims_put_user; [done|]. by rewrite Hsx.
    + destruct a as [i|i|e|e]; [by destruct (running_acq c p i l Hc Hr) as (? & ? & ?)|by destruct (running_rel c p i l Hc Hr) as (? & ? & ?)|by destruct (Ha e)..].
  - intros d Hd H0. destruct (Hpo d Hd H0). auto.
  - intros d Hd H0. unfold answers. cbn. rewrite Hsx. destruct (Hw d Hd H0) as [|[|(b & Hb)]]; [by left|by right; left|]. right. right.
    exists b. rewrite fn_lookup_insert_ne; [done|]. intros ->. destruct Hb as [Hb|Hb]; rewrite Hs in Hb; simplify_eq. by destruct (Ha (NetSem d)).
Qed.
Lemma claim_wait c b j : claim c (mk_thread (Woken b) [Wait (UserSem c)]) j ↔ False.
Proof using Type. unfold claim. cbn. rewrite Exists_cons, Exists_nil, Forall_cons. cbn. tauto. Qed.
Lemma claim_wait_net c d p j : claim c (mk_thread (Passed p) [Wait (NetSem d)]) j ↔ False.
Proof using Type. unfold claim. cbn. rewrite Exists_cons, Exists_nil. cbn. tauto. Qed.
Lemma inv_user_woken s c b k : inv s → (c < n)%nat → users s c = mk_thread (Woken b) [Wait (UserSem c)] → sems s (UserSem c) = S k →
  inv (put_user c (mk_thread (Woken b) []) (put_shared (m_locks s, <[UserSem c := k]> (sems s)) s)).
Proof using Type.
  intros [Hu Hnet Ho H1 Hp Hpo Hw] Hc Hs Hk. assert (k = 0%nat) as -> by (specialize (H1 c Hc); lia).
  assert (∀ d, d ≠ c → <[UserSem c:=0%nat]> (sems s) (UserSem d) = sems s (UserSem d)) as Ed by (intros d Hd; by rewrite fn_lookup_insert_ne by congruence).
  split; cbn; auto.
  - intros d. apply user_runs; [done..|by constructor].
  - eapply (owned_pass Ho (T c) (U c)); [done|..].
    + intros j Hj. cbn. rewrite !fn_lookup_insert, Hs, claim_nil. cbn. split; [split; [done|lia]|]. split; [|split; [lia|done]].
      by rewrite claim_wait; intros [_ ?].
    + intros [d| |d] j Hj Hw1 Hw2; cbn; [rewrite fn_lookup_insert_ne by congruence; done|done|]. by rewrite Ed by congruence.
  - intros d Hd. destruct (decide (d = c)) as [->|]; [rewrite fn_lookup_insert; lia|rewrite Ed; auto].
  - intros d Hd. destruct (decide (d = c)) as [->|]; [rewrite fn_lookup_insert; lia|rewrite Ed by done]. intros H0. apply waits_other; auto.
  - intros d Hd H0. destruct (Hpo d Hd H0) as [Hz Hwd]. destruct (decide (d = c)) as [->|]; [lia|]. rewrite Ed by done. split; [done|by apply waits_other].
  - intros d Hd H0. unfold answers. cbn. rewrite (fn_lookup_insert_ne _ (UserSem c) (NetSem d)) by done.
    destruct (decide (d = c)) as [->|]; [right; right; exists b; left; by rewrite fn_lookup_insert|]. rewrite Ed, fn_lookup_insert_ne by done. by apply Hw.
Qed.
Lemma inv_user_answers s c b : inv s → (c < n)%nat → users s c = mk_thread (InStack b) [Post (NetSem c)] →
  inv (put_user c (mk_thread (InStack b) []) (put_shared (m_locks s, <[NetSem c := S (sems s (NetSem c))]> (sems s)) s)).
Proof using Type.
  intros [Hu Hnet Ho H1 Hp Hpo Hw] Hc Hs.
  assert (∀ d, <[NetSem c:=S (sems s (NetSem c))]> (sems s) (UserSem d) = sems s (UserSem d)) as Ed by (intros d; by rewrite fn_lookup_insert_ne).
  assert (∀ d, waits s d → d ≠ c) as Hne. { intros d [b' Hd] ->. congruence. }
  split; cbn; auto.
  - intros d. apply user_runs; [done..|by constructor].
  - eapply (owned_same Ho). intros w j Hj. rewrite claims_put_user by done. case_decide; [subst w|done]. cbn. rewrite Hs, <- claim_other by (cbn; auto). split; [done|by intros [_ ?]].
  - intros d Hd H0. rewrite Ed in H0. apply waits_other; auto.
  - intros d Hd H0. rewrite Ed. destruct (Hpo d Hd H0). split; [done|apply waits_other; auto].
  - intros d Hd H0. unfold answers. cbn. rewrite Ed. destruct (decide (d = c)) as [->|].
    + left. rewrite fn_lookup_insert. lia.
    + rewrite !fn_lookup_insert_ne by congruence. by apply Hw.
Qed.

Lemma inv_net_begins s p p' l : inv s → net s = mk_thread p [] → net_begins n nested s p p' l → inv (put_net (mk_thread p' l) s).
Proof using Type.
  intros [Hu Hnet Ho H1 Hp Hpo Hw] Hs Hb. assert (net_running p []) as Hr0 by (generalize Hnet; by rewrite Hs).
  destruct (net_begins_running _ _ _ _ Hr0 Hb) as [Hr Hcl]. split; cbn; auto.
  - eapply (owned_same Ho). intros w i Hi. rewrite <- (put_shared_same s) at 1. rewrite claims_put_net by done. case_decide; [subst w|done]. by rewrite Hcl; cbn; rewrite ?Hs.
  - intros c Hc [= -> ->]. inversion Hb; subst. split; [done|by eexists].
  - intros c Hc [= -> ->]. inversion Hb.
Qed.
Lemma net_mutex_point p a l c : net_running p (a :: l) → (∀ e, a ≠ Wait e ∧ a ≠ Post e) → p ≠ Passed c.
Proof using Type. intros H Ha ->. inversion H; subst; by edestruct Ha. Qed.
Lemma inv_net_mutex s p a l x : inv s → net s = mk_thread p (a :: l) → (∀ e, a ≠ Wait e ∧ a ≠ Post e) →
  perform a (m_locks s) (sems s) = Some x → inv (put_net (mk_thread p l) (put_shared x s)).
Proof using Hoff.
  intros [Hu Hnet Ho H1 Hp Hpo Hw] Hs Ha Hx. pose proof (perform_mutex _ _ _ _ Ha Hx) as Hsx. rewrite Hs in Hnet. cbn in Hnet.
  pose proof (λ c, net_mutex_point p a l c Hnet Ha) as Hpc. pose proof (net_running_acts p a l Hnet) as Hac.
  assert (∀ i, claims s N i ↔ claim 0 (mk_thread p (a :: l)) i) as Hcl by (intros i; cbn; by rewrite Hs).
  pose proof (perform_again s N p 0 a l x Ho Hcl (net_running_again p a l Hnet) Hx) as Hag.
  split; cbn; rewrite ?Hsx; auto.
  - destruct a as [i|i|e|e]; [by destruct Hac as (_ & ? & _); auto|by destruct Hac as (_ & ? & _)|by destruct (Ha e)|by destruct (Ha e)].
  - eapply (owned_acts s N a p l x _ 0 Ho); [|..|exact Hx].
    + exact Hcl.
    + intros v i. apply claims_put_net. by rewrite Hsx.
    + destruct a as [i|i|e|e]; [by destruct Hac as (? & _ & ?)..|by destruct (Ha e)|by destruct (Ha e)].
  - intros c Hc [= -> _]. by destruct (Hpc c).
  - intros c Hc [= -> _]. by destruct (Hpc c).
Qed.
Lemma inv_net_posts s c : inv s → (c < n)%nat → net s = mk_thread (Passed c) [Post (UserSem c); Wait (NetSem c)] →
  inv (put_net (mk_thread (Passed c) [Wait (NetSem c)]) (put_shared (m_locks s, <[UserSem c := S (sems s (UserSem c))]> (sems s)) s)).
Proof using Type.
  intros [Hu Hnet Ho H1 Hp Hpo Hw] Hc Hs. destruct (Hpo c Hc Hs) as [Hz Hwc].
  assert (∀ d, d ≠ c → <[UserSem c:=S (sems s (UserSem c))]> (sems s) (UserSem d) = sems s (UserSem d)) as Ed by (intros d Hd; by rewrite fn_lookup_insert_ne by congruence).
  split; cbn; auto.
  - eapply (owned_pass Ho N (T c)); [done|..].
    + intros j Hj. cbn. rewrite Hs, claim_wait_net, fn_lookup_insert, Hz. split; [by left; left|]. split; [intros [_ ?]; lia|]. split; [by intros []|split; [done|lia]].
    + intros [d| |d] j Hj Hw1 Hw2; cbn; [done..|]. by rewrite Ed by congruence.
  - intros d Hd. destruct (decide (d = c)) as [->|]; [rewrite fn_lookup_insert; lia|rewrite Ed; auto].
  - intros d Hd. destruct (decide (d = c)) as [->|]; [done|rewrite Ed by done]. intros H0. by apply Hp.
  - by intros d Hd [=].
  - intros d Hd [= <-]. right. left. cbn. rewrite fn_lookup_insert. lia.
Qed.
Lemma inv_net_waited s c k : inv s → (c < n)%nat → net s = mk_thread (Passed c) [Wait (NetSem c)] → sems s (NetSem c) = S k →
  inv (put_net (mk_thread (Passed c) []) (put_shared (m_locks s, <[NetSem c := k]> (sems s)) s)).
Proof using Type.
  intros [Hu Hnet Ho H1 Hp Hpo Hw] Hc Hs Hk.
  assert (∀ d, <[NetSem c:=k]> (sems s) (UserSem d) = sems s (UserSem d)) as Ed by (intros d; by rewrite fn_lookup_insert_ne).
  split; cbn; auto; try done.
  - constructor. right. right. eauto.
  - eapply (owned_same Ho). intros w j Hj. rewrite claims_put_net by done. case_decide; [subst w|done]. cbn. by rewrite Hs, claim_wait_net, claim_nil.
Qed.

Theorem inv_step new s s' : inv s → step m_core_offset n nested new s s' → inv s'.
Proof using Hoff Hn.
  intros Hi Hs. destruct Hs as [s c p p' l Hc E Hb|s c p a l x Hc E Hx|s p p' l E Hb|s p a l x E Hx].
  - by eapply inv_user_begins.
  - pose proof (running_sem c p a l ltac:(pose proof (iv_users _ Hi c Hc) as H; by rewrite E in H)) as Ha.
    destruct a as [i|i|e|e]; [by eapply inv_user_mutex|by eapply inv_user_mutex|..]; destruct Ha as (-> & -> & b & ->); cbn in Hx.
    + destruct (sems s (UserSem c)) eqn:Hk; [done|]. injection Hx as <-. by apply inv_user_woken.
    + injection Hx as <-. by apply inv_user_answers.
  - by eapply inv_net_begins.
  - pose proof (net_running_acts p a l ltac:(pose proof (iv_net _ Hi) as H; by rewrite E in H)) as Ha.
    destruct a as [i|i|e|e]; [by eapply inv_net_mutex|by eapply inv_net_mutex|..]; destruct Ha as (c & Hc & -> & -> & ->); cbn in Hx.
    + destruct (sems s (NetSem c)) eqn:Hk; [done|]. injection Hx as <-. by apply inv_net_waited.
    + injection Hx as <-. by apply inv_net_posts.
Qed.
Lemma inv_reachable s : reachable m_core_offset n nested s → inv s.
Proof using Hoff Hn.
  intros H. eapply (rtc_ind_r inv); [apply inv_start| |exact H]. intros s1 s2 _ [new Hs] Hi. by eapply inv_step.
Qed.

(** *** Mutual exclusion *)

(** A thread works in its own first-level cache, or in the whole stack of caches. *)
Definition in_cache (t : thread) : Prop := pc t = InCache ∧ todo t = [].
Definition in_stack (t : thread) : Prop :=
  (∃ b, pc t = InStack b ∨ pc t = Woken b) ∧ (todo t = [] ∨ ∃ c, todo t = [Post (NetSem c)]) ∨ again (pc t).

Lemma claims_in_stack c t i : in_stack t → claim c t i.
Proof using Type.
  destruct t as [p l]. intros [[[b Hp] [Hl|[d Hl]]]|Hp]; cbn in *; [subst l..|by right; right].
  - apply claim_nil. by destruct Hp as [-> | ->].
  - apply claim_other; cbn; auto. apply claim_nil. by destruct Hp as [-> | ->].
Qed.
Lemma claims_in_cache c t : in_cache t → claim c t c.
Proof using Type. destruct t as [p l]. intros [Hp Hl]. cbn in *. subst. by apply claim_nil. Qed.

(** [C14] Whatever the threads do and however their steps interleave: while a core works in
    the stack of caches below its first-level cache, no other core does, no other core works
    in its own first-level cache (of the sets of this lock), and the network thread does not
    work in the stack; while the network thread works in the stack, no core works in either.
    The hand-over, where one thread releases the mutexes that another one took, and the lock
    that [writeCacheBlock] takes inside the stack if a cache below the first level writes
    through ([nested]) are included.  Core ids are of 32 bits. *)
Theorem mutual_exclusion s : reachable m_core_offset n nested s →
  (∀ c d, (c < n)%nat → (d < n)%nat → c ≠ d → in_stack (users s c) → ¬ in_stack (users s d) ∧ ¬ in_cache (users s d) ∧ ¬ in_stack (net s)) ∧
  (∀ d, (d < n)%nat → in_stack (net s) → ¬ in_stack (users s d) ∧ ¬ in_cache (users s d)).
Proof using Hoff Hn.
  intros Hr. pose proof (ow_unique _ _ _ (iv_owned _ (inv_reachable s Hr))) as Hu. cbn in Hu.
  assert (∀ c t i, in_stack t → claim c t i) as Hst by apply claims_in_stack.
  assert (∀ d, (d < n)%nat → in_stack (users s d) ∨ in_cache (users s d) → claims s (U d) d) as Hcl.
  { intros d Hd [H|H]; split; auto using claims_in_cache. }
  split.
  - intros c d Hc Hd Hcd Hin. assert (∀ i, claims s (U c) i) as Hci by (intros i; split; auto).
    split_and!; intros H; [..|by discriminate (Hu d (U c) N Hd (Hci d) (Hst 0%nat _ d H))];
      (assert (U c = U d) as [= ?] by (apply (Hu d); auto)); done.
  - intros d Hd Hin. split; intros H; (assert (N = U d) by (apply (Hu d); [done|by apply Hst|auto])); done.
Qed.

(** *** No deadlock *)

(** No cache below the first level writes through. *)
Context (Hnest : nested = false).

(** A thread that waits for a mutex waits for one that comes after those that it has. *)
Lemma running_blocked c p i l j : (j < n)%nat → running c p (Acq i :: l) → claim c (mk_thread p (Acq i :: l)) j → (j < i)%nat.
Proof using Hnest.
  intros Hj H. inversion H as [| | | |b k Hk Ep E|k Hk Ep E|k Hk Ep E|b k Ep E| |]; try congruence; subst.
  - unfold claim. cbn. rewrite Exists_cons, Forall_cons, Exists_nil. cbn. lia.
  - destruct (acqs_cases k) as [E'|[_ E']]; rewrite E' in E; inversion E; subst.
    autorewrite with claim. cbn. lia.
  - destruct (rels_cases k) as [[E' _]|[_ E']]; by rewrite E' in E.
  - destruct (down_cases c k) as [E'|(? & _ & _ & E')]; by rewrite E' in E.
  - destruct (rels_cases k) as [[E' _]|[_ E']]; by rewrite E' in E.
Qed.
Lemma net_running_blocked p i l j : (j < n)%nat → net_running p (Acq i :: l) → claim 0 (mk_thread p (Acq i :: l)) j → (j < i)%nat.
Proof using Hnest.
  intros Hj H. inversion H as [|k Hk Ep E|k Hk Ep E| | |]; try congruence; subst.
  - destruct (acqs_cases k) as [E'|[_ E']]; rewrite E' in E; inversion E; subst. autorewrite with claim. cbn. lia.
  - destruct (rels_cases k) as [[E' _]|[_ E']]; by rewrite E' in E.
Qed.

(** No thread can go on with what it does. *)
Definition stuck s : Prop := ∀ s', ¬ step m_core_offset n nested false s s'.

Lemma stuck_perform s a : stuck s → (∃ c l p, (c < n)%nat ∧ users s c = mk_thread p (a :: l)) ∨ (∃ l p, net s = mk_thread p (a :: l)) →
  perform a (m_locks s) (sems s) = None.
Proof using Hnest.
  intros Hst Ht. destruct (perform a (m_locks s) (sems s)) as [x|] eqn:Hx; [|done]. exfalso.
  destruct Ht as [(c & l & p & Hc & E)|(l & p & E)]; eapply Hst; [by eapply user_acts|by eapply net_acts].
Qed.
Lemma stuck_user s c : inv s → stuck s → (c < n)%nat →
  (users s c = mk_thread Outside [] ∨ waits s c ∧ sems s (UserSem c) = O) ∨
  ∃ p i l, users s c = mk_thread p (Acq i :: l) ∧ (i < n)%nat ∧ m_locks s !! i = Some true.
Proof using Hoff Hn Hnest.
  intros Hi Hst Hc. destruct (users s c) as [p l] eqn:E. pose proof (iv_users _ Hi c Hc) as Hr. rewrite E in Hr. cbn in Hr.
  destruct l as [|a l].
  - left. left. destruct p; try done; exfalso.
    + eapply (Hst _ (user_begins _ _ _ s c _ _ _ Hc E (end_access _ _ _ _))).
    + destruct locked; [eapply (Hst _ (user_begins _ _ _ s c _ _ _ Hc E (end_miss _ _ _ _)))|eapply (Hst _ (user_begins _ _ _ s c _ _ _ Hc E (end_stack _ _ _ _)))].
    + by apply running_ready in Hr.
    + eapply (Hst _ (user_begins _ _ _ s c _ _ _ Hc E (woken _ _ _ _ _))).
    + by apply running_ready in Hr.
  - pose proof (stuck_perform s a Hst ltac:(left; eauto 6)) as Hx. pose proof (running_sem c p a l Hr) as Hsem.
    destruct a as [i|i|e|e]; cbn in Hx; try done.
    + right. exists p, i, l. split; [done|]. destruct (running_acq c p i l Hc Hr) as (Hi' & _).
      split; [done|]. destruct (m_locks s !! i) as [[]|] eqn:El; try done. apply lookup_ge_None in El. rewrite (ow_length _ _ _ (iv_owned _ Hi)) in El. lia.
    + left. right. destruct Hsem as (-> & -> & b & ->). split; [by exists b|]. by destruct (sems s (UserSem c)).
Qed.
Lemma net_running_nil p : net_running p [] → p = Outside ∨ p = InStack false ∨ ∃ c, (c < n)%nat ∧ p = Passed c.
Proof using Hnest. intros H. inversion H as [p' Hp|k Hk Ep E|k Hk Ep E| | |]; [done|by rewrite acqs_cons in E|by rewrite rels_cons in E|congruence]. Qed.
Lemma stuck_net s : inv s → stuck s →
  net s = mk_thread Outside [] ∨ ∃ p i l, net s = mk_thread p (Acq i :: l) ∧ (i < n)%nat ∧ m_locks s !! i = Some true.
Proof using Hoff Hn Hnest.
  intros Hi Hst. destruct (net s) as [p l] eqn:E. pose proof (iv_net _ Hi) as Hr. rewrite E in Hr. cbn in Hr.
  destruct l as [|a l].
  - left. destruct (net_running_nil p Hr) as [->|[->|(c & Hc & ->)]]; [done|exfalso..].
    + eapply (Hst _ (net_starts _ _ _ s _ _ _ E (net_done _ _ _))).
    + eapply (Hst _ (net_starts _ _ _ s _ _ _ E (net_again _ _ _ _))).
  - pose proof (stuck_perform s a Hst ltac:(right; eauto)) as Hx. pose proof (net_running_acts p a l Hr) as Ha.
    destruct a as [i|i|e|e]; cbn in Hx; try done.
    + right. exists p, i, l. split; [done|]. destruct Ha as (Hi' & _).
      split; [done|]. destruct (m_locks s !! i) as [[]|] eqn:El; try done. apply lookup_ge_None in El. rewrite (ow_length _ _ _ (iv_owned _ Hi)) in El. lia.
    + exfalso. destruct Ha as (c & Hc & -> & -> & ->). destruct (iv_waiting _ Hi c Hc E) as [Hz|Ha]; [by destruct (sems s (NetSem c)); [lia|]|].
      destruct (stuck_user s c Hi Hst Hc) as [[E'|[[b E'] Hz]]|(p & i & l & E' & _)]; destruct Ha as [Ha|(b' & Ha)]; try (rewrite E' in Ha; by destruct Ha);
        try lia; destruct (iv_passed _ Hi c Hc Ha) as [b'' Hb]; congruence.
Qed.

Lemma stuck_free s i : inv s → stuck s → (i < n)%nat → m_locks s !! i = Some false.
Proof using Hoff Hn Hnest.
  intros Hi Hst. remember (n - i)%nat as k eqn:Hk. revert i Hk. induction (lt_wf k) as [k _ IH]. intros i -> Hin.
  destruct (m_locks s !! i) as [[]|] eqn:El; [exfalso|done|apply lookup_ge_None in El; rewrite (ow_length _ _ _ (iv_owned _ Hi)) in El; lia].
  assert (∀ j, (i < j)%nat → (j < n)%nat → m_locks s !! j = Some true → False) as Hnext.
  { intros j Hj Hjn Hlj. rewrite (IH (n - j)%nat ltac:(lia) j eq_refl Hjn) in Hlj. done. }
  apply (ow_locked _ _ _ (iv_owned _ Hi)) in El as [[c| |c] Hw]; [| |destruct Hw as [Hc Hpos]|done].
  - destruct Hw as [Hc Hw]. destruct (stuck_user s c Hi Hst Hc) as [[E|[[b E] _]]|(p & j & l & E & Hj & Hlj)]; rewrite E in Hw.
    + by apply claim_nil in Hw.
    + by apply claim_wait in Hw.
    + apply (Hnext j); [|done..]. eapply running_blocked; [done| |exact Hw]. pose proof (iv_users _ Hi c Hc) as Hr. by rewrite E in Hr.
  - cbn in Hw. destruct (stuck_net s Hi Hst) as [E|(p & j & l & E & Hj & Hlj)]; rewrite E in Hw.
    + by apply claim_nil in Hw.
    + apply (Hnext j); [|done..]. eapply net_running_blocked; [done| |exact Hw]. pose proof (iv_net _ Hi) as Hr. by rewrite E in Hr.
  - destruct (iv_passed _ Hi c Hc Hpos) as [b Hb].
    destruct (stuck_user s c Hi Hst Hc) as [[E|[_ Hz]]|(p & j & l & E & _)]; [congruence|lia|congruence].
Qed.

(** [C15] There is no deadlock, unless a cache below the first level writes through ([nested];
    [LockExample.nested_deadlock] is that case): in every state that threads can reach, if no
    thread can go on without a new access or a new message, then no core is inside an operation
    on the lock but those that wait for a line that the network thread has not delivered yet;
    the network thread is ready for the next message, and every mutex is free. *)
Theorem deadlock_free s : reachable m_core_offset n nested s → stuck s →
  net s = mk_thread Outside [] ∧ m_locks s = replicate n false ∧
  ∀ c, (c < n)%nat → users s c = mk_thread Outside [] ∨ waits s c ∧ sems s (UserSem c) = O.
Proof using Hoff Hn Hnest.
  intros Hr Hst. pose proof (inv_reachable s Hr) as Hi. pose proof (ow_length _ _ _ (iv_owned _ Hi)) as Hlen.
  pose proof (λ i, stuck_free s i Hi Hst) as Hfree. split_and!.
  - destruct (stuck_net s Hi Hst) as [|(p & i & l & _ & Hin & Hl)]; [done|]. by rewrite Hfree in Hl.
  - apply list_eq. intros i. destruct (decide (i < n)%nat).
    + by rewrite Hfree, lookup_replicate_2.
    + by rewrite !(proj2 (lookup_ge_None _ _)) by (rewrite ?length_replicate; lia).
  - intros c Hc. destruct (stuck_user s c Hi Hst Hc) as [|(p & i & l & _ & Hin & Hl)]; [done|]. by rewrite Hfree in Hl.
Qed.
End invariant.

(** ** Runs of threads, executed *)

Inductive move := UserBegins (c : nat) (p : point) | UserActs (c : nat) | NetBegins (p : point) | NetActs.

Section exec.
Context (m_core_offset : Z) (n : nat) (nested : bool).

Definition user_actions (c : nat) (p p' : point) : option (list act) :=
  match p, p' with
  | Outside, InCache => Some (acquireLock m_core_offset n c)
  | Outside, InStack false => Some (acquireStackLock m_core_offset n c false)
  | InCache, Outside => Some (releaseLock m_core_offset n c)
  | InCache, InStack true => Some (acquireStackLock m_core_offset n c true)
  | InStack true, InCache => Some (releaseStackLock m_core_offset n c true)
  | InStack false, Outside => Some (releaseStackLock m_core_offset n c false)
  | InStack b, Woken b' => if Bool.eqb b b' then Some (releaseStackLock m_core_offset n c false ++ [Wait (UserSem c)]) else None
  | Woken b, InStack b' => if Bool.eqb b b' then Some [Post (NetSem c)] else None
  | InStack b, Nested b' => if nested && Bool.eqb b b' then Some (acquireStackLock m_core_offset n c (snd nested_call)) else None
  | Nested b, InStack b' => if nested && Bool.eqb b b' then Some (releaseStackLock m_core_offset n c (snd nested_call)) else None
  | _, _ => None
  end.
Definition net_actions (s : state) (p p' : point) : option (list act) :=
  match p, p' with
  | Outside, InStack false => Some (SetLock.acquire_exclusive n)
  | InStack false, Outside => Some (SetLock.release_exclusive n)
  | InStack false, Passed c =>
      match users s c with
      | mk_thread (Woken _) [Wait m] =>
          if (c <? n)%nat && bool_decide (m = UserSem c) && (sems s (UserSem c) =? 0)%nat then Some [Post (UserSem c); Wait (NetSem c)] else None
      | _ => None
      end
  | Passed _, InStack false => Some (SetLock.acquire_exclusive n)
  | InStack false, Nested false => if nested then Some (SetLock.acquire_exclusive n) else None
  | Nested false, InStack false => if nested then Some (SetLock.release_exclusive n) else None
  | _, _ => None
  end.
Definition exec1 (m : move) (s : state) : option state :=
  match m with
  | UserBegins c p' =>
      guard (c < n)%nat;; guard (todo (users s c) = []);;
      l ← user_actions c (pc (users s c)) p'; Some (put_user c (mk_thread p' l) s)
  | UserActs c =>
      guard (c < n)%nat;;
      a ← head (todo (users s c)); x ← perform a (m_locks s) (sems s);
      Some (put_user c (mk_thread (pc (users s c)) (tail (todo (users s c)))) (put_shared x s))
  | NetBegins p' =>
      guard (todo (net s) = []);;
      l ← net_actions s (pc (net s)) p'; Some (put_net (mk_thread p' l) s)
  | NetActs =>
      a ← head (todo (net s)); x ← perform a (m_locks s) (sems s);
      Some (put_net (mk_thread (pc (net s)) (tail (todo (net s)))) (put_shared x s))
  end.
Definition exec (ms : list move) (s : state) : option state := foldl (λ o m, o ≫= exec1 m) (Some s) ms.

Lemma user_actions_begins c p p' l : user_actions c p p' = Some l → begins m_core_offset n nested c p p' l.
Proof using Type. 
  unfold user_actions. intros H. repeat case_match; simplify_eq; repeat match goal with E : _ && _ = true |- _ => apply andb_true_iff in E as [??] end;
    try match goal with E : Bool.eqb _ _ = true |- _ => apply Bool.eqb_prop in E; subst end; by constructor.
Qed.
Lemma net_actions_begins s p p' l : net_actions s p p' = Some l → net_begins n nested s p p' l.
Proof using Type.
  unfold net_actions. intros H. repeat case_match; simplify_eq; try by constructor.
  repeat match goal with E : _ && _ = true |- _ => apply andb_true_iff in E as [??] end.
  match goal with E : bool_decide _ = true |- _ => apply bool_decide_eq_true in E; subst end.
  eapply net_wake; [by apply Nat.ltb_lt|done|by apply Nat.eqb_eq].
Qed.
Lemma exec1_step m s s' : exec1 m s = Some s' → ∃ new, step m_core_offset n nested new s s'.
Proof using Type.
  destruct m as [c p|c|p|]; cbn; intros H; simplify_option_eq.
  - eexists. eapply user_begins; [done| |by apply user_actions_begins]. destruct (users s c) as [q l]. by cbn in *; subst.
  - destruct (users s c) as [q [|a' l]] eqn:E; simplify_eq/=. eexists. by eapply user_acts.
  - eexists. eapply net_starts; [|by apply net_actions_begins]. destruct (net s) as [q l]. by cbn in *; subst.
  - destruct (net s) as [q [|a' l]] eqn:E; simplify_eq/=. eexists. by eapply net_acts.
Qed.
Lemma exec_reachable ms s : exec ms (start n) = Some s → reachable m_core_offset n nested s.
Proof using Type.
  revert s. induction ms as [|m ms IH] using rev_ind; intros s; unfold exec; rewrite ?foldl_snoc; cbn; intros H; simplify_option_eq.
  - apply rtc_refl.
  - eapply rtc_r; [by apply IH|]. by eapply exec1_step.
Qed.
End exec.

Module LockExample.
(** Two cores.  Core 0 misses in all its caches and waits for the line; core 1 makes an
    access of its first-level cache meanwhile. *)
Definition miss : list move :=
  [UserBegins 0 InCache; UserActs 0; UserBegins 1 InCache; UserActs 1; UserBegins 0 (InStack true); UserActs 0; UserActs 0;
   UserBegins 1 Outside; UserActs 1; UserActs 0; UserBegins 0 (Woken true); UserActs 0; UserActs 0].
(** The network thread delivers the line, core 0 goes on in the stack. *)
Definition delivery : list move :=
  [NetBegins (InStack false); NetActs; NetActs; NetBegins (Passed 0); NetActs; UserActs 0].
Definition after (ms : list move) : state := default (start 2) (exec 0 2 false ms (start 2)).

Lemma after_reachable ms : match exec 0 2 false ms (start 2) with Some _ => true | None => false end = true → reachable 0 2 false (after ms).
Proof. unfold after. destruct (exec 0 2 false ms (start 2)) as [s|] eqn:E; [|done]. intros _. by eapply exec_reachable. Qed.

Lemma mutual_exclusion_witness :
  reachable 0 2 false (after (miss ++ delivery)) ∧ in_stack (users (after (miss ++ delivery)) 0) ∧
  ¬ in_stack (users (after (miss ++ delivery)) 1) ∧ ¬ in_cache (users (after (miss ++ delivery)) 1) ∧ ¬ in_stack (net (after (miss ++ delivery))).
Proof.
  assert (reachable 0 2 false (after (miss ++ delivery))) as Hr by (apply after_reachable; vm_compute; reflexivity).
  assert (in_stack (users (after (miss ++ delivery)) 0)) as Hin by (left; split; [exists true; right; reflexivity|left; reflexivity]).
  split; [done|]. split; [done|].
  destruct (mutual_exclusion 0 2 false ltac:(lia) ltac:(lia) _ Hr) as [H _]. apply (H 0%nat 1%nat); [lia|lia|done|exact Hin].
Defined.

Lemma stuck_after_miss : stuck 0 2 false (after miss).
Proof.
  assert (users (after miss) 0 = mk_thread (Woken true) [Wait (UserSem 0)]) as E0 by reflexivity.
  assert (users (after miss) 1 = mk_thread Outside []) as E1 by reflexivity.
  assert (net (after miss) = mk_thread Outside []) as En by reflexivity.
  assert (∀ c, (c < 2)%nat → c = 0%nat ∨ c = 1%nat) as H2 by lia.
  enough (∀ new s', step 0 2 false new (after miss) s' → new = true) as Hn by (intros s' H; by apply Hn in H).
  intros new s' H. remember (after miss) as s eqn:Es.
  destruct H as [s c p p' l Hc E Hb|s c p a l x Hc E Hx|s p p' l E Hb|s p a l x E Hx].
  - destruct (H2 c Hc) as [-> | ->]; rewrite E in *; by simplify_eq.
  - destruct (H2 c Hc) as [-> | ->]; rewrite E in *; by simplify_eq.
  - rewrite E in En. by simplify_eq.
  - rewrite E in En. by simplify_eq.
Qed.
Lemma deadlock_free_witness :
  reachable 0 2 false (after miss) ∧ stuck 0 2 false (after miss) ∧ net (after miss) = mk_thread Outside [] ∧ m_locks (after miss) = [false; false].
Proof.
  assert (reachable 0 2 false (after miss)) as Hr by (apply after_reachable; vm_compute; reflexivity).
  pose proof stuck_after_miss as Hst. split; [done|]. split; [done|].
  destruct (deadlock_free 0 2 false ltac:(lia) ltac:(lia) eq_refl _ Hr Hst) as (Hnet & Hlocks & _). split; [exact Hnet|exact Hlocks].
Defined.

(** One core, with a cache below the first level that writes through.  It writes in the stack
    under the lock of address 1, the first one ([nested_lock]): it waits for the mutex that it
    has itself, and nothing ends that.  What can still happen is that the network thread takes
    a message and waits for the same mutex; so does any thread that writes under another lock. *)
Definition write_through : list move := [UserBegins 0 (InStack false); UserActs 0; UserBegins 0 (Nested false)].
Lemma nested_deadlock : ∃ s, exec 0 1 true write_through (start 1) = Some s ∧ reachable 0 1 true s ∧ stuck 0 1 true s ∧
  m_locks s = [true] ∧ in_stack (users s 0) ∧ ∀ new s', step 0 1 true new s s' → new = true ∧ s' = put_net (mk_thread (InStack false) [Acq 0]) s.
Proof.
  eexists. split; [reflexivity|]. split; [eapply exec_reachable with (ms := write_through); reflexivity|].
  match goal with |- stuck _ _ _ ?t ∧ _ => assert (∀ new s', step 0 1 true new t s' → new = true ∧ s' = put_net (mk_thread (InStack false) [Acq 0]) t) as H end.
  { intros new s' H. remember (start 1) as s0 eqn:E0. inversion H as [? c p p' l Hc E Hb|? c p a l x Hc E Hx|? p p' l E Hb|? p a l x E Hx]; subst.
    - replace c with 0%nat in E by lia. by cbn in E.
    - replace c with 0%nat in E by lia. cbn in E. injection E as <- <- <-. by cbn in Hx.
    - cbn in E. injection E as <-. by inversion Hb; subst.
    - by cbn in E. }
  split; [intros s' Hs; by apply H in Hs as [? _]|]. split; [reflexivity|]. split; [by right|exact H].
Qed.
End LockExample.
