(* ===== verification/BarrierSync.v ===== *)
(** The barrier that keeps the clocks of the simulated cores together:
    [system/barrier_sync_server.{h,cc}] and [system/barrier_sync_client.{h,cc}].

    A core that reaches the next barrier time enters the barrier and sleeps.  When all running
    cores are there, the periodic hooks are called - [HOOK_PERIODIC], on which schedulers,
    timeouts and sampling rely -, the barrier time advances, and the cores that are behind it
    are woken up, a few at a time.

    The server is code that runs under the lock of the thread manager, so a call is one step.
    What it asks of cores, threads and hooks is the interface [Environment]; what the callbacks
    of a hook do to the barrier is a list of calls. *)
From stdpp Require Import functions.
From S2P Require Import Prelude Timing StateResult.

(** What a callback of [HOOK_PERIODIC] calls: the migration of a thread by a scheduler, and
    the operations that sampling, fast-forwarding and scripts use. *)
Inductive callback :=
  | Migrate (thread_id : Z)
  | SetFastForward (fastforward : bool) (next_barrier_time : Z)
  | SetDisable (disable : bool)
  | Abort.

(** The cores ([Core::getState], [Core::getThread]), the threads ([ThreadManager]), the timeouts
    ([SyscallServer::getNextTimeout]) and the hooks. *)
Class Environment (E : Type) := {
  is_running : E → nat → bool;            (* getState() == RUNNING *)
  is_initializing : E → nat → bool;
  thread_of : E → nat → option Z;         (* getThread()->getId() *)
  isThreadRunning : E → Z → bool;
  anyThreadRunning : E → bool;
  getNextTimeout : E → Z → Z;
  periodic : Z → E → list callback * E;
}.

Module BarrierSyncServer.
(** The vectors are indexed by cores. *)
Record t := mk {
  m_barrier_interval : Z;                (* SubsecondTime *)
  m_next_barrier_time : Z;
  m_local_clock_list : nat → Z;
  m_barrier_acquire_list : nat → bool;
  m_to_release : list nat;
  m_core_group : nat → option nat;       (* None: INVALID_CORE_ID *)
  m_core_thread : nat → Z;
  m_global_time : Z;
  m_fastforward : bool;
  m_disable : bool;
}.

Definition new (barrier_interval : Z) : t :=
  mk barrier_interval barrier_interval (λ _, 0) (λ _, false) [] (λ _, None) (λ _, -1) 0 false false.

Definition set_next (x : Z) (b : t) : t :=
  mk (m_barrier_interval b) x (m_local_clock_list b) (m_barrier_acquire_list b) (m_to_release b) (m_core_group b) (m_core_thread b)
    (m_global_time b) (m_fastforward b) (m_disable b).
Definition set_clock (c : nat) (x : Z) (b : t) : t :=
  mk (m_barrier_interval b) (m_next_barrier_time b) (<[c := x]> (m_local_clock_list b)) (m_barrier_acquire_list b) (m_to_release b)
    (m_core_group b) (m_core_thread b) (m_global_time b) (m_fastforward b) (m_disable b).
Definition set_acquire (c : nat) (x : bool) (b : t) : t :=
  mk (m_barrier_interval b) (m_next_barrier_time b) (m_local_clock_list b) (<[c := x]> (m_barrier_acquire_list b)) (m_to_release b)
    (m_core_group b) (m_core_thread b) (m_global_time b) (m_fastforward b) (m_disable b).
Definition set_to_release (l : list nat) (b : t) : t :=
  mk (m_barrier_interval b) (m_next_barrier_time b) (m_local_clock_list b) (m_barrier_acquire_list b) l
    (m_core_group b) (m_core_thread b) (m_global_time b) (m_fastforward b) (m_disable b).
Definition set_group (c : nat) (x : option nat) (b : t) : t :=
  mk (m_barrier_interval b) (m_next_barrier_time b) (m_local_clock_list b) (m_barrier_acquire_list b) (m_to_release b)
    (<[c := x]> (m_core_group b)) (m_core_thread b) (m_global_time b) (m_fastforward b) (m_disable b).
Definition set_thread (c : nat) (x : Z) (b : t) : t :=
  mk (m_barrier_interval b) (m_next_barrier_time b) (m_local_clock_list b) (m_barrier_acquire_list b) (m_to_release b)
    (m_core_group b) (<[c := x]> (m_core_thread b)) (m_global_time b) (m_fastforward b) (m_disable b).
Definition set_global (x : Z) (b : t) : t :=
  mk (m_barrier_interval b) (m_next_barrier_time b) (m_local_clock_list b) (m_barrier_acquire_list b) (m_to_release b)
    (m_core_group b) (m_core_thread b) x (m_fastforward b) (m_disable b).
Definition set_modes (fastforward disable : bool) (b : t) : t :=
  mk (m_barrier_interval b) (m_next_barrier_time b) (m_local_clock_list b) (m_barrier_acquire_list b) (m_to_release b)
    (m_core_group b) (m_core_thread b) (m_global_time b) fastforward disable.
Definition setBarrierInterval (x : Z) (b : t) : t :=
  mk x (m_next_barrier_time b) (m_local_clock_list b) (m_barrier_acquire_list b) (m_to_release b)
    (m_core_group b) (m_core_thread b) (m_global_time b) (m_fastforward b) (m_disable b).
Definition getGlobalTime (b : t) (upper_bound : bool) : Z := if upper_bound then m_next_barrier_time b else m_global_time b.
End BarrierSyncServer.
Import BarrierSyncServer.

(** What happens outside: a condition variable is signalled, a performance model is told that its
    core enters or leaves the barrier, the hooks are called.  The last is logged with the
    barrier, and the environment in which [barrierRelease] was called. *)
Inductive event (E : Type) :=
  | Signal (core_id : nat)
  | BarrierEnter (core_id : nat)
  | BarrierExit (core_id : nat)
  | Periodic (time : Z) (b : t) (e : E).
Arguments Signal {E}. Arguments BarrierEnter {E}. Arguments BarrierExit {E}. Arguments Periodic {E}.

(** The server, its environment, the cores on whose condition variable a thread sleeps, and
    what has happened. *)
Record state (E : Type) := mk_state { bar : t; env : E; asleep : nat → bool; events : list (event E) }.
Arguments mk_state {E}. Arguments bar {E}. Arguments env {E}. Arguments asleep {E}. Arguments events {E}.

(** How [synchronize] leaves: back to the caller, or asleep on the condition of a core. *)
Inductive outcome := Returns | Sleeps (core_id : nat).

Section server.
Context {E : Type} `{Environment E}.
(** The application cores, [getNumHostCores], [std::random_shuffle]. *)
Context (n : nat) (num_host_cores : Z) (shuffle : list nat → list nat).
Abbreviation st := (state E).
Implicit Types (s : st) (b : t) (c : nat).

Definition upd (f : t → t) s : st := mk_state (f (bar s)) (env s) (asleep s) (events s).
Definition tell (e : event E) s : st := mk_state (bar s) (env s) (asleep s) (events s ++ [e]).
(** [m_core_cond[core_id]->signal()] and [->wait()]. *)
Definition signal_cond c s : st := mk_state (bar s) (env s) (<[c := false]> (asleep s)) (events s ++ [Signal c]).
Definition wait_cond c s : st := mk_state (bar s) (env s) (<[c := true]> (asleep s)) (events s).

(** [doRelease]: the cores are taken from the back of the list [r] reversed. *)
Fixpoint doRelease_loop (r : list nat) (k : Z) s : st :=
  match r with
  | [] => s
  | core_id :: r =>
      if k =? 0 then s
      else doRelease_loop r (k - 1) (signal_cond core_id (upd (set_to_release (rev r)) s))
  end.
Definition doRelease (k : Z) s : st := doRelease_loop (rev (m_to_release (bar s))) k s.

Definition core_itself_running (e : E) c : result bool :=
  if is_running e c then
    match thread_of e c with
    | None => Err AssertFail
    | Some thread_id => Ok (isThreadRunning e thread_id)
    end
  else Ok false.
Fixpoint any_sibling_running (e : E) b c (l : list nat) : result bool :=
  match l with
  | [] => Ok false
  | sibling_core_id :: l =>
      if bool_decide (m_core_group b sibling_core_id = Some c) then
        let! r := core_itself_running e sibling_core_id in
        if r then Ok true else any_sibling_running e b c l
      else any_sibling_running e b c l
  end.
Definition isCoreRunning (e : E) b c : result bool :=
  let! r := core_itself_running e c in
  if r then Ok true
  else if negb (m_fastforward b) then any_sibling_running e b c (seq 0 n) else Ok false.

Fixpoint reached_loop (e : E) b (l : list nat) (single_core_barrier_reached : bool) : result bool :=
  match l with
  | [] => Ok single_core_barrier_reached
  | core_id :: l =>
      if m_fastforward b then
        if m_barrier_acquire_list b core_id then reached_loop e b l true
        else
          let! r := isCoreRunning e b core_id in
          if r then Ok false else reached_loop e b l single_core_barrier_reached
      else if bool_decide (m_core_group b core_id ≠ None) then reached_loop e b l single_core_barrier_reached
      else
        let! r := isCoreRunning e b core_id in
        if r then
          if m_local_clock_list b core_id <? m_next_barrier_time b then Ok false else reached_loop e b l true
        else reached_loop e b l single_core_barrier_reached
  end.
Definition isBarrierReached (e : E) b : result bool := reached_loop e b (seq 0 n) false.

(** [abortBarrier] and [setDisable]. *)
Definition abortBarrier s : st :=
  foldl (λ s core_id,
    if m_barrier_acquire_list (bar s) core_id then
      signal_cond core_id (tell (BarrierExit core_id) (upd (set_acquire core_id false) s))
    else s) s (seq 0 n).
Definition setDisable (disable : bool) s : st :=
  let s := upd (λ b, set_modes (m_fastforward b) disable b) s in
  if disable then abortBarrier s else s.
Definition setFastForward (fastforward : bool) (next_barrier_time : Z) s : st :=
  let s := upd (λ b, set_modes fastforward (m_disable b) b) s in
  if bool_decide (next_barrier_time ≠ SubsecondTime.MaxTime) then
    upd (λ b, set_next (Z.max (m_next_barrier_time b) next_barrier_time) b) s
  else s.
Definition setGroup c (master_core_id : option nat) : M st unit :=
  b ← gets bar;
  when (bool_decide (master_core_id ≠ None)) (assert_ (negb (m_barrier_acquire_list b c)));;
  modify (upd (set_group c master_core_id)).

Definition releaseThread (thread_id : Z) s : st :=
  let s := foldl (λ s core_id,
    if m_barrier_acquire_list (bar s) core_id && (m_core_thread (bar s) core_id =? thread_id) then upd (set_clock core_id 0) s
    else s) s (seq 0 n) in
  doRelease 1 s.
Definition threadMigrate (thread_id : Z) s : st := releaseThread thread_id s.

Definition call_back (k : callback) s : st :=
  match k with
  | Migrate thread_id => threadMigrate thread_id s
  | SetFastForward fastforward next => setFastForward fastforward next s
  | SetDisable disable => setDisable disable s
  | Abort => abortBarrier s
  end.
(** [callHooks(HOOK_PERIODIC, time)]; [e0] is for the log only. *)
Definition call_periodic (e0 : E) (time : Z) s : st :=
  let '(calls, e) := periodic time (env s) in
  foldl (λ s k, call_back k s) (mk_state (bar s) e (asleep s) (events s ++ [Periodic time (bar s) e0])) calls.

(** The [for] loop of [barrierRelease]: the cores that are behind the barrier time leave it. *)
Definition resume (caller_id : Z) (x : bool * bool * st) (core_id : nat) : bool * bool * st :=
  let '(core_resumed, must_wait, s) := x in
  if (m_local_clock_list (bar s) core_id <? m_next_barrier_time (bar s)) && m_barrier_acquire_list (bar s) core_id then
    let s := upd (set_acquire core_id false) s in
    if m_core_thread (bar s) core_id =? caller_id then (true, false, s)
    else (true, must_wait, upd (λ b, set_to_release (m_to_release b ++ [core_id]) b) (tell (BarrierExit core_id) s))
  else x.

(** Its [while] loop: [Some r] is an early [return r]. *)
Fixpoint release_loop (e0 : E) (fuel : nat) (caller_id : Z) (continue_until_release must_wait : bool) : M st (option bool * bool) :=
  match fuel with
  | O => fail NoFuel
  | S fuel =>
      modify (λ s, upd (set_global (m_next_barrier_time (bar s))) s);;
      modify (λ s, call_periodic e0 (m_next_barrier_time (bar s)) s);;
      s ← gets (λ s : st, s);
      if continue_until_release && anyThreadRunning (env s) then mret (Some false, must_wait)
      else
        when continue_until_release (assert_ (getNextTimeout (env s) (m_global_time (bar s)) <? SubsecondTime.MaxTime));;
        if m_disable (bar s) then mret (Some false, must_wait)
        else
          modify (upd (λ b, set_next (SubsecondTime.add (m_next_barrier_time b) (m_barrier_interval b)) b));;
          s ← gets (λ s : st, s);
          let '(core_resumed, must_wait, s) := foldl (resume caller_id) (false, must_wait, s) (seq 0 n) in
          modify (λ _, s);;
          if core_resumed then mret (None, must_wait) else release_loop e0 fuel caller_id continue_until_release must_wait
  end.

Definition barrierRelease (fuel : nat) (caller_id : Z) (continue_until_release : bool) : M st bool :=
  s ← gets (λ s : st, s);
  assert_ (bool_decide (m_to_release (bar s) = []));;
  when (m_fastforward (bar s))
    (modify (upd (λ b, foldl (λ b core_id, if m_next_barrier_time b <? m_local_clock_list b core_id
                                           then set_next (m_local_clock_list b core_id) b else b) b (seq 0 n))));;
  r ← release_loop (env s) fuel caller_id continue_until_release true;
  match r with
  | (Some r, _) => mret r
  | (None, must_wait) =>
      modify (upd (λ b, set_to_release (shuffle (m_to_release b)) b));;
      modify (λ s, doRelease (if m_fastforward (bar s) then -1 else num_host_cores) s);;
      mret must_wait
  end.

Definition INVALID_THREAD_ID : Z := -1.
Definition advance (fuel : nat) : M st unit := barrierRelease fuel INVALID_THREAD_ID true;; mret tt.
Definition signal (fuel : nat) : M st unit :=
  s ← gets (λ s : st, s);
  if m_disable (bar s) then mret tt
  else
    r ← lift (isBarrierReached (env s) (bar s));
    when r (barrierRelease fuel INVALID_THREAD_ID false;; mret tt).
Definition threadExit (fuel : nat) (thread_id : Z) : M st unit := modify (releaseThread thread_id);; signal fuel.
Definition threadStall (fuel : nat) (thread_id : Z) : M st unit := modify (releaseThread thread_id);; signal fuel.

Definition release_if (reached : bool) (fuel : nat) (caller_id : Z) : M st bool :=
  if reached then barrierRelease fuel caller_id false else mret true.
Definition leave (mustWait : bool) (master_core_id master_core : nat) : M st outcome :=
  if mustWait then modify (wait_cond master_core_id);; mret (Sleeps master_core_id)
  else modify (tell (BarrierExit master_core));; mret Returns.

(** The core itself, and not its master, is told that it enters or leaves the barrier. *)
Definition synchronize (fuel : nat) (core_id : nat) (time : Z) : M st outcome :=
  s ← gets (λ s : st, s);
  let b := bar s in
  if m_disable b then mret Returns
  else
    let master_core_id := if m_fastforward b then core_id else default core_id (m_core_group b core_id) in
    let master_core := core_id in
    thread_me ← lift (match thread_of (env s) core_id with Some i => Ok i | None => Err NullPointer end);
    assert_ (is_running (env s) core_id || is_initializing (env s) core_id);;
    assert_ (negb (m_barrier_acquire_list b master_core_id));;
    if (time <? m_next_barrier_time b) && negb (m_fastforward b) then mret Returns
    else
      modify (doRelease 1);;
      modify (tell (BarrierEnter master_core));;
      modify (upd (λ b, set_thread master_core_id thread_me (set_acquire master_core_id true (set_clock master_core_id time b))));;
      s ← gets (λ s : st, s);
      reached ← lift (isBarrierReached (env s) (bar s));
      mustWait ← release_if reached fuel thread_me;
      leave mustWait master_core_id master_core.
End server.

(** ** The client of a core *)
Module BarrierSyncClient.
Record t := mk { m_barrier_interval : Z; m_next_sync_time : Z }.
Definition new (barrier_interval : Z) : t := mk barrier_interval barrier_interval.

(** [synchronize]: whether the server is called at [curr_elapsed_time], and what follows the
    call when the server's interval is [barrier_interval]. *)
Definition calls_server (k : t) (curr_elapsed_time : Z) (ignore_time : bool) : bool :=
  (m_next_sync_time k <=? curr_elapsed_time) || ignore_time.
Definition after_server (k : t) (curr_elapsed_time barrier_interval : Z) : result t :=
  let! q := SubsecondTime.div curr_elapsed_time barrier_interval in
  Ok (mk barrier_interval (SubsecondTime.add (SubsecondTime.mul q barrier_interval) barrier_interval)).
End BarrierSyncClient.

(** * Properties *)

Section releases.
Context {E : Type} `{Environment E}.
Abbreviation st := (state E).
Implicit Types (s : st) (b : t) (e : E) (c d : nat).

Lemma elem_cons_ne c d (l : list nat) : d ≠ c → bool_decide (d ∈ c :: l) = bool_decide (d ∈ l).
Proof using Type. intros Hd. apply bool_decide_ext. rewrite elem_of_cons. tauto. Qed.
Lemma set_to_release_same b : set_to_release (m_to_release b) b = b.
Proof using Type. by destruct b. Qed.
Lemma set_to_release_twice l l' b : set_to_release l (set_to_release l' b) = set_to_release l b.
Proof using Type. done. Qed.
Lemma state_eta s : mk_state (bar s) (env s) (asleep s) (events s) = s.
Proof using Type. by destruct s. Qed.

(** [doRelease] wakes up the cores at the end of the list, at least one if there is one. *)
Record released s s' (sent rest : list nat) : Prop := {
  re_list : m_to_release (bar s) = rest ++ rev sent;
  re_bar : bar s' = set_to_release rest (bar s);
  re_env : env s' = env s;
  re_asleep c : asleep s' c = asleep s c && negb (bool_decide (c ∈ sent));
  re_events : events s' = events s ++ map Signal sent;
}.
Lemma doRelease_loop_spec r k s : m_to_release (bar s) = rev r →
  ∃ sent rest, released s (doRelease_loop r k s) sent rest ∧ (k ≠ 0 → r ≠ [] → sent ≠ []).
Proof using Type.
  revert k s. induction r as [|c r IH]; intros k s Hr; cbn.
  - exists [], []. split; [|done]. split; cbn; [done|by rewrite <- (set_to_release_same (bar s)) at 1; rewrite Hr|done| |by rewrite app_nil_r].
    intros c. by rewrite andb_true_r.
  - destruct (Z.eqb_spec k 0) as [->|Hk].
    + exists [], (rev (c :: r)). split; [|done]. rewrite <- Hr. split; cbn; [by rewrite app_nil_r|by rewrite set_to_release_same|done| |by rewrite app_nil_r].
      intros d. by rewrite andb_true_r.
    + destruct (IH (k - 1) (signal_cond c (upd (set_to_release (rev r)) s)) eq_refl) as (sent & rest & [Hl Hb He Ha Hv] & _).
      exists (c :: sent), rest. split; [|done]. cbn in *. split; [|by rewrite Hb|done| |].
      * rewrite Hr. cbn. rewrite Hl. by rewrite <- app_assoc.
      * intros d. rewrite Ha. destruct (decide (d = c)) as [->|Hd].
        { rewrite fn_lookup_insert, (bool_decide_true (c ∈ c :: sent)) by set_solver. by rewrite andb_false_r. }
        by rewrite fn_lookup_insert_ne, elem_cons_ne by done.
      * rewrite Hv. cbn. by rewrite <- app_assoc.
Qed.
Lemma doRelease_spec k s : ∃ sent rest, released s (doRelease k s) sent rest ∧ (k ≠ 0 → m_to_release (bar s) ≠ [] → sent ≠ []).
Proof using Type.
  destruct (doRelease_loop_spec (rev (m_to_release (bar s))) k s) as (sent & rest & Hr & Hs); [by rewrite rev_involutive|].
  exists sent, rest. split; [done|]. intros Hk Hl. apply Hs; [done|]. intros E'. apply Hl. by rewrite <- (rev_involutive (m_to_release (bar s))), E'.
Qed.

(** *** The cores that leave the barrier *)

Definition leaves b c : bool := (m_local_clock_list b c <? m_next_barrier_time b) && m_barrier_acquire_list b c.
Definition is_caller (caller_id : Z) b c : bool := m_core_thread b c =? caller_id.

Record resumed (caller_id : Z) (l : list nat) s s' : Prop := {
  rs_acquire c : m_barrier_acquire_list (bar s') c = m_barrier_acquire_list (bar s) c && negb (bool_decide (c ∈ l) && leaves (bar s) c);
  rs_list : m_to_release (bar s') = m_to_release (bar s) ++ List.filter (λ c, leaves (bar s) c && negb (is_caller caller_id (bar s) c)) l;
  rs_rest : m_barrier_interval (bar s') = m_barrier_interval (bar s) ∧ m_next_barrier_time (bar s') = m_next_barrier_time (bar s) ∧
    m_local_clock_list (bar s') = m_local_clock_list (bar s) ∧ m_core_group (bar s') = m_core_group (bar s) ∧
    m_core_thread (bar s') = m_core_thread (bar s) ∧ m_global_time (bar s') = m_global_time (bar s) ∧
    m_fastforward (bar s') = m_fastforward (bar s) ∧ m_disable (bar s') = m_disable (bar s);
  rs_env : env s' = env s;
  rs_asleep : asleep s' = asleep s;
  rs_events : ∃ l', events s' = events s ++ map BarrierExit l';
}.
Lemma resume_fold caller_id l : NoDup l → ∀ r m s,
  ∃ s', foldl (resume caller_id) (r, m, s) l =
    (r || existsb (leaves (bar s)) l, m && negb (existsb (λ c, leaves (bar s) c && is_caller caller_id (bar s) c) l), s') ∧ resumed caller_id l s s'.
Proof using Type.
  induction 1 as [|c l Hc Hl IH]; intros r m s; cbn [foldl existsb List.filter].
  - exists s. rewrite orb_false_r, andb_true_r. split; [done|]. split; cbn; try done.
    + intros c. by rewrite andb_true_r.
    + by rewrite app_nil_r.
    + exists []. by rewrite app_nil_r.
  - set (x := resume caller_id (r, m, s) c).
    assert (∃ s1, x = (r || leaves (bar s) c, m && negb (leaves (bar s) c && is_caller caller_id (bar s) c), s1) ∧ resumed caller_id [c] s s1) as (s1 & Ex & H1).
    { subst x. unfold resume. fold (leaves (bar s) c). destruct (leaves (bar s) c) eqn:El; cbn.
      - assert (∀ d, <[c:=false]> (m_barrier_acquire_list (bar s)) d = m_barrier_acquire_list (bar s) d && negb (bool_decide (d ∈ [c]) && leaves (bar s) d)) as Ea.
        { intros d. destruct (decide (d = c)) as [->|Hd].
          - rewrite fn_lookup_insert, bool_decide_true, El by set_solver. by rewrite andb_false_r.
          - rewrite fn_lookup_insert_ne, bool_decide_false by set_solver. by rewrite andb_true_r. }
        fold (is_caller caller_id (bar s) c). destruct (is_caller caller_id (bar s) c) eqn:Ei; eexists; rewrite orb_true_r, ?andb_false_r, ?andb_true_r; (split; [done|]); split; cbn; rewrite ?El, ?Ei; cbn; try done.
        + by rewrite app_nil_r.
        + exists []. by rewrite app_nil_r.
        + by exists [c].
      - eexists. rewrite orb_false_r, andb_true_r. split; [done|]. split; cbn; rewrite ?El; cbn; try done.
        + intros d. destruct (decide (d = c)) as [->|Hd]; [by rewrite El, andb_false_r, andb_true_r|].
          rewrite bool_decide_false by set_solver. by rewrite andb_true_r.
        + by rewrite app_nil_r.
        + exists []. by rewrite app_nil_r. }
    rewrite Ex. destruct (IH (r || leaves (bar s) c) (m && negb (leaves (bar s) c && is_caller caller_id (bar s) c)) s1) as (s2 & E2 & H2).
    destruct H1 as [A1 L1 (R1 & R2 & R3 & R4 & R5 & R6 & R7 & R8) V1 S1 T1], H2 as [A2 L2 (Q1 & Q2 & Q3 & Q4 & Q5 & Q6 & Q7 & Q8) V2 S2 T2].
    assert (∀ d, d ∈ l → leaves (bar s1) d = leaves (bar s) d) as Elv.
    { intros d Hd. unfold leaves. rewrite R2, R3, A1, (bool_decide_false (d ∈ [c])) by set_solver. by rewrite andb_true_r. }
    assert (∀ d, is_caller caller_id (bar s1) d = is_caller caller_id (bar s) d) as Eic by (intros d; unfold is_caller; by rewrite R5).
    exists s2. split.
    + rewrite E2. assert (existsb (leaves (bar s1)) l = existsb (leaves (bar s)) l) as ->.
      { clear -Elv. induction l as [|d l IH]; [done|]. cbn. rewrite Elv, IH by set_solver. done. }
      assert (existsb (λ d, leaves (bar s1) d && is_caller caller_id (bar s1) d) l = existsb (λ d, leaves (bar s) d && is_caller caller_id (bar s) d) l) as ->.
      { clear -Elv Eic. induction l as [|d l IH]; [done|]. cbn. rewrite Elv, Eic, IH by set_solver. done. }
      by rewrite orb_assoc, negb_orb, andb_assoc.
    + split; [| | |congruence|congruence|].
      * intros d. rewrite A2, A1. destruct (decide (d ∈ l)) as [Hd|Hd].
        { rewrite (bool_decide_true (d ∈ l)), (bool_decide_true (d ∈ c :: l)), (bool_decide_false (d ∈ [c])), Elv by set_solver. by rewrite andb_true_r. }
        rewrite (bool_decide_false (d ∈ l)) by done. rewrite andb_true_r. f_equal. f_equal. f_equal. apply bool_decide_ext. set_solver.
      * rewrite L2, L1. cbn [List.filter]. rewrite <- app_assoc. f_equal.
        assert (List.filter (λ d, leaves (bar s1) d && negb (is_caller caller_id (bar s1) d)) l = List.filter (λ d, leaves (bar s) d && negb (is_caller caller_id (bar s) d)) l) as ->.
        { clear -Elv Eic. induction l as [|d l IH]; [done|]. cbn. rewrite Elv, Eic, IH by set_solver. done. }
        by destruct (leaves (bar s) c && negb (is_caller caller_id (bar s) c)).
      * split_and!; congruence.
      * destruct T1 as [l1 T1], T2 as [l2 T2]. exists (l1 ++ l2). by rewrite T2, T1, map_app, app_assoc.
Qed.
End releases.

(** ** The invariant

    The library follows the barrier in detailed simulation: no fast-forwarding, the barrier is
    not disabled, and hooks only migrate threads. *)
Section invariant.
Context {E : Type} `{Environment E} (n : nat) (interval : Z).
Abbreviation st := (state E).
Implicit Types (s : st) (b : t) (e : E) (c d : nat).

(** What is logged of a call of the hooks at [T]: every core that was running when the barrier
    was reached is in the barrier, and its clock is at [T] at least. *)
Definition lockstep (T : Z) b e : Prop :=
  ∀ c, (c < n)%nat → m_core_group b c = None → isCoreRunning n e b c = Ok true → m_barrier_acquire_list b c = true ∧ T ≤ m_local_clock_list b c.

(** [x] is a core that is in the barrier and not asleep yet; if [strict] is false, a hook may have
    marked cores for release. *)
Record sound (strict : bool) (x : option nat) s : Prop := {
  so_in c : (c < n)%nat → m_barrier_acquire_list (bar s) c = true →
    m_next_barrier_time (bar s) ≤ m_local_clock_list (bar s) c ∨ strict = false ∧ m_local_clock_list (bar s) c = 0;
  so_out c : (c < n)%nat → m_barrier_acquire_list (bar s) c = false → m_local_clock_list (bar s) c < m_next_barrier_time (bar s);
  so_nodup : NoDup (m_to_release (bar s));
  so_list c : c ∈ m_to_release (bar s) → (c < n)%nat ∧ m_barrier_acquire_list (bar s) c = false;
  so_asleep c : (c < n)%nat → asleep s c = true ↔ m_barrier_acquire_list (bar s) c = true ∧ x ≠ Some c ∨ c ∈ m_to_release (bar s);
  so_unique c d : (c < n)%nat → (d < n)%nat → m_barrier_acquire_list (bar s) c = true → m_barrier_acquire_list (bar s) d = true →
    m_core_thread (bar s) c = m_core_thread (bar s) d → c = d;
  so_valid c : (c < n)%nat → m_barrier_acquire_list (bar s) c = true → 0 ≤ m_core_thread (bar s) c;
  so_modes : m_fastforward (bar s) = false ∧ m_disable (bar s) = false;
  so_time : m_barrier_interval (bar s) = interval ∧ 0 < m_next_barrier_time (bar s) < 2 ^ 64 ∧ m_next_barrier_time (bar s) `mod` interval = 0;
  so_log T b e : Periodic T b e ∈ events s → lockstep T b e;
}.

(** The cores whose clocks are set to zero. *)
Record marked (thread_id : Z) (l : list nat) s s' : Prop := {
  mk_clock c : m_local_clock_list (bar s') c =
    if bool_decide (c ∈ l) && (m_barrier_acquire_list (bar s) c && (m_core_thread (bar s) c =? thread_id)) then 0 else m_local_clock_list (bar s) c;
  mk_rest : ∃ f, bar s' = mk (m_barrier_interval (bar s)) (m_next_barrier_time (bar s)) f (m_barrier_acquire_list (bar s)) (m_to_release (bar s))
    (m_core_group (bar s)) (m_core_thread (bar s)) (m_global_time (bar s)) (m_fastforward (bar s)) (m_disable (bar s));
  mk_others : env s' = env s ∧ asleep s' = asleep s ∧ events s' = events s;
}.
Lemma mark_fold thread_id l s :
  marked thread_id l s (foldl (λ s c, if m_barrier_acquire_list (bar s) c && (m_core_thread (bar s) c =? thread_id) then upd (set_clock c 0) s else s) s l).
Proof using Type.
  revert s. induction l as [|c l IH]; intros s; cbn [foldl].
  - split; cbn; [done|by destruct s as [[]]; eexists|done].
  - destruct (m_barrier_acquire_list (bar s) c && (m_core_thread (bar s) c =? thread_id)) eqn:Em.
    + destruct (IH (upd (set_clock c 0) s)) as [C [f R] O]. split; [|by exists f|done].
      intros d. rewrite C. cbn. destruct (decide (d = c)) as [->|Hd].
      * rewrite (bool_decide_true (c ∈ c :: l)), fn_lookup_insert, Em by (by left). by destruct (_ && true).
      * by rewrite fn_lookup_insert_ne, elem_cons_ne by done.
    + destruct (IH s) as [C R O]. split; [|done|done].
      intros d. rewrite C. destruct (decide (d = c)) as [->|Hd]; [by rewrite Em, !andb_false_r|].
      by rewrite elem_cons_ne by done.
Qed.

Lemma isCoreRunning_ext e b b' c : m_fastforward b = m_fastforward b' → m_core_group b = m_core_group b' →
  isCoreRunning n e b c = isCoreRunning n e b' c.
Proof using Type.
  intros Hf Hg. unfold isCoreRunning. rewrite Hf. assert (∀ l, any_sibling_running e b c l = any_sibling_running e b' c l) as Ha; [|by rewrite Ha].
  intros l. induction l as [|d l IH]; cbn; [done|]. by rewrite Hg, IH.
Qed.

(** A thread that is migrated, or stops: in a hook, where no core is still to be woken up. *)
Definition aside s s' : Prop :=
  m_to_release (bar s') = [] ∧ m_barrier_acquire_list (bar s') = m_barrier_acquire_list (bar s) ∧
  m_core_group (bar s') = m_core_group (bar s) ∧ m_core_thread (bar s') = m_core_thread (bar s) ∧
  m_next_barrier_time (bar s') = m_next_barrier_time (bar s) ∧ asleep s' = asleep s ∧
  (∀ c, m_local_clock_list (bar s') c = 0 ∨ m_local_clock_list (bar s') c = m_local_clock_list (bar s) c).
Lemma release_marked strict x s thread_id : sound strict x s → m_to_release (bar s) = [] →
  sound false x (releaseThread n thread_id s) ∧ aside s (releaseThread n thread_id s).
Proof using Type.
  intros Hs Hl. unfold releaseThread, aside. set (s1 := foldl _ s _). destruct (mark_fold thread_id (seq 0 n) s) as [C [f R] (O1 & O2 & O3)].
  fold s1 in C, R, O1, O2, O3. assert (doRelease 1 s1 = s1) as ->.
  { unfold doRelease. rewrite R. cbn. by rewrite Hl. }
  rewrite R. cbn. split_and!; try done; [|intros c; specialize (C c); rewrite R in C; cbn in C; rewrite C; destruct (_ && _); auto].
  destruct Hs as [Hin Hout Hnd Hli Has Hun Hva Hmo Hti Hlo].
  assert (∀ c, f c = if bool_decide (c ∈ seq 0 n) && (m_barrier_acquire_list (bar s) c && (m_core_thread (bar s) c =? thread_id)) then 0 else m_local_clock_list (bar s) c) as Ef.
  { intros c. specialize (C c). by rewrite R in C. }
  split; rewrite ?R, ?O1, ?O2, ?O3; cbn; try done.
  - intros c Hc Ha. rewrite Ef. destruct (_ && _); [by right|]. destruct (Hin c Hc Ha) as [|[_ ?]]; auto.
  - intros c Hc Ha. rewrite Ef, Ha, andb_false_l, andb_false_r. auto.
Qed.

Context (interval_pos : 0 < interval) (plain : ∀ time e k, k ∈ fst (periodic time e) → ∃ t, k = Migrate t).

Lemma sound_weaken x s : sound true x s → sound false x s.
Proof using Type. intros [Hin]. split; try done. intros c Hc Ha. destruct (Hin c Hc Ha) as [|[]]; by auto. Qed.

Lemma periodic_sound x e0 T s : sound true x s → m_to_release (bar s) = [] → lockstep T (bar s) e0 →
  sound false x (call_periodic n e0 T s) ∧ aside s (call_periodic n e0 T s).
Proof using plain.
  intros Hs Hl Hlock. unfold call_periodic. pose proof (plain T (env s)) as Hp. destruct (periodic T (env s)) as [calls e'] eqn:Ep. cbn in Hp.
  set (s0 := mk_state _ _ _ _). assert (sound false x s0 ∧ aside s s0) as [H0 A0].
  { split; [|unfold aside; subst s0; cbn; split_and!; auto]. apply sound_weaken in Hs. destruct Hs as [Hin Hout Hnd Hli Has Hun Hva Hmo Hti Hlo]. split; try done.
    intros T' b' e'' [He|He]%elem_of_app; [by eapply Hlo|]. apply list_elem_of_singleton in He. by injection He as -> -> ->. }
  clearbody s0. clear Ep. revert s0 H0 A0. induction calls as [|k calls IH]; intros s0 H0 A0; cbn [foldl]; [done|].
  destruct (Hp k) as [t ->]; [by left|]. destruct A0 as (A1 & A2 & A3 & A4 & A5 & A7 & A6).
  destruct (release_marked false x s0 t H0 A1) as [H1 (B1 & B2 & B3 & B4 & B5 & B7 & B6)].
  change (call_back n (Migrate t) s0) with (threadMigrate n t s0). unfold threadMigrate.
  apply IH; [intros k' Hk'; apply Hp; by right|exact H1|]. split_and!; [done|congruence..|].
  intros c. destruct (B6 c) as [->|B]; [by left|]. rewrite B. apply A6.
Qed.

(** *** The loop of [barrierRelease] *)

(** Whose call it is: of a core that has just entered, or of nobody in the barrier. *)
Definition calls caller_id (x : option nat) s : Prop :=
  match x with
  | Some m => (m < n)%nat ∧ m_barrier_acquire_list (bar s) m = true ∧ m_core_thread (bar s) m = caller_id
  | None => caller_id < 0
  end.
Lemma is_caller_spec strict caller_id x s c : sound strict x s → calls caller_id x s → (c < n)%nat → m_barrier_acquire_list (bar s) c = true →
  is_caller caller_id (bar s) c = bool_decide (x = Some c).
Proof using Type.
  intros Hs Hx Hc Ha. unfold is_caller. destruct x as [m|]; cbn in Hx.
  - destruct Hx as (Hm & Hma & Ht). destruct (decide (m = c)) as [->|Hne].
    + by rewrite Ht, Z.eqb_refl, bool_decide_true.
    + rewrite bool_decide_false by congruence. apply Z.eqb_neq. intros E'. apply Hne. apply (so_unique _ _ _ Hs); [done..|congruence].
  - rewrite bool_decide_false by done. apply Z.eqb_neq. pose proof (so_valid _ _ _ Hs c Hc Ha). lia.
Qed.

Lemma elem_filter (f : nat → bool) l c : c ∈ List.filter f l ↔ c ∈ l ∧ f c = true.
Proof using Type. apply In_filter. Qed.
Lemma next_time s strict x : sound strict x s → m_next_barrier_time (bar s) + interval < 2 ^ 64 →
  SubsecondTime.add (m_next_barrier_time (bar s)) (m_barrier_interval (bar s)) = m_next_barrier_time (bar s) + interval.
Proof using interval_pos. intros Hs Hb. destruct (so_time _ _ _ Hs) as (-> & Ht & _). unfold SubsecondTime.add. apply u64_small. rlia. Qed.

Lemma existsb_caller (f g : nat → bool) (x : option nat) : (∀ c, (c < n)%nat → f c = true → g c = bool_decide (x = Some c)) →
  (∀ c, x = Some c → (c < n)%nat) → existsb (λ c, f c && g c) (seq 0 n) = match x with Some c => f c | None => false end.
Proof using Type.
  intros Hg Hx. assert (∀ d, (d < n)%nat → f d && g d = true → x = Some d) as Hd.
  { intros d Hd [Hf Hgd]%andb_true_iff. rewrite Hg in Hgd by done. by apply bool_decide_eq_true in Hgd. }
  destruct x as [c|]; [destruct (f c) eqn:Ef|].
  - apply existsb_exists. exists c. split; [apply list_elem_of_In, elem_of_seq; specialize (Hx c eq_refl); lia|]. by rewrite Ef, Hg, bool_decide_true by auto.
  - apply not_true_iff_false. intros (d & Hds%list_elem_of_In & Hdl)%existsb_exists. apply elem_of_seq in Hds.
    specialize (Hd d ltac:(lia) Hdl) as [= ->]. by rewrite Ef in Hdl.
  - apply not_true_iff_false. intros (d & Hds%list_elem_of_In & Hdl)%existsb_exists. apply elem_of_seq in Hds. by specialize (Hd d ltac:(lia) Hdl).
Qed.
Lemma resume_sound caller_id x m s s1 : sound false x s → m_to_release (bar s) = [] → calls caller_id x s →
  m_next_barrier_time (bar s) + interval < 2 ^ 64 →
  s1 = upd (λ b, set_next (SubsecondTime.add (m_next_barrier_time b) (m_barrier_interval b)) b) s →
  ∃ s2, foldl (resume caller_id) (false, m, s1) (seq 0 n) =
    (existsb (leaves (bar s1)) (seq 0 n), m && match x with Some c => m_barrier_acquire_list (bar s2) c | None => true end, s2) ∧
  sound true x s2 ∧ env s2 = env s ∧ m_core_group (bar s2) = m_core_group (bar s) ∧ m_core_thread (bar s2) = m_core_thread (bar s) ∧
  m_next_barrier_time (bar s2) = m_next_barrier_time (bar s) + interval ∧ m_local_clock_list (bar s2) = m_local_clock_list (bar s) ∧
  (∀ c, (c < n)%nat → m_barrier_acquire_list (bar s2) c = m_barrier_acquire_list (bar s) c && negb (leaves (bar s1) c)) ∧
  (∀ c, c ∈ m_to_release (bar s2) ↔ (c < n)%nat ∧ leaves (bar s1) c = true ∧ x ≠ Some c) ∧ asleep s2 = asleep s.
Proof using interval_pos.
  intros Hs Hl Hx Hb E1. pose proof (next_time s false x Hs Hb) as Hnext.
  destruct (resume_fold caller_id (seq 0 n) (NoDup_seq 0 n) false m s1) as (s2 & E2 & [Ra Rl (R1 & R2 & R3 & R4 & R5 & R6 & R7 & R8) Rv Rs [lv Re]]).
  assert (m_barrier_acquire_list (bar s1) = m_barrier_acquire_list (bar s) ∧ m_core_thread (bar s1) = m_core_thread (bar s) ∧
    m_next_barrier_time (bar s1) = m_next_barrier_time (bar s) + interval ∧ m_local_clock_list (bar s1) = m_local_clock_list (bar s)) as (F1 & F2 & F3 & F4)
    by (subst s1; cbn; auto).
  assert (∀ c, leaves (bar s1) c = true → m_barrier_acquire_list (bar s) c = true) as Hlv by (intros c; unfold leaves; rewrite F1; by destruct (m_barrier_acquire_list (bar s) c); rewrite ?andb_false_r).
  assert (∀ c, (c < n)%nat → leaves (bar s1) c = true → is_caller caller_id (bar s1) c = bool_decide (x = Some c)) as Hic.
  { intros c Hc Hlc. rewrite <- (is_caller_spec false caller_id x s c) by auto. unfold is_caller. by rewrite F2. }
  assert (∀ c, (c < n)%nat → m_barrier_acquire_list (bar s2) c = m_barrier_acquire_list (bar s) c && negb (leaves (bar s1) c)) as Ha.
  { intros c Hc. rewrite Ra, F1, bool_decide_true by (apply elem_of_seq; lia). done. }
  assert (∀ c, c ∈ m_to_release (bar s2) ↔ (c < n)%nat ∧ leaves (bar s1) c = true ∧ x ≠ Some c) as Hlist.
  { intros c. rewrite Rl. subst s1. cbn [upd bar set_next m_to_release]. rewrite Hl. cbn [app]. rewrite elem_filter, elem_of_seq, andb_true_iff, negb_true_iff. split.
    - intros (Hc & Hlc & Hn). rewrite Hic in Hn by (done || lia). apply bool_decide_eq_false in Hn. split_and!; [lia|done|done].
    - intros (Hc & Hlc & Hn). rewrite Hic by (done || lia). rewrite bool_decide_false by done. split_and!; [lia|lia|done|done]. }
  assert (negb (existsb (λ c, leaves (bar s1) c && is_caller caller_id (bar s1) c) (seq 0 n)) =
    match x with Some c => m_barrier_acquire_list (bar s2) c | None => true end) as Emw.
  { rewrite (existsb_caller _ _ x Hic) by (intros c ->; by destruct Hx). destruct x as [c|]; [|done]. destruct Hx as (Hc & Hca & _). by rewrite Ha, Hca. }
  exists s2. split; [by rewrite E2, Emw|].
  subst s1. cbn in Rv, Rs, R2, R3, R4, R5. rewrite Hnext in R2. split_and!; try done.
  destruct Hs as [Hin Hout Hnd Hli Has Hun Hva [Hm1 Hm2] (Ht1 & Ht2 & Ht3) Hlo].
  assert (∀ c, (c < n)%nat → leaves (bar (upd (λ b, set_next (SubsecondTime.add (m_next_barrier_time b) (m_barrier_interval b)) b) s)) c =
    (m_local_clock_list (bar s) c <? m_next_barrier_time (bar s) + interval) && m_barrier_acquire_list (bar s) c) as Elv.
  { intros c Hc. unfold leaves. cbn. by rewrite Hnext. }
  split; rewrite ?Rv, ?Rs.
  - intros c Hc. rewrite Ha, Elv, R2, R3 by done. destruct (Z.ltb_spec (m_local_clock_list (bar s) c) (m_next_barrier_time (bar s) + interval));
      destruct (m_barrier_acquire_list (bar s) c) eqn:Eac; cbn; try done. auto with lia.
  - intros c Hc. rewrite Ha, Elv, R2, R3 by done. destruct (Z.ltb_spec (m_local_clock_list (bar s) c) (m_next_barrier_time (bar s) + interval)); [done|].
    destruct (m_barrier_acquire_list (bar s) c) eqn:Eac; cbn; [done|]. pose proof (Hout c Hc Eac). lia.
  - rewrite Rl. cbn. rewrite Hl. apply NoDup_ListNoDup, List.NoDup_filter, NoDup_ListNoDup, NoDup_seq.
  - intros c (Hc & Hlc & _)%Hlist. split; [done|]. by rewrite Ha, Hlc, andb_false_r.
  - intros c Hc. rewrite Has, Hl, Hlist, Ha by done. rewrite elem_of_nil. specialize (Hlv c).
    destruct (leaves _ c), (m_barrier_acquire_list (bar s) c); cbn; intuition congruence.
  - intros c d Hc Hd. rewrite !Ha, R5 by done. intros [? _]%andb_true_iff [? _]%andb_true_iff. auto.
  - intros c Hc. rewrite Ha, R5 by done. intros [? _]%andb_true_iff. auto.
  - by rewrite R7, R8.
  - rewrite R1, R2. cbn. split; [done|]. split; [lia|]. rewrite <- Z.add_mod_idemp_r, Z.mod_same, Z.add_0_r by lia. done.
  - intros T b e. rewrite Re. intros [He|He]%elem_of_app; [by eapply Hlo|]. by apply list_elem_of_fmap in He as (? & ? & _).
Qed.

(** The fuel that is enough: some core in the barrier is behind the time that the loop reaches. *)
Definition enough (F : failure → Prop) (fuel : nat) s : Prop :=
  F NoFuel ∨ ∃ c, (c < n)%nat ∧ m_barrier_acquire_list (bar s) c = true ∧
    m_local_clock_list (bar s) c < m_next_barrier_time (bar s) + Z.of_nat fuel * interval.
Definition all_there e0 s : Prop :=
  ∀ c, (c < n)%nat → m_core_group (bar s) c = None → isCoreRunning n e0 (bar s) c = Ok true → m_barrier_acquire_list (bar s) c = true.
Definition caller_stays (x : option nat) s : bool := match x with Some c => m_barrier_acquire_list (bar s) c | None => true end.

Lemma all_lockstep x e0 s : sound true x s → all_there e0 s → lockstep (m_next_barrier_time (bar s)) (bar s) e0.
Proof using Type. intros Hs Ha c Hc Hg Hr. specialize (Ha c Hc Hg Hr). split; [done|]. destruct (so_in _ _ _ Hs c Hc Ha) as [|[]]; done. Qed.

Lemma wps_release_loop F caller_id x e0 cont fuel : F AssertFail → ∀ m s,
  sound true x s → m_to_release (bar s) = [] → calls caller_id x s → all_there e0 s →
  (cont = true → ∀ c, (c < n)%nat → m_barrier_acquire_list (bar s) c = false) →
  m_next_barrier_time (bar s) + Z.of_nat fuel * interval < 2 ^ 64 → enough F fuel s →
  wps F (release_loop n e0 fuel caller_id cont m) s (λ r s',
    sound true x s' ∧ (is_Some (fst r) → cont = true ∧ fst r = Some false) ∧
    snd r = m && caller_stays x s' ∧ asleep s' = asleep s ∧ (fst r = None → snd r = true → m_to_release (bar s') ≠ [])).
Proof using plain interval_pos.
  intros HF. induction fuel as [|fuel IH]; intros m s Hs Hl Hx Hall Hcont Hb He.
  { destruct He as [He|(c & Hc & Hca & Hcl)]; [exact He|]. destruct (so_in _ _ _ Hs c Hc Hca) as [|[]]; [cbn in Hcl; lia|done]. }
  cbn [release_loop]. wstep. wstep. wstep. wstep.
  set (s0 := upd (set_global (m_next_barrier_time (bar s))) s).
  assert (sound true x s0) as Hs0 by (destruct Hs; by split).
  destruct (periodic_sound x e0 (m_next_barrier_time (bar s)) s0 Hs0 Hl) as [Hs1 (A1 & A2 & A3 & A4 & A5 & A7 & A6)].
  { intros c Hc Hg Hr. apply (all_lockstep x e0 s Hs Hall c Hc Hg). rewrite <- Hr. by apply isCoreRunning_ext. }
  change (m_next_barrier_time (bar s0)) with (m_next_barrier_time (bar s)). set (s1 := call_periodic _ _ _ s0) in *.
  assert (calls caller_id x s1) as Hx1 by (destruct x as [c|]; [|done]; cbn in *; rewrite A2, A4; apply Hx).
  wstep. wstep. wstep.
  { apply andb_true_iff in Heqb as [-> _]. wstep. cbn. assert (∀ c, (c < n)%nat → m_barrier_acquire_list (bar s1) c = false) as Hno by (intros c Hc; rewrite A2; by apply Hcont).
    split_and!; [|done| |exact A7|done].
    - destruct Hs1. split; try done. intros c Hc Hca. by rewrite Hno in Hca.
    - destruct x as [c|]; cbn; [|by rewrite andb_true_r]. destruct Hx1 as (Hc & Hca & _). by rewrite Hno in Hca. }
  wstep. apply wps_mono with (Q := λ _ s', s' = s1); [wstep; [wstep; [done|exact HF]|done]|]. intros [] ? ->.
  rewrite (proj2 (so_modes _ _ _ Hs1)). wstep. wstep. wstep. wstep. cbn [id].
  destruct (resume_sound caller_id x m s1 _ Hs1 A1 Hx1 ltac:(rewrite A5; cbn; nia) eq_refl) as (s2 & E2 & Hs2 & V2 & G2 & T2 & N2 & C2 & B2 & L2 & S2).
  rewrite E2. wstep. wstep. fold (caller_stays x s2) in *. wstep.
  - wstep. split_and!; [done|by intros [? ?]|done|by rewrite S2|]. cbn. intros _ [_ Hst]%andb_true_iff Hnil.
    apply existsb_exists in Heqb0 as (d & Hd%list_elem_of_In & Hdl). apply elem_of_seq in Hd.
    assert (d ∈ m_to_release (bar s2)) as Hin; [|by rewrite Hnil in Hin; apply elem_of_nil in Hin]. apply L2. split_and!; [lia|done|].
    intros ->. cbn in Hst. by rewrite B2, Hdl, andb_false_r in Hst by lia.
  - assert (∀ c, (c < n)%nat → leaves (bar (upd (λ b, set_next (SubsecondTime.add (m_next_barrier_time b) (m_barrier_interval b)) b) s1)) c = false) as Hnl.
    { intros c Hc. destruct (leaves _ c) eqn:El; [|done]. assert (false = true) as ?; [|done]. rewrite <- Heqb0. apply existsb_exists. exists c.
      split; [apply list_elem_of_In, elem_of_seq; lia|done]. }
    assert (∀ c, (c < n)%nat → m_barrier_acquire_list (bar s2) c = m_barrier_acquire_list (bar s) c) as Ha2 by (intros c Hc; rewrite B2, Hnl, andb_true_r, A2 by done; done).
    assert (caller_stays x s2 = true) as -> by (destruct x as [c|]; [|done]; destruct Hx as (Hc & Hca & _); cbn; by rewrite Ha2).
    rewrite andb_true_r. assert (asleep s = asleep s2) as -> by (rewrite S2; symmetry; exact A7). apply IH.
    + done.
    + destruct (m_to_release (bar s2)) as [|c l] eqn:El; [done|]. assert (c ∈ c :: l) as Hc by (by left). apply L2 in Hc as (Hc & Hcl & _). by rewrite Hnl in Hcl.
    + destruct x as [c|]; [|done]. destruct Hx as (Hc & Hca & Ht). cbn. rewrite Ha2, T2, A4 by done. done.
    + intros c Hc Hg Hr. rewrite Ha2 by done. rewrite G2, A3 in Hg. apply (Hall c Hc Hg). rewrite <- Hr. apply isCoreRunning_ext; [|by rewrite G2, A3].
      by rewrite (proj1 (so_modes _ _ _ Hs)), (proj1 (so_modes _ _ _ Hs2)).
    + intros Hct c Hc. rewrite Ha2 by done. auto.
    + rewrite N2, A5. cbn. cbn in Hb. lia.
    + destruct He as [He|(c & Hc & Hca & Hcl)]; [by left|]. right. exists c. rewrite Ha2, C2, N2, A5 by done. cbn. cbn in Hcl. split_and!; [done|done|].
      destruct (A6 c) as [-> | ->]; cbn; [|lia]. pose proof (so_time _ _ _ Hs) as (_ & ? & _). lia.
Qed.

Lemma elem_of_rev (l : list nat) c : c ∈ rev l ↔ c ∈ l.
Proof using Type. by rewrite !list_elem_of_In, <- in_rev. Qed.
Lemma released_sound strict x s s' sent rest : sound strict x s → released s s' sent rest → (∀ T b e, Periodic T b e ∉ map Signal sent) → sound strict x s'.
Proof using Type.
  intros [Hin Hout Hnd Hli Has Hun Hva Hmo Hti Hlo] [Rl Rb Rv Ra Re] Hsig. rewrite Rl in Hnd. apply NoDup_app in Hnd as (Hnd1 & Hnd2 & Hnd3).
  assert (∀ c, c ∈ m_to_release (bar s) ↔ c ∈ rest ∨ c ∈ sent) as El by (intros c; by rewrite Rl, elem_of_app, elem_of_rev).
  split; rewrite ?Rb, ?Rv; cbn; try done.
  - intros c Hc. apply Hli, El. by left.
  - intros c Hc. rewrite Ra, andb_true_iff, negb_true_iff, bool_decide_eq_false, Has, El by done. split; [tauto|].
    intros [[Hca Hx]|Hcr].
    + split; [by left|]. intros Hcs. destruct (Hli c) as [_ Hf]; [apply El; by right|]. congruence.
    + split; [by right; left|]. intros Hcs. apply (Hnd2 c Hcr). by apply elem_of_rev.
  - intros T b e. rewrite Re. intros [He|He]%elem_of_app; [by eapply Hlo|by destruct (Hsig T b e)].
Qed.
Lemma signals_only (sent : list nat) T b e : Periodic T b e ∉ (map Signal sent : list (event E)).
Proof using Type. intros He. by apply list_elem_of_fmap in He as (? & ? & _). Qed.
Lemma doRelease_sound strict x k s : sound strict x s → sound strict x (doRelease k s).
Proof using Type. intros Hs. destruct (doRelease_spec k s) as (sent & rest & Hr & _). eapply released_sound; [done..|]. apply signals_only. Qed.
(** Somebody who slept is woken up. *)
Definition wakes s s' : Prop := ∃ d, (d < n)%nat ∧ asleep s d = true ∧ asleep s' d = false.
Lemma doRelease_wakes strict x k s : sound strict x s → k ≠ 0 → m_to_release (bar s) ≠ [] → wakes s (doRelease k s).
Proof using Type.
  intros Hs Hk Hne. destruct (doRelease_spec k s) as (sent & rest & Hr & Hsent). specialize (Hsent Hk Hne). destruct sent as [|d sent]; [done|].
  assert (d ∈ m_to_release (bar s)) as Hd. { rewrite (re_list _ _ _ _ Hr), elem_of_app. right. apply elem_of_rev. by left. }
  exists d. destruct (so_list _ _ _ Hs d Hd) as [Hdn _]. split; [done|]. split; [apply (so_asleep _ _ _ Hs); auto|].
  rewrite (re_asleep _ _ _ _ Hr), bool_decide_true by (by left). apply andb_false_r.
Qed.

Context (num_host_cores : Z) (shuffle : list nat → list nat) (hosts_pos : 0 < num_host_cores) (shuffle_perm : ∀ l, shuffle l ≡ₚ l).
Lemma shuffle_sound x s : sound true x s → sound true x (upd (λ b, set_to_release (shuffle (m_to_release b)) b) s).
Proof using shuffle_perm.
  intros [Hin Hout Hnd Hli Has Hun Hva Hmo Hti Hlo]. split; cbn; try done.
  - by rewrite shuffle_perm.
  - intros c. rewrite shuffle_perm. apply Hli.
  - intros c Hc. rewrite shuffle_perm. auto.
Qed.
Lemma wps_barrierRelease F caller_id x cont fuel s : F AssertFail →
  sound true x s → calls caller_id x s → all_there (env s) s →
  (cont = true → ∀ c, (c < n)%nat → m_barrier_acquire_list (bar s) c = false) →
  m_next_barrier_time (bar s) + Z.of_nat fuel * interval < 2 ^ 64 → enough F fuel s →
  wps F (barrierRelease n num_host_cores shuffle fuel caller_id cont) s (λ r s',
    sound true x s' ∧ (cont = false → r = caller_stays x s' ∧ (r = true → wakes s s'))).
Proof using plain interval_pos hosts_pos shuffle_perm.
  intros HF Hs Hx Hall Hcont Hb He. unfold barrierRelease. wstep. wstep. wstep. wstep; [|exact HF].
  match goal with Hd : bool_decide _ = true |- _ => apply bool_decide_eq_true in Hd as Hl end. wstep. rewrite (proj1 (so_modes _ _ _ Hs)). wstep; [done|]. wstep.
  eapply wps_mono; [by eapply wps_release_loop|]. intros [[r|] m] s1 (Hs1 & Hr & Hm & Has & Hne); cbn in *.
  - destruct (Hr ltac:(done)) as [-> [= ->]]. split; [done|by intros [=]].
  - wstep. wstep. wstep. wstep. wstep. cbn [bar upd set_to_release m_fastforward]. rewrite (proj1 (so_modes _ _ _ Hs1)).
    apply shuffle_sound in Hs1 as Hs2. split; [by apply doRelease_sound|]. intros ->. destruct (doRelease_spec num_host_cores (upd (λ b, set_to_release (shuffle (m_to_release b)) b) s1)) as (sent & rest & Hr2 & _).
    split; [unfold caller_stays; rewrite Hm; destruct x; [|done]; by rewrite (re_bar _ _ _ _ Hr2)|]. intros Ht.
    destruct (doRelease_wakes true x num_host_cores _ Hs2 ltac:(lia)) as (d & Hd & Hd1 & Hd2).
    { cbn. intros Hnil. apply Hne; [done..|]. apply Permutation_nil_r. by rewrite <- Hnil, shuffle_perm. }
    exists d. cbn in Hd1. by rewrite <- Has.
Qed.

(** *** The calls *)

Lemma reached_loop_spec e b l y r : m_fastforward b = false → reached_loop n e b l y = Ok r →
  if r then ∀ c, c ∈ l → m_core_group b c = None → isCoreRunning n e b c = Ok true → m_next_barrier_time b ≤ m_local_clock_list b c
  else (∃ c, c ∈ l ∧ m_core_group b c = None ∧ isCoreRunning n e b c = Ok true ∧ m_local_clock_list b c < m_next_barrier_time b) ∨
    y = false ∧ ∀ c, c ∈ l → m_core_group b c = None → isCoreRunning n e b c = Ok false.
Proof using Type.
  intros Hf. revert y. induction l as [|c l IH]; intros y; cbn [reached_loop].
  - intros [= <-]. destruct y; [by intros c ?%elem_of_nil|]. right. split; [done|]. by intros c ?%elem_of_nil.
  - rewrite Hf. destruct (decide (m_core_group b c = None)) as [Hg|Hg].
    + rewrite (bool_decide_false (_ ≠ None)) by tauto. destruct (isCoreRunning n e b c) as [[]|] eqn:Er; cbn [rbind]; [destruct (Z.ltb_spec (m_local_clock_list b c) (m_next_barrier_time b))| |done].
      * intros [= <-]. left. exists c. split; [by left|done].
      * intros Hr. specialize (IH true Hr). destruct r.
        { intros d [->|Hd]%elem_of_cons; [done|]. by apply IH. }
        destruct IH as [(d & Hd & Hd')|[? _]]; [|done]. left. exists d. split; [by right|done].
      * intros Hr. specialize (IH y Hr). destruct r.
        { intros d [->|Hd]%elem_of_cons; [congruence|]. by apply IH. }
        destruct IH as [(d & Hd & Hd')|[-> IH]]; [left; exists d; split; [by right|done]|]. right. split; [done|].
        intros d [->|Hd]%elem_of_cons; [done|]. by apply IH.
    + rewrite bool_decide_true by done. intros Hr. specialize (IH y Hr). destruct r.
      { intros d [->|Hd]%elem_of_cons; [done|]. by apply IH. }
      destruct IH as [(d & Hd & Hd')|[-> IH]]; [left; exists d; split; [by right|done]|]. right. split; [done|].
      intros d [->|Hd]%elem_of_cons; [done|]. by apply IH.
Qed.
Lemma reached_there x s : sound true x s → isBarrierReached n (env s) (bar s) = Ok true → all_there (env s) s.
Proof using Type.
  intros Hs Hr c Hc Hg Hrun. pose proof (reached_loop_spec _ _ _ _ _ (proj1 (so_modes _ _ _ Hs)) Hr c) as Hle. cbn in Hle.
  specialize (Hle ltac:(apply elem_of_seq; lia) Hg Hrun). destruct (m_barrier_acquire_list (bar s) c) eqn:Ea; [done|].
  pose proof (so_out _ _ _ Hs c Hc Ea). lia.
Qed.

(** A core enters the barrier. *)
Lemma entered_sound m c tid time s : sound true None s → (m < n)%nat → asleep s m = false → m_next_barrier_time (bar s) ≤ time → 0 ≤ tid →
  (∀ d, (d < n)%nat → asleep s d = true → m_core_thread (bar s) d ≠ tid) →
  sound true (Some m) (upd (λ b, set_thread m tid (set_acquire m true (set_clock m time b))) (tell (BarrierEnter c) s)).
Proof using Type.
  intros [Hin Hout Hnd Hli Has Hun Hva Hmo Hti Hlo] Hm Hma Htime Htid Hth.
  assert (∀ d, (d < n)%nat → m_barrier_acquire_list (bar s) d = true → m_core_thread (bar s) d ≠ tid) as Hth' by (intros d Hd Hda; apply Hth; [done|]; apply Has; auto).
  assert (m ∉ m_to_release (bar s)) as Hml. { intros Hml. assert (asleep s m = true) by (apply Has; auto). congruence. }
  split; cbn; try done.
  - intros d Hd. destruct (decide (d = m)) as [->|Hne]; [rewrite !fn_lookup_insert; by left|rewrite !fn_lookup_insert_ne by done; auto].
  - intros d Hd. destruct (decide (d = m)) as [->|Hne]; [by rewrite !fn_lookup_insert|rewrite !fn_lookup_insert_ne by done; auto].
  - intros d Hd. destruct (Hli d Hd). split; [done|]. by rewrite fn_lookup_insert_ne by congruence.
  - intros d Hd. destruct (decide (d = m)) as [->|Hne].
    + rewrite fn_lookup_insert, Hma. split; [done|]. intros [[_ ?]|?]; congruence.
    + rewrite fn_lookup_insert_ne, Has by done. split; [intros [[? _]|?]; [left; split; congruence|by right]|intros [[? _]|?]; [by left|by right]].
  - intros d d' Hd Hd'. destruct (decide (d = m)) as [->|Hne], (decide (d' = m)) as [->|Hne']; rewrite ?fn_lookup_insert, ?fn_lookup_insert_ne by done; try done; eauto.
    + intros _ Ha ->. by destruct (Hth' d' Hd' Ha).
    + intros Ha _ E'. by destruct (Hth' d Hd Ha).
  - intros d Hd. destruct (decide (d = m)) as [->|Hne]; rewrite ?fn_lookup_insert, ?fn_lookup_insert_ne by done; auto.
  - intros T b e. intros [He|He]%elem_of_app; [by eapply Hlo|]. by apply list_elem_of_singleton in He.
Qed.
Lemma told_sound x k s : (∀ T b e, k ≠ Periodic T b e) → sound true x s → sound true x (tell k s).
Proof using Type.
  intros Hk [Hin Hout Hnd Hli Has Hun Hva Hmo Hti Hlo]. split; try done. intros T b e [He|He]%elem_of_app; [by eapply Hlo|].
  apply list_elem_of_singleton in He. by destruct (Hk T b e).
Qed.

(** A thread may call [synchronize] that is not asleep in the barrier, on a core whose
    condition variable nobody sleeps on. *)
Definition master_of c s : nat := default c (m_core_group (bar s) c).
Definition may_enter c s : Prop :=
  (master_of c s < n)%nat ∧ asleep s (master_of c s) = false ∧
  ∀ tid, thread_of (env s) c = Some tid → 0 ≤ tid ∧ ∀ d, (d < n)%nat → asleep s d = true → m_core_thread (bar s) d ≠ tid.
(** Another core runs that is not in the barrier. *)
Definition runs_outside s s' : Prop :=
  ∃ d, (d < n)%nat ∧ m_core_group (bar s) d = None ∧ isCoreRunning n (env s) (bar s) d = Ok true ∧ asleep s' d = false.
Definition none_runs s : Prop := ∀ d, (d < n)%nat → m_core_group (bar s) d = None → isCoreRunning n (env s) (bar s) d = Ok false.

Lemma core_itself_err e c f : core_itself_running e c = Err f → f = AssertFail.
Proof using Type. unfold core_itself_running. destruct (is_running e c); [|done]. destruct (thread_of e c); congruence. Qed.
Lemma any_sibling_err e b c l f : any_sibling_running e b c l = Err f → f = AssertFail.
Proof using Type.
  induction l as [|d l IH]; cbn; [done|]. case_bool_decide; [|done]. destruct (core_itself_running e d) as [[]|] eqn:Ed; cbn; [done|done|].
  intros [= <-]. by apply core_itself_err in Ed.
Qed.
Lemma isCoreRunning_err e b c f : isCoreRunning n e b c = Err f → f = AssertFail.
Proof using Type.
  unfold isCoreRunning. destruct (core_itself_running e c) as [[]|] eqn:Ec; cbn; [done| |intros [= <-]; by apply core_itself_err in Ec].
  destruct (m_fastforward b); cbn; [done|apply any_sibling_err].
Qed.
Lemma reached_loop_err e b l y f : reached_loop n e b l y = Err f → f = AssertFail.
Proof using Type.
  revert y. induction l as [|c l IH]; intros y; cbn [reached_loop]; [done|].
  destruct (isCoreRunning n e b c) as [[]|] eqn:Ec; cbn [rbind]; repeat case_match; try done; try apply IH; intros [= <-]; by apply isCoreRunning_err in Ec.
Qed.

Lemma sleeps_sound m s : (m < n)%nat → m_barrier_acquire_list (bar s) m = true → sound true (Some m) s → sound true None (wait_cond m s).
Proof using Type.
  intros Hm Hma [Hin Hout Hnd Hli Has Hun Hva Hmo Hti Hlo]. split; cbn; try done. intros d Hd. destruct (decide (d = m)) as [->|Hne].
  - rewrite fn_lookup_insert. split; auto.
  - rewrite fn_lookup_insert_ne, Has by done. split; [intros [[? _]|?]; auto|intros [[? _]|?]; [left; split; congruence|by right]].
Qed.
Lemma left_sound m s : m_barrier_acquire_list (bar s) m = false → sound true (Some m) s → sound true None s.
Proof using Type.
  intros Hma [Hin Hout Hnd Hli Has Hun Hva Hmo Hti Hlo]. split; try done. intros d Hd. rewrite Has by done.
  split; [intros [[? _]|?]; auto|intros [[? _]|?]; [left; split; congruence|by right]].
Qed.

(** What follows when the core [m] is in the barrier; [s] is the state before the call, [s1] when
    the condition is tested. *)
Lemma wps_arrive F fuel tid c m s s1 : F AssertFail → sound true (Some m) s1 → (m < n)%nat → m_barrier_acquire_list (bar s1) m = true →
  m_core_thread (bar s1) m = tid → m_next_barrier_time (bar s1) + Z.of_nat fuel * interval < 2 ^ 64 →
  (F NoFuel ∨ m_local_clock_list (bar s1) m < m_next_barrier_time (bar s1) + Z.of_nat fuel * interval) →
  (∀ d, asleep s1 d = true → asleep s d = true) → asleep s1 m = false → asleep s m = false → env s1 = env s → m_core_group (bar s1) = m_core_group (bar s) →
  m_fastforward (bar s1) = m_fastforward (bar s) → (wakes s s1 ∨ m_to_release (bar s1) = []) →
  wps F (reached ← lift (isBarrierReached n (env s1) (bar s1));
         mustWait ← release_if n num_host_cores shuffle reached fuel tid;
         leave mustWait m c) s1
    (λ o s', sound true None s' ∧ ∀ k, o = Sleeps k → k = m ∧ asleep s' m = true ∧ (wakes s s' ∨ runs_outside s s' ∨ none_runs s)).
Proof using plain interval_pos hosts_pos shuffle_perm.
  intros HF Hs Hm Hma Ht Hb He Has Hsm Hsm' Ev Eg Ef Hw. wstep. apply wps_lift; [|intros e Hr; apply reached_loop_err in Hr as ->; done].
  intros r Hr. wstep. unfold release_if. destruct r.
  - eapply wps_mono.
    + eapply wps_barrierRelease; [done|done|by split_and!|by eapply reached_there|done|done|]. destruct He as [He|He]; [by left|]. right. by exists m.
    + intros r s2 [Hs2 Hr2]. destruct (Hr2 eq_refl) as [-> Hwk]. unfold leave, caller_stays in *. destruct (m_barrier_acquire_list (bar s2) m) eqn:Hm2.
      * wstep. wstep. wstep. split; [by apply sleeps_sound|]. intros k [= <-]. split; [done|]. cbn. split; [by rewrite fn_lookup_insert|]. left.
        destruct (Hwk eq_refl) as (d & Hd & Hd1 & Hd2). exists d. split; [done|]. split; [by apply Has|]. cbn. rewrite fn_lookup_insert_ne; [done|]. intros ->. congruence.
      * wstep. wstep. wstep. split; [|done]. apply told_sound; [done|]. by eapply left_sound.
  - wstep. unfold leave. wstep. wstep. wstep. split; [by apply sleeps_sound|]. intros k [= <-]. split; [done|]. cbn. split; [by rewrite fn_lookup_insert|].
    assert (∀ d, asleep s1 d = false → d ≠ m → <[m := true]> (asleep s1) d = false) as Hk by (intros d Hd Hne; by rewrite fn_lookup_insert_ne).
    destruct Hw as [(d & Hd & Hd1 & Hd2)|Hnil].
    { left. exists d. split; [done|]. split; [done|]. cbn. destruct (decide (d = m)) as [->|Hne]; [congruence|by apply Hk]. }
    right. destruct (reached_loop_spec _ _ _ _ _ (proj1 (so_modes _ _ _ Hs)) Hr) as [(d & Hd & Hg & Hrun & Hcl)|[_ Hno]].
    + left. apply elem_of_seq in Hd. exists d. split; [lia|]. rewrite <- Eg, <- Ev. split; [done|]. split; [by rewrite <- Hrun; apply isCoreRunning_ext|]. cbn.
      assert (m_barrier_acquire_list (bar s1) d = false) as Hda.
      { destruct (m_barrier_acquire_list (bar s1) d) eqn:Hda; [|done]. destruct (so_in _ _ _ Hs d ltac:(lia) Hda) as [|[]]; [lia|done]. }
      apply Hk; [|congruence]. apply not_true_iff_false. intros Hsl. apply (so_asleep _ _ _ Hs) in Hsl; [|lia]. rewrite Hnil, elem_of_nil in Hsl. destruct Hsl as [[]|]; congruence.
    + right. intros d Hd Hg. rewrite <- Eg in Hg. rewrite <- (Hno d ltac:(apply elem_of_seq; lia) Hg), <- Ev. by apply isCoreRunning_ext.
Qed.

Lemma wps_synchronize F fuel c time s : F AssertFail → F NullPointer → sound true None s → may_enter c s →
  m_next_barrier_time (bar s) + Z.of_nat fuel * interval < 2 ^ 64 → (F NoFuel ∨ time < m_next_barrier_time (bar s) + Z.of_nat fuel * interval) →
  wps F (synchronize n num_host_cores shuffle fuel c time) s
    (λ o s', sound true None s' ∧ ∀ k, o = Sleeps k → k = master_of c s ∧ asleep s' k = true ∧ (wakes s s' ∨ runs_outside s s' ∨ none_runs s)).
Proof using plain interval_pos hosts_pos shuffle_perm.
  intros HF HF' Hs (Hm & Hma & Hth) Hb He. unfold synchronize. wstep. wstep. rewrite (proj1 (so_modes _ _ _ Hs)), (proj2 (so_modes _ _ _ Hs)). cbv zeta. fold (master_of c s).
  set (m := master_of c s) in *. wstep. apply wps_lift; [|intros e He'; destruct (thread_of (env s) c); [done|by injection He' as <-]].
  intros tid Etid. destruct (thread_of (env s) c) as [tid'|] eqn:Eth; [injection Etid as ->|done]. destruct (Hth tid eq_refl) as [Htid Hout].
  wstep. wstep; [|exact HF]. wstep. wstep; [|exact HF]. rewrite andb_true_r. wstep; [wstep; by split|].
  match goal with Hlt : (_ <? _) = false |- _ => apply Z.ltb_ge in Hlt end.
  wstep. wstep. wstep. wstep. wstep. wstep. wstep. wstep. cbn [id].
  destruct (doRelease_spec 1 s) as (sent & rest & Hr & _). pose proof (doRelease_sound true None 1 s Hs) as Hs1.
  set (s1 := upd _ _). assert (m_next_barrier_time (bar s1) = m_next_barrier_time (bar s) ∧ env s1 = env s ∧ m_core_group (bar s1) = m_core_group (bar s) ∧
    m_fastforward (bar s1) = m_fastforward (bar s) ∧ asleep s1 = asleep (doRelease 1 s) ∧ m_local_clock_list (bar s1) m = time ∧
    m_barrier_acquire_list (bar s1) m = true ∧ m_core_thread (bar s1) m = tid ∧ m_to_release (bar s1) = m_to_release (bar (doRelease 1 s))) as (N1 & V1 & G1 & F1 & S1 & C1 & A1 & T1 & L1).
  { subst s1. cbn. rewrite !fn_lookup_insert, (re_bar _ _ _ _ Hr), (re_env _ _ _ _ Hr). by split_and!. }
  assert (asleep s1 m = false) as Hsm by (rewrite S1, (re_asleep _ _ _ _ Hr), Hma; done).
  eapply wps_mono.
  - apply (wps_arrive F fuel tid c m s s1); rewrite ?N1, ?C1; try done.
    + apply entered_sound; try done; [by rewrite (re_bar _ _ _ _ Hr)|].
      intros d Hd Hda. rewrite (re_bar _ _ _ _ Hr). cbn. apply Hout; [done|]. rewrite (re_asleep _ _ _ _ Hr) in Hda. by apply andb_true_iff in Hda as [? _].
    + intros d. rewrite S1, (re_asleep _ _ _ _ Hr). by intros [? _]%andb_true_iff.
    + rewrite L1. destruct (m_to_release (bar s)) eqn:El.
      * right. destruct (app_nil rest (rev sent)) as [Hx _]. rewrite <- (re_list _ _ _ _ Hr), El in Hx. destruct (Hx eq_refl) as [-> _]. by rewrite (re_bar _ _ _ _ Hr).
      * left. destruct (doRelease_wakes true None 1 s Hs ltac:(done) ltac:(congruence)) as (d & Hd). exists d. by rewrite S1.
  - cbn. intros o s' [Hs' Ho]. split; [done|]. intros k Hk. destruct (Ho k Hk) as (-> & ? & ?). done.
Qed.

Lemma reached_loop_some e b l y : m_fastforward b = false → reached_loop n e b l y = Ok true →
  y = true ∨ ∃ c, c ∈ l ∧ m_core_group b c = None ∧ isCoreRunning n e b c = Ok true.
Proof using Type.
  intros Hf. revert y. induction l as [|c l IH]; intros y; cbn [reached_loop]; [intros [= ->]; by left|]. rewrite Hf.
  destruct (decide (m_core_group b c = None)) as [Hg|Hg].
  - rewrite (bool_decide_false (_ ≠ None)) by tauto. destruct (isCoreRunning n e b c) as [[]|] eqn:Er; cbn [rbind]; [case_match; [done|]| |done].
    + intros _. right. exists c. split; [by left|done].
    + intros Hr. destruct (IH y Hr) as [->|(d & Hd & Hd')]; [by left|right; exists d; split; [by right|done]].
  - rewrite bool_decide_true by done. intros Hr. destruct (IH y Hr) as [->|(d & Hd & Hd')]; [by left|right; exists d; split; [by right|done]].
Qed.
Definition clocks_below (t : Z) s : Prop := ∀ c, (c < n)%nat → m_barrier_acquire_list (bar s) c = true → m_local_clock_list (bar s) c < t.

Lemma wps_signal F fuel s : F AssertFail → sound true None s → m_next_barrier_time (bar s) + Z.of_nat fuel * interval < 2 ^ 64 →
  (F NoFuel ∨ clocks_below (m_next_barrier_time (bar s) + Z.of_nat fuel * interval) s) →
  wps F (signal n num_host_cores shuffle fuel) s (λ _ s', sound true None s' ∧
    (wakes s s' ∨ (∃ d, (d < n)%nat ∧ m_core_group (bar s) d = None ∧ isCoreRunning n (env s) (bar s) d = Ok true ∧ m_barrier_acquire_list (bar s) d = false ∧ s' = s) ∨ none_runs s)).
Proof using plain interval_pos hosts_pos shuffle_perm.
  intros HF Hs Hb He. unfold signal. wstep. wstep. rewrite (proj2 (so_modes _ _ _ Hs)). wstep.
  apply wps_lift; [|intros e Hr; apply reached_loop_err in Hr as ->; done]. intros r Hr. pose proof (proj1 (so_modes _ _ _ Hs)) as Hf. wstep.
  - subst r. wstep. eapply wps_mono.
    + apply (wps_barrierRelease F INVALID_THREAD_ID None false fuel s); try done; [by eapply reached_there|].
      destruct He as [He|He]; [by left|]. right. destruct (reached_loop_some _ _ _ _ Hf Hr) as [|(c & Hc%elem_of_seq & Hg & Hrun)]; [done|].
      assert (m_barrier_acquire_list (bar s) c = true) as Hca by (apply (reached_there None s Hs Hr); auto with lia).
      exists c. split; [lia|]. split; [done|]. apply He; [lia|done].
    + intros r s' [Hs' Hr']. wstep. split; [done|]. left. destruct (Hr' eq_refl) as [-> Hwk]. by apply Hwk.
  - subst r. split; [done|]. destruct (reached_loop_spec _ _ _ _ _ Hf Hr) as [(d & Hd%elem_of_seq & Hg & Hrun & Hcl)|[_ Hno]].
    + right. left. exists d. split; [lia|]. split_and!; try done.
      destruct (m_barrier_acquire_list (bar s) d) eqn:Hda; [|done]. destruct (so_in _ _ _ Hs d ltac:(lia) Hda) as [|[]]; [lia|done].
    + right. right. intros d Hd. apply Hno, elem_of_seq. lia.
Qed.

(** A thread that is not in the barrier is migrated, or stops. *)
Definition outside (thread_id : Z) s : Prop := ∀ c, (c < n)%nat → m_barrier_acquire_list (bar s) c = true → m_core_thread (bar s) c ≠ thread_id.
Lemma releaseThread_outside thread_id s : outside thread_id s → releaseThread n thread_id s = doRelease 1 s.
Proof using Type.
  intros Ho. unfold releaseThread. f_equal. assert (∀ c, c ∈ seq 0 n → (c < n)%nat) as Hl by (intros c Hc%elem_of_seq; lia).
  revert Hl. generalize (seq 0 n). intros l Hl. induction l as [|c l IH]; cbn [foldl]; [done|].
  destruct (m_barrier_acquire_list (bar s) c) eqn:Ea; cbn [andb]; [|apply IH; intros d Hd; apply Hl; by right].
  rewrite (proj2 (Z.eqb_neq _ _)) by (apply Ho; [apply Hl; by left|done]). apply IH. intros d Hd. apply Hl. by right.
Qed.
Lemma wps_advance F fuel s : F AssertFail → F NoFuel → sound true None s → anyThreadRunning (env s) = false →
  (∀ e t, isThreadRunning e t = true → anyThreadRunning e = true) →
  (∀ c, (c < n)%nat → m_barrier_acquire_list (bar s) c = false) → m_next_barrier_time (bar s) + Z.of_nat fuel * interval < 2 ^ 64 →
  wps F (advance n num_host_cores shuffle fuel) s (λ _ s', sound true None s').
Proof using plain interval_pos hosts_pos shuffle_perm.
  intros HF HF' Hs Hany Hlaw Hno Hb. unfold advance. wstep. eapply wps_mono; [apply (wps_barrierRelease F INVALID_THREAD_ID None true fuel s); try done|].
  - intros c Hc _ Hrun. exfalso. assert (∀ d, core_itself_running (env s) d ≠ Ok true) as Hcore.
    { intros d. unfold core_itself_running. destruct (is_running (env s) d); [|done]. destruct (thread_of (env s) d) as [t|]; [|done]. intros [= Ht].
      apply Hlaw in Ht. congruence. }
    assert (∀ l, any_sibling_running (env s) (bar s) c l ≠ Ok true) as Hsib.
    { intros l. induction l as [|d l IH]; cbn; [done|]. case_bool_decide; [|done]. specialize (Hcore d). destruct (core_itself_running (env s) d) as [[]|]; cbn; done. }
    specialize (Hcore c). unfold isCoreRunning in Hrun. destruct (core_itself_running (env s) c) as [[]|]; cbn in Hrun; [done| |done].
    destruct (m_fastforward (bar s)); [done|]. by apply Hsib in Hrun.
  - by left.
  - intros r s' [Hs' _]. by wstep.
Qed.

(** ** Runs *)

Context (running_counts : ∀ e t, isThreadRunning e t = true → anyThreadRunning e = true).

(** The time that [fuel] rounds of the loop reach fits into [SubsecondTime]. *)
Definition in_time (fuel : nat) s : Prop := m_next_barrier_time (bar s) + Z.of_nat fuel * interval < 2 ^ 64.

(** The calls of the server, and anything that cores, threads and timeouts do in between. *)
Inductive step : st → st → Prop :=
  | step_synchronize fuel c time o s s' : (c < n)%nat → may_enter c s → in_time fuel s →
      synchronize n num_host_cores shuffle fuel c time s = Ok (o, s') → step s s'
  | step_stall fuel thread_id s s' : outside thread_id s → in_time fuel s → threadStall n num_host_cores shuffle fuel thread_id s = Ok (tt, s') → step s s'
  | step_exit fuel thread_id s s' : outside thread_id s → in_time fuel s → threadExit n num_host_cores shuffle fuel thread_id s = Ok (tt, s') → step s s'
  | step_migrate thread_id s : outside thread_id s → step s (threadMigrate n thread_id s)
  | step_advance fuel s s' : anyThreadRunning (env s) = false → (∀ c, (c < n)%nat → m_barrier_acquire_list (bar s) c = false) → in_time fuel s →
      advance n num_host_cores shuffle fuel s = Ok (tt, s') → step s s'
  | step_group c master s s' : setGroup c master s = Ok (tt, s') → step s s'
  | step_environment e s : step s (mk_state (bar s) e (asleep s) (events s)).
Definition start e : st := mk_state (new interval) e (λ _, false) [].

Lemma start_sound e : interval < 2 ^ 64 → sound true None (start e).
Proof using interval_pos.
  intros Hb. split; cbn; try done; try (intros; lia).
  - apply NoDup_nil_2.
  - intros c Hc%elem_of_nil. done.
  - intros c _. rewrite elem_of_nil. split; [done|intros [[]|]; done].
  - split; [done|]. split; [lia|]. by apply Z.mod_same; lia.
  - intros T b e' Hc%elem_of_nil. done.
Qed.
Lemma stop_sound F fuel thread_id s : F AssertFail → F NoFuel → sound true None s → outside thread_id s → in_time fuel s →
  wps F (threadStall n num_host_cores shuffle fuel thread_id) s (λ _ s', sound true None s').
Proof using plain interval_pos hosts_pos shuffle_perm.
  intros HF HF' Hs Ho Hb. unfold threadStall. wstep. wstep. rewrite releaseThread_outside by done.
  destruct (doRelease_spec 1 s) as (sent & rest & Hr & _).
  eapply wps_mono; [apply (wps_signal F fuel (doRelease 1 s)); [done|by apply doRelease_sound| |by left]|by intros [] s' [? _]].
  rewrite (re_bar _ _ _ _ Hr). exact Hb.
Qed.
Lemma wps_after {A} (m : M st A) (P : st → Prop) s a s' : wps anything m s (λ _, P) → m s = Ok (a, s') → P s'.
Proof using Type. apply wps_elim. Qed.
Lemma step_sound s s' : sound true None s → step s s' → sound true None s'.
Proof using plain interval_pos hosts_pos shuffle_perm running_counts.
  intros Hs Hst. destruct Hst as [fuel c time o s s' Hc Hm Hb Hr|fuel tid s s' Ho Hb Hr|fuel tid s s' Ho Hb Hr|tid s Ho|fuel s s' Hany Hno Hb Hr|c m s s' Hr|e s].
  - refine (wps_after _ _ _ _ _ _ Hr). eapply wps_mono; [by apply wps_synchronize; try done; left|]. by intros o' s1 [? _].
  - refine (wps_after _ _ _ _ _ _ Hr). by apply stop_sound.
  - refine (wps_after _ _ _ _ _ _ Hr). by apply stop_sound.
  - unfold threadMigrate. rewrite releaseThread_outside by done. by apply doRelease_sound.
  - refine (wps_after _ _ _ _ _ _ Hr). by apply wps_advance.
  - unfold setGroup in Hr. refine (wps_after _ _ _ _ _ _ Hr). wstep. wstep. wstep. wstep; [wstep; [|done]|]; wstep;
      destruct Hs as [Hin Hout Hnd Hli Has Hun Hva Hmo Hti Hlo]; by split.
  - destruct Hs as [Hin Hout Hnd Hli Has Hun Hva Hmo Hti Hlo]. by split.
Qed.
Lemma reachable_sound e s : interval < 2 ^ 64 → star step (start e) s → sound true None s.
Proof using plain interval_pos hosts_pos shuffle_perm running_counts.
  intros Hb. apply star_invariant; [apply step_sound|by apply start_sound].
Qed.

(** [C20] In detailed mode - the barrier is enabled, nothing is fast-forwarded, the interval is
    fixed -, with periodic hooks that at most migrate threads, and callers that are not asleep
    in the barrier, in times below 2^64: whatever cores and threads do, when the periodic hooks
    are called at a time T, then every ungrouped core that was running when the barrier was
    reached sleeps in the barrier - it executes nothing meanwhile - and its clock is at T at
    least. *)
Theorem barrier_lockstep e s T b e' : interval < 2 ^ 64 → star step (start e) s → Periodic T b e' ∈ events s →
  ∀ c, (c < n)%nat → m_core_group b c = None → isCoreRunning n e' b c = Ok true → m_barrier_acquire_list b c = true ∧ T ≤ m_local_clock_list b c.
Proof using plain interval_pos hosts_pos shuffle_perm running_counts. intros Hb Hs He. exact (so_log _ _ _ (reachable_sound e s Hb Hs) T b e' He). Qed.

(** [C22] In detailed mode - the barrier is enabled, nothing is fast-forwarded, the interval is
    fixed -, with periodic hooks that at most migrate threads, and callers that are not asleep
    in the barrier, in times below 2^64: a core that sleeps is in the barrier or about to be
    woken up, and it is in the barrier exactly when its clock has reached the barrier time; a
    core outside calls the server again, by the time its client computes, before it passes the
    barrier time. *)
Theorem barrier_clocks e s c : interval < 2 ^ 64 → star step (start e) s → (c < n)%nat →
  (asleep s c = true ↔ m_barrier_acquire_list (bar s) c = true ∨ c ∈ m_to_release (bar s)) ∧
  (m_barrier_acquire_list (bar s) c = true ↔ m_next_barrier_time (bar s) ≤ m_local_clock_list (bar s) c) ∧
  (∀ k, m_barrier_acquire_list (bar s) c = false → 0 ≤ m_local_clock_list (bar s) c →
    ∃ k', BarrierSyncClient.after_server k (m_local_clock_list (bar s) c) interval = Ok k' ∧
      m_local_clock_list (bar s) c < BarrierSyncClient.m_next_sync_time k' ≤ m_next_barrier_time (bar s)).
Proof using plain interval_pos hosts_pos shuffle_perm running_counts.
  intros Hb Hr Hc. destruct (reachable_sound e s Hb Hr) as [Hin Hout Hnd Hli Has Hun Hva Hmo (_ & Ht & Hmod) Hlo]. split_and!.
  - rewrite Has by done. split; [intros [[? _]|?]; auto|intros [?|?]; [by left|by right]].
  - split; [intros Ha; destruct (Hin c Hc Ha) as [|[]]; done|]. intros Hle. destruct (m_barrier_acquire_list (bar s) c) eqn:Ea; [done|]. pose proof (Hout c Hc Ea). lia.
  - intros k Ha H0. pose proof (Hout c Hc Ha) as Hlt. set (t := m_local_clock_list (bar s) c) in *. set (T := m_next_barrier_time (bar s)) in *.
    unfold BarrierSyncClient.after_server, SubsecondTime.div, udiv. rewrite (proj2 (Z.eqb_neq _ _)) by lia. cbn [rbind].
    pose proof (Z.div_mod t interval ltac:(lia)) as Hdm. pose proof (Z.mod_pos_bound t interval interval_pos).
    pose proof (Z.div_mod T interval ltac:(lia)) as HT. rewrite Hmod in HT. assert (t `div` interval + 1 ≤ T `div` interval) by nia.
    pose proof (Z.div_pos t interval H0 interval_pos). eexists. split; [done|]. cbn. unfold SubsecondTime.mul, SubsecondTime.add.
    rewrite (u64_small (t `div` interval * interval)), u64_small by (unfold in_u64; nia). nia.
Qed.

(** [C21] In detailed mode - the barrier is enabled, nothing is fast-forwarded, the interval is
    fixed -, with periodic hooks that at most migrate threads, and callers that are not asleep
    in the barrier, in times below 2^64: an ungrouped core that runs and is not initialising
    never goes to sleep in the barrier without another to go on: its call wakes up a core that
    slept, or a core runs that is not in the barrier. *)
Theorem barrier_progress e s fuel c time k s' : interval < 2 ^ 64 → star step (start e) s → (c < n)%nat → may_enter c s → in_time fuel s →
  m_core_group (bar s) c = None → core_itself_running (env s) c = Ok true →
  synchronize n num_host_cores shuffle fuel c time s = Ok (Sleeps k, s') →
  k = c ∧ asleep s' c = true ∧
  ((∃ d, (d < n)%nat ∧ asleep s d = true ∧ asleep s' d = false) ∨
   (∃ d, (d < n)%nat ∧ isCoreRunning n (env s) (bar s) d = Ok true ∧ asleep s' d = false)).
Proof using plain interval_pos hosts_pos shuffle_perm running_counts.
  intros Hb Hr Hc Hm Ht Hg Hrun Hsy.
  assert (wps anything (synchronize n num_host_cores shuffle fuel c time) s
    (λ o s', sound true None s' ∧ ∀ k, o = Sleeps k → k = master_of c s ∧ asleep s' k = true ∧ (wakes s s' ∨ runs_outside s s' ∨ none_runs s))) as Hw
    by (apply wps_synchronize; try done; [by apply (reachable_sound e)|by left]).
  apply (wps_elim _ _ _ _ _ _ Hw) in Hsy as [_ Hk]. destruct (Hk k eq_refl) as (-> & Ha & Hwk). unfold master_of in *. rewrite Hg in *. cbn in *.
  split; [done|]. split; [done|]. destruct Hwk as [Hwk|[(d & Hd & _ & Hd')|Hno]]; [by left|right; by exists d|].
  specialize (Hno c Hc Hg). unfold isCoreRunning in Hno. by rewrite Hrun in Hno.
Qed.

(** [C23] In detailed mode - the barrier is enabled, nothing is fast-forwarded, the interval is
    fixed -, with periodic hooks that at most migrate threads, and callers that are not asleep
    in the barrier, in times below 2^64: the loop of [barrierRelease] ends: a round more than
    the clocks of the cores in the barrier are ahead of it is enough, when a core arrives and
    when a thread stops ([hangs_after_disable] is about a disabled barrier). *)
Theorem barrier_returns e s fuel : interval < 2 ^ 64 → star step (start e) s → in_time fuel s →
  (∀ c time, (c < n)%nat → may_enter c s → time < m_next_barrier_time (bar s) + Z.of_nat fuel * interval →
    synchronize n num_host_cores shuffle fuel c time s ≠ Err NoFuel) ∧
  (∀ thread_id, outside thread_id s → clocks_below (m_next_barrier_time (bar s) + Z.of_nat fuel * interval) s →
    threadStall n num_host_cores shuffle fuel thread_id s ≠ Err NoFuel).
Proof using plain interval_pos hosts_pos shuffle_perm running_counts.
  intros Hb Hr Ht. pose proof (reachable_sound e s Hb Hr) as Hs. split.
  - intros c time Hc Hm Htime Hn. pose proof (wps_synchronize terminates fuel c time s ltac:(done) ltac:(done) Hs Hm Ht (or_intror Htime)) as Hw.
    unfold wps in Hw. by rewrite Hn in Hw.
  - intros tid Ho Hcl.
    destruct (doRelease_spec 1 s) as (sent & rest & [_ Rb _ _ _] & _).
    assert (wps terminates (signal n num_host_cores shuffle fuel) (doRelease 1 s) (λ _ s', True)) as Hw.
    { eapply wps_mono; [apply wps_signal; [done|by apply doRelease_sound| |right]|done]; unfold clocks_below; by rewrite Rb. }
    intros Hn. unfold threadStall, mbind, M_bind, modify in Hn. rewrite releaseThread_outside in Hn by done. unfold wps in Hw. by rewrite Hn in Hw.
Qed.
End invariant.

(** ** Examples *)

Module BarrierExample.
(** Cores with one thread each, whose numbers are the same; some of them run.  The hooks do nothing. *)
Definition running : Type := list bool.
#[export] Instance cores : Environment running := {|
  is_running e c := default false (e !! c);
  is_initializing _ _ := false;
  thread_of _ c := Some (Z.of_nat c);
  isThreadRunning e t := default false (e !! Z.to_nat t);
  anyThreadRunning e := existsb (λ x, x) e;
  getNextTimeout _ _ := 0;
  periodic _ e := ([], e);
|}.
Definition s0 : state running := start 100 [true; true].
Abbreviation arrive c time := (synchronize (E := running) 2 1 (λ l : list nat, l) 5 c time).
Definition call {A} (m : M (state running) A) (s : state running) : state running := match m s with Ok (_, s) => s | Err _ => s end.
(** Core 0 arrives with clock 120 and sleeps, core 1 arrives with 310: the hooks are called at
    100, and core 0 goes on. *)
Definition s1 : state running := call (arrive 0 120) s0.
Definition s2 : state running := call (arrive 1 310) s1.
Example both_arrive : m_next_barrier_time (bar s2) = 200 ∧ asleep s2 0 = false ∧ asleep s2 1 = true ∧
  List.map (λ x, match x with Periodic t _ _ => t | _ => 0 end) (events s2) = [0; 0; 100; 0; 0].
Proof. by vm_compute. Qed.

Lemma no_callbacks time (e : running) k : k ∈ fst (periodic time e) → ∃ t, k = Migrate t.
Proof. by intros ?%elem_of_nil. Qed.
Lemma shuffle_id (l : list nat) : l ≡ₚ l.
Proof. done. Qed.
Lemma some_runs (e : running) t : isThreadRunning e t = true → anyThreadRunning e = true.
Proof.
  intros Ht. change (default false (e !! Z.to_nat t) = true) in Ht. apply existsb_exists. exists true. split; [|done]. apply list_elem_of_In. destruct (e !! Z.to_nat t) as [x|] eqn:El; [|done].
  cbn in Ht. subst x. by eapply list_elem_of_lookup_2.
Qed.
Lemma call_ok {A} (m : M (state running) A) s : is_ok (m s) = true → ∃ o, m s = Ok (o, call m s).
Proof. unfold call. destruct (m s) as [[o s']|]; [by exists o|done]. Qed.
Lemma reach1 : star (step 2 100 1 (λ l, l)) s0 s1.
Proof.
  apply star_one. destruct (call_ok (arrive 0 120) s0) as [o Ho]; [by vm_compute|]. eapply (step_synchronize _ _ _ _ 5 0 120 o); [lia| |by vm_compute|exact Ho].
  split; [by vm_compute; lia|]. split; [done|]. intros tid [= <-]. split; [done|]. intros d Hd. by vm_compute.
Qed.
Lemma enter1 : may_enter 2 1 s1.
Proof.
  split; [by vm_compute; lia|]. split; [by vm_compute|]. intros tid [= <-]. split; [done|]. intros [|[|d]] Hd; [by vm_compute|by vm_compute|lia].
Qed.
Lemma reach2 : star (step 2 100 1 (λ l, l)) s0 s2.
Proof.
  eapply star_step; [exact reach1|]. destruct (call_ok (arrive 1 310) s1) as [o Ho]; [by vm_compute|].
  unfold s2. by eapply (step_synchronize _ _ _ _ 5 1 310 o); [lia|exact enter1|vm_compute|].
Qed.

Lemma barrier_lockstep_witness : ∃ b e, events s2 !! 2%nat = Some (Periodic 100 b e) ∧
  isCoreRunning 2 e b 0 = Ok true ∧ m_barrier_acquire_list b 0 = true ∧ 100 ≤ m_local_clock_list b 0.
Proof.
  eexists _, _. split; [vm_compute; reflexivity|]. split; [vm_compute; reflexivity|].
  refine (barrier_lockstep 2 100 ltac:(lia) no_callbacks 1 (λ l, l) ltac:(lia) shuffle_id some_runs [true; true] s2 100 _ _ ltac:(lia) reach2 _ 0 ltac:(lia) _ _);
    [eapply (list_elem_of_lookup_2 _ 2); vm_compute; reflexivity|vm_compute; reflexivity|vm_compute; reflexivity].
Defined.
Lemma barrier_clocks_witness : asleep s2 1 = true ∧ asleep s2 0 = false ∧
  (m_barrier_acquire_list (bar s2) 1 = true ↔ 200 ≤ 310) ∧
  ∃ k', BarrierSyncClient.after_server (BarrierSyncClient.new 100) 120 100 = Ok k' ∧ 120 < BarrierSyncClient.m_next_sync_time k' ≤ 200.
Proof.
  destruct (barrier_clocks 2 100 ltac:(lia) no_callbacks 1 (λ l, l) ltac:(lia) shuffle_id some_runs [true; true] s2 1 ltac:(lia) reach2 ltac:(lia)) as (_ & H1 & _).
  destruct (barrier_clocks 2 100 ltac:(lia) no_callbacks 1 (λ l, l) ltac:(lia) shuffle_id some_runs [true; true] s2 0 ltac:(lia) reach2 ltac:(lia)) as (_ & _ & H0).
  split; [by vm_compute|]. split; [by vm_compute|]. split; [exact H1|]. exact (H0 (BarrierSyncClient.new 100) eq_refl ltac:(vm_compute; discriminate)).
Defined.
Lemma barrier_progress_witness : asleep (call (arrive 1 310) s1) 1 = true ∧
  ((∃ d, (d < 2)%nat ∧ asleep s1 d = true ∧ asleep (call (arrive 1 310) s1) d = false) ∨
   (∃ d, (d < 2)%nat ∧ isCoreRunning 2 (env s1) (bar s1) d = Ok true ∧ asleep (call (arrive 1 310) s1) d = false)).
Proof.
  assert (arrive 1 310 s1 = Ok (Sleeps 1, call (arrive 1 310) s1)) as Hs.
  { destruct (call_ok (arrive 1 310) s1) as [o Ho]; [by vm_compute|]. assert (o = Sleeps 1) as <-; [|done].
    assert (match arrive 1 310 s1 with Ok (o, _) => o | Err _ => Returns end = Sleeps 1) as Ho' by (by vm_compute). by rewrite Ho in Ho'. }
  refine (proj2 (barrier_progress 2 100 ltac:(lia) no_callbacks 1 (λ l, l) ltac:(lia) shuffle_id some_runs [true; true] s1 5 1 310 1 _ ltac:(lia) reach1 ltac:(lia) enter1 _ _ _ Hs)); by vm_compute.
Defined.
Lemma barrier_returns_witness : synchronize 2 1 (λ l, l) 3 1 310 s1 ≠ Err NoFuel.
Proof.
  refine (proj1 (barrier_returns 2 100 ltac:(lia) no_callbacks 1 (λ l, l) ltac:(lia) shuffle_id some_runs [true; true] s1 3 ltac:(lia) reach1 _) 1%nat 310 _ enter1 _); [by vm_compute|lia|by vm_compute].
Defined.

(** *** The barrier is disabled and enabled again

    Core 0 is released, but its clock is still ahead of the barrier time.  When core 1 stops,
    the barrier counts as reached, and its loop waits for a core that is not in it. *)
Lemma spins (e0 : running) caller m fuel : ∀ s, m_barrier_acquire_list (bar s) 0 = false → m_barrier_acquire_list (bar s) 1 = false → m_disable (bar s) = false →
  release_loop 2 e0 fuel caller false m s = Err NoFuel.
Proof.
  induction fuel as [|fuel IH]; intros s H0 H1 Hd; [done|]. cbn [release_loop]. unfold mbind, M_bind, modify, gets, when, mret, M_ret, call_periodic. cbn.
  rewrite Hd. cbn. rewrite H0, andb_false_r. cbn. rewrite H1, andb_false_r. by apply IH.
Qed.
Definition reenabled : state running :=
  let s := setDisable 2 false (setDisable 2 true s1) in mk_state (bar s) [true; false] (asleep s) (events s).
Lemma hangs_after_disable fuel : threadStall 2 1 (λ l, l) fuel 1 reenabled = Err NoFuel.
Proof.
  unfold threadStall, mbind, M_bind, modify. set (s := releaseThread 2 1 reenabled). unfold signal, mbind, M_bind, gets, lift.
  replace (m_disable (bar s)) with false by (by vm_compute). replace (isBarrierReached 2 (env s) (bar s)) with (Ok true : result bool) by (by vm_compute).
  unfold when, barrierRelease, mbind, M_bind, gets, assert_, lift. replace (bool_decide (m_to_release (bar s) = [])) with true by (by vm_compute).
  cbn [check]. replace (m_fastforward (bar s)) with false by (by vm_compute). unfold when, mret, M_ret. rewrite spins; by vm_compute.
Qed.

(** [stallThread] calls [advance] until a thread runs; while the barrier is disabled, its time
    stays. *)
Lemma advance_disabled fuel (s : state running) s' : m_disable (bar s) = true → m_fastforward (bar s) = false → existsb (λ x, x) (env s) = false →
  advance 2 1 (λ l, l) (S fuel) s = Ok (tt, s') → bar s' = set_global (m_next_barrier_time (bar s)) (bar s) ∧ env s' = env s.
Proof.
  intros Hd Hf Hr. unfold advance, barrierRelease, mbind, M_bind, gets, assert_, lift, check. destruct (bool_decide _); [|done]. rewrite Hf. cbn.
  unfold mbind, M_bind, modify, gets, when, mret, M_ret, call_periodic. cbn. rewrite Hr. cbn. rewrite Hd. cbn. by intros [= <-].
Qed.

End BarrierExample.
