(* ===== verification/Threads.v ===== *)
(** The threads of simulated programs and where they wait: [system/thread_manager.{h,cc}],
    [core/thread.{h,cc}], and an account of waiting threads that the servers for mutexes,
    condition variables, barriers ([SyncServer]) and futexes ([Futex]) share.

    Code of these files runs under the lock of the thread manager, so a call is one step until
    the thread sleeps on its condition variable.  There a thread that waits stays until
    another one signals it, with the time of its wake-up and a message. *)
From stdpp Require Import functions.
From S2P Require Import Prelude Timing.

Definition INVALID_THREAD_ID : Z := -1.

(** [Core::State]. *)
Inductive State := RUNNING | INITIALIZING | STALLED | SLEEPING | WAKING_UP | IDLE | BROKEN.
#[global] Instance State_eq_dec : EqDecision State.
Proof. solve_decision. Defined.

Module ThreadManager.
Inductive stall_type_t :=
  | STALL_UNSCHEDULED | STALL_BROKEN | STALL_JOIN | STALL_MUTEX | STALL_COND | STALL_BARRIER
  | STALL_FUTEX | STALL_PAUSE | STALL_SLEEP | STALL_SYSCALL.
#[global] Instance stall_type_eq_dec : EqDecision stall_type_t.
Proof. solve_decision. Defined.

Record ThreadSpawnRequest := { thread_by : Z; spawned : Z; spawn_time : Z }.

Record t := mk {
  m_threads : Z;                              (* the number of threads *)
  status : Z → State;                         (* m_thread_state, of each thread *)
  stalled_reason : Z → stall_type_t;
  waiter : Z → Z;
  m_thread_spawn_list : list ThreadSpawnRequest;
  asleep : Z → bool;                          (* of the objects of class Thread: in m_cond.wait *)
  m_wakeup_time : Z → Z;
  m_wakeup_msg : Z → bool;                    (* a pointer that is null or not *)
  m_core : Z → option Z;                      (* the core of a thread *)
  core_thread : Z → option Z;                 (* Core::m_thread, of each core *)
  core_state : Z → State;                     (* Core::m_core_state *)
}.
Definition new : t :=
  mk 0 (λ _, IDLE) (λ _, STALL_UNSCHEDULED) (λ _, INVALID_THREAD_ID) [] (λ _, false) (λ _, 0) (λ _, false)
    (λ _, None) (λ _, None) (λ _, IDLE).

Definition set_status (x : Z) (s : State) (w : t) : t :=
  mk (m_threads w) (<[x := s]> (status w)) (stalled_reason w) (waiter w) (m_thread_spawn_list w) (asleep w)
    (m_wakeup_time w) (m_wakeup_msg w) (m_core w) (core_thread w) (core_state w).
Definition set_reason (x : Z) (r : stall_type_t) (w : t) : t :=
  mk (m_threads w) (status w) (<[x := r]> (stalled_reason w)) (waiter w) (m_thread_spawn_list w) (asleep w)
    (m_wakeup_time w) (m_wakeup_msg w) (m_core w) (core_thread w) (core_state w).
Definition set_waiter (x y : Z) (w : t) : t :=
  mk (m_threads w) (status w) (stalled_reason w) (<[x := y]> (waiter w)) (m_thread_spawn_list w) (asleep w)
    (m_wakeup_time w) (m_wakeup_msg w) (m_core w) (core_thread w) (core_state w).
Definition set_spawn_list (l : list ThreadSpawnRequest) (w : t) : t :=
  mk (m_threads w) (status w) (stalled_reason w) (waiter w) l (asleep w)
    (m_wakeup_time w) (m_wakeup_msg w) (m_core w) (core_thread w) (core_state w).
Definition set_core_state (c : Z) (s : State) (w : t) : t :=
  mk (m_threads w) (status w) (stalled_reason w) (waiter w) (m_thread_spawn_list w) (asleep w)
    (m_wakeup_time w) (m_wakeup_msg w) (m_core w) (core_thread w) (<[c := s]> (core_state w)).
Definition set_cores (m : Z → option Z) (c : Z → option Z) (w : t) : t :=
  mk (m_threads w) (status w) (stalled_reason w) (waiter w) (m_thread_spawn_list w) (asleep w)
    (m_wakeup_time w) (m_wakeup_msg w) m c (core_state w).

(** [Thread::wait], up to the sleep, and [Thread::signal]; [setCore] of a thread. *)
Definition wait (x : Z) (w : t) : t :=
  mk (m_threads w) (status w) (stalled_reason w) (waiter w) (m_thread_spawn_list w) (<[x := true]> (asleep w))
    (m_wakeup_time w) (<[x := false]> (m_wakeup_msg w)) (m_core w) (core_thread w) (core_state w).
Definition signal (x time : Z) (msg : bool) (w : t) : t :=
  mk (m_threads w) (status w) (stalled_reason w) (waiter w) (m_thread_spawn_list w) (<[x := false]> (asleep w))
    (<[x := time]> (m_wakeup_time w)) (<[x := msg]> (m_wakeup_msg w)) (m_core w) (core_thread w) (core_state w).
Definition setCore (x : Z) (core : option Z) (w : t) : result t :=
  let w := match m_core w x with Some c => set_cores (m_core w) (<[c := None]> (core_thread w)) w | None => w end in
  let w := set_cores (<[x := core]> (m_core w)) (core_thread w) w in
  match core with
  | Some c =>
      let! _ := check (bool_decide (core_thread w c = None)) AssertFail in
      Ok (set_cores (m_core w) (<[c := Some x]> (core_thread w)) w)
  | None => Ok w
  end.

Definition isThreadRunning (w : t) (x : Z) : bool := bool_decide (status w x = RUNNING).
Definition isThreadInitializing (w : t) (x : Z) : bool := bool_decide (status w x = INITIALIZING).
Definition anyThreadRunning (w : t) : bool :=
  existsb (λ i, isThreadRunning w (Z.of_nat i) || isThreadInitializing w (Z.of_nat i)) (seq 0 (Z.to_nat (m_threads w))).
Definition areAllCoresRunning (w : t) : bool :=
  negb (existsb (λ i, bool_decide (status w (Z.of_nat i) = IDLE)) (seq 0 (Z.to_nat (m_threads w)))).

Definition stallThread_async (x : Z) (reason : stall_type_t) (w : t) : t := set_reason x reason (set_status x STALLED w).
(** Until the thread sleeps.  What the calls of [advance] do while no thread runs are steps of
    their own, [SyscallServer::futexPeriodic] for one. *)
Definition stallThread (x : Z) (reason : stall_type_t) (w : t) : t := wait x (stallThread_async x reason w).
Definition resumeThread_async (x : Z) (w : t) : t := set_status x RUNNING w.
Definition resumeThread (x time : Z) (msg : bool) (w : t) : t := resumeThread_async x (signal x time msg w).

Definition wakeUpWaiter (x time : Z) (w : t) : t :=
  if waiter w x =? INVALID_THREAD_ID then w
  else set_waiter x INVALID_THREAD_ID (resumeThread (waiter w x) time false w).

(** [core_id]: what [threadCreate] of the scheduler answers. *)
Definition createThread_unlocked (core_id : option Z) (w : t) : result (Z * t) :=
  let x := m_threads w in
  let w := mk (x + 1) (<[x := INITIALIZING]> (status w)) (stalled_reason w) (<[x := INVALID_THREAD_ID]> (waiter w))
             (m_thread_spawn_list w) (<[x := false]> (asleep w)) (m_wakeup_time w) (m_wakeup_msg w)
             (<[x := None]> (m_core w)) (core_thread w) (core_state w) in
  match core_id with
  | Some c => let! w := setCore x core_id w in Ok (x, set_core_state c INITIALIZING w)
  | None => Ok (x, w)
  end.
Definition spawnThread (x time_start : Z) (core_id : option Z) (w : t) : result (Z * t) :=
  let! (y, w) := createThread_unlocked core_id w in
  Ok (y, set_spawn_list (m_thread_spawn_list w ++ [{| thread_by := x; spawned := y; spawn_time := time_start |}]) w).
Definition getThreadToSpawn (w : t) : result (Z * Z * t) :=
  match m_thread_spawn_list w with
  | [] => Err AssertFail
  | req :: l => Ok (spawned req, spawn_time req, set_spawn_list l w)
  end.

(** [elapsed]: the clock of the thread's core.  The hooks come in between as steps of their own. *)
Definition onThreadStart (x time elapsed : Z) (w : t) : t :=
  let w := set_status x RUNNING w in
  let '(time, w) :=
    match m_core w x with
    | Some c => (Z.max time elapsed, set_status x RUNNING (set_core_state c RUNNING w))
    | None => (time, set_reason x STALL_UNSCHEDULED (set_status x STALLED w))
    end in
  if waiter w x =? INVALID_THREAD_ID then w
  else set_waiter x INVALID_THREAD_ID (signal (waiter w x) time false w).
Definition waitForThreadStart (x y : Z) (w : t) : result t :=
  if isThreadInitializing w y then
    let! _ := check (waiter w y =? INVALID_THREAD_ID) AssertFail in
    Ok (wait x (set_waiter y x w))
  else Ok w.
(** [false]: it returns at once. *)
Definition joinThread (x y : Z) (w : t) : result (bool * t) :=
  if bool_decide (status w y = IDLE) then Ok (false, w)
  else
    let! _ := check (waiter w y =? INVALID_THREAD_ID) AssertFail in
    Ok (true, stallThread x STALL_JOIN (set_waiter y x w)).
(** [moveThread] in parts: the old core is idle; a thread that waits for a core is woken up;
    it gets the new core. *)
Definition leave_core (x : Z) (w : t) : t := match m_core w x with Some c => set_core_state c IDLE w | None => w end.
Definition waits_for_core (x : Z) (w : t) : bool :=
  bool_decide (m_core w x = None) && bool_decide (status w x = STALLED) && bool_decide (stalled_reason w x = STALL_UNSCHEDULED).
Definition enter_core (x c : Z) (w : t) : result t :=
  let! w := setCore x (Some c) w in
  Ok (if bool_decide (status w x = STALLED) then w else set_core_state c RUNNING w).
Definition moveThread (x : Z) (core_id : option Z) (time : Z) (w : t) : result t :=
  let w := leave_core x w in
  match core_id with
  | None => setCore x None w
  | Some c => enter_core x c (if waits_for_core x w then resumeThread x time false w else w)
  end.
End ThreadManager.

(** ** Threads and cores

    A thread is on at most one core, a core has at most one thread. *)
Definition cores_ok (w : ThreadManager.t) : Prop :=
  ∀ x c, ThreadManager.m_core w x = Some c ↔ ThreadManager.core_thread w c = Some x.
(** [setCore] keeps it; its assertion holds if the core is free. *)
Lemma setCore_spec x core w : cores_ok w → (∀ c y, core = Some c → ThreadManager.core_thread w c = Some y → y = x) →
  ∃ w', ThreadManager.setCore x core w = Ok w' ∧ cores_ok w' ∧ ThreadManager.m_core w' = <[x := core]> (ThreadManager.m_core w) ∧
    ThreadManager.m_threads w' = ThreadManager.m_threads w ∧ ThreadManager.status w' = ThreadManager.status w.
Proof.
  intros Hok Hfree. unfold ThreadManager.setCore, cores_ok in *.
  set (ct := match ThreadManager.m_core w x with Some c => <[c := None]> (ThreadManager.core_thread w) | None => ThreadManager.core_thread w end).
  assert (Hct : ∀ y c, ct c = Some y ↔ ThreadManager.core_thread w c = Some y ∧ y ≠ x).
  { intros y c. unfold ct. destruct (ThreadManager.m_core w x) as [c'|] eqn:E.
    - destruct (decide (c = c')) as [->|Hc].
      + rewrite fn_lookup_insert. apply Hok in E. rewrite E. naive_solver.
      + rewrite fn_lookup_insert_ne by done. split; [|tauto]. intros Hy. split; [done|]. intros ->. apply Hok in Hy. congruence.
    - split; [|tauto]. intros Hy. split; [done|]. intros ->. apply Hok in Hy. congruence. }
  destruct core as [c|].
  - assert (ct c = None) as Hc.
    { destruct (ct c) as [y|] eqn:E; [|done]. apply Hct in E as [E Hne]. by destruct (Hne (Hfree c y eq_refl E)). }
    exists (ThreadManager.set_cores (<[x := Some c]> (ThreadManager.m_core w)) (<[c := Some x]> ct) w). split.
    { unfold ct in *. destruct (ThreadManager.m_core w x); cbn; rewrite bool_decide_true by done; done. }
    split; [|done]. intros y d.
    assert (Hgoal : (<[x := Some c]> (ThreadManager.m_core w)) y = Some d ↔ (<[c := Some x]> ct) d = Some y).
    { destruct (decide (y = x)) as [->|Hy], (decide (d = c)) as [->|Hd];
        rewrite ?fn_lookup_insert, ?fn_lookup_insert_ne, ?Hct, ?Hok by done; naive_solver. }
    exact Hgoal.
  - exists (ThreadManager.set_cores (<[x := None]> (ThreadManager.m_core w)) ct w). split.
    { unfold ct. by destruct (ThreadManager.m_core w x). }
    split; [|done]. intros y d. cbn.
    destruct (decide (y = x)) as [->|Hy]; rewrite ?fn_lookup_insert, ?fn_lookup_insert_ne, ?Hct, ?Hok by done; naive_solver.
Qed.

(** ** Accounts of waiting threads

    Queues of threads, by place, and the threads that wait: each of them is in one queue, once.
    The servers change one queue at a time: threads leave it and go on, or a thread that did not
    wait joins it. *)
Section queues.
Context {P : Type} `{EqDecision P}.
Implicit Types (Q : P → list Z) (A : Z → Prop).

Record queues_ok Q A := {
  qo_nodup p : NoDup (Q p);
  qo_unique p q x : x ∈ Q p → x ∈ Q q → p = q;
  qo_waits x : A x ↔ ∃ p, x ∈ Q p;
}.

Lemma queues_ok_ext Q Q' A A' : queues_ok Q A → (∀ p, Q' p = Q p) → (∀ x, A' x ↔ A x) → queues_ok Q' A'.
Proof.
  intros [Hn Hu Hw] HQ HA. split.
  - intros p. by rewrite HQ.
  - intros p q x. rewrite !HQ. apply Hu.
  - intros x. rewrite HA, Hw. by setoid_rewrite HQ.
Qed.

Lemma queues_ok_leave p l Q Q' A A' :
  queues_ok Q A → Q p ≡ₚ l ++ Q' p → (∀ q, q ≠ p → Q' q = Q q) → (∀ x, A' x ↔ A x ∧ x ∉ l) → queues_ok Q' A'.
Proof.
  intros [Hn Hu Hw] Hp Hq HA.
  assert (Hsub : ∀ q x, x ∈ Q' q → x ∈ Q q).
  { intros q x. destruct (decide (q = p)) as [->|]; [rewrite Hp; set_solver | by rewrite Hq by done]. }
  pose proof (Hn p) as Hnd. rewrite Hp in Hnd. apply NoDup_app in Hnd as (_ & Hnd & Hnd').
  split.
  - intros q. destruct (decide (q = p)) as [->|]; [done | by rewrite Hq by done].
  - intros q r x Hx Hy. by eapply Hu; apply Hsub.
  - intros x. rewrite HA, Hw. split.
    + intros [[q Hx] Hl]. exists q. destruct (decide (q = p)) as [->|]; [|by rewrite Hq by done].
      rewrite Hp in Hx. set_solver.
    + intros [q Hx]. split; [eauto|]. intros Hl. specialize (Hnd _ Hl).
      assert (q = p) as ->; [|done]. apply (Hu _ _ x); [by apply Hsub | rewrite Hp; set_solver].
Qed.

Lemma queues_ok_join p x Q Q' A A' :
  queues_ok Q A → ¬ A x → Q' p ≡ₚ x :: Q p → (∀ q, q ≠ p → Q' q = Q q) → (∀ y, A' y ↔ A y ∨ y = x) → queues_ok Q' A'.
Proof.
  intros [Hn Hu Hw] Hx Hp Hq HA.
  assert (Hin : ∀ q y, y ∈ Q' q ↔ y ∈ Q q ∨ q = p ∧ y = x).
  { intros q y. destruct (decide (q = p)) as [->|]; [rewrite Hp; set_solver | rewrite Hq by done; set_solver]. }
  assert (Hout : ∀ q, x ∉ Q q) by (intros q H; apply Hx, Hw; eauto).
  split.
  - intros q. destruct (decide (q = p)) as [->|]; [|by rewrite Hq by done].
    rewrite Hp. apply NoDup_cons. auto.
  - intros q r y. rewrite !Hin. intros [H1|[-> ->]] [H2|[-> H2]]; subst; eauto; exfalso; eapply Hout; eauto.
  - intros y. rewrite HA, Hw. setoid_rewrite Hin. split.
    + intros [[q H]| ->]; eauto.
    + intros [q [H|[-> ->]]]; eauto.
Qed.

(** A thread moves to the end of another queue. *)
Lemma queues_ok_move p q x Q Q' A A' :
  queues_ok Q A → p ≠ q → Q p ≡ₚ x :: Q' p → Q' q ≡ₚ x :: Q q → (∀ r, r ≠ p → r ≠ q → Q' r = Q r) →
  (∀ y, A' y ↔ A y) → queues_ok Q' A'.
Proof.
  intros Hok Hpq Hp Hq Hr HA.
  assert (Ax : A x). { apply (qo_waits _ _ Hok). exists p. rewrite Hp. set_solver. }
  apply (queues_ok_join q x (<[p := Q' p]> Q) _ (λ y, A y ∧ y ≠ x)).
  - apply (queues_ok_leave p [x] Q _ A); [done | by rewrite fn_lookup_insert | by intros r Hrp; rewrite fn_lookup_insert_ne |].
    intros y. by rewrite list_elem_of_singleton.
  - tauto.
  - by rewrite fn_lookup_insert_ne.
  - intros r Hrq. destruct (decide (r = p)) as [->|]; [by rewrite fn_lookup_insert|].
    rewrite fn_lookup_insert_ne by done. by apply Hr.
  - intros y. rewrite HA. destruct (decide (y = x)) as [->|]; tauto.
Qed.
End queues.

(** A thread waits: it sleeps, and not just until it gets a core. *)
Module Waiting.
Import ThreadManager.
Definition unscheduled (w : t) (x : Z) : bool := bool_decide (status w x = STALLED) && bool_decide (stalled_reason w x = STALL_UNSCHEDULED).
Definition waits (w : t) (x : Z) : bool := asleep w x && negb (unscheduled w x).
(** It can call something. *)
Definition may_call (w : t) (x : Z) : bool := (0 <=? x) && (x <? m_threads w) && negb (asleep w x).

(** The state of threads as a server changes it: [x] begins to wait, or is woken up. *)
Lemma waits_stall x r w y : r ≠ STALL_UNSCHEDULED → waits (stallThread x r w) y ↔ waits w y ∨ y = x.
Proof.
  intros Hr. unfold waits, unscheduled, stallThread, wait, stallThread_async. cbn. destruct (decide (y = x)) as [->|Hy].
  - rewrite !fn_lookup_insert. rewrite bool_decide_false with (P := r = _) by done. rewrite andb_false_r. naive_solver.
  - rewrite !fn_lookup_insert_ne by done. naive_solver.
Qed.
Lemma waits_resume x time msg w y : waits (resumeThread x time msg w) y ↔ waits w y ∧ y ≠ x.
Proof.
  unfold waits, unscheduled, resumeThread, signal, resumeThread_async. cbn. destruct (decide (y = x)) as [->|Hy].
  - rewrite !fn_lookup_insert. naive_solver.
  - rewrite !fn_lookup_insert_ne by done. naive_solver.
Qed.
(** Threads that are woken up one after the other. *)
Lemma resume_all_spec l time msg w y :
  let w' := foldl (λ w x, resumeThread x time msg w) w l in
  status w' y = (if decide (y ∈ l) then RUNNING else status w y) ∧
  asleep w' y = (if decide (y ∈ l) then false else asleep w y) ∧
  m_wakeup_time w' y = (if decide (y ∈ l) then time else m_wakeup_time w y) ∧
  m_wakeup_msg w' y = (if decide (y ∈ l) then msg else m_wakeup_msg w y).
Proof.
  revert w. induction l as [|x l IH]; intros w; cbn; [by rewrite !decide_False by set_solver|].
  destruct (IH (resumeThread x time msg w)) as (-> & -> & -> & ->). cbn. destruct (decide (y = x)) as [->|].
  - rewrite !fn_lookup_insert. repeat case_decide; set_solver.
  - rewrite !fn_lookup_insert_ne by done. split_and!; by apply decide_ext; set_solver.
Qed.
Lemma waits_resume_all l time msg w y : waits (foldl (λ w x, resumeThread x time msg w) w l) y ↔ waits w y ∧ y ∉ l.
Proof.
  revert w. induction l as [|x l IH]; intros w; cbn; [set_solver|]. rewrite IH, waits_resume. set_solver.
Qed.
Lemma may_call_not_waits w x : may_call w x → ¬ waits w x.
Proof. unfold may_call, waits. destruct (asleep w x); [rewrite andb_false_r|]; naive_solver. Qed.
Lemma may_call_range w x : may_call w x → 0 ≤ x < m_threads w.
Proof. unfold may_call. rewrite Is_true_true, !andb_true_iff, Z.leb_le, Z.ltb_lt. lia. Qed.
Lemma may_call_awake w x : may_call w x → asleep w x = false.
Proof. unfold may_call. destruct (asleep w x); [rewrite andb_false_r|]; naive_solver. Qed.
End Waiting.
