(* ===== verification/SyncServer.v ===== *)
(** Mutexes, condition variables and barriers of simulated programs:
    [system/sync_server.{h,cc}].

    A thread that has to wait is put into the queue of the object and sleeps; its call returns
    when another thread resumes it, at the time of which it was told.  [None] for the time at
    which a call returns says that the thread sleeps. *)
From stdpp Require Import functions.
From S2P Require Import Prelude Timing Threads.
Import ThreadManager.

(** ** The objects *)
Module SimMutex.
Definition NO_OWNER : Z := -1.       (* UINT_MAX as a thread_id_t *)
Record t := mk { m_waiting : list Z; m_owner : Z }.
Definition new : t := mk [] NO_OWNER.

Definition isLocked (m : t) (thread_id : Z) : bool :=
  if m_owner m =? NO_OWNER then false else if m_owner m =? thread_id then false else true.
Definition lock (thread_id time : Z) (m : t) (w : ThreadManager.t) : option Z * t * ThreadManager.t :=
  if m_owner m =? NO_OWNER then (Some time, mk (m_waiting m) thread_id, w)
  else (None, mk (m_waiting m ++ [thread_id]) (m_owner m), stallThread thread_id STALL_MUTEX w).
Definition lock_async (thread_id time : Z) (m : t) (w : ThreadManager.t) : bool * t * ThreadManager.t :=
  if m_owner m =? NO_OWNER then (true, mk (m_waiting m) thread_id, resumeThread thread_id time false w)
  else (false, mk (m_waiting m ++ [thread_id]) (m_owner m), w).
Definition unlock (thread_id time : Z) (m : t) (w : ThreadManager.t) : result (Z * t * ThreadManager.t) :=
  let! _ := check (m_owner m =? thread_id) AssertFail in
  match m_waiting m with
  | [] => Ok (NO_OWNER, mk [] NO_OWNER, w)
  | waiter :: l => Ok (waiter, mk l waiter, resumeThread waiter time false w)
  end.
End SimMutex.

(** The loop of [wait] resumes the waiters in order. *)
Module SimBarrier.
Record t := mk { m_waiting : list Z; m_count : Z (* UInt32 *) }.
Definition new (count : Z) : t := mk [] count.
Definition resume_all (l : list Z) (time : Z) (w : ThreadManager.t) : ThreadManager.t :=
  foldl (λ w waiter, resumeThread waiter time false w) w l.
Definition wait (thread_id time : Z) (b : t) (w : ThreadManager.t) : option Z * t * ThreadManager.t :=
  if Z.of_nat (length (m_waiting b)) =? u32 (m_count b - 1) then
    (Some time, mk [] (m_count b), resume_all (m_waiting b) time w)
  else (None, mk (m_waiting b ++ [thread_id]) (m_count b), stallThread thread_id STALL_BARRIER w).
End SimBarrier.

(** ** The server

    Mutexes and conditions by their address in the program; a waiter of a condition is a
    thread and the mutex it takes when woken up, by its address, at which it stays. *)
Module SyncServer.
Record t := mk {
  m_mutexes : gmap Z SimMutex.t;
  m_conds : gmap Z (list (Z * Z));
  m_barriers : list SimBarrier.t;
}.
Definition new : t := mk ∅ ∅ [].
Definition put_mutex (mux : Z) (m : SimMutex.t) (s : t) : t := mk (<[mux := m]> (m_mutexes s)) (m_conds s) (m_barriers s).
Definition put_cond (cond : Z) (l : list (Z * Z)) (s : t) : t := mk (m_mutexes s) (<[cond := l]> (m_conds s)) (m_barriers s).
Definition put_barriers (l : list SimBarrier.t) (s : t) : t := mk (m_mutexes s) (m_conds s) l.

(** A new object is in the map from then on. *)
Definition getMutex (mux : Z) (canCreate : bool) (s : t) : result (SimMutex.t * t) :=
  match m_mutexes s !! mux with
  | Some m => Ok (m, s)
  | None => if canCreate then Ok (SimMutex.new, put_mutex mux SimMutex.new s) else Err AssertFail
  end.
Definition getCond (cond : Z) (s : t) : list (Z * Z) * t :=
  match m_conds s !! cond with
  | Some l => (l, s)
  | None => ([], put_cond cond [] s)
  end.

Section ops.
Context (m_reschedule_cost : Z).
Abbreviation W := ThreadManager.t.

Definition mutexInit (mux : Z) (s : t) : result t := let! (_, s) := getMutex mux true s in Ok s.
Definition mutexLock (thread_id mux : Z) (tryLock : bool) (time : Z) (s : t) (w : W) : result (option (Z * bool) * t * W) :=
  let! (m, s) := getMutex mux true s in
  if tryLock && SimMutex.isLocked m thread_id then Ok (Some (time, false), s, w)
  else
    let '(time_end, m, w) := SimMutex.lock thread_id time m w in
    Ok ((λ e, (SubsecondTime.add e m_reschedule_cost, true)) <$> time_end, put_mutex mux m s, w).
(** The return of [mutexLock] of a thread that slept. *)
Definition mutexLock_return (thread_id : Z) (w : W) : Z * bool := (SubsecondTime.add (m_wakeup_time w thread_id) m_reschedule_cost, true).
Definition mutexUnlock (thread_id mux : Z) (time : Z) (s : t) (w : W) : result (Z * t * W) :=
  let! (m, s) := getMutex mux false s in
  let! (new_owner, m, w) := SimMutex.unlock thread_id (SubsecondTime.add time m_reschedule_cost) m w in
  Ok (SubsecondTime.add time (if new_owner =? SimMutex.NO_OWNER then SubsecondTime.Zero else m_reschedule_cost), put_mutex mux m s, w).
End ops.

Abbreviation W := ThreadManager.t.
Definition condInit (cond : Z) (s : t) : t := snd (getCond cond s).
(** [SimCond::wait]. *)
Definition cond_wait (thread_id cond mux : Z) (time : Z) (l : list (Z * Z)) (m : SimMutex.t) (s : t) (w : W) : result (t * W) :=
  let! (_, m, w) := SimMutex.unlock thread_id time m w in
  Ok (put_cond cond (l ++ [(thread_id, mux)]) (put_mutex mux m s), stallThread thread_id STALL_COND w).
Definition condWait (thread_id cond mux : Z) (time : Z) (s : t) (w : W) : result (t * W) :=
  let! (m, s) := getMutex mux true s in
  let '(l, s) := getCond cond s in
  cond_wait thread_id cond mux time l m s w.
(** A waiter takes its mutex, or waits for it. *)
Definition wake_waiter (woken : Z * Z) (time : Z) (s : t) (w : W) : result (bool * t * W) :=
  match m_mutexes s !! snd woken with
  | None => Err NullPointer
  | Some m => let '(r, m, w) := SimMutex.lock_async (fst woken) time m w in Ok (r, put_mutex (snd woken) m s, w)
  end.
(** [SimCond::signal]. *)
Definition cond_signal (cond time : Z) (l : list (Z * Z)) (s : t) (w : W) : result (Z * t * W) :=
  match l with
  | [] => Ok (INVALID_THREAD_ID, s, w)
  | woken :: l =>
      let! (r, s, w) := wake_waiter woken time (put_cond cond l s) w in
      Ok (if r then fst woken else INVALID_THREAD_ID, s, w)
  end.
Definition condSignal (cond time : Z) (s : t) (w : W) : result (Z * t * W) :=
  let '(l, s) := getCond cond s in
  let! (_, s, w) := cond_signal cond time l s w in Ok (time, s, w).
(** [SimCond::broadcast]. *)
Fixpoint cond_broadcast (cond time : Z) (l : list (Z * Z)) (s : t) (w : W) : result (t * W) :=
  match l with
  | [] => Ok (s, w)
  | woken :: l => let! (_, s, w) := wake_waiter woken time (put_cond cond l s) w in cond_broadcast cond time l s w
  end.
Definition condBroadcast (cond time : Z) (s : t) (w : W) : result (Z * t * W) :=
  let '(l, s) := getCond cond s in
  let! (s, w) := cond_broadcast cond time l s w in Ok (time, s, w).

Definition barrierInit (count : Z) (s : t) : Z * t :=
  let l := m_barriers s ++ [SimBarrier.new count] in
  (Z.of_nat (length l) - 1, put_barriers l s).
Definition barrierWait (thread_id : Z) (barrier : nat) (time : Z) (s : t) (w : W) : result (option Z * t * W) :=
  let! b := arr_get (m_barriers s) barrier in
  let '(r, b, w) := SimBarrier.wait thread_id time b w in
  let! l := arr_set (m_barriers s) barrier b in
  Ok (r, put_barriers l s, w).
End SyncServer.

(** * Proofs *)

(** ** A mutex is a queue of threads, its owner first *)
Module MutexQueue.
Import SimMutex.
Definition queue (m : t) : list Z := if m_owner m =? NO_OWNER then [] else m_owner m :: m_waiting m.
(** What a free mutex promises; the operations keep it. *)
Definition wf (m : t) : Prop := (m_owner m = NO_OWNER → m_waiting m = []) ∧ NO_OWNER ∉ m_waiting m.

Lemma new_wf : wf new.
Proof. split; [done | set_solver]. Qed.
Lemma owned_wf l x : x ≠ NO_OWNER → NO_OWNER ∉ l → wf (mk l x).
Proof. by intros; split. Qed.

Lemma lock_spec x time m w (Hm : wf m) (Hx : x ≠ NO_OWNER) :
  let '(r, m', w') := lock x time m w in
  wf m' ∧ queue m' = queue m ++ [x] ∧
  r = (if decide (queue m = []) then Some time else None) ∧
  w' = (if decide (queue m = []) then w else stallThread x STALL_MUTEX w).
Proof.
  destruct Hm as [Hfree Hno]. unfold lock, queue. destruct (Z.eqb_spec (m_owner m) NO_OWNER) as [E|E].
  - cbn. rewrite (Hfree E), (proj2 (Z.eqb_neq _ _)) by done. split_and!; try done. apply owned_wf; set_solver.
  - cbn. rewrite (proj2 (Z.eqb_neq _ _)) by done. rewrite !decide_False by done. split_and!; try done.
    apply owned_wf; set_solver.
Qed.
Lemma lock_async_spec x time m w (Hm : wf m) (Hx : x ≠ NO_OWNER) :
  let '(r, m', w') := lock_async x time m w in
  wf m' ∧ queue m' = queue m ++ [x] ∧ r = bool_decide (queue m = []) ∧
  w' = (if decide (queue m = []) then resumeThread x time false w else w).
Proof.
  destruct Hm as [Hfree Hno]. unfold lock_async, queue. destruct (Z.eqb_spec (m_owner m) NO_OWNER) as [E|E].
  - cbn. rewrite (Hfree E), (proj2 (Z.eqb_neq _ _)) by done. split_and!; try done. apply owned_wf; set_solver.
  - cbn. rewrite (proj2 (Z.eqb_neq _ _)) by done. rewrite !decide_False by done. split_and!; try done.
    apply owned_wf; set_solver.
Qed.
Lemma unlock_spec x time m w (Hm : wf m) (Hx : x ≠ NO_OWNER) :
  match queue m with
  | y :: l =>
      if decide (y = x) then
        ∃ m', unlock x time m w = Ok (hd NO_OWNER l, m', match l with [] => w | z :: _ => resumeThread z time false w end) ∧
          wf m' ∧ queue m' = l
      else unlock x time m w = Err AssertFail
  | [] => unlock x time m w = Err AssertFail
  end.
Proof.
  destruct Hm as [Hfree Hno]. unfold unlock, queue. destruct (Z.eqb_spec (m_owner m) NO_OWNER) as [E|E].
  - by rewrite (proj2 (Z.eqb_neq _ _)) by congruence.
  - case_decide as Hd.
    + rewrite Hd, Z.eqb_refl. cbn. destruct (m_waiting m) as [|z l] eqn:Hl; eexists; (split; [done|]); cbn.
      * split; [|done]. split; [done | set_solver].
      * assert (z ≠ NO_OWNER ∧ NO_OWNER ∉ l) as [? ?] by set_solver.
        rewrite (proj2 (Z.eqb_neq _ _)) by done. split; [by apply owned_wf | done].
    + by rewrite (proj2 (Z.eqb_neq _ _)) by done.
Qed.
End MutexQueue.

(** ** Calls on one mutex, and a queue of threads as their specification *)
Module MutexCalls.
Import SyncServer MutexQueue.
Inductive call := Lock (x : Z) (tryLock : bool) (time : Z) | Unlock (x time : Z).
Definition caller (c : call) : Z := match c with Lock x _ _ | Unlock x _ => x end.
(** Of a [Lock], the time at which it returns, and if it got the mutex, if it does not sleep;
    of an [Unlock], the time at which it returns. *)
Inductive answer := Locked (r : option (Z * bool)) | Unlocked (r : Z).
(** What a call does to threads, through the thread manager. *)
Inductive effect := Sleep (x : Z) | Wake (x time : Z).
Definition takes_effect (w : ThreadManager.t) (e : effect) : ThreadManager.t :=
  match e with Sleep x => stallThread x STALL_MUTEX w | Wake x time => resumeThread x time false w end.

Section calls.
Context (cost mux : Z).
Definition exec (c : call) (s : t) (w : ThreadManager.t) : result (answer * t * ThreadManager.t) :=
  match c with
  | Lock x tryLock time => let! (r, s, w) := mutexLock cost x mux tryLock time s w in Ok (Locked r, s, w)
  | Unlock x time => let! (r, s, w) := mutexUnlock cost x mux time s w in Ok (Unlocked r, s, w)
  end.
Fixpoint run (cs : list call) (s : t) (w : ThreadManager.t) : result (list answer * t * ThreadManager.t) :=
  match cs with
  | [] => Ok ([], s, w)
  | c :: cs => let! (a, s, w) := exec c s w in let! (l, s, w) := run cs s w in Ok (a :: l, s, w)
  end.

(** The first thread of the queue has the mutex.  An attempt ([tryLock]) fails at a mutex that
    another thread has; the owner of the mutex joins the queue behind itself. *)
Definition spec (c : call) (q : list Z) : option (answer * list effect * list Z) :=
  match c, q with
  | Lock x _ time, [] => Some (Locked (Some (SubsecondTime.add time cost, true)), [], [x])
  | Lock x tryLock time, y :: _ =>
      if tryLock && bool_decide (y ≠ x) then Some (Locked (Some (time, false)), [], q) else Some (Locked None, [Sleep x], q ++ [x])
  | Unlock _ _, [] => None
  | Unlock x time, y :: q =>
      if decide (y = x) then
        match q with
        | [] => Some (Unlocked (SubsecondTime.add time 0), [], [])
        | z :: _ => Some (Unlocked (SubsecondTime.add time cost), [Wake z (SubsecondTime.add time cost)], q)
        end
      else None
  end.
Fixpoint spec_run (cs : list call) (q : list Z) : option (list answer * list effect * list Z) :=
  match cs with
  | [] => Some ([], [], q)
  | c :: cs => '(a, es, q) ← spec c q; '(l, es', q) ← spec_run cs q; Some (a :: l, es ++ es', q)
  end.

(** A mutex that nobody has called is created by the first [mutexLock]. *)
Definition mutex_at (s : t) : SimMutex.t := default SimMutex.new (m_mutexes s !! mux).
Definition queue_at (s : t) : list Z := queue (mutex_at s).

Lemma queue_owner m y l : queue m = y :: l → SimMutex.m_owner m = y ∧ y ≠ SimMutex.NO_OWNER ∧ SimMutex.m_waiting m = l.
Proof. unfold queue. destruct (Z.eqb_spec (SimMutex.m_owner m) SimMutex.NO_OWNER); [done|]. by intros [= <- <-]. Qed.
Lemma isLocked_queue m x : SimMutex.isLocked m x = match queue m with [] => false | y :: _ => bool_decide (y ≠ x) end.
Proof.
  unfold SimMutex.isLocked, queue. destruct (_ =? SimMutex.NO_OWNER); [done|].
  destruct (Z.eqb_spec (SimMutex.m_owner m) x) as [->|?]; [by rewrite bool_decide_false by (intros H; by apply H)|by rewrite bool_decide_true].
Qed.
Lemma getMutex_at s b : (b = true ∨ is_Some (m_mutexes s !! mux)) →
  ∃ s', getMutex mux b s = Ok (mutex_at s, s') ∧ mutex_at s' = mutex_at s ∧ ∀ m, put_mutex mux m s' = put_mutex mux m s.
Proof.
  unfold getMutex, mutex_at. destruct (m_mutexes s !! mux) as [m|] eqn:E; [intros _; exists s; by rewrite E|]. intros [-> | []]; [|done].
  eexists. split; [done|]. cbn. rewrite lookup_insert_eq. split; [done|]. intros m. unfold put_mutex. cbn. by rewrite insert_insert_eq.
Qed.
Lemma mutex_at_put m s : mutex_at (put_mutex mux m s) = m.
Proof. unfold mutex_at. cbn. by rewrite lookup_insert_eq. Qed.

Lemma exec_lock x tr time s w : wf (mutex_at s) → x ≠ SimMutex.NO_OWNER →
  match spec (Lock x tr time) (queue_at s) with
  | Some (a, es, q) => ∃ s', exec (Lock x tr time) s w = Ok (a, s', foldl takes_effect w es) ∧ wf (mutex_at s') ∧ queue_at s' = q
  | None => False
  end.
Proof.
  intros Hwf Hx. unfold exec, mutexLock, queue_at. destruct (getMutex_at s true) as (s1 & -> & E1 & Ep); [by left|]. cbn [rbind].
  rewrite isLocked_queue. pose proof (lock_spec x time (mutex_at s) w Hwf Hx) as H.
  destruct (SimMutex.lock x time (mutex_at s) w) as [[r m'] w']. destruct H as (Hwf' & Hq & -> & ->).
  destruct (queue (mutex_at s)) as [|y l] eqn:Eq; cbn [spec].
  - rewrite andb_false_r. eexists. split; [done|]. by rewrite mutex_at_put.
  - rewrite !decide_False by done. cbn [fmap option_fmap option_map foldl takes_effect rbind].
    destruct (tr && _); eexists; (split; [done|]); [by rewrite E1|by rewrite mutex_at_put].
Qed.
Lemma exec_unlock x time s w : wf (mutex_at s) → x ≠ SimMutex.NO_OWNER →
  match spec (Unlock x time) (queue_at s) with
  | Some (a, es, q) => ∃ s', exec (Unlock x time) s w = Ok (a, s', foldl takes_effect w es) ∧ wf (mutex_at s') ∧ queue_at s' = q
  | None => exec (Unlock x time) s w = Err AssertFail
  end.
Proof.
  intros Hwf Hx. unfold exec, mutexUnlock, queue_at. destruct (m_mutexes s !! mux) as [m|] eqn:Em.
  2:{ unfold getMutex, mutex_at. by rewrite Em. }
  destruct (getMutex_at s false) as (s1 & -> & _ & _); [right; by rewrite Em|]. cbn [rbind].
  pose proof (unlock_spec x (SubsecondTime.add time cost) (mutex_at s) w Hwf Hx) as H.
  destruct (queue (mutex_at s)) as [|y l] eqn:Hq; cbn [spec]; [by rewrite H|]. case_decide as Hy; [|by rewrite H].
  destruct H as (m' & -> & Hwf' & Hq'). cbn [rbind]. destruct (queue_owner _ _ _ Hq) as (_ & _ & Hl). destruct Hwf as [_ Hno]. rewrite Hl in Hno.
  destruct l as [|z l]; cbn [hd].
  - eexists. split; [done|]. by rewrite mutex_at_put.
  - rewrite (proj2 (Z.eqb_neq z _)) by set_solver. eexists. split; [done|]. by rewrite mutex_at_put.
Qed.
Lemma exec_spec c s w : wf (mutex_at s) → caller c ≠ SimMutex.NO_OWNER →
  match spec c (queue_at s) with
  | Some (a, es, q) => ∃ s', exec c s w = Ok (a, s', foldl takes_effect w es) ∧ wf (mutex_at s') ∧ queue_at s' = q
  | None => exec c s w = Err AssertFail
  end.
Proof.
  intros Hwf Hc. destruct c as [x tr time|x time]; cbn in Hc; [|by apply exec_unlock].
  pose proof (exec_lock x tr time s w Hwf Hc) as H. by destruct (spec _ _) as [[[a es] q]|].
Qed.
End calls.
End MutexCalls.

(** [C25] Calls on a mutex, in any order by any threads, are those of a queue of threads whose
    first has the mutex.  A lock by a thread gives it the mutex at once if the queue is empty, and
    else puts it at the end and to sleep - an attempt ([tryLock]) answers no instead, but for the
    owner, which goes to sleep like that.  An unlock by any but the first stops at an assertion;
    one by the first gives the mutex to the next thread in line and wakes up exactly that one, at
    its price.  No thread sleeps or is woken up otherwise. *)
Theorem mutex_refines_queue cost mux cs s w
    (Hm : MutexCalls.mutex_at mux s = SimMutex.new)
    (Hcs : Forall (λ c, MutexCalls.caller c ≠ SimMutex.NO_OWNER) cs) :
  match MutexCalls.spec_run cost cs [] with
  | Some (l, es, q) => ∃ s', MutexCalls.run cost mux cs s w = Ok (l, s', foldl MutexCalls.takes_effect w es) ∧ MutexCalls.queue_at mux s' = q
  | None => MutexCalls.run cost mux cs s w = Err AssertFail
  end.
Proof.
  assert (H : MutexQueue.wf (MutexCalls.mutex_at mux s)) by (rewrite Hm; apply MutexQueue.new_wf).
  replace [] with (MutexCalls.queue_at mux s) by (unfold MutexCalls.queue_at; by rewrite Hm). clear Hm. revert s w H.
  induction Hcs as [|c cs Hc _ IH]; intros s w H; cbn; [eauto|].
  pose proof (MutexCalls.exec_spec cost mux c s w H Hc) as He.
  destruct (MutexCalls.spec cost c _) as [[[a es] q]|]; cbn; [|by rewrite He].
  destruct He as (s' & -> & Hwf & <-). cbn. specialize (IH s' (foldl MutexCalls.takes_effect w es) Hwf).
  destruct (MutexCalls.spec_run cost cs _) as [[[l es'] q]|]; cbn; [|by rewrite IH].
  destruct IH as (s2 & -> & ?). cbn. rewrite foldl_app. eauto.
Qed.

(** ** A barrier lets its threads go by the count *)
Module BarrierRounds.
Import SyncServer.

(** Threads that call one after the other, each with its time. *)
Fixpoint arrivals (i : nat) (ts : list (Z * Z)) (s : t) (w : ThreadManager.t) : result (list (option Z) * t * ThreadManager.t) :=
  match ts with
  | [] => Ok ([], s, w)
  | (x, time) :: ts =>
      let! (r, s, w) := barrierWait x i time s w in
      let! (l, s, w) := arrivals i ts s w in
      Ok (r :: l, s, w)
  end.
Lemma arrivals_app i ts1 ts2 s w l s' w' :
  arrivals i ts1 s w = Ok (l, s', w') →
  arrivals i (ts1 ++ ts2) s w = let! (l2, s, w) := arrivals i ts2 s' w' in Ok (l ++ l2, s, w).
Proof.
  revert s w l. induction ts1 as [|[x time] ts IH]; intros s w l; cbn.
  { intros [= <- <- <-]. destruct (arrivals i ts2 s w) as [[[? ?] ?]|]; done. }
  destruct (barrierWait x i time s w) as [[[r s1] w1]|]; cbn; [|done].
  destruct (arrivals i ts s1 w1) as [[[l1 s2] w2]|] eqn:E; cbn; [|done]. intros [= <- -> ->].
  rewrite (IH _ _ _ E). destruct (arrivals i ts2 s' w') as [[[? ?] ?]|]; done.
Qed.

Definition stall_all (l : list Z) (w : ThreadManager.t) : ThreadManager.t := foldl (λ w x, stallThread x STALL_BARRIER w) w l.

Lemma put_get i b s : m_barriers s !! i = Some b → put_barriers (<[i := b]> (m_barriers s)) s = s.
Proof. intros H. destruct s; unfold put_barriers; cbn in *. by rewrite list_insert_id. Qed.

Lemma wait_sleeps x i time s w l count :
  m_barriers s !! i = Some (SimBarrier.mk l count) → 0 < count < 2 ^ 32 → Z.of_nat (length l) < count - 1 →
  barrierWait x i time s w =
    Ok (None, put_barriers (<[i := SimBarrier.mk (l ++ [x]) count]> (m_barriers s)) s, stallThread x STALL_BARRIER w).
Proof.
  intros Hb Hc Hl. unfold barrierWait, arr_get, arr_set. rewrite Hb. cbn. unfold SimBarrier.wait. cbn.
  rewrite u32_small by (unfold in_u32; lia). by rewrite (proj2 (Z.eqb_neq _ _)) by lia.
Qed.
Lemma wait_releases x i time s w l count :
  m_barriers s !! i = Some (SimBarrier.mk l count) → 0 < count < 2 ^ 32 → Z.of_nat (length l) = count - 1 →
  barrierWait x i time s w =
    Ok (Some time, put_barriers (<[i := SimBarrier.new count]> (m_barriers s)) s, SimBarrier.resume_all l time w).
Proof.
  intros Hb Hc Hl. unfold barrierWait, arr_get, arr_set. rewrite Hb. cbn. unfold SimBarrier.wait. cbn.
  rewrite u32_small by (unfold in_u32; lia). by rewrite (proj2 (Z.eqb_eq _ _)) by lia.
Qed.

Lemma arrivals_sleep i ts s w l count :
  m_barriers s !! i = Some (SimBarrier.mk l count) → 0 < count < 2 ^ 32 →
  Z.of_nat (length l) + Z.of_nat (length ts) < count →
  arrivals i ts s w =
    Ok (replicate (length ts) None, put_barriers (<[i := SimBarrier.mk (l ++ ts.*1) count]> (m_barriers s)) s, stall_all ts.*1 w).
Proof.
  revert s w l. induction ts as [|[x time] ts IH]; intros s w l Hb Hc Hl; cbn.
  { by rewrite app_nil_r, put_get. }
  cbn in Hl. rewrite (wait_sleeps _ _ _ _ _ l count) by (done || lia). cbn.
  rewrite (IH _ _ (l ++ [x])); [|by cbn; rewrite list_lookup_insert_eq by (by apply lookup_lt_Some in Hb) | done
    | rewrite length_app; cbn; lia].
  cbn. unfold put_barriers. cbn. by rewrite list_insert_insert_eq, <- app_assoc.
Qed.

(** The threads after a round. *)
Lemma asleep_stall_all l w y : asleep (stall_all l w) y = if decide (y ∈ l) then true else asleep w y.
Proof.
  unfold stall_all. revert w. induction l as [|x l IH]; intros w; cbn; [by rewrite decide_False by set_solver|].
  rewrite IH. cbn. destruct (decide (y = x)) as [->|].
  - rewrite fn_lookup_insert. repeat case_decide; set_solver.
  - rewrite fn_lookup_insert_ne by done. by apply decide_ext; set_solver.
Qed.
Lemma stall_all_others l w y : y ∉ l →
  status (stall_all l w) y = status w y ∧ asleep (stall_all l w) y = asleep w y ∧
  m_wakeup_time (stall_all l w) y = m_wakeup_time w y.
Proof.
  unfold stall_all. revert w. induction l as [|x l IH]; intros w Hy; cbn; [done|].
  destruct (IH (stallThread x STALL_BARRIER w)) as (-> & -> & ->); [set_solver|]. cbn.
  by rewrite !fn_lookup_insert_ne by set_solver.
Qed.
End BarrierRounds.

(** A round of a barrier with a count of n: the first n - 1 threads that call sleep, and with
    the call of the n-th all of them run again, with its time as the time of their wake-up; the
    call returns at once, no other thread is touched, and the barrier is as new. *)
Theorem barrier_round i count ts x time s w
    (Hb : SyncServer.m_barriers s !! i = Some (SimBarrier.new count)) (Hc : 0 < count < 2 ^ 32)
    (Hn : Z.of_nat (length ts) = count - 1) :
  ∃ w1 w2,
    BarrierRounds.arrivals i ts s w = Ok (replicate (length ts) None, SyncServer.put_barriers (<[i := SimBarrier.mk ts.*1 count]> (SyncServer.m_barriers s)) s, w1) ∧
    (∀ y, asleep w1 y = if decide (y ∈ ts.*1) then true else asleep w y) ∧
    BarrierRounds.arrivals i (ts ++ [(x, time)]) s w = Ok (replicate (length ts) None ++ [Some time], s, w2) ∧
    ∀ y, status w2 y = (if decide (y ∈ ts.*1) then RUNNING else status w y) ∧
         asleep w2 y = (if decide (y ∈ ts.*1) then false else asleep w y) ∧
         m_wakeup_time w2 y = (if decide (y ∈ ts.*1) then time else m_wakeup_time w y).
Proof.
  pose proof (BarrierRounds.arrivals_sleep i ts s w [] count Hb Hc ltac:(cbn; lia)) as E. cbn in E.
  eexists _, _. split; [exact E|]. split; [intros y; apply BarrierRounds.asleep_stall_all|]. split.
  - rewrite (BarrierRounds.arrivals_app _ _ _ _ _ _ _ _ E). cbn.
    rewrite (BarrierRounds.wait_releases _ _ _ _ _ ts.*1 count); [| | done | rewrite length_fmap; lia].
    + cbn. unfold SyncServer.put_barriers. cbn. rewrite list_insert_insert_eq, list_insert_id by done. by destruct s.
    + cbn. by rewrite list_lookup_insert_eq by (by apply lookup_lt_Some in Hb).
  - intros y. unfold SimBarrier.resume_all. destruct (Waiting.resume_all_spec ts.*1 time false (BarrierRounds.stall_all ts.*1 w) y) as (-> & -> & -> & _).
    case_decide; [done|]. by apply BarrierRounds.stall_all_others.
Qed.

(** With a count of zero no thread is ever let go: the comparison is with [UINT32_MAX]. *)
Lemma barrier_of_zero_never_releases x time l w : Z.of_nat (length l) < 2 ^ 32 - 1 →
  SimBarrier.wait x time (SimBarrier.mk l 0) w = (None, SimBarrier.mk (l ++ [x]) 0, stallThread x STALL_BARRIER w).
Proof.
  intros H. unfold SimBarrier.wait. cbn [SimBarrier.m_count SimBarrier.m_waiting].
  assert (u32 (0 - 1) = 2 ^ 32 - 1) as -> by done. by rewrite (proj2 (Z.eqb_neq _ _)) by lia.
Qed.

(** A thread that tries to lock a mutex it owns is not told that the mutex is locked: it waits for itself. *)
Lemma trylock_of_owner_waits cost x mux time s w (Hx : x ≠ SimMutex.NO_OWNER)
    (Hm : SyncServer.m_mutexes s !! mux = Some (SimMutex.mk [] x)) :
  SyncServer.mutexLock cost x mux true time s w =
    Ok (None, SyncServer.put_mutex mux (SimMutex.mk [x] x) s, stallThread x STALL_MUTEX w).
Proof.
  unfold SyncServer.mutexLock, SyncServer.getMutex. rewrite Hm. cbn. unfold SimMutex.isLocked, SimMutex.lock. cbn.
  by rewrite (proj2 (Z.eqb_neq _ _) Hx), Z.eqb_refl.
Qed.

(** * The server at work *)
Module SyncExample.
Abbreviation calls := [MutexCalls.Lock 5 false 100; MutexCalls.Lock 6 false 110; MutexCalls.Lock 7 true 112; MutexCalls.Lock 7 false 115;
  MutexCalls.Unlock 5 120; MutexCalls.Unlock 6 130].
(** 7 tries in vain; 6 and 7 wait; each is woken up in turn, and 7 has the mutex in the end. *)
Lemma mutex_refines_queue_witness :
  MutexCalls.mutex_at 4096 SyncServer.new = SimMutex.new ∧
  ∃ s, MutexCalls.run 10 4096 calls SyncServer.new ThreadManager.new =
    Ok ([MutexCalls.Locked (Some (110, true)); MutexCalls.Locked None; MutexCalls.Locked (Some (112, false)); MutexCalls.Locked None;
         MutexCalls.Unlocked 130; MutexCalls.Unlocked 140], s,
      resumeThread 7 140 false (resumeThread 6 130 false (stallThread 7 STALL_MUTEX (stallThread 6 STALL_MUTEX ThreadManager.new)))) ∧
    MutexCalls.queue_at 4096 s = [7].
Proof.
  split; [done|].
  exact (mutex_refines_queue 10 4096 calls SyncServer.new ThreadManager.new eq_refl ltac:(repeat constructor; discriminate)).
Defined.
Abbreviation three := (snd (SyncServer.barrierInit 3 SyncServer.new)).

Lemma barrier_round_witness :
  SyncServer.m_barriers three !! 0%nat = Some (SimBarrier.new 3) ∧
  ∃ w1 w2,
    BarrierRounds.arrivals 0 [(5, 100); (6, 120)] three ThreadManager.new =
      Ok ([None; None], SyncServer.put_barriers [SimBarrier.mk [5; 6] 3] three, w1) ∧
    (∀ y, asleep w1 y = if decide (y ∈ [5; 6]) then true else false) ∧
    BarrierRounds.arrivals 0 [(5, 100); (6, 120); (7, 150)] three ThreadManager.new = Ok ([None; None; Some 150], three, w2) ∧
    ∀ y, status w2 y = (if decide (y ∈ [5; 6]) then RUNNING else IDLE) ∧
         asleep w2 y = (if decide (y ∈ [5; 6]) then false else false) ∧
         m_wakeup_time w2 y = (if decide (y ∈ [5; 6]) then 150 else 0).
Proof. split; [done|]. exact (barrier_round 0 3 [(5, 100); (6, 120)] 7 150 three ThreadManager.new eq_refl ltac:(lia) eq_refl). Defined.
End SyncExample.
