(* ===== verification/Futex.v ===== *)
(** Futexes and sleeping threads of simulated programs: [system/syscall_server.{h,cc}].

    The waiters of a futex are a list, oldest first; a wake-up takes the first whose mask fits,
    a period of the barrier the first whose time is over. *)
From stdpp Require Import functions.
From S2P Require Import Prelude Timing Threads.
Import ThreadManager.

(** Of [<linux/futex.h>] and [os_compat.h]. *)
Definition FUTEX_WAIT : Z := 0.
Definition FUTEX_WAKE : Z := 1.
Definition FUTEX_CMP_REQUEUE : Z := 4.
Definition FUTEX_WAKE_OP : Z := 5.
Definition FUTEX_WAIT_BITSET : Z := 9.
Definition FUTEX_WAKE_BITSET : Z := 10.
Definition FUTEX_PRIVATE_FLAG : Z := 128.
Definition FUTEX_CMD_MASK : Z := 0x7f.
Definition FUTEX_BITSET_MATCH_ANY : Z := -1.        (* 0xffffffff as an int *)
Definition EAGAIN : Z := 11.                        (* EWOULDBLOCK *)
Definition ETIMEDOUT : Z := 110.

(** ** [SimFutex] *)
Module SimFutex.
Record Waiter := { thread_id : Z; mask : Z; timeout : Z }.
Definition t : Type := list Waiter.

(** The first waiter that fits, and the others. *)
Fixpoint take_first (fits : Waiter → bool) (l : t) : option (Waiter * t) :=
  match l with
  | [] => None
  | it :: l =>
      if fits it then Some (it, l)
      else match take_first fits l with Some (x, l) => Some (x, it :: l) | None => None end
  end.

Definition enqueueWaiter (x mask timeout_time : Z) (f : t) (w : ThreadManager.t) : t * ThreadManager.t :=
  (f ++ [{| thread_id := x; mask := mask; timeout := timeout_time |}], stallThread x STALL_FUTEX w).
(** Its result and [time_end] when the thread runs again. *)
Definition enqueueWaiter_return (x : Z) (w : ThreadManager.t) : bool * Z := (m_wakeup_msg w x, m_wakeup_time w x).
Definition mask_fits (m : Z) (it : Waiter) : bool := negb (Z.land m (mask it) =? 0).
Definition dequeueWaiter (m time : Z) (f : t) (w : ThreadManager.t) : Z * t * ThreadManager.t :=
  match take_first (mask_fits m) f with
  | Some (it, f) => (thread_id it, f, resumeThread (thread_id it) time true w)
  | None => (INVALID_THREAD_ID, f, w)
  end.
(** Of a futex and of the sleeping threads. *)
Definition wakeTimedOut (time : Z) (f : t) (w : ThreadManager.t) : t * ThreadManager.t :=
  match take_first (λ it, timeout it <=? time) f with
  | Some (it, f) => (f, resumeThread (thread_id it) time false w)
  | None => (f, w)
  end.
Definition getNextTimeout (f : t) : Z :=
  foldl (λ next it, if timeout it <? SubsecondTime.MaxTime then timeout it else next) SubsecondTime.MaxTime f.
End SimFutex.
Import SimFutex.

(** ** [SyscallServer] *)
Module SyscallServer.
Record t := mk {
  m_sleeping : SimFutex.t;
  m_futexes : gmap Z SimFutex.t;
}.
Definition new : t := mk [] ∅.
Definition futex_at (a : Z) (s : t) : SimFutex.t := default [] (m_futexes s !! a).
Definition put_futex (a : Z) (f : SimFutex.t) (s : t) : t := mk (m_sleeping s) (<[a := f]> (m_futexes s)).
Definition put_sleeping (f : SimFutex.t) (s : t) : t := mk f (m_futexes s).

Section ops.
Context (m_reschedule_cost : Z).
(** The physical address of an address of a thread, and the number of instructions that the
    core of a thread has executed. *)
Context (va2pa : Z → Z → Z) (getInstructionCount : Z → Z).
Abbreviation W := ThreadManager.t.

Definition handleSleepCall (x wake_time : Z) (s : t) (w : W) : t * W :=
  (put_sleeping (m_sleeping s ++ [{| thread_id := x; mask := 0; timeout := wake_time |}]) s, stallThread x STALL_SLEEP w).
Definition applyRescheduleCost (x : Z) (conditional : bool) : Z :=
  if negb conditional then SubsecondTime.Zero
  else if getInstructionCount x =? 0 then SubsecondTime.Zero
  else m_reschedule_cost.

(** A futex is in the map from the first time that it is looked up; the result is its key. *)
Definition findFutexByUaddr (uaddr x : Z) (s : t) : Z * t :=
  let address := va2pa x uaddr in (address, put_futex address (futex_at address s) s).

(** The answers of a call: the result and the time at which it returns, or that the thread sleeps. *)
Inductive answer := Returns (res end_time : Z) | Sleeps.
Definition futexWait (x uaddr val act_val m curr_time timeout_time : Z) (s : t) (w : W) : answer * t * W :=
  let '(a, s) := findFutexByUaddr uaddr x s in
  if negb (val =? act_val) then (Returns (u64 (- EAGAIN)) curr_time, s, w)
  else let '(f, w) := enqueueWaiter x m timeout_time (futex_at a s) w in (Sleeps, put_futex a f s, w).
Definition futexWait_return (x : Z) (w : W) : answer :=
  let '(success, end_time) := enqueueWaiter_return x w in
  Returns (if success then 0 else u64 (- ETIMEDOUT)) end_time.

Definition wakeFutexOne (a thread_by m curr_time : Z) (s : t) (w : W) : Z * t * W :=
  let '(waiter, f, w) := dequeueWaiter m (SubsecondTime.add curr_time (applyRescheduleCost thread_by true)) (futex_at a s) w in
  (waiter, put_futex a f s, w).
(** The loops over [i < nr_wake]: [n] rounds at most. *)
Fixpoint wake_loop (n : nat) (a x m curr_time : Z) (num : Z) (s : t) (w : W) : Z * t * W :=
  match n with
  | O => (num, s, w)
  | S n =>
      let '(waiter, s, w) := wakeFutexOne a x m curr_time s w in
      if waiter =? INVALID_THREAD_ID then (num, s, w) else wake_loop n a x m curr_time (num + 1) s w
  end.
Definition futexWake (x uaddr nr_wake m curr_time : Z) (s : t) (w : W) : answer * t * W :=
  let '(a, s) := findFutexByUaddr uaddr x s in
  let '(num, s, w) := wake_loop (Z.to_nat nr_wake) a x m curr_time 0 s w in
  (Returns num (SubsecondTime.add curr_time (applyRescheduleCost x (0 <? num))), s, w).

(** The new value of the word, and whether the comparison holds. *)
Definition futexDoOp (encoded_op oldval : Z) : result (Z * bool) :=
  let op := Z.land (Z.shiftr encoded_op 28) 7 in
  let cmp := Z.land (Z.shiftr encoded_op 24) 15 in
  let oparg := Z.shiftr (s32 (Z.shiftl encoded_op 8)) 20 in
  let cmparg := Z.shiftr (s32 (Z.shiftl encoded_op 20)) 20 in
  let! oparg :=
    if Z.testbit encoded_op 31
    then let! _ := check ((0 <=? oparg) && (oparg <? 32)) OutOfRange in Ok (s32 (Z.shiftl 1 oparg))
    else Ok oparg in
  let! newval :=
    if op =? 0 then Ok oparg
    else if op =? 1 then Ok (s32 (oldval + oparg))
    else if op =? 2 then Ok (Z.lor oldval oparg)
    else if op =? 3 then Ok (Z.land oldval (Z.lnot oparg))
    else if op =? 4 then Ok (Z.lxor oldval oparg)
    else Err AssertFail in
  let! ret :=
    if cmp =? 0 then Ok (oldval =? cmparg)
    else if cmp =? 1 then Ok (negb (oldval =? cmparg))
    else if cmp =? 2 then Ok (oldval <? cmparg)
    else if cmp =? 5 then Ok (cmparg <=? oldval)
    else if cmp =? 3 then Ok (oldval <=? cmparg)
    else if cmp =? 4 then Ok (cmparg <? oldval)
    else Err AssertFail in
  Ok (newval, ret).

(** [mem]: the words that [accessMemory] reads; [Some] of what it writes is in the result. *)
Definition futexWakeOp (mem : Z → Z) (x uaddr uaddr2 nr_wake nr_wake2 op curr_time : Z) (s : t) (w : W) :
    result (answer * option (Z * Z) * t * W) :=
  let '(a, s) := findFutexByUaddr uaddr x s in
  let '(a2, s) := findFutexByUaddr uaddr2 x s in
  let! (newval, op_ret) := futexDoOp op (mem uaddr2) in
  let '(num, s, w) := wake_loop (Z.to_nat nr_wake) a x FUTEX_BITSET_MATCH_ANY curr_time 0 s w in
  let '(num, s, w) := if op_ret then wake_loop (Z.to_nat nr_wake2) a2 x FUTEX_BITSET_MATCH_ANY curr_time num s w else (num, s, w) in
  Ok (Returns num (SubsecondTime.add curr_time (applyRescheduleCost x (0 <? num))), Some (uaddr2, newval), s, w).

(** The first loop of [futexCmpRequeue]; it wakes up without the cost of a reschedule. *)
Fixpoint requeue_wake (n : nat) (a curr_time : Z) (num : Z) (s : t) (w : W) : Z * t * W :=
  match n with
  | O => (num, s, w)
  | S n =>
      let '(waiter, f, w) := dequeueWaiter FUTEX_BITSET_MATCH_ANY curr_time (futex_at a s) w in
      let s := put_futex a f s in
      if waiter =? INVALID_THREAD_ID then (num, s, w) else requeue_wake n a curr_time (num + 1) s w
  end.
(** [requeueWaiter] of the futex at [a], to the one at [b]; [false]: there is none. *)
Definition requeueWaiter (a b : Z) (s : t) : Z * t :=
  match futex_at a s with
  | [] => (INVALID_THREAD_ID, s)
  | it :: f => let s := put_futex a f s in (thread_id it, put_futex b (futex_at b s ++ [it]) s)
  end.
(** It needs a round for each waiter and one more, or, when both futexes are one, never ends. *)
Fixpoint requeue_loop (fuel : nat) (a b : Z) (s : t) : result t :=
  match fuel with
  | O => Err Diverges
  | S n =>
      let '(waiter, s) := requeueWaiter a b s in
      if waiter =? INVALID_THREAD_ID then Ok s else requeue_loop n a b s
  end.
Definition futexCmpRequeue (x uaddr val uaddr2 val3 act_val curr_time : Z) (s : t) (w : W) : result (answer * t * W) :=
  let '(a, s) := findFutexByUaddr uaddr x s in
  if negb (val3 =? act_val) then Ok (Returns (u64 (- EAGAIN)) curr_time, s, w)
  else
    let '(num, s, w) := requeue_wake (Z.to_nat val) a curr_time 0 s w in
    let '(b, s) := findFutexByUaddr uaddr2 x s in
    let! s := requeue_loop (S (length (futex_at a s))) a b s in
    Ok (Returns num curr_time, s, w).

(** [futex_args_t]; the timeout is the [timespec] in memory that it points to, if any. *)
Record futex_args_t := {
  uaddr : Z; op : Z; val : Z; args_timeout : option (Z * Z); val2 : Z; uaddr2 : Z; val3 : Z;
}.
Definition timeout_of (os_time_start cmd curr_time : Z) (args : futex_args_t) : Z :=
  match args_timeout args with
  | Some (tv_sec, tv_nsec) =>
      let timeout_val :=
        SubsecondTime.add (SubsecondTime.mul (u64 (tv_sec - os_time_start)) SubsecondTime.SEC_1) (SubsecondTime.mul (u64 tv_nsec) SubsecondTime.NS_1) in
      if cmd =? FUTEX_WAIT_BITSET then timeout_val else SubsecondTime.add curr_time timeout_val
  | None => SubsecondTime.MaxTime
  end.
Definition handleFutexCall (os_time_start : Z) (mem : Z → Z) (x : Z) (args : futex_args_t) (curr_time : Z) (s : t) (w : W) :
    result (answer * option (Z * Z) * t * W) :=
  let cmd := Z.land (Z.land (op args) FUTEX_CMD_MASK) (Z.lnot FUTEX_PRIVATE_FLAG) in
  let timeout_time := timeout_of os_time_start cmd curr_time args in
  let act_val := mem (uaddr args) in
  if (cmd =? FUTEX_WAIT) || (cmd =? FUTEX_WAIT_BITSET) then
    let '(r, s, w) := futexWait x (uaddr args) (val args) act_val
                        (if cmd =? FUTEX_WAIT_BITSET then val3 args else FUTEX_BITSET_MATCH_ANY) curr_time timeout_time s w in
    Ok (r, None, s, w)
  else if (cmd =? FUTEX_WAKE) || (cmd =? FUTEX_WAKE_BITSET) then
    let '(r, s, w) := futexWake x (uaddr args) (val args)
                        (if cmd =? FUTEX_WAIT_BITSET then val3 args else FUTEX_BITSET_MATCH_ANY) curr_time s w in
    Ok (r, None, s, w)
  else if cmd =? FUTEX_WAKE_OP then
    futexWakeOp mem x (uaddr args) (uaddr2 args) (val args) (val2 args) (val3 args) curr_time s w
  else if cmd =? FUTEX_CMP_REQUEUE then
    let! _ := check (negb (uaddr args =? uaddr2 args)) AssertFail in
    let! (r, s, w) := futexCmpRequeue x (uaddr args) (val args) (uaddr2 args) (val3 args) act_val curr_time s w in
    Ok (r, None, s, w)
  else Err AssertFail.

(** [addresses]: the futexes, in the order in which the map is iterated. *)
Definition futexPeriodic (addresses : list Z) (time : Z) (s : t) (w : W) : t * W :=
  let '(f, w) := SimFutex.wakeTimedOut time (m_sleeping s) w in
  foldl (λ '(s, w) a, let '(f, w) := SimFutex.wakeTimedOut time (futex_at a s) w in (put_futex a f s, w)) (put_sleeping f s, w) addresses.
Definition getNextTimeout (addresses : list Z) (s : t) : Z :=
  foldl (λ next a, let t := SimFutex.getNextTimeout (futex_at a s) in if t <? next then t else next)
    (SimFutex.getNextTimeout (m_sleeping s)) addresses.
End ops.
End SyscallServer.

(** * Proofs *)
Module FutexSpec.
Import SyscallServer.

(** ** Queues without their first threads that fit *)
Fixpoint without_first (n : nat) (fits : Waiter → bool) (l : SimFutex.t) : SimFutex.t :=
  match n, l with
  | S k, it :: l => if fits it then without_first k fits l else it :: without_first n fits l
  | _, _ => l
  end.
(** Those threads. *)
Definition first_ids (n : nat) (fits : Waiter → bool) (l : SimFutex.t) : list Z := thread_id <$> take n (List.filter fits l).

Lemma without_first_O fits l : without_first 0 fits l = l.
Proof. by destruct l. Qed.
Lemma take_first_None fits l n : take_first fits l = None → List.filter fits l = [] ∧ without_first n fits l = l.
Proof.
  intros H. destruct n as [|n]; [rewrite without_first_O; split; [|done]; revert H
    | revert H; cut (take_first fits l = None → List.filter fits l = [] ∧ without_first (S n) fits l = l); [done|]].
  all: induction l as [|it l IH]; cbn; [done|]; destruct (fits it); [done|];
    destruct (take_first fits l) as [[? ?]|]; [done|]; intros; rewrite ?(proj2 (IH eq_refl)); naive_solver.
Qed.
Lemma take_first_Some fits l it l' : take_first fits l = Some (it, l') →
  fits it = true ∧ l ≡ₚ it :: l' ∧ List.filter fits l = it :: List.filter fits l' ∧
  ∀ n, without_first (S n) fits l = without_first n fits l'.
Proof.
  revert l'. induction l as [|i l IH]; intros l'; cbn; [done|]. destruct (fits i) eqn:Hi.
  { by intros [= -> ->]. }
  destruct (take_first fits l) as [[x r]|]; [|done]. intros [= -> <-].
  destruct (IH _ eq_refl) as (H1 & H2 & H3 & H4). rewrite H3. split_and!; [done | rewrite H2; constructor | by cbn; rewrite Hi |].
  intros n. rewrite H4. destruct n as [|n]; cbn; [by rewrite without_first_O | by rewrite Hi].
Qed.
Lemma without_first_perm n fits l : thread_id <$> l ≡ₚ first_ids n fits l ++ (thread_id <$> without_first n fits l).
Proof.
  unfold first_ids. revert l. induction n as [|n IHn]; intros l; [by rewrite without_first_O|].
  induction l as [|it l IH]; cbn; [done|]. destruct (fits it); cbn.
  - constructor. apply IHn.
  - cbn in IH. rewrite IH. apply Permutation_middle.
Qed.

Lemma without_first_incl n fits l it : it ∈ without_first n fits l → it ∈ l.
Proof.
  revert n. induction l as [|i l IH]; intros [|n]; cbn; [done | done | done |].
  destruct (fits i); [intros; right; eauto|]. intros [->|]%elem_of_cons; [left | right; eauto].
Qed.

Lemma futex_at_put a f s : futex_at a (put_futex a f s) = f.
Proof. unfold futex_at. cbn. by rewrite lookup_insert_eq. Qed.
Lemma futex_at_put_ne a b f s : a ≠ b → futex_at b (put_futex a f s) = futex_at b s.
Proof. intros H. unfold futex_at. cbn. by rewrite lookup_insert_ne. Qed.
Lemma futex_at_put_self a b s : futex_at b (put_futex a (futex_at a s) s) = futex_at b s.
Proof. destruct (decide (a = b)) as [->|]; [apply futex_at_put | by apply futex_at_put_ne]. Qed.

(** ** Wake-ups

    What a call does to futexes and threads: [ids] leave the futex at [a], where [l] remains. *)
Definition changes (a : Z) (l : SimFutex.t) (s s' : t) : Prop :=
  futex_at a s' = l ∧ (∀ b, b ≠ a → futex_at b s' = futex_at b s) ∧ m_sleeping s' = m_sleeping s.

Lemma dequeue_spec m time f w : Forall (λ it, thread_id it ≠ INVALID_THREAD_ID) f →
  dequeueWaiter m time f w = (hd INVALID_THREAD_ID (first_ids 1 (mask_fits m) f), without_first 1 (mask_fits m) f,
    foldl (λ w x, resumeThread x time true w) w (first_ids 1 (mask_fits m) f)).
Proof.
  intros Hf. unfold dequeueWaiter, first_ids. destruct (take_first _ f) as [[it l]|] eqn:E.
  - destruct (take_first_Some _ _ _ _ E) as (H1 & H2 & H3 & H4). rewrite H3, H4, without_first_O. done.
  - destruct (take_first_None _ _ 1 E) as [-> ->]. done.
Qed.

(** The loops, which differ in the time they pass on. *)
Lemma wake_rounds (step : t → ThreadManager.t → Z * t * ThreadManager.t) (loop : nat → Z → t → ThreadManager.t → Z * t * ThreadManager.t) a m time
    (Hstep : ∀ s w, step s w = let '(y, f, w) := dequeueWaiter m time (futex_at a s) w in (y, put_futex a f s, w))
    (Hloop : ∀ n num s w, loop n num s w =
       match n with
       | O => (num, s, w)
       | S n => let '(y, s, w) := step s w in if y =? INVALID_THREAD_ID then (num, s, w) else loop n (num + 1) s w
       end) n num s w :
  Forall (λ it, thread_id it ≠ INVALID_THREAD_ID) (futex_at a s) →
  let ids := first_ids n (mask_fits m) (futex_at a s) in
  ∃ s', loop n num s w = (num + Z.of_nat (length ids), s', foldl (λ w x, resumeThread x time true w) w ids) ∧
    changes a (without_first n (mask_fits m) (futex_at a s)) s s'.
Proof.
  intros Hf ids. unfold ids. clear ids. revert num s w Hf. induction n as [|n IH]; intros num s w Hf; rewrite Hloop.
  { cbn. rewrite Z.add_0_r. eexists. split; [done|]. by rewrite without_first_O. }
  rewrite Hstep, dequeue_spec by done. destruct (take_first (mask_fits m) (futex_at a s)) as [[it l]|] eqn:E.
  - destruct (take_first_Some _ _ _ _ E) as (_ & H2 & H3 & H4). rewrite !H4, without_first_O.
    unfold first_ids. rewrite H3. cbn [take fmap list_fmap hd foldl length]. rewrite H2 in Hf. apply Forall_cons in Hf as [Hit Hf].
    rewrite (proj2 (Z.eqb_neq _ _)) by done. rewrite take_0. cbn.
    destruct (IH (num + 1) (put_futex a l s) (resumeThread (thread_id it) time true w)) as (s' & -> & Hs').
    { by rewrite futex_at_put. }
    rewrite futex_at_put in *. exists s'. split; [f_equal; f_equal; unfold first_ids; lia|].
    destruct Hs' as (? & Hb & ?). split_and!; [done | | done].
    intros b Hne. by rewrite Hb, futex_at_put_ne.
  - destruct (take_first_None _ _ 1 E) as [H1 H2]. destruct (take_first_None _ _ (S n) E) as [_ H3].
    unfold first_ids. rewrite H1, H2, H3. cbn. rewrite Z.add_0_r. eexists. split; [done|].
    split_and!; [apply futex_at_put | intros b Hb; by apply futex_at_put_ne | done].
Qed.

Section loops.
Context (cost : Z) (count : Z → Z).
Lemma wake_loop_spec n a x m curr num s w :
  Forall (λ it, thread_id it ≠ INVALID_THREAD_ID) (futex_at a s) →
  let ids := first_ids n (mask_fits m) (futex_at a s) in
  ∃ s', wake_loop cost count n a x m curr num s w =
      (num + Z.of_nat (length ids), s',
       foldl (λ w y, resumeThread y (SubsecondTime.add curr (applyRescheduleCost cost count x true)) true w) w ids) ∧
    changes a (without_first n (mask_fits m) (futex_at a s)) s s'.
Proof.
  apply (wake_rounds (wakeFutexOne cost count a x m curr) (λ n, wake_loop cost count n a x m curr)); [done|].
  by intros [|k] *.
Qed.
End loops.
Lemma requeue_wake_spec n a curr num s w :
  Forall (λ it, thread_id it ≠ INVALID_THREAD_ID) (futex_at a s) →
  let ids := first_ids n (mask_fits FUTEX_BITSET_MATCH_ANY) (futex_at a s) in
  ∃ s', requeue_wake n a curr num s w =
      (num + Z.of_nat (length ids), s', foldl (λ w y, resumeThread y curr true w) w ids) ∧
    changes a (without_first n (mask_fits FUTEX_BITSET_MATCH_ANY) (futex_at a s)) s s'.
Proof.
  apply (wake_rounds (λ s w, let '(y, f, w) := dequeueWaiter FUTEX_BITSET_MATCH_ANY curr (futex_at a s) w in (y, put_futex a f s, w))
           (λ n, requeue_wake n a curr)); [done|].
  intros [|k] *; [done|]. cbn. by destruct (dequeueWaiter _ _ _ _) as [[? ?] ?].
Qed.
End FutexSpec.

(** ** Requeueing *)
Module Requeue.
Import SyscallServer FutexSpec.

Definition moved (a b : Z) (l : SimFutex.t) (s s' : t) : Prop :=
  futex_at a s' = [] ∧ futex_at b s' = l ∧ (∀ c, c ≠ a → c ≠ b → futex_at c s' = futex_at c s) ∧ m_sleeping s' = m_sleeping s.

Lemma requeue_loop_spec fuel a b s : a ≠ b → Forall (λ it, thread_id it ≠ INVALID_THREAD_ID) (futex_at a s) →
  (length (futex_at a s) < fuel)%nat →
  ∃ s', requeue_loop fuel a b s = Ok s' ∧ moved a b (futex_at b s ++ futex_at a s) s s'.
Proof.
  intros Hab. revert s. induction fuel as [|n IH]; intros s Hf Hn; cbn; [lia|].
  unfold requeueWaiter. destruct (futex_at a s) as [|it f] eqn:E; cbn in Hn.
  { eexists. split; [done|]. by rewrite app_nil_r. }
  apply Forall_cons in Hf as [Hit Hf]. rewrite (proj2 (Z.eqb_neq _ _)) by done.
  set (s1 := put_futex b _ _).
  assert (Ha : futex_at a s1 = f) by (unfold s1; rewrite futex_at_put_ne by done; apply futex_at_put).
  assert (Hb : futex_at b s1 = futex_at b s ++ [it]) by (unfold s1; rewrite futex_at_put; by rewrite futex_at_put_ne).
  destruct (IH s1) as (s' & -> & Hs'); [by rewrite Ha | rewrite Ha; lia |]. exists s'. split; [done|].
  rewrite Ha, Hb, <- app_assoc in Hs'. destruct Hs' as (? & ? & Hc & ?). split_and!; [done | done | | done].
  intros c Hca Hcb. rewrite Hc by done. unfold s1. by rewrite !futex_at_put_ne.
Qed.
(** Two names of one futex, which [handleFutexCall] does not exclude: the loop never ends. *)
Lemma requeue_to_itself fuel a s :
  Forall (λ it, thread_id it ≠ INVALID_THREAD_ID) (futex_at a s) → futex_at a s ≠ [] →
  requeue_loop fuel a a s = Err Diverges.
Proof.
  revert s. induction fuel as [|n IH]; intros s Hf Hs; cbn; [done|].
  unfold requeueWaiter. destruct (futex_at a s) as [|it f] eqn:E; [done|].
  apply Forall_cons in Hf as [Hit Hf]. rewrite (proj2 (Z.eqb_neq _ _)) by done.
  rewrite futex_at_put. apply IH; rewrite futex_at_put; [by apply Forall_app_2; [|constructor] | by destruct f].
Qed.
End Requeue.

Import SyscallServer FutexSpec.

(** [C27] [futexWake], on waiters with valid ids, wakes up exactly the first [nr_wake] threads whose masks fit, in the order in
    which they came, or all of them if there are less; the others stay in their order, other futexes
    as they are.  Each thread woken up returns success, at the caller's time and the cost of a
    reschedule; the caller learns how many there were. *)
Theorem futexWake_fifo cost va2pa count x uaddr nr_wake m curr s w
    (Hids : Forall (λ it, thread_id it ≠ INVALID_THREAD_ID) (futex_at (va2pa x uaddr) s)) :
  let a := va2pa x uaddr in
  let fits it := negb (Z.land m (mask it) =? 0) in
  let ids := first_ids (Z.to_nat nr_wake) fits (futex_at a s) in
  ∃ s' w',
    futexWake cost va2pa count x uaddr nr_wake m curr s w =
      (Returns (Z.of_nat (length ids))
         (SubsecondTime.add curr (applyRescheduleCost cost count x (0 <? Z.of_nat (length ids)))), s', w') ∧
    futex_at a s' = without_first (Z.to_nat nr_wake) fits (futex_at a s) ∧
    (∀ b, b ≠ a → futex_at b s' = futex_at b s) ∧ m_sleeping s' = m_sleeping s ∧
    (∀ y, y ∈ ids → status w' y = RUNNING ∧ asleep w' y = false ∧
       futexWait_return y w' = Returns 0 (SubsecondTime.add curr (applyRescheduleCost cost count x true))) ∧
    (∀ y, y ∉ ids → status w' y = status w y ∧ asleep w' y = asleep w y ∧ futexWait_return y w' = futexWait_return y w).
Proof.
  intros a fits ids. change fits with (mask_fits m) in *. clear fits. unfold futexWake, findFutexByUaddr. fold a.
  destruct (wake_loop_spec cost count (Z.to_nat nr_wake) a x m curr 0 (put_futex a (futex_at a s) s) w) as (s' & -> & Hs').
  { by rewrite futex_at_put. }
  rewrite futex_at_put in *. fold ids. rewrite Z.add_0_l. eexists s', _. split; [done|].
  destruct Hs' as (Ha & Hb & Hsl). split_and!; [done | | done | |].
  - intros b Hne. by rewrite Hb, futex_at_put_self.
  - intros y Hy. unfold futexWait_return, enqueueWaiter_return.
    destruct (Waiting.resume_all_spec ids (SubsecondTime.add curr (applyRescheduleCost cost count x true)) true w y) as (-> & -> & -> & ->).
    by rewrite !decide_True.
  - intros y Hy. unfold futexWait_return, enqueueWaiter_return.
    destruct (Waiting.resume_all_spec ids (SubsecondTime.add curr (applyRescheduleCost cost count x true)) true w y) as (-> & -> & -> & ->).
    by rewrite !decide_False.
Qed.

(** [FUTEX_CMP_REQUEUE] on two futexes, if the word has the expected value, wakes up the first
    [val] threads of one and moves all others, in their order, to the end of the other; it ends,
    as many rounds as there are threads left and one more being enough. *)
Theorem futexCmpRequeue_moves va2pa x uaddr val uaddr2 val3 curr s w
    (Hids : Forall (λ it, thread_id it ≠ INVALID_THREAD_ID) (futex_at (va2pa x uaddr) s))
    (Hne : va2pa x uaddr ≠ va2pa x uaddr2) :
  let a := va2pa x uaddr in
  let b := va2pa x uaddr2 in
  let any := mask_fits FUTEX_BITSET_MATCH_ANY in
  let ids := first_ids (Z.to_nat val) any (futex_at a s) in
  ∃ s', futexCmpRequeue va2pa x uaddr val uaddr2 val3 val3 curr s w =
      Ok (Returns (Z.of_nat (length ids)) curr, s', foldl (λ w y, resumeThread y curr true w) w ids) ∧
    Requeue.moved a b (futex_at b s ++ without_first (Z.to_nat val) any (futex_at a s)) s s'.
Proof.
  intros a b any ids. unfold futexCmpRequeue, findFutexByUaddr. rewrite Z.eqb_refl. cbn [negb]. fold a b.
  destruct (requeue_wake_spec (Z.to_nat val) a curr 0 (put_futex a (futex_at a s) s) w) as (s1 & -> & Ha & Hb & Hsl).
  { by rewrite futex_at_put. }
  rewrite futex_at_put in *. fold any in Ha |- *. fold ids.
  destruct (Requeue.requeue_loop_spec (S (length (futex_at a (put_futex b (futex_at b s1) s1)))) a b (put_futex b (futex_at b s1) s1))
    as (s' & E & Hs'); [done | | lia |].
  { rewrite futex_at_put_self, Ha. apply Forall_forall. intros it Hit. rewrite Forall_forall in Hids. apply Hids.
    by eapply without_first_incl. }
  rewrite E. cbn [rbind]. rewrite Z.add_0_l. exists s'. split; [done|].
  rewrite !futex_at_put_self, Ha, Hb, futex_at_put_self in Hs' by done. destruct Hs' as (? & ? & Hc & Hm).
  split_and!; [done | done | | by rewrite Hm].
  intros c Hca Hcb. by rewrite Hc, futex_at_put_ne, Hb, futex_at_put_self.
Qed.

(** ** The operations of [FUTEX_WAKE_OP]

    The word that [FUTEX_OP] of the Linux interface makes of an operation, a comparison and
    their arguments of 12 bits; [shift]: the argument is the number of a bit. *)
Module FutexOp.
Inductive operation := SET | ADD | OR | ANDN | XOR.
Inductive comparison := EQ | NE | LT | LE | GT | GE.
Definition operation_code (o : operation) : Z := match o with SET => 0 | ADD => 1 | OR => 2 | ANDN => 3 | XOR => 4 end.
Definition comparison_code (c : comparison) : Z := match c with EQ => 0 | NE => 1 | LT => 2 | LE => 3 | GT => 4 | GE => 5 end.
Definition encode (shift : bool) (o : operation) (c : comparison) (oparg cmparg : Z) : Z :=
  s32 ((operation_code o + (if shift then 8 else 0)) * 2 ^ 28 + comparison_code c * 2 ^ 24 + oparg `mod` 2 ^ 12 * 2 ^ 12 + cmparg `mod` 2 ^ 12).

Definition apply (o : operation) (old arg : Z) : Z :=
  match o with
  | SET => arg | ADD => s32 (old + arg) | OR => Z.lor old arg | ANDN => Z.land old (Z.lnot arg) | XOR => Z.lxor old arg
  end.
Definition holds (c : comparison) (old arg : Z) : bool :=
  match c with
  | EQ => old =? arg | NE => negb (old =? arg) | LT => old <? arg | LE => old <=? arg | GT => arg <? old | GE => arg <=? old
  end.

Lemma operation_code_range o : 0 ≤ operation_code o < 8.
Proof. destruct o; cbn; lia. Qed.
Lemma comparison_code_range c : 0 ≤ comparison_code c < 16.
Proof. destruct c; cbn; lia. Qed.

Lemma decode_fields a c o p (Ha : 0 ≤ a < 16) (Hc : 0 ≤ c < 16) (Ho : - 2 ^ 11 ≤ o < 2 ^ 11) (Hp : - 2 ^ 11 ≤ p < 2 ^ 11) :
  let e := s32 (a * 2 ^ 28 + c * 2 ^ 24 + o `mod` 2 ^ 12 * 2 ^ 12 + p `mod` 2 ^ 12) in
  Z.land (Z.shiftr e 28) 7 = a `mod` 8 ∧ Z.land (Z.shiftr e 24) 15 = c ∧ Z.testbit e 31 = (8 <=? a) ∧
  Z.shiftr (s32 (Z.shiftl e 8)) 20 = o ∧ Z.shiftr (s32 (Z.shiftl e 20)) 20 = p.
Proof.
  intros e. set (O := o `mod` 2 ^ 12) in *. set (Q := p `mod` 2 ^ 12) in *.
  assert (HO : 0 ≤ O < 2 ^ 12 ∧ (O = o ∨ O = o + 2 ^ 12)) by (unfold O; Z.to_euclidean_division_equations; lia).
  assert (HQ : 0 ≤ Q < 2 ^ 12 ∧ (Q = p ∨ Q = p + 2 ^ 12)) by (unfold Q; Z.to_euclidean_division_equations; lia).
  clearbody O Q.
  assert (He : (e = a * 2 ^ 28 + c * 2 ^ 24 + O * 2 ^ 12 + Q ∧ a < 8) ∨ (e = (a - 16) * 2 ^ 28 + c * 2 ^ 24 + O * 2 ^ 12 + Q ∧ 8 ≤ a)).
  { unfold e, s32. Z.to_euclidean_division_equations; lia. }
  clearbody e. change 7 with (Z.ones 3). change 15 with (Z.ones 4).
  rewrite !Z.land_ones, !Z.shiftr_div_pow2, !Z.shiftl_mul_pow2 by lia. split_and!.
  - Z.to_euclidean_division_equations; lia.
  - Z.to_euclidean_division_equations; lia.
  - apply eq_bool_prop_intro. rewrite !Is_true_true, Z.testbit_true, Z.leb_le by lia. Z.to_euclidean_division_equations; lia.
  - unfold s32. Z.to_euclidean_division_equations; lia.
  - unfold s32. Z.to_euclidean_division_equations; lia.
Qed.
End FutexOp.

(** [C26] [futexDoOp] computes what the word encodes: the new value of the memory word and whether
    the comparison with its old value holds, for every operation, comparison and pair of signed
    arguments of 12 bits, the argument being a bit if the word says so. *)
Theorem futexDoOp_decodes (shift : bool) o c oparg cmparg oldval
    (Ho : if shift then 0 ≤ oparg < 32 else - 2 ^ 11 ≤ oparg < 2 ^ 11) (Hc : - 2 ^ 11 ≤ cmparg < 2 ^ 11) :
  futexDoOp (FutexOp.encode shift o c oparg cmparg) oldval =
    Ok (FutexOp.apply o oldval (if shift then s32 (2 ^ oparg) else oparg), FutexOp.holds c oldval cmparg).
Proof.
  pose proof (FutexOp.operation_code_range o) as Hr. pose proof (FutexOp.comparison_code_range c) as Hr'.
  destruct (FutexOp.decode_fields (FutexOp.operation_code o + (if shift then 8 else 0)) (FutexOp.comparison_code c) oparg cmparg)
    as (E1 & E2 & E3 & E4 & E5); [destruct shift; lia | lia | destruct shift; lia | lia |].
  unfold futexDoOp, FutexOp.encode. rewrite E1, E2, E3, E4, E5.
  assert ((FutexOp.operation_code o + (if shift then 8 else 0)) `mod` 8 = FutexOp.operation_code o) as ->.
  { destruct shift, o; done. }
  destruct shift.
  - rewrite (proj2 (Z.leb_le 8 _)) by lia. cbn [rbind].
    rewrite (proj2 (Z.leb_le 0 _)), (proj2 (Z.ltb_lt _ 32)) by lia. cbn [andb check rbind].
    rewrite Z.shiftl_1_l. by destruct o, c.
  - rewrite (proj2 (Z.leb_gt 8 _)) by lia. by destruct o, c.
Qed.

(** ** Where the code does something else than it says *)

(** The timeout of the waiter that came last is reported, not the first to expire. *)
Lemma getNextTimeout_of_last_waiter x y m m' early late :
  early < late < SubsecondTime.MaxTime →
  SimFutex.getNextTimeout [{| thread_id := x; mask := m; timeout := early |}; {| thread_id := y; mask := m'; timeout := late |}] = late.
Proof.
  intros H. unfold SimFutex.getNextTimeout. cbn. by rewrite !(proj2 (Z.ltb_lt _ _)) by lia.
Qed.
(** [FUTEX_WAKE_BITSET] wakes up threads whose masks do not fit. *)
Lemma wake_bitset_wakes_any cost va2pa count os mem x a n m m2 curr s w :
  handleFutexCall cost va2pa count os mem x
    {| uaddr := a; op := FUTEX_WAKE_BITSET; val := n; args_timeout := None; val2 := m2; uaddr2 := 0; val3 := m |} curr s w =
  handleFutexCall cost va2pa count os mem x
    {| uaddr := a; op := FUTEX_WAKE; val := n; args_timeout := None; val2 := m2; uaddr2 := 0; val3 := m |} curr s w.
Proof. done. Qed.

(** * Futexes at work *)
Module FutexExample.
Definition waiter (x m : Z) : Waiter := {| thread_id := x; mask := m; timeout := SubsecondTime.MaxTime |}.
Definition queue3 : t := put_futex 64 [waiter 1 1; waiter 2 2; waiter 3 3] new.
Definition va (x a : Z) : Z := a.
Definition one (x : Z) : Z := 1.

(** Two of those with the lowest bit in their masks. *)
Lemma futexWake_fifo_witness :
  Forall (λ it, thread_id it ≠ INVALID_THREAD_ID) (futex_at 64 queue3) ∧
  ∃ s' w',
    futexWake 10 va one 0 64 2 1 100 queue3 ThreadManager.new = (Returns 2 110, s', w') ∧
    futex_at 64 s' = [waiter 2 2] ∧
    (∀ b, b ≠ 64 → futex_at b s' = futex_at b queue3) ∧ m_sleeping s' = [] ∧
    (∀ y, y ∈ [1; 3] → status w' y = RUNNING ∧ asleep w' y = false ∧ futexWait_return y w' = Returns 0 110) ∧
    (∀ y, y ∉ [1; 3] → status w' y = IDLE ∧ asleep w' y = false ∧ futexWait_return y w' = Returns (u64 (- ETIMEDOUT)) 0).
Proof.
  assert (H : Forall (λ it, thread_id it ≠ INVALID_THREAD_ID) (futex_at 64 queue3)) by (repeat constructor; discriminate).
  split; [done|]. exact (futexWake_fifo 10 va one 0 64 2 1 100 queue3 ThreadManager.new H).
Defined.

Lemma futexCmpRequeue_moves_witness :
  Forall (λ it, thread_id it ≠ INVALID_THREAD_ID) (futex_at 64 queue3) ∧ 64 ≠ 128 ∧
  ∃ s', futexCmpRequeue va 0 64 1 128 7 7 100 queue3 ThreadManager.new =
      Ok (Returns 1 100, s', resumeThread 1 100 true ThreadManager.new) ∧
    Requeue.moved 64 128 [waiter 2 2; waiter 3 3] queue3 s'.
Proof.
  assert (H : Forall (λ it, thread_id it ≠ INVALID_THREAD_ID) (futex_at 64 queue3)) by (repeat constructor; discriminate).
  split; [done|]. split; [done|].
  exact (futexCmpRequeue_moves va 0 64 1 128 7 100 queue3 ThreadManager.new H ltac:(discriminate)).
Defined.

Lemma futexDoOp_decodes_witness :
  0 ≤ 4 < 32 ∧ - 2 ^ 11 ≤ - 3 < 2 ^ 11 ∧
  futexDoOp (FutexOp.encode true FutexOp.OR FutexOp.GT 4 (- 3)) 1 = Ok (17, true).
Proof.
  assert (0 ≤ 4 < 32) as H by lia. assert (- 2 ^ 11 ≤ - 3 < 2 ^ 11) as H' by lia.
  split; [done|]. split; [done|]. exact (futexDoOp_decodes true FutexOp.OR FutexOp.GT 4 (- 3) 1 H H').
Defined.
End FutexExample.
