(* ===== verification/WaitingThreads.v ===== *)
(** The threads of simulated programs together with the servers they wait for: the mutexes,
    condition variables and barriers of [SyncServer], the futexes and sleeping threads of
    [SyscallServer], and the starts and exits of threads of [ThreadManager].

    [step] is any call of a thread that does not sleep, the periodic hook, and what the scheduler
    does to a thread.  In every state that can be reached a thread that sleeps is in one queue,
    once, from which a wake-up takes it, or waits for a core. *)
From stdpp Require Import functions.
From S2P Require Import Prelude Timing Threads SyncServer Futex.
Import ThreadManager Waiting.

(** ** The state and its queues *)
Record t := mkState { sync : SyncServer.t; sys : SyscallServer.t; threads : ThreadManager.t }.
Definition new : t := mkState SyncServer.new SyscallServer.new ThreadManager.new.

Inductive place := PMutex (mux : Z) | PCond (cond : Z) | PBarrier (i : nat) | PFutex (a : Z) | PSleep | PWaiter (y : Z).
#[global] Instance place_eq_dec : EqDecision place.
Proof. solve_decision. Defined.

Definition waiter_queue (w : ThreadManager.t) (y : Z) : list Z := if waiter w y =? INVALID_THREAD_ID then [] else [waiter w y].
Definition queue_of (s : t) (p : place) : list Z :=
  match p with
  | PMutex mux => default [] (SimMutex.m_waiting <$> SyncServer.m_mutexes (sync s) !! mux)
  | PCond c => (default [] (SyncServer.m_conds (sync s) !! c)).*1
  | PBarrier i => default [] (SimBarrier.m_waiting <$> SyncServer.m_barriers (sync s) !! i)
  | PFutex a => SimFutex.thread_id <$> SyscallServer.futex_at a (sys s)
  | PSleep => SimFutex.thread_id <$> SyscallServer.m_sleeping (sys s)
  | PWaiter y => waiter_queue (threads s) y
  end.

(** ** Exit of a thread

    [ThreadManager::onThreadExit]: it wakes up the thread that joins, and if it has to clear
    its id in memory, one that waits for that word.  [elapsed]: the clock of its core. *)
Section exit.
Context (cost : Z) (va2pa : Z → Z → Z) (getInstructionCount : Z → Z).
Definition onThreadExit (x elapsed : Z) (clear_tid : option Z) (s : t) : result t :=
  match m_core (threads s) x with
  | None => Err AssertFail
  | Some c =>
      let! _ := check (isThreadRunning (threads s) x) AssertFail in
      let w := wakeUpWaiter x elapsed (set_status x IDLE (threads s)) in
      let '(sy, w) :=
        match clear_tid with
        | Some tid_ptr =>
            let '(_, sy, w) := SyscallServer.futexWake cost va2pa getInstructionCount x tid_ptr 1 FUTEX_BITSET_MATCH_ANY elapsed (sys s) w in (sy, w)
        | None => (sys s, w)
        end in
      let! w := setCore x None (set_core_state c IDLE w) in
      Ok (mkState (sync s) sy w)
  end.
End exit.

(** ** Steps *)
Section steps.
Context (cost os_time_start : Z) (va2pa : Z → Z → Z) (getInstructionCount : Z → Z).

(** A thread that calls: it does not sleep and has a core, or had one when it was started. *)
Definition caller (s : t) (x : Z) : Prop := may_call (threads s) x ∧ ¬ unscheduled (threads s) x.
Definition exists_thread (s : t) (y : Z) : Prop := 0 ≤ y < m_threads (threads s).

Inductive step (s : t) : t → Prop :=
  | step_mutexInit mux y : SyncServer.mutexInit mux (sync s) = Ok y → step s (mkState y (sys s) (threads s))
  | step_mutexLock x mux try time r y w : caller s x →
      SyncServer.mutexLock cost x mux try time (sync s) (threads s) = Ok (r, y, w) → step s (mkState y (sys s) w)
  | step_mutexUnlock x mux time r y w : caller s x →
      SyncServer.mutexUnlock cost x mux time (sync s) (threads s) = Ok (r, y, w) → step s (mkState y (sys s) w)
  | step_condInit c : step s (mkState (SyncServer.condInit c (sync s)) (sys s) (threads s))
  | step_condWait x c mux time y w : caller s x →
      SyncServer.condWait x c mux time (sync s) (threads s) = Ok (y, w) → step s (mkState y (sys s) w)
  | step_condSignal c time r y w : SyncServer.condSignal c time (sync s) (threads s) = Ok (r, y, w) → step s (mkState y (sys s) w)
  | step_condBroadcast c time r y w : SyncServer.condBroadcast c time (sync s) (threads s) = Ok (r, y, w) → step s (mkState y (sys s) w)
  | step_barrierInit count : 0 ≤ count < 2 ^ 32 → step s (mkState (snd (SyncServer.barrierInit count (sync s))) (sys s) (threads s))
  | step_barrierWait x i time r y w : caller s x →
      SyncServer.barrierWait x i time (sync s) (threads s) = Ok (r, y, w) → step s (mkState y (sys s) w)
  | step_sleep x time y w : caller s x →
      SyscallServer.handleSleepCall x time (sys s) (threads s) = (y, w) → step s (mkState (sync s) y w)
  | step_futex mem x args time r m y w : caller s x →
      SyscallServer.handleFutexCall cost va2pa getInstructionCount os_time_start mem x args time (sys s) (threads s) = Ok (r, m, y, w) →
      step s (mkState (sync s) y w)
  | step_periodic addresses time y w :
      SyscallServer.futexPeriodic addresses time (sys s) (threads s) = (y, w) → step s (mkState (sync s) y w)
  | step_spawn x time core y w : spawnThread x time core (threads s) = Ok (y, w) → step s (mkState (sync s) (sys s) w)
  | step_to_spawn r w : getThreadToSpawn (threads s) = Ok (r, w) → step s (mkState (sync s) (sys s) w)
  | step_start x time elapsed : may_call (threads s) x → isThreadInitializing (threads s) x →
      step s (mkState (sync s) (sys s) (onThreadStart x time elapsed (threads s)))
  | step_wait_start x y w : caller s x → exists_thread s y →
      waitForThreadStart x y (threads s) = Ok w → step s (mkState (sync s) (sys s) w)
  | step_join x y r w : caller s x → exists_thread s y →
      joinThread x y (threads s) = Ok (r, w) → step s (mkState (sync s) (sys s) w)
  | step_exit x elapsed clear_tid s' : caller s x →
      onThreadExit cost va2pa getInstructionCount x elapsed clear_tid s = Ok s' → step s s'
  | step_move x core time w : exists_thread s x → moveThread x core time (threads s) = Ok w → step s (mkState (sync s) (sys s) w)
  | step_reschedule x : may_call (threads s) x → step s (mkState (sync s) (sys s) (stallThread x STALL_UNSCHEDULED (threads s)))
  | step_blocking_call x r : caller s x → r ≠ STALL_UNSCHEDULED → step s (mkState (sync s) (sys s) (stallThread_async x r (threads s)))
  | step_blocking_return x : may_call (threads s) x → step s (mkState (sync s) (sys s) (resumeThread_async x (threads s))).

Inductive reachable : t → Prop :=
  | reach_new : reachable new
  | reach_step s s' : reachable s → step s s' → reachable s'.
End steps.

(** * Proofs *)

(** ** What holds of the servers *)
Record sync_ok (y : SyncServer.t) : Prop := {
  so_mutex : map_Forall (λ _ m, MutexQueue.wf m) (SyncServer.m_mutexes y);
  so_cond : map_Forall (λ _ l, Forall (λ e : Z * Z, is_Some (SyncServer.m_mutexes y !! snd e)) l) (SyncServer.m_conds y);
  so_barrier : Forall (λ b, 0 ≤ SimBarrier.m_count b < 2 ^ 32 ∧
    (0 < SimBarrier.m_count b → Z.of_nat (length (SimBarrier.m_waiting b)) < SimBarrier.m_count b)) (SyncServer.m_barriers y);
}.
Record threads_ok (w : ThreadManager.t) : Prop := {
  to_num : 0 ≤ m_threads w;
  to_ids x : waits w x → 0 ≤ x < m_threads w;
  to_fresh y : m_threads w ≤ y → waiter w y = INVALID_THREAD_ID ∧ asleep w y = false ∧ m_core w y = None;
  to_cores x c : m_core w x = Some c ↔ core_thread w c = Some x;
  to_idle c : core_thread w c = None → core_state w c = IDLE;
}.
Record inv (s : t) : Prop := {
  i_queues : queues_ok (queue_of s) (waits (threads s));
  i_sync : sync_ok (sync s);
  i_threads : threads_ok (threads s);
}.

(** ** The threads under [stallThread] and [resumeThread] *)

(** What the servers do not change. *)
Record frame (w w' : ThreadManager.t) : Prop := {
  f_num : m_threads w' = m_threads w;
  f_waiter : waiter w' = waiter w;
  f_core : m_core w' = m_core w;
  f_core_thread : core_thread w' = core_thread w;
  f_core_state : core_state w' = core_state w;
  f_waits y : waits w' y → waits w y ∨ 0 ≤ y < m_threads w;
  f_asleep y : asleep w' y → asleep w y ∨ 0 ≤ y < m_threads w;
}.
#[global] Instance frame_preorder : PreOrder frame.
Proof.
  split; [intros w; split; auto|]. intros w1 w2 w3 [] []. split; try congruence.
  - intros y H. destruct (f_waits1 y H); [auto|]. right. congruence.
  - intros y H. destruct (f_asleep1 y H); [auto|]. right. congruence.
Qed.
Lemma frame_stall w x r : 0 ≤ x < m_threads w → frame w (stallThread x r w).
Proof.
  intros Hx. split; try done; intros y.
  - unfold waits, unscheduled, stallThread, wait, stallThread_async. cbn.
    destruct (decide (y = x)) as [->|Hy]; [auto|]. rewrite !fn_lookup_insert_ne by done. auto.
  - cbn. destruct (decide (y = x)) as [->|Hy]; [auto|]. rewrite fn_lookup_insert_ne by done. auto.
Qed.
Lemma frame_resume w x time msg : frame w (resumeThread x time msg w).
Proof.
  split; try done; intros y.
  - rewrite waits_resume. naive_solver.
  - cbn. destruct (decide (y = x)) as [->|Hy]; [by rewrite fn_lookup_insert|]. rewrite fn_lookup_insert_ne by done. auto.
Qed.
Lemma frame_resume_all l time msg w : frame w (foldl (λ w x, resumeThread x time msg w) w l).
Proof. revert w. induction l as [|x l IH]; intros w; cbn; [done|]. etrans; [apply frame_resume | apply IH]. Qed.
#[local] Hint Resolve frame_stall frame_resume frame_resume_all : core.

Lemma frame_threads_ok w w' : threads_ok w → frame w w' → threads_ok w'.
Proof.
  intros [] []. split.
  - by rewrite f_num0.
  - intros x Hx. rewrite f_num0. destruct (f_waits0 x Hx); auto.
  - intros y Hy. rewrite f_num0 in Hy. rewrite f_waiter0, f_core0. destruct (to_fresh0 y Hy) as (? & Ha & ?). split_and!; [done | | done].
    destruct (asleep w' y) eqn:E; [|done]. destruct (f_asleep0 y); [by rewrite E | by rewrite Ha in * | lia].
  - by rewrite f_core0, f_core_thread0.
  - rewrite f_core_state0, f_core_thread0. auto.
Qed.

(** ** What one queue promises: its members exist *)
Lemma members_exist s p x : inv s → x ∈ queue_of s p → 0 ≤ x < m_threads (threads s).
Proof. intros [Hq _ Ht] Hx. apply (to_ids _ Ht). apply (qo_waits _ _ Hq). eauto. Qed.
Lemma caller_exists s x : caller s x → 0 ≤ x < m_threads (threads s) ∧ x ≠ INVALID_THREAD_ID.
Proof. intros [H _]. apply may_call_range in H. unfold INVALID_THREAD_ID. lia. Qed.
Lemma caller_not_waits s x : caller s x → ¬ waits (threads s) x.
Proof. intros [H _]. by apply may_call_not_waits. Qed.

Lemma inv_intro s y z w : inv s → frame (threads s) w → sync_ok y → queues_ok (queue_of (mkState y z w)) (waits w) → inv (mkState y z w).
Proof. intros [_ _ Ht] Hf Hs Hq. split; [done | done | by eapply frame_threads_ok]. Qed.
Lemma inv_same_queues s y z w : inv s → frame (threads s) w → sync_ok y → (∀ p, queue_of (mkState y z w) p = queue_of s p) →
  (∀ x, waits w x ↔ waits (threads s) x) → inv (mkState y z w).
Proof. intros Hi Hf Hs Hq Hw. eapply inv_intro; [done | done | done |]. eapply queues_ok_ext; [apply (i_queues _ Hi) | done | done]. Qed.

(** ** Mutexes *)
Lemma sync_ok_put_mutex mux m y : sync_ok y → MutexQueue.wf m → sync_ok (SyncServer.put_mutex mux m y).
Proof.
  intros [Hm Hc Hb] Hwf. split; cbn; [by apply map_Forall_insert_2 | | done].
  intros c l Hl. eapply Forall_impl; [exact (Hc c l Hl)|]. intros e He. rewrite lookup_insert_is_Some'. auto.
Qed.
Lemma sync_ok_put_cond c l y : sync_ok y → Forall (λ e : Z * Z, is_Some (SyncServer.m_mutexes y !! snd e)) l → sync_ok (SyncServer.put_cond c l y).
Proof. intros [Hm Hc Hb] Hl. split; cbn; [done | by apply map_Forall_insert_2 | done]. Qed.

Lemma queue_put_mutex_ne s mux m w q : (∀ y, waiter w y = waiter (threads s) y) → q ≠ PMutex mux →
  queue_of (mkState (SyncServer.put_mutex mux m (sync s)) (sys s) w) q = queue_of s q.
Proof. intros Hw Hq. destruct q; cbn; try done; [by rewrite lookup_insert_ne by congruence | by unfold waiter_queue; rewrite Hw]. Qed.
Lemma queue_put_mutex s mux m w : queue_of (mkState (SyncServer.put_mutex mux m (sync s)) (sys s) w) (PMutex mux) = SimMutex.m_waiting m.
Proof. cbn. by rewrite lookup_insert_eq. Qed.
Lemma queue_put_cond_ne s c l w q : (∀ y, waiter w y = waiter (threads s) y) → q ≠ PCond c →
  queue_of (mkState (SyncServer.put_cond c l (sync s)) (sys s) w) q = queue_of s q.
Proof. intros Hw Hq. destruct q; cbn; try done; [by rewrite lookup_insert_ne by congruence | by unfold waiter_queue; rewrite Hw]. Qed.
Lemma queue_put_cond s c l w : queue_of (mkState (SyncServer.put_cond c l (sync s)) (sys s) w) (PCond c) = l.*1.
Proof. cbn. by rewrite lookup_insert_eq. Qed.
Lemma queue_mutex s mux m : SyncServer.m_mutexes (sync s) !! mux = Some m → queue_of s (PMutex mux) = SimMutex.m_waiting m.
Proof. intros H. cbn. by rewrite H. Qed.

(** A mutex whose waiting threads stay. *)
Lemma inv_put_mutex s mux m w : inv s → frame (threads s) w → MutexQueue.wf m → queue_of s (PMutex mux) = SimMutex.m_waiting m →
  (∀ x, waits w x ↔ waits (threads s) x) → inv (mkState (SyncServer.put_mutex mux m (sync s)) (sys s) w).
Proof.
  intros Hi Hf Hm Hq Hw. apply (inv_same_queues s); [done | done | apply sync_ok_put_mutex; [apply Hi | done] | | done].
  intros q. destruct (decide (q = PMutex mux)) as [->|]; [by rewrite queue_put_mutex, Hq|].
  apply queue_put_mutex_ne; [|done]. intros. by rewrite (f_waiter _ _ Hf).
Qed.
Lemma inv_getMutex s mux b m y : inv s → SyncServer.getMutex mux b (sync s) = Ok (m, y) →
  inv (mkState y (sys s) (threads s)) ∧ SyncServer.m_mutexes y !! mux = Some m ∧ MutexQueue.wf m.
Proof.
  intros Hi. unfold SyncServer.getMutex. destruct (SyncServer.m_mutexes (sync s) !! mux) as [m'|] eqn:Hm.
  - intros [= <- <-]. split_and!; [by destruct s | done | exact (so_mutex _ (i_sync _ Hi) _ _ Hm)].
  - destruct b; [|done]. intros [= <- <-]. split_and!; [|by cbn; rewrite lookup_insert_eq | apply MutexQueue.new_wf].
    apply inv_put_mutex; [done | done | apply MutexQueue.new_wf | cbn; by rewrite Hm | done].
Qed.

Lemma inv_lock s mux m x time r m' w : inv s → SyncServer.m_mutexes (sync s) !! mux = Some m → caller s x →
  SimMutex.lock x time m (threads s) = (r, m', w) → inv (mkState (SyncServer.put_mutex mux m' (sync s)) (sys s) w).
Proof.
  intros Hi Hm Hx. destruct (caller_exists _ _ Hx) as [Hr Hx0]. pose proof (so_mutex _ (i_sync _ Hi) _ _ Hm) as [Hfree Hno].
  unfold SimMutex.lock. destruct (Z.eqb_spec (SimMutex.m_owner m) SimMutex.NO_OWNER) as [E|E]; intros [= <- <- <-].
  - apply inv_put_mutex; [done | done | by apply MutexQueue.owned_wf | exact (queue_mutex _ _ _ Hm) | done].
  - apply (inv_intro s); [done | auto | apply sync_ok_put_mutex; [apply Hi | apply MutexQueue.owned_wf; [done | set_solver]] |].
    apply (queues_ok_join (PMutex mux) x (queue_of s) _ (waits (threads s))).
    + apply Hi.
    + by apply caller_not_waits.
    + rewrite queue_put_mutex, (queue_mutex _ _ _ Hm). cbn. by rewrite <- Permutation_cons_append.
    + intros q Hq. by apply queue_put_mutex_ne.
    + intros y. by apply waits_stall.
Qed.
Lemma inv_unlock s mux m x time r m' w : inv s → SyncServer.m_mutexes (sync s) !! mux = Some m →
  SimMutex.unlock x time m (threads s) = Ok (r, m', w) →
  inv (mkState (SyncServer.put_mutex mux m' (sync s)) (sys s) w) ∧ frame (threads s) w ∧ (∀ y, waits w y → waits (threads s) y).
Proof.
  intros Hi Hm. pose proof (so_mutex _ (i_sync _ Hi) _ _ Hm) as [Hfree Hno].
  unfold SimMutex.unlock. destruct (check _ _); cbn; [|done]. destruct (SimMutex.m_waiting m) as [|v l] eqn:El; intros [= <- <- <-].
  - split_and!; [|done | done]. apply inv_put_mutex; [done | done | split; [done | set_solver] | by rewrite (queue_mutex _ _ _ Hm) | done].
  - assert (v ≠ SimMutex.NO_OWNER ∧ SimMutex.NO_OWNER ∉ l) as [? ?] by set_solver.
    split_and!; [|auto | intros y; rewrite waits_resume; naive_solver].
    apply (inv_intro s); [done | auto | apply sync_ok_put_mutex; [apply Hi | by apply MutexQueue.owned_wf] |].
    apply (queues_ok_leave (PMutex mux) [v] (queue_of s) _ (waits (threads s))).
    + apply Hi.
    + by rewrite queue_put_mutex, (queue_mutex _ _ _ Hm), El.
    + intros q Hq. by apply queue_put_mutex_ne.
    + intros y. rewrite waits_resume. set_solver.
Qed.

(** ** Condition variables *)
Lemma inv_getCond s c l y : inv s → SyncServer.getCond c (sync s) = (l, y) →
  inv (mkState y (sys s) (threads s)) ∧ SyncServer.m_conds y !! c = Some l ∧ SyncServer.m_mutexes y = SyncServer.m_mutexes (sync s).
Proof.
  intros Hi. unfold SyncServer.getCond. destruct (SyncServer.m_conds (sync s) !! c) as [l'|] eqn:Hc; intros [= <- <-].
  - split_and!; [by destruct s | done | done].
  - split_and!; [|by cbn; rewrite lookup_insert_eq | done].
    apply (inv_same_queues s); [done | done | apply sync_ok_put_cond; [apply Hi | constructor] | | done].
    intros q. destruct (decide (q = PCond c)) as [->|]; [rewrite queue_put_cond; cbn; by rewrite Hc|].
    by apply queue_put_cond_ne.
Qed.

Lemma inv_condWait s x c mux time y w : inv s → caller s x →
  SyncServer.condWait x c mux time (sync s) (threads s) = Ok (y, w) → inv (mkState y (sys s) w).
Proof.
  intros Hi Hx. unfold SyncServer.condWait. destruct (SyncServer.getMutex mux true (sync s)) as [[m y1]|] eqn:Em; cbn; [|done].
  destruct (inv_getMutex _ _ _ _ _ Hi Em) as (Hi1 & Hm1 & _). destruct (SyncServer.getCond c y1) as [l y2] eqn:Ec.
  destruct (inv_getCond (mkState y1 (sys s) (threads s)) _ _ _ Hi1 Ec) as (Hi2 & Hc2 & Hsame). cbn in *.
  unfold SyncServer.cond_wait. destruct (SimMutex.unlock x time m (threads s)) as [[[v m'] w1]|] eqn:Eu; cbn; [|done].
  rewrite <- Hsame in Hm1.
  destruct (inv_unlock (mkState y2 (sys s) (threads s)) _ _ _ _ _ _ _ Hi2 Hm1 Eu) as (Hi3 & Hf & Hw). cbn in *. intros [= <- <-].
  destruct (caller_exists _ _ Hx) as [Hr Hx0].
  set (s3 := mkState (SyncServer.put_mutex mux m' y2) (sys s) w1) in *.
  apply (inv_intro s3); [done | apply frame_stall; cbn; by rewrite (f_num _ _ Hf) | |].
  - apply sync_ok_put_cond; [apply Hi3|]. apply Forall_app. split; [exact (so_cond _ (i_sync _ Hi3) c l Hc2)|].
    apply Forall_singleton. cbn. rewrite lookup_insert_eq. eauto.
  - apply (queues_ok_join (PCond c) x (queue_of s3) _ (waits w1)).
    + apply (i_queues _ Hi3).
    + intros H. by apply (caller_not_waits _ _ Hx), Hw.
    + cbn. rewrite lookup_insert_eq, Hc2. cbn. rewrite fmap_app. cbn. by rewrite <- Permutation_cons_append.
    + intros q Hq. by apply (queue_put_cond_ne s3).
    + intros z. by apply waits_stall.
Qed.

(** A condition's first waiter is woken up: it takes its mutex, or waits for it from now on. *)
Lemma inv_wake s c e l time : inv s → SyncServer.m_conds (sync s) !! c = Some (e :: l) →
  ∃ r y w, SyncServer.wake_waiter e time (SyncServer.put_cond c l (sync s)) (threads s) = Ok (r, y, w) ∧
    inv (mkState y (sys s) w) ∧ SyncServer.m_conds y !! c = Some l ∧ frame (threads s) w.
Proof.
  intros Hi Hc. pose proof (so_cond _ (i_sync _ Hi) c _ Hc) as [[m Hm] Hl]%Forall_cons. destruct e as [x mux]. cbn in Hm.
  pose proof (so_mutex _ (i_sync _ Hi) _ _ Hm) as [Hfree Hno].
  assert (Hx : x ∈ queue_of s (PCond c)) by (cbn; rewrite Hc; left).
  pose proof (members_exist _ _ _ Hi Hx) as Hr. assert (Hx0 : x ≠ SimMutex.NO_OWNER) by (unfold SimMutex.NO_OWNER; lia).
  assert (Hq : queue_of s (PCond c) = x :: l.*1) by (cbn; by rewrite Hc).
  assert (Hs : sync_ok (SyncServer.put_cond c l (sync s))) by (apply sync_ok_put_cond; [apply Hi | done]).
  unfold SyncServer.wake_waiter. cbn. rewrite Hm. unfold SimMutex.lock_async.
  destruct (Z.eqb_spec (SimMutex.m_owner m) SimMutex.NO_OWNER) as [E|E]; eexists _, _, _; (split; [done|]).
  - split_and!; [|by cbn; rewrite lookup_insert_eq | auto]. apply (inv_intro s); [done | auto | apply sync_ok_put_mutex; [done | by apply MutexQueue.owned_wf] |].
    apply (queues_ok_leave (PCond c) [x] (queue_of s) _ (waits (threads s))).
    + apply Hi.
    + rewrite Hq. cbn. by rewrite lookup_insert_eq.
    + intros q Hqc. destruct (decide (q = PMutex mux)) as [->|]; [cbn; by rewrite lookup_insert_eq, Hm|].
      destruct q; cbn; try done; by rewrite lookup_insert_ne by congruence.
    + intros z. rewrite waits_resume. set_solver.
  - split_and!; [|by cbn; rewrite lookup_insert_eq | done].
    apply (inv_intro s); [done | done | apply sync_ok_put_mutex; [done | apply MutexQueue.owned_wf; [done | set_solver]] |].
    apply (queues_ok_move (PCond c) (PMutex mux) x (queue_of s) _ (waits (threads s))).
    + apply Hi.
    + done.
    + rewrite Hq. cbn. by rewrite lookup_insert_eq.
    + cbn. rewrite lookup_insert_eq, Hm. cbn. by rewrite <- Permutation_cons_append.
    + intros q H1 H2. destruct q; cbn; try done; by rewrite lookup_insert_ne by congruence.
    + done.
Qed.
Lemma inv_condSignal s c time : inv s →
  ∃ y w, SyncServer.condSignal c time (sync s) (threads s) = Ok (time, y, w) ∧ inv (mkState y (sys s) w).
Proof.
  intros Hi. unfold SyncServer.condSignal. destruct (SyncServer.getCond c (sync s)) as [l y1] eqn:Ec.
  destruct (inv_getCond _ _ _ _ Hi Ec) as (Hi1 & Hc1 & _). destruct l as [|e l]; cbn; [eauto|].
  destruct (inv_wake (mkState y1 (sys s) (threads s)) c e l time Hi1 Hc1) as (r & y & w & E & Hi' & _). cbn in E. rewrite E. cbn. eauto.
Qed.
Lemma inv_cond_broadcast s c time l : inv s → SyncServer.m_conds (sync s) !! c = Some l →
  ∃ y w, SyncServer.cond_broadcast c time l (sync s) (threads s) = Ok (y, w) ∧ inv (mkState y (sys s) w) ∧ SyncServer.m_conds y !! c = Some [].
Proof.
  revert s. induction l as [|e l IH]; intros s Hi Hc; cbn.
  { eexists _, _. split; [done|]. split; [by destruct s | done]. }
  destruct (inv_wake s c e l time Hi Hc) as (r & y & w & E & Hi' & Hc' & _). rewrite E. cbn. apply (IH (mkState y (sys s) w)); done.
Qed.
Lemma inv_condBroadcast s c time : inv s →
  ∃ y w, SyncServer.condBroadcast c time (sync s) (threads s) = Ok (time, y, w) ∧ inv (mkState y (sys s) w) ∧ SyncServer.m_conds y !! c = Some [].
Proof.
  intros Hi. unfold SyncServer.condBroadcast. destruct (SyncServer.getCond c (sync s)) as [l y1] eqn:Ec.
  destruct (inv_getCond _ _ _ _ Hi Ec) as (Hi1 & Hc1 & _).
  destruct (inv_cond_broadcast (mkState y1 (sys s) (threads s)) c time l Hi1 Hc1) as (y & w & E & ?). cbn in E. rewrite E. cbn. eauto.
Qed.

(** ** Barriers *)
Lemma inv_barrierInit s count : inv s → 0 ≤ count < 2 ^ 32 → inv (mkState (snd (SyncServer.barrierInit count (sync s))) (sys s) (threads s)).
Proof.
  intros Hi Hc. apply (inv_same_queues s); [done | done | | | done].
  - destruct (i_sync _ Hi). split; cbn; [done | done |]. apply Forall_app. split; [done|]. apply Forall_singleton. cbn. lia.
  - intros q. destruct q as [| |i| | |]; cbn; try done.
    destruct (decide (i < length (SyncServer.m_barriers (sync s)))%nat) as [H|H]; [by rewrite lookup_app_l|].
    rewrite lookup_app_r by lia. rewrite (lookup_ge_None_2 (SyncServer.m_barriers (sync s))) by lia.
    destruct (i - _)%nat as [|[|]]; done.
Qed.
Lemma inv_barrierWait s x i time r y w : inv s → caller s x →
  SyncServer.barrierWait x i time (sync s) (threads s) = Ok (r, y, w) → inv (mkState y (sys s) w).
Proof.
  intros Hi Hx. destruct (caller_exists _ _ Hx) as [Hr Hx0]. unfold SyncServer.barrierWait, arr_get, arr_set.
  destruct (SyncServer.m_barriers (sync s) !! i) as [b|] eqn:Hb; cbn; [|done].
  pose proof (so_barrier _ (i_sync _ Hi)) as Hall. pose proof (Forall_lookup_1 _ _ _ _ Hall Hb) as [Hcount Hlen].
  assert (Hlt : (i < length (SyncServer.m_barriers (sync s)))%nat) by (by eapply lookup_lt_Some).
  destruct (SimBarrier.wait x time b (threads s)) as [[r' b'] w'] eqn:Ew. cbn. intros [= <- <- <-].
  assert (Hput : 0 ≤ SimBarrier.m_count b' < 2 ^ 32 ∧ (0 < SimBarrier.m_count b' → Z.of_nat (length (SimBarrier.m_waiting b')) < SimBarrier.m_count b') →
    sync_ok (SyncServer.put_barriers (<[i := b']> (SyncServer.m_barriers (sync s))) (sync s))).
  { intros H. destruct (i_sync _ Hi). split; cbn; [done | done | by apply Forall_insert]. }
  assert (Hother : ∀ q, q ≠ PBarrier i → queue_of (mkState (SyncServer.put_barriers (<[i := b']> (SyncServer.m_barriers (sync s))) (sync s)) (sys s) w') q = queue_of s q).
  { assert (waiter w' = waiter (threads s)) as Hw'.
    { unfold SimBarrier.wait in Ew. case_match; injection Ew as <- <- <-; [apply (f_waiter _ _ (frame_resume_all _ _ _ _)) | done]. }
    intros q Hq. destruct q; cbn; try done; [by rewrite list_lookup_insert_ne by congruence | by unfold waiter_queue; rewrite Hw']. }
  unfold SimBarrier.wait in Ew. destruct (Z.eqb_spec (Z.of_nat (length (SimBarrier.m_waiting b))) (u32 (SimBarrier.m_count b - 1))) as [E|E];
    injection Ew as <- <- <-.
  - apply (inv_intro s); [done | apply frame_resume_all | apply Hput; cbn; lia |].
    apply (queues_ok_leave (PBarrier i) (SimBarrier.m_waiting b) (queue_of s) _ (waits (threads s))); [apply Hi | | done |].
    + cbn. rewrite Hb, list_lookup_insert_eq by done. cbn. by rewrite app_nil_r.
    + intros z. unfold SimBarrier.resume_all. by apply waits_resume_all.
  - apply (inv_intro s); [done | auto | apply Hput; cbn; rewrite length_app; cbn |].
    + split; [done|]. intros H. rewrite u32_small in E by (unfold in_u32; lia). lia.
    + apply (queues_ok_join (PBarrier i) x (queue_of s) _ (waits (threads s))); [apply Hi | by apply caller_not_waits | | done |].
      * cbn. rewrite Hb, list_lookup_insert_eq by done. cbn. by rewrite <- Permutation_cons_append.
      * intros z. by apply waits_stall.
Qed.

(** ** Futexes and sleeping threads *)
Section futexes.
Import SyscallServer FutexSpec.

Lemma ids_valid s a : inv s → Forall (λ it, SimFutex.thread_id it ≠ INVALID_THREAD_ID) (futex_at a (sys s)).
Proof.
  intros Hi. apply Forall_forall. intros it Hit.
  pose proof (members_exist s (PFutex a) (SimFutex.thread_id it) Hi) as H. unfold INVALID_THREAD_ID.
  specialize (H ltac:(cbn; by apply list_elem_of_fmap_2)). lia.
Qed.
Lemma queue_sys s z w q : (∀ y, waiter w y = waiter (threads s) y) →
  (∀ a, q = PFutex a → futex_at a z = futex_at a (sys s)) → (q = PSleep → m_sleeping z = m_sleeping (sys s)) →
  queue_of (mkState (sync s) z w) q = queue_of s q.
Proof. intros Hw Ha Hs. destruct q; cbn; try done; [by rewrite Ha | by rewrite Hs | by unfold waiter_queue; rewrite Hw]. Qed.

Lemma inv_same_futexes s z : inv s → (∀ a, futex_at a z = futex_at a (sys s)) → m_sleeping z = m_sleeping (sys s) →
  inv (mkState (sync s) z (threads s)).
Proof. intros Hi Ha Hs. apply (inv_same_queues s); [done | done | apply Hi | | done]. intros q. by apply queue_sys. Qed.

(** Threads that leave a futex, or wake up from sleep. *)
Lemma inv_futex_wake s z a l ids time msg : inv s → changes a l (sys s) z →
  SimFutex.thread_id <$> futex_at a (sys s) ≡ₚ ids ++ (SimFutex.thread_id <$> l) →
  inv (mkState (sync s) z (foldl (λ w y, resumeThread y time msg w) (threads s) ids)).
Proof.
  intros Hi (Ha & Hb & Hs) Hp. apply (inv_intro s); [done | auto | apply Hi |].
  apply (queues_ok_leave (PFutex a) ids (queue_of s) _ (waits (threads s))); [apply Hi | cbn; by rewrite Ha | |].
  - intros q Hq. apply queue_sys; [by rewrite (f_waiter _ _ (frame_resume_all _ _ _ _)) | | done].
    intros b ->. apply Hb. congruence.
  - intros x. apply waits_resume_all.
Qed.
Lemma inv_sleep_wake s l x time : inv s → SimFutex.thread_id <$> m_sleeping (sys s) ≡ₚ x :: (SimFutex.thread_id <$> l) →
  inv (mkState (sync s) (put_sleeping l (sys s)) (resumeThread x time false (threads s))).
Proof.
  intros Hi Hp. apply (inv_intro s); [done | auto | apply Hi |].
  apply (queues_ok_leave PSleep [x] (queue_of s) _ (waits (threads s))); [apply Hi | done | |].
  - intros q Hq. by apply queue_sys.
  - intros y. rewrite waits_resume. set_solver.
Qed.

(** Threads that begin to wait. *)
Lemma inv_futex_wait s a x r it : inv s → caller s x → SimFutex.thread_id it = x → r ≠ STALL_UNSCHEDULED →
  inv (mkState (sync s) (put_futex a (futex_at a (sys s) ++ [it]) (sys s)) (stallThread x r (threads s))).
Proof.
  intros Hi Hx Hit Hr. destruct (caller_exists _ _ Hx) as [Hn _]. apply (inv_intro s); [done | auto | apply Hi |].
  apply (queues_ok_join (PFutex a) x (queue_of s) _ (waits (threads s))); [apply Hi | by apply caller_not_waits | | |].
  - cbn. rewrite futex_at_put, fmap_app. cbn. rewrite Hit. by rewrite <- Permutation_cons_append.
  - intros q Hq. apply queue_sys; [done | | done]. intros b ->. apply futex_at_put_ne. congruence.
  - intros y. by apply waits_stall.
Qed.
Lemma inv_handleSleepCall s x time z w : inv s → caller s x →
  handleSleepCall x time (sys s) (threads s) = (z, w) → inv (mkState (sync s) z w).
Proof.
  intros Hi Hx. destruct (caller_exists _ _ Hx) as [Hn _]. intros [= <- <-]. apply (inv_intro s); [done | auto | apply Hi |].
  apply (queues_ok_join PSleep x (queue_of s) _ (waits (threads s))); [apply Hi | by apply caller_not_waits | | |].
  - cbn. rewrite fmap_app. cbn. by rewrite <- Permutation_cons_append.
  - intros q Hq. by apply queue_sys.
  - intros y. by apply waits_stall.
Qed.

Lemma inv_requeueWaiter s a b v z : inv s → requeueWaiter a b (sys s) = (v, z) → inv (mkState (sync s) z (threads s)).
Proof.
  intros Hi. unfold requeueWaiter. destruct (futex_at a (sys s)) as [|it f] eqn:E; intros [= <- <-]; [by destruct s|].
  apply (inv_intro s); [done | done | apply Hi |]. destruct (decide (a = b)) as [<-|Hab].
  - apply (queues_ok_leave (PFutex a) [] (queue_of s) _ (waits (threads s))); [apply Hi | | |].
    + cbn. rewrite !futex_at_put, E, fmap_app. cbn. by rewrite <- Permutation_cons_append.
    + intros q Hq. apply queue_sys; [done | | done]. intros b ->. by rewrite !futex_at_put_ne by congruence.
    + set_solver.
  - apply (queues_ok_move (PFutex a) (PFutex b) (SimFutex.thread_id it) (queue_of s) _ (waits (threads s))); [apply Hi | congruence | | | |].
    + cbn. rewrite futex_at_put_ne, futex_at_put by done. by rewrite E.
    + cbn. rewrite futex_at_put, futex_at_put_ne, fmap_app by done. cbn. by rewrite <- Permutation_cons_append.
    + intros q H1 H2. apply queue_sys; [done | | done]. intros c ->. by rewrite !futex_at_put_ne by congruence.
    + done.
Qed.
Lemma inv_requeue_loop fuel s a b z : inv s → requeue_loop fuel a b (sys s) = Ok z → inv (mkState (sync s) z (threads s)).
Proof.
  revert s. induction fuel as [|n IH]; intros s Hi; cbn; [done|]. destruct (requeueWaiter a b (sys s)) as [v z1] eqn:E.
  pose proof (inv_requeueWaiter _ _ _ _ _ Hi E) as Hi'. case_match; [by intros [= <-]|]. apply (IH _ Hi').
Qed.

Context (cost os_time_start : Z) (va2pa : Z → Z → Z) (getInstructionCount : Z → Z).
Lemma inv_find s x uaddr a z : inv s → findFutexByUaddr va2pa uaddr x (sys s) = (a, z) → inv (mkState (sync s) z (threads s)).
Proof. intros Hi [= <- <-]. apply inv_same_futexes; [done | | done]. intros b. apply futex_at_put_self. Qed.

Lemma inv_wake_loop s n a x m curr num r z w : inv s →
  wake_loop cost getInstructionCount n a x m curr num (sys s) (threads s) = (r, z, w) → inv (mkState (sync s) z w) ∧ frame (threads s) w.
Proof.
  intros Hi H. destruct (wake_loop_spec cost getInstructionCount n a x m curr num (sys s) (threads s) (ids_valid _ _ Hi)) as (z' & E & Hc).
  rewrite E in H. injection H as _ <- <-. split; [|auto]. eapply inv_futex_wake; [done | exact Hc | apply without_first_perm].
Qed.
Lemma inv_futexWake s x uaddr n m curr r z w : inv s →
  futexWake cost va2pa getInstructionCount x uaddr n m curr (sys s) (threads s) = (r, z, w) → inv (mkState (sync s) z w) ∧ frame (threads s) w.
Proof.
  intros Hi. unfold futexWake. destruct (findFutexByUaddr _ _ _ _) as [a z1] eqn:E1. pose proof (inv_find _ _ _ _ _ Hi E1) as Hi1.
  destruct (wake_loop _ _ _ _ _ _ _ _ _ _) as [[num z2] w2] eqn:E2. intros [= <- <- <-]. exact (inv_wake_loop _ _ _ _ _ _ _ _ _ _ Hi1 E2).
Qed.
Lemma inv_futexWait s x uaddr val act m curr tm r z w : inv s → caller s x →
  futexWait va2pa x uaddr val act m curr tm (sys s) (threads s) = (r, z, w) → inv (mkState (sync s) z w).
Proof.
  intros Hi Hx. unfold futexWait. destruct (findFutexByUaddr _ _ _ _) as [a z1] eqn:E1. pose proof (inv_find _ _ _ _ _ Hi E1) as Hi1.
  case_match; [by intros [= <- <- <-]|]. intros [= <- <- <-]. by apply (inv_futex_wait (mkState (sync s) z1 (threads s))).
Qed.
Lemma inv_futexWakeOp s mem x ua ua2 n n2 op curr r m z w : inv s →
  futexWakeOp cost va2pa getInstructionCount mem x ua ua2 n n2 op curr (sys s) (threads s) = Ok (r, m, z, w) → inv (mkState (sync s) z w).
Proof.
  intros Hi. unfold futexWakeOp. destruct (findFutexByUaddr _ ua _ _) as [a z1] eqn:E1. pose proof (inv_find _ _ _ _ _ Hi E1) as Hi1.
  destruct (findFutexByUaddr _ ua2 _ _) as [a2 z2] eqn:E2. pose proof (inv_find (mkState _ z1 _) _ _ _ _ Hi1 E2) as Hi2.
  destruct (futexDoOp _ _) as [[nv ret]|]; cbn; [|done].
  destruct (wake_loop _ _ _ a _ _ _ _ _ _) as [[num z3] w3] eqn:E3. destruct (inv_wake_loop (mkState _ z2 _) _ _ _ _ _ _ _ _ _ Hi2 E3) as [Hi3 _].
  destruct ret; [|by intros [= <- <- <- <-]].
  destruct (wake_loop _ _ _ a2 _ _ _ _ _ _) as [[num' z4] w4] eqn:E4. destruct (inv_wake_loop (mkState _ z3 w3) _ _ _ _ _ _ _ _ _ Hi3 E4) as [Hi4 _].
  by intros [= <- <- <- <-].
Qed.
Lemma inv_futexCmpRequeue s x ua val ua2 val3 act curr r z w : inv s →
  futexCmpRequeue va2pa x ua val ua2 val3 act curr (sys s) (threads s) = Ok (r, z, w) → inv (mkState (sync s) z w).
Proof.
  intros Hi. unfold futexCmpRequeue. destruct (findFutexByUaddr _ ua _ _) as [a z1] eqn:E1. pose proof (inv_find _ _ _ _ _ Hi E1) as Hi1.
  case_match; [by intros [= <- <- <-]|].
  destruct (requeue_wake_spec (Z.to_nat val) a curr 0 z1 (threads s) (ids_valid (mkState _ z1 _) a Hi1)) as (z2 & -> & Hc).
  pose proof (inv_futex_wake (mkState _ z1 _) z2 a _ _ curr true Hi1 Hc (without_first_perm _ _ _)) as Hi2. cbn in Hi2.
  destruct (findFutexByUaddr _ ua2 _ z2) as [b z3] eqn:E3. pose proof (inv_find (mkState _ z2 _) _ _ _ _ Hi2 E3) as Hi3. cbn in Hi3.
  destruct (requeue_loop _ _ _ _) as [z4|] eqn:E4; cbn; [|done]. intros [= _ <- <-].
  exact (inv_requeue_loop _ (mkState _ z3 _) _ _ _ Hi3 E4).
Qed.
Lemma inv_handleFutexCall s mem x args curr r m z w : inv s → caller s x →
  handleFutexCall cost va2pa getInstructionCount os_time_start mem x args curr (sys s) (threads s) = Ok (r, m, z, w) → inv (mkState (sync s) z w).
Proof.
  intros Hi Hx. unfold handleFutexCall. cbv zeta. case_match.
  { destruct (futexWait va2pa _ _ _ _ _ _ _ _ _) as [[? ?] ?] eqn:E. intros [= <- <- <- <-]. by eapply inv_futexWait. }
  case_match.
  { destruct (futexWake cost va2pa getInstructionCount _ _ _ _ _ _ _) as [[? ?] ?] eqn:E. intros [= <- <- <- <-]. by apply (inv_futexWake _ _ _ _ _ _ _ _ _ Hi E). }
  case_match; [by apply inv_futexWakeOp|]. case_match; [|done].
  destruct (check _ _); cbn [rbind]; [|done]. destruct (futexCmpRequeue va2pa _ _ _ _ _ _ _ _ _) as [[[? ?] ?]|] eqn:E; cbn [rbind]; [|done].
  intros [= <- <- <- <-]. by eapply inv_futexCmpRequeue.
Qed.

Lemma inv_futexPeriodic s addresses time z w : inv s → futexPeriodic addresses time (sys s) (threads s) = (z, w) → inv (mkState (sync s) z w).
Proof.
  intros Hi. unfold futexPeriodic. destruct (SimFutex.wakeTimedOut time (m_sleeping (sys s)) (threads s)) as [f w1] eqn:E.
  assert (Hi1 : inv (mkState (sync s) (put_sleeping f (sys s)) w1)).
  { unfold SimFutex.wakeTimedOut in E. destruct (SimFutex.take_first _ _) as [[it l]|] eqn:Et; injection E as <- <-.
    - apply inv_sleep_wake; [done|]. destruct (take_first_Some _ _ _ _ Et) as (_ & Hp & _). exact (fmap_Permutation SimFutex.thread_id _ _ Hp).
    - by apply inv_same_futexes. }
  clear Hi E. revert w1 Hi1. generalize (put_sleeping f (sys s)) as z1. induction addresses as [|a addresses IH]; intros z1 w1 Hi1; cbn.
  { by intros [= <- <-]. }
  destruct (SimFutex.wakeTimedOut time (futex_at a z1) w1) as [f1 w2] eqn:E. apply IH.
  unfold SimFutex.wakeTimedOut in E. destruct (SimFutex.take_first _ _) as [[it l]|] eqn:Et; injection E as <- <-.
  - apply (inv_futex_wake (mkState _ z1 w1) _ a l [SimFutex.thread_id it] time false Hi1).
    + split_and!; [apply futex_at_put | intros b Hb; by apply futex_at_put_ne | done].
    + cbn. destruct (take_first_Some _ _ _ _ Et) as (_ & Hp & _). exact (fmap_Permutation SimFutex.thread_id _ _ Hp).
  - apply (inv_same_futexes (mkState _ z1 w1)); [done | | done]. intros b. apply futex_at_put_self.
Qed.
End futexes.

(** ** Threads that start, move, join and exit *)
Abbreviation with_threads s w := (mkState (sync s) (sys s) w).

(** The state of a thread that does not sleep. *)
Lemma waits_of_awake w x : asleep w x = false → ¬ waits w x.
Proof. unfold waits. intros ->. naive_solver. Qed.
Lemma inv_awake s x w : inv s → asleep (threads s) x = false →
  m_threads w = m_threads (threads s) → waiter w = waiter (threads s) → m_core w = m_core (threads s) →
  core_thread w = core_thread (threads s) → core_state w = core_state (threads s) → asleep w = asleep (threads s) →
  (∀ y, y ≠ x → status w y = status (threads s) y ∧ stalled_reason w y = stalled_reason (threads s) y) →
  inv (with_threads s w).
Proof.
  intros Hi Hx H1 H2 H3 H4 H5 H6 H7.
  assert (Hw : ∀ y, waits w y ↔ waits (threads s) y).
  { intros y. destruct (decide (y = x)) as [->|Hy].
    - split; intros H; exfalso; revert H; apply waits_of_awake; [by rewrite H6 | done].
    - unfold waits, unscheduled. rewrite H6. by destruct (H7 y Hy) as [-> ->]. }
  apply (inv_same_queues s); [done | | apply Hi | | done].
  - split; try done; intros y; [rewrite Hw; auto | rewrite H6; auto].
  - intros q. destruct q; cbn; try done. unfold waiter_queue. by rewrite H2.
Qed.
Lemma inv_set_status s x st : inv s → asleep (threads s) x = false → inv (with_threads s (set_status x st (threads s))).
Proof. intros Hi Hx. apply (inv_awake s x); try done. intros y Hy. cbn. by rewrite fn_lookup_insert_ne. Qed.
Lemma inv_stall_async s x r : inv s → asleep (threads s) x = false → inv (with_threads s (stallThread_async x r (threads s))).
Proof. intros Hi Hx. apply (inv_awake s x); try done. intros y Hy. cbn. by rewrite !fn_lookup_insert_ne. Qed.
Lemma inv_reschedule s x : inv s → may_call (threads s) x → inv (with_threads s (stallThread x STALL_UNSCHEDULED (threads s))).
Proof.
  intros Hi Hx. apply (inv_same_queues s); [done | by apply frame_stall, may_call_range | apply Hi | by intros [] |].
  intros y. destruct (decide (y = x)) as [->|Hy].
  - split; intros H; exfalso; [|by apply (may_call_not_waits _ _ Hx)].
    unfold waits, unscheduled, stallThread, wait, stallThread_async in H. cbn in H. rewrite !fn_lookup_insert in H.
    rewrite !bool_decide_true in H by done. done.
  - unfold waits, unscheduled, stallThread, wait, stallThread_async. cbn. by rewrite !fn_lookup_insert_ne.
Qed.
(** A thread that waited for a core only. *)
Lemma inv_resume_unscheduled s x time : inv s → ¬ waits (threads s) x → inv (with_threads s (resumeThread x time false (threads s))).
Proof.
  intros Hi Hx. apply (inv_same_queues s); [done | auto | apply Hi | by intros [] |].
  intros y. rewrite waits_resume. split; [tauto|]. intros H. split; [done|]. by intros ->.
Qed.

(** Cores. *)
Lemma inv_same_threads s w : inv s → threads_ok w → waiter w = waiter (threads s) → asleep w = asleep (threads s) →
  status w = status (threads s) → stalled_reason w = stalled_reason (threads s) → inv (with_threads s w).
Proof.
  intros Hi Hok H1 H2 H3 H4. split; [|apply Hi | done]. eapply queues_ok_ext; [apply (i_queues _ Hi) | |].
  - intros q. destruct q; cbn; try done. unfold waiter_queue. by rewrite H1.
  - intros x. cbn. unfold waits, unscheduled. by rewrite H2, H3, H4.
Qed.
Lemma inv_set_core_state s c st : inv s → (st = IDLE ∨ core_thread (threads s) c ≠ None) → inv (with_threads s (set_core_state c st (threads s))).
Proof.
  intros Hi Hc. apply inv_same_threads; try done. destruct (i_threads _ Hi). split; cbn; try done.
  intros c' Hc'. destruct (decide (c' = c)) as [->|]; [|rewrite fn_lookup_insert_ne by done; auto].
  rewrite fn_lookup_insert. by destruct Hc.
Qed.
Lemma inv_setCore s x core w : inv s → 0 ≤ x < m_threads (threads s) →
  (∀ c, m_core (threads s) x = Some c → core_state (threads s) c = IDLE) → setCore x core (threads s) = Ok w →
  inv (with_threads s w) ∧ (∀ c, core = Some c → core_thread w c = Some x).
Proof.
  intros Hi Hx Hidle. pose proof (i_threads _ Hi) as Ht. destruct Ht as [Hn Hids Hfresh Hcores Hc0].
  set (ct := match m_core (threads s) x with Some c => <[c := None]> (core_thread (threads s)) | None => core_thread (threads s) end).
  assert (Hct : ∀ y c, ct c = Some y ↔ core_thread (threads s) c = Some y ∧ y ≠ x).
  { intros y c. unfold ct. destruct (m_core (threads s) x) as [c'|] eqn:E.
    - destruct (decide (c = c')) as [->|Hc].
      + rewrite fn_lookup_insert. apply Hcores in E. rewrite E. split; [done|]. intros [[= ->] ?]. done.
      + rewrite fn_lookup_insert_ne by done. split; [|tauto]. intros Hy. split; [done|]. intros ->. apply Hcores in Hy. congruence.
    - split; [|tauto]. intros Hy. split; [done|]. intros ->. apply Hcores in Hy. congruence. }
  assert (Hct0 : ∀ c, ct c = None → core_state (threads s) c = IDLE).
  { intros c. unfold ct. destruct (m_core (threads s) x) as [c'|] eqn:E; [|auto].
    destruct (decide (c = c')) as [->|Hc]; [auto | rewrite fn_lookup_insert_ne by done; auto]. }
  assert (Hsame : ∀ m c, threads_ok (set_cores m c (threads s)) → inv (with_threads s (set_cores m c (threads s)))).
  { intros. by apply inv_same_threads. }
  intros H. assert (H' : match core with
     | Some c => ct c = None ∧ w = set_cores (<[x := core]> (m_core (threads s))) (<[c := Some x]> ct) (threads s)
     | None => w = set_cores (<[x := None]> (m_core (threads s))) ct (threads s) end).
  { unfold setCore in H. fold ct in H. destruct (m_core (threads s) x), core; cbn in H; try (injection H as <-; done);
      case_bool_decide; cbn in H; try done; injection H as <-; done. }
  clear H. destruct core as [c|]; [destruct H' as [Hnone ->] | subst w]; (split; [apply Hsame; split; cbn; try done|]).
  - intros y Hy. destruct (Hfresh y Hy) as (? & ? & ?). by rewrite fn_lookup_insert_ne by lia.
  - intros y d. destruct (decide (y = x)) as [->|Hy], (decide (d = c)) as [->|Hd];
      rewrite ?fn_lookup_insert, ?fn_lookup_insert_ne, ?Hct, ?Hcores by done; naive_solver.
  - intros d. destruct (decide (d = c)) as [->|Hd]; [by rewrite fn_lookup_insert|]. rewrite fn_lookup_insert_ne by done. auto.
  - intros d [= ->]. cbn. by rewrite fn_lookup_insert.
  - intros y Hy. destruct (Hfresh y Hy) as (? & ? & ?). by rewrite fn_lookup_insert_ne by lia.
  - intros y d. destruct (decide (y = x)) as [->|Hy]; rewrite ?fn_lookup_insert, ?fn_lookup_insert_ne, ?Hct, ?Hcores by done; naive_solver.
  - done.
Qed.

(** Threads that wait for a thread. *)
Lemma threads_ok_set_waiter y v w : threads_ok w → (y < m_threads w ∨ v = INVALID_THREAD_ID) → threads_ok (set_waiter y v w).
Proof.
  intros [] Hy. split; try done. intros z Hz. destruct (to_fresh0 z Hz) as (? & ? & ?). split_and!; try done. cbn in *.
  destruct (decide (z = y)) as [->|]; [|by rewrite fn_lookup_insert_ne]. rewrite fn_lookup_insert. destruct Hy; [lia | done].
Qed.
Lemma waits_signal v time msg w x : waits (signal v time msg w) x ↔ waits w x ∧ x ≠ v.
Proof.
  unfold waits, unscheduled, signal. cbn. destruct (decide (x = v)) as [->|]; [rewrite fn_lookup_insert; naive_solver|].
  rewrite fn_lookup_insert_ne by done. naive_solver.
Qed.
Lemma frame_signal v time msg w : frame w (signal v time msg w).
Proof.
  split; try done; intros y.
  - rewrite waits_signal. naive_solver.
  - cbn. destruct (decide (y = v)) as [->|Hy]; [rewrite fn_lookup_insert; naive_solver | rewrite fn_lookup_insert_ne by done; auto].
Qed.
Lemma waits_wait x w y : ¬ unscheduled w x → waits (wait x w) y ↔ waits w y ∨ y = x.
Proof.
  unfold waits, unscheduled, wait. cbn. intros Hx. destruct (decide (y = x)) as [->|].
  - rewrite fn_lookup_insert. destruct (bool_decide _ && bool_decide _); naive_solver.
  - rewrite fn_lookup_insert_ne by done. naive_solver.
Qed.
Lemma frame_wait w x : 0 ≤ x < m_threads w → frame w (wait x w).
Proof.
  intros Hx. split; try done; intros y; destruct (decide (y = x)) as [->|Hy]; auto; unfold waits, unscheduled; cbn;
    rewrite fn_lookup_insert_ne by done; auto.
Qed.

Lemma waiter_queue_ne y z v w q : waiter w = <[y := v]> (waiter z) → ∀ s, threads s = z → q ≠ PWaiter y → queue_of (with_threads s w) q = queue_of s q.
Proof. intros Hw s <- Hq. destruct q; cbn; try done. unfold waiter_queue. rewrite Hw. by rewrite fn_lookup_insert_ne by congruence. Qed.
Lemma inv_wait_for s x y w : inv s → caller s x → exists_thread s y → waiter (threads s) y = INVALID_THREAD_ID →
  frame (set_waiter y x (threads s)) w → (∀ z, waits w z ↔ waits (threads s) z ∨ z = x) → inv (with_threads s w).
Proof.
  intros Hi Hx Hy Hnone Hf Hw. destruct (caller_exists _ _ Hx) as [Hr Hx0]. split; [|apply Hi|].
  - apply (queues_ok_join (PWaiter y) x (queue_of s) _ (waits (threads s))); [apply Hi | by apply caller_not_waits | | | done].
    + cbn. unfold waiter_queue. rewrite (f_waiter _ _ Hf), Hnone. cbn. rewrite fn_lookup_insert.
      by rewrite (proj2 (Z.eqb_neq _ _)).
    + intros q Hq. by apply (waiter_queue_ne y (threads s) x); [rewrite (f_waiter _ _ Hf)| |].
  - eapply frame_threads_ok; [|exact Hf]. apply threads_ok_set_waiter; [apply Hi | left; apply Hy].
Qed.
(** A waiter is told: [signal] or [resumeThread]. *)
Lemma inv_tell_waiter s y w : inv s → waiter (threads s) y ≠ INVALID_THREAD_ID → frame (threads s) w →
  (∀ z, waits w z ↔ waits (threads s) z ∧ z ≠ waiter (threads s) y) → inv (with_threads s (set_waiter y INVALID_THREAD_ID w)).
Proof.
  intros Hi Hv Hf Hw. split; [|apply Hi|].
  - apply (queues_ok_leave (PWaiter y) [waiter (threads s) y] (queue_of s) _ (waits (threads s))); [apply Hi | | |].
    + cbn. unfold waiter_queue. rewrite (proj2 (Z.eqb_neq _ _)) by done. cbn. by rewrite fn_lookup_insert.
    + intros q Hq. apply (waiter_queue_ne y (threads s) INVALID_THREAD_ID); [cbn; by rewrite (f_waiter _ _ Hf) | done | done].
    + intros z. etrans; [apply (Hw z)|]. set_solver.
  - apply threads_ok_set_waiter; [|by right]. eapply frame_threads_ok; [apply Hi | done].
Qed.
Lemma inv_wakeUpWaiter s y time : inv s → inv (with_threads s (wakeUpWaiter y time (threads s))).
Proof.
  intros Hi. unfold wakeUpWaiter. destruct (Z.eqb_spec (waiter (threads s) y) INVALID_THREAD_ID); [by destruct s|].
  apply inv_tell_waiter; [done | done | auto | intros z; apply waits_resume].
Qed.

Lemma inv_onThreadStart s x time elapsed : inv s → may_call (threads s) x → inv (with_threads s (onThreadStart x time elapsed (threads s))).
Proof.
  intros Hi Hx. unfold onThreadStart. pose proof (may_call_awake _ _ Hx) as Ha.
  pose proof (inv_set_status s x RUNNING Hi Ha) as Hi1. set (w1 := set_status x RUNNING (threads s)) in *.
  assert (H : ∀ w time, inv (with_threads s w) →
    inv (with_threads s (if waiter w x =? INVALID_THREAD_ID then w else set_waiter x INVALID_THREAD_ID (signal (waiter w x) time false w)))).
  { intros w tm Hw. destruct (Z.eqb_spec (waiter w x) INVALID_THREAD_ID); [done|].
    apply (inv_tell_waiter (with_threads s w)); [done | done | apply frame_signal | intros z; apply waits_signal]. }
  destruct (m_core w1 x) as [c|] eqn:Ec; apply H.
  - assert (core_thread w1 c ≠ None) as Hc by (apply (to_cores _ (i_threads _ Hi1)) in Ec; cbn in *; congruence).
    apply (inv_set_status (with_threads s (set_core_state c RUNNING w1))); [|done].
    apply (inv_set_core_state (with_threads s w1)); auto.
  - by apply (inv_stall_async (with_threads s w1)).
Qed.
Lemma inv_waitForThreadStart s x y w : inv s → caller s x → exists_thread s y → waitForThreadStart x y (threads s) = Ok w → inv (with_threads s w).
Proof.
  intros Hi Hx Hy. unfold waitForThreadStart. case_match; [|by intros [= <-]; destruct s]. unfold check.
  destruct (Z.eqb_spec (waiter (threads s) y) INVALID_THREAD_ID); cbn; [|done]. intros [= <-].
  apply (inv_wait_for s x y); [done | done | done | done | apply frame_wait; by apply caller_exists in Hx as [? _] |].
  intros z. apply (waits_wait x (set_waiter y x (threads s))). apply Hx.
Qed.
Lemma inv_joinThread s x y r w : inv s → caller s x → exists_thread s y → joinThread x y (threads s) = Ok (r, w) → inv (with_threads s w).
Proof.
  intros Hi Hx Hy. unfold joinThread. case_bool_decide; [by intros [= <- <-]; destruct s|]. unfold check.
  destruct (Z.eqb_spec (waiter (threads s) y) INVALID_THREAD_ID); cbn; [|done]. intros [= <- <-].
  apply (inv_wait_for s x y); [done | done | done | done | apply frame_stall; by apply caller_exists in Hx as [? _] |].
  intros z. by apply (waits_stall x STALL_JOIN (set_waiter y x (threads s))).
Qed.

Lemma inv_moveThread s x core time w : inv s → exists_thread s x → moveThread x core time (threads s) = Ok w → inv (with_threads s w).
Proof.
  intros Hi Hx. unfold moveThread.
  unfold leave_core. set (w1 := match m_core (threads s) x with Some c => set_core_state c IDLE (threads s) | None => threads s end).
  assert (Hi1 : inv (with_threads s w1) ∧ (∀ c, m_core w1 x = Some c → core_state w1 c = IDLE) ∧ m_threads w1 = m_threads (threads s)).
  { unfold w1. destruct (m_core (threads s) x) as [c|] eqn:Ec; [|split_and!; [by destruct s | congruence | done]].
    split_and!; [by apply inv_set_core_state; auto | | done]. intros d Hd. cbn in *. rewrite Ec in Hd. injection Hd as <-. apply fn_lookup_insert. }
  clearbody w1. destruct Hi1 as (Hi1 & Hidle & Hn). unfold exists_thread in Hx. rewrite <- Hn in Hx. destruct core as [c|].
  2:{ intros H. by destruct (inv_setCore (with_threads s w1) x None w Hi1 Hx Hidle H). }
  unfold waits_for_core, enter_core. case_match eqn:Hu.
  - apply andb_true_iff in Hu as [[_ Hu1]%andb_true_iff Hu2].
    assert (Hi2 : inv (with_threads s (resumeThread x time false w1))).
    { apply (inv_resume_unscheduled (with_threads s w1)); [done|]. cbn. unfold waits, unscheduled. rewrite Hu1, Hu2. cbn. rewrite andb_false_r. tauto. }
    destruct (setCore x (Some c) _) as [w2|] eqn:E; cbn [rbind]; [|done]. intros [= <-].
    destruct (inv_setCore (with_threads s (resumeThread x time false w1)) x (Some c) w2 Hi2 Hx Hidle E) as [Hi3 Hc].
    destruct (bool_decide (status w2 x = STALLED)); [exact Hi3|]. apply (inv_set_core_state (with_threads s w2)); [done|]. right. cbn. by rewrite (Hc c).
  - destruct (setCore x (Some c) _) as [w2|] eqn:E; cbn [rbind]; [|done]. intros [= <-].
    destruct (inv_setCore (with_threads s w1) x (Some c) w2 Hi1 Hx Hidle E) as [Hi3 Hc].
    destruct (bool_decide (status w2 x = STALLED)); [exact Hi3|]. apply (inv_set_core_state (with_threads s w2)); [done|]. right. cbn. by rewrite (Hc c).
Qed.

Lemma inv_spawnThread s x time core y w : inv s → spawnThread x time core (threads s) = Ok (y, w) → inv (with_threads s w).
Proof.
  intros Hi. unfold spawnThread, createThread_unlocked. pose proof (i_threads _ Hi) as Ht.
  set (n := m_threads (threads s)). destruct (to_fresh _ Ht n ltac:(unfold n; lia)) as (Hw & Ha & Hc).
  set (w1 := ThreadManager.mk (n + 1) _ _ _ _ _ _ _ _ _ _).
  assert (Hwaits : ∀ z, waits w1 z ↔ waits (threads s) z).
  { intros z. unfold waits, unscheduled, w1. cbn. destruct (decide (z = n)) as [->|]; [|by rewrite !fn_lookup_insert_ne].
    rewrite !fn_lookup_insert, Ha. naive_solver. }
  assert (Hi1 : inv (with_threads s w1)).
  { split; [|apply Hi|].
    - eapply queues_ok_ext; [apply (i_queues _ Hi) | | apply Hwaits].
      intros q. destruct q as [| | | | |z]; cbn; try done. unfold waiter_queue, w1. cbn.
      destruct (decide (z = n)) as [->|]; [by rewrite fn_lookup_insert, Hw | by rewrite fn_lookup_insert_ne].
    - destruct Ht. split; cbn; fold n.
      + unfold n. lia.
      + intros z Hz. apply Hwaits in Hz. specialize (to_ids0 z Hz). unfold n. lia.
      + intros z Hz. rewrite !fn_lookup_insert_ne by lia. apply to_fresh0. fold n. lia.
      + intros z c. rewrite <- to_cores0. destruct (decide (z = n)) as [->|]; [rewrite fn_lookup_insert, Hc; naive_solver | by rewrite fn_lookup_insert_ne].
      + done. }
  assert (Hn1 : 0 ≤ n < m_threads w1) by (pose proof (to_num _ Ht); cbn; unfold n; lia).
  assert (Hc1 : m_core w1 n = None) by apply fn_lookup_insert.
  clearbody w1. assert (Hspawn : ∀ w l, inv (with_threads s w) → inv (with_threads s (set_spawn_list l w))).
  { intros w2 l Hi2. apply (inv_same_threads (with_threads s w2)); try done. by destruct (i_threads _ Hi2). }
  destruct core as [c|]; [|intros [= <- <-]; by apply Hspawn].
  destruct (setCore n (Some c) w1) as [w2|] eqn:E; cbn; [|done]. intros [= <- <-]. apply Hspawn.
  destruct (inv_setCore (with_threads s w1) n (Some c) w2 Hi1 Hn1 ltac:(cbn; congruence) E) as [Hi2 Hct].
  apply (inv_set_core_state (with_threads s w2)); [done|]. right. cbn. by rewrite (Hct c).
Qed.

Section exit.
Context (cost : Z) (va2pa : Z → Z → Z) (getInstructionCount : Z → Z).
Lemma inv_onThreadExit s x elapsed clear_tid s' : inv s → caller s x →
  onThreadExit cost va2pa getInstructionCount x elapsed clear_tid s = Ok s' → inv s'.
Proof.
  intros Hi Hx. unfold onThreadExit. destruct (m_core (threads s) x) as [c|] eqn:Ec; [|done].
  destruct (check _ _); cbn [rbind]; [|done]. pose proof (may_call_awake _ _ (proj1 Hx)) as Ha.
  pose proof (inv_set_status s x IDLE Hi Ha) as Hi1.
  pose proof (inv_wakeUpWaiter (with_threads s (set_status x IDLE (threads s))) x elapsed Hi1) as Hi2. cbn [threads sync sys] in Hi2.
  set (w := wakeUpWaiter x elapsed (set_status x IDLE (threads s))) in *.
  assert (Hsame : m_core w = m_core (threads s) ∧ m_threads w = m_threads (threads s)) by (unfold w, wakeUpWaiter; by case_match).
  clearbody w. destruct Hsame as [Hcore Hn].
  set (p := match clear_tid with Some _ => _ | None => _ end).
  assert (Hp : let '(z, w') := p in inv (mkState (sync s) z w') ∧ m_core w' = m_core (threads s) ∧ m_threads w' = m_threads (threads s)).
  { unfold p. destruct clear_tid as [tid|]; [|done].
    destruct (SyscallServer.futexWake _ _ _ _ _ _ _ _ _ _) as [[r z] w'] eqn:E.
    destruct (inv_futexWake cost va2pa getInstructionCount (with_threads s w) _ _ _ _ _ _ _ _ Hi2 E) as [Hi3 Hf]. split_and!; [done | |].
    - by rewrite (f_core _ _ Hf).
    - by rewrite (f_num _ _ Hf). }
  destruct p as [z w']. destruct Hp as (Hi3 & Hc3 & Hn3).
  destruct (setCore x None (set_core_state c IDLE w')) as [w2|] eqn:E; cbn; [|done]. intros [= <-].
  destruct (inv_setCore (mkState (sync s) z (set_core_state c IDLE w')) x None w2) as [? _]; [| | | done | done].
  - apply (inv_set_core_state (mkState (sync s) z w')); auto.
  - cbn. rewrite Hn3. by apply caller_exists in Hx as [? _].
  - intros d. cbn. rewrite Hc3, Ec. intros [= <-]. apply fn_lookup_insert.
Qed.
End exit.

Lemma inv_new : inv new.
Proof.
  split.
  - split; [intros []; cbn; try constructor | intros [] q x; cbn; set_solver |].
    intros x. cbn. split; [done|]. intros [[] H]; cbn in H; set_solver.
  - by split; cbn; try apply map_Forall_empty.
  - split; cbn; [done | done | done | naive_solver | done].
Qed.

Section reachable.
Context (cost os : Z) (va2pa : Z → Z → Z) (count : Z → Z).

Lemma inv_after_step s s' : inv s → step cost os va2pa count s s' → inv s'.
Proof.
  intros Hi Hs. destruct Hs.
  - unfold SyncServer.mutexInit in H. destruct (SyncServer.getMutex mux true (sync s)) as [[m z]|] eqn:E; cbn in H; [|done].
    injection H as <-. by destruct (inv_getMutex _ _ _ _ _ Hi E).
  - unfold SyncServer.mutexLock in H0. destruct (SyncServer.getMutex mux true (sync s)) as [[m z]|] eqn:E; cbn in H0; [|done].
    destruct (inv_getMutex _ _ _ _ _ Hi E) as (Hi' & Hm & _). case_match; [by injection H0 as <- <- <-|].
    destruct (SimMutex.lock x time m (threads s)) as [[r' m'] w'] eqn:El. injection H0 as <- <- <-.
    exact (inv_lock (mkState z (sys s) (threads s)) mux m x time r' m' w' Hi' Hm H El).
  - unfold SyncServer.mutexUnlock in H0. destruct (SyncServer.getMutex mux false (sync s)) as [[m z]|] eqn:E; cbn in H0; [|done].
    destruct (inv_getMutex _ _ _ _ _ Hi E) as (Hi' & Hm & _).
    destruct (SimMutex.unlock _ _ m (threads s)) as [[[v m'] w']|] eqn:Eu; cbn in H0; [|done]. injection H0 as <- <- <-.
    by destruct (inv_unlock (mkState z (sys s) (threads s)) mux m x _ v m' w' Hi' Hm Eu).
  - unfold SyncServer.condInit. destruct (SyncServer.getCond c (sync s)) as [l z] eqn:E. by destruct (inv_getCond _ _ _ _ Hi E).
  - by eapply inv_condWait.
  - destruct (inv_condSignal s c time Hi) as (z & w' & E & Hi'). rewrite E in H. by injection H as <- <- <-.
  - destruct (inv_condBroadcast s c time Hi) as (z & w' & E & Hi' & _). rewrite E in H. by injection H as <- <- <-.
  - by apply inv_barrierInit.
  - by eapply inv_barrierWait.
  - by eapply inv_handleSleepCall.
  - by eapply inv_handleFutexCall.
  - by eapply inv_futexPeriodic.
  - by eapply inv_spawnThread.
  - unfold getThreadToSpawn in H. destruct (m_thread_spawn_list (threads s)); [done|]. injection H as <- <-.
    apply inv_same_threads; try done. by destruct (i_threads _ Hi).
  - by apply inv_onThreadStart.
  - by eapply inv_waitForThreadStart.
  - by eapply inv_joinThread.
  - by eapply inv_onThreadExit.
  - by eapply inv_moveThread.
  - by apply inv_reschedule.
  - by apply inv_stall_async, may_call_awake, H.
  - by apply (inv_set_status s x RUNNING), may_call_awake.
Qed.
Lemma reachable_inv s : reachable cost os va2pa count s → inv s.
Proof. induction 1; [apply inv_new | by eapply inv_after_step]. Qed.
End reachable.

(** * Threads, queues and cores *)
Section theorems.
Context (cost os : Z) (va2pa : Z → Z → Z) (count : Z → Z).

(** [C24] Whatever the threads, the scheduler and the periodic hook do, no thread is lost: one that
    sleeps, and not just for want of a core, is in exactly one queue - of a mutex, condition,
    barrier or futex, of the sleeping threads, or as the one who waits for a thread - and there
    once; who is in a queue sleeps; nobody waits for a free mutex, and a barrier holds less
    threads than it has to wait for. *)
Theorem no_lost_thread s (Hs : reachable cost os va2pa count s) :
  (∀ x, asleep (threads s) x → unscheduled (threads s) x ∨ ∃ p, x ∈ queue_of s p ∧ ∀ q, x ∈ queue_of s q → q = p) ∧
  (∀ p, NoDup (queue_of s p) ∧ ∀ x, x ∈ queue_of s p → asleep (threads s) x ∧ ¬ unscheduled (threads s) x ∧ 0 ≤ x < m_threads (threads s)) ∧
  (∀ mux m, SyncServer.m_mutexes (sync s) !! mux = Some m → SimMutex.m_owner m = SimMutex.NO_OWNER → SimMutex.m_waiting m = []) ∧
  (∀ i b, SyncServer.m_barriers (sync s) !! i = Some b → 0 < SimBarrier.m_count b →
     Z.of_nat (length (SimBarrier.m_waiting b)) < SimBarrier.m_count b).
Proof.
  pose proof (reachable_inv _ _ _ _ _ Hs) as Hi. destruct (i_queues _ Hi) as [Hnd Hun Hw]. split_and!.
  - intros x Hx. destruct (unscheduled (threads s) x) eqn:Hu; [by left|]. right.
    assert (waits (threads s) x) as [p Hp]%Hw by (unfold waits; rewrite Hu; by apply andb_prop_intro). eauto.
  - intros p. split; [done|]. intros x Hx. pose proof (members_exist s p x Hi Hx).
    assert (waits (threads s) x) as [? ?]%andb_prop_elim by (apply Hw; eauto). split_and!; [done | by apply negb_prop_elim | lia | lia].
  - intros mux m Hm. apply (so_mutex _ (i_sync _ Hi) _ _ Hm).
  - intros i b Hb. pose proof (so_barrier _ (i_sync _ Hi)) as H. by apply (Forall_lookup_1 _ _ _ _ H Hb).
Qed.

(** A signal and a broadcast on a condition never fail, with waiters or without: the first
    waiter, or each of them, leaves the condition, and then runs or waits for its mutex; a thread
    is on at most one core and a core has at most one thread, and a core without one is idle. *)
Theorem wakeups_and_cores s (Hs : reachable cost os va2pa count s) :
  (∀ c time, ∃ y w, SyncServer.condSignal c time (sync s) (threads s) = Ok (time, y, w)) ∧
  (∀ c time, ∃ y w, SyncServer.condBroadcast c time (sync s) (threads s) = Ok (time, y, w) ∧ queue_of (mkState y (sys s) w) (PCond c) = []) ∧
  (∀ x c, m_core (threads s) x = Some c ↔ core_thread (threads s) c = Some x) ∧
  (∀ c, core_thread (threads s) c = None → core_state (threads s) c = IDLE).
Proof.
  pose proof (reachable_inv _ _ _ _ _ Hs) as Hi. split_and!.
  - intros c time. destruct (inv_condSignal s c time Hi) as (y & w & E & _). eauto.
  - intros c time. destruct (inv_condBroadcast s c time Hi) as (y & w & E & _ & Hc). eexists _, _. split; [done|]. cbn. by rewrite Hc.
  - apply (to_cores _ (i_threads _ Hi)).
  - apply (to_idle _ (i_threads _ Hi)).
Qed.
End theorems.

(** A thread that joins another before that has started is woken up by its start, not by its exit,
    and its state remains that of a thread that waits. *)
Lemma join_returns_at_start x y time elapsed w :
  x ≠ y → status w y = INITIALIZING → waiter w y = INVALID_THREAD_ID → x ≠ INVALID_THREAD_ID → m_core w y ≠ None →
  ∃ w', joinThread x y w = Ok (true, w') ∧ asleep w' x = true ∧
    asleep (onThreadStart y time elapsed w') x = false ∧ status (onThreadStart y time elapsed w') x = STALLED ∧
    status (onThreadStart y time elapsed w') y = RUNNING.
Proof.
  intros Hxy Hy Hw Hx Hc. unfold joinThread. rewrite Hy, Hw. cbn. eexists. split; [done|].
  split; [by cbn; rewrite fn_lookup_insert|]. unfold onThreadStart. cbn. destruct (m_core w y) as [c|]; [|done].
  cbn. rewrite !fn_lookup_insert, (proj2 (Z.eqb_neq x _)) by done. cbn.
  rewrite !fn_lookup_insert. rewrite !(fn_lookup_insert_ne _ y x) by done. by rewrite !fn_lookup_insert.
Qed.

(** * Threads at work

    Two threads on two cores lock a mutex. *)
Module WaitingExample.
Definition va (x a : Z) : Z := a.
Definition one (x : Z) : Z := 1.

(** The state after a call, and that it is one. *)
Definition value {A} (d : A) (r : result A) : A := match r with Ok a => a | Err _ => d end.
Lemma ok_value {A} (d : A) r : is_ok r = true → r = Ok (value d r).
Proof. by destruct r. Qed.
Definition spawn_on (x : Z) (c : Z) (s : t) : t := with_threads s (snd (value (0, threads s) (spawnThread x 0 (Some c) (threads s)))).
Definition start (x : Z) (s : t) : t := with_threads s (onThreadStart x 0 0 (threads s)).
Definition lock_value (x time : Z) (s : t) := value (None, sync s, threads s) (SyncServer.mutexLock 10 x 64 false time (sync s) (threads s)).
Definition lock (x time : Z) (s : t) : t := mkState (snd (fst (lock_value x time s))) (sys s) (snd (lock_value x time s)).

Lemma reach_spawn x c s : reachable 10 0 va one s → is_ok (spawnThread x 0 (Some c) (threads s)) = true → reachable 10 0 va one (spawn_on x c s).
Proof.
  intros Hs H. eapply reach_step; [done|]. eapply (step_spawn _ _ _ _ s x 0 (Some c)).
  rewrite (ok_value (0, threads s) _ H) at 1. by rewrite <- surjective_pairing.
Qed.
Lemma reach_start x s : reachable 10 0 va one s → may_call (threads s) x = true → isThreadInitializing (threads s) x = true →
  reachable 10 0 va one (start x s).
Proof. intros Hs H1 H2. eapply reach_step; [done|]. apply step_start; by apply Is_true_true. Qed.
Lemma reach_lock x time s : reachable 10 0 va one s → may_call (threads s) x = true → unscheduled (threads s) x = false →
  is_ok (SyncServer.mutexLock 10 x 64 false time (sync s) (threads s)) = true → reachable 10 0 va one (lock x time s).
Proof.
  intros Hs H1 H2 H. eapply reach_step; [done|]. eapply (step_mutexLock _ _ _ _ s x 64 false time); [split; [by apply Is_true_true | by rewrite H2; intros ?]|].
  rewrite (ok_value (None, sync s, threads s) _ H) at 1. fold (lock_value x time s). by rewrite <- !surjective_pairing.
Qed.

Definition started : t := start 1 (start 0 (spawn_on 0 1 (spawn_on (-1) 0 new))).
Lemma contention : reachable 10 0 va one (lock 1 7 (lock 0 5 started)) ∧ queue_of (lock 1 7 (lock 0 5 started)) (PMutex 64) = [1].
Proof.
  split; [|by vm_compute].
  do 2 (apply reach_lock; [|by vm_compute..]). unfold started. do 2 (apply reach_start; [|by vm_compute..]).
  do 2 (apply reach_spawn; [|by vm_compute]). apply reach_new.
Qed.

Lemma no_lost_thread_witness : ∃ s,
  reachable 10 0 va one s ∧ queue_of s (PMutex 64) = [1] ∧ NoDup (queue_of s (PMutex 64)) ∧ (∀ q, 1 ∈ queue_of s q → q = PMutex 64).
Proof.
  destruct contention as [Hs Hq]. exists (lock 1 7 (lock 0 5 started)). destruct (no_lost_thread 10 0 va one _ Hs) as (H1 & H2 & _).
  split; [done|]. split; [done|]. split; [apply H2|]. intros q Hx.
  destruct (H2 (PMutex 64)) as [_ H3]. destruct (H3 1) as (Ha & Hu & _); [rewrite Hq; left|].
  destruct (H1 1 Ha) as [Hu'|(p & Hp & Hun)]; [destruct (Hu Hu')|]. rewrite (Hun q Hx). symmetry. apply Hun. rewrite Hq. left.
Defined.
Lemma wakeups_and_cores_witness : ∃ s,
  reachable 10 0 va one s ∧ ∃ y w, SyncServer.condBroadcast 128 9 (sync s) (threads s) = Ok (9, y, w).
Proof.
  destruct contention as [Hs _]. exists (lock 1 7 (lock 0 5 started)). destruct (wakeups_and_cores 10 0 va one _ Hs) as (_ & H & _).
  split; [done|]. destruct (H 128 9) as (y & w & E & _). by exists y, w.
Defined.
End WaitingExample.
