(* ===== verification/Scheduler.v ===== *)
(** Which thread runs on which core: [scheduler/scheduler_dynamic.{h,cc}],
    [scheduler/scheduler_pinned_base.{h,cc}] and the policies [scheduler/scheduler_pinned.{h,cc}]
    and [scheduler/scheduler_roaming.{h,cc}], together with the thread manager ([Threads]).

    Thread manager and scheduler call each other: a thread that starts, stalls, resumes or exits
    is reported to the scheduler through hooks; the scheduler moves threads, and moving a thread
    to a core resumes it, which is reported to the scheduler again.  [reschedule] is a recursion
    through these calls; a round fills a core that was free. *)
From stdpp Require Import functions.
From S2P Require Import Prelude Timing Threads StateResult.

Definition s64 (x : Z) : Z := (x + 2 ^ 63) `mod` 2 ^ 64 - 2 ^ 63.

(** ** State

    [None] for [INVALID_CORE_ID] and [INVALID_THREAD_ID]. *)
Record ThreadInfo := {
  m_has_affinity : bool;
  m_explicit_affinity : bool;
  m_core_affinity : list bool;
  m_core_running : option nat;
  m_last_scheduled_in : Z;
  m_last_scheduled_out : Z;
}.
Definition new_info (cores : nat) : ThreadInfo := {|
  m_has_affinity := false; m_explicit_affinity := false; m_core_affinity := replicate cores false;
  m_core_running := None; m_last_scheduled_in := 0; m_last_scheduled_out := 0 |}.
Definition clearAffinity (i : ThreadInfo) : ThreadInfo := {|
  m_has_affinity := m_has_affinity i; m_explicit_affinity := m_explicit_affinity i;
  m_core_affinity := (λ _, false) <$> m_core_affinity i;
  m_core_running := m_core_running i; m_last_scheduled_in := m_last_scheduled_in i; m_last_scheduled_out := m_last_scheduled_out i |}.
Definition addAffinity (c : nat) (i : ThreadInfo) : result ThreadInfo :=
  let! l := arr_set (m_core_affinity i) c true in
  Ok {| m_has_affinity := true; m_explicit_affinity := m_explicit_affinity i; m_core_affinity := l;
        m_core_running := m_core_running i; m_last_scheduled_in := m_last_scheduled_in i; m_last_scheduled_out := m_last_scheduled_out i |}.
Definition setAffinitySingle (c : nat) (i : ThreadInfo) : result ThreadInfo := addAffinity c (clearAffinity i).
Definition setExplicitAffinity (i : ThreadInfo) : ThreadInfo := {|
  m_has_affinity := m_has_affinity i; m_explicit_affinity := true; m_core_affinity := m_core_affinity i;
  m_core_running := m_core_running i; m_last_scheduled_in := m_last_scheduled_in i; m_last_scheduled_out := m_last_scheduled_out i |}.
Definition setCoreRunning (c : option nat) (i : ThreadInfo) : ThreadInfo := {|
  m_has_affinity := m_has_affinity i; m_explicit_affinity := m_explicit_affinity i; m_core_affinity := m_core_affinity i;
  m_core_running := c; m_last_scheduled_in := m_last_scheduled_in i; m_last_scheduled_out := m_last_scheduled_out i |}.
Definition setLastScheduledIn (time : Z) (i : ThreadInfo) : ThreadInfo := {|
  m_has_affinity := m_has_affinity i; m_explicit_affinity := m_explicit_affinity i; m_core_affinity := m_core_affinity i;
  m_core_running := m_core_running i; m_last_scheduled_in := time; m_last_scheduled_out := m_last_scheduled_out i |}.
Definition setLastScheduledOut (time : Z) (i : ThreadInfo) : ThreadInfo := {|
  m_has_affinity := m_has_affinity i; m_explicit_affinity := m_explicit_affinity i; m_core_affinity := m_core_affinity i;
  m_core_running := m_core_running i; m_last_scheduled_in := m_last_scheduled_in i; m_last_scheduled_out := time |}.
Definition isRunning (i : ThreadInfo) : bool := bool_decide (m_core_running i ≠ None).

(** [P]: what the policy keeps. *)
Record t (P : Type) := mk {
  m_thread_info : list ThreadInfo;
  m_core_thread_running : list (option nat);
  m_quantum_left : list Z;
  m_threads_runnable : list bool;
  m_last_periodic : Z;
  policy : P;
  thread_manager : ThreadManager.t;
}.
Arguments mk {P} _ _ _ _ _ _ _.
Arguments m_thread_info {P} _.
Arguments m_core_thread_running {P} _.
Arguments m_quantum_left {P} _.
Arguments m_threads_runnable {P} _.
Arguments m_last_periodic {P} _.
Arguments policy {P} _.
Arguments thread_manager {P} _.

(** What a policy decides, [threadSetInitialAffinity]: given the threads that run on the cores,
    the affinity of a thread that has none. *)
Class InitialAffinity (P : Type) :=
  threadSetInitialAffinity : nat → P → list (option nat) → ThreadInfo → result (P * ThreadInfo).

Section scheduler.
Context {P : Type} `{InitialAffinity P} (cores : nat) (m_quantum : Z).
Abbreviation S := (t P).

Definition new (p : P) : S :=
  mk [] (replicate cores None) (replicate cores 0) (replicate 16 false) 0 p ThreadManager.new.

Definition set_info (l : list ThreadInfo) (s : S) : S :=
  mk l (m_core_thread_running s) (m_quantum_left s) (m_threads_runnable s) (m_last_periodic s) (policy s) (thread_manager s).
Definition set_running (l : list (option nat)) (s : S) : S :=
  mk (m_thread_info s) l (m_quantum_left s) (m_threads_runnable s) (m_last_periodic s) (policy s) (thread_manager s).
Definition set_quantum (l : list Z) (s : S) : S :=
  mk (m_thread_info s) (m_core_thread_running s) l (m_threads_runnable s) (m_last_periodic s) (policy s) (thread_manager s).
Definition set_runnable (l : list bool) (s : S) : S :=
  mk (m_thread_info s) (m_core_thread_running s) (m_quantum_left s) l (m_last_periodic s) (policy s) (thread_manager s).
Definition set_last_periodic (time : Z) (s : S) : S :=
  mk (m_thread_info s) (m_core_thread_running s) (m_quantum_left s) (m_threads_runnable s) time (policy s) (thread_manager s).
Definition set_policy (p : P) (s : S) : S :=
  mk (m_thread_info s) (m_core_thread_running s) (m_quantum_left s) (m_threads_runnable s) (m_last_periodic s) p (thread_manager s).
Definition set_thread_manager (w : ThreadManager.t) (s : S) : S :=
  mk (m_thread_info s) (m_core_thread_running s) (m_quantum_left s) (m_threads_runnable s) (m_last_periodic s) (policy s) w.

(** Elements of the vectors. *)
Definition info_of (x : nat) : M S ThreadInfo := l ← gets m_thread_info; lift (arr_get l x).
Definition put_info (x : nat) (i : ThreadInfo) : M S unit := l ← gets m_thread_info; l ← lift (arr_set l x i); modify (set_info l).
Definition upd_info (x : nat) (f : ThreadInfo → ThreadInfo) : M S unit := i ← info_of x; put_info x (f i).
Definition running_on (c : nat) : M S (option nat) := l ← gets m_core_thread_running; lift (arr_get l c).
Definition put_running (c : nat) (x : option nat) : M S unit := l ← gets m_core_thread_running; l ← lift (arr_set l c x); modify (set_running l).
Definition put_quantum (c : nat) (q : Z) : M S unit := l ← gets m_quantum_left; l ← lift (arr_set l c q); modify (set_quantum l).
Definition put_runnable (x : nat) (b : bool) : M S unit := l ← gets m_threads_runnable; l ← lift (arr_set l x b); modify (set_runnable l).
Definition in_threads (f : ThreadManager.t → result ThreadManager.t) : M S unit :=
  w ← gets thread_manager; w ← lift (f w); modify (set_thread_manager w).
Definition change_threads (f : ThreadManager.t → ThreadManager.t) : M S unit := in_threads (λ w, Ok (f w)).
Definition tid (x : nat) : Z := Z.of_nat x.

(** The first core that a thread may use and that is free. *)
Fixpoint find_free (affinity : list bool) (running : list (option nat)) (cs : list nat) : result (option nat) :=
  match cs with
  | [] => Ok None
  | c :: cs =>
      let! a := arr_get affinity c in
      if a then
        let! r := arr_get running c in
        if bool_decide (r = None) then Ok (Some c) else find_free affinity running cs
      else find_free affinity running cs
  end.
Definition findFreeCoreForThread (x : nat) : M S (option nat) :=
  i ← info_of x; l ← gets m_core_thread_running; lift (find_free (m_core_affinity i) l (seq 0 cores)).

(** The score of a thread: how long it has waited, or, negative, how long it has run. *)
Definition getPS (time : Z) : Z := time `div` SubsecondTime.PS_1.
Definition score (i : ThreadInfo) (time : Z) : Z :=
  if isRunning i then s64 (s64 (getPS (m_last_scheduled_in i)) - getPS time)
  else s64 (getPS time - s64 (getPS (m_last_scheduled_out i))).
Fixpoint best_loop (infos : list ThreadInfo) (runnable : list bool) (time : Z) (c : nat) (xs : list nat) (new : option nat) (max_score : Z) :
    result (option nat) :=
  match xs with
  | [] => Ok new
  | x :: xs =>
      let! i := arr_get infos x in
      let! a := arr_get (m_core_affinity i) c in
      let! r := (if a then arr_get runnable x else Ok false) in
      if r && (negb (isRunning i) || bool_decide (m_core_running i = Some c)) && (max_score <? score i time)
      then best_loop infos runnable time c xs (Some x) (score i time)
      else best_loop infos runnable time c xs new max_score
  end.
Definition best (time : Z) (c : nat) : M S (option nat) :=
  infos ← gets m_thread_info; runnable ← gets m_threads_runnable;
  lift (best_loop infos runnable time c (seq 0 (length runnable)) None (- 2 ^ 63)).

(** The parts of [reschedule] before and after the move of the new thread. *)
Definition unschedule (time : Z) (c y : nat) : M S unit :=
  upd_info y (setCoreRunning None);;
  upd_info y (setLastScheduledOut (SubsecondTime.add time (SubsecondTime.mul (Z.of_nat c) SubsecondTime.PS_1)));;
  in_threads (ThreadManager.moveThread (tid y) None time).
Definition schedule (time : Z) (c x : nat) : M S unit :=
  i ← info_of x;
  match m_core_running i with Some d => put_running d None | None => mret tt end;;
  upd_info x (setCoreRunning (Some c));;
  upd_info x (setLastScheduledIn time).
Definition is_initializing (y : option nat) : M S bool :=
  match y with
  | Some y => w ← gets thread_manager; mret (ThreadManager.isThreadInitializing w (tid y))
  | None => mret false
  end.

(** [ThreadManager::moveThread] to a core, with the hook that reports the resumption. *)
Definition move_to (resumed : nat → Z → M S unit) (x c : nat) (time : Z) : M S unit :=
  change_threads (ThreadManager.leave_core (tid x));;
  w ← gets thread_manager;
  when (ThreadManager.waits_for_core (tid x) w)
    (change_threads (ThreadManager.resumeThread (tid x) time false);; resumed x time);;
  in_threads (ThreadManager.enter_core (tid x) (tid c)).

(** The core changes from [current] to [new]; the resumption of [new] can fill another core. *)
Definition switch (again : Z → nat → M S unit) (time : Z) (c : nat) (current new : option nat) : M S unit :=
  match current with Some y => unschedule time c y | None => mret tt end;;
  put_running c new;;
  match new with
  | Some x =>
      schedule time c x;;
      move_to (λ x time,
        put_runnable x true;;
        free ← findFreeCoreForThread x;
        match free with Some d => again time d | None => mret tt end) x c time
  | None => mret tt
  end.
Fixpoint reschedule (fuel : nat) (time : Z) (c : nat) : M S unit :=
  match fuel with
  | O => fail NoFuel
  | Datatypes.S n =>
      current ← running_on c;
      starting ← is_initializing current;
      if (starting : bool) then mret tt
      else
        new ← best time c;
        when (bool_decide (current ≠ new)) (switch (reschedule n) time c current new);;
        put_quantum c m_quantum
  end.
(** A round more than there are cores that can be free. *)
Definition FUEL : nat := Datatypes.S (Datatypes.S cores).

(** ** The hooks ([SchedulerDynamic]) and what they call *)
Definition threadResume (x : nat) (time : Z) : M S unit :=
  free ← findFreeCoreForThread x;
  match free with Some d => reschedule FUEL time d | None => mret tt end.
Definition __threadResume (x : nat) (time : Z) : M S unit := put_runnable x true;; threadResume x time.
Definition threadStart (x : nat) (time : Z) : M S unit := threadResume x time.
Definition __threadStart (x : nat) (time : Z) : M S unit :=
  l ← gets m_threads_runnable;
  when (bool_decide (length l ≤ x)%nat) (modify (set_runnable (l ++ replicate 16 false)));;
  put_runnable x true;; threadStart x time.
Definition threadStall (x : nat) (time : Z) : M S unit :=
  i ← info_of x; match m_core_running i with Some c => reschedule FUEL time c | None => mret tt end.
Definition __threadStall (x : nat) (reason : ThreadManager.stall_type_t) (time : Z) : M S unit :=
  when (bool_decide (reason ≠ ThreadManager.STALL_UNSCHEDULED)) (put_runnable x false;; threadStall x time).
Definition threadExit (x : nat) (time : Z) : M S unit := threadStall x time.
Definition __threadExit (x : nat) (time : Z) : M S unit := put_runnable x false;; threadExit x time.
Definition periodic_core (time delta : Z) (c : nat) : M S unit :=
  q ← gets m_quantum_left; q ← lift (arr_get q c); r ← running_on c;
  if (q <? delta) || bool_decide (r = None) then reschedule FUEL time c else put_quantum c (SubsecondTime.sub q delta).
Definition periodic (time : Z) : M S unit :=
  last ← gets m_last_periodic;
  foldM (λ _ c, periodic_core time (SubsecondTime.sub time last) c) tt (seq 0 cores);;
  modify (set_last_periodic time).

Definition threadCreate (x : nat) : M S (option nat) :=
  l ← gets m_thread_info;
  when (bool_decide (length l ≤ x)%nat) (modify (set_info (l ++ replicate 16 (new_info cores))));;
  i ← info_of x;
  when (negb (m_has_affinity i))
    (s ← gets id;
     '(p, i) ← lift (threadSetInitialAffinity cores (policy s) (m_core_thread_running s) i);
     modify (set_policy p);; put_info x i);;
  free ← findFreeCoreForThread x;
  match free with
  | Some c => upd_info x (setCoreRunning free);; put_running c (Some x);; put_quantum c m_quantum;; mret free
  | None => upd_info x (setCoreRunning None);; mret None
  end.

(** [elapsed]: the clocks of the cores. *)
Definition threadYield (elapsed : nat → Z) (x : nat) : M S unit :=
  i ← info_of x;
  match m_core_running i with
  | Some c =>
      put_quantum c 0;; reschedule FUEL (elapsed c) c;;
      i ← info_of x; a ← lift (arr_get (m_core_affinity i) c);
      when (negb a)
        (free ← findFreeCoreForThread x;
         match free with Some d => reschedule FUEL (elapsed c) d | None => mret tt end)
  | None => mret tt
  end.
(** [mask]: the cores that are set in it, if there is one; [global]: the time of the barrier. *)
Definition threadSetAffinity (elapsed : nat → Z) (global : Z) (calling x : nat) (mask : option (list nat)) : M S unit :=
  l ← gets m_thread_info;
  when (bool_decide (length l ≤ x)%nat) (modify (set_info (l ++ replicate (x + 16 - length l) (new_info cores))));;
  upd_info x setExplicitAffinity;;
  match mask with
  | None => foldM (λ _ c, i ← info_of x; i ← lift (addAffinity c i); put_info x i) tt (seq 0 cores)
  | Some cs =>
      upd_info x clearAffinity;;
      foldM (λ _ c, assert_ (bool_decide (c < cores)%nat);; i ← info_of x; i ← lift (addAffinity c i); put_info x i) tt cs
  end;;
  w ← gets thread_manager;
  if ThreadManager.m_threads w <=? tid x then mret tt
  else if bool_decide (x = calling) then threadYield elapsed x
  else
    i ← info_of x;
    match m_core_running i with
    | Some c =>
        a ← lift (arr_get (m_core_affinity i) c);
        if (a : bool) then r ← gets m_threads_runnable; _ ← lift (arr_get r x); mret tt else put_quantum c 0
    | None =>
        r ← gets m_threads_runnable; r ← lift (arr_get r x);
        when r
          (free ← findFreeCoreForThread x;
           match free with Some d => reschedule FUEL (Z.max (elapsed d) global) d | None => mret tt end)
    end.
Definition threadGetAffinity (x : nat) (cpusetsize : nat) : M S (option (list nat)) :=
  if bool_decide (cpusetsize * 8 < cores)%nat then mret None
  else
    i ← info_of x;
    l ← foldM (λ l c, a ← lift (arr_get (m_core_affinity i) c); mret (if a || negb (m_explicit_affinity i) then l ++ [c] else l)) [] (seq 0 cores);
    mret (Some l).

(** ** The thread manager with its hooks *)
Definition createThread : M S nat :=
  w ← gets thread_manager; let x := Z.to_nat (ThreadManager.m_threads w) in
  core ← threadCreate x;
  in_threads (λ w, let! (_, w) := ThreadManager.createThread_unlocked (tid <$> core) w in Ok w);; mret x.
Definition onThreadStart (x : nat) (time : Z) (elapsed : Z) : M S unit :=
  change_threads (ThreadManager.set_status (tid x) RUNNING);; __threadStart x time;;
  change_threads (ThreadManager.onThreadStart (tid x) time elapsed).
Definition stallThread_async (x : nat) (reason : ThreadManager.stall_type_t) (time : Z) : M S unit :=
  change_threads (ThreadManager.stallThread_async (tid x) reason);; __threadStall x reason time.
Definition resumeThread (x : nat) (time : Z) (msg : bool) : M S unit :=
  change_threads (ThreadManager.resumeThread (tid x) time msg);; __threadResume x time.
(** Until the thread sleeps. *)
Definition joinThread (x y : nat) (time : Z) : M S unit :=
  w ← gets thread_manager;
  when (negb (bool_decide (ThreadManager.status w (tid y) = IDLE)))
    (assert_ (ThreadManager.waiter w (tid y) =? INVALID_THREAD_ID);;
     change_threads (ThreadManager.set_waiter (tid y) (tid x));;
     stallThread_async x ThreadManager.STALL_JOIN time;;
     change_threads (ThreadManager.wait (tid x))).
Definition waitForThreadStart (x y : nat) : M S unit := in_threads (ThreadManager.waitForThreadStart (tid x) (tid y)).
(** [woken]: the threads that the clearing of the thread's id wakes up, if any. *)
Definition onThreadExit (x : nat) (elapsed : Z) (woken : list nat) : M S unit :=
  w ← gets thread_manager;
  match ThreadManager.m_core w (tid x) with
  | None => fail AssertFail
  | Some c =>
      assert_ (ThreadManager.isThreadRunning w (tid x));;
      change_threads (ThreadManager.set_status (tid x) IDLE);;
      v ← gets (λ s, ThreadManager.waiter (thread_manager s) (tid x));
      when (negb (v =? INVALID_THREAD_ID))
        (resumeThread (Z.to_nat v) elapsed false;; change_threads (ThreadManager.set_waiter (tid x) INVALID_THREAD_ID));;
      foldM (λ _ y, resumeThread y elapsed true) tt woken;;
      change_threads (ThreadManager.set_core_state c IDLE);;
      in_threads (ThreadManager.setCore (tid x) None);;
      __threadExit x elapsed
  end.
End scheduler.

(** ** Policies *)
Module SchedulerPinned.
Record t := mk { m_interleaving : nat; m_core_mask : list bool; m_next_core : nat }.
Section ops.
Context (cores : nat).
(** A loop over cores: when it has not ended after as many rounds as there are cores, it never will. *)
Fixpoint next_loop (fuel : nat) (p : t) (c : nat) : result nat :=
  match fuel with
  | O => Err Diverges
  | S n =>
      let c := (c + m_interleaving p)%nat in
      let! c :=
        if bool_decide (cores ≤ c)%nat
        then let! r := umod (Z.of_nat (c `mod` cores + 1)) (Z.of_nat (m_interleaving p)) in Ok (Z.to_nat r)
        else Ok c in
      let! b := arr_get (m_core_mask p) c in
      if b then Ok c else next_loop n p c
  end.
Definition getNextCore (p : t) (c : nat) : result nat := next_loop (S (S cores)) p c.
Fixpoint free_loop (fuel : nat) (p : t) (running : list (option nat)) (first c : nat) : result nat :=
  match fuel with
  | O => Err Diverges
  | S n =>
      let! r := arr_get running c in
      let! b := (if bool_decide (r = None) then arr_get (m_core_mask p) c else Ok false) in
      if b then Ok c
      else
        let! c := getNextCore p c in
        if bool_decide (c = first) then Ok first else free_loop n p running first c
  end.
Definition getFreeCore (p : t) (running : list (option nat)) (first : nat) : result nat := free_loop (S (S cores)) p running first first.
End ops.
Definition threadSetInitialAffinity (cores : nat) (p : t) (running : list (option nat)) (i : ThreadInfo) : result (t * ThreadInfo) :=
  let! c := getFreeCore cores p running (m_next_core p) in
  let! next := getNextCore cores p c in
  let! i := setAffinitySingle c i in
  Ok (mk (m_interleaving p) (m_core_mask p) next, i).
#[global] Instance pinned : InitialAffinity t := threadSetInitialAffinity.
End SchedulerPinned.

Module SchedulerRoaming.
Record t := mk { m_core_mask : list bool }.
Fixpoint add_all (mask : list bool) (cs : list nat) (i : ThreadInfo) : result ThreadInfo :=
  match cs with
  | [] => Ok i
  | c :: cs =>
      let! b := arr_get mask c in
      let! i := (if b then addAffinity c i else Ok i) in add_all mask cs i
  end.
Definition threadSetInitialAffinity (cores : nat) (p : t) (running : list (option nat)) (i : ThreadInfo) : result (t * ThreadInfo) :=
  let! i := add_all (m_core_mask p) (seq 0 cores) (clearAffinity i) in Ok (p, i).
#[global] Instance roaming : InitialAffinity t := threadSetInitialAffinity.
End SchedulerRoaming.

(** * Proofs *)

(** What the proofs need of a policy: it decides about the affinity only. *)
Class LawfulAffinity (P : Type) `{InitialAffinity P} :=
  initial_affinity_lawful cores p l i :
    match threadSetInitialAffinity cores p l i with
    | Ok (_, i') => m_core_running i' = m_core_running i
    | Err e => e ≠ NoFuel ∧ e ≠ AssertFail
    end.

(** Failures that the theorems leave open: an index out of range, and a policy's loop that never ends. *)
Definition unless_broken : failure → Prop := λ e, e ≠ NoFuel ∧ e ≠ AssertFail.

Section views.
Context {P : Type} `{InitialAffinity P} (cores : nat).
Abbreviation S := (t P).
Implicit Types (s : S) (pend : list nat).

(** The thread on a core and the core of a thread, as the scheduler has them. *)
Definition run s (x : nat) : option nat := m_thread_info s !! x ≫= m_core_running.
Definition slot s (c : nat) : option nat := m_core_thread_running s !! c ≫= id.
Definition free s : nat := length (filter (λ r : option nat, r = None) (m_core_thread_running s)).

(** The scheduler's two views agree, and the thread manager has the threads on the same cores,
    except those that are just being moved. *)
Record ok pend s : Prop := {
  ok_match x c : run s x = Some c ↔ slot s c = Some x;
  ok_threads z : ThreadManager.m_core (thread_manager s) z =
    if decide (0 ≤ z ∧ Z.to_nat z ∉ pend) then tid <$> run s (Z.to_nat z) else None;
  ok_cores : cores_ok (thread_manager s);
  ok_length : length (m_core_thread_running s) = cores;
  ok_pend x : x ∈ pend → run s x ≠ None;
  ok_known x : run s x ≠ None ∨ m_threads_runnable s !! x = Some true → tid x < ThreadManager.m_threads (thread_manager s);
  ok_num : 0 ≤ ThreadManager.m_threads (thread_manager s);
}.

Lemma slot_lt s c : ok [] s ∨ length (m_core_thread_running s) = cores → slot s c ≠ None → (c < cores)%nat.
Proof.
  intros Hl Hc. assert (length (m_core_thread_running s) = cores) as <- by (destruct Hl as [Hl|]; [apply Hl | done]).
  unfold slot in Hc. destruct (m_core_thread_running s !! c) eqn:E; [by eapply lookup_lt_Some | done].
Qed.
Lemma tid_inj x y : tid x = tid y → x = y.
Proof. unfold tid. lia. Qed.

(** The views after an update. *)
Lemma run_set_info s x i y : (x < length (m_thread_info s))%nat →
  run (set_info (<[x := i]> (m_thread_info s)) s) y = if decide (y = x) then m_core_running i else run s y.
Proof.
  intros Hx. unfold run. cbn. case_decide as Hy; [subst; by rewrite list_lookup_insert_eq | by rewrite list_lookup_insert_ne].
Qed.
Lemma slot_set_running s c r d : (c < length (m_core_thread_running s))%nat →
  slot (set_running (<[c := r]> (m_core_thread_running s)) s) d = if decide (d = c) then r else slot s d.
Proof.
  intros Hc. unfold slot. cbn. case_decide as Hd; [subst; by rewrite list_lookup_insert_eq | by rewrite list_lookup_insert_ne].
Qed.

Lemma ok_ext pend s s' : ok pend s → (∀ x, run s' x = run s x) → m_core_thread_running s' = m_core_thread_running s →
  ThreadManager.m_core (thread_manager s') = ThreadManager.m_core (thread_manager s) →
  ThreadManager.core_thread (thread_manager s') = ThreadManager.core_thread (thread_manager s) →
  ThreadManager.m_threads (thread_manager s') = ThreadManager.m_threads (thread_manager s) →
  (∀ x, m_threads_runnable s' !! x = Some true → m_threads_runnable s !! x = Some true ∨ tid x < ThreadManager.m_threads (thread_manager s)) →
  ok pend s'.
Proof.
  intros [] Hr Hs Hm Hc Hn Hrb. split.
  - intros x c. unfold slot. rewrite Hr, Hs. apply ok_match0.
  - intros z. rewrite Hm, Hr. apply ok_threads0.
  - unfold cores_ok. by rewrite Hm, Hc.
  - by rewrite Hs.
  - intros x. rewrite Hr. auto.
  - intros x. rewrite Hr, Hn. intros [Hx|Hx]; [auto|]. destruct (Hrb x Hx); auto.
  - by rewrite Hn.
Qed.
(** A thread that exists is runnable, or no longer. *)
Lemma ok_put_runnable pend s x b : ok pend s → (b = true → tid x < ThreadManager.m_threads (thread_manager s)) →
  ok pend (set_runnable (<[x := b]> (m_threads_runnable s)) s).
Proof.
  intros Hok Hx. apply (ok_ext _ s); try done; auto. intros y. cbn. destruct (decide (y = x)) as [->|Hy].
  - intros [(_ & Hb & _)|[? ?]]%list_lookup_insert_Some; auto.
  - rewrite list_lookup_insert_ne by done. auto.
Qed.

(** ** Rules for the elements of the vectors *)
Section rules.
Context (E : failure → Prop) (HE : E OutOfRange).
Lemma wps_info_of x s Q : (∀ i, m_thread_info s !! x = Some i → Q i s) → wps E (info_of x) s Q.
Proof.
  intros HQ. unfold info_of. wstep. wstep. apply wps_lift; unfold arr_get; destruct (m_thread_info s !! x) eqn:?; try done; naive_solver.
Qed.
Lemma wps_put_info x i s (Q : unit → S → Prop) :
  ((x < length (m_thread_info s))%nat → Q tt (set_info (<[x := i]> (m_thread_info s)) s)) → wps E (put_info x i) s Q.
Proof.
  intros HQ. unfold put_info, arr_set. wstep. wstep. wstep. destruct (m_thread_info s !! x) eqn:Hx; apply wps_lift; try done.
  - intros a [= <-]. wstep. apply HQ. by eapply lookup_lt_Some.
  - by intros e [= <-].
Qed.
Lemma wps_upd_info x f s (Q : unit → S → Prop) :
  (∀ i, m_thread_info s !! x = Some i → Q tt (set_info (<[x := f i]> (m_thread_info s)) s)) → wps E (upd_info x f) s Q.
Proof. intros HQ. unfold upd_info. wstep. apply wps_info_of. intros i Hi. apply wps_put_info. intros _. by apply HQ. Qed.
Lemma wps_running_on c s Q : (∀ r, m_core_thread_running s !! c = Some r → Q r s) → wps E (running_on c) s Q.
Proof.
  intros HQ. unfold running_on, arr_get. wstep. wstep. destruct (m_core_thread_running s !! c) eqn:?; apply wps_lift; naive_solver.
Qed.
Lemma wps_put_running c x s (Q : unit → S → Prop) :
  ((c < length (m_core_thread_running s))%nat → Q tt (set_running (<[c := x]> (m_core_thread_running s)) s)) → wps E (put_running c x) s Q.
Proof.
  intros HQ. unfold put_running, arr_set. wstep. wstep. wstep. destruct (m_core_thread_running s !! c) eqn:Hx; apply wps_lift; try done.
  - intros a [= <-]. wstep. apply HQ. by eapply lookup_lt_Some.
  - by intros e [= <-].
Qed.
Lemma wps_put_quantum c q s (Q : unit → S → Prop) : (∀ l, Q tt (set_quantum l s)) → wps E (put_quantum c q) s Q.
Proof.
  intros HQ. unfold put_quantum, arr_set. wstep. wstep. wstep. destruct (m_quantum_left s !! c) eqn:Hx; apply wps_lift; try done.
  - intros a [= <-]. wstep. apply HQ.
  - by intros e [= <-].
Qed.
Lemma wps_put_runnable x b s (Q : unit → S → Prop) :
  ((x < length (m_threads_runnable s))%nat → Q tt (set_runnable (<[x := b]> (m_threads_runnable s)) s)) → wps E (put_runnable x b) s Q.
Proof.
  intros HQ. unfold put_runnable, arr_set. wstep. wstep. wstep. destruct (m_threads_runnable s !! x) eqn:Hx; apply wps_lift; try done.
  - intros a [= <-]. wstep. apply HQ. by eapply lookup_lt_Some.
  - by intros e [= <-].
Qed.
Lemma wps_in_threads f s w (Q : unit → S → Prop) : f (thread_manager s) = Ok w → Q tt (set_thread_manager w s) → wps E (in_threads f) s Q.
Proof. intros Hf HQ. unfold in_threads. wstep. wstep. wstep. by apply (wps_lift_ok _ _ w). Qed.
Lemma wps_change_threads f s (Q : unit → S → Prop) : Q tt (set_thread_manager (f (thread_manager s)) s) → wps E (change_threads f) s Q.
Proof. by apply wps_in_threads. Qed.

Lemma find_free_spec affinity running cs :
  match find_free affinity running cs with
  | Ok (Some c) => c ∈ cs ∧ running !! c = Some None ∧ affinity !! c = Some true
  | Ok None => ∀ c, c ∈ cs → affinity !! c = Some true → running !! c ≠ Some None
  | Err e => e = OutOfRange
  end.
Proof.
  induction cs as [|c cs IH]; cbn; [set_solver|]. unfold arr_get.
  destruct (affinity !! c) as [[|]|] eqn:Ha; cbn; [|destruct (find_free _ _ cs) as [[]|]; [set_solver | | done] | done].
  2:{ intros d [->|Hd]%elem_of_cons; [congruence | auto]. }
  destruct (running !! c) as [r|] eqn:Hr; cbn; [|done]. case_bool_decide as Hn; [subst; set_solver|].
  destruct (find_free _ _ cs) as [[]|]; [set_solver | | done]. intros d [->|Hd]%elem_of_cons; [congruence | auto].
Qed.
Lemma wps_findFreeCore x s (Q : option nat → S → Prop) :
  Q None s → (∀ c, m_core_thread_running s !! c = Some None → Q (Some c) s) → wps E (findFreeCoreForThread cores x) s Q.
Proof.
  intros H0 H1. unfold findFreeCoreForThread. wstep. apply wps_info_of. intros i _. wstep. wstep.
  pose proof (find_free_spec (m_core_affinity i) (m_core_thread_running s) (seq 0 cores)) as Hf.
  apply wps_lift; intros a Ha; rewrite Ha in Hf; [destruct a as [c|]; [apply H1; tauto | done] | by subst].
Qed.

(** Who is chosen for a core runs nowhere, or there already. *)
Lemma best_loop_spec infos runnable time c xs new m :
  (∀ x, new = Some x → runnable !! x = Some true ∧ ∃ i, infos !! x = Some i ∧ (m_core_running i = None ∨ m_core_running i = Some c)) →
  match best_loop infos runnable time c xs new m with
  | Ok (Some x) => runnable !! x = Some true ∧ ∃ i, infos !! x = Some i ∧ (m_core_running i = None ∨ m_core_running i = Some c)
  | Ok None => True
  | Err e => e = OutOfRange
  end.
Proof.
  revert new m. induction xs as [|x xs IH]; intros new m Hnew; cbn.
  { destruct new; [by apply Hnew | done]. }
  unfold arr_get. destruct (infos !! x) as [i|] eqn:Hi; cbn; [|done].
  destruct (m_core_affinity i !! c) as [[|]|]; cbn; [|by apply IH | done].
  destruct (runnable !! x) as [b|] eqn:Hb; cbn; [|done].
  destruct (b && _ && _) eqn:Hc; apply IH; [|done]. intros y [= <-].
  apply andb_true_iff in Hc as [[-> Hc]%andb_true_iff _]. split; [done|]. exists i. split; [done|].
  unfold isRunning in Hc. destruct (m_core_running i); [|by left]. cbn in Hc. right. by apply bool_decide_eq_true in Hc.
Qed.
Lemma wps_best time c s (Q : option nat → S → Prop) :
  Q None s → (∀ x, m_threads_runnable s !! x = Some true → is_Some (m_thread_info s !! x) → run s x = None ∨ run s x = Some c → Q (Some x) s) →
  wps E (best time c) s Q.
Proof.
  intros H0 H1. unfold best. wstep. wstep. wstep. wstep.
  pose proof (best_loop_spec (m_thread_info s) (m_threads_runnable s) time c (seq 0 (length (m_threads_runnable s))) None (- 2 ^ 63) ltac:(done)) as Hb.
  apply wps_lift; intros a Ha; rewrite Ha in Hb; [|by subst]. destruct a as [x|]; [|done].
  destruct Hb as (Hr & i & Hi & Hc). apply H1; [done | eauto |]. unfold run. by rewrite Hi.
Qed.
End rules.

(** ** One thread instead of another *)
Lemma free_insert (l : list (option nat)) c r r' : l !! c = Some r →
  (length (filter (λ r : option nat, r = None) (<[c := r']> l)) + (if decide (r = None) then 1 else 0) =
   length (filter (λ r : option nat, r = None) l) + (if decide (r' = None) then 1 else 0))%nat.
Proof.
  revert c. induction l as [|a l IH]; intros [|c]; try done.
  - intros [= ->]. change (<[0%nat := r']> (r :: l)) with (r' :: l). rewrite !filter_cons. repeat case_decide; cbn; lia.
  - intros Hc. specialize (IH c Hc). change (<[Datatypes.S c := r']> (a :: l)) with (a :: <[c := r']> l).
    rewrite !filter_cons. repeat case_decide; cbn; lia.
Qed.

Lemma ok_switch pend c cur new s s' : ok pend s → slot s c = cur → (c < cores)%nat →
  (∀ x, new = Some x → run s x = None ∧ tid x < ThreadManager.m_threads (thread_manager s)) →
  (∀ z, run s' z = if decide (new = Some z) then Some c else if decide (cur = Some z) then None else run s z) →
  (∀ d, slot s' d = if decide (d = c) then new else slot s d) → length (m_core_thread_running s') = cores →
  (∀ z, ThreadManager.m_core (thread_manager s') z = if decide (0 ≤ z ∧ cur = Some (Z.to_nat z)) then None else ThreadManager.m_core (thread_manager s) z) →
  cores_ok (thread_manager s') → ThreadManager.m_threads (thread_manager s') = ThreadManager.m_threads (thread_manager s) →
  m_threads_runnable s' = m_threads_runnable s →
  ok (option_list new ++ filter (λ z, cur ≠ Some z) pend) s'.
Proof.
  intros Hok Hcur Hc Hnew' Hrun Hslot Hlen Hmc Hcores Hnum Hrb. pose proof (ok_match _ _ Hok) as Hm.
  assert (Hnew : ∀ x, new = Some x → run s x = None) by (intros x Hx; apply (Hnew' x Hx)). split; [| | done | done | | |].
  - intros z d. rewrite Hrun, Hslot. case_decide as H1; [|case_decide as H2]; case_decide as H3; subst.
    + naive_solver.
    + split; [congruence|]. intros Hd. apply Hm in Hd. rewrite Hnew in Hd; done.
    + naive_solver.
    + split; [done|]. intros Hd. apply Hm in Hd, H2. congruence.
    + rewrite Hm. split; [|naive_solver]. intros Hd. congruence.
    + apply Hm.
  - intros z. rewrite Hmc, Hrun, (ok_threads _ _ Hok). destruct (decide (0 ≤ z)) as [Hz|Hz]; [|by repeat case_decide; naive_solver].
    generalize (Z.to_nat z) as y. intros y. destruct (decide (cur = Some y)) as [->|Hy].
    + rewrite decide_True by done. rewrite (decide_False (P := new = Some y)).
      * by destruct (decide _).
      * intros ->. apply Hm in Hcur. rewrite Hnew in Hcur; done.
    + rewrite (decide_False (P := 0 ≤ z ∧ cur = Some y)) by naive_solver. destruct (decide (new = Some y)) as [->|Hn].
      * rewrite Hnew by done. cbn. destruct (decide (0 ≤ z ∧ y ∉ y :: _)) as [[_ Hy']|_]; [destruct Hy'; left|].
        by destruct (decide _).
      * apply decide_ext. rewrite elem_of_app, list_elem_of_filter.
        destruct new as [x|]; cbn; [rewrite list_elem_of_singleton | rewrite elem_of_nil]; naive_solver.
  - intros x. rewrite elem_of_app, list_elem_of_filter, Hrun. intros [Hx|[Hx1 Hx2]].
    + destruct new as [y|]; cbn in Hx; [apply list_elem_of_singleton in Hx as ->; by rewrite decide_True | by apply elem_of_nil in Hx].
    + case_decide; [done|]. rewrite decide_False by done. by apply (ok_pend _ _ Hok).
  - intros x. rewrite Hrun, Hnum, Hrb. case_decide as H1; [intros _; by apply Hnew'|].
    case_decide as H2; [intros _ | by apply (ok_known _ _ Hok)]. apply (ok_known _ _ Hok). left. by rewrite (proj2 (Hm x c)) by congruence.
  - rewrite Hnum. apply Hok.
Qed.

Definition grows s s' : Prop := ∀ x c, run s x = Some c → run s' x = Some c.

(** A thread that is being moved gets its core. *)
Lemma enter_ok x c pend s : ok (x :: pend) s → x ∉ pend → run s x = Some c →
  ∃ w, ThreadManager.setCore (tid x) (Some (tid c)) (thread_manager s) = Ok w ∧ ok pend (set_thread_manager w s).
Proof.
  intros Hok Hx Hrun. pose proof (ok_match _ _ Hok) as Hm.
  destruct (setCore_spec (tid x) (Some (tid c)) (thread_manager s)) as (w & Ew & Hw1 & Hw2 & Hw3 & _); [apply Hok | |].
  { intros c' z [= <-] Hz. apply (ok_cores _ _ Hok) in Hz. rewrite (ok_threads _ _ Hok) in Hz. case_decide as Hd; [|done].
    destruct Hd as [Hz0 Hz1]. destruct (run s (Z.to_nat z)) as [d|] eqn:Hd; [|done]. cbn in Hz. injection Hz as Hz. apply tid_inj in Hz. subst d.
    apply Hm in Hd, Hrun. rewrite Hd in Hrun. injection Hrun as <-. set_solver. }
  exists w. split; [done|]. split; cbn; rewrite ?Hw3; try apply Hok; [| done | intros y Hy; apply (ok_pend _ _ Hok); set_solver].
  intros z. rewrite Hw2. change (run (set_thread_manager w s)) with (run s). destruct (decide (z = tid x)) as [->|Hz].
  - rewrite fn_lookup_insert. assert (Z.to_nat (tid x) = x) as -> by (unfold tid; lia).
    rewrite decide_True by (split; [unfold tid; lia | done]). by rewrite Hrun.
  - rewrite fn_lookup_insert_ne, (ok_threads _ _ Hok) by done. apply decide_ext.
    assert (0 ≤ z → Z.to_nat z ≠ x) by (intros; unfold tid in Hz; lia). set_solver.
Qed.
Lemma ok_core_state pend d st s : ok pend s → ok pend (set_thread_manager (ThreadManager.set_core_state d st (thread_manager s)) s).
Proof. intros Hok. by apply (ok_ext _ s); auto. Qed.

Section moves.
Context (E : failure → Prop) (HE : E OutOfRange).

Lemma wps_unschedule time c y s (Q : unit → S → Prop) : cores_ok (thread_manager s) →
  (∀ s1, (∀ z, run s1 z = if decide (z = y) then None else run s z) → m_core_thread_running s1 = m_core_thread_running s →
     m_threads_runnable s1 = m_threads_runnable s → ThreadManager.m_threads (thread_manager s1) = ThreadManager.m_threads (thread_manager s) →
     ThreadManager.m_core (thread_manager s1) = <[tid y := None]> (ThreadManager.m_core (thread_manager s)) → cores_ok (thread_manager s1) → Q tt s1) →
  wps E (unschedule time c y) s Q.
Proof.
  intros Hcores HQ. unfold unschedule. wstep. apply wps_upd_info; [done|]. intros i Hi. wstep. apply wps_upd_info; [done|].
  intros j Hj. apply lookup_lt_Some in Hi as Hlt. cbn in Hj. rewrite list_lookup_insert_eq in Hj by done. injection Hj as <-.
  unfold ThreadManager.moveThread.
  destruct (setCore_spec (tid y) None (ThreadManager.leave_core (tid y) (thread_manager s))) as (w & Ew & Hw1 & Hw2 & Hw3 & _).
  { unfold ThreadManager.leave_core. by destruct (ThreadManager.m_core (thread_manager s) (tid y)). }
  { done. }
  eapply wps_in_threads; [exact Ew|]. apply HQ; cbn; [| done | done | | | done].
  - intros z. unfold run. cbn. rewrite list_insert_insert_eq. case_decide as Hz.
    + subst. by rewrite list_lookup_insert_eq.
    + by rewrite list_lookup_insert_ne.
  - rewrite Hw3. unfold ThreadManager.leave_core. by destruct (ThreadManager.m_core (thread_manager s) (tid y)).
  - rewrite Hw2. unfold ThreadManager.leave_core. by destruct (ThreadManager.m_core (thread_manager s) (tid y)).
Qed.

Lemma wps_move_to resumed x c time pend s : (c < cores)%nat → ok (x :: pend) s → x ∉ pend → run s x = Some c →
  (∀ s1, ok (x :: pend) s1 → m_core_thread_running s1 = m_core_thread_running s →
     wps E (resumed x time) s1 (λ _ s', ok (x :: pend) s' ∧ grows s1 s')) →
  wps E (move_to resumed x c time) s (λ _ s', ok pend s' ∧ grows s s').
Proof.
  intros Hc Hok Hx Hrun Hres. unfold move_to. wstep. apply wps_change_threads.
  set (w := ThreadManager.leave_core (tid x) (thread_manager s)).
  assert (ok (x :: pend) (set_thread_manager w s)) as Hok1.
  { apply (ok_ext _ s); try done; auto; cbn; unfold w, ThreadManager.leave_core; by destruct (ThreadManager.m_core (thread_manager s) (tid x)). }
  wstep. wstep. wstep.
  assert (Henter : ∀ s1, ok (x :: pend) s1 → grows s s1 →
    wps E (in_threads (ThreadManager.enter_core (tid x) (tid c))) s1 (λ _ s', ok pend s' ∧ grows s s')).
  { clear Hok1 w. intros s1 Hok1 Hg. destruct (enter_ok x c pend s1) as (w & Ew & Hw); [done | done | by apply Hg |].
    eapply wps_in_threads; [unfold ThreadManager.enter_core; rewrite Ew; done|]. split; [|done].
    case_bool_decide; [done|]. apply (ok_core_state _ (tid c) RUNNING) in Hw. exact Hw. }
  apply wps_when; intros _; [|by apply Henter; [|intros ? ?]].
  wstep. apply wps_change_threads. eapply wps_mono; [apply Hres; [apply (ok_ext _ (set_thread_manager w s)); auto | done]|].
  intros _ s1 [Hok2 Hg]. by apply Henter.
Qed.

Context (m_quantum : Z).

(** What a round of [reschedule] does: nothing, because the thread that runs starts up or is the
    best; or that thread leaves, and other threads stay where they are. *)
Definition stays s (y : nat) : Prop := m_threads_runnable s !! y = Some true ∨ ThreadManager.status (thread_manager s) (tid y) = INITIALIZING.
Definition left_core pend s c s' : Prop :=
  ok (filter (λ z, slot s c ≠ Some z) pend) s' ∧ ∀ x d, run s x = Some d → slot s c ≠ Some x → run s' x = Some d.
Definition round pend s c s' : Prop :=
  (ok pend s' ∧ grows s s' ∧ ∀ y, slot s c = Some y → stays s y) ∨ left_core pend s c s'.

Lemma wps_schedule time c x s (Q : unit → S → Prop) : run s x = None →
  (∀ s1, (∀ z, run s1 z = if decide (z = x) then Some c else run s z) → m_core_thread_running s1 = m_core_thread_running s →
     thread_manager s1 = thread_manager s → m_threads_runnable s1 = m_threads_runnable s → Q tt s1) → wps E (schedule time c x) s Q.
Proof.
  intros Hx HQ. unfold schedule. wstep. apply wps_info_of; [done|]. intros i Hi.
  assert (m_core_running i = None) as -> by (unfold run in Hx; by rewrite Hi in Hx). wstep. wstep. wstep.
  apply wps_upd_info; [done|]. intros j Hj. apply wps_upd_info; [done|]. intros k Hk.
  apply lookup_lt_Some in Hi as Hlt. cbn in Hk. rewrite list_lookup_insert_eq in Hk by done. injection Hk as <-.
  apply HQ; [|done..]. intros z. unfold run. cbn. rewrite list_insert_insert_eq. case_decide as Hz.
  - subst. by rewrite list_lookup_insert_eq.
  - by rewrite list_lookup_insert_ne.
Qed.

Definition fills (again : Z → nat → M S unit) (n : nat) : Prop := ∀ pend s time c,
  ok pend s → slot s c = None → (free s < n)%nat → wps E (again time c) s (λ _ s', ok pend s' ∧ grows s s').

Lemma wps_switch again n time c cur new pend s : fills again n →
  ok pend s → slot s c = cur → (c < cores)%nat → (∀ x, new = Some x → run s x = None ∧ tid x < ThreadManager.m_threads (thread_manager s)) →
  (free s < n + (if decide (cur = None) then 1 else 0))%nat →
  wps E (switch cores again time c cur new) s (λ _ s', left_core pend s c s').
Proof.
  intros IH Hok Hcur Hc Hnew Hfree. unfold switch. wstep.
  assert (Hleave : wps E (match cur with Some y => unschedule time c y | None => mret tt end) s (λ _ s1,
    (∀ z, run s1 z = if decide (cur = Some z) then None else run s z) ∧ m_core_thread_running s1 = m_core_thread_running s ∧
    (∀ z, ThreadManager.m_core (thread_manager s1) z = if decide (0 ≤ z ∧ cur = Some (Z.to_nat z)) then None else ThreadManager.m_core (thread_manager s) z) ∧
    cores_ok (thread_manager s1) ∧ ThreadManager.m_threads (thread_manager s1) = ThreadManager.m_threads (thread_manager s) ∧
    m_threads_runnable s1 = m_threads_runnable s)).
  { destruct cur as [y|].
    - apply wps_unschedule; [apply Hok|]. intros s1 H1 H2 H5 H6 H3 H4. split_and!; [| done | | done | done | done].
      + intros z. rewrite H1. apply decide_ext. naive_solver.
      + intros z. rewrite H3. destruct (decide (z = tid y)) as [->|Hz].
        * rewrite fn_lookup_insert, decide_True; [done|]. unfold tid. split; [lia | by rewrite Nat2Z.id].
        * rewrite fn_lookup_insert_ne, decide_False; [done | | done]. intros [Hz0 [= ->]]. unfold tid in Hz. lia.
    - wstep. split_and!; [done | done | | apply Hok | done | done]. intros z. by rewrite decide_False by naive_solver. }
  eapply wps_mono; [exact Hleave|]. clear Hleave. intros _ s1 (Hrun1 & Hl1 & Hmc1 & Hc1 & Hn1 & Hrb1). wstep. apply wps_put_running; [done|].
  intros Hlt. rewrite Hl1, (ok_length _ _ Hok) in Hlt.
  set (s2 := set_running _ s1). assert (Hslot2 : ∀ d, slot s2 d = if decide (d = c) then new else slot s d).
  { intros d. unfold s2. rewrite slot_set_running by (rewrite Hl1, (ok_length _ _ Hok); done). unfold slot. by rewrite Hl1. }
  assert (Hlen2 : length (m_core_thread_running s2) = cores) by (unfold s2; cbn; rewrite length_insert, Hl1; apply Hok).
  destruct new as [x|].
  - destruct (Hnew x eq_refl) as [Hx0 Hxn]. wstep. apply wps_schedule.
    { change (run s2 x) with (run s1 x). rewrite Hrun1, Hx0. by destruct (decide (cur = Some x)). }
    intros s3 Hrun3 Hl3 Ht3 Hrb3. assert (Hok3 : ok (x :: filter (λ z, cur ≠ Some z) pend) s3).
    { apply (ok_switch pend c cur (Some x) s); try done.
      - intros z. rewrite Hrun3. change (run s2 z) with (run s1 z). rewrite Hrun1.
        destruct (decide (z = x)) as [->|Hz]; [by rewrite decide_True | by rewrite (decide_False (P := Some x = Some z)) by congruence].
      - intros d. unfold slot at 1. rewrite Hl3. apply Hslot2.
      - by rewrite Hl3.
      - intros z. rewrite Ht3. apply Hmc1.
      - by rewrite Ht3.
      - by rewrite Ht3.
      - by rewrite Hrb3. }
    eapply wps_mono; [apply (wps_move_to _ x c time (filter (λ z, cur ≠ Some z) pend) s3 Hc Hok3)|].
    + rewrite list_elem_of_filter. intros [_ Hx]. by apply (ok_pend _ _ Hok) in Hx.
    + by rewrite Hrun3, decide_True.
    + intros s4 Hok4 Hl4. wstep. apply wps_put_runnable; [done|]. intros _. wstep.
      assert (ok (x :: filter (λ z, cur ≠ Some z) pend) (set_runnable (<[x := true]> (m_threads_runnable s4)) s4)) as Hok5.
      { apply ok_put_runnable; [done|]. intros _. apply (ok_known _ _ Hok4). left. apply (ok_pend _ _ Hok4). left. }
      apply wps_findFreeCore; [done | |].
      * wstep. split; [done | by intros ? ?].
      * intros d Hd. eapply wps_mono; [apply IH|].
        -- exact Hok5.
        -- unfold slot. by rewrite Hd.
        -- unfold free. cbn. rewrite Hl4, Hl3. unfold s2. cbn. rewrite Hl1. unfold slot in Hcur.
           destruct (m_core_thread_running s !! c) as [r|] eqn:Hr; [|apply lookup_ge_None in Hr; rewrite (ok_length _ _ Hok) in Hr; lia].
           cbn in Hcur. unfold id in Hcur. subst cur. pose proof (free_insert _ _ _ (Some x) Hr) as Hf.
           rewrite (decide_False (P := Some x = None)) in Hf by done. unfold free in Hfree. lia.
        -- by intros _ s' [? Hg].
    + cbn. intros _ s4 [Hok4 Hg]. unfold left_core. rewrite Hcur. split; [done|]. intros y d Hy Hne. apply Hg. rewrite Hrun3.
      rewrite decide_False by congruence. change (run s2 y) with (run s1 y). by rewrite Hrun1, decide_False.
  - wstep. unfold left_core. rewrite Hcur. split.
    + apply (ok_switch pend c cur None s); try done.
    + intros y d Hy Hne. change (run s2 y) with (run s1 y). by rewrite Hrun1, decide_False.
Qed.

Lemma wps_round n time c pend s : fills (reschedule cores m_quantum n) n →
  ok pend s → (free s < n + (if decide (slot s c = None) then 1 else 0))%nat →
  wps E (reschedule cores m_quantum (Datatypes.S n) time c) s (λ _ s', round pend s c s').
Proof.
  intros IH Hok Hfree. pose proof (ok_match _ _ Hok) as Hm. cbn [reschedule]. wstep. apply wps_running_on; [done|]. intros cur Hcur.
  assert (Hslot : slot s c = cur) by (unfold slot; by rewrite Hcur). assert (Hc : (c < cores)%nat).
  { rewrite <- (ok_length _ _ Hok). by eapply lookup_lt_Some. }
  assert (Hquantum : ∀ s', round pend s c s' → wps E (put_quantum c m_quantum) s' (λ _ s', round pend s c s')).
  { intros s' Hs'. apply wps_put_quantum; [done|]. intros l. destruct Hs' as [(H1 & H2 & H3)|[H1 H2]]; [left | right].
    - split_and!; [apply (ok_ext _ s'); auto | done | done].
    - split; [apply (ok_ext _ s'); auto | done]. }
  wstep. assert (Hinit : wps E (is_initializing cur) s (λ b s', s' = s ∧ (b = true → ∀ y, cur = Some y → stays s y))).
  { unfold is_initializing. destruct cur as [y|]; [wstep; wstep; wstep | by wstep]. split; [done|]. intros Hb z [= <-]. right.
    by apply bool_decide_eq_true in Hb. }
  eapply wps_mono; [exact Hinit|]. intros b s' [-> Hb]. destruct b.
  { wstep. left. split_and!; [done | by intros ? ? | by rewrite Hslot; auto]. }
  clear Hb Hinit. wstep. assert (Hgo : ∀ new, (∀ x, new = Some x → cur ≠ Some x → run s x = None) → (∀ x, new = Some x → m_threads_runnable s !! x = Some true) →
    wps E (when (bool_decide (cur ≠ new)) (switch cores (reschedule cores m_quantum n) time c cur new);; put_quantum c m_quantum) s (λ _ s', round pend s c s')).
  { intros new Hnew Hrb. wstep. wstep.
    - apply bool_decide_eq_true in H0. eapply wps_mono; [apply (wps_switch _ n _ _ _ _ pend); try done|].
      + intros x ->. split; [by apply Hnew|]. apply (ok_known _ _ Hok). right. by apply Hrb.
      + by rewrite Hslot in Hfree.
      + cbn. intros _ s' Hs'. apply Hquantum. by right.
    - apply bool_decide_eq_false, dec_stable in H0. subst new. apply Hquantum. left. split_and!; [done | by intros ? ? |].
      intros y Hy. left. apply Hrb. congruence. }
  apply wps_best; [done | by apply Hgo |]. intros x Hx _ Hrun. apply Hgo; [|by intros ? [= <-]].
  intros y [= <-] Hne. destruct Hrun as [|Hrun]; [done|]. apply Hm in Hrun. congruence.
Qed.

Lemma reschedule_fills n : fills (reschedule cores m_quantum n) n.
Proof.
  induction n as [|n IH]; intros pend s time c Hok Hslot Hfree; [lia|].
  eapply wps_mono; [apply (wps_round n time c pend s IH Hok); rewrite decide_True; [lia | done]|].
  intros _ s' [(H1 & H2 & _)|[H1 H2]]; [done|]. split; [|intros x d Hx; apply H2; [done | congruence]].
  assert (filter (λ z, slot s c ≠ Some z) pend = pend) as Hf; [|by rewrite Hf in H1].
  clear -Hslot. induction pend as [|z l IH]; [done|]. rewrite filter_cons, decide_True; [by f_equal | congruence].
Qed.
End moves.

(** ** What moves keep of the thread manager

    That a thread has started, and the number of threads. *)
Section started.
Context (m_quantum : Z) (T : ThreadManager.t → Prop).
Context (T_setCore : ∀ y c w w', ThreadManager.setCore y c w = Ok w' → T w → T w').
Context (T_resume : ∀ y time msg w, T w → T (ThreadManager.resumeThread y time msg w)).
Context (T_core_state : ∀ c st w, T w → T (ThreadManager.set_core_state c st w)).
Definition started s : Prop := T (thread_manager s).
Definition keeps_started {A} (m : M S A) : Prop := ∀ s, started s → wps anything m s (λ _ s', started s').

Lemma started_bind {A B} (m : M S A) (f : A → M S B) : keeps_started m → (∀ a, keeps_started (f a)) → keeps_started (m ≫= f).
Proof. intros Hm Hf s Hs. wstep. eapply wps_mono; [by apply Hm|]. intros a s'. apply Hf. Qed.
Lemma started_lift {A} (r : result A) : keeps_started (lift r).
Proof. intros s Hs. by apply wps_lift. Qed.
Lemma started_gets {A} (f : S → A) : keeps_started (gets f).
Proof. by intros s Hs. Qed.
Lemma started_ret {A} (a : A) : keeps_started (mret a).
Proof. by intros s Hs. Qed.
Lemma started_when b m : keeps_started m → keeps_started (when b m).
Proof. intros Hm s Hs. destruct b; [by apply Hm | done]. Qed.
Lemma started_modify (f : S → S) : (∀ s, thread_manager (f s) = thread_manager s) → keeps_started (modify f).
Proof. intros Hf s Hs. apply wps_modify. unfold started. by rewrite Hf. Qed.
Lemma started_threads f : (∀ w w', f w = Ok w' → T w → T w') → keeps_started (in_threads f).
Proof. intros Hf s Hs. unfold in_threads. wstep. wstep. wstep. apply wps_lift; [|done]. intros w Hw. wstep. by eapply Hf. Qed.
Lemma T_leave y w : T w → T (ThreadManager.leave_core y w).
Proof. unfold ThreadManager.leave_core. case_match; auto. Qed.

Ltac keep := lazymatch goal with
  | |- keeps_started (in_threads _) => apply started_threads
  | |- keeps_started (mbind _ _) => apply started_bind; [keep | intros ?; keep]
  | |- keeps_started (lift _) => apply started_lift
  | |- keeps_started (gets _) => apply started_gets
  | |- keeps_started (mret _) => apply started_ret
  | |- keeps_started (when _ _) => apply started_when; keep
  | |- keeps_started (modify _) => apply started_modify; intros []; reflexivity
  | |- keeps_started (match ?x with _ => _ end) => destruct x; keep
  | |- keeps_started (if ?x then _ else _) => destruct x; keep
  | |- keeps_started _ => tryif progress unfold info_of, put_info, upd_info, running_on, put_running, put_quantum, put_runnable,
      change_threads, findFreeCoreForThread, best, is_initializing, schedule, unschedule, move_to then keep else idtac
  | _ => idtac
  end.
Lemma switch_started again time c cur new : (∀ time d, keeps_started (again time d)) → keeps_started (switch cores again time c cur new).
Proof.
  intros Hagain. unfold switch. destruct cur, new; keep; try apply Hagain.
  all: try (unfold ThreadManager.moveThread; intros w w' Hw Hs; by eapply T_setCore, T_leave).
  all: try (intros w w' [= <-]; first [apply T_leave | apply T_resume]).
  all: unfold ThreadManager.enter_core; intros w w' Hw Hs; destruct (ThreadManager.setCore _ _ w) as [w1|] eqn:E; cbn in Hw; [|done];
    injection Hw as <-; apply T_setCore in E; [|done]; case_bool_decide; auto.
Qed.
Lemma reschedule_started n time c : keeps_started (reschedule cores m_quantum n time c).
Proof.
  revert time c. induction n as [|n IH]; intros time c; cbn [reschedule]; [by intros s Hs|]. keep. by apply switch_started.
Qed.
Lemma resumeThread_started y time msg : keeps_started (resumeThread cores m_quantum y time msg).
Proof.
  unfold resumeThread, __threadResume, threadResume. keep; [|apply reschedule_started]. intros w w' [= <-]. apply T_resume.
Qed.
End started.

Lemma setCore_fields y c w w' : ThreadManager.setCore y c w = Ok w' →
  ThreadManager.status w' = ThreadManager.status w ∧ ThreadManager.m_threads w' = ThreadManager.m_threads w.
Proof.
  unfold ThreadManager.setCore. destruct c, (ThreadManager.m_core w y); cbn; try (by intros [= <-]); case_bool_decide; cbn; try done; by intros [= <-].
Qed.
Lemma resumeThread_keeps m_quantum n x y time msg s :
  ThreadManager.m_threads (thread_manager s) = n ∧ ThreadManager.status (thread_manager s) x ≠ INITIALIZING →
  wps anything (resumeThread cores m_quantum y time msg) s
    (λ _ s', ThreadManager.m_threads (thread_manager s') = n ∧ ThreadManager.status (thread_manager s') x ≠ INITIALIZING).
Proof.
  apply (resumeThread_started m_quantum (λ w, ThreadManager.m_threads w = n ∧ ThreadManager.status w x ≠ INITIALIZING)); [| | done].
  - intros z c w w' Hw. by destruct (setCore_fields _ _ _ _ Hw) as [-> ->].
  - intros z tm ms w [Hn Hw]. split; [done|]. cbn. destruct (decide (x = z)) as [->|]; [by rewrite fn_lookup_insert | by rewrite fn_lookup_insert_ne].
Qed.
Lemma wps_both {A} E (m : M S A) s Q R : wps E m s Q → wps anything m s R → wps E m s (λ a s, Q a s ∧ R a s).
Proof. unfold wps. destruct (m s) as [[a s']|]; auto. Qed.
End views.

(** ** Hooks and calls *)
Section calls.
Context {P : Type} `{LawfulAffinity P} (cores : nat) (m_quantum : Z).
Abbreviation S := (t P).
Abbreviation ok := (ok cores).
Abbreviation U := unless_broken.
Implicit Types s : S.

Lemma broken_range : U OutOfRange.
Proof. by split. Qed.
#[local] Hint Resolve broken_range : core.

Definition keeps {A} (m : M S A) : Prop := ∀ s, ok [] s → wps U m s (λ _ s', ok [] s').
Definition known s (x : nat) : Prop := tid x < ThreadManager.m_threads (thread_manager s).

Lemma free_le s pend : ok pend s → (free s ≤ cores)%nat.
Proof. intros Hok. unfold free. rewrite <- (ok_length _ _ _ Hok). apply length_filter. Qed.
Lemma round_nil s c s' : round cores [] s c s' → ok [] s'.
Proof. intros [[? _]|[Ho _]]; [done | exact Ho]. Qed.
Lemma reschedule_round pend time c s : ok pend s → wps U (reschedule cores m_quantum (FUEL cores) time c) s (λ _ s', round cores pend s c s').
Proof.
  intros Hok. apply wps_round; [done | apply reschedule_fills; done | done |].
  pose proof (free_le _ _ Hok). destruct (decide _); lia.
Qed.
Lemma reschedule_keeps time c : keeps (reschedule cores m_quantum (FUEL cores) time c).
Proof. intros s Hok. eapply wps_mono; [by apply (reschedule_round [])|]. cbn. intros _ s'. apply round_nil. Qed.
Lemma threadResume_keeps x time : keeps (threadResume cores m_quantum x time).
Proof.
  intros s Hok. unfold threadResume. wstep. apply wps_findFreeCore; [done | by wstep |]. intros c _. by apply reschedule_keeps.
Qed.
Lemma threadStall_keeps x time : keeps (threadStall cores m_quantum x time).
Proof.
  intros s Hok. unfold threadStall. wstep. apply wps_info_of; [done|]. intros i _.
  destruct (m_core_running i); [by apply reschedule_keeps | by wstep].
Qed.
(** A change of the thread manager that leaves threads on their cores. *)
Lemma change_keeps pend f s : ok pend s →
  ThreadManager.m_core (f (thread_manager s)) = ThreadManager.m_core (thread_manager s) →
  ThreadManager.core_thread (f (thread_manager s)) = ThreadManager.core_thread (thread_manager s) →
  ThreadManager.m_threads (f (thread_manager s)) = ThreadManager.m_threads (thread_manager s) →
  wps U (change_threads f) s (λ _ s', ok pend s' ∧ s' = set_thread_manager (f (thread_manager s)) s).
Proof. intros Hok H1 H2 H3. apply wps_change_threads. split; [|done]. apply (ok_ext _ _ s); auto. Qed.

Lemma resumeThread_keeps_ok x time msg s : ok [] s → known s x → wps U (resumeThread cores m_quantum x time msg) s (λ _ s', ok [] s').
Proof.
  intros Hok Hx. unfold resumeThread. wstep. eapply wps_mono; [by apply (change_keeps []) |]. intros _ s1 [Hok1 ->].
  unfold __threadResume. wstep. apply wps_put_runnable; [done|]. intros _. apply threadResume_keeps. by apply ok_put_runnable.
Qed.
Lemma stallThread_keeps x reason time : keeps (stallThread_async cores m_quantum x reason time).
Proof.
  intros s Hok. unfold stallThread_async. wstep. eapply wps_mono; [by apply (change_keeps []) |]. intros _ s1 [Hok1 _].
  unfold __threadStall. wstep; [|done]. wstep. apply wps_put_runnable; [done|]. intros _. apply threadStall_keeps. by apply ok_put_runnable.
Qed.
Lemma start_cores x time elapsed w : let w' := ThreadManager.onThreadStart x time elapsed w in
  ThreadManager.m_core w' = ThreadManager.m_core w ∧ ThreadManager.core_thread w' = ThreadManager.core_thread w ∧
  ThreadManager.m_threads w' = ThreadManager.m_threads w.
Proof.
  unfold ThreadManager.onThreadStart. cbv zeta. destruct (ThreadManager.m_core (ThreadManager.set_status x RUNNING w) x); cbn; by case_match.
Qed.
Lemma onThreadStart_keeps x time elapsed s : ok [] s → known s x → wps U (onThreadStart cores m_quantum x time elapsed) s (λ _ s', ok [] s').
Proof.
  intros Hok Hx. unfold onThreadStart. wstep. eapply wps_mono; [by apply (change_keeps []) |]. intros _ s1 [Hok1 ->]. wstep.
  assert (Hstart : keeps (change_threads (ThreadManager.onThreadStart (tid x) time elapsed))).
  { intros s2 Hok2. destruct (start_cores (tid x) time elapsed (thread_manager s2)) as (H1 & H2 & H3).
    eapply wps_mono; [by apply (change_keeps []) | by intros _ s3 [? _]]. }
  unfold __threadStart, threadStart. wstep. wstep. wstep.
  assert (Hput : ∀ s2, ok [] s2 → known s2 x → wps U (put_runnable x true;; threadResume cores m_quantum x time) s2
    (λ _ s3, wps U (change_threads (ThreadManager.onThreadStart (tid x) time elapsed)) s3 (λ _ s', ok [] s'))).
  { intros s2 Hok2 Hx2. wstep. apply wps_put_runnable; [done|]. intros _.
    eapply wps_mono; [by apply threadResume_keeps, ok_put_runnable|]. intros [] s3. apply Hstart. }
  wstep; [|by apply Hput]. wstep. apply Hput; [|done]. apply (ok_ext _ _ _ _ Hok1); try done. intros y.
  change (m_threads_runnable (set_runnable ?l ?s)) with l.
  rewrite lookup_app_Some. intros [?|[_ [? _]%lookup_replicate]]; [by left | done].
Qed.

(** While the hook of its exit is called, the thread manager has taken the thread off its core. *)
Lemma threadExit_spec x time s pend : (pend = [] ∨ pend = [x]) → ok pend s → started (λ w, ThreadManager.status w (tid x) ≠ INITIALIZING) s →
  wps U (__threadExit cores m_quantum x time) s (λ _ s', ok [] s').
Proof.
  intros Hpend Hok Hst. unfold __threadExit, threadExit, threadStall. wstep. apply wps_put_runnable; [done|]. intros Hlt.
  pose proof (ok_put_runnable cores pend s x false Hok ltac:(done)) as Hok1. set (s1 := set_runnable _ s) in *.
  wstep. apply wps_info_of; [done|]. intros i Hi. assert (Hrun : run s1 x = m_core_running i) by (unfold run; by rewrite Hi).
  destruct (m_core_running i) as [c|] eqn:Hc.
  - eapply wps_mono; [by apply (reschedule_round pend)|]. cbn. intros _ s' [(_ & _ & Hstay)|[Hok' _]].
    + pose proof Hrun as Hslot. apply (ok_match _ _ _ Hok1) in Hslot. destruct (Hstay x Hslot) as [Hr|Hr]; [|done].
      unfold s1 in Hr. cbn in Hr. by rewrite list_lookup_insert_eq in Hr by done.
    + destruct Hpend as [->| ->]; [exact Hok'|]. rewrite filter_cons, decide_False in Hok'; [exact Hok'|].
      intros Hne. apply Hne. by apply (ok_match _ _ _ Hok1).
  - wstep. destruct Hpend as [->| ->]; [done|]. destruct (ok_pend _ _ _ Hok1 x); [left | done].
Qed.
Lemma setCore_None_ok x s : ok [] s → ∃ w, ThreadManager.setCore (tid x) None (thread_manager s) = Ok w ∧
  ThreadManager.status w = ThreadManager.status (thread_manager s) ∧
  ∃ pend, (pend = [] ∨ pend = [x]) ∧ ok pend (set_thread_manager w s).
Proof.
  intros Hok. destruct (setCore_spec (tid x) None (thread_manager s)) as (w & Ew & Hw1 & Hw2 & Hw3 & Hw4); [apply Hok | done |].
  exists w. split; [done|]. split; [done|]. assert (Hz : ∀ z, 0 ≤ z → z ≠ tid x → Z.to_nat z ≠ x) by (unfold tid; lia).
  assert (Htx : Z.to_nat (tid x) = x) by (unfold tid; lia).
  exists (if decide (run s x = None) then [] else [x]). split; [case_decide; auto|]. split; cbn; try apply Hok; try done; rewrite ?Hw3; try apply Hok.
  - intros z. rewrite Hw2. change (run (set_thread_manager w s)) with (run s). destruct (decide (z = tid x)) as [->|Hne].
    + rewrite fn_lookup_insert, Htx. destruct (decide (run s x = None)) as [->|]; [by case_decide|]. rewrite decide_False; [done|].
      intros [_ Hx]. apply Hx. left.
    + rewrite fn_lookup_insert_ne, (ok_threads _ _ _ Hok) by done. apply decide_ext.
      destruct (decide (run s x = None)); set_solver.
  - change (run (set_thread_manager w s)) with (run s). intros y. destruct (decide (run s x = None)); set_solver.
Qed.

(** Threads that are woken up one after the other, while the status of another stays. *)
Definition exiting n x s : Prop := ok [] s ∧ ThreadManager.m_threads (thread_manager s) = n ∧ ThreadManager.status (thread_manager s) (tid x) ≠ INITIALIZING.
Lemma resume_exiting n x y time msg s : exiting n x s → tid y < n → wps U (resumeThread cores m_quantum y time msg) s (λ _ s', exiting n x s').
Proof.
  intros (Hok & Hn & Hx) Hy. eapply wps_mono; [apply wps_both; [apply resumeThread_keeps_ok; [done | unfold known; lia] | by apply (resumeThread_keeps cores m_quantum n (tid x))]|].
  cbn. by intros _ s' [? [? ?]].
Qed.
Lemma change_exiting n x f s : exiting n x s →
  ThreadManager.m_core (f (thread_manager s)) = ThreadManager.m_core (thread_manager s) →
  ThreadManager.core_thread (f (thread_manager s)) = ThreadManager.core_thread (thread_manager s) →
  ThreadManager.m_threads (f (thread_manager s)) = ThreadManager.m_threads (thread_manager s) →
  ThreadManager.status (f (thread_manager s)) (tid x) ≠ INITIALIZING → wps U (change_threads f) s (λ _ s', exiting n x s').
Proof.
  intros (Hok & Hn & Hx) H1 H2 H3 H4. eapply wps_mono; [by apply (change_keeps [])|]. cbn. intros _ s' [? ->].
  split_and!; [done | cbn; congruence | done].
Qed.

(** [waiter]: the thread that joins the one that exits. *)
Lemma onThreadExit_keeps x elapsed woken s : ok [] s → Forall (known s) woken →
  ThreadManager.m_core (thread_manager s) (tid x) ≠ None → ThreadManager.status (thread_manager s) (tid x) = RUNNING →
  (let v := ThreadManager.waiter (thread_manager s) (tid x) in v = INVALID_THREAD_ID ∨ 0 ≤ v < ThreadManager.m_threads (thread_manager s)) →
  wps U (onThreadExit cores m_quantum x elapsed woken) s (λ _ s', ok [] s').
Proof.
  intros Hok Hwoken Hcore Hst Hv. unfold onThreadExit. wstep. wstep. destruct (ThreadManager.m_core _ _) as [c|]; [|done].
  wstep. wstep; [|unfold ThreadManager.isThreadRunning in *; by rewrite Hst in *]. wstep. apply wps_change_threads.
  set (n := ThreadManager.m_threads (thread_manager s)). set (s1 := set_thread_manager _ s). assert (Hs1 : exiting n x s1).
  { split_and!; [by apply (ok_ext _ _ s); auto | done |]. cbn. by rewrite fn_lookup_insert. }
  wstep. wstep. wstep. change (ThreadManager.waiter (thread_manager s1) (tid x)) with (ThreadManager.waiter (thread_manager s) (tid x)).
  set (v := ThreadManager.waiter (thread_manager s) (tid x)) in *. apply (wps_mono _ _ _ (λ _ s', exiting n x s')).
  { apply wps_when; [|done]. intros Hne. wstep. eapply wps_mono; [apply (resume_exiting n x); [done|]|].
    - destruct Hv as [Hv|Hv]; [by rewrite Hv in Hne | unfold tid, n; lia].
    - cbn. intros _ s2 Hs2. apply change_exiting; try done. apply Hs2. }
  intros _ s2 Hs2. wstep. eapply wps_mono; [apply (wps_fold _ _ (λ l _ s', exiting n x s' ∧ Forall (λ y, tid y < n) l)); [done|]|].
  { intros y l _ s3 [Hs3 Hl]. inversion Hl; subst. eapply wps_mono; [by apply (resume_exiting n x)|]. cbn. by intros _ s4 ?. }
  cbn. intros _ s3 [Hs3 _]. wstep. eapply wps_mono; [apply (change_exiting n x); [done..|apply Hs3]|].
  cbn. intros _ s4 (Hok4 & _ & Hs4). wstep. destruct (setCore_None_ok x s4 Hok4) as (w & Ew & Hw & pend & Hpend & Hok5).
  eapply wps_in_threads; [done|]. apply (threadExit_spec _ _ _ pend); [done | done |]. unfold started. cbn. by rewrite Hw.
Qed.

(** Changes of what is not in the views. *)
Lemma put_quantum_keeps c q : keeps (put_quantum c q).
Proof. intros s Hok. apply wps_put_quantum; [done|]. intros l. apply (ok_ext _ _ s); auto. Qed.
Lemma set_info_keeps pend l s : ok pend s → (∀ y, l !! y ≫= m_core_running = run s y) → ok pend (set_info l s).
Proof. intros Hok Hl. apply (ok_ext _ _ s); auto. Qed.
Lemma put_info_keeps x i s : ok [] s → m_core_running i = run s x → wps U (put_info x i) s (λ _ s', ok [] s').
Proof.
  intros Hok Hi. apply wps_put_info; [done|]. intros Hlt. apply set_info_keeps; [done|]. intros y.
  pose proof (run_set_info s x i y Hlt) as Hy. unfold run at 1 in Hy. cbn in Hy. rewrite Hy. case_decide; congruence.
Qed.
Lemma upd_info_keeps x f : (∀ i, m_core_running (f i) = m_core_running i) → keeps (upd_info x f).
Proof.
  intros Hf s Hok. unfold upd_info. wstep. apply wps_info_of; [done|]. intros i Hi. apply put_info_keeps; [done|]. rewrite Hf. unfold run. by rewrite Hi.
Qed.
Lemma addAffinity_running c i j : addAffinity c i = Ok j → m_core_running j = m_core_running i.
Proof. unfold addAffinity. destruct (arr_set _ _ _); cbn; [|done]. by intros [= <-]. Qed.
Lemma addAffinity_fails c i e : addAffinity c i = Err e → e = OutOfRange.
Proof. unfold addAffinity, arr_set. case_match; cbn; congruence. Qed.
Lemma add_affinity_keeps x c : keeps (i ← info_of x; i ← lift (addAffinity c i); put_info x i).
Proof.
  intros s Hok. wstep. apply wps_info_of; [done|]. intros i Hi. wstep. apply wps_lift.
  - intros j Hj. apply put_info_keeps; [done|]. apply addAffinity_running in Hj as ->. unfold run. by rewrite Hi.
  - by intros e ->%addAffinity_fails.
Qed.
Lemma bind_keeps {A B} (m : M S A) (f : A → M S B) : keeps m → (∀ a, keeps (f a)) → keeps (m ≫= f).
Proof. intros Hm Hf s Hok. wstep. eapply wps_mono; [by apply Hm|]. intros a s'. apply Hf. Qed.
Lemma fold_keeps {A B} (f : B → A → M S B) b l : (∀ b a, keeps (f b a)) → keeps (foldM f b l).
Proof. intros Hf s Hok. apply (wps_fold _ f (λ _ _ s, ok [] s)); [done|]. intros a l' b' s' Hs'. by apply Hf. Qed.
Lemma wps_grow {A} x f s (m : M S A) Q : ok [] s → (∀ s', ok [] s' → thread_manager s' = thread_manager s → wps U m s' Q) →
  wps U (l ← gets m_thread_info; when (bool_decide (length l ≤ x)%nat) (modify (set_info (l ++ replicate (f (length l)) (new_info cores))));; m) s Q.
Proof.
  intros Hok HQ. wstep. wstep. wstep. wstep; [|by apply HQ]. apply wps_modify, HQ; [|done]. apply set_info_keeps; [done|].
  intros y. unfold run. rewrite lookup_app.
  destruct (m_thread_info s !! y); [done|]. destruct (replicate _ _ !! _) as [i|] eqn:Hi; [|done]. by apply lookup_replicate in Hi as [-> _].
Qed.
Lemma grow_info_keeps {A} x f (m : M S A) : keeps m →
  keeps (l ← gets m_thread_info; when (bool_decide (length l ≤ x)%nat) (modify (set_info (l ++ replicate (f (length l)) (new_info cores))));; m).
Proof. intros Hm s Hok. apply wps_grow; [done|]. intros s' Hok' _. by apply Hm. Qed.
Lemma find_reschedule_keeps time x : keeps (free ← findFreeCoreForThread cores x;
  match free with Some d => reschedule cores m_quantum (FUEL cores) (time d) d | None => mret tt end).
Proof. intros s Hok. wstep. apply wps_findFreeCore; [done | by wstep |]. intros d _. by apply reschedule_keeps. Qed.
Lemma gets_keeps {A} (f : S → A) : keeps (gets f).
Proof. by intros s Hok. Qed.
Lemma range_keeps {A} (l : list A) n : keeps (lift (arr_get l n)).
Proof. intros s Hok. unfold arr_get. by destruct (l !! n); apply wps_lift; intros ? [= <-]. Qed.
Lemma info_of_keeps x : keeps (info_of x).
Proof. intros s Hok. by apply wps_info_of. Qed.
Lemma running_on_keeps c : keeps (running_on c).
Proof. intros s Hok. by apply wps_running_on. Qed.
Lemma when_keeps b m : keeps m → keeps (when b m).
Proof. intros Hm s Hok. apply wps_when; intros _; [by apply Hm | done]. Qed.
Lemma ret_keeps {A} (a : A) : keeps (mret a).
Proof. by intros s Hok. Qed.
Lemma modify_keeps f : (∀ s, ok [] s → ok [] (f s)) → keeps (modify f).
Proof. intros Hf s Hok. by apply wps_modify, Hf. Qed.

(** Code that is composed of such parts. *)
Ltac parts := lazymatch goal with
  | |- keeps (mbind _ (findFreeCoreForThread _ _)) => apply find_reschedule_keeps
  | |- keeps (mbind _ (info_of ?x)) => first [apply add_affinity_keeps | apply bind_keeps; [apply info_of_keeps | intros ?; parts]]
  | |- keeps (mbind _ (gets m_thread_info)) => apply (grow_info_keeps _ (λ n, _ - n)%nat); parts
  | |- keeps (mbind _ _) => apply bind_keeps; [parts | intros ?; parts]
  | |- keeps (foldM (λ _ _, mbind _ (assert_ _)) _ _) => idtac
  | |- keeps (foldM _ _ _) => apply fold_keeps; intros ? ?; parts
  | |- keeps (when _ _) => apply when_keeps; parts
  | |- keeps (reschedule _ _ _ _ _) => apply reschedule_keeps
  | |- keeps (put_quantum _ _) => apply put_quantum_keeps
  | |- keeps (info_of _) => apply info_of_keeps
  | |- keeps (running_on _) => apply running_on_keeps
  | |- keeps (lift (arr_get _ _)) => apply range_keeps
  | |- keeps (gets _) => apply gets_keeps
  | |- keeps (mret _) => apply ret_keeps
  | |- keeps (upd_info _ _) => apply upd_info_keeps; intros ?; reflexivity
  | |- keeps (if ?b then _ else _) => destruct b; parts
  | |- keeps (match ?o with Some _ => _ | None => _ end) => destruct o; parts
  | |- _ => idtac
  end.

Lemma periodic_keeps time : keeps (periodic cores m_quantum time).
Proof. unfold periodic, periodic_core. parts. apply modify_keeps. intros s Hok. apply (ok_ext _ _ s); auto. Qed.
Lemma threadYield_keeps elapsed x : keeps (threadYield cores m_quantum elapsed x).
Proof. unfold threadYield. parts. Qed.
(** [sched_setaffinity] names cores that exist, or its assertion fails. *)
Lemma threadSetAffinity_keeps elapsed global calling x mask : (∀ cs, mask = Some cs → Forall (λ c, c < cores)%nat cs) →
  keeps (threadSetAffinity cores m_quantum elapsed global calling x mask).
Proof.
  intros Hmask. unfold threadSetAffinity. parts; try apply threadYield_keeps.
  intros s Hok. specialize (Hmask _ eq_refl).
  eapply wps_mono; [apply (wps_fold _ _ (λ l _ s, Forall (λ c, c < cores)%nat l ∧ ok [] s)); [done|]|by intros ? ? [??]].
  clear. intros c l _ s [Hl Hok]. inversion Hl; subst. wstep. wstep.
  - eapply wps_mono; [by apply add_affinity_keeps|]. by cbn.
  - by case_bool_decide.
Qed.
Lemma threadGetAffinity_keeps x n : keeps (threadGetAffinity cores x n).
Proof. unfold threadGetAffinity. parts. Qed.

(** A thread is created: the scheduler has it on its core before the thread manager knows it. *)
Lemma wps_initial {A} x s (m : M S A) Q : ok [] s → (∀ s', ok [] s' → thread_manager s' = thread_manager s → wps U m s' Q) →
  wps U (i ← info_of x;
    when (negb (m_has_affinity i))
      (s ← gets id;
       '(p, i) ← lift (threadSetInitialAffinity cores (policy s) (m_core_thread_running s) i);
       modify (set_policy p);; put_info x i);; m) s Q.
Proof.
  intros Hok HQ. wstep. apply wps_info_of; [done|]. intros i Hi. wstep. wstep; [|by apply HQ]. wstep. wstep. wstep.
  pose proof (initial_affinity_lawful cores (policy s) (m_core_thread_running s) i) as Hl. unfold id.
  apply wps_lift; [intros [p j] E | intros e E]; rewrite E in Hl; [|done]. wstep. wstep. apply wps_put_info; [done|]. intros Hlt. apply HQ; [|done].
  apply set_info_keeps; [by apply (ok_ext _ _ s); auto|]. intros y. pose proof (run_set_info (set_policy p s) x j y Hlt) as Hy.
  unfold run at 1 in Hy. cbn in Hy. cbn. rewrite Hy. case_decide; [subst|done]. rewrite Hl.
  change (run (set_policy p s)) with (run s). unfold run. by rewrite Hi.
Qed.

Definition numbered (n : Z) (w : ThreadManager.t) : ThreadManager.t :=
  ThreadManager.mk n (ThreadManager.status w) (ThreadManager.stalled_reason w) (ThreadManager.waiter w) (ThreadManager.m_thread_spawn_list w)
    (ThreadManager.asleep w) (ThreadManager.m_wakeup_time w) (ThreadManager.m_wakeup_msg w) (ThreadManager.m_core w) (ThreadManager.core_thread w)
    (ThreadManager.core_state w).
Lemma created_ok x core s s1 : ok [] s → tid x = ThreadManager.m_threads (thread_manager s) → (∀ c, core = Some c → slot s c = None ∧ (c < cores)%nat) →
  (∀ z, run s1 z = if decide (z = x) then core else run s z) →
  (∀ d, slot s1 d = if decide (core = Some d) then Some x else slot s d) → length (m_core_thread_running s1) = cores →
  thread_manager s1 = thread_manager s → m_threads_runnable s1 = m_threads_runnable s →
  ∃ r w, ThreadManager.createThread_unlocked (tid <$> core) (thread_manager s1) = Ok (r, w) ∧ ok [] (set_thread_manager w s1).
Proof.
  intros Hok Hx Hcore Hrun Hslot Hlen Htm Hrb. rewrite Htm. assert (Hx0 : run s x = None).
  { destruct (run s x) eqn:E; [|done]. assert (tid x < ThreadManager.m_threads (thread_manager s)); [|lia]. apply (ok_known _ _ _ Hok). left. by rewrite E. }
  assert (Hnone : ThreadManager.m_core (thread_manager s) (tid x) = None).
  { rewrite (ok_threads _ _ _ Hok). case_decide; [|done]. assert (Z.to_nat (tid x) = x) as -> by (unfold tid; lia). by rewrite Hx0. }
  unfold ThreadManager.createThread_unlocked. cbv zeta. rewrite <- Hx. set (w0 := ThreadManager.mk _ _ _ _ _ _ _ _ _ _ _).
  assert (Hw0 : ∀ z, ThreadManager.m_core w0 z = ThreadManager.m_core (thread_manager s) z).
  { intros z. cbn. destruct (decide (z = tid x)) as [->|]; [by rewrite fn_lookup_insert | by rewrite fn_lookup_insert_ne]. }
  assert (Hc0 : cores_ok w0) by (intros z d; rewrite Hw0; apply Hok).
  set (s0 := set_thread_manager (numbered (tid x + 1) (thread_manager s)) s). assert (Hok0 : ok [] s0).
  { pose proof (ok_num _ _ _ Hok). split; cbn; try apply Hok; [|lia]. intros y Hy. pose proof (ok_known _ _ _ Hok y Hy). lia. }
  assert (Hok1 : ok (match core with Some _ => [x] | None => [] end) (set_thread_manager w0 s1)).
  { destruct core as [c|].
    - destruct (Hcore c eq_refl) as [Hc Hlt]. apply (ok_switch cores [] c None (Some x) s0); try done.
      + intros y [= <-]. split; [done | cbn; lia].
      + intros z. change (run (set_thread_manager w0 s1)) with (run s1). change (run s0) with (run s). rewrite Hrun.
        destruct (decide (z = x)) as [->|]; [by rewrite decide_True|]. rewrite decide_False by congruence. by rewrite decide_False by done.
      + intros d. change (slot (set_thread_manager w0 s1)) with (slot s1). rewrite Hslot. apply decide_ext. naive_solver.
      + intros z. rewrite decide_False by naive_solver. apply Hw0.
    - assert (Hrun' : ∀ z, run (set_thread_manager w0 s1) z = run s0 z).
      { intros z. change (run (set_thread_manager w0 s1)) with (run s1). change (run s0) with (run s). rewrite Hrun. case_decide; congruence. }
      split; try done; [| | | |apply Hok0].
      + intros z d. rewrite Hrun'. change (slot (set_thread_manager w0 s1)) with (slot s1). rewrite Hslot. apply (ok_match _ _ _ Hok0).
      + intros z. rewrite Hrun'. cbn. fold (ThreadManager.m_core w0 z). etransitivity; [apply Hw0 | apply (ok_threads _ _ _ Hok0)].
      + intros z Hz. apply elem_of_nil in Hz as [].
      + intros z. rewrite Hrun'. cbn. rewrite Hrb. apply (ok_known _ _ _ Hok0). }
  destruct core as [c|]; cbn.
  - destruct (enter_ok cores x c [] (set_thread_manager w0 s1) Hok1) as (w & Ew & Hw).
    + apply not_elem_of_nil.
    + change (run (set_thread_manager w0 s1)) with (run s1). by rewrite Hrun, decide_True.
    + cbn in Ew. fold (tid c). rewrite Ew. cbn. do 2 eexists. split; [done|]. by apply (ok_core_state _ _ (tid c) INITIALIZING) in Hw.
  - by do 2 eexists.
Qed.
Lemma createThread_keeps s : ok [] s → wps U (createThread cores m_quantum) s (λ x s', ok [] s' ∧ tid x = ThreadManager.m_threads (thread_manager s)).
Proof.
  intros Hok. unfold createThread. wstep. wstep. set (x := Z.to_nat _). assert (Hx : tid x = ThreadManager.m_threads (thread_manager s)).
  { pose proof (ok_num _ _ _ Hok). unfold tid, x. lia. }
  wstep. unfold threadCreate. apply (wps_grow x (λ _, 16%nat)); [done|]. intros s1 Hok1 Ht1.
  apply wps_initial; [done|]. intros s2 Hok2 Ht2. rewrite Ht1 in Ht2. rewrite <- Ht2 in Hx. clear s1 Hok1 Ht1.
  assert (Hend : ∀ core s3, (∀ c, core = Some c → slot s2 c = None ∧ (c < cores)%nat) →
    (∀ z, run s3 z = if decide (z = x) then core else run s2 z) → (∀ d, slot s3 d = if decide (core = Some d) then Some x else slot s2 d) →
    length (m_core_thread_running s3) = cores → thread_manager s3 = thread_manager s2 → m_threads_runnable s3 = m_threads_runnable s2 →
    wps U (in_threads (λ w, let! (_, w) := ThreadManager.createThread_unlocked (tid <$> core) w in Ok w);; mret x) s3
      (λ x s', ok [] s' ∧ tid x = ThreadManager.m_threads (thread_manager s))).
  { intros core s3 H1 H2 H3 H4 H5 H6. destruct (created_ok x core s2 s3) as (r & w & Ew & Hw); try done. wstep.
    eapply wps_in_threads; [by rewrite Ew|]. wstep. split; [done|]. by rewrite Hx, Ht2. }
  wstep. apply wps_findFreeCore; [done | |].
  - wstep. apply wps_upd_info; [done|]. intros i Hi. apply lookup_lt_Some in Hi as Hlt. wstep. apply Hend; try done.
    + intros z. by rewrite run_set_info.
    + cbn. apply Hok2.
  - intros c Hc. wstep. apply wps_upd_info; [done|]. intros i Hi. apply lookup_lt_Some in Hi as Hlt. wstep. apply wps_put_running; [done|].
    intros Hlt2. cbn in Hlt2. wstep. apply wps_put_quantum; [done|]. intros l. wstep. apply Hend; try done.
    + intros d [= <-]. unfold slot. rewrite Hc. split; [done|]. apply lookup_lt_Some in Hc. by rewrite <- (ok_length _ _ _ Hok2).
    + intros z. exact (run_set_info s2 x (setCoreRunning (Some c) i) z Hlt).
    + intros d. pose proof (slot_set_running s2 c (Some x) d Hlt2) as Hd. change (slot (set_running (<[c := Some x]> (m_core_thread_running s2)) s2) d = if decide (Some c = Some d) then Some x else slot s2 d).
      rewrite Hd. apply decide_ext. naive_solver.
    + cbn. rewrite length_insert. apply Hok2.
Qed.

(** ** The calls that reach the scheduler *)
Inductive call :=
| Create | Start (x : nat) (time elapsed : Z) | Stall (x : nat) (reason : ThreadManager.stall_type_t) (time : Z)
| Resume (x : nat) (time : Z) (msg : bool) | WaitForStart (x y : nat) | Join (x y : nat) (time : Z)
| Exit (x : nat) (elapsed : Z) (woken : list nat) | Periodic (time : Z) | Yield (elapsed : nat → Z) (x : nat)
| SetAffinity (elapsed : nat → Z) (global : Z) (calling x : nat) (mask : option (list nat)) | GetAffinity (x cpusetsize : nat).
Definition perform (c : call) : M S unit :=
  match c with
  | Create => createThread cores m_quantum;; mret tt
  | Start x time elapsed => onThreadStart cores m_quantum x time elapsed
  | Stall x reason time => stallThread_async cores m_quantum x reason time
  | Resume x time msg => resumeThread cores m_quantum x time msg
  | WaitForStart x y => waitForThreadStart x y
  | Join x y time => joinThread cores m_quantum x y time
  | Exit x elapsed woken => onThreadExit cores m_quantum x elapsed woken
  | Periodic time => periodic cores m_quantum time
  | Yield elapsed x => threadYield cores m_quantum elapsed x
  | SetAffinity elapsed global calling x mask => threadSetAffinity cores m_quantum elapsed global calling x mask
  | GetAffinity x n => threadGetAffinity cores x n;; mret tt
  end.
(** Threads are known when they start or are woken up; at most one thread waits for another; a
    thread that exits runs on a core; the cores of a mask exist. *)
Definition allowed s (c : call) : Prop :=
  match c with
  | Start x _ _ | Resume x _ _ => known s x
  | WaitForStart _ y | Join _ y _ => ThreadManager.waiter (thread_manager s) (tid y) = INVALID_THREAD_ID
  | Exit x _ woken => Forall (known s) woken ∧ ThreadManager.m_core (thread_manager s) (tid x) ≠ None ∧
      ThreadManager.status (thread_manager s) (tid x) = RUNNING ∧
      (let v := ThreadManager.waiter (thread_manager s) (tid x) in v = INVALID_THREAD_ID ∨ 0 ≤ v < ThreadManager.m_threads (thread_manager s))
  | SetAffinity _ _ _ _ mask => match mask with Some cs => Forall (λ c, c < cores)%nat cs | None => True end
  | _ => True
  end.
Inductive reachable (p : P) : S → Prop :=
| at_start : reachable p (new cores p)
| after s c s' : reachable p s → allowed s c → perform c s = Ok (tt, s') → reachable p s'.

Lemma change_ok f : (∀ w, ThreadManager.m_core (f w) = ThreadManager.m_core w ∧ ThreadManager.core_thread (f w) = ThreadManager.core_thread w ∧
  ThreadManager.m_threads (f w) = ThreadManager.m_threads w) → keeps (change_threads f).
Proof.
  intros Hf s Hok. destruct (Hf (thread_manager s)) as (?&?&?). eapply wps_mono; [by apply (change_keeps [])|]. cbn. by intros [] s' [? _].
Qed.
Lemma perform_keeps c s : ok [] s → allowed s c → wps U (perform c) s (λ _ s', ok [] s').
Proof.
  intros Hok Hc. destruct c; cbn in Hc |- *.
  - wstep. eapply wps_mono; [by apply createThread_keeps|]. cbn. by intros y s' [? _].
  - by apply onThreadStart_keeps.
  - by apply stallThread_keeps.
  - by apply resumeThread_keeps_ok.
  - apply Z.eqb_eq in Hc. unfold waitForThreadStart, ThreadManager.waitForThreadStart.
    destruct (ThreadManager.isThreadInitializing (thread_manager s) (tid y)) eqn:E.
    + eapply wps_in_threads; [rewrite E, Hc; done|]. by apply (ok_ext _ _ s); auto.
    + eapply wps_in_threads; [by rewrite E|]. by apply (ok_ext _ _ s); auto.
  - unfold joinThread. wstep. wstep. wstep; [|done]. wstep. wstep; [|by apply Z.eqb_neq in H2]. revert s Hok Hc H1 H2. 
    intros s Hok _ _ _. wstep. eapply wps_mono; [by apply change_ok|]. intros [] s1 Hok1. wstep.
    eapply wps_mono; [by apply stallThread_keeps|]. intros [] s2 Hok2. by apply change_ok.
  - destruct Hc as (H1 & H2 & H3 & H4). by apply onThreadExit_keeps.
  - by apply periodic_keeps.
  - by apply threadYield_keeps.
  - apply threadSetAffinity_keeps; [|done]. by intros cs ->.
  - wstep. eapply wps_mono; [by apply threadGetAffinity_keeps|]. by cbn.
Qed.
Lemma new_ok (p : P) : ok [] (new cores p).
Proof.
  assert (Hs : ∀ c, slot (new cores p) c = None).
  { intros c. unfold slot. cbn. destruct (replicate _ _ !! _) eqn:E; [|done]. by apply lookup_replicate in E as [-> _]. }
  split; cbn; try done.
  - intros x c. by rewrite Hs.
  - intros z. by case_decide.
  - apply length_replicate.
  - intros x Hx. apply elem_of_nil in Hx as [].
  - intros x [Hx|Hx]; [done|]. change (replicate 16 false !! x = Some true) in Hx. by apply lookup_replicate in Hx as [? _].
Qed.
Lemma reachable_ok (p : P) s : reachable p s → ok [] s.
Proof. induction 1 as [|s c s' _ IH Hc E]; [apply new_ok|]. by apply (wps_elim _ _ _ _ _ _ (perform_keeps c s IH Hc)) in E. Qed.

(** [C28] Whatever threads and their environment do, the scheduler's two tables name the same
    threads on the same cores, and the thread manager has the threads on these cores: a thread is
    on at most one core, a core has at most one thread.  In such a state the mutual recursion of
    scheduler and thread manager ends, and the assertion of [Thread::setCore] that the core is
    free never fails: a call can only stop at an index that is out of range or in a policy's
    own loop. *)
Theorem scheduler_threads_agree (p : P) s : reachable p s →
  (∀ x c, run s x = Some c ↔ slot s c = Some x) ∧
  (∀ x c, ThreadManager.m_core (thread_manager s) (tid x) = Some (tid c) ↔ slot s c = Some x) ∧
  (∀ c, allowed s c → wps unless_broken (perform c) s (λ _ s', reachable p s')).
Proof.
  intros Hs. apply reachable_ok in Hs as Hok. split_and!; [apply Hok | |].
  - intros x c. rewrite (ok_threads _ _ _ Hok). assert (Z.to_nat (tid x) = x) as -> by (unfold tid; lia).
    rewrite decide_True by (split; [unfold tid; lia | apply not_elem_of_nil]). rewrite <- (ok_match _ _ _ Hok).
    destruct (run s x) as [d|]; cbn; [|done]. split; [intros [= ?%tid_inj]; congruence | congruence].
  - intros c Hc. pose proof (perform_keeps c s Hok Hc) as Hp. unfold wps in *. destruct (perform c s) as [[[] s']|] eqn:E; [|done].
    by eapply after.
Qed.
(** Runs: calls that do not fail. *)
Definition perform_or s (c : call) : S := match perform c s with Ok (_, s') => s' | Err _ => s end.
Fixpoint all_allowed s (l : list call) : Prop :=
  match l with [] => True | c :: l => allowed s c ∧ all_allowed (perform_or s c) l end.
Lemma reachable_run (p : P) s l : reachable p s → all_allowed s l → reachable p (foldl perform_or s l).
Proof.
  revert s. induction l as [|c l IH]; intros s Hs; cbn; [done|]. intros [Hc Hl]. apply IH; [|done]. unfold perform_or.
  destruct (perform c s) as [[[] s']|] eqn:E; [by eapply after | done].
Qed.
End calls.

(** ** Policies decide about affinities only *)
Module SchedulerFacts.
Lemma next_loop_fails cores n p c e : SchedulerPinned.next_loop cores n p c = Err e → e ≠ NoFuel ∧ e ≠ AssertFail.
Proof.
  revert c. induction n as [|n IH]; intros c; cbn; [by intros [= <-]|]. unfold umod, arr_get.
  repeat (case_match; cbn; try by intros [= <-]); eauto.
Qed.
Lemma free_loop_fails cores n p l first c e : SchedulerPinned.free_loop cores n p l first c = Err e → e ≠ NoFuel ∧ e ≠ AssertFail.
Proof.
  assert (Hbind : ∀ A (r : result A) (k : A → result nat), rbind r k = Err e → r = Err e ∨ ∃ a, r = Ok a ∧ k a = Err e).
  { intros A [a|e'] k; cbn; [eauto | intros [= ->]; auto]. }
  assert (Hget : ∀ A (v : list A) d, arr_get v d = Err e → e ≠ NoFuel ∧ e ≠ AssertFail).
  { intros A v d. unfold arr_get. case_match; [done | by intros [= <-]]. }
  revert c. induction n as [|n IH]; intros c; cbn [SchedulerPinned.free_loop]; [by intros [= <-]|].
  intros [?|(r & _ & [Hb|(b & _ & Hb)]%Hbind)]%Hbind; [by eapply Hget | case_bool_decide; [by eapply Hget | done] |].
  destruct b; [done|]. apply Hbind in Hb as [Hb|(d & _ & Hb)]; [by eapply next_loop_fails|].
  case_bool_decide; [done | by apply IH in Hb].
Qed.
#[global] Instance pinned_lawful : LawfulAffinity SchedulerPinned.t.
Proof.
  intros cores p l i. unfold threadSetInitialAffinity, SchedulerPinned.pinned, SchedulerPinned.threadSetInitialAffinity.
  destruct (SchedulerPinned.getFreeCore _ _ _ _) as [c|e] eqn:Hc; cbn [rbind]; [|by eapply free_loop_fails].
  destruct (SchedulerPinned.getNextCore cores p c) as [d|e] eqn:Hd; cbn [rbind]; [|by eapply next_loop_fails].
  unfold setAffinitySingle. destruct (addAffinity c (clearAffinity i)) as [j|e] eqn:Hj; cbn [rbind]; [by apply addAffinity_running in Hj|].
  by apply addAffinity_fails in Hj as ->.
Qed.
#[global] Instance roaming_lawful : LawfulAffinity SchedulerRoaming.t.
Proof.
  intros cores p l i. unfold threadSetInitialAffinity, SchedulerRoaming.roaming, SchedulerRoaming.threadSetInitialAffinity.
  assert (Hadd : ∀ cs i, match SchedulerRoaming.add_all (SchedulerRoaming.m_core_mask p) cs i with
    Ok j => m_core_running j = m_core_running i | Err e => e ≠ NoFuel ∧ e ≠ AssertFail end).
  { clear i. induction cs as [|c cs IH]; intros i; cbn; [done|]. unfold arr_get at 1. destruct (_ !! c) as [b|]; cbn; [|done].
    destruct b; cbn; [|apply IH]. destruct (addAffinity c i) as [j|e] eqn:Hj; cbn.
    - specialize (IH j). destruct (SchedulerRoaming.add_all _ _ _); [|done]. rewrite IH. by eapply addAffinity_running.
    - by apply addAffinity_fails in Hj as ->. }
  specialize (Hadd (seq 0 cores) (clearAffinity i)). by destruct (SchedulerRoaming.add_all _ _ _).
Qed.
End SchedulerFacts.

(** ** Runs *)
Module SchedulerExample.
Definition two_cores : SchedulerPinned.t := SchedulerPinned.mk 1 [true; true] 0.
(** Three threads on two cores: the third waits until the first stalls. *)
Definition calls : list call := [Create; Create; Create; Start 0 0 0; Start 1 0 0; Start 2 0 0; Stall 0 ThreadManager.STALL_FUTEX 10].
Definition ending : t SchedulerPinned.t := foldl (perform_or 2 1000) (new 2 two_cores) calls.
Lemma scheduler_threads_agree_witness :
  (run ending 2 = Some 0%nat ∧ slot ending 0 = Some 2%nat ∧ run ending 0 = None) ∧
  (∀ x c, ThreadManager.m_core (thread_manager ending) (tid x) = Some (tid c) ↔ slot ending c = Some x) ∧
  wps unless_broken (perform 2 1000 (Resume 0 20 true)) ending (λ _ _, True).
Proof.
  assert (Hs : reachable 2 1000 two_cores ending).
  { apply reachable_run; [constructor|]. repeat split; vm_compute; done. }
  destruct (scheduler_threads_agree 2 1000 two_cores ending Hs) as (_ & H2 & H3).
  split; [by vm_compute|]. split; [exact H2|].
  eapply wps_mono; [apply (H3 (Resume 0 20 true)); vm_compute; done | done].
Defined.

(** With five cores and an interleaving of two, the round-robin assignment goes 0, 2, 4, 0, ...:
    it never comes to cores 1 and 3, and never ends when only these are in the mask. *)
Lemma interleaving_skips_cores :
  let p := SchedulerPinned.mk 2 [true; true; true; true; true] 0 in
  SchedulerPinned.getNextCore 5 p 0 = Ok 2%nat ∧ SchedulerPinned.getNextCore 5 p 2 = Ok 4%nat ∧ SchedulerPinned.getNextCore 5 p 4 = Ok 0%nat ∧
  SchedulerPinned.getNextCore 5 (SchedulerPinned.mk 2 [false; true; false; true; false] 0) 0 = Err Diverges.
Proof. done. Qed.
(** The search for a free core ends when it is back where it began: never, if that core is not in
    the mask and the others are busy. *)
Lemma free_core_search_never_ends :
  SchedulerPinned.getFreeCore 2 (SchedulerPinned.mk 1 [false; true] 0) [None; Some 0%nat] 0 = Err Diverges.
Proof. done. Qed.
(** An interleaving that is larger than the number of cores. *)
Lemma interleaving_out_of_range : SchedulerPinned.getNextCore 2 (SchedulerPinned.mk 4 [false; true] 0) 1 = Err OutOfRange.
Proof. done. Qed.
(** The affinity of a thread that exists and has not started: [m_threads_runnable] has grown only
    for threads that have. *)
Lemma affinity_before_start :
  let s := foldl (perform_or 1 1000) (new 1 (SchedulerPinned.mk 1 [true] 0)) (replicate 17 Create) in
  ThreadManager.m_threads (thread_manager s) = 17 ∧ perform 1 1000 (SetAffinity (λ _, 0) 0 0 16 (Some [0%nat])) s = Err OutOfRange.
Proof. by vm_compute. Qed.
End SchedulerExample.
