(* ===== verification/Network.v ===== *)
(** Packets between cores: [network/network.{h,cc}], [network/packet_type.h], the four network
    models [network/network_model_{magic,emesh_hop_counter,bus,emesh_hop_by_hop}.{h,cc}] and the
    queues of [transport/smtransport.{h,cc}].

    A network model is given a packet at a core and answers with hops; [netSend] follows the hops
    of a packet through the models of the cores on its way and puts it into the queue of the last
    one, from which that core takes it. *)
From S2P Require Import Prelude Utils Timing QueueModels BlockInfo ShmemMsg StateResult.

(** ** Packets *)
Inductive PacketType := INVALID_PACKET_TYPE | SHARED_MEM_1 | SIM_THREAD_TERMINATE_THREADS | CORE_THREAD_TERMINATE_THREADS.
Inductive EStaticNetwork := STATIC_NETWORK_MEMORY_1 | STATIC_NETWORK_SYSTEM.
#[global] Instance packet_type_eq_dec : EqDecision PacketType.
Proof. solve_decision. Defined.
Definition packet_types : list PacketType := [INVALID_PACKET_TYPE; SHARED_MEM_1; SIM_THREAD_TERMINATE_THREADS; CORE_THREAD_TERMINATE_THREADS].
Definition g_type_to_static_network_map (ty : PacketType) : EStaticNetwork :=
  match ty with SHARED_MEM_1 => STATIC_NETWORK_MEMORY_1 | _ => STATIC_NETWORK_SYSTEM end.

(** [data]: the message, in packets of memory; the number of bytes is [length]. *)
Module NetPacket.
Record t := mk {
  start_time : Z;
  time : Z;
  queue_delay : Z;
  type : PacketType;
  sender : Z;
  receiver : Z;
  length : Z;
  data : option ShmemMsg.t;
}.
Definition BROADCAST : Z := s32 0xDEADBABE.
(** [sizeof(NetPacket)], with 4-byte enumerations and 8-byte pointers. *)
Definition SIZEOF : Z := 48.
Definition bufferSize (p : t) : Z := u32 (SIZEOF + length p).
Definition new (time : Z) (type : PacketType) (sender receiver length : Z) (data : option ShmemMsg.t) : t :=
  mk 0 time 0 type sender receiver length data.
Definition set_start_time (x : Z) (p : t) : t := mk x (time p) (queue_delay p) (type p) (sender p) (receiver p) (length p) (data p).
Definition set_time (x : Z) (p : t) : t := mk (start_time p) x (queue_delay p) (type p) (sender p) (receiver p) (length p) (data p).
Definition set_queue_delay (x : Z) (p : t) : t := mk (start_time p) (time p) x (type p) (sender p) (receiver p) (length p) (data p).
Definition set_receiver (x : Z) (p : t) : t := mk (start_time p) (time p) (queue_delay p) (type p) (sender p) x (length p) (data p).
End NetPacket.
Import NetPacket (BROADCAST).

(** [Config]. *)
Record config := { TotalCores : Z; ApplicationCores : Z }.
Definition computeCoreIDLength (core_count : Z) : Z :=
  let num_bits := ceilLog2 core_count in
  if num_bits `mod` 8 =? 0 then num_bits `div` 8 else num_bits `div` 8 + 1.

(** [Network::getModeledLength] and the requester that the models account a packet to, both
    with the message of a packet of memory. *)
Definition message (p : NetPacket.t) : result ShmemMsg.t :=
  match NetPacket.data p with Some m => Ok m | None => Err NullPointer end.
Definition getModeledLength (g : config) (p : NetPacket.t) : result Z :=
  match NetPacket.type p with
  | SHARED_MEM_1 =>
      let! m := message p in
      let metadata_size := u32 (1 + 2 * computeCoreIDLength (TotalCores g) + 2) in
      let! data_size := ShmemMsg.getModeledLength m in Ok (u32 (metadata_size + data_size))
  | _ => Ok (NetPacket.bufferSize p)
  end.
Definition requester_of (g : config) (p : NetPacket.t) : result Z :=
  let! r := match NetPacket.type p with
            | SHARED_MEM_1 => let! m := message p in Ok (ShmemMsg.m_requester m)
            | _ => Ok (NetPacket.sender p)
            end in
  let! _ := check ((0 <=? r) && (r <? TotalCores g)) LogError in Ok r.

(** ** Network models

    [N]: the models of one static network at all cores; the first argument is the core. *)
Record Hop := { final_dest : Z; next_dest : Z; hop_time : Z }.
Class NetworkModel (N : Type) := {
  routePacket : Z → NetPacket.t → M N (list Hop * NetPacket.t);
  processReceivedPacket : Z → NetPacket.t → M N NetPacket.t;
}.
(** A hop that is the last one. *)
Definition direct (d time : Z) : Hop := {| final_dest := d; next_dest := d; hop_time := time |}.
Definition all_cores (g : config) : list Z := Z.of_nat <$> seq 0 (Z.to_nat (TotalCores g)).
Definition destinations (g : config) (p : NetPacket.t) : list Z :=
  if NetPacket.receiver p =? BROADCAST then all_cores g else [NetPacket.receiver p].

(** A vector of the objects of the cores. *)
Definition at_core {A} (l : list A) (core : Z) : result A := if core <? 0 then Err OutOfRange else arr_get l (Z.to_nat core).
Definition put_core {A} (l : list A) (core : Z) (a : A) : result (list A) := if core <? 0 then Err OutOfRange else arr_set l (Z.to_nat core) a.

(** *** [network_model_magic] *)
Module NetworkModelMagic.
Record node := mk_node { _enabled : bool; _num_packets : Z; _num_bytes : Z; _latency : ComponentLatency.t }.
Record t := mk { cfg : config; nodes : list node }.
Definition new_node (period : Z) : node := mk_node false 0 0 (ComponentLatency.mk period 1).
Definition routePacket (core : Z) (p : NetPacket.t) : M t (list Hop * NetPacket.t) :=
  s ← gets id; n ← lift (at_core (nodes s) core);
  let time := SubsecondTime.add (NetPacket.time p) (ComponentLatency.getLatency (_latency n)) in
  mret ((λ d, direct d time) <$> destinations (cfg s) p, p).
Definition processReceivedPacket (core : Z) (p : NetPacket.t) : M t NetPacket.t :=
  s ← gets id; n ← lift (at_core (nodes s) core); requester ← lift (requester_of (cfg s) p);
  if negb (_enabled n) || (ApplicationCores (cfg s) <=? requester) then mret p
  else
    len ← lift (getModeledLength (cfg s) p);
    l ← lift (put_core (nodes s) core (mk_node (_enabled n) (u64 (_num_packets n + 1)) (u64 (_num_bytes n + len)) (_latency n)));
    modify (λ s, mk (cfg s) l);; mret p.
#[global] Instance model : NetworkModel t := {| Network.routePacket := routePacket; Network.processReceivedPacket := processReceivedPacket |}.
End NetworkModelMagic.

(** *** [network_model_emesh_hop_counter]

    The square roots and quotients of floating-point numbers in the constructor are exact for
    numbers of cores below 2^31. *)
Module NetworkModelEMeshHopCounter.
Record node := mk_node {
  _linkBandwidth : ComponentBandwidthPerCycle.t; _hopLatency : ComponentLatency.t;
  _enabled : bool; _num_packets : Z; _num_bytes : Z; _total_latency : Z }.
Record t := mk { cfg : config; _meshWidth : Z; _meshHeight : Z; nodes : list node }.
Definition ceil_div (a b : Z) : Z := - ((- a) `div` b).
Definition dimensions (total_cores : Z) : result (Z * Z) :=
  let width := Z.sqrt total_cores in
  let! _ := check (negb (width =? 0)) DivByZero in
  let height := ceil_div total_cores width in
  let! _ := check (total_cores <=? width * height) AssertFail in
  let! _ := check ((width - 1) * height <? total_cores) AssertFail in
  let! _ := check (width * (height - 1) <? total_cores) AssertFail in
  Ok (width, height).
Definition new_node (bw : ComponentBandwidthPerCycle.t) (hop : ComponentLatency.t) : node := mk_node bw hop false 0 0 0.
Definition new (g : config) (l : list (ComponentBandwidthPerCycle.t * ComponentLatency.t)) : result t :=
  let! (w, h) := dimensions (TotalCores g) in Ok (mk g w h ((λ '(bw, hop), new_node bw hop) <$> l)).
Definition computePosition (s : t) (core : Z) : Z * Z := (core `mod` _meshWidth s, core `div` _meshWidth s).
Definition computeDistance (a b : Z * Z) : Z := Z.abs (a.1 - b.1) + Z.abs (a.2 - b.2).
Definition computeSerializationLatency (n : node) (pkt_length : Z) : result Z :=
  ComponentBandwidthPerCycle.getRoundedLatency (_linkBandwidth n) (u32 (pkt_length * 8)).
(** The latency to a core, and the hops of a broadcast one after the other. *)
Definition latency_to (s : t) (n : node) (serialization sender d : Z) : Z :=
  let l := SubsecondTime.mul (computeDistance (computePosition s sender) (computePosition s d)) (ComponentLatency.getLatency (_hopLatency n)) in
  if d =? sender then l else SubsecondTime.add l serialization.
Fixpoint broadcast_hops (s : t) (n : node) (serialization sender curr_time : Z) (cores : list Z) : list Hop :=
  match cores with
  | [] => []
  | i :: cores =>
      direct i (SubsecondTime.add curr_time (latency_to s n serialization sender i)) ::
      broadcast_hops s n serialization sender (SubsecondTime.add curr_time serialization) cores
  end.
Definition routePacket (core : Z) (p : NetPacket.t) : M t (list Hop * NetPacket.t) :=
  s ← gets id; n ← lift (at_core (nodes s) core);
  pkt_length ← lift (getModeledLength (cfg s) p);
  serialization ← lift (computeSerializationLatency n pkt_length);
  if NetPacket.receiver p =? BROADCAST
  then mret (broadcast_hops s n serialization (NetPacket.sender p) (NetPacket.time p) (all_cores (cfg s)), p)
  else mret ([direct (NetPacket.receiver p)
                (SubsecondTime.add (NetPacket.time p) (latency_to s n serialization (NetPacket.sender p) (NetPacket.receiver p)))], p).
Definition processReceivedPacket (core : Z) (p : NetPacket.t) : M t NetPacket.t :=
  s ← gets id; n ← lift (at_core (nodes s) core);
  pkt_length ← lift (getModeledLength (cfg s) p); requester ← lift (requester_of (cfg s) p);
  if negb (_enabled n) || (ApplicationCores (cfg s) <=? requester) then mret p
  else
    let latency := SubsecondTime.sub (NetPacket.time p) (NetPacket.start_time p) in
    l ← lift (put_core (nodes s) core (mk_node (_linkBandwidth n) (_hopLatency n) (_enabled n) (u64 (_num_packets n + 1))
                (u64 (_num_bytes n + pkt_length)) (SubsecondTime.add (_total_latency n) latency)));
    modify (λ s, mk (cfg s) (_meshWidth s) (_meshHeight s) l);; mret p.
#[global] Instance model : NetworkModel t := {| Network.routePacket := routePacket; Network.processReceivedPacket := processReceivedPacket |}.
End NetworkModelEMeshHopCounter.

(** *** [network_model_bus]: one bus for all cores *)
Module NetworkModelBus.
Record t (Q : Type) := mk {
  cfg : config;
  _bandwidth : ComponentBandwidth.t;
  _queue_model : Q;
  _num_packets : Z; _num_packets_delayed : Z; _num_bytes : Z; _time_used : Z; _total_delay : Z;
  _ignore_local : bool;
  _enabled : list bool;
}.
Arguments mk {Q} _ _ _ _ _ _ _ _ _ _.
Arguments cfg {Q} _.
Arguments _bandwidth {Q} _.
Arguments _queue_model {Q} _.
Arguments _num_packets {Q} _.
Arguments _num_packets_delayed {Q} _.
Arguments _num_bytes {Q} _.
Arguments _time_used {Q} _.
Arguments _total_delay {Q} _.
Arguments _ignore_local {Q} _.
Arguments _enabled {Q} _.
Section ops.
Context {Q : Type} `{QueueModel Q}.
(** The delay in the queue is added to what the packet has recorded. *)
Definition useBus (t_start length queue_delay : Z) : M (t Q) (Z * Z) :=
  s ← gets id;
  t_delay ← lift (ComponentBandwidth.getLatency (_bandwidth s) (u32 (length * 8)));
  '(t_queue, q) ← lift (computeQueueDelay (_queue_model s) t_start t_delay INVALID_CORE_ID);
  modify (λ s, mk (cfg s) (_bandwidth s) q (_num_packets s)
    (if SubsecondTime.Zero <? t_queue then u64 (_num_packets_delayed s + 1) else _num_packets_delayed s)
    (_num_bytes s) (SubsecondTime.add (_time_used s) t_delay) (SubsecondTime.add (_total_delay s) t_queue) (_ignore_local s) (_enabled s));;
  mret (SubsecondTime.add (SubsecondTime.add t_start t_queue) t_delay, SubsecondTime.add queue_delay t_queue).
Definition accountPacket (s : t Q) (core : Z) (p : NetPacket.t) : result bool :=
  let g := cfg s in
  let! requester := requester_of g p in
  let! enabled := at_core (_enabled s) core in
  Ok (negb (negb enabled || (_ignore_local s && (NetPacket.sender p =? NetPacket.receiver p))
        || (ApplicationCores g <=? requester) || (ApplicationCores g <=? NetPacket.sender p) || (ApplicationCores g <=? NetPacket.receiver p))).
Definition routePacket (core : Z) (p : NetPacket.t) : M (t Q) (list Hop * NetPacket.t) :=
  s ← gets id; account ← lift (accountPacket s core p);
  '(t_recv, p) ←
    (if (account : bool) then
       len ← lift (getModeledLength (cfg s) p);
       modify (λ s, mk (cfg s) (_bandwidth s) (_queue_model s) (u64 (_num_packets s + 1)) (_num_packets_delayed s)
         (u64 (_num_bytes s + len)) (_time_used s) (_total_delay s) (_ignore_local s) (_enabled s));;
       '(time, delay) ← useBus (NetPacket.time p) (NetPacket.length p) (NetPacket.queue_delay p);
       mret (time, NetPacket.set_queue_delay delay p)
     else mret (NetPacket.time p, p));
  mret ((λ d, direct d t_recv) <$> destinations (cfg s) p, p).
Definition processReceivedPacket (core : Z) (p : NetPacket.t) : M (t Q) NetPacket.t := mret p.
#[global] Instance model : NetworkModel (t Q) := {| Network.routePacket := routePacket; Network.processReceivedPacket := processReceivedPacket |}.
End ops.
End NetworkModelBus.

(** *** [network_model_emesh_hop_by_hop]: a mesh or torus with a queue for each link *)
Module NetworkModelEMeshHopByHop.
Inductive OutputDirection := UP | DOWN | LEFT | RIGHT | SELF | PEER | DESTINATION.

(** What the models of all cores share. *)
Record params := mk_params {
  m_mesh_width : Z; m_mesh_height : Z;
  m_concentration : Z; m_dimensions : Z; m_wrap_around : bool;
  m_broadcast_tree_enabled : bool; m_queue_model_enabled : bool;
}.
(** The model of a core: queues for the links and the ports, bandwidth and latency in its own
    clock, statistics. *)
Record node (Q : Type) := mk_node {
  link_up : Q; link_down : Q; link_left : Q; link_right : Q;
  m_injection_port_queue_model : Q; m_ejection_port_queue_model : Q;
  m_link_bandwidth : ComponentBandwidthPerCycle.t; m_hop_latency : ComponentLatency.t;
  m_enabled : bool;
  m_total_bytes_sent : Z; m_total_packets_sent : Z; m_total_bytes_received : Z; m_total_packets_received : Z;
  m_total_contention_delay : Z; m_total_packet_latency : Z;
}.
Arguments mk_node {Q} _ _ _ _ _ _ _ _ _ _ _ _ _ _ _.
Arguments link_up {Q} _.
Arguments link_down {Q} _.
Arguments link_left {Q} _.
Arguments link_right {Q} _.
Arguments m_injection_port_queue_model {Q} _.
Arguments m_ejection_port_queue_model {Q} _.
Arguments m_link_bandwidth {Q} _.
Arguments m_hop_latency {Q} _.
Arguments m_enabled {Q} _.
Arguments m_total_bytes_sent {Q} _.
Arguments m_total_packets_sent {Q} _.
Arguments m_total_bytes_received {Q} _.
Arguments m_total_packets_received {Q} _.
Arguments m_total_contention_delay {Q} _.
Arguments m_total_packet_latency {Q} _.
Record t (Q : Type) := mk { cfg : config; mesh : params; nodes : list (node Q) }.
Arguments mk {Q} _ _ _.
Arguments cfg {Q} _.
Arguments mesh {Q} _.
Arguments nodes {Q} _.

(** [computeMeshDimensions]; [size]: the configured width and height, if any.  In the first case
    the quotients of floating-point numbers are exact whenever the last assertion holds. *)
Definition computeMeshDimensions (core_count concentration dimensions : Z) (size : option (Z * Z)) : result (Z * Z) :=
  let! (width, height) :=
    match size with
    | Some wh => Ok wh
    | None =>
        let! nodes := udiv core_count concentration in
        if dimensions =? 1 then Ok (nodes, 1)
        else if dimensions =? 2 then
          let width := Z.sqrt nodes in
          let! _ := check (negb (width =? 0)) DivByZero in
          Ok (width, NetworkModelEMeshHopCounter.ceil_div core_count (concentration * width))
        else Err LogError
    end in
  let! _ := check (core_count =? concentration * height * width) LogError in Ok (width, height).
Definition new_node {Q} (queue : Q) (bw : ComponentBandwidthPerCycle.t) (hop : ComponentLatency.t) : node Q :=
  mk_node queue queue queue queue queue queue bw hop false 0 0 0 0 0 0.
Definition new {Q} (g : config) (logical_cpus concentration dimensions : Z) (size : option (Z * Z)) (wrap_around broadcast_tree queue_model : bool)
    (l : list (Q * ComponentBandwidthPerCycle.t * ComponentLatency.t)) : result (t Q) :=
  let concentration := s32 (concentration * logical_cpus) in
  let! (w, h) := computeMeshDimensions (ApplicationCores g) concentration dimensions size in
  let! _ := umod 0 concentration in
  Ok (mk g (mk_params w h concentration dimensions wrap_around broadcast_tree queue_model) ((λ '(q, bw, hop), new_node q bw hop) <$> l)).

Section geometry.
Context (m : params).
(** A core that is not the first of its node, or not in the mesh. *)
Definition m_fake_node (core : Z) : bool :=
  negb (core `mod` m_concentration m =? 0) || (m_concentration m * m_mesh_width m * m_mesh_height m <=? core).
Definition computePosition (core : Z) : Z * Z :=
  ((core `div` m_concentration m) `mod` m_mesh_width m, (core `div` m_concentration m) `div` m_mesh_width m).
Definition computeCoreId (x y : Z) : Z :=
  let x := (x + m_mesh_width m) `mod` m_mesh_width m in
  let y := (y + m_mesh_height m) `mod` m_mesh_height m in
  (y * m_mesh_width m + x) * m_concentration m.
Definition computeDistance (sender receiver : Z) : Z :=
  let '(sx, sy) := computePosition sender in
  let '(dx, dy) := computePosition receiver in
  if m_wrap_around m
  then Z.min (Z.abs (sx - dx)) (m_mesh_width m - Z.abs (sx - dx)) + Z.min (Z.abs (sy - dy)) (m_mesh_height m - Z.abs (sy - dy))
  else Z.abs (sx - dx) + Z.abs (sy - dy).
(** Whether the way in one dimension is downwards, the link around included. *)
Definition downwards (s d size : Z) : bool :=
  xorb (d <? s) (m_wrap_around m && ((size + 1) `div` 2 <? Z.abs (s - d))).
Definition getNextDest (application_cores core dest : Z) : OutputDirection * Z :=
  if application_cores <=? dest then (DESTINATION, dest)
  else if core `div` m_concentration m =? dest `div` m_concentration m then (DESTINATION, dest)
  else if m_fake_node core then (PEER, core - core `mod` m_concentration m)
  else
    let '(sx, sy) := computePosition core in
    let '(dx, dy) := computePosition dest in
    if downwards sx dx (m_mesh_width m) then (LEFT, computeCoreId (sx - 1) sy)
    else if negb (sx =? dx) then (RIGHT, computeCoreId (sx + 1) sy)
    else if downwards sy dy (m_mesh_height m) then (DOWN, computeCoreId sx (sy - 1))
    else if negb (sy =? dy) then (UP, computeCoreId sx (sy + 1))
    else (SELF, core).
End geometry.

Section ops.
Context {Q : Type} `{QueueModel Q}.
Abbreviation S := (t Q).
Definition node_at (core : Z) : M S (node Q) := s ← gets id; lift (at_core (nodes s) core).
Definition put_node (core : Z) (n : node Q) : M S unit :=
  s ← gets id; l ← lift (put_core (nodes s) core n); modify (λ s, mk (cfg s) (mesh s) l).
Definition fake (core : Z) : M S bool := gets (λ s, m_fake_node (mesh s) core).
Definition with_sent (len : Z) (n : node Q) : node Q :=
  mk_node (link_up n) (link_down n) (link_left n) (link_right n) (m_injection_port_queue_model n) (m_ejection_port_queue_model n)
    (m_link_bandwidth n) (m_hop_latency n) (m_enabled n) (u64 (m_total_bytes_sent n + len)) (u64 (m_total_packets_sent n + 1))
    (m_total_bytes_received n) (m_total_packets_received n) (m_total_contention_delay n) (m_total_packet_latency n).
Definition with_received (len contention latency : Z) (n : node Q) : node Q :=
  mk_node (link_up n) (link_down n) (link_left n) (link_right n) (m_injection_port_queue_model n) (m_ejection_port_queue_model n)
    (m_link_bandwidth n) (m_hop_latency n) (m_enabled n) (m_total_bytes_sent n) (m_total_packets_sent n)
    (u64 (m_total_bytes_received n + len)) (u64 (m_total_packets_received n + 1))
    (SubsecondTime.add (m_total_contention_delay n) contention) (SubsecondTime.add (m_total_packet_latency n) latency).
Definition with_queues (up down left right injection ejection : Q) (n : node Q) : node Q :=
  mk_node up down left right injection ejection (m_link_bandwidth n) (m_hop_latency n) (m_enabled n) (m_total_bytes_sent n) (m_total_packets_sent n)
    (m_total_bytes_received n) (m_total_packets_received n) (m_total_contention_delay n) (m_total_packet_latency n).
(** The queue of a link; the directions that are not links have none. *)
Definition link (d : OutputDirection) (n : node Q) : option (Q * (Q → node Q)) :=
  let '(u, w, l, r, i, e) := (link_up n, link_down n, link_left n, link_right n, m_injection_port_queue_model n, m_ejection_port_queue_model n) in
  match d with
  | UP => Some (u, λ q, with_queues q w l r i e n)
  | DOWN => Some (w, λ q, with_queues u q l r i e n)
  | LEFT => Some (l, λ q, with_queues u w q r i e n)
  | RIGHT => Some (r, λ q, with_queues u w l q i e n)
  | _ => None
  end.
Definition with_injection (q : Q) (n : node Q) : node Q := with_queues (link_up n) (link_down n) (link_left n) (link_right n) q (m_ejection_port_queue_model n) n.
Definition with_ejection (q : Q) (n : node Q) : node Q := with_queues (link_up n) (link_down n) (link_left n) (link_right n) (m_injection_port_queue_model n) q n.

Definition computeProcessingTime (n : node Q) (pkt_length : Z) : result Z :=
  ComponentBandwidthPerCycle.getRoundedLatency (m_link_bandwidth n) (u32 (pkt_length * 8)).
Definition computeInjectionPortQueueDelay (core pkt_receiver pkt_time pkt_length : Z) : M S Z :=
  f ← fake core; assert_ (negb f);; s ← gets id;
  if negb (m_queue_model_enabled (mesh s)) || (pkt_receiver =? core) then mret SubsecondTime.Zero
  else
    n ← node_at core; processing_time ← lift (computeProcessingTime n pkt_length);
    '(d, q) ← lift (computeQueueDelay (m_injection_port_queue_model n) pkt_time processing_time INVALID_CORE_ID);
    put_node core (with_injection q n);; mret d.
Definition computeEjectionPortQueueDelay (core pkt_time pkt_length : Z) : M S Z :=
  f ← fake core; assert_ (negb f);; s ← gets id;
  if negb (m_queue_model_enabled (mesh s)) then mret SubsecondTime.Zero
  else
    n ← node_at core; processing_time ← lift (computeProcessingTime n pkt_length);
    '(d, q) ← lift (computeQueueDelay (m_ejection_port_queue_model n) pkt_time processing_time INVALID_CORE_ID);
    put_node core (with_ejection q n);; mret d.
(** The latency of a link, and the part of it that is the delay in the queue. *)
Definition computeLatency (core : Z) (direction : OutputDirection) (pkt_time pkt_length requester : Z) : M S (Z * Z) :=
  f ← fake core; assert_ (negb f);; s ← gets id; n ← node_at core;
  match link direction n with
  | None => fail LogError
  | Some (q, put) =>
      if negb (m_enabled n) || (ApplicationCores (cfg s) <=? requester) then mret (SubsecondTime.Zero, SubsecondTime.Zero)
      else
        processing_time ← lift (computeProcessingTime n pkt_length);
        queue_delay ←
          (if m_queue_model_enabled (mesh s) then
             '(d, q) ← lift (computeQueueDelay q pkt_time processing_time INVALID_CORE_ID); put_node core (put q);; mret d
           else mret SubsecondTime.Zero);
        mret (SubsecondTime.add (ComponentLatency.getLatency (m_hop_latency n)) queue_delay, queue_delay)
  end.
(** [queue_delay] of the packet is not the business of a broadcast: [addHop] gets no pointer to it. *)
Definition addHop (core : Z) (direction : OutputDirection) (final next pkt_time pkt_length requester : Z) : M S (Hop * Z) :=
  match direction with
  | SELF | PEER | DESTINATION => mret ({| final_dest := final; next_dest := next; hop_time := pkt_time |}, 0)
  | _ =>
      '(l, d) ← computeLatency core direction pkt_time pkt_length requester;
      mret ({| final_dest := final; next_dest := next; hop_time := SubsecondTime.add pkt_time l |}, d)
  end.
Fixpoint addHops (core : Z) (hops : list (OutputDirection * Z * Z)) (pkt_time pkt_length requester : Z) : M S (list Hop) :=
  match hops with
  | [] => mret []
  | (direction, final, next) :: hops =>
      '(h, _) ← addHop core direction final next pkt_time pkt_length requester;
      l ← addHops core hops pkt_time pkt_length requester; mret (h :: l)
  end.
(** The copies of a packet that is sent along a tree of all nodes. *)
Definition tree_hops (m : params) (core sender : Z) : list (OutputDirection * Z * Z) :=
  let '(sx, sy) := computePosition m sender in
  let '(cx, cy) := computePosition m core in
  (if sy <=? cy then [(UP, BROADCAST, computeCoreId m cx (cy + 1))] else []) ++
  (if cy <=? sy then [(DOWN, BROADCAST, computeCoreId m cx (cy - 1))] else []) ++
  (if cy =? sy then
     (if sx <=? cx then [(RIGHT, BROADCAST, computeCoreId m (cx + 1) cy)] else []) ++
     (if cx <=? sx then [(LEFT, BROADCAST, computeCoreId m (cx - 1) cy)] else []) ++
     (if cx =? sx then [(SELF, core, core)] else [])
   else []).
Fixpoint unicast_all (core : Z) (cores : list Z) (pkt_time pkt_length requester : Z) : M S (list Hop) :=
  match cores with
  | [] => mret []
  | i :: cores =>
      d ← computeInjectionPortQueueDelay core i pkt_time pkt_length;
      s ← gets id;
      let '(direction, next) := getNextDest (mesh s) (ApplicationCores (cfg s)) core i in
      '(h, _) ← addHop core direction i next (SubsecondTime.add pkt_time d) pkt_length requester;
      l ← unicast_all core cores pkt_time pkt_length requester; mret (h :: l)
  end.
Definition routePacket (core : Z) (p : NetPacket.t) : M S (list Hop * NetPacket.t) :=
  s ← gets id; requester ← lift (requester_of (cfg s) p);
  pkt_length ← lift (getModeledLength (cfg s) p);
  when (NetPacket.sender p =? core) (n ← node_at core; put_node core (with_sent pkt_length n));;
  if NetPacket.receiver p =? BROADCAST then
    l ←
      (if m_fake_node (mesh s) core then mret ((λ i, direct i (NetPacket.time p)) <$> all_cores (cfg s))
       else if m_broadcast_tree_enabled (mesh s) then
         d ← (if NetPacket.sender p =? core then computeInjectionPortQueueDelay core (NetPacket.receiver p) (NetPacket.time p) pkt_length
              else mret SubsecondTime.Zero);
         addHops core (tree_hops (mesh s) core (NetPacket.sender p)) (SubsecondTime.add (NetPacket.time p) d) pkt_length requester
       else
         assert_ (NetPacket.sender p =? core);; unicast_all core (all_cores (cfg s)) (NetPacket.time p) pkt_length requester);
    mret (l, p)
  else if m_fake_node (mesh s) core then mret ([direct (NetPacket.receiver p) (NetPacket.time p)], p)
  else
    d ← (if NetPacket.sender p =? core then computeInjectionPortQueueDelay core (NetPacket.receiver p) (NetPacket.time p) pkt_length
         else mret SubsecondTime.Zero);
    let '(direction, next) := getNextDest (mesh s) (ApplicationCores (cfg s)) core (NetPacket.receiver p) in
    '(h, link_delay) ← addHop core direction (NetPacket.receiver p) next (SubsecondTime.add (NetPacket.time p) d) pkt_length requester;
    mret ([h], NetPacket.set_queue_delay (SubsecondTime.add (SubsecondTime.add (NetPacket.queue_delay p) d) link_delay) p).
Definition processReceivedPacket (core : Z) (p : NetPacket.t) : M S NetPacket.t :=
  s ← gets id; pkt_length ← lift (getModeledLength (cfg s) p); requester ← lift (requester_of (cfg s) p);
  n ← node_at core;
  if negb (m_enabled n) || (ApplicationCores (cfg s) <=? requester) || (ApplicationCores (cfg s) <=? core) then mret p
  else
    let latency := SubsecondTime.sub (NetPacket.time p) (NetPacket.start_time p) in
    let contention := SubsecondTime.sub latency
      (SubsecondTime.mul (computeDistance (mesh s) (NetPacket.sender p) core) (ComponentLatency.getLatency (m_hop_latency n))) in
    '(latency, contention, p) ←
      (if negb (NetPacket.sender p =? core) && negb (m_fake_node (mesh s) core) then
         processing_time ← lift (computeProcessingTime n pkt_length);
         d ← computeEjectionPortQueueDelay core (NetPacket.time p) pkt_length;
         let out := SubsecondTime.add d processing_time in
         mret (SubsecondTime.add latency out, SubsecondTime.add contention d,
               NetPacket.set_queue_delay (SubsecondTime.add (NetPacket.queue_delay p) d)
                 (NetPacket.set_time (SubsecondTime.add (NetPacket.time p) out) p))
       else mret (latency, contention, p));
    n ← node_at core; put_node core (with_received pkt_length contention latency n);; mret p.
#[global] Instance model : NetworkModel S := {| Network.routePacket := routePacket; Network.processReceivedPacket := processReceivedPacket |}.
End ops.
End NetworkModelEMeshHopByHop.

(** *** Places of memory controllers *)
Module MemoryControllers.
Definition range (a b : Z) : list Z := (λ i, a + Z.of_nat i) <$> seq 0 (Z.to_nat (b - a)).
(** The nodes along the border, clockwise from (0,0). *)
Definition perimeter (mesh_width mesh_height dimensions : Z) : result (list Z) :=
  let top := range 0 mesh_width in
  if (1 <? dimensions) && (1 <? mesh_height) then
    let l := top ++ ((λ i, i * mesh_width + mesh_width - 1) <$> range 1 (mesh_height - 1))
      ++ ((λ i, (mesh_height - 1) * mesh_width + i) <$> reverse (range 0 mesh_width))
      ++ ((λ i, i * mesh_width) <$> reverse (range 1 (mesh_height - 1))) in
    let! _ := check (Z.of_nat (length l) =? u32 (2 * (mesh_width + mesh_height - 2))) AssertFail in Ok l
  else Ok top.
Fixpoint place (l : list Z) (concentration spacing start : Z) (ks : list Z) : result (list Z) :=
  match ks with
  | [] => Ok []
  | i :: ks =>
      let! index := umod (i * spacing + start) (Z.of_nat (length l)) in
      let! c := at_core l index in
      let! cs := place l concentration spacing start ks in Ok (concentration * c :: cs)
  end.
Definition computeMemoryControllerPositions (mesh_width mesh_height concentration dimensions num_memory_controllers : Z) : result (list Z) :=
  let! l := perimeter mesh_width mesh_height dimensions in
  let size := Z.of_nat (length l) in
  let! _ := check (u32 num_memory_controllers <=? size) LogError in
  let! spacing := udiv size (u32 num_memory_controllers) in
  place l concentration spacing (mesh_width `div` 2) (range 0 num_memory_controllers).
(** The other network models. *)
Definition spread (num_memory_controllers core_count : Z) : result (list Z) :=
  let! spacing := udiv core_count num_memory_controllers in
  let l := (λ i, i * spacing) <$> range 0 num_memory_controllers in
  let! _ := check (forallb (λ c, c <? core_count) l) AssertFail in Ok l.
End MemoryControllers.

(** ** [Network]

    The two static networks, the queues of the transport, the packets that no callback took, and
    the calls of callbacks, of all cores.  [core]: the core whose [Network] is called. *)
Module Network.
Record t (A B : Type) := mk {
  cfg : config;
  memory_1 : A; system : B;
  m_queue : list (list NetPacket.t);
  _netQueue : list (list NetPacket.t);
  called : list (Z * NetPacket.t);
}.
Arguments mk {A B} _ _ _ _ _ _.
Arguments cfg {A B} _.
Arguments memory_1 {A B} _.
Arguments system {A B} _.
Arguments m_queue {A B} _.
Arguments _netQueue {A B} _.
Arguments called {A B} _.

Section ops.
Context {A B : Type} `{NetworkModel A} `{NetworkModel B}.
Abbreviation S := (t A B).
Definition set_queues (l : list (list NetPacket.t)) (s : S) : S := mk (cfg s) (memory_1 s) (system s) l (_netQueue s) (called s).
Definition set_netQueue (l : list (list NetPacket.t)) (s : S) : S := mk (cfg s) (memory_1 s) (system s) (m_queue s) l (called s).

(** The model of a packet's network, at any core. *)
Definition in_network {R} (ty : PacketType) (fa : M A R) (fb : M B R) : M S R := λ s,
  match g_type_to_static_network_map ty with
  | STATIC_NETWORK_MEMORY_1 => let! (r, a) := fa (memory_1 s) in Ok (r, mk (cfg s) a (system s) (m_queue s) (_netQueue s) (called s))
  | STATIC_NETWORK_SYSTEM => let! (r, b) := fb (system s) in Ok (r, mk (cfg s) (memory_1 s) b (m_queue s) (_netQueue s) (called s))
  end.
Definition route (core : Z) (p : NetPacket.t) : M S (list Hop * NetPacket.t) :=
  in_network (NetPacket.type p) (routePacket core p) (routePacket core p).
Definition receive (core : Z) (p : NetPacket.t) : M S NetPacket.t :=
  in_network (NetPacket.type p) (processReceivedPacket core p) (processReceivedPacket core p).

(** [SmNode::send] and [SmNode::recv]. *)
Definition send (dest : Z) (p : NetPacket.t) : M S unit :=
  s ← gets id; l ← lift (at_core (m_queue s) dest); q ← lift (put_core (m_queue s) dest (l ++ [p])); modify (set_queues q).
Definition recv (core : Z) : M S (option NetPacket.t) :=
  s ← gets id; l ← lift (at_core (m_queue s) core);
  match l with
  | [] => mret None
  | p :: l => q ← lift (put_core (m_queue s) core l); modify (set_queues q);; mret (Some p)
  end.

(** The loop of [netSend]: a packet to one core goes through the models of the cores on its way. *)
Fixpoint follow (fuel : nat) (h : Hop) (p : NetPacket.t) : M S (Hop * NetPacket.t) :=
  if (final_dest h =? BROADCAST) || (next_dest h =? final_dest h) then mret (h, p)
  else
    match fuel with
    | O => fail NoFuel
    | Datatypes.S n =>
        let p := NetPacket.set_receiver (final_dest h) (NetPacket.set_time (hop_time h) p) in
        s ← gets id; assert_ ((0 <=? next_dest h) && (next_dest h <? TotalCores (cfg s)));;
        '(l, p) ← route (next_dest h) p;
        match l with
        | [h] => follow n h p
        | _ => fail AssertFail
        end
    end.
(** [buffer]: the image of the packet, made before its hops are followed. *)
Fixpoint send_hops (fuel : nat) (core start_time : Z) (buffer : NetPacket.t) (l : list Hop) (p : NetPacket.t) : M S NetPacket.t :=
  match l with
  | [] => mret p
  | h :: l =>
      '(h, p) ← follow fuel h p;
      let b := if core =? NetPacket.sender buffer then NetPacket.set_start_time start_time buffer else buffer in
      let b := NetPacket.set_receiver (final_dest h) (NetPacket.set_time (hop_time h) b) in
      send (next_dest h) b;; send_hops fuel core start_time b l p
  end.
Definition netSend (fuel : nat) (core : Z) (p : NetPacket.t) : M S NetPacket.t :=
  '(l, p) ← route core p; send_hops fuel core (NetPacket.time p) p l p.

(** A round of [netPullFromTransport], which waits for a packet if there is none.  [callback]:
    whether one is registered for a type. *)
Definition pull (fuel : nat) (callback : PacketType → bool) (core : Z) : M S bool :=
  o ← recv core;
  match o with
  | None => mret false
  | Some p =>
      s ← gets id; assert_ ((0 <=? NetPacket.sender p) && (NetPacket.sender p <? TotalCores (cfg s)));;
      p' ← (if NetPacket.receiver p =? core then mret p else netSend fuel core p);
      if negb (NetPacket.receiver p =? core) && negb (NetPacket.receiver p' =? BROADCAST) then mret true
      else
        p ← receive core p';
        (if callback (NetPacket.type p) then modify (λ s, mk (cfg s) (memory_1 s) (system s) (m_queue s) (_netQueue s) (called s ++ [(core, p)]))
         else s ← gets id; l ← lift (at_core (_netQueue s) core); q ← lift (put_core (_netQueue s) core (l ++ [p])); modify (set_netQueue q));;
        mret true
  end.

(** [netRecv]: the packet it takes, and the others; [None]: it waits. *)
Definition matches (g : config) (senders : list Z) (types : list PacketType) (p : NetPacket.t) : bool :=
  (match senders with [] => (0 <=? NetPacket.sender p) && (NetPacket.sender p <? TotalCores g) | _ => bool_decide (NetPacket.sender p ∈ senders) end) &&
  (match types with [] => true | _ => bool_decide (NetPacket.type p ∈ types) end).
Fixpoint earliest (fits : NetPacket.t → bool) (i : nat) (l : list NetPacket.t) (best : option (nat * NetPacket.t)) : option (nat * NetPacket.t) :=
  match l with
  | [] => best
  | p :: l =>
      earliest fits (Datatypes.S i) l
        (if fits p && match best with None => true | Some (_, b) => NetPacket.time p <? NetPacket.time b end then Some (i, p) else best)
  end.
(** [now]: the clock of the core; the time by which the packet is late, if it is a core of the
    simulator itself. *)
Definition netRecv (core : Z) (senders : list Z) (types : list PacketType) (now : Z) : M S (option (NetPacket.t * option Z)) :=
  s ← gets id; l ← lift (at_core (_netQueue s) core);
  match earliest (matches (cfg s) senders types) 0 l None with
  | None => mret None
  | Some (i, p) =>
      assert_ ((0 <=? NetPacket.sender p) && (NetPacket.sender p <? TotalCores (cfg s)));;
      assert_ ((NetPacket.receiver p =? core) || (NetPacket.receiver p =? BROADCAST));;
      q ← lift (put_core (_netQueue s) core (delete i l)); modify (set_netQueue q);;
      if now <? NetPacket.time p then
        let late := SubsecondTime.sub (NetPacket.time p) now in
        if core <? ApplicationCores (cfg s) then
          when (negb (late <? SubsecondTime.mul 100 SubsecondTime.NS_1)) (fail LogError);; mret (Some (p, None))
        else mret (Some (p, Some late))
      else mret (Some (p, None))
  end.
End ops.
End Network.
