(* ===== verification/Mesh.v ===== *)
(** The ways of packets through a mesh or torus, [network_model_emesh_hop_by_hop.cc]: the geometry
    of its nodes, dimension-order routing and its length, the border on which memory controllers
    are placed, and the tree of broadcasts. *)
From S2P Require Import Prelude Utils Timing QueueModels BlockInfo ShmemMsg StateResult Network.
Import NetworkModelEMeshHopByHop.

(** A mesh that [computeMeshDimensions] accepts, with all application cores in it. *)
Record sane (g : config) (m : params) : Prop := {
  sane_width : 0 < m_mesh_width m;
  sane_height : 0 < m_mesh_height m;
  sane_concentration : 0 < m_concentration m;
  sane_cores : ApplicationCores g = m_concentration m * m_mesh_width m * m_mesh_height m;
  sane_total : ApplicationCores g ≤ TotalCores g;
}.

(** The number of links on the way in one dimension, and in all. *)
Definition steps (wrap_around : bool) (size s d : Z) : Z :=
  if wrap_around && ((size + 1) `div` 2 <? Z.abs (s - d)) then size - Z.abs (s - d) else Z.abs (s - d).
Definition route_length (m : params) (core dest : Z) : Z :=
  let '(sx, sy) := computePosition m core in
  let '(dx, dy) := computePosition m dest in
  steps (m_wrap_around m) (m_mesh_width m) sx dx + steps (m_wrap_around m) (m_mesh_height m) sy dy.

(** ** One dimension *)
Lemma step_mod size z : 0 < size → -1 ≤ z ≤ size → (z + size) `mod` size = if z =? -1 then size - 1 else if z =? size then 0 else z.
Proof.
  intros Hs Hz. destruct (Z.eqb_spec z (-1)) as [->|]; [symmetry; apply Z.mod_unique with 0; lia|].
  destruct (Z.eqb_spec z size) as [->|]; [symmetry; apply Z.mod_unique with 2; lia | symmetry; apply Z.mod_unique with 1; lia].
Qed.
Section dimension.
Context (m : params) (size s d : Z) (Hs : 0 ≤ s < size) (Hd : 0 ≤ d < size).
Definition step : Z := ((if downwards m s d size then s - 1 else s + 1) + size) `mod` size.

(** A step goes to a neighbour that is nearer. *)
Lemma step_nearer : s ≠ d → 0 ≤ step < size ∧ steps (m_wrap_around m) size step d = steps (m_wrap_around m) size s d - 1.
Proof.
  intros Hne. assert (Hr : 0 ≤ step < size) by (apply Z.mod_pos_bound; lia). split; [done|]. unfold step, downwards, steps in *.
  pose proof (Z.div_mod (size + 1) 2 ltac:(lia)) as Hq. pose proof (Z.mod_pos_bound (size + 1) 2 ltac:(lia)) as Hq'.
  set (q := (size + 1) `div` 2) in *. destruct (m_wrap_around m); cbn [andb]; rewrite ?xorb_false_r.
  - destruct (Z.ltb_spec d s), (Z.ltb_spec q (Z.abs (s - d))); cbn [xorb] in *; rewrite step_mod by lia;
      repeat match goal with |- context [?a =? ?b] => destruct (Z.eqb_spec a b) end; try lia;
      match goal with |- context [q <? ?a] => destruct (Z.ltb_spec q a) end; lia.
  - destruct (Z.ltb_spec d s); rewrite step_mod by lia;
      repeat match goal with |- context [?a =? ?b] => destruct (Z.eqb_spec a b) end; lia.
Qed.
Lemma steps_bound : 0 ≤ steps (m_wrap_around m) size s d < size.
Proof. unfold steps. destruct (m_wrap_around m && _) eqn:E; [|lia]. apply andb_true_iff in E as [_ E%Z.ltb_lt].
  pose proof (Z.div_mod (size + 1) 2 ltac:(lia)). pose proof (Z.mod_pos_bound (size + 1) 2 ltac:(lia)). lia. Qed.
(** The shortest way, unless the size is odd and the way around is shorter by one. *)
Lemma steps_shortest : steps (m_wrap_around m) size s d =
  (if m_wrap_around m then Z.min (Z.abs (s - d)) (size - Z.abs (s - d)) else Z.abs (s - d)) +
  (if m_wrap_around m && (2 * Z.abs (s - d) =? size + 1) then 1 else 0).
Proof.
  unfold steps. destruct (m_wrap_around m); cbn [andb]; [|lia].
  pose proof (Z.div_mod (size + 1) 2 ltac:(lia)). pose proof (Z.mod_pos_bound (size + 1) 2 ltac:(lia)).
  destruct (Z.ltb_spec ((size + 1) `div` 2) (Z.abs (s - d))), (Z.eqb_spec (2 * Z.abs (s - d)) (size + 1)); lia.
Qed.
End dimension.

(** ** Nodes *)
Section nodes.
Context (g : config) (m : params) (Hm : sane g m).
(** The first core of a node. *)
Definition master (core : Z) : Prop := 0 ≤ core < ApplicationCores g ∧ core `mod` m_concentration m = 0.

Lemma master_not_fake core : 0 ≤ core → m_fake_node m core = false ↔ master core.
Proof using Hm.
  intros Hc. destruct Hm. unfold m_fake_node, master. rewrite orb_false_iff, negb_false_iff, Z.eqb_eq, Z.leb_gt. intuition lia.
Qed.
Lemma node_range core : 0 ≤ core < ApplicationCores g → 0 ≤ core `div` m_concentration m < m_mesh_width m * m_mesh_height m.
Proof using Hm. destruct Hm. intros Hc. split; [apply Z.div_pos; lia | apply Z.div_lt_upper_bound; lia]. Qed.
Lemma position_range core : 0 ≤ core < ApplicationCores g →
  0 ≤ (computePosition m core).1 < m_mesh_width m ∧ 0 ≤ (computePosition m core).2 < m_mesh_height m.
Proof using Hm.
  intros Hc%node_range. destruct Hm. cbn. split; [apply Z.mod_pos_bound; lia|].
  split; [apply Z.div_pos; lia | apply Z.div_lt_upper_bound; lia].
Qed.
Lemma position_inj a b : computePosition m a = computePosition m b ↔ a `div` m_concentration m = b `div` m_concentration m.
Proof using Hm.
  destruct Hm. unfold computePosition. split; [intros [= H1 H2] | by intros ->].
  rewrite (Z.div_mod (a `div` m_concentration m) (m_mesh_width m)), (Z.div_mod (b `div` m_concentration m) (m_mesh_width m)) by lia. congruence.
Qed.
Lemma core_at x y : 0 ≤ x < m_mesh_width m → 0 ≤ y < m_mesh_height m →
  let c := (y * m_mesh_width m + x) * m_concentration m in master c ∧ computePosition m c = (x, y).
Proof using Hm.
  intros Hx Hy c. destruct Hm. assert (Hc : c `div` m_concentration m = y * m_mesh_width m + x) by (unfold c; apply Z.div_mul; lia). split.
  - split; [|apply Z.mod_mul; lia]. assert (0 ≤ y * m_mesh_width m + x < m_mesh_width m * m_mesh_height m) by nia. unfold c. rewrite sane_cores0. nia.
  - unfold computePosition. rewrite Hc. f_equal; symmetry; [apply Z.mod_unique with y | apply Z.div_unique with x]; lia.
Qed.
Lemma route_length_zero core : route_length m core core = 0.
Proof.
  unfold route_length, steps. destruct (computePosition m core). rewrite !Z.sub_diag. cbn [Z.abs].
  destruct Hm. pose proof (Z.div_mod (m_mesh_width m + 1) 2 ltac:(lia)). pose proof (Z.div_mod (m_mesh_height m + 1) 2 ltac:(lia)).
  pose proof (Z.mod_pos_bound (m_mesh_width m + 1) 2 ltac:(lia)). pose proof (Z.mod_pos_bound (m_mesh_height m + 1) 2 ltac:(lia)).
  rewrite !(proj2 (Z.ltb_ge _ 0)) by lia. by rewrite !andb_false_r.
Qed.
Lemma route_length_bound core dest : 0 ≤ core < ApplicationCores g → 0 ≤ dest < ApplicationCores g →
  0 ≤ route_length m core dest < m_mesh_width m + m_mesh_height m - 1.
Proof using Hm.
  intros Hc%position_range Hd%position_range. unfold route_length.
  destruct (computePosition m core) as [sx sy], (computePosition m dest) as [dx dy]. cbn in *.
  pose proof (steps_bound m (m_mesh_width m) sx dx ltac:(lia) ltac:(lia)). pose proof (steps_bound m (m_mesh_height m) sy dy ltac:(lia) ltac:(lia)). lia.
Qed.

(** A way goes from node to node, each nearer by one link, until the node of the destination. *)
Lemma next_nearer core dest : master core → 0 ≤ dest < ApplicationCores g → core `div` m_concentration m ≠ dest `div` m_concentration m →
  ∃ dir next, getNextDest m (ApplicationCores g) core dest = (dir, next) ∧ (dir = UP ∨ dir = DOWN ∨ dir = LEFT ∨ dir = RIGHT) ∧
    master next ∧ route_length m next dest = route_length m core dest - 1.
Proof using Hm.
  intros Hcore Hdest Hne. pose proof (proj2 (master_not_fake core ltac:(apply Hcore)) Hcore) as Hfake.
  unfold getNextDest, route_length. rewrite Hfake, (proj2 (Z.leb_gt _ _)) by lia. rewrite (proj2 (Z.eqb_neq _ _)) by done.
  destruct Hcore as [Hcore _]. pose proof (position_range core Hcore) as [Hsx Hsy]. pose proof (position_range dest Hdest) as [Hdx Hdy].
  rewrite <- position_inj in Hne. destruct (computePosition m core) as [sx sy], (computePosition m dest) as [dx dy]. cbn in Hsx, Hsy, Hdx, Hdy.
  assert (Hsame : ∀ size z, 0 < size → downwards m z z size = false).
  { intros size z Hz. unfold downwards. rewrite Z.ltb_irrefl, Z.sub_diag. cbn. apply andb_false_iff. right. apply Z.ltb_ge. apply Z.div_pos; lia. }
  assert (Hmod : ∀ size z, 0 ≤ z < size → (z + size) `mod` size = z).
  { intros size z Hz. rewrite step_mod by lia. repeat case_match; lia. }
  assert (Hx : sx ≠ dx → ∀ x, computeCoreId m x sy = (sy * m_mesh_width m + (x + m_mesh_width m) `mod` m_mesh_width m) * m_concentration m).
  { intros _ x. unfold computeCoreId. by rewrite (Hmod _ sy). }
  assert (Hy : ∀ y, computeCoreId m sx y = ((y + m_mesh_height m) `mod` m_mesh_height m * m_mesh_width m + sx) * m_concentration m).
  { intros y. unfold computeCoreId. by rewrite (Hmod _ sx). }
  destruct (decide (sx = dx)) as [->|Hnx].
  - assert (Hny : sy ≠ dy) by congruence. rewrite Hsame, Z.eqb_refl by lia. cbn [negb].
    destruct (step_nearer m (m_mesh_height m) sy dy Hsy Hdy Hny) as [Hr Hl]. unfold step in Hr, Hl.
    rewrite (proj2 (Z.eqb_neq _ _) Hny). cbn [negb].
    destruct (downwards m sy dy (m_mesh_height m)); do 2 eexists; (split; [done|]); (split; [tauto|]);
      rewrite Hy; destruct (core_at dx _ Hsx Hr) as [H1 H2]; (split; [exact H1|]); rewrite H2; lia.
  - destruct (step_nearer m (m_mesh_width m) sx dx Hsx Hdx Hnx) as [Hr Hl]. unfold step in Hr, Hl.
    rewrite (proj2 (Z.eqb_neq _ _) Hnx). cbn [negb].
    destruct (downwards m sx dx (m_mesh_width m)); do 2 eexists; (split; [done|]); (split; [tauto|]);
      rewrite Hx by done; destruct (core_at _ sy Hr Hsy) as [H1 H2]; (split; [exact H1|]); rewrite H2; lia.
Qed.
End nodes.
