(* ===== verification/Delivery.v ===== *)
(** What networks promise, and what [Network] makes of it: packets arrive where they were sent,
    in order, once.  [NetworkLaws] is the promise of a network model; the models satisfy it; the
    theorem about runs of [netSend] and [netPullFromTransport] uses nothing else. *)
From S2P Require Import Prelude Utils Timing QueueModels BlockInfo ShmemMsg StateResult Memory Network Mesh.
Import NetPacket (BROADCAST).

(** What a network leaves as it is. *)
Definition contents : Type := PacketType * Z * Z * option ShmemMsg.t.
Definition content (p : NetPacket.t) : contents := (NetPacket.type p, NetPacket.sender p, NetPacket.length p, NetPacket.data p).
Definition core_ok (g : config) (c : Z) : Prop := 0 ≤ c < TotalCores g.
(** A packet that a core sends, with a message whose modelled length and requester are known. *)
Definition packet_ok (g : config) (p : NetPacket.t) : Prop :=
  core_ok g (NetPacket.sender p) ∧ (∃ r, requester_of g p = Ok r) ∧ (∃ n, getModeledLength g p = Ok n).
Lemma packet_ok_content g p q : content p = content q → packet_ok g p → packet_ok g q.
Proof.
  destruct p, q. unfold content, packet_ok, requester_of, getModeledLength, NetPacket.bufferSize, message. cbn. by intros [= -> -> -> ->].
Qed.
Lemma BROADCAST_negative : BROADCAST < 0.
Proof. done. Qed.

(** ** The laws of a network model

    A packet to one core gets one hop, which ends there or leads to a core that is nearer; a
    broadcast gets a hop for every core.  Nothing fails, and packets stay what they are. *)
Class NetworkLaws (N : Type) `{NetworkModel N} := {
  net_inv : config → N → Prop;
  distance : N → Z → Z → nat;
  diameter : N → nat;
  good_hop (g : config) (s : N) (core d : Z) (h : Hop) : Prop :=
    final_dest h = d ∧ (next_dest h = d ∨ core_ok g (next_dest h) ∧ (distance s (next_dest h) d < distance s core d ≤ diameter s)%nat);
  net_keeps (g : config) (s s' : N) : Prop :=
    net_inv g s' ∧ diameter s' = diameter s ∧ ∀ a b, distance s' a b = distance s a b;
  route_unicast g s core p : net_inv g s → core_ok g core → packet_ok g p → core_ok g (NetPacket.receiver p) →
    wps never (routePacket core p) s (λ r s',
      (∃ h, r.1 = [h] ∧ good_hop g s core (NetPacket.receiver p) h) ∧ content r.2 = content p ∧ net_keeps g s s');
  route_broadcast g s core p : net_inv g s → core_ok g core → packet_ok g p → NetPacket.receiver p = BROADCAST → NetPacket.sender p = core →
    wps never (routePacket core p) s (λ r s',
      Forall2 (good_hop g s core) (all_cores g) r.1 ∧ content r.2 = content p ∧ net_keeps g s s');
  receive_total g s core p : net_inv g s → core_ok g core → packet_ok g p →
    wps never (processReceivedPacket core p) s (λ q s', content q = content p ∧ net_keeps g s s');
}.

(** ** [Network] over lawful models *)
Section delivery.
Context {A B : Type} `{NetworkLaws A} `{NetworkLaws B}.
Abbreviation S := (Network.t A B).
Implicit Types (s : S) (p : NetPacket.t).

Definition queue_at s (d : Z) : list NetPacket.t := default [] (Network.m_queue s !! Z.to_nat d).
Definition netQueue_at s (d : Z) : list NetPacket.t := default [] (Network._netQueue s !! Z.to_nat d).
Definition called_at s (d : Z) : list NetPacket.t := snd <$> filter (λ x, x.1 = d) (Network.called s).
Record inv s : Prop := {
  inv_memory : net_inv (Network.cfg s) (Network.memory_1 s);
  inv_system : net_inv (Network.cfg s) (Network.system s);
  inv_queues : length (Network.m_queue s) = Z.to_nat (TotalCores (Network.cfg s));
  inv_netQueues : length (Network._netQueue s) = Z.to_nat (TotalCores (Network.cfg s));
  inv_packets d p : core_ok (Network.cfg s) d → p ∈ queue_at s d → NetPacket.receiver p = d ∧ packet_ok (Network.cfg s) p;
}.
Definition dist s (ty : PacketType) (a b : Z) : nat :=
  match g_type_to_static_network_map ty with
  | STATIC_NETWORK_MEMORY_1 => distance (Network.memory_1 s) a b | STATIC_NETWORK_SYSTEM => distance (Network.system s) a b end.
Definition diam s (ty : PacketType) : nat :=
  match g_type_to_static_network_map ty with
  | STATIC_NETWORK_MEMORY_1 => diameter (Network.memory_1 s) | STATIC_NETWORK_SYSTEM => diameter (Network.system s) end.
Definition toward s ty (core d : Z) (h : Hop) : Prop :=
  final_dest h = d ∧ (next_dest h = d ∨ core_ok (Network.cfg s) (next_dest h) ∧ (dist s ty (next_dest h) d < dist s ty core d ≤ diam s ty)%nat).
(** Only the models have changed. *)
Definition models_only s s' : Prop :=
  inv s' ∧ Network.cfg s' = Network.cfg s ∧ Network.m_queue s' = Network.m_queue s ∧ Network._netQueue s' = Network._netQueue s ∧
  Network.called s' = Network.called s ∧ (∀ ty a b, dist s' ty a b = dist s ty a b) ∧ ∀ ty, diam s' ty = diam s ty.

Lemma models_only_refl s : inv s → models_only s s.
Proof. by intros Hs. Qed.
Lemma models_only_trans s1 s2 s3 : models_only s1 s2 → models_only s2 s3 → models_only s1 s3.
Proof. intros (?&?&?&?&?&Hd&Hm) (?&?&?&?&?&Hd'&Hm'). split; [done|]. split_and!; try congruence; intros; by rewrite ?Hd', ?Hm'. Qed.

Lemma wps_in_network {R} ty (fa : M A R) (fb : M B R) s (Q : R → S → Prop) :
  (g_type_to_static_network_map ty = STATIC_NETWORK_MEMORY_1 → wps never fa (Network.memory_1 s) (λ r a, Q r
     (Network.mk (Network.cfg s) a (Network.system s) (Network.m_queue s) (Network._netQueue s) (Network.called s)))) →
  (g_type_to_static_network_map ty = STATIC_NETWORK_SYSTEM → wps never fb (Network.system s) (λ r b, Q r
     (Network.mk (Network.cfg s) (Network.memory_1 s) b (Network.m_queue s) (Network._netQueue s) (Network.called s)))) →
  wps never (Network.in_network ty fa fb) s Q.
Proof.
  intros Ha Hb. unfold wps, Network.in_network in *. destruct (g_type_to_static_network_map ty).
  - specialize (Ha eq_refl). by destruct (fa _) as [[]|].
  - specialize (Hb eq_refl). by destruct (fb _) as [[]|].
Qed.
Lemma keeps_memory s a : inv s → net_keeps (Network.cfg s) (Network.memory_1 s) a →
  models_only s (Network.mk (Network.cfg s) a (Network.system s) (Network.m_queue s) (Network._netQueue s) (Network.called s)).
Proof.
  intros [] (Hk & Hm & Hd). split_and!; try done.
  - intros ty x y. unfold dist. cbn. by destruct (g_type_to_static_network_map ty).
  - intros ty. unfold diam. cbn. by destruct (g_type_to_static_network_map ty).
Qed.
Lemma keeps_system s b : inv s → net_keeps (Network.cfg s) (Network.system s) b →
  models_only s (Network.mk (Network.cfg s) (Network.memory_1 s) b (Network.m_queue s) (Network._netQueue s) (Network.called s)).
Proof.
  intros [] (Hk & Hm & Hd). split_and!; try done.
  - intros ty x y. unfold dist. cbn. by destruct (g_type_to_static_network_map ty).
  - intros ty. unfold diam. cbn. by destruct (g_type_to_static_network_map ty).
Qed.

Lemma route_unicast_spec s core p : inv s → core_ok (Network.cfg s) core → packet_ok (Network.cfg s) p → core_ok (Network.cfg s) (NetPacket.receiver p) →
  wps never (Network.route core p) s (λ r s',
    (∃ h, r.1 = [h] ∧ toward s (NetPacket.type p) core (NetPacket.receiver p) h) ∧ content r.2 = content p ∧ models_only s s').
Proof.
  intros Hs Hc Hp Hr. unfold Network.route, toward, dist, diam. apply wps_in_network; intros ->.
  - eapply wps_mono; [apply (route_unicast (Network.cfg s)); [apply Hs | done..]|]. cbn. intros r a (Hh & Hco & Hk). split_and!; [done | done |].
    by apply keeps_memory.
  - eapply wps_mono; [apply (route_unicast (Network.cfg s)); [apply Hs | done..]|]. cbn. intros r a (Hh & Hco & Hk). split_and!; [done | done |].
    by apply keeps_system.
Qed.
Lemma route_broadcast_spec s core p : inv s → core_ok (Network.cfg s) core → packet_ok (Network.cfg s) p → NetPacket.receiver p = BROADCAST →
  NetPacket.sender p = core → wps never (Network.route core p) s (λ r s',
    Forall2 (toward s (NetPacket.type p) core) (all_cores (Network.cfg s)) r.1 ∧ content r.2 = content p ∧ models_only s s').
Proof.
  intros Hs Hc Hp Hr Hse. unfold Network.route, toward, dist, diam. apply wps_in_network; intros ->.
  - eapply wps_mono; [apply (route_broadcast (Network.cfg s)); [apply Hs | done..]|]. cbn. intros r a (Hh & Hco & Hk). split_and!; [done | done |].
    by apply keeps_memory.
  - eapply wps_mono; [apply (route_broadcast (Network.cfg s)); [apply Hs | done..]|]. cbn. intros r a (Hh & Hco & Hk). split_and!; [done | done |].
    by apply keeps_system.
Qed.
Lemma receive_spec s core p : inv s → core_ok (Network.cfg s) core → packet_ok (Network.cfg s) p →
  wps never (Network.receive core p) s (λ q s', content q = content p ∧ models_only s s').
Proof.
  intros Hs Hc Hp. unfold Network.receive. apply wps_in_network; intros _.
  - eapply wps_mono; [apply (receive_total (Network.cfg s)); [apply Hs | done..]|]. cbn. intros r a [? Hk]. split; [done|]. by apply keeps_memory.
  - eapply wps_mono; [apply (receive_total (Network.cfg s)); [apply Hs | done..]|]. cbn. intros r a [? Hk]. split; [done|]. by apply keeps_system.
Qed.

(** Every packet gets where it is sent, within as many rounds as it is far. *)
Lemma follow_spec fuel h p s d : inv s → packet_ok (Network.cfg s) p → core_ok (Network.cfg s) d → final_dest h = d →
  (next_dest h = d ∨ core_ok (Network.cfg s) (next_dest h) ∧ (dist s (NetPacket.type p) (next_dest h) d < fuel)%nat) →
  wps never (Network.follow fuel h p) s (λ r s', final_dest r.1 = d ∧ next_dest r.1 = d ∧ content r.2 = content p ∧ models_only s s').
Proof.
  revert h p s. induction fuel as [|n IH]; intros h p s Hs Hp Hd Hf Hn; cbn [Network.follow].
  all: destruct (Z.eqb_spec (final_dest h) BROADCAST); [pose proof BROADCAST_negative; destruct Hd; lia|]; cbn [orb];
    destruct (Z.eqb_spec (next_dest h) (final_dest h)) as [Heq|Hne]; [wstep; split_and!; cbn; [done | congruence | done | by apply models_only_refl]|];
    destruct Hn as [Hn|[Hn Hlt]]; [congruence|]; try lia.
  wstep. wstep. wstep. wstep; [|unfold core_ok, id in *; lia]. wstep. set (p' := NetPacket.set_receiver _ _). unfold id.
  assert (Hp' : packet_ok (Network.cfg s) p') by by apply (packet_ok_content _ p).
  eapply wps_mono; [apply route_unicast_spec; [done | done | done | by cbn; rewrite Hf]|]. cbn. intros [l q] s1 ((h1 & Hl & Hf1 & Hh1) & Hc & Hk).
  cbn in Hl, Hc. subst l. pose proof Hk as (Hs1 & Hg & _ & _ & _ & Hdist & _). eapply wps_mono; [apply IH|].
  - done.
  - rewrite Hg. by apply (packet_ok_content _ p').
  - by rewrite Hg.
  - congruence.
  - rewrite Hg, Hdist. destruct Hh1 as [Hh1|[Hh1 Hlt1]]; [left; congruence | right; split; [done|]].
    assert (NetPacket.type q = NetPacket.type p) as -> by (by injection Hc). rewrite Hf in Hlt1. lia.
  - cbn. intros [h2 q2] s2 (Hf2 & Hn2 & Hc2 & Hk2). cbn in *. split_and!; [done | done | by rewrite Hc2 | by eapply models_only_trans].
Qed.

(** The queues of the cores. *)
Lemma at_core_spec {X} (l : list X) d : 0 ≤ d < Z.of_nat (length l) → ∃ x, at_core l d = Ok x ∧ l !! Z.to_nat d = Some x ∧
  ∀ y, put_core l d y = Ok (<[Z.to_nat d := y]> l).
Proof.
  intros Hd. destruct (lookup_lt_is_Some_2 l (Z.to_nat d)) as [x Hx]; [lia|]. exists x.
  unfold at_core, put_core, arr_get, arr_set. rewrite (proj2 (Z.ltb_ge d 0)) by lia. by rewrite Hx.
Qed.
(** [s'] is [s] with packets of content [c] in the queues of the cores [ds], one after the other. *)
Definition sent_to s (c : contents) (ds : list Z) s' : Prop :=
  inv s' ∧ Network.cfg s' = Network.cfg s ∧ Network._netQueue s' = Network._netQueue s ∧ Network.called s' = Network.called s ∧
  (∀ ty a b, dist s' ty a b = dist s ty a b) ∧ (∀ ty, diam s' ty = diam s ty) ∧
  ∀ d, core_ok (Network.cfg s) d → content <$> queue_at s' d = (content <$> queue_at s d) ++ ((λ _, c) <$> filter (λ x, x = d) ds).
Lemma sent_to_nil s c s' : models_only s s' → sent_to s c [] s'.
Proof.
  intros (?&?&Hq&?&?&?&?). split_and!; try done. intros d _. cbn. rewrite app_nil_r. unfold queue_at. by rewrite Hq.
Qed.
Lemma sent_to_app s1 s2 s3 c ds ds' : sent_to s1 c ds s2 → sent_to s2 c ds' s3 → sent_to s1 c (ds ++ ds') s3.
Proof.
  intros (?&Hg&?&?&Hd&Hm&Hq) (?&?&?&?&Hd'&Hm'&Hq'). split; [done|]. split_and!; try congruence.
  intros d Hdo. rewrite Hq' by (by rewrite Hg). rewrite Hq by done. by rewrite filter_app, fmap_app, app_assoc.
Qed.
Lemma send_spec s d p : inv s → core_ok (Network.cfg s) d → packet_ok (Network.cfg s) p → NetPacket.receiver p = d →
  wps never (Network.send d p) s (λ _ s', sent_to s (content p) [d] s').
Proof.
  intros Hs Hd Hp Hr. unfold Network.send. wstep. wstep. unfold id. wstep.
  destruct (at_core_spec (Network.m_queue s) d) as (l & Hl & Hl' & Hput); [rewrite (inv_queues _ Hs); unfold core_ok in Hd; lia|].
  eapply wps_lift_ok; [exact Hl|]. wstep. eapply wps_lift_ok; [apply Hput|]. wstep.
  assert (Hq : ∀ x, core_ok (Network.cfg s) x → queue_at (Network.set_queues (<[Z.to_nat d := l ++ [p]]> (Network.m_queue s)) s) x =
    if decide (x = d) then l ++ [p] else queue_at s x).
  { intros x Hx. unfold queue_at. cbn. case_decide as Hxd.
    - subst. rewrite list_lookup_insert_eq; [done|]. by eapply lookup_lt_Some.
    - rewrite list_lookup_insert_ne; [done|]. unfold core_ok in *. lia. }
  assert (Hql : queue_at s d = l) by (unfold queue_at; by rewrite Hl').
  split_and!; try done.
  - destruct Hs. split; try done.
    + cbn. by rewrite length_insert.
    + intros x q Hx. change (Network.cfg (Network.set_queues ?a ?b)) with (Network.cfg b) in *. rewrite Hq by done. case_decide as Hxd; [|auto].
      subst x. rewrite elem_of_app, list_elem_of_singleton. intros [Hin| ->]; [|done]. apply inv_packets0; [done | by rewrite Hql].
  - intros x Hx. rewrite Hq by done. case_decide as Hxd.
    + subst x. rewrite Hql, fmap_app, filter_cons, decide_True by done. done.
    + rewrite filter_cons, decide_False by done. cbn. by rewrite app_nil_r.
Qed.
Lemma send_hops_spec fuel core time b ds hs p s : inv s → packet_ok (Network.cfg s) p → content b = content p → Forall (core_ok (Network.cfg s)) ds →
  Forall2 (λ d h, final_dest h = d ∧ (next_dest h = d ∨ core_ok (Network.cfg s) (next_dest h) ∧ (dist s (NetPacket.type p) (next_dest h) d < fuel)%nat)) ds hs →
  wps never (Network.send_hops fuel core time b hs p) s (λ q s', content q = content p ∧ sent_to s (content p) ds s').
Proof.
  revert b hs p s. induction ds as [|d ds IH]; intros b hs p s Hs Hp Hb Hds Hh.
  { inversion Hh; subst. apply wps_ret. split; [done|]. by apply sent_to_nil, models_only_refl. }
  apply Forall2_cons_inv_l in Hh as (h & hs' & (Hf & Hn) & Hh' & ->). apply Forall_cons in Hds as [Hd Hds]. cbn [Network.send_hops].
  wstep. eapply wps_mono; [by apply (follow_spec fuel h p s d)|]. intros [h1 p1] s1 (Hf1 & Hn1 & Hc1 & Hk1). cbn in Hf1, Hn1, Hc1.
  pose proof Hk1 as (Hs1 & Hg1 & _ & _ & _ & Hd1 & _). rewrite Hf1, Hn1. wstep.
  set (b' := if core =? NetPacket.sender b then _ else b). assert (Hb' : content b' = content p) by (unfold b'; by destruct (core =? _)).
  set (b2 := NetPacket.set_receiver d _). assert (Hb2 : content b2 = content p) by by rewrite <- Hb'.
  eapply wps_mono; [apply (send_spec s1 d b2); [done | by rewrite Hg1 | | done]|].
  { rewrite Hg1. by apply (packet_ok_content _ p). }
  cbn. intros _ s2 Hs2. rewrite Hb2 in Hs2. pose proof Hs2 as (Hi2 & Hg2 & _ & _ & Hd2 & _).
  assert (Hg : Network.cfg s2 = Network.cfg s) by congruence. rewrite Hg1 in Hg2.
  eapply wps_mono; [apply (IH b2 hs' p1 s2)|].
  - done.
  - rewrite Hg. by apply (packet_ok_content _ p).
  - congruence.
  - by rewrite Hg.
  - rewrite Hg. eapply Forall2_impl; [exact Hh'|]. cbn. intros x y (Hx & [Hy|[Hy Hlt]]); (split; [done|]); [by left | right; split; [done|]].
    rewrite Hd2, Hd1. assert (NetPacket.type p1 = NetPacket.type p) as -> by (by injection Hc1). done.
  - cbn. intros q s3 [Hq Hs3]. split; [congruence|]. rewrite Hc1 in Hs3. change (d :: ds) with ([] ++ ([d] ++ ds)).
    eapply sent_to_app; [by apply sent_to_nil|]. by eapply sent_to_app.
Qed.

(** Whom a packet is for. *)
Definition recipients s p : list Z := destinations (Network.cfg s) p.
Definition sendable (g : config) (core : Z) p : Prop :=
  core_ok g core ∧ NetPacket.sender p = core ∧ packet_ok g p ∧ (NetPacket.receiver p = BROADCAST ∨ core_ok g (NetPacket.receiver p)).
Lemma all_cores_ok g : Forall (core_ok g) (all_cores g).
Proof. apply Forall_fmap, Forall_forall. intros x [_ Hx]%elem_of_seq. unfold core_ok. cbn. lia. Qed.
Lemma netSend_spec fuel core p s : inv s → sendable (Network.cfg s) core p → (diam s (NetPacket.type p) ≤ fuel)%nat →
  wps never (Network.netSend fuel core p) s (λ _ s', sent_to s (content p) (recipients s p) s').
Proof.
  intros Hs (Hcore & Hsend & Hp & Hr) Hfuel. unfold Network.netSend. wstep.
  assert (Hroute : wps never (Network.route core p) s (λ r s', Forall2 (toward s (NetPacket.type p) core) (recipients s p) r.1 ∧
    content r.2 = content p ∧ models_only s s')).
  { unfold recipients, destinations. destruct (Z.eqb_spec (NetPacket.receiver p) BROADCAST) as [Hb|Hb].
    - by apply route_broadcast_spec.
    - destruct Hr as [|Hr]; [done|]. eapply wps_mono; [by apply route_unicast_spec|]. cbn. intros [l q] s1 ((h & Hl & Hh) & ? & ?).
      cbn in *. subst l. split_and!; [by constructor; [|constructor] | done | done]. }
  eapply wps_mono; [exact Hroute|]. intros [l q] s1 (Hl & Hq & Hk). cbn in Hl, Hq. pose proof Hk as (Hs1 & Hg1 & _ & _ & _ & Hd1 & Hm1).
  eapply wps_mono; [apply (send_hops_spec fuel core (NetPacket.time q) q (recipients s p) l q s1)|].
  - done.
  - rewrite Hg1. by apply (packet_ok_content _ p).
  - done.
  - rewrite Hg1. unfold recipients, destinations. case_match; [apply all_cores_ok|]. constructor; [|constructor].
    destruct Hr; [|done]. lia.
  - eapply Forall2_impl; [exact Hl|]. unfold toward. rewrite Hg1. intros d h (Hf & [Hn|[Hn Hlt]]); (split; [done|]); [by left | right; split; [done|]].
    rewrite Hd1. assert (NetPacket.type q = NetPacket.type p) as -> by (by injection Hq). lia.
  - cbn. intros _ s2 [_ Hs2]. rewrite Hq in Hs2. change (recipients s p) with ([] ++ recipients s p). eapply sent_to_app; [by apply sent_to_nil | done].
Qed.

(** ** Runs *)
Inductive event := Send (core : Z) (p : NetPacket.t) | Pull (core : Z).
Context (callback : PacketType → bool) (fuel : nat).
Definition perform (e : event) : M S unit :=
  match e with
  | Send core p => Network.netSend fuel core p;; mret tt
  | Pull core => Network.pull fuel callback core;; mret tt
  end.
Definition run (es : list event) : M S unit := foldM (λ _ e, perform e) tt es.
Definition event_ok (g : config) (e : event) : Prop := match e with Send core p => sendable g core p | Pull core => core_ok g core end.
(** What is sent to a core, in order. *)
Definition sent (d : Z) (es : list event) : list contents :=
  omap (λ e, match e with
    | Send _ p => if bool_decide (NetPacket.receiver p = d ∨ NetPacket.receiver p = BROADCAST) then Some (content p) else None
    | Pull _ => None end) es.
(** What a core has been given and what is on its way: by callbacks, or to be asked for. *)
Definition has_callback (b : bool) (c : contents) : Prop := callback c.1.1.1 = b.
#[export] Instance has_callback_dec b c : Decision (has_callback b c).
Proof. unfold has_callback. apply _. Defined.
Definition given (b : bool) s (d : Z) : list contents :=
  (content <$> (if b then called_at s d else netQueue_at s d)) ++ filter (has_callback b) (content <$> queue_at s d).

Lemma filter_one (l : list Z) d : NoDup l → d ∈ l → filter (λ x, x = d) l = [d].
Proof.
  induction 1 as [|x l Hx Hl IH]; [by intros ?%elem_of_nil|]. rewrite filter_cons. intros [->|Hd]%elem_of_cons.
  - rewrite decide_True by done. f_equal. clear -Hx. induction l as [|y l IH]; [done|]. rewrite filter_cons, decide_False; [apply IH|]; set_solver.
  - rewrite decide_False by (intros ->; done). by apply IH.
Qed.
Lemma filter_recipients g p d : core_ok g d →
  filter (λ x, x = d) (destinations g p) = if bool_decide (NetPacket.receiver p = d ∨ NetPacket.receiver p = BROADCAST) then [d] else [].
Proof.
  intros Hd. unfold destinations. destruct (Z.eqb_spec (NetPacket.receiver p) BROADCAST) as [Hb|Hb].
  - rewrite bool_decide_true by auto. apply filter_one.
    + apply NoDup_fmap; [intros ? ?; lia | apply NoDup_seq].
    + apply list_elem_of_fmap. exists (Z.to_nat d). unfold core_ok in Hd. rewrite elem_of_seq. lia.
  - rewrite filter_cons. case_decide as Hx; [rewrite bool_decide_true by auto; by rewrite Hx | by rewrite bool_decide_false by naive_solver].
Qed.
Lemma send_given b s core p s' d : core_ok (Network.cfg s) d → sent_to s (content p) (recipients s p) s' →
  given b s' d = given b s d ++ filter (has_callback b) (sent d [Send core p]).
Proof.
  intros Hd (_ & _ & Hn & Hc & _ & _ & Hq). unfold given, called_at, netQueue_at. rewrite Hn, Hc, Hq by done.
  unfold recipients. rewrite filter_recipients by done. rewrite filter_app, app_assoc. f_equal. unfold sent. cbn [omap list_omap].
  by case_bool_decide.
Qed.
(** The first packet of a queue is handed over. *)
Lemma handed_given s s' core p l b d : core_ok (Network.cfg s) d → queue_at s core = p :: l →
  (∀ x, core_ok (Network.cfg s) x → queue_at s' x = if decide (x = core) then l else queue_at s x) →
  content <$> called_at s' d = (content <$> called_at s d) ++ (if decide (d = core ∧ callback (NetPacket.type p) = true) then [content p] else []) →
  content <$> netQueue_at s' d = (content <$> netQueue_at s d) ++ (if decide (d = core ∧ callback (NetPacket.type p) = false) then [content p] else []) →
  given b s' d = given b s d.
Proof.
  intros Hd Hp Hq Hc Hn. unfold given. rewrite Hq by done. destruct (decide (d = core)) as [->|Hdc].
  - rewrite Hp, fmap_cons, filter_cons. destruct b; cbv iota; rewrite ?Hc, ?Hn; destruct (decide (has_callback _ _)) as [Hb|Hb]; unfold has_callback in Hb; cbn in Hb;
      first [rewrite decide_True by done | rewrite decide_False by naive_solver]; rewrite ?app_nil_r, <- ?app_assoc; done.
  - destruct b; cbv iota; rewrite ?Hc, ?Hn; rewrite decide_False by tauto; by rewrite app_nil_r.
Qed.
Lemma pull_spec core s : inv s → core_ok (Network.cfg s) core → wps never (Network.pull fuel callback core) s
  (λ _ s', inv s' ∧ Network.cfg s' = Network.cfg s ∧ (∀ ty, diam s' ty = diam s ty) ∧ ∀ b d, core_ok (Network.cfg s) d → given b s' d = given b s d).
Proof.
  intros Hs Hcore. unfold Network.pull, Network.recv. wstep. wstep. wstep. wstep. unfold id.
  destruct (at_core_spec (Network.m_queue s) core) as (l & Hl & Hl' & Hput); [rewrite (inv_queues _ Hs); unfold core_ok in Hcore; lia|].
  eapply wps_lift_ok; [exact Hl|]. destruct l as [|p l]; [by wstep; wstep|]. wstep. eapply wps_lift_ok; [apply Hput|]. wstep. wstep. wstep. wstep. wstep.
  assert (Hql : queue_at s core = p :: l) by (unfold queue_at; by rewrite Hl').
  destruct (inv_packets _ Hs core p Hcore) as [Hr Hp]; [rewrite Hql; left|].
  set (s1 := Network.set_queues _ s). assert (Hq : ∀ x, core_ok (Network.cfg s) x → queue_at s1 x = if decide (x = core) then l else queue_at s x).
  { intros x Hx. unfold queue_at, s1. cbn. case_decide as Hxd.
    - subst. rewrite list_lookup_insert_eq; [done|]. by eapply lookup_lt_Some.
    - rewrite list_lookup_insert_ne; [done|]. unfold core_ok in *. lia. }
  assert (Hs1 : inv s1).
  { pose proof Hs as []. split; try done.
    - cbn. by rewrite length_insert.
    - intros x q Hx. change (Network.cfg s1) with (Network.cfg s) in *. rewrite Hq by done. case_decide; [subst x|auto].
      intros Hin. apply inv_packets0; [done|]. rewrite Hql. by right. }
  destruct Hp as [Hps Hp']. wstep. wstep; [|unfold core_ok in Hps; change (Network.cfg s1) with (Network.cfg s) in *; lia].
  rewrite Hr, Z.eqb_refl. wstep. wstep. cbn [negb andb]. wstep. eapply wps_mono; [by apply receive_spec; [done | done | split]|].
  intros p2 s2 [Hp2 (Hs2 & Hg2 & Hq2 & Hn2 & Hc2 & _ & Hm2)]. assert (Hty : NetPacket.type p2 = NetPacket.type p) by (by injection Hp2).
  assert (Hq3 : ∀ s3, Network.m_queue s3 = Network.m_queue s2 → ∀ x, core_ok (Network.cfg s) x → queue_at s3 x = if decide (x = core) then l else queue_at s x).
  { intros s3 Hs3 x Hx. rewrite <- Hq by done. unfold queue_at. by rewrite Hs3, Hq2. }
  wstep. rewrite Hty. destruct (callback (NetPacket.type p)) eqn:Hcb.
  - wstep. wstep. split_and!; [|done|done|].
    + pose proof Hs2 as []. by split.
    + intros b d Hd. apply (handed_given _ _ core p l); [done | done | by apply Hq3 | |].
      * unfold called_at. cbn. rewrite Hc2, filter_app, filter_cons. change (Network.called s1) with (Network.called s). cbn. rewrite !fmap_app. f_equal.
        destruct (decide (core = d)) as [->|]; [rewrite decide_True by done | rewrite decide_False by naive_solver; done]. cbn. by rewrite Hp2.
      * unfold netQueue_at. cbn. rewrite Hn2, Hcb, decide_False by (by intros []). by rewrite app_nil_r.
  - wstep. wstep. wstep. unfold id.
    destruct (at_core_spec (Network._netQueue s2) core) as (k & Hk & Hk' & Hput'); [rewrite (inv_netQueues _ Hs2), Hg2; change (Network.cfg s1) with (Network.cfg s); unfold core_ok in Hcore; lia|].
    eapply wps_lift_ok; [exact Hk|]. wstep. eapply wps_lift_ok; [apply Hput'|]. wstep. wstep. split_and!; [|done|done|].
    + pose proof Hs2 as []. split; try done. cbn. by rewrite length_insert.
    + intros b d Hd. apply (handed_given _ _ core p l); [done | done | by apply Hq3 | |].
      * unfold called_at. cbn. rewrite Hc2, Hcb, decide_False by (by intros []). by rewrite app_nil_r.
      * unfold netQueue_at. cbn. destruct (decide (d = core)) as [->|Hdc].
        -- rewrite list_lookup_insert_eq by (by eapply lookup_lt_Some). rewrite decide_True by done. change (Network._netQueue s) with (Network._netQueue s1).
           rewrite <- Hn2, Hk'. cbn. by rewrite fmap_app, <- Hp2.
        -- rewrite list_lookup_insert_ne by (unfold core_ok in *; lia). rewrite decide_False by tauto. by rewrite Hn2, app_nil_r.
Qed.

Lemma run_spec es s : inv s → Forall (event_ok (Network.cfg s)) es → (∀ ty, diam s ty ≤ fuel)%nat → wps never (run es) s
  (λ _ s', inv s' ∧ Network.cfg s' = Network.cfg s ∧ ∀ b d, core_ok (Network.cfg s) d → given b s' d = given b s d ++ filter (has_callback b) (sent d es)).
Proof.
  revert s. induction es as [|e es IH]; intros s Hs Hes Hd; cbn [run foldM].
  { wstep. split_and!; [done | done |]. intros b d _. by rewrite app_nil_r. }
  apply Forall_cons in Hes as [He Hes]. wstep. destruct e as [core p|core]; cbn [perform].
  - wstep. eapply wps_mono; [by apply netSend_spec|]. cbv beta. intros _ s1 Hs1. wstep. pose proof Hs1 as (Hi1 & Hg1 & _ & _ & _ & Hm1 & _).
    eapply wps_mono; [apply IH; [done | by rewrite Hg1 | intros; by rewrite Hm1]|]. cbn. intros _ s2 (Hs2 & Hg2 & Hgiven). rewrite Hg1 in *.
    split_and!; [done | done |]. intros b d Hdo. rewrite Hgiven by done. rewrite (send_given b s core p s1 d Hdo Hs1), <- app_assoc, <- filter_app.
    f_equal. f_equal. unfold sent. cbn [omap list_omap]. by case_bool_decide.
  - wstep. eapply wps_mono; [by apply pull_spec|]. cbv beta. intros _ s1 (Hi1 & Hg1 & Hm1 & Hgiven1). wstep.
    eapply wps_mono; [apply IH; [done | by rewrite Hg1 | intros; by rewrite Hm1]|]. cbn. intros _ s2 (Hs2 & Hg2 & Hgiven). rewrite Hg1 in *.
    split_and!; [done | done |]. intros b d Hdo. rewrite Hgiven, Hgiven1 by done. done.
Qed.
End delivery.

(** [C29] Whatever packets with a modelled length cores send, to one core or to all, on networks
    that send a broadcast to each core by itself - all models but a mesh with its broadcast
    tree, which [broadcast_tree_never_ends] is about -, and in whatever order packets are taken
    from the transport: nothing fails, and every core is given exactly the packets that were
    sent to it, each once, in the order in which they were sent, as they were sent; packets with
    a callback by it, the others for [netRecv]. The loop of [netSend] ends: the diameter of the
    networks bounds its rounds. *)
Theorem network_delivers {A B} `{NetworkLaws A} `{NetworkLaws B} (callback : PacketType → bool) fuel (es : list event) (s : Network.t A B) :
  inv s → Forall (event_ok (Network.cfg s)) es → (∀ ty, diam s ty ≤ fuel)%nat →
  wps never (run callback fuel es) s (λ _ s', ∀ b d, core_ok (Network.cfg s) d →
    given callback b s' d = given callback b s d ++ filter (has_callback callback b) (sent d es)).
Proof. intros Hs Hes Hd. eapply wps_mono; [by apply run_spec|]. by intros _ s' (_ & _ & ?). Qed.

(** ** The models keep the promise *)
Lemma direct_hops {R : Z → Hop → Prop} l time : (∀ d, R d (direct d time)) → Forall2 R l ((λ d, direct d time) <$> l).
Proof. intros HR. induction l; by constructor. Qed.
Lemma wps_requester {N} (E : failure → Prop) g p (s : N) Q : packet_ok g p → (∀ r, requester_of g p = Ok r → Q r s) → wps E (lift (requester_of g p)) s Q.
Proof. intros (_ & (r & Hr) & _) HQ. by eapply wps_lift_ok; [|apply HQ]. Qed.
Lemma wps_length {N} (E : failure → Prop) g p (s : N) Q : packet_ok g p → (∀ r, getModeledLength g p = Ok r → Q r s) → wps E (lift (getModeledLength g p)) s Q.
Proof. intros (_ & _ & (r & Hr)) HQ. by eapply wps_lift_ok; [|apply HQ]. Qed.

#[export] Program Instance magic_laws : NetworkLaws NetworkModelMagic.t := {
  net_inv g s := NetworkModelMagic.cfg s = g ∧ length (NetworkModelMagic.nodes s) = Z.to_nat (TotalCores g);
  distance _ _ _ := 0%nat; diameter _ := 0%nat }.
Next Obligation.
  intros g s core p [Hg Hn] Hc Hp Hr. cbn. unfold NetworkModelMagic.routePacket. wstep. wstep. wstep. unfold id.
  destruct (at_core_spec (NetworkModelMagic.nodes s) core) as (n & En & _); [unfold core_ok in Hc; lia|]. eapply wps_lift_ok; [exact En|]. wstep.
  unfold destinations. destruct (Z.eqb_spec (NetPacket.receiver p) BROADCAST); [pose proof BROADCAST_negative; unfold core_ok in Hr; lia|].
  split_and!; try done. eexists. split; [done|]. split; [done | by left].
Qed.
Next Obligation.
  intros g s core p [Hg Hn] Hc Hp Hr _. cbn. unfold NetworkModelMagic.routePacket. wstep. wstep. wstep. unfold id.
  destruct (at_core_spec (NetworkModelMagic.nodes s) core) as (n & En & _); [unfold core_ok in Hc; lia|]. eapply wps_lift_ok; [exact En|]. wstep.
  unfold destinations. rewrite Hr, Z.eqb_refl, Hg. split_and!; try done. apply direct_hops. intros d. split; [done | by left].
Qed.
Next Obligation.
  intros g s core p [Hg Hn] Hc Hp. cbn. unfold NetworkModelMagic.processReceivedPacket. wstep. wstep. wstep. unfold id.
  destruct (at_core_spec (NetworkModelMagic.nodes s) core) as (n & En & _ & Hput); [unfold core_ok in Hc; lia|]. eapply wps_lift_ok; [exact En|].
  wstep. rewrite Hg. apply wps_requester; [done|]. intros r _. wstep; [by wstep|]. wstep. apply wps_length; [done|]. intros k _. wstep.
  eapply wps_lift_ok; [apply Hput|]. wstep. wstep. wstep. split_and!; try done. cbn. by rewrite length_insert.
Qed.

(** A bandwidth that is not zero. *)
Lemma rounded_per_cycle b n : ComponentBandwidthPerCycle.m_bw_in_bits_per_cycle b ≠ 0 → ∃ l, ComponentBandwidthPerCycle.getRoundedLatency b n = Ok l.
Proof. intros Hb. unfold ComponentBandwidthPerCycle.getRoundedLatency, SubsecondTime.div, udiv. cbn. rewrite (proj2 (Z.eqb_neq _ _)) by done. eauto. Qed.
Definition counter_node_ok (n : NetworkModelEMeshHopCounter.node) : Prop :=
  ComponentBandwidthPerCycle.m_bw_in_bits_per_cycle (NetworkModelEMeshHopCounter._linkBandwidth n) ≠ 0.
#[export] Program Instance counter_laws : NetworkLaws NetworkModelEMeshHopCounter.t := {
  net_inv g s := NetworkModelEMeshHopCounter.cfg s = g ∧ length (NetworkModelEMeshHopCounter.nodes s) = Z.to_nat (TotalCores g) ∧
    Forall counter_node_ok (NetworkModelEMeshHopCounter.nodes s);
  distance _ _ _ := 0%nat; diameter _ := 0%nat }.
Next Obligation.
  intros g s core p (Hg & Hn & Hb) Hc Hp Hr. cbn. unfold NetworkModelEMeshHopCounter.routePacket. wstep. wstep. wstep. unfold id.
  destruct (at_core_spec (NetworkModelEMeshHopCounter.nodes s) core) as (n & En & Hin & _); [unfold core_ok in Hc; lia|]. eapply wps_lift_ok; [exact En|].
  wstep. rewrite Hg. apply wps_length; [done|]. intros k _. wstep.
  destruct (rounded_per_cycle (NetworkModelEMeshHopCounter._linkBandwidth n) (u32 (k * 8))) as [l El]; [by eapply (Forall_lookup_1 _ _ _ _ Hb)|].
  eapply wps_lift_ok; [exact El|]. destruct (Z.eqb_spec (NetPacket.receiver p) BROADCAST); [pose proof BROADCAST_negative; unfold core_ok in Hr; lia|].
  wstep. split_and!; try done. eexists. split; [done|]. split; [done | by left].
Qed.
Next Obligation.
  intros g s core p (Hg & Hn & Hb) Hc Hp Hr _. cbn. unfold NetworkModelEMeshHopCounter.routePacket. wstep. wstep. wstep. unfold id.
  destruct (at_core_spec (NetworkModelEMeshHopCounter.nodes s) core) as (n & En & Hin & _); [unfold core_ok in Hc; lia|]. eapply wps_lift_ok; [exact En|].
  wstep. rewrite Hg. apply wps_length; [done|]. intros k _. wstep.
  destruct (rounded_per_cycle (NetworkModelEMeshHopCounter._linkBandwidth n) (u32 (k * 8))) as [l El]; [by eapply (Forall_lookup_1 _ _ _ _ Hb)|].
  eapply wps_lift_ok; [exact El|]. rewrite Hr, Z.eqb_refl. wstep. split_and!; try done. cbn.
  generalize (NetPacket.time p) as time. induction (all_cores g) as [|i cores IH]; intros time; constructor; [|apply IH]. split; [done | by left].
Qed.
Next Obligation.
  intros g s core p (Hg & Hn & Hb) Hc Hp. cbn. unfold NetworkModelEMeshHopCounter.processReceivedPacket. wstep. wstep. wstep. unfold id.
  destruct (at_core_spec (NetworkModelEMeshHopCounter.nodes s) core) as (n & En & Hin & Hput); [unfold core_ok in Hc; lia|]. eapply wps_lift_ok; [exact En|].
  wstep. rewrite Hg. apply wps_length; [done|]. intros k _. wstep. apply wps_requester; [done|]. intros r _. wstep; [by wstep|]. wstep.
  eapply wps_lift_ok; [apply Hput|]. wstep. wstep. wstep. split; [done|]. split; [|done]. cbn. rewrite length_insert. split_and!; [done | done |].
  apply Forall_insert; [done|]. by apply (Forall_lookup_1 _ _ _ _ Hb Hin).
Qed.

Section bus.
Context {Q : Type} `{QueueLaws Q}.
Definition bus_inv (g : config) (s : NetworkModelBus.t Q) : Prop :=
  NetworkModelBus.cfg s = g ∧ length (NetworkModelBus._enabled s) = Z.to_nat (TotalCores g) ∧
  ComponentBandwidth.m_bw_in_bits_per_us (NetworkModelBus._bandwidth s) ≠ 0 ∧ queue_inv (NetworkModelBus._queue_model s).
Lemma useBus_spec g s t n d : bus_inv g s → wps never (NetworkModelBus.useBus t n d) s (λ _ s', bus_inv g s').
Proof.
  intros (Hg & Hn & Hb & Hq). unfold NetworkModelBus.useBus. wstep. wstep. wstep. unfold id.
  assert (∃ l, ComponentBandwidth.getLatency (NetworkModelBus._bandwidth s) (u32 (n * 8)) = Ok l) as [l El].
  { unfold ComponentBandwidth.getLatency, SubsecondTime.div, udiv. rewrite (proj2 (Z.eqb_neq _ _)) by done. eauto. }
  eapply wps_lift_ok; [exact El|]. wstep. destruct (queue_total (NetworkModelBus._queue_model s) t l INVALID_CORE_ID Hq) as (e & q & Eq & Hq').
  eapply wps_lift_ok; [exact Eq|]. cbv beta iota. wstep. wstep. wstep. unfold bus_inv. by split_and!.
Qed.
Lemma bus_route g s core p : bus_inv g s → core_ok g core → packet_ok g p →
  wps never (NetworkModelBus.routePacket core p) s (λ r s', (∃ time, r.1 = (λ d, direct d time) <$> destinations g p) ∧ content r.2 = content p ∧ bus_inv g s').
Proof.
  intros (Hg & Hn & Hb & Hq) Hc Hp. unfold NetworkModelBus.routePacket. wstep. wstep. wstep. unfold id.
  destruct (at_core_spec (NetworkModelBus._enabled s) core) as (b & Eb & _); [unfold core_ok in Hc; lia|].
  unfold NetworkModelBus.accountPacket. rewrite Eb, Hg. pose proof Hp as (_ & (r & Er) & _). rewrite Er. cbn [rbind].
  eapply wps_lift_ok; [done|]. wstep. wstep.
  - wstep. apply wps_length; [done|]. intros k _. wstep. wstep. wstep. eapply wps_mono; [by apply useBus_spec|]. cbv beta.
    intros [time delay] s1 Hs1. wstep. wstep. split; [eauto|]. by split.
  - wstep. wstep. split; [eauto|]. by split.
Qed.
End bus.
#[export] Program Instance bus_laws {Q} `{QueueLaws Q} : NetworkLaws (NetworkModelBus.t Q) := {
  net_inv := bus_inv; distance _ _ _ := 0%nat; diameter _ := 0%nat }.
Next Obligation.
  intros Q ? ? g s core p Hs Hc Hp Hr. eapply wps_mono; [by apply (bus_route g)|]. cbn. intros r s' ((time & Ht) & Hco & Hs'). split_and!; try done.
  unfold destinations in Ht. destruct (Z.eqb_spec (NetPacket.receiver p) BROADCAST); [pose proof BROADCAST_negative; unfold core_ok in Hr; lia|].
  eexists. split; [exact Ht|]. split; [done | by left].
Qed.
Next Obligation.
  intros Q ? ? g s core p Hs Hc Hp Hr _. eapply wps_mono; [by apply (bus_route g)|]. cbn. intros r s' ((time & Ht) & Hco & Hs'). split_and!; try done.
  unfold destinations in Ht. rewrite Hr, Z.eqb_refl in Ht. rewrite Ht. apply direct_hops. intros d. split; [done | by left].
Qed.
Next Obligation. intros Q ? ? g s core p Hs Hc Hp. by cbn. Qed.

(** *** The mesh: broadcasts go to each core on its own way *)
Section mesh.
Import NetworkModelEMeshHopByHop.
Context {Q : Type} `{QueueLaws Q} (g : config).
Abbreviation S := (NetworkModelEMeshHopByHop.t Q).
Definition node_ok (n : node Q) : Prop :=
  ComponentBandwidthPerCycle.m_bw_in_bits_per_cycle (m_link_bandwidth n) ≠ 0 ∧
  Forall queue_inv [link_up n; link_down n; link_left n; link_right n; m_injection_port_queue_model n; m_ejection_port_queue_model n].
Record mesh_inv (s : S) : Prop := {
  mesh_cfg : cfg s = g;
  mesh_sane : sane g (mesh s);
  mesh_nodes : length (nodes s) = Z.to_nat (TotalCores g);
  mesh_nodes_ok : Forall node_ok (nodes s);
}.
Definition mesh_keeps (s s' : S) : Prop := mesh_inv s' ∧ mesh s' = mesh s.
Definition mesh_distance (s : S) (a b : Z) : nat := Z.to_nat (route_length (mesh s) a b).
Definition mesh_diameter (s : S) : nat := Z.to_nat (m_mesh_width (mesh s) + m_mesh_height (mesh s)).
Definition mesh_hop (s : S) (core d : Z) (h : Hop) : Prop :=
  final_dest h = d ∧ (next_dest h = d ∨ core_ok g (next_dest h) ∧ (mesh_distance s (next_dest h) d < mesh_distance s core d ≤ mesh_diameter s)%nat).

Lemma mesh_keeps_trans s1 s2 s3 : mesh_keeps s1 s2 → mesh_keeps s2 s3 → mesh_keeps s1 s3.
Proof. intros [? E1] [? E2]. split; [done | congruence]. Qed.
Lemma node_at_spec s core : mesh_inv s → core_ok g core → wps never (node_at core) s (λ n s', s' = s ∧ node_ok n).
Proof.
  intros Hs Hc. unfold node_at. wstep. wstep. unfold id.
  destruct (at_core_spec (nodes s) core) as (n & En & Hn & _); [rewrite (mesh_nodes _ Hs); unfold core_ok in Hc; lia|].
  eapply wps_lift_ok; [exact En|]. split; [done|]. by apply (Forall_lookup_1 _ _ _ _ (mesh_nodes_ok _ Hs) Hn).
Qed.
Lemma put_node_spec s core n : mesh_inv s → core_ok g core → node_ok n → wps never (put_node core n) s (λ _ s', mesh_keeps s s').
Proof.
  intros Hs Hc Hok. unfold put_node. wstep. wstep. wstep. unfold id.
  destruct (at_core_spec (nodes s) core) as (? & _ & _ & Hput); [rewrite (mesh_nodes _ Hs); unfold core_ok in Hc; lia|].
  eapply wps_lift_ok; [apply Hput|]. wstep. split; [|done]. pose proof Hs as []. split; try done; cbn.
  - by rewrite length_insert.
  - by apply Forall_insert.
Qed.
Lemma with_queue_ok up down left right injection ejection n : node_ok n → Forall queue_inv [up; down; left; right; injection; ejection] →
  node_ok (with_queues up down left right injection ejection n).
Proof. intros [Hb _] Hq. by split. Qed.
Lemma processing_time_ok n len : node_ok n → ∃ l, computeProcessingTime n len = Ok l.
Proof. intros [Hb _]. by apply rounded_per_cycle. Qed.
Ltac queues := repeat match goal with Hq : Forall queue_inv (_ :: _) |- _ => apply Forall_cons in Hq as [? ?] end; repeat constructor; done.

Lemma injection_spec s core r time len : mesh_inv s → core_ok g core → m_fake_node (mesh s) core = false →
  wps never (computeInjectionPortQueueDelay core r time len) s (λ _ s', mesh_keeps s s').
Proof.
  intros Hs Hc Hf. unfold computeInjectionPortQueueDelay. wstep. unfold fake. wstep. wstep. wstep; [|by rewrite Hf in *]. wstep. wstep. wstep; [by wstep|].
  wstep. eapply wps_mono; [by apply node_at_spec|]. cbv beta. intros n s' [-> Hn]. wstep. destruct (processing_time_ok n len Hn) as [l El].
  eapply wps_lift_ok; [exact El|]. wstep. pose proof Hn as [Hb Hqs]. destruct (queue_total (m_injection_port_queue_model n) time l INVALID_CORE_ID) as (d & q & Eq & Hq); [queues|].
  eapply wps_lift_ok; [exact Eq|]. cbv beta iota. wstep. eapply wps_mono; [apply put_node_spec; [done | done | apply with_queue_ok; [done | queues]]|].
  cbv beta. intros _ s' Hs'. by wstep.
Qed.
Lemma ejection_spec s core time len : mesh_inv s → core_ok g core → m_fake_node (mesh s) core = false →
  wps never (computeEjectionPortQueueDelay core time len) s (λ _ s', mesh_keeps s s').
Proof.
  intros Hs Hc Hf. unfold computeEjectionPortQueueDelay. wstep. unfold fake. wstep. wstep. wstep; [|by rewrite Hf in *]. wstep. wstep. wstep; [by wstep|].
  wstep. eapply wps_mono; [by apply node_at_spec|]. cbv beta. intros n s' [-> Hn]. wstep. destruct (processing_time_ok n len Hn) as [l El].
  eapply wps_lift_ok; [exact El|]. wstep. pose proof Hn as [Hb Hqs]. destruct (queue_total (m_ejection_port_queue_model n) time l INVALID_CORE_ID) as (d & q & Eq & Hq); [queues|].
  eapply wps_lift_ok; [exact Eq|]. cbv beta iota. wstep. eapply wps_mono; [apply put_node_spec; [done | done | apply with_queue_ok; [done | queues]]|].
  cbv beta. intros _ s' Hs'. by wstep.
Qed.
Definition is_link (d : OutputDirection) : Prop := d = UP ∨ d = DOWN ∨ d = LEFT ∨ d = RIGHT.
Lemma link_spec d n : node_ok n → is_link d → ∃ q put, link d n = Some (q, put) ∧ queue_inv q ∧ ∀ q', queue_inv q' → node_ok (put q').
Proof.
  intros Hn Hd. pose proof Hn as [_ Hqs].
  destruct Hd as [->|[->|[->| ->]]]; cbn; do 2 eexists; (split; [done|]); (split; [queues|]); intros q' Hq'; (apply with_queue_ok; [done | queues]).
Qed.
Lemma latency_spec s core d time len r : mesh_inv s → core_ok g core → m_fake_node (mesh s) core = false → is_link d →
  wps never (computeLatency core d time len r) s (λ _ s', mesh_keeps s s').
Proof.
  intros Hs Hc Hf Hd. unfold computeLatency. wstep. unfold fake. wstep. wstep. wstep; [|by rewrite Hf in *]. wstep. wstep. wstep.
  eapply wps_mono; [by apply node_at_spec|]. cbv beta. intros n s' [-> Hn]. destruct (link_spec d n Hn Hd) as (q & put & -> & Hq & Hput).
  wstep; [by wstep|]. wstep. destruct (processing_time_ok n len Hn) as [l El]. eapply wps_lift_ok; [exact El|]. wstep. wstep; [|wstep; by wstep].
  wstep. destruct (queue_total q time l INVALID_CORE_ID Hq) as (e & q' & Eq & Hq'). eapply wps_lift_ok; [exact Eq|]. cbv beta iota. wstep.
  eapply wps_mono; [apply put_node_spec; [done | done | by apply Hput]|]. cbv beta. intros _ s' Hs'. wstep. by wstep.
Qed.
Lemma addHop_spec s core d final next time len r : mesh_inv s → core_ok g core → m_fake_node (mesh s) core = false → is_link d ∨ d = DESTINATION →
  wps never (addHop core d final next time len r) s (λ x s', final_dest x.1 = final ∧ next_dest x.1 = next ∧ mesh_keeps s s').
Proof.
  intros Hs Hc Hf Hd. destruct Hd as [Hd| ->]; [|by apply wps_ret].
  assert (Hgoal : wps never ('(l, d) ← computeLatency core d time len r;
      mret ({| final_dest := final; next_dest := next; hop_time := SubsecondTime.add time l |}, d)) s
    (λ x s', final_dest x.1 = final ∧ next_dest x.1 = next ∧ mesh_keeps s s')).
  { wstep. eapply wps_mono; [by apply latency_spec|]. cbv beta. intros [l e] s' Hs'. by wstep. }
  by destruct Hd as [->|[->|[->| ->]]].
Qed.
Lemma next_good s core d : mesh_inv s → core_ok g core → core_ok g d → m_fake_node (mesh s) core = false →
  let '(dir, next) := getNextDest (mesh s) (ApplicationCores g) core d in
  (is_link dir ∨ dir = DESTINATION) ∧ ∀ h, final_dest h = d → next_dest h = next → mesh_hop s core d h.
Proof.
  intros Hs Hc Hd Hf. pose proof (mesh_sane _ Hs) as Hm. destruct (decide (ApplicationCores g ≤ d)) as [Happ|Happ].
  { unfold getNextDest. rewrite (proj2 (Z.leb_le _ _)) by done. split; [by right|]. intros h Hh Hn. split; [done|]. left. congruence. }
  destruct (decide (core `div` m_concentration (mesh s) = d `div` m_concentration (mesh s))) as [He|Hne].
  { unfold getNextDest. rewrite (proj2 (Z.leb_gt _ _)), (proj2 (Z.eqb_eq _ _)) by (done || lia). split; [by right|].
    intros h Hh Hn. split; [done|]. left. congruence. }
  assert (Hmaster : master g (mesh s) core) by (apply (master_not_fake g (mesh s)); [done | unfold core_ok in Hc; lia | done]).
  assert (Hd' : 0 ≤ d < ApplicationCores g) by (unfold core_ok in Hd; lia).
  destruct (next_nearer g (mesh s) Hm core d Hmaster Hd' Hne) as (dir & next & -> & Hdir & Hnext & Hlen).
  split; [by left|]. intros h Hh Hn. split; [done|]. right. rewrite Hn.
  destruct Hmaster as [Hmc _], Hnext as [Hnc _]. pose proof (sane_total _ _ Hm). split; [unfold core_ok; lia|].
  pose proof (route_length_bound g (mesh s) Hm core d Hmc Hd'). pose proof (route_length_bound g (mesh s) Hm next d Hnc Hd').
  unfold mesh_distance, mesh_diameter. lia.
Qed.
Lemma mesh_hop_keeps s s' core d h : mesh_keeps s s' → mesh_hop s' core d h ↔ mesh_hop s core d h.
Proof. intros [_ E]. unfold mesh_hop, mesh_distance, mesh_diameter. by rewrite E. Qed.
Lemma unicast_all_spec s core cores time len r : mesh_inv s → core_ok g core → m_fake_node (mesh s) core = false → Forall (core_ok g) cores →
  wps never (unicast_all core cores time len r) s (λ l s', Forall2 (mesh_hop s core) cores l ∧ mesh_keeps s s').
Proof.
  revert s. induction cores as [|i cores IH]; intros s Hs Hc Hf Hcs; cbn [unicast_all]; [by wstep|].
  apply Forall_cons in Hcs as [Hi Hcs]. wstep. eapply wps_mono; [by apply injection_spec|]. cbv beta. intros d s1 [Hs1 E1]. wstep. wstep. unfold id.
  rewrite (mesh_cfg _ Hs1), E1. pose proof (next_good s core i Hs Hc Hi Hf) as Hnext. destruct (getNextDest _ _ _ _) as [dir next].
  destruct Hnext as [Hdir Hgood]. wstep. eapply wps_mono; [apply addHop_spec; [done | done | by rewrite E1 | done]|]. cbv beta.
  intros [h e] s2 (Hh1 & Hh2 & Hs2 & E2). wstep. eapply wps_mono; [apply IH; [done | done | by rewrite E2, E1 | done]|]. cbv beta.
  intros l s3 (Hl & Hs3 & E3). wstep. assert (Hk : mesh_keeps s s2) by (split; [done | congruence]). split; [|split; [done | congruence]].
  constructor; [by apply Hgood|]. eapply Forall2_impl; [exact Hl|]. intros x y. by apply (mesh_hop_keeps s s2).
Qed.
Lemma count_sent_spec s core p len : mesh_inv s → core_ok g core →
  wps never (when (NetPacket.sender p =? core) (n ← node_at core; put_node core (with_sent len n))) s (λ _ s', mesh_keeps s s').
Proof.
  intros Hs Hc. wstep; [|done]. wstep. eapply wps_mono; [by apply node_at_spec|]. cbv beta. intros n s' [-> [Hb Hq]]. by apply put_node_spec.
Qed.
Lemma sender_injection_spec s core p len : mesh_inv s → core_ok g core → m_fake_node (mesh s) core = false →
  wps never (if NetPacket.sender p =? core then computeInjectionPortQueueDelay core (NetPacket.receiver p) (NetPacket.time p) len
             else mret SubsecondTime.Zero) s (λ _ s', mesh_keeps s s').
Proof. intros Hs Hc Hf. wstep; [by apply injection_spec | by wstep]. Qed.
Lemma mesh_unicast s core p : mesh_inv s → core_ok g core → packet_ok g p → core_ok g (NetPacket.receiver p) →
  wps never (NetworkModelEMeshHopByHop.routePacket core p) s (λ r s',
    (∃ h, r.1 = [h] ∧ mesh_hop s core (NetPacket.receiver p) h) ∧ content r.2 = content p ∧ mesh_keeps s s').
Proof.
  intros Hs Hc Hp Hr. unfold NetworkModelEMeshHopByHop.routePacket. wstep. wstep. wstep. unfold id. rewrite (mesh_cfg _ Hs).
  apply wps_requester; [done|]. intros r _. wstep. apply wps_length; [done|]. intros len _. wstep.
  eapply wps_mono; [by apply count_sent_spec|]. cbv beta. intros _ s1 [Hs1 E1].
  destruct (Z.eqb_spec (NetPacket.receiver p) BROADCAST); [pose proof BROADCAST_negative; unfold core_ok in Hr; lia|].
  destruct (m_fake_node (mesh s) core) eqn:Hf.
  { wstep. split_and!; [|done|done]. eexists. split; [done|]. split; [done | by left]. }
  wstep. eapply wps_mono; [apply sender_injection_spec; [done | done | by rewrite E1]|]. cbv beta. intros d s2 [Hs2 E2].
  pose proof (next_good s core _ Hs Hc Hr Hf) as Hnext. destruct (getNextDest _ _ _ _) as [dir next]. destruct Hnext as [Hdir Hgood].
  wstep. eapply wps_mono; [apply addHop_spec; [done | done | by rewrite E2, E1 | done]|]. cbv beta. intros [h e] s3 (Hh1 & Hh2 & Hs3 & E3). wstep.
  split_and!; [|done|split; [done | congruence]]. eexists. split; [done|]. by apply Hgood.
Qed.
Lemma mesh_broadcast s core p : mesh_inv s → m_broadcast_tree_enabled (mesh s) = false → core_ok g core → packet_ok g p → NetPacket.receiver p = BROADCAST → NetPacket.sender p = core →
  wps never (NetworkModelEMeshHopByHop.routePacket core p) s (λ r s',
    Forall2 (mesh_hop s core) (all_cores g) r.1 ∧ content r.2 = content p ∧ mesh_keeps s s').
Proof.
  intros Hs Htree Hc Hp Hr Hse. unfold NetworkModelEMeshHopByHop.routePacket. wstep. wstep. wstep. unfold id. rewrite (mesh_cfg _ Hs).
  apply wps_requester; [done|]. intros r _. wstep. apply wps_length; [done|]. intros len _. wstep.
  eapply wps_mono; [by apply count_sent_spec|]. cbv beta. intros _ s1 [Hs1 E1].
  rewrite Hr, Z.eqb_refl, Htree. destruct (m_fake_node (mesh s) core) eqn:Hf.
  { wstep. wstep. wstep. split_and!; [|done|done]. apply direct_hops. intros d. split; [done | by left]. }
  wstep. wstep. wstep; [|by rewrite Hse, Z.eqb_refl in *].
  eapply wps_mono; [apply unicast_all_spec; [done | done | by rewrite E1 | apply all_cores_ok]|]. cbv beta. intros l s2 [Hl [Hs2 E2]]. wstep.
  split_and!; [|done|split; [done | congruence]]. eapply Forall2_impl; [exact Hl|]. intros x y. by apply (mesh_hop_keeps s s1).
Qed.
Lemma mesh_receive s core p : mesh_inv s → core_ok g core → packet_ok g p →
  wps never (NetworkModelEMeshHopByHop.processReceivedPacket core p) s (λ q s', content q = content p ∧ mesh_keeps s s').
Proof.
  intros Hs Hc Hp. unfold NetworkModelEMeshHopByHop.processReceivedPacket. wstep. wstep. wstep. unfold id. rewrite (mesh_cfg _ Hs).
  apply wps_length; [done|]. intros len _. wstep. apply wps_requester; [done|]. intros r _. wstep.
  eapply wps_mono; [by apply node_at_spec|]. cbv beta. intros n s' [-> Hn]. wstep; [by wstep|]. wstep.
  apply (wps_mono _ _ _ (λ x s', content x.2 = content p ∧ mesh_keeps s s')).
  { wstep; [|by wstep]. wstep. destruct (processing_time_ok n len Hn) as [l El]. eapply wps_lift_ok; [exact El|]. wstep.
    eapply wps_mono; [apply ejection_spec; [done | done |]|].
    - match goal with Hb : _ && negb _ = true |- _ => by apply andb_true_iff in Hb as [_ ?%negb_true_iff] end.
    - cbv beta. intros d s' Hs'. by wstep. }
  intros [[latency contention] q] s1 [Hq [Hs1 E1]]. wstep. eapply wps_mono; [by apply node_at_spec|]. cbv beta. intros n' s' [-> [Hb Hqs]]. wstep.
  eapply wps_mono; [by apply put_node_spec|]. cbv beta. intros _ s2 [Hs2 E2]. wstep. split; [done|]. split; [done | congruence].
Qed.
End mesh.

#[export] Program Instance mesh_laws {Q} `{QueueLaws Q} : NetworkLaws (NetworkModelEMeshHopByHop.t Q) := {
  net_inv g s := mesh_inv g s ∧ NetworkModelEMeshHopByHop.m_broadcast_tree_enabled (NetworkModelEMeshHopByHop.mesh s) = false;
  distance := mesh_distance; diameter := mesh_diameter }.
Next Obligation.
  intros Q ? ? g s core p [Hs Ht] Hc Hp Hr. eapply wps_mono; [by apply (mesh_unicast g)|]. cbn. intros r s' (Hh & Hco & Hs' & E).
  rewrite E. split_and!; try done. all: intros; unfold mesh_diameter, mesh_distance; by rewrite E.
Qed.
Next Obligation.
  intros Q ? ? g s core p [Hs Ht] Hc Hp Hr Hse. eapply wps_mono; [by apply (mesh_broadcast g)|]. cbn. intros r s' (Hh & Hco & Hs' & E).
  rewrite E. split_and!; try done. all: intros; unfold mesh_diameter, mesh_distance; by rewrite E.
Qed.
Next Obligation.
  intros Q ? ? g s core p [Hs Ht] Hc Hp. eapply wps_mono; [by apply (mesh_receive g)|]. cbn. intros r s' (Hco & Hs' & E).
  rewrite E. split_and!; try done. all: intros; unfold mesh_diameter, mesh_distance; by rewrite E.
Qed.

(** ** [netRecv] takes the earliest packet that matches, of several the one that came first *)
Definition least (fits : NetPacket.t → bool) (l : list NetPacket.t) (p : NetPacket.t) : Prop :=
  ∀ q, q ∈ l → fits q = true → NetPacket.time p ≤ NetPacket.time q.
Lemma earliest_packet_spec fits i l best :
  match Network.earliest fits i l best with
  | None => best = None ∧ ∀ q, q ∈ l → fits q = false
  | Some (j, p) =>
      (best = Some (j, p) ∧ least fits l p) ∨
      ∃ k, j = (i + k)%nat ∧ l !! k = Some p ∧ fits p = true ∧ least fits l p ∧
        (∀ b, best = Some b → NetPacket.time p < NetPacket.time b.2) ∧
        ∀ q, q ∈ take k l → fits q = true → NetPacket.time p < NetPacket.time q
  end.
Proof.
  revert i best. induction l as [|x l IH]; intros i best; cbn.
  { destruct best as [[j b]|]; [left|]; (split; [done|]); by intros q ?%elem_of_nil. }
  set (better := fits x && _). specialize (IH (S i) (if better then Some (i, x) else best)).
  destruct (Network.earliest _ _ _ _) as [[j p]|].
  - destruct better eqn:E; unfold better in E.
    + apply andb_true_iff in E as [Hx Hlt].
      assert (Hb : ∀ b, best = Some b → NetPacket.time x < NetPacket.time b.2) by (intros [k b] ->; cbn in *; lia).
      right. destruct IH as [[[= <- <-] Hle]|(k & -> & Hk & Hp & Hle & Hbest & Htake)].
      * exists 0%nat. split_and!; [lia | done | done | | done | by intros q ?%elem_of_nil].
        intros q [->|Hq]%elem_of_cons Hf; [lia | by apply Hle].
      * specialize (Hbest _ eq_refl). cbn in Hbest. exists (S k). split_and!; [lia | done | done | | |].
        -- intros q [->|Hq]%elem_of_cons Hf; [lia | by apply Hle].
        -- intros b Hbb. specialize (Hb b Hbb). lia.
        -- cbn. intros q [->|Hq]%elem_of_cons Hf; [done | by apply Htake].
    + assert (Hx : fits x = true → ∃ b, best = Some b ∧ NetPacket.time b.2 ≤ NetPacket.time x).
      { intros Hf. rewrite Hf in E. destruct best as [[k b]|]; [|done]. eexists. split; [done|]. cbn in *. lia. }
      destruct IH as [[-> Hle]|(k & -> & Hk & Hp & Hle & Hbest & Htake)].
      * left. split; [done|]. intros q [->|Hq]%elem_of_cons Hf; [|by apply Hle]. destruct (Hx Hf) as ([k b] & [= -> ->] & Hb). done.
      * right. exists (S k). split_and!; [lia | done | done | | done |].
        -- intros q [->|Hq]%elem_of_cons Hf; [|by apply Hle]. destruct (Hx Hf) as (b & Hb1 & Hb2). specialize (Hbest b Hb1). lia.
        -- cbn. intros q [->|Hq]%elem_of_cons Hf; [|by apply Htake]. destruct (Hx Hf) as (b & Hb1 & Hb2). specialize (Hbest b Hb1). lia.
  - destruct IH as [Hb Hall]. destruct better eqn:E; [done|]. unfold better in E. rewrite Hb in E. split; [done|].
    intros q [->|Hq]%elem_of_cons; [destruct (fits x); [done | done] | by apply Hall].
Qed.
Lemma delete_split {X} (l : list X) i x : l !! i = Some x → l = take i l ++ x :: drop (S i) l ∧ delete i l = take i l ++ drop (S i) l.
Proof. intros Hx. split; [by rewrite take_drop_middle | by rewrite delete_take_drop]. Qed.
(** It fails only for a packet that is nobody's or far too late. *)
Lemma netRecv_earliest {A B} (s : Network.t A B) core senders types now l : at_core (Network._netQueue s) core = Ok l →
  wps (λ e, e = AssertFail ∨ e = LogError) (Network.netRecv core senders types now) s (λ o s',
    let fits := Network.matches (Network.cfg s) senders types in
    match o with
    | None => s' = s ∧ ∀ q, q ∈ l → fits q = false
    | Some (p, _) => ∃ l1 l2, l = l1 ++ p :: l2 ∧ at_core (Network._netQueue s') core = Ok (l1 ++ l2) ∧ fits p = true ∧
        least fits l p ∧ ∀ q, q ∈ l1 → fits q = true → NetPacket.time p < NetPacket.time q
    end).
Proof.
  intros Hl. unfold Network.netRecv. wstep. wstep. wstep. unfold id. eapply wps_lift_ok; [exact Hl|].
  pose proof (earliest_packet_spec (Network.matches (Network.cfg s) senders types) 0 l None) as He.
  destruct (Network.earliest _ _ _ _) as [[i p]|]; [|wstep; split; [done | apply He]].
  destruct He as [[? _]|(k & -> & Hk & Hp & Hle & _ & Htake)]; [done|]. destruct (delete_split l k p Hk) as [Hsplit Hdel].
  wstep. wstep; [|by left]. wstep. wstep; [|by left]. wstep. cbn [Nat.add].
  assert (Hcore : 0 ≤ core ∧ Network._netQueue s !! Z.to_nat core = Some l).
  { unfold at_core, arr_get in Hl. destruct (Z.ltb_spec core 0); [done|]. destruct (_ !! _) eqn:E; [|done]. by injection Hl as ->. }
  destruct Hcore as [Hc Hq]. assert (Hput : put_core (Network._netQueue s) core (delete k l) = Ok (<[Z.to_nat core := delete k l]> (Network._netQueue s))).
  { unfold put_core, arr_set. rewrite (proj2 (Z.ltb_ge core 0)), Hq by done. done. }
  eapply wps_lift_ok; [exact Hput|]. wstep. wstep.
  assert (Hend : ∃ l1 l2, l = l1 ++ p :: l2 ∧ at_core (<[Z.to_nat core := delete k l]> (Network._netQueue s)) core = Ok (l1 ++ l2) ∧
    Network.matches (Network.cfg s) senders types p = true ∧ least (Network.matches (Network.cfg s) senders types) l p ∧
    ∀ q, q ∈ l1 → Network.matches (Network.cfg s) senders types q = true → NetPacket.time p < NetPacket.time q).
  { exists (take k l), (drop (S k) l). split_and!; try done. unfold at_core, arr_get. rewrite (proj2 (Z.ltb_ge core 0)) by done.
    rewrite list_lookup_insert_eq by (by eapply lookup_lt_Some). by rewrite Hdel. }
  wstep; [|by wstep]. wstep; [|by wstep]. wstep. wstep; [apply wps_fail; by right | by wstep].
Qed.
