(* ===== verification/MeshLatency.v ===== *)
(** Times and places in the mesh: how long a packet takes when no queue delays it, where memory
    controllers are, and that broadcasts along the tree never end. *)
From S2P Require Import Prelude Utils Timing QueueModels BlockInfo ShmemMsg StateResult Memory Network Mesh Delivery.
Import NetworkModelEMeshHopByHop.

#[local] Arguments route_length : simpl never.
#[local] Arguments content : simpl never.

Section latency.
Context {Q : Type} `{QueueLaws Q} (g : config) (L : Z).
Implicit Types s : NetworkModelEMeshHopByHop.t Q.

(** No queues, and models that are enabled with a latency of [L] for each link. *)
Record quiet s : Prop := {
  quiet_inv : mesh_inv g s;
  quiet_queues : m_queue_model_enabled (mesh s) = false;
  quiet_nodes : Forall (λ n, m_enabled n = true ∧ ComponentLatency.getLatency (m_hop_latency n) = L) (nodes s);
}.
Definition of_application (p : NetPacket.t) : Prop := ∃ r, requester_of g p = Ok r ∧ r < ApplicationCores g.

Lemma add_u64 a b : SubsecondTime.add (u64 a) b = u64 (a + b).
Proof. unfold SubsecondTime.add, u64. by rewrite Zplus_mod_idemp_l. Qed.
Lemma count_sent_quiet s core p len : quiet s → core_ok g core →
  wps never (when (NetPacket.sender p =? core) (n ← node_at core; put_node core (with_sent len n))) s (λ _ s', quiet s' ∧ mesh s' = mesh s).
Proof.
  intros Hs Hc. pose proof (quiet_inv _ Hs) as Hi. wstep; [|done]. wstep. unfold node_at. wstep. wstep. unfold id.
  destruct (at_core_spec (nodes s) core) as (n & En & Hin & Hput); [rewrite (mesh_nodes _ _ Hi); unfold core_ok in Hc; lia|].
  eapply wps_lift_ok; [exact En|]. unfold put_node. wstep. wstep. wstep. unfold id. eapply wps_lift_ok; [apply Hput|]. wstep. split; [|done].
  pose proof (Forall_lookup_1 _ _ _ _ (mesh_nodes_ok _ _ Hi) Hin) as Hn. pose proof (Forall_lookup_1 _ _ _ _ (quiet_nodes _ Hs) Hin) as Hqn.
  split; cbn; [|apply Hs | apply Forall_insert; [apply Hs | exact Hqn]].
  pose proof Hi as []. split; try done; cbn; [by rewrite length_insert | by apply Forall_insert].
Qed.

Lemma addHop_quiet s core d final next time len r : quiet s → core_ok g core → m_fake_node (mesh s) core = false → is_link d → r < ApplicationCores g →
  wps never (addHop core d final next time len r) s (λ x s',
    x.1 = {| final_dest := final; next_dest := next; hop_time := u64 (time + L) |} ∧ s' = s).
Proof.
  intros Hs Hc Hf Hd Hr. pose proof (quiet_inv _ Hs) as Hi.
  assert (Hgoal : wps never ('(l, d) ← computeLatency core d time len r;
      mret ({| final_dest := final; next_dest := next; hop_time := SubsecondTime.add time l |}, d)) s
    (λ x s', x.1 = {| final_dest := final; next_dest := next; hop_time := u64 (time + L) |} ∧ s' = s)).
  { wstep. unfold computeLatency. wstep. unfold fake. wstep. wstep. wstep; [|by rewrite Hf in *]. wstep. wstep. wstep. unfold node_at. wstep. wstep. unfold id.
    destruct (at_core_spec (nodes s) core) as (n & En & Hin & _); [rewrite (mesh_nodes _ _ Hi); unfold core_ok in Hc; lia|].
    eapply wps_lift_ok; [exact En|]. pose proof (Forall_lookup_1 _ _ _ _ (mesh_nodes_ok _ _ Hi) Hin) as Hn.
    pose proof (Forall_lookup_1 _ _ _ _ (quiet_nodes _ Hs) Hin) as [Hen Hlat]. cbn in Hlat.
    destruct (link_spec d n Hn Hd) as (q & put & -> & _). rewrite Hen, (mesh_cfg _ _ Hi), (proj2 (Z.leb_gt _ _)) by lia. cbn [negb orb].
    wstep. destruct (processing_time_ok n len Hn) as [l El]. eapply wps_lift_ok; [exact El|]. rewrite (quiet_queues _ Hs). wstep. wstep. wstep. wstep.
    split; [|done]. cbn. f_equal. rewrite Hlat. unfold SubsecondTime.add, SubsecondTime.Zero, u64. by rewrite Z.add_0_r, Zplus_mod_idemp_r. }
  by destruct Hd as [->|[->|[->| ->]]].
Qed.

(** One hop: to the destination on the same node, or over a link. *)
Definition timed s (core d time : Z) (h : Hop) : Prop :=
  final_dest h = d ∧
  ((next_dest h = d ∧ hop_time h = u64 time ∧ route_length (mesh s) core d = 0) ∨
   (master g (mesh s) (next_dest h) ∧ hop_time h = u64 (time + L) ∧ route_length (mesh s) (next_dest h) d = route_length (mesh s) core d - 1)).
Lemma unicast_timed s core p : quiet s → master g (mesh s) core → packet_ok g p → of_application p → 0 ≤ NetPacket.receiver p < ApplicationCores g →
  wps never (NetworkModelEMeshHopByHop.routePacket core p) s (λ r s',
    (∃ h, r.1 = [h] ∧ timed s core (NetPacket.receiver p) (NetPacket.time p) h) ∧ (content r.2 = content p ∧ NetPacket.time r.2 = NetPacket.time p) ∧ quiet s' ∧ mesh s' = mesh s).
Proof.
  intros Hs Hm Hp (r & Er & Hr) Hd. pose proof (quiet_inv _ Hs) as Hi. pose proof (mesh_sane _ _ Hi) as Hsane. pose proof (sane_total _ _ Hsane) as Ht.
  assert (Hc : core_ok g core) by (destruct Hm; unfold core_ok; lia).
  pose proof (proj2 (master_not_fake g (mesh s) Hsane core ltac:(apply Hc)) Hm) as Hf.
  unfold NetworkModelEMeshHopByHop.routePacket. wstep. wstep. wstep. unfold id. rewrite (mesh_cfg _ _ Hi).
  eapply wps_lift_ok; [exact Er|]. wstep. apply wps_length; [done|]. intros len _. wstep.
  eapply wps_mono; [by apply count_sent_quiet|]. cbv beta. intros _ s1 [Hs1 E1].
  destruct (Z.eqb_spec (NetPacket.receiver p) NetPacket.BROADCAST); [pose proof BROADCAST_negative; lia|]. rewrite Hf. wstep.
  apply (wps_mono _ _ _ (λ d s', d = 0 ∧ s' = s1)).
  { wstep; [|by wstep]. unfold computeInjectionPortQueueDelay. wstep. unfold fake. wstep. wstep. wstep; [|by rewrite E1, Hf in *]. wstep. wstep.
    unfold id. rewrite (quiet_queues _ Hs1). by wstep. }
  intros d s2 [-> ->]. rewrite <- E1 in Hsane, Hf, Hm |- *. unfold timed.
  assert (Ht0 : SubsecondTime.add (NetPacket.time p) 0 = u64 (NetPacket.time p)) by (unfold SubsecondTime.add; by rewrite Z.add_0_r). rewrite Ht0.
  rewrite <- E1. destruct (decide (core `div` m_concentration (mesh s1) = NetPacket.receiver p `div` m_concentration (mesh s1))) as [He|Hne].
  - unfold getNextDest. rewrite (proj2 (Z.leb_gt _ _)), (proj2 (Z.eqb_eq _ _)) by (done || lia). cbn [addHop]. wstep. wstep. wstep.
    split_and!; try done. eexists. split; [done|]. split; [done|]. left. split_and!; [done | done |].
    rewrite <- (route_length_zero g (mesh s1) Hsane (NetPacket.receiver p)). unfold route_length. by rewrite (proj2 (position_inj g (mesh s1) Hsane _ _) He).
  - destruct (next_nearer g (mesh s1) Hsane core _ Hm Hd Hne) as (dir & next & -> & Hdir & Hnext & Hlen). wstep.
    eapply wps_mono; [by apply addHop_quiet|]. cbv beta. intros [h e] s' [Hh ->]. cbn in Hh. subst h. wstep. split_and!; try done.
    eexists. split; [done|]. split; [done|]. right. cbn. split_and!; [done | | done]. unfold u64. by rewrite Zplus_mod_idemp_l.
Qed.
End latency.

(** ** The time of a packet of memory in a quiet mesh *)
Section network.
Context {Q : Type} `{QueueLaws Q} {B : Type} `{NetworkLaws B} (L : Z).
Abbreviation S := (Network.t (NetworkModelEMeshHopByHop.t Q) B).
Implicit Types s : S.
Definition quiet_network s : Prop := inv s ∧ quiet (Network.cfg s) L (Network.memory_1 s).
Definition mesh_of s : params := mesh (Network.memory_1 s).
(** Only the mesh has changed. *)
Definition same_network s s' : Prop := quiet_network s' ∧ Network.cfg s' = Network.cfg s ∧ Network.m_queue s' = Network.m_queue s ∧ mesh_of s' = mesh_of s.

Lemma route_timed s core p : quiet_network s → NetPacket.type p = SHARED_MEM_1 → master (Network.cfg s) (mesh_of s) core → packet_ok (Network.cfg s) p →
  of_application (Network.cfg s) p → 0 ≤ NetPacket.receiver p < ApplicationCores (Network.cfg s) →
  wps never (Network.route core p) s (λ r s', (∃ h, r.1 = [h] ∧ timed (Network.cfg s) L (Network.memory_1 s) core (NetPacket.receiver p) (NetPacket.time p) h) ∧
    (content r.2 = content p ∧ NetPacket.time r.2 = NetPacket.time p) ∧ same_network s s').
Proof.
  intros [Hi Hs] Hty Hm Hp Happ Hd. unfold Network.route. rewrite Hty. apply wps_in_network; [|done]. intros _.
  eapply wps_mono; [by apply (unicast_timed (Network.cfg s) L)|]. cbn. intros r m (Hh & Hc & Hq & E). split; [done|]. split; [done|].
  split_and!; try done. split; [|done]. pose proof Hi as []. split; try done. cbn. rewrite E. split; [apply Hq | apply inv_memory].
Qed.
Lemma of_application_content g p q : content p = content q → of_application g p → of_application g q.
Proof. destruct p, q. unfold content, of_application, requester_of, message. cbn. by intros [= -> -> -> ->]. Qed.
(** [t0] is when the packet would have left [d], had it gone backwards. *)
Lemma follow_timed fuel h p s d t0 : quiet_network s → NetPacket.type p = SHARED_MEM_1 → packet_ok (Network.cfg s) p → of_application (Network.cfg s) p →
  0 ≤ d < ApplicationCores (Network.cfg s) → final_dest h = d → (next_dest h = d ∨ master (Network.cfg s) (mesh_of s) (next_dest h)) →
  hop_time h = u64 (t0 - L * route_length (mesh_of s) (next_dest h) d) →
  (next_dest h = d ∨ Z.to_nat (route_length (mesh_of s) (next_dest h) d) < fuel)%nat →
  wps never (Network.follow fuel h p) s (λ r s', final_dest r.1 = d ∧ next_dest r.1 = d ∧ hop_time r.1 = u64 t0 ∧ content r.2 = content p ∧ same_network s s').
Proof.
  revert h p s. induction fuel as [|n IH]; intros h p s Hs Hty Hp Happ Hd Hf Hn Ht Hlt; cbn [Network.follow].
  all: pose proof (mesh_sane _ _ (quiet_inv _ _ _ (proj2 Hs))) as Hsane; fold (mesh_of s) in Hsane.
  all: destruct (Z.eqb_spec (final_dest h) NetPacket.BROADCAST); [pose proof BROADCAST_negative; lia|]; cbn [orb];
    destruct (Z.eqb_spec (next_dest h) (final_dest h)) as [Heq|Hne].
  1, 3: wstep; rewrite Heq, Hf, (route_length_zero _ _ Hsane) in Ht; split_and!; cbn; [done | congruence | by rewrite Ht, Z.mul_0_r, Z.sub_0_r | done | done..].
  all: destruct Hn as [Hn|Hn]; [congruence|]; destruct Hlt as [Hlt|Hlt]; [congruence|]; try lia.
  wstep. wstep. wstep. pose proof (sane_total _ _ Hsane) as Htotal. pose proof Hn as [Hnr _]. wstep; [|unfold id in *; lia].
  wstep. set (p' := NetPacket.set_receiver _ _). assert (Hc' : content p' = content p) by done. unfold id.
  eapply wps_mono; [apply route_timed; [done | done | done | by apply (packet_ok_content _ p) | by apply (of_application_content _ p) | by cbn; rewrite Hf]|].
  cbv beta. intros [l q] s1 ((h1 & Hl & Hf1 & Hh1) & [Hc1 _] & Hk1). cbn in Hl, Hc1. subst l. cbn in Hf1, Hh1. rewrite Hf in *.
  destruct Hk1 as (Hs1 & Hg1 & Hq1 & Hm1). assert (Hqp : content q = content p) by by rewrite Hc1.
  assert (Hq' : NetPacket.type q = SHARED_MEM_1) by (injection Hqp; congruence).
  assert (Hu : ∀ x, u64 (u64 x + L) = u64 (x + L)) by (intros; unfold u64; by rewrite Zplus_mod_idemp_l).
  assert (Huu : ∀ x, u64 (u64 x) = u64 x) by (intros; unfold u64; by rewrite Zmod_mod).
  eapply wps_mono; [apply (IH h1 q s1)|].
  - done.
  - done.
  - rewrite Hg1. by apply (packet_ok_content _ p).
  - rewrite Hg1. by apply (of_application_content _ p).
  - by rewrite Hg1.
  - done.
  - rewrite Hg1, Hm1. destruct Hh1 as [(?&_)|(?&_)]; auto.
  - rewrite Hm1. destruct Hh1 as [(Hn1 & Ht1 & Hz)|(_ & Ht1 & Hz)]; rewrite Ht1, Ht; fold (mesh_of s) in Hz.
    + rewrite Hn1, (route_length_zero _ _ Hsane), Hz, Huu. done.
    + rewrite Hz, Hu. f_equal. lia.
  - rewrite Hm1. destruct Hh1 as [(Hn1 & _)|(Hn1 & _ & Hz)]; [by left | right]. fold (mesh_of s) in Hz.
    destruct Hn1 as [Hn1 _]. pose proof (route_length_bound _ _ Hsane (next_dest h1) d Hn1 Hd). lia.
  - cbv beta. intros [h2 q2] s2 (H21 & H22 & H23 & H24 & Hs2 & Hg2 & Hq2 & Hm2). cbn in H21, H22, H23, H24. split; [done|]. split; [done|]. split; [done|]. split; [cbn; by rewrite H24|]. split; [done|]. split_and!; congruence.
Qed.

(** [C32] Without contention, and with the performance models of all cores enabled, a packet of
    memory between cores of the application arrives after as many latencies of a link as its way
    has links, modulo 2^64, if the sender is the first core of its node
    ([fake_node_sends_directly] is about the others). *)
Theorem mesh_latency fuel s core p : quiet_network s → sendable (Network.cfg s) core p → NetPacket.type p = SHARED_MEM_1 →
  of_application (Network.cfg s) p → core `mod` m_concentration (mesh_of s) = 0 → 0 ≤ core < ApplicationCores (Network.cfg s) →
  0 ≤ NetPacket.receiver p < ApplicationCores (Network.cfg s) → (m_mesh_width (mesh_of s) + m_mesh_height (mesh_of s) ≤ Z.of_nat fuel) →
  wps never (Network.netSend fuel core p) s (λ _ s', ∃ q,
    queue_at s' (NetPacket.receiver p) = queue_at s (NetPacket.receiver p) ++ [q] ∧ content q = content p ∧ NetPacket.start_time q = NetPacket.time p ∧
    NetPacket.time q = u64 (NetPacket.time p + L * route_length (mesh_of s) core (NetPacket.receiver p))).
Proof.
  intros Hs (Hc & Hse & Hp & _) Hty Happ Hm0 Hcr Hd Hfuel. assert (Hm : master (Network.cfg s) (mesh_of s) core) by done.
  pose proof (mesh_sane _ _ (quiet_inv _ _ _ (proj2 Hs))) as Hsane. fold (mesh_of s) in Hsane. set (d := NetPacket.receiver p) in *.
  pose proof (route_length_bound _ _ Hsane core d Hcr Hd) as Hb. pose proof (sane_total _ _ Hsane) as Htotal.
  assert (Huu : ∀ x, u64 (u64 x) = u64 x) by (intros; unfold u64; by rewrite Zmod_mod).
  unfold Network.netSend. wstep. eapply wps_mono; [by apply route_timed|]. cbv beta. intros [l q] s1 ((h & Hl & Hf & Hh) & [Hcq Htime] & Hk). cbn in Hl, Hcq, Htime. subst l.
  fold d in Hf, Hh. destruct Hk as (Hs1 & Hg1 & Hq1 & Hm1). fold (mesh_of s) in Hh.
  assert (Htq : NetPacket.type q = SHARED_MEM_1) by (injection Hcq; congruence). cbn [Network.send_hops]. wstep.
  eapply wps_mono; [apply (follow_timed fuel h q s1 d (NetPacket.time p + L * route_length (mesh_of s) core d)); try done|].
  - rewrite Hg1. by apply (packet_ok_content _ p).
  - rewrite Hg1. by apply (of_application_content _ p).
  - by rewrite Hg1.
  - rewrite Hg1, Hm1. destruct Hh as [(?&_)|(?&_)]; auto.
  - rewrite Hm1. destruct Hh as [(Hn1 & Ht1 & Hz)|(_ & Ht1 & Hz)]; rewrite Ht1.
    + rewrite Hn1, Hz, (route_length_zero _ _ Hsane). f_equal. lia.
    + rewrite Hz. f_equal. lia.
  - rewrite Hm1. destruct Hh as [(Hn1 & _)|((Hn1 & _) & _ & Hz)]; [by left | right].
    pose proof (route_length_bound _ _ Hsane (next_dest h) d Hn1 Hd). lia.
  - cbn. intros [h2 q2] s2 (Hf2 & Hn2 & Ht2 & Hc2 & Hs2 & Hg2 & Hq2 & Hm2). cbn in Hf2, Hn2, Ht2, Hc2. rewrite Hf2, Hn2, Ht2.
    assert (Hsq : NetPacket.sender q = core) by (injection Hcq; congruence). rewrite Hsq, Z.eqb_refl. wstep. unfold Network.send. wstep. wstep. wstep. unfold id.
    assert (Hi2 : inv s2) by apply Hs2. assert (Hg : Network.cfg s2 = Network.cfg s) by congruence.
    destruct (at_core_spec (Network.m_queue s2) d) as (l & El & Hl & Hput); [rewrite (inv_queues _ Hi2), Hg; lia|].
    eapply wps_lift_ok; [exact El|]. wstep. eapply wps_lift_ok; [apply Hput|]. wstep. wstep. eexists. split.
    + unfold queue_at. cbn. rewrite list_lookup_insert_eq by (by eapply lookup_lt_Some). cbn. f_equal. rewrite <- Hq1, <- Hq2, Hl. done.
    + split_and!; [by rewrite <- Hcq | exact Htime | done].
Qed.
End network.

(** ** Broadcasts along the tree

    The tree has no bounds: at the border of the mesh it goes on around the other side. *)
Section tree.
Context {Q : Type} `{QueueLaws Q} (g : config).
Implicit Types s : NetworkModelEMeshHopByHop.t Q.
Lemma addHops_spec s core hops time len r : mesh_inv g s → core_ok g core → m_fake_node (mesh s) core = false →
  Forall (λ x, is_link x.1.1 ∨ x.1.1 = SELF) hops →
  wps never (addHops core hops time len r) s (λ l s', Forall2 (λ x h, final_dest h = x.1.2 ∧ next_dest h = x.2) hops l ∧ mesh_keeps g s s').
Proof.
  revert s. induction hops as [|[[d f] n] hops IH]; intros s Hs Hc Hf Hd; cbn [addHops]; [by wstep|]. apply Forall_cons in Hd as [Hd Hds]. cbn in Hd.
  wstep. apply (wps_mono _ _ _ (λ x s', final_dest x.1 = f ∧ next_dest x.1 = n ∧ mesh_keeps g s s')).
  - destruct Hd as [Hd| ->]; [apply addHop_spec; auto | by apply wps_ret].
  - intros [h e] s1 (H1 & H2 & Hs1 & E1). wstep. eapply wps_mono; [apply IH; [done | done | by rewrite E1 | done]|]. cbv beta.
    intros l s2 (Hl & Hs2 & E2). wstep. split; [by constructor|]. split; [done | congruence].
Qed.
Lemma tree_goes_on m core sender : sane g m → master g m core →
  ∃ d next, (d, NetPacket.BROADCAST, next) ∈ tree_hops m core sender ∧ master g m next.
Proof.
  intros Hm Hc. pose proof Hc as [Hcr _]. pose proof (position_range g m Hm core Hcr) as [Hx Hy]. unfold tree_hops.
  destruct (computePosition m sender) as [sx sy], (computePosition m core) as [cx cy]. cbn in Hx, Hy. pose proof Hm as [].
  assert (Hnext : ∀ y, master g m (computeCoreId m cx y)).
  { intros y. unfold computeCoreId. apply (core_at g m Hm); apply Z.mod_pos_bound; lia. }
  destruct (Z.leb_spec sy cy).
  - exists UP, (computeCoreId m cx (cy + 1)). split; [|done]. set_solver.
  - exists DOWN, (computeCoreId m cx (cy - 1)). split; [|done]. rewrite (proj2 (Z.leb_le cy sy)) by lia. set_solver.
Qed.
Lemma tree_links m core sender : Forall (λ x : OutputDirection * Z * Z, is_link x.1.1 ∨ x.1.1 = SELF) (tree_hops m core sender).
Proof.
  assert (Hif : ∀ (b : bool) l, Forall (λ x : OutputDirection * Z * Z, is_link x.1.1 ∨ x.1.1 = SELF) l →
    Forall (λ x : OutputDirection * Z * Z, is_link x.1.1 ∨ x.1.1 = SELF) (if b then l else [])) by (by intros []).
  unfold tree_hops. destruct (computePosition m sender), (computePosition m core). unfold is_link in *.
  rewrite !Forall_app. split; [apply Hif | split; [apply Hif | apply Hif; rewrite !Forall_app; split; [apply Hif | split; apply Hif]]].
  all: rewrite Forall_singleton; cbn; auto.
Qed.
Definition goes_on (m : params) (l : list Hop) : Prop := ∃ h, h ∈ l ∧ final_dest h = NetPacket.BROADCAST ∧ master g m (next_dest h).
(** With the broadcast tree, every node that gets a copy of a broadcast sends at least one
    further copy to a node of the mesh, the sender of the first one included when a copy gets back
    to it: a broadcast never ends. *)
Theorem broadcast_tree_never_ends s core p : mesh_inv g s → m_broadcast_tree_enabled (mesh s) = true → master g (mesh s) core →
  packet_ok g p → NetPacket.receiver p = NetPacket.BROADCAST →
  wps never (NetworkModelEMeshHopByHop.routePacket core p) s (λ r s',
    goes_on (mesh s) r.1 ∧ content r.2 = content p ∧ mesh_keeps g s s').
Proof.
  intros Hs Htree Hm Hp Hr. pose proof (mesh_sane _ _ Hs) as Hsane. pose proof (sane_total _ _ Hsane).
  assert (Hc : core_ok g core) by (destruct Hm; unfold core_ok; lia).
  pose proof (proj2 (master_not_fake g (mesh s) Hsane core ltac:(apply Hc)) Hm) as Hf.
  unfold NetworkModelEMeshHopByHop.routePacket. wstep. wstep. wstep. unfold id. rewrite (mesh_cfg _ _ Hs).
  apply wps_requester; [done|]. intros r _. wstep. apply wps_length; [done|]. intros len _. wstep.
  eapply wps_mono; [by apply (count_sent_spec g)|]. cbv beta. intros _ s1 [Hs1 E1]. rewrite Hr, Z.eqb_refl, Hf, Htree. wstep. wstep.
  rewrite <- Hr. eapply wps_mono; [apply (sender_injection_spec g); [done | done | by rewrite E1]|]. cbv beta. intros d s2 [Hs2 E2].
  eapply wps_mono; [apply addHops_spec; [done | done | by rewrite E2, E1 |]|].
  - apply tree_links.
  - cbv beta. intros l s3 (Hl & Hs3 & E3). wstep. split_and!; [|done|split; [done | congruence]].
    destruct (tree_goes_on (mesh s) core (NetPacket.sender p) Hsane Hm) as (dir & next & Hin & Hnext).
    apply list_elem_of_lookup in Hin as [i Hi]. destruct (Forall2_lookup_l _ _ _ _ _ Hl Hi) as (h & Hh & Hf1 & Hn1). cbn in Hf1, Hn1.
    exists h. split; [by eapply list_elem_of_lookup_2|]. by rewrite Hf1, Hn1.
Qed.
End tree.

(** ** Memory controllers along the border *)
Section controllers.
Context (w h : Z) (Hw : 0 < w) (Hh : 0 < h).
Import MemoryControllers.
Lemma range_elem a b x : x ∈ range a b ↔ a ≤ x < b.
Proof.
  unfold range. rewrite list_elem_of_fmap. split; [intros (i & -> & Hi%elem_of_seq); lia|]. intros Hx. exists (Z.to_nat (x - a)). rewrite elem_of_seq. lia.
Qed.
Lemma range_NoDup a b : NoDup (range a b).
Proof. apply NoDup_fmap; [intros i j; lia | apply NoDup_seq]. Qed.
Lemma range_rev_NoDup a b : NoDup (reverse (range a b)).
Proof. rewrite reverse_Permutation. apply range_NoDup. Qed.
Lemma range_length a b : length (range a b) = Z.to_nat (b - a).
Proof. unfold range. by rewrite length_fmap, length_seq. Qed.
(** The nodes of the border by their rows and columns. *)
Definition border : list (Z * Z) :=
  ((λ x, (x, 0)) <$> range 0 w) ++ ((λ y, (w - 1, y)) <$> range 1 (h - 1)) ++ ((λ x, (x, h - 1)) <$> reverse (range 0 w)) ++ ((λ y, (0, y)) <$> reverse (range 1 (h - 1))).
Definition number (p : Z * Z) : Z := p.2 * w + p.1.
Lemma border_NoDup : 1 < w → 1 < h → NoDup border.
Proof.
  intros Hw1 Hh1. unfold border. rewrite !NoDup_app. split_and!.
  all: try (apply NoDup_fmap; [intros ? ?; cbn; congruence | first [apply range_NoDup | apply range_rev_NoDup]]).
  all: intros [x y]; rewrite ?elem_of_app, !list_elem_of_fmap; setoid_rewrite elem_of_reverse; setoid_rewrite range_elem; intros (? & [= -> ->] & ?);
    naive_solver lia.
Qed.
Lemma border_range p : p ∈ border → 0 ≤ p.1 < w ∧ 0 ≤ p.2 < h.
Proof.
  unfold border. rewrite !elem_of_app, !list_elem_of_fmap. setoid_rewrite elem_of_reverse. setoid_rewrite range_elem.
  intros [(? & -> & ?)|[(? & -> & ?)|[(? & -> & ?)|(? & -> & ?)]]]; cbn; lia.
Qed.
Lemma number_inj p q : 0 ≤ p.1 < w → 0 ≤ q.1 < w → number p = number q → p = q.
Proof. destruct p as [x y], q as [x' y']. unfold number. cbn. intros. assert (y = y') by nia. subst. f_equal. lia. Qed.
Lemma number_range p : 0 ≤ p.1 < w → 0 ≤ p.2 < h → 0 ≤ number p < w * h.
Proof. destruct p as [x y]. unfold number. cbn. nia. Qed.
Lemma numbers_NoDup l : NoDup l → (∀ p, p ∈ l → 0 ≤ p.1 < w ∧ 0 ≤ p.2 < h) → NoDup (number <$> l) ∧ Forall (λ c, 0 ≤ c < w * h) (number <$> l).
Proof.
  intros Hl Hr. split.
  - apply NoDup_fmap_2_strong; [|done]. intros p q Hp Hq. apply number_inj; by apply Hr.
  - apply Forall_fmap, Forall_forall. intros p Hp. destruct (Hr p Hp). by apply number_range.
Qed.
(** The nodes with a neighbour missing, and how many they are; a line or ring has only those. *)
Definition on_border (c : Z) : Prop := c `mod` w = 0 ∨ c `mod` w = w - 1 ∨ c `div` w = 0 ∨ c `div` w = h - 1.
Definition border_size (dimensions : Z) : Z := if (1 <? dimensions) && (1 <? h) then 2 * (w + h - 2) else w.
Lemma number_on_border p : p ∈ border → on_border (number p).
Proof.
  intros Hp. destruct (border_range p Hp) as [Hx Hy]. unfold on_border, number.
  rewrite Z.add_comm, Z.mod_add, Z.div_add, Z.mod_small, Z.div_small by lia. revert Hp.
  unfold border. rewrite !elem_of_app, !list_elem_of_fmap. intros [(? & -> & ?)|[(? & -> & ?)|[(? & -> & ?)|(? & -> & ?)]]]; cbn; lia.
Qed.
Lemma perimeter_spec dimensions : w + h < 2 ^ 31 → (1 < dimensions → 1 < h → 1 < w) →
  ∃ l, perimeter w h dimensions = Ok l ∧ NoDup l ∧ Forall (λ c, 0 ≤ c < w * h ∧ on_border c) l ∧ Z.of_nat (length l) = border_size dimensions.
Proof.
  intros Hsmall Hw1. unfold perimeter, border_size. destruct (Z.ltb_spec 1 dimensions), (Z.ltb_spec 1 h); cbn [andb].
  { specialize (Hw1 ltac:(done) ltac:(done)). set (l := range 0 w ++ _). assert (Hl : l = number <$> border).
    { unfold l, border. rewrite !fmap_app, <- !list_fmap_compose. f_equal; [|f_equal; [|f_equal]]; try (apply list_fmap_ext; intros; unfold number; cbn; lia).
      rewrite <- (list_fmap_id (range 0 w)) at 1. apply list_fmap_ext. intros. unfold number. cbn. lia. }
    assert (Hlen : Z.of_nat (length l) = u32 (2 * (w + h - 2))).
    { rewrite Hl. unfold border. rewrite length_fmap, !length_app, !length_fmap, !length_reverse, !range_length. rewrite u32_small by (unfold in_u32; lia). lia. }
    rewrite Hlen, Z.eqb_refl. cbn. exists l. split; [done|]. rewrite Hl. destruct (numbers_NoDup border) as [H1 H2]; [by apply border_NoDup | apply border_range|].
    split_and!; [done | | rewrite <- Hl; by rewrite Hlen, u32_small by (unfold in_u32; lia)].
    apply Forall_fmap, Forall_forall. intros p Hp. rewrite Forall_fmap, Forall_forall in H2. split; [by apply H2|by apply number_on_border]. }
  all: exists (range 0 w); (split; [done|]); (split; [apply range_NoDup|]); (split; [|by rewrite range_length; lia]);
    apply Forall_forall; intros x Hx%range_elem; (split; [nia|]); right; right; left; by apply Z.div_small.
Qed.
Lemma place_spec (l : list Z) concentration spacing start ks : l ≠ [] →
  ∃ cs, place l concentration spacing start ks = Ok cs ∧
    Forall2 (λ k c, ∃ x, l !! Z.to_nat ((k * spacing + start) `mod` Z.of_nat (length l)) = Some x ∧ c = concentration * x) ks cs.
Proof.
  intros Hl. assert (0 < Z.of_nat (length l)) by (destruct l; [done | cbn; lia]). induction ks as [|k ks (cs & IH & Hcs)]; cbn; [by exists []|].
  unfold umod. rewrite (proj2 (Z.eqb_neq _ 0)) by lia. cbn. pose proof (Z.mod_pos_bound (k * spacing + start) (Z.of_nat (length l)) ltac:(done)) as Hm.
  destruct (at_core_spec l ((k * spacing + start) `mod` Z.of_nat (length l)) Hm) as (x & Hx & Hlx & _). rewrite Hx. cbn. rewrite IH. cbn.
  eexists. split; [done|]. constructor; eauto.
Qed.
(** Places that are a multiple of the spacing apart do not meet again before the end. *)
Lemma strips_apart size spacing start i j : 0 < spacing → 0 ≤ i → 0 ≤ j → i * spacing < size → j * spacing < size →
  (i * spacing + start) `mod` size = (j * spacing + start) `mod` size → i = j.
Proof.
  intros Hs Hi Hj Hi' Hj' E. assert (Hd : (i * spacing - j * spacing) `mod` size = 0).
  { replace (i * spacing - j * spacing) with (i * spacing + start - (j * spacing + start)) by lia. rewrite Zminus_mod, E, Z.sub_diag. apply Z.mod_0_l. lia. }
  apply Z.mod_divide in Hd as [q Hq]; [|lia]. assert (q = 0) by nia. nia.
Qed.
End controllers.

(** As many first cores of nodes on the border, all different. *)
Definition places_ok (g : config) (m : params) (num : Z) (cs : list Z) : Prop :=
  Z.of_nat (length cs) = num ∧ NoDup cs ∧
  Forall (λ c, master g m c ∧ on_border (m_mesh_width m) (m_mesh_height m) (c `div` m_concentration m)) cs.
(** [C33] On every mesh that is more than one node wide, and on every line or ring, the memory
    controllers, if they are no more than the nodes of the border (the source asserts that), are
    placed on as many different nodes, all on the border, at the first core of each. *)
Theorem controllers_on_distinct_nodes g m num : sane g m → ApplicationCores g < 2 ^ 31 → m_mesh_width m + m_mesh_height m < 2 ^ 31 →
  (1 < m_dimensions m → 1 < m_mesh_height m → 1 < m_mesh_width m) →
  0 < num ≤ border_size (m_mesh_width m) (m_mesh_height m) (m_dimensions m) →
  ∃ cs, MemoryControllers.computeMemoryControllerPositions (m_mesh_width m) (m_mesh_height m) (m_concentration m) (m_dimensions m) num = Ok cs ∧ places_ok g m num cs.
Proof.
  intros Hm Happ Hsmall Hw Hnum. pose proof (sane_width _ _ Hm) as Hw0. pose proof (sane_height _ _ Hm) as Hh0.
  pose proof (sane_concentration _ _ Hm) as Hc0. pose proof (sane_cores _ _ Hm) as Hcores.
  destruct (perimeter_spec (m_mesh_width m) (m_mesh_height m) Hw0 Hh0 (m_dimensions m)) as (l & Hl' & Hnd & Hr & Hlb); [done | done |].
  rewrite <- Hlb in Hnum. assert (l ≠ []) as Hne by (intros ->; cbn in Hnum; lia). assert (Hlen : Z.of_nat (length l) ≤ m_mesh_width m * m_mesh_height m).
  { assert (l ⊆+ MemoryControllers.range 0 (m_mesh_width m * m_mesh_height m)) as Hsub%submseteq_length.
    - apply NoDup_submseteq; [done|]. intros x Hx. apply range_elem. by apply (proj1 (Forall_forall _ _) Hr x).
    - rewrite range_length in Hsub. lia. }
  unfold MemoryControllers.computeMemoryControllerPositions. rewrite Hl'. cbn [rbind]. rewrite (u32_small num) by (unfold in_u32; nia).
  rewrite (proj2 (Z.leb_le _ _)) by lia. cbn [check rbind]. unfold udiv. rewrite (proj2 (Z.eqb_neq _ 0)) by lia. cbn [rbind].
  set (spacing := Z.of_nat (length l) `div` num). assert (Hsp : 0 < spacing ∧ num * spacing ≤ Z.of_nat (length l)).
  { split; [apply Z.div_str_pos; lia | apply Z.mul_div_le; lia]. }
  destruct (place_spec l (m_concentration m) spacing (m_mesh_width m `div` 2) (MemoryControllers.range 0 num) Hne) as (cs & -> & Hcs).
  exists cs. split; [done|]. pose proof (Forall2_length _ _ _ Hcs) as Hl2. rewrite range_length in Hl2.
  assert (Hat : ∀ i c, cs !! i = Some c → (i < Z.to_nat num)%nat ∧ ∃ x,
    l !! Z.to_nat ((Z.of_nat i * spacing + m_mesh_width m `div` 2) `mod` Z.of_nat (length l)) = Some x ∧ c = m_concentration m * x).
  { intros i c Hi. split; [apply lookup_lt_Some in Hi; lia|]. destruct (Forall2_lookup_r _ _ _ _ _ Hcs Hi) as (k & Hk & Hx).
    unfold MemoryControllers.range in Hk. rewrite list_lookup_fmap in Hk. destruct (seq _ _ !! i) as [n|] eqn:En; [|done].
    apply lookup_seq in En as [-> _]. cbn in Hk. injection Hk as <-. exact Hx. }
  split_and!; [lia | |].
  - apply NoDup_alt. intros i j c Hi Hj. destruct (Hat i c Hi) as (Hin & x & Hx & ->), (Hat j _ Hj) as (Hjn & y & Hy & Hxy).
    assert (x = y) as <- by nia. pose proof (proj1 (NoDup_alt l) Hnd _ _ _ Hx Hy) as E.
    assert (Hpos : 0 < Z.of_nat (length l)) by lia.
    pose proof (Z.mod_pos_bound (Z.of_nat i * spacing + m_mesh_width m `div` 2) _ Hpos). pose proof (Z.mod_pos_bound (Z.of_nat j * spacing + m_mesh_width m `div` 2) _ Hpos).
    apply Z2Nat.inj in E; [|lia..]. apply strips_apart in E; [lia | lia | lia | lia | nia | nia].
  - apply Forall_lookup. intros i c Hi. destruct (Hat i c Hi) as (_ & x & Hx & ->). destruct (Forall_lookup_1 _ _ _ _ Hr Hx) as [Hxr Hxb]. cbn in Hxr.
    rewrite (Z.mul_comm _ x), Z.div_mul by lia. split; [|done]. split; [nia|]. apply Z.mod_mul. lia.
Qed.

(** In two dimensions a mesh of one column names the nodes between its ends twice. *)
Lemma controllers_share_nodes : MemoryControllers.computeMemoryControllerPositions 1 3 1 2 4 = Ok [0; 1; 2; 1].
Proof. done. Qed.
(** On a ring with an odd number of nodes half of the longest ways lead the long way around. *)
Lemma odd_ring_detour : let m := mk_params 3 1 1 1 true false false in
  route_length m 0 2 = 2 ∧ computeDistance m 0 2 = 1 ∧ getNextDest m 3 0 2 = (RIGHT, 1).
Proof. done. Qed.

(** ** Runs

    A mesh of two by two nodes with one core each, and a core of the simulator beside it; every
    queue delays by seven units of time. *)
Module NetworkExample.
#[export] Instance constant_delay : QueueModel Z := λ q _ _ _, Ok (q, q).
#[export] Program Instance constant_delay_laws : QueueLaws Z := { queue_inv _ := True }.
Next Obligation. intros q t p r _. by exists q, q. Qed.
Definition g : config := {| TotalCores := 5; ApplicationCores := 4 |}.
Definition period : Z := 1000.
Definition the_node : node Z :=
  mk_node 7 7 7 7 7 7 (ComponentBandwidthPerCycle.mk period 64) (ComponentLatency.mk period 2) true 0 0 0 0 0 0.
Definition the_mesh (queues tree : bool) : params := mk_params 2 2 1 2 false tree queues.
Definition net (queues tree : bool) : NetworkModelEMeshHopByHop.t Z := mk g (the_mesh queues tree) (replicate 5 the_node).
Definition magic : NetworkModelMagic.t := NetworkModelMagic.mk g (replicate 5 (NetworkModelMagic.new_node period)).
Definition system (queues tree : bool) : Network.t (NetworkModelEMeshHopByHop.t Z) NetworkModelMagic.t :=
  Network.mk g (net queues tree) magic (replicate 5 []) (replicate 5 []) [].
Definition request (requester : Z) : ShmemMsg.t :=
  ShmemMsg.new ShmemMsg.EX_REQ MemComponent.L2_CACHE MemComponent.TAG_DIR requester 64 None 0 None.
Definition packet (sender receiver : Z) : NetPacket.t := NetPacket.new 100 SHARED_MEM_1 sender receiver 56 (Some (request sender)).
Definition ending (sender receiver : Z) : NetPacket.t := NetPacket.new 100 SIM_THREAD_TERMINATE_THREADS sender receiver 0 None.

Lemma the_mesh_sane queues tree : sane g (the_mesh queues tree).
Proof. by split. Qed.
Lemma net_ok queues tree : mesh_inv g (net queues tree).
Proof. split; [done | apply the_mesh_sane | done |]. apply Forall_replicate. split; [done | by repeat constructor]. Qed.
Lemma system_ok queues : inv (system queues false).
Proof.
  split; [split; [apply net_ok | done] | by split | done | done |]. intros d p Hd Hp. unfold queue_at in Hp.
  assert (Network.m_queue (system queues false) !! Z.to_nat d = Some []) as Hq by (apply lookup_replicate; unfold core_ok in Hd; cbn in Hd; split; [done | lia]).
  rewrite Hq in Hp. by apply elem_of_nil in Hp.
Qed.
Lemma packet_fine sender receiver : core_ok g sender → packet_ok g (packet sender receiver) ∧ packet_ok g (ending sender receiver).
Proof.
  intros Hs. unfold core_ok in Hs. cbn in Hs. unfold packet_ok, requester_of. cbn. rewrite (proj2 (Z.leb_le 0 _)), (proj2 (Z.ltb_lt _ 5)) by lia. cbn.
  split; (split; [done|]); (split; eexists; done).
Qed.

(** Core 0 writes to core 3 and ends the threads of all cores, core 3 takes two packets. *)
Definition events : list event := [Send 0 (packet 0 3); Send 0 (ending 0 NetPacket.BROADCAST); Pull 3; Pull 3].
Lemma network_delivers_witness : wps never (run (λ _, true) 8 events) (system true false) (λ _ s',
  given (λ _, true) true s' 3 = [content (packet 0 3); content (ending 0 NetPacket.BROADCAST)]).
Proof.
  eapply wps_mono; [apply (network_delivers (λ _, true) 8 events (system true false) (system_ok true))|].
  - assert (H0 : core_ok g 0) by done. assert (H3 : core_ok g 3) by done.
    repeat apply Forall_cons_2; [split_and!; [done | done | by apply packet_fine | by right] | split_and!; [done | done | by apply packet_fine | by left] | done | done | constructor].
  - intros []; vm_compute; lia.
  - cbv beta. intros _ s' Hg. rewrite (Hg true 3) by done. by vm_compute.
Defined.

(** From core 0 to core 3 over two links. *)
Lemma mesh_latency_witness : wps never (Network.netSend 8 0 (packet 0 3)) (system false false) (λ _ s', ∃ q,
  queue_at s' 3 = [q] ∧ NetPacket.time q = 100 + 2 * 2000).
Proof.
  assert (Hq : quiet_network 2000 (system false false)).
  { split; [apply system_ok|]. split; [apply net_ok | done |]. by apply Forall_replicate. }
  eapply wps_mono; [apply (mesh_latency 2000 8 (system false false) 0 (packet 0 3) Hq)|].
  - split_and!; [done | done | by apply packet_fine | by right].
  - done.
  - by exists 0.
  - done.
  - done.
  - done.
  - by vm_compute.
  - cbv beta. intros _ s' (q & Hs' & _ & _ & Ht). exists q. split; [change 3 with (NetPacket.receiver (packet 0 3)); by rewrite Hs'|]. rewrite Ht. by vm_compute.
Defined.

Lemma broadcast_tree_never_ends_witness :
  wps never (NetworkModelEMeshHopByHop.routePacket 3 (packet 0 NetPacket.BROADCAST)) (net true true) (λ r _, ∃ h, h ∈ r.1 ∧ final_dest h = NetPacket.BROADCAST).
Proof.
  eapply wps_mono; [apply (broadcast_tree_never_ends g (net true true) 3 (packet 0 NetPacket.BROADCAST) (net_ok true true))|].
  - done.
  - done.
  - by apply packet_fine.
  - done.
  - cbv beta. intros r s' ((h & Hh & Hf & _) & _). by exists h.
Defined.

Lemma controllers_on_distinct_nodes_witness :
  ∃ cs, MemoryControllers.computeMemoryControllerPositions 4 4 2 2 4 = Ok cs ∧ Z.of_nat (length cs) = 4 ∧ NoDup cs ∧
    Forall (λ c, on_border 4 4 (c `div` 2)) cs.
Proof.
  destruct (controllers_on_distinct_nodes {| TotalCores := 40; ApplicationCores := 32 |} (mk_params 4 4 2 2 false false true) 4)
    as (cs & H1 & H2 & H3 & H4); try done.
  exists cs. split_and!; [done..|]. eapply Forall_impl; [exact H4|]. by intros c [_ Hc].
Defined.

(** The packet that arrives knows the delay in the queues of its first router only: its image was
    made before the other routers were asked. *)
Lemma queue_delay_of_later_links_lost :
  match Network.netSend 8 0 (packet 0 3) (system true false) with
  | Ok (_, s') => (λ q, (NetPacket.time q, NetPacket.queue_delay q)) <$> queue_at s' 3 = [(100 + 2 * 2000 + 3 * 7, 2 * 7)]
  | Err _ => False
  end.
Proof. by vm_compute. Qed.
(** A core that is not the first of its node sends its packets straight to where they go: no link
    delays them, and the case of [getNextDest] for such cores is not reached. *)
Lemma fake_node_sends_directly {Q} `{QueueModel Q} (s : NetworkModelEMeshHopByHop.t Q) core p l q s' :
  m_fake_node (mesh s) core = true → NetPacket.receiver p ≠ NetPacket.BROADCAST →
  NetworkModelEMeshHopByHop.routePacket core p s = Ok ((l, q), s') → l = [direct (NetPacket.receiver p) (NetPacket.time p)].
Proof.
  intros Hf Hr. apply Z.eqb_neq in Hr. unfold NetworkModelEMeshHopByHop.routePacket, mbind, M_bind, gets. cbn. unfold id.
  destruct (lift (requester_of _ _) s) as [[r s1]|]; [|done]. destruct (lift (getModeledLength _ _) s1) as [[len s2]|]; [|done].
  destruct (when _ _ s2) as [[[] s3]|]; [|done]. rewrite Hr, Hf. by intros [= <- _ _].
Qed.
End NetworkExample.
