(* ===== verification/Sift.v ===== *)
(** The instruction traces that feed the simulator: [sift/sift_format.h], [sift/sift.h],
    [sift/sift_writer.{h,cc}] and [sift/sift_reader.{h,cc}], in the build without zlib
    ([SIFT_USE_ZLIB] 0).

    The writer is part of the program that is simulated, the reader of the simulator.  A trace
    is a file or a pipe of records; calls that need an answer get it through a second pipe, on
    which the simulator can also ask for memory of the program.  Files, pipes and memory are
    lists of bytes ([Z] from 0 to 255); a read beyond the end of a stream, which leaves the
    variable it reads undefined, is [OutOfRange]. *)
From S2P Require Import Prelude StateResult.

Abbreviation bytes := (list Z).
(** Little-endian, two's complement. *)
Fixpoint le (n : nat) (x : Z) : bytes := match n with O => [] | S n => u8 x :: le n (x `div` 256) end.
Fixpoint of_le (l : bytes) : Z := match l with [] => 0 | b :: l => b + 256 * of_le l end.
Definition u16 (x : Z) : Z := x `mod` 2 ^ 16.
Definition size_of (l : bytes) : Z := Z.of_nat (length l).

(** ** [sift_format.h] *)
Definition MagicNumber : Z := 0x54464953.
Definition PAGE_SIZE_SIFT : Z := 4096.
Definition ICACHE_SIZE : Z := 0x1000.
Definition ICACHE_OFFSET_MASK : Z := ICACHE_SIZE - 1.
Definition ICACHE_PAGE_MASK : Z := UINT64_MAX - ICACHE_OFFSET_MASK.
Definition MAX_DYNAMIC_ADDRESSES : Z := 2.

Definition CompressionZlib : Z := 1.
Definition ArchIA32 : Z := 2.
Definition IcacheVariable : Z := 4.
Definition PhysicalAddress : Z := 8.

Inductive RecOtherType :=
  | RecOtherIcache | RecOtherOutput | RecOtherSyscallRequest | RecOtherSyscallResponse | RecOtherNewThread | RecOtherNewThreadResponse
  | RecOtherMemoryRequest | RecOtherMemoryResponse | RecOtherJoin | RecOtherJoinResponse | RecOtherEndResponse | RecOtherIcacheVariable
  | RecOtherSync | RecOtherSyncResponse | RecOtherLogical2Physical | RecOtherMagicInstruction | RecOtherMagicInstructionResponse
  | RecOtherRoutineChange | RecOtherRoutineAnnounce | RecOtherEmu | RecOtherEmuResponse | RecOtherFork | RecOtherForkResponse
  | RecOtherInstructionCount | RecOtherCacheOnly | RecOtherISAChange | RecOtherEnd.
#[global] Instance rec_other_type_eq_dec : EqDecision RecOtherType.
Proof. solve_decision. Defined.
Definition rec_other_types : list RecOtherType :=
  [RecOtherIcache; RecOtherOutput; RecOtherSyscallRequest; RecOtherSyscallResponse; RecOtherNewThread; RecOtherNewThreadResponse;
   RecOtherMemoryRequest; RecOtherMemoryResponse; RecOtherJoin; RecOtherJoinResponse; RecOtherEndResponse; RecOtherIcacheVariable;
   RecOtherSync; RecOtherSyncResponse; RecOtherLogical2Physical; RecOtherMagicInstruction; RecOtherMagicInstructionResponse;
   RecOtherRoutineChange; RecOtherRoutineAnnounce; RecOtherEmu; RecOtherEmuResponse; RecOtherFork; RecOtherForkResponse;
   RecOtherInstructionCount; RecOtherCacheOnly; RecOtherISAChange].
Definition code (ty : RecOtherType) : Z :=
  match ty with
  | RecOtherIcache => 0 | RecOtherOutput => 1 | RecOtherSyscallRequest => 2 | RecOtherSyscallResponse => 3 | RecOtherNewThread => 4
  | RecOtherNewThreadResponse => 5 | RecOtherMemoryRequest => 6 | RecOtherMemoryResponse => 7 | RecOtherJoin => 8 | RecOtherJoinResponse => 9
  | RecOtherEndResponse => 10 | RecOtherIcacheVariable => 11 | RecOtherSync => 12 | RecOtherSyncResponse => 13 | RecOtherLogical2Physical => 14
  | RecOtherMagicInstruction => 15 | RecOtherMagicInstructionResponse => 16 | RecOtherRoutineChange => 17 | RecOtherRoutineAnnounce => 18
  | RecOtherEmu => 19 | RecOtherEmuResponse => 20 | RecOtherFork => 21 | RecOtherForkResponse => 22 | RecOtherInstructionCount => 23
  | RecOtherCacheOnly => 24 | RecOtherISAChange => 25 | RecOtherEnd => 255
  end.
Definition of_code (x : Z) : option RecOtherType :=
  if x =? 255 then Some RecOtherEnd else if x <? 0 then None else rec_other_types !! Z.to_nat x.

(** [Mode], [MemoryLockType] and [MemoryOpType], as the numbers that are written. *)
Definition ModeUnknown : Z := 0.
Definition MemRead : Z := 1.
Definition MemWrite : Z := 2.
Definition SIZEOF_EmuRequest : Z := 8.
Definition SIZEOF_EmuReply : Z := 48.

Definition SIZEOF_Other : Z := 6.
(** The head of a record [Other]. *)
Definition other (ty : RecOtherType) (size : Z) : bytes := 0 :: code ty :: le 4 size.
(** Bit fields from the lowest bit on. *)
Definition bit (b : bool) : Z := if b then 1 else 0.
Definition simple_byte (size num_addresses : Z) (is_branch taken : bool) : Z :=
  size `mod` 16 + 16 * (num_addresses `mod` 4) + 64 * bit is_branch + 128 * bit taken.
Definition ext_bytes (size num_addresses : Z) (is_branch taken is_predicate executed : bool) (addr : Z) : bytes :=
  16 * (size `mod` 16) :: (num_addresses `mod` 4 + 4 * bit is_branch + 8 * bit taken + 16 * bit is_predicate + 32 * bit executed) :: le 8 addr.

(** ** Input streams *)
Definition read (n : Z) : M bytes bytes := λ input,
  if (n <? 0) || (size_of input <? n) then Err OutOfRange else Ok (take (Z.to_nat n) input, drop (Z.to_nat n) input).
Definition read_uint (n : nat) : M bytes Z := l ← read (Z.of_nat n); mret (of_le l).
Definition read_int32 : M bytes Z := x ← read_uint 4; mret (s32 x).
(** At the end of a stream [EOF], the last byte of which is 0xff. *)
Definition peek : M bytes Z := gets (λ input, match input with b :: _ => b | [] => 255 end).
(** [zero], [type], [size]. *)
Definition read_other : M bytes (Z * Z * Z) := z ← read_uint 1; t ← read_uint 1; s ← read_uint 4; mret (z, t, s).

(** ** [Sift::Writer] *)
Module Writer.
Record stats := mk_stats { ninstrs : Z; hsize : list Z; haddr : list Z; nbranch : Z; npredicate : Z; ninstrsmall : Z; ninstrext : Z }.
(** [output]: what has been written, unless the file is closed; [response]: what can be read;
    the pages, or addresses, of code and the pages of data that have been sent. *)
Record t := mk {
  output : option bytes;
  response : bytes;
  last_address : Z;
  icache : gset Z;
  m_va2pa : gset Z;
  counts : stats;
  m_response_filename : bool;
  m_requires_icache_per_insn : bool;
  m_send_va2pa_mapping : bool;
}.
Definition set_output x (w : t) : t := mk x (response w) (last_address w) (icache w) (m_va2pa w) (counts w) (m_response_filename w) (m_requires_icache_per_insn w) (m_send_va2pa_mapping w).
Definition set_response x (w : t) : t := mk (output w) x (last_address w) (icache w) (m_va2pa w) (counts w) (m_response_filename w) (m_requires_icache_per_insn w) (m_send_va2pa_mapping w).
Definition set_last_address x (w : t) : t := mk (output w) (response w) x (icache w) (m_va2pa w) (counts w) (m_response_filename w) (m_requires_icache_per_insn w) (m_send_va2pa_mapping w).
Definition set_icache x (w : t) : t := mk (output w) (response w) (last_address w) x (m_va2pa w) (counts w) (m_response_filename w) (m_requires_icache_per_insn w) (m_send_va2pa_mapping w).
Definition set_va2pa x (w : t) : t := mk (output w) (response w) (last_address w) (icache w) x (counts w) (m_response_filename w) (m_requires_icache_per_insn w) (m_send_va2pa_mapping w).
Definition set_counts x (w : t) : t := mk (output w) (response w) (last_address w) (icache w) (m_va2pa w) x (m_response_filename w) (m_requires_icache_per_insn w) (m_send_va2pa_mapping w).

(** Does the program's work on its own memory: [getCodeFunc], and the page table of the process
    ([None]: a page it cannot be read for). *)
Record host := { getCode : Z → Z → bytes; pagemap : Z → option Z }.

Definition new (response_filename arch32 requires_icache_per_insn send_va2pa_mapping : bool) : t :=
  let options := Z.lor (if arch32 then ArchIA32 else 0)
    (Z.lor (if requires_icache_per_insn then IcacheVariable else 0) (if send_va2pa_mapping then PhysicalAddress else 0)) in
  mk (Some (le 4 MagicNumber ++ le 4 0 ++ le 8 options)) [] 0 ∅ ∅ (mk_stats 0 (replicate 16 0) (replicate 3 0) 0 0 0 0)
    response_filename requires_icache_per_insn send_va2pa_mapping.

Definition is_open (w : t) : bool := match output w with Some _ => true | None => false end.
Definition write (ls : list bytes) : M t unit :=
  o ← gets output; match o with Some l => modify (set_output (Some (l ++ concat ls))) | None => fail NullPointer end.
Definition initResponse : M t unit := f ← gets m_response_filename; assert_ f.

(** What is in the file then. *)
Definition End : M t bytes :=
  o ← gets is_open; when o (write [other RecOtherEnd 0]);;
  l ← gets (λ w, default [] (output w)); modify (λ w, set_response [] (set_output None w));; mret l.

Section ops.
Context (h : host).
Definition va2pa_lookup (vp : Z) : result Z :=
  if (0xffffffffff600 <=? vp) && (vp <? 0xfffffffffffff) then Ok vp
  else
    match pagemap h vp with
    | None => Ok vp
    | Some pp =>
        let pfn := Z.land pp (2 ^ 54 - 1) in
        if negb (Z.testbit pp 63) then Ok vp
        else let! _ := check (negb (pfn =? 0)) AssertFail in Ok pfn
    end.
Definition send_va2pa (va : Z) : M t unit :=
  w ← gets id;
  if negb (is_open w) || negb (m_send_va2pa_mapping w) then mret tt
  else
    let vp := va `div` PAGE_SIZE_SIFT in
    if bool_decide (vp ∈ m_va2pa w) then mret tt
    else
      pp ← lift (va2pa_lookup vp);
      if pp =? 0 then mret tt
      else write [other RecOtherLogical2Physical 16; le 8 vp; le 8 pp];; modify (λ w, set_va2pa ({[vp]} ∪ m_va2pa w) w).
Fixpoint send_va2pas (l : list Z) : M t unit := match l with [] => mret tt | va :: l => send_va2pa va;; send_va2pas l end.

(** The code of an instruction: once for each address, or the pages it lies on.  The loop over
    the pages goes on for ever on the last page of the address space. *)
Definition send_code (addr size : Z) : M t unit :=
  w ← gets id;
  if bool_decide (addr ∈ icache w) then mret tt
  else
    write [other RecOtherIcacheVariable (u32 (8 + size)); le 8 addr; getCode h addr size];;
    modify (λ w, set_icache ({[addr]} ∪ icache w) w).
Definition send_page (base_addr : Z) : M t unit :=
  w ← gets id;
  if bool_decide (base_addr ∈ icache w) then mret tt
  else
    write [other RecOtherIcache (8 + ICACHE_SIZE); le 8 base_addr; getCode h base_addr ICACHE_SIZE];;
    modify (λ w, set_icache ({[base_addr]} ∪ icache w) w).
Fixpoint send_pages (fuel : nat) (base_addr last : Z) : M t unit :=
  if negb (base_addr <=? last) then mret tt
  else
    match fuel with
    | O => fail Diverges
    | S n => send_page base_addr;; send_pages n (u64 (base_addr + ICACHE_SIZE)) last
    end.
Definition count (size num_addresses : Z) (is_branch is_predicate simple : bool) (c : stats) : stats :=
  mk_stats (u64 (ninstrs c + 1)) (alter (λ x, u64 (x + 1)) (Z.to_nat size) (hsize c)) (alter (λ x, u64 (x + 1)) (Z.to_nat num_addresses) (haddr c))
    (if is_branch then u64 (nbranch c + 1) else nbranch c) (if is_predicate then u64 (npredicate c + 1) else npredicate c)
    (if simple then u64 (ninstrsmall c + 1) else ninstrsmall c) (if simple then ninstrext c else u64 (ninstrext c + 1)).
(** [addresses]: [num_addresses] of them. *)
Definition Instruction (addr size : Z) (addresses : list Z) (is_branch taken is_predicate executed : bool) : M t unit :=
  let num_addresses := size_of addresses in
  assert_ (size <? 16);; assert_ (num_addresses <=? MAX_DYNAMIC_ADDRESSES);;
  w ← gets id;
  if negb (is_open w) then mret tt
  else
    (if m_requires_icache_per_insn w then send_code addr size
     else send_pages 2 (Z.land addr ICACHE_PAGE_MASK) (Z.land (u64 (addr + size - 1)) ICACHE_PAGE_MASK));;
    send_va2pa addr;; send_va2pas addresses;;
    let simple := (addr =? last_address w) && negb is_predicate in
    (if simple then write [[simple_byte size num_addresses is_branch taken]]
     else write [ext_bytes size num_addresses is_branch taken is_predicate executed addr];; modify (set_last_address addr));;
    write (le 8 <$> addresses);;
    modify (λ w, set_counts (count size num_addresses is_branch is_predicate simple (counts w)) (set_last_address (u64 (last_address w + size)) w)).

(** Records that are not answered. *)
Definition if_open (m : M t unit) : M t unit := o ← gets is_open; when o m.
Definition CacheOnly (icount type eip address : Z) : M t unit :=
  if_open (send_va2pa eip;; send_va2pa address;;
    write [other RecOtherCacheOnly 18; le 1 icount; le 1 type; le 8 eip; le 8 address]).
Definition Output (fd : Z) (data : bytes) : M t unit :=
  if_open (write [other RecOtherOutput (u32 (1 + size_of data)); le 1 fd; data]).
Definition RoutineChange (event eip esp callEip : Z) : M t unit :=
  if_open (write [other RecOtherRoutineChange 25; le 1 event; le 8 eip; le 8 esp; le 8 callEip]).
(** A C string with its length. *)
Definition len (name : bytes) : Z := u16 (size_of name + 1).
Definition text (name : bytes) : bytes := take (Z.to_nat (len name)) (name ++ [0]).
Definition RoutineAnnounce (eip : Z) (name imgname : bytes) (offset line column : Z) (filename : bytes) : M t unit :=
  if_open (write [other RecOtherRoutineAnnounce (8 + 2 + len name + 2 + len imgname + 8 + 4 + 4 + 2 + len filename);
    le 8 eip; le 2 (len name); text name; le 2 (len imgname); text imgname; le 8 offset; le 4 line; le 4 column; le 2 (len filename); text filename]).
Definition ISAChange (new_isa : Z) : M t unit := if_open (write [other RecOtherISAChange 4; le 4 new_isa]).

(** *** Calls that wait for an answer

    What a call sends; [false]: the trace is closed, the call returns at once. *)
Definition ask (ls : list bytes) : M t bool :=
  o ← gets is_open; if (o : bool) then write ls;; initResponse;; mret true else mret false.
Definition InstructionCount_send (icount : Z) : M t bool := ask [other RecOtherInstructionCount 4; le 4 icount].
Definition NewThread_send : M t bool := ask [other RecOtherNewThread 0].
Definition Join_send (thread : Z) : M t bool := ask [other RecOtherJoin 4; le 4 thread].
Definition Sync_send : M t bool := ask [other RecOtherSync 0].
Definition Fork_send : M t bool := ask [other RecOtherFork 0].
Definition Magic_send (a b c : Z) : M t bool := ask [other RecOtherMagicInstruction 24; le 8 a; le 8 b; le 8 c].
Definition Emulate_send (type : Z) (req : bytes) : M t bool := ask [other RecOtherEmu (2 + SIZEOF_EmuRequest); le 2 type; req].
(** The arguments of system calls 202 (futex) and 1 (write) that are addresses; the program reads
    there first. *)
Definition Syscall_send (syscall_number : Z) (data : bytes) : M t bool :=
  o ← gets is_open;
  if negb o then mret false
  else
    (if syscall_number =? 202 then l ← lift (check (8 <=? size_of data) OutOfRange); send_va2pa (of_le (take 8 data))
     else if syscall_number =? 1 then l ← lift (check (16 <=? size_of data) OutOfRange); send_va2pa (of_le (take 8 (drop 8 data)))
     else mret tt);;
    ask [other RecOtherSyscallRequest (u32 (2 + size_of data)); le 2 syscall_number; data].
End ops.

(** Reading answers. *)
Definition from_response {A} (m : M bytes A) : M t A := λ w, let! (a, l) := m (response w) in Ok (a, set_response l w).

(** An answer of a fixed size: [wrong] for any other. *)
Definition plain (expected : RecOtherType) (size : Z) (value : M bytes Z) (wrong : Z) : M t Z :=
  '(z, ty, n) ← from_response read_other;
  if negb (z =? 0) || negb (ty =? code expected) || negb (n =? size) then mret wrong else from_response value.
Definition InstructionCount_recv : M t Z := plain RecOtherSyncResponse 4 (read_uint 4) ModeUnknown.
Definition NewThread_recv : M t Z := plain RecOtherNewThreadResponse 4 read_int32 (-1).
Definition Join_recv : M t Z := plain RecOtherJoinResponse 4 read_int32 (-1).
Definition Fork_recv : M t Z := plain RecOtherForkResponse 4 read_int32 (-1).

(** Calls during which the simulator may access the memory of the program ([W]) through
    [handleAccessMemoryFunc]: it is given the kind of access, the address and a buffer. *)
Section waits.
Context {W : Type} (handleAccessMemoryFunc : option (Z → Z → Z → bytes → M W bytes)).
Definition on_writer {A} (m : M t A) : M (t * W) A := λ '(w, x), let! (a, w) := m w in Ok (a, (w, x)).
Definition on_memory {A} (m : M W A) : M (t * W) A := λ '(w, x), let! (a, x) := m x in Ok (a, (w, x)).
Definition handleMemoryRequest (rec_size : Z) : M (t * W) unit :=
  o ← on_writer (gets is_open);
  if negb o || (rec_size <? 20) then mret tt
  else
    addr ← on_writer (from_response (read_uint 8)); size ← on_writer (from_response (read_uint 4));
    lock ← on_writer (from_response (read_uint 4)); type ← on_writer (from_response (read_uint 4));
    let payload_size := rec_size - 20 in
    match handleAccessMemoryFunc with
    | None => mret tt
    | Some f =>
        if type =? MemRead then
          if negb (payload_size =? 0) || (size <=? 0) then mret tt
          else
            read_data ← on_memory (f lock type addr (replicate (Z.to_nat size) 0));
            on_writer (write [other RecOtherMemoryResponse (u32 (12 + size)); le 8 addr; le 4 type; read_data])
        else if type =? MemWrite then
          if (payload_size <=? 0) || negb (payload_size =? size) then mret tt
          else
            payload ← on_writer (from_response (read payload_size));
            on_memory (f lock type addr payload);;
            on_writer (write [other RecOtherMemoryResponse 12; le 8 addr; le 4 type])
        else mret tt
    end.
(** A round of the loop that waits: [None]: it goes on. *)
Definition round (other_record : Z → Z → M (t * W) (option (Z * bytes))) : M (t * W) (option (Z * bytes)) :=
  '(z, ty, n) ← on_writer (from_response read_other);
  assert_ (z =? 0);;
  if ty =? code RecOtherMemoryRequest then handleMemoryRequest n;; mret None else other_record ty n.
Definition Syscall_round : M (t * W) (option (Z * bytes)) :=
  round (λ ty n, if ty =? code RecOtherSyscallResponse then
                   if negb (n =? 8) then mret (Some (1, [])) else r ← on_writer (from_response (read_uint 8)); mret (Some (r, []))
                 else mret None).
(** [Sync] does not assert but returns if the record is not one. *)
Definition Sync_round : M (t * W) (option (Z * bytes)) :=
  '(z, ty, n) ← on_writer (from_response read_other);
  if negb (z =? 0) then mret (Some (ModeUnknown, []))
  else if ty =? code RecOtherSyncResponse then
    if negb (n =? 4) then mret (Some (ModeUnknown, [])) else r ← on_writer (from_response (read_uint 4)); mret (Some (r, []))
  else if ty =? code RecOtherMemoryRequest then handleMemoryRequest n;; mret None
  else mret (Some (ModeUnknown, [])).
Definition Magic_round : M (t * W) (option (Z * bytes)) :=
  round (λ ty n, if ty =? code RecOtherMagicInstructionResponse then
                   assert_ (n =? 8);; r ← on_writer (from_response (read_uint 8)); mret (Some (r, []))
                 else fail AssertFail).
(** [res]: the reply before, of which a shorter answer overwrites the beginning. *)
Definition Emulate_round (res : bytes) : M (t * W) (option (Z * bytes)) :=
  round (λ ty n, if ty =? code RecOtherEmuResponse then
                   assert_ (n <=? 1 + SIZEOF_EmuReply);;
                   r ← on_writer (from_response (read_uint 1));
                   l ← on_writer (from_response (read (u64 (n - 1)))); mret (Some (r, l ++ drop (length l) res))
                 else mret (Some (0, res))).
End waits.
End Writer.

(** ** [Sift::Reader] *)
Module Reader.
(** [next]: the address of the instruction that followed the first time. *)
Record StaticInstruction := mk_sinst { addr : Z; size : Z; data : bytes; next : option Z }.
(** [sinst]: the address of the static instruction. *)
Record Instruction := mk_inst {
  sinst : Z; num_addresses : Z; addresses : list Z;
  is_branch : bool; taken : bool; is_predicate : bool; executed : bool; isa : Z }.
(** [input]: what is left of the trace, [None] before it is opened; [response]: what has been
    answered.  Static instructions are found by their addresses. *)
Record t := mk {
  file : bytes;
  input : option bytes;
  response : bytes;
  last_address : Z;
  icache : gmap Z bytes;
  scache : gmap Z StaticInstruction;
  vcache : gmap Z Z;
  m_trace_has_pa : bool;
  m_seen_end : bool;
  m_last_sinst : option Z;
  m_isa : Z;
  m_response_filename : bool;
}.
Definition new (file : bytes) (response_filename : bool) : t := mk file None [] 0 ∅ ∅ ∅ false false None 0 response_filename.
Definition set_input x (r : t) : t := mk (file r) x (response r) (last_address r) (icache r) (scache r) (vcache r) (m_trace_has_pa r) (m_seen_end r) (m_last_sinst r) (m_isa r) (m_response_filename r).
Definition set_response x (r : t) : t := mk (file r) (input r) x (last_address r) (icache r) (scache r) (vcache r) (m_trace_has_pa r) (m_seen_end r) (m_last_sinst r) (m_isa r) (m_response_filename r).
Definition set_last_address x (r : t) : t := mk (file r) (input r) (response r) x (icache r) (scache r) (vcache r) (m_trace_has_pa r) (m_seen_end r) (m_last_sinst r) (m_isa r) (m_response_filename r).
Definition set_icache x (r : t) : t := mk (file r) (input r) (response r) (last_address r) x (scache r) (vcache r) (m_trace_has_pa r) (m_seen_end r) (m_last_sinst r) (m_isa r) (m_response_filename r).
Definition set_scache x y (r : t) : t := mk (file r) (input r) (response r) (last_address r) (icache r) x (vcache r) (m_trace_has_pa r) (m_seen_end r) y (m_isa r) (m_response_filename r).
Definition set_vcache x (r : t) : t := mk (file r) (input r) (response r) (last_address r) (icache r) (scache r) x (m_trace_has_pa r) (m_seen_end r) (m_last_sinst r) (m_isa r) (m_response_filename r).
Definition set_trace_has_pa x (r : t) : t := mk (file r) (input r) (response r) (last_address r) (icache r) (scache r) (vcache r) x (m_seen_end r) (m_last_sinst r) (m_isa r) (m_response_filename r).
Definition set_seen_end x (r : t) : t := mk (file r) (input r) (response r) (last_address r) (icache r) (scache r) (vcache r) (m_trace_has_pa r) x (m_last_sinst r) (m_isa r) (m_response_filename r).
Definition set_isa x (r : t) : t := mk (file r) (input r) (response r) (last_address r) (icache r) (scache r) (vcache r) (m_trace_has_pa r) (m_seen_end r) (m_last_sinst r) x (m_response_filename r).

Definition from_input {A} (m : M bytes A) : M t A := λ r,
  match input r with
  | None => Err NullPointer
  | Some l => let! (a, l) := m l in Ok (a, set_input (Some l) r)
  end.
Definition answer (ls : list bytes) : M t unit :=
  f ← gets m_response_filename;
  if (f : bool) then modify (λ r, set_response (response r ++ concat ls) r) else fail NullPointer.
Definition sendSimpleResponse (ty : RecOtherType) (data : bytes) : M t unit := answer [other ty (size_of data); data].
Definition sendSyscallResponse (return_code : Z) : M t unit := answer [other RecOtherSyscallResponse 8; le 8 return_code].
Definition sendEmuResponse (handled : bool) (res : bytes) : M t unit :=
  answer [other RecOtherEmuResponse (1 + SIZEOF_EmuReply); le 1 (bit handled); res].

(** The header.  An option that is left over is not known. *)
Definition initStream : M t bool :=
  modify (λ r, set_input (Some (file r)) r);;
  magic ← from_input (read_uint 4); _ ← from_input (read_uint 4); options ← from_input (read_uint 8);
  if negb (magic =? MagicNumber) then mret false
  else
    let options := Z.ldiff options ArchIA32 in
    when (Z.testbit options 3) (modify (set_trace_has_pa true));;
    let options := Z.ldiff (Z.ldiff options PhysicalAddress) IcacheVariable in
    mret (options =? 0).

(** The bytes of an instruction, from the pages of code. *)
Fixpoint copy_code (fuel : nat) (pages : gmap Z bytes) (base_addr offset size : Z) (dst : bytes) : result bytes :=
  if negb (0 <? size) then Ok dst
  else
    match fuel with
    | O => Err NoFuel
    | S n =>
        let _size := Z.min size (ICACHE_SIZE - offset) in
        let! page := match pages !! base_addr with Some page => Ok page | None => Err AssertFail end in
        copy_code n pages (u64 (base_addr + ICACHE_SIZE)) 0 (size - _size) (dst ++ take (Z.to_nat _size) (drop (Z.to_nat offset) page))
    end.
Definition staticInfoInstruction (r : t) (addr size : Z) : result StaticInstruction :=
  let! l := copy_code 2 (icache r) (Z.land addr ICACHE_PAGE_MASK) (Z.land addr ICACHE_OFFSET_MASK) size [] in
  Ok (mk_sinst addr size (l ++ replicate (16 - length l) 0) None).
(** The instruction that followed the last one before is tried first. *)
Definition follower (r : t) : option Z := m_last_sinst r ≫= λ a, scache r !! a ≫= next.
Definition link (last : option Z) (addr : Z) (l : gmap Z StaticInstruction) : gmap Z StaticInstruction :=
  match last with
  | Some a => alter (λ s, match next s with None => mk_sinst (Reader.addr s) (size s) (data s) (Some addr) | Some _ => s end) a l
  | None => l
  end.
Definition getStaticInstruction (addr size : Z) : M t Z :=
  r ← gets id;
  l ← (if bool_decide (follower r = Some addr) then mret (scache r)
       else
         match scache r !! addr with
         | Some s => assert_ (Reader.size s =? size);; mret (scache r)
         | None => s ← lift (staticInfoInstruction r addr size); mret (<[addr := s]> (scache r))
         end);
  modify (set_scache (link (m_last_sinst r) addr l) (Some addr));; mret addr.

Definition va2pa (r : t) (va : Z) : Z :=
  if m_trace_has_pa r then
    match vcache r !! (va `div` PAGE_SIZE_SIFT) with
    | None => 0
    | Some pp => Z.lor (u64 (pp * PAGE_SIZE_SIFT)) (Z.land va (PAGE_SIZE_SIFT - 1))
    end
  else va.

(** Writes code that came with single instructions into pages, the rest of which is not
    initialised. *)
Fixpoint fill_code (fuel : nat) (uninit_byte : Z) (address size_left : Z) : M t unit :=
  if negb (0 <? size_left) then mret tt
  else
    match fuel with
    | O => fail NoFuel
    | S n =>
        let base_addr := Z.land address ICACHE_PAGE_MASK in
        let offset := Z.land address ICACHE_OFFSET_MASK in
        pages ← gets icache;
        let page := default (replicate (Z.to_nat ICACHE_SIZE) uninit_byte) (pages !! base_addr) in
        let read_amount := Z.min size_left (ICACHE_SIZE - offset) in
        l ← from_input (read read_amount);
        modify (set_icache (<[base_addr := take (Z.to_nat offset) page ++ l ++ drop (Z.to_nat (offset + read_amount)) page]> pages));;
        fill_code n uninit_byte (u64 (base_addr + ICACHE_SIZE)) (size_left - read_amount)
    end.

(** *** [Read]

    The state is that of the reader and of what the handlers change. *)
Section handlers.
Context {H : Type} (uninit_byte : Z).
Abbreviation St := (t * H)%type.
Record handlers := {
  handleInstructionCountFunc : option (Z → M St Z);
  handleCacheOnlyFunc : option (Z → Z → Z → Z → M St unit);
  handleOutputFunc : option (Z → bytes → M St unit);
  handleSyscallFunc : option (Z → bytes → M St Z);
  handleNewThreadFunc : option (M St Z);
  handleForkFunc : option (M St Z);
  handleJoinFunc : option (Z → M St Z);
  handleMagicFunc : option (Z → Z → Z → M St Z);
  handleEmuFunc : option (Z → bytes → bytes → M St (bool * bytes));
  handleRoutineChangeFunc : option (Z → Z → Z → Z → M St unit);
  handleRoutineAnnounceFunc : option (Z → bytes → bytes → Z → Z → Z → bytes → M St unit);
}.
Context (hs : handlers).
Definition on_reader {A} (m : M t A) : M St A := λ '(r, x), let! (a, r) := m r in Ok (a, (r, x)).
Definition word (n : nat) : M St Z := on_reader (from_input (read_uint n)).
Definition some_bytes (n : Z) : M St bytes := on_reader (from_input (read n)).
(** A handler that must be there, and one that need not. *)
Definition must {A} (f : option A) (k : A → M St unit) : M St unit := match f with Some f => k f | None => fail AssertFail end.
Definition may {A} (f : option A) (k : A → M St unit) : M St unit := match f with Some f => k f | None => mret tt end.

Definition read_icache (size : Z) : M St unit :=
  assert_ (size =? 8 + ICACHE_SIZE);;
  address ← word 8; l ← some_bytes ICACHE_SIZE; on_reader (modify (λ r, set_icache (<[address := l]> (icache r)) r)).
Definition read_icache_variable (size : Z) : M St unit :=
  let size := u64 (size - 8) in
  address ← word 8; on_reader (λ r, fill_code (S (length (default [] (input r)))) uninit_byte address size r).
Definition read_logical2physical (size : Z) : M St unit :=
  assert_ (size =? 16);; vp ← word 8; pp ← word 8; on_reader (modify (λ r, set_vcache (<[vp := pp]> (vcache r)) r)).
Definition mode_of (icount : Z) : M St Z := match handleInstructionCountFunc hs with Some f => f icount | None => mret ModeUnknown end.
Definition read_instruction_count (size : Z) : M St unit :=
  assert_ (size =? 4);; icount ← word 4; mode ← mode_of icount; on_reader (sendSimpleResponse RecOtherSyncResponse (le 4 mode)).
Definition read_cache_only (size : Z) : M St unit :=
  assert_ (size =? 18);; icount ← word 1; type ← word 1; eip ← word 8; address ← word 8;
  may (handleCacheOnlyFunc hs) (λ f, f icount type eip address).
Definition read_output (size : Z) : M St unit :=
  assert_ (1 <? size);; fd ← word 1; l ← some_bytes (size - 1); may (handleOutputFunc hs) (λ f, f fd l).
Definition read_syscall (size : Z) : M St unit :=
  assert_ (2 <? size);; syscall_number ← word 2; l ← some_bytes (size - 2);
  must (handleSyscallFunc hs) (λ f, ret ← f syscall_number l; on_reader (sendSyscallResponse ret)).
Definition read_new_thread (size : Z) : M St unit :=
  assert_ (size =? 0);; must (handleNewThreadFunc hs) (λ f, ret ← f; on_reader (sendSimpleResponse RecOtherNewThreadResponse (le 4 ret))).
Definition read_join (size : Z) : M St unit :=
  assert_ (size =? 4);; thread ← word 4;
  must (handleJoinFunc hs) (λ f, ret ← f (s32 thread); on_reader (sendSimpleResponse RecOtherJoinResponse (le 4 ret))).
Definition read_sync (size : Z) : M St unit :=
  assert_ (size =? 0);; mode ← mode_of 0; on_reader (sendSimpleResponse RecOtherSyncResponse (le 4 mode)).
Definition read_fork (size : Z) : M St unit :=
  assert_ (size =? 0);; must (handleForkFunc hs) (λ f, ret ← f; on_reader (sendSimpleResponse RecOtherForkResponse (le 4 ret))).
Definition read_magic (size : Z) : M St unit :=
  assert_ (size =? 24);; a ← word 8; b ← word 8; c ← word 8;
  result ← (match handleMagicFunc hs with Some f => f a b c | None => mret a end);
  on_reader (sendSimpleResponse RecOtherMagicInstructionResponse (le 8 result)).
(** A shorter request leaves the rest of it undefined. *)
Definition read_emu (size : Z) : M St unit :=
  assert_ (size <=? 2 + SIZEOF_EmuRequest);; type ← word 2; l ← some_bytes (u64 (size - 2));
  let req := l ++ replicate (Z.to_nat SIZEOF_EmuRequest - length l) uninit_byte in
  let res := replicate (Z.to_nat SIZEOF_EmuReply) 0 in
  '(result, res) ← (match handleEmuFunc hs with Some f => f type req res | None => mret (false, res) end);
  on_reader (sendEmuResponse result res).
Definition read_routine_change (size : Z) : M St unit :=
  assert_ (size =? 25);; event ← word 1; eip ← word 8; esp ← word 8; callEip ← word 8;
  may (handleRoutineChangeFunc hs) (λ f, f event eip esp callEip).
Definition read_routine_announce : M St unit :=
  eip ← word 8; len_name ← word 2; name ← some_bytes len_name; len_imgname ← word 2; imgname ← some_bytes len_imgname;
  offset ← word 8; line ← word 4; column ← word 4; len_filename ← word 2; filename ← some_bytes len_filename;
  may (handleRoutineAnnounceFunc hs) (λ f, f eip name imgname offset line column filename).
Definition read_isa_change (size : Z) : M St unit :=
  assert_ (size =? 4);; new_isa ← word 4; on_reader (modify (set_isa (s32 new_isa))).
Definition skip (size : Z) : M St unit := some_bytes size;; mret tt.

(** A record that is not an instruction; [true]: the end of the trace. *)
Definition read_other_record : M St bool :=
  '(_, type, size) ← on_reader (from_input read_other);
  match of_code type with
  | Some RecOtherEnd => assert_ (size =? 0);; on_reader (modify (set_seen_end true));; mret true
  | Some RecOtherIcache => read_icache size;; mret false
  | Some RecOtherIcacheVariable => read_icache_variable size;; mret false
  | Some RecOtherLogical2Physical => read_logical2physical size;; mret false
  | Some RecOtherInstructionCount => read_instruction_count size;; mret false
  | Some RecOtherCacheOnly => read_cache_only size;; mret false
  | Some RecOtherOutput => read_output size;; mret false
  | Some RecOtherSyscallRequest => read_syscall size;; mret false
  | Some RecOtherNewThread => read_new_thread size;; mret false
  | Some RecOtherJoin => read_join size;; mret false
  | Some RecOtherSync => read_sync size;; mret false
  | Some RecOtherFork => read_fork size;; mret false
  | Some RecOtherMagicInstruction => read_magic size;; mret false
  | Some RecOtherEmu => read_emu size;; mret false
  | Some RecOtherRoutineChange => read_routine_change size;; mret false
  | Some RecOtherRoutineAnnounce => read_routine_announce;; mret false
  | Some RecOtherISAChange => read_isa_change size;; mret false
  | _ => skip size;; mret false
  end.
Fixpoint read_addresses (i : nat) (num : nat) (l : list Z) : M St (list Z) :=
  match num with
  | O => mret l
  | S num => a ← word 8; l ← lift (arr_set l i a); read_addresses (S i) num l
  end.
Definition field (byte shift width : Z) : Z := (byte `div` 2 ^ shift) `mod` 2 ^ width.
Definition flag (byte shift : Z) : bool := field byte shift 1 =? 1.
(** The size, the address and the fields of an instruction, in its short or its long form. *)
Definition read_fields (byte : Z) (inst : Instruction) : M St (Z * Z * Instruction) :=
  isa ← on_reader (gets m_isa);
  if negb (Z.land byte 0xf =? 0) then
    b ← word 1; last ← on_reader (gets last_address);
    mret (field b 0 4, last, mk_inst (sinst inst) (field b 4 2) (addresses inst) (flag b 6) (flag b 7) false true isa)
  else
    b ← word 1; c ← word 1; addr ← word 8;
    on_reader (modify (set_last_address addr));;
    mret (field b 4 4, addr, mk_inst (sinst inst) (field c 0 2) (addresses inst) (flag c 2) (flag c 3) (flag c 4) (flag c 5) isa).
Definition read_instruction (byte : Z) (inst : Instruction) : M St Instruction :=
  '(size, addr, inst) ← read_fields byte inst;
  on_reader (modify (λ r, set_last_address (u64 (last_address r + size)) r));;
  l ← read_addresses 0 (Z.to_nat (num_addresses inst)) (addresses inst);
  s ← on_reader (getStaticInstruction addr size);
  mret (mk_inst s (num_addresses inst) l (is_branch inst) (taken inst) (is_predicate inst) (executed inst) (isa inst)).

(** A round of the loop of [Read]. *)
Inductive outcome := Again | Return (b : bool).
Definition read_record (inst : Instruction) : M St (outcome * Instruction) :=
  byte ← on_reader (from_input peek);
  if byte =? 0 then e ← read_other_record; mret (if (e : bool) then Return false else Again, inst)
  else inst ← read_instruction byte inst; mret (Return true, inst).
Fixpoint read_loop (fuel : nat) (inst : Instruction) : M St (bool * Instruction) :=
  e ← on_reader (gets m_seen_end);
  if (e : bool) then mret (true, inst)
  else
    match fuel with
    | O => fail NoFuel
    | S n =>
        '(o, inst) ← read_record inst;
        match o with Again => read_loop n inst | Return b => mret (b, inst) end
    end.
(** Every round takes at least a byte of the trace. *)
Definition Read (inst : Instruction) : M St (bool * Instruction) :=
  o ← on_reader (gets input);
  ok ← (match o with None => on_reader initStream | Some _ => mret true end);
  if (ok : bool) then l ← on_reader (gets input); read_loop (S (length (default [] l))) inst else mret (false, inst).

(** *** [AccessMemory]: the request, [false] if it could not be sent, and the answer, [None] if it
    is not one *)
Definition AccessMemory_request (lock_signal mem_op d_addr : Z) (data_buffer : bytes) : M t bool :=
  let data_size := size_of data_buffer in
  o ← gets input;
  ok ← (match o with None => initStream | Some _ => mret true end);
  f ← gets m_response_filename;
  if negb ok || negb f then mret false
  else
    answer [other RecOtherMemoryRequest (u32 (20 + if mem_op =? MemWrite then data_size else 0));
      le 8 d_addr; le 4 data_size; le 4 lock_signal; le 4 mem_op; if mem_op =? MemWrite then data_buffer else []];;
    mret true.
Definition AccessMemory_response (mem_op d_addr : Z) (data_buffer : bytes) : M t (option bytes) :=
  let data_size := size_of data_buffer in
  '(_, ty, size) ← from_input read_other;
  if negb (ty =? code RecOtherMemoryResponse) then mret None
  else
    addr ← from_input (read_uint 8); type ← from_input (read_uint 4);
    if negb (addr =? d_addr) then mret None
    else
      let payload_size := u32 (size - 12) in
      if mem_op =? MemRead then
        if negb (data_size =? payload_size) then mret None else l ← from_input (read data_size); mret (Some l)
      else if mem_op =? MemWrite then mret (if payload_size =? 0 then Some data_buffer else None)
      else mret None.
End handlers.
Arguments handlers : clear implicits.
End Reader.
