(* ===== verification/SiftTrace.v ===== *)
(** A trace that is written is the trace that is read: the records of [Sift.Writer], one after the
    other, make [Sift.Reader] deliver the same instructions, with the bytes of their code and the
    physical addresses of their data, and the same calls.

    [rounds]: the reader's rounds over the records of an operation of the writer, whatever follows
    them; [sync]: what writer and reader agree on between operations. *)
From stdpp Require Import relations.
From S2P Require Import Prelude StateResult Sift.

(** ** Bytes *)
Lemma length_le n x : length (le n x) = n.
Proof. revert x. induction n; intros; cbn; [done | by rewrite IHn]. Qed.
Lemma of_le_le n x : of_le (le n x) = x `mod` 2 ^ (8 * Z.of_nat n).
Proof.
  revert x. induction n as [|n IH]; intros x; cbn [le of_le]; [by rewrite Z.mod_1_r|].
  rewrite IH. unfold u8. replace (8 * Z.of_nat (S n)) with (8 + 8 * Z.of_nat n) by lia.
  rewrite Z.pow_add_r by lia. change (2 ^ 8) with 256. by rewrite Z.rem_mul_r by lia.
Qed.
Lemma of_code_code ty : of_code (code ty) = Some ty.
Proof. by destruct ty. Qed.
Lemma take_length_app {A} (l k : list A) : take (length l) (l ++ k) = l.
Proof. apply take_app_length. Qed.
Lemma read_app n l rest : size_of l = n → read n (l ++ rest) = Ok (l, rest).
Proof.
  unfold read, size_of. intros <-. rewrite length_app.
  destruct (Z.ltb_spec (Z.of_nat (length l)) 0); [lia|]. destruct (Z.ltb_spec (Z.of_nat (length l + length rest)) (Z.of_nat (length l))); [lia|].
  cbn. by rewrite Nat2Z.id, take_app_length, drop_app_length.
Qed.
Lemma read_uint_le n x rest : read_uint n (le n x ++ rest) = Ok (x `mod` 2 ^ (8 * Z.of_nat n), rest).
Proof. unfold read_uint, mbind, M_bind. rewrite read_app by (unfold size_of; by rewrite length_le). cbn. by rewrite of_le_le. Qed.
Lemma s32_mod x : - 2 ^ 31 ≤ x < 2 ^ 31 → s32 (x `mod` 2 ^ 32) = x.
Proof.
  intros. unfold s32. rewrite Zplus_mod_idemp_l, Z.mod_small; lia.
Qed.

(** ** Masks *)
Lemma land_offset a : Z.land a ICACHE_OFFSET_MASK = a `mod` 4096.
Proof. by change ICACHE_OFFSET_MASK with (Z.ones 12); rewrite Z.land_ones. Qed.
Lemma land_page a : 0 ≤ a < 2 ^ 64 → Z.land a ICACHE_PAGE_MASK = a - a `mod` 4096.
Proof.
  intros Ha. change ICACHE_PAGE_MASK with (Z.ldiff (Z.ones 64) (Z.ones 12)).
  replace (Z.land a (Z.ldiff (Z.ones 64) (Z.ones 12))) with (Z.ldiff a (Z.ones 12)).
  - rewrite Z.ldiff_ones_r, Z.shiftl_mul_pow2, Z.shiftr_div_pow2 by done. change (2 ^ 12) with 4096.
    rewrite (Z.mod_eq a 4096) by done. lia.
  - apply Z.bits_inj'. intros n Hn. rewrite Z.land_spec, !Z.ldiff_spec.
    destruct (Z.testbit a n) eqn:E; [|done]. cbn. destruct (Z.ltb_spec n 64).
    + by rewrite (Z.ones_spec_low 64) by lia.
    + rewrite <- (Z.mod_small a (2 ^ 64)) in E by done. rewrite Z.mod_pow2_bits_high in E by lia. done.
Qed.

(** ** Stepping the reader *)
Section stepping.
Context {H : Type} (E : failure → Prop).
Implicit Types (r : Reader.t) (x : H).
Abbreviation feed l r := (Reader.set_input (Some l) r).
Lemma feed_feed l l' r : feed l (feed l' r) = feed l r.
Proof. done. Qed.
Lemma wps_reader {A} (m : M Reader.t A) r x (Q : A → Reader.t * H → Prop) :
  wps E m r (λ a r, Q a (r, x)) → wps E (Reader.on_reader m) (r, x) Q.
Proof. unfold wps, Reader.on_reader. by destruct (m r) as [[a r']|]. Qed.
Lemma wps_word n v rest r x Q : Q (v `mod` 2 ^ (8 * Z.of_nat n)) (feed rest r, x) → wps E (Reader.word (H := H) n) (feed (le n v ++ rest) r, x) Q.
Proof. intros HQ. apply wps_reader. unfold wps, Reader.from_input. cbn [Reader.input Reader.set_input]. by rewrite read_uint_le. Qed.
Lemma wps_word_small n v rest r x Q : 0 ≤ v < 2 ^ (8 * Z.of_nat n) → Q v (feed rest r, x) → wps E (Reader.word (H := H) n) (feed (le n v ++ rest) r, x) Q.
Proof. intros Hv HQ. apply wps_word. by rewrite Z.mod_small. Qed.
Lemma wps_bytes n l rest r x Q : size_of l = n → Q l (feed rest r, x) → wps E (Reader.some_bytes (H := H) n) (feed (l ++ rest) r, x) Q.
Proof. intros Hn HQ. apply wps_reader. unfold wps, Reader.from_input. cbn [Reader.input Reader.set_input]. by rewrite read_app. Qed.
Lemma wps_head ty n rest r x Q : 0 ≤ n < 2 ^ 32 → Q (0, code ty, n) (feed rest r, x) →
  wps E (Reader.on_reader (Reader.from_input read_other)) (feed (other ty n ++ rest) r, x) Q.
Proof.
  intros Hn HQ. apply wps_reader. unfold wps, Reader.from_input, read_other, mbind, M_bind. cbn [Reader.input Reader.set_input].
  change (other ty n ++ rest) with (le 1 0 ++ (code ty :: le 4 n) ++ rest). rewrite read_uint_le. cbv beta iota.
  replace ((code ty :: le 4 n) ++ rest) with (le 1 (code ty) ++ le 4 n ++ rest) by by destruct ty. rewrite read_uint_le. cbv beta iota. rewrite read_uint_le.
  cbn. rewrite (Z.mod_small n) by done. by destruct ty.
Qed.
End stepping.
Abbreviation feed l r := (Reader.set_input (Some l) r).
(** The head of a record; a word of it. *)
Ltac record := cbn [concat]; rewrite app_nil_r, <- ?app_assoc; unfold Reader.read_other_record; wstep; apply wps_head; [try done | rewrite of_code_code; wstep].
Ltac word := wstep; apply wps_word_small; [try done|].

(** ** What the reader's client sees *)
Inductive event :=
  | EInstruction (addr size : Z) (data : bytes) (addresses : list Z) (pa : Z) (pas : list Z) (is_branch taken is_predicate executed : bool) (isa : Z)
  | ECacheOnly (icount type eip address : Z)
  | EOutput (fd : Z) (data : bytes)
  | ERoutineChange (event eip esp callEip : Z)
  | ERoutineAnnounce (eip : Z) (name imgname : bytes) (offset line column : Z) (filename : bytes).

Section client.
Context {H : Type} (sees : event → H → H) (uninit_byte : Z) (hs : Reader.handlers H).
Abbreviation St := (Reader.t * H)%type.
Definition see (e : event) : M St unit := λ '(r, x), Ok (tt, (r, sees e x)).
(** The handlers and the loop around [Read] pass on everything. *)
Record passes_on : Prop := {
  p_cache_only : Reader.handleCacheOnlyFunc hs = Some (λ icount type eip address, see (ECacheOnly icount type eip address));
  p_output : Reader.handleOutputFunc hs = Some (λ fd data, see (EOutput fd data));
  p_change : Reader.handleRoutineChangeFunc hs = Some (λ e eip esp call, see (ERoutineChange e eip esp call));
  p_announce : Reader.handleRoutineAnnounceFunc hs = Some (λ eip name img offset line column file, see (ERoutineAnnounce eip name img offset line column file));
}.
Definition deliver (inst : Reader.Instruction) : M St unit := λ '(r, x),
  match Reader.scache r !! Reader.sinst inst with
  | None => Err NullPointer
  | Some s =>
      let addresses := take (Z.to_nat (Reader.num_addresses inst)) (Reader.addresses inst) in
      see (EInstruction (Reader.addr s) (Reader.size s) (Reader.data s) addresses (Reader.va2pa r (Reader.addr s)) (Reader.va2pa r <$> addresses)
        (Reader.is_branch inst) (Reader.taken inst) (Reader.is_predicate inst) (Reader.executed inst) (Reader.isa inst)) (r, x)
  end.
Fixpoint run (fuel : nat) (inst : Reader.Instruction) : M St unit :=
  match fuel with
  | O => fail NoFuel
  | S n => '(b, inst) ← Reader.Read uninit_byte hs inst; if (b : bool) then deliver inst;; run n inst else mret tt
  end.

(** ** Rounds *)
Lemma peek_feed b l r x : Reader.on_reader (H := H) (Reader.from_input peek) (feed (b :: l) r, x) = Ok (b, (feed (b :: l) r, x)).
Proof. done. Qed.
Definition remaining (r : Reader.t) : nat := length (default [] (Reader.input r)).
Definition round (c c' : Reader.Instruction * St) : Prop :=
  (remaining c'.2.1 < remaining c.2.1)%nat ∧ Reader.m_seen_end c.2.1 = false ∧ Reader.input c.2.1 ≠ None ∧ Reader.input c'.2.1 ≠ None ∧
  (Reader.read_record uninit_byte hs c.1 c.2 = Ok ((Reader.Again, c'.1), c'.2) ∨
   ∃ s, Reader.read_record uninit_byte hs c.1 c.2 = Ok ((Reader.Return true, c'.1), s) ∧ deliver c'.1 s = Ok (tt, c'.2)).
Definition rounds := rtc round.

Definition two (inst : Reader.Instruction) : Prop := length (Reader.addresses inst) = 2%nat.
(** Between the states [P] and [Q] of both sides, an operation of the writer makes the reader see
    the events [es]. *)
Definition relays (P : Writer.t → Reader.t → Prop) (m : M Writer.t unit) (es : list event) (Q : Writer.t → Reader.t → Prop) : Prop :=
  ∀ w r o, P w r → Writer.output w = Some o → ∃ w' bs r', m w = Ok (tt, w') ∧ Writer.output w' = Some (o ++ bs) ∧ Q w' r' ∧
    ∀ rest inst x, two inst → ∃ inst', two inst' ∧ rounds (inst, (feed (bs ++ rest) r, x)) (inst', (feed rest r', foldl (flip sees) x es)).

Lemma relays_skip P (Q : Writer.t → Reader.t → Prop) : (∀ w r, P w r → Q w r) → relays P (mret tt) [] Q.
Proof.
  intros HPQ w r o Hw Ho. exists w, [], r. split_and!; [done | by rewrite app_nil_r | by apply HPQ |].
  intros rest inst x Ht. exists inst. split; [done | apply rtc_refl].
Qed.
Lemma relays_seq P m es Q m' es' R : relays P m es Q → relays Q m' es' R → relays P (m;; m') (es ++ es') R.
Proof.
  intros H1 H2 w r o HP Ho. destruct (H1 w r o HP Ho) as (w1 & bs1 & r1 & E1 & Ho1 & HQ & Hr1).
  destruct (H2 w1 r1 _ HQ Ho1) as (w2 & bs2 & r2 & E2 & Ho2 & HR & Hr2).
  exists w2, (bs1 ++ bs2), r2. split_and!; [unfold mbind, M_bind; by rewrite E1 | by rewrite app_assoc | done |].
  intros rest inst x Ht. destruct (Hr1 (bs2 ++ rest) inst x Ht) as (i1 & Ht1 & R1). destruct (Hr2 rest i1 (foldl (flip sees) x es) Ht1) as (i2 & Ht2 & R2).
  exists i2. split; [done|]. rewrite <- app_assoc, foldl_app. by etrans.
Qed.
(** From a single state. *)
Definition relays_at w r m es Q : Prop := relays (λ w' r', w' = w ∧ r' = r) m es Q.
Lemma relays_points P m es Q : (∀ w r, P w r → relays_at w r m es Q) → relays P m es Q.
Proof. intros HP w r o Hw. by apply (HP w r Hw). Qed.
Lemma relays_at_skip w r m (Q : Writer.t → Reader.t → Prop) : m w = Ok (tt, w) → Q w r → relays_at w r m [] Q.
Proof.
  intros E HQ ? ? o [-> ->] Ho. exists w, [], r. split_and!; [done | by rewrite app_nil_r | done |].
  intros rest inst x Ht. exists inst. split; [done | apply rtc_refl].
Qed.
Lemma relays_at_eq w r m m' es Q : m w = m' w → relays_at w r m' es Q → relays_at w r m es Q.
Proof. intros E Hm ? ? o [-> ->] Ho. rewrite E. by apply Hm. Qed.
Lemma relays_pre (P P' : Writer.t → Reader.t → Prop) m es Q : (∀ w r, P w r → P' w r) → relays P' m es Q → relays P m es Q.
Proof. intros HP Hm w r o Hw. apply Hm. by apply HP. Qed.
Lemma relays_weaken P m es (Q Q' : Writer.t → Reader.t → Prop) : (∀ w r, Q w r → Q' w r) → relays P m es Q → relays P m es Q'.
Proof.
  intros HQ Hm w r o HP Ho. destruct (Hm w r o HP Ho) as (w' & bs & r' & E & Ho' & HQ' & Hr). exists w', bs, r'. eauto 10.
Qed.

(** A record that is not an instruction. *)
Definition shows ls r r' es : Prop := ∀ rest x,
  wps never (Reader.read_other_record uninit_byte hs) (feed (concat ls ++ rest) r, x) (λ e s, e = false ∧ s = (feed rest r', foldl (flip sees) x es)).
Lemma relays_record w r r' ls l f es (Q : Writer.t → Reader.t → Prop) :
  Reader.m_seen_end r = false → concat ls = 0 :: l → shows ls r r' es →
  (∀ o, Q (f (Writer.set_output (Some o) w)) r') → (∀ w, Writer.output (f w) = Writer.output w) →
  relays_at w r (Writer.write ls;; modify f) es Q.
Proof.
  intros He Hl Hr HQ Hf ? ? o [-> ->] Ho. exists (f (Writer.set_output (Some (o ++ concat ls)) w)), (concat ls), r'. split_and!.
  - unfold Writer.write, mbind, M_bind, gets. by rewrite Ho.
  - by rewrite Hf.
  - apply HQ.
  - intros rest inst x Ht. exists inst. split; [done|]. apply rtc_once. split_and!; [| done | done | done |].
    + unfold remaining. cbn. rewrite length_app, Hl. cbn. lia.
    + left. specialize (Hr rest x). apply wps_never in Hr as (e & s & E & -> & ->). unfold Reader.read_record, mbind, M_bind. cbn [fst snd].
      rewrite Hl in *. cbn [app] in *. rewrite peek_feed. cbv beta iota. change (0 =? 0) with true. cbv iota beta. by rewrite E.
Qed.
Lemma relays_write w r r' ls l es (Q : Writer.t → Reader.t → Prop) :
  Reader.m_seen_end r = false → concat ls = 0 :: l → shows ls r r' es → (∀ o, Q (Writer.set_output (Some o) w) r') →
  relays_at w r (Writer.write ls) es Q.
Proof.
  intros He Hl Hr HQ w0 r0 o [-> ->] Ho. destruct (relays_record w r r' ls l id es Q He Hl Hr HQ (λ _, eq_refl) w r o) as (w' & bs & r1 & E & Hrest); [done | done |].
  exists w', bs, r1. split; [|done]. revert E. unfold Writer.write, mbind, M_bind, gets. rewrite Ho. done.
Qed.

(** *** From rounds to [Read] and the loop around it *)
Lemma read_loop_mono n m inst s y : Reader.read_loop uninit_byte hs n inst s = Ok y → (n ≤ m)%nat → Reader.read_loop uninit_byte hs m inst s = Ok y.
Proof.
  revert m inst s. induction n as [|n IH]; intros m inst s E Hm.
  - destruct m; [done|]. revert E. cbn [Reader.read_loop]. unfold mbind, M_bind. destruct (Reader.on_reader _ s) as [[[] s1]|]; done.
  - destruct m as [|m]; [lia|]. revert E. cbn [Reader.read_loop]. unfold mbind, M_bind. destruct (Reader.on_reader _ s) as [[[] s1]|]; [done| |done].
    destruct (Reader.read_record _ _ _ _) as [[[[|b] i] s2]|]; [|done..]. intros E. apply IH; [done | lia].
Qed.
Lemma run_S n i s : run (S n) i s =
  match Reader.Read uninit_byte hs i s with
  | Ok ((b, j), s1) => if (b : bool) then match deliver j s1 with Ok (_, s2) => run n j s2 | Err e => Err e end else Ok (tt, s1)
  | Err e => Err e
  end.
Proof. cbn [run]. unfold mbind, M_bind. by destruct (Reader.Read _ _ _ _) as [[[[] j] s1]|]. Qed.
Lemma run_mono n m inst s y : run n inst s = Ok y → (n ≤ m)%nat → run m inst s = Ok y.
Proof.
  revert m inst s. induction n as [|n IH]; intros m inst s E Hm; [done|]. destruct m as [|m]; [lia|]. revert E. rewrite !run_S.
  destruct (Reader.Read _ _ _ _) as [[[[] i] s1]|]; [|done..]. destruct (deliver i s1) as [[[] s2]|]; [|done]. intros E. apply IH; [done | lia].
Qed.
Lemma Read_open inst r x : Reader.input r ≠ None → Reader.Read uninit_byte hs inst (r, x) = Reader.read_loop uninit_byte hs (S (remaining r)) inst (r, x).
Proof. intros Hi. by destruct r as [? [l|] ? ? ? ? ? ? ? ? ? ?]. Qed.
Lemma Read_first inst r r' x : Reader.input r = None → Reader.initStream r = Ok (true, r') → Reader.input r' ≠ None →
  Reader.Read uninit_byte hs inst (r, x) = Reader.Read uninit_byte hs inst (r', x).
Proof.
  intros Hi Hr Hi'. rewrite (Read_open _ r') by done. unfold Reader.Read, mbind, M_bind, Reader.on_reader, gets, remaining. cbn [rbind]. rewrite Hi, Hr. cbn. done.
Qed.
Lemma run_round c c' n y : round c c' → run n c'.1 c'.2 = Ok y → run (S n) c.1 c.2 = Ok y.
Proof.
  destruct c as [i [r x]], c' as [i' [r' x']]. unfold round. cbn [fst snd]. intros (Hlt & He & Hi & Hi' & Hr) E. destruct n as [|n]; [done|].
  assert (Hstep : Reader.read_loop uninit_byte hs (S (remaining r)) i (r, x) =
    (match Reader.read_record uninit_byte hs i (r, x) with Ok ((Reader.Again, j), s) => Reader.read_loop uninit_byte hs (remaining r) j s
      | Ok ((Reader.Return b, j), s) => Ok ((b, j), s) | Err e => Err e end)).
  { cbn [Reader.read_loop]. unfold mbind, M_bind, Reader.on_reader, gets. cbn [rbind]. rewrite He. by destruct (Reader.read_record _ _ _ _) as [[[[] ?] ?]|]. }
  rewrite run_S, Read_open, Hstep by done. destruct Hr as [Hr|(s & Hr & Hd)]; rewrite Hr; [|by rewrite Hd].
  revert E. rewrite run_S, Read_open by done. destruct (Reader.read_loop _ _ _ i' _) as [[[b j] s]|] eqn:El; [|done].
  rewrite (read_loop_mono _ _ _ _ _ El) by lia. destruct b; [|done]. destruct (deliver j s) as [[[] s2]|]; [|done]. intros E. apply (run_mono n); [exact E | lia].
Qed.
Lemma run_rounds c c' y : rounds c c' → (∀ n, (0 < n)%nat → run n c'.1 c'.2 = Ok y) → ∀ n, (remaining c.2.1 < n)%nat → run n c.1 c.2 = Ok y.
Proof.
  intros Hcc Hy. induction Hcc as [c|c c1 c' H1 Hcc IH]; intros n Hn; [apply Hy; lia|]. destruct n as [|n]; [lia|].
  eapply run_round; [done|]. apply IH; [done|]. destruct H1 as [? _]. lia.
Qed.
End client.

(** ** Code *)
(** The bytes of a memory. *)
Definition bytes_at (mem : Z → Z) (a n : Z) : bytes := (λ i, mem (a + Z.of_nat i)) <$> seq 0 (Z.to_nat n).
Lemma size_bytes_at mem a n : 0 ≤ n → size_of (bytes_at mem a n) = n.
Proof. intros. unfold size_of, bytes_at. rewrite length_fmap, length_seq. lia. Qed.
Lemma lookup_bytes_at mem a n i : (i < Z.to_nat n)%nat → bytes_at mem a n !! i = Some (mem (a + Z.of_nat i)).
Proof. intros. unfold bytes_at. by rewrite list_lookup_fmap, lookup_seq_lt. Qed.
Lemma bytes_at_app mem a n k : 0 ≤ n → 0 ≤ k → bytes_at mem a (n + k) = bytes_at mem a n ++ bytes_at mem (a + n) k.
Proof.
  intros. unfold bytes_at. rewrite Z2Nat.inj_add, seq_app, fmap_app by done. f_equal. cbn.
  rewrite <- (Nat.add_0_r (Z.to_nat n)) at 1. rewrite <- fmap_add_seq, <- list_fmap_compose. apply list_fmap_ext. intros i x _. cbn. f_equal. lia.
Qed.

Section code.
Context (mem : Z → Z).
Implicit Types (pages : gmap Z bytes).
Definition page_of (a : Z) : Z := a - a `mod` ICACHE_SIZE.
(** The pages have the bytes from [a] to [a + n]. *)
Definition has_byte pages (a : Z) : Prop := ∃ page, pages !! page_of a = Some page ∧ page !! Z.to_nat (a `mod` ICACHE_SIZE) = Some (mem a).
Definition has_code pages (a n : Z) : Prop := ∀ i, 0 ≤ i < n → has_byte pages (a + i).
Definition whole pages : Prop := map_Forall (λ _ l, length l = Z.to_nat ICACHE_SIZE) pages.

Lemma page_of_add base i : base `mod` ICACHE_SIZE = 0 → 0 ≤ i < ICACHE_SIZE → page_of (base + i) = base ∧ (base + i) `mod` ICACHE_SIZE = i.
Proof.
  intros Hb Hi. assert ((base + i) `mod` ICACHE_SIZE = i) as E; [|unfold page_of; rewrite E; lia].
  rewrite <- Zplus_mod_idemp_l, Hb. by apply Z.mod_small.
Qed.
Lemma page_chunk pages base off n page : has_code pages (base + off) n → whole pages → base `mod` ICACHE_SIZE = 0 → 0 ≤ off → 0 < n → off + n ≤ ICACHE_SIZE →
  pages !! base = Some page → take (Z.to_nat n) (drop (Z.to_nat off) page) = bytes_at mem (base + off) n.
Proof.
  intros Hc Hw Hb Hoff Hn Hle Hp. pose proof (Hw _ _ Hp) as Hlen. cbv beta in Hlen. change ICACHE_SIZE with 4096 in *. apply list_eq. intros i. destruct (decide (i < Z.to_nat n)%nat) as [Hi|Hi].
  - rewrite lookup_bytes_at, lookup_take_lt, lookup_drop by done. destruct (Hc (Z.of_nat i)) as (page' & Hp' & Hi'); [lia|].
    change ICACHE_SIZE with 4096 in *. destruct (page_of_add base (off + Z.of_nat i)) as [E1 E2]; [done | change ICACHE_SIZE with 4096; lia |]. change ICACHE_SIZE with 4096 in *.
    rewrite Z.add_assoc in E1, E2. rewrite E1 in Hp'. rewrite E2 in Hi'. rewrite Hp in Hp'. injection Hp' as <-. rewrite <- Hi'. f_equal. lia.
  - rewrite !lookup_ge_None_2; [done | | ].
    + unfold bytes_at. rewrite length_fmap, length_seq. lia.
    + rewrite length_take. lia.
Qed.
Lemma copy_code_spec pages a n : has_code pages a n → whole pages → 0 ≤ a → a + n < 2 ^ 64 → 0 < n < 16 →
  Reader.copy_code 2 pages (page_of a) (a `mod` ICACHE_SIZE) n [] = Ok (bytes_at mem a n).
Proof.
  intros Hc Hw Ha Hlt Hn. assert (Hpm : page_of a `mod` ICACHE_SIZE = 0). { unfold page_of. by rewrite Zminus_mod_idemp_r, Z.sub_diag. }
  assert (Hae : page_of a + a `mod` ICACHE_SIZE = a) by (unfold page_of; lia). pose proof (Z.mod_pos_bound a ICACHE_SIZE ltac:(done)) as Hm.
  cbn [Reader.copy_code]. destruct (Z.ltb_spec 0 n); [|lia]. cbn [negb].
  destruct (Hc 0) as (page & Hp & _); [lia|]. rewrite Z.add_0_r in Hp. rewrite Hp. cbn [rbind app].
  set (k := Z.min n (ICACHE_SIZE - a `mod` ICACHE_SIZE)). assert (Hk : 0 < k ≤ n) by lia.
  assert (Hchunk : take (Z.to_nat k) (drop (Z.to_nat (a `mod` ICACHE_SIZE)) page) = bytes_at mem a k).
  { rewrite <- Hae at 2. apply (page_chunk pages); [|done|done|lia|lia|lia|done]. rewrite Hae. intros i Hi. apply Hc. lia. }
  rewrite Hchunk. destruct (Z.ltb_spec 0 (n - k)) as [Hlt2|Hge]; cbn [negb]; [|by replace n with k by lia].
  assert (Hnext : page_of a + ICACHE_SIZE = a + k) by lia. assert (Hnm : (a + k) `mod` ICACHE_SIZE = 0).
  { rewrite <- Hnext. change ICACHE_SIZE with (1 * ICACHE_SIZE) at 1. by rewrite Z.mod_add. }
  assert (Hnp : page_of (a + k) = a + k) by (unfold page_of; lia). rewrite (u64_small (page_of a + ICACHE_SIZE)) by (unfold page_of in *; rlia). rewrite Hnext.
  destruct (Hc k) as (page2 & Hp2 & _); [lia|]. rewrite Hnp in Hp2. rewrite Hp2. cbn [rbind].
  replace (Z.min (n - k) (ICACHE_SIZE - 0)) with (n - k) by (change ICACHE_SIZE with 4096; lia). destruct (Z.ltb_spec 0 (n - k - (n - k))); [lia|]. cbn [negb].
  pose proof (page_chunk pages (a + k) 0 (n - k) page2) as H2. rewrite Z.add_0_r in H2. rewrite H2; [|intros i Hi; rewrite <- Z.add_assoc; apply Hc; lia | done | done | lia | lia | change ICACHE_SIZE with 4096; lia | done].
  rewrite <- bytes_at_app by lia. do 2 f_equal. lia.
Qed.

(** Pages and bytes that arrive. *)
Lemma has_code_page pages base a n : base `mod` ICACHE_SIZE = 0 → has_code pages a n → has_code (<[base := bytes_at mem base ICACHE_SIZE]> pages) a n.
Proof.
  intros Hb Hc i Hi. destruct (Hc i Hi) as (page & Hp & Hl). destruct (decide (page_of (a + i) = base)) as [E|E].
  - exists (bytes_at mem base ICACHE_SIZE). rewrite E. split; [apply lookup_insert_eq|]. pose proof (Z.mod_pos_bound (a + i) ICACHE_SIZE ltac:(done)).
    rewrite lookup_bytes_at by lia. do 2 f_equal. unfold page_of in E. lia.
  - exists page. by rewrite lookup_insert_ne.
Qed.
Lemma new_page_code pages base : base `mod` ICACHE_SIZE = 0 → has_code (<[base := bytes_at mem base ICACHE_SIZE]> pages) base ICACHE_SIZE.
Proof.
  intros Hb i Hi. destruct (page_of_add base i Hb Hi) as [E1 E2]. exists (bytes_at mem base ICACHE_SIZE). rewrite E1, E2. split; [apply lookup_insert_eq|].
  rewrite lookup_bytes_at by lia. do 2 f_equal. lia.
Qed.
Lemma whole_page pages base l : length l = Z.to_nat ICACHE_SIZE → whole pages → whole (<[base := l]> pages).
Proof. intros. by apply map_Forall_insert_2. Qed.
(** The bytes of single instructions. *)
Definition chunk (uninit_byte : Z) pages (base off k : Z) : gmap Z bytes :=
  let page := default (replicate (Z.to_nat ICACHE_SIZE) uninit_byte) (pages !! base) in
  <[base := take (Z.to_nat off) page ++ bytes_at mem (base + off) k ++ drop (Z.to_nat (off + k)) page]> pages.
Lemma chunk_spec u pages base off k : base `mod` ICACHE_SIZE = 0 → 0 ≤ off → 0 ≤ k → off + k ≤ ICACHE_SIZE → whole pages →
  whole (chunk u pages base off k) ∧ has_code (chunk u pages base off k) (base + off) k ∧ ∀ a n, has_code pages a n → has_code (chunk u pages base off k) a n.
Proof.
  intros Hb Hoff Hk Hle Hw. unfold chunk. set (page := default _ _).
  assert (Hlen : length page = Z.to_nat ICACHE_SIZE).
  { unfold page. destruct (pages !! base) eqn:E; cbn; [by apply (Hw _ _ E) | apply length_replicate]. }
  assert (Hsz := size_bytes_at mem (base + off) k Hk). unfold size_of in Hsz.
  assert (Hnew : ∀ x, page_of x = base → off ≤ x `mod` ICACHE_SIZE < off + k →
    (take (Z.to_nat off) page ++ bytes_at mem (base + off) k ++ drop (Z.to_nat (off + k)) page) !! Z.to_nat (x `mod` ICACHE_SIZE) = Some (mem x)).
  { intros x Hx Hi. rewrite lookup_app_r, length_take by (rewrite length_take; lia). rewrite lookup_app_l by lia. rewrite lookup_bytes_at by lia. do 2 f_equal. unfold page_of in Hx. lia. }
  split_and!.
  - apply whole_page; [|done]. rewrite !length_app, length_take, length_drop. lia.
  - intros i Hi. destruct (page_of_add base (off + i)) as [E1 E2]; [done | lia |]. rewrite Z.add_assoc in E1, E2.
    eexists. rewrite E1. split; [apply lookup_insert_eq|]. apply Hnew; [done | lia].
  - intros a n Hc i Hi. destruct (Hc i Hi) as (page' & Hp & Hl). destruct (decide (page_of (a + i) = base)) as [E|E]; [|exists page'; by rewrite lookup_insert_ne].
    rewrite E in Hp. assert (page = page') as <- by (unfold page; by rewrite Hp). eexists. rewrite E. split; [apply lookup_insert_eq|].
    pose proof (Z.mod_pos_bound (a + i) ICACHE_SIZE ltac:(done)). destruct (decide (off ≤ (a + i) `mod` ICACHE_SIZE < off + k)) as [Hin|Hout]; [by apply Hnew|].
    destruct (decide ((a + i) `mod` ICACHE_SIZE < off)).
    + rewrite lookup_app_l, lookup_take_lt by (rewrite ?length_take; lia). done.
    + rewrite lookup_app_r, length_take by (rewrite length_take; lia). rewrite lookup_app_r, lookup_drop by lia. rewrite <- Hl. f_equal. lia.
Qed.
Lemma fill_one u n a k rest r : 0 ≤ a < 2 ^ 64 → 0 < k → k + a `mod` ICACHE_SIZE ≤ ICACHE_SIZE → page_of a + ICACHE_SIZE < 2 ^ 64 →
  ∀ more, 0 ≤ more → (0 < more → k + a `mod` ICACHE_SIZE = ICACHE_SIZE) →
  Reader.fill_code (S n) u a (k + more) (feed (bytes_at mem a k ++ rest) r) =
  Reader.fill_code n u (page_of a + ICACHE_SIZE) more (feed rest (Reader.set_icache (chunk u (Reader.icache r) (page_of a) (a `mod` ICACHE_SIZE) k) r)).
Proof.
  intros Ha Hk Hle Hn more Hmore Hfull. cbn [Reader.fill_code]. destruct (Z.ltb_spec 0 (k + more)); [|lia]. cbn [negb].
  rewrite land_offset, land_page by done. change (a - a `mod` 4096) with (page_of a). change (a `mod` 4096) with (a `mod` ICACHE_SIZE).
  replace (Z.min (k + more) (ICACHE_SIZE - a `mod` ICACHE_SIZE)) with k by lia.
  unfold mbind, M_bind, gets at 1. unfold Reader.from_input. cbn [Reader.input Reader.set_input]. rewrite read_app by (rewrite size_bytes_at; lia). cbn [rbind].
  unfold modify. rewrite u64_small by (pose proof (Z.mod_pos_bound a ICACHE_SIZE ltac:(done)); unfold page_of in *; rlia). replace (k + more - k) with more by lia. f_equal.
  unfold chunk. replace (page_of a + a `mod` ICACHE_SIZE) with a by (unfold page_of; lia). done.
Qed.
Lemma fill_code_spec u a k r : 0 ≤ a → 0 < k < 16 → a + k + ICACHE_SIZE < 2 ^ 64 → whole (Reader.icache r) →
  ∃ pages, whole pages ∧ has_code pages a k ∧ (∀ b n, has_code (Reader.icache r) b n → has_code pages b n) ∧
    ∀ n rest, (2 ≤ n)%nat → Reader.fill_code n u a k (feed (bytes_at mem a k ++ rest) r) = Ok (tt, feed rest (Reader.set_icache pages r)).
Proof.
  intros Ha Hk Hlt Hw. assert (HI : ICACHE_SIZE = 4096) by done. pose proof (Z.mod_pos_bound a ICACHE_SIZE ltac:(done)) as Hm.
  set (c := Z.min k (ICACHE_SIZE - a `mod` ICACHE_SIZE)).
  assert (Hp0 : page_of a `mod` ICACHE_SIZE = 0) by (unfold page_of; by rewrite Zminus_mod_idemp_r, Z.sub_diag).
  assert (Hae : page_of a + a `mod` ICACHE_SIZE = a) by (unfold page_of; lia).
  destruct (chunk_spec u (Reader.icache r) (page_of a) (a `mod` ICACHE_SIZE) c) as (Hw1 & Hc1 & Hk1); [done | lia | lia | lia | done |]. rewrite Hae in Hc1.
  set (pages1 := chunk u (Reader.icache r) (page_of a) (a `mod` ICACHE_SIZE) c) in *.
  destruct (decide (c = k)) as [Ec|Ec].
  - exists pages1. rewrite <- Ec. split_and!; [done..|]. intros n rest Hn. destruct n as [|n]; [lia|].
    pose proof (fill_one u n a c rest r ltac:(lia) ltac:(lia) ltac:(lia) ltac:(lia) 0 ltac:(lia) ltac:(lia)) as E. rewrite Z.add_0_r in E. rewrite E. by destruct n.
  - assert (Hck : c = ICACHE_SIZE - a `mod` ICACHE_SIZE) by lia. assert (Hnext : page_of a + ICACHE_SIZE = a + c) by lia.
    assert (Hnm : (a + c) `mod` ICACHE_SIZE = 0). { rewrite <- Hnext. change ICACHE_SIZE with (1 * ICACHE_SIZE) at 1. by rewrite Z.mod_add. }
    assert (Hnp : page_of (a + c) = a + c) by (unfold page_of; lia).
    destruct (chunk_spec u pages1 (a + c) 0 (k - c)) as (Hw2 & Hc2 & Hk2); [done | lia | lia | lia | done |]. rewrite Z.add_0_r in Hc2.
    exists (chunk u pages1 (a + c) 0 (k - c)). split_and!; [done | | by auto |].
    + intros i Hi. destruct (decide (i < c)); [apply (Hk2 a c); [done | lia]|]. replace (a + i) with (a + c + (i - c)) by lia. apply Hc2. lia.
    + intros n rest Hn. destruct n as [|[|n]]; [lia..|].
      pose proof (fill_one u (S n) a c (bytes_at mem (a + c) (k - c) ++ rest) r ltac:(lia) ltac:(lia) ltac:(lia) ltac:(lia) (k - c) ltac:(lia) ltac:(lia)) as E.
      rewrite app_assoc, <- bytes_at_app, Hnext in E by lia. replace (c + (k - c)) with k in E by lia. rewrite E. fold pages1.
      pose proof (fill_one u n (a + c) (k - c) rest (Reader.set_icache pages1 r) ltac:(lia) ltac:(lia) ltac:(lia) ltac:(lia) 0 ltac:(lia) ltac:(lia)) as E2.
      rewrite Z.add_0_r, Hnp, Hnm in E2. etrans; [exact E2|]. by destruct n.
Qed.
End code.

(** ** Calls of the writer *)
Inductive call :=
  | Instruction (addr size : Z) (addresses : list Z) (is_branch taken is_predicate executed : bool)
  | CacheOnly (icount type eip address : Z)
  | Output (fd : Z) (data : bytes)
  | RoutineChange (event eip esp callEip : Z)
  | RoutineAnnounce (eip : Z) (name imgname : bytes) (offset line column : Z) (filename : bytes)
  | ISAChange (new_isa : Z).
Definition perform_on (h : Writer.host) (c : call) : M Writer.t unit :=
  match c with
  | Instruction addr size addresses is_branch taken is_predicate executed => Writer.Instruction h addr size addresses is_branch taken is_predicate executed
  | CacheOnly icount type eip address => Writer.CacheOnly h icount type eip address
  | Output fd data => Writer.Output fd data
  | RoutineChange event eip esp callEip => Writer.RoutineChange event eip esp callEip
  | RoutineAnnounce eip name imgname offset line column filename => Writer.RoutineAnnounce eip name imgname offset line column filename
  | ISAChange new_isa => Writer.ISAChange new_isa
  end.

(** ** What writer and reader agree on *)
Section trace.
Context {H : Type} (sees : event → H → H) (uninit_byte : Z) (hs : Reader.handlers H) (Hpass : passes_on sees hs).
(** The memory of the program, its page table, the sizes of its instructions, whether code is sent
    by instruction and page table entries are sent at all, and whether writer and reader have a
    file for answers. *)
Context (mem : Z → Z) (pm : Z → option Z) (sizes : Z → Z) (per_insn send rf rf' : bool).
Definition the_host : Writer.host := {| Writer.getCode := bytes_at mem; Writer.pagemap := pm |}.
(** Entries have 64 bits; a page that is present has a frame. *)
Definition page_table_ok : Prop := ∀ vp e, pm vp = Some e → 0 ≤ e < 2 ^ 64 ∧ (Z.testbit e 63 = true → Z.land e (2 ^ 54 - 1) ≠ 0).
Context (Hpm : page_table_ok).
Definition frame_of (vp : Z) : option Z :=
  match Writer.va2pa_lookup the_host vp with Ok pp => if pp =? 0 then None else Some pp | Err _ => None end.
Definition physical (va : Z) : Z :=
  if send then
    match frame_of (va `div` PAGE_SIZE_SIFT) with
    | None => 0
    | Some pp => Z.lor (u64 (pp * PAGE_SIZE_SIFT)) (Z.land va (PAGE_SIZE_SIFT - 1))
    end
  else va.
Definition code_of (a : Z) : bytes := let l := bytes_at mem a (sizes a) in l ++ replicate (16 - length l) 0.

Definition statics (l : gmap Z Reader.StaticInstruction) : Prop := ∀ a s, l !! a = Some s →
  Reader.addr s = a ∧ Reader.size s = sizes a ∧ Reader.data s = code_of a ∧ ∀ n, Reader.next s = Some n → is_Some (l !! n).
Record sync (isa : Z) (w : Writer.t) (r : Reader.t) : Prop := {
  y_open : Writer.is_open w = true;
  y_per_insn : Writer.m_requires_icache_per_insn w = per_insn;
  y_send : Writer.m_send_va2pa_mapping w = send;
  y_pa : Reader.m_trace_has_pa r = send;
  y_end : Reader.m_seen_end r = false;
  y_isa : Reader.m_isa r = isa;
  y_last : Reader.last_address r = Writer.last_address w;
  y_pages : ∀ a, a ∈ Writer.icache w → has_code mem (Reader.icache r) a (if per_insn then sizes a else ICACHE_SIZE);
  y_whole : whole (Reader.icache r);
  y_vcache : ∀ vp, Reader.vcache r !! vp = if bool_decide (vp ∈ Writer.m_va2pa w) then frame_of vp else None;
  y_scache : statics (Reader.scache r);
  y_answers : Reader.response r = [];
  y_response : Writer.response w = [];
  y_rf : Writer.m_response_filename w = rf;
  y_rf' : Reader.m_response_filename r = rf';
  y_inst : ∀ a, Reader.m_last_sinst r = Some a → is_Some (Reader.scache r !! a);
}.
(** The code and the page table entries that the reader has. *)
Definition knows (isa last : Z) (K : list (Z * Z)) (V : list Z) (w : Writer.t) (r : Reader.t) : Prop :=
  sync isa w r ∧ Writer.last_address w = last ∧ Forall (λ k, has_code mem (Reader.icache r) k.1 k.2) K ∧ (send = true → Forall (λ va, Reader.vcache r !! (va `div` PAGE_SIZE_SIFT) = frame_of (va `div` PAGE_SIZE_SIFT)) V).
Abbreviation relays := (relays sees uninit_byte hs).

Lemma lookup_frame vp : 0 ≤ vp < 2 ^ 64 → ∃ pp, Writer.va2pa_lookup the_host vp = Ok pp ∧ 0 ≤ pp < 2 ^ 64 ∧ frame_of vp = if pp =? 0 then None else Some pp.
Proof.
  intros Hvp. enough (∃ pp, Writer.va2pa_lookup the_host vp = Ok pp ∧ 0 ≤ pp < 2 ^ 64) as (pp & E & Hr).
  { exists pp. unfold frame_of. by rewrite E. }
  unfold Writer.va2pa_lookup. cbn [Writer.pagemap the_host]. destruct (_ && _); [by exists vp|]. destruct (pm vp) as [e|] eqn:Ee; [|by exists vp].
  destruct (Hpm _ _ Ee) as [He Hf]. destruct (Z.testbit e 63) eqn:Eb; cbn [negb]; [|by exists vp].
  exists (Z.land e (2 ^ 54 - 1)). destruct (Z.eqb_spec (Z.land e (2 ^ 54 - 1)) 0) as [E0|E0]; [by destruct Hf|]. cbn. split; [done|].
  change (2 ^ 54 - 1) with (Z.ones 54). rewrite Z.land_ones by done. pose proof (Z.mod_pos_bound e (2 ^ 54) ltac:(done)). lia.
Qed.

(** A page of code, the code of an instruction. *)
Lemma relays_page isa L K V base : per_insn = false → base `mod` ICACHE_SIZE = 0 → 0 ≤ base < 2 ^ 64 →
  relays (knows isa L K V) (Writer.send_page the_host base) [] (knows isa L ((base, ICACHE_SIZE) :: K) V).
Proof.
  intros Hpi Hb Hr. apply relays_points. intros w r (Hs & HL & HK & HV). destruct (decide (base ∈ Writer.icache w)) as [Hin|Hin].
  { apply relays_at_skip; [unfold Writer.send_page, mbind, M_bind, gets, id; by rewrite bool_decide_true|].
    do 2 (split; [done|]). split; [|done]. constructor; [|done]. cbn. pose proof (y_pages _ _ _ Hs base Hin) as Hc. by rewrite Hpi in Hc. }
  eapply relays_at_eq; [unfold Writer.send_page, mbind at 1, M_bind at 1, gets at 1, id; rewrite bool_decide_false by done; reflexivity|].
  eapply (relays_record _ _ _ _ _ (Reader.set_icache (<[base := bytes_at mem base ICACHE_SIZE]> (Reader.icache r)) r)); [apply (y_end _ _ _ Hs) | reflexivity | | | done].
  - intros rest x. record. unfold Reader.read_icache. wstep. wstep; [|done]. word. wstep. apply wps_bytes; [by apply size_bytes_at|]. apply wps_reader. wstep. by wstep.
  - intros o'. split; [|split; [done|split; [|done]]].
    + destruct Hs. split; try done; cbn.
      * intros a [->%elem_of_singleton|Ha]%elem_of_union; [rewrite Hpi; by apply new_page_code | apply has_code_page; auto].
      * apply whole_page; [|done]. pose proof (size_bytes_at mem base ICACHE_SIZE ltac:(done)) as Hsz. unfold size_of in Hsz. lia.
    + constructor; [by apply new_page_code | eapply Forall_impl; [exact HK|]; intros ? ?; by apply has_code_page].
Qed.
Lemma relays_code isa L K V a : per_insn = true → 0 ≤ a → 0 < sizes a < 16 → a + sizes a + ICACHE_SIZE < 2 ^ 64 →
  relays (knows isa L K V) (Writer.send_code the_host a (sizes a)) [] (knows isa L ((a, sizes a) :: K) V).
Proof.
  intros Hpi Ha Hsz Hlt. assert (HI : ICACHE_SIZE = 4096) by done. apply relays_points. intros w r (Hs & HL & HK & HV). destruct (decide (a ∈ Writer.icache w)) as [Hin|Hin].
  { apply relays_at_skip; [unfold Writer.send_code, mbind, M_bind, gets, id; by rewrite bool_decide_true|].
    do 2 (split; [done|]). split; [|done]. constructor; [|done]. cbn. pose proof (y_pages _ _ _ Hs a Hin) as Hc. by rewrite Hpi in Hc. }
  eapply relays_at_eq; [unfold Writer.send_code, mbind at 1, M_bind at 1, gets at 1, id; rewrite bool_decide_false by done; reflexivity|].
  destruct (fill_code_spec mem uninit_byte a (sizes a) r) as (pages & Hw & Hc & Hk & Hfill); [done | done | done | apply (y_whole _ _ _ Hs) |].
  eapply (relays_record _ _ _ _ _ (Reader.set_icache pages r)); [apply (y_end _ _ _ Hs) | reflexivity | | | done].
  - intros rest x. cbn [concat]. rewrite app_nil_r, <- !app_assoc. unfold Reader.read_other_record. wstep. apply wps_head; [unfold u32; apply Z.mod_pos_bound; lia|]. rewrite of_code_code.
    wstep. unfold Reader.read_icache_variable. wstep. apply wps_word_small; [change (2 ^ _) with (2 ^ 64); lia|]. apply wps_reader. unfold wps.
    rewrite u32_small, u64_small by rlia. replace (8 + sizes a - 8) with (sizes a) by lia. cbn [Writer.getCode the_host]. rewrite Hfill; [done|].
    cbn. rewrite length_app. pose proof (size_bytes_at mem a (sizes a) ltac:(lia)) as Hn. unfold size_of in Hn. lia.
  - intros o'. split; [|split; [done|split; [|done]]].
    + destruct Hs. split; try done; cbn. intros b [->%elem_of_singleton|Hb]%elem_of_union; [by rewrite Hpi|]. by apply Hk, y_pages0.
    + constructor; [done | eapply Forall_impl; [exact HK|]; intros ? ?; by apply Hk].
Qed.
(** An entry of the page table. *)
Lemma relays_va2pa isa L K V va : 0 ≤ va < 2 ^ 64 → relays (knows isa L K V) (Writer.send_va2pa the_host va) [] (knows isa L K (va :: V)).
Proof.
  intros Hva. apply relays_points. intros w r (Hs & HL & HK & HV). set (vp := va `div` PAGE_SIZE_SIFT).
  assert (Hvp : 0 ≤ vp < 2 ^ 64). { unfold vp, PAGE_SIZE_SIFT. split; [apply Z.div_pos; lia | apply Z.div_lt_upper_bound; lia]. }
  destruct send eqn:Esend.
  2: { apply relays_at_skip; [unfold Writer.send_va2pa, mbind, M_bind, gets, id; by rewrite (y_open _ _ _ Hs), (y_send _ _ _ Hs), Esend|].
    do 3 (split; [done|]). by rewrite Esend. }
  destruct (lookup_frame vp Hvp) as (pp & Epp & Hpp & Ef). pose proof (y_vcache _ _ _ Hs vp) as Hv. specialize (HV eq_refl).
  eapply relays_at_eq. { unfold Writer.send_va2pa, mbind at 1, M_bind at 1, gets at 1, id. rewrite (y_open _ _ _ Hs), (y_send _ _ _ Hs), Esend. cbn [negb orb]. fold vp. reflexivity. }
  destruct (decide (vp ∈ Writer.m_va2pa w)) as [Hin|Hin].
  { apply relays_at_skip; [by rewrite bool_decide_true|]. rewrite bool_decide_true in Hv by done. do 3 (split; [done|]). intros _. by constructor. }
  rewrite bool_decide_false in Hv by done. eapply relays_at_eq; [rewrite bool_decide_false by done; unfold mbind at 1, M_bind at 1, lift; rewrite Epp; reflexivity|].
  destruct (Z.eqb_spec pp 0) as [E0|E0].
  { apply relays_at_skip; [done|]. do 3 (split; [done|]). intros _. constructor; [|done]. fold vp. by rewrite Hv, Ef. }
  eapply (relays_record _ _ _ _ _ (Reader.set_vcache (<[vp := pp]> (Reader.vcache r)) r)); [apply (y_end _ _ _ Hs) | reflexivity | | | done].
  - intros rest x. record. unfold Reader.read_logical2physical. wstep. wstep; [|done]. word. word. apply wps_reader. by wstep.
  - intros o'. split; [|split; [done|split; [done|]]].
    + destruct Hs. split; try done; cbn. intros v. destruct (decide (v = vp)) as [->|Hne].
      * rewrite lookup_insert_eq, bool_decide_true by set_solver. done.
      * rewrite lookup_insert_ne by done. rewrite y_vcache0. by destruct (decide (v ∈ Writer.m_va2pa w)); [rewrite !bool_decide_true by set_solver | rewrite !bool_decide_false by set_solver].
    + intros _. cbn. constructor; [fold vp; by rewrite lookup_insert_eq|]. eapply Forall_impl; [exact HV|]. cbn. intros v Hv'.
      destruct (decide (v `div` PAGE_SIZE_SIFT = vp)) as [->|Hne]; [by rewrite lookup_insert_eq | by rewrite lookup_insert_ne].
Qed.
Lemma relays_va2pas isa L K V l : Forall (λ va, 0 ≤ va < 2 ^ 64) l → relays (knows isa L K V) (Writer.send_va2pas the_host l) [] (knows isa L K (reverse l ++ V)).
Proof.
  intros Hl. revert V. induction Hl as [|va l Hva Hl IH]; intros V; [by apply relays_skip|]. cbn [Writer.send_va2pas].
  change (@nil event) with (@nil event ++ []). eapply relays_seq; [by apply relays_va2pa|]. rewrite reverse_cons, <- app_assoc. apply IH.
Qed.

(** The code of an instruction, in either way. *)
Definition code_range (a n : Z) : Prop := 0 ≤ a ∧ 0 < n < 16 ∧ a + n + ICACHE_SIZE < 2 ^ 64.
Definition code_part (a n : Z) : M Writer.t unit :=
  if per_insn then Writer.send_code the_host a n else Writer.send_pages the_host 2 (Z.land a ICACHE_PAGE_MASK) (Z.land (u64 (a + n - 1)) ICACHE_PAGE_MASK).
Lemma relays_code_part isa L a : code_range a (sizes a) →
  relays (knows isa L [] []) (code_part a (sizes a)) [] (knows isa L [(a, sizes a)] []).
Proof.
  intros (Ha & Hn & Hlt). set (n := sizes a) in *. assert (HI : ICACHE_SIZE = 4096) by done. unfold code_part. destruct per_insn eqn:Epi; [by apply relays_code|].
  pose proof (Z.mod_pos_bound a ICACHE_SIZE ltac:(done)) as Hm. pose proof (Z.mod_pos_bound (a + n - 1) ICACHE_SIZE ltac:(done)) as Hm2.
  rewrite u64_small, !land_page by rlia. change (a - a `mod` 4096) with (page_of a). change (a + n - 1 - (a + n - 1) `mod` 4096) with (page_of (a + n - 1)).
  assert (Hpz : ∀ x, page_of x `mod` ICACHE_SIZE = 0). { intros x. unfold page_of. by rewrite Zminus_mod_idemp_r, Z.sub_diag. }
  assert (H0 : 0 ≤ page_of a ≤ a) by (unfold page_of; pose proof (Z.mod_le a ICACHE_SIZE); lia).
  assert (H1 : page_of (a + n - 1) ≤ a + n - 1) by (unfold page_of; lia).
  assert (Hstep : page_of (a + n - 1) = page_of a ∨ page_of (a + n - 1) = page_of a + ICACHE_SIZE).
  { destruct (decide (a `mod` ICACHE_SIZE + n ≤ ICACHE_SIZE)) as [Hle|Hgt].
    - left. destruct (page_of_add (page_of a) (a `mod` ICACHE_SIZE + n - 1) (Hpz a)) as [E _]; [lia|]. rewrite <- E at 1. f_equal. unfold page_of. lia.
    - right. destruct (page_of_add (page_of a + ICACHE_SIZE) (a `mod` ICACHE_SIZE + n - 1 - ICACHE_SIZE)) as [E _]; [| lia |].
      + change ICACHE_SIZE with (1 * ICACHE_SIZE) at 1. by rewrite Z.mod_add.
      + rewrite <- E at 1. f_equal. unfold page_of. lia. }
  cbn [Writer.send_pages]. assert (page_of a ≤ page_of (a + n - 1)) by lia. destruct (Z.leb_spec (page_of a) (page_of (a + n - 1))); [|lia]. cbn [negb].
  rewrite u64_small by rlia. change (@nil event) with (@nil event ++ []).
  eapply relays_seq; [apply (relays_page _ L [] []); [done | done | lia]|].
  destruct Hstep as [E|E]; rewrite E.
  - destruct (Z.leb_spec (page_of a + ICACHE_SIZE) (page_of a)); [lia|]. cbn [negb]. apply relays_skip. intros w r (Hs & HL & HK & HV). split; [done|]. split; [done|]. split; [|done].
    apply Forall_cons in HK as [HK _]. constructor; [|done]. cbn in *. intros i Hi. replace (a + i) with (page_of a + (a `mod` ICACHE_SIZE + i)) by (unfold page_of; lia). apply HK. unfold page_of in E. lia.
  - rewrite Z.leb_refl. cbn [negb]. change (@nil event) with (@nil event ++ []).
    eapply relays_seq; [apply (relays_page _ L _ []); [done | by rewrite <- E | lia]|].
    assert (Hend : negb (u64 (page_of a + ICACHE_SIZE + ICACHE_SIZE) <=? page_of a + ICACHE_SIZE) = true).
    { rewrite u64_small by rlia. destruct (Z.leb_spec (page_of a + ICACHE_SIZE + ICACHE_SIZE) (page_of a + ICACHE_SIZE)); [lia | done]. }
    rewrite Hend. apply relays_skip. intros w r (Hs & HL & HK & HV). split; [done|]. split; [done|]. split; [|done].
    apply Forall_cons in HK as [HK2 HK]. apply Forall_cons in HK as [HK _]. constructor; [|done]. cbn in *. intros i Hi.
    destruct (decide (a `mod` ICACHE_SIZE + i < ICACHE_SIZE)).
    + replace (a + i) with (page_of a + (a `mod` ICACHE_SIZE + i)) by (unfold page_of; lia). apply HK. lia.
    + replace (a + i) with (page_of a + ICACHE_SIZE + (a `mod` ICACHE_SIZE + i - ICACHE_SIZE)) by (unfold page_of; lia). apply HK2. lia.
Qed.

(** Static instructions. *)
Lemma statics_insert l a : statics l → l !! a = None → statics (<[a := Reader.mk_sinst a (sizes a) (code_of a) None]> l).
Proof.
  intros Hl Ha b s. destruct (decide (b = a)) as [->|Hne].
  - rewrite lookup_insert_eq. intros [= <-]. by split_and!.
  - rewrite lookup_insert_ne by done. intros E. destruct (Hl b s E) as (? & ? & ? & Hn). split_and!; [done..|].
    intros n En. rewrite lookup_insert_is_Some. destruct (decide (a = n)); [by left | right; eauto].
Qed.
Lemma lookup_link last a l b : Reader.link last a l !! b = None ↔ l !! b = None.
Proof. destruct last as [c|]; cbn; [apply lookup_alter_None | done]. Qed.
Lemma statics_link last a l : statics l → is_Some (l !! a) → statics (Reader.link last a l).
Proof.
  intros Hl Ha. destruct last as [c|]; [|done]. cbn [Reader.link]. intros b s Hb.
  assert (∃ s0, l !! b = Some s0 ∧ Reader.addr s = Reader.addr s0 ∧ Reader.size s = Reader.size s0 ∧ Reader.data s = Reader.data s0 ∧
    (Reader.next s = Reader.next s0 ∨ Reader.next s = Some a)) as (s0 & E0 & -> & -> & -> & Hn).
  { destruct (decide (c = b)) as [->|Hne]; [|rewrite lookup_alter_ne in Hb by done; eauto 10].
    rewrite lookup_alter_eq in Hb. apply fmap_Some in Hb as (s0 & E0 & ->). exists s0. destruct (Reader.next s0) eqn:En; cbn; eauto 10. }
  destruct (Hl b s0 E0) as (? & ? & ? & Hnext). split_and!; [done..|]. intros n En. apply not_eq_None_Some. intros Hnone%(lookup_link (Some c)).
  destruct Hn as [Hn|Hn]; rewrite Hn in En; [destruct (Hnext n En) as [? E'] | injection En as <-; destruct Ha as [? E']]; by rewrite E' in Hnone.
Qed.
Lemma static_spec r a : statics (Reader.scache r) → (∀ b, Reader.m_last_sinst r = Some b → is_Some (Reader.scache r !! b)) → whole (Reader.icache r) →
  code_range a (sizes a) → has_code mem (Reader.icache r) a (sizes a) →
  ∃ l, statics l ∧ is_Some (l !! a) ∧ ∀ x, Reader.getStaticInstruction a (sizes a) (feed x r) = Ok (a, feed x (Reader.set_scache l (Some a) r)).
Proof.
  intros Hst Hlast Hw (Ha & Hn & Hlt) Hc. assert (Hnew : ∀ l, statics l → is_Some (l !! a) → statics (Reader.link (Reader.m_last_sinst r) a l) ∧ is_Some (Reader.link (Reader.m_last_sinst r) a l !! a)).
  { intros l Hl Hal. split; [by apply statics_link|]. apply not_eq_None_Some. rewrite lookup_link. by apply not_eq_None_Some. }
  destruct (decide (Reader.follower r = Some a)) as [Hf|Hf].
  { assert (is_Some (Reader.scache r !! a)) as Hsome.
    { unfold Reader.follower in Hf. apply bind_Some in Hf as (b & Hb & Hf). apply bind_Some in Hf as (s & Hs & Hf). by destruct (Hst b s Hs) as (_ & _ & _ & Hnext); apply Hnext. }
    exists (Reader.link (Reader.m_last_sinst r) a (Reader.scache r)). destruct (Hnew _ Hst Hsome). split_and!; [done..|]. intros x.
    unfold Reader.getStaticInstruction, mbind, M_bind, gets, id. change (Reader.follower (feed x r)) with (Reader.follower r). by rewrite bool_decide_true. }
  destruct (Reader.scache r !! a) as [s|] eqn:E.
  - exists (Reader.link (Reader.m_last_sinst r) a (Reader.scache r)). destruct (Hnew _ Hst ltac:(eauto)). split_and!; [done..|]. intros x.
    unfold Reader.getStaticInstruction, mbind, M_bind, gets, id. change (Reader.follower (feed x r)) with (Reader.follower r). rewrite bool_decide_false by done.
    change (Reader.scache (feed x r)) with (Reader.scache r). rewrite E. destruct (Hst a s E) as (_ & -> & _). by rewrite Z.eqb_refl.
  - set (l := <[a := Reader.mk_sinst a (sizes a) (code_of a) None]> (Reader.scache r)).
    exists (Reader.link (Reader.m_last_sinst r) a l). destruct (Hnew l) as [? ?]; [by apply statics_insert | unfold l; rewrite lookup_insert_eq; eauto |].
    split_and!; [done..|]. intros x. unfold Reader.getStaticInstruction, mbind, M_bind, gets, id. change (Reader.follower (feed x r)) with (Reader.follower r).
    rewrite bool_decide_false by done. change (Reader.scache (feed x r)) with (Reader.scache r). rewrite E. unfold Reader.staticInfoInstruction.
    rewrite land_offset, land_page by (assert (ICACHE_SIZE = 4096) by done; lia). change (a - a `mod` 4096) with (page_of a). change (a `mod` 4096) with (a `mod` ICACHE_SIZE).
    change (Reader.icache (feed x r)) with (Reader.icache r). rewrite (copy_code_spec mem); [done | done | done | done | assert (ICACHE_SIZE = 4096) by done; lia | done].
Qed.

(** The fields of the first bytes. *)
Lemma simple_fields n k b t : 0 < n < 16 → 0 ≤ k < 4 → let x := simple_byte n k b t in
  0 < x < 256 ∧ Z.land x 0xf ≠ 0 ∧ Reader.field x 0 4 = n ∧ Reader.field x 4 2 = k ∧ Reader.flag x 6 = b ∧ Reader.flag x 7 = t.
Proof.
  intros Hn Hk x. change 0xf with (Z.ones 4). rewrite Z.land_ones by done. unfold Reader.flag, x. unfold simple_byte. rewrite (Z.mod_small n), (Z.mod_small k) by lia.
  destruct b, t; split_and!; unfold Reader.field, bit; try apply Z.eqb_eq; try apply Z.eqb_neq; Z.to_euclidean_division_equations; lia.
Qed.
Lemma ext_fields k b t p e : 0 ≤ k < 4 → let x := k `mod` 4 + 4 * bit b + 8 * bit t + 16 * bit p + 32 * bit e in
  0 ≤ x < 256 ∧ Reader.field x 0 2 = k ∧ Reader.flag x 2 = b ∧ Reader.flag x 3 = t ∧ Reader.flag x 4 = p ∧ Reader.flag x 5 = e.
Proof.
  intros Hk x. unfold Reader.flag, x. rewrite (Z.mod_small k) by lia.
  destruct b, t, p, e; split_and!; unfold Reader.field, bit; try apply Z.eqb_eq; try apply Z.eqb_neq; Z.to_euclidean_division_equations; lia.
Qed.
Lemma ext_size n : 0 < n < 16 → 0 < 16 * (n `mod` 16) < 256 ∧ Z.land (16 * (n `mod` 16)) 0xf = 0 ∧ Reader.field (16 * (n `mod` 16)) 4 4 = n.
Proof. intros. change 0xf with (Z.ones 4). rewrite Z.land_ones, Z.mod_small by lia. unfold Reader.field. split_and!; Z.to_euclidean_division_equations; lia. Qed.
Lemma le_byte x : 0 ≤ x < 256 → [x] = le 1 x.
Proof. intros. cbn. by rewrite u8_small by rlia. Qed.

Definition word_ok (x : Z) : Prop := 0 ≤ x < 2 ^ 64.
Lemma addresses_spec l old : Forall word_ok l → (length l ≤ 2)%nat → length old = 2%nat →
  ∃ l', length l' = 2%nat ∧ take (length l) l' = l ∧
    ∀ rest r x, wps never (Reader.read_addresses 0 (length l) old) (feed (concat (le 8 <$> l) ++ rest) r, x : H) (λ a s, a = l' ∧ s = (feed rest r, x)).
Proof.
  intros Hl Hlen Hold. destruct old as [|o1 [|o2 [|]]]; try done. destruct l as [|a [|b [|]]]; cbn in Hlen; [| | |lia].
  - exists [o1; o2]. split_and!; [done..|]. intros. by cbn.
  - exists [a; o2]. split_and!; [done..|]. intros. cbn [fmap list_fmap concat]. rewrite <- app_assoc. cbn [length Reader.read_addresses].
    wstep. apply wps_word_small; [by inv Hl|]. wstep. by eapply wps_lift_ok.
  - exists [a; b]. split_and!; [done..|]. intros. cbn [fmap list_fmap concat]. rewrite <- !app_assoc. cbn [length Reader.read_addresses].
    inv Hl. word. wstep. eapply wps_lift_ok; [done|]. wstep. apply wps_word_small; [by match goal with H : Forall _ [b] |- _ => inv H end|]. wstep. by eapply wps_lift_ok.
Qed.

Section instruction.
Context (isa addr : Z) (addresses : list Z) (is_branch taken is_predicate executed : bool).
Definition instruction_event : event :=
  EInstruction addr (sizes addr) (code_of addr) addresses (physical addr) (physical <$> addresses) is_branch taken is_predicate executed isa.
Definition is_simple (last : Z) : bool := (addr =? last) && negb is_predicate.
Definition head (last : Z) : bytes :=
  if is_simple last then [simple_byte (sizes addr) (size_of addresses) is_branch taken] else ext_bytes (sizes addr) (size_of addresses) is_branch taken is_predicate executed addr.
Context (Haddr : code_range addr (sizes addr)) (Haddrs : Forall word_ok addresses) (Hlen : size_of addresses ≤ MAX_DYNAMIC_ADDRESSES)
  (Hexec : is_predicate = false → executed = true).
Definition fields_of (inst : Reader.Instruction) : Reader.Instruction :=
  Reader.mk_inst (Reader.sinst inst) (size_of addresses) (Reader.addresses inst) is_branch taken is_predicate executed isa.
(** The reader reads the first bytes of an instruction. *)
Lemma head_spec r : Reader.m_isa r = isa →
  ∃ b l, head (Reader.last_address r) = b :: l ∧ b ≠ 0 ∧ ∃ last, ∀ inst rest x,
  wps never (Reader.read_fields b inst) (feed (head (Reader.last_address r) ++ rest) r, x : H)
    (λ i s, i = (sizes addr, addr, fields_of inst) ∧ s = (feed rest (Reader.set_last_address last r), x) ∧ last = addr).
Proof.
  intros Hisa. destruct Haddr as (Ha & Hn & Hlt). assert (HI : ICACHE_SIZE = 4096) by done.
  assert (Hk : 0 ≤ size_of addresses < 4) by (unfold size_of, MAX_DYNAMIC_ADDRESSES in *; lia). unfold head. destruct (is_simple _) eqn:Es.
  - unfold is_simple in Es. apply andb_true_iff in Es as [El%Z.eqb_eq Ep%negb_true_iff].
    pose proof (simple_fields (sizes addr) (size_of addresses) is_branch taken Hn Hk) as F. cbv zeta in F. set (b := simple_byte _ _ _ _) in *.
    destruct F as (Hb & Hne & F1 & F2 & F3 & F4). exists b, []. split_and!; [done | lia |]. exists addr. intros inst rest x. unfold Reader.read_fields.
    wstep. apply wps_reader. wstep. cbn [Reader.m_isa Reader.set_input]. rewrite Hisa. destruct (Z.eqb_spec (Z.land b 15) 0); [done|]. cbn [negb].
    rewrite le_byte by lia. wstep. apply wps_word_small; [cbn; lia|]. wstep. apply wps_reader. wstep. wstep. rewrite F1, F2, F3, F4. unfold fields_of.
    rewrite Ep, (Hexec Ep). cbn [Reader.last_address Reader.set_input].
    split_and!; [by rewrite <- El | | done]. rewrite El. by destruct r.
  - unfold ext_bytes. destruct (ext_size (sizes addr) Hn) as (Hb & Hz & F1). set (b := 16 * _) in *.
    pose proof (ext_fields (size_of addresses) is_branch taken is_predicate executed Hk) as F. cbv zeta in F. set (c := _ + 32 * _) in *.
    destruct F as (Hc & G1 & G2 & G3 & G4 & G5). eexists b, _. split_and!; [done | lia |]. exists addr. intros inst rest x. unfold Reader.read_fields.
    wstep. apply wps_reader. wstep. cbn [Reader.m_isa Reader.set_input]. rewrite Hisa, Hz. change (negb (0 =? 0)) with false. cbv iota.
    change ((b :: c :: le 8 addr) ++ rest) with ([b] ++ [c] ++ le 8 addr ++ rest). rewrite (le_byte b), (le_byte c) by lia.
    wstep. apply wps_word_small; [cbn; lia|]. wstep. apply wps_word_small; [cbn; lia|]. wstep. apply wps_word_small; [change (2 ^ _) with (2 ^ 64); lia|].
    wstep. apply wps_reader. wstep. wstep. by rewrite F1, G1, G2, G3, G4, G5.
Qed.
Lemma instruction_spec r : Reader.m_isa r = isa → statics (Reader.scache r) → (∀ b, Reader.m_last_sinst r = Some b → is_Some (Reader.scache r !! b)) →
  whole (Reader.icache r) → has_code mem (Reader.icache r) addr (sizes addr) →
  let bs := head (Reader.last_address r) ++ concat (le 8 <$> addresses) in
  ∃ b l sc, bs = b :: l ∧ b ≠ 0 ∧ statics sc ∧ is_Some (sc !! addr) ∧ ∀ inst, two inst → ∃ inst', two inst' ∧
  Reader.sinst inst' = addr ∧ take (Z.to_nat (Reader.num_addresses inst')) (Reader.addresses inst') = addresses ∧
  (Reader.is_branch inst', Reader.taken inst', Reader.is_predicate inst', Reader.executed inst', Reader.isa inst') = (is_branch, taken, is_predicate, executed, isa) ∧
  ∀ rest x, Reader.read_instruction b inst (feed (bs ++ rest) r, x : H) =
    Ok (inst', (feed rest (Reader.set_scache sc (Some addr) (Reader.set_last_address (u64 (addr + sizes addr)) r)), x)).
Proof.
  intros Hisa Hst Hlast Hw Hc bs. destruct (head_spec r Hisa) as (b & l & Hh & Hb & last & Hr).
  destruct (static_spec (Reader.set_last_address (u64 (addr + sizes addr)) r) addr Hst Hlast Hw Haddr Hc) as (sc & Hsc & Hin & Hget).
  assert (Hlen' : (length addresses ≤ 2)%nat) by (unfold size_of, MAX_DYNAMIC_ADDRESSES in Hlen; lia).
  exists b, (l ++ concat (le 8 <$> addresses)), sc. split_and!; [unfold bs; by rewrite Hh | done..|]. intros inst Ht.
  destruct (addresses_spec addresses (Reader.addresses inst)) as (l' & Hl' & Hta & Hra); [done..|].
  assert (Hnum : Z.to_nat (size_of addresses) = length addresses) by (unfold size_of; lia).
  exists (Reader.mk_inst addr (size_of addresses) l' is_branch taken is_predicate executed isa). split_and!; [done | done | by cbn; rewrite Hnum | done |].
  intros rest x. unfold Reader.read_instruction, bs. rewrite <- app_assoc.
  specialize (Hr inst (concat (le 8 <$> addresses) ++ rest) x). apply wps_never in Hr as (i & s & Ei & -> & -> & ->). unfold mbind at 1, M_bind at 1. rewrite Ei. cbv beta iota.
  unfold mbind at 1, M_bind at 1. cbn [Reader.on_reader modify rbind]. unfold mbind at 1, M_bind at 1. unfold fields_of. cbn [Reader.num_addresses Reader.addresses].
  rewrite Hnum. specialize (Hra rest (Reader.set_last_address (u64 (addr + sizes addr)) r) x). apply wps_never in Hra as (i & s & Ei2 & -> & ->).
  change (Reader.set_last_address _ (feed (concat (le 8 <$> addresses) ++ rest) _)) with (feed (concat (le 8 <$> addresses) ++ rest) (Reader.set_last_address (u64 (addr + sizes addr)) r)).
  rewrite Ei2. cbv beta iota. unfold mbind, M_bind, Reader.on_reader. by rewrite Hget.
Qed.
(** The record of the instruction. *)
Definition record_part (last : Z) : M Writer.t unit :=
  (if is_simple last then Writer.write [[simple_byte (sizes addr) (size_of addresses) is_branch taken]]
   else Writer.write [ext_bytes (sizes addr) (size_of addresses) is_branch taken is_predicate executed addr];; modify (Writer.set_last_address addr));;
  Writer.write (le 8 <$> addresses);;
  modify (λ w, Writer.set_counts (Writer.count (sizes addr) (size_of addresses) is_branch is_predicate (is_simple last) (Writer.counts w))
    (Writer.set_last_address (u64 (Writer.last_address w + sizes addr)) w)).
Lemma record_part_writes last w o : Writer.last_address w = last → Writer.output w = Some o →
  ∃ c, record_part last w = Ok (tt, Writer.set_counts c (Writer.set_last_address (u64 (addr + sizes addr)) (Writer.set_output (Some (o ++ head last ++ concat (le 8 <$> addresses))) w))).
Proof.
  intros Hl Ho. unfold record_part, head, Writer.write, mbind, M_bind, gets, modify. destruct (is_simple last) eqn:Es.
  - rewrite Ho. cbn [Writer.output Writer.set_output concat]. rewrite app_nil_r, <- app_assoc. eexists. cbn [Writer.last_address Writer.set_output Writer.counts]. 
    unfold is_simple in Es. apply andb_true_iff in Es as [El%Z.eqb_eq _]. rewrite Hl, <- El. reflexivity.
  - rewrite Ho. cbn [Writer.output Writer.set_output Writer.set_last_address concat]. rewrite app_nil_r, <- app_assoc. eexists. reflexivity.
Qed.
Lemma va2pa_known w r va V : sync isa w r → (send = true → Forall (λ va, Reader.vcache r !! (va `div` PAGE_SIZE_SIFT) = frame_of (va `div` PAGE_SIZE_SIFT)) V) →
  va ∈ V → Reader.va2pa r va = physical va.
Proof.
  intros Hs HV Hin. unfold Reader.va2pa, physical. rewrite (y_pa _ _ _ Hs). destruct send; [|done].
  by rewrite (proj1 (Forall_forall _ _) (HV eq_refl) va Hin).
Qed.
Lemma relays_record_part last V : (∀ va, va = addr ∨ va ∈ addresses → va ∈ V) →
  relays (knows isa last [(addr, sizes addr)] V) (record_part last) [instruction_event] (sync isa).
Proof.
  intros HV w r o (Hs & HL & HK & Hkv) Ho. apply Forall_cons in HK as [HK _]. cbn in HK.
  destruct (record_part_writes last w o HL Ho) as (c & E). pose proof (y_last _ _ _ Hs) as Hlast. rewrite HL in Hlast.
  assert (Hpa : ∀ va, va = addr ∨ va ∈ addresses → Reader.va2pa r va = physical va) by (intros va ?; eapply va2pa_known; eauto).
  destruct (instruction_spec r (y_isa _ _ _ Hs) (y_scache _ _ _ Hs) (y_inst _ _ _ Hs) (y_whole _ _ _ Hs) HK) as (b & l & sc & Hbs & Hb & Hsc & (s & Hin) & Hread).
  rewrite Hlast in Hbs, Hread. set (bs := head last ++ concat (le 8 <$> addresses)) in *.
  eexists _, bs, (Reader.set_scache sc (Some addr) (Reader.set_last_address (u64 (addr + sizes addr)) r)). split_and!; [exact E | done | |].
  - destruct Hs. split; try done. cbn. by intros ? [= <-].
  - intros rest inst x Ht. destruct (Hread inst Ht) as (inst' & Ht' & Hsi & Hta & Hf & Hr). exists inst'. split; [done|]. injection Hf as F1 F2 F3 F4 F5.
    apply rtc_once. split_and!; [| apply (y_end _ _ _ Hs) | done | done |].
    + unfold remaining. cbn. rewrite length_app, Hbs. cbn. lia.
    + right. eexists. split.
      * unfold Reader.read_record, mbind, M_bind. cbn [fst snd]. specialize (Hr rest x). rewrite Hbs in *. cbn [app] in *. rewrite peek_feed. cbv beta iota.
        destruct (Z.eqb_spec b 0); [done|]. by rewrite Hr.
      * cbn [fst snd]. unfold deliver. cbn [Reader.scache Reader.set_scache Reader.set_input]. rewrite Hsi, Hin. destruct (Hsc _ _ Hin) as (-> & -> & -> & _). rewrite Hta, F1, F2, F3, F4, F5.
        unfold see. cbn [foldl]. unfold flip, instruction_event.
        assert (Hva : ∀ va, Reader.va2pa (feed rest (Reader.set_scache sc (Some addr) (Reader.set_last_address (u64 (addr + sizes addr)) r))) va = Reader.va2pa r va) by done.
        rewrite Hva, Hpa by by left. do 5 f_equal. apply list_fmap_ext. intros i va Hi. rewrite Hva. apply Hpa. right. by eapply list_elem_of_lookup_2.
Qed.
End instruction.

(** ** Sequences of calls *)
Definition perform : call → M Writer.t unit := perform_on the_host.
Fixpoint performs (cs : list call) : M Writer.t unit := match cs with [] => mret tt | c :: cs => perform c;; performs cs end.

Definition c_string (name : bytes) : Prop := size_of name + 1 < 2 ^ 16.
(** What the writer is given: values in the ranges of their types; instructions of at least a
    byte, the same size each time, that are executed if they have no predicate; no empty output. *)
Definition call_ok (c : call) : Prop :=
  match c with
  | Instruction addr size addresses is_branch taken is_predicate executed =>
      size = sizes addr ∧ code_range addr size ∧ Forall word_ok addresses ∧ size_of addresses ≤ MAX_DYNAMIC_ADDRESSES ∧ (is_predicate = false → executed = true)
  | CacheOnly icount type eip address => in_u8 icount ∧ in_u8 type ∧ word_ok eip ∧ word_ok address
  | Output fd data => in_u8 fd ∧ 0 < size_of data < 2 ^ 32 - 1
  | RoutineChange event eip esp callEip => in_u8 event ∧ word_ok eip ∧ word_ok esp ∧ word_ok callEip
  | RoutineAnnounce eip name imgname offset line column filename =>
      word_ok eip ∧ c_string name ∧ c_string imgname ∧ word_ok offset ∧ in_u32 line ∧ in_u32 column ∧ c_string filename
  | ISAChange new_isa => in_u32 new_isa
  end.
Definition shown (isa : Z) (c : call) : list event :=
  match c with
  | Instruction addr size addresses is_branch taken is_predicate executed => [instruction_event isa addr addresses is_branch taken is_predicate executed]
  | CacheOnly icount type eip address => [ECacheOnly icount type eip address]
  | Output fd data => [EOutput fd data]
  | RoutineChange event eip esp callEip => [ERoutineChange event eip esp callEip]
  | RoutineAnnounce eip name imgname offset line column filename =>
      [ERoutineAnnounce eip (name ++ [0]) (imgname ++ [0]) offset line column (filename ++ [0])]
  | ISAChange _ => []
  end.
Definition isa_after (isa : Z) (c : call) : Z := match c with ISAChange new_isa => s32 new_isa | _ => isa end.
Fixpoint all_shown (isa : Z) (cs : list call) : list event :=
  match cs with [] => [] | c :: cs => shown isa c ++ all_shown (isa_after isa c) cs end.

Lemma relays_instruction isa addr size addresses b t p e : call_ok (Instruction addr size addresses b t p e) →
  relays (sync isa) (Writer.Instruction the_host addr size addresses b t p e) [instruction_event isa addr addresses b t p e] (sync isa).
Proof.
  intros (-> & Hr & Has & Hlen & Hpe). apply relays_points. intros w r Hs. pose proof Hr as (Ha & Hn & Hlt). assert (HI : ICACHE_SIZE = 4096) by done.
  set (ev := instruction_event isa addr addresses b t p e). set (L := Writer.last_address w).
  assert (Hall : relays (knows isa L [] []) (code_part addr (sizes addr);; Writer.send_va2pa the_host addr;; Writer.send_va2pas the_host addresses;; record_part addr addresses b t p e L) [ev] (sync isa)).
  { apply (relays_seq sees uninit_byte hs _ _ [] (knows isa L [(addr, sizes addr)] []) _ [ev]); [by apply relays_code_part|].
    apply (relays_seq sees uninit_byte hs _ _ [] (knows isa L [(addr, sizes addr)] [addr]) _ [ev]); [apply relays_va2pa; lia|].
    apply (relays_seq sees uninit_byte hs _ _ [] (knows isa L [(addr, sizes addr)] (reverse addresses ++ [addr])) _ [ev]); [by apply relays_va2pas|].
    apply relays_record_part; [done..|]. intros va. rewrite elem_of_app, elem_of_reverse, list_elem_of_singleton. naive_solver. }
  intros w0 r0 o [-> ->]. eapply (relays_at_eq _ _ _ _ _ _ (λ w0, (code_part addr (sizes addr);; Writer.send_va2pa the_host addr;; Writer.send_va2pas the_host addresses;;
    record_part addr addresses b t p e L) w0)); [|intros ? ? o' [-> ->]; by apply Hall | done].
  unfold Writer.Instruction, mbind at 1 2 3, M_bind at 1 2 3, assert_, gets at 1, id. destruct (Z.ltb_spec (sizes addr) 16); [|lia]. destruct (Z.leb_spec (size_of addresses) MAX_DYNAMIC_ADDRESSES); [|lia].
    cbn [lift check]. by rewrite (y_open _ _ _ Hs), (y_per_insn _ _ _ Hs).
Qed.
Lemma if_open_eq isa w r (m : M Writer.t unit) : sync isa w r → Writer.if_open m w = m w.
Proof. intros Hs. unfold Writer.if_open, mbind, M_bind, gets. by rewrite (y_open _ _ _ Hs). Qed.
(** Records that say something about the program, and leave the reader as it was. *)
Lemma shows_see ls r e : (∀ rest x, wps never (Reader.read_other_record uninit_byte hs) (feed (concat ls ++ rest) r, x) (λ b s, b = false ∧ s = (feed rest r, sees e x))) →
  shows sees uninit_byte hs ls r r [e].
Proof. intros Hr rest x. eapply wps_mono; [apply Hr|]. naive_solver. Qed.
Lemma relays_told isa m ls l es : (∀ w r, sync isa w r → m w = Writer.write ls w) → concat ls = 0 :: l →
  (∀ r, shows sees uninit_byte hs ls r r es) → relays (sync isa) m es (sync isa).
Proof.
  intros Hm Hl Hsh. apply relays_points. intros w r Hs. eapply relays_at_eq; [by eapply Hm|]. eapply relays_write; [apply (y_end _ _ _ Hs) | done | apply Hsh |].
  intros o. by destruct Hs.
Qed.
Lemma relays_cache_only isa icount type eip address : call_ok (CacheOnly icount type eip address) →
  relays (sync isa) (Writer.CacheOnly the_host icount type eip address) [ECacheOnly icount type eip address] (sync isa).
Proof.
  intros (Hi & Ht & He & Ha). set (ev := ECacheOnly icount type eip address). apply relays_points. intros w r Hs. set (L := Writer.last_address w).
  set (ls := [other RecOtherCacheOnly 18; le 1 icount; le 1 type; le 8 eip; le 8 address]).
  assert (Hall : relays (knows isa L [] []) (Writer.send_va2pa the_host eip;; Writer.send_va2pa the_host address;; Writer.write ls) [ev] (sync isa)).
  { apply (relays_seq sees uninit_byte hs _ _ [] (knows isa L [] [eip]) _ [ev]); [by apply relays_va2pa|].
    apply (relays_seq sees uninit_byte hs _ _ [] (knows isa L [] [address; eip]) _ [ev]); [by apply relays_va2pa|].
    apply (relays_pre sees uninit_byte hs _ (sync isa)); [by intros ? ? []|]. eapply relays_told; [done | reflexivity |]. intros r0. apply shows_see. intros rest x. unfold ls. record. unfold Reader.read_cache_only. wstep. wstep; [|done].
    word. word. word. word.
    unfold Reader.may. by rewrite (p_cache_only _ _ Hpass). }
  intros ? ? o' [-> ->]. eapply (relays_at_eq _ _ _ _ _ _ (λ w0, (Writer.send_va2pa the_host eip;; Writer.send_va2pa the_host address;; Writer.write ls) w0)); [|intros ? ? o0 [-> ->]; by apply Hall | done].
  by eapply if_open_eq.
Qed.
Lemma relays_output isa fd data : call_ok (Output fd data) → relays (sync isa) (Writer.Output fd data) [EOutput fd data] (sync isa).
Proof.
  intros (Hf & Hd). eapply relays_told; [intros; by eapply if_open_eq | reflexivity |]. intros r0. apply shows_see. intros rest x. rewrite u32_small by rlia.
  record; [lia|]. unfold Reader.read_output. wstep. destruct (Z.ltb_spec 1 (1 + size_of data)); [|lia]. wstep; [|done].
  word. wstep. apply wps_bytes; [lia|]. unfold Reader.may. by rewrite (p_output _ _ Hpass).
Qed.
Lemma relays_routine_change isa e eip esp callEip : call_ok (RoutineChange e eip esp callEip) →
  relays (sync isa) (Writer.RoutineChange e eip esp callEip) [ERoutineChange e eip esp callEip] (sync isa).
Proof.
  intros (He & Hi & Hs & Hc). eapply relays_told; [intros; by eapply if_open_eq | reflexivity |]. intros r0. apply shows_see. intros rest x. record. unfold Reader.read_routine_change. wstep. wstep; [|done].
  word. word. word. word.
  unfold Reader.may. by rewrite (p_change _ _ Hpass).
Qed.
Lemma text_string name : c_string name → Writer.text name = name ++ [0] ∧ size_of (name ++ [0]) = Writer.len name ∧ 0 ≤ Writer.len name < 2 ^ 16.
Proof.
  unfold c_string, Writer.text, Writer.len, u16, size_of. intros Hn. rewrite Z.mod_small by lia. rewrite length_app. cbn [length]. split_and!; [|lia..].
  apply take_ge. rewrite length_app. cbn. lia.
Qed.
Lemma relays_routine_announce isa eip name imgname offset line column filename : call_ok (RoutineAnnounce eip name imgname offset line column filename) →
  relays (sync isa) (Writer.RoutineAnnounce eip name imgname offset line column filename)
    [ERoutineAnnounce eip (name ++ [0]) (imgname ++ [0]) offset line column (filename ++ [0])] (sync isa).
Proof.
  intros (He & Hn & Hi & Ho & Hl & Hc & Hf). destruct (text_string name Hn) as (En & Sn & Rn). destruct (text_string imgname Hi) as (Ei & Si & Ri). destruct (text_string filename Hf) as (Ef & Sf & Rf).
  eapply relays_told; [intros; by eapply if_open_eq | reflexivity |]. intros r0. apply shows_see. intros rest x. cbn [concat]. rewrite En, Ei, Ef.
  clear En Ei Ef. revert Sn Si Sf. generalize (name ++ [0]) (imgname ++ [0]) (filename ++ [0]). intros N I F Sn Si Sf.
  record; [lia|]. unfold Reader.read_routine_announce.
  word. word. wstep. apply wps_bytes; [done|]. word. wstep. apply wps_bytes; [done|].
  word. word. word. word. wstep. apply wps_bytes; [done|].
  unfold Reader.may. by rewrite (p_announce _ _ Hpass).
Qed.
Lemma relays_isa_change isa new_isa : call_ok (ISAChange new_isa) → relays (sync isa) (Writer.ISAChange new_isa) [] (sync (s32 new_isa)).
Proof.
  intros Hi. apply relays_points. intros w r Hs. eapply relays_at_eq; [by eapply if_open_eq|].
  eapply (relays_write _ _ _ _ _ (Reader.set_isa (s32 new_isa) r)); [apply (y_end _ _ _ Hs) | reflexivity | | intros o; by destruct Hs].
  intros rest x. record. unfold Reader.read_isa_change. wstep. wstep; [|done].
  word. apply wps_reader. wstep. by wstep.
Qed.
Lemma relays_call isa c : call_ok c → relays (sync isa) (perform c) (shown isa c) (sync (isa_after isa c)).
Proof.
  intros Hc. destruct c; unfold perform; cbn [perform_on shown isa_after];
    eauto using relays_instruction, relays_cache_only, relays_output, relays_routine_change, relays_routine_announce, relays_isa_change.
Qed.
Lemma relays_calls isa cs : Forall call_ok cs → ∃ isa', relays (sync isa) (performs cs) (all_shown isa cs) (sync isa').
Proof.
  intros Hcs. revert isa. induction Hcs as [|c cs Hc Hcs IH]; intros isa; cbn [performs all_shown]; [exists isa; by apply relays_skip|].
  destruct (IH (isa_after isa c)) as (isa' & Hr). exists isa'. eapply relays_seq; [by apply relays_call | done].
Qed.

(** ** The whole trace *)
Definition opened (file rest : bytes) : Reader.t := Reader.set_trace_has_pa send (feed rest (Reader.new file rf')).
Lemma open_sync arch32 file rest : sync 0 (Writer.new rf arch32 per_insn send) (opened file rest).
Proof. by split. Qed.
Lemma open_spec arch32 : ∃ header, Writer.output (Writer.new rf arch32 per_insn send) = Some header ∧
  ∀ rest, Reader.initStream (Reader.new (header ++ rest) rf') = Ok (true, opened (header ++ rest) rest).
Proof.
  eexists. split; [done|]. intros rest. unfold opened. rewrite <- !app_assoc. set (options := Z.lor _ _).
  assert (Hread : ∀ n v rest r, Reader.from_input (read_uint n) (feed (le n v ++ rest) r) = Ok (v `mod` 2 ^ (8 * Z.of_nat n), feed rest r)).
  { intros. unfold Reader.from_input. cbn [Reader.input Reader.set_input]. by rewrite read_uint_le. }
  unfold Reader.initStream. unfold mbind, M_bind, modify. cbn [Reader.file Reader.new].
  match goal with |- context [Reader.new ?f rf'] => set (file := f) end. assert (Hfile : file = le 4 MagicNumber ++ le 4 0 ++ le 8 options ++ rest) by done. clearbody file.
  assert (H1 := Hread 4%nat MagicNumber (le 4 0 ++ le 8 options ++ rest) (Reader.new file rf')). rewrite <- Hfile in H1. rewrite H1, !Hread. unfold options. by destruct arch32, per_insn, send.
Qed.
Lemma End_spec w o : Writer.output w = Some o → ∃ w', Writer.End w = Ok (o ++ other RecOtherEnd 0, w').
Proof. intros Ho. unfold Writer.End, mbind, M_bind, gets, Writer.is_open, Writer.write. rewrite Ho. cbn. unfold mbind, M_bind, gets. rewrite Ho. by eexists. Qed.
Lemma End_read inst r x : Reader.read_record uninit_byte hs inst (feed (other RecOtherEnd 0) r, x : H) = Ok ((Reader.Return false, inst), (Reader.set_seen_end true (feed [] r), x)).
Proof. done. Qed.
(** [C31] A trace is read as it was written, for every sequence of calls that the format can say
    ([call_ok]): instructions of 1 to 15 bytes that are the same size whenever they are at the
    same address, not on the last page of memory, with at most two data addresses, and executed
    if they have no predicate; output of at least a byte, names below 64 KB, all values in the
    ranges of their types. The reader delivers the same instructions in the same order, each
    with its address, its size, the bytes of its code, its data addresses, the physical
    addresses of all of these and its flags, passes on the same other calls in between, and then
    reports the end. ([SiftExamples] has what happens otherwise.) *)
Theorem sift_roundtrip arch32 cs : Forall call_ok cs → ∃ w file, (performs cs;; Writer.End) (Writer.new rf arch32 per_insn send) = Ok (file, w) ∧
  ∀ fuel inst x, (length file < fuel)%nat → two inst →
  ∃ r, run sees uninit_byte hs fuel inst (Reader.new file rf', x) = Ok (tt, (r, foldl (flip sees) x (all_shown 0 cs))).
Proof.
  intros Hcs. destruct (open_spec arch32) as (header & Eo & Hopen). destruct (relays_calls 0 cs Hcs) as (isa & Hr).
  set (w0 := Writer.new rf arch32 per_insn send) in *.
  destruct (Hr w0 (opened [] []) header (open_sync _ _ _) Eo) as (w & bs & r0 & Ew & Eow & _ & _).
  destruct (End_spec w _ Eow) as (w' & Ee). exists w', ((header ++ bs) ++ other RecOtherEnd 0). split; [unfold mbind, M_bind; by rewrite Ew|].
  intros fuel inst x Hfuel Ht. set (file := (header ++ bs) ++ other RecOtherEnd 0) in *.
  destruct (Hr w0 (opened file []) header (open_sync _ _ _) Eo) as (w2 & bs2 & r1 & Ew2 & Eow2 & Hs1 & Hrounds).
  assert (bs2 = bs) as ->. { rewrite Ew in Ew2. injection Ew2 as <-. rewrite Eow in Eow2. injection Eow2 as E. by apply app_inv_head in E. }
  destruct (Hrounds (other RecOtherEnd 0) inst x Ht) as (inst' & Ht' & HR). clear Hrounds.
  set (y := foldl (flip sees) x (all_shown 0 cs)) in *. exists (Reader.set_seen_end true (feed [] r1)).
  destruct fuel as [|n]; [lia|]. assert (Hfile : file = header ++ bs ++ other RecOtherEnd 0) by (unfold file; by rewrite app_assoc).
  transitivity (run sees uninit_byte hs (S n) inst (feed (bs ++ other RecOtherEnd 0) (opened file []), x)).
  { rewrite !run_S. by rewrite (Read_first uninit_byte hs inst (Reader.new file rf') (opened file (bs ++ other RecOtherEnd 0))) by (rewrite ?Hfile; done || apply Hopen). }
  apply (run_rounds sees uninit_byte hs (inst, (feed (bs ++ other RecOtherEnd 0) (opened file []), x)) (inst', (feed (other RecOtherEnd 0) r1, y))); [done | | ].
  - intros m Hm. destruct m as [|m]; [lia|]. cbn [fst snd]. rewrite run_S, Read_open by done. cbn [Reader.read_loop]. unfold mbind at 1, M_bind at 1, Reader.on_reader at 1, gets at 1. cbn [rbind].
    change (Reader.m_seen_end (feed _ r1)) with (Reader.m_seen_end r1). rewrite (y_end _ _ _ Hs1). unfold mbind, M_bind. by rewrite End_read.
  - cbn [fst snd]. unfold remaining. cbn. rewrite Hfile, !length_app in Hfuel. rewrite length_app. cbn in *. lia.
Qed.
End trace.
