(* ===== verification/SiftSession.v ===== *)
(** A program that is simulated while it runs: [Sift.Writer] and [Sift.Reader] at the two ends of a
    pair of pipes.

    Calls that wait go through the pipes to a handler of the simulator, the answer back; while the
    program waits, the handler may read and write its memory, again through the pipes - if the call
    is one in whose loop the program serves that.  The theorem says that none of this can be told
    from handlers that are called, and access the memory, directly. *)
From stdpp Require Import relations.
From S2P Require Import Prelude StateResult Sift SiftTrace.

(** Calls that wait. *)
Inductive request :=
  | InstructionCount (icount : Z) | Syscall (syscall_number : Z) (data : bytes) | NewThread | Join (thread : Z) | Sync
  | Magic (a b c : Z) | Emulate (type : Z) (req res : bytes) | Fork.

(** What a handler does: it looks at the state of the simulator, changes it, accesses the memory of
    the program, and answers.  The memory it knows by accesses only. *)
Inductive handler (S A : Type) :=
  | Answer (a : A)
  | Look (k : S → handler S A)
  | Change (s : S) (k : handler S A)
  | Access (lock_signal mem_op d_addr : Z) (data_buffer : bytes) (k : option bytes → handler S A).
Arguments Answer {S A} _.
Arguments Look {S A} _.
Arguments Change {S A} _ _.
Arguments Access {S A} _ _ _ _ _.
(** The handlers of a simulator for the calls that wait. *)
Record simulator (S : Type) := {
  on_icount : Z → handler S Z;
  on_syscall : Z → bytes → handler S Z;
  on_new_thread : handler S Z;
  on_fork : handler S Z;
  on_join : Z → handler S Z;
  on_magic : Z → Z → Z → handler S Z;
  on_emu : Z → bytes → bytes → handler S (bool * bytes);
}.
Arguments on_icount {S} _ _.
Arguments on_syscall {S} _ _ _.
Arguments on_new_thread {S} _.
Arguments on_fork {S} _.
Arguments on_join {S} _ _.
Arguments on_magic {S} _ _ _ _.
Arguments on_emu {S} _ _ _ _.

Section session.
(** The memory of the program, and the state of the simulator. *)
Context {Memory State : Type} (uninit_byte : Z) (mem_access : Z → Z → Z → bytes → Memory → bytes * Memory).
(** What the simulator does with what it is told, and with what it is asked. *)
Context (see_it : event → State → State) (sim : simulator State).
(** Its code, and its page table. *)
Context (mem : Z → Z) (pm : Z → option Z).
Abbreviation h := (the_host mem pm).
(** The program is in a call that waits, or in none. *)
Abbreviation V := (Memory * State)%type.
Abbreviation W := (option request * V)%type.
Abbreviation St := (Reader.t * (Writer.t * W))%type.
Definition access (lock type addr : Z) (buffer : bytes) (x : V) : bytes * V := let '(data, m) := mem_access lock type addr buffer x.1 in (data, (m, x.2)).
Definition sees (e : event) (x : V) : V := (x.1, see_it e x.2).
Definition accessMemory : option (Z → Z → Z → bytes → M W bytes) :=
  Some (λ lock type addr buffer '(q, x), let '(data, x) := access lock type addr buffer x in Ok (data, (q, x))).
Definition on_host {A} (m : M (Writer.t * W) A) : M St A := λ '(r, y), let! (a, y) := m y in Ok (a, (r, y)).
Definition on_program {A} (m : M Writer.t A) : M St A := on_host (Writer.on_writer m).

(** ** The pipes *)
Definition to_reader : M St unit := λ '(r, (w, x)),
  match Writer.output w, Reader.input r with
  | Some o, Some l => Ok (tt, (feed (l ++ o) r, (Writer.set_output (Some []) w, x)))
  | _, _ => Err NullPointer
  end.
Definition to_writer : M St unit := λ '(r, (w, x)),
  Ok (tt, (Reader.set_response [] r, (Writer.set_response (Writer.response w ++ Reader.response r) w, x))).

(** ** Calls that wait *)
Definition send (q : request) : M Writer.t bool :=
  match q with
  | InstructionCount icount => Writer.InstructionCount_send icount
  | Syscall n data => Writer.Syscall_send h n data
  | NewThread => Writer.NewThread_send
  | Join thread => Writer.Join_send thread
  | Sync => Writer.Sync_send
  | Magic a b c => Writer.Magic_send a b c
  | Emulate type req _ => Writer.Emulate_send type req
  | Fork => Writer.Fork_send
  end.
Definition once (m : M Writer.t Z) : M (Writer.t * W) (option (Z * bytes)) := r ← Writer.on_writer m; mret (Some (r, [])).
Definition wait (q : request) : M (Writer.t * W) (option (Z * bytes)) :=
  match q with
  | InstructionCount _ => once Writer.InstructionCount_recv
  | Syscall _ _ => Writer.Syscall_round accessMemory
  | NewThread => once Writer.NewThread_recv
  | Join _ => once Writer.Join_recv
  | Sync => Writer.Sync_round accessMemory
  | Magic _ _ _ => Writer.Magic_round accessMemory
  | Emulate _ _ res => Writer.Emulate_round accessMemory res
  | Fork => once Writer.Fork_recv
  end.
(** The calls in whose loop the program serves requests for its memory. *)
Definition serves_memory (q : request) : bool := match q with Syscall _ _ | Sync | Magic _ _ _ | Emulate _ _ _ => true | _ => false end.

(** ** The simulator
    [AccessMemory]: what the program does with the request is up to the call that it is in. *)
Definition AccessMemory (lock_signal mem_op d_addr : Z) (data_buffer : bytes) : M St (option bytes) :=
  sent ← Reader.on_reader (Reader.AccessMemory_request lock_signal mem_op d_addr data_buffer);
  if negb sent then mret None
  else
    to_writer;; q ← gets (λ s : St, s.2.2.1);
    o ← on_host (match q with Some q => wait q | None => fail Diverges end);
    match o with
    | Some _ => fail Diverges
    | None => to_reader;; Reader.on_reader (Reader.AccessMemory_response mem_op d_addr data_buffer)
    end.
Fixpoint handle {A} (p : handler State A) : M St A :=
  match p with
  | Answer a => mret a
  | Look k => s ← gets (λ s : St, s.2.2.2.2); handle (k s)
  | Change s' k => modify (λ '(r, (w, (q, (m, _)))), (r, (w, (q, (m, s')))));; handle k
  | Access lock op addr buffer k => o ← AccessMemory lock op addr buffer; handle (k o)
  end.
Definition client : event → Writer.t * W → Writer.t * W := λ e '(w, (q, x)), (w, (q, sees e x)).
(** The callbacks of the reader, as the constructor of [TraceThread] sets them where output is
    mirrored and routines are traced. *)
Definition hs : Reader.handlers (Writer.t * W) :=
  let tell := see client in
  {| Reader.handleInstructionCountFunc := Some (λ n, handle (on_icount sim n));
     Reader.handleCacheOnlyFunc := Some (λ icount type eip address, tell (ECacheOnly icount type eip address));
     Reader.handleOutputFunc := Some (λ fd data, tell (EOutput fd data));
     Reader.handleSyscallFunc := Some (λ n data, handle (on_syscall sim n data));
     Reader.handleNewThreadFunc := Some (handle (on_new_thread sim));
     Reader.handleForkFunc := Some (handle (on_fork sim));
     Reader.handleJoinFunc := Some (λ t, handle (on_join sim t));
     Reader.handleMagicFunc := Some (λ a b c, handle (on_magic sim a b c));
     Reader.handleEmuFunc := Some (λ type req res, handle (on_emu sim type req res));
     Reader.handleRoutineChangeFunc := Some (λ e eip esp call, tell (ERoutineChange e eip esp call));
     Reader.handleRoutineAnnounceFunc := Some (λ eip name img offset line column file, tell (ERoutineAnnounce eip name img offset line column file)) |}.
Lemma handlers_pass : passes_on client hs.
Proof. by split. Qed.
(** The loop around [Read], as far as the trace goes. *)
Fixpoint drain (fuel : nat) (inst : Reader.Instruction) : M St Reader.Instruction :=
  n ← gets (λ s : St, remaining s.1);
  if (n =? 0)%nat then mret inst
  else
    match fuel with
    | O => fail NoFuel
    | S fuel =>
        '(o, inst) ← Reader.read_record uninit_byte hs inst;
        match o with
        | Reader.Again => drain fuel inst
        | Reader.Return true => deliver client inst;; drain fuel inst
        | Reader.Return false => mret inst
        end
    end.
Definition read_on (inst : Reader.Instruction) : M St Reader.Instruction := to_reader;; n ← gets (λ s : St, remaining s.1); drain n inst.

(** The answer of a trace that is closed. *)
Definition closed (q : request) : Z * bytes :=
  match q with
  | NewThread | Join _ | Fork => (-1, []) | Syscall _ _ | Magic _ _ _ => (1, []) | Emulate _ _ res => (0, res) | _ => (ModeUnknown, [])
  end.
Definition in_call (o : option request) : St → St := λ '(r, (w, (_, x))), (r, (w, (o, x))).
Definition ask (q : request) (inst : Reader.Instruction) : M St (Reader.Instruction * (Z * bytes)) :=
  sent ← on_program (send q);
  if negb sent then mret (inst, closed q)
  else
    modify (in_call (Some q));; inst ← read_on inst; to_writer;; o ← on_host (wait q);
    match o with Some a => modify (in_call None);; mret (inst, a) | None => fail Diverges end.
(** A program: what it tells and what it asks; the answers. *)
Fixpoint session (cs : list (call + request)) (inst : Reader.Instruction) : M St (Reader.Instruction * list (Z * bytes)) :=
  match cs with
  | [] => mret (inst, [])
  | inl c :: cs => on_program (perform_on h c);; inst ← read_on inst; session cs inst
  | inr q :: cs => '(inst, a) ← ask q inst; '(inst, l) ← session cs inst; mret (inst, a :: l)
  end.

(** ** Handlers as functions

    [runs q]: in the call [q] of the program, the pipes empty, a handler does to the memory of the
    program and the state of the simulator what a function does, and leaves all else as it was. *)
Record idle (r : Reader.t) (w : Writer.t) : Prop := {
  i_input : Reader.input r = Some [];
  i_output : Writer.output w = Some [];
  i_answers : Reader.response r = [];
  i_response : Writer.response w = [];
  i_file : Reader.m_response_filename r = true;
  i_file' : Writer.m_response_filename w = true;
}.
Definition runs {A} (q : request) (m : M St A) (f : V → A * V) : Prop :=
  ∀ r w x, idle r w → m (r, (w, (Some q, x))) = Ok ((f x).1, (r, (w, (Some q, (f x).2)))).

(** *** Memory *)
Lemma wps_program {A} E (m : M Writer.t A) w (x : W) Q : wps E m w (λ a w, Q a (w, x)) → wps E (Writer.on_writer m) (w, x) Q.
Proof. unfold wps, Writer.on_writer. by destruct (m w) as [[a w']|]. Qed.
Abbreviation answered l w := (Writer.set_response l w).
Lemma wps_answer_word E n v rest w Q : 0 ≤ v < 2 ^ (8 * Z.of_nat n) → Q v (answered rest w) → wps E (Writer.from_response (read_uint n)) (answered (le n v ++ rest) w) Q.
Proof. intros Hv HQ. unfold wps, Writer.from_response. cbn [Writer.response Writer.set_response]. by rewrite read_uint_le, Z.mod_small. Qed.
Lemma wps_answer_bytes E n l rest w Q : size_of l = n → Q l (answered rest w) → wps E (Writer.from_response (read n)) (answered (l ++ rest) w) Q.
Proof. intros Hn HQ. unfold wps, Writer.from_response. cbn [Writer.response Writer.set_response]. by rewrite read_app. Qed.
Lemma from_response_le n v rest w : Writer.from_response (read_uint n) (answered (le n v ++ rest) w) = Ok (v `mod` 2 ^ (8 * Z.of_nat n), answered rest w).
Proof. unfold Writer.from_response. cbn [Writer.response Writer.set_response]. by rewrite read_uint_le. Qed.
Lemma read_other_head ty n rest : 0 ≤ n < 2 ^ 32 → read_other (other ty n ++ rest) = Ok ((0, code ty, n), rest).
Proof.
  intros Hn. unfold read_other, mbind, M_bind. change (other ty n ++ rest) with (le 1 0 ++ (code ty :: le 4 n) ++ rest). rewrite read_uint_le. cbv beta iota.
  replace ((code ty :: le 4 n) ++ rest) with (le 1 (code ty) ++ le 4 n ++ rest) by by destruct ty. rewrite read_uint_le. cbv beta iota. rewrite read_uint_le.
  cbn. rewrite (Z.mod_small n) by done. by destruct ty.
Qed.
Lemma from_response_head ty n rest w : 0 ≤ n < 2 ^ 32 → Writer.from_response read_other (answered (other ty n ++ rest) w) = Ok ((0, code ty, n), answered rest w).
Proof. intros. unfold Writer.from_response. cbn [Writer.response Writer.set_response]. by rewrite read_other_head. Qed.
(** A loop in which the program serves requests for memory. *)
Definition serves (m : M (Writer.t * W) (option (Z * bytes))) : Prop := ∀ n rest w x, 0 ≤ n < 2 ^ 32 →
  m (answered (other RecOtherMemoryRequest n ++ rest) w, x) = (Writer.handleMemoryRequest accessMemory n;; mret None) (answered rest w, x).
Lemma round_serves o : serves (Writer.round accessMemory o).
Proof. intros n rest w x Hn. unfold Writer.round, mbind at 1, M_bind at 1, Writer.on_writer at 1. by rewrite from_response_head. Qed.
Lemma Sync_serves : serves (Writer.Sync_round accessMemory).
Proof. intros n rest w x Hn. unfold Writer.Sync_round, mbind at 1, M_bind at 1, Writer.on_writer at 1. by rewrite from_response_head. Qed.
Ltac answer_word := wstep; apply wps_program, wps_answer_word; [try done|].
(** What the program does with a request. *)
Lemma serves_access lock op addr buffer w q x :
  0 ≤ lock < 2 ^ 32 → op = MemRead ∨ op = MemWrite → 0 ≤ addr < 2 ^ 64 → 0 < size_of buffer < 2 ^ 32 - 20 → Writer.output w = Some [] →
  let n := if op =? MemWrite then 20 + size_of buffer else 20 in
  let given := if op =? MemWrite then buffer else replicate (length buffer) 0 in
  let '(data, x') := access lock op addr given x in
  (Writer.handleMemoryRequest accessMemory n;; mret (None : option (Z * bytes)))
    (answered (le 8 addr ++ le 4 (size_of buffer) ++ le 4 lock ++ le 4 op ++ if op =? MemWrite then buffer else []) w, (q, x)) =
  Ok (None, (Writer.set_output (Some (other RecOtherMemoryResponse (if op =? MemWrite then 12 else u32 (12 + size_of buffer)) ++ le 8 addr ++ le 4 op ++ if op =? MemWrite then [] else data)) (answered [] w), (q, x'))).
Proof.
  intros Hl Hop Ha Hs Ho n given. destruct (access lock op addr given x) as [data x'] eqn:Eacc.
  assert (H : wps never (Writer.handleMemoryRequest accessMemory n;; mret (None : option (Z * bytes))) (answered (le 8 addr ++ le 4 (size_of buffer) ++ le 4 lock ++ le 4 op ++ if op =? MemWrite then buffer else []) w, (q, x))
    (λ a s, a = None ∧ s = (Writer.set_output (Some (other RecOtherMemoryResponse (if op =? MemWrite then 12 else u32 (12 + size_of buffer)) ++ le 8 addr ++ le 4 op ++ if op =? MemWrite then [] else data)) (answered [] w), (q, x')))).
  2: { apply wps_never in H as (? & ? & -> & -> & ->). done. }
  assert (Hop' : 0 ≤ op < 2 ^ 32) by (destruct Hop as [-> | ->]; unfold MemRead, MemWrite; lia).
  unfold Writer.handleMemoryRequest. wstep. wstep. apply wps_program. wstep. unfold Writer.is_open. cbn [Writer.output Writer.set_response]. rewrite Ho. cbn [negb orb].
  destruct (Z.ltb_spec n 20); [unfold n in *; destruct (op =? MemWrite); lia|].
  answer_word. wstep. apply wps_program, wps_answer_word; [cbn; lia|]. answer_word. answer_word. cbv zeta. unfold accessMemory.
  destruct Hop as [-> | ->]; unfold n, given in *; change (MemRead =? MemRead) with true; change (MemRead =? MemWrite) with false; change (MemWrite =? MemRead) with false; change (MemWrite =? MemWrite) with true; cbn in Eacc; cbv iota; cbn [app].
  - destruct (Z.leb_spec (size_of buffer) 0); [lia|]. change (negb (20 - 20 =? 0) || false) with false. cbv iota. wstep. unfold Writer.on_memory at 1, wps at 1.
    replace (Z.to_nat (size_of buffer)) with (length buffer) by (unfold size_of; lia). rewrite Eacc. cbn [rbind]. apply wps_program. unfold Writer.write, wps, mbind, M_bind, gets.
    cbn [Writer.output Writer.set_response]. rewrite Ho. cbn. rewrite app_nil_r. done.
  - destruct (Z.leb_spec (20 + size_of buffer - 20) 0); [lia|]. destruct (Z.eqb_spec (20 + size_of buffer - 20) (size_of buffer)); [|lia]. cbn [negb orb].
    wstep. rewrite <- (app_nil_r buffer) at 2. apply wps_program, wps_answer_bytes; [lia|]. wstep. unfold Writer.on_memory at 1, wps at 1. rewrite Eacc. cbn [rbind]. apply wps_program.
    unfold Writer.write, wps, mbind, M_bind, gets. cbn [Writer.output Writer.set_response]. by rewrite Ho.
Qed.
Lemma idle_back r w : idle r w → feed [] (Reader.set_response [] r) = r ∧ Writer.set_output (Some []) (answered [] w) = w.
Proof. intros [Hi Ho Ha Hr _ _]. destruct r, w; cbn in *; subst. done. Qed.
Definition access_size (op : Z) (buffer : bytes) : Z := if op =? MemWrite then 20 + size_of buffer else 20.
Lemma request_spec r w lock op addr buffer : idle r w → access_size op buffer < 2 ^ 32 →
  Reader.AccessMemory_request lock op addr buffer r = Ok (true, Reader.set_response
    (other RecOtherMemoryRequest (access_size op buffer) ++ le 8 addr ++ le 4 (size_of buffer) ++ le 4 lock ++ le 4 op ++ if op =? MemWrite then buffer else []) r).
Proof.
  intros Hi Hs. unfold Reader.AccessMemory_request, Reader.answer, mbind, M_bind, gets, modify. rewrite (i_input _ _ Hi). cbn [mret M_ret].
  unfold mret, M_ret. rewrite (i_file _ _ Hi). cbn [negb orb]. rewrite (i_file _ _ Hi), (i_answers _ _ Hi). cbn [app concat]. rewrite app_nil_r.
  assert (u32 (20 + (if op =? MemWrite then size_of buffer else 0)) = access_size op buffer) as ->; [|done]. unfold access_size in *.
  destruct (op =? MemWrite); [apply u32_small; unfold size_of in *; rlia | done].
Qed.
Lemma response_spec op addr buffer data r : op = MemRead ∨ op = MemWrite → 0 ≤ addr < 2 ^ 64 → size_of buffer < 2 ^ 32 - 20 → size_of data = size_of buffer →
  Reader.AccessMemory_response op addr buffer (feed (other RecOtherMemoryResponse (if op =? MemWrite then 12 else u32 (12 + size_of buffer)) ++ le 8 addr ++ le 4 op ++ if op =? MemWrite then [] else data) r) =
  Ok (Some (if op =? MemWrite then buffer else data), feed [] r).
Proof.
  intros Hop Ha Hs Hd. assert (Hop' : 0 ≤ op < 2 ^ 32) by (destruct Hop as [-> | ->]; unfold MemRead, MemWrite; lia).
  assert (Hread : ∀ n v rest r, 0 ≤ v < 2 ^ (8 * Z.of_nat n) → Reader.from_input (read_uint n) (feed (le n v ++ rest) r) = Ok (v, feed rest r)).
  { intros. unfold Reader.from_input. cbn [Reader.input Reader.set_input]. by rewrite read_uint_le, Z.mod_small. }
  set (size := if op =? MemWrite then 12 else u32 (12 + size_of buffer)).
  assert (Hsize : 0 ≤ size < 2 ^ 32) by (unfold size; destruct (op =? MemWrite); [lia | apply Z.mod_pos_bound; lia]).
  unfold Reader.AccessMemory_response, mbind, M_bind. unfold Reader.from_input at 1. cbn [Reader.input Reader.set_input]. rewrite read_other_head by done. cbn [rbind]. cbv beta iota.
  change (negb (code RecOtherMemoryResponse =? code RecOtherMemoryResponse)) with false. cbv beta iota.
  change (Reader.set_input ?l (feed ?k r)) with (Reader.set_input l r). rewrite Hread by done. cbv beta iota. rewrite Hread by done. cbv beta iota. rewrite Z.eqb_refl. cbn [negb].
  assert (0 ≤ size_of buffer) by (unfold size_of; lia). destruct Hop as [-> | ->]; unfold size; [|done].
  change (MemRead =? MemRead) with true. change (MemRead =? MemWrite) with false. cbv iota. rewrite (u32_small (12 + _)), (u32_small (12 + _ - 12)) by rlia.
  destruct (Z.eqb_spec (size_of buffer) (12 + size_of buffer - 12)); [|lia]. cbn [negb]. unfold Reader.from_input. cbn [Reader.input Reader.set_input].
  rewrite <- (app_nil_r data) at 1. by rewrite read_app.
Qed.
(** Reading and writing memory of the program from a handler, through both pipes and the loop
    in which the program waits, is an access to its memory: what is read comes back, what is
    written gets there, and both ends are as they were. *)
Lemma wait_serves q : serves_memory q = true → serves (wait q).
Proof. destruct q; intros [=]; first [apply round_serves | apply Sync_serves]. Qed.
Theorem memory_through_pipes q lock op addr buffer : serves_memory q = true → op = MemRead ∨ op = MemWrite →
  0 ≤ lock < 2 ^ 32 → 0 ≤ addr < 2 ^ 64 → 0 < size_of buffer < 2 ^ 32 - 20 → (∀ given x, length (mem_access lock op addr given x).1 = length given) →
  runs q (AccessMemory lock op addr buffer) (λ x,
    let '(data, x) := access lock op addr (if op =? MemWrite then buffer else replicate (length buffer) 0) x in
    (Some (if op =? MemWrite then buffer else data), x)).
Proof.
  intros Hq Hop Hl Ha Hs Hacc r w x Hi. destruct (idle_back r w Hi) as [Er Ew]. pose proof (wait_serves q Hq) as Hm.
  pose proof (serves_access lock op addr buffer w (Some q) x Hl Hop Ha Hs (i_output _ _ Hi)) as Hsv. cbv zeta in Hsv.
  specialize (Hacc (if op =? MemWrite then buffer else replicate (length buffer) 0) x.1). unfold access in *.
  destruct (mem_access lock op addr _ x.1) as [data x'] eqn:Eacc. cbn [fst snd] in *.
  assert (Hdata : size_of data = size_of buffer). { unfold size_of. rewrite Hacc. destruct (op =? MemWrite); [done | by rewrite length_replicate]. }
  assert (Hn : 0 ≤ access_size op buffer < 2 ^ 32) by (unfold access_size, size_of in *; destruct (op =? MemWrite); lia).
  unfold AccessMemory, mbind, M_bind. unfold Reader.on_reader at 1. rewrite (request_spec r w) by (done || lia). cbn [rbind negb]. unfold to_writer, gets.
  rewrite (i_response _ _ Hi). cbn [app Reader.response Reader.set_response fst snd]. unfold on_host. rewrite (Hm (access_size op buffer)) by done.
  unfold access_size at 1. rewrite Hsv. cbn [rbind]. unfold to_reader. cbn [Writer.output Writer.set_output].
  change (Reader.input (Reader.set_response [] _)) with (Reader.input r). rewrite (i_input _ _ Hi). cbn [app]. unfold Reader.on_reader.
  change (feed ?l (Reader.set_response [] (Reader.set_response ?k r))) with (feed l (Reader.set_response [] r)). rewrite response_spec by (done || lia). cbn [rbind]. rewrite Er.
  change (Writer.set_output (Some []) (Writer.set_output _ (answered [] w))) with (Writer.set_output (Some []) (answered [] w)). by rewrite Ew.
Qed.

(** ** The simulator called directly *)
Definition is_int (x : Z) : Prop := - 2 ^ 31 ≤ x < 2 ^ 31.
Fixpoint handle_direct {A} (p : handler State A) (x : V) : A * V :=
  match p with
  | Answer a => (a, x)
  | Look k => handle_direct (k x.2) x
  | Change s k => handle_direct k (x.1, s)
  | Access lock op addr buffer k =>
      let '(data, x) := access lock op addr (if op =? MemWrite then buffer else replicate (length buffer) 0) x in
      handle_direct (k (Some (if op =? MemWrite then buffer else data))) x
  end.
(** In which call a handler may run: it accesses the memory only in one that serves it, some
    bytes at an address. *)
Fixpoint runs_in {A} (q : request) (p : handler State A) : Prop :=
  match p with
  | Answer _ => True
  | Look k => ∀ s, runs_in q (k s)
  | Change _ k => runs_in q k
  | Access lock op addr buffer k =>
      serves_memory q = true ∧ (op = MemRead ∨ op = MemWrite) ∧ 0 ≤ lock < 2 ^ 32 ∧ 0 ≤ addr < 2 ^ 64 ∧ 0 < size_of buffer < 2 ^ 32 - 20 ∧ ∀ o, runs_in q (k o)
  end.
Context (Hmem : ∀ lock op addr given m, length (mem_access lock op addr given m).1 = length given).
Lemma handle_runs {A} q (p : handler State A) : runs_in q p → runs q (handle p) (handle_direct p).
Proof using Hmem.
  induction p as [a|k IH|s k IH|lock op addr buffer k IH]; cbn [runs_in].
  - done.
  - intros Hk r w x Hi. cbn [handle handle_direct]. unfold mbind, M_bind, gets. cbn [fst snd]. by apply (IH x.2).
  - intros Hk r w [m s0] Hi. cbn [handle handle_direct]. unfold mbind, M_bind, modify. by apply IH.
  - intros (Hq & Hop & Hl & Ha & Hs & Hk) r w x Hi. cbn [handle handle_direct].
    pose proof (memory_through_pipes q lock op addr buffer Hq Hop Hl Ha Hs (λ given m, Hmem lock op addr given m) r w x Hi) as E.
    unfold mbind, M_bind. rewrite E. destruct (access lock op addr _ x) as [data x']. cbn [fst snd]. by apply IH.
Qed.
(** The simulator's answers are in the ranges of their types. *)
Record answers_in_range : Prop := {
  s_icount n x : in_u32 (handle_direct (on_icount sim n) x).1;
  s_syscall n l x : in_u64 (handle_direct (on_syscall sim n l) x).1;
  s_new_thread x : is_int (handle_direct (on_new_thread sim) x).1;
  s_fork x : is_int (handle_direct (on_fork sim) x).1;
  s_join t x : is_int (handle_direct (on_join sim t) x).1;
  s_magic a b c x : in_u64 (handle_direct (on_magic sim a b c) x).1;
  s_emu t l res x : size_of (handle_direct (on_emu sim t l res) x).1.2 = SIZEOF_EmuReply;
}.
Context (Hsim : answers_in_range).
Definition plainly (p : Z * V) : (Z * bytes) * V := ((p.1, []), p.2).
Definition no_reply : bytes := replicate (Z.to_nat SIZEOF_EmuReply) 0.
Definition direct (q : request) (x : V) : (Z * bytes) * V :=
  match q with
  | InstructionCount n => plainly (handle_direct (on_icount sim n) x)
  | Sync => plainly (handle_direct (on_icount sim 0) x)
  | Syscall n data => plainly (handle_direct (on_syscall sim n data) x)
  | NewThread => plainly (handle_direct (on_new_thread sim) x)
  | Join t => plainly (handle_direct (on_join sim t) x)
  | Fork => plainly (handle_direct (on_fork sim) x)
  | Magic a b c => plainly (handle_direct (on_magic sim a b c) x)
  | Emulate type req _ => let '((b, l), x) := handle_direct (on_emu sim type req no_reply) x in ((bit b, l), x)
  end.
Definition values_ok (q : request) : Prop :=
  match q with
  | InstructionCount n => in_u32 n
  | Syscall n data => 0 ≤ n < 2 ^ 16 ∧ 0 < size_of data < 2 ^ 32 - 2 ∧ Forall in_u8 data ∧ (n = 202 → 8 ≤ size_of data) ∧ (n = 1 → 16 ≤ size_of data)
  | Join t => is_int t
  | Magic a b c => in_u64 a ∧ in_u64 b ∧ in_u64 c
  | Emulate type req res => 0 ≤ type < 2 ^ 16 ∧ size_of req = SIZEOF_EmuRequest ∧ size_of res = SIZEOF_EmuReply
  | _ => True
  end.
Definition handler_ok (q : request) : Prop :=
  match q with
  | InstructionCount n => runs_in q (on_icount sim n)
  | Sync => runs_in q (on_icount sim 0)
  | Syscall n data => runs_in q (on_syscall sim n data)
  | NewThread => runs_in q (on_new_thread sim)
  | Join t => runs_in q (on_join sim t)
  | Fork => runs_in q (on_fork sim)
  | Magic a b c => runs_in q (on_magic sim a b c)
  | Emulate type req _ => runs_in q (on_emu sim type req no_reply)
  end.
(** The values of a request have the ranges of their types, and its handler may run in it. *)
Definition request_ok (q : request) : Prop := values_ok q ∧ handler_ok q.

(** *** The record of a request, and of its answer *)
Definition asked (q : request) : list bytes :=
  match q with
  | InstructionCount n => [other RecOtherInstructionCount 4; le 4 n]
  | Syscall n data => [other RecOtherSyscallRequest (u32 (2 + size_of data)); le 2 n; data]
  | NewThread => [other RecOtherNewThread 0]
  | Join t => [other RecOtherJoin 4; le 4 t]
  | Sync => [other RecOtherSync 0]
  | Magic a b c => [other RecOtherMagicInstruction 24; le 8 a; le 8 b; le 8 c]
  | Emulate type req _ => [other RecOtherEmu (2 + SIZEOF_EmuRequest); le 2 type; req]
  | Fork => [other RecOtherFork 0]
  end.
Definition reply (q : request) (a : Z * bytes) : list bytes :=
  match q with
  | InstructionCount _ | Sync => [other RecOtherSyncResponse 4; le 4 a.1]
  | Syscall _ _ => [other RecOtherSyscallResponse 8; le 8 a.1]
  | NewThread => [other RecOtherNewThreadResponse 4; le 4 a.1]
  | Join _ => [other RecOtherJoinResponse 4; le 4 a.1]
  | Magic _ _ _ => [other RecOtherMagicInstructionResponse 8; le 8 a.1]
  | Emulate _ _ _ => [other RecOtherEmuResponse (1 + SIZEOF_EmuReply); le 1 a.1; a.2]
  | Fork => [other RecOtherForkResponse 4; le 4 a.1]
  end.
Lemma wps_runs {A} q (m : M St A) f r w x Q : runs q m f → idle r w → Q (f x).1 (feed [] r, (w, (Some q, (f x).2))) → wps never m (feed [] r, (w, (Some q, x))) Q.
Proof.
  intros Hm Hi HQ. assert (Er : feed [] r = r) by (destruct r, Hi; cbn in *; by subst). rewrite Er in *. unfold wps. by rewrite (Hm r w x Hi).
Qed.
Lemma wps_answer ls r w x (Q : unit → St → Prop) : idle r w → Q tt (Reader.set_response (concat ls) (feed [] r), (w, x)) → wps never (Reader.on_reader (Reader.answer ls)) (feed [] r, (w, x)) Q.
Proof.
  intros Hi HQ. unfold wps, Reader.on_reader, Reader.answer, mbind, M_bind, gets, modify. cbn [Reader.m_response_filename Reader.set_input]. rewrite (i_file _ _ Hi). cbn [rbind].
  cbn [Reader.response Reader.set_input]. by rewrite (i_answers _ _ Hi).
Qed.
Ltac called := cbn [hs Reader.handleInstructionCountFunc Reader.handleSyscallFunc Reader.handleNewThreadFunc Reader.handleForkFunc Reader.handleJoinFunc
  Reader.handleMagicFunc Reader.handleEmuFunc].
(** The reader answers a request. *)
Lemma request_answered q r w x : request_ok q → idle r w → wps never (Reader.read_other_record uninit_byte hs) (feed (concat (asked q)) r, (w, (Some q, x))) (λ b s,
  let '(a, x') := direct q x in b = false ∧ s = (Reader.set_response (concat (reply q a)) (feed [] r), (w, (Some q, x')))).
Proof using Hmem.
  intros [Hq Hh] Hi. rewrite <- (app_nil_r (concat (asked q))). destruct q as [n|n data| |t| |a b c|type req res| ]; cbn [asked direct reply values_ok handler_ok] in *;
    pose proof (handle_runs _ _ Hh) as Hr.
  - record. unfold Reader.read_instruction_count. wstep. wstep; [|done]. word.
    unfold Reader.mode_of. called. wstep. eapply wps_runs; [exact Hr | done |]. by apply wps_answer.
  - destruct Hq as (Hn & Hd & _). rewrite u32_small by rlia. record; [lia|].
    unfold Reader.read_syscall. wstep. destruct (Z.ltb_spec 2 (2 + size_of data)); [|lia]. wstep; [|done]. word. wstep. apply wps_bytes; [lia|]. unfold Reader.must. called.
    wstep. eapply wps_runs; [exact Hr | done |]. by apply wps_answer.
  - record. unfold Reader.read_new_thread. wstep. wstep; [|done]. unfold Reader.must. called. cbn [app].
    wstep. eapply wps_runs; [exact Hr | done |]. by apply wps_answer.
  - record. unfold Reader.read_join. wstep. wstep; [|done]. wstep. apply wps_word. unfold Reader.must. called.
    change (8 * Z.of_nat 4) with 32. rewrite s32_mod by done. wstep. eapply wps_runs; [exact Hr | done |]. by apply wps_answer.
  - record. unfold Reader.read_sync. wstep. wstep; [|done]. cbn [app].
    unfold Reader.mode_of. called. wstep. eapply wps_runs; [exact Hr | done |]. by apply wps_answer.
  - destruct Hq as (Ha & Hb & Hc). record. unfold Reader.read_magic. wstep. wstep; [|done]. word. word. word. called.
    wstep. eapply wps_runs; [exact Hr | done |]. by apply wps_answer.
  - destruct Hq as (Ht & Hl & _). record.
    unfold Reader.read_emu. wstep. wstep; [|done]. word. wstep. apply wps_bytes; [done|]. called.
    assert (length req = 8%nat) as -> by (unfold size_of, SIZEOF_EmuRequest in Hl; lia). change (Z.to_nat SIZEOF_EmuRequest - 8)%nat with 0%nat. cbn [replicate]. rewrite app_nil_r.
    wstep. eapply wps_runs; [exact Hr | done |]. change (replicate (Z.to_nat SIZEOF_EmuReply) 0) with no_reply.
    destruct (handle_direct (on_emu sim type req no_reply) x) as [[b l] x']. cbn [fst snd]. by apply wps_answer.
  - record. unfold Reader.read_fork. wstep. wstep; [|done]. unfold Reader.must. called. cbn [app].
    wstep. eapply wps_runs; [exact Hr | done |]. by apply wps_answer.
Qed.

(** The program gets the answer. *)
Definition answer_ok (q : request) (a : Z * bytes) : Prop :=
  match q with
  | InstructionCount _ | Sync => in_u32 a.1 ∧ a.2 = []
  | NewThread | Join _ | Fork => is_int a.1 ∧ a.2 = []
  | Syscall _ _ | Magic _ _ _ => in_u64 a.1 ∧ a.2 = []
  | Emulate _ _ _ => 0 ≤ a.1 < 2 ∧ size_of a.2 = SIZEOF_EmuReply
  end.
Lemma direct_ok q x : answer_ok q (direct q x).1.
Proof using Hsim.
  destruct q as [n|n data| |t| |a b c|type req res| ]; cbn; try (split; [by apply Hsim | done]).
  pose proof (s_emu Hsim type req no_reply x) as H. destruct (handle_direct (on_emu sim type req no_reply) x) as [[b l] x']. cbn in *. split; [destruct b; cbn; lia | done].
Qed.
Lemma wps_answer_head E ty n rest w Q : 0 ≤ n < 2 ^ 32 → Q (0, code ty, n) (answered rest w) → wps E (Writer.from_response read_other) (answered (other ty n ++ rest) w) Q.
Proof. intros Hn HQ. unfold wps. by rewrite from_response_head. Qed.
Lemma wps_plain ty size value wrong a w (Q : Z → Writer.t → Prop) bs : 0 ≤ size < 2 ^ 32 → value bs = Ok (a, []) → Q a (answered [] w) →
  wps never (Writer.plain ty size value wrong) (answered (other ty size ++ bs) w) Q.
Proof.
  intros Hs Hv HQ. unfold Writer.plain. wstep. apply wps_answer_head; [done|]. rewrite !Z.eqb_refl. cbn [negb orb]. unfold wps, Writer.from_response. cbn [Writer.response Writer.set_response]. by rewrite Hv.
Qed.
Lemma read_int32_le x : is_int x → read_int32 (le 4 x ++ []) = Ok (x, []).
Proof. intros Hx. unfold read_int32, mbind, M_bind. rewrite read_uint_le. cbn. by rewrite s32_mod. Qed.
Lemma read_u32_le x : in_u32 x → read_uint 4 (le 4 x ++ []) = Ok (x, []).
Proof. intros Hx. by rewrite read_uint_le, Z.mod_small. Qed.
Lemma got_once m ls a w x : wps never m (answered ls w) (λ b w', b = a ∧ w' = answered [] w) → once m (answered ls w, x) = Ok (Some (a, []), (answered [] w, x)).
Proof. intros Hm. apply wps_never in Hm as (b & w' & E & -> & ->). unfold once, mbind, M_bind, Writer.on_writer. by rewrite E. Qed.
Lemma round_answer o ty n rest w x y : ty ≠ RecOtherMemoryRequest → 0 ≤ n < 2 ^ 32 → o (code ty) n (answered rest w, x) = Ok y →
  Writer.round accessMemory o (answered (other ty n ++ rest) w, x) = Ok y.
Proof.
  intros Hty Hn Ho. unfold Writer.round, mbind at 1, M_bind at 1, Writer.on_writer at 1. rewrite from_response_head by done. cbn [rbind]. unfold mbind at 1, M_bind at 1, assert_. cbn [lift check].
  assert ((code ty =? code RecOtherMemoryRequest) = false) as -> by (destruct ty; done). done.
Qed.
Lemma reply_received q a w x : values_ok q → answer_ok q a → wait q (answered (concat (reply q a)) w, x) = Ok (Some a, (answered [] w, x)).
Proof.
  intros Hq Ha. destruct a as [a l]. destruct q as [n|n data| |t| |a0 b c|type req res| ]; cbn [answer_ok fst snd] in Ha; destruct Ha as [Ha Hl]; cbn [wait reply fst snd concat];
    try subst l; rewrite app_nil_r, ?app_nil_r; try rewrite <- (app_nil_r (le _ a)).
  - apply got_once. eapply wps_plain; [done | by apply read_u32_le | done].
  - unfold Writer.Syscall_round. apply round_answer; [done..|]. unfold Writer.on_writer, mbind, M_bind. rewrite !Z.eqb_refl. cbn [negb]. cbv beta iota. by rewrite from_response_le, Z.mod_small.
  - apply got_once. eapply wps_plain; [done | by apply read_int32_le | done].
  - apply got_once. eapply wps_plain; [done | by apply read_int32_le | done].
  - unfold Writer.Sync_round, mbind, M_bind, Writer.on_writer. rewrite from_response_head by done. cbn [rbind]. rewrite !Z.eqb_refl. cbn [negb]. cbv beta iota. by rewrite from_response_le, Z.mod_small.
  - unfold Writer.Magic_round. apply round_answer; [done..|]. unfold Writer.on_writer, mbind, M_bind. rewrite !Z.eqb_refl. unfold assert_. cbn [negb lift check]. cbv beta iota. by rewrite from_response_le, Z.mod_small.
  - unfold Writer.Emulate_round. destruct Hq as (_ & _ & Hres). rewrite (app_nil_r (le 1 a)), <- (app_nil_r l) at 1. apply round_answer; [done..|]. unfold mbind, M_bind, Writer.on_writer, assert_.
    rewrite Z.eqb_refl. change (1 + SIZEOF_EmuReply <=? 1 + SIZEOF_EmuReply) with true. cbn [lift check]. cbv beta iota.
    rewrite from_response_le, Z.mod_small by (cbn; lia). cbn [rbind]. cbv beta iota. change (u64 (1 + SIZEOF_EmuReply - 1)) with SIZEOF_EmuReply.
    assert (Writer.from_response (read SIZEOF_EmuReply) (answered (l ++ []) w) = Ok (l, answered [] w)) as ->. { unfold Writer.from_response. cbn [Writer.response Writer.set_response]. by rewrite read_app. }
    cbn [rbind]. rewrite drop_ge by (unfold size_of in *; lia). by rewrite app_nil_r.
  - apply got_once. eapply wps_plain; [done | by apply read_int32_le | done].
Qed.

(** ** The session *)
Context (sizes : Z → Z) (per_insn tables : bool) (Hpm : page_table_ok pm).
Abbreviation synced := (sync mem pm sizes per_insn tables true true).
(** Both ends between two calls. *)
Definition connected (isa : Z) (r : Reader.t) (w : Writer.t) : Prop := synced isa w r ∧ Reader.input r = Some [] ∧ Writer.output w = Some [].
Lemma connected_idle isa r w : connected isa r w → idle r w.
Proof. intros (Hs & Hi & Ho). destruct Hs. by split. Qed.
Lemma connect isa r w : synced isa w r → connected isa (feed [] r) (Writer.set_output (Some []) w).
Proof. intros []. by split_and!. Qed.

Lemma drain_S n inst s : drain (S n) inst s =
  if (remaining s.1 =? 0)%nat then Ok (inst, s)
  else match Reader.read_record uninit_byte hs inst s with
       | Ok ((Reader.Again, i), s) => drain n i s
       | Ok ((Reader.Return true, i), s) => match deliver client i s with Ok (_, s) => drain n i s | Err e => Err e end
       | Ok ((Reader.Return false, i), s) => Ok (i, s)
       | Err e => Err e
       end.
Proof.
  cbn [drain]. unfold mbind, M_bind, gets. destruct (remaining s.1 =? 0)%nat; [done|].
  by destruct (Reader.read_record _ _ _ _) as [[[[|[]] i] s1]|].
Qed.
Lemma drain_done n inst s : remaining s.1 = 0%nat → drain n inst s = Ok (inst, s).
Proof. intros E. destruct n; cbn [drain]; unfold mbind, M_bind, gets; by rewrite E. Qed.
Lemma drain_rounds c c' y : rounds client uninit_byte hs c c' → (∀ n, (remaining c'.2.1 ≤ n)%nat → drain n c'.1 c'.2 = Ok y) →
  ∀ n, (remaining c.2.1 ≤ n)%nat → drain n c.1 c.2 = Ok y.
Proof.
  intros Hcc Hy. induction Hcc as [c|c c1 c' H1 Hcc IH]; intros n Hn; [by apply Hy|]. destruct H1 as (Hlt & _ & _ & _ & Hr).
  destruct n as [|n]; [lia|]. rewrite drain_S. destruct (Nat.eqb_spec (remaining c.2.1) 0); [lia|].
  destruct Hr as [Hr|(s & Hr & Hd)]; rewrite Hr; [|rewrite Hd]; apply IH; [done | lia | done | lia].
Qed.
(** More fuel than the bytes that are left changes nothing. *)
Lemma drain_more n m inst s y : drain n inst s = Ok y → (n ≤ m)%nat → drain m inst s = Ok y.
Proof.
  revert m inst s. induction n as [|n IH]; intros m inst s E Hm.
  - revert E. cbn [drain]. unfold mbind at 1, M_bind at 1, gets. destruct (Nat.eqb_spec (remaining s.1) 0); [|done]. intros <-. by apply drain_done.
  - destruct m as [|m]; [lia|]. revert E. rewrite !drain_S. destruct (remaining s.1 =? 0)%nat; [done|].
    destruct (Reader.read_record _ _ _ _) as [[[[|[]] i] s1]|]; [| | done..].
    + intros E. apply IH; [done | lia].
    + destruct (deliver client i s1) as [[[] s2]|]; [|done]. intros E. apply IH; [done | lia].
Qed.
Lemma client_sees es w q x : foldl (flip client) (w, (q, x)) es = (w, (q, foldl (flip sees) x es)).
Proof. revert x. induction es as [|e es IH]; intros x; cbn; [done|]. apply IH. Qed.

(** What is told. *)
Lemma tell_spec isa c inst r w x : call_ok sizes c → connected isa r w → two inst → ∃ r' w' inst', two inst' ∧ connected (isa_after isa c) r' w' ∧
  (on_program (perform_on h c);; read_on inst) (r, (w, (None, x))) = Ok (inst', (r', (w', (None, foldl (flip sees) x (shown mem pm sizes tables isa c))))).
Proof.
  intros Hc (Hs & Hi & Ho) Ht.
  destruct (relays_call client uninit_byte hs handlers_pass mem pm sizes per_insn tables true true Hpm isa c Hc w r [] Hs Ho) as (w1 & bs & r1 & E & Eo & Hs1 & Hr).
  destruct (Hr [] inst (Writer.set_output (Some []) w1, (None, x)) Ht) as (inst' & Ht' & HR). rewrite app_nil_r, client_sees in HR.
  exists (feed [] r1), (Writer.set_output (Some []) w1), inst'. split; [done|]. split; [by apply connect|].
  unfold mbind, M_bind, on_program, on_host, Writer.on_writer. unfold perform in E. rewrite E. cbn [rbind]. unfold read_on, mbind, M_bind, gets, to_reader. rewrite Eo, Hi. cbn [app].
  by apply (drain_rounds _ _ _ HR); [intros; by apply drain_done|].
Qed.

(** What is asked. *)
Definition before (q : request) : M Writer.t unit :=
  match q with
  | Syscall n data =>
      if n =? 202 then Writer.send_va2pa h (of_le (take 8 data)) else if n =? 1 then Writer.send_va2pa h (of_le (take 8 (drop 8 data))) else mret tt
  | _ => mret tt
  end.
Lemma of_le_range l : Forall in_u8 l → 0 ≤ of_le l < 2 ^ (8 * size_of l).
Proof.
  unfold size_of. induction 1 as [|b l Hb Hl IH]; [done|]. cbn [of_le length]. replace (8 * Z.of_nat (S (length l))) with (8 + 8 * Z.of_nat (length l)) by lia. rewrite Z.pow_add_r by lia.
  change (2 ^ 8) with 256. unfold in_u8 in Hb. lia.
Qed.
Lemma arg_range l : Forall in_u8 l → 0 ≤ of_le (take 8 l) < 2 ^ 64.
Proof.
  intros Hl. pose proof (of_le_range (take 8 l) (Forall_take _ _ _ Hl)) as H. split; [lia|]. eapply Z.lt_le_trans; [apply H|].
  apply Z.pow_le_mono_r; [done|]. unfold size_of. rewrite length_take. lia.
Qed.
Lemma relays_before isa q : values_ok q → relays client uninit_byte hs (synced isa) (before q) [] (synced isa).
Proof.
  intros Hq. destruct q as [n|n data| |t| |a b c|type req res| ]; cbn [before]; try (by apply relays_skip). destruct Hq as (_ & _ & Hd & _).
  assert (Hva : ∀ va, 0 ≤ va < 2 ^ 64 → relays client uninit_byte hs (synced isa) (Writer.send_va2pa h va) [] (synced isa)).
  { intros va Hv. apply relays_points. intros w r Hs. eapply (relays_pre _ _ _ _ (knows mem pm sizes per_insn tables true true isa (Writer.last_address w) [] [])); [by intros ? ? [-> ->]|].
    eapply relays_weaken; [|by apply relays_va2pa]. by intros ? ? []. }
  destruct (n =? 202); [|destruct (n =? 1)]; [apply Hva, arg_range; done | apply Hva, arg_range; by apply Forall_drop | by apply relays_skip].
Qed.
Lemma request_sent isa q w r o w1 : values_ok q → synced isa w r → Writer.output w = Some o → before q w = Ok (tt, w1) → Writer.is_open w1 = true → Writer.m_response_filename w1 = true →
  send q w = Ok (true, Writer.set_output (Some (default [] (Writer.output w1) ++ concat (asked q))) w1).
Proof.
  intros Hq Hs Ho Hb Hop Hf. assert (Hask : ∀ ls, Writer.ask ls w1 = Ok (true, Writer.set_output (Some (default [] (Writer.output w1) ++ concat ls)) w1)).
  { intros ls. unfold Writer.ask, Writer.write, Writer.initResponse, mbind, M_bind, gets. rewrite Hop. unfold Writer.is_open in Hop. destruct (Writer.output w1); [|done]. cbn [Writer.m_response_filename Writer.set_output modify].
    by rewrite Hf. }
  destruct q as [n|n data| |t| |a b c|type req res| ]; cbn [before send asked] in *; try (injection Hb as <-; apply Hask).
  destruct Hq as (_ & Hd & _ & H202 & H1). unfold Writer.Syscall_send, mbind at 1, M_bind at 1, gets. rewrite (y_open _ _ _ _ _ _ _ _ _ _ Hs). cbn [negb]. unfold mbind at 1, M_bind at 1.
  destruct (Z.eqb_spec n 202) as [En|En]; [|destruct (Z.eqb_spec n 1) as [En1|En1]].
  - specialize (H202 En). unfold mbind, M_bind. destruct (Z.leb_spec 8 (size_of data)); [|lia]. cbn [check lift]. rewrite Hb. apply Hask.
  - specialize (H1 En1). unfold mbind, M_bind. destruct (Z.leb_spec 16 (size_of data)); [|lia]. cbn [check lift]. rewrite Hb. apply Hask.
  - rewrite Hb. apply Hask.
Qed.
Lemma read_asked q inst r w x : request_ok q → idle (feed [] r) w → Reader.m_seen_end r = false →
  drain (remaining (feed (concat (asked q)) r)) inst (feed (concat (asked q)) r, (w, (Some q, x))) =
  Ok (inst, (Reader.set_response (concat (reply q (direct q x).1)) (feed [] r), (w, (Some q, (direct q x).2)))).
Proof.
  intros Hq Hi He. pose proof (request_answered q (feed [] r) w x Hq Hi) as H. rewrite feed_feed in H. apply wps_never in H as (b & s & E & H).
  destruct (direct q x) as [a x'] eqn:Ed. destruct H as [-> ->]. rewrite feed_feed in *. cbn [fst snd].
  assert (exists l, concat (asked q) = 0 :: l) as [l El] by (destruct q; by eexists). rewrite El in *.
  change (remaining (feed (0%Z :: l) r)) with (S (length l)). rewrite drain_S. change (remaining (feed (0%Z :: l) r, (w, (Some q, x))).1 =? 0)%nat with false. cbv iota.
  unfold Reader.read_record, mbind, M_bind. rewrite peek_feed. change (0 =? 0) with true. cbv iota beta. rewrite E. cbn [mret M_ret]. unfold mret, M_ret. cbv beta iota. by apply drain_done.
Qed.
Lemma ask_spec isa q inst r w x : request_ok q → connected isa r w → two inst → ∃ r' w' inst', two inst' ∧ connected isa r' w' ∧
  ask q inst (r, (w, (None, x))) = Ok ((inst', (direct q x).1), (r', (w', (None, (direct q x).2)))).
Proof.
  intros Hq (Hs & Hi & Ho) Ht. destruct (relays_before isa q (proj1 Hq) w r [] Hs Ho) as (w1 & bs & r1 & E & Eo & Hs1 & Hr).
  cbn [app] in Eo. pose proof (request_sent isa q w r [] w1 (proj1 Hq) Hs Ho E (y_open _ _ _ _ _ _ _ _ _ _ Hs1) (y_rf _ _ _ _ _ _ _ _ _ _ Hs1)) as Esend. rewrite Eo in Esend. cbn [default] in Esend.
  destruct (Hr (concat (asked q)) inst (Writer.set_output (Some []) w1, (Some q, x)) Ht) as (inst' & Ht' & HR). cbn [foldl] in HR.
  pose proof (connect isa r1 w1 Hs1) as Hc1. pose proof (connected_idle _ _ _ Hc1) as Hi1.
  exists (feed [] r1), (Writer.set_output (Some []) w1), inst'. split; [done|]. split; [done|].
  unfold ask, mbind, M_bind, on_program, on_host, Writer.on_writer. rewrite Esend. cbn [rbind negb]. cbv beta iota. unfold modify at 1, in_call at 1. cbv beta iota. unfold read_on, mbind, M_bind, gets, to_reader. cbn [Writer.output Writer.set_output]. rewrite Hi. cbn [app].
  change (Writer.set_output (Some []) (Writer.set_output _ w1)) with (Writer.set_output (Some []) w1).
  pose proof (read_asked q inst' r1 (Writer.set_output (Some []) w1) x Hq Hi1 (y_end _ _ _ _ _ _ _ _ _ _ Hs1)) as Hread.
  set (replied := Reader.set_response (concat (reply q (direct q x).1)) (feed [] r1)) in *.
  assert (Hd : ∀ n, (remaining (feed (bs ++ concat (asked q)) r) ≤ n)%nat → drain n inst (feed (bs ++ concat (asked q)) r, (Writer.set_output (Some []) w1, (Some q, x))) =
    Ok (inst', (replied, (Writer.set_output (Some []) w1, (Some q, (direct q x).2))))).
  { apply (drain_rounds _ _ _ HR). intros n Hn. eapply drain_more; [exact Hread | exact Hn]. }
  rewrite Hd by done. subst replied.
  unfold to_writer. cbn [Reader.response Reader.set_response]. rewrite (i_response _ _ Hi1). cbn [app].
  rewrite (reply_received q _ (Writer.set_output (Some []) w1) (Some q, (direct q x).2) (proj1 Hq) (direct_ok q x)). cbn [rbind].
  destruct (idle_back _ _ Hi1) as [Er Ew].
  assert (Reader.set_response [] (Reader.set_response (concat (reply q (direct q x).1)) (feed [] r1)) = feed [] r1) as ->. { pose proof (i_answers _ _ Hi1) as Ea. destruct r1; cbn in *; by subst. }
  assert (answered [] (Writer.set_output (Some []) w1) = Writer.set_output (Some []) w1) as -> by exact Ew. done.
Qed.

(** The two ends as they are constructed: the reader opens the trace once its header is there. *)
Definition start (arch32 : bool) (x : V) : result (bool * St) :=
  let w := Writer.new true arch32 per_insn tables in
  let! (ok, r) := Reader.initStream (Reader.new (default [] (Writer.output w)) true) in Ok (ok, (r, (Writer.set_output (Some []) w, (None, x)))).
(** A program without pipes: what it tells is seen, what it asks is answered. *)
Fixpoint direct_session (isa : Z) (cs : list (call + request)) (x : V) : list (Z * bytes) * V :=
  match cs with
  | [] => ([], x)
  | inl c :: cs => direct_session (isa_after isa c) cs (foldl (flip sees) x (shown mem pm sizes tables isa c))
  | inr q :: cs => let '(a, x) := direct q x in let '(l, x) := direct_session isa cs x in (a :: l, x)
  end.
Definition step_ok (c : call + request) : Prop := match c with inl c => call_ok sizes c | inr q => request_ok q end.
Lemma session_spec cs isa inst r w x : Forall step_ok cs → connected isa r w → two inst →
  ∃ r' w' inst', session cs inst (r, (w, (None, x))) = Ok ((inst', (direct_session isa cs x).1), (r', (w', (None, (direct_session isa cs x).2)))).
Proof.
  intros Hcs. revert isa inst r w x. induction Hcs as [|[c|q] cs Hc Hcs IH]; intros isa inst r w x Hco Ht; cbn [session direct_session].
  - by exists r, w, inst.
  - destruct (tell_spec isa c inst r w x Hc Hco Ht) as (r1 & w1 & i1 & Ht1 & Hc1 & E).
    destruct (IH _ i1 r1 w1 (foldl (flip sees) x (shown mem pm sizes tables isa c)) Hc1 Ht1) as (r2 & w2 & i2 & E2). exists r2, w2, i2. rewrite <- E2. revert E.
    unfold mbind, M_bind. destruct (on_program _ _) as [[? ?]|]; [|done]. intros E. by rewrite E.
  - destruct (ask_spec isa q inst r w x Hc Hco Ht) as (r1 & w1 & i1 & Ht1 & Hc1 & E). destruct (direct q x) as [a x1]. cbn [fst snd] in E.
    destruct (IH isa i1 r1 w1 x1 Hc1 Ht1) as (r2 & w2 & i2 & E2). exists r2, w2, i2. destruct (direct_session isa cs x1) as [l x2].
    unfold mbind, M_bind. rewrite E. cbv beta iota. by rewrite E2.
Qed.
(** [C30] A program connected to the simulator by a pair of pipes behaves as if it called the
    simulator directly: for every sequence of calls, those that tell something and those that
    wait for an answer, each side ends in the same state and the program gets the same answers,
    and no call blocks. The handlers of the simulator know the memory of the program by
    [AccessMemory] only, which goes through the pipes to the call that the program is in; in the
    calls in which it serves memory ([Syscall], [Sync], [Magic], [Emulate]) they may access it
    as they like ([runs_in]), in the others not. The calls are those of [call_ok], as for a
    trace, and of [request_ok]: values, and the answers, are in the ranges of their types, a
    system call has some data. *)
Theorem sift_session arch32 cs inst x : Forall step_ok cs → two inst → ∃ s, start arch32 x = Ok (true, s) ∧
  ∃ r w inst', session cs inst s = Ok ((inst', (direct_session 0 cs x).1), (r, (w, (None, (direct_session 0 cs x).2)))).
Proof.
  intros Hcs Ht. destruct (open_spec per_insn tables true true arch32) as (header & Eo & Hopen). specialize (Hopen []). rewrite app_nil_r in Hopen.
  exists (opened tables true header [], (Writer.set_output (Some []) (Writer.new true arch32 per_insn tables), (None, x))). split.
  - unfold start. rewrite Eo. change (default [] (Some header)) with header. by rewrite Hopen.
  - apply session_spec; [done | | done]. by apply (connect 0 (opened tables true header [])), open_sync.
Qed.
End session.
