(* ===== verification/SiftExamples.v ===== *)
(** SIFT traces at work: a program and a simulator with a memory behind the pipes, the theorems of
    [SiftTrace] and [SiftSession] at these, and what the records cannot say. *)
From stdpp Require Import relations.
From S2P Require Import Prelude StateResult Sift SiftTrace SiftSession.

(** ** A program of a few instructions *)
Definition code_at (a : Z) : Z := (a * 7 + 3) `mod` 256.
Definition no_frames : Z → option Z := λ _, None.
Definition four : Z → Z := λ _, 4.
Lemma no_frames_ok : page_table_ok no_frames.
Proof. done. Qed.
Definition program : list call :=
  [Instruction 0x400ffe 4 [0x7000; 0x7008] false false false true; ISAChange 2; Instruction 0x401002 4 [] true true true false;
   Output 1 [104; 105]; CacheOnly 3 1 0x401006 0x7010; Instruction 0x401006 4 [] false false false true].
Ltac ranges := repeat first [split | constructor]; unfold word_ok, in_u8, in_u32, in_u64, is_int, size_of, MAX_DYNAMIC_ADDRESSES; cbn; first [done | lia].
Lemma program_ok : Forall (call_ok four) program.
Proof. ranges. Qed.

(** ** A simulator that writes down what it sees, and counts the calls it is asked *)
Record world := mk_world { seen : list event; calls : Z }.
Definition sees (e : event) (x : world) : world := mk_world (e :: seen x) (calls x).
Definition idle_inst : Reader.Instruction := Reader.mk_inst 0 0 [0; 0] false false false false 0.
(** A memory of a program: its first bytes, from address 0 on. *)
Definition mem_access (lock op addr : Z) (given memory : bytes) : bytes * bytes :=
  let at_ i := (Z.to_nat addr + i)%nat in
  if op =? MemWrite then (given, imap (λ i b, default b (if (Z.to_nat addr <=? i)%nat then given !! (i - Z.to_nat addr)%nat else None)) memory)
  else (imap (λ i _, default 0 (memory !! at_ i)) given, memory).
Lemma mem_access_length lock op addr given memory : length (mem_access lock op addr given memory).1 = length given.
Proof. unfold mem_access. destruct (op =? MemWrite); cbn; [done | by rewrite length_imap]. Qed.

Section handlers.
Context {S : Type} (see_it : event → S → S).
Abbreviation St := (Reader.t * S)%type.
(** The handlers that pass on; [other] for the rest. *)
Definition handlers_with (icount : Z → M St Z) (syscall : Z → bytes → M St Z) (plain : M St Z) (magic : Z → Z → Z → M St Z) (emu : Z → bytes → bytes → M St (bool * bytes)) : Reader.handlers S :=
  let tell := see see_it in
  {| Reader.handleInstructionCountFunc := Some icount;
     Reader.handleCacheOnlyFunc := Some (λ icount type eip address, tell (ECacheOnly icount type eip address));
     Reader.handleOutputFunc := Some (λ fd data, tell (EOutput fd data));
     Reader.handleSyscallFunc := Some syscall;
     Reader.handleNewThreadFunc := Some plain;
     Reader.handleForkFunc := Some plain;
     Reader.handleJoinFunc := Some (λ _, plain);
     Reader.handleMagicFunc := Some magic;
     Reader.handleEmuFunc := Some emu;
     Reader.handleRoutineChangeFunc := Some (λ e eip esp call, tell (ERoutineChange e eip esp call));
     Reader.handleRoutineAnnounceFunc := Some (λ eip name img offset line column file, tell (ERoutineAnnounce eip name img offset line column file)) |}.
Lemma handlers_with_pass icount syscall plain magic emu : passes_on see_it (handlers_with icount syscall plain magic emu).
Proof. by split. Qed.
End handlers.
Definition told : Reader.handlers world :=
  handlers_with sees (λ _, mret 0) (λ _ _, mret 0) (mret 0) (λ a _ _, mret a) (λ _ _ res, mret (false, res)).
Lemma sift_roundtrip_witness : Forall (call_ok four) program ∧
  (∃ w file, (performs code_at no_frames program;; Writer.End) (Writer.new false false true true) = Ok (file, w) ∧
    ∀ fuel inst x, (length file < fuel)%nat → two inst →
    ∃ r, run sees 170 told fuel inst (Reader.new file false, x) = Ok (tt, (r, foldl (flip sees) x (all_shown code_at no_frames four true 0 program)))) ∧
  all_shown code_at no_frames four true 0 (take 1 program) =
    [EInstruction 0x400ffe 4 ([245; 252; 3; 10] ++ replicate 12 0) [0x7000; 0x7008] 0x400ffe [0x7000; 0x7008] false false false true 0].
Proof.
  split; [exact program_ok|]. split; [|by vm_compute].
  apply (sift_roundtrip sees 170 told (handlers_with_pass sees _ _ _ _ _) code_at no_frames four true true false false no_frames_ok false program program_ok).
Defined.

(** ** A system call during which the simulator reads the memory of the program and writes to it *)
Definition arg (l : bytes) : Z := u64 (of_le (take 8 l)).
Definition syscall (n : Z) (l : bytes) : handler world Z :=
  Look (λ x, Change (mk_world (seen x) (calls x + 1))
    (Access 0 MemRead (arg l) (replicate 4 0) (λ o,
      Access 0 MemWrite (arg l) [u8 n; 1] (λ _, Answer (match o with Some data => u64 (of_le data) | None => 0 end))))).
(** A synchronisation clears the first byte; with a count there is nothing to do. *)
Definition icount (n : Z) : handler world Z := if n =? 0 then Access 0 MemWrite 0 [0] (λ _, Answer 0) else Answer 1.
Lemma arg_u64 l : 0 ≤ arg l < 2 ^ 64.
Proof. unfold arg, u64. apply Z.mod_pos_bound. lia. Qed.
Lemma syscall_runs_in q n l : serves_memory q = true → runs_in q (syscall n l).
Proof. intros Hq. pose proof (arg_u64 l). cbn. intros _. split_and!; auto; try done; try lia. intros _. split_and!; auto; try done; try lia. Qed.
Definition emulated (req : bytes) : bytes := take 48 (req ++ replicate 48 0).
Definition simulated : simulator world := {|
  on_icount := icount; on_syscall := syscall; on_new_thread := Answer 7; on_fork := Answer 7; on_join := λ _, Answer 7;
  on_magic := λ a b c, Answer (u64 (a + b + c)); on_emu := λ _ req _, Answer (true, emulated req) |}.
Lemma simulated_in_range : answers_in_range mem_access simulated.
Proof.
  split; try done.
  - intros n x. cbn. unfold icount. by destruct (n =? 0).
  - intros n l [m x]. apply Z.mod_pos_bound. lia.
  - intros a b c x. apply Z.mod_pos_bound. lia.
  - intros t l res x. cbn. unfold emulated, size_of, SIZEOF_EmuReply. rewrite length_take, length_app, length_replicate. lia.
Qed.
Definition asks : list request :=
  [NewThread; InstructionCount 5; Syscall 1 (le 8 1 ++ le 8 2); Magic 1 2 3; Syscall 9 (le 8 2); Sync; Emulate 4 (le 8 6) (replicate 48 0)].
Definition dialogue : list (call + request) := (inl <$> program) ++ (inr <$> take 4 asks) ++ inl (Output 2 [33]) :: (inr <$> drop 4 asks).
Definition at_first : world := mk_world [] 0.
Definition memory_at_first : bytes := [10; 20; 30; 40; 50; 60; 70; 80].
Lemma asks_ok : Forall (request_ok simulated) asks.
Proof.
  unfold request_ok. apply Forall_and. split; [ranges|].
  assert (handler_ok simulated Sync) as Hs by (hnf; repeat split; auto; done).
  constructor; [exact I|]. constructor; [exact I|]. constructor; [by apply syscall_runs_in|]. constructor; [exact I|].
  constructor; [by apply syscall_runs_in|]. constructor; [exact Hs|]. constructor; [exact I | constructor].
Qed.
Lemma dialogue_ok : Forall (step_ok simulated four) dialogue.
Proof.
  unfold dialogue. apply Forall_app. split; [rewrite Forall_fmap; exact program_ok|].
  pose proof asks_ok as H. rewrite <- (take_drop 4 asks) in H. apply Forall_app in H as [H1 H2].
  apply Forall_app. split; [by rewrite Forall_fmap|]. constructor; [ranges | by rewrite Forall_fmap].
Qed.
Abbreviation direct_dialogue := (direct_session mem_access sees simulated code_at no_frames four true 0 dialogue (memory_at_first, at_first)).
Lemma sift_session_witness : Forall (step_ok simulated four) dialogue ∧
  (∃ s, start false true false (memory_at_first, at_first) = Ok (true, s) ∧
   ∃ r w i, session 170 mem_access sees simulated code_at no_frames dialogue idle_inst s =
    Ok ((i, direct_dialogue.1), (r, (w, (None, direct_dialogue.2))))) ∧
  fst <$> direct_dialogue.1 = [7; 1; 841489940; 6; 1009920001; 0; 1] ∧
  direct_dialogue.2.1 = [0; 1; 9; 1; 50; 60; 70; 80] ∧ calls direct_dialogue.2.2 = 2.
Proof.
  split; [exact dialogue_ok|]. split; [|by vm_compute].
  apply (sift_session 170 mem_access sees simulated code_at no_frames mem_access_length simulated_in_range four false true no_frames_ok false dialogue idle_inst
    (memory_at_first, at_first)); [exact dialogue_ok | done].
Defined.
(** In a call with a count the program does not serve memory, and a handler that asks for it does
    not get on: no such handler [runs_in] the call. *)
Definition careless : simulator world := {|
  on_icount := λ _, Access 0 MemRead 0 [0] (λ _, Answer 0); on_syscall := syscall; on_new_thread := Answer 7; on_fork := Answer 7; on_join := λ _, Answer 7;
  on_magic := λ a b c, Answer 0; on_emu := λ _ req _, Answer (true, emulated req) |}.
Lemma count_serves_no_memory : (let! (_, s) := start false true false (memory_at_first, at_first) in session 170 mem_access sees careless code_at no_frames [inr (InstructionCount 5)] idle_inst s) = Err Diverges ∧
  ¬ request_ok careless (InstructionCount 5) ∧ request_ok careless Sync.
Proof. split; [by vm_compute|]. split; [by intros [_ (H & _)]|]. split; [done|]. cbn. split_and!; try done; try lia; auto. Qed.

(** ** What the records cannot say *)
Definition trace_of (cs : list call) : result bytes := let! (file, _) := (performs code_at no_frames cs;; Writer.End) (Writer.new false false true false) in Ok file.
Definition seen_in (file : bytes) : result (list event) :=
  let! (_, (_, x)) := run sees 170 told (S (length file)) idle_inst (Reader.new file false, at_first) in Ok (rev (seen x)).
Definition read_back (cs : list call) : result (list event) := let! file := trace_of cs in seen_in file.
Definition insn (a n : Z) (executed : bool) : call := Instruction a n [] false false false executed.
Definition delivered (a : Z) (l : bytes) (executed : bool) : event :=
  EInstruction a (size_of l) (l ++ replicate (16 - length l) 0) [] a [] false false false executed 0.
(** An instruction of size 0, which the writer accepts, right after another one: its record has
    the first byte of another kind of record. *)
Lemma size_zero_misread : is_ok (trace_of [insn 0x400000 4 true; insn 0x400004 0 true; Output 1 [65]]) = true ∧
  read_back [insn 0x400000 4 true; insn 0x400004 0 true; Output 1 [65]] = Err AssertFail.
Proof. by split; vm_compute. Qed.
(** An instruction that is not executed but has no predicate is executed in the trace if it
    follows the one before it in memory, and not executed if it does not. *)
Lemma not_executed_lost : read_back [insn 0x400000 4 true; insn 0x400004 4 false] = Ok [delivered 0x400000 [3; 10; 17; 24] true; delivered 0x400004 [31; 38; 45; 52] true] ∧
  read_back [insn 0x400000 4 true; insn 0x400008 4 false] = Ok [delivered 0x400000 [3; 10; 17; 24] true; delivered 0x400008 [59; 66; 73; 80] false].
Proof. by split; vm_compute. Qed.
(** The size of an instruction that is found as the follower of the last one is not looked at;
    found in the table, another size is an error. *)
Lemma other_size_unnoticed : read_back [insn 0x400000 4 true; insn 0x400010 2 true; insn 0x400000 4 true; insn 0x400010 3 true] =
    Ok [delivered 0x400000 [3; 10; 17; 24] true; delivered 0x400010 [115; 122] true; delivered 0x400000 [3; 10; 17; 24] true; delivered 0x400010 [115; 122] true] ∧
  read_back [insn 0x400000 4 true; insn 0x400010 2 true; insn 0x400010 3 true] = Err AssertFail.
Proof. by split; vm_compute. Qed.
(** Output of no bytes is written, and stops the reader. *)
Lemma empty_output_stops : is_ok (trace_of [Output 1 []]) = true ∧ read_back [Output 1 []] = Err AssertFail.
Proof. by split; vm_compute. Qed.
(** A trace without an end: the reader goes on to read an instruction from what is not there. *)
Lemma no_end_misread : (let! file := trace_of [insn 0x400000 4 true] in seen_in (take (length file - 6) file)) = Err OutOfRange.
Proof. by vm_compute. Qed.
(** After the end [Read] reports an instruction. *)
Lemma read_after_end : (let! file := trace_of [] in let! (_, s) := run sees 170 told (S (length file)) idle_inst (Reader.new file false, at_first) in
  let! (b, _) := Reader.Read 170 told idle_inst s in Ok b) = Ok (true, idle_inst).
Proof. by vm_compute. Qed.
Definition trace_record : bytes := other RecOtherOutput 2 ++ [1; 65] ++ other RecOtherEnd 0.
(** A file that is not a trace is refused, but read on the next call. *)
Lemma refused_then_read : (let! (b, s) := Reader.Read 170 told idle_inst (Reader.new (le 4 7 ++ le 4 0 ++ le 8 0 ++ trace_record) false, at_first) in
  let! (b', s) := Reader.Read 170 told idle_inst s in Ok (b.1, b'.1, seen s.2)) = Ok (false, false, [EOutput 1 [65]]).
Proof. by vm_compute. Qed.
(** On the last page of the address space the loop over the pages of an instruction does not end. *)
Lemma last_page_diverges w : Writer.icache w = ∅ → Writer.m_requires_icache_per_insn w = false → is_Some (Writer.output w) →
  Writer.Instruction (the_host code_at no_frames) (2 ^ 64 - 8) 4 [] false false false true w = Err Diverges.
Proof. destruct w as [[o|]]; cbn; intros -> -> [? [=]]. done. Qed.
(** A handler that writes no bytes to the program's memory gets no answer: the program goes on to
    wait, and so does the handler. *)
Lemma empty_write_unanswered w x : Writer.is_open w = true →
  Writer.Sync_round (accessMemory (State := world) mem_access) (Writer.set_response (other RecOtherMemoryRequest 20 ++ le 8 8 ++ le 4 0 ++ le 4 0 ++ le 4 MemWrite) w, x) =
  Ok (None, (Writer.set_response [] w, x)).
Proof. destruct w as [[o|]]; intros [=]. reflexivity. Qed.
(** A call that waits with [InstructionCount] does not serve memory: the request is taken for an
    answer, the rest of it is left in the pipe. *)
Lemma count_takes_request w : Writer.InstructionCount_recv (Writer.set_response (other RecOtherMemoryRequest 20 ++ le 8 8 ++ le 4 4 ++ le 4 0 ++ le 4 MemRead) w) =
  Ok (ModeUnknown, Writer.set_response (le 8 8 ++ le 4 4 ++ le 4 0 ++ le 4 MemRead) w).
Proof. done. Qed.
