(* ===== verification/CircularQueue.v ===== *)
(** [misc/circular_queue.h]: a ring of slots, and the bounded list that it stands for.

    [holds q l]: the queue [q] holds the elements [l], the oldest first.  What a client does
    through the operations is what it would do to the list ([queue_refines_list]). *)
From S2P Require Import Prelude.

Module CircularQueue.
Section queue.
Context {T : Type}.
(** [m_first]: the next element is inserted here; [m_last]: the oldest one is here. *)
Record t := mk { m_size : Z; m_first : Z; m_last : Z; m_queue : list T }.
(** [uninit_slots]: what is in memory. *)
Definition new (size : Z) (uninit_slots : list T) : t := mk (u32 (size + 1)) 0 0 uninit_slots.
Definition next_index (q : t) (i : Z) : result Z := umod (u32 (i + 1)) (m_size q).
Definition empty (q : t) : bool := m_first q =? m_last q.
Definition full (q : t) : result bool := let! i := next_index q (m_first q) in Ok (i =? m_last q).
Definition size (q : t) : result Z := umod (u32 (u32 (m_first q + m_size q) - m_last q)) (m_size q).
Definition slot (q : t) (i : Z) : result T := arr_get (m_queue q) (Z.to_nat i).
Definition push (x : T) (q : t) : result t :=
  let! f := full q in let! _ := check (negb f) AssertFail in
  let! l := arr_set (m_queue q) (Z.to_nat (m_first q)) x in
  let! i := next_index q (m_first q) in Ok (mk (m_size q) i (m_last q) l).
(** The slot that [next] makes part of the queue, with what it held before. *)
Definition next (q : t) : result (T * t) :=
  let! f := full q in let! _ := check (negb f) AssertFail in
  let! x := slot q (m_first q) in
  let! i := next_index q (m_first q) in Ok (x, mk (m_size q) i (m_last q) (m_queue q)).
Definition pop (q : t) : result (T * t) :=
  let! _ := check (negb (empty q)) AssertFail in
  let idx := m_last q in
  let! i := next_index q (m_last q) in
  let! x := slot q idx in Ok (x, mk (m_size q) (m_first q) i (m_queue q)).
Definition pushCircular (x : T) (q : t) : result t :=
  let! f := full q in
  if (f : bool) then let! (_, q) := pop q in push x q else push x q.
Definition front (q : t) : result T := let! _ := check (negb (empty q)) AssertFail in slot q (m_last q).
Definition back (q : t) : result T :=
  let! _ := check (negb (empty q)) AssertFail in
  let! i := umod (u32 (u32 (m_first q + m_size q) - 1)) (m_size q) in slot q i.
Definition get (q : t) (idx : Z) : result T := let! i := umod (u32 (m_last q + idx)) (m_size q) in slot q i.
Definition at_ (q : t) (idx : Z) : result T := let! n := size q in let! _ := check (idx <? n) AssertFail in get q idx.

(** ** The list *)
Record wf (q : t) : Prop := {
  wf_size : 1 < m_size q < 2 ^ 31;
  wf_first : 0 ≤ m_first q < m_size q;
  wf_last : 0 ≤ m_last q < m_size q;
  wf_slots : length (m_queue q) = Z.to_nat (m_size q);
}.
Definition count (q : t) : nat := Z.to_nat ((m_first q - m_last q) `mod` m_size q).
Definition nth_slot (q : t) (i : nat) : option T := m_queue q !! Z.to_nat ((m_last q + Z.of_nat i) `mod` m_size q).
(** [q] holds [l]. *)
Definition holds (q : t) (l : list T) : Prop := wf q ∧ length l = count q ∧ ∀ i, (i < length l)%nat → nth_slot q i = l !! i.
Definition capacity (q : t) : nat := Z.to_nat (m_size q - 1).

Lemma mod_once x n : 0 ≤ x < 2 * n → x `mod` n = if x <? n then x else x - n.
Proof. intros Hx. destruct (Z.ltb_spec x n); [apply Z.mod_small; lia | symmetry; apply (Z.mod_unique _ _ 1); lia]. Qed.
Lemma mod_minus_once x n : - n ≤ x < n → x `mod` n = if x <? 0 then x + n else x.
Proof. intros Hx. destruct (Z.ltb_spec x 0); [symmetry; apply (Z.mod_unique _ _ (-1)); lia | apply Z.mod_small; lia]. Qed.
Lemma next_index_ok q i : wf q → 0 ≤ i < m_size q → next_index q i = Ok ((i + 1) `mod` m_size q).
Proof.
  intros [Hs _ _ _] Hi. unfold next_index, umod. destruct (Z.eqb_spec (m_size q) 0); [lia|]. by rewrite u32_small by rlia.
Qed.
Lemma count_lt q : wf q → (count q ≤ capacity q)%nat.
Proof. intros [Hs Hf Hl _]. unfold count, capacity. pose proof (Z.mod_pos_bound (m_first q - m_last q) (m_size q)). lia. Qed.
Lemma size_ok q l : holds q l → size q = Ok (Z.of_nat (length l)).
Proof.
  intros ([Hs Hf Hl Hn] & -> & _). unfold size, umod. destruct (Z.eqb_spec (m_size q) 0); [lia|]. rewrite (u32_small (m_first q + _)), u32_small by rlia.
  f_equal. unfold count. rewrite Z2Nat.id by (apply Z.mod_pos_bound; lia). replace (m_first q + m_size q - m_last q) with (m_first q - m_last q + 1 * m_size q) by lia. by rewrite Z.mod_add by lia.
Qed.
Lemma empty_ok q l : holds q l → empty q = match l with [] => true | _ => false end.
Proof.
  intros ([Hs Hf Hl Hn] & Hlen & _). unfold empty, count in *. rewrite mod_minus_once in Hlen by lia.
  destruct (Z.eqb_spec (m_first q) (m_last q)) as [E|E]; destruct l; cbn in *; destruct (Z.ltb_spec (m_first q - m_last q) 0); first [done | lia].
Qed.
Lemma full_ok q l : holds q l → full q = Ok (bool_decide (length l = capacity q)).
Proof.
  intros (Hw & Hlen & _). pose proof Hw as [Hs Hf Hl Hn]. unfold full. rewrite next_index_ok by done. cbn [rbind]. f_equal. unfold count, capacity in *.
  rewrite mod_minus_once in Hlen by lia. rewrite mod_once by lia.
  destruct (Z.ltb_spec (m_first q + 1) (m_size q)), (Z.ltb_spec (m_first q - m_last q) 0); symmetry;
    (match goal with |- (?a =? ?b) = _ => destruct (Z.eqb_spec a b) | |- _ = (?a =? ?b) => destruct (Z.eqb_spec a b) end; [apply bool_decide_eq_true_2; lia | apply bool_decide_eq_false_2; lia]).
Qed.
Lemma nth_slot_lt q i : wf q → (Z.to_nat ((m_last q + Z.of_nat i) `mod` m_size q) < length (m_queue q))%nat.
Proof. intros [Hs Hf Hl Hn]. pose proof (Z.mod_pos_bound (m_last q + Z.of_nat i) (m_size q)). lia. Qed.
Lemma get_ok q l i x : holds q l → l !! i = Some x → get q (Z.of_nat i) = Ok x.
Proof.
  intros (Hw & Hlen & Hl) Hx. pose proof (count_lt q Hw) as Hc. pose proof (lookup_lt_Some _ _ _ Hx) as Hi. pose proof Hw as [Hs Hf Hla Hn]. unfold capacity in Hc.
  unfold get, umod. destruct (Z.eqb_spec (m_size q) 0); [lia|]. rewrite u32_small by rlia. cbn [rbind]. unfold slot, arr_get.
  pose proof (Hl i Hi) as Hs'. unfold nth_slot in Hs'. by rewrite Hs', Hx.
Qed.
Lemma at_ok q l i : holds q l → at_ q (Z.of_nat i) = match l !! i with Some x => Ok x | None => Err AssertFail end.
Proof.
  intros Hq. unfold at_. rewrite (size_ok _ _ Hq). cbn [rbind]. destruct (l !! i) as [x|] eqn:E.
  - apply lookup_lt_Some in E as Hi. destruct (Z.ltb_spec (Z.of_nat i) (Z.of_nat (length l))); [|lia]. cbn. by eapply get_ok.
  - apply lookup_ge_None in E. destruct (Z.ltb_spec (Z.of_nat i) (Z.of_nat (length l))); [lia | done].
Qed.
Lemma queue_front q l : holds q l → front q = match l with x :: _ => Ok x | [] => Err AssertFail end.
Proof.
  intros Hq. unfold front. rewrite (empty_ok _ _ Hq). destruct l as [|x l]; [done|]. cbn. destruct Hq as (Hw & Hlen & Hl). pose proof (Hl 0%nat ltac:(cbn; lia)) as H0.
  unfold nth_slot in H0. pose proof Hw as [Hs Hf Hla Hn]. rewrite Z.add_0_r, Z.mod_small in H0 by lia. unfold slot, arr_get. by rewrite H0.
Qed.
Lemma back_ok q l : holds q l → back q = match last l with Some x => Ok x | None => Err AssertFail end.
Proof.
  intros Hq. unfold back. rewrite (empty_ok _ _ Hq). destruct l as [|x l]; [done|]. cbn [negb check rbind]. destruct Hq as (Hw & Hlen & Hl). pose proof Hw as [Hs Hf Hla Hn].
  unfold umod. destruct (Z.eqb_spec (m_size q) 0); [lia|]. rewrite (u32_small (m_first q + _)), u32_small by rlia. cbn [rbind]. unfold slot, arr_get.
  rewrite last_lookup. set (k := length (x :: l)) in *. assert (0 < k)%nat by (cbn; lia). rewrite <- (Hl (pred k)) by lia. unfold nth_slot.
  assert ((m_first q + m_size q - 1) `mod` m_size q = (m_last q + Z.of_nat (pred k)) `mod` m_size q) as ->.
  { unfold count in Hlen. rewrite mod_minus_once in Hlen by lia. rewrite !mod_once by (destruct (Z.ltb_spec (m_first q - m_last q) 0); lia).
    destruct (Z.ltb_spec (m_first q - m_last q) 0), (Z.ltb_spec (m_first q + m_size q - 1) (m_size q)), (Z.ltb_spec (m_last q + Z.of_nat (pred k)) (m_size q)); lia. }
  destruct (m_queue q !! _) eqn:E; [done|]. apply lookup_ge_None in E. pose proof (nth_slot_lt q (pred k) Hw). lia.
Qed.
Lemma count_push q : wf q → (count q < capacity q)%nat → count (mk (m_size q) ((m_first q + 1) `mod` m_size q) (m_last q) (m_queue q)) = S (count q).
Proof.
  intros [Hs Hf Hl Hn] Hc. unfold count, capacity in *. cbn. rewrite mod_minus_once in Hc by lia. rewrite (mod_once (m_first q + 1)) by lia. rewrite !mod_minus_once by (destruct (Z.ltb_spec (m_first q + 1) (m_size q)); lia).
  destruct (Z.ltb_spec (m_first q + 1) (m_size q)), (Z.ltb_spec (m_first q - m_last q) 0); match goal with |- context [?a <? 0] => destruct (Z.ltb_spec a 0) end; lia.
Qed.
Lemma first_slot q : wf q → (count q < capacity q)%nat → m_first q = (m_last q + Z.of_nat (count q)) `mod` m_size q.
Proof.
  intros [Hs Hf Hl Hn] Hc. unfold count, capacity in *. rewrite Z2Nat.id by (apply Z.mod_pos_bound; lia). rewrite Zplus_mod_idemp_r. replace (m_last q + (m_first q - m_last q)) with (m_first q) by lia. by rewrite Z.mod_small.
Qed.
Lemma slots_distinct q i j : wf q → (i < capacity q)%nat → (j < i)%nat →
  Z.to_nat ((m_last q + Z.of_nat j) `mod` m_size q) ≠ Z.to_nat ((m_last q + Z.of_nat i) `mod` m_size q).
Proof.
  intros [Hs Hf Hl Hn] Hi Hj. unfold capacity in *. rewrite !mod_once by lia.
  destruct (Z.ltb_spec (m_last q + Z.of_nat j) (m_size q)), (Z.ltb_spec (m_last q + Z.of_nat i) (m_size q)); lia.
Qed.
Lemma push_ok q l x : holds q l → (length l < capacity q)%nat → ∃ q', push x q = Ok q' ∧ holds q' (l ++ [x]) ∧ capacity q' = capacity q.
Proof.
  intros Hq Hlt. pose proof Hq as (Hw & Hlen & Hl). pose proof Hw as [Hs Hf Hla Hn]. unfold push. rewrite (full_ok _ _ Hq). cbn [rbind]. rewrite bool_decide_eq_false_2 by lia. cbn [negb check rbind].
  assert (Hset : arr_set (m_queue q) (Z.to_nat (m_first q)) x = Ok (<[Z.to_nat (m_first q) := x]> (m_queue q))). { apply arr_set_ok. split; [lia | done]. }
  rewrite Hset. cbn [rbind]. rewrite next_index_ok by done. cbn [rbind]. eexists. split; [done|]. split; [|done].
  assert (Hc : (count q < capacity q)%nat) by lia. pose proof (first_slot q Hw Hc) as Ef. split; [|split].
  - split; cbn; [lia | apply Z.mod_pos_bound; lia | lia | by rewrite length_insert].
  - rewrite length_app, Hlen. cbn. pose proof (count_push q Hw Hc) as E. unfold count in *. cbn in *. lia.
  - intros i Hi. rewrite length_app in Hi. cbn in Hi. unfold nth_slot. cbn. rewrite Ef. destruct (decide (i < length l)%nat) as [Hi'|Hi'].
    + rewrite lookup_app_l by done. rewrite <- Hlen, list_lookup_insert_ne by (apply not_eq_sym; apply (slots_distinct q); [done | lia | done]). by apply Hl.
    + assert (i = length l) as -> by lia. rewrite <- Hlen, lookup_app_r, Nat.sub_diag by done. cbn. rewrite list_lookup_insert_eq; [done|]. apply (nth_slot_lt q _ Hw).
Qed.
Lemma queue_next q l : holds q l → (length l < capacity q)%nat → ∃ x q', next q = Ok (x, q') ∧ holds q' (l ++ [x]) ∧ capacity q' = capacity q.
Proof.
  intros Hq Hlt. pose proof Hq as (Hw & Hlen & Hl). pose proof Hw as [Hs Hf Hla Hn].
  destruct (lookup_lt_is_Some_2 (m_queue q) (Z.to_nat (m_first q))) as [x Hx]; [lia|]. destruct (push_ok q l x Hq Hlt) as (q' & Hp & Hq' & Hc). exists x, q'. split; [|done].
  revert Hp. unfold push, next. destruct (full q); [|done]. cbn. destruct (check _ _); [|done]. cbn. unfold slot, arr_get, arr_set. rewrite Hx. cbn. destruct (next_index _ _); [|done]. cbn.
  rewrite list_insert_id by done. by intros [= ->].
Qed.
Lemma pop_ok q l : holds q l → match l with
  | [] => pop q = Err AssertFail
  | x :: l => ∃ q', pop q = Ok (x, q') ∧ holds q' l ∧ capacity q' = capacity q
  end.
Proof.
  intros Hq. pose proof (empty_ok _ _ Hq) as Ee. pose proof (queue_front _ _ Hq) as Efr. unfold pop, front in *. rewrite Ee in *. destruct l as [|x l]; [done|]. cbn in *. pose proof Hq as (Hw & Hlen & Hl). pose proof Hw as [Hs Hf Hla Hn].
  rewrite next_index_ok by done. cbn [rbind]. rewrite Efr. cbn [rbind]. eexists. split; [done|]. split; [|done].
  split; [|split].
  - split; cbn; [lia | lia | apply Z.mod_pos_bound; lia | done].
  - unfold count in *. cbn in *. rewrite mod_minus_once in Hlen by lia. rewrite (mod_once (m_last q + 1)) by lia. rewrite mod_minus_once by (destruct (Z.ltb_spec (m_last q + 1) (m_size q)); lia).
    destruct (Z.ltb_spec (m_last q + 1) (m_size q)), (Z.ltb_spec (m_first q - m_last q) 0); match goal with |- context [if ?a <? 0 then _ else _] => destruct (Z.ltb_spec a 0) end; lia.
  - intros i Hi. change (l !! i) with ((x :: l) !! S i). rewrite <- Hl by (cbn; lia). unfold nth_slot. cbn [m_queue m_last m_size]. rewrite Zplus_mod_idemp_l. do 3 f_equal. lia.
Qed.

(** ** A client *)
Inductive op := Push (x : T) | PushCircular (x : T) | Pop.
Definition apply (o : op) (q : t) : result t :=
  match o with Push x => push x q | PushCircular x => pushCircular x q | Pop => let! (_, q) := pop q in Ok q end.
Definition apply_list (n : nat) (o : op) (l : list T) : result (list T) :=
  match o with
  | Push x => if bool_decide (length l = n) then Err AssertFail else Ok (l ++ [x])
  | PushCircular x => Ok ((if bool_decide (length l = n) then tail l else l) ++ [x])
  | Pop => match l with [] => Err AssertFail | _ :: l => Ok l end
  end.
Fixpoint runs (ops : list op) (q : t) : result t := match ops with [] => Ok q | o :: ops => let! q := apply o q in runs ops q end.
Fixpoint runs_list (n : nat) (ops : list op) (l : list T) : result (list T) :=
  match ops with [] => Ok l | o :: ops => let! l := apply_list n o l in runs_list n ops l end.
Definition same (n : nat) (r : result t) (r' : result (list T)) : Prop :=
  match r, r' with Ok q, Ok l => holds q l ∧ capacity q = n | Err e, Err e' => e = e' | _, _ => False end.
Lemma holds_length q l : holds q l → (length l ≤ capacity q)%nat.
Proof. intros (Hw & -> & _). by apply count_lt. Qed.
Lemma apply_same o q l : holds q l → same (capacity q) (apply o q) (apply_list (capacity q) o l).
Proof.
  intros Hq. pose proof (holds_length _ _ Hq) as Hle. assert (Hpush : ∀ x, same (capacity q) (push x q) (apply_list (capacity q) (Push x) l)).
  { intros x. cbn. case_bool_decide as Hf; [unfold push; rewrite (full_ok _ _ Hq), bool_decide_eq_true_2 by done; done|].
    destruct (push_ok q l x Hq) as (q' & -> & ? & ?); [lia | done]. }
  destruct o as [x|x|]; [apply Hpush | | ].
  - cbn [apply apply_list]. unfold pushCircular. rewrite (full_ok _ _ Hq). cbn [rbind]. specialize (Hpush x). cbn in Hpush. case_bool_decide as Hf; [|exact Hpush].
    pose proof (pop_ok _ _ Hq) as Hp. destruct l as [|y l]; [destruct Hq as ([? ? ? ?] & _); unfold capacity in Hf; cbn in Hf; lia|].
    destruct Hp as (q' & -> & Hq' & Hc). cbn [rbind tail]. destruct (push_ok q' l x Hq') as (q'' & -> & ? & ?); [rewrite Hc; cbn in Hf; lia|]. split; [done | by etrans].
  - cbn. pose proof (pop_ok _ _ Hq) as Hp. destruct l as [|y l]; [by rewrite Hp|]. by destruct Hp as (q' & -> & Hq' & Hc).
Qed.
(** [C40] A queue for [n] elements behaves as a list of at most [n]: for every sequence of
    insertions and removals the two fail at the same operation, or the queue ends up holding the
    list; its size, its first and last element and the one at any index are those of the list. *)
Theorem queue_refines_list n slots ops : 0 < n < 2 ^ 31 - 1 → length slots = S (Z.to_nat n) →
  match runs ops (new n slots), runs_list (Z.to_nat n) ops [] with
  | Ok q, Ok l => size q = Ok (Z.of_nat (length l)) ∧ (length l ≤ Z.to_nat n)%nat ∧
      (∀ i, at_ q (Z.of_nat i) = match l !! i with Some x => Ok x | None => Err AssertFail end) ∧
      front q = match l with x :: _ => Ok x | [] => Err AssertFail end ∧ back q = match last l with Some x => Ok x | None => Err AssertFail end
  | Err e, Err e' => e = e'
  | _, _ => False
  end.
Proof.
  intros Hn Hslots. assert (Hnew : holds (new n slots) []).
  { unfold holds, count. cbn. split_and!; [|by rewrite Z.mod_0_l by (rewrite u32_small by rlia; lia) | intros; lia].
    split; cbn; rewrite ?u32_small by rlia; lia. }
  assert (Hcap : capacity (new n slots) = Z.to_nat n). { unfold capacity. cbn. rewrite u32_small by rlia. lia. }
  revert Hnew Hcap. generalize (new n slots) ([] : list T). induction ops as [|o ops IH]; intros q l Hq Hc; cbn [runs runs_list].
  - rewrite <- Hc. split_and!; [exact (size_ok q l Hq) | exact (holds_length q l Hq) | exact (λ i, at_ok q l i Hq) | exact (queue_front q l Hq) | exact (back_ok q l Hq)].
  - pose proof (apply_same o q l Hq) as Hs. rewrite Hc in Hs. destruct (apply o q), (apply_list (Z.to_nat n) o l); cbn in *; [|done..]. destruct Hs. by apply IH.
Qed.
End queue.
Arguments t : clear implicits.
Arguments op : clear implicits.
Lemma queue_refines_list_witness : (0 < 3 < 2 ^ 31 - 1 ∧ length (replicate 4 (0:Z)) = S (Z.to_nat 3)) ∧
  match runs [Push 5; Push 6; Pop; Push 7; Push 8; PushCircular 9] (new 3 (replicate 4 0)), runs_list (Z.to_nat 3) [Push 5; Push 6; Pop; Push 7; Push 8; PushCircular 9] [] with
  | Ok q, Ok l => size q = Ok (Z.of_nat (length l)) ∧ (length l ≤ Z.to_nat 3)%nat ∧
      (∀ i, at_ q (Z.of_nat i) = match l !! i with Some x => Ok x | None => Err AssertFail end) ∧
      front q = match l with x :: _ => Ok x | [] => Err AssertFail end ∧ back q = match last l with Some x => Ok x | None => Err AssertFail end
  | Err e, Err e' => e = e'
  | _, _ => False
  end ∧ runs_list (Z.to_nat 3) [Push 5; Push 6; Pop; Push 7; Push 8; PushCircular 9] [] = Ok [7; 8; 9].
Proof.
  split; [by split|]. split; [|done].
  apply (queue_refines_list 3 (replicate 4 0) [Push 5; Push 6; Pop; Push 7; Push 8; PushCircular 9]); [lia | done].
Defined.
End CircularQueue.
